(* ===== verification/_CoqProject ===== *)
-Q . S2P
Prelude.v
Clock.v
Constants.v
Replay.v
Ip.v
Cidr.v
Rate.v
Firewall.v
Messages.v
Effect.v
PrefixTrie.v
TrieInv.v
TrieMap.v
Routing.v
Relay.v
Crypto.v
Noise.v
Cookie.v
Session.v
SessionIndex.v
Pending.v
Peer.v
Pool.v
Deadlines.v
Rotation.v
Resolve.v
WallClock.v
Load.v
Core.v
Demo.v
Handshake.v
Transport.v
Frame.v
Resolver.v
Respond.v
Receive.v
Aloof.v
Delivery.v
Evict.v
Upsert.v
Answers.v
Timers.v
Attempts.v
Drain.v
Engine.v
Config.v
Construct.v
Utf8.v
CliLexer.v
CliEditor.v
CliText.v
CliSchema.v
CliParse.v
CliDerive.v
CliRoundTrip.v
CliComplete.v
Telnet.v
TelnetPair.v
TelnetTable.v
ComPort.v
TelnetClient.v
TelnetServer.v
TelnetBinary.v
Proc.v
Ymodem.v
YmodemPair.v
Ws.v
WsSession.v
Registry.v
Watch.v
Rpc.v
RpcFacts.v
Mcuboot.v
McubootFacts.v
Dhcp.v
DeviceConfig.v
ApiSession.v
