(* ===== verification/Prelude.v ===== *)
(** * microtun: a verification development

    microtun is a WireGuard-compatible VPN engine for microcontrollers. Its protocol
    engine is the crate [src/microtun-core]: a state machine without I/O that an
    embedding feeds packets, resolver answers and the time, and that answers through a
    sink. The other crates are embeddings (tokio, embassy, firmware), a tracker service,
    a command-line framework and small protocol libraries around it.

    This library models the engine whole: every table and every handler of [lib.rs] and
    [resolver.rs], and the modules they are built on. Around it, it models the programs of
    the other crates that have state or a format of their own: telnet, YMODEM and WebSocket
    connections, firmware images, the command line, the tracker's registry and service, the
    Peers API session, the DHCP server and the configuration file of a device. They meet at
    messages: a tracker serves sessions over WebSocket, a session's change handler feeds a
    resolver, and the resolver answers the engine.

    ** Conventions

    - An unsigned integer is a [Z] and a width ([is_u8] ... [is_u64]); saturating,
      wrapping and checked operators are written out. A buffer is a [list Z] of bytes.
    - A handle into the peer table or the session pool is a [nat].
    - A method [fn f(&mut self, ..) -> Result<A, Error>] is an [Eff S A]: from a state to
      a result and the state reached, also when it fails (file Effect). A method that
      touches one table is an effect on that table, lifted by [zoom].
    - [Option]s and iterator searches are [option] and [position]; hash and index maps
      are [gmap]s with the code's capacity check written out.
    - The allocation-free backend is modelled where the features differ.
    - Logging and zeroisation have no functional content. [async] handlers are modelled
      between their suspension points, which hand a datagram to the sink: the sink is
      the list of outputs, and it never calls back into the engine.

    ** What is a parameter

    - [Prims] and [PrimLaws] (Crypto): the external crates for X25519, BLAKE2s and the two
      AEADs; the laws are agreement, decryption of what was sealed, and lengths. [RngCore]
      is the caller's generator. The Module Crypto.Toy is an instance.
    - [Cidr] and [CidrLaws] (Cidr): the external cidr crate. [CidrModel] is an instance.
    - [PrefixMap] and [PrefixMapLaws] (Cidr): what the prefix trie promises the route
      cache; [MapModel] is an instance, and the trie itself is the instance
      [trie_ops] with [trie_laws] (TrieMap).
    - [authorize] in the state (Core): the embedding's relay policy, which
      the code may let keep a state of its own and here has none. [accepts]: whether
      its sink takes a lookup.
    - [Sizes] (Core): the const generics of [Core].
    - Each program around the engine names its own: hashes and signatures, the flash, the
      TOML parser, JSON ([Json] with [JsonLaws] in ApiSession), policies and handlers.

    ** Files

    The tables and codecs, each with its invariant:
    - Clock ([time.rs]): instants, the timer cache as a lower bound.
    - Constants ([constants.rs]).
    - Replay ([replay.rs]): the window of bits, refined to the set of seen counters; no
      counter is accepted twice.
    - Ip ([ip.rs]), Messages ([messages.rs]), Relay ([relay.rs]): parsers and layouts.
    - Rate ([rate.rs]): token buckets, the per-source table, the interval budget.
    - Firewall ([firewall.rs]): return traffic of recorded flows only.
    - Routing ([routing.rs]): longest prefix match with capacity and eviction.
    - PrefixTrie, TrieInv, TrieMap ([prefix_trie.rs]): runs of bits, the node pool, the trie's operations, its
      invariant with a ghost map from nodes to prefixes, and that it is a finite map with
      longest-prefix match.
    - Crypto, Noise, Cookie ([crypto.rs], [noise.rs], [cookie.rs]): the handshake agrees
      on keys; a cookie challenge can be met.
    - Session, SessionIndex, Pending, Peer ([session.rs], [session_index.rs],
      [pending.rs], [peer.rs]): lifetimes, receiver indices, parked packets, the four
      session generations of a peer.
    The engine's state and handlers ([lib.rs], [resolver.rs]):
    - Pool: the peer table and the slot pool with both reverse indices ([pool_inv]).
    - Deadlines: the deadlines that are live, as a multiset, and the relation a handler
      stands in to them ([adv_on]). Rotation: slot rotation under it.
    - Resolve: the resolver's tables. WallClock, Load: timestamps, load detection.
    - Core: the state of the engine, its invariant [core_inv], its live deadlines [live]
      and the relation [moves] every handler satisfies: the invariant is kept and every
      deadline added is later than now and covered by the timer cache.
    - Handshake, Transport, Frame: initiations; sealing and sending; the wire image of a
      data message. Resolver: lookups, negative markers, owed reconciliations.
    - Respond, Receive: the receive path. Delivery: what it delivers.
    - Aloof: what handlers leave alone. Evict, Upsert, Answers: eviction, admission and
      the answers of the resolver; the public entry points.
    - Timers: [poll_at], [scan_deadlines], [timeout], [handle_timeout]. Attempts: attempt
      deadlines belong to running handshakes. Drain: what a timer action achieves.
    - Engine: the engine as a state machine over all its entry points.
    - Config, Construct ([config.rs], [Core::new]): what is checked and what is built.
    Demo holds the concrete engines of the witnesses.

    The programs around the engine:
    - Telnet, TelnetPair, TelnetTable, ComPort, TelnetClient, TelnetServer, TelnetBinary
      ([microtun-telnet]): option negotiation, alone and of two peers, and serial ports.
    - Proc, Ymodem, YmodemPair ([microtun-ymodem]): a file transfer, alone and end to end.
    - Ws, WsSession ([microtun-ws]): frames, connections and whole messages.
    - Registry, Watch, Rpc, RpcFacts ([microtun/src/commands/tracker], and the key texts of
      [microtun-core/src/key.rs]): the registry, its
      watchers, and the service with its limits.
    - ApiSession ([microtun-api]: [session.rs], [message.rs], the change handler of
      [client.rs]): calls, dispatch and queued invalidations.
    - Utf8, CliLexer, CliEditor, CliText, CliSchema, CliParse, CliDerive, CliRoundTrip,
      CliComplete ([microtun-cli], [microtun-cli-macros]): strings, the words of a line, the
      line editor, the schema, the argument cursor and what the derive macros generate.
    - Mcuboot, McubootFacts ([microtun-mcuboot]): the streaming verifier of images.
    - Dhcp ([microtun-net-util/src/dhcp.rs]): the lease table and the messages.
    - DeviceConfig ([microtun-core/src/device_config.rs]): the receiver of the
      TOML parser's events and the checks of a configuration.

    ** What the theorems show

    - Engine: in every state that any sequence of calls reaches, all tables satisfy their
      invariants and [poll_at] is at or before every live deadline; [scan_deadlines] is
      exact; calling [handle_timeout] until it answers [false] ends with nothing due,
      unless the negative lifetime is configured to be zero.
    - Delivery: an inner packet is delivered only when it was opened under a session of
      the peer its source address routes to and its policy admits it; never twice for one
      datagram; and what a peer seals is what the other delivers.
    - Handshake, Noise, Transport, Replay, WallClock: keys agree, send counters and
      timestamps never repeat, no counter is accepted twice.
    - Evict, Pool, Peer, SessionIndex: eviction, allocation and rotation leave no dangling
      reference; failures change nothing.
    - Firewall, Rate, Routing, Cookie, Load, Ip, Relay, Messages: the contracts of the
      tables and codecs.

    - Construct: what [Core::new] accepts is ready, and every call keeps it ready.
    - TelnetPair, TelnetTable: negotiation ends with both sides agreed, and the size of the
      option table does not show. YmodemPair, Ymodem: transfers deliver the file. WsSession:
      messages arrive as sent. RpcFacts: a watcher is never left with a stale record.
    - ApiSession: a call returns the answer made for it, and a notice that raced it is
      queued when it returns, or a full bounded queue has raised its flag.
    - CliComplete, CliRoundTrip, CliLexer, CliText, CliEditor: completion, editor and lexer
      agree; the arguments of a struct written as a line are parsed back.
    - McubootFacts: exactly the authentic containers are accepted. Dhcp: an address has one
      holder and an offer is honoured. DeviceConfig: which documents mean which
      configurations.

    ** Bounds and fuel

    Some loops of the source are not structural. Those of the trie descend by an edge of at
    least one bit of a key of at most 128, so 130 rounds are enough. [alloc_resolve_id] takes as fuel one more
    than the number of live lookups, which suffices ([alloc_id_loop_terminates]). The
    loops that empty the parking pool take as fuel one more than its size, since every
    round frees a place. The pass of [flush_sink_output] takes the number of lookups:
    every round marks one as emitted. [drain] needs one call per due deadline and one
    more ([timers_drain]). The insertion orders of the route cache are 64-bit counters
    the code checks: the invariant of the engine holds for the first 2^64 resolver
    events. The option loop of a DHCP request takes the packet's length ([option_loop_fuel]).

    ** Not modelled

    - Peer snapshots only read. The textual address parsers of [ip.rs] only call the
      cidr crate.
    - The embeddings ([microtun-std], [microtun-embassy]), the firmware and the host
      commands: sockets, tasks, devices and terminals. The clients' reconnect loops, the
      record codecs of [microtun-api/src/lib.rs] and [jitter.rs] are left out.
    - The tracker's network stack and its YAML file; the mDNS responder and [ping.rs]; the
      compile-time part of the derive macros and the rendering of help. *)

From stdpp Require Export base list gmap.
From Stdlib Require Export ZArith Lia Bool.

(** [lia] that also reasons about division and modulo by constants. *)
Ltac dlia := Z.div_mod_to_equations; lia.

Declare Scope mt_scope.
Delimit Scope mt_scope with mt.

(** ** Machine-width integers: a value is a [Z]; the width is explicit. *)

Definition u8_max : Z := 255.
Definition u16_max : Z := 65535.
Definition u32_max : Z := 4294967295.
Definition u64_max : Z := 18446744073709551615.

Definition is_u8 (z : Z) : Prop := (0 <= z <= u8_max)%Z.
Definition is_u16 (z : Z) : Prop := (0 <= z <= u16_max)%Z.
Definition is_u32 (z : Z) : Prop := (0 <= z <= u32_max)%Z.
Definition is_u64 (z : Z) : Prop := (0 <= z <= u64_max)%Z.

(** [saturating_add] / [saturating_mul] at a width given by its maximum, and
    [saturating_sub] of unsigned integers. *)
Definition sat_add (max a b : Z) : Z := Z.min max (a + b).
Definition sat_mul (max a b : Z) : Z := Z.min max (a * b).
Definition sat_sub (a b : Z) : Z := Z.max 0 (a - b).
(** [wrapping_add] at a width given by its maximum. *)
Definition wrap_add (max a b : Z) : Z := ((a + b) mod (max + 1))%Z.

(** Handles into the peer table and the session pool.  They are [u32] in the
    code; [Core::new] rejects pool sizes they cannot address, so every
    [as usize] cast of one is the identity. *)
Notation PeerIdx := nat (only parsing).
Notation SlotIdx := nat (only parsing).

(** ** Slices *)

(** [buf.get(start..start+len)]: [None] when the range leaves the slice. *)
Definition slice (buf : list Z) (start len : nat) : option (list Z) :=
  if decide (start + len <= length buf) then Some (take len (drop start buf)) else None.

(** [buf[start..start+len(src)].copy_from_slice(src)] inside the buffer. *)
Definition blit (buf : list Z) (start : nat) (src : list Z) : list Z :=
  take start buf ++ src ++ drop (start + length src) buf.

(** ** Byte order codecs *)

Fixpoint le_bytes (n : nat) (z : Z) : list Z :=
  match n with
  | O => []
  | S n => (z mod 256)%Z :: le_bytes n (z / 256)
  end.

Fixpoint le_value (bs : list Z) : Z :=
  match bs with
  | [] => 0
  | b :: bs => (b + 256 * le_value bs)%Z
  end.

Definition be_bytes (n : nat) (z : Z) : list Z := reverse (le_bytes n z).
Definition be_value (bs : list Z) : Z := le_value (reverse bs).

(** ** Iterating a boolean predicate *)

(** [iter().position(p)] *)
Fixpoint position {A} (p : A -> bool) (l : list A) : option nat :=
  match l with
  | [] => None
  | x :: l => if p x then Some 0 else S <$> position p l
  end.

(** [iter().enumerate().filter(keep).min_by_key(key)]: the first element of
    least key among the kept ones, as Rust's [min_by_key] returns. *)
Fixpoint min_by_key_from {A} (keep : nat -> A -> bool) (lt : A -> A -> bool)
    (i : nat) (best : option (nat * A)) (l : list A) : option (nat * A) :=
  match l with
  | [] => best
  | x :: l =>
      let best' :=
        if keep i x then
          match best with
          | None => Some (i, x)
          | Some (j, y) => if lt x y then Some (i, x) else Some (j, y)
          end
        else best in
      min_by_key_from keep lt (S i) best' l
  end.
Definition min_by_key {A} (keep : nat -> A -> bool) (lt : A -> A -> bool)
    (l : list A) : option (nat * A) :=
  min_by_key_from keep lt 0 None l.

(** [Vec::retain] *)
Fixpoint retain {A} (p : A -> bool) (l : list A) : list A :=
  match l with
  | [] => []
  | x :: l => if p x then x :: retain p l else retain p l
  end.

(** ** Tactics *)

(** Destructs the scrutinee of a match or if found in the goal. *)
Ltac case_goal :=
  match goal with
  | |- context [match ?x with _ => _ end] => destruct x eqn:?
  end.

(** The same for a hypothesis. *)
Ltac case_hyp H :=
  match type of H with
  | context [match ?x with _ => _ end] => destruct x eqn:?
  end.

(** Turns boolean comparisons in the context into propositions. *)
Ltac bool_to_prop :=
  repeat match goal with
  | H : (_ && _)%bool = true |- _ => apply andb_true_iff in H as [? ?]
  | H : (_ && _)%bool = false |- _ => apply andb_false_iff in H
  | H : (_ || _)%bool = false |- _ => apply orb_false_iff in H as [? ?]
  | H : (_ || _)%bool = true |- _ => apply orb_true_iff in H
  | H : negb _ = true |- _ => apply negb_true_iff in H
  | H : negb _ = false |- _ => apply negb_false_iff in H
  | H : (_ =? _)%Z = true |- _ => apply Z.eqb_eq in H
  | H : (_ =? _)%Z = false |- _ => apply Z.eqb_neq in H
  | H : (_ <? _)%Z = true |- _ => apply Z.ltb_lt in H
  | H : (_ <? _)%Z = false |- _ => apply Z.ltb_ge in H
  | H : (_ <=? _)%Z = true |- _ => apply Z.leb_le in H
  | H : (_ <=? _)%Z = false |- _ => apply Z.leb_gt in H
  | H : (_ =? _)%nat = true |- _ => apply Nat.eqb_eq in H
  | H : (_ =? _)%nat = false |- _ => apply Nat.eqb_neq in H
  | H : (_ <? _)%nat = true |- _ => apply Nat.ltb_lt in H
  | H : (_ <? _)%nat = false |- _ => apply Nat.ltb_ge in H
  | H : (_ <=? _)%nat = true |- _ => apply Nat.leb_le in H
  | H : (_ <=? _)%nat = false |- _ => apply Nat.leb_gt in H
  | H : bool_decide _ = true |- _ => apply bool_decide_eq_true in H
  | H : bool_decide _ = false |- _ => apply bool_decide_eq_false in H
  end.

(** Closes an arithmetic goal from boolean guards, splitting disjunctions. *)
Ltac bool_lia := bool_to_prop; destruct_or?; bool_to_prop; try congruence; try lia.

(** ** Shared lemmas *)

Create HintDb mt.
Create Rewrite HintDb mt.

Lemma sat_add_bound max a b : (0 <= max -> 0 <= a -> 0 <= b -> 0 <= sat_add max a b <= max)%Z.
Proof. unfold sat_add. lia. Qed.

Lemma sat_sub_nonneg a b : (0 <= sat_sub a b)%Z.
Proof. unfold sat_sub. lia. Qed.

#[export] Hint Resolve sat_add_bound sat_sub_nonneg : mt.

Lemma length_blit buf start src :
  start + length src <= length buf -> length (blit buf start src) = length buf.
Proof. intros. unfold blit. rewrite !length_app, length_take, length_drop. lia. Qed.

Lemma slice_Some buf start len bs :
  slice buf start len = Some bs <->
  start + len <= length buf /\ bs = take len (drop start buf).
Proof. unfold slice. case_decide; naive_solver. Qed.

Lemma slice_length buf start len bs : slice buf start len = Some bs -> length bs = len.
Proof. intros [H ->]%slice_Some. rewrite length_take, length_drop. lia. Qed.

Lemma length_le_bytes n z : length (le_bytes n z) = n.
Proof. revert z. induction n; simpl; auto. Qed.

Lemma le_value_bytes n z :
  le_value (le_bytes n z) = (z mod 256 ^ Z.of_nat n)%Z.
Proof.
  revert z. induction n as [|n IH]; intros z; cbn [le_bytes le_value].
  - by rewrite Z.mod_1_r.
  - rewrite IH, Nat2Z.inj_succ, Z.pow_succ_r by lia.
    rewrite (Z.rem_mul_r z 256 (256 ^ Z.of_nat n)) by lia. done.
Qed.

Lemma le_bytes_value bs :
  Forall is_u8 bs -> le_bytes (length bs) (le_value bs) = bs.
Proof.
  induction 1 as [|b bs Hb _ IH]; cbn [length le_bytes le_value]; [done|].
  unfold is_u8, u8_max in Hb.
  replace ((b + 256 * le_value bs) mod 256)%Z with b by dlia.
  replace ((b + 256 * le_value bs) / 256)%Z with (le_value bs) by dlia.
  by rewrite IH.
Qed.

Lemma le_value_bound bs :
  Forall is_u8 bs -> (0 <= le_value bs < 256 ^ Z.of_nat (length bs))%Z.
Proof.
  induction 1 as [|b bs Hb _ IH]; cbn [length le_value]; [lia|].
  rewrite Nat2Z.inj_succ, Z.pow_succ_r by lia. unfold is_u8, u8_max in Hb. lia.
Qed.

Lemma le_bytes_u8 n z : Forall is_u8 (le_bytes n z).
Proof.
  revert z. induction n; intros z; constructor; [|auto].
  unfold is_u8, u8_max. dlia.
Qed.

Lemma length_be_bytes n z : length (be_bytes n z) = n.
Proof. unfold be_bytes. by rewrite length_reverse, length_le_bytes. Qed.

Lemma be_value_bytes n z : be_value (be_bytes n z) = (z mod 256 ^ Z.of_nat n)%Z.
Proof. unfold be_value, be_bytes. by rewrite reverse_involutive, le_value_bytes. Qed.

Lemma be_value_bound bs :
  Forall is_u8 bs -> (0 <= be_value bs < 256 ^ Z.of_nat (length bs))%Z.
Proof.
  intros H. unfold be_value.
  rewrite <- (length_reverse bs). by apply le_value_bound, Forall_reverse.
Qed.

#[export] Hint Resolve length_le_bytes length_be_bytes le_bytes_u8 : mt.
#[export] Hint Rewrite length_le_bytes length_be_bytes : mt.

Lemma position_Some {A} (p : A -> bool) l i :
  position p l = Some i <->
  exists x, l !! i = Some x /\ p x = true /\ (forall j y, j < i -> l !! j = Some y -> p y = false).
Proof.
  revert i. induction l as [|x l IH]; intros i; simpl.
  - split; [done|]. intros (y & Hy & _). by rewrite lookup_nil in Hy.
  - destruct (p x) eqn:Hpx.
    + split.
      * intros [= <-]. exists x. repeat split; auto. intros j y Hj. lia.
      * intros (y & Hy & Hpy & Hlt). destruct i as [|i]; [done|].
        specialize (Hlt 0 x ltac:(lia) eq_refl). congruence.
    + split.
      * intros (i' & Hi' & ->)%fmap_Some. apply IH in Hi' as (y & Hy & Hpy & Hlt).
        exists y. repeat split; auto.
        intros [|j] z Hj Hz; simpl in Hz; [congruence|]. apply (Hlt j); [lia|done].
      * intros (y & Hy & Hpy & Hlt). destruct i as [|i]; simpl in Hy; [congruence|].
        apply fmap_Some. exists i. split; [|done]. apply IH. exists y.
        repeat split; auto. intros j z Hj Hz. apply (Hlt (S j)); [lia|done].
Qed.

Lemma position_None {A} (p : A -> bool) l :
  position p l = None <-> Forall (fun x => p x = false) l.
Proof.
  induction l as [|x l IH]; simpl; [by split|].
  destruct (p x) eqn:Hpx.
  - split; [done|]. intros H. inversion H; congruence.
  - rewrite fmap_None, IH. split; [by constructor|]. by inversion 1.
Qed.

Lemma retain_filter {A} (p : A -> bool) l : retain p l = filter (fun x => p x = true) l.
Proof.
  induction l as [|x l IH]; simpl; [done|]. rewrite filter_cons, IH.
  destruct (p x) eqn:Hp; case_decide; congruence.
Qed.

Lemma elem_of_retain {A} (p : A -> bool) l x : x ∈ retain p l <-> p x = true /\ x ∈ l.
Proof. rewrite retain_filter, list_elem_of_filter. done. Qed.

Lemma NoDup_fmap_retain {A B} (f : A -> B) (p : A -> bool) l :
  NoDup (f <$> l) -> NoDup (f <$> retain p l).
Proof.
  induction l as [|x l IH]; simpl; [done|]. rewrite NoDup_cons. intros [Hx Hnd].
  destruct (p x); [|auto]. simpl. apply NoDup_cons. split; [|auto].
  intros (y & E & [_ Hy]%elem_of_retain)%list_elem_of_fmap. apply Hx. rewrite E.
  by apply list_elem_of_fmap_2.
Qed.

Lemma Forall_retain {A} (P : A -> Prop) (p : A -> bool) l : Forall P l -> Forall P (retain p l).
Proof. rewrite !Forall_forall. intros H x [_ Hx]%elem_of_retain. auto. Qed.

Lemma length_retain {A} (p : A -> bool) l : length (retain p l) <= length l.
Proof. induction l as [|x l IH]; simpl; [lia|]. destruct (p x); simpl; lia. Qed.

Lemma retain_all {A} (p : A -> bool) l : Forall (fun x => p x = true) l -> retain p l = l.
Proof. induction 1 as [|x l Hx _ IH]; simpl; [done|]. by rewrite Hx, IH. Qed.

Lemma min_by_key_from_spec {A} (keep : nat -> A -> bool) (lt : A -> A -> bool)
    (Htr : forall a b c, lt a b = false -> lt b c = false -> lt a c = false)
    (Has : forall a b, lt a b = true -> lt b a = false)
    (l pre : list A) (best : option (nat * A)) :
  (forall i x, best = Some (i, x) -> pre !! i = Some x /\ keep i x = true /\
     forall j y, pre !! j = Some y -> keep j y = true -> lt y x = false) ->
  (best = None -> forall j y, pre !! j = Some y -> keep j y = false) ->
  match min_by_key_from keep lt (length pre) best l with
  | Some (i, x) => (pre ++ l) !! i = Some x /\ keep i x = true /\
      forall j y, (pre ++ l) !! j = Some y -> keep j y = true -> lt y x = false
  | None => forall j y, (pre ++ l) !! j = Some y -> keep j y = false
  end.
Proof.
  assert (Hrefl : forall x, lt x x = false).
  { intros x. destruct (lt x x) eqn:E; [|done]. by rewrite (Has _ _ E) in E. }
  revert pre best. induction l as [|x l IH]; intros pre best Hs Hn; simpl.
  - rewrite app_nil_r. destruct best as [[i y]|]; eauto.
  - replace (pre ++ x :: l) with ((pre ++ [x]) ++ l) by (by rewrite <- app_assoc).
    replace (S (length pre)) with (length (pre ++ [x])) by (rewrite length_app; simpl; lia).
    assert (Hsplit : forall j y, (pre ++ [x]) !! j = Some y ->
      pre !! j = Some y \/ j = length pre /\ y = x).
    { intros j y [?|[? Hj]]%lookup_app_Some; [by left|]. right.
      apply list_lookup_singleton_Some in Hj as [? ->]. split; [lia|done]. }
    apply IH; clear IH.
    + intros i y E. destruct (keep (length pre) x) eqn:Hk; last first.
      { destruct (Hs _ _ E) as (H1 & H2 & H3). split; [by apply lookup_app_l_Some|].
        split; [done|]. intros j z [Hz|[-> ->]]%Hsplit Hkz; [eauto|congruence]. }
      destruct best as [[j z]|].
      * destruct (Hs _ _ eq_refl) as (H1 & H2 & H3).
        destruct (lt x z) eqn:Hlt; injection E as <- <-.
        -- split; [by apply list_lookup_middle|]. split; [done|].
           intros j' y' [Hz|[-> ->]]%Hsplit Hkz; [|done].
           eapply Htr; [by eapply H3|]. by apply Has.
        -- split; [by apply lookup_app_l_Some|]. split; [done|].
           intros j' y' [Hz|[-> ->]]%Hsplit Hkz; [by eapply H3|done].
      * injection E as <- <-. split; [by apply list_lookup_middle|]. split; [done|].
        intros j y [Hz|[-> ->]]%Hsplit Hkz; [|done].
        by rewrite (Hn eq_refl _ _ Hz) in Hkz.
    + intros E j y [Hz|[-> ->]]%Hsplit; destruct (keep (length pre) x) eqn:Hk; try done.
      * destruct best as [[]|]; [|done]. by destruct (lt _ _).
      * eauto.
      * destruct best as [[]|]; [|done]. by destruct (lt _ _).
Qed.

Lemma min_by_key_spec {A} (keep : nat -> A -> bool) (lt : A -> A -> bool)
    (Htr : forall a b c, lt a b = false -> lt b c = false -> lt a c = false)
    (Has : forall a b, lt a b = true -> lt b a = false) (l : list A) :
  match min_by_key keep lt l with
  | Some (i, x) => l !! i = Some x /\ keep i x = true /\
      forall j y, l !! j = Some y -> keep j y = true -> lt y x = false
  | None => forall j y, l !! j = Some y -> keep j y = false
  end.
Proof. apply (min_by_key_from_spec keep lt Htr Has l [] None); [done|]. intros _ ? ?. by rewrite lookup_nil. Qed.

(** ** Slices of concatenations *)

Lemma slice_is buf start len :
  start + len <= length buf -> slice buf start len = Some (take len (drop start buf)).
Proof. intros H. unfold slice. by rewrite decide_True. Qed.

Lemma slice_app_skip a b start len :
  length a <= start -> slice (a ++ b) start len = slice b (start - length a) len.
Proof.
  intros H. unfold slice. rewrite length_app, drop_app_ge by done.
  destruct (decide _), (decide _); try done; lia.
Qed.

Lemma slice_app_here a b len : length a = len -> slice (a ++ b) 0 len = Some a.
Proof.
  intros <-. rewrite slice_is by (rewrite length_app; lia).
  by rewrite drop_0, take_app_length.
Qed.

Lemma slice_exact a len : length a = len -> slice a 0 len = Some a.
Proof. intros H. rewrite <- (app_nil_r a) at 1. by apply slice_app_here. Qed.

Lemma slice_app_l a b start len :
  start + len <= length a -> slice (a ++ b) start len = slice a start len.
Proof.
  intros H. rewrite !slice_is by (rewrite ?length_app; lia).
  rewrite drop_app_le, take_app_le by (rewrite ?length_drop; lia). done.
Qed.

Lemma take_drop_glue {A} (l : list A) start len stop :
  stop = start + len -> take len (drop start l) ++ drop stop l = drop start l.
Proof. intros ->. by rewrite <- drop_drop, take_drop. Qed.

Lemma take_drop_end {A} (l : list A) start len :
  length l <= start + len -> take len (drop start l) = drop start l.
Proof. intros H. apply take_ge. rewrite length_drop. lia. Qed.

Lemma le_bytes_slice n (l : list Z) start :
  Forall is_u8 l -> start + n <= length l ->
  le_bytes n (le_value (take n (drop start l))) = take n (drop start l).
Proof.
  intros H Hl. assert (Hn : length (take n (drop start l)) = n) by (rewrite length_take, length_drop; lia).
  rewrite <- Hn at 1. apply le_bytes_value. by apply Forall_take, Forall_drop.
Qed.

Lemma le_value_slice_bound n (l : list Z) start :
  Forall is_u8 l -> (0 <= le_value (take n (drop start l)) < 256 ^ Z.of_nat n)%Z.
Proof.
  intros H. assert (Hf : Forall is_u8 (take n (drop start l))) by by apply Forall_take, Forall_drop.
  pose proof (le_value_bound _ Hf) as Hb.
  assert (256 ^ Z.of_nat (length (take n (drop start l))) <= 256 ^ Z.of_nat n)%Z.
  { apply Z.pow_le_mono_r; [lia|]. rewrite length_take. lia. }
  lia.
Qed.

(** A buffer as the concatenation of fields of given sizes. *)
Fixpoint split_layout (layout : list nat) (buf : list Z) : list (list Z) :=
  match layout with
  | [] => []
  | n :: layout => take n buf :: split_layout layout (drop n buf)
  end.

Lemma concat_split_layout layout buf :
  length buf = sum_list layout -> concat (split_layout layout buf) = buf.
Proof.
  revert buf. induction layout as [|n layout IH]; intros buf; cbn.
  - intros ?%nil_length_inv. done.
  - intros H. rewrite IH by (rewrite length_drop; lia). apply take_drop.
Qed.

Lemma lengths_split_layout layout buf :
  length buf = sum_list layout -> length <$> split_layout layout buf = layout.
Proof.
  revert buf. induction layout as [|n layout IH]; intros buf; cbn; [done|].
  intros H. rewrite IH by (rewrite length_drop; lia). f_equal. rewrite length_take. lia.
Qed.

Lemma slice_concat fs i f :
  fs !! i = Some f -> slice (concat fs) (sum_list (take i (length <$> fs))) (length f) = Some f.
Proof.
  revert i. induction fs as [|g fs IH]; intros [|i] H; cbn in *; try done.
  - injection H as ->. by apply slice_app_here.
  - rewrite slice_app_skip by lia. replace (_ - _) with (sum_list (take i (length <$> fs))) by lia.
    by apply IH.
Qed.

(** [&msg\[range\]] of a buffer known to hold the range, and the same range
    after an in-place write. *)
Definition field (msg : list Z) (r : nat * nat) : list Z := take r.2 (drop r.1 msg).

Lemma field_length msg r : r.1 + r.2 <= length msg -> length (field msg r) = r.2.
Proof. intros H. unfold field. rewrite length_take, length_drop. lia. Qed.

Lemma field_blit_same msg r src :
  r.1 + r.2 <= length msg -> length src = r.2 -> field (blit msg r.1 src) r = src.
Proof.
  intros Hr Hs. unfold field, blit. rewrite drop_app_length' by (rewrite length_take; lia).
  by rewrite take_app_length'.
Qed.

Lemma field_blit_other msg r start src :
  start + length src <= length msg -> (r.1 + r.2 <= start \/ start + length src <= r.1) ->
  field (blit msg start src) r = field msg r.
Proof.
  intros Hs Hd. unfold field, blit. apply list_eq. intros i.
  destruct (decide (i < r.2)).
  2:{ rewrite !lookup_take_ge by lia. done. }
  rewrite !lookup_take_lt, !lookup_drop by lia. destruct Hd as [Hd|Hd].
  - rewrite lookup_app_l by (rewrite length_take; lia). by rewrite lookup_take_lt by lia.
  - rewrite lookup_app_r by (rewrite length_take; lia). rewrite length_take.
    rewrite lookup_app_r by lia. rewrite lookup_drop. f_equal. lia.
Qed.

(** Ranges inside a common prefix agree. *)
Lemma field_prefix_agree n a b r :
  r.1 + r.2 <= n -> take n a = take n b -> field a r = field b r.
Proof.
  intros Hr E. unfold field.
  assert (H : forall l : list Z, take r.2 (drop r.1 l) = take r.2 (drop r.1 (take n l))).
  { intros l. apply list_eq. intros i. destruct (decide (i < r.2)).
    - rewrite !lookup_take_lt, !lookup_drop by lia. by rewrite lookup_take_lt by lia.
    - by rewrite !lookup_take_ge by lia. }
  by rewrite H, E, <- H.
Qed.

(** A write over one piece of a concatenation. *)
Lemma blit_piece a b c src start :
  length a = start -> length b = length src -> blit (a ++ b ++ c) start src = a ++ src ++ c.
Proof.
  intros <- Hb. unfold blit. rewrite take_app_length. do 2 f_equal.
  rewrite <- Hb, app_assoc, drop_app_length' by (rewrite length_app; lia). done.
Qed.

Lemma blit_front b c src : length b = length src -> blit (b ++ c) 0 src = src ++ c.
Proof. intros Hb. by apply (blit_piece [] b c src 0). Qed.
