(* ===== verification/Clock.v ===== *)
(** * Monotonic time and the timer cache ([microtun-core/src/time.rs])

    An [Instant] and a [Duration] are both a [u64] count of milliseconds; every
    operator saturates.  [TimerCache] keeps a lower bound on the next deadline. *)

From S2P Require Import Prelude.
Local Open Scope Z_scope.

(** ** Instants and durations *)

Notation Instant := Z (only parsing).
Notation Duration := Z (only parsing).

Definition saturating_since (self earlier : Instant) : Duration := sat_sub self earlier.
Definition saturating_add (self : Instant) (d : Duration) : Instant := sat_add u64_max self d.
Definition from_secs (s : Z) : Duration := sat_mul u64_max s 1000.
Definition instant_add (self : Instant) (rhs : Duration) : Instant := saturating_add self rhs.
Definition instant_sub (self rhs : Instant) : Duration := saturating_since self rhs.
Definition duration_add (self rhs : Duration) : Duration := sat_add u64_max self rhs.
Definition duration_sub (self rhs : Duration) : Duration := sat_sub self rhs.

(** [\[a, b\].into_iter().flatten().min()] *)
Definition min_deadline (a b : option Instant) : option Instant :=
  match a, b with
  | Some x, Some y => Some (Z.min x y)
  | Some x, None => Some x
  | None, y => y
  end.

(** ** The timer cache *)

Record TimerCache := mkTimerCache { at_ : option Instant }.

Definition tc_new : TimerCache := mkTimerCache None.
Definition tc_get (c : TimerCache) : option Instant := at_ c.
Definition tc_arm (c : TimerCache) (at' : Instant) : TimerCache :=
  match at_ c with
  | None => mkTimerCache (Some at')
  | Some current => if at' <? current then mkTimerCache (Some at') else c
  end.
Definition tc_set_exact (c : TimerCache) (at' : option Instant) : TimerCache := mkTimerCache at'.

(** ** Abstract view: a bound that is at or before every live deadline *)

(** [bound <= d], reading [None] as infinitely distant. *)
Definition at_or_before (bound : option Instant) (d : Instant) : Prop :=
  match bound with None => False | Some b => b <= d end.

(** The cache is a lower bound of the multiset of live deadlines. *)
Definition tc_sound (c : TimerCache) (live : list Instant) : Prop :=
  Forall (at_or_before (tc_get c)) live.

(** ** Lemmas *)

Lemma min_deadline_spec a b d :
  at_or_before (min_deadline a b) d <-> at_or_before a d \/ at_or_before b d.
Proof. destruct a, b; simpl; lia. Qed.

Lemma min_deadline_assoc a b c :
  min_deadline a (min_deadline b c) = min_deadline (min_deadline a b) c.
Proof. destruct a, b, c; simpl; f_equal; lia. Qed.

Lemma min_deadline_comm a b : min_deadline a b = min_deadline b a.
Proof. destruct a, b; simpl; f_equal; lia. Qed.

Lemma tc_arm_get c d : tc_get (tc_arm c d) = min_deadline (tc_get c) (Some d).
Proof.
  unfold tc_arm, tc_get. destruct (at_ c) as [x|] eqn:E; simpl; [|done].
  destruct (Z.ltb_spec d x); simpl; rewrite ?E; f_equal; lia.
Qed.

#[export] Hint Rewrite tc_arm_get : mt.

Lemma tc_arm_sound c live d : tc_sound c live -> tc_sound (tc_arm c d) (d :: live).
Proof.
  unfold tc_sound. rewrite tc_arm_get. intros H. constructor.
  - apply min_deadline_spec. right. simpl. lia.
  - eapply Forall_impl; [exact H|]. intros x Hx. apply min_deadline_spec. by left.
Qed.

Lemma tc_sound_submseteq c live live' : live' ⊆ live -> tc_sound c live -> tc_sound c live'.
Proof. unfold tc_sound. rewrite !Forall_forall. set_solver. Qed.

#[export] Hint Resolve tc_arm_sound : mt.
