(* ===== verification/Constants.v ===== *)
(** * Protocol constants ([microtun-core/src/constants.rs]) *)

From S2P Require Import Prelude Clock.
Local Open Scope Z_scope.

Definition REKEY_AFTER_MESSAGES : Z := 1152921504606846976.        (* 1 << 60 *)
Definition REJECT_AFTER_MESSAGES : Z := u64_max - 8192.            (* u64::MAX - (1 << 13) *)
Definition REKEY_AFTER_TIME : Duration := from_secs 120.
Definition REJECT_AFTER_TIME : Duration := from_secs 180.
Definition REKEY_ATTEMPT_TIME : Duration := from_secs 90.
Definition REKEY_TIMEOUT : Duration := from_secs 5.
Definition HANDSHAKE_INITIATION_MIN_INTERVAL : Duration := 20.
Definition REKEY_TIMEOUT_JITTER_MAX : Duration := 333.
Definition REKEY_AFTER_TIME_JITTER_MAX : Duration := from_secs 10.
Definition KEEPALIVE_TIMEOUT : Duration := from_secs 10.
Definition COOKIE_REFRESH_TIME : Duration := from_secs 120.
