(* ===== verification/Replay.v ===== *)
(** * Anti-replay window ([microtun-core/src/replay.rs])

    The RFC 6479 ring of 64-bit words, its abstract specification (the set of
    accepted counters and the highest one) and the refinement between them. *)

From S2P Require Import Prelude.
Local Open Scope Z_scope.

Definition WORD_BITS : Z := 64.

(** ** The window *)

Record ReplayWindow := mkReplayWindow {
  bitmap : list Z;     (* [u64; REPLAY_WORDS] *)
  top : option Z;      (* highest counter accepted so far *)
}.

Section Window.
Context (REPLAY_WORDS : nat).

Definition WINDOW : Z := WORD_BITS * sat_sub (Z.of_nat REPLAY_WORDS) 1.

Definition rw_new : ReplayWindow := mkReplayWindow (replicate REPLAY_WORDS 0) None.

(** [((counter / WORD_BITS) % REPLAY_WORDS) as usize] *)
Definition block_of (counter : Z) : nat :=
  Z.to_nat ((counter / WORD_BITS) mod Z.of_nat REPLAY_WORDS).

Definition get_bit (bm : list Z) (counter : Z) : bool :=
  match bm !! block_of counter with
  | Some word => Z.land (Z.shiftr word (counter mod WORD_BITS)) 1 =? 1
  | None => false
  end.

(** Returns [false] when the block is out of range, as the source does. *)
Definition set_bit (bm : list Z) (counter : Z) : bool * list Z :=
  match bm !! block_of counter with
  | None => (false, bm)
  | Some word =>
      (true, <[block_of counter := Z.lor word (Z.shiftl 1 (counter mod WORD_BITS))]> bm)
  end.

(** The loop [for i in i..i+n { bitmap[(top_index + i) % WORDS] = 0 }]. *)
Fixpoint clear_blocks (bm : list Z) (top_index i : Z) (n : nat) : bool * list Z :=
  match n with
  | O => (true, bm)
  | S n =>
      let blk := Z.to_nat ((top_index + i) mod Z.of_nat REPLAY_WORDS) in
      match bm !! blk with
      | None => (false, bm)
      | Some _ => clear_blocks (<[blk := 0]> bm) top_index (i + 1) n
      end
  end.

Definition check_and_update (w : ReplayWindow) (counter : Z) : bool * ReplayWindow :=
  let index := counter / WORD_BITS in
  match top w with
  | None =>
      let '(ok, bm) := set_bit (replicate REPLAY_WORDS 0) counter in
      if ok then (true, mkReplayWindow bm (Some counter))
      else (false, mkReplayWindow bm (top w))
  | Some t =>
      if t <? counter then
        let top_index := t / WORD_BITS in
        let diff := Z.min (index - top_index) (Z.of_nat REPLAY_WORDS) in
        let '(ok, bm) := clear_blocks (bitmap w) top_index 1 (Z.to_nat diff) in
        if negb ok then (false, mkReplayWindow bm (top w)) else
        let '(ok, bm) := set_bit bm counter in
        if ok then (true, mkReplayWindow bm (Some counter))
        else (false, mkReplayWindow bm (top w))
      else if WINDOW <? t - counter then (false, w)
      else if get_bit (bitmap w) counter then (false, w)
      else
        let '(ok, bm) := set_bit (bitmap w) counter in
        (ok, mkReplayWindow bm (top w))
  end.

(** The verdicts of a run of the filter over a sequence of counters. *)
Fixpoint rw_run (w : ReplayWindow) (counters : list Z) : list bool :=
  match counters with
  | [] => []
  | c :: cs => let '(ok, w) := check_and_update w c in ok :: rw_run w cs
  end.

(** ** Specification: remember every accepted counter *)

Record ReplaySpec := mkReplaySpec {
  seen : gset Z;
  highest : option Z;
}.

Definition rs_new : ReplaySpec := mkReplaySpec ∅ None.

Definition rs_step (s : ReplaySpec) (c : Z) : bool * ReplaySpec :=
  let accept := (true, mkReplaySpec ({[c]} ∪ seen s)
                        (Some (match highest s with None => c | Some t => Z.max t c end))) in
  match highest s with
  | None => accept
  | Some t =>
      if t <? c then accept
      else if WINDOW <? t - c then (false, s)
      else if bool_decide (c ∈ seen s) then (false, s)
      else accept
  end.

Fixpoint rs_run (s : ReplaySpec) (counters : list Z) : list bool :=
  match counters with
  | [] => []
  | c :: cs => let '(ok, s) := rs_step s c in ok :: rs_run s cs
  end.

(** The counters of a sequence that a verdict list accepts. *)
Definition accepted (counters : list Z) (verdicts : list bool) : list Z :=
  (zip counters verdicts) ≫= (fun '(c, ok) => if (ok : bool) then [c] else []).

(** ** The refinement relation *)

(** A counter the ring can represent while [t] is the top. *)
Definition in_ring (t c : Z) : Prop :=
  0 <= c /\ t / WORD_BITS - Z.of_nat REPLAY_WORDS < c / WORD_BITS <= t / WORD_BITS.

Record rw_rel (w : ReplayWindow) (s : ReplaySpec) : Prop := {
  rel_len : length (bitmap w) = REPLAY_WORDS;
  rel_top : top w = highest s;
  rel_seen : forall c, c ∈ seen s -> exists t, highest s = Some t /\ 0 <= c <= t;
  rel_nonneg : forall t, highest s = Some t -> 0 <= t;
  rel_bits : forall t c, highest s = Some t -> in_ring t c ->
    get_bit (bitmap w) c = bool_decide (c ∈ seen s);
}.

(** ** Lemmas on the ring *)

Hypothesis words_pos : (0 < REPLAY_WORDS)%nat.

Lemma block_of_lt c : (block_of c < REPLAY_WORDS)%nat.
Proof.
  unfold block_of. pose proof (Z.mod_pos_bound (c / WORD_BITS) (Z.of_nat REPLAY_WORDS)). lia.
Qed.

Lemma block_of_eq c d :
  block_of c = block_of d <->
  (c / WORD_BITS) mod Z.of_nat REPLAY_WORDS = (d / WORD_BITS) mod Z.of_nat REPLAY_WORDS.
Proof.
  unfold block_of.
  pose proof (Z.mod_pos_bound (c / WORD_BITS) (Z.of_nat REPLAY_WORDS)).
  pose proof (Z.mod_pos_bound (d / WORD_BITS) (Z.of_nat REPLAY_WORDS)). lia.
Qed.

Lemma word_bit word n : 0 <= n -> (Z.land (Z.shiftr word n) 1 =? 1) = Z.testbit word n.
Proof.
  clear words_pos. intros Hn. change 1 with (Z.ones 1) at 1. rewrite Z.land_ones, Z.pow_1_r, Zmod_odd by lia.
  rewrite <- Z.bit0_odd, Z.shiftr_spec, Z.add_0_l by lia.
  by destruct (Z.testbit word n).
Qed.

Lemma mod_inj_near m x y : 0 < m -> Z.abs (x - y) < m -> x mod m = y mod m -> x = y.
Proof.
  intros Hm Hd He.
  pose proof (Z.div_mod x m ltac:(lia)). pose proof (Z.div_mod y m ltac:(lia)).
  assert (x - y = m * (x / m - y / m)) by lia.
  assert (x / m - y / m = 0) by nia. nia.
Qed.

Lemma get_bit_testbit bm c word :
  bm !! block_of c = Some word -> get_bit bm c = Z.testbit word (c mod WORD_BITS).
Proof.
  clear words_pos. intros H. unfold get_bit. rewrite H. apply word_bit. unfold WORD_BITS. dlia.
Qed.

Lemma set_bit_ok bm c :
  length bm = REPLAY_WORDS ->
  exists bm', set_bit bm c = (true, bm') /\ length bm' = REPLAY_WORDS.
Proof.
  intros Hl. unfold set_bit.
  destruct (lookup_lt_is_Some_2 bm (block_of c)) as [word Hw].
  { rewrite Hl. apply block_of_lt. }
  rewrite Hw. eexists; split; [done|]. by rewrite length_insert.
Qed.

(** Setting a bit changes only that bit: two counters share a bit exactly when
    they agree modulo the ring. *)
Lemma get_set_bit bm bm' c d :
  length bm = REPLAY_WORDS -> set_bit bm c = (true, bm') ->
  get_bit bm' d =
    bool_decide (block_of d = block_of c /\ d mod WORD_BITS = c mod WORD_BITS) || get_bit bm d.
Proof.
  intros Hl Hs. unfold set_bit in Hs.
  destruct (bm !! block_of c) as [word|] eqn:Hw; [|done]. injection Hs as <-.
  destruct (decide (block_of d = block_of c)) as [Hb|Hb].
  - rewrite (get_bit_testbit bm d word) by congruence.
    rewrite (get_bit_testbit _ d (Z.lor word (Z.shiftl 1 (c mod WORD_BITS)))).
    2: { rewrite Hb, list_lookup_insert_eq; [done|]. by eapply lookup_lt_Some. }
    rewrite Z.lor_spec, Z.shiftl_1_l, Z.pow2_bits_eqb by (unfold WORD_BITS; dlia).
    rewrite orb_comm. f_equal.
    rewrite (bool_decide_ext _ (c mod WORD_BITS = d mod WORD_BITS)) by naive_solver.
    case_bool_decide; [by apply Z.eqb_eq|by apply Z.eqb_neq].
  - rewrite bool_decide_eq_false_2 by tauto. simpl.
    unfold get_bit. by rewrite list_lookup_insert_ne by congruence.
Qed.

Lemma set_bit_sets bm bm' c : set_bit bm c = (true, bm') -> get_bit bm' c = true.
Proof.
  clear words_pos. intros Hs. unfold set_bit in Hs. destruct (bm !! block_of c) as [word|] eqn:Hw; [|done]. injection Hs as <-.
  rewrite (get_bit_testbit _ c (Z.lor word (Z.shiftl 1 (c mod WORD_BITS)))).
  - rewrite Z.lor_spec, Z.shiftl_1_l, Z.pow2_bits_true by (unfold WORD_BITS; dlia). apply orb_true_r.
  - rewrite list_lookup_insert_eq; [done|]. by eapply lookup_lt_Some.
Qed.

(** Whatever the window, a counter it accepted it does not accept next. *)
Lemma check_and_update_again w c :
  fst (check_and_update w c) = true -> fst (check_and_update (snd (check_and_update w c)) c) = false.
Proof.
  clear words_pos. assert (Hend : forall bm t, t = c \/ (c <= t)%Z -> get_bit bm c = true ->
    fst (check_and_update (mkReplayWindow bm (Some t)) c) = false).
  { intros bm t Ht Hb. unfold check_and_update. cbn [top bitmap]. destruct (Z.ltb_spec t c); [lia|].
    destruct (_ <? _); [done|]. by rewrite Hb. }
  unfold check_and_update at 1 3. destruct (top w) as [t|] eqn:Et.
  - destruct (Z.ltb_spec t c).
    + destruct (clear_blocks _ _ _ _) as [[] bm1]; cbn [negb]; [|done].
      destruct (set_bit bm1 c) as [[] bm] eqn:Es; cbn [fst snd]; [|done]. intros _. apply Hend; [by left|].
      by eapply set_bit_sets.
    + destruct (_ <? _); [done|]. destruct (get_bit (bitmap w) c); [done|].
      destruct (set_bit (bitmap w) c) as [[] bm] eqn:Es; cbn [fst snd]; [|done]. intros _.
      apply Hend; [by right|]. by eapply set_bit_sets.
  - destruct (set_bit _ c) as [[] bm] eqn:Es; cbn [fst snd]; [|done]. intros _. apply Hend; [by left|].
    by eapply set_bit_sets.
Qed.

(** The loop succeeds and zeroes exactly the [n] blocks from [ti + i] on. *)
Lemma clear_blocks_ok bm ti i n :
  length bm = REPLAY_WORDS ->
  exists bm', clear_blocks bm ti i n = (true, bm') /\ length bm' = REPLAY_WORDS /\
    forall d,
      ((exists k, i <= k < i + Z.of_nat n /\
         Z.to_nat ((ti + k) mod Z.of_nat REPLAY_WORDS) = block_of d) /\ get_bit bm' d = false) \/
      ((forall k, i <= k < i + Z.of_nat n ->
         Z.to_nat ((ti + k) mod Z.of_nat REPLAY_WORDS) <> block_of d) /\
       get_bit bm' d = get_bit bm d).
Proof.
  revert bm i. induction n as [|n IH]; intros bm i Hl; cbn [clear_blocks].
  { exists bm. repeat split; auto. intros d. right. split; [lia|done]. }
  set (blk := Z.to_nat ((ti + i) mod Z.of_nat REPLAY_WORDS)).
  assert (blk < length bm)%nat as Hblk 
    by (rewrite Hl; unfold blk;
        pose proof (Z.mod_pos_bound (ti + i) (Z.of_nat REPLAY_WORDS)); lia).
  destruct (lookup_lt_is_Some_2 bm blk Hblk) as [w0 ->].
  destruct (IH (<[blk := 0]> bm) (i + 1)) as (bm' & -> & Hl' & Hd).
  { by rewrite length_insert. }
  exists bm'. repeat split; [done|]. intros d.
  destruct (Hd d) as [[(k & Hk & Hkb) Hf]|[Hno Hf]].
  - left. split; [|done]. exists k. split; [lia|done].
  - destruct (decide (blk = block_of d)) as [E|E].
    + left. split; [exists i; split; [lia|done]|].
      rewrite Hf. unfold get_bit. rewrite <- E, list_lookup_insert_eq by done.
      by rewrite Z.shiftr_0_l, Z.land_0_l.
    + right. split.
      * intros k Hk. destruct (decide (k = i)) as [->|]; [done|]. apply Hno. lia.
      * rewrite Hf. unfold get_bit. by rewrite list_lookup_insert_ne.
Qed.

(** ** The refinement *)

Lemma rw_rel_new : rw_rel rw_new rs_new.
Proof.
  split; simpl; [by rewrite length_replicate|done|set_solver|done|done].
Qed.

Lemma get_bit_zeros c : get_bit (replicate REPLAY_WORDS 0) c = false.
Proof.
  unfold get_bit. destruct (_ !! _) eqn:E; [|done].
  apply lookup_replicate in E as [-> _]. by rewrite Z.shiftr_0_l, Z.land_0_l.
Qed.

(** Two counters of the ring's current span share a bit only if equal. *)
Lemma in_ring_inj t c d :
  in_ring t c -> in_ring t d ->
  block_of d = block_of c -> d mod WORD_BITS = c mod WORD_BITS -> d = c.
Proof.
  unfold in_ring. intros [Hc0 Hc] [Hd0 Hd] Hb Hm. apply block_of_eq in Hb.
  apply mod_inj_near in Hb; [unfold WORD_BITS in *; dlia|lia|lia].
Qed.

(** Setting the bit of [c] in a ring that represents [s] up to [t] represents
    [s] with [c] added. *)
Lemma set_bit_rel bm bm' s t c :
  length bm = REPLAY_WORDS ->
  (forall d, in_ring t d -> get_bit bm d = bool_decide (d ∈ s)) ->
  in_ring t c -> set_bit bm c = (true, bm') ->
  forall d, in_ring t d -> get_bit bm' d = bool_decide (d ∈ ({[c]} ∪ s : gset Z)).
Proof.
  intros Hl Hbits Hc Hs d Hd. rewrite (get_set_bit bm bm' c d) by done.
  rewrite Hbits by done. rewrite <- bool_decide_or. apply bool_decide_ext.
  rewrite elem_of_union, elem_of_singleton. split; [|naive_solver].
  intros [[Hb Hm]|]; [|tauto]. left. by apply (in_ring_inj t).
Qed.

(** After the clearing loop the ring represents the old set up to the new top. *)
Lemma clear_blocks_rel bm bm' (s : gset Z) t c :
  0 <= t < c -> (forall d, d ∈ s -> 0 <= d <= t) ->
  (forall d, in_ring t d -> get_bit bm d = bool_decide (d ∈ s)) ->
  length bm = REPLAY_WORDS ->
  clear_blocks bm (t / WORD_BITS) 1
    (Z.to_nat (Z.min (c / WORD_BITS - t / WORD_BITS) (Z.of_nat REPLAY_WORDS))) = (true, bm') ->
  forall d, in_ring c d -> get_bit bm' d = bool_decide (d ∈ s).
Proof.
  intros Htc Hseen Hbits Hl Hclear d [Hd0 Hd].
  set (W := Z.of_nat REPLAY_WORDS) in *. set (T := t / WORD_BITS) in *.
  set (C := c / WORD_BITS) in *. set (D := d / WORD_BITS) in *.
  assert (T <= C) by (unfold T, C, WORD_BITS; dlia).
  destruct (clear_blocks_ok bm T 1 (Z.to_nat (Z.min (C - T) W)) Hl)
    as (bm2 & Hc2 & _ & Hspec).
  rewrite Hclear in Hc2. injection Hc2 as <-. destruct (Hspec d) as [[Hhit ->]|[Hmiss ->]].
  - destruct Hhit as (k & Hk & Hkb). rewrite Z2Nat.id in Hk by lia.
    symmetry. apply bool_decide_eq_false_2. intros Hin%Hseen.
    assert (D <= T) by (unfold D, T, WORD_BITS; dlia).
    apply Z2Nat.inj in Hkb; [|apply Z.mod_pos_bound; lia..].
    fold W D in Hkb. apply mod_inj_near in Hkb; lia.
  - apply Hbits. split; [done|]. fold T D W.
    destruct (decide (D <= T)) as [|Hgt]; [lia|exfalso].
    rewrite Z2Nat.id in Hmiss by lia.
    apply (Hmiss (1 + (D - T - 1) mod W)).
    + pose proof (Z.mod_pos_bound (D - T - 1) W ltac:(lia)).
      destruct (decide (C - T <= W)); [rewrite Z.mod_small in * by lia|]; lia.
    + unfold block_of. fold W D. f_equal.
      replace (T + (1 + (D - T - 1) mod W)) with (T + 1 + (D - T - 1) mod W) by lia.
      rewrite Z.add_mod_idemp_r by lia. f_equal. lia.
Qed.

Lemma in_ring_self c : 0 <= c -> in_ring c c.
Proof. unfold in_ring. lia. Qed.

(** One step of the window decides as the specification and keeps the relation. *)
Lemma check_and_update_refines w s c :
  0 <= c -> rw_rel w s ->
  fst (check_and_update w c) = fst (rs_step s c) /\
  rw_rel (snd (check_and_update w c)) (snd (rs_step s c)).
Proof.
  intros Hc Hrel. pose proof Hrel as [Hl Ht Hs Hn Hb]. unfold check_and_update, rs_step. rewrite Ht.
  destruct (highest s) as [t|] eqn:Et.
  2: { (* first packet *)
    destruct (set_bit_ok (replicate REPLAY_WORDS 0) c) as (bm & Hset & Hl');
      [by rewrite length_replicate|].
    rewrite Hset. simpl. split; [done|]. split; simpl; [done|done|..].
    - intros d. rewrite elem_of_union, elem_of_singleton.
      intros [->|(? & ? & _)%Hs]; [eexists; split; [done|lia]|done].
    - by intros ? [= <-].
    - intros ? d [= <-] Hd.
      apply (set_bit_rel (replicate REPLAY_WORDS 0) bm (seen s) c c); auto using in_ring_self.
      + by rewrite length_replicate.
      + intros e _. rewrite get_bit_zeros. symmetry. apply bool_decide_eq_false_2.
        by intros (? & ? & _)%Hs. }
  specialize (Hn t eq_refl).
  assert (forall d, d ∈ seen s -> 0 <= d <= t) as Hseen.
  { intros d (? & [= <-] & ?)%Hs. lia. }
  destruct (Z.ltb_spec t c) as [Htc|Htc].
  - (* advance *)
    set (diff := Z.to_nat _).
    destruct (clear_blocks_ok (bitmap w) (t / WORD_BITS) 1 diff Hl) as (bm1 & Hcl & Hl1 & _).
    destruct (set_bit_ok bm1 c Hl1) as (bm2 & Hset & Hl2).
    rewrite Hcl. simpl. rewrite Hset. simpl. split; [done|].
    rewrite Z.max_r by lia. split; simpl; [done|done|..].
    + intros d. rewrite elem_of_union, elem_of_singleton. intros [->|?%Hseen];
        (eexists; split; [done|lia]).
    + by intros ? [= <-].
    + intros ? d [= <-] Hd. apply (set_bit_rel bm1 bm2 (seen s) c c); auto using in_ring_self.
      apply (clear_blocks_rel (bitmap w) bm1 (seen s) t c);
        idtac; [lia|exact Hseen|exact (fun d => Hb t d eq_refl)|exact Hl|idtac]; exact Hcl.
  - destruct (Z.ltb_spec (WINDOW) (t - c)) as [Hold|Hold]; [by split|].
    assert (in_ring t c) as Hin.
    { split; [done|]. unfold WINDOW, sat_sub, WORD_BITS in *. dlia. }
    rewrite (Hb t c eq_refl Hin). case_bool_decide as Hcs; [by split|].
    destruct (set_bit_ok (bitmap w) c Hl) as (bm & Hset & Hl').
    rewrite Hset. simpl. split; [done|]. rewrite Z.max_l by lia.
    split; simpl; [done|done|..].
    + intros d. rewrite elem_of_union, elem_of_singleton. intros [->|?%Hseen];
        (eexists; split; [done|lia]).
    + by intros ? [= <-].
    + intros ? d [= <-] Hd. apply (set_bit_rel (bitmap w) bm (seen s) t c);
        [done|exact (fun d => Hb t d eq_refl)|done|done|done].
Qed.

Lemma rw_run_refines w s cs :
  Forall (Z.le 0) cs -> rw_rel w s -> rw_run w cs = rs_run s cs.
Proof.
  intros Hcs. revert w s. induction Hcs as [|c cs Hc _ IH]; intros w s Hr; simpl; [done|].
  destruct (check_and_update_refines w s c Hc Hr) as [Hf Hs].
  destruct (check_and_update w c), (rs_step s c); simpl in *. by rewrite Hf, (IH _ _ Hs).
Qed.

(** ** Consequences of the specification *)

Lemma rs_step_accept s c s' :
  rs_step s c = (true, s') -> (forall t, highest s = Some t -> forall d, d ∈ seen s -> d <= t) ->
  (highest s = None -> seen s = ∅) -> c ∉ seen s /\ seen s' = {[c]} ∪ seen s.
Proof.
  unfold rs_step. intros H Hle Hnone. destruct (highest s) as [t|] eqn:E.
  - specialize (Hle t eq_refl).
    destruct (Z.ltb_spec t c).
    + injection H as <-. split; [|done]. intros ?%Hle. lia.
    + destruct (_ <? _); [done|]. case_bool_decide; [done|]. by injection H as <-.
  - injection H as <-. split; [|done]. rewrite Hnone by done. set_solver.
Qed.

(** The states the specification reaches: no accepted counter exceeds the top. *)
Definition rs_wf (s : ReplaySpec) : Prop :=
  (forall d, d ∈ seen s -> exists t, highest s = Some t /\ d <= t).

Lemma rs_step_wf s c : rs_wf s -> rs_wf (snd (rs_step s c)).
Proof.
  intros Hwf. unfold rs_step.
  assert (rs_wf (mkReplaySpec ({[c]} ∪ seen s)
    (Some (match highest s with None => c | Some t => Z.max t c end)))) as Hacc.
  { intros d. simpl. rewrite elem_of_union, elem_of_singleton.
    intros [->|(t & -> & ?)%Hwf]; eexists; (split; [done|]); [destruct (highest s)|]; lia. }
  destruct (highest s); [|done].
  repeat case_match; done.
Qed.

Lemma rs_run_accepted s cs :
  rs_wf s ->
  NoDup (accepted cs (rs_run s cs)) /\
  Forall (fun c => c ∉ seen s) (accepted cs (rs_run s cs)).
Proof.
  revert s. induction cs as [|c cs IH]; intros s Hwf; simpl; [split; constructor|].
  pose proof (rs_step_wf s c Hwf) as Hwf'.
  destruct (rs_step s c) as [ok s'] eqn:E. simpl in *.
  destruct (IH s' Hwf') as [Hnd Hfr]. unfold accepted in *. destruct ok; simpl.
  - apply rs_step_accept in E as [Hc Hs'].
    2: { intros t Ht d (t' & Ht' & ?)%Hwf. congruence || (assert (t = t') by congruence; lia). }
    2: { intros Hn. apply set_eq. intros d. split; [|set_solver].
         intros (? & ? & _)%Hwf. congruence. }
    rewrite Forall_forall in Hfr. split.
    + constructor; [|done]. intros Hin%Hfr. set_solver.
    + constructor; [done|]. apply Forall_forall. intros d Hd%Hfr. set_solver.
  - assert (s' = s) as ->.
    { unfold rs_step in E. destruct (highest s); repeat case_match; congruence. }
    by split.
Qed.

End Window.

(** ** Properties *)

(** C17: the ring of 64-bit words with its clearing loop decides exactly as the
    specification that remembers every accepted counter: a counter is accepted
    when it is above the highest one, or at most [WINDOW] behind it and new.
    This holds for every number of words and every sequence of counters. *)
Theorem replay_window_refines (REPLAY_WORDS : nat) (counters : list Z) :
  (0 < REPLAY_WORDS)%nat -> Forall (Z.le 0) counters ->
  rw_run REPLAY_WORDS (rw_new REPLAY_WORDS) counters = rs_run REPLAY_WORDS rs_new counters.
Proof. intros Hw Hcs. apply rw_run_refines; [done..|]. by apply rw_rel_new. Qed.

Lemma replay_window_refines_witness :
  rw_run 3 (rw_new 3) [5; 3; 3; 200; 72; 71; 5] = [true; true; false; true; true; false; false].
Proof.
  rewrite (replay_window_refines 3 [5; 3; 3; 200; 72; 71; 5]);
    [vm_compute; reflexivity|lia|repeat constructor; lia].
Defined.

(** C11: over any run no counter is accepted twice, whatever the order in which
    counters arrive and however far the window jumps. *)
Theorem replay_accepts_once (REPLAY_WORDS : nat) (counters : list Z) :
  (0 < REPLAY_WORDS)%nat -> Forall (Z.le 0) counters ->
  NoDup (accepted counters (rw_run REPLAY_WORDS (rw_new REPLAY_WORDS) counters)).
Proof.
  intros Hw Hcs. rewrite (rw_run_refines REPLAY_WORDS Hw _ rs_new) by auto using rw_rel_new.
  apply (rs_run_accepted REPLAY_WORDS Hw rs_new). intros d ?. set_solver.
Qed.

Lemma replay_accepts_once_witness :
  NoDup (accepted [0; 0; 1000; 0; 999; 999] (rw_run 2 (rw_new 2) [0; 0; 1000; 0; 999; 999])).
Proof. apply replay_accepts_once; [lia|repeat constructor; lia]. Defined.
