(* ===== verification/Ip.v ===== *)
(** * Inner IP headers and address canonicalisation ([microtun-core/src/ip.rs])

    An [IpAddr] holds the big-endian value of its octets.  A packet is a list
    of bytes; a failed [get] is [None]. *)

From S2P Require Import Prelude.
Local Open Scope Z_scope.

(** ** Addresses ([core::net]) *)

Inductive IpAddr :=
| V4 (a : Z)     (* 32 bits *)
| V6 (a : Z).    (* 128 bits *)

#[export] Instance IpAddr_eq_dec : EqDecision IpAddr.
Proof. solve_decision. Defined.

Definition IpAddr_eqb (a b : IpAddr) : bool := bool_decide (a = b).

(** An address whose value fits its family. *)
Definition ip_wf (a : IpAddr) : Prop :=
  match a with V4 a => 0 <= a < 2 ^ 32 | V6 a => 0 <= a < 2 ^ 128 end.

Definition is_ipv4 (a : IpAddr) : bool := match a with V4 _ => true | V6 _ => false end.
Definition is_ipv6 (a : IpAddr) : bool := match a with V4 _ => false | V6 _ => true end.

(** [SocketAddrV6] carries the flow information and the scope identifier. *)
Inductive SocketAddr :=
| SockV4 (ip : Z) (port : Z)
| SockV6 (ip : Z) (port flowinfo scope_id : Z).

#[export] Instance SocketAddr_eq_dec : EqDecision SocketAddr.
Proof. solve_decision. Defined.

(** [Ipv6Addr::to_ipv4_mapped]: the prefix [::ffff:0:0/96]. *)
Definition to_ipv4_mapped (a : Z) : option Z :=
  if Z.shiftr a 32 =? 65535 then Some (Z.land a u32_max) else None.

Definition unmap_ip (ip : IpAddr) : IpAddr :=
  match ip with
  | V6 v6 => match to_ipv4_mapped v6 with Some v4 => V4 v4 | None => V6 v6 end
  | V4 _ => ip
  end.

Definition unmap_socket_addr (addr : SocketAddr) : SocketAddr :=
  match addr with
  | SockV6 ip port _ _ =>
      match to_ipv4_mapped ip with
      | Some v4 => SockV4 v4 port
      | None => addr
      end
  | SockV4 _ _ => addr
  end.

(** ** Headers *)

Record IpHeader := mkIpHeader {
  src : IpAddr;
  dst : IpAddr;
  protocol : Z;
  header_len : nat;
  total_len : nat;
}.

(** [u16::from_be_bytes(\[hi, lo\])] *)
Definition u16_be (hi lo : Z) : Z := Z.lor (Z.shiftl hi 8) lo.

Definition parse_v4_header (packet : list Z) : option IpHeader :=
  first ← packet !! 0%nat;
  if (length packet <? 20)%nat || negb (Z.shiftr first 4 =? 4) then None else
  let header_len := (Z.to_nat (Z.land first 15) * 4)%nat in
  if (header_len <? 20)%nat || (length packet <? header_len)%nat then None else
  hi ← packet !! 2%nat;
  lo ← packet !! 3%nat;
  let total_len := Z.to_nat (u16_be hi lo) in
  if (total_len <? header_len)%nat || (length packet <? total_len)%nat then None else
  src ← slice packet 12 4;
  dst ← slice packet 16 4;
  protocol ← packet !! 9%nat;
  Some (mkIpHeader (V4 (be_value src)) (V4 (be_value dst)) protocol header_len total_len).

Definition parse_v6_header (packet : list Z) : option IpHeader :=
  first ← packet !! 0%nat;
  if (length packet <? 40)%nat || negb (Z.shiftr first 4 =? 6) then None else
  hi ← packet !! 4%nat;
  lo ← packet !! 5%nat;
  let total_len := (40 + Z.to_nat (u16_be hi lo))%nat in
  if (length packet <? total_len)%nat then None else
  src ← slice packet 8 16;
  dst ← slice packet 24 16;
  protocol ← packet !! 6%nat;
  Some (mkIpHeader (V6 (be_value src)) (V6 (be_value dst)) protocol 40 total_len).

Definition parse_header (packet : list Z) : option IpHeader :=
  first ← packet !! 0%nat;
  if Z.shiftr first 4 =? 4 then parse_v4_header packet
  else if Z.shiftr first 4 =? 6 then parse_v6_header packet
  else None.

Definition is_v4_fragment (packet : list Z) : bool :=
  match packet !! 0%nat, packet !! 6%nat, packet !! 7%nat with
  | Some first, Some flags_hi, Some flags_lo =>
      (20 <=? length packet)%nat && (Z.shiftr first 4 =? 4) &&
      negb (Z.land (u16_be flags_hi flags_lo) 16383 =? 0)
  | _, _, _ => false
  end.

(** [host_cidr]: the length of the single-host prefix of an address. *)
Definition host_prefix_len (address : IpAddr) : Z :=
  match address with V4 _ => 32 | V6 _ => 128 end.

(** ** Lemmas *)

(** Reading inside a common prefix of two packets gives the same bytes. *)
Lemma take_lookup_agree (n : nat) (p q : list Z) (i : nat) :
  take n q = take n p -> (i < n)%nat -> q !! i = p !! i.
Proof. intros H Hi. rewrite <- (lookup_take_lt q n i), <- (lookup_take_lt p n i), H by lia. done. Qed.

Lemma take_slice_agree (n : nat) (p q : list Z) (start len : nat) :
  take n q = take n p -> (start + len <= n)%nat -> (n <= length p)%nat -> (n <= length q)%nat ->
  slice q start len = slice p start len.
Proof.
  intros H Hn Hp Hq. unfold slice. rewrite !decide_True by lia. f_equal.
  apply list_eq. intros i.
  destruct (decide (i < len)%nat).
  - rewrite !lookup_take_lt, !lookup_drop by lia. apply (take_lookup_agree n); [done|lia].
  - rewrite !lookup_take_ge by lia. done.
Qed.

(** Opens a successful option-monad parse into its steps. *)
Ltac parse_inv H :=
  repeat match type of H with
  | (_ ≫= _) = Some _ => apply bind_Some in H as (? & ? & H)
  | (if ?b then _ else _) = Some _ => let E := fresh "Hc" in destruct b eqn:E; [try discriminate H|try discriminate H]
  end.

(** Rewrites with the byte and slice lookups of the context. *)
Ltac rewrite_parse :=
  repeat match goal with
  | E : ?p !! _ = Some _ |- context [?p !! _] => rewrite E; clear E; simpl
  | E : slice ?p _ _ = Some _ |- context [slice ?p _ _] => rewrite E; clear E; simpl
  end.

Lemma parse_v4_header_spec packet h :
  parse_v4_header packet = Some h ->
  (20 <= header_len h <= total_len h)%nat /\ (total_len h <= length packet)%nat.
Proof. unfold parse_v4_header. intros H. parse_inv H. injection H as <-. simpl. bool_to_prop. lia. Qed.

Lemma parse_v6_header_spec packet h :
  parse_v6_header packet = Some h ->
  header_len h = 40%nat /\ (40 <= total_len h <= length packet)%nat.
Proof. unfold parse_v6_header. intros H. parse_inv H. injection H as <-. simpl. bool_to_prop. lia. Qed.

Lemma parse_header_cases packet h :
  parse_header packet = Some h ->
  (parse_v4_header packet = Some h \/ parse_v6_header packet = Some h) /\
  (20 <= header_len h <= total_len h)%nat /\ (total_len h <= length packet)%nat.
Proof.
  unfold parse_header. intros H. parse_inv H.
  - pose proof (parse_v4_header_spec _ _ H). auto.
  - pose proof (parse_v6_header_spec _ _ H). split; [auto|lia].
Qed.

(** A parse only reads the header: it succeeds with the same result on any
    packet that shares the first [total_len] bytes. *)
Lemma parse_v4_header_agree p q h :
  parse_v4_header p = Some h -> take (total_len h) q = take (total_len h) p ->
  (total_len h <= length q)%nat -> parse_v4_header q = Some h.
Proof.
  intros H Ht Hq. pose proof (parse_v4_header_spec _ _ H) as [Hb Hp].
  assert (forall i, (i < 20)%nat -> q !! i = p !! i) as Hl
    by (intros i Hi; apply (take_lookup_agree (total_len h)); [done|lia]).
  assert (forall s, (s + 4 <= 20)%nat -> slice q s 4 = slice p s 4) as Hs
    by (intros s Hi; apply (take_slice_agree (total_len h)); [done|lia..]).
  unfold parse_v4_header in *.
  rewrite !Hl, !Hs by lia. parse_inv H. injection H as <-. simpl in *. bool_to_prop.
  rewrite_parse. repeat case_match; try done; exfalso; bool_lia.
Qed.

Lemma parse_v6_header_agree p q h :
  parse_v6_header p = Some h -> take (total_len h) q = take (total_len h) p ->
  (total_len h <= length q)%nat -> parse_v6_header q = Some h.
Proof.
  intros H Ht Hq. pose proof (parse_v6_header_spec _ _ H) as [Hb Hp].
  assert (forall i, (i < 40)%nat -> q !! i = p !! i) as Hl
    by (intros i Hi; apply (take_lookup_agree (total_len h)); [done|lia]).
  assert (forall s, (s + 16 <= 40)%nat -> slice q s 16 = slice p s 16) as Hs
    by (intros s Hi; apply (take_slice_agree (total_len h)); [done|lia..]).
  unfold parse_v6_header in *.
  rewrite !Hl, !Hs by lia. parse_inv H. injection H as <-. simpl in *.
  rewrite_parse. repeat case_match; try done; exfalso; bool_lia.
Qed.

Lemma parse_header_agree p q h :
  parse_header p = Some h -> take (total_len h) q = take (total_len h) p ->
  (total_len h <= length q)%nat -> parse_header q = Some h.
Proof.
  intros H Ht Hq. pose proof (parse_header_cases _ _ H) as (_ & Hb & Hp).
  unfold parse_header in *. rewrite (take_lookup_agree (total_len h) p q) by (done || lia).
  parse_inv H; rewrite_parse; rewrite ?Hc, ?Hc0;
    eauto using parse_v4_header_agree, parse_v6_header_agree.
Qed.

Lemma parse_header_trim p h :
  parse_header p = Some h -> parse_header (take (total_len h) p) = Some h.
Proof.
  intros H. pose proof (parse_header_cases _ _ H) as (_ & Hb & Hp).
  apply (parse_header_agree p); [done| |]; [by rewrite take_take, Nat.min_id|].
  rewrite length_take. lia.
Qed.

Lemma unmap_ip_idem ip : unmap_ip (unmap_ip ip) = unmap_ip ip.
Proof.
  destruct ip as [a|a]; cbn [unmap_ip]; [reflexivity|].
  destruct (to_ipv4_mapped a) eqn:E; cbn [unmap_ip]; [reflexivity|]. by rewrite E.
Qed.

(** ** Properties *)

(** the header parser never claims more than the packet holds: on success the
    header is at least the fixed header of its family, lies inside the total
    length and the total length lies inside the packet, so slicing the packet
    at either is in range; the family of both addresses is the version nibble. *)
Theorem parse_header_bounds (packet : list Z) (h : IpHeader) :
  parse_header packet = Some h ->
  (20 <= header_len h <= total_len h)%nat /\ (total_len h <= length packet)%nat /\
  (is_ipv6 (src h) = true -> header_len h = 40%nat) /\
  is_ipv4 (src h) = is_ipv4 (dst h).
Proof.
  intros H. pose proof (parse_header_cases _ _ H) as ([H4|H6] & Hb & Hp);
    (do 2 (split; [done|])).
  - unfold parse_v4_header in H4. parse_inv H4. by injection H4 as <-.
  - pose proof (parse_v6_header_spec _ _ H6) as [-> _].
    unfold parse_v6_header in H6. parse_inv H6. by injection H6 as <-.
Qed.

Definition sample_v4 : list Z :=
  [69; 0; 0; 24; 0; 0; 0; 0; 64; 17; 0; 0; 10; 0; 0; 2; 10; 0; 0; 1; 1; 2; 3; 4].

Lemma parse_header_bounds_witness :
  exists h, parse_header (sample_v4 ++ [0; 0; 0]) = Some h /\
    (20 <= header_len h <= total_len h)%nat /\ (total_len h <= length (sample_v4 ++ [0; 0; 0]%Z))%nat /\
    (is_ipv6 (src h) = true -> header_len h = 40%nat) /\ is_ipv4 (src h) = is_ipv4 (dst h).
Proof.
  eexists. split; [vm_compute; reflexivity|]. apply parse_header_bounds. vm_compute. reflexivity.
Defined.

(** trimming the transport padding cannot change what a packet means: the
    parse depends only on the first [total_len] bytes, so every packet that
    agrees with [packet] on them (in particular the packet cut at [total_len],
    with or without other padding) parses to the same header. *)
Theorem parse_header_ignores_padding (packet padding : list Z) (h : IpHeader) :
  parse_header packet = Some h ->
  parse_header (take (total_len h) packet ++ padding) = Some h.
Proof.
  intros H. pose proof (parse_header_cases _ _ H) as (_ & Hb & Hp).
  apply (parse_header_agree packet); [done|..].
  - rewrite take_app_le, take_take by (rewrite length_take; lia). f_equal. lia.
  - rewrite length_app, length_take. lia.
Qed.

Lemma parse_header_ignores_padding_witness :
  parse_header (take 24 sample_v4 ++ [255; 255]) =
  Some (mkIpHeader (V4 167772162) (V4 167772161) 17 20 24).
Proof. apply (parse_header_ignores_padding sample_v4 [255; 255] (mkIpHeader _ _ _ _ _)). vm_compute. reflexivity. Defined.
