(* ===== verification/Cidr.v ===== *)
(** * Prefixes and the interfaces of the routing layer

    [IpCidr] comes from the external cidr crate: the class [Cidr] is what the code
    calls of it, [CidrLaws] its documented behaviour (a stored prefix is canonical
    and [contains] is membership), and the Module [CidrModel] a concrete instance.
    [PrefixMap] is what [prefix_trie.rs] promises to [routing.rs]. *)

From S2P Require Import Prelude Ip.
Local Open Scope nat_scope.

(** ** Addresses as bit strings, most significant bit first *)

Definition addr_width (ip : IpAddr) : nat := match ip with V4 _ => 32 | V6 _ => 128 end.
Definition addr_value (ip : IpAddr) : Z := match ip with V4 a | V6 a => a end.

Definition bits_msb (width : nat) (a : Z) : list bool :=
  (fun i => Z.testbit a (Z.of_nat (width - 1 - i))) <$> seq 0 width.
Definition addr_bits (ip : IpAddr) : list bool := bits_msb (addr_width ip) (addr_value ip).

(** A prefix key: the family and the network bits. *)
Definition PKey : Type := bool * list bool.
#[export] Instance PKey_eq_dec : EqDecision PKey := _.
#[export] Instance PKey_countable : Countable PKey := _.

Definition prefix_key (ip : IpAddr) (len : nat) : PKey := (is_ipv6 ip, take len (addr_bits ip)).

(** ** The cidr crate *)

Class Cidr := {
  IpCidr : Type;
  first_address : IpCidr -> IpAddr;
  network_length : IpCidr -> nat;
  contains : IpCidr -> IpAddr -> bool;
  IpCidr_eq_dec :: EqDecision IpCidr;
}.

Definition ckey `{Cidr} (c : IpCidr) : PKey := prefix_key (first_address c) (network_length c).

Class CidrLaws `{Cidr} := {
  cidr_length c : network_length c <= addr_width (first_address c);
  cidr_contains c ip :
    contains c ip = bool_decide (prefix_key ip (network_length c) = ckey c);
  cidr_ext c c' : ckey c = ckey c' -> c = c';
}.

(** ** The prefix map the route cache is built on *)

Class PrefixMap `{Cidr} (V : Type) := {
  pm : Type;
  pm_new : pm;
  pm_get : pm -> IpCidr -> option V;
  (** [None] is [CapacityError]; otherwise the previous value of the prefix *)
  pm_insert : pm -> IpCidr -> V -> option (option V) * pm;
  pm_remove : pm -> IpCidr -> option V * pm;
  pm_lookup : pm -> IpAddr -> option V;
}.
Arguments pm {_} V {_}.

(** Longest-prefix match over an abstract map. *)
Definition is_lpm {V} (m : gmap PKey V) (ip : IpAddr) (r : option V) : Prop :=
  match r with
  | Some v => exists l, l <= addr_width ip /\ m !! prefix_key ip l = Some v /\
      forall l', l < l' <= addr_width ip -> m !! prefix_key ip l' = None
  | None => forall l, l <= addr_width ip -> m !! prefix_key ip l = None
  end.

Class PrefixMapLaws `{PrefixMap V} (CAPACITY : nat) := {
  pm_ok : pm V -> Prop;
  pm_map : pm V -> gmap PKey V;
  pm_new_ok : pm_ok pm_new /\ pm_map pm_new = ∅;
  pm_get_spec m c : pm_ok m -> pm_get m c = pm_map m !! ckey c;
  pm_lookup_spec m ip : pm_ok m -> is_lpm (pm_map m) ip (pm_lookup m ip);
  (** an insertion that fits the capacity in prefixes succeeds *)
  pm_insert_spec m c v :
    pm_ok m -> is_Some (pm_map m !! ckey c) \/ size (pm_map m) < CAPACITY ->
    let '(r, m') := pm_insert m c v in
    r = Some (pm_map m !! ckey c) /\ pm_ok m' /\ pm_map m' = <[ckey c := v]> (pm_map m);
  pm_remove_spec m c :
    pm_ok m ->
    let '(r, m') := pm_remove m c in
    r = pm_map m !! ckey c /\ pm_ok m' /\ pm_map m' = delete (ckey c) (pm_map m);
}.

(** ** Lemmas *)

Lemma addr_bits_length ip : length (addr_bits ip) = addr_width ip.
Proof. unfold addr_bits, bits_msb. by rewrite length_fmap, length_seq. Qed.

Lemma width_family ip ip' : is_ipv6 ip = is_ipv6 ip' -> addr_width ip = addr_width ip'.
Proof. by destruct ip, ip'. Qed.

(** The length of a key that names a prefix of an address. *)
Lemma prefix_key_length ip ip' l l' :
  l <= addr_width ip -> l' <= addr_width ip' -> prefix_key ip l = prefix_key ip' l' -> l = l'.
Proof.
  intros Hl Hl' [= _ E]. apply (f_equal length) in E.
  rewrite !length_take, !addr_bits_length in E. lia.
Qed.

Lemma prefix_key_take ip ip' l k :
  k <= l -> prefix_key ip l = prefix_key ip' l -> prefix_key ip k = prefix_key ip' k.
Proof.
  unfold prefix_key. intros Hk [= Hf E]. f_equal; [done|].
  apply (f_equal (take k)) in E. by rewrite !take_take, !Nat.min_l in E by done.
Qed.

Section CidrFacts.
Context `{CL : CidrLaws}.

Lemma contains_true c ip :
  contains c ip = true <-> prefix_key ip (network_length c) = ckey c.
Proof. rewrite cidr_contains. apply bool_decide_eq_true. Qed.

Lemma contains_width c ip : contains c ip = true -> network_length c <= addr_width ip.
Proof.
  rewrite contains_true. unfold ckey. intros E. injection E as Hf _.
  rewrite (width_family _ _ Hf). apply cidr_length.
Qed.

(** Prefixes of one address of the same length are one prefix. *)
Lemma contains_same_length c c' ip :
  contains c ip = true -> contains c' ip = true -> network_length c = network_length c' -> c = c'.
Proof. rewrite !contains_true. intros E E' El. apply cidr_ext. congruence. Qed.

Lemma ckey_contains c ip l :
  l <= addr_width ip -> ckey c = prefix_key ip l -> contains c ip = true /\ network_length c = l.
Proof.
  intros Hl E. assert (network_length c = l) as <- by (eapply prefix_key_length; eauto using cidr_length).
  split; [|done]. by apply contains_true.
Qed.

End CidrFacts.

(** ** A concrete instance *)

Module CidrModel.
(** The host bits of the address are zero. *)
Definition canonical (x : IpAddr * nat) : Prop :=
  x.2 <= addr_width x.1 /\ drop x.2 (addr_bits x.1) = replicate (addr_width x.1 - x.2) false /\
  (0 <= addr_value x.1 < 2 ^ Z.of_nat (addr_width x.1))%Z.
#[export] Instance canonical_dec x : Decision (canonical x).
Proof. unfold canonical. apply _. Defined.

Definition cidr : Type := dsig canonical.

#[export] Instance ops : Cidr := {|
  IpCidr := cidr;
  first_address c := (proj1_sig c).1;
  network_length c := (proj1_sig c).2;
  contains c ip := bool_decide (prefix_key ip (proj1_sig c).2 = prefix_key (proj1_sig c).1 (proj1_sig c).2);
|}.

Lemma bits_msb_inj w a b :
  (0 <= a < 2 ^ Z.of_nat w)%Z -> (0 <= b < 2 ^ Z.of_nat w)%Z -> bits_msb w a = bits_msb w b -> a = b.
Proof.
  intros Ha Hb E. apply Z.bits_inj'. intros n Hn.
  destruct (Z.lt_ge_cases n (Z.of_nat w)) as [Hlt|Hge].
  - apply (f_equal (fun l => l !! (w - 1 - Z.to_nat n)%nat)) in E. unfold bits_msb in E.
    rewrite !list_lookup_fmap, !lookup_seq_lt in E by lia. cbn in E. injection E as E.
    replace (Z.of_nat (w - 1 - (w - 1 - Z.to_nat n))) with n in E by lia. done.
  - assert (H : forall x, (0 <= x < 2 ^ Z.of_nat w)%Z -> Z.testbit x n = false).
    { intros x Hx. destruct (Z.eq_dec x 0) as [->|]; [apply Z.bits_0|].
      apply Z.bits_above_log2; [lia|]. apply Z.log2_lt_pow2; [lia|].
      eapply Z.lt_le_trans; [apply Hx|]. by apply Z.pow_le_mono_r. }
    by rewrite !H.
Qed.

#[export] Instance laws : CidrLaws.
Proof.
  split.
  - intros [[ip l] Hc]. cbn. by destruct (bool_decide_unpack _ Hc) as [? _].
  - intros c ip. done.
  - intros [[ip l] Hc] [[ip' l'] Hc'] E. apply dsig_eq. cbn.
    destruct (bool_decide_unpack _ Hc) as (Hl & Hz & Hr).
    destruct (bool_decide_unpack _ Hc') as (Hl' & Hz' & Hr').
    cbn in *. assert (l = l') as <- by (eapply prefix_key_length; eauto).
    injection E as Hf Ht. f_equal. pose proof (width_family _ _ Hf) as Hw.
    assert (Eb : addr_bits ip = addr_bits ip').
    { rewrite <- (take_drop l (addr_bits ip)), <- (take_drop l (addr_bits ip')). rewrite Ht, Hz, Hz'. by rewrite Hw. }
    unfold addr_bits in Eb. rewrite Hw in Eb, Hr. apply bits_msb_inj in Eb; [|done..].
    destruct ip, ip'; cbn in *; try done; by subst.
Qed.

(** The prefix of an address, its host bits dropped. *)
Definition mk (ip : IpAddr) (len : nat) (H : bool_decide (canonical (ip, len)) = true) : cidr :=
  (ip, len) ↾ bool_decide_pack _ (proj1 (bool_decide_eq_true _) H).
End CidrModel.

(** The reference prefix map: a finite map searched from the longest prefix. *)
Module MapModel.
Section MapModel.
Context {CR : Cidr} {V : Type}.

Fixpoint lpm_from (m : gmap PKey V) (ip : IpAddr) (l : nat) : option V :=
  match m !! prefix_key ip l with
  | Some v => Some v
  | None => match l with O => None | S l => lpm_from m ip l end
  end.

#[export] Instance ops : PrefixMap V := {|
  pm := gmap PKey V;
  pm_new := ∅;
  pm_get m c := m !! ckey c;
  pm_insert m c v := (Some (m !! ckey c), <[ckey c := v]> m);
  pm_remove m c := (m !! ckey c, delete (ckey c) m);
  pm_lookup m ip := lpm_from m ip (addr_width ip);
|}.

Lemma lpm_from_spec m ip l :
  l <= addr_width ip -> (forall l', l < l' <= addr_width ip -> m !! prefix_key ip l' = None) ->
  is_lpm m ip (lpm_from m ip l).
Proof.
  induction l as [|l IH]; intros Hl Hno; cbn [lpm_from];
    destruct (m !! prefix_key ip _) as [v|] eqn:E; [cbn; eauto| |cbn; eauto|].
  - intros [|l'] Hl'; [done|]. apply Hno. lia.
  - apply IH; [lia|]. intros l' Hl'. destruct (decide (l' = S l)) as [->|]; [done|]. apply Hno. lia.
Qed.

#[export, program] Instance laws (n : nat) : PrefixMapLaws (V:=V) n := {|
  pm_ok _ := True;
  pm_map m := m;
|}.
Next Obligation. done. Qed.
Next Obligation. done. Qed.
Next Obligation. intros n m ip _. apply lpm_from_spec; [lia|]. intros l'. lia. Qed.
Next Obligation. done. Qed.
Next Obligation. done. Qed.
End MapModel.
End MapModel.
