(* ===== verification/Rate.v ===== *)
(** * Token buckets and the per-source limiter ([microtun-core/src/rate.rs])

    Accounting is in millitokens ([u32]) and milliseconds ([u64]).  The table of
    the allocation-free backend is a vector of buckets searched from the front. *)

From S2P Require Import Prelude Clock Ip.
Local Open Scope Z_scope.

Definition COST_MT : Z := 1000.

(** ** A single bucket *)

Record TokenBucket := mkTokenBucket {
  millitokens : Z;
  capacity_mt : Z;
  per_sec : Z;
  last : Instant;
}.

Definition tb_new (per_sec burst : Z) (now : Instant) : TokenBucket :=
  let capacity_mt := sat_mul u32_max burst 1000 in
  mkTokenBucket capacity_mt capacity_mt per_sec now.

(** The final [as u32] cast keeps the low 32 bits. *)
Definition tokens_at (b : TokenBucket) (now : Instant) : Z :=
  let elapsed_ms := saturating_since now (last b) in
  let gained := sat_mul u64_max elapsed_ms (per_sec b) in
  (Z.min (sat_add u64_max (millitokens b) gained) (capacity_mt b)) mod (u32_max + 1).

Definition is_full (b : TokenBucket) (now : Instant) : bool :=
  capacity_mt b <=? tokens_at b now.

Definition try_take (b : TokenBucket) (now : Instant) : bool * TokenBucket :=
  let t := tokens_at b now in
  if COST_MT <=? t
  then (true, mkTokenBucket (t - COST_MT) (capacity_mt b) (per_sec b) now)
  else (false, mkTokenBucket t (capacity_mt b) (per_sec b) now).

(** ** Sources *)

Inductive Key :=
| KeyV4 (octets : Z)
| KeyV6Prefix (upper64 : Z).

#[export] Instance Key_eq_dec : EqDecision Key.
Proof. solve_decision. Defined.

Definition key_from_ip (ip : IpAddr) : Key :=
  match unmap_ip ip with
  | V4 v4 => KeyV4 v4
  | V6 v6 => KeyV6Prefix (Z.shiftr v6 64)
  end.

(** ** The bounded table *)

Record Bucket := mkBucket { bkey : Key; tokens : TokenBucket }.

Record RateLimiter := mkRateLimiter {
  rl_per_sec : Z;
  rl_burst : Z;
  rl_max_entries : nat;
  buckets : list Bucket;
}.

Section Limiter.
(** The storage ceiling of the backend. *)
Context (MAX_RATE_LIMIT_ENTRIES : nat).

Definition rl_new (per_sec burst : Z) (max_entries : nat) : RateLimiter :=
  mkRateLimiter per_sec burst max_entries [].

Definition set_buckets (rl : RateLimiter) (bs : list Bucket) : RateLimiter :=
  mkRateLimiter (rl_per_sec rl) (rl_burst rl) (rl_max_entries rl) bs.

(** Index of the first bucket of [key]. *)
Definition lookup_mut (rl : RateLimiter) (key : Key) : option nat :=
  position (fun b => bool_decide (bkey b = key)) (buckets rl).

Definition collect (rl : RateLimiter) (now : Instant) : RateLimiter :=
  set_buckets rl (retain (fun b => negb (is_full (tokens b) now)) (buckets rl)).

(** [heapless::Vec::push]: refused when the storage is full. *)
Definition rl_admit (rl : RateLimiter) (key : Key) (t : TokenBucket) : bool * RateLimiter :=
  if (length (buckets rl) <? MAX_RATE_LIMIT_ENTRIES)%nat
  then (true, set_buckets rl (buckets rl ++ [mkBucket key t]))
  else (false, rl).

Definition admit_new (rl : RateLimiter) (key : Key) (now : Instant) : bool * RateLimiter :=
  let '(allowed, t) := try_take (tb_new (rl_per_sec rl) (rl_burst rl) now) now in
  let '(ok, rl) := rl_admit rl key t in
  if ok then (allowed, rl) else (false, rl).

Definition allow (rl : RateLimiter) (ip : IpAddr) (now : Instant) : bool * RateLimiter :=
  let key := key_from_ip ip in
  match lookup_mut rl key with
  | Some i =>
      match buckets rl !! i with
      | Some b =>
          let '(ok, t) := try_take (tokens b) now in
          (ok, set_buckets rl (<[i := mkBucket (bkey b) t]> (buckets rl)))
      | None => (false, rl)
      end
  | None =>
      if (rl_max_entries rl <=? length (buckets rl))%nat then
        let rl := collect rl now in
        if (rl_max_entries rl <=? length (buckets rl))%nat then (false, rl)
        else admit_new rl key now
      else admit_new rl key now
  end.

(** A run over timed requests; the verdicts are returned with the final state. *)
Fixpoint allow_run (rl : RateLimiter) (reqs : list (IpAddr * Instant))
  : list bool * RateLimiter :=
  match reqs with
  | [] => ([], rl)
  | (ip, now) :: reqs =>
      let '(ok, rl) := allow rl ip now in
      let '(oks, rl) := allow_run rl reqs in
      (ok :: oks, rl)
  end.

End Limiter.

(** ** The sub-Hz budget *)

Record IntervalBudget := mkIntervalBudget {
  available : Z;
  burst : Z;
  interval_ms : Z;
  last_refill : Instant;
}.

Definition ib_new (interval : Duration) (burst : Z) (now : Instant) : IntervalBudget :=
  mkIntervalBudget burst burst interval now.

Definition ib_refill (b : IntervalBudget) (now : Instant) : IntervalBudget :=
  let elapsed := saturating_since now (last_refill b) in
  let refills := elapsed / interval_ms b in
  if refills =? 0 then b else
  let gained := if refills <=? u32_max then refills else u32_max in
  mkIntervalBudget
    (Z.min (sat_add u32_max (available b) gained) (burst b)) (burst b) (interval_ms b)
    (sat_add u64_max (last_refill b) (sat_mul u64_max refills (interval_ms b))).

Definition try_take_many (b : IntervalBudget) (count : Z) (now : Instant)
  : bool * IntervalBudget :=
  if count =? 0 then (true, b)
  else if (interval_ms b =? 0) || (burst b =? 0) || (burst b <? count) then (false, b)
  else
    let b := ib_refill b now in
    if available b <? count then (false, b)
    else (true, mkIntervalBudget (available b - count) (burst b) (interval_ms b) (last_refill b)).

Definition ib_try_take (b : IntervalBudget) (now : Instant) : bool * IntervalBudget :=
  try_take_many b 1 now.

Fixpoint take_run (b : IntervalBudget) (reqs : list (Z * Instant)) : list bool * IntervalBudget :=
  match reqs with
  | [] => ([], b)
  | (count, now) :: reqs =>
      let '(ok, b) := try_take_many b count now in
      let '(oks, b) := take_run b reqs in
      (ok :: oks, b)
  end.

(** ** What the bounds count *)

(** Times of a request sequence never decrease and start at [t0]. *)
Fixpoint timed_from {A} (t0 : Instant) (reqs : list (A * Instant)) : Prop :=
  match reqs with
  | [] => True
  | (_, now) :: reqs => t0 <= now /\ is_u64 now /\ timed_from now reqs
  end.

(** The last time of a sequence. *)
Fixpoint end_time {A} (t0 : Instant) (reqs : list (A * Instant)) : Instant :=
  match reqs with [] => t0 | (_, now) :: reqs => end_time now reqs end.

(** Requests of source [k] that were allowed. *)
Fixpoint granted (k : Key) (reqs : list (IpAddr * Instant)) (oks : list bool) : Z :=
  match reqs, oks with
  | (ip, _) :: reqs, ok :: oks =>
      (if ok && bool_decide (key_from_ip ip = k) then 1 else 0) + granted k reqs oks
  | _, _ => 0
  end.

(** Total operations charged. *)
Fixpoint charged (reqs : list (Z * Instant)) (oks : list bool) : Z :=
  match reqs, oks with
  | (count, _) :: reqs, ok :: oks => (if ok : bool then count else 0) + charged reqs oks
  | _, _ => 0
  end.

(** ** Invariants *)

Record tb_wf (rate cap t : Z) (b : TokenBucket) : Prop := {
  tbw_tokens : 0 <= millitokens b <= cap;
  tbw_cap : capacity_mt b = cap;
  tbw_rate : per_sec b = rate;
  tbw_last : 0 <= last b <= t;
}.

Definition rl_cap (rl : RateLimiter) : Z := sat_mul u32_max (rl_burst rl) 1000.

Record rl_wf (t : Instant) (rl : RateLimiter) : Prop := {
  rlw_rate : is_u32 (rl_per_sec rl);
  rlw_burst : is_u32 (rl_burst rl);
  rlw_keys : NoDup (bkey <$> buckets rl);
  rlw_buckets : Forall (fun b => tb_wf (rl_per_sec rl) (rl_cap rl) t (tokens b)) (buckets rl);
}.

(** The credit of a source: its bucket refilled to [t], or a full bucket when
    the table does not hold it. *)
Definition credit (rl : RateLimiter) (k : Key) (t : Instant) : Z :=
  match lookup_mut rl k ≫= (fun i => buckets rl !! i) with
  | Some b => tokens_at (tokens b) t
  | None => rl_cap rl
  end.

Record ib_wf (t0 t : Instant) (spent : Z) (b : IntervalBudget) : Prop := {
  ibw_interval : 0 < interval_ms b;
  ibw_u32 : 0 <= available b <= burst b;
  ibw_burst : is_u32 (burst b);
  ibw_time : t0 <= last_refill b <= t;
  ibw_t0 : 0 <= t0;
  ibw_div : (last_refill b - t0) mod interval_ms b = 0;
  ibw_spent : available b + spent <= burst b + (last_refill b - t0) / interval_ms b;
}.

(** ** Lemmas on one bucket *)

Lemma rl_cap_bound rl : is_u32 (rl_burst rl) -> 0 <= rl_cap rl <= u32_max.
Proof. unfold rl_cap, sat_mul, is_u32, u32_max. lia. Qed.

Lemma tokens_at_eq rate cap t b now :
  is_u32 rate -> 0 <= cap <= u32_max -> tb_wf rate cap t b ->
  tokens_at b now = Z.min cap (millitokens b + Z.max 0 (now - last b) * rate).
Proof.
  intros Hr Hcap [Hm Hc Hp Hl]. unfold tokens_at, saturating_since, sat_sub, sat_mul, sat_add.
  rewrite Hc, Hp.
  unfold is_u32, u32_max, u64_max in *.
  assert (0 <= Z.max 0 (now - last b) * rate) by nia.
  rewrite Z.mod_small by lia. lia.
Qed.

Lemma tb_new_wf rate burst now :
  0 <= burst -> 0 <= now -> tb_wf rate (sat_mul u32_max burst 1000) now (tb_new rate burst now).
Proof. intros Hb Hn. unfold tb_new. split; simpl; unfold sat_mul, u32_max in *; lia. Qed.

Lemma tb_wf_mono rate cap t t' b : t <= t' -> tb_wf rate cap t b -> tb_wf rate cap t' b.
Proof. intros Ht []. split; auto; lia. Qed.

Lemma try_take_spec rate cap t b now ok b' :
  is_u32 rate -> 0 <= cap <= u32_max -> tb_wf rate cap t b -> t <= now ->
  try_take b now = (ok, b') ->
  tb_wf rate cap now b' /\ tokens_at b' now + (if ok then COST_MT else 0) = tokens_at b now.
Proof.
  intros Hr Hcap Hwf Ht Htake. pose proof Hwf as [Hm Hc Hp Hl].
  pose proof (tokens_at_eq rate cap t b now Hr Hcap Hwf) as Heq.
  assert (0 <= Z.max 0 (now - last b) * rate) by (unfold is_u32 in *; nia).
  unfold try_take in Htake.
  assert (tb_wf rate cap now b') as Hwf'.
  { destruct (Z.leb_spec COST_MT (tokens_at b now)); injection Htake as <- <-;
      split; simpl; unfold COST_MT in *; auto; lia. }
  split; [done|]. rewrite (tokens_at_eq rate cap now b' now Hr Hcap Hwf').
  destruct (Z.leb_spec COST_MT (tokens_at b now)); injection Htake as <- <-; simpl;
    rewrite Z.sub_diag; unfold COST_MT in *; lia.
Qed.

(** ** Lemmas on the table *)

Lemma lookup_mut_Some rl k i :
  lookup_mut rl k = Some i -> exists b, buckets rl !! i = Some b /\ bkey b = k.
Proof. intros (b & Hb & Hk & _)%position_Some. exists b. bool_to_prop. auto. Qed.

Lemma lookup_mut_None rl k :
  lookup_mut rl k = None <-> k ∉ (bkey <$> buckets rl).
Proof.
  unfold lookup_mut. rewrite position_None, Forall_forall, list_elem_of_fmap.
  setoid_rewrite bool_decide_eq_false. naive_solver.
Qed.

Lemma credit_out rl k t : k ∉ (bkey <$> buckets rl) -> credit rl k t = rl_cap rl.
Proof. intros H%lookup_mut_None. unfold credit. by rewrite H. Qed.

Lemma credit_in rl t b :
  NoDup (bkey <$> buckets rl) -> b ∈ buckets rl -> credit rl (bkey b) t = tokens_at (tokens b) t.
Proof.
  intros Hnd Hb. unfold credit. destruct (lookup_mut rl (bkey b)) as [i|] eqn:E.
  - apply lookup_mut_Some in E as (b' & Hi & Hk). simpl. rewrite Hi.
    apply list_elem_of_lookup in Hb as (j & Hj).
    assert (i = j) as ->.
    { apply (NoDup_lookup _ i j (bkey b) Hnd); rewrite list_lookup_fmap, ?Hi, ?Hj; simpl; congruence. }
    congruence.
  - apply lookup_mut_None in E. exfalso. apply E. by apply list_elem_of_fmap_2.
Qed.

Lemma rl_wf_bucket t rl b :
  rl_wf t rl -> b ∈ buckets rl -> tb_wf (rl_per_sec rl) (rl_cap rl) t (tokens b).
Proof. intros [_ _ _ H] Hb. rewrite Forall_forall in H. auto. Qed.

Lemma credit_cases rl k :
  (k ∉ (bkey <$> buckets rl)) \/ (exists b, b ∈ buckets rl /\ bkey b = k).
Proof.
  destruct (decide (k ∈ (bkey <$> buckets rl))) as [(b & -> & Hb)%list_elem_of_fmap|]; eauto.
Qed.

(** The credit of a source is bounded by the capacity and grows at most at the
    configured rate. *)
Lemma credit_bound t rl k now :
  rl_wf t rl -> 0 <= credit rl k now <= rl_cap rl.
Proof.
  intros Hwf. pose proof (rl_cap_bound rl (rlw_burst _ _ Hwf)) as Hcap.
  destruct (credit_cases rl k) as [Hk|(b & Hb & <-)].
  - rewrite credit_out by done. lia.
  - pose proof (rl_wf_bucket t rl b Hwf Hb) as Hbw. pose proof Hbw as [].
    rewrite credit_in, (tokens_at_eq (rl_per_sec rl) (rl_cap rl) t) by (done || apply Hwf).
    pose proof (rlw_rate _ _ Hwf) as Hr. unfold is_u32 in Hr.
    assert (0 <= Z.max 0 (now - last (tokens b)) * rl_per_sec rl) by nia. lia.
Qed.

Lemma credit_advance t rl k t1 t2 :
  rl_wf t rl -> t1 <= t2 ->
  credit rl k t2 <= credit rl k t1 + (t2 - t1) * rl_per_sec rl.
Proof.
  intros Hwf Ht. pose proof (rl_cap_bound rl (rlw_burst _ _ Hwf)) as Hcap.
  pose proof (rlw_rate _ _ Hwf) as Hr.
  destruct (credit_cases rl k) as [Hk|(b & Hb & <-)].
  - rewrite !credit_out by done. unfold is_u32 in Hr. nia.
  - pose proof (rl_wf_bucket t rl b Hwf Hb) as Hbw. pose proof Hbw as [].
    rewrite !credit_in, !(tokens_at_eq (rl_per_sec rl) (rl_cap rl) t) by (done || apply Hwf).
    unfold is_u32 in Hr.
    assert (Z.max 0 (t2 - last (tokens b)) * rl_per_sec rl <=
            Z.max 0 (t1 - last (tokens b)) * rl_per_sec rl + (t2 - t1) * rl_per_sec rl) by nia.
    nia.
Qed.

Lemma rl_wf_mono t t' rl : t <= t' -> rl_wf t rl -> rl_wf t' rl.
Proof.
  intros Ht [Hr Hb Hk Hbs]. split; auto. eapply Forall_impl; [exact Hbs|].
  intros b. by apply tb_wf_mono.
Qed.

(** Reclaiming refilled buckets forgets nothing: no credit changes. *)
Lemma collect_spec t rl now :
  rl_wf t rl -> t <= now ->
  rl_wf now (collect rl now) /\ forall k, credit (collect rl now) k now = credit rl k now.
Proof.
  intros Hwf Ht. pose proof (rl_wf_mono t now rl Ht Hwf) as Hwf1.
  assert (rl_wf now (collect rl now)) as Hwf2.
  { destruct Hwf1. split; simpl; auto using NoDup_fmap_retain, Forall_retain. }
  split; [done|]. intros k.
  destruct (credit_cases (collect rl now) k) as [Hk|(b & Hb & <-)].
  - rewrite credit_out by done. change (rl_cap (collect rl now)) with (rl_cap rl).
    destruct (credit_cases rl k) as [Hk'|(b & Hb & <-)]; [by rewrite credit_out|].
    rewrite credit_in by (done || apply Hwf).
    pose proof (rl_wf_bucket t rl b Hwf Hb) as Hbw.
    destruct (is_full (tokens b) now) eqn:Efull.
    + unfold is_full in Efull. bool_to_prop. rewrite (tbw_cap _ _ _ _ Hbw) in Efull.
      pose proof (credit_bound t rl (bkey b) now Hwf) as Hcb.
      rewrite credit_in in Hcb by (done || apply Hwf). lia.
    + exfalso. apply Hk. apply list_elem_of_fmap_2, elem_of_retain. by rewrite Efull.
  - rewrite credit_in by (done || apply Hwf2).
    apply elem_of_retain in Hb as [_ Hb]. by rewrite credit_in by (done || apply Hwf).
Qed.

Section LimiterFacts.
Context (CEIL : nat).

(** A step keeps the table well formed and charges the source it allows. *)
Definition step_ok (rl : RateLimiter) (k : Key) (now : Instant) (r : bool * RateLimiter) : Prop :=
  rl_wf now (snd r) /\ rl_cap (snd r) = rl_cap rl /\ rl_per_sec (snd r) = rl_per_sec rl /\
  forall k', credit (snd r) k' now + (if fst r && bool_decide (k = k') then COST_MT else 0)
             <= credit rl k' now.

Lemma admit_new_step t rl k now :
  rl_wf t rl -> t <= now -> 0 <= now -> k ∉ (bkey <$> buckets rl) ->
  step_ok rl k now (admit_new CEIL rl k now).
Proof.
  intros Hwf Ht Hnow Hk. unfold admit_new, rl_admit.
  pose proof (rl_cap_bound rl (rlw_burst _ _ Hwf)) as Hcap.
  pose proof (rl_wf_mono t now rl Ht Hwf) as Hwf1. pose proof Hwf1 as [Hr Hb Hnd Hbs].
  pose proof (tb_new_wf (rl_per_sec rl) (rl_burst rl) now (proj1 Hb) Hnow) as Hnew.
  destruct (try_take (tb_new _ _ now) now) as [ok b'] eqn:Etake.
  destruct (try_take_spec _ _ now _ now ok b' Hr Hcap Hnew ltac:(lia) Etake) as [Hb' Htok].
  destruct (_ <? _)%nat; [|unfold step_ok; simpl; split_and!; auto; intros k'; lia].
  assert (rl_wf now (set_buckets rl (buckets rl ++ [mkBucket k b']))) as Hwf'.
  { split; simpl; auto.
    - rewrite fmap_app. simpl. apply NoDup_app. split_and!; [done| |by apply NoDup_singleton].
      intros x Hx. rewrite list_elem_of_singleton. by intros ->.
    - apply Forall_app_2; [done|]. by constructor. }
  unfold step_ok. simpl. split_and!; auto. intros k'.
  destruct (decide (k = k')) as [<-|Hne].
  - rewrite bool_decide_eq_true_2, andb_true_r by done.
    rewrite (credit_out rl k) by done.
    set (rl' := set_buckets rl _) in *.
    assert (credit rl' k now = tokens_at b' now) as ->.
    { apply (credit_in rl' now (mkBucket k b')); [apply Hwf'|]. simpl. set_solver. }
    rewrite (tokens_at_eq _ (rl_cap rl) now _ now Hr Hcap Hnew) in Htok. lia.
  - rewrite bool_decide_eq_false_2, andb_false_r, Z.add_0_r by done.
    destruct (credit_cases rl k') as [Hk'|(b & Hbin & <-)].
    + rewrite !credit_out; [done|done|]. simpl. rewrite fmap_app. simpl. set_solver.
    + rewrite (credit_in _ now b) by (apply Hwf' || (simpl; set_solver)).
      by rewrite credit_in by (done || apply Hwf).
Qed.

Lemma step_ok_credit rl1 rl2 k now r :
  rl_cap rl1 = rl_cap rl2 -> rl_per_sec rl1 = rl_per_sec rl2 ->
  (forall k', credit rl1 k' now = credit rl2 k' now) -> step_ok rl1 k now r -> step_ok rl2 k now r.
Proof. unfold step_ok. intros -> -> Hc (?&?&?&H). split_and!; auto. intros k'. by rewrite <- Hc. Qed.

Lemma allow_step t rl ip now :
  rl_wf t rl -> t <= now -> 0 <= now ->
  step_ok rl (key_from_ip ip) now (allow CEIL rl ip now).
Proof.
  intros Hwf Ht Hnow. set (k := key_from_ip ip). unfold allow. fold k.
  pose proof (rl_cap_bound rl (rlw_burst _ _ Hwf)) as Hcap.
  destruct (lookup_mut rl k) as [i|] eqn:El.
  - apply lookup_mut_Some in El as (b & Hi & Hbk). rewrite Hi.
    pose proof (list_elem_of_lookup_2 _ _ _ Hi) as Hin.
    pose proof (rl_wf_bucket t rl b Hwf Hin) as Hbw.
    destruct (try_take (tokens b) now) as [ok b'] eqn:Etake.
    destruct (try_take_spec _ _ t _ now ok b' (rlw_rate _ _ Hwf) Hcap Hbw Ht Etake) as [Hb' Htok].
    set (rl' := set_buckets rl _).
    assert (bkey <$> buckets rl' = bkey <$> buckets rl) as Hkeys.
    { simpl. rewrite list_fmap_insert. apply list_insert_id.
      by rewrite list_lookup_fmap, Hi. }
    pose proof (rl_wf_mono t now rl Ht Hwf) as [Hr Hbu Hnd Hbs].
    assert (rl_wf now rl') as Hwf'.
    { split; auto; [by rewrite Hkeys|]. by apply Forall_insert. }
    unfold step_ok. simpl. split_and!; auto. intros k'.
    destruct (decide (k = k')) as [<-|Hne].
    + rewrite bool_decide_eq_true_2, andb_true_r by done. rewrite <- Hbk.
      rewrite (credit_in rl now b) by done.
      assert (credit rl' (bkey b) now = tokens_at b' now) as ->; [|lia].
      apply (credit_in rl' now (mkBucket (bkey b) b')); [apply Hwf'|].
      simpl. apply list_elem_of_lookup. exists i.
      apply list_lookup_insert_eq. by eapply lookup_lt_Some.
    + rewrite bool_decide_eq_false_2, andb_false_r, Z.add_0_r by done.
      destruct (credit_cases rl k') as [Hk'|(c & Hc & <-)].
      * rewrite !credit_out; [done|done|by rewrite Hkeys].
      * rewrite (credit_in rl now c) by done. rewrite (credit_in rl' now c); [lia|apply Hwf'|].
        apply list_elem_of_lookup in Hc as (j & Hj). simpl. apply list_elem_of_lookup. exists j.
        rewrite list_lookup_insert_ne; [done|]. intros ->. congruence.
  - apply lookup_mut_None in El.
    destruct (_ <=? _)%nat; [|by apply (admit_new_step t)].
    destruct (collect_spec t rl now Hwf Ht) as [Hcw Hcc].
    apply (step_ok_credit (collect rl now)); [done|done|done|].
    destruct (_ <=? _)%nat.
    + unfold step_ok. simpl. split_and!; auto. intros k'. lia.
    + apply (admit_new_step now); auto; [lia|]. intros (b & Eb & [_ Hb]%elem_of_retain)%list_elem_of_fmap.
      apply El. rewrite Eb. by apply list_elem_of_fmap_2.
Qed.

Lemma allow_run_bound t rl k reqs :
  rl_wf t rl -> 0 <= t -> timed_from t reqs ->
  let '(oks, rl') := allow_run CEIL rl reqs in
  rl_wf (end_time t reqs) rl' /\ t <= end_time t reqs /\
  credit rl' k (end_time t reqs) + COST_MT * granted k reqs oks
    <= credit rl k t + (end_time t reqs - t) * rl_per_sec rl.
Proof.
  revert t rl. induction reqs as [|[ip now] reqs IH]; intros t rl Hwf Ht0 Htime; simpl.
  { split_and!; [done|lia|lia]. }
  destruct Htime as (Hle & Hu & Htime).
  pose proof (allow_step t rl ip now Hwf Hle ltac:(lia)) as Hstep.
  destruct (allow CEIL rl ip now) as [ok rl1] eqn:E. simpl in Hstep.
  destruct Hstep as (Hwf1 & Hcap1 & Hrate1 & Hcred). simpl in *.
  specialize (IH now rl1 Hwf1 ltac:(lia) Htime).
  destruct (allow_run CEIL rl1 reqs) as [oks rl2]. destruct IH as (Hwf2 & Hle2 & Hb).
  split_and!; [done|lia|]. specialize (Hcred k).
  pose proof (credit_advance t rl k t now Hwf Hle) as Hadv. rewrite Hrate1 in Hb.
  destruct ok; simpl in *; [|lia].
  case_bool_decide; unfold COST_MT in *; lia.
Qed.

End LimiterFacts.

Lemma allow_run_app CEIL rl reqs1 reqs2 :
  allow_run CEIL rl (reqs1 ++ reqs2) =
    let '(oks1, rl1) := allow_run CEIL rl reqs1 in
    let '(oks2, rl2) := allow_run CEIL rl1 reqs2 in (oks1 ++ oks2, rl2).
Proof.
  revert rl. induction reqs1 as [|[ip now] reqs1 IH]; intros rl; simpl.
  - by destruct (allow_run CEIL rl reqs2).
  - destruct (allow CEIL rl ip now) as [ok rl1]. rewrite IH.
    destruct (allow_run CEIL rl1 reqs1) as [oks rl2]. by destruct (allow_run CEIL rl2 reqs2).
Qed.

Lemma timed_from_app {A} t0 (r1 r2 : list (A * Instant)) :
  timed_from t0 (r1 ++ r2) <-> timed_from t0 r1 /\ timed_from (end_time t0 r1) r2.
Proof. revert t0. induction r1 as [|[x now] r1 IH]; intros t0; simpl; [tauto|]. rewrite IH. tauto. Qed.

Lemma end_time_app {A} t0 (r1 r2 : list (A * Instant)) :
  end_time t0 (r1 ++ r2) = end_time (end_time t0 r1) r2.
Proof. revert t0. induction r1 as [|[x now] r1 IH]; intros t0; simpl; auto. Qed.

Lemma rl_new_wf per_sec burst max_entries t :
  is_u32 per_sec -> is_u32 burst -> rl_wf t (rl_new per_sec burst max_entries).
Proof. intros. split; simpl; auto; constructor. Qed.

(** ** Lemmas on the interval budget *)

Lemma ib_refill_params b now :
  interval_ms (ib_refill b now) = interval_ms b /\ burst (ib_refill b now) = burst b.
Proof. unfold ib_refill. by case_match. Qed.

Lemma ib_refill_wf t0 t spent b now :
  ib_wf t0 t spent b -> t <= now -> is_u64 now -> ib_wf t0 now spent (ib_refill b now).
Proof.
  intros [Hi Ha Hb Ht H0 Hd Hs] Htn Hu. unfold ib_refill, saturating_since, sat_sub.
  rewrite Z.max_r by lia. set (refills := (now - last_refill b) / interval_ms b).
  assert (0 <= refills) by (apply Z.div_pos; lia).
  assert (refills * interval_ms b <= now - last_refill b).
  { pose proof (Z.mul_div_le (now - last_refill b) (interval_ms b) Hi). unfold refills. lia. }
  destruct (Z.eqb_spec refills 0) as [|Hr]; [by split; auto; lia|].
  assert (0 <= refills * interval_ms b) by nia.
  assert (sat_add u64_max (last_refill b) (sat_mul u64_max refills (interval_ms b)) =
          last_refill b + refills * interval_ms b) as Hlast.
  { unfold sat_add, sat_mul, is_u64, u64_max in *. lia. }
  split; cbn [interval_ms available burst last_refill]; rewrite ?Hlast; auto.
  - unfold sat_add, is_u32, u32_max in *. destruct (refills <=? 4294967295); lia.
  - lia.
  - replace (last_refill b + refills * interval_ms b - t0)
      with ((last_refill b - t0) + refills * interval_ms b) by lia.
    by rewrite Z.mod_add by lia.
  - replace (last_refill b + refills * interval_ms b - t0)
      with ((last_refill b - t0) + refills * interval_ms b) by lia.
    rewrite Z.div_add by lia. unfold sat_add, u32_max.
    destruct (Z.leb_spec refills 4294967295); lia.
Qed.

Lemma try_take_many_wf t0 t spent b count now ok b' :
  ib_wf t0 t spent b -> t <= now -> is_u64 now -> 0 <= count ->
  try_take_many b count now = (ok, b') ->
  ib_wf t0 now (spent + if ok then count else 0) b' /\
  interval_ms b' = interval_ms b /\ burst b' = burst b.
Proof.
  intros Hwf Ht Hu Hc. pose proof (ib_refill_wf t0 t spent b now Hwf Ht Hu) as Hr.
  pose proof (ib_refill_params b now) as Hk.
  assert (ib_wf t0 now spent b) as Hnow by (destruct Hwf; split; auto; lia).
  unfold try_take_many. destruct (Z.eqb_spec count 0) as [->|].
  { intros [= <- <-]. by rewrite Z.add_0_r. }
  destruct (_ || _); [intros [= <- <-]; by rewrite Z.add_0_r|].
  destruct (Z.ltb_spec (available (ib_refill b now)) count); intros [= <- <-].
  - by rewrite Z.add_0_r.
  - split; [|done]. destruct Hr. split; simpl; auto; lia.
Qed.

Lemma take_run_bound t0 t spent b reqs :
  ib_wf t0 t spent b -> timed_from t reqs -> Forall (fun r => 0 <= fst r) reqs ->
  let '(oks, b') := take_run b reqs in
  ib_wf t0 (end_time t reqs) (spent + charged reqs oks) b' /\
  interval_ms b' = interval_ms b /\ burst b' = burst b.
Proof.
  revert t spent b. induction reqs as [|[count now] reqs IH]; intros t spent b Hwf Htime Hpos; simpl.
  { by rewrite Z.add_0_r. }
  destruct Htime as (Hle & Hu & Htime). inversion Hpos as [|? ? Hc Hpos']; subst. simpl in Hc.
  destruct (try_take_many b count now) as [ok b1] eqn:E.
  destruct (try_take_many_wf t0 t spent b count now ok b1 Hwf Hle Hu Hc E) as (Hwf1 & Hi1 & Hb1).
  specialize (IH now _ b1 Hwf1 Htime Hpos').
  destruct (take_run b1 reqs) as [oks b2]. destruct IH as (Hwf2 & Hi2 & Hb2).
  split_and!; [|congruence|congruence].
  by rewrite Z.add_assoc.
Qed.

(** ** Properties *)

(** C19: the limiter bounds every source over every window of time: however the
    other sources churn the table (reclaiming, denials, source cycling), the
    messages allowed to one source after any history cost at most one burst
    plus the configured rate times the elapsed milliseconds. *)
Theorem limiter_bounds_every_source
    (CEIL max_entries : nat) (rate burst : Z) (t0 : Instant)
    (history reqs : list (IpAddr * Instant)) (k : Key) :
  is_u32 rate -> is_u32 burst -> 0 <= t0 -> timed_from t0 (history ++ reqs) ->
  let rl := snd (allow_run CEIL (rl_new rate burst max_entries) history) in
  let t1 := end_time t0 history in
  COST_MT * granted k reqs (fst (allow_run CEIL rl reqs))
    <= sat_mul u32_max burst 1000 + (end_time t1 reqs - t1) * rate.
Proof.
  intros Hr Hb Ht0 [Hh Hq]%timed_from_app rl t1.
  pose proof (rl_new_wf rate burst max_entries t0 Hr Hb) as Hwf0.
  pose proof (allow_run_bound CEIL t0 _ k history Hwf0 Ht0 Hh) as H1.
  assert (rl_wf t1 rl /\ rl_cap rl = sat_mul u32_max burst 1000 /\ rl_per_sec rl = rate /\ 0 <= t1)
    as (Hwf & Hcap & Hrate & Ht1).
  { unfold rl, t1. clear Hq rl t1. revert H1.
    assert (forall r, rl_burst (snd (allow_run CEIL r history)) = rl_burst r /\
                      rl_per_sec (snd (allow_run CEIL r history)) = rl_per_sec r) as Hpres.
    { clear. induction history as [|[ip now] h IH]; intros r; simpl; [done|].
      destruct (allow CEIL r ip now) as [ok r1] eqn:E.
      specialize (IH r1). destruct (allow_run CEIL r1 h). simpl in *.
      assert (rl_burst r1 = rl_burst r /\ rl_per_sec r1 = rl_per_sec r) as [<- <-]; [|done].
      unfold allow, admit_new, rl_admit in E. repeat case_match; naive_solver. }
    specialize (Hpres (rl_new rate burst max_entries)).
    destruct (allow_run CEIL _ history) as [oks rl1]. simpl in *.
    intros (Hw & Hle & _). unfold rl_cap. destruct Hpres as [-> ->]. split_and!; auto; lia. }
  pose proof (allow_run_bound CEIL t1 rl k reqs Hwf Ht1 Hq) as H2.
  destruct (allow_run CEIL rl reqs) as [oks rl2]. simpl. destruct H2 as (Hwf2 & _ & H2).
  pose proof (credit_bound t1 rl k t1 Hwf).
  pose proof (credit_bound _ rl2 k (end_time t1 reqs) Hwf2). rewrite Hrate in H2. lia.
Qed.

Lemma limiter_bounds_every_source_witness :
  let rl := snd (allow_run 2 (rl_new 20 5 2) [(V4 1, 0); (V4 2, 0)]) in
  COST_MT * granted (KeyV4 1) [(V4 1, 10); (V4 3, 20); (V4 1, 60)]
              (fst (allow_run 2 rl [(V4 1, 10); (V4 3, 20); (V4 1, 60)]))
    <= sat_mul u32_max 5 1000 + (60 - 0) * 20.
Proof.
  apply (limiter_bounds_every_source 2 2 20 5 0 [(V4 1, 0); (V4 2, 0)]
           [(V4 1, 10); (V4 3, 20); (V4 1, 60)] (KeyV4 1));
    unfold is_u32, is_u64, u32_max, u64_max; simpl; unfold is_u64, u64_max; lia.
Defined.

(** a full table denies: an unseen source arriving while every bucket is
    still constraining someone is refused, and no bucket is evicted or changed
    to make room for it. *)
Theorem full_table_denies (CEIL : nat) (rl : RateLimiter) (ip : IpAddr) (now : Instant) :
  key_from_ip ip ∉ (bkey <$> buckets rl) ->
  (rl_max_entries rl <= length (buckets rl))%nat ->
  Forall (fun b => is_full (tokens b) now = false) (buckets rl) ->
  allow CEIL rl ip now = (false, rl).
Proof.
  intros Hk%lookup_mut_None Hlen Hfull. unfold allow. rewrite Hk.
  assert (collect rl now = rl) as ->.
  { unfold collect, set_buckets. destruct rl as [r b m bs]. simpl in *. f_equal.
    apply retain_all. eapply Forall_impl; [exact Hfull|]. simpl. by intros x ->. }
  by rewrite (proj2 (Nat.leb_le _ _) Hlen).
Qed.

Lemma full_table_denies_witness :
  let rl := snd (allow_run 1 (rl_new 1 2 1) [(V4 1, 0)]) in
  allow 1 rl (V4 9) 500 = (false, rl).
Proof.
  apply full_table_denies; [|vm_compute; lia|repeat constructor].
  vm_compute. intros H. inversion H as [? ? E|? ? ? H']; inversion H'.
Defined.

(** the eviction budget never grants more than its burst plus one operation
    per elapsed interval, over any sequence of (multi-)charges at non-decreasing
    times; refills never bank more than the burst. *)
Theorem interval_budget_bound (interval burst0 : Z) (t0 : Instant)
    (reqs : list (Z * Instant)) :
  0 < interval -> is_u32 burst0 -> is_u64 t0 ->
  timed_from t0 reqs -> Forall (fun r => 0 <= fst r) reqs ->
  charged reqs (fst (take_run (ib_new interval burst0 t0) reqs))
    <= burst0 + (end_time t0 reqs - t0) / interval.
Proof.
  intros Hi Hb Ht Htime Hpos.
  assert (ib_wf t0 t0 0 (ib_new interval burst0 t0)) as Hwf.
  { unfold is_u64, is_u32 in *. split; simpl; auto; try lia; rewrite ?Z.sub_diag;
      [by rewrite Z.mod_0_l by lia|rewrite Z.div_0_l by lia; lia]. }
  pose proof (take_run_bound t0 t0 0 _ reqs Hwf Htime Hpos) as H.
  destruct (take_run _ reqs) as [oks b]. simpl. destruct H as ([] & Hie & Hbe).
  simpl in *. rewrite Hie, Hbe in *.
  assert ((last_refill b - t0) / interval <= (end_time t0 reqs - t0) / interval)
    by (apply Z.div_le_mono; lia). lia.
Qed.

Lemma interval_budget_bound_witness :
  charged [(1, 100); (1, 100); (2, 25000)]
    (fst (take_run (ib_new 10000 2 100) [(1, 100); (1, 100); (2, 25000)])) <= 2 + (25000 - 100) / 10000.
Proof.
  apply (interval_budget_bound 10000 2 100 [(1, 100); (1, 100); (2, 25000)]);
    [lia| | | |repeat constructor; simpl; lia];
    simpl; unfold is_u32, is_u64, u32_max, u64_max; lia.
Defined.

(** a charge is all or nothing: when a multi-operation charge is refused, a
    following (satisfiable) charge at the same instant behaves as if it had never
    been made. *)
Theorem refused_charge_is_free (b : IntervalBudget) (count count' : Z) (now : Instant) (b' : IntervalBudget) :
  0 <= interval_ms b -> 0 < count' <= burst b -> is_u64 (last_refill b) -> last_refill b <= now <= u64_max ->
  try_take_many b count now = (false, b') ->
  try_take_many b' count' now = try_take_many b count' now.
Proof.
  intros Hi Hc Hl Hn. unfold try_take_many at 1.
  destruct (count =? 0); [done|]. destruct (_ || _) eqn:Eg; [by intros [= <-]|].
  destruct (Z.ltb_spec (available (ib_refill b now)) count); intros [= <-].
  destruct (ib_refill_params b now) as [Ei Eb].
  unfold try_take_many. rewrite Ei, Eb.
  assert (ib_refill (ib_refill b now) now = ib_refill b now) as ->.
  2: { bool_to_prop. rewrite (proj2 (Z.eqb_neq count' 0)) by lia.
       rewrite (proj2 (Z.eqb_neq (interval_ms b) 0)), (proj2 (Z.eqb_neq (burst b) 0)),
         (proj2 (Z.ltb_ge (burst b) count')) by lia. cbn [orb]. by rewrite Ei, Eb. }
  bool_to_prop. assert (0 < interval_ms b) by lia.
  unfold ib_refill at 2 3, saturating_since, sat_sub. rewrite Z.max_r by lia.
  set (refills := (now - last_refill b) / interval_ms b).
  destruct (Z.eqb_spec refills 0) as [E|E].
  - unfold ib_refill, saturating_since, sat_sub. rewrite Z.max_r by lia. fold refills. by rewrite E.
  - unfold ib_refill, saturating_since, sat_sub; cbn [interval_ms last_refill].
    pose proof (Z.mul_div_le (now - last_refill b) (interval_ms b) ltac:(lia)).
    pose proof (Z.mul_succ_div_gt (now - last_refill b) (interval_ms b) ltac:(lia)).
    fold refills in H0, H1. assert (0 <= refills) by (apply Z.div_pos; lia).
    unfold sat_mul, sat_add, is_u64, u64_max in *.
    replace (Z.min 18446744073709551615 (last_refill b + Z.min 18446744073709551615 (refills * interval_ms b)))
      with (last_refill b + refills * interval_ms b) by lia.
    rewrite Z.max_r by lia. rewrite (Z.div_small (now - _)) by lia. done.
Qed.

Lemma refused_charge_is_free_witness :
  try_take_many (mkIntervalBudget 1 2 10000 0) 1 5000
  = try_take_many (snd (try_take_many (mkIntervalBudget 1 2 10000 0) 2 5000)) 1 5000.
Proof.
  symmetry. apply (refused_charge_is_free (mkIntervalBudget 1 2 10000 0) 2 1 5000);
    unfold is_u64, u64_max; simpl; try lia. vm_compute. reflexivity.
Defined.
