(* ===== verification/Firewall.v ===== *)
(** * Stateful ingress firewall ([microtun-core/src/firewall.rs])

    Flow parsing down to TCP, UDP and ICMP, and the bounded flow table with its
    per-peer accounting, in the allocation-free backend. *)

From S2P Require Import Prelude Clock Ip.
Local Open Scope Z_scope.

Definition IPPROTO_ICMP : Z := 1.
Definition IPPROTO_TCP : Z := 6.
Definition IPPROTO_UDP : Z := 17.
Definition IPPROTO_ICMPV6 : Z := 58.

Definition TCP_FIN : Z := 1.
Definition TCP_SYN : Z := 2.
Definition TCP_RST : Z := 4.
Definition TCP_ACK : Z := 16.

Definition ICMP4_ECHO_REPLY : Z := 0.
Definition ICMP4_DEST_UNREACHABLE : Z := 3.
Definition ICMP4_ECHO_REQUEST : Z := 8.
Definition ICMP4_TIME_EXCEEDED : Z := 11.
Definition ICMP4_PARAMETER_PROBLEM : Z := 12.

Definition ICMP6_DEST_UNREACHABLE : Z := 1.
Definition ICMP6_PACKET_TOO_BIG : Z := 2.
Definition ICMP6_TIME_EXCEEDED : Z := 3.
Definition ICMP6_PARAMETER_PROBLEM : Z := 4.
Definition ICMP6_ECHO_REQUEST : Z := 128.
Definition ICMP6_ECHO_REPLY : Z := 129.

Definition ICMP_HEADER_LEN : nat := 8.

Inductive InboundPolicy := AllowAll | EstablishedOnly.

#[export] Instance InboundPolicy_eq_dec : EqDecision InboundPolicy.
Proof. solve_decision. Defined.

(** ** Flows *)

Record FlowKey := mkFlowKey {
  fk_src : IpAddr;
  fk_dst : IpAddr;
  fk_protocol : Z;
  fk_src_port : Z;
  fk_dst_port : Z;
}.

#[export] Instance FlowKey_eq_dec : EqDecision FlowKey.
Proof. solve_decision. Defined.

Definition is_reverse_of (self other : FlowKey) : bool :=
  (fk_protocol self =? fk_protocol other) &&
  bool_decide (fk_src self = fk_dst other) &&
  bool_decide (fk_dst self = fk_src other) &&
  (fk_src_port self =? fk_dst_port other) &&
  (fk_dst_port self =? fk_src_port other).

Inductive Kind :=
| Tcp (flags : Z)
| Udp
| EchoRequest
| EchoReply
| Error.

Record Parsed := mkParsed { pkey : FlowKey; pkind : Kind }.

Definition has_flag (flags bit : Z) : bool := negb (Z.land flags bit =? 0).

Definition opens_new_flow (p : Parsed) : bool :=
  match pkind p with
  | Udp | EchoRequest => true
  | Tcp flags => has_flag flags TCP_SYN && negb (has_flag flags TCP_ACK)
  | EchoReply | Error => false
  end.

Definition is_closing (p : Parsed) : bool :=
  match pkind p with
  | Tcp flags => has_flag flags (Z.lor TCP_FIN TCP_RST)
  | _ => false
  end.

(** ** Parsing an inner packet down to its flow *)

Definition plausible_tcp_flags (f : Z) : bool :=
  negb (Z.land f (Z.lor TCP_SYN TCP_FIN) =? Z.lor TCP_SYN TCP_FIN) &&
  negb (Z.land f (Z.lor TCP_SYN TCP_RST) =? Z.lor TCP_SYN TCP_RST) &&
  negb (Z.land f (Z.lor TCP_FIN TCP_RST) =? Z.lor TCP_FIN TCP_RST) &&
  negb (Z.land f (Z.lor (Z.lor TCP_SYN TCP_FIN) (Z.lor TCP_RST TCP_ACK)) =? 0).

(** [u16::from_be_bytes(\[*b.get(i)?, *b.get(i + 1)?\])] *)
Definition get_u16 (b : list Z) (i : nat) : option Z :=
  hi ← b !! i; lo ← b !! S i; Some (u16_be hi lo).

Definition parse_transport (packet : list Z) (total_len offset : nat)
    (src dst : IpAddr) (protocol : Z) : option Parsed :=
  minimum ← (if protocol =? IPPROTO_TCP then Some 20%nat
             else if protocol =? IPPROTO_UDP then Some 8%nat else None);
  if (total_len <? offset + minimum)%nat then None else
  transport ← slice packet offset minimum;
  src_port ← get_u16 transport 0;
  dst_port ← get_u16 transport 2;
  kind ← (if protocol =? IPPROTO_TCP then
            flags ← transport !! 13%nat;
            if plausible_tcp_flags flags then Some (Tcp flags) else None
          else Some Udp);
  Some (mkParsed (mkFlowKey src dst protocol src_port dst_port) kind).

(** Flow key of the packet quoted inside an ICMP error; the quoted length
    fields are not trusted. *)
Definition parse_quoted (quoted : list Z) (version : Z) : option FlowKey :=
  first ← quoted !! 0%nat;
  if negb (Z.shiftr first 4 =? version) then None else
  '(src, dst, protocol, offset) ←
    (if version =? 4 then
       header ← slice quoted 0 20;
       h0 ← header !! 0%nat;
       let ihl := (Z.to_nat (Z.land h0 15) * 4)%nat in
       if (ihl <? 20)%nat then None else
       frag ← get_u16 header 6;
       if negb (Z.land frag 8191 =? 0) then None else
       s ← slice header 12 4;
       d ← slice header 16 4;
       protocol ← header !! 9%nat;
       Some (V4 (be_value s), V4 (be_value d), protocol, ihl)
     else
       header ← slice quoted 0 40;
       s ← slice header 8 16;
       d ← slice header 24 16;
       protocol ← header !! 6%nat;
       Some (V6 (be_value s), V6 (be_value d), protocol, 40%nat));
  '(src_port, dst_port) ←
    (if (protocol =? IPPROTO_TCP) || (protocol =? IPPROTO_UDP) then
       a ← slice quoted offset 4;
       sp ← get_u16 a 0;
       dp ← get_u16 a 2;
       Some (sp, dp)
     else if (protocol =? IPPROTO_ICMP) || (protocol =? IPPROTO_ICMPV6) then
       a ← slice quoted offset 6;
       message_type ← a !! 0%nat;
       let is_echo :=
         ((protocol =? IPPROTO_ICMP) && (message_type =? ICMP4_ECHO_REQUEST)) ||
         ((protocol =? IPPROTO_ICMPV6) && (message_type =? ICMP6_ECHO_REQUEST)) in
       if negb is_echo then None else
       id ← get_u16 a 4;
       Some (id, id)
     else None);
  Some (mkFlowKey src dst protocol src_port dst_port).

Definition is_icmp_error (version icmp_type : Z) : bool :=
  if version =? 4 then
    (icmp_type =? ICMP4_DEST_UNREACHABLE) || (icmp_type =? ICMP4_TIME_EXCEEDED) ||
    (icmp_type =? ICMP4_PARAMETER_PROBLEM)
  else
    (icmp_type =? ICMP6_DEST_UNREACHABLE) || (icmp_type =? ICMP6_PACKET_TOO_BIG) ||
    (icmp_type =? ICMP6_TIME_EXCEEDED) || (icmp_type =? ICMP6_PARAMETER_PROBLEM).

Definition parse_icmp (packet : list Z) (total_len offset : nat)
    (src dst : IpAddr) (version : Z) : option Parsed :=
  if (total_len <? offset + ICMP_HEADER_LEN)%nat then None else
  let protocol := if version =? 4 then IPPROTO_ICMP else IPPROTO_ICMPV6 in
  icmp ← slice packet offset ICMP_HEADER_LEN;
  icmp_type ← icmp !! 0%nat;
  let echo_request := if version =? 4 then ICMP4_ECHO_REQUEST else ICMP6_ECHO_REQUEST in
  let echo_reply := if version =? 4 then ICMP4_ECHO_REPLY else ICMP6_ECHO_REPLY in
  if (icmp_type =? echo_request) || (icmp_type =? echo_reply) then
    id ← get_u16 icmp 4;
    Some (mkParsed (mkFlowKey src dst protocol id id)
            (if icmp_type =? echo_request then EchoRequest else EchoReply))
  else if negb (is_icmp_error version icmp_type) then None
  else
    quoted ← slice packet (offset + ICMP_HEADER_LEN) (total_len - (offset + ICMP_HEADER_LEN));
    key ← parse_quoted quoted version;
    if bool_decide (fk_src key = dst) then Some (mkParsed key Error) else None.

Definition parse_flow (packet : list Z) : option Parsed :=
  header ← parse_header packet;
  if is_v4_fragment packet then None else
  let s := src header in
  let d := dst header in
  let p := protocol header in
  if (p =? IPPROTO_TCP) || (p =? IPPROTO_UDP) then
    parse_transport packet (total_len header) (header_len header) s d p
  else if (p =? IPPROTO_ICMP) && is_ipv4 s then
    parse_icmp packet (total_len header) (header_len header) s d 4
  else if (p =? IPPROTO_ICMPV6) && is_ipv6 s then
    parse_icmp packet (total_len header) (header_len header) s d 6
  else None.

(** ** The flow table *)

Record Entry := mkEntry {
  peer : PeerIdx;
  flow : FlowKey;
  expires : Instant;
  last_seen : Instant;
  closing : bool;
}.

Record Timeouts := mkTimeouts {
  udp_timeout : Duration;
  icmp_timeout : Duration;
  tcp_timeout : Duration;
  tcp_closing_timeout : Duration;
}.

Definition effective_timeout (ts : Timeouts) (e : Entry) : Duration :=
  let p := fk_protocol (flow e) in
  if p =? IPPROTO_UDP then udp_timeout ts
  else if (p =? IPPROTO_ICMP) || (p =? IPPROTO_ICMPV6) then icmp_timeout ts
  else if closing e then tcp_closing_timeout ts
  else tcp_timeout ts.

Record Firewall := mkFirewall {
  timeouts : Timeouts;
  max_entries : nat;
  max_entries_per_peer : nat;
  entries : list Entry;
  peer_counts : list nat;      (* [u16; MAX_PEERS], saturating *)
}.

Section Table.
Context (MAX_FLOWS MAX_PEERS : nat).

Definition with_limits_and_timeouts (max_entries max_entries_per_peer : nat) (ts : Timeouts)
  : Firewall :=
  mkFirewall ts (Nat.min max_entries MAX_FLOWS)
    (Nat.min (Nat.min max_entries_per_peer max_entries) MAX_FLOWS) []
    (replicate MAX_PEERS 0%nat).

Definition set_entries (fw : Firewall) (es : list Entry) : Firewall :=
  mkFirewall (timeouts fw) (max_entries fw) (max_entries_per_peer fw) es (peer_counts fw).
Definition set_counts (fw : Firewall) (cs : list nat) : Firewall :=
  mkFirewall (timeouts fw) (max_entries fw) (max_entries_per_peer fw) (entries fw) cs.

Definition peer_position (p : PeerIdx) : option nat :=
  if (p <? MAX_PEERS)%nat then Some p else None.

Definition peer_count (fw : Firewall) (p : PeerIdx) : nat :=
  default 0%nat (peer_position p ≫= fun position => peer_counts fw !! position).

(** [saturating_add(1)] on a [u16]. *)
Definition u16_succ (n : nat) : nat := Nat.min (Z.to_nat u16_max) (S n).

Definition increment_counts (cs : list nat) (p : PeerIdx) : list nat :=
  match peer_position p with
  | None => cs
  | Some position => alter u16_succ position cs
  end.
Definition increment_peer (fw : Firewall) (p : PeerIdx) : Firewall :=
  set_counts fw (increment_counts (peer_counts fw) p).

Definition decrement_peer (fw : Firewall) (p : PeerIdx) : Firewall :=
  match peer_position p with
  | None => fw
  | Some position => set_counts fw (alter Nat.pred position (peer_counts fw))
  end.

Definition rebuild_peer_counts (fw : Firewall) : Firewall :=
  set_counts fw
    (fold_left (fun cs e => increment_counts cs (peer e)) (entries fw)
       (replicate (length (peer_counts fw)) 0%nat)).

Definition collect_expired (fw : Firewall) (now : Instant) : Firewall :=
  let previous_len := length (entries fw) in
  let fw := set_entries fw (retain (fun e => now <? expires e) (entries fw)) in
  if (length (entries fw) =? previous_len)%nat then fw else rebuild_peer_counts fw.

(** Key [(closing ? 0 : 1, last_seen)], ordered lexicographically. *)
Definition victim_lt (a b : Entry) : bool :=
  let ka := if closing a then 0 else 1 in
  let kb := if closing b then 0 else 1 in
  (ka <? kb) || ((ka =? kb) && (last_seen a <? last_seen b)).

Definition victim_owned_by (fw : Firewall) (p : PeerIdx) : option nat :=
  fst <$> min_by_key (fun _ e => (peer e =? p)%nat) victim_lt (entries fw).

(** The loop over [peer_counts]: the first owner of the largest count above
    [largest_count]. *)
Fixpoint largest_owner (position largest_count : nat) (owner : option nat) (cs : list nat)
  : option nat :=
  match cs with
  | [] => owner
  | count :: cs =>
      if (largest_count <? count)%nat
      then largest_owner (S position) count (Some position) cs
      else largest_owner (S position) largest_count owner cs
  end.

Definition fair_victim (fw : Firewall) (requester : PeerIdx) : option nat :=
  let requester_count := peer_count fw requester in
  if (max_entries_per_peer fw <=? requester_count)%nat then victim_owned_by fw requester
  else
    match largest_owner 0 requester_count None (peer_counts fw) ≫= victim_owned_by fw with
    | Some v => Some v
    | None => victim_owned_by fw requester
    end.

Definition replace (fw : Firewall) (position : nat) (e : Entry) : Firewall :=
  match entries fw !! position with
  | None => fw
  | Some previous =>
      let fw :=
        if (peer previous =? peer e)%nat then fw
        else increment_peer (decrement_peer fw (peer previous)) (peer e) in
      set_entries fw (<[position := e]> (entries fw))
  end.

(** [heapless::Vec::push] refuses when the storage is full. *)
Definition push (fw : Firewall) (e : Entry) : bool * Firewall :=
  if (max_entries fw <=? length (entries fw))%nat then (false, fw)
  else if (length (entries fw) <? MAX_FLOWS)%nat
  then (true, increment_peer (set_entries fw (entries fw ++ [e])) (peer e))
  else (false, fw).

(** The refresh shared by both directions. *)
Definition refresh (fw : Firewall) (e : Entry) (closes : bool) (now : Instant) : Entry :=
  let e := mkEntry (peer e) (flow e) (expires e) now (closing e || closes) in
  mkEntry (peer e) (flow e) (instant_add now (effective_timeout (timeouts fw) e))
    (last_seen e) (closing e).

Definition open_entry (fw : Firewall) (p : PeerIdx) (k : FlowKey) (now : Instant) : Entry :=
  let e := mkEntry p k now now false in
  mkEntry p k (instant_add now (effective_timeout (timeouts fw) e)) now false.

(** Admission of a new flow once expired entries are reclaimed. *)
Definition admit_flow (fw : Firewall) (p : PeerIdx) (k : FlowKey) (now : Instant) : Firewall :=
  let e := open_entry fw p k now in
  let place (fw : Firewall) :=
    match fair_victim fw p with
    | Some victim => replace fw victim e
    | None => fw
    end in
  if (peer_count fw p <? max_entries_per_peer fw)%nat then
    let '(ok, fw) := push fw e in if ok then fw else place fw
  else place fw.

Definition observe_outbound (fw : Firewall) (p : PeerIdx) (packet : list Z) (now : Instant)
  : Firewall :=
  match peer_position p, parse_flow packet with
  | Some _, Some parsed =>
      match pkind parsed with
      | Error => fw
      | _ =>
          match position (fun e => (peer e =? p)%nat && (now <? expires e) &&
                                   bool_decide (flow e = pkey parsed)) (entries fw) with
          | Some pos =>
              match entries fw !! pos with
              | None => fw
              | Some e => set_entries fw (<[pos := refresh fw e (is_closing parsed) now]> (entries fw))
              end
          | None =>
              if negb (opens_new_flow parsed) then fw
              else admit_flow (collect_expired fw now) p (pkey parsed) now
          end
      end
  | _, _ => fw
  end.

Definition allows_inbound (fw : Firewall) (p : PeerIdx) (packet : list Z) (now : Instant)
  : bool * Firewall :=
  match parse_flow packet with
  | None => (false, fw)
  | Some parsed =>
      let established :=
        match position (fun e => (peer e =? p)%nat && (now <? expires e) &&
                                 is_reverse_of (pkey parsed) (flow e)) (entries fw) with
        | None => (false, fw)
        | Some pos =>
            match entries fw !! pos with
            | None => (false, fw)
            | Some e =>
                (true, set_entries fw (<[pos := refresh fw e (is_closing parsed) now]> (entries fw)))
            end
        end in
      match pkind parsed with
      | Error =>
          (existsb (fun e => (peer e =? p)%nat && (now <? expires e) &&
                             bool_decide (flow e = pkey parsed)) (entries fw), fw)
      | Tcp flags =>
          if has_flag flags TCP_SYN && negb (has_flag flags TCP_ACK) then (false, fw)
          else established
      | EchoRequest => (false, fw)
      | Udp | EchoReply => established
      end
  end.

Definition fw_remove_peer (fw : Firewall) (p : PeerIdx) : Firewall :=
  let fw := set_entries fw (retain (fun e => negb (peer e =? p)%nat) (entries fw)) in
  match peer_position p with
  | Some position => set_counts fw (<[position := 0%nat]> (peer_counts fw))
  | None => fw
  end.

(** ** Traces of the firewall as the engine drives it *)

Inductive FwEvent :=
| Out (p : PeerIdx) (packet : list Z) (now : Instant)
| In (p : PeerIdx) (packet : list Z) (now : Instant)
| Removed (p : PeerIdx).

Definition fw_step (fw : Firewall) (ev : FwEvent) : Firewall :=
  match ev with
  | Out p packet now => observe_outbound fw p packet now
  | In p packet now => snd (allows_inbound fw p packet now)
  | Removed p => fw_remove_peer fw p
  end.

(** The state after a trace, most recent event first. *)
Fixpoint fw_after (fw : Firewall) (trace : list FwEvent) : Firewall :=
  match trace with [] => fw | ev :: trace => fw_step (fw_after fw trace) ev end.

(** [opened p k trace]: since [p] was last removed, the device itself sent [p]
    a packet of flow [k] that may open a flow. *)
Inductive opened (p : PeerIdx) (k : FlowKey) : list FwEvent -> Prop :=
| opened_now packet now parsed trace :
    parse_flow packet = Some parsed -> opens_new_flow parsed = true -> pkey parsed = k ->
    opened p k (Out p packet now :: trace)
| opened_before ev trace :
    ev <> Removed p -> opened p k trace -> opened p k (ev :: trace).

(** ** The invariant *)

Definition owned (p : PeerIdx) (es : list Entry) : list Entry :=
  retain (fun e => (peer e =? p)%nat) es.
#[local] Arguments owned : simpl never.

Record fw_inv (fw : Firewall) : Prop := {
  fwi_ceiling : (max_entries fw <= MAX_FLOWS)%nat;
  fwi_quota : (max_entries_per_peer fw <= max_entries fw)%nat;
  fwi_len : (length (entries fw) <= max_entries fw)%nat;
  fwi_peers : Forall (fun e => (peer e < MAX_PEERS)%nat) (entries fw);
  fwi_counts : peer_counts fw = (fun p => length (owned p (entries fw))) <$> seq 0 MAX_PEERS;
  fwi_per_peer : forall p, (length (owned p (entries fw)) <= max_entries_per_peer fw)%nat;
  fwi_unique : NoDup ((fun e => (peer e, flow e)) <$> entries fw);
  fwi_expiry : Forall (fun e => expires e =
    instant_add (last_seen e) (effective_timeout (timeouts fw) e)) (entries fw);
}.

(** No entry has the key of [e]; [e] expires as its timeout class says. *)
Definition fresh (fw : Firewall) (e : Entry) : Prop :=
  Forall (fun e' => (peer e', flow e') <> (peer e, flow e)) (entries fw).
Definition timed (fw : Firewall) (e : Entry) : Prop :=
  expires e = instant_add (last_seen e) (effective_timeout (timeouts fw) e).

(** The tally the code keeps in [peer_counts]. *)
Definition tally (es : list Entry) : list nat :=
  (fun p => length (owned p es)) <$> seq 0 MAX_PEERS.

(** The entries of [p] still alive at [now]. *)
Definition live (p : PeerIdx) (now : Instant) (fw : Firewall) : list Entry :=
  retain (fun e => now <? expires e) (owned p (entries fw)).

(** ** Lemmas: entries owned by a peer *)

Lemma is_reverse_of_spec a b :
  is_reverse_of a b = true <->
  b = mkFlowKey (fk_dst a) (fk_src a) (fk_protocol a) (fk_dst_port a) (fk_src_port a).
Proof.
  destruct a, b. unfold is_reverse_of. cbn.
  rewrite !andb_true_iff, !Z.eqb_eq, !bool_decide_eq_true. naive_solver.
Qed.

Lemma owned_app p es es' : owned p (es ++ es') = owned p es ++ owned p es'.
Proof.
  unfold owned. induction es as [|e es IH]; simpl; [done|]. destruct (_ =? _)%nat; simpl; by f_equal.
Qed.

Lemma owned_one p e : length (owned p [e]) = if (peer e =? p)%nat then 1%nat else 0%nat.
Proof. unfold owned. simpl. by destruct (_ =? _)%nat. Qed.

Lemma owned_insert es i e' e p :
  es !! i = Some e' ->
  (length (owned p (<[i := e]> es)) + (if (peer e' =? p)%nat then 1 else 0) =
   length (owned p es) + (if (peer e =? p)%nat then 1 else 0))%nat.
Proof.
  intros H. rewrite <- (take_drop_middle _ _ _ H) at 2.
  rewrite insert_take_drop by (by eapply lookup_lt_Some).
  assert (E : forall a l, length (owned p (a :: l)) =
    ((if (peer a =? p)%nat then 1 else 0) + length (owned p l))%nat).
  { intros a l. unfold owned. simpl. by destruct (_ =? _)%nat. }
  rewrite !owned_app, !length_app, !E. lia.
Qed.

Lemma elem_of_owned p e es : e ∈ owned p es <-> peer e = p /\ e ∈ es.
Proof. unfold owned. by rewrite elem_of_retain, Nat.eqb_eq. Qed.

Lemma owned_none p es : Forall (fun e => peer e <> p) es -> owned p es = [].
Proof.
  unfold owned. induction 1 as [|e es He _ IH]; simpl; [done|].
  destruct (Nat.eqb_spec (peer e) p); [done|]. apply IH.
Qed.

Lemma owned_exists p es : owned p es <> [] -> exists e, e ∈ es /\ peer e = p.
Proof.
  intros H. destruct (owned p es) as [|e l] eqn:E; [done|]. exists e.
  assert (e ∈ owned p es) as [? ?]%elem_of_owned by (rewrite E; left). done.
Qed.

Lemma tally_lookup es p : (p < MAX_PEERS)%nat -> tally es !! p = Some (length (owned p es)).
Proof. intros H. unfold tally. by rewrite list_lookup_fmap, lookup_seq_lt. Qed.

Lemma tally_alter h es es' p :
  (p < MAX_PEERS)%nat ->
  (forall q, q <> p -> length (owned q es') = length (owned q es)) ->
  length (owned p es') = h (length (owned p es)) ->
  alter h p (tally es) = tally es'.
Proof.
  intros Hp Hq Hh. apply list_eq. intros q. destruct (decide (q = p)) as [->|Hne].
  - rewrite list_lookup_alter_eq, !tally_lookup by lia. cbn. by rewrite Hh.
  - rewrite list_lookup_alter_ne by done. unfold tally. rewrite !list_lookup_fmap.
    destruct (decide (q < MAX_PEERS)%nat).
    + rewrite lookup_seq_lt by lia. cbn. by rewrite Hq.
    + by rewrite lookup_seq_ge by lia.
Qed.

Lemma tally_ext es es' :
  (forall q, length (owned q es') = length (owned q es)) -> tally es' = tally es.
Proof. intros H. unfold tally. apply list_fmap_ext. intros ? ? _. apply H. Qed.

Lemma tally_nil : tally [] = replicate MAX_PEERS 0%nat.
Proof.
  apply list_eq. intros q. unfold tally. rewrite list_lookup_fmap.
  destruct (decide (q < MAX_PEERS)%nat).
  - by rewrite lookup_seq_lt, lookup_replicate_2 by lia.
  - rewrite lookup_seq_ge by lia. symmetry. apply lookup_replicate_None. lia.
Qed.

Lemma length_owned_le p es : (length (owned p es) <= length es)%nat.
Proof. apply length_retain. Qed.

Hypothesis MAX_FLOWS_u16 : Z.of_nat MAX_FLOWS <= u16_max.

Lemma increment_tally es e :
  (peer e < MAX_PEERS)%nat -> (length es < MAX_FLOWS)%nat ->
  increment_counts (tally es) (peer e) = tally (es ++ [e]).
Proof.
  intros Hp Hl. unfold increment_counts, peer_position.
  destruct (Nat.ltb_spec (peer e) MAX_PEERS); [|lia].
  apply tally_alter; [done| |].
  - intros q Hq. rewrite owned_app, length_app, owned_one.
    destruct (Nat.eqb_spec (peer e) q); [congruence|lia].
  - rewrite owned_app, length_app, owned_one, Nat.eqb_refl. unfold u16_succ, u16_max.
    pose proof (length_owned_le (peer e) es). unfold u16_max in *. lia.
Qed.

Lemma fold_tally es acc :
  Forall (fun e => (peer e < MAX_PEERS)%nat) es -> (length acc + length es <= MAX_FLOWS)%nat ->
  fold_left (fun cs e => increment_counts cs (peer e)) es (tally acc) = tally (acc ++ es).
Proof.
  revert acc. induction es as [|e es IH]; intros acc Hf Hl; cbn [fold_left length] in *.
  - by rewrite app_nil_r.
  - apply Forall_cons in Hf as [He Hf]. rewrite increment_tally by (done || lia).
    rewrite IH, <- app_assoc by (done || rewrite length_app; simpl; lia). done.
Qed.

Lemma peer_count_owned fw p :
  fw_inv fw -> (p < MAX_PEERS)%nat -> peer_count fw p = length (owned p (entries fw)).
Proof.
  intros H Hp. unfold peer_count, peer_position. destruct (Nat.ltb_spec p MAX_PEERS); [|lia].
  cbn. rewrite (fwi_counts _ H). fold (tally (entries fw)). by rewrite tally_lookup.
Qed.

(** ** Lemmas: reclaiming, choosing a victim, replacing *)

Lemma set_entries_tally fw es : peer_counts fw = tally es -> peer_counts (set_entries fw es) = tally es.
Proof. done. Qed.

(** The parts of the invariant that concern the entries alone. *)
Lemma fw_inv_retain fw q :
  fw_inv fw -> fw_inv (set_counts (set_entries fw (retain q (entries fw)))
                         (tally (retain q (entries fw)))).
Proof.
  intros [H1 H2 H3 H4 H5 H6 H7 H8]. split; cbn; try done.
  - etrans; [apply length_retain|done].
  - by apply Forall_retain.
  - intros p. etrans; [|apply (H6 p)]. unfold owned. clear.
    induction (entries fw) as [|e es IH]; simpl; [lia|].
    destruct (q e), (peer e =? p)%nat eqn:E; simpl; rewrite ?E; simpl; lia.
  - by apply NoDup_fmap_retain.
  - by apply Forall_retain.
Qed.

Lemma collect_expired_eq fw now :
  fw_inv fw ->
  collect_expired fw now =
    set_counts (set_entries fw (retain (fun e => now <? expires e) (entries fw)))
      (tally (retain (fun e => now <? expires e) (entries fw))).
Proof.
  intros H. unfold collect_expired. cbn [entries set_entries].
  destruct (Nat.eqb_spec (length (retain (fun e => now <? expires e) (entries fw)))
              (length (entries fw))) as [E|_].
  - assert (Hr : retain (fun e => now <? expires e) (entries fw) = entries fw).
    { revert E. clear. induction (entries fw) as [|e es IH]; simpl; [done|].
      pose proof (length_retain (fun e => now <? expires e) es).
      destruct (now <? expires e); simpl; intros; [|lia]. f_equal. apply IH. lia. }
    rewrite Hr. pose proof (fwi_counts _ H) as Hc. fold (tally (entries fw)) in Hc.
    destruct fw. unfold set_counts, set_entries. cbn in *. congruence.
  - unfold rebuild_peer_counts. cbn [entries peer_counts set_entries set_counts].
    f_equal. pose proof (fwi_counts _ H) as Hc. fold (tally (entries fw)) in Hc. rewrite Hc.
    unfold tally at 1. rewrite length_fmap, length_seq, <- tally_nil.
    rewrite (fold_tally _ []); [done| |].
    + apply Forall_retain, (fwi_peers _ H).
    + pose proof (length_retain (fun e => now <? expires e) (entries fw)).
      pose proof (fwi_len _ H). pose proof (fwi_ceiling _ H). cbn [length]. lia.
Qed.

Lemma collect_expired_inv fw now : fw_inv fw -> fw_inv (collect_expired fw now).
Proof. intros H. rewrite collect_expired_eq by done. by apply fw_inv_retain. Qed.

Lemma collect_expired_entries fw now :
  fw_inv fw -> entries (collect_expired fw now) = retain (fun e => now <? expires e) (entries fw).
Proof. intros H. by rewrite collect_expired_eq. Qed.

Lemma owned_live fw now p :
  fw_inv fw -> owned p (entries (collect_expired fw now)) = live p now fw.
Proof.
  intros H. rewrite collect_expired_entries by done. unfold owned, live, owned. clear.
  induction (entries fw) as [|e es IH]; simpl; [done|].
  destruct (now <? expires e) eqn:E1, (peer e =? p)%nat eqn:E2; simpl; rewrite ?E1, ?E2; congruence.
Qed.

Lemma victim_lt_total a b c :
  victim_lt a b = false -> victim_lt b c = false -> victim_lt a c = false.
Proof. unfold victim_lt. destruct (closing a), (closing b), (closing c); simpl; bool_lia. Qed.

Lemma victim_lt_asym a b : victim_lt a b = true -> victim_lt b a = false.
Proof. unfold victim_lt. destruct (closing a), (closing b); simpl; bool_lia. Qed.

Lemma victim_owned_by_spec fw p :
  match victim_owned_by fw p with
  | Some i => exists e, entries fw !! i = Some e /\ peer e = p /\
      Forall (fun e' => victim_lt e' e = false) (owned p (entries fw))
  | None => owned p (entries fw) = []
  end.
Proof.
  unfold victim_owned_by.
  pose proof (min_by_key_spec (fun _ e => (peer e =? p)%nat) victim_lt
    victim_lt_total victim_lt_asym (entries fw)) as H.
  destruct (min_by_key _ _ _) as [[i e]|]; cbn.
  - destruct H as (H1 & H2%Nat.eqb_eq & H3). exists e. repeat split; try done.
    apply Forall_forall. intros e' [Hp [j Hj]%list_elem_of_lookup]%elem_of_owned.
    apply (H3 j); [done|]. by apply Nat.eqb_eq.
  - apply owned_none, Forall_forall. intros e [j Hj]%list_elem_of_lookup.
    apply Nat.eqb_neq. by apply (H j).
Qed.

Lemma largest_owner_spec cs i lc :
  match largest_owner i lc None cs with
  | Some o => (i <= o)%nat /\ exists c, cs !! (o - i)%nat = Some c /\ (lc < c)%nat
  | None => Forall (fun c => (c <= lc)%nat) cs
  end.
Proof.
  assert (Hsome : forall cs i lc ow, exists o, largest_owner i lc (Some ow) cs = Some o /\
    (o = ow \/ (i <= o)%nat /\ exists c, cs !! (o - i)%nat = Some c /\ (lc < c)%nat)).
  { clear. induction cs as [|c cs IH]; intros i lc ow; cbn [largest_owner]; [by eauto|].
    destruct (Nat.ltb_spec lc c) as [Hlt|_].
    - destruct (IH (S i) c i) as (o & -> & [->|(Hi & c' & Hc & Hl)]); eexists; (split; [done|]); right.
      + split; [lia|]. exists c. by rewrite Nat.sub_diag.
      + split; [lia|]. exists c'. replace (o - i)%nat with (S (o - S i)) by lia. cbn. split; [done|lia].
    - destruct (IH (S i) lc ow) as (o & -> & [->|(Hi & c' & Hc & Hl)]); eexists; (split; [done|]); [by left|right].
      split; [lia|]. exists c'. replace (o - i)%nat with (S (o - S i)) by lia. done. }
  revert i. induction cs as [|c cs IH]; intros i; cbn [largest_owner]; [done|].
  destruct (Nat.ltb_spec lc c) as [Hlt|Hle].
  - destruct (Hsome cs (S i) c i) as (o & -> & [->|(Hi & c' & Hc & Hl)]).
    + split; [lia|]. exists c. by rewrite Nat.sub_diag.
    + split; [lia|]. exists c'. replace (o - i)%nat with (S (o - S i)) by lia. cbn. split; [done|lia].
  - specialize (IH (S i)). destruct (largest_owner _ _ _ _) as [o|].
    + destruct IH as (Hi & c' & Hc & Hl). split; [lia|]. exists c'.
      replace (o - i)%nat with (S (o - S i)) by lia. done.
    + by constructor.
Qed.

Lemma fair_victim_spec fw p :
  fw_inv fw -> (p < MAX_PEERS)%nat ->
  match fair_victim fw p with
  | Some v => exists e, entries fw !! v = Some e /\
      (peer e = p \/
       length (owned p (entries fw)) < length (owned (peer e) (entries fw)) /\
       length (owned p (entries fw)) < max_entries_per_peer fw)%nat
  | None => max_entries_per_peer fw = 0%nat \/ entries fw = []
  end.
Proof.
  intros H Hp. unfold fair_victim. rewrite (peer_count_owned fw p H Hp).
  pose proof (victim_owned_by_spec fw p) as Hown.
  destruct (Nat.leb_spec (max_entries_per_peer fw) (length (owned p (entries fw)))) as [Hq|Hq].
  - destruct (victim_owned_by fw p) as [v|].
    + destruct Hown as (e & He & Hpe & _). eauto.
    + rewrite Hown in Hq. simpl in Hq. left. lia.
  - rewrite (fwi_counts _ H). fold (tally (entries fw)).
    pose proof (largest_owner_spec (tally (entries fw)) 0 (length (owned p (entries fw)))) as Hlo.
    destruct (largest_owner _ _ _ _) as [o|]; cbn.
    + destruct Hlo as (_ & c & Hc & Hlt). rewrite Nat.sub_0_r in Hc.
      pose proof (lookup_lt_Some _ _ _ Hc) as Ho. unfold tally in Ho.
      rewrite length_fmap, length_seq in Ho.
      rewrite tally_lookup in Hc by done. injection Hc as <-.
      pose proof (victim_owned_by_spec fw o) as Hvo.
      destruct (victim_owned_by fw o) as [v|]; [|rewrite Hvo in Hlt; simpl in Hlt; lia].
      destruct Hvo as (e & He & <- & _). exists e. split; [done|]. right. lia.
    + destruct (victim_owned_by fw p) as [v|].
      * destruct Hown as (e & He & Hpe & _). eauto.
      * rewrite Hown in Hlo. right. destruct (entries fw) as [|e es] eqn:E; [done|exfalso].
        pose proof (fwi_peers _ H) as Hf. rewrite E in Hf. apply Forall_cons in Hf as [He _].
        rewrite Forall_lookup in Hlo. pose proof (Hlo _ _ (tally_lookup _ _ He)) as Hz.
        unfold owned in Hz. simpl in Hz. rewrite Nat.eqb_refl in Hz. simpl in Hz. lia.
Qed.

Lemma owned_delete es i e p :
  es !! i = Some e ->
  length (owned p es) = (length (owned p (delete i es)) + if (peer e =? p)%nat then 1 else 0)%nat.
Proof.
  intros H. rewrite <- (take_drop_middle _ _ _ H) at 1. rewrite delete_take_drop.
  rewrite !owned_app, !length_app. change (e :: drop (S i) es) with ([e] ++ drop (S i) es).
  rewrite owned_app, length_app, owned_one. lia.
Qed.

Lemma replace_counts fw v old e :
  fw_inv fw -> entries fw !! v = Some old -> (peer e < MAX_PEERS)%nat ->
  replace fw v e = set_counts (set_entries fw (<[v:=e]> (entries fw))) (tally (<[v:=e]> (entries fw))).
Proof.
  intros H Hv Hp. unfold replace. rewrite Hv.
  assert (Hold : (peer old < MAX_PEERS)%nat).
  { apply (Forall_lookup_1 _ _ _ _ (fwi_peers _ H) Hv). }
  pose proof (fwi_counts _ H) as Hc. fold (tally (entries fw)) in Hc.
  pose proof (fun p => owned_insert _ _ _ e p Hv) as Hi.
  destruct (Nat.eqb_spec (peer old) (peer e)) as [E|E].
  - rewrite (tally_ext (entries fw)).
    + unfold set_entries, set_counts. cbn. by rewrite Hc.
    + intros q. specialize (Hi q). rewrite E in Hi. lia.
  - unfold increment_peer, decrement_peer, peer_position, increment_counts, peer_position.
    destruct (Nat.ltb_spec (peer old) MAX_PEERS), (Nat.ltb_spec (peer e) MAX_PEERS); try lia.
    unfold set_entries, set_counts. cbn. f_equal. rewrite Hc.
    pose proof (fun p => owned_delete _ _ _ p Hv) as Hd.
    rewrite (tally_alter Nat.pred (entries fw) (delete v (entries fw))); [|done| |].
    + apply tally_alter; [done| |].
      * intros q Hq. specialize (Hi q). specialize (Hd q).
        destruct (Nat.eqb_spec (peer e) q); [congruence|]. lia.
      * specialize (Hi (peer e)). specialize (Hd (peer e)). rewrite Nat.eqb_refl in Hi.
        pose proof (length_owned_le (peer e) (delete v (entries fw))) as Hl.
        rewrite length_delete in Hl by eauto. pose proof (fwi_len _ H). pose proof (fwi_ceiling _ H).
        unfold u16_succ, u16_max in *. pose proof (lookup_lt_Some _ _ _ Hv). lia.
    + intros q Hq. rewrite (Hd q). destruct (Nat.eqb_spec (peer old) q); [congruence|lia].
    + rewrite (Hd (peer old)), Nat.eqb_refl. lia.
Qed.

Lemma NoDup_insert_fresh_entry es v (e : Entry) :
  NoDup ((fun e => (peer e, flow e)) <$> es) ->
  (forall j e', es !! j = Some e' -> j <> v -> (peer e', flow e') <> (peer e, flow e)) ->
  NoDup ((fun e => (peer e, flow e)) <$> <[v:=e]> es).
Proof.
  rewrite !NoDup_alt. intros Hnd Hf i j k. rewrite !list_lookup_fmap.
  intros (a & Ha & ->)%fmap_Some (b & Hb & Eb)%fmap_Some.
  destruct (decide (i = v)) as [->|Hi], (decide (j = v)) as [->|Hj]; [done| | |].
  - apply list_lookup_insert_Some in Ha as [(_ & -> & _)|[? _]]; [|done].
    rewrite list_lookup_insert_ne in Hb by done. by destruct (Hf _ _ Hb Hj).
  - apply list_lookup_insert_Some in Hb as [(_ & -> & _)|[? _]]; [|done].
    rewrite list_lookup_insert_ne in Ha by done. by destruct (Hf _ _ Ha Hi).
  - rewrite list_lookup_insert_ne in Ha, Hb by done.
    eapply (Hnd i j (peer a, flow a)); rewrite list_lookup_fmap, ?Ha, ?Hb; [done|]. cbn. by rewrite Eb.
Qed.

(** ** Lemmas: every operation preserves the invariant *)

Lemma insert_inv fw v old e :
  fw_inv fw -> entries fw !! v = Some old -> (peer e < MAX_PEERS)%nat -> timed fw e ->
  peer old = peer e \/ (length (owned (peer e) (entries fw)) < max_entries_per_peer fw)%nat ->
  (forall j e', entries fw !! j = Some e' -> j <> v -> (peer e', flow e') <> (peer e, flow e)) ->
  fw_inv (set_counts (set_entries fw (<[v:=e]> (entries fw))) (tally (<[v:=e]> (entries fw)))).
Proof.
  intros [H1 H2 H3 H4 H5 H6 H7 H8] Hv Hp Ht Hquota Hfresh. split; cbn; try done.
  - by rewrite length_insert.
  - by apply Forall_insert.
  - intros p. pose proof (owned_insert _ _ _ e p Hv) as Hi. specialize (H6 p).
    revert Hi. destruct (Nat.eqb_spec (peer e) p) as [<-|];
      [destruct (Nat.eqb_spec (peer old) (peer e))|destruct (peer old =? p)%nat]; lia.
  - by apply NoDup_insert_fresh_entry.
  - by apply Forall_insert.
Qed.

Lemma insert_same_owner_inv fw v old e :
  fw_inv fw -> entries fw !! v = Some old -> peer old = peer e -> flow old = flow e -> timed fw e ->
  fw_inv (set_entries fw (<[v:=e]> (entries fw))).
Proof.
  intros H Hv Hp Hf Ht.
  assert (E : set_entries fw (<[v:=e]> (entries fw)) =
    set_counts (set_entries fw (<[v:=e]> (entries fw))) (tally (<[v:=e]> (entries fw)))).
  { unfold set_entries, set_counts. cbn. rewrite (tally_ext (entries fw)), (fwi_counts _ H); [done|].
    intros q. pose proof (owned_insert _ _ _ e q Hv) as Hi. rewrite Hp in Hi. lia. }
  rewrite E. eapply insert_inv; eauto.
  - rewrite <- Hp. apply (Forall_lookup_1 _ _ _ _ (fwi_peers _ H) Hv).
  - intros j e' Hj Hne Heq. pose proof (fwi_unique _ H) as Hnd. apply Hne.
    eapply (NoDup_lookup _ j v (peer e, flow e)); [done| |]; rewrite list_lookup_fmap.
    + rewrite Hj. cbn. by rewrite Heq.
    + rewrite Hv. cbn. by rewrite Hp, Hf.
Qed.

Lemma push_spec fw e :
  fw_inv fw -> (peer e < MAX_PEERS)%nat -> fresh fw e -> timed fw e ->
  (length (owned (peer e) (entries fw)) < max_entries_per_peer fw)%nat ->
  let '(ok, fw') := push fw e in
  fw_inv fw' /\
  (if ok then entries fw' = entries fw ++ [e] else fw' = fw /\ (max_entries fw <= length (entries fw))%nat).
Proof.
  intros H Hp Hf Ht Hq. unfold push. pose proof (fwi_ceiling _ H) as Hc.
  destruct (Nat.leb_spec (max_entries fw) (length (entries fw))); [done|].
  destruct (Nat.ltb_spec (length (entries fw)) MAX_FLOWS); [|lia]. split; [|done].
  assert (E : increment_peer (set_entries fw (entries fw ++ [e])) (peer e) =
    set_counts (set_entries fw (entries fw ++ [e])) (tally (entries fw ++ [e]))).
  { unfold increment_peer, set_counts. cbn. f_equal. rewrite (fwi_counts _ H). by apply increment_tally. }
  rewrite E. destruct H as [I1 I2 I3 I4 I5 I6 I7 I8]. split; cbn; try done.
  - rewrite length_app. simpl. lia.
  - apply Forall_app. auto.
  - intros p. rewrite owned_app, length_app, owned_one. specialize (I6 p).
    destruct (Nat.eqb_spec (peer e) p) as [<-|]; lia.
  - rewrite fmap_app. apply NoDup_app. split; [done|]. split; [|apply NoDup_singleton].
    intros x Hx ->%list_elem_of_singleton. apply list_elem_of_fmap in Hx as (e' & E' & He').
    unfold fresh in Hf. rewrite Forall_forall in Hf. by destruct (Hf e' He').
  - apply Forall_app. auto.
Qed.

Lemma open_entry_timed fw p k now : timed fw (open_entry fw p k now).
Proof. done. Qed.

(** How opening a flow changes the table: it appends, or overwrites the
    requester's own state or that of a strictly larger owner. *)
Definition opens_into (fw fw' : Firewall) (e : Entry) : Prop :=
  entries fw' = entries fw ++ [e] \/
  (exists v old, entries fw !! v = Some old /\ entries fw' = <[v:=e]> (entries fw) /\
    (peer old = peer e \/
     length (owned (peer e) (entries fw)) < length (owned (peer old) (entries fw)) /\
     length (owned (peer e) (entries fw)) < max_entries_per_peer fw)%nat) \/
  (entries fw' = entries fw /\ max_entries_per_peer fw = 0%nat).

Lemma place_spec fw p e :
  fw_inv fw -> peer e = p -> (p < MAX_PEERS)%nat -> fresh fw e -> timed fw e ->
  (length (owned p (entries fw)) < max_entries_per_peer fw ->
   max_entries fw <= length (entries fw))%nat ->
  let fw' := match fair_victim fw p with Some victim => replace fw victim e | None => fw end in
  fw_inv fw' /\ opens_into fw fw' e.
Proof.
  intros H <- Hp Hf Ht Hfull. pose proof (fair_victim_spec fw (peer e) H Hp) as Hv.
  destruct (fair_victim fw (peer e)) as [v|]; cbn.
  - destruct Hv as (old & Hv & Hcase). rewrite (replace_counts fw v old e H Hv Hp). split.
    + apply (insert_inv fw v old e); [done..|naive_solver|].
      intros j e' Hj _. unfold fresh in Hf. rewrite Forall_lookup in Hf. eauto.
    + right. left. eauto 10.
  - split; [done|]. right. right. split; [done|]. destruct Hv as [|Hv]; [done|].
    rewrite Hv in Hfull. simpl in Hfull. pose proof (fwi_quota _ H). lia.
Qed.

Lemma admit_flow_spec fw p k now :
  fw_inv fw -> (p < MAX_PEERS)%nat -> fresh fw (open_entry fw p k now) ->
  fw_inv (admit_flow fw p k now) /\
  opens_into fw (admit_flow fw p k now) (open_entry fw p k now).
Proof.
  intros H Hp Hf. unfold admit_flow. rewrite (peer_count_owned fw p H Hp).
  destruct (Nat.ltb_spec (length (owned p (entries fw))) (max_entries_per_peer fw)) as [Hq|Hq].
  - pose proof (push_spec fw (open_entry fw p k now) H Hp Hf (open_entry_timed _ _ _ _) Hq) as Hpush.
    destruct (push _ _) as [[] fw'].
    + destruct Hpush as [? ?]. split; [done|by left].
    + destruct Hpush as [? [-> ?]]. apply (place_spec fw p); auto using open_entry_timed.
  - apply (place_spec fw p); auto using open_entry_timed. lia.
Qed.

(** ** Lemmas: the two packet hooks, by cases *)

(** A live entry of [p] whose flow satisfies [m], refreshed in place. *)
Definition refreshed (fw fw' : Firewall) (p : PeerIdx) (m : FlowKey -> bool) (closes : bool)
    (now : Instant) : Prop :=
  exists i e, entries fw !! i = Some e /\ peer e = p /\ now < expires e /\ m (flow e) = true /\
    fw' = set_entries fw (<[i := refresh fw e closes now]> (entries fw)).

Lemma observe_outbound_cases fw p packet now :
  fw_inv fw ->
  (observe_outbound fw p packet now = fw /\
   forall parsed, parse_flow packet = Some parsed -> (p < MAX_PEERS)%nat ->
     opens_new_flow parsed = false) \/
  exists parsed, parse_flow packet = Some parsed /\ (p < MAX_PEERS)%nat /\
    (refreshed fw (observe_outbound fw p packet now) p (fun k => bool_decide (k = pkey parsed))
       (is_closing parsed) now \/
     (opens_new_flow parsed = true /\
      fresh (collect_expired fw now) (open_entry (collect_expired fw now) p (pkey parsed) now) /\
      observe_outbound fw p packet now =
        admit_flow (collect_expired fw now) p (pkey parsed) now)).
Proof.
  intros H. unfold observe_outbound, peer_position.
  destruct (Nat.ltb_spec p MAX_PEERS); [|by left; split; [|lia]].
  destruct (parse_flow packet) as [parsed|]; [|by left].
  destruct (position _ _) as [i|] eqn:Hpos.
  - destruct (pkind parsed) eqn:Hk;
      try (left; split; [done|]; intros ? [= <-] _; unfold opens_new_flow; by rewrite Hk);
      right; exists parsed; (split; [done|]);
      (split; [done|]); left;
      apply position_Some in Hpos as (e & He & Hp & _); rewrite He; bool_to_prop; exists i, e;
      (repeat split; try done); by apply bool_decide_eq_true.
  - apply position_None in Hpos. destruct (pkind parsed) eqn:Hk;
      try (left; split; [done|]; intros ? [= <-] _; unfold opens_new_flow; by rewrite Hk);
      (destruct (opens_new_flow parsed) eqn:Ho; [right; exists parsed|left; naive_solver]);
      (split; [done|]); (split; [done|]); right; (split; [done|]); (split; [|done]);
      unfold fresh; rewrite collect_expired_entries by done; apply Forall_forall;
      intros e [Hl He]%elem_of_retain [= Ep Ef]; rewrite Forall_forall in Hpos;
      specialize (Hpos e He); cbn in *; subst p; rewrite Nat.eqb_refl, Hl in Hpos;
      by rewrite bool_decide_eq_true_2 in Hpos.
Qed.

Definition answers_flow (k : Kind) : bool :=
  match k with
  | Tcp flags => negb (has_flag flags TCP_SYN && negb (has_flag flags TCP_ACK))
  | Udp | EchoReply => true
  | EchoRequest | Error => false
  end.

Lemma allows_inbound_cases fw p packet now :
  match parse_flow packet with
  | None => allows_inbound fw p packet now = (false, fw)
  | Some parsed =>
      (pkind parsed = Error /\
        allows_inbound fw p packet now =
          (existsb (fun e => (peer e =? p)%nat && (now <? expires e) &&
                             bool_decide (flow e = pkey parsed)) (entries fw), fw)) \/
      (answers_flow (pkind parsed) = false /\ allows_inbound fw p packet now = (false, fw)) \/
      (answers_flow (pkind parsed) = true /\
        allows_inbound fw p packet now = (false, fw) /\
        Forall (fun e => (peer e =? p)%nat && (now <? expires e) &&
                         is_reverse_of (pkey parsed) (flow e) = false) (entries fw)) \/
      (answers_flow (pkind parsed) = true /\ exists fw',
        allows_inbound fw p packet now = (true, fw') /\
        refreshed fw fw' p (is_reverse_of (pkey parsed)) (is_closing parsed) now)
  end.
Proof.
  unfold allows_inbound. destruct (parse_flow packet) as [parsed|]; [|done].
  destruct (position _ _) as [i|] eqn:Hpos.
  - apply position_Some in Hpos as (e & He & Hp & _). rewrite He. bool_to_prop.
    assert (Hr : forall fw', fw' = set_entries fw (<[i := refresh fw e (is_closing parsed) now]> (entries fw)) ->
      refreshed fw fw' p (is_reverse_of (pkey parsed)) (is_closing parsed) now) by (intros ? ->; exists i, e; auto).
    destruct (pkind parsed); cbn [answers_flow]; try destruct (_ && _)%bool; cbn [negb];
      first [by left|by right; left|right; right; right; eauto].
  - apply position_None in Hpos.
    destruct (pkind parsed); cbn [answers_flow]; try destruct (_ && _)%bool; cbn [negb];
      first [by left|by right; left|by right; right; left].
Qed.

Lemma refreshed_inv fw fw' p m closes now :
  fw_inv fw -> refreshed fw fw' p m closes now -> fw_inv fw'.
Proof.
  intros H (i & e & He & Hp & _ & _ & ->). eapply insert_same_owner_inv; eauto; done.
Qed.

Lemma observe_outbound_inv fw p packet now : fw_inv fw -> fw_inv (observe_outbound fw p packet now).
Proof.
  intros H. destruct (observe_outbound_cases fw p packet now H) as [[-> _]|(parsed & _ & Hp & [Hr|(_ & Hf & ->)])].
  - done.
  - by eapply refreshed_inv.
  - apply admit_flow_spec; auto using collect_expired_inv.
Qed.

Lemma allows_inbound_inv fw p packet now : fw_inv fw -> fw_inv (snd (allows_inbound fw p packet now)).
Proof.
  intros H. pose proof (allows_inbound_cases fw p packet now) as Hc.
  destruct (parse_flow packet); [|by rewrite Hc].
  destruct Hc as [(_ & ->)|[(_ & ->)|[(_ & -> & _)|(_ & fw' & -> & Hr)]]]; try done.
  by eapply refreshed_inv.
Qed.

Lemma fw_remove_peer_entries fw p :
  entries (fw_remove_peer fw p) = retain (fun e => negb (peer e =? p)%nat) (entries fw).
Proof. unfold fw_remove_peer. by destruct (peer_position p). Qed.

Lemma fw_remove_peer_inv fw p : fw_inv fw -> fw_inv (fw_remove_peer fw p).
Proof.
  intros H.
  assert (Ho : forall q, owned q (retain (fun e => negb (peer e =? p)%nat) (entries fw)) =
    if (q =? p)%nat then [] else owned q (entries fw)).
  { intros q. unfold owned. clear. induction (entries fw) as [|e es IH]; simpl; [by destruct (_ =? _)%nat|].
    destruct (Nat.eqb_spec (peer e) p), (Nat.eqb_spec q p), (Nat.eqb_spec (peer e) q); simpl; subst;
      rewrite ?IH, ?Nat.eqb_refl; try done; case_match; bool_lia. }
  pose proof (fw_inv_retain fw (fun e => negb (peer e =? p)%nat) H) as Hr.
  replace (fw_remove_peer fw p) with (set_counts
    (set_entries fw (retain (fun e => negb (peer e =? p)%nat) (entries fw)))
    (tally (retain (fun e => negb (peer e =? p)%nat) (entries fw)))); [done|].
  pose proof (fwi_counts _ H) as Hc. fold (tally (entries fw)) in Hc.
  unfold fw_remove_peer, set_counts, set_entries, peer_position.
  destruct (Nat.ltb_spec p MAX_PEERS); cbn; f_equal; rewrite Hc.
  - transitivity (alter (fun _ => 0%nat) p (tally (entries fw))).
    + symmetry. apply tally_alter; [done| |].
      * intros q Hq. rewrite Ho. by destruct (Nat.eqb_spec q p).
      * by rewrite Ho, Nat.eqb_refl.
    + by rewrite list_insert_alter.
  - apply tally_ext. intros q. rewrite Ho. destruct (Nat.eqb_spec q p) as [->|]; [|done].
    rewrite owned_none; [done|]. apply Forall_forall. intros e He Hpe.
    pose proof (fwi_peers _ H) as Hf. rewrite Forall_forall in Hf. specialize (Hf e He). lia.
Qed.

Lemma fw_step_inv fw ev : fw_inv fw -> fw_inv (fw_step fw ev).
Proof.
  destruct ev; cbn [fw_step]; auto using observe_outbound_inv, allows_inbound_inv, fw_remove_peer_inv.
Qed.

Lemma fresh_table_inv max per ts : fw_inv (with_limits_and_timeouts max per ts).
Proof.
  split; try (cbn; lia); try constructor.
  - symmetry. apply tally_nil.
  - intros q. unfold owned; simpl; lia.
Qed.

Lemma fw_after_inv max per ts trace :
  fw_inv (fw_after (with_limits_and_timeouts max per ts) trace).
Proof. induction trace; cbn [fw_after]; auto using fresh_table_inv, fw_step_inv. Qed.

Lemma refreshed_elem fw fw' p m closes now e :
  refreshed fw fw' p m closes now -> e ∈ entries fw' ->
  exists e0, e0 ∈ entries fw /\ peer e0 = peer e /\ flow e0 = flow e.
Proof.
  intros (i & e0 & He0 & Hp & _ & _ & ->) [j Hj]%list_elem_of_lookup. cbn in Hj.
  apply list_lookup_insert_Some in Hj as [(_ & <- & _)|[_ Hj]].
  - exists e0. split; [by eapply list_elem_of_lookup_2|done].
  - exists e. split; [by eapply list_elem_of_lookup_2|done].
Qed.

Lemma opens_into_elem fw fw' e e' :
  opens_into fw fw' e -> e' ∈ entries fw' -> e' = e \/ e' ∈ entries fw.
Proof.
  intros [->|[(v & old & Hv & -> & _)|[-> _]]].
  - rewrite elem_of_app, list_elem_of_singleton. tauto.
  - intros [j Hj]%list_elem_of_lookup.
    apply list_lookup_insert_Some in Hj as [(_ & <- & _)|[_ Hj]]; [by left|right].
    by eapply list_elem_of_lookup_2.
  - by right.
Qed.

(** Every tracked flow was opened by a packet the device itself sent. *)
Lemma entries_opened max per ts trace e :
  e ∈ entries (fw_after (with_limits_and_timeouts max per ts) trace) ->
  opened (peer e) (flow e) trace.
Proof.
  revert e. induction trace as [|ev trace IH]; intros e; cbn [fw_after].
  { cbn. by intros ?%not_elem_of_nil. }
  pose proof (fw_after_inv max per ts trace) as Hinv.
  set (fw := fw_after _ _) in *. destruct ev as [p packet now|p packet now|p]; cbn [fw_step].
  - destruct (observe_outbound_cases fw p packet now Hinv)
      as [[-> _]|(parsed & Hpf & Hp & [Hr|(Ho & Hf & ->)])]; intros He.
    + by apply opened_before, IH.
    + destruct (refreshed_elem _ _ _ _ _ _ _ Hr He) as (e0 & He0 & <- & <-).
      by apply opened_before, IH.
    + pose proof (collect_expired_inv fw now Hinv) as Hc.
      destruct (admit_flow_spec _ _ _ now Hc Hp Hf) as [_ Hop].
      destruct (opens_into_elem _ _ _ _ Hop He) as [->|He'].
      * by eapply opened_now.
      * rewrite collect_expired_entries in He' by done.
        apply elem_of_retain in He' as [_ He']. by apply opened_before, IH.
  - intros He. apply opened_before; [done|]. pose proof (allows_inbound_cases fw p packet now) as Hc.
    destruct (parse_flow packet); [|rewrite Hc in He; by apply IH].
    destruct Hc as [(_ & E)|[(_ & E)|[(_ & E & _)|(_ & fw' & E & Hr)]]]; rewrite E in He; cbn in He;
      try by apply IH.
    destruct (refreshed_elem _ _ _ _ _ _ _ Hr He) as (e0 & He0 & <- & <-). by apply IH.
  - rewrite fw_remove_peer_entries. intros [Hne He]%elem_of_retain. bool_to_prop.
    apply opened_before; [congruence|by apply IH].
Qed.

Lemma opens_into_keeps fw fw' e e' :
  opens_into fw fw' e -> e' ∈ entries fw -> peer e' <> peer e ->
  (length (owned (peer e') (entries fw)) <= length (owned (peer e) (entries fw)) \/
   max_entries_per_peer fw <= length (owned (peer e) (entries fw)))%nat ->
  e' ∈ entries fw'.
Proof.
  intros [->|[(v & old & Hv & -> & Hold)|[-> _]]] He' Hne Hle; [|..|done].
  - apply elem_of_app. by left.
  - apply list_elem_of_lookup in He' as [j Hj]. apply list_elem_of_lookup. exists j.
    rewrite list_lookup_insert_ne; [done|]. intros ->.
    assert (old = e') by congruence. subst old. destruct Hold as [|[]]; [done|lia].
Qed.

Lemma collect_expired_params fw now :
  fw_inv fw ->
  max_entries_per_peer (collect_expired fw now) = max_entries_per_peer fw /\
  timeouts (collect_expired fw now) = timeouts fw.
Proof. intros H. by rewrite collect_expired_eq. Qed.

Lemma opens_into_has fw fw' e :
  opens_into fw fw' e -> (0 < max_entries_per_peer fw)%nat -> e ∈ entries fw'.
Proof.
  intros [->|[(v & old & Hv & -> & _)|[_ ?]]] ?; [| |lia].
  - apply elem_of_app. right. by apply list_elem_of_singleton.
  - apply list_elem_of_lookup. exists v. apply list_lookup_insert_eq. by eapply lookup_lt_Some.
Qed.

(** After an outbound packet that may open a flow, a live entry for it exists. *)
Lemma observe_outbound_tracks fw p packet now parsed :
  fw_inv fw -> (p < MAX_PEERS)%nat -> (0 < max_entries_per_peer fw)%nat ->
  parse_flow packet = Some parsed -> opens_new_flow parsed = true ->
  exists e, e ∈ entries (observe_outbound fw p packet now) /\ peer e = p /\ flow e = pkey parsed /\
    exists c, expires e =
      instant_add now (effective_timeout (timeouts fw) (mkEntry p (pkey parsed) now now c)).
Proof.
  intros H Hp Hq Hparse Ho.
  destruct (observe_outbound_cases fw p packet now H) as [[_ Hno]|(parsed' & Hparse' & _ & Hc)].
  { by rewrite (Hno _ Hparse Hp) in Ho. }
  assert (parsed' = parsed) as -> by congruence.
  destruct Hc as [(i & e & He & Hpe & _ & Hk%bool_decide_eq_true & ->)|(_ & Hf & ->)].
  - exists (refresh fw e (is_closing parsed) now). split.
    + apply list_elem_of_lookup. exists i. apply list_lookup_insert_eq. by eapply lookup_lt_Some.
    + split; [done|]. split; [done|]. exists (closing e || is_closing parsed).
      by rewrite <- Hk.
  - destruct (collect_expired_params fw now H) as [Eq Et].
    destruct (admit_flow_spec _ _ _ now (collect_expired_inv fw now H) Hp Hf) as [_ Hop].
    exists (open_entry (collect_expired fw now) p (pkey parsed) now).
    split; [apply (opens_into_has _ _ _ Hop); by rewrite Eq|].
    split; [done|]. split; [done|]. exists false. cbn. by rewrite Et.
Qed.

(** ** Theorems *)

(** the table invariant holds after every trace of outbound packets, inbound
    packets and peer removals: no more entries than the configured limit or the
    compiled ceiling, no peer above its quota, one entry per (peer, flow), the
    saturating per-peer counters equal to the true tallies, and every expiry
    equal to the last activity plus the timeout of the entry's class. *)
Theorem firewall_invariant (max per : nat) (ts : Timeouts) (trace : list FwEvent) :
  fw_inv (fw_after (with_limits_and_timeouts max per ts) trace).
Proof. induction trace; cbn [fw_after]; auto using fresh_table_inv, fw_step_inv. Qed.

(** C12: whatever happened before, an inbound packet is admitted only if it
    answers a flow (or, for an ICMP error, quotes a flow) that the device itself
    opened towards that same peer since the peer was last removed; a bare SYN or
    an echo request is never admitted. *)
Theorem inbound_is_return_traffic (max per : nat) (ts : Timeouts) (trace : list FwEvent)
    (p : PeerIdx) (packet : list Z) (now : Instant) :
  fst (allows_inbound (fw_after (with_limits_and_timeouts max per ts) trace) p packet now) = true ->
  exists parsed k, parse_flow packet = Some parsed /\ opened p k trace /\
    (pkind parsed = Error /\ k = pkey parsed \/
     answers_flow (pkind parsed) = true /\ is_reverse_of (pkey parsed) k = true).
Proof.
  set (fw := fw_after _ _). intros Hok.
  pose proof (allows_inbound_cases fw p packet now) as Hc.
  destruct (parse_flow packet) as [parsed|]; [|by rewrite Hc in Hok].
  destruct Hc as [(Hk & E)|[(_ & E)|[(_ & E & _)|(Ha & fw' & E & Hr)]]]; rewrite E in Hok; try done.
  - apply existsb_exists in Hok as (e & He%list_elem_of_In & Hm). bool_to_prop.
    exists parsed, (pkey parsed). split; [done|]. split; [|by left]. subst p.
    replace (pkey parsed) with (flow e) by done. by eapply entries_opened.
  - destruct Hr as (i & e & He & <- & _ & Hm & _).
    exists parsed, (flow e). split; [done|]. split; [|by right].
    eapply entries_opened. by eapply list_elem_of_lookup_2.
Qed.

(** one peer cannot evict another's return-flow state: sending a packet to
    [p], whatever it is, keeps every live entry of any other peer [q] that holds
    no more live flows than [p], and keeps every other peer's entries once [p]
    is at its own quota. *)
Theorem flow_isolation (fw : Firewall) (p q : PeerIdx) (packet : list Z) (now : Instant) (e : Entry) :
  fw_inv fw -> p <> q -> e ∈ live q now fw ->
  (length (live q now fw) <= length (live p now fw) \/
   max_entries_per_peer fw <= length (live p now fw))%nat ->
  e ∈ entries (observe_outbound fw p packet now).
Proof.
  intros H Hpq He Hle.
  assert (Hl : e ∈ live q now fw) by done.
  apply elem_of_retain in He as [Hexp [Hq He]%elem_of_owned].
  destruct (observe_outbound_cases fw p packet now H) as [[-> _]|(parsed & _ & Hp & [Hr|(_ & Hf & ->)])];
    [done| |].
  - destruct Hr as (i & e0 & He0 & Hp0 & _ & _ & ->).
    apply list_elem_of_lookup in He as [j Hj]. apply list_elem_of_lookup. exists j. cbn.
    rewrite list_lookup_insert_ne; [done|congruence].
  - destruct (admit_flow_spec _ _ _ now (collect_expired_inv fw now H) Hp Hf) as [_ Hop].
    eapply opens_into_keeps; [done| | |].
    + rewrite collect_expired_entries by done. by apply elem_of_retain.
    + cbn. congruence.
    + cbn [peer open_entry]. rewrite Hq, !owned_live by done.
      by rewrite (proj1 (collect_expired_params fw now H)).
Qed.

(** the firewall never starves legitimate traffic: right after the device
    sends a packet that opens a flow, a reply from that peer which reverses the
    flow is admitted until the flow's timeout, however full the table was. *)
Theorem reply_admitted (fw : Firewall) (p : PeerIdx) (out reply : list Z) (now now' : Instant)
    (po pr : Parsed) :
  fw_inv fw -> (p < MAX_PEERS)%nat -> (0 < max_entries_per_peer fw)%nat ->
  parse_flow out = Some po -> opens_new_flow po = true ->
  parse_flow reply = Some pr -> answers_flow (pkind pr) = true ->
  is_reverse_of (pkey pr) (pkey po) = true ->
  (forall c, now' <
    instant_add now (effective_timeout (timeouts fw) (mkEntry p (pkey po) now now c))) ->
  fst (allows_inbound (observe_outbound fw p out now) p reply now') = true.
Proof.
  intros H Hp Hq Hout Ho Hreply Ha Hrev Hnow.
  destruct (observe_outbound_tracks fw p out now po) as (e & He & Hpe & Hfe & c & Hexp); try done.
  pose proof (allows_inbound_cases (observe_outbound fw p out now) p reply now') as Hc.
  rewrite Hreply in Hc.
  destruct Hc as [(Hk & _)|[(Ha' & _)|[(_ & _ & Hno)|(_ & fw' & -> & _)]]]; [..|done].
  - by rewrite Hk in Ha.
  - congruence.
  - rewrite Forall_forall in Hno. specialize (Hno e He).
    rewrite Hpe, Nat.eqb_refl, Hfe, Hrev, Hexp in Hno.
    by destruct (Z.ltb_spec now' (instant_add now
      (effective_timeout (timeouts fw) (mkEntry p (pkey po) now now c)))) as [|Hge];
      [|specialize (Hnow c); lia].
Qed.

(** a refused inbound packet, and an ICMP error even when admitted, changes
    nothing: it neither creates, refreshes nor removes state. *)
Theorem inbound_error_is_inert (fw : Firewall) (p : PeerIdx) (packet : list Z) (now : Instant) :
  fst (allows_inbound fw p packet now) = false \/
  (exists parsed, parse_flow packet = Some parsed /\ pkind parsed = Error) ->
  snd (allows_inbound fw p packet now) = fw.
Proof.
  intros Hor. pose proof (allows_inbound_cases fw p packet now) as Hc.
  destruct (parse_flow packet) as [parsed|]; [|by rewrite Hc].
  destruct Hc as [(_ & ->)|[(_ & ->)|[(_ & -> & _)|(Ha & fw' & E & _)]]]; try done.
  rewrite E in Hor. destruct Hor as [|(pr & [= <-] & Hk)]; [done|]. by rewrite Hk in Ha.
Qed.

End Table.

(** ** Witnesses *)

(** A UDP datagram 10.0.0.1:53 -> 10.0.0.2:8080 and its answer. *)
Definition udp_out : list Z :=
  [69;0;0;28;0;0;0;0;64;17;0;0; 10;0;0;1; 10;0;0;2; 0;53;31;144;0;8;0;0].
Definition udp_back : list Z :=
  [69;0;0;28;0;0;0;0;64;17;0;0; 10;0;0;2; 10;0;0;1; 31;144;0;53;0;8;0;0].
(** The same towards 10.0.0.3. *)
Definition udp_out3 : list Z :=
  [69;0;0;28;0;0;0;0;64;17;0;0; 10;0;0;1; 10;0;0;3; 0;53;31;144;0;8;0;0].
Definition sample_timeouts : Timeouts := mkTimeouts 30000 10000 7200000 10000.

Definition sample_table : Firewall :=
  fw_after 4 3 (with_limits_and_timeouts 4 3 2 2 sample_timeouts) [Out 1%nat udp_out3 5; Out 0%nat udp_out 0].

Lemma firewall_invariant_witness :
  fw_inv 4 3 sample_table /\ peer_counts sample_table = [1; 1; 0]%nat.
Proof.
  split; [|by vm_compute].
  apply (firewall_invariant 4 3 ltac:(done) 2 2 sample_timeouts [Out 1%nat udp_out3 5; Out 0%nat udp_out 0]).
Defined.

Lemma inbound_is_return_traffic_witness :
  fst (allows_inbound (fw_after 4 3 (with_limits_and_timeouts 4 3 2 2 sample_timeouts)
         [Out 1%nat udp_out3 5; Out 0%nat udp_out 0]) 0%nat udp_back 100) = true /\
  exists parsed k, parse_flow udp_back = Some parsed /\ opened 0%nat k [Out 1%nat udp_out3 5; Out 0%nat udp_out 0] /\
    (pkind parsed = Error /\ k = pkey parsed \/
     answers_flow (pkind parsed) = true /\ is_reverse_of (pkey parsed) k = true).
Proof.
  split; [by vm_compute|]. apply (inbound_is_return_traffic 4 3 ltac:(done) 2 2 sample_timeouts _ 0%nat udp_back 100).
  by vm_compute.
Defined.

Lemma flow_isolation_witness :
  exists e, e ∈ live 0%nat 10 sample_table /\
    e ∈ entries (observe_outbound 4 3 sample_table 1%nat udp_out 10).
Proof.
  eexists (mkEntry 0%nat (mkFlowKey (V4 167772161) (V4 167772162) 17 53 8080) 30000 0 false).
  assert (He : mkEntry 0%nat (mkFlowKey (V4 167772161) (V4 167772162) 17 53 8080) 30000 0 false
               ∈ live 0%nat 10 sample_table) by (vm_compute; left).
  split; [exact He|].
  apply (flow_isolation 4 3 ltac:(done) sample_table 1%nat 0%nat udp_out 10); [|done|exact He|].
  - apply fw_after_inv. done.
  - left. vm_compute. lia.
Defined.

Lemma reply_admitted_witness :
  fst (allows_inbound (observe_outbound 4 3 sample_table 2%nat udp_out 10) 2%nat udp_back 20) = true.
Proof.
  eapply (reply_admitted 4 3 ltac:(done) sample_table 2%nat udp_out udp_back 10 20).
  - apply fw_after_inv. done.
  - lia.
  - vm_compute. lia.
  - vm_compute. reflexivity.
  - reflexivity.
  - vm_compute. reflexivity.
  - reflexivity.
  - reflexivity.
  - intros []; reflexivity.
Defined.

Lemma inbound_error_is_inert_witness :
  snd (allows_inbound sample_table 0%nat udp_out 10) = sample_table.
Proof. apply inbound_error_is_inert. left. by vm_compute. Defined.
