(* ===== verification/Messages.v ===== *)
(** * Wire message layouts ([microtun-core/src/messages.rs], [error.rs], the size
    budgets of [lib.rs])

    A [zerocopy] wire struct is a record whose byte-array fields are byte lists
    and whose integers are [Z]; [as_bytes] concatenates the fields in order and
    the [read] functions split them at the offsets derived from the layout. *)

From S2P Require Import Prelude.
Local Open Scope nat_scope.

(** ** Errors *)

Inductive Err :=
| BufferTooSmall | InvalidCapacity | InvalidCoreConfig | TimeOverflow | InternalInvariant
| MalformedIpPacket | PacketTooLarge | PeerTableFull | PeerAdmissionLimited | InvalidPrivateKey
| InvalidPinnedConfiguration | SessionPoolFull | SessionIndexGenerationFailed | RouteCacheFull
| ResolverBusy | CryptoErr | NoWallClock | NoEndpoint | RelayUnavailable | InvalidResolverAnswer.

#[export] Instance Err_eq_dec : EqDecision Err.
Proof. solve_decision. Defined.

(** [Result<A, Error>] *)
Inductive Result (A : Type) := Ok (a : A) | Failed (e : Err).
Arguments Ok {A} _.
Arguments Failed {A} _.

(** Results compose with stdpp's bind notation, which is the [?] of the code. *)
#[export] Instance result_ret : MRet Result := fun A a => Ok a.
#[export] Instance result_bind : MBind Result := fun A B k r =>
  match r with Ok a => k a | Failed e => Failed e end.
#[export] Instance result_fmap : FMap Result := fun A B f r =>
  match r with Ok a => Ok (f a) | Failed e => Failed e end.

(** [ok_or] *)
Definition ok_or {A} (o : option A) (e : Err) : Result A :=
  match o with Some a => Ok a | None => Failed e end.

Lemma bind_Ok {A B} (r : Result A) (k : A -> Result B) b :
  (r ≫= k) = Ok b <-> exists a, r = Ok a /\ k a = Ok b.
Proof. destruct r; cbn; naive_solver. Qed.

Lemma ok_or_Ok {A} (o : option A) e a : ok_or o e = Ok a <-> o = Some a.
Proof. destruct o; cbn; naive_solver. Qed.

Definition is_ok {A} (r : Result A) : bool := match r with Ok _ => true | Failed _ => false end.

(** ** Layouts *)

Definition TAG_LEN : nat := 16.
Definition TIMESTAMP_LEN : nat := 12.
Definition XNONCE_LEN : nat := 24.

Definition MSG_INITIATION : Z := 1.
Definition MSG_RESPONSE : Z := 2.
Definition MSG_COOKIE_REPLY : Z := 3.
Definition MSG_DATA : Z := 4.
Definition MSG_RELAY : Z := 240.

Definition RELAY_AEAD_AD : list Z := [MSG_RELAY; 0; 0; 0]%Z.

Record MessagePrefix := mkPrefix { message_type : Z; reserved : list Z }.

Record HandshakeInitiation := mkInitiation {
  hi_prefix : MessagePrefix;
  hi_sender : Z;
  hi_ephemeral : list Z;
  hi_encrypted_static : list Z;
  hi_encrypted_timestamp : list Z;
  hi_mac1 : list Z;
  hi_mac2 : list Z;
}.

Record HandshakeResponse := mkResponse {
  hr_prefix : MessagePrefix;
  hr_sender : Z;
  hr_receiver : Z;
  hr_ephemeral : list Z;
  hr_encrypted_empty : list Z;
  hr_mac1 : list Z;
  hr_mac2 : list Z;
}.

Record CookieReply := mkCookieReply {
  cr_prefix : MessagePrefix;
  cr_receiver : Z;
  cr_nonce : list Z;
  cr_encrypted_cookie : list Z;
}.

Record DataHeader := mkDataHeader {
  dh_prefix : MessagePrefix;
  dh_receiver : Z;
  dh_counter : Z;
}.

(** The sizes of the fields, in order ([repr(C)], alignment 1). *)
Definition initiation_layout : list nat := [4; 4; 32; 32 + TAG_LEN; TIMESTAMP_LEN + TAG_LEN; 16; 16].
Definition response_layout : list nat := [4; 4; 4; 32; TAG_LEN; 16; 16].
Definition cookie_layout : list nat := [4; 4; XNONCE_LEN; 16 + TAG_LEN].
Definition data_layout : list nat := [4; 4; 8].

Definition size_of (layout : list nat) : nat := sum_list layout.
Definition offset_of (layout : list nat) (i : nat) : nat := sum_list (take i layout).

Definition INITIATION_LEN : nat := size_of initiation_layout.
Definition RESPONSE_LEN : nat := size_of response_layout.
Definition COOKIE_REPLY_LEN : nat := size_of cookie_layout.
Definition DATA_HEADER_LEN : nat := size_of data_layout.
Definition DATA_OVERHEAD : nat := DATA_HEADER_LEN + TAG_LEN.
Definition DATA_MIN_LEN : nat := DATA_OVERHEAD.

(** [& !15] *)
Definition align_down16 (n : nat) : nat := n - n mod 16.

Definition MAX_UDP_SIZE : nat := 1500.
Definition OUTER_IPV6_UDP_OVERHEAD : nat := 48.
Definition MAX_INNER_SIZE : nat := align_down16 (MAX_UDP_SIZE - DATA_OVERHEAD).
Definition RECOMMENDED_MAX_MTU : nat :=
  align_down16 (MAX_UDP_SIZE - OUTER_IPV6_UDP_OVERHEAD - DATA_OVERHEAD).

(** A [Range<usize>] as its start and length. *)
Definition field_range (start len : nat) : nat * nat := (start, len).
Definition get_range (buf : list Z) (r : nat * nat) : option (list Z) := slice buf r.1 r.2.

Definition init_SENDER := field_range (offset_of initiation_layout 1) 4.
Definition init_EPHEMERAL := field_range (offset_of initiation_layout 2) 32.
Definition init_STATIC := field_range (offset_of initiation_layout 3) (32 + TAG_LEN).
Definition init_TIMESTAMP := field_range (offset_of initiation_layout 4) (TIMESTAMP_LEN + TAG_LEN).
Definition init_MAC1 := field_range (offset_of initiation_layout 5) 16.
Definition init_MAC2 := field_range (offset_of initiation_layout 6) 16.
Definition init_ALPHA := field_range 0 (offset_of initiation_layout 5).
Definition init_BETA := field_range 0 (offset_of initiation_layout 6).

Definition resp_SENDER := field_range (offset_of response_layout 1) 4.
Definition resp_RECEIVER := field_range (offset_of response_layout 2) 4.
Definition resp_EPHEMERAL := field_range (offset_of response_layout 3) 32.
Definition resp_EMPTY := field_range (offset_of response_layout 4) TAG_LEN.
Definition resp_MAC1 := field_range (offset_of response_layout 5) 16.
Definition resp_MAC2 := field_range (offset_of response_layout 6) 16.
Definition resp_ALPHA := field_range 0 (offset_of response_layout 5).
Definition resp_BETA := field_range 0 (offset_of response_layout 6).

Definition cookie_RECEIVER := field_range (offset_of cookie_layout 1) 4.
Definition cookie_NONCE := field_range (offset_of cookie_layout 2) XNONCE_LEN.
Definition cookie_COOKIE := field_range (offset_of cookie_layout 3) (16 + TAG_LEN).

Definition data_RECEIVER := field_range (offset_of data_layout 1) 4.
Definition data_COUNTER := field_range (offset_of data_layout 2) 8.
Definition PACKET_START : nat := DATA_HEADER_LEN.

(** ** Bytes of the structs *)

Definition prefix_bytes (p : MessagePrefix) : list Z := message_type p :: reserved p.

Definition initiation_bytes (m : HandshakeInitiation) : list Z :=
  prefix_bytes (hi_prefix m) ++ le_bytes 4 (hi_sender m) ++ hi_ephemeral m ++
  hi_encrypted_static m ++ hi_encrypted_timestamp m ++ hi_mac1 m ++ hi_mac2 m.
Definition response_bytes (m : HandshakeResponse) : list Z :=
  prefix_bytes (hr_prefix m) ++ le_bytes 4 (hr_sender m) ++ le_bytes 4 (hr_receiver m) ++
  hr_ephemeral m ++ hr_encrypted_empty m ++ hr_mac1 m ++ hr_mac2 m.
Definition cookie_reply_bytes (m : CookieReply) : list Z :=
  prefix_bytes (cr_prefix m) ++ le_bytes 4 (cr_receiver m) ++ cr_nonce m ++ cr_encrypted_cookie m.
Definition data_header_bytes (m : DataHeader) : list Z :=
  prefix_bytes (dh_prefix m) ++ le_bytes 4 (dh_receiver m) ++ le_bytes 8 (dh_counter m).

(** [MessagePrefix::ref_from_prefix] *)
Definition prefix_from (buf : list Z) : option MessagePrefix :=
  match buf with
  | t :: a :: b :: c :: _ => Some (mkPrefix t [a; b; c])
  | _ => None
  end.

Definition read_u32_le (bytes : list Z) : option Z := le_value <$> slice bytes 0 4.
Definition read_u64_le (bytes : list Z) : option Z := le_value <$> slice bytes 0 8.

(** [HandshakeInitiation::read_from_bytes] and the like: the length must be
    exactly that of the layout. *)
Definition read_initiation (buf : list Z) : option HandshakeInitiation :=
  if negb (length buf =? INITIATION_LEN)%nat then None else
  prefix ← prefix_from buf;
  sender ← get_range buf init_SENDER ≫= read_u32_le;
  ephemeral ← get_range buf init_EPHEMERAL;
  st ← get_range buf init_STATIC;
  ts ← get_range buf init_TIMESTAMP;
  mac1 ← get_range buf init_MAC1;
  mac2 ← get_range buf init_MAC2;
  Some (mkInitiation prefix sender ephemeral st ts mac1 mac2).

Definition read_response (buf : list Z) : option HandshakeResponse :=
  if negb (length buf =? RESPONSE_LEN)%nat then None else
  prefix ← prefix_from buf;
  sender ← get_range buf resp_SENDER ≫= read_u32_le;
  receiver ← get_range buf resp_RECEIVER ≫= read_u32_le;
  ephemeral ← get_range buf resp_EPHEMERAL;
  empty ← get_range buf resp_EMPTY;
  mac1 ← get_range buf resp_MAC1;
  mac2 ← get_range buf resp_MAC2;
  Some (mkResponse prefix sender receiver ephemeral empty mac1 mac2).

Definition read_cookie_reply (buf : list Z) : option CookieReply :=
  if negb (length buf =? COOKIE_REPLY_LEN)%nat then None else
  prefix ← prefix_from buf;
  receiver ← get_range buf cookie_RECEIVER ≫= read_u32_le;
  nonce ← get_range buf cookie_NONCE;
  c ← get_range buf cookie_COOKIE;
  Some (mkCookieReply prefix receiver nonce c).

(** [DataHeader::ref_from_prefix] *)
Definition read_data_header (buf : list Z) : option DataHeader :=
  prefix ← prefix_from buf;
  receiver ← get_range buf data_RECEIVER ≫= read_u32_le;
  counter ← get_range buf data_COUNTER ≫= read_u64_le;
  Some (mkDataHeader prefix receiver counter).

Definition write_type (buf : list Z) (message_type : Z) : Result (list Z) :=
  if (length buf <? 4)%nat then Failed BufferTooSmall
  else Ok (blit buf 0 (prefix_bytes (mkPrefix message_type [0; 0; 0]%Z))).

(** ** Classification *)

Inductive Message := Initiation | Response | CookieReplyMsg | Data | RelayData.

#[export] Instance Message_eq_dec : EqDecision Message.
Proof. solve_decision. Defined.

Definition classify (buf : list Z) : option Message :=
  prefix ← prefix_from buf;
  if negb (bool_decide (reserved prefix = [0; 0; 0]%Z)) then None else
  let t := message_type prefix in
  let len := length buf in
  if (t =? MSG_INITIATION)%Z && (len =? INITIATION_LEN) then Some Initiation
  else if (t =? MSG_RESPONSE)%Z && (len =? RESPONSE_LEN) then Some Response
  else if (t =? MSG_COOKIE_REPLY)%Z && (len =? COOKIE_REPLY_LEN) then Some CookieReplyMsg
  else if (t =? MSG_DATA)%Z && (DATA_MIN_LEN <=? len) then Some Data
  else if (t =? MSG_RELAY)%Z && (DATA_MIN_LEN <=? len) then Some RelayData
  else None.

(** The prefix of a well-formed message of type [t]. *)
Definition std_prefix (t : Z) : MessagePrefix := mkPrefix t [0; 0; 0]%Z.

Definition initiation_wf (m : HandshakeInitiation) : Prop :=
  hi_prefix m = std_prefix MSG_INITIATION /\ is_u32 (hi_sender m) /\ length (hi_ephemeral m) = 32 /\
  length (hi_encrypted_static m) = 48 /\ length (hi_encrypted_timestamp m) = 28 /\
  length (hi_mac1 m) = 16 /\ length (hi_mac2 m) = 16.
Definition response_wf (m : HandshakeResponse) : Prop :=
  hr_prefix m = std_prefix MSG_RESPONSE /\ is_u32 (hr_sender m) /\ is_u32 (hr_receiver m) /\
  length (hr_ephemeral m) = 32 /\ length (hr_encrypted_empty m) = 16 /\
  length (hr_mac1 m) = 16 /\ length (hr_mac2 m) = 16.
Definition cookie_reply_wf (m : CookieReply) : Prop :=
  cr_prefix m = std_prefix MSG_COOKIE_REPLY /\ is_u32 (cr_receiver m) /\
  length (cr_nonce m) = 24 /\ length (cr_encrypted_cookie m) = 32.

(** A fixed message: its bytes classify as [msg] and read back, and every
    datagram classified as [msg] is the bytes of exactly the message read. *)
Definition fixed_codec {M} (wf : M -> Prop) (enc : M -> list Z) (dec : list Z -> option M)
    (msg : Message) : Prop :=
  (forall m, wf m -> dec (enc m) = Some m /\ classify (enc m) = Some msg) /\
  (forall buf, Forall is_u8 buf -> classify buf = Some msg ->
     exists m, wf m /\ dec buf = Some m /\ enc m = buf).

(** ** Lemmas *)

Lemma read_u32_le_bytes z : is_u32 z -> read_u32_le (le_bytes 4 z) = Some z.
Proof.
  intros H. unfold read_u32_le. rewrite slice_exact by apply length_le_bytes. cbn [fmap option_fmap option_map].
  rewrite le_value_bytes. f_equal. apply Z.mod_small. unfold is_u32, u32_max in H. lia.
Qed.

Lemma read_u32_le_slice (buf : list Z) start :
  read_u32_le (take 4 (drop start buf)) =
  if decide (start + 4 <= length buf) then Some (le_value (take 4 (drop start buf))) else None.
Proof.
  unfold read_u32_le, slice. rewrite drop_0, take_take, length_take, length_drop.
  destruct (decide _), (decide _); try done; lia.
Qed.

(** What [classify] says of the first four bytes and the length. *)
Lemma classify_inv buf msg :
  classify buf = Some msg ->
  exists t rest, buf = t :: 0%Z :: 0%Z :: 0%Z :: rest /\
  match msg with
  | Initiation => t = MSG_INITIATION /\ length buf = INITIATION_LEN
  | Response => t = MSG_RESPONSE /\ length buf = RESPONSE_LEN
  | CookieReplyMsg => t = MSG_COOKIE_REPLY /\ length buf = COOKIE_REPLY_LEN
  | Data => t = MSG_DATA /\ DATA_MIN_LEN <= length buf
  | RelayData => t = MSG_RELAY /\ DATA_MIN_LEN <= length buf
  end.
Proof.
  destruct buf as [|t [|a [|b [|c rest]]]]; try done. unfold classify.
  cbn [prefix_from mbind option_bind reserved message_type].
  destruct (bool_decide ([a; b; c] = [0; 0; 0]%Z)) eqn:E; cbn [negb]; [|done].
  bool_to_prop. injection E as -> -> ->. intros H. exists t, rest. split; [done|].
  revert H. generalize (length (t :: 0%Z :: 0%Z :: 0%Z :: rest)) as n. intros n.
  repeat match goal with |- context [if ?b then _ else _] => destruct b eqn:? end;
    intros [= <-]; bool_to_prop; auto.
Qed.

Lemma classify_prefix t rest :
  classify (prefix_bytes (std_prefix t) ++ rest) =
  let len := 4 + length rest in
  if (t =? MSG_INITIATION)%Z && (len =? INITIATION_LEN) then Some Initiation
  else if (t =? MSG_RESPONSE)%Z && (len =? RESPONSE_LEN) then Some Response
  else if (t =? MSG_COOKIE_REPLY)%Z && (len =? COOKIE_REPLY_LEN) then Some CookieReplyMsg
  else if (t =? MSG_DATA)%Z && (DATA_MIN_LEN <=? len) then Some Data
  else if (t =? MSG_RELAY)%Z && (DATA_MIN_LEN <=? len) then Some RelayData
  else None.
Proof. done. Qed.

Lemma get_field fs layout i f n :
  length <$> fs = layout -> fs !! i = Some f -> length f = n ->
  get_range (concat fs) (field_range (offset_of layout i) n) = Some f.
Proof. intros <- H <-. unfold get_range, field_range, offset_of. cbn. by apply slice_concat. Qed.

Lemma read_u32_le_4 f : length f = 4 -> read_u32_le f = Some (le_value f).
Proof. intros H. unfold read_u32_le. by rewrite slice_exact. Qed.

Lemma read_initiation_fields t a b c s e st ts m1 m2 :
  length <$> [[t; a; b; c]; s; e; st; ts; m1; m2] = initiation_layout ->
  read_initiation (concat [[t; a; b; c]; s; e; st; ts; m1; m2]) =
    Some (mkInitiation (mkPrefix t [a; b; c]) (le_value s) e st ts m1 m2).
Proof.
  set (fs := [[t; a; b; c]; s; e; st; ts; m1; m2]). intros H. unfold read_initiation.
  assert (Hl : length (concat fs) = INITIATION_LEN).
  { rewrite length_concat. unfold INITIATION_LEN, size_of. by rewrite <- H. }
  rewrite Hl, Nat.eqb_refl. cbn [negb].
  unfold init_SENDER, init_EPHEMERAL, init_STATIC, init_TIMESTAMP, init_MAC1, init_MAC2.
  pose proof H as Hf. injection H as Hs He Hst Hts Hm1 Hm2.
  rewrite (get_field fs _ 1 s 4 Hf eq_refl Hs). cbn [mbind option_bind].
  rewrite read_u32_le_4 by done.
  rewrite (get_field fs _ 2 e 32 Hf eq_refl He), (get_field fs _ 3 st (32 + TAG_LEN) Hf eq_refl Hst),
    (get_field fs _ 4 ts (TIMESTAMP_LEN + TAG_LEN) Hf eq_refl Hts), (get_field fs _ 5 m1 16 Hf eq_refl Hm1),
    (get_field fs _ 6 m2 16 Hf eq_refl Hm2). done.
Qed.

Lemma read_response_fields t a b c s r e em m1 m2 :
  length <$> [[t; a; b; c]; s; r; e; em; m1; m2] = response_layout ->
  read_response (concat [[t; a; b; c]; s; r; e; em; m1; m2]) =
    Some (mkResponse (mkPrefix t [a; b; c]) (le_value s) (le_value r) e em m1 m2).
Proof.
  set (fs := [[t; a; b; c]; s; r; e; em; m1; m2]). intros H. unfold read_response.
  assert (Hl : length (concat fs) = RESPONSE_LEN).
  { rewrite length_concat. unfold RESPONSE_LEN, size_of. by rewrite <- H. }
  rewrite Hl, Nat.eqb_refl. cbn [negb].
  unfold resp_SENDER, resp_RECEIVER, resp_EPHEMERAL, resp_EMPTY, resp_MAC1, resp_MAC2.
  pose proof H as Hf. injection H as Hs Hr He Hem Hm1 Hm2.
  rewrite (get_field fs _ 1 s 4 Hf eq_refl Hs), (get_field fs _ 2 r 4 Hf eq_refl Hr).
  cbn [mbind option_bind]. rewrite !read_u32_le_4 by done.
  rewrite (get_field fs _ 3 e 32 Hf eq_refl He), (get_field fs _ 4 em TAG_LEN Hf eq_refl Hem),
    (get_field fs _ 5 m1 16 Hf eq_refl Hm1), (get_field fs _ 6 m2 16 Hf eq_refl Hm2). done.
Qed.

Lemma read_cookie_reply_fields t a b c r n k :
  length <$> [[t; a; b; c]; r; n; k] = cookie_layout ->
  read_cookie_reply (concat [[t; a; b; c]; r; n; k]) =
    Some (mkCookieReply (mkPrefix t [a; b; c]) (le_value r) n k).
Proof.
  set (fs := [[t; a; b; c]; r; n; k]). intros H. unfold read_cookie_reply.
  assert (Hl : length (concat fs) = COOKIE_REPLY_LEN).
  { rewrite length_concat. unfold COOKIE_REPLY_LEN, size_of. by rewrite <- H. }
  rewrite Hl, Nat.eqb_refl. cbn [negb].
  unfold cookie_RECEIVER, cookie_NONCE, cookie_COOKIE.
  pose proof H as Hf. injection H as Hr Hn Hk.
  rewrite (get_field fs _ 1 r 4 Hf eq_refl Hr). cbn [mbind option_bind]. rewrite read_u32_le_4 by done.
  by rewrite (get_field fs _ 2 n XNONCE_LEN Hf eq_refl Hn), (get_field fs _ 3 k (16 + TAG_LEN) Hf eq_refl Hk).
Qed.

Lemma le_value_4 (z : Z) : is_u32 z -> le_value (le_bytes 4 z) = z.
Proof. intros H. rewrite le_value_bytes. apply Z.mod_small. unfold is_u32, u32_max in H. lia. Qed.

Lemma le_value_4_u32 f : Forall is_u8 f -> length f = 4 -> is_u32 (le_value f).
Proof. intros H Hl. pose proof (le_value_bound f H) as Hb. rewrite Hl in Hb. unfold is_u32, u32_max. lia. Qed.

Lemma concat_bytes4 f : Forall is_u8 f -> length f = 4 -> le_bytes 4 (le_value f) = f.
Proof. intros H <-. by apply le_bytes_value. Qed.

Lemma Forall_concat_inv {A} (P : A -> Prop) (fs : list (list A)) : Forall P (concat fs) -> Forall (Forall P) fs.
Proof. induction fs; cbn; [constructor|]. rewrite Forall_app. constructor; naive_solver. Qed.

(** The fields of a datagram classified as a fixed-length message. *)
Lemma classify_fields buf layout :
  Forall is_u8 buf -> length buf = sum_list layout ->
  exists fs, buf = concat fs /\ length <$> fs = layout /\ Forall (Forall is_u8) fs.
Proof.
  intros Hb Hl. exists (split_layout layout buf).
  rewrite concat_split_layout, lengths_split_layout by done. split; [done|]. split; [done|].
  apply Forall_concat_inv. by rewrite concat_split_layout.
Qed.

Lemma fixed_initiation : fixed_codec initiation_wf initiation_bytes read_initiation Initiation.
Proof.
  split.
  - intros [p s e st ts m1 m2] (Hp & Hs & He & Hst & Hts & Hm1 & Hm2). cbn [hi_prefix hi_sender hi_ephemeral hi_encrypted_static hi_encrypted_timestamp hi_mac1 hi_mac2] in *. subst p.
    assert (E : initiation_bytes (mkInitiation (std_prefix MSG_INITIATION) s e st ts m1 m2) =
      concat [[1; 0; 0; 0]%Z; le_bytes 4 s; e; st; ts; m1; m2]).
    { cbn [concat]. by rewrite app_nil_r. }
    rewrite E. rewrite read_initiation_fields.
    + rewrite le_value_4 by done. split; [done|]. rewrite <- E. unfold initiation_bytes.
      cbn [hi_prefix]. rewrite classify_prefix, !length_app. cbn -[Nat.eqb].
      by rewrite He, Hst, Hts, Hm1, Hm2.
    + cbn. rewrite He, Hst, Hts, Hm1, Hm2. done.
  - intros buf Hb Hc. apply classify_inv in Hc as (t & rest & -> & -> & Hl).
    destruct (classify_fields _ initiation_layout Hb Hl) as (fs & E & Hf & Hu).
    destruct fs as [|p [|s [|e [|st [|ts [|m1 [|m2 [|]]]]]]]]; try done.
    pose proof Hf as [= Hp Hs He Hst Hts Hm1 Hm2].
    destruct p as [|? [|? [|? [|? [|]]]]]; try done. injection E as <- <- <- <- E.
    repeat (apply Forall_cons in Hu as [? Hu]).
    exists (mkInitiation (std_prefix MSG_INITIATION) (le_value s) e st ts m1 m2).
    split; [|split].
    + repeat split; try done; by apply le_value_4_u32.
    + rewrite E. by apply (read_initiation_fields MSG_INITIATION 0 0 0).
    + unfold initiation_bytes. cbn [hi_sender hi_prefix hi_ephemeral]. rewrite concat_bytes4 by done.
      rewrite E. cbn. by rewrite app_nil_r.
Qed.

Lemma fixed_response : fixed_codec response_wf response_bytes read_response Response.
Proof.
  split.
  - intros [p s r e em m1 m2] (Hp & Hs & Hr & He & Hem & Hm1 & Hm2). cbn [hr_prefix hr_sender hr_receiver hr_ephemeral hr_encrypted_empty hr_mac1 hr_mac2] in *. subst p.
    assert (E : response_bytes (mkResponse (std_prefix MSG_RESPONSE) s r e em m1 m2) =
      concat [[2; 0; 0; 0]%Z; le_bytes 4 s; le_bytes 4 r; e; em; m1; m2]).
    { cbn [concat]. by rewrite app_nil_r. }
    rewrite E. rewrite read_response_fields.
    + rewrite !le_value_4 by done. split; [done|]. rewrite <- E. unfold response_bytes.
      cbn [hr_prefix]. rewrite classify_prefix, !length_app. cbn -[Nat.eqb].
      by rewrite He, Hem, Hm1, Hm2.
    + cbn. rewrite He, Hem, Hm1, Hm2. done.
  - intros buf Hb Hc. apply classify_inv in Hc as (t & rest & -> & -> & Hl).
    destruct (classify_fields _ response_layout Hb Hl) as (fs & E & Hf & Hu).
    destruct fs as [|p [|s [|r [|e [|em [|m1 [|m2 [|]]]]]]]]; try done.
    pose proof Hf as [= Hp Hs Hr He Hem Hm1 Hm2].
    destruct p as [|? [|? [|? [|? [|]]]]]; try done. injection E as <- <- <- <- E.
    repeat (apply Forall_cons in Hu as [? Hu]).
    exists (mkResponse (std_prefix MSG_RESPONSE) (le_value s) (le_value r) e em m1 m2).
    split; [|split].
    + repeat split; try done; by apply le_value_4_u32.
    + rewrite E. by apply (read_response_fields MSG_RESPONSE 0 0 0).
    + unfold response_bytes. cbn [hr_sender hr_receiver hr_prefix hr_ephemeral].
      rewrite !concat_bytes4 by done. rewrite E. cbn. by rewrite app_nil_r.
Qed.

Lemma fixed_cookie_reply : fixed_codec cookie_reply_wf cookie_reply_bytes read_cookie_reply CookieReplyMsg.
Proof.
  split.
  - intros [p r n k] (Hp & Hr & Hn & Hk). cbn [cr_prefix cr_receiver cr_nonce cr_encrypted_cookie] in *. subst p.
    assert (E : cookie_reply_bytes (mkCookieReply (std_prefix MSG_COOKIE_REPLY) r n k) =
      concat [[3; 0; 0; 0]%Z; le_bytes 4 r; n; k]).
    { cbn [concat]. by rewrite app_nil_r. }
    rewrite E. rewrite read_cookie_reply_fields.
    + rewrite le_value_4 by done. split; [done|]. rewrite <- E. unfold cookie_reply_bytes.
      cbn [cr_prefix]. rewrite classify_prefix, !length_app. cbn -[Nat.eqb]. by rewrite Hn, Hk.
    + cbn. rewrite Hn, Hk. done.
  - intros buf Hb Hc. apply classify_inv in Hc as (t & rest & -> & -> & Hl).
    destruct (classify_fields _ cookie_layout Hb Hl) as (fs & E & Hf & Hu).
    destruct fs as [|p [|r [|n [|k [|]]]]]; try done.
    pose proof Hf as [= Hp Hr Hn Hk].
    destruct p as [|? [|? [|? [|? [|]]]]]; try done. injection E as <- <- <- <- E.
    repeat (apply Forall_cons in Hu as [? Hu]).
    exists (mkCookieReply (std_prefix MSG_COOKIE_REPLY) (le_value r) n k).
    split; [|split].
    + repeat split; try done; by apply le_value_4_u32.
    + rewrite E. by apply (read_cookie_reply_fields MSG_COOKIE_REPLY 0 0 0).
    + unfold cookie_reply_bytes. cbn [cr_receiver cr_prefix cr_nonce].
      rewrite concat_bytes4 by done. rewrite E. cbn. by rewrite app_nil_r.
Qed.

(** ** Theorems *)

(** the wire layouts are exact: for each fixed handshake message the byte
    ranges read back every field, its bytes classify as that message, and every
    datagram the classifier accepts as that message is the bytes of exactly one
    well-formed struct (148, 92 and 64 bytes, zero reserved bytes). *)
Theorem handshake_messages_codec :
  fixed_codec initiation_wf initiation_bytes read_initiation Initiation /\
  fixed_codec response_wf response_bytes read_response Response /\
  fixed_codec cookie_reply_wf cookie_reply_bytes read_cookie_reply CookieReplyMsg.
Proof. auto using fixed_initiation, fixed_response, fixed_cookie_reply. Qed.
