(* ===== verification/Effect.v ===== *)
(** * The state-and-error effect of the engine's methods

    A method [fn f(&mut self, ..) -> Result<A, Error>] is an [Eff S A]: a function
    of the state that returns the result and the state reached, also when it
    fails, since [?] leaves every earlier mutation in place. *)

From S2P Require Import Prelude Messages.

Definition Eff (S A : Type) : Type := S -> Result A * S.

#[export] Instance eff_ret {S} : MRet (Eff S) := fun A a s => (Ok a, s).
#[export] Instance eff_bind {S} : MBind (Eff S) := fun A B k m s =>
  match m s with
  | (Ok a, s') => k a s'
  | (Failed e, s') => (Failed e, s')
  end.

Definition throw {S A} (e : Err) : Eff S A := fun s => (Failed e, s).
(** Reads from the state. *)
Definition gets {S A} (f : S -> A) : Eff S A := fun s => (Ok (f s), s).
(** Writes the state. *)
Definition modify {S} (f : S -> S) : Eff S unit := fun s => (Ok tt, f s).
(** A fallible computation that touches no state. *)
Definition lift {S A} (r : Result A) : Eff S A := fun s => (r, s).
(** Reads an optional part of the state, failing with [e] without it. *)
Definition demand {S A} (f : S -> option A) (e : Err) : Eff S A := fun s => (ok_or (f s) e, s).
(** [if cond { return Err(e) }] *)
Definition guard {S} (cond : S -> bool) (e : Err) : Eff S unit :=
  fun s => (if cond s then Failed e else Ok tt, s).
(** [let _ = m;] and [if let Err(error) = m { error!(..) }]: the result is dropped,
    the effect stays. *)
Definition ignore {S A} (m : Eff S A) : Eff S unit := fun s => (Ok tt, snd (m s)).
(** [match m { Ok(..) => .., Err(..) => .. }]: the outcome as a value. *)
Definition attempt {S A} (m : Eff S A) : Eff S (Result A) := fun s => let '(r, s') := m s in (Ok r, s').
(** Runs an effect on a component of a larger state. *)
Definition zoom {S T A} (get : S -> T) (set : S -> T -> S) (m : Eff T A) : Eff S A :=
  fun s => let '(r, t) := m (get s) in (r, set s t).

(** The result and state of a run that succeeded. *)
Definition run_ok {S A} (m : Eff S A) (s : S) (a : A) (s' : S) : Prop := m s = (Ok a, s').

(** ** Equations *)

Lemma bind_run {S A B} (m : Eff S A) (k : A -> Eff S B) s :
  (m ≫= k) s = match m s with (Ok a, s') => k a s' | (Failed e, s') => (Failed e, s') end.
Proof. done. Qed.

Lemma bind_ret {S A B} (a : A) (k : A -> Eff S B) s : (mret a ≫= k) s = k a s.
Proof. done. Qed.
Lemma bind_assoc {S A B C} (m : Eff S A) (h : A -> Eff S B) (k : B -> Eff S C) s :
  ((m ≫= h) ≫= k) s = (m ≫= (fun a => h a ≫= k)) s.
Proof. rewrite !bind_run. by destruct (m s) as [[]]. Qed.
Lemma bind_gets {S A B} (f : S -> A) (k : A -> Eff S B) s : (gets f ≫= k) s = k (f s) s.
Proof. done. Qed.
Lemma bind_modify {S B} (f : S -> S) (k : unit -> Eff S B) s : (modify f ≫= k) s = k tt (f s).
Proof. done. Qed.
Lemma bind_demand {S A B} (f : S -> option A) e (k : A -> Eff S B) s :
  (demand f e ≫= k) s = match f s with Some a => k a s | None => (Failed e, s) end.
Proof. rewrite bind_run. unfold demand. by destruct (f s). Qed.
Lemma bind_guard {S B} (c : S -> bool) e (k : unit -> Eff S B) s :
  (guard c e ≫= k) s = if c s then (Failed e, s) else k tt s.
Proof. rewrite bind_run. unfold guard. by destruct (c s). Qed.
Lemma bind_lift {S A B} (r : Result A) (k : A -> Eff S B) s :
  (lift r ≫= k) s = match r with Ok a => k a s | Failed e => (Failed e, s) end.
Proof. done. Qed.
Lemma bind_ignore {S A B} (m : Eff S A) (k : unit -> Eff S B) s : (ignore m ≫= k) s = k tt (snd (m s)).
Proof. done. Qed.
Lemma bind_attempt {S A B} (m : Eff S A) (k : Result A -> Eff S B) s :
  (attempt m ≫= k) s = k (fst (m s)) (snd (m s)).
Proof. rewrite bind_run. unfold attempt. by destruct (m s). Qed.
Lemma bind_throw {S A B} e (k : A -> Eff S B) s : (throw e ≫= k) s = (Failed e, s).
Proof. done. Qed.

Create Rewrite HintDb eff.
#[export] Hint Rewrite @bind_ret @bind_assoc @bind_gets @bind_modify @bind_demand @bind_guard
  @bind_lift @bind_ignore @bind_attempt @bind_throw : eff.

(** Runs the leading steps of the goal's effect. *)
Ltac eff := repeat (autorewrite with eff; cbn beta).

Lemma bind_ok {S A B} (m : Eff S A) (k : A -> Eff S B) s a s' :
  m s = (Ok a, s') -> (m ≫= k) s = k a s'.
Proof. by rewrite bind_run; intros ->. Qed.

Lemma bind_failed {S A B} (m : Eff S A) (k : A -> Eff S B) s e s' :
  m s = (Failed e, s') -> (m ≫= k) s = (Failed e, s').
Proof. by rewrite bind_run; intros ->. Qed.

(** Inverts a run that ended in success. *)
Lemma bind_inv_ok {S A B} (m : Eff S A) (k : A -> Eff S B) s b s' :
  (m ≫= k) s = (Ok b, s') -> exists a s1, m s = (Ok a, s1) /\ k a s1 = (Ok b, s').
Proof. rewrite bind_run. destruct (m s) as [[a|e] s1]; naive_solver. Qed.

(** A property that every step keeps is kept by a sequence. *)
Definition keeps {S A} (P : S -> Prop) (m : Eff S A) : Prop := forall s, P s -> P (snd (m s)).

Lemma keeps_bind {S A B} (P : S -> Prop) (m : Eff S A) (k : A -> Eff S B) :
  keeps P m -> (forall a, keeps P (k a)) -> keeps P (m ≫= k).
Proof.
  intros Hm Hk s Hs. rewrite bind_run. specialize (Hm s Hs).
  destruct (m s) as [[a|e] s']; [by apply Hk|done].
Qed.

Lemma keeps_pure {S A} (P : S -> Prop) (f : S -> Result A) : keeps P (fun s => (f s, s)).
Proof. by intros s. Qed.

Lemma keeps_ignore {S A} (P : S -> Prop) (m : Eff S A) : keeps P m -> keeps P (ignore m).
Proof. intros Hm s Hs. by apply Hm. Qed.

Lemma mret_keeps {S A} (P : S -> Prop) (a : A) : keeps P (mret a).
Proof. by intros c. Qed.
Lemma throw_keeps {S A} (P : S -> Prop) e : keeps P (@throw S A e).
Proof. by intros c. Qed.
Lemma lift_keeps {S A} (P : S -> Prop) (r : Result A) : keeps P (lift r).
Proof. by intros c. Qed.
Lemma gets_keeps {S A} (P : S -> Prop) (f : S -> A) : keeps P (gets f).
Proof. by intros c. Qed.
Lemma demand_keeps {S A} (P : S -> Prop) (f : S -> option A) e : keeps P (demand f e).
Proof. by intros c. Qed.
Lemma guard_keeps {S} (P : S -> Prop) (f : S -> bool) e : keeps P (guard f e).
Proof. by intros c. Qed.

#[export] Hint Resolve mret_keeps throw_keeps lift_keeps gets_keeps demand_keeps guard_keeps : mt.
#[export] Hint Resolve keeps_bind keeps_pure keeps_ignore : mt.
