(* ===== verification/PrefixTrie.v ===== *)
(** * Runs of address bits ([bit], [common_len], [shl], [shr], [mask] and [key] of
    [microtun-core/src/prefix_trie.rs])

    An edge of the trie is a [u128] whose leading bits count; here it is also the list
    of those bits, and every operator is characterised on lists. *)

From S2P Require Import Prelude Ip Cidr.
Local Open Scope nat_scope.

Definition u128_max : Z := 2 ^ 128 - 1.

(** ** The operators *)

(** [((bits >> (127 - i)) & 1) as usize], as the branch it selects. *)
Definition bit (bits : Z) (i : nat) : bool := Z.testbit bits (127 - Z.of_nat i).

Definition leading_zeros (x : Z) : nat := if (x =? 0)%Z then 128 else 127 - Z.to_nat (Z.log2 x).
Definition common_len (a b : Z) (max : nat) : nat := Nat.min (leading_zeros (Z.lxor a b)) max.

Definition shl (bits : Z) (n : nat) : Z := if 128 <=? n then 0%Z else Z.land (Z.shiftl bits (Z.of_nat n)) u128_max.
Definition shr (bits : Z) (n : nat) : Z := if 128 <=? n then 0%Z else Z.shiftr bits (Z.of_nat n).
Definition mask (bits : Z) (len : nat) : Z :=
  match len with
  | O => 0%Z
  | S _ => if 128 <=? len then bits else Z.land bits (Z.land (Z.shiftl u128_max (128 - Z.of_nat len)) u128_max)
  end.

Definition V4_ROOT : nat := 0.
Definition V6_ROOT : nat := 1.

(** The octets of an address hold its value up to its width. *)
Definition key (addr : IpAddr) : Z * nat * nat :=
  match addr with
  | V4 a => (Z.shiftl (Z.land a u32_max) 96, 32, V4_ROOT)
  | V6 a => (Z.land a u128_max, 128, V6_ROOT)
  end.

(** ** Lists of bits *)

(** The bits of a [u128], the first one first. *)
Definition run (z : Z) : list bool := bits_msb 128 z.

Definition is_u128 (z : Z) : Prop := (0 <= z <= u128_max)%Z.

Lemma run_length z : length (run z) = 128.
Proof. unfold run, bits_msb. by rewrite length_fmap, length_seq. Qed.

Lemma run_lookup z i : i < 128 -> run z !! i = Some (bit z i).
Proof.
  intros Hi. unfold run, bits_msb, bit. rewrite list_lookup_fmap, lookup_seq_lt by lia. cbn. do 2 f_equal. lia.
Qed.

Lemma run_ext z l : length l = 128 -> (forall i, i < 128 -> l !! i = Some (bit z i)) -> run z = l.
Proof.
  intros Hl H. apply list_eq. intros i. destruct (decide (i < 128)) as [Hi|Hi].
  - by rewrite run_lookup, H.
  - rewrite !lookup_ge_None_2; [done|lia|]. rewrite run_length. lia.
Qed.

Lemma u128_testbit_high z n : is_u128 z -> (128 <= n)%Z -> Z.testbit z n = false.
Proof.
  intros [H0 H1] Hn. destruct (Z.eq_dec z 0) as [->|]; [apply Z.bits_0|].
  apply Z.bits_above_log2; [done|]. apply Z.log2_lt_pow2; [lia|].
  eapply Z.lt_le_trans; [|apply (Z.pow_le_mono_r 2 128 n); lia]. unfold u128_max in H1. lia.
Qed.

Lemma u128_ext a b : is_u128 a -> is_u128 b -> run a = run b -> a = b.
Proof. intros Ha Hb. apply CidrModel.bits_msb_inj; unfold is_u128, u128_max in *; cbn; lia. Qed.

Lemma land_u128 z n : (0 <= n)%Z -> Z.testbit (Z.land z u128_max) n = Z.testbit z n && (n <? 128)%Z.
Proof.
  intros Hn. rewrite Z.land_spec. f_equal. unfold u128_max. change (2 ^ 128 - 1)%Z with (Z.ones 128).
  destruct (Z.ltb_spec n 128); [apply Z.ones_spec_low|apply Z.ones_spec_high]; lia.
Qed.

Lemma land_u128_range z : is_u128 (Z.land z u128_max).
Proof.
  unfold is_u128, u128_max. change (2 ^ 128 - 1)%Z with (Z.ones 128). rewrite Z.land_ones by lia. rewrite Z.ones_equiv.
  pose proof (Z.mod_pos_bound z (2 ^ 128)). lia.
Qed.

Lemma shl_range z n : is_u128 (shl z n).
Proof. unfold shl. destruct (_ <=? _); [by unfold is_u128, u128_max|apply land_u128_range]. Qed.

Lemma shr_range z n : is_u128 z -> is_u128 (shr z n).
Proof.
  intros [H0 H1]. unfold shr. destruct (_ <=? _); [by unfold is_u128, u128_max|]. split.
  - by apply Z.shiftr_nonneg.
  - rewrite Z.shiftr_div_pow2 by lia. etrans; [|exact H1]. apply Z.div_le_upper_bound; [lia|].
    assert (1 <= 2 ^ Z.of_nat n)%Z by (apply (Z.pow_le_mono_r 2 0); lia). nia.
Qed.

Lemma lor_range a b : is_u128 a -> is_u128 b -> is_u128 (Z.lor a b).
Proof.
  intros Ha Hb. split; [apply Z.lor_nonneg; split; [apply Ha|apply Hb]|].
  assert (E : Z.lor a b = Z.land (Z.lor a b) u128_max); [|rewrite E; apply land_u128_range].
  apply Z.bits_inj'. intros n Hn. rewrite land_u128 by done. destruct (Z.ltb_spec n 128); [by rewrite andb_true_r|].
  rewrite andb_false_r, Z.lor_spec, !u128_testbit_high by done. done.
Qed.

Lemma mask_range z n : is_u128 z -> is_u128 (mask z n).
Proof.
  intros Hz. destruct n as [|n]; cbn [mask]; [by unfold is_u128, u128_max|]. destruct (_ <=? _); [done|].
  rewrite Z.land_assoc. apply land_u128_range.
Qed.

(** Dropping the first [n] bits. *)
Lemma run_shl z n : run (shl z n) = drop n (run z) ++ replicate (Nat.min n 128) false.
Proof.
  apply run_ext; [rewrite length_app, length_drop, run_length, length_replicate; lia|]. intros i Hi. unfold shl.
  destruct (Nat.leb_spec 128 n) as [Hn|Hn].
  - rewrite drop_ge by (rewrite run_length; lia). cbn [app]. rewrite lookup_replicate_2 by lia. unfold bit. by rewrite Z.bits_0.
  - unfold bit. rewrite land_u128, Z.shiftl_spec by lia.
    replace (127 - Z.of_nat i <? 128)%Z with true by (symmetry; apply Z.ltb_lt; lia). rewrite andb_true_r.
    destruct (decide (i < 128 - n)) as [Hl|Hl].
    + rewrite lookup_app_l by (rewrite length_drop, run_length; lia). rewrite lookup_drop, run_lookup by lia. unfold bit. do 2 f_equal. lia.
    + rewrite lookup_app_r by (rewrite length_drop, run_length; lia). rewrite length_drop, run_length, lookup_replicate_2 by lia.
      f_equal. symmetry. apply Z.testbit_neg_r. lia.
Qed.

(** Putting [n] zeros in front. *)
Lemma run_shr z n : is_u128 z -> run (shr z n) = replicate (Nat.min n 128) false ++ take (128 - n) (run z).
Proof.
  intros Hz. apply run_ext; [rewrite length_app, length_take, run_length, length_replicate; lia|]. intros i Hi. unfold shr.
  destruct (Nat.leb_spec 128 n) as [Hn|Hn].
  - rewrite lookup_app_l by (rewrite length_replicate; lia). rewrite lookup_replicate_2 by lia. unfold bit. by rewrite Z.bits_0.
  - unfold bit. rewrite Z.shiftr_spec by lia. destruct (decide (i < n)) as [Hl|Hl].
    + rewrite lookup_app_l by (rewrite length_replicate; lia). rewrite lookup_replicate_2 by lia. f_equal. symmetry.
      apply u128_testbit_high; [done|lia].
    + rewrite lookup_app_r by (rewrite length_replicate; lia). rewrite length_replicate, lookup_take_lt, run_lookup by lia. unfold bit. do 2 f_equal. lia.
Qed.

(** Keeping the first [n] bits. *)
Lemma run_mask z n : run (mask z n) = take n (run z) ++ replicate (128 - n) false.
Proof.
  apply run_ext; [rewrite length_app, length_take, run_length, length_replicate; lia|]. intros i Hi.
  destruct n as [|n]; [rewrite take_0; cbn [app mask]; rewrite lookup_replicate_2 by lia; unfold bit; by rewrite Z.bits_0|].
  cbn [mask]. destruct (Nat.leb_spec 128 (S n)) as [Hn|Hn].
  - rewrite lookup_app_l by (rewrite length_take, run_length; lia). by rewrite lookup_take_lt, run_lookup by lia.
  - unfold bit. rewrite Z.land_spec, land_u128, Z.shiftl_spec by lia.
    replace (127 - Z.of_nat i <? 128)%Z with true by (symmetry; apply Z.ltb_lt; lia). rewrite andb_true_r.
    destruct (decide (i < S n)) as [Hl|Hl].
    + rewrite lookup_app_l by (rewrite length_take, run_length; lia). rewrite lookup_take_lt, run_lookup by lia. unfold bit.
      f_equal. unfold u128_max. change (2 ^ 128 - 1)%Z with (Z.ones 128). rewrite Z.ones_spec_low by lia. by rewrite andb_true_r.
    + rewrite lookup_app_r by (rewrite length_take, run_length; lia). rewrite length_take, run_length, lookup_replicate_2 by lia.
      f_equal. symmetry. rewrite (Z.testbit_neg_r u128_max) by lia. apply andb_false_r.
Qed.

(** The joined run of an edge of [n] bits and the one below it. *)
Lemma run_join a b n :
  n <= 128 -> is_u128 b -> drop n (run a) = replicate (128 - n) false ->
  run (Z.lor a (shr b n)) = take n (run a) ++ take (128 - n) (run b).
Proof.
  intros Hn Hb Hz. apply run_ext; [rewrite length_app, !length_take, !run_length; lia|]. intros i Hi.
  unfold bit. rewrite Z.lor_spec. fold (bit a i). fold (bit (shr b n) i).
  assert (Hs : run (shr b n) !! i = Some (bit (shr b n) i)) by by apply run_lookup.
  rewrite run_shr in Hs by done. destruct (decide (i < n)) as [Hl|Hl].
  - rewrite lookup_app_l in Hs by (rewrite length_replicate; lia). rewrite lookup_replicate_2 in Hs by lia. injection Hs as <-.
    rewrite orb_false_r, lookup_app_l by (rewrite length_take, run_length; lia). by rewrite lookup_take_lt, run_lookup by lia.
  - rewrite lookup_app_r in Hs by (rewrite length_replicate; lia). rewrite length_replicate in Hs.
    assert (Ha : drop n (run a) !! (i - n) = Some (bit a i)).
    { rewrite lookup_drop. replace (n + (i - n)) with i by lia. by apply run_lookup. }
    rewrite Hz, lookup_replicate_2 in Ha by lia. injection Ha as <-. cbn [orb].
    rewrite lookup_app_r by (rewrite length_take, run_length; lia). rewrite length_take, run_length.
    replace (Nat.min n 128) with n in * by lia. done.
Qed.

Lemma leading_zeros_spec x :
  is_u128 x -> leading_zeros x <= 128 /\ (forall i, i < leading_zeros x -> bit x i = false) /\
  (leading_zeros x < 128 -> bit x (leading_zeros x) = true).
Proof.
  intros Hx. unfold leading_zeros. destruct (Z.eqb_spec x 0) as [->|Hne].
  - split; [done|]. split; [|lia]. intros i _. unfold bit. apply Z.bits_0.
  - destruct Hx as [H0 H1]. assert (Hl : (0 <= Z.log2 x <= 127)%Z).
    { split; [apply Z.log2_nonneg|]. assert (Z.log2 x < 128)%Z; [|lia]. apply Z.log2_lt_pow2; [lia|]. unfold u128_max in H1. lia. }
    split; [lia|]. split.
    + intros i Hi. unfold bit. apply Z.bits_above_log2; lia.
    + intros _. unfold bit. replace (127 - _)%Z with (Z.log2 x) by lia. apply Z.bit_log2. lia.
Qed.

Lemma lxor_range a b : is_u128 a -> is_u128 b -> is_u128 (Z.lxor a b).
Proof.
  intros Ha Hb. assert (E : Z.lxor a b = Z.land (Z.lxor a b) u128_max); [|rewrite E; apply land_u128_range].
  apply Z.bits_inj'. intros n Hn. rewrite land_u128 by done. destruct (Z.ltb_spec n 128); [by rewrite andb_true_r|].
  rewrite andb_false_r, Z.lxor_spec, !u128_testbit_high by done. done.
Qed.

Lemma bit_lxor a b i : bit (Z.lxor a b) i = xorb (bit a i) (bit b i).
Proof. apply Z.lxor_spec. Qed.

Lemma common_len_spec a b m :
  is_u128 a -> is_u128 b -> m <= 128 ->
  common_len a b m <= m /\ take (common_len a b m) (run a) = take (common_len a b m) (run b) /\
  (common_len a b m < m -> bit a (common_len a b m) <> bit b (common_len a b m)).
Proof.
  intros Ha Hb Hm. destruct (leading_zeros_spec _ (lxor_range a b Ha Hb)) as (H1 & H2 & H3). unfold common_len.
  split; [lia|]. split.
  - apply list_eq. intros i. destruct (decide (i < Nat.min (leading_zeros (Z.lxor a b)) m)) as [Hi|Hi].
    + rewrite !lookup_take_lt, !run_lookup by lia. f_equal. specialize (H2 i ltac:(lia)). rewrite bit_lxor in H2. by apply xorb_eq.
    + rewrite !lookup_take_ge by lia. done.
  - intros Hlt. rewrite Nat.min_l in * by lia. specialize (H3 ltac:(lia)). rewrite bit_lxor in H3. intros E. rewrite E, xorb_nilpotent in H3. done.
Qed.

(** The run of an address. *)
Lemma key_spec ip :
  let '(k, w, root) := key ip in
  is_u128 k /\ w = addr_width ip /\ root = Nat.b2n (is_ipv6 ip) /\ take w (run k) = addr_bits ip.
Proof.
  destruct ip as [a|a]; cbn [key is_ipv6 addr_width Nat.b2n].
  - assert (Hk : is_u128 (Z.shiftl (Z.land a u32_max) 96)).
    { unfold u32_max. change 4294967295%Z with (Z.ones 32). rewrite Z.land_ones, Z.shiftl_mul_pow2 by lia.
      pose proof (Z.mod_pos_bound a (2 ^ 32)). unfold is_u128, u128_max. lia. }
    split; [done|]. split_and!; [done|done|]. apply list_eq. intros i. destruct (decide (i < 32)) as [Hi|Hi].
    + rewrite lookup_take_lt, run_lookup by lia. unfold addr_bits, bits_msb. cbn [addr_width addr_value].
      rewrite list_lookup_fmap, lookup_seq_lt by lia. cbn [fmap option_fmap option_map]. unfold bit. f_equal.
      rewrite Z.shiftl_spec, Z.land_spec by lia. unfold u32_max. change 4294967295%Z with (Z.ones 32).
      rewrite Z.ones_spec_low by lia. rewrite andb_true_r. f_equal. lia.
    + rewrite lookup_take_ge by lia. symmetry. apply lookup_ge_None_2. rewrite addr_bits_length. cbn. lia.
  - split; [apply land_u128_range|]. split_and!; [done|done|]. rewrite take_ge by (rewrite run_length; lia).
    apply run_ext; [apply addr_bits_length|]. intros i Hi. unfold addr_bits, bits_msb, bit. cbn [addr_width addr_value].
    rewrite list_lookup_fmap, lookup_seq_lt by lia. cbn [fmap option_fmap option_map]. f_equal. rewrite land_u128 by lia.
    replace (127 - Z.of_nat i <? 128)%Z with true by (symmetry; apply Z.ltb_lt; lia). rewrite andb_true_r. f_equal. lia.
Qed.

(** * The node pool of the prefix trie ([Node], [NodePair] and [NodePool] of
    [microtun-core/src/prefix_trie.rs], allocation-free backend)

    The two roots are always there; every other node lives in a two-node bucket with a
    mask of live slots. [pool_is] views the pool as a finite map of live nodes. *)

Local Open Scope nat_scope.

Section Pool.
Context {V : Type}.

Record Node := mkNode {
  nd_bits : Z;
  nd_len : nat;
  nd_zero : option nat;     (* [children\[0\]] *)
  nd_one : option nat;      (* [children\[1\]] *)
  nd_value : option V;
}.

Definition node_new (bits : Z) (len : nat) : Node := mkNode (mask bits len) len None None None.

Definition child (n : Node) (branch : bool) : option nat := if branch then nd_one n else nd_zero n.
Definition set_child (branch : bool) (c : option nat) (n : Node) : Node :=
  if branch then mkNode (nd_bits n) (nd_len n) (nd_zero n) c (nd_value n)
  else mkNode (nd_bits n) (nd_len n) c (nd_one n) (nd_value n).
Definition set_value (v : option V) (n : Node) : Node := mkNode (nd_bits n) (nd_len n) (nd_zero n) (nd_one n) v.
Definition set_edge (bits : Z) (len : nat) (n : Node) : Node := mkNode bits len (nd_zero n) (nd_one n) (nd_value n).

(** ** Buckets *)

Record NodePair := mkNodePair { pr_nodes : list Node; occupied : Z }.

Definition slot_free (p : NodePair) (slot : nat) : bool := (Z.land (occupied p) (Z.shiftl 1 (Z.of_nat slot)) =? 0)%Z.

Definition pair_empty : NodePair := mkNodePair [node_new 0 0; node_new 0 0] 0.
Definition pair_get (p : NodePair) (slot : nat) : option Node := if slot_free p slot then None else pr_nodes p !! slot.
Definition pair_update (slot : nat) (f : Node -> Node) (p : NodePair) : NodePair :=
  if slot_free p slot then p else mkNodePair (alter f slot (pr_nodes p)) (occupied p).
Definition first_free (p : NodePair) : option nat := position (slot_free p) (seq 0 2).
Definition occupy (slot : nat) (node : Node) (p : NodePair) : NodePair :=
  mkNodePair (<[slot := node]> (pr_nodes p)) (Z.lor (occupied p) (Z.shiftl 1 (Z.of_nat slot))).
Definition pair_release (slot : nat) (p : NodePair) : NodePair :=
  mkNodePair (<[slot := node_new 0 0]> (pr_nodes p)) (Z.land (occupied p) (Z.lxor (Z.shiftl 1 (Z.of_nat slot)) u8_max)).

(** ** The pool *)

Record NodePool := mkNodePool { roots : list Node; pairs : list NodePair; used : nat }.

Context (MAX_PREFIXES : nat).

Definition pool_new : NodePool := mkNodePool [node_new 0 0; node_new 0 0] (replicate MAX_PREFIXES pair_empty) 0.

Definition pool_get (p : NodePool) (id : nat) : option Node :=
  if id <? 2 then roots p !! id else pairs p !! ((id - 2) / 2) ≫= fun pair => pair_get pair ((id - 2) mod 2).

(** Writing through [get_mut]; [None] is the panic of [IndexMut]. *)
Definition pool_update (id : nat) (f : Node -> Node) (p : NodePool) : option NodePool :=
  _ ← pool_get p id;
  Some (if id <? 2 then mkNodePool (alter f id (roots p)) (pairs p) (used p)
        else mkNodePool (roots p) (alter (pair_update ((id - 2) mod 2) f) ((id - 2) / 2) (pairs p)) (used p)).

Definition available (p : NodePool) : nat := MAX_PREFIXES * 2 - used p.

(** [None] when every bucket is full. *)
Definition pool_alloc (node : Node) (p : NodePool) : option (nat * NodePool) :=
  pair_index ← position (fun pair => bool_decide (is_Some (first_free pair))) (pairs p);
  pair ← pairs p !! pair_index;
  slot ← first_free pair;
  Some (2 + pair_index * 2 + slot, mkNodePool (roots p) (<[pair_index := occupy slot node pair]> (pairs p)) (used p + 1)).

(** [None] is a failed assertion. *)
Definition pool_release (id : nat) (p : NodePool) : option NodePool :=
  if id <? 2 then None else
  let offset := id - 2 in
  pair ← pairs p !! (offset / 2);
  if slot_free pair (offset mod 2) then None else
  Some (mkNodePool (roots p) (<[offset / 2 := pair_release (offset mod 2) pair]> (pairs p)) (used p - 1)).

(** ** Buckets as two optional nodes *)

Definition pair_wf (p : NodePair) : Prop := length (pr_nodes p) = 2 /\ (0 <= occupied p <= 3)%Z.

Lemma pair_cases (p : NodePair) : pair_wf p ->
  exists a b, pr_nodes p = [a; b] /\ (occupied p = 0 \/ occupied p = 1 \/ occupied p = 2 \/ occupied p = 3)%Z.
Proof. intros [H1 H2]. destruct (pr_nodes p) as [|a [|b [|]]] eqn:E; try done. exists a, b. split; [done|lia]. Qed.

Ltac pair_tac p H :=
  destruct (pair_cases p H) as (a & b & En & Ho); destruct p as [ns o]; cbn in En; subst ns; cbn in Ho;
  destruct Ho as [->|[->|[->| ->]]].

Lemma pair_empty_wf : pair_wf pair_empty.
Proof. split; cbn; [done|lia]. Qed.

Lemma pair_get_lt p s n : pair_wf p -> pair_get p s = Some n -> s < 2.
Proof. intros [Hl _]. unfold pair_get. destruct (slot_free _ _); [done|]. intros H%lookup_lt_Some. lia. Qed.

Lemma pair_update_spec p s f n :
  pair_wf p -> pair_get p s = Some n ->
  pair_wf (pair_update s f p) /\ forall j, pair_get (pair_update s f p) j = if decide (j = s) then Some (f n) else pair_get p j.
Proof.
  intros Hp Hn. pose proof (pair_get_lt _ _ _ Hp Hn) as Hs. revert Hn.
  pair_tac p Hp; destruct s as [|[|s]]; try lia; cbn; intros [= <-]; (split; [split; [done|vm_compute; split; discriminate]|]);
    intros [|[|j]]; cbn; try done; rewrite ?decide_False by lia; unfold pair_get; cbn; try done; by repeat case_match.
Qed.

Lemma first_free_spec p s : first_free p = Some s -> s < 2 /\ slot_free p s = true.
Proof.
  intros H. apply position_Some in H as (x & Hx & Hf & _). apply lookup_seq in Hx as [-> Hx]. by split.
Qed.

Lemma occupy_spec p s node :
  pair_wf p -> first_free p = Some s ->
  pair_wf (occupy s node p) /\ pair_get p s = None /\
  forall j, pair_get (occupy s node p) j = if decide (j = s) then Some node else pair_get p j.
Proof.
  intros Hp H. destruct (first_free_spec _ _ H) as [Hs Hf]. clear H. revert Hf.
  pair_tac p Hp; destruct s as [|[|s]]; try lia; cbn; try done; intros _; (split; [split; [done|vm_compute; split; discriminate]|]); (split; [done|]);
    intros [|[|j]]; cbn; try done; rewrite ?decide_False by lia; unfold pair_get; cbn; try done; by repeat case_match.
Qed.

Lemma pair_release_spec p s n :
  pair_wf p -> pair_get p s = Some n ->
  slot_free p s = false /\ pair_wf (pair_release s p) /\
  forall j, pair_get (pair_release s p) j = if decide (j = s) then None else pair_get p j.
Proof.
  intros Hp Hn. pose proof (pair_get_lt _ _ _ Hp Hn) as Hs. revert Hn.
  pair_tac p Hp; destruct s as [|[|s]]; try lia; cbn; intros [= <-]; (split; [done|]); (split; [split; [done|vm_compute; split; discriminate]|]);
    intros [|[|j]]; cbn; try done; rewrite ?decide_False by lia; unfold pair_get; cbn; try done; by repeat case_match.
Qed.


(** ** The pool as a finite map of live nodes *)

Record pool_wf (p : NodePool) : Prop := {
  pw_roots : length (roots p) = 2;
  pw_pairs : length (pairs p) = MAX_PREFIXES;
  pw_pair i pair : pairs p !! i = Some pair -> pair_wf pair;
}.

Record pool_is (p : NodePool) (h : gmap nat Node) : Prop := {
  ps_wf : pool_wf p;
  ps_get id : pool_get p id = h !! id;
  ps_used : size h = used p + 2;
}.

Definition node_id (pair_index slot : nat) : nat := 2 + pair_index * 2 + slot.

Lemma node_id_split i s : s < 2 -> (node_id i s - 2) / 2 = i /\ (node_id i s - 2) mod 2 = s /\ (node_id i s <? 2) = false.
Proof.
  intros Hs. unfold node_id. replace (2 + i * 2 + s - 2) with (s + i * 2) by lia.
  rewrite Nat.div_add, Nat.Div0.mod_add, Nat.div_small, Nat.mod_small by lia. split_and!; [lia|done|]. apply Nat.ltb_ge. lia.
Qed.

Lemma id_cases id : id < 2 \/ exists i s, s < 2 /\ id = node_id i s.
Proof.
  destruct (decide (id < 2)) as [|Hid]; [by left|right]. exists ((id - 2) / 2), ((id - 2) mod 2). unfold node_id.
  pose proof (Nat.mod_upper_bound (id - 2) 2). pose proof (Nat.div_mod_eq (id - 2) 2). lia.
Qed.

Lemma node_id_inj i j s t : s < 2 -> t < 2 -> node_id i s = node_id j t -> i = j /\ s = t.
Proof. unfold node_id. lia. Qed.

Lemma pool_get_id p i s : s < 2 -> pool_get p (node_id i s) = pairs p !! i ≫= fun pair => pair_get pair s.
Proof. intros Hs. unfold pool_get. by destruct (node_id_split i s Hs) as (-> & -> & ->). Qed.

Lemma pool_get_root p id : id < 2 -> pool_get p id = roots p !! id.
Proof. intros Hid. unfold pool_get. by rewrite (proj2 (Nat.ltb_lt id 2) Hid). Qed.

(** Rewriting one bucket. *)
Lemma pairs_insert_get p i pair pair' s x u :
  pool_wf p -> pairs p !! i = Some pair -> pair_wf pair' -> s < 2 ->
  (forall j, pair_get pair' j = if decide (j = s) then x else pair_get pair j) ->
  let p' := mkNodePool (roots p) (<[i := pair']> (pairs p)) u in
  pool_wf p' /\ forall id, pool_get p' id = if decide (id = node_id i s) then x else pool_get p id.
Proof.
  intros [H1 H2 H3] Hi Hp' Hs Hx p'. assert (Hlt : i < length (pairs p)) by (by eapply lookup_lt_Some). split.
  - split; [done|by unfold p'; cbn; rewrite length_insert|]. intros j q. unfold p'. cbn.
    intros [(<- & <- & _)|[_ Hj]]%list_lookup_insert_Some; [done|by eapply H3].
  - intros id. destruct (id_cases id) as [Hid|(j & t & Ht & ->)].
    + rewrite decide_False by (unfold node_id; lia). rewrite !pool_get_root by done. done.
    + rewrite !pool_get_id by done. unfold p'. cbn [pairs]. destruct (decide (j = i)) as [->|Hne].
      * rewrite list_lookup_insert_eq, Hi by done. cbn. rewrite Hx.
        destruct (decide (t = s)) as [->|]; [by rewrite decide_True|]. rewrite decide_False; [done|].
        intros E. apply node_id_inj in E; tauto.
      * rewrite list_lookup_insert_ne by done. rewrite decide_False; [done|]. intros E. apply node_id_inj in E; tauto.
Qed.

Lemma pool_new_is : pool_is pool_new (<[0 := node_new 0 0]> {[1 := node_new 0 0]}).
Proof.
  split.
  - split; cbn; [done|by rewrite length_replicate|]. intros i pair [-> _]%lookup_replicate. apply pair_empty_wf.
  - intros id. destruct (id_cases id) as [Hid|(i & s & Hs & ->)].
    + rewrite pool_get_root by done. destruct id as [|[|id]]; [done|done|lia].
    + rewrite pool_get_id by done. cbn [pairs pool_new].
      rewrite lookup_insert_ne, lookup_singleton_ne by (unfold node_id; lia).
      destruct (replicate _ _ !! i) as [pair|] eqn:E; [|done]. apply lookup_replicate in E as [-> _]. cbn.
      unfold pair_get. by destruct s as [|[|s]]; [| |lia].
  - cbn. by rewrite map_size_insert_None, map_size_singleton.
Qed.

Lemma pool_update_is p h id f n :
  pool_is p h -> h !! id = Some n ->
  exists p', pool_update id f p = Some p' /\ pool_is p' (<[id := f n]> h) /\ used p' = used p.
Proof.
  intros [Hw Hg Hu] Hn. pose proof (Hg id) as E. rewrite Hn in E. unfold pool_update. rewrite E. cbn [mbind option_bind].
  eexists. split; [done|].
  assert (Hsz : forall m : Node, size (<[id := m]> h) = size h) by (intros m; apply map_size_insert_Some; by rewrite Hn).
  destruct (id_cases id) as [Hid|(i & s & Hs & ->)].
  - rewrite (proj2 (Nat.ltb_lt id 2) Hid). split; [|done]. split.
    + destruct Hw. split; [by cbn; rewrite length_alter|done|done].
    + intros j. destruct (decide (j = id)) as [->|Hne].
      * rewrite pool_get_root by done. cbn. rewrite lookup_insert_eq, list_lookup_alter_eq. rewrite pool_get_root in E by done. by rewrite E.
      * rewrite lookup_insert_ne, <- Hg by congruence. unfold pool_get. cbn [roots pairs]. destruct (j <? 2); [by rewrite list_lookup_alter_ne by congruence|done].
    + cbn. by rewrite Hsz.
  - destruct (node_id_split i s Hs) as (-> & -> & ->). split; [|done].
    rewrite pool_get_id in E by done. destruct (pairs p !! i) as [pair|] eqn:Ei; [|done]. cbn in E.
    destruct (pair_update_spec pair s f n (pw_pair _ Hw _ _ Ei) E) as [Hp' Hx].
    assert (Ea : alter (pair_update s f) i (pairs p) = <[i := pair_update s f pair]> (pairs p)).
    { apply list_eq. intros j. destruct (decide (j = i)) as [->|].
      - rewrite list_lookup_alter_eq, Ei. rewrite list_lookup_insert_eq by by eapply lookup_lt_Some. done.
      - rewrite list_lookup_alter_ne, list_lookup_insert_ne by done. done. }
    rewrite Ea. destruct (pairs_insert_get p i pair _ s _ (used p) Hw Ei Hp' Hs Hx) as [Hw' Hg']. split; [done| |by cbn; rewrite Hsz].
    intros j. rewrite Hg'. destruct (decide (j = node_id i s)) as [->|]; [by rewrite lookup_insert_eq|]. by rewrite lookup_insert_ne, Hg.
Qed.

Lemma pool_full p h : pool_is p h -> Forall (fun pair => is_Some (first_free pair) -> False) (pairs p) -> available p = 0.
Proof.
  intros [Hw Hg Hu] Hf. unfold available. assert (H : 2 + MAX_PREFIXES * 2 <= size h); [|lia].
  assert (Hs : list_to_set (seq 0 (2 + MAX_PREFIXES * 2)) ⊆ dom h).
  { intros id Hid. apply elem_of_list_to_set, elem_of_seq in Hid. apply elem_of_dom. rewrite <- Hg.
    destruct (id_cases id) as [Hlt|(i & s & Hs & ->)].
    - rewrite pool_get_root by done. apply lookup_lt_is_Some_2. by rewrite (pw_roots _ Hw).
    - rewrite pool_get_id by done. assert (Hi : i < length (pairs p)) by (rewrite (pw_pairs _ Hw); unfold node_id in Hid; lia).
      apply lookup_lt_is_Some_2 in Hi as [pair Hi]. rewrite Hi. cbn. rewrite Forall_forall in Hf.
      specialize (Hf pair (list_elem_of_lookup_2 _ _ _ Hi)). destruct (pw_pair _ Hw _ _ Hi) as [Hl _]. unfold pair_get.
      destruct (slot_free pair s) eqn:Es; [|apply lookup_lt_is_Some_2; lia]. destruct Hf. unfold first_free.
      destruct (position (slot_free pair) (seq 0 2)) eqn:Ep; [eauto|]. rewrite position_None, Forall_forall in Ep.
      rewrite (Ep s) in Es; [done|]. apply elem_of_seq. lia. }
  apply subseteq_size in Hs. rewrite size_list_to_set, length_seq in Hs by apply NoDup_seq. by rewrite size_dom in Hs.
Qed.

Lemma pool_alloc_is p h node :
  pool_is p h -> 1 <= available p ->
  exists id p', pool_alloc node p = Some (id, p') /\ h !! id = None /\ 2 <= id /\ pool_is p' (<[id := node]> h) /\
    available p' = available p - 1.
Proof.
  intros Hp Ha. destruct (position (fun pair => bool_decide (is_Some (first_free pair))) (pairs p)) as [i|] eqn:E.
  2: { rewrite position_None in E. assert (available p = 0); [|lia]. apply (pool_full p h Hp). eapply Forall_impl; [exact E|].
       intros pair H. by apply bool_decide_eq_false in H. }
  unfold pool_alloc. rewrite E. apply position_Some in E as (pair & Hi & [s Hs]%bool_decide_eq_true & _).
  cbn [mbind option_bind]. rewrite Hi. cbn [mbind option_bind]. rewrite Hs. cbn [mbind option_bind].
  destruct Hp as [Hw Hg Hu]. destruct (occupy_spec pair s node (pw_pair _ Hw _ _ Hi) Hs) as (Hp' & Hn & Hx).
  destruct (first_free_spec _ _ Hs) as [Hlt _]. change (2 + i * 2 + s) with (node_id i s).
  destruct (pairs_insert_get p i pair _ s _ (used p + 1) Hw Hi Hp' Hlt Hx) as [Hw' Hg'].
  eexists _, _. split; [done|]. assert (Hnone : h !! node_id i s = None) by (rewrite <- Hg, pool_get_id, Hi; done).
  split_and!; [done|unfold node_id; lia| |unfold available; cbn; lia]. split; [done| |].
  - intros j. rewrite Hg'. destruct (decide (j = node_id i s)) as [->|]; [by rewrite lookup_insert_eq|]. by rewrite lookup_insert_ne, Hg.
  - cbn. rewrite map_size_insert_None by done. lia.
Qed.

Lemma pool_release_is p h id n :
  pool_is p h -> h !! id = Some n -> 2 <= id -> exists p', pool_release id p = Some p' /\ pool_is p' (delete id h).
Proof.
  intros [Hw Hg Hu] Hn Hid. pose proof (Hg id) as E. rewrite Hn in E.
  destruct (id_cases id) as [|(i & s & Hs & ->)]; [lia|]. unfold pool_release. destruct (node_id_split i s Hs) as (-> & -> & ->).
  rewrite pool_get_id in E by done. destruct (pairs p !! i) as [pair|] eqn:Ei; [|done]. cbn in E |- *.
  destruct (pair_release_spec pair s n (pw_pair _ Hw _ _ Ei) E) as (-> & Hp' & Hx). eexists. split; [done|].
  destruct (pairs_insert_get p i pair _ s _ (used p - 1) Hw Ei Hp' Hs Hx) as [Hw' Hg']. split; [done| |].
  - intros j. rewrite Hg'. destruct (decide (j = node_id i s)) as [->|]; [by rewrite lookup_delete_eq|]. by rewrite lookup_delete_ne, Hg.
  - cbn. rewrite map_size_delete_Some by eauto.
    assert (0 < size (delete (node_id i s) h) \/ size h = 1) by (rewrite map_size_delete_Some by eauto; lia).
    assert (2 <= size (delete (node_id i s) h)); [|rewrite map_size_delete_Some in * by eauto; lia].
    assert (Hs2 : {[0; 1]} ⊆ dom (delete (node_id i s) h)).
    { intros r Hr. apply elem_of_dom. rewrite lookup_delete_ne by (unfold node_id; set_solver by lia). rewrite <- Hg.
      rewrite pool_get_root by set_solver by lia. apply lookup_lt_is_Some_2. rewrite (pw_roots _ Hw). set_solver by lia. }
    apply subseteq_size in Hs2. rewrite size_dom in Hs2. rewrite size_union in Hs2 by set_solver. by rewrite !size_singleton in Hs2.
Qed.

End Pool.

(** * The path-compressed prefix trie ([microtun-core/src/prefix_trie.rs])

    A node's edge is a run of address bits; a prefix is the concatenation of the edges
    from the root of its family. An operation answers [None] where the code would panic;
    under the invariant none does. *)

Local Open Scope nat_scope.

Section PrefixTrie.
Context {CR : Cidr} {V : Type}.
Notation Node := (@Node V).
Notation NodePool := (@NodePool V).
Context (MAX_PREFIXES : nat).

(** ** Operations *)

Definition pt_new : NodePool := pool_new MAX_PREFIXES.

Definition check_capacity (t : NodePool) (needed : nat) : bool := needed <=? available MAX_PREFIXES t.

(** [alloc], which the callers protect with [check_capacity]. *)
Definition pt_alloc (bits : Z) (len : nat) (t : NodePool) : option (nat * NodePool) := pool_alloc (node_new bits len) t.

Definition edge_match (t : NodePool) (c : nat) (key : Z) (rem : nat) : option nat :=
  n ← pool_get t c;
  if (nd_len n <=? rem) && (common_len key (nd_bits n) (nd_len n) =? nd_len n) then Some (nd_len n) else None.

(** What [insert] answers: [None] is [CapacityError]. *)
Notation Inserted := (option (option V)).

(** Splits the edge into [c] below [node], whose first [shared] bits the key shares. *)
Definition split_edge (node : nat) (branch : bool) (c : nat) (cbits : Z) (clen : nat) (rest : Z) (remaining shared : nat)
    (v : V) (t : NodePool) : option (Inserted * NodePool) :=
  let ends_here := shared =? remaining in
  if negb (check_capacity t (if ends_here then 1 else 2)) then Some (None, t) else
  '(mid, t) ← pt_alloc cbits shared t;
  t ← pool_update c (set_edge (shl cbits shared) (clen - shared)) t;
  cn ← pool_get t c;
  t ← pool_update mid (set_child (bit (nd_bits cn) 0) (Some c)) t;
  t ← pool_update node (set_child branch (Some mid)) t;
  if ends_here then
    t ← pool_update mid (set_value (Some v)) t;
    Some (Some None, t)
  else
    '(leaf, t) ← pt_alloc (shl rest shared) (remaining - shared) t;
    t ← pool_update leaf (set_value (Some v)) t;
    ln ← pool_get t leaf;
    t ← pool_update mid (set_child (bit (nd_bits ln) 0) (Some leaf)) t;
    Some (Some None, t).

(** The loop of [insert]; every round descends by an edge. *)
Fixpoint insert_at (fuel : nat) (key : Z) (klen : nat) (v : V) (node pos : nat) (t : NodePool)
  : option (Inserted * NodePool) :=
  match fuel with
  | O => None
  | S fuel =>
      n ← pool_get t node;
      if pos =? klen then
        t ← pool_update node (set_value (Some v)) t;
        Some (Some (nd_value n), t)
      else
      let branch := bit key pos in
      match child n branch with
      | None =>
          if negb (check_capacity t 1) then Some (None, t) else
          '(leaf, t) ← pt_alloc (shl key pos) (klen - pos) t;
          t ← pool_update leaf (set_value (Some v)) t;
          t ← pool_update node (set_child branch (Some leaf)) t;
          Some (Some None, t)
      | Some c =>
          cn ← pool_get t c;
          let remaining := klen - pos in
          let rest := shl key pos in
          let shared := common_len rest (nd_bits cn) (Nat.min (nd_len cn) remaining) in
          if shared =? nd_len cn then insert_at fuel key klen v c (pos + nd_len cn) t
          else split_edge node branch c (nd_bits cn) (nd_len cn) rest remaining shared v t
      end
  end.

(** A key has at most 128 bits. *)
Definition FUEL : nat := 130.

Definition pt_insert (t : NodePool) (net : IpCidr) (v : V) : option (Inserted * NodePool) :=
  let '(k, _, root) := key (first_address net) in insert_at FUEL k (network_length net) v root 0 t.

(** The loop of [lookup]. *)
Fixpoint lookup_at (fuel : nat) (t : NodePool) (key : Z) (klen : nat) (node pos : nat) (best : option V) : option V :=
  match fuel with
  | O => None
  | S fuel =>
      if negb (pos <? klen) then best else
      n ← pool_get t node;
      match child n (bit key pos) with
      | None => best
      | Some c =>
          match edge_match t c (shl key pos) (klen - pos) with
          | None => best
          | Some step =>
              let pos := pos + step in
              if klen <? pos then None else
              cn ← pool_get t c;
              lookup_at fuel t key klen c pos (match nd_value cn with Some v => Some v | None => best end)
          end
      end
  end.

Definition pt_lookup (t : NodePool) (addr : IpAddr) : option V :=
  let '(k, klen, root) := key addr in
  n ← pool_get t root;
  lookup_at FUEL t k klen root 0 (nd_value n).

Fixpoint get_at (fuel : nat) (t : NodePool) (key : Z) (klen : nat) (node pos : nat) : option V :=
  match fuel with
  | O => None
  | S fuel =>
      n ← pool_get t node;
      if negb (pos <? klen) then nd_value n else
      c ← child n (bit key pos);
      step ← edge_match t c (shl key pos) (klen - pos);
      let pos := pos + step in
      if klen <? pos then None else get_at fuel t key klen c pos
  end.

Definition pt_get (t : NodePool) (net : IpCidr) : option V :=
  let '(k, _, root) := key (first_address net) in get_at FUEL t k (network_length net) root 0.

Definition merge_into_child (parent : nat) (branch : bool) (node c : nat) (t : NodePool) : option NodePool :=
  n ← pool_get t node;
  t ← pool_update c (fun cn => set_edge (Z.lor (nd_bits n) (shr (nd_bits cn) (nd_len n))) (nd_len cn + nd_len n) cn) t;
  t ← pool_update parent (set_child branch (Some c)) t;
  pool_release node t.

(** The only child of a node with one. *)
Definition only_child (n : Node) : option nat :=
  match nd_zero n, nd_one n with
  | Some c, None | None, Some c => Some c
  | _, _ => None
  end.

(** Where the value of [remove] was: unlinks or merges the node. [path] holds the edges
    walked, the last one first. *)
Definition prune (path : list (nat * bool)) (node : nat) (t : NodePool) : option NodePool :=
  match path with
  | [] => Some t
  | (parent, branch) :: path =>
      n ← pool_get t node;
      match nd_zero n, nd_one n with
      | Some _, Some _ => Some t
      | Some only, None | None, Some only => merge_into_child parent branch node only t
      | None, None =>
          t ← pool_update parent (set_child branch None) t;
          t ← pool_release node t;
          match path with
          | [] => Some t
          | (grand, grand_branch) :: _ =>
              pn ← pool_get t parent;
              match nd_value pn, only_child pn with
              | None, Some only => merge_into_child grand grand_branch parent only t
              | _, _ => Some t
              end
          end
      end
  end.

(** The loop of [remove]; [None] is the panic of a full [path]. *)
Fixpoint remove_at (fuel : nat) (key : Z) (klen : nat) (path : list (nat * bool)) (node pos : nat) (t : NodePool)
  : option (option V * NodePool) :=
  match fuel with
  | O => None
  | S fuel =>
      n ← pool_get t node;
      if negb (pos <? klen) then
        match nd_value n with
        | None => Some (None, t)
        | Some v =>
            t ← pool_update node (set_value None) t;
            t ← prune path node t;
            Some (Some v, t)
        end
      else
      let branch := bit key pos in
      match child n branch with
      | None => Some (None, t)
      | Some c =>
          match edge_match t c (shl key pos) (klen - pos) with
          | None => Some (None, t)
          | Some step =>
              if 128 <=? length path then None
              else remove_at fuel key klen ((node, branch) :: path) c (pos + step) t
          end
      end
  end.

Definition pt_remove (t : NodePool) (net : IpCidr) : option (option V * NodePool) :=
  let '(k, _, root) := key (first_address net) in remove_at FUEL k (network_length net) [] root 0 t.

End PrefixTrie.
