(* ===== verification/TrieInv.v ===== *)
(** * The shape of the prefix trie

    The invariant of the node heap, stated with a ghost map from live nodes to the
    prefixes they stand for, and the rewritings of the heap that keep it: storing a
    value, adding a leaf, splitting an edge, unlinking a leaf and merging a node into
    its only child. *)

From S2P Require Import Prelude Ip Cidr PrefixTrie.
Local Open Scope nat_scope.

Section TrieInv.
Context {V : Type}.
Notation Node := (@Node V).
Implicit Types (h : gmap nat Node) (P : gmap nat (bool * list bool)).

(** The bits of the edge into a node. *)
Definition edge (n : Node) : list bool := take (nd_len n) (run (nd_bits n)).

(** The bits past the edge are zero. *)
Definition node_ok (n : Node) : Prop :=
  is_u128 (nd_bits n) /\ nd_len n <= 128 /\ drop (nd_len n) (run (nd_bits n)) = replicate (128 - nd_len n) false.

Definition fam_width (v6 : bool) : nat := if v6 then 128 else 32.

Definition full_node (n : Node) : Prop := is_Some (nd_value n) \/ (is_Some (nd_zero n) /\ is_Some (nd_one n)).

(** [paths] says which prefix every live node stands for. Node [exc], if any, may be
    neither valued nor branching. *)
Record trie_inv (exc : option nat) (P : gmap nat (bool * list bool)) (h : gmap nat Node) : Prop := {
  ti_dom i : is_Some (P !! i) <-> is_Some (h !! i);
  ti_root v6 : P !! Nat.b2n v6 = Some (v6, []);
  ti_inj i j k : P !! i = Some k -> P !! j = Some k -> i = j;
  ti_node i n : h !! i = Some n -> node_ok n;
  ti_child i n f p b c : h !! i = Some n -> P !! i = Some (f, p) -> child n b = Some c ->
    exists cn, h !! c = Some cn /\ P !! c = Some (f, p ++ edge cn) /\ edge cn !! 0 = Some b;
  ti_parent i f q : P !! i = Some (f, q) -> q <> [] -> exists j n b, h !! j = Some n /\ child n b = Some i;
  ti_full i n : h !! i = Some n -> 2 <= i -> exc <> Some i -> full_node n;
  ti_len i f q : P !! i = Some (f, q) -> length q <= fam_width f;
}.

(** Prefix [k] carries value [v]. *)
Definition carries P h (k : bool * list bool) (v : V) : Prop := exists i n, P !! i = Some k /\ h !! i = Some n /\ nd_value n = Some v.

Lemma edge_length n : node_ok n -> length (edge n) = nd_len n.
Proof. intros (_ & H & _). unfold edge. rewrite length_take, run_length. lia. Qed.

Lemma fam_width_le f : fam_width f <= 128.
Proof. destruct f; cbn; lia. Qed.

Lemma child_set (n : Node) b b' c : child (set_child b c n) b' = if decide (b' = b) then c else child n b'.
Proof. by destruct b, b'. Qed.
Lemma child_set_value (n : Node) v b : child (set_value v n) b = child n b.
Proof. by destruct b. Qed.
Lemma child_set_edge (n : Node) z l b : child (set_edge z l n) b = child n b.
Proof. by destruct b. Qed.
Lemma value_set_child (n : Node) b c : nd_value (set_child b c n) = nd_value n.
Proof. by destruct b. Qed.
Lemma edge_set_child (n : Node) b c : edge (set_child b c n) = edge n.
Proof. by destruct b. Qed.
Lemma ok_set_child (n : Node) b c : node_ok (set_child b c n) <-> node_ok n.
Proof. by destruct b. Qed.
Lemma full_set_child (n : Node) b c : full_node n -> full_node (set_child b (Some c) n).
Proof. unfold full_node. destruct b; cbn; intros [?|[? ?]]; eauto. Qed.

Section Facts.
Context (exc : option nat) (P : gmap nat (bool * list bool)) (h : gmap nat Node) (HI : trie_inv exc P h).

Lemma path_of_node i n : h !! i = Some n -> exists f p, P !! i = Some (f, p).
Proof. intros Hi. destruct (proj2 (ti_dom _ _ _ HI i)) as [[f p] E]; eauto. Qed.
Lemma node_of_path i k : P !! i = Some k -> exists n, h !! i = Some n.
Proof. intros Hi. destruct (proj1 (ti_dom _ _ _ HI i)) as [n E]; eauto. Qed.

(** A node has one parent. *)
Lemma parent_unique i j n m b b' c :
  h !! i = Some n -> child n b = Some c -> h !! j = Some m -> child m b' = Some c -> i = j /\ b = b'.
Proof.
  intros Hi Hb Hj Hb'. destruct (path_of_node _ _ Hi) as (f & p & Pi). destruct (path_of_node _ _ Hj) as (g & q & Pj).
  destruct (ti_child _ _ _ HI _ _ _ _ _ _ Hi Pi Hb) as (cn & Hc & Pc & E0).
  destruct (ti_child _ _ _ HI _ _ _ _ _ _ Hj Pj Hb') as (cn' & Hc' & Pc' & E0'). simplify_eq.
  split; [|done]. assert (p = q) as -> by (by eapply app_inv_tail). by eapply ti_inj.
Qed.

(** Walking towards a node: the child on the next bit of its prefix is on the way. *)
Lemma descend len i n f p m b s :
  length (p ++ b :: s) <= len ->
  h !! i = Some n -> P !! i = Some (f, p) -> P !! m = Some (f, p ++ b :: s) ->
  exists c cn s', child n b = Some c /\ h !! c = Some cn /\ P !! c = Some (f, p ++ edge cn) /\ b :: s = edge cn ++ s'.
Proof.
  revert i n p m b s. induction len as [|len IH]; intros i n p m b s Hlen Hi Pi Pm.
  { rewrite length_app in Hlen. cbn in Hlen. lia. }
  destruct (ti_parent _ _ _ HI m f (p ++ b :: s) Pm) as (j & nj & b' & Hj & Hb'); [by destruct p|].
  destruct (path_of_node _ _ Hj) as (g & pj & Pj).
  destruct (ti_child _ _ _ HI _ _ _ _ _ _ Hj Pj Hb') as (mn & Hm & Pm' & E0). rewrite Pm in Pm'. injection Pm' as <- Eq.
  assert (Hne : edge mn <> []) by (intros E; by rewrite E in E0).
  apply app_eq_inv in Eq as [(k & E1 & E2)|(k & E1 & E2)].
  - destruct k as [|x k].
    + rewrite app_nil_r in E1. cbn in E2. subst pj. assert (j = i) as -> by (by eapply ti_inj). simplify_eq.
      exists m, mn, []. rewrite app_nil_r. split_and!; [|done|by rewrite Pm, E2|first [done|by rewrite E2]].
      rewrite E2 in E0. cbn in E0. by injection E0 as ->.
    + subst p. assert (x = b') as ->. { rewrite E2 in E0. by injection E0. }
      destruct (IH j nj pj i b' k) as (c & cn & s' & Hc & Hcn & Pc & Es); [|done..|].
      { rewrite !length_app in *. cbn in *. lia. }
      rewrite Hb' in Hc. injection Hc as <-. rewrite Hm in Hcn. injection Hcn as <-.
      rewrite Pm in Pc. injection Pc as Ep. exfalso. apply (f_equal length) in Ep. apply (f_equal length) in Es.
      rewrite !length_app in *. cbn in *. lia.
  - destruct k as [|x k].
    + rewrite app_nil_r in E1. cbn in E2. subst pj. assert (j = i) as -> by (by eapply ti_inj). simplify_eq.
      exists m, mn, []. rewrite app_nil_r. split_and!; [|done|by rewrite Pm, E2|first [done|by rewrite E2]].
      rewrite <- E2 in E0. cbn in E0. by injection E0 as ->.
    + injection E2 as <- E2. subst pj.
      destruct (IH i n p j b k) as (c & cn & s' & Hc & Hcn & Pc & Es); [|done..|].
      { apply (f_equal length) in E2. destruct (edge mn); [done|]. rewrite !length_app in *. cbn in *. lia. }
      exists c, cn, (s' ++ edge mn). split_and!; [done..|]. by rewrite E2, app_comm_cons, Es, app_assoc.
Qed.

(** No node stands beyond a missing child. *)
Lemma no_path i n f p m b s :
  h !! i = Some n -> P !! i = Some (f, p) -> child n b = None -> P !! m <> Some (f, p ++ b :: s).
Proof.
  intros Hi Pi Hb Pm. destruct (descend _ i n f p m b s (Nat.le_refl _) Hi Pi Pm) as (c & cn & s' & Hc & _). congruence.
Qed.

(** No node stands inside or off an edge. *)
Lemma off_edge i n f p b c cn m s :
  h !! i = Some n -> P !! i = Some (f, p) -> child n b = Some c -> h !! c = Some cn ->
  P !! m = Some (f, p ++ b :: s) -> exists s', b :: s = edge cn ++ s'.
Proof.
  intros Hi Pi Hb Hc Pm. destruct (descend _ i n f p m b s (Nat.le_refl _) Hi Pi Pm) as (c' & cn' & s' & Hc' & Hcn & _ & E).
  simplify_eq. eauto.
Qed.

Lemma root_path i f : P !! i = Some (f, []) -> i < 2.
Proof. intros Hi. assert (i = Nat.b2n f) as -> by (eapply ti_inj; [done..|apply (ti_root _ _ _ HI)]). destruct f; cbn; lia. Qed.
Lemma nonroot_path i f p : P !! i = Some (f, p) -> p <> [] -> 2 <= i.
Proof.
  intros Hi Hp. destruct (decide (2 <= i)) as [|Hlt]; [done|]. exfalso.
  assert (E : exists g, i = Nat.b2n g) by (destruct i as [|[|]]; [by exists false|by exists true|lia]).
  destruct E as [g ->]. rewrite (ti_root _ _ _ HI g) in Hi. by injection Hi as _ <-.
Qed.

(** A child is not a root and is below its parent. *)
Lemma child_ge i n b c : h !! i = Some n -> child n b = Some c -> 2 <= c /\ c <> i.
Proof.
  intros Hi Hb. destruct (path_of_node _ _ Hi) as (f & p & Pi).
  destruct (ti_child _ _ _ HI _ _ _ _ _ _ Hi Pi Hb) as (cn & Hc & Pc & E0).
  assert (Hne : edge cn <> []) by (intros E; by rewrite E in E0). split.
  - apply (nonroot_path c f (p ++ edge cn) Pc). by destruct p, (edge cn).
  - intros ->. rewrite Pi in Pc. injection Pc as E. apply (f_equal length) in E. rewrite length_app in E.
    destruct (edge cn); [done|cbn in E; lia].
Qed.

End Facts.

(** ** Rewritings of the heap *)

Lemma inv_weaken i P h : trie_inv None P h -> trie_inv (Some i) P h.
Proof. intros []. split; try done. intros. eauto. Qed.

Lemma inv_full i P h n : trie_inv (Some i) P h -> h !! i = Some n -> (2 <= i -> full_node n) -> trie_inv None P h.
Proof.
  intros [] Hi Hf. split; try done. intros j m Hj Hge _. destruct (decide (j = i)) as [->|Hne]; [simplify_eq; by apply Hf|].
  apply (ti_full0 j); congruence.
Qed.

(** Storing or removing a value. *)
Lemma inv_value exc i P h n v :
  trie_inv exc P h -> h !! i = Some n -> exc = None \/ exc = Some i -> trie_inv (Some i) P (<[i := set_value v n]> h).
Proof.
  intros HI Hi He. pose proof HI as [H1 H2 H3 H4 H5 H6 H7 H8]. split; try done.
  - intros j. rewrite H1, lookup_insert. case_decide; [subst; rewrite Hi|done]. split; intros _; by eexists.
  - intros j m. rewrite lookup_insert. case_decide; [|apply H4]. intros [= <-]. by apply (H4 i n).
  - intros j m f p b c. rewrite lookup_insert. intros Hj Pj Hb.
    assert (Hx : exists cn, h !! c = Some cn /\ P !! c = Some (f, p ++ edge cn) /\ edge cn !! 0 = Some b).
    { case_decide as E; [subst; injection Hj as <-; rewrite child_set_value in Hb; by eapply H5|by eapply H5]. }
    destruct Hx as (cn & Hc & Pc & E0). rewrite lookup_insert. destruct (decide (i = c)) as [<-|]; [|eauto].
    exists (set_value v n). rewrite Hi in Hc. by injection Hc as <-.
  - intros j f q Pj Hq. destruct (H6 j f q Pj Hq) as (k & m & b & Hk & Hb). destruct (decide (k = i)) as [->|Hne].
    + exists i, (set_value v n), b. rewrite lookup_insert, decide_True by done. simplify_eq. by rewrite child_set_value.
    + exists k, m, b. rewrite lookup_insert, decide_False by done. done.
  - intros j m. rewrite lookup_insert. case_decide; [congruence|]. intros Hj Hge _. apply (H7 j); [done..|].
    destruct He as [->| ->]; congruence.
Qed.

Lemma carries_value i P h n k v w old :
  (forall i j k, P !! i = Some k -> P !! j = Some k -> i = j) ->
  h !! i = Some n -> P !! i = Some k ->
  carries P (<[i := set_value v n]> h) w old <-> (w = k /\ v = Some old) \/ (w <> k /\ carries P h w old).
Proof.
  intros Hinj Hi Pi. unfold carries. split.
  - intros (j & m & Pj & Hj & Hv). rewrite lookup_insert in Hj. case_decide as E.
    + subst. injection Hj as <-. left. by simplify_eq.
    + right. split; [|by eauto]. intros ->. apply E. by eapply Hinj.
  - intros [[-> ->]|[Hne (j & m & Pj & Hj & Hv)]].
    + exists i, (set_value (Some old) n). by rewrite lookup_insert, decide_True.
    + exists j, m. rewrite lookup_insert, decide_False; [done|]. intros ->. congruence.
Qed.

(** Adding a leaf where a child is missing. *)
Lemma inv_leaf exc i P h n f p b id leaf :
  trie_inv exc P h -> h !! i = Some n -> P !! i = Some (f, p) -> child n b = None -> h !! id = None -> 2 <= id ->
  node_ok leaf -> edge leaf !! 0 = Some b -> nd_zero leaf = None -> nd_one leaf = None -> is_Some (nd_value leaf) ->
  length (p ++ edge leaf) <= fam_width f ->
  trie_inv exc (<[id := (f, p ++ edge leaf)]> P) (<[i := set_child b (Some id) n]> (<[id := leaf]> h)).
Proof.
  intros HI Hi Pi Hb Hid Hge Hok E0 Hz Ho Hv Hlen. pose proof HI as [H1 H2 H3 H4 H5 H6 H7 H8].
  assert (Hne : i <> id) by congruence.
  assert (Pid : P !! id = None). { apply eq_None_not_Some. rewrite H1, Hid. by intros []. }
  assert (Hnew : forall m, P !! m <> Some (f, p ++ edge leaf)).
  { intros m. destruct (edge leaf) as [|x s] eqn:E; [done|]. cbn in E0. injection E0 as ->.
    by apply (no_path exc P h HI i n f p m b s). }
  assert (Hleafc : forall b', child leaf b' = None) by (intros []; done).
  split.
  - intros j. rewrite !lookup_insert. destruct (decide (id = j)) as [<-|]; [rewrite decide_False by done; split; intros _; by eexists|].
    destruct (decide (i = j)) as [<-|]; [rewrite Pi; split; intros _; by eexists|apply H1].
  - intros v6. rewrite lookup_insert, decide_False; [apply H2|]. destruct v6; cbn; lia.
  - intros j k w. rewrite !lookup_insert. repeat case_decide; subst; [done| | |apply H3].
    + intros [= <-] Pk. by destruct (Hnew k).
    + intros Pj [= <-]. by destruct (Hnew j).
  - intros j m. rewrite !lookup_insert. repeat case_decide; subst; [|intros [= <-]; done|apply H4].
    intros [= <-]. rewrite ok_set_child. by apply (H4 j).
  - intros j m g q b' c Hj Pj Hc. rewrite !lookup_insert in *.
    destruct (decide (i = j)) as [->|Hij].
    + injection Hj as <-. rewrite decide_False in Pj by done. rewrite Pi in Pj. injection Pj as <- <-. rewrite child_set in Hc.
      case_decide as Eb.
      * subst. injection Hc as <-. rewrite decide_False, decide_True, decide_True by done. eauto.
      * destruct (H5 j n f p b' c Hi Pi Hc) as (cn & Hcn & Pc & E). destruct (child_ge exc P h HI j n b' c Hi Hc) as [_ Hcj].
        assert (id <> c) by congruence. rewrite !decide_False by done. eauto.
    + destruct (decide (id = j)) as [<-|Hidj]; [injection Hj as <-; by rewrite Hleafc in Hc|].
      destruct (H5 j m g q b' c Hj Pj Hc) as (cn & Hcn & Pc & E). assert (id <> c) by congruence.
      rewrite !(decide_False (P := id = c)) by done. destruct (decide (i = c)) as [<-|]; [|eauto].
      exists (set_child b (Some id) n). rewrite Hi in Hcn. injection Hcn as <-. by rewrite edge_set_child.
  - intros j g q. rewrite lookup_insert. case_decide as E.
    + subst. intros [= <- <-] _. exists i, (set_child b (Some j) n), b. rewrite lookup_insert, decide_True by done. split; [done|].
      by rewrite child_set, decide_True.
    + intros Pj Hq. destruct (H6 j g q Pj Hq) as (k & m & b' & Hk & Hc). destruct (decide (k = i)) as [->|Hki].
      * exists i, (set_child b (Some id) n), b'. rewrite lookup_insert, decide_True by done. split; [done|].
        rewrite child_set. simplify_eq. by rewrite decide_False by congruence.
      * exists k, m, b'. rewrite !lookup_insert, decide_False, decide_False by congruence. done.
  - intros j m. rewrite !lookup_insert. repeat case_decide; subst; [|intros [= <-] _ _; by left|apply H7].
    intros [= <-] Hj He. apply full_set_child. by apply (H7 j).
  - intros j g q. rewrite lookup_insert. case_decide; [|apply H8]. by intros [= <- <-].
Qed.

Lemma carries_leaf exc i P h n f p b id leaf v w old :
  trie_inv exc P h -> h !! i = Some n -> P !! i = Some (f, p) -> child n b = None -> h !! id = None ->
  edge leaf !! 0 = Some b -> nd_value leaf = Some v ->
  carries (<[id := (f, p ++ edge leaf)]> P) (<[i := set_child b (Some id) n]> (<[id := leaf]> h)) w old <->
  (w = (f, p ++ edge leaf) /\ v = old) \/ (w <> (f, p ++ edge leaf) /\ carries P h w old).
Proof.
  intros HI Hi Pi Hb Hid E0 Hv. pose proof HI as [H1 H2 H3 H4 H5 H6 H7 H8]. assert (Hne : i <> id) by congruence.
  assert (Hnew : forall m, P !! m <> Some (f, p ++ edge leaf)).
  { intros m. destruct (edge leaf) as [|x s] eqn:E; [done|]. cbn in E0. injection E0 as ->.
    by apply (no_path exc P h HI i n f p m b s). }
  unfold carries. split.
  - intros (j & m & Pj & Hj & Ev). rewrite !lookup_insert in *. destruct (decide (id = j)) as [<-|Hj1].
    + rewrite decide_False in Hj by done. left. by simplify_eq.
    + right. split; [intros ->; by destruct (Hnew j)|]. destruct (decide (i = j)) as [<-|]; [|eauto].
      exists i, n. simplify_eq. by rewrite value_set_child in Ev.
  - intros [[-> ->]|[Hw (j & m & Pj & Hj & Ev)]].
    + exists id, leaf. rewrite !lookup_insert, decide_True, decide_False, decide_True by done. done.
    + assert (id <> j) by congruence. destruct (decide (i = j)) as [<-|Hij].
      * exists i, (set_child b (Some id) n). rewrite !lookup_insert, decide_False, decide_True by done. simplify_eq.
        by rewrite value_set_child.
      * exists j, m. rewrite !lookup_insert, !decide_False by done. done.
Qed.


(** A node with another edge. *)
Record rerun (n n' : Node) : Prop := {
  rr_zero : nd_zero n' = nd_zero n;
  rr_one : nd_one n' = nd_one n;
  rr_value : nd_value n' = nd_value n;
}.
Lemma rerun_child n n' b : rerun n n' -> child n' b = child n b.
Proof. intros []. by destruct b. Qed.
Lemma rerun_full n n' : rerun n n' -> full_node n -> full_node n'.
Proof. intros [E1 E2 E3]. unfold full_node. by rewrite E1, E2, E3. Qed.
Lemma rerun_edge n z l : rerun n (set_edge z l n).
Proof. by split. Qed.

(** Splitting the edge into [c]: [mid] takes its first part. *)
Section Split.
Context (exc : option nat) (P : gmap nat (bool * list bool)) (h : gmap nat Node) (HI : trie_inv exc P h).
Context (i c mid : nat) (n cn midn cn' : Node) (f b b2 : bool) (p : list bool).
Hypotheses (Hi : h !! i = Some n) (Pi : P !! i = Some (f, p)) (Hb : child n b = Some c) (Hc : h !! c = Some cn).
Hypotheses (Hmid : h !! mid = None) (Hge : 2 <= mid).
Hypotheses (Hrun : edge cn = edge midn ++ edge cn') (E1 : edge midn !! 0 = Some b) (E2 : edge cn' !! 0 = Some b2).
Hypotheses (Hm2 : child midn b2 = Some c) (Hm3 : child midn (negb b2) = None) (Hmv : nd_value midn = None).
Hypotheses (Hre : rerun cn cn') (Hok : node_ok midn) (Hok' : node_ok cn').

Let P' := <[mid := (f, p ++ edge midn)]> P.
Let h' := <[i := set_child b (Some mid) n]> (<[mid := midn]> (<[c := cn']> h)).

Lemma split_path_c : P !! c = Some (f, p ++ edge cn).
Proof. destruct (ti_child _ _ _ HI _ _ _ _ _ _ Hi Pi Hb) as (x & Hx & Px & _). by simplify_eq. Qed.

Lemma split_ids : i <> mid /\ c <> mid /\ i <> c.
Proof. destruct (child_ge _ _ _ HI i n b c Hi Hb) as [_ ?]. split_and!; congruence. Qed.

Lemma split_fresh m : P !! m <> Some (f, p ++ edge midn).
Proof.
  intros Pm. destruct (edge midn) as [|x s] eqn:E; [done|]. cbn in E1. injection E1 as ->.
  destruct (off_edge _ _ _ HI i n f p b c cn m s Hi Pi Hb Hc Pm) as [s' Es]. rewrite Hrun in Es.
  apply (f_equal length) in Es. rewrite !length_app in Es. cbn in Es. destruct (edge cn'); [done|]. cbn in Es. lia.
Qed.

Lemma split_node j m : h' !! j = Some m ->
  (j = i /\ m = set_child b (Some mid) n) \/ (j = mid /\ m = midn) \/ (j = c /\ m = cn') \/
  (j <> i /\ j <> mid /\ j <> c /\ h !! j = Some m).
Proof. unfold h'. rewrite !lookup_insert. repeat case_decide; naive_solver. Qed.

Lemma split_at_i : h' !! i = Some (set_child b (Some mid) n).
Proof. unfold h'. by rewrite lookup_insert, decide_True. Qed.
Lemma split_at_mid : h' !! mid = Some midn.
Proof. destruct split_ids as (? & ? & ?). unfold h'. by rewrite !lookup_insert, decide_False, decide_True by congruence. Qed.
Lemma split_at_c : h' !! c = Some cn'.
Proof. destruct split_ids as (? & ? & ?). unfold h'. by rewrite !lookup_insert, decide_False, decide_False, decide_True by congruence. Qed.
Lemma split_at_other j : j <> i -> j <> mid -> j <> c -> h' !! j = h !! j.
Proof. intros. unfold h'. by rewrite !lookup_insert, !decide_False by congruence. Qed.
Lemma split_path_mid : P' !! mid = Some (f, p ++ edge midn).
Proof. unfold P'. by rewrite lookup_insert, decide_True. Qed.
Lemma split_path_other j : j <> mid -> P' !! j = P !! j.
Proof. intros. unfold P'. by rewrite lookup_insert, decide_False by congruence. Qed.

Lemma split_child j m g q b' k :
  h' !! j = Some m -> P' !! j = Some (g, q) -> child m b' = Some k ->
  exists x, h' !! k = Some x /\ P' !! k = Some (g, q ++ edge x) /\ edge x !! 0 = Some b'.
Proof.
  destruct split_ids as (N1 & N2 & N3). intros Hj Pj Hk.
  (* a child of the old heap, other than [c] below [i] *)
  assert (Hold : forall n0, h !! j = Some n0 -> P !! j = Some (g, q) -> child n0 b' = Some k -> j <> i \/ b' <> b ->
    exists x, h' !! k = Some x /\ P' !! k = Some (g, q ++ edge x) /\ edge x !! 0 = Some b').
  { intros n0 Hn0 Pj0 Hk0 Hne. destruct (ti_child _ _ _ HI _ _ _ _ _ _ Hn0 Pj0 Hk0) as (x & Hx & Px & Ex).
    assert (k <> c). { intros ->. destruct (parent_unique _ _ _ HI i j n n0 b b' c Hi Hb Hn0 Hk0) as [-> ->]. by destruct Hne. }
    assert (k <> mid) by congruence. destruct (decide (k = i)) as [->|Hki].
    - exists (set_child b (Some mid) n). rewrite split_at_i, split_path_other, edge_set_child by done. rewrite Hi in Hx. by injection Hx as <-.
    - exists x. by rewrite split_at_other, split_path_other. }
  apply split_node in Hj as [[-> ->]|[[-> ->]|[[-> ->]|(Hn1 & Hn2 & Hn3 & Hj)]]].
  - rewrite split_path_other in Pj by done. rewrite child_set in Hk. case_decide as Eb; [|by apply (Hold n); auto].
    subst b'. injection Hk as <-. rewrite Pi in Pj. injection Pj as <- <-. exists midn. by rewrite split_at_mid, split_path_mid.
  - rewrite split_path_mid in Pj. injection Pj as <- <-. destruct (decide (b' = b2)) as [->|Hb2].
    + rewrite Hm2 in Hk. injection Hk as <-. exists cn'. rewrite split_at_c, split_path_other by congruence.
      by rewrite split_path_c, Hrun, app_assoc.
    + assert (b' = negb b2) as -> by (by destruct b', b2). congruence.
  - rewrite split_path_other in Pj by congruence. rewrite (rerun_child _ _ _ Hre) in Hk. apply (Hold cn); auto.
  - rewrite split_path_other in Pj by done. apply (Hold m); auto.
Qed.

Lemma inv_split : exc = None -> trie_inv (Some mid) P' h'.
Proof.
  destruct split_ids as (N1 & N2 & N3). intros Hexc. split.
  - intros j. destruct (decide (j = mid)) as [->|]; [rewrite split_path_mid, split_at_mid; split; intros _; by eexists|].
    rewrite split_path_other, (ti_dom _ _ _ HI) by done. destruct (decide (j = i)) as [->|].
    { rewrite split_at_i, Hi. split; intros _; by eexists. }
    destruct (decide (j = c)) as [->|]; [rewrite split_at_c, Hc; split; intros _; by eexists|by rewrite split_at_other].
  - intros v6. rewrite split_path_other; [apply (ti_root _ _ _ HI)|]. destruct v6; cbn; lia.
  - intros j k w Pj Pk. destruct (decide (j = mid)) as [->|Hj], (decide (k = mid)) as [->|Hk]; [done|..];
      rewrite ?split_path_mid in *; rewrite ?split_path_other in * by done.
    + injection Pj as <-. by destruct (split_fresh k).
    + injection Pk as <-. by destruct (split_fresh j).
    + by eapply (ti_inj _ _ _ HI).
  - intros j m Hj. apply split_node in Hj as [[-> ->]|[[-> ->]|[[-> ->]|(_ & _ & _ & Hj)]]]; [|done|done|by eapply (ti_node _ _ _ HI)].
    rewrite ok_set_child. by eapply (ti_node _ _ _ HI).
  - apply split_child.
  - intros j g q Pj Hq. destruct (decide (j = mid)) as [->|Hj].
    { exists i, (set_child b (Some mid) n), b. rewrite split_at_i, child_set. by rewrite decide_True. }
    rewrite split_path_other in Pj by done. destruct (decide (j = c)) as [->|Hjc].
    { exists mid, midn, b2. by rewrite split_at_mid. }
    destruct (ti_parent _ _ _ HI j g q Pj Hq) as (k & m & b' & Hk & Hm). assert (k <> mid) by congruence.
    destruct (decide (k = i)) as [->|]; [|destruct (decide (k = c)) as [->|]].
    + exists i, (set_child b (Some mid) n), b'. rewrite split_at_i, child_set. rewrite Hi in Hk. injection Hk as <-.
      rewrite decide_False; [done|]. intros ->. congruence.
    + exists c, cn', b'. rewrite split_at_c, (rerun_child _ _ _ Hre). rewrite Hc in Hk. by injection Hk as <-.
    + exists k, m, b'. by rewrite split_at_other.
  - intros j m Hj Hj2 He. apply split_node in Hj as [[-> ->]|[[-> ->]|[[-> ->]|(_ & _ & _ & Hj)]]].
    + apply full_set_child. eapply (ti_full _ _ _ HI); [done..|congruence].
    + done.
    + apply (rerun_full cn); [done|]. eapply (ti_full _ _ _ HI); [done..|congruence].
    + eapply (ti_full _ _ _ HI); [done..|congruence].
  - intros j g q Pj. destruct (decide (j = mid)) as [->|]; [|rewrite split_path_other in Pj by done; by eapply (ti_len _ _ _ HI)].
    rewrite split_path_mid in Pj. injection Pj as <- <-. pose proof (ti_len _ _ _ HI c f _ split_path_c) as Hl.
    rewrite Hrun, !length_app in Hl. rewrite length_app. lia.
Qed.

Lemma carries_split k v : carries P' h' k v <-> carries P h k v.
Proof.
  destruct split_ids as (N1 & N2 & N3). split.
  - intros (j & m & Pj & Hj & Hv). assert (j <> mid) by (intros ->; rewrite split_at_mid in Hj; congruence).
    rewrite split_path_other in Pj by done. apply split_node in Hj as [[-> ->]|[[-> ->]|[[-> ->]|(_ & _ & _ & Hj)]]]; [..|by exists j, m].
    + exists i, n. by rewrite value_set_child in Hv.
    + done.
    + exists c, cn. by rewrite (rr_value _ _ Hre) in Hv.
  - intros (j & m & Pj & Hj & Hv). assert (j <> mid) by congruence. destruct (decide (j = i)) as [->|]; [|destruct (decide (j = c)) as [->|]].
    + exists i, (set_child b (Some mid) n). rewrite split_path_other, split_at_i, value_set_child by done. rewrite Hi in Hj. by injection Hj as <-.
    + exists c, cn'. rewrite split_path_other, split_at_c, (rr_value _ _ Hre) by done. rewrite Hc in Hj. by injection Hj as <-.
    + exists j, m. by rewrite split_path_other, split_at_other.
Qed.

End Split.


(** Taking the node [m] out: [c], if any, is its only child and takes its place below
    [i], with its edge joined to that of [m]. *)
Section Remove.
Context (exc : option nat) (P : gmap nat (bool * list bool)) (h : gmap nat Node) (HI : trie_inv exc P h).
Context (i m : nat) (n nm : Node) (f b : bool) (p : list bool).
Hypotheses (Hexc : exc = None \/ exc = Some m).
Hypotheses (Hi : h !! i = Some n) (Pi : P !! i = Some (f, p)) (Hb : child n b = Some m) (Hm : h !! m = Some nm).
Hypotheses (Hmv : nd_value nm = None).

Let P' := delete m P.

Lemma rem_path_m : P !! m = Some (f, p ++ edge nm) /\ edge nm !! 0 = Some b.
Proof. destruct (ti_child _ _ _ HI _ _ _ _ _ _ Hi Pi Hb) as (x & Hx & Px & ?). by simplify_eq. Qed.
Lemma rem_ids : 2 <= m /\ m <> i.
Proof. by apply (child_ge _ _ _ HI i n b m). Qed.
Lemma rem_path j : j <> m -> P' !! j = P !! j.
Proof. intros. unfold P'. by rewrite lookup_delete_ne. Qed.
Lemma rem_path_some j k : P' !! j = Some k -> j <> m /\ P !! j = Some k.
Proof. unfold P'. rewrite lookup_delete_Some. intros [? ?]. split; congruence. Qed.

Lemma rem_root v6 : P' !! Nat.b2n v6 = Some (v6, []).
Proof. rewrite rem_path; [apply (ti_root _ _ _ HI)|]. destruct rem_ids as [? _]. destruct v6; cbn; lia. Qed.
Lemma rem_inj j k w : P' !! j = Some w -> P' !! k = Some w -> j = k.
Proof. intros [_ Hj]%rem_path_some [_ Hk]%rem_path_some. by eapply (ti_inj _ _ _ HI). Qed.
Lemma rem_len j g q : P' !! j = Some (g, q) -> length q <= fam_width g.
Proof. intros [_ Hj]%rem_path_some. by eapply (ti_len _ _ _ HI). Qed.

(** *** A leaf *)

Section Unlink.
Hypotheses (Hleaf : forall b', child nm b' = None).
Let h' := delete m (<[i := set_child b None n]> h).

Lemma unlink_at_i : h' !! i = Some (set_child b None n).
Proof. destruct rem_ids. unfold h'. by rewrite lookup_delete_ne, lookup_insert, decide_True. Qed.
Lemma unlink_at_other j : j <> i -> j <> m -> h' !! j = h !! j.
Proof. intros. unfold h'. by rewrite lookup_delete_ne, lookup_insert, decide_False by congruence. Qed.
Lemma unlink_node j x : h' !! j = Some x -> j <> m /\ ((j = i /\ x = set_child b None n) \/ (j <> i /\ h !! j = Some x)).
Proof.
  unfold h'. rewrite lookup_delete_Some, lookup_insert. intros [? H]. split; [congruence|]. case_decide; [left|right]; simplify_eq; auto.
Qed.

Lemma inv_unlink : trie_inv (Some i) P' h'.
Proof.
  destruct rem_ids as [N1 N2]. split.
  - intros j. destruct (decide (j = m)) as [->|Hj]; [unfold P', h'; rewrite !lookup_delete_eq; done|]. rewrite rem_path, (ti_dom _ _ _ HI) by done.
    destruct (decide (j = i)) as [->|]; [rewrite unlink_at_i, Hi; split; intros _; by eexists|by rewrite unlink_at_other].
  - apply rem_root.
  - apply rem_inj.
  - intros j x [_ [[-> ->]|[_ Hj]]]%unlink_node; [rewrite ok_set_child|]; by eapply (ti_node _ _ _ HI).
  - intros j x g q b' k Hj Pj Hk. apply rem_path_some in Pj as [Hjm Pj].
    assert (Hold : exists x0, h !! j = Some x0 /\ child x0 b' = Some k /\ (j <> i \/ b' <> b)).
    { apply unlink_node in Hj as [_ [[-> ->]|[Hne Hj]]]; [|exists x; auto].
      rewrite child_set in Hk. case_decide; [done|]. exists n. auto. }
    destruct Hold as (x0 & Hx0 & Hk0 & Hne). destruct (ti_child _ _ _ HI _ _ _ _ _ _ Hx0 Pj Hk0) as (y & Hy & Py & Ey).
    assert (k <> m). { intros ->. destruct (parent_unique _ _ _ HI i j n x0 b b' m Hi Hb Hx0 Hk0) as [-> ->]. by destruct Hne. }
    destruct (decide (k = i)) as [->|].
    + exists (set_child b None n). rewrite unlink_at_i, rem_path, edge_set_child by done. rewrite Hi in Hy. by injection Hy as <-.
    + exists y. by rewrite unlink_at_other, rem_path.
  - intros j g q [Hj Pj]%rem_path_some Hq. destruct (ti_parent _ _ _ HI j g q Pj Hq) as (k & x & b' & Hk & Hx).
    destruct (decide (k = m)) as [->|Hkm]; [rewrite Hm in Hk; injection Hk as <-; by rewrite Hleaf in Hx|].
    destruct (decide (k = i)) as [->|]; [|exists k, x, b'; by rewrite unlink_at_other].
    exists i, (set_child b None n), b'. rewrite unlink_at_i, child_set. rewrite Hi in Hk. injection Hk as <-.
    rewrite decide_False; [done|]. intros ->. congruence.
  - intros j x [Hj [[-> ->]|[Hne Hx]]]%unlink_node Hge He; [done|]. eapply (ti_full _ _ _ HI); [done..|]. destruct Hexc; congruence.
  - apply rem_len.
Qed.

Lemma carries_unlink k v : carries P' h' k v <-> carries P h k v.
Proof.
  split.
  - intros (j & x & [Hj Pj]%rem_path_some & [_ [[-> ->]|[_ Hx]]]%unlink_node & Hv); [|by exists j, x].
    exists i, n. by rewrite value_set_child in Hv.
  - intros (j & x & Pj & Hx & Hv). assert (j <> m) by congruence. destruct (decide (j = i)) as [->|].
    + exists i, (set_child b None n). rewrite rem_path, unlink_at_i, value_set_child by done. rewrite Hi in Hx. by injection Hx as <-.
    + exists j, x. by rewrite rem_path, unlink_at_other.
Qed.
End Unlink.

(** *** A node with one child *)

Section Merge.
Context (c : nat) (cn cn' : Node) (b2 : bool).
Hypotheses (Hm2 : child nm b2 = Some c) (Hm3 : child nm (negb b2) = None) (Hc : h !! c = Some cn).
Hypotheses (Hre : rerun cn cn') (Hrun : edge cn' = edge nm ++ edge cn) (Hok : node_ok cn').
Let h' := delete m (<[i := set_child b (Some c) n]> (<[c := cn']> h)).

Lemma merge_ids : c <> m /\ c <> i /\ P !! c = Some (f, p ++ edge cn').
Proof.
  destruct rem_path_m as [Pm E1]. destruct (ti_child _ _ _ HI _ _ _ _ _ _ Hm Pm Hm2) as (x & Hx & Px & Ex).
  rewrite Hc in Hx. injection Hx as <-. rewrite <- app_assoc, <- Hrun in Px.
  destruct (child_ge _ _ _ HI m nm b2 c Hm Hm2) as [_ Hcm]. split; [done|]. split; [|done]. intros ->. rewrite Pi in Px.
  injection Px as E. apply (f_equal length) in E. rewrite Hrun, !length_app in E. destruct (edge nm); [done|cbn in E; lia].
Qed.
Lemma merge_at_i : h' !! i = Some (set_child b (Some c) n).
Proof. destruct rem_ids. unfold h'. by rewrite lookup_delete_ne, lookup_insert, decide_True. Qed.
Lemma merge_at_c : h' !! c = Some cn'.
Proof. destruct merge_ids as (? & ? & _). unfold h'. by rewrite lookup_delete_ne, !lookup_insert, decide_False, decide_True by congruence. Qed.
Lemma merge_at_other j : j <> i -> j <> m -> j <> c -> h' !! j = h !! j.
Proof. intros. unfold h'. by rewrite lookup_delete_ne, !lookup_insert, !decide_False by congruence. Qed.
Lemma merge_node j x : h' !! j = Some x -> j <> m /\ ((j = i /\ x = set_child b (Some c) n) \/ (j = c /\ x = cn') \/
  (j <> i /\ j <> c /\ h !! j = Some x)).
Proof.
  unfold h'. rewrite lookup_delete_Some, !lookup_insert. intros [? H]. split; [congruence|].
  case_decide; [left; simplify_eq; auto|]. case_decide; right; [left|right]; simplify_eq; auto.
Qed.

Lemma inv_merge : trie_inv None P' h'.
Proof.
  destruct rem_ids as [N1 N2]. destruct merge_ids as (N3 & N4 & Pc). destruct rem_path_m as [Pm E1]. split.
  - intros j. destruct (decide (j = m)) as [->|Hj]; [unfold P', h'; rewrite !lookup_delete_eq; done|]. rewrite rem_path, (ti_dom _ _ _ HI) by done.
    destruct (decide (j = i)) as [->|]; [rewrite merge_at_i, Hi; split; intros _; by eexists|].
    destruct (decide (j = c)) as [->|]; [rewrite merge_at_c, Hc; split; intros _; by eexists|by rewrite merge_at_other].
  - apply rem_root.
  - apply rem_inj.
  - intros j x [_ [[-> ->]|[[-> ->]|(_ & _ & Hj)]]]%merge_node; [rewrite ok_set_child| |]; try done; by eapply (ti_node _ _ _ HI).
  - intros j x g q b' k Hj Pj Hk. apply rem_path_some in Pj as [Hjm Pj].
    destruct (decide (j = i /\ b' = b)) as [[-> ->]|Hne].
    { rewrite merge_at_i in Hj. injection Hj as <-. rewrite child_set, decide_True in Hk by done. injection Hk as <-.
      rewrite Pi in Pj. injection Pj as <- <-. exists cn'. rewrite merge_at_c, rem_path, Pc by done. split_and!; [done..|].
      rewrite Hrun. by destruct (edge nm). }
    assert (Hold : exists x0, h !! j = Some x0 /\ child x0 b' = Some k).
    { apply merge_node in Hj as [_ [[-> ->]|[[-> ->]|(_ & _ & Hj)]]]; [| |by exists x].
      - rewrite child_set in Hk. case_decide; [tauto|]. by exists n.
      - rewrite (rerun_child _ _ _ Hre) in Hk. by exists cn. }
    destruct Hold as (x0 & Hx0 & Hk0). destruct (ti_child _ _ _ HI _ _ _ _ _ _ Hx0 Pj Hk0) as (y & Hy & Py & Ey).
    assert (k <> m). { intros ->. destruct (parent_unique _ _ _ HI i j n x0 b b' m Hi Hb Hx0 Hk0) as [-> ->]. tauto. }
    assert (k <> c). { intros ->. destruct (parent_unique _ _ _ HI m j nm x0 b2 b' c Hm Hm2 Hx0 Hk0) as [E _]. by destruct Hjm. }
    destruct (decide (k = i)) as [->|].
    + exists (set_child b (Some c) n). rewrite merge_at_i, rem_path, edge_set_child by done. rewrite Hi in Hy. by injection Hy as <-.
    + exists y. by rewrite merge_at_other, rem_path.
  - intros j g q [Hj Pj]%rem_path_some Hq. destruct (decide (j = c)) as [->|Hjc].
    { exists i, (set_child b (Some c) n), b. rewrite merge_at_i, child_set. by rewrite decide_True. }
    destruct (ti_parent _ _ _ HI j g q Pj Hq) as (k & x & b' & Hk & Hx).
    destruct (decide (k = m)) as [->|Hkm].
    { rewrite Hm in Hk. injection Hk as <-. exfalso. destruct (decide (b' = b2)) as [->|]; [congruence|].
      assert (b' = negb b2) as -> by (by destruct b', b2). congruence. }
    destruct (decide (k = i)) as [->|]; [|destruct (decide (k = c)) as [->|]].
    + exists i, (set_child b (Some c) n), b'. rewrite merge_at_i, child_set. rewrite Hi in Hk. injection Hk as <-.
      rewrite decide_False; [done|]. intros ->. congruence.
    + exists c, cn', b'. rewrite merge_at_c, (rerun_child _ _ _ Hre). rewrite Hc in Hk. by injection Hk as <-.
    + exists k, x, b'. by rewrite merge_at_other.
  - intros j x [Hj Hx]%merge_node Hge _. assert (exc <> Some j) by (destruct Hexc; congruence).
    destruct Hx as [[-> ->]|[[-> ->]|(_ & _ & Hx)]]; [|apply (rerun_full cn); [done|]|]; [apply full_set_child|..]; by eapply (ti_full _ _ _ HI).
  - apply rem_len.
Qed.

Lemma carries_merge k v : carries P' h' k v <-> carries P h k v.
Proof.
  destruct merge_ids as (N3 & N4 & Pc). split.
  - intros (j & x & [Hj Pj]%rem_path_some & [_ [[-> ->]|[[-> ->]|(_ & _ & Hx)]]]%merge_node & Hv); [..|by exists j, x].
    + exists i, n. by rewrite value_set_child in Hv.
    + exists c, cn. by rewrite (rr_value _ _ Hre) in Hv.
  - intros (j & x & Pj & Hx & Hv). assert (j <> m) by congruence. destruct (decide (j = i)) as [->|]; [|destruct (decide (j = c)) as [->|]].
    + exists i, (set_child b (Some c) n). rewrite rem_path, merge_at_i, value_set_child by done. rewrite Hi in Hx. by injection Hx as <-.
    + exists c, cn'. rewrite rem_path, merge_at_c, (rr_value _ _ Hre) by done. rewrite Hc in Hx. by injection Hx as <-.
    + exists j, x. by rewrite rem_path, merge_at_other.
Qed.
End Merge.
End Remove.

End TrieInv.

(** * What the prefix trie computes

    [trie_rep t m] says that trie [t] is well formed and stores the finite map [m] from
    prefixes to values. Every operation is total on such tries and is the operation of
    the finite map; [lookup] is the longest-prefix match. *)

Local Open Scope nat_scope.

Section TrieSpec.
Context {V : Type}.
Notation Node := (@Node V).
Notation NodePool := (@NodePool V).
Context (MAX_PREFIXES : nat).

Record rep (P : gmap nat (bool * list bool)) (h : gmap nat Node) (t : NodePool) (m : gmap PKey V) : Prop := {
  rp_pool : pool_is MAX_PREFIXES t h;
  rp_inv : trie_inv None P h;
  rp_map k v : m !! k = Some v <-> carries P h k v;
}.
Definition trie_rep (t : NodePool) (m : gmap PKey V) : Prop := exists P h, rep P h t m.

(** ** Reading *)

(** The edge into a node matches what remains of a key exactly when it is its beginning. *)
Lemma edge_match_spec P h t m z pos rem c cn :
  rep P h t m -> is_u128 z -> pos + rem <= 128 -> h !! c = Some cn ->
  match edge_match t c (shl z pos) rem with
  | Some step => step = nd_len cn /\ exists s, take rem (drop pos (run z)) = edge cn ++ s
  | None => forall s, take rem (drop pos (run z)) <> edge cn ++ s
  end.
Proof.
  intros [Hp HI _] Hz Hr Hc. unfold edge_match. rewrite (ps_get _ _ _ Hp), Hc. cbn [mbind option_bind].
  destruct (ti_node _ _ _ HI c cn Hc) as (Hb & Hl & _). set (L := nd_len cn).
  destruct (common_len_spec (shl z pos) (nd_bits cn) L (shl_range _ _) Hb Hl) as (H1 & H2 & H3).
  set (n := common_len _ _ L) in *.
  assert (Hshl : forall k, k <= rem -> take k (run (shl z pos)) = take k (drop pos (run z))).
  { intros k Hk. rewrite run_shl, take_app_le; [done|]. rewrite length_drop, run_length. lia. }
  destruct (Nat.leb_spec L rem) as [Hle|Hgt]; cbn [andb].
  - destruct (Nat.eqb_spec n L) as [E|E].
    + split; [done|]. exists (drop L (take rem (drop pos (run z)))). unfold edge. fold L. rewrite E, Hshl in H2 by done.
      rewrite <- H2. rewrite <- (take_drop L (take rem (drop pos (run z)))) at 1. by rewrite take_take, Nat.min_l.
    + intros s Hs. apply (f_equal (fun l => l !! n)) in Hs. assert (Hn : n < L) by lia. specialize (H3 Hn).
      rewrite lookup_take_lt in Hs by lia. rewrite lookup_app_l in Hs by (unfold edge; fold L; rewrite length_take, run_length; lia).
      unfold edge in Hs. fold L in Hs. rewrite lookup_take_lt, run_lookup in Hs by lia.
      assert (Hx : run (shl z pos) !! n = Some (bit (shl z pos) n)) by (apply run_lookup; lia).
      rewrite run_shl, lookup_app_l in Hx by (rewrite length_drop, run_length; lia). rewrite Hx in Hs. congruence.
  - intros s Hs. apply (f_equal length) in Hs. rewrite length_take, length_drop, run_length, length_app in Hs.
    unfold edge in Hs. fold L in Hs. rewrite length_take, run_length in Hs. lia.
Qed.

(** The value stored for the prefix of a node. *)
Lemma rep_at P h t m i n k : rep P h t m -> P !! i = Some k -> h !! i = Some n -> m !! k = nd_value n.
Proof.
  intros [Hp HI Hm] Pi Hi. destruct (nd_value n) as [v|] eqn:Hv.
  - apply Hm. by exists i, n.
  - apply eq_None_not_Some. intros [v (j & x & Pj & Hj & Hx)%Hm]. assert (j = i) as -> by (by eapply ti_inj). congruence.
Qed.

(** A prefix no node stands for stores nothing. *)
Lemma rep_none P h t m k : rep P h t m -> (forall i, P !! i <> Some k) -> m !! k = None.
Proof. intros [_ _ Hm] H. apply eq_None_not_Some. intros [v (j & x & Pj & _)%Hm]. by apply (H j). Qed.

(** A key of [klen] bits, walked from the root. *)
Section Walk.
Context (z : Z) (klen : nat) (f : bool) (Hz : is_u128 z) (Hk : klen <= fam_width f).

Definition kbits : list bool := take klen (run z).

Lemma klen_le : klen <= 128.
Proof. pose proof (fam_width_le f). lia. Qed.
Lemma kbits_length : length kbits = klen.
Proof. unfold kbits. rewrite length_take, run_length. pose proof klen_le. lia. Qed.
Lemma kbits_take n : n <= klen -> take n kbits = take n (run z).
Proof. intros. unfold kbits. rewrite take_take. f_equal. lia. Qed.
Lemma kbits_drop pos : drop pos kbits = take (klen - pos) (drop pos (run z)).
Proof. unfold kbits. by rewrite skipn_firstn_comm. Qed.

(** The bits left at [pos]. *)
Lemma kbits_next pos : pos < klen -> drop pos kbits = bit z pos :: drop (S pos) kbits.
Proof.
  intros Hp. apply drop_S. unfold kbits. rewrite lookup_take_lt by done. apply run_lookup. pose proof klen_le. lia.
Qed.

Lemma kbits_step pos e s : drop pos kbits = e ++ s -> take pos kbits ++ e = take (pos + length e) kbits.
Proof.
  intros E. destruct (decide (pos <= klen)) as [Hp|Hp].
  - rewrite <- (take_drop pos kbits) at 2. rewrite E.
    assert (Hl : length (take pos kbits) = pos) by (rewrite length_take, kbits_length; lia).
    rewrite take_app_ge by lia. rewrite Hl. replace (pos + length e - pos) with (length e) by lia. by rewrite take_app_length.
  - rewrite drop_ge in E by (rewrite kbits_length; lia). symmetry in E. apply app_nil in E as [-> _]. cbn. rewrite app_nil_r, Nat.add_0_r. done.
Qed.

Context (P : gmap nat (bool * list bool)) (h : gmap nat Node) (t : NodePool) (m : gmap PKey V) (HR : rep P h t m).

(** One round: the node at [pos], its child on the next bit and the edge there. *)
Lemma walk_stop i n pos l :
  h !! i = Some n -> P !! i = Some (f, take pos kbits) -> child n (bit z pos) = None -> pos < l <= klen ->
  m !! ((f, take l kbits) : PKey) = None.
Proof.
  intros Hi Pi Hb Hl. apply (rep_none P h t m _ HR). intros j Pj.
  assert (E : take l kbits = take pos kbits ++ bit z pos :: take (l - S pos) (drop (S pos) kbits)).
  { rewrite <- (take_drop pos (take l kbits)), take_take, Nat.min_l by lia. f_equal. rewrite skipn_firstn_comm, kbits_next by lia.
    replace (l - pos) with (S (l - S pos)) by lia. done. }
  rewrite E in Pj. by eapply (no_path _ _ _ (rp_inv _ _ _ _ HR)).
Qed.

Lemma walk_off i n pos c cn l :
  h !! i = Some n -> P !! i = Some (f, take pos kbits) -> child n (bit z pos) = Some c -> h !! c = Some cn ->
  pos < l <= klen -> (forall s, take (l - pos) (drop pos kbits) <> edge cn ++ s) ->
  m !! ((f, take l kbits) : PKey) = None.
Proof.
  intros Hi Pi Hb Hc Hl Hoff. apply (rep_none P h t m _ HR). intros j Pj.
  assert (E : take (l - pos) (drop pos kbits) = bit z pos :: take (l - S pos) (drop (S pos) kbits)).
  { rewrite kbits_next by lia. replace (l - pos) with (S (l - S pos)) by lia. done. }
  assert (E' : take l kbits = take pos kbits ++ bit z pos :: take (l - S pos) (drop (S pos) kbits)).
  { rewrite <- E. rewrite <- (take_drop pos (take l kbits)) at 1. rewrite take_take, Nat.min_l by lia. by rewrite skipn_firstn_comm. }
  rewrite E' in Pj. destruct (off_edge _ _ _ (rp_inv _ _ _ _ HR) i n f _ _ c cn j _ Hi Pi Hb Hc Pj) as [s Es].
  apply (Hoff s). by rewrite E.
Qed.

Lemma walk_child i n pos c cn s :
  h !! i = Some n -> P !! i = Some (f, take pos kbits) -> child n (bit z pos) = Some c -> h !! c = Some cn ->
  pos < klen -> drop pos kbits = edge cn ++ s ->
  P !! c = Some (f, take (pos + nd_len cn) kbits) /\ 0 < nd_len cn /\ pos + nd_len cn <= klen.
Proof.
  intros Hi Pi Hb Hc Hp E. destruct (ti_child _ _ _ (rp_inv _ _ _ _ HR) _ _ _ _ _ _ Hi Pi Hb) as (x & Hx & Pc & E0).
  rewrite Hc in Hx. injection Hx as <-. pose proof (edge_length cn (ti_node _ _ _ (rp_inv _ _ _ _ HR) c cn Hc)) as Hl.
  rewrite (kbits_step pos (edge cn) s E), Hl in Pc. split; [done|]. split.
  - destruct (edge cn); [done|]. cbn in Hl. lia.
  - apply (f_equal length) in E. rewrite length_drop, kbits_length, length_app, Hl in E. lia.
Qed.

Lemma child_node i n b c : h !! i = Some n -> child n b = Some c -> exists cn, h !! c = Some cn.
Proof.
  intros Hi Hb. destruct (path_of_node _ _ _ (rp_inv _ _ _ _ HR) i n Hi) as (g & p & Pi).
  destruct (ti_child _ _ _ (rp_inv _ _ _ _ HR) _ _ _ _ _ _ Hi Pi Hb) as (cn & Hc & _). eauto.
Qed.

Lemma get_at_spec fuel i pos :
  klen - pos < fuel -> pos <= klen -> P !! i = Some (f, take pos kbits) -> get_at fuel t z klen i pos = m !! ((f, kbits) : PKey).
Proof.
  revert i pos. induction fuel as [|fuel IH]; intros i pos Hf Hp Pi; [lia|]. cbn [get_at].
  destruct (node_of_path _ _ _ (rp_inv _ _ _ _ HR) i _ Pi) as [n Hi]. rewrite (ps_get _ _ _ (rp_pool _ _ _ _ HR)), Hi. cbn [mbind option_bind].
  destruct (Nat.ltb_spec pos klen) as [Hlt|Hge]; cbn [negb].
  2: { assert (pos = klen) as -> by lia. rewrite take_ge in Pi by (rewrite kbits_length; lia). symmetry. by eapply rep_at. }
  assert (Hfull : kbits = take klen kbits) by (rewrite take_ge; [done|rewrite kbits_length; lia]).
  destruct (child n (bit z pos)) as [c|] eqn:Hb; cbn [mbind option_bind].
  2: { rewrite Hfull. symmetry. by apply (walk_stop i n pos klen). }
  destruct (child_node i n _ c Hi Hb) as [cn Hc]. pose proof klen_le.
  pose proof (edge_match_spec P h t m z pos (klen - pos) c cn HR Hz ltac:(lia) Hc) as Hem. rewrite <- kbits_drop in Hem.
  destruct (edge_match t c (shl z pos) (klen - pos)) as [step|]; cbn [mbind option_bind].
  - destruct Hem as [-> [s Hs]]. destruct (walk_child i n pos c cn s Hi Pi Hb Hc Hlt Hs) as (Pc & Hpos & Hle).
    rewrite (proj2 (Nat.ltb_ge klen (pos + nd_len cn)) Hle). apply IH; [lia|done|done].
  - rewrite Hfull. symmetry. apply (walk_off i n pos c cn klen); [done..|lia|]. intros s.
    rewrite take_ge by (rewrite length_drop, kbits_length; lia). apply Hem.
Qed.

(** [r] is the longest match among the first [pos] bits. *)
Definition lpm_upto (pos : nat) (r : option V) : Prop :=
  match r with
  | Some v => exists l, l <= pos /\ m !! ((f, take l kbits) : PKey) = Some v /\
      forall l', l < l' <= pos -> m !! ((f, take l' kbits) : PKey) = None
  | None => forall l, l <= pos -> m !! ((f, take l kbits) : PKey) = None
  end.

Lemma lpm_extend pos pos' r :
  lpm_upto pos r -> pos <= pos' -> (forall l, pos < l <= pos' -> m !! ((f, take l kbits) : PKey) = None) -> lpm_upto pos' r.
Proof.
  intros H Hle Hno. destruct r as [v|]; cbn in *.
  - destruct H as (l & Hl & E & Hl'). exists l. split; [lia|]. split; [done|]. intros l' Hb.
    destruct (decide (l' <= pos)); [apply Hl'; lia|apply Hno; lia].
  - intros l Hl. destruct (decide (l <= pos)); [by apply H|apply Hno; lia].
Qed.

Lemma lpm_hit pos v : m !! ((f, take pos kbits) : PKey) = Some v -> lpm_upto pos (Some v).
Proof. intros E. exists pos. split; [done|]. split; [done|]. lia. Qed.

Lemma lookup_at_spec fuel i pos best :
  klen - pos < fuel -> pos <= klen -> P !! i = Some (f, take pos kbits) -> lpm_upto pos best ->
  lpm_upto klen (lookup_at fuel t z klen i pos best).
Proof.
  revert i pos best. induction fuel as [|fuel IH]; intros i pos best Hf Hp Pi Hb0; [lia|]. cbn [lookup_at].
  destruct (Nat.ltb_spec pos klen) as [Hlt|Hge]; cbn [negb]; [|by assert (pos = klen) as <- by lia].
  destruct (node_of_path _ _ _ (rp_inv _ _ _ _ HR) i _ Pi) as [n Hi]. rewrite (ps_get _ _ _ (rp_pool _ _ _ _ HR)), Hi. cbn [mbind option_bind].
  destruct (child n (bit z pos)) as [c|] eqn:Hb.
  2: { apply (lpm_extend pos); [done|lia|]. intros l Hl. by apply (walk_stop i n pos l). }
  destruct (child_node i n _ c Hi Hb) as [cn Hc]. pose proof klen_le.
  pose proof (edge_match_spec P h t m z pos (klen - pos) c cn HR Hz ltac:(lia) Hc) as Hem. rewrite <- kbits_drop in Hem.
  destruct (edge_match t c (shl z pos) (klen - pos)) as [step|].
  - destruct Hem as [-> [s Hs]]. destruct (walk_child i n pos c cn s Hi Pi Hb Hc Hlt Hs) as (Pc & Hpos & Hle).
    rewrite (proj2 (Nat.ltb_ge klen (pos + nd_len cn)) Hle), (ps_get _ _ _ (rp_pool _ _ _ _ HR)), Hc. cbn [mbind option_bind].
    apply IH; [lia|done|done|]. pose proof (rep_at P h t m c cn _ HR Pc Hc) as Hv.
    destruct (nd_value cn) as [v|]; [by apply lpm_hit|]. apply (lpm_extend pos); [done|lia|]. intros l Hl.
    destruct (decide (l = pos + nd_len cn)) as [->|Hne]; [done|]. apply (walk_off i n pos c cn l); [done..|lia|].
    intros s' E. apply (f_equal length) in E. rewrite length_take, length_drop, kbits_length, length_app in E.
    rewrite (edge_length cn (ti_node _ _ _ (rp_inv _ _ _ _ HR) c cn Hc)) in E. lia.
  - apply (lpm_extend pos); [done|lia|]. intros l Hl. apply (walk_off i n pos c cn l); [done..|]. intros s' E.
    apply (Hem (s' ++ drop (l - pos) (drop pos kbits))). rewrite <- (take_drop (l - pos) (drop pos kbits)) at 1.
    by rewrite E, app_assoc.
Qed.

End Walk.

(** ** The public readers *)

Context {CR : Cidr} {CL : CidrLaws}.

Lemma key_bits ip l :
  l <= addr_width ip -> let '(k, w, root) := key ip in
  is_u128 k /\ w = fam_width (is_ipv6 ip) /\ root = Nat.b2n (is_ipv6 ip) /\ (is_ipv6 ip, kbits k l) = prefix_key ip l.
Proof.
  intros Hl. pose proof (key_spec ip) as H. destruct (key ip) as [[k w] root]. destruct H as (Hk & Hw & Hr & E).
  split_and!; [done|by destruct ip|done|]. unfold prefix_key, kbits. f_equal. rewrite <- E, take_take. f_equal. lia.
Qed.

Lemma addr_width_fam ip : addr_width ip = fam_width (is_ipv6 ip).
Proof. by destruct ip. Qed.

Lemma pt_get_spec t m net : trie_rep t m -> pt_get t net = m !! ckey net.
Proof.
  intros (P & h & HR). unfold pt_get, ckey. pose proof (cidr_length net) as Hl.
  pose proof (key_bits (first_address net) (network_length net) Hl) as H. destruct (key (first_address net)) as [[k w] root].
  destruct H as (Hk & _ & -> & <-). rewrite addr_width_fam in Hl. pose proof (fam_width_le (is_ipv6 (first_address net))).
  eapply (get_at_spec k _ _ Hk Hl P h t m HR); [unfold FUEL; lia|lia|apply (ti_root _ _ _ (rp_inv _ _ _ _ HR))].
Qed.

Lemma pt_lookup_spec t m ip : trie_rep t m -> is_lpm m ip (pt_lookup t ip).
Proof.
  intros (P & h & HR). unfold pt_lookup. pose proof (fam_width_le (is_ipv6 ip)) as H128. pose proof (addr_width_fam ip) as Hw.
  pose proof (fun l (Hl : l <= addr_width ip) => key_bits ip l Hl) as H0.
  destruct (key ip) as [[k w] root]. destruct (H0 _ (Nat.le_refl _)) as (Hk & -> & -> & _).
  assert (Hbits : forall l, l <= addr_width ip -> (is_ipv6 ip, take l (kbits k (fam_width (is_ipv6 ip)))) = prefix_key ip l).
  { intros l Hl. destruct (H0 l Hl) as (_ & _ & _ & <-). f_equal. unfold kbits. rewrite take_take. f_equal. lia. }
  pose proof (ti_root _ _ _ (rp_inv _ _ _ _ HR) (is_ipv6 ip)) as Pr.
  destruct (node_of_path _ _ _ (rp_inv _ _ _ _ HR) _ _ Pr) as [n Hn]. rewrite (ps_get _ _ _ (rp_pool _ _ _ _ HR)), Hn. cbn [mbind option_bind].
  pose proof (lookup_at_spec k (fam_width (is_ipv6 ip)) (is_ipv6 ip) Hk (Nat.le_refl _) P h t m HR FUEL (Nat.b2n (is_ipv6 ip)) 0 (nd_value n)) as Hl.
  assert (H : lpm_upto k (fam_width (is_ipv6 ip)) (is_ipv6 ip) m (fam_width (is_ipv6 ip))
    (lookup_at FUEL t k (fam_width (is_ipv6 ip)) (Nat.b2n (is_ipv6 ip)) 0 (nd_value n))).
  { apply Hl; [unfold FUEL; lia|lia|done|]. pose proof (rep_at P h t m _ n _ HR Pr Hn) as Hv.
    destruct (nd_value n) as [v|]; [by apply lpm_hit|]. intros l Hle. by assert (l = 0) as -> by lia. }
  unfold is_lpm. rewrite Hw in *. destruct (lookup_at _ _ _ _ _ _ _) as [v|]; cbn in H.
  - destruct H as (l & Hle & E & Hno). exists l. rewrite <- Hbits by done. split_and!; [done..|]. intros l' Hl'. rewrite <- Hbits by lia. by apply Hno.
  - intros l Hle. rewrite <- Hbits by done. by apply H.
Qed.


(** ** Capacity *)

Lemma length_retain_split {A} (p : A -> bool) l :
  length l = length (retain p l) + length (retain (fun x => negb (p x)) l).
Proof. induction l as [|x l IH]; cbn; [done|]. destruct (p x); cbn; lia. Qed.

Definition kids (x : nat * Node) : list nat := option_list (nd_zero x.2) ++ option_list (nd_one x.2).

Lemma elem_of_olist {A} (c : A) o : c ∈ option_list o <-> o = Some c.
Proof. destruct o as [x|]; cbn; [rewrite list_elem_of_singleton; split; congruence|]. split; [by intros ?%elem_of_nil|done]. Qed.

Lemma elem_of_kids c x : c ∈ kids x <-> exists b, child x.2 b = Some c.
Proof.
  unfold kids. rewrite elem_of_app, !elem_of_olist. split.
  - intros [H|H]; [by exists false|by exists true].
  - intros [[] H]; auto.
Qed.

Lemma kids_sum (q : nat * Node -> bool) (l : list (nat * Node)) :
  (forall x, x ∈ l -> q x = true -> is_Some (nd_zero x.2) /\ is_Some (nd_one x.2)) ->
  2 * length (retain q l) <= length (l ≫= kids).
Proof.
  induction l as [|x l IH]; intros H; [done|]. rewrite bind_cons, length_app. cbn [retain].
  specialize (IH (fun y Hy => H y (proj2 (elem_of_cons _ _ _) (or_intror Hy)))).
  destruct (q x) eqn:Eq; [|lia]. destruct (H x (proj2 (elem_of_cons _ _ _) (or_introl eq_refl)) Eq) as [[a Ha] [b Hb]].
  unfold kids at 1. rewrite Ha, Hb. cbn. lia.
Qed.

(** Every prefix needs at most two nodes besides the roots. *)
Lemma rep_capacity P h t m : rep P h t m -> used t <= 2 * size m.
Proof.
  intros [Hp HI Hm]. pose proof (ps_used _ _ _ Hp) as Hu. set (L := map_to_list h).
  assert (HL : forall i n, (i, n) ∈ L <-> h !! i = Some n) by (intros; apply elem_of_map_to_list).
  assert (Hnd : NoDup L.*1) by apply NoDup_fst_map_to_list.
  set (nr := fun x : nat * Node => 2 <=? x.1). set (val := fun x : nat * Node => bool_decide (is_Some (nd_value x.2))).
  assert (Hlen : length L = size h) by apply length_map_to_list.
  assert (Hroots : length (retain (fun x => negb (nr x)) L) <= 2).
  { change 2 with (length [0; 1]). rewrite <- (length_fmap fst). apply submseteq_length, NoDup_submseteq; [by apply NoDup_fmap_retain|].
    intros i. rewrite list_elem_of_fmap. intros (x & -> & Hx). apply elem_of_retain in Hx as [Hx _]. unfold nr in Hx. cbn in Hx. bool_to_prop.
    destruct x as [[|[|i]] n]; cbn in *; [set_solver|set_solver|lia]. }
  pose proof (length_retain_split nr L) as E1. pose proof (length_retain_split val (retain nr L)) as E2.
  assert (Hval : length (retain val (retain nr L)) <= size m).
  { rewrite <- size_dom. rewrite <- (length_fmap (fun x => default (false, []) (P !! x.1))).
    assert (Hnd2 : NoDup ((fun x : nat * Node => default (false, []) (P !! x.1)) <$> retain val (retain nr L))).
    { apply NoDup_fmap_2_strong; [|apply (NoDup_fmap_1 fst); do 2 apply NoDup_fmap_retain; done].
      intros [i n] [j n'] [_ [_ Hi%HL]%elem_of_retain]%elem_of_retain [_ [_ Hj%HL]%elem_of_retain]%elem_of_retain. cbn. intros E.
      destruct (path_of_node _ _ _ HI i n Hi) as (f & q & Pi). destruct (path_of_node _ _ _ HI j n' Hj) as (g & q' & Pj).
      rewrite Pi, Pj in E. cbn in E. assert (i = j) as -> by (eapply (ti_inj _ _ _ HI); [exact Pi|by rewrite E]). congruence. }
    rewrite <- (size_list_to_set (C := gset PKey) _ Hnd2). apply subseteq_size. intros k. rewrite elem_of_list_to_set, list_elem_of_fmap.
    intros ([i n] & -> & [Hv [_ Hi%HL]%elem_of_retain]%elem_of_retain). unfold val in Hv. apply bool_decide_eq_true in Hv as [v Hv].
    destruct (path_of_node _ _ _ HI i n Hi) as (f & q & Pi). cbn. rewrite Pi. cbn. apply elem_of_dom. exists v. apply Hm. by exists i, n. }
  assert (Hkids : length (L ≫= kids) <= length (retain nr L)).
  { rewrite <- (length_fmap fst (retain nr L)). apply submseteq_length, NoDup_submseteq.
    - apply NoDup_bind.
      + intros [i n] [j n'] c Hi%HL Hj%HL [b Hb]%elem_of_kids [b' Hb']%elem_of_kids. cbn in *.
        destruct (parent_unique _ _ _ HI i j n n' b b' c Hi Hb Hj Hb') as [-> _]. congruence.
      + intros [i n] Hi%HL. unfold kids. cbn. destruct (nd_zero n) as [a|] eqn:Ea, (nd_one n) as [b|] eqn:Eb; cbn;
          [|apply NoDup_singleton|apply NoDup_singleton|constructor].
        apply NoDup_cons_2; [|apply NoDup_singleton]. intros ->%list_elem_of_singleton.
        destruct (parent_unique _ _ _ HI i i n n false true b Hi Ea Hi Eb) as [_ ?]. done.
      + by apply NoDup_map_to_list.
    - intros c ([i n] & [b Hb]%elem_of_kids & Hi%HL)%list_elem_of_bind. cbn in Hb.
      destruct (child_ge _ _ _ HI i n b c Hi Hb) as [Hge _]. destruct (path_of_node _ _ _ HI i n Hi) as (f & q & Pi).
      destruct (ti_child _ _ _ HI _ _ _ _ _ _ Hi Pi Hb) as (cn & Hc & _). apply list_elem_of_fmap. exists (c, cn). split; [done|].
      apply elem_of_retain. split; [by apply Nat.leb_le|by apply HL]. }
  assert (Hsum : 2 * length (retain (fun x => negb (val x)) (retain nr L)) <= length (retain nr L ≫= kids)).
  { apply kids_sum. intros [i n] [Hnr Hi%HL]%elem_of_retain Hv. unfold nr, val in *. cbn [fst snd] in *. apply Nat.leb_le in Hnr.
    apply negb_true_iff, bool_decide_eq_false in Hv. by destruct (ti_full _ _ _ HI i n Hi Hnr) as [?|?]. }
  assert (Hsub : length (retain nr L ≫= kids) <= length (L ≫= kids)).
  { clear. induction L as [|x L IH]; [done|]. rewrite bind_cons, length_app. cbn [retain]. destruct (nr x); [rewrite bind_cons, length_app|]; lia. }
  lia.
Qed.

Lemma rep_available P h t m : rep P h t m -> size m < MAX_PREFIXES -> 2 <= available MAX_PREFIXES t.
Proof. intros HR Hs. pose proof (rep_capacity P h t m HR). unfold available. lia. Qed.

End TrieSpec.
