(* ===== verification/TrieMap.v ===== *)
(** * Insertion into and removal from the prefix trie

    On a well-formed trie both are total; [insert] fails only when fewer than two nodes
    are free, and otherwise they are the insertion into and the removal from the finite
    map the trie stores. *)

From S2P Require Import Prelude Ip Cidr PrefixTrie TrieInv.
Local Open Scope nat_scope.

Section TrieUpdate.
Context {V : Type}.
Notation Node := (@Node V).
Notation NodePool := (@NodePool V).
Context (MAX_PREFIXES : nat).
Notation rep := (@rep V MAX_PREFIXES).
Notation trie_rep := (@trie_rep V MAX_PREFIXES).

(** ** Nodes *)

Lemma bit_shl x n i : n + i < 128 -> bit (shl x n) i = bit x (n + i).
Proof.
  intros H. assert (E : run (shl x n) !! i = Some (bit (shl x n) i)) by (apply run_lookup; lia).
  rewrite run_shl, lookup_app_l, lookup_drop, run_lookup in E by (rewrite ?length_drop, ?run_length; lia). by injection E as <-.
Qed.

Lemma new_ok bits len : is_u128 bits -> len <= 128 -> node_ok (node_new bits len : Node).
Proof.
  intros Hb Hl. split; [by apply mask_range|]. split; [done|]. cbn [nd_bits nd_len node_new]. rewrite run_mask.
  assert (E : length (take len (run bits)) = len) by (rewrite length_take, run_length; lia). by rewrite drop_app_length'.
Qed.

Lemma new_edge bits len : len <= 128 -> edge (node_new bits len : Node) = take len (run bits).
Proof.
  intros Hl. unfold edge. cbn [nd_bits nd_len node_new]. rewrite run_mask.
  assert (E : length (take len (run bits)) = len) by (rewrite length_take, run_length; lia). by rewrite take_app_length'.
Qed.

Lemma edge_first (n : Node) : node_ok n -> 0 < nd_len n -> edge n !! 0 = Some (bit (nd_bits n) 0).
Proof. intros _ Hl. unfold edge. rewrite lookup_take_lt by done. apply run_lookup. lia. Qed.

(** The lower part of an edge cut after [s] bits. *)
Lemma cut_ok (n : Node) s :
  node_ok n -> s <= nd_len n ->
  node_ok (set_edge (shl (nd_bits n) s) (nd_len n - s) n) /\ edge (set_edge (shl (nd_bits n) s) (nd_len n - s) n) = drop s (edge n).
Proof.
  intros (Hb & Hl & Hz) Hs. split.
  - split; [apply shl_range|]. split; [cbn; lia|]. cbn [nd_bits nd_len set_edge]. rewrite run_shl.
    rewrite drop_app_le by (rewrite length_drop, run_length; lia). rewrite drop_drop. replace (s + (nd_len n - s)) with (nd_len n) by lia.
    rewrite Hz, <- replicate_add. f_equal. lia.
  - unfold edge. cbn [nd_bits nd_len set_edge]. rewrite run_shl, take_app_le by (rewrite length_drop, run_length; lia). by rewrite skipn_firstn_comm.
Qed.

(** The joined edge of a node and its only child. *)
Lemma join_ok (n c : Node) :
  node_ok n -> node_ok c -> nd_len c + nd_len n <= 128 ->
  let c' := set_edge (Z.lor (nd_bits n) (shr (nd_bits c) (nd_len n))) (nd_len c + nd_len n) c in
  node_ok c' /\ edge c' = edge n ++ edge c.
Proof.
  intros (Hb & Hl & Hz) (Hb' & Hl' & Hz') Hs c'.
  assert (Hr : run (Z.lor (nd_bits n) (shr (nd_bits c) (nd_len n))) = take (nd_len n) (run (nd_bits n)) ++ take (128 - nd_len n) (run (nd_bits c)))
    by by apply run_join.
  assert (E : length (take (nd_len n) (run (nd_bits n))) = nd_len n) by (rewrite length_take, run_length; lia). split.
  - split; [apply lor_range; [done|by apply shr_range]|]. split; [cbn; lia|]. cbn [nd_bits nd_len set_edge c']. rewrite Hr.
    rewrite drop_app_ge by lia. rewrite E. replace (nd_len c + nd_len n - nd_len n) with (nd_len c) by lia.
    rewrite skipn_firstn_comm, Hz'. rewrite take_replicate. f_equal. lia.
  - unfold edge. cbn [nd_bits nd_len set_edge c']. rewrite Hr. rewrite take_app_ge by lia. rewrite E. f_equal. rewrite take_take. f_equal. lia.
Qed.

(** ** Pool steps *)

Lemma rep_get P h t m i : rep P h t m -> pool_get t i = h !! i.
Proof. intros HR. apply (ps_get _ _ _ (rp_pool _ _ _ _ _ HR)). Qed.

(** The map after storing [v] for [k]. *)
Lemma carries_insert P h P' h' (m : gmap PKey V) (k : PKey) v :
  (forall w x, m !! w = Some x <-> carries P h w x) ->
  (forall w x, carries P' h' w x <-> (w = k /\ v = x) \/ (w <> k /\ carries P h w x)) ->
  forall w x, <[k := v]> m !! w = Some x <-> carries P' h' w x.
Proof. intros H1 H2 w x. rewrite lookup_insert_Some, H2, H1. naive_solver. Qed.

(** ** Insertion *)

Section Insert.
Context (z : Z) (klen : nat) (f : bool) (Hz : is_u128 z) (Hk : klen <= fam_width f) (v : V).
Context (P : gmap nat (bool * list bool)) (h : gmap nat Node) (t : NodePool) (m : gmap PKey V) (HR : rep P h t m).
Notation kb := (kbits z klen).

(** What an insertion of [v] for the key may answer. *)
Definition inserted (r : option (option V)) (t' : NodePool) : Prop :=
  (r = None /\ t' = t /\ available MAX_PREFIXES t < 2 /\ m !! ((f, kb) : PKey) = None) \/
  (r = Some (m !! ((f, kb) : PKey)) /\ trie_rep t' (<[((f, kb) : PKey) := v]> m)).

Lemma insert_here i n :
  h !! i = Some n -> P !! i = Some (f, kb) ->
  exists t', pool_update i (set_value (Some v)) t = Some t' /\ inserted (Some (nd_value n)) t'.
Proof.
  intros Hi Pi. destruct HR as [Hp HI Hm].
  destruct (pool_update_is MAX_PREFIXES t h i (set_value (Some v)) n Hp Hi) as (t' & E & Hp' & _). exists t'. split; [done|]. right.
  split; [f_equal; symmetry; by apply (rep_at MAX_PREFIXES P h t m i n _ HR)|].
  exists P, (<[i := set_value (Some v) n]> h). split; [done| |].
  - apply (inv_full i _ _ (set_value (Some v) n)); [apply (inv_value None); auto|by rewrite lookup_insert, decide_True|]. intros _. left. by exists v.
  - apply (carries_insert P h); [done|]. intros w x. rewrite (carries_value i P h n (f, kb) (Some v) w x (ti_inj _ _ _ HI) Hi Pi). naive_solver.
Qed.

Lemma insert_leaf i n pos :
  h !! i = Some n -> P !! i = Some (f, take pos kb) -> child n (bit z pos) = None -> pos < klen ->
  exists r t', (if negb (check_capacity MAX_PREFIXES t 1) then Some (None, t) else
     '(leaf, t) ← pt_alloc (shl z pos) (klen - pos) t;
     t ← pool_update leaf (set_value (Some v)) t;
     t ← pool_update i (set_child (bit z pos) (Some leaf)) t;
     Some (Some None, t)) = Some (r, t') /\ inserted r t'.
Proof.
  intros Hi Pi Hb Hpos. pose proof (klen_le klen f Hk). unfold check_capacity.
  assert (Hfresh : m !! ((f, kb) : PKey) = None).
  { assert (Efull : kb = take klen kb) by (rewrite take_ge; [done|rewrite (kbits_length z klen f Hk); lia]). rewrite Efull.
    by apply (walk_stop MAX_PREFIXES z klen f Hk P h t m HR i n pos klen). }
  destruct (Nat.leb_spec 1 (available MAX_PREFIXES t)) as [Ha|Ha]; cbn [negb].
  2: { eexists _, _. split; [done|]. left. split_and!; [done..|lia|done]. }
  pose proof HR as [Hp HI Hm]. set (b := bit z pos) in *.
  destruct (pool_alloc_is MAX_PREFIXES t h (node_new (shl z pos) (klen - pos)) Hp Ha) as (id & t1 & E1 & Hid & Hge & Hp1 & _).
  unfold pt_alloc. rewrite E1. cbn [mbind option_bind].
  destruct (pool_update_is MAX_PREFIXES t1 _ id (set_value (Some v)) _ Hp1 ltac:(rewrite lookup_insert, decide_True by done; done)) as (t2 & E2 & Hp2 & _).
  rewrite E2. cbn [mbind option_bind]. rewrite insert_insert_eq in Hp2. set (leaf := set_value (Some v) _) in *.
  assert (Hne : i <> id) by congruence.
  destruct (pool_update_is MAX_PREFIXES t2 _ i (set_child b (Some id)) n Hp2) as (t3 & E3 & Hp3 & _).
  { by rewrite lookup_insert, decide_False by congruence. }
  rewrite E3. cbn [mbind option_bind]. eexists _, _. split; [done|]. right.
  assert (Hedge : edge leaf = drop pos kb).
  { unfold leaf. change (edge (set_value (Some v) ?x)) with (edge x). rewrite new_edge by lia. rewrite run_shl, take_app_le by (rewrite length_drop, run_length; lia).
    by rewrite kbits_drop. }
  assert (Hok : node_ok leaf) by (apply (new_ok (shl z pos)); [apply shl_range|lia]).
  assert (E0 : edge leaf !! 0 = Some b) by (rewrite Hedge, (kbits_next z klen f Hk pos Hpos); done).
  assert (Epath : take pos kb ++ edge leaf = kb) by (rewrite Hedge; apply take_drop).
  assert (HI' : trie_inv None (<[id := (f, take pos kb ++ edge leaf)]> P) (<[i := set_child b (Some id) n]> (<[id := leaf]> h))).
  { apply inv_leaf; try done. by rewrite Epath, (kbits_length z klen f Hk). }
  split.
  - by rewrite Hfresh.
  - eexists _, _. split; [exact Hp3|exact HI'|]. apply (carries_insert P h); [done|]. intros w x.
    rewrite (carries_leaf None i P h n f (take pos kb) b id leaf v w x HI Hi Pi Hb Hid E0 eq_refl). by rewrite Epath.
Qed.

(** *** Splitting an edge *)

Section Split.
Context (i c pos : nat) (n cn : Node).
Hypotheses (Hi : h !! i = Some n) (Pi : P !! i = Some (f, take pos kb)) (Hb : child n (bit z pos) = Some c).
Hypotheses (Hc : h !! c = Some cn) (Hpos : pos < klen).
Let rest := shl z pos.
Let remaining := klen - pos.
Let shared := common_len rest (nd_bits cn) (Nat.min (nd_len cn) remaining).
Hypothesis (Hsh : shared <> nd_len cn).
Let b2 := bit (shl (nd_bits cn) shared) 0.
Let cn' := set_edge (shl (nd_bits cn) shared) (nd_len cn - shared) cn.

(** Facts on the shared part. *)
Lemma split_facts :
  node_ok cn /\ 0 < shared /\ shared < nd_len cn /\ shared <= remaining /\
  take shared (drop pos kb) = take shared (edge cn) /\
  (shared < remaining -> bit z (pos + shared) <> b2) /\ edge cn !! 0 = Some (bit z pos).
Proof.
  pose proof (klen_le klen f Hk). pose proof (rp_inv _ _ _ _ _ HR) as HI. pose proof (ti_node _ _ _ HI c cn Hc) as Hok.
  pose proof Hok as (Hbits & Hlen & _). destruct (ti_child _ _ _ HI _ _ _ _ _ _ Hi Pi Hb) as (x & Hx & Pc & E0).
  rewrite Hc in Hx. injection Hx as <-. assert (Hcl : 0 < nd_len cn).
  { pose proof (edge_length cn Hok). destruct (edge cn); [done|cbn in *; lia]. }
  destruct (common_len_spec rest (nd_bits cn) (Nat.min (nd_len cn) remaining) (shl_range _ _) Hbits ltac:(lia)) as (H1 & H2 & H3).
  fold shared in H1, H2, H3.
  assert (Hfirst : bit (nd_bits cn) 0 = bit z pos) by (rewrite edge_first in E0 by done; by injection E0).
  assert (Hrest : forall k, pos + k < 128 -> bit rest k = bit z (pos + k)) by (intros k Hlt; by apply bit_shl).
  split_and!; [done| |lia|lia| | |done].
  - destruct (decide (shared = 0)) as [E|]; [|lia]. exfalso. apply H3; [unfold remaining; lia|]. rewrite E, Hrest, Nat.add_0_r, Hfirst by lia. done.
  - unfold edge. rewrite take_take, Nat.min_l by lia. rewrite <- H2. unfold rest. rewrite run_shl, take_app_le by (rewrite length_drop, run_length; unfold remaining in *; lia).
    rewrite kbits_drop, take_take. f_equal. unfold remaining in *. lia.
  - intros Hlt. rewrite <- Hrest by (unfold remaining in *; lia). unfold b2. rewrite bit_shl by lia. rewrite Nat.add_0_r. apply H3. lia.
Qed.

Let midn := set_child b2 (Some c) (node_new (nd_bits cn) shared : Node).

Lemma split_mid_facts :
  edge midn = take shared (edge cn) /\ node_ok midn /\ node_ok cn' /\ edge cn' = drop shared (edge cn) /\ edge cn' !! 0 = Some b2 /\
  (forall b, child (node_new (nd_bits cn) shared : Node) b = None).
Proof.
  destruct split_facts as (Hok & H0 & Hlt & Hr & _ & _ & _). pose proof Hok as (Hbits & Hlen & _).
  destruct (cut_ok cn shared Hok) as [Hok' He]; [lia|]. split_and!; [| |done|done| |by intros []].
  - unfold midn. rewrite edge_set_child, new_edge by lia. unfold edge. rewrite take_take. f_equal. lia.
  - unfold midn. rewrite ok_set_child. apply new_ok; [done|lia].
  - unfold cn'. rewrite edge_first; [done|done|]. cbn. lia.
Qed.

Lemma split_key_fresh : m !! ((f, kb) : PKey) = None.
Proof.
  destruct split_facts as (Hok & H0 & Hlt & Hr & Htake & Hdiff & _).
  assert (Efull : kb = take klen kb) by (rewrite take_ge; [done|rewrite (kbits_length z klen f Hk); lia]). rewrite Efull.
  apply (walk_off MAX_PREFIXES z klen f Hk P h t m HR i n pos c cn klen); [done..|lia|]. intros s E.
  rewrite take_ge in E by (rewrite length_drop, (kbits_length z klen f Hk); lia).
  pose proof (edge_length cn Hok) as Hel.
  destruct (decide (shared < remaining)) as [Hsr|Hsr].
  - apply (Hdiff Hsr). assert (Hx : drop pos kb !! shared = Some (bit z (pos + shared))).
    { rewrite lookup_drop. unfold kbits. rewrite lookup_take_lt by (unfold remaining in *; lia). apply run_lookup. pose proof (klen_le klen f Hk). unfold remaining in *; lia. }
    rewrite E, lookup_app_l in Hx by lia. unfold edge in Hx. rewrite lookup_take_lt, run_lookup in Hx by (destruct Hok as (_ & ? & _); lia).
    injection Hx as <-. unfold b2. rewrite bit_shl by (destruct Hok as (_ & ? & _); lia). by rewrite Nat.add_0_r.
  - apply (f_equal length) in E. rewrite length_drop, (kbits_length z klen f Hk), length_app, Hel in E. unfold remaining in *. lia.
Qed.

(** The heap after the split. *)
Let hs (mid : nat) := <[i := set_child (bit z pos) (Some mid) n]> (<[mid := midn]> (<[c := cn']> h)).
Let Ps (mid : nat) := <[mid := (f, take pos kb ++ edge midn)]> P.

Lemma split_pool mid t1 :
  h !! mid = None -> pool_is MAX_PREFIXES t1 (<[mid := node_new (nd_bits cn) shared]> h) ->
  exists t4,
    (t ← pool_update c (set_edge (shl (nd_bits cn) shared) (nd_len cn - shared)) t1;
     cn ← pool_get t c;
     t ← pool_update mid (set_child (bit (nd_bits cn) 0) (Some c)) t;
     pool_update i (set_child (bit z pos) (Some mid)) t) = Some t4 /\
    pool_is MAX_PREFIXES t4 (hs mid) /\ used t4 = used t1.
Proof.
  intros Hmid Hp1. assert (N1 : mid <> c) by congruence. assert (N2 : mid <> i) by congruence.
  assert (N3 : c <> i) by (apply (child_ge _ _ _ (rp_inv _ _ _ _ _ HR) i n _ c Hi Hb)).
  destruct (pool_update_is _ t1 _ c (set_edge (shl (nd_bits cn) shared) (nd_len cn - shared)) cn Hp1) as (t2 & E2 & Hp2 & U2).
  { by rewrite lookup_insert, decide_False. }
  rewrite E2. cbn [mbind option_bind]. rewrite (ps_get _ _ _ Hp2), lookup_insert, decide_True by done. cbn [mbind option_bind].
  destruct (pool_update_is _ t2 _ mid (set_child b2 (Some c)) (node_new (nd_bits cn) shared) Hp2) as (t3 & E3 & Hp3 & U3).
  { by rewrite !lookup_insert, decide_False, decide_True. }
  change (nd_bits (set_edge (shl (nd_bits cn) shared) (nd_len cn - shared) cn)) with (shl (nd_bits cn) shared). fold b2. rewrite E3. cbn [mbind option_bind].
  destruct (pool_update_is _ t3 _ i (set_child (bit z pos) (Some mid)) n Hp3) as (t4 & E4 & Hp4 & U4).
  { by rewrite !lookup_insert, !decide_False by congruence. }
  exists t4. split; [done|]. split; [|congruence].
  assert (Eh : hs mid = <[i := set_child (bit z pos) (Some mid) n]> (<[mid := midn]> (<[c := cn']> (<[mid := node_new (nd_bits cn) shared]> h)))).
  { unfold hs. f_equal. apply map_eq. intros j. rewrite !lookup_insert. repeat case_decide; congruence. }
  by rewrite Eh.
Qed.

Lemma split_step mid :
  h !! mid = None -> 2 <= mid ->
  trie_inv (Some mid) (Ps mid) (hs mid) /\ forall k x, carries (Ps mid) (hs mid) k x <-> carries P h k x.
Proof.
  intros Hmid Hge. destruct split_facts as (Hok & H0 & Hlt & _ & _ & _ & E0). destruct split_mid_facts as (Em & Hmok & Hcok & Ec & Ec0 & Hch).
  assert (Hrun : edge cn = edge midn ++ edge cn') by (by rewrite Em, Ec, take_drop).
  assert (E1 : edge midn !! 0 = Some (bit z pos)) by (by rewrite Em, lookup_take_lt).
  assert (Hm2 : child midn b2 = Some c) by (unfold midn; rewrite child_set; by rewrite decide_True).
  assert (Hm3 : child midn (negb b2) = None) by (unfold midn; rewrite child_set, decide_False by (by destruct b2); apply Hch).
  assert (Hmv : nd_value midn = None) by (unfold midn; by rewrite value_set_child).
  split; [by apply (inv_split None P h (rp_inv _ _ _ _ _ HR) i c mid n cn midn cn' f (bit z pos) b2 (take pos kb))|].
  intros k x. by apply (carries_split None P h (rp_inv _ _ _ _ _ HR) i c mid n cn midn cn' f (bit z pos) b2 (take pos kb)).
Qed.

Lemma split_at_mid_node mid : h !! mid = None -> hs mid !! mid = Some midn.
Proof. intros Hmid. assert (mid <> i) by congruence. unfold hs. by rewrite !lookup_insert, decide_False, decide_True by congruence. Qed.

Lemma split_path_at_mid mid : Ps mid !! mid = Some (f, take pos kb ++ edge midn).
Proof. unfold Ps. by rewrite lookup_insert, decide_True. Qed.

(** The new key ends inside the edge. *)
Lemma split_ends mid t4 :
  h !! mid = None -> 2 <= mid -> pool_is MAX_PREFIXES t4 (hs mid) -> shared = remaining ->
  exists t5, pool_update mid (set_value (Some v)) t4 = Some t5 /\ inserted (Some None) t5.
Proof.
  intros Hmid Hge Hp4 E. destruct (split_step mid Hmid Hge) as [HI4 Hcar].
  destruct (pool_update_is _ t4 _ mid (set_value (Some v)) midn Hp4 (split_at_mid_node mid Hmid)) as (t5 & E5 & Hp5 & _).
  exists t5. split; [done|]. right. split; [by rewrite split_key_fresh|].
  assert (Epath : take pos kb ++ edge midn = kb).
  { destruct split_facts as (_ & _ & _ & _ & Htake & _). destruct split_mid_facts as (Em & _). rewrite Em, <- Htake, E.
    rewrite (take_ge (drop pos kb)); [apply take_drop|]. rewrite length_drop, (kbits_length z klen f Hk). done. }
  eexists _, _. split; [exact Hp5| |].
  - eapply inv_full; [eapply inv_value; [exact HI4|apply split_at_mid_node, Hmid|by right]|by rewrite lookup_insert, decide_True|].
    intros _. left. by exists v.
  - apply (carries_insert P h); [apply HR|]. intros w x. pose proof (split_path_at_mid mid) as Pm. rewrite Epath in Pm.
    rewrite (carries_value mid (Ps mid) (hs mid) midn (f, kb) (Some v) w x (ti_inj _ _ _ HI4) (split_at_mid_node mid Hmid) Pm), Hcar. naive_solver.
Qed.

(** The new key leaves the edge: a leaf beside its lower part. *)
Lemma split_forks mid t4 :
  h !! mid = None -> 2 <= mid -> pool_is MAX_PREFIXES t4 (hs mid) -> shared <> remaining -> 1 <= available MAX_PREFIXES t4 ->
  exists t7,
    ('(leaf, t) ← pt_alloc (shl rest shared) (remaining - shared) t4;
     t ← pool_update leaf (set_value (Some v)) t;
     ln ← pool_get t leaf;
     pool_update mid (set_child (bit (nd_bits ln) 0) (Some leaf)) t) = Some t7 /\ inserted (Some None) t7.
Proof.
  intros Hmid Hge Hp4 E Ha. destruct (split_step mid Hmid Hge) as [HI4 Hcar]. pose proof (klen_le klen f Hk).
  destruct split_facts as (Hok & H0 & Hlt & Hr & Htake & Hdiff & _). destruct split_mid_facts as (Em & Hmok & Hcok & Ec & Ec0 & Hch).
  destruct (pool_alloc_is _ t4 _ (node_new (shl rest shared) (remaining - shared)) Hp4 Ha) as (id & t5 & E5 & Hid & Hge5 & Hp5 & _).
  unfold pt_alloc. rewrite E5. cbn [mbind option_bind].
  destruct (pool_update_is _ t5 _ id (set_value (Some v)) _ Hp5 ltac:(rewrite lookup_insert, decide_True by done; done)) as (t6 & E6 & Hp6 & _).
  rewrite E6. cbn [mbind option_bind]. rewrite insert_insert_eq in Hp6. set (leaf := set_value (Some v) _) in *.
  rewrite (ps_get _ _ _ Hp6), lookup_insert, decide_True by done. cbn [mbind option_bind].
  assert (Hne : mid <> id). { intros <-. by rewrite (split_at_mid_node mid Hmid) in Hid. }
  destruct (pool_update_is _ t6 _ mid (set_child (bit (nd_bits leaf) 0) (Some id)) midn Hp6) as (t7 & E7 & Hp7 & _).
  { rewrite lookup_insert, decide_False by congruence. by apply split_at_mid_node. }
  exists t7. split; [done|]. right. split; [by rewrite split_key_fresh|].
  assert (Hleaf : node_ok leaf) by (apply (new_ok (shl rest shared)); [apply shl_range|unfold remaining in *; lia]).
  assert (Eleaf : edge leaf = drop (pos + shared) kb).
  { unfold leaf. change (edge (set_value (Some v) ?x)) with (edge x). rewrite new_edge by (unfold remaining in *; lia).
    unfold rest. rewrite run_shl, run_shl. rewrite drop_app_le by (rewrite length_drop, run_length; unfold remaining in *; lia).
    rewrite <- app_assoc, take_app_le by (rewrite !length_drop, run_length; unfold remaining in *; lia).
    rewrite drop_drop, kbits_drop. f_equal. unfold remaining. lia. }
  assert (Ebit : edge leaf !! 0 = Some (bit z (pos + shared))).
  { rewrite Eleaf, (kbits_next z klen f Hk) by (unfold remaining in *; lia). done. }
  assert (Eb : bit (nd_bits leaf) 0 = bit z (pos + shared)).
  { rewrite edge_first in Ebit by (done || (cbn; unfold remaining in *; lia)). by injection Ebit. }
  rewrite Eb in Hp7. set (b := bit z (pos + shared)) in *. assert (Hb2 : b <> b2) by (apply Hdiff; lia).
  assert (Hnone : child midn b = None) by (unfold midn; rewrite child_set, decide_False by congruence; apply Hch).
  assert (Epath : (take pos kb ++ edge midn) ++ edge leaf = kb).
  { rewrite Em, <- Htake, Eleaf, <- app_assoc. rewrite <- (take_drop pos kb) at 4. f_equal. rewrite <- drop_drop. apply take_drop. }
  pose proof (split_at_mid_node mid Hmid) as Hm4. pose proof (split_path_at_mid mid) as Pm4.
  assert (HI7 : trie_inv (Some mid) (<[id := (f, (take pos kb ++ edge midn) ++ edge leaf)]> (Ps mid))
                  (<[mid := set_child b (Some id) midn]> (<[id := leaf]> (hs mid)))).
  { apply inv_leaf; try done. by rewrite Epath, (kbits_length z klen f Hk). }
  eexists _, _. split; [exact Hp7| |].
  - eapply inv_full; [exact HI7|by rewrite lookup_insert, decide_True|]. intros _. right.
    assert (F : forall b', is_Some (child (set_child b (Some id) midn) b')).
    { intros b'. rewrite child_set. case_decide as Hbb; [by eexists|]. assert (b' = b2) as -> by (destruct b', b, b2; congruence).
      unfold midn. rewrite child_set, decide_True by done. by eexists. }
    split; [apply (F false)|apply (F true)].
  - apply (carries_insert P h); [apply HR|]. intros w x.
    rewrite (carries_leaf (Some mid) mid (Ps mid) (hs mid) midn f _ b id leaf v w x HI4 Hm4 Pm4 Hnone Hid Ebit eq_refl), Hcar. by rewrite Epath.
Qed.

Lemma split_edge_spec :
  exists r t', split_edge MAX_PREFIXES i (bit z pos) c (nd_bits cn) (nd_len cn) rest remaining shared v t = Some (r, t') /\ inserted r t'.
Proof.
  unfold split_edge, check_capacity. set (need := if shared =? remaining then 1 else 2).
  destruct (Nat.leb_spec need (available MAX_PREFIXES t)) as [Ha|Ha]; cbn [negb].
  2: { eexists _, _. split; [done|]. left. split_and!; [done..| |apply split_key_fresh]. unfold need in Ha. case_match; lia. }
  assert (Hneed : 1 <= need) by (unfold need; case_match; lia).
  destruct (pool_alloc_is _ t h (node_new (nd_bits cn) shared) (rp_pool _ _ _ _ _ HR)) as (mid & t1 & E1 & Hmid & Hge & Hp1 & Ha1); [lia|].
  change (pt_alloc (nd_bits cn) shared t = Some (mid, t1)) in E1. rewrite E1. cbn [mbind option_bind].
  destruct (split_pool mid t1 Hmid Hp1) as (t4 & E4 & Hp4 & U4).
  destruct (pool_update c _ t1) as [t2|]; [|done]. cbn [mbind option_bind] in E4 |- *.
  destruct (pool_get t2 c) as [cn2|]; [|done]. cbn [mbind option_bind] in E4 |- *.
  destruct (pool_update mid _ t2) as [t3|]; [|done]. cbn [mbind option_bind] in E4 |- *. rewrite E4. cbn [mbind option_bind].
  destruct (Nat.eqb_spec shared remaining) as [Es|Es].
  - destruct (split_ends mid t4 Hmid Hge Hp4 Es) as (t5 & E5 & Hins). rewrite E5. cbn [mbind option_bind]. eauto.
  - destruct (split_forks mid t4 Hmid Hge Hp4 Es) as (t7 & E7 & Hins).
    { unfold available in *. rewrite U4. unfold need in *. lia. }
    destruct (pt_alloc _ _ t4) as [[leaf t5]|]; [|done]. cbn [mbind option_bind] in E7 |- *.
    destruct (pool_update leaf _ t5) as [t6|]; [|done]. cbn [mbind option_bind] in E7 |- *.
    destruct (pool_get t6 leaf) as [ln|]; [|done]. cbn [mbind option_bind] in E7 |- *. rewrite E7. cbn [mbind option_bind]. eauto.
Qed.

End Split.

Lemma insert_at_spec fuel i pos :
  klen - pos < fuel -> pos <= klen -> P !! i = Some (f, take pos kb) ->
  exists r t', insert_at MAX_PREFIXES fuel z klen v i pos t = Some (r, t') /\ inserted r t'.
Proof.
  revert i pos. induction fuel as [|fuel IH]; intros i pos Hf Hp Pi; [lia|]. cbn [insert_at].
  destruct (node_of_path _ _ _ (rp_inv _ _ _ _ _ HR) i _ Pi) as [n Hi]. rewrite (rep_get P h t m i HR), Hi. cbn [mbind option_bind].
  destruct (Nat.eqb_spec pos klen) as [->|Hne].
  { rewrite take_ge in Pi by (rewrite (kbits_length z klen f Hk); done).
    destruct (insert_here i n Hi Pi) as (t' & E & Hins). rewrite E. cbn [mbind option_bind]. eauto. }
  assert (Hlt : pos < klen) by lia. destruct (child n (bit z pos)) as [c|] eqn:Hb; [|by apply (insert_leaf i n pos)].
  destruct (child_node MAX_PREFIXES P h t m HR i n _ c Hi Hb) as [cn Hc]. rewrite (rep_get P h t m c HR), Hc. cbn [mbind option_bind].
  set (shared := common_len _ _ _). destruct (Nat.eqb_spec shared (nd_len cn)) as [Es|Es]; [|by apply (split_edge_spec i c pos n cn)].
  pose proof (klen_le klen f Hk). destruct (ti_node _ _ _ (rp_inv _ _ _ _ _ HR) c cn Hc) as (Hbits & Hlen & Hz0).
  destruct (common_len_spec (shl z pos) (nd_bits cn) (Nat.min (nd_len cn) (klen - pos)) (shl_range _ _) Hbits ltac:(lia)) as (H1 & H2 & _).
  fold shared in H1, H2. rewrite Es in H1, H2.
  assert (Hs : drop pos kb = edge cn ++ drop (nd_len cn) (drop pos kb)).
  { unfold edge. rewrite <- H2, run_shl, take_app_le by (rewrite length_drop, run_length; lia).
    rewrite <- (take_drop (nd_len cn) (drop pos kb)) at 1. f_equal. rewrite kbits_drop, take_take. f_equal. lia. }
  destruct (walk_child MAX_PREFIXES z klen f Hk P h t m HR i n pos c cn _ Hi Pi Hb Hc Hlt Hs) as (Pc & Hpos & Hle).
  apply IH; [lia|done|done].
Qed.

End Insert.

(** ** Removal *)

(** A trie on the way: node [exc] may be neither valued nor branching. *)
Definition partial (exc : option nat) (t : NodePool) (P : gmap nat (bool * list bool)) (h : gmap nat Node) : Prop :=
  pool_is MAX_PREFIXES t h /\ trie_inv exc P h.

(** [path] leads from a root to [node], the last edge first. *)
Fixpoint chain (h : gmap nat Node) (path : list (nat * bool)) (node : nat) : Prop :=
  match path with
  | [] => node < 2
  | (parent, branch) :: path => (exists n, h !! parent = Some n /\ child n branch = Some node) /\ chain h path parent
  end.

Lemma chain_value h i n v path node :
  h !! i = Some n -> chain h path node -> chain (<[i := set_value v n]> h) path node.
Proof.
  intros Hi. revert node. induction path as [|[p b] path IH]; intros node; [done|]. cbn [chain].
  intros [(pn & Hpn & Hb) Hc]. split; [|by apply IH]. destruct (decide (p = i)) as [->|Hne].
  - exists (set_value v n). rewrite lookup_insert, decide_True by done. rewrite Hi in Hpn. injection Hpn as <-. by rewrite child_set_value.
  - exists pn. by rewrite lookup_insert, decide_False by congruence.
Qed.

(** [t'] stores what the heap [h] with the paths [P] stores. *)
Definition keeps_map (P : gmap nat (bool * list bool)) (h : gmap nat Node) (t' : NodePool) : Prop :=
  exists P' h', partial None t' P' h' /\ forall k v, carries P' h' k v <-> carries P h k v.

Lemma merge_spec exc P h t i m c n nm b b2 :
  partial exc t P h -> exc = None \/ exc = Some m -> h !! i = Some n -> child n b = Some m -> h !! m = Some nm ->
  nd_value nm = None -> child nm b2 = Some c -> child nm (negb b2) = None ->
  exists t', merge_into_child i b m c t = Some t' /\ keeps_map P h t'.
Proof.
  intros [Hp HI] He Hi Hb Hm Hv Hc2 Hc3. destruct (path_of_node _ _ _ HI i n Hi) as (f & p & Pi).
  destruct (ti_child _ _ _ HI _ _ _ _ _ _ Hi Pi Hb) as (x & Hx & Pm & _). rewrite Hm in Hx. injection Hx as <-.
  destruct (ti_child _ _ _ HI _ _ _ _ _ _ Hm Pm Hc2) as (cn & Hc & Pc & _).
  pose proof (ti_node _ _ _ HI m nm Hm) as Hmok. pose proof (ti_node _ _ _ HI c cn Hc) as Hcok.
  assert (Hl : nd_len cn + nd_len nm <= 128).
  { pose proof (ti_len _ _ _ HI c f _ Pc) as Hl. rewrite !length_app, !edge_length in Hl by done. pose proof (fam_width_le f). lia. }
  destruct (join_ok nm cn Hmok Hcok Hl) as [Hok' Hrun]. set (cn' := set_edge _ _ cn) in *.
  destruct (child_ge _ _ _ HI i n b m Hi Hb) as [Hge Hmi]. destruct (child_ge _ _ _ HI m nm b2 c Hm Hc2) as [_ Hcm].
  assert (Hci : c <> i). { intros ->. rewrite Pi in Pc. injection Pc as E. apply (f_equal length) in E. rewrite !length_app in E.
    destruct (ti_child _ _ _ HI _ _ _ _ _ _ Hm Pm Hc2) as (y & Hy & _ & Ey). rewrite Hc in Hy. injection Hy as <-. destruct (edge cn); [done|cbn in E; lia]. }
  unfold merge_into_child. rewrite (ps_get _ _ _ Hp), Hm. cbn [mbind option_bind].
  destruct (pool_update_is _ t h c (fun cn => set_edge (Z.lor (nd_bits nm) (shr (nd_bits cn) (nd_len nm))) (nd_len cn + nd_len nm) cn) cn Hp Hc)
    as (t1 & E1 & Hp1 & _). rewrite E1. cbn [mbind option_bind]. fold cn' in Hp1.
  destruct (pool_update_is _ t1 _ i (set_child b (Some c)) n Hp1) as (t2 & E2 & Hp2 & _); [by rewrite lookup_insert, decide_False|].
  rewrite E2. cbn [mbind option_bind].
  destruct (pool_release_is _ t2 _ m nm Hp2) as (t3 & E3 & Hp3); [by rewrite !lookup_insert, !decide_False by congruence|done|].
  exists t3. split; [done|]. eexists _, _. split; [split; [exact Hp3|]|].
  - by apply (inv_merge exc P h HI i m n nm f b p He Hi Pi Hb Hm c cn cn' b2).
  - by apply (carries_merge exc P h HI i m n nm f b p Hi Pi Hb Hm Hv c cn cn' b2).
Qed.

(** The children of a node, case by case. *)
Lemma only_child_some (n : Node) c : only_child n = Some c -> exists b, child n b = Some c /\ child n (negb b) = None.
Proof.
  unfold only_child. destruct (nd_zero n) as [a|] eqn:Ea, (nd_one n) as [b|] eqn:Eb; intros [= <-]; [by exists false|by exists true].
Qed.

Lemma prune_spec path node n t P h :
  partial (Some node) t P h -> h !! node = Some n -> nd_value n = None -> chain h path node ->
  exists t', prune path node t = Some t' /\ keeps_map P h t'.
Proof.
  intros [Hp HI] Hn Hv Hch. destruct path as [|[parent branch] path]; cbn [prune].
  { exists t. split; [done|]. exists P, h. split; [|done]. split; [done|]. apply (inv_full node P h n HI Hn). cbn in Hch. lia. }
  cbn [chain] in Hch. destruct Hch as [(pn & Hpn & Hb) Hch]. rewrite (ps_get _ _ _ Hp), Hn. cbn [mbind option_bind].
  assert (Hmerge : forall c b2, child n b2 = Some c -> child n (negb b2) = None -> exists t', merge_into_child parent branch node c t = Some t' /\ keeps_map P h t').
  { intros c b2 H1 H2. by apply (merge_spec (Some node) P h t parent node c pn n branch b2 (conj Hp HI) (or_intror eq_refl) Hpn Hb Hn Hv). }
  destruct (nd_zero n) as [z0|] eqn:E0, (nd_one n) as [z1|] eqn:E1.
  - exists t. split; [done|]. exists P, h. split; [|done]. split; [done|]. apply (inv_full node P h n HI Hn). intros _. right. rewrite E0, E1. by split; eexists.
  - by apply (Hmerge z0 false).
  - by apply (Hmerge z1 true).
  - assert (Hleaf : forall b', child n b' = None) by (by intros []).
    destruct (path_of_node _ _ _ HI parent pn Hpn) as (f & p & Pp). destruct (child_ge _ _ _ HI parent pn branch node Hpn Hb) as [Hge Hnp].
    destruct (pool_update_is _ t h parent (set_child branch None) pn Hp Hpn) as (t1 & U1 & Hp1 & _). rewrite U1. cbn [mbind option_bind].
    destruct (pool_release_is _ t1 _ node n Hp1) as (t2 & U2 & Hp2); [by rewrite lookup_insert, decide_False by congruence|done|].
    rewrite U2. cbn [mbind option_bind].
    pose proof (inv_unlink (Some node) P h HI parent node pn n f branch p (or_intror eq_refl) Hpn Pp Hb Hn Hleaf) as HI2.
    pose proof (carries_unlink (Some node) P h HI parent node pn n f branch p Hpn Pp Hb Hn Hv) as Hcar.
    set (h2 := delete node _) in *. set (P2 := delete node P) in *.
    assert (Hp2n : h2 !! parent = Some (set_child branch None pn)) by (unfold h2; by rewrite lookup_delete_ne, lookup_insert, decide_True).
    assert (Hdone : full_node (set_child branch None pn) \/ parent < 2 -> keeps_map P h t2).
    { intros Hf. exists P2, h2. split; [|exact Hcar]. split; [done|]. apply (inv_full parent P2 h2 _ HI2 Hp2n). intros ?. destruct Hf; [done|lia]. }
    destruct path as [|[grand gb] path]; [exists t2; split; [done|]; apply Hdone; right; exact Hch|].
    cbn [chain] in Hch. destruct Hch as [(gn & Hgn & Hgb) _].
    destruct (child_ge _ _ _ HI grand gn gb parent Hgn Hgb) as [Hge2 Hpg].
    rewrite (ps_get _ _ _ Hp2), Hp2n. cbn [mbind option_bind]. rewrite value_set_child.
    assert (Hfull : full_node pn) by (apply (ti_full _ _ _ HI parent pn Hpn Hge2); congruence).
    destruct (nd_value pn) as [v|] eqn:Epv.
    { exists t2. split; [done|]. apply Hdone. left. left. rewrite value_set_child, Epv. by eexists. }
    destruct Hfull as [[v Hv']|[[a Ha] [b Hb']]]; [congruence|].
    assert (Honly : exists only, only_child (set_child branch None pn) = Some only).
    { unfold only_child. destruct branch; cbn; rewrite ?Ha, ?Hb'; by eexists. }
    destruct Honly as [only Honly]. rewrite Honly. apply only_child_some in Honly as (b3 & Hb3 & Hb4).
    assert (Hgn2 : h2 !! grand = Some gn).
    { assert (grand <> node) by (intros ->; rewrite Hn in Hgn; injection Hgn as <-; by rewrite Hleaf in Hgb).
      unfold h2. by rewrite lookup_delete_ne, lookup_insert, decide_False by congruence. }
    destruct (merge_spec (Some parent) P2 h2 t2 grand parent only gn (set_child branch None pn) gb b3) as (t3 & U3 & P3 & h3 & Hpart & Hcar3);
      [by split|by right|done|done|done|by rewrite value_set_child|done|done|].
    exists t3. split; [done|]. exists P3, h3. split; [done|]. intros k v. by rewrite Hcar3, Hcar.
Qed.

Section Delete.
Context (z : Z) (klen : nat) (f : bool) (Hz : is_u128 z) (Hk : klen <= fam_width f).
Context (P : gmap nat (bool * list bool)) (h : gmap nat Node) (t : NodePool) (m : gmap PKey V) (HR : rep P h t m).
Notation kb := (kbits z klen).

Lemma remove_at_spec fuel path i pos :
  klen - pos < fuel -> pos <= klen -> P !! i = Some (f, take pos kb) -> chain h path i -> length path <= pos ->
  exists t', remove_at fuel z klen path i pos t = Some (m !! ((f, kb) : PKey), t') /\ trie_rep t' (delete ((f, kb) : PKey) m).
Proof.
  assert (Hmiss : m !! ((f, kb) : PKey) = None -> exists t', Some (None, t) = Some (m !! ((f, kb) : PKey), t') /\ trie_rep t' (delete ((f, kb) : PKey) m)).
  { intros E. exists t. split; [by f_equal; f_equal|]. rewrite delete_id by exact E. by exists P, h. }
  assert (Efull : kb = take klen kb) by (rewrite take_ge; [done|rewrite (kbits_length z klen f Hk); lia]).
  revert path i pos. induction fuel as [|fuel IH]; intros path i pos Hf Hp Pi Hch Hlen; [lia|]. cbn [remove_at].
  destruct (node_of_path _ _ _ (rp_inv _ _ _ _ _ HR) i _ Pi) as [n Hi]. rewrite (rep_get P h t m i HR), Hi. cbn [mbind option_bind].
  destruct (Nat.ltb_spec pos klen) as [Hlt|Hge]; cbn [negb].
  2: { rewrite take_ge in Pi by (rewrite (kbits_length z klen f Hk); lia). pose proof (rep_at MAX_PREFIXES P h t m i n _ HR Pi Hi) as Ev.
       destruct (nd_value n) as [v|]; [|by apply Hmiss].
       change (m !! ((f, kb) : PKey) = Some v) in Ev. rewrite Ev. destruct HR as [Hpool HI Hm].
       destruct (pool_update_is _ t h i (set_value None) n Hpool Hi) as (t1 & E1 & Hp1 & _). rewrite E1. cbn [mbind option_bind].
       pose proof (inv_value None i P h n None HI Hi (or_introl eq_refl)) as HI1.
       pose proof (chain_value h i n None path i Hi Hch) as Hch1.
       destruct (prune_spec path i (set_value None n) t1 P _ (conj Hp1 HI1)) as (t2 & E2 & P2 & h2 & [Hp2 HI2] & Hcar);
         [by rewrite lookup_insert, decide_True|done|done|].
       rewrite E2. cbn [mbind option_bind]. exists t2. split; [done|]. exists P2, h2. split; [done..|]. intros w x.
       rewrite Hcar, (carries_value i P h n (f, kb) None w x (ti_inj _ _ _ HI) Hi Pi), lookup_delete_Some, Hm. naive_solver. }
  destruct (child n (bit z pos)) as [c|] eqn:Hb.
  2: { apply Hmiss. rewrite Efull. by apply (walk_stop MAX_PREFIXES z klen f Hk P h t m HR i n pos klen). }
  destruct (child_node MAX_PREFIXES P h t m HR i n _ c Hi Hb) as [cn Hc]. pose proof (klen_le klen f Hk).
  pose proof (edge_match_spec MAX_PREFIXES P h t m z pos (klen - pos) c cn HR Hz ltac:(lia) Hc) as Hem. rewrite <- kbits_drop in Hem.
  destruct (edge_match t c (shl z pos) (klen - pos)) as [step|].
  - destruct Hem as [-> [s Hs]]. destruct (walk_child MAX_PREFIXES z klen f Hk P h t m HR i n pos c cn s Hi Pi Hb Hc Hlt Hs) as (Pc & Hpos & Hle).
    rewrite (proj2 (Nat.leb_gt 128 (length path))) by lia. apply IH; [lia|done|done| |cbn; lia].
    cbn [chain]. split; [by exists n|done].
  - apply Hmiss. rewrite Efull. apply (walk_off MAX_PREFIXES z klen f Hk P h t m HR i n pos c cn klen); [done..|lia|]. intros s.
    rewrite take_ge by (rewrite length_drop, (kbits_length z klen f Hk); lia). apply Hem.
Qed.

End Delete.

(** [insert] never panics; it fails, changing nothing, only when fewer than two nodes
    are free, and otherwise stores the value and answers the one it replaces. *)
Lemma pt_insert_spec {CR : Cidr} {CL : CidrLaws} t m net v :
  trie_rep t m ->
  exists r t', pt_insert MAX_PREFIXES t net v = Some (r, t') /\
    ((r = None /\ t' = t /\ available MAX_PREFIXES t < 2 /\ m !! ckey net = None) \/ (r = Some (m !! ckey net) /\ trie_rep t' (<[ckey net := v]> m))).
Proof.
  intros (P & h & HR). unfold pt_insert, ckey. pose proof (cidr_length net) as Hl.
  pose proof (key_bits (first_address net) (network_length net) Hl) as H. destruct (key (first_address net)) as [[k w] root].
  destruct H as (Hk & _ & -> & <-). rewrite addr_width_fam in Hl. pose proof (fam_width_le (is_ipv6 (first_address net))).
  eapply (insert_at_spec k _ _ Hl v P h t m HR); [unfold FUEL; lia|lia|apply (ti_root _ _ _ (rp_inv _ _ _ _ _ HR))].
Qed.


(** [remove] never panics, answers the stored value and removes it. *)
Lemma pt_remove_spec {CR : Cidr} {CL : CidrLaws} t m net :
  trie_rep t m -> exists t', pt_remove t net = Some (m !! ckey net, t') /\ trie_rep t' (delete (ckey net) m).
Proof.
  intros (P & h & HR). unfold pt_remove, ckey. pose proof (cidr_length net) as Hl.
  pose proof (key_bits (first_address net) (network_length net) Hl) as H. destruct (key (first_address net)) as [[k w] root].
  destruct H as (Hk & _ & -> & <-). rewrite addr_width_fam in Hl. pose proof (fam_width_le (is_ipv6 (first_address net))).
  eapply (remove_at_spec k _ _ Hk Hl P h t m HR); [unfold FUEL; lia|lia|apply (ti_root _ _ _ (rp_inv _ _ _ _ _ HR))| |done].
  cbn. destruct (is_ipv6 _); cbn; lia.
Qed.

Lemma pt_new_rep : trie_rep (pt_new MAX_PREFIXES) ∅.
Proof.
  exists (<[0 := (false, [])]> {[1 := (true, [])]}), (<[0 := node_new 0 0]> {[1 := node_new 0 0]}).
  assert (Hh : forall i n, (<[0 := node_new 0 0]> {[1 := node_new 0 0]} : gmap nat Node) !! i = Some n -> i < 2 /\ n = node_new 0 0).
  { intros i n. rewrite lookup_insert_Some, lookup_singleton_Some. intros [[<- <-]|[_ [<- <-]]]; split; done || lia. }
  assert (HP : forall i k, (<[0 := (false, [])]> {[1 := (true, [])]} : gmap nat (bool * list bool)) !! i = Some k ->
    (i = 0 /\ k = (false, [])) \/ (i = 1 /\ k = (true, []))).
  { intros i k. rewrite lookup_insert_Some, lookup_singleton_Some. intuition. }
  split.
  - apply pool_new_is.
  - split.
    + intros i. destruct (decide (i = 0)) as [->|]; [split; intros _; by eexists|]. destruct (decide (i = 1)) as [->|]; [split; intros _; by eexists|].
      rewrite !lookup_insert_ne, !lookup_singleton_ne by done. done.
    + intros []; done.
    + intros i j k [[-> ->]|[-> ->]]%HP [[-> E]|[-> E]]%HP; done.
    + intros i n [_ ->]%Hh. apply new_ok; [by unfold is_u128, u128_max|lia].
    + intros i n f p b c [_ ->]%Hh _ Hb. by destruct b.
    + intros i f q [[-> [= -> ->]]|[-> [= -> ->]]]%HP; done.
    + intros i n [? _]%Hh. lia.
    + intros i f q [[-> [= -> ->]]|[-> [= -> ->]]]%HP; cbn; lia.
  - intros k v. rewrite lookup_empty. split; [done|]. intros (i & n & _ & [_ ->]%Hh & Hv). done.
Qed.

End TrieUpdate.

(** * The prefix trie as the map of the route cache

    [pt_map] reads the finite map out of a trie by walking from every node up to its
    root. The trie implements the interface [PrefixMap] with its laws, so every theorem
    on the route cache holds of it. *)

Local Open Scope nat_scope.

Section TrieMap.
Context {CR : Cidr} {V : Type}.
Notation Node := (@Node V).
Notation NodePool := (@NodePool V).
Context (MAX_PREFIXES : nat).
Notation rep := (@rep V MAX_PREFIXES).
Notation trie_rep := (@trie_rep V MAX_PREFIXES).

Definition ids : list nat := seq 0 (2 + MAX_PREFIXES * 2).

(** The branch that leads to node [i]. *)
Definition parent_of (t : NodePool) (i : nat) : option (nat * bool) :=
  head (omap (fun j =>
    n ← pool_get t j;
    if bool_decide (nd_zero n = Some i) then Some (j, false) else
    if bool_decide (nd_one n = Some i) then Some (j, true) else None) ids).

(** The prefix node [i] stands for. *)
Fixpoint path_of (fuel : nat) (t : NodePool) (i : nat) : option PKey :=
  match fuel with
  | O => None
  | S fuel =>
      if i =? V4_ROOT then Some (false, []) else
      if i =? V6_ROOT then Some (true, []) else
      '(j, _) ← parent_of t i;
      n ← pool_get t i;
      '(f, p) ← path_of fuel t j;
      Some (f, p ++ edge n)
  end.

Definition entry_of (t : NodePool) (i : nat) : option (PKey * V) :=
  n ← pool_get t i;
  v ← nd_value n;
  k ← path_of FUEL t i;
  Some (k, v).

Definition pt_map (t : NodePool) : gmap PKey V := list_to_map (omap (entry_of t) ids).

Lemma id_in_table P h t m i n : rep P h t m -> h !! i = Some n -> i ∈ ids.
Proof.
  intros HR Hi. apply elem_of_seq. rewrite <- (ps_get _ _ _ (rp_pool _ _ _ _ _ HR)) in Hi. pose proof (ps_wf _ _ _ (rp_pool _ _ _ _ _ HR)) as Hw.
  destruct (id_cases i) as [|(a & s & Hs & ->)]; [lia|]. rewrite pool_get_id in Hi by done.
  destruct (pairs t !! a) as [pair|] eqn:E; [|done]. apply lookup_lt_Some in E. rewrite (pw_pairs _ _ Hw) in E. unfold node_id. lia.
Qed.

Lemma parent_of_spec P h t m i j n b :
  rep P h t m -> h !! j = Some n -> child n b = Some i -> exists b', parent_of t i = Some (j, b').
Proof.
  intros HR Hj Hb. unfold parent_of. set (g := fun j : nat => _).
  assert (Hin : is_Some (g j)).
  { unfold g. rewrite (ps_get _ _ _ (rp_pool _ _ _ _ _ HR)), Hj. cbn [mbind option_bind]. case_bool_decide; [by eexists|].
    case_bool_decide; [by eexists|]. by destruct b. }
  destruct Hin as [x Hx]. destruct (omap g ids) as [|[j' b'] l] eqn:E.
  { assert (H : x ∈ omap g ids) by (apply list_elem_of_omap; exists j; split; [by eapply id_in_table|done]). rewrite E in H. by apply elem_of_nil in H. }
  exists b'. cbn. f_equal. f_equal. assert (H : (j', b') ∈ omap g ids) by (rewrite E; apply elem_of_cons; by left).
  apply list_elem_of_omap in H as (k & _ & Hg). unfold g in Hg. rewrite (ps_get _ _ _ (rp_pool _ _ _ _ _ HR)) in Hg.
  destruct (h !! k) as [nk|] eqn:Hk; [|done]. cbn [mbind option_bind] in Hg.
  assert (Hc : child nk b' = Some i /\ k = j').
  { case_bool_decide; [by injection Hg as <- <-|]. case_bool_decide; [by injection Hg as <- <-|done]. }
  destruct Hc as [Hc ->]. by apply (parent_unique _ _ _ (rp_inv _ _ _ _ _ HR) j' j nk n b' b i Hk Hc Hj Hb).
Qed.

Lemma path_of_spec P h t m fuel i f q : rep P h t m -> P !! i = Some (f, q) -> length q < fuel -> path_of fuel t i = Some (f, q).
Proof.
  intros HR. pose proof (rp_inv _ _ _ _ _ HR) as HI. revert i q. induction fuel as [|fuel IH]; intros i q Pi Hf; [lia|]. cbn [path_of].
  destruct (Nat.eqb_spec i V4_ROOT) as [->|N4]; [pose proof (ti_root _ _ _ HI false) as Hr; change (P !! V4_ROOT = Some (false, [])) in Hr; congruence|].
  destruct (Nat.eqb_spec i V6_ROOT) as [->|N6]; [pose proof (ti_root _ _ _ HI true) as Hr; change (P !! V6_ROOT = Some (true, [])) in Hr; congruence|].
  assert (Hq : q <> []) by (intros ->; pose proof (root_path _ _ _ HI i f Pi); unfold V4_ROOT, V6_ROOT in *; lia).
  destruct (ti_parent _ _ _ HI i f q Pi Hq) as (j & n & b & Hj & Hb). destruct (parent_of_spec P h t m i j n b HR Hj Hb) as [b' ->].
  cbn [mbind option_bind]. destruct (path_of_node _ _ _ HI j n Hj) as (g & p & Pj).
  destruct (ti_child _ _ _ HI _ _ _ _ _ _ Hj Pj Hb) as (x & Hx & Px & E0). rewrite Pi in Px. injection Px as <- ->.
  rewrite (ps_get _ _ _ (rp_pool _ _ _ _ _ HR)), Hx. cbn [mbind option_bind].
  rewrite (IH j p Pj); [done|]. rewrite length_app in Hf. destruct (edge x); [done|cbn in Hf; lia].
Qed.

(** The map read out is the one represented. *)
Lemma pt_map_rep t m : trie_rep t m -> pt_map t = m.
Proof.
  intros (P & h & HR). pose proof (rp_inv _ _ _ _ _ HR) as HI.
  assert (Hpath : forall i f q, P !! i = Some (f, q) -> path_of FUEL t i = Some (f, q)).
  { intros i f q Pi. apply (path_of_spec P h t m); [done..|]. pose proof (ti_len _ _ _ HI i f q Pi). pose proof (fam_width_le f). unfold FUEL. lia. }
  assert (Hin : forall k v, (k, v) ∈ omap (entry_of t) ids <-> m !! k = Some v).
  { intros k v. rewrite list_elem_of_omap, (rp_map _ _ _ _ _ HR). unfold entry_of. split.
    - intros (i & _ & Hi). rewrite (ps_get _ _ _ (rp_pool _ _ _ _ _ HR)) in Hi. destruct (h !! i) as [n|] eqn:En; [|done]. cbn [mbind option_bind] in Hi.
      destruct (nd_value n) as [w|] eqn:Ew; [|done]. cbn [mbind option_bind] in Hi. destruct (path_of_node _ _ _ HI i n En) as (f & q & Pi).
      rewrite (Hpath i f q Pi) in Hi. cbn in Hi. injection Hi as <- <-. by exists i, n.
    - intros (i & n & Pi & Hi & Hv). exists i. split; [by eapply id_in_table|].
      rewrite (ps_get _ _ _ (rp_pool _ _ _ _ _ HR)), Hi. cbn [mbind option_bind]. rewrite Hv. cbn [mbind option_bind]. destruct k as [f q].
      by rewrite (Hpath i f q Pi). }
  apply map_eq. intros k. unfold pt_map. destruct (list_to_map _ !! k) as [v|] eqn:E.
  - apply elem_of_list_to_map_2, Hin in E. done.
  - apply not_elem_of_list_to_map_2 in E. symmetry. apply eq_None_not_Some. intros [v Hv]. apply E, list_elem_of_fmap. exists (k, v).
    split; [done|]. by apply Hin.
Qed.

(** ** The interface *)

Definition trie_ops : PrefixMap V := {|
  pm := NodePool;
  pm_new := pt_new MAX_PREFIXES;
  pm_get := pt_get;
  pm_insert t net v := match pt_insert MAX_PREFIXES t net v with Some r => r | None => (None, t) end;
  pm_remove t net := match pt_remove t net with Some r => r | None => (None, t) end;
  pm_lookup := pt_lookup;
|}.

Context {CL : CidrLaws}.

(** An insertion that replaces a value or finds room for one more prefix succeeds. *)
Lemma insert_fits t m net v :
  trie_rep t m -> is_Some (m !! ckey net) \/ size m < MAX_PREFIXES ->
  exists t', pt_insert MAX_PREFIXES t net v = Some (Some (m !! ckey net), t') /\ trie_rep t' (<[ckey net := v]> m).
Proof.
  intros Ht Hroom. destruct (pt_insert_spec MAX_PREFIXES t m net v Ht) as (r & t' & E & [(-> & -> & Ha & Hn)|[-> Ht']]); [|by exists t'].
  exfalso. destruct Hroom as [[w Hw]|Hs]; [congruence|]. destruct Ht as (P & h & HR).
  pose proof (rep_available MAX_PREFIXES P h t m HR Hs). lia.
Qed.

Program Definition trie_laws : @PrefixMapLaws CR V trie_ops MAX_PREFIXES := {|
  pm_ok t := exists m, trie_rep t m;
  pm_map t := pt_map t;
|}.
Next Obligation. split; [exists ∅|apply pt_map_rep]; apply pt_new_rep. Qed.
Next Obligation. intros t c [m Ht]. rewrite (pt_map_rep t m Ht). by apply (pt_get_spec MAX_PREFIXES). Qed.
Next Obligation. intros t ip [m Ht]. rewrite (pt_map_rep t m Ht). by apply (pt_lookup_spec MAX_PREFIXES). Qed.
Next Obligation.
  intros t c v [m Ht]. rewrite (pt_map_rep t m Ht). intros Hroom. cbn [pm_insert trie_ops].
  destruct (insert_fits t m c v Ht Hroom) as (t' & E & Ht'). rewrite E. split; [done|]. split; [by eexists|by apply pt_map_rep].
Qed.
Next Obligation.
  intros t c [m Ht]. rewrite (pt_map_rep t m Ht). cbn [pm_remove trie_ops]. destruct (pt_remove_spec MAX_PREFIXES t m c Ht) as (t' & E & Ht').
  rewrite E. split; [done|]. split; [by eexists|by apply pt_map_rep].
Qed.

(** C4: The prefix trie is a finite map from prefixes to values with longest-prefix-match
    lookup. On a trie that stores the map [m], no operation panics or loops; [get] and
    [lookup] answer what [m] says; [insert] answers the value it replaces and stores the
    new one, or, only when the prefix is new and [m] already holds as many prefixes as
    the trie was built for, fails and changes nothing; [remove] answers the value and
    removes it. The map can be read back from the nodes. *)
Theorem prefix_trie_is_map (t : NodePool) (m : gmap PKey V) :
  trie_rep t m ->
  pt_map t = m /\
  (forall net, pt_get t net = m !! ckey net) /\
  (forall ip, is_lpm m ip (pt_lookup t ip)) /\
  (forall net v, exists r t', pt_insert MAX_PREFIXES t net v = Some (r, t') /\
     ((r = None /\ t' = t /\ m !! ckey net = None /\ MAX_PREFIXES <= size m) \/
      (r = Some (m !! ckey net) /\ trie_rep t' (<[ckey net := v]> m)))) /\
  (forall net, exists t', pt_remove t net = Some (m !! ckey net, t') /\ trie_rep t' (delete (ckey net) m)).
Proof.
  intros Ht. split_and!.
  - by apply pt_map_rep.
  - intros net. by apply (pt_get_spec MAX_PREFIXES).
  - intros ip. by apply (pt_lookup_spec MAX_PREFIXES).
  - intros net v. destruct (decide (is_Some (m !! ckey net) \/ size m < MAX_PREFIXES)) as [Hr|Hr].
    + destruct (insert_fits t m net v Ht Hr) as (t' & E & Ht'). exists (Some (m !! ckey net)), t'. auto.
    + destruct (pt_insert_spec MAX_PREFIXES t m net v Ht) as (r & t' & E & [(-> & -> & _ & Hn)|[-> Ht']]); eexists _, _; (split; [exact E|]); [left|by right].
      split_and!; [done..|]. lia.
  - intros net. by apply pt_remove_spec.
Qed.

End TrieMap.

(** ** Witness *)

Definition demo_prefix (a : Z) (len : nat) (H : bool_decide (CidrModel.canonical (V4 a, len)) = true) : CidrModel.cidr := CidrModel.mk (V4 a) len H.

(** [10.0.0.0/8], [10.1.0.0/16] and [10.1.2.0/24] inserted, the middle one removed. *)
Definition demo_trie : option (@NodePool nat) :=
  let net8 := demo_prefix 167772160 8 eq_refl in
  let net16 := demo_prefix 167837696 16 eq_refl in
  let net24 := demo_prefix 167838208 24 eq_refl in
  '(_, t) ← pt_insert (CR := CidrModel.ops) 3 (pt_new 3) net8 8;
  '(_, t) ← pt_insert (CR := CidrModel.ops) 3 t net24 24;
  '(_, t) ← pt_insert (CR := CidrModel.ops) 3 t net16 16;
  '(_, t) ← pt_remove (CR := CidrModel.ops) t net16;
  Some t.

Example demo_trie_lookups :
  (fun t => (pt_lookup t (V4 167838213), pt_lookup t (V4 167837701), pt_lookup t (V4 1), size (pt_map 3 t))) <$> demo_trie =
  Some (Some 24, Some 8, None, 2).
Proof. vm_compute. reflexivity. Qed.

Lemma prefix_trie_is_map_witness :
  exists r t', pt_insert (CR := CidrModel.ops) 1 (pt_new 1) (demo_prefix 167772160 8 eq_refl) 7 = Some (r, t') /\
    (r = None \/ r = Some None).
Proof.
  destruct (prefix_trie_is_map (V := nat) (CL := CidrModel.laws) 1 (pt_new 1) ∅ (pt_new_rep 1)) as (_ & _ & _ & H & _).
  destruct (H (demo_prefix 167772160 8 eq_refl) 7) as (r & t' & E & [(-> & _)|[-> _]]); eexists _, _; (split; [exact E|]); auto.
Defined.
