(* ===== verification/Routing.v ===== *)
(** * The cryptokey routing cache ([microtun-core/src/routing.rs])

    Stable route slots and a prefix map from each distinct prefix to the slot of
    its incumbent, proved against the interface [PrefixMap] of the prefix trie. *)

From S2P Require Import Prelude Clock Ip Messages Cidr.
Local Open Scope nat_scope.

Section Routing.
Context {CR : Cidr} {CL : CidrLaws} {PM : PrefixMap nat} (MAX_ROUTES : nat).

Record RouteEntry := mkRouteEntry {
  re_cidr : IpCidr;
  re_peer : PeerIdx;
  re_pinned : bool;
  re_last_used : Instant;
  re_order : Z;
}.

Record RouteCache := mkRouteCache {
  rc_entries : list (option RouteEntry);
  rc_len : nat;
  rc_trie : pm nat;
  rc_next : Z;
}.

Definition rc_new : RouteCache := mkRouteCache (replicate MAX_ROUTES None) 0 pm_new 0.

Definition best_match (rc : RouteCache) (ip : IpAddr) : option nat := pm_lookup (rc_trie rc) ip.

Definition set_slot (rc : RouteCache) (i : nat) (e : option RouteEntry) : RouteCache :=
  mkRouteCache (<[i := e]> (rc_entries rc)) (rc_len rc) (rc_trie rc) (rc_next rc).
Definition set_trie (rc : RouteCache) (t : pm nat) : RouteCache :=
  mkRouteCache (rc_entries rc) (rc_len rc) t (rc_next rc).
Definition set_len (rc : RouteCache) (n : nat) : RouteCache :=
  mkRouteCache (rc_entries rc) n (rc_trie rc) (rc_next rc).

Definition rc_lookup (rc : RouteCache) (ip : IpAddr) (now : Instant) : option PeerIdx * RouteCache :=
  match best_match rc ip with
  | None => (None, rc)
  | Some index =>
      match rc_entries rc !! index with
      | Some (Some e) =>
          (Some (re_peer e),
           set_slot rc index (Some (mkRouteEntry (re_cidr e) (re_peer e) (re_pinned e) now (re_order e))))
      | _ => (None, rc)
      end
  end.

Definition lookup_readonly (rc : RouteCache) (ip : IpAddr) : option PeerIdx :=
  index ← best_match rc ip;
  e ← rc_entries rc !! index;
  re_peer <$> e.

Definition is_same_route (cidr : IpCidr) (peer : PeerIdx) (s : option RouteEntry) : bool :=
  match s with
  | Some e => bool_decide (re_cidr e = cidr) && (re_peer e =? peer)
  | None => false
  end.

Definition rc_insert (rc : RouteCache) (cidr : IpCidr) (peer : PeerIdx) (pinned : bool) (now : Instant)
  : Result unit * RouteCache :=
  match position (is_same_route cidr peer) (rc_entries rc) with
  | Some i =>
      match rc_entries rc !! i with
      | Some (Some e) =>
          (Ok tt, set_slot rc i (Some (mkRouteEntry (re_cidr e) (re_peer e) pinned now (re_order e))))
      | _ => (Ok tt, rc)
      end
  | None =>
      match position (fun s : option RouteEntry => match s with None => true | Some _ => false end)
              (rc_entries rc) with
      | None => (Failed RouteCacheFull, rc)
      | Some index =>
          let next_len := S (rc_len rc) in
          let commit (rc : RouteCache) :=
            (Ok tt,
             mkRouteCache
               (<[index := Some (mkRouteEntry cidr peer pinned now (rc_next rc))]> (rc_entries rc))
               next_len (rc_trie rc) (wrap_add u64_max (rc_next rc) 1)) in
          match pm_get (rc_trie rc) cidr with
          | Some _ => commit rc
          | None =>
              match pm_insert (rc_trie rc) cidr index with
              | (None, t) => (Failed RouteCacheFull, set_trie rc t)
              | (Some (Some _), t) => (Failed InternalInvariant, set_trie rc t)
              | (Some None, t) => commit (set_trie rc t)
              end
          end
      end
  end.

Definition available_slots (rc : RouteCache) : nat := MAX_ROUTES - rc_len rc.

Definition peer_route_count (rc : RouteCache) (peer : PeerIdx) : nat :=
  length (retain (fun e => re_peer e =? peer) (omap id (rc_entries rc))).

(** Candidate slots of the same prefix other than [index]. *)
Definition replaces (index : nat) (cidr : IpCidr) (i : nat) (s : option RouteEntry) : bool :=
  negb (i =? index) && match s with Some c => bool_decide (re_cidr c = cidr) | None => false end.
Definition slot_order (s : option RouteEntry) : Z := match s with Some e => re_order e | None => 0%Z end.

Definition replacement (rc : RouteCache) (index : nat) (cidr : IpCidr) : option nat :=
  fst <$> min_by_key (replaces index cidr) (fun a b => slot_order a <? slot_order b)%Z (rc_entries rc).

(** One iteration of [remove_peer]. *)
Definition remove_route (rc : RouteCache) (index : nat) (peer : PeerIdx) : Result unit * RouteCache :=
  match rc_entries rc !! index with
  | Some (Some entry) =>
      if negb (re_peer entry =? peer) then (Ok tt, rc) else
      let next_len := rc_len rc - 1 in
      let was_incumbent := bool_decide (pm_get (rc_trie rc) (re_cidr entry) = Some index) in
      let finish (rc : RouteCache) := (Ok tt, set_len (set_slot rc index None) next_len) in
      if negb was_incumbent then finish rc else
      let new := replacement rc index (re_cidr entry) in
      match pm_remove (rc_trie rc) (re_cidr entry) with
      | (None, t) => (Failed InternalInvariant, set_trie rc t)
      | (Some removed_index, t) =>
          if negb (removed_index =? index)
          then (Failed InternalInvariant, set_trie rc (snd (pm_insert t (re_cidr entry) removed_index)))
          else
            match new with
            | None => finish (set_trie rc t)
            | Some new =>
                match pm_insert t (re_cidr entry) new with
                | (Some None, t) => finish (set_trie rc t)
                | (_, t) => (Failed InternalInvariant, set_trie rc (snd (pm_insert t (re_cidr entry) index)))
                end
            end
      end
  | _ => (Ok tt, rc)
  end.

(** [for index in 0..MAX_ROUTES], stopping at the first error. *)
Fixpoint remove_routes (rc : RouteCache) (index n : nat) (peer : PeerIdx) : Result unit * RouteCache :=
  match n with
  | O => (Ok tt, rc)
  | S n =>
      match remove_route rc index peer with
      | (Ok _, rc) => remove_routes rc (S index) n peer
      | (Failed e, rc) => (Failed e, rc)
      end
  end.
Definition rc_remove_peer (rc : RouteCache) (peer : PeerIdx) : Result unit * RouteCache :=
  remove_routes rc 0 MAX_ROUTES peer.

Definition cidrs_overlap (a b : IpCidr) : bool :=
  contains a (first_address b) || contains b (first_address a).

(** ** Specification *)

Definition routes (rc : RouteCache) : list RouteEntry := omap id (rc_entries rc).

(** Slot [i] holds the earliest route of prefix [k]. *)
Definition incumbent (es : list (option RouteEntry)) (k : PKey) (i : nat) : Prop :=
  exists e, es !! i = Some (Some e) /\ ckey (re_cidr e) = k /\
    forall j e', es !! j = Some (Some e') -> ckey (re_cidr e') = k -> (re_order e <= re_order e')%Z.

Definition orders_distinct (es : list (option RouteEntry)) : Prop :=
  forall i j e e', es !! i = Some (Some e) -> es !! j = Some (Some e') -> re_order e = re_order e' -> i = j.

Context {PL : PrefixMapLaws (V:=nat) MAX_ROUTES}.

Record rc_inv (rc : RouteCache) : Prop := {
  rci_slots : length (rc_entries rc) = MAX_ROUTES;
  rci_len : rc_len rc = length (routes rc);
  rci_orders : orders_distinct (rc_entries rc);
  rci_next : forall e, Some e ∈ rc_entries rc -> (0 <= re_order e < rc_next rc)%Z;
  rci_pairs : forall i j e e', rc_entries rc !! i = Some (Some e) -> rc_entries rc !! j = Some (Some e') ->
    re_cidr e = re_cidr e' -> re_peer e = re_peer e' -> i = j;
  rci_trie : pm_ok (rc_trie rc);
  rci_map : forall k i, pm_map (rc_trie rc) !! k = Some i <-> incumbent (rc_entries rc) k i;
}.

(** The route that decides an address: longest prefix, earliest insertion. *)
Definition decides (rc : RouteCache) (ip : IpAddr) (e : RouteEntry) : Prop :=
  e ∈ routes rc /\ contains (re_cidr e) ip = true /\
  forall e', e' ∈ routes rc -> contains (re_cidr e') ip = true ->
    network_length (re_cidr e') < network_length (re_cidr e) \/
    (re_cidr e' = re_cidr e /\ (re_order e <= re_order e')%Z).

(** Slots that hold the same route up to recency and the pinned mark. *)
Definition same_slot (s s' : option RouteEntry) : Prop :=
  match s, s' with
  | Some e, Some e' => re_cidr e' = re_cidr e /\ re_peer e' = re_peer e /\ re_order e' = re_order e
  | None, None => True
  | _, _ => False
  end.

(** A slot once [peer]'s routes are dropped. *)
Definition clear (peer : PeerIdx) (s : option RouteEntry) : option RouteEntry :=
  match s with Some e => if re_peer e =? peer then None else Some e | None => None end.

(** ** Lemmas *)

Lemma elem_of_routes rc e : e ∈ routes rc <-> Some e ∈ rc_entries rc.
Proof.
  unfold routes. rewrite list_elem_of_omap. split.
  - by intros ([x|] & Hx & [= ->]).
  - intros H. by exists (Some e).
Qed.

Lemma incumbent_exists es k i e :
  es !! i = Some (Some e) -> ckey (re_cidr e) = k -> exists j, incumbent es k j.
Proof.
  intros Hi Hk.
  pose proof (min_by_key_spec
    (fun _ (s : option RouteEntry) => match s with Some e => bool_decide (ckey (re_cidr e) = k) | None => false end)
    (fun a b => slot_order a <? slot_order b)%Z
    ltac:(cbn beta; intros; bool_lia) ltac:(cbn beta; intros; bool_lia) es) as H.
  destruct (min_by_key _ _ es) as [[j [e'|]]|].
  - destruct H as (Hj & Hk' & Hmin). apply bool_decide_eq_true in Hk'. exists j, e'. repeat split; try done.
    intros j' e'' Hj' Hk''. specialize (Hmin j' _ Hj'). cbn in Hmin.
    rewrite bool_decide_eq_true_2 in Hmin by done. specialize (Hmin eq_refl). bool_lia.
  - by destruct H as (_ & ? & _).
  - specialize (H i _ Hi). cbn in H. by rewrite bool_decide_eq_true_2 in H.
Qed.

Lemma incumbent_unique es k i j : orders_distinct es -> incumbent es k i -> incumbent es k j -> i = j.
Proof.
  intros Hd (e & Hi & Hk & Hmin) (e' & Hj & Hk' & Hmin').
  apply (Hd i j e e' Hi Hj). specialize (Hmin j e' Hj Hk'). specialize (Hmin' i e Hi Hk). lia.
Qed.

Lemma rc_new_inv : rc_inv rc_new.
Proof.
  destruct pm_new_ok as [Hok Hmap].
  assert (Hno : forall i (e : RouteEntry), replicate MAX_ROUTES None !! i = Some (Some e) -> False)
    by (intros i e [? _]%lookup_replicate; done).
  split; cbn; try done.
  - by rewrite length_replicate.
  - unfold routes. cbn. generalize MAX_ROUTES as n. induction n; [done|]. cbn. done.
  - intros i j e e' H. by destruct (Hno i e).
  - intros e [i H]%list_elem_of_lookup. by destruct (Hno i e).
  - intros i j e e' H. by destruct (Hno i e).
  - intros k i. rewrite Hmap, lookup_empty. split; [done|]. intros (e & H & _). by destruct (Hno i e).
Qed.

(** What the trie answers is the deciding route. *)
Lemma best_match_decides rc ip i :
  rc_inv rc -> best_match rc ip = Some i ->
  exists e, rc_entries rc !! i = Some (Some e) /\ decides rc ip e.
Proof.
  intros H Hb. pose proof (pm_lookup_spec (rc_trie rc) ip (rci_trie _ H)) as Hl.
  unfold best_match in Hb. rewrite Hb in Hl. destruct Hl as (l & Hl & Hm & Hmax).
  apply (rci_map _ H) in Hm as (e & Hi & Hk & Hmin). exists e. split; [done|].
  destruct (ckey_contains _ _ _ Hl Hk) as [Hc Hlen]. split.
  { apply elem_of_routes. by eapply list_elem_of_lookup_2. }
  split; [done|]. intros e' [j Hj]%elem_of_routes%list_elem_of_lookup Hc'.
  pose proof (contains_width _ _ Hc') as Hw.
  destruct (Nat.lt_trichotomy (network_length (re_cidr e')) l) as [Hlt|[Heq|Hgt]].
  - left. lia.
  - right. assert (E : re_cidr e' = re_cidr e) by (eapply contains_same_length; eauto; lia).
    split; [done|]. apply (Hmin j e' Hj). by rewrite E.
  - exfalso. specialize (Hmax _ (conj Hgt Hw)).
    destruct (incumbent_exists _ _ _ _ Hj eq_refl) as [m Hinc].
    apply (rci_map _ H) in Hinc. apply contains_true in Hc'. rewrite Hc', Hinc in Hmax. done.
Qed.

Lemma best_match_none rc ip :
  rc_inv rc -> best_match rc ip = None -> forall e, e ∈ routes rc -> contains (re_cidr e) ip = false.
Proof.
  intros H Hb e [j Hj]%elem_of_routes%list_elem_of_lookup.
  pose proof (pm_lookup_spec (rc_trie rc) ip (rci_trie _ H)) as Hl.
  unfold best_match in Hb. rewrite Hb in Hl. destruct (contains (re_cidr e) ip) eqn:Hc; [|done]. exfalso.
  specialize (Hl _ (contains_width _ _ Hc)). destruct (incumbent_exists _ _ _ _ Hj eq_refl) as [m Hinc].
  apply (rci_map _ H) in Hinc. apply contains_true in Hc. rewrite Hc, Hinc in Hl. done.
Qed.

(** ** Lemmas: every operation keeps the invariant *)

Lemma same_slot_refl s : same_slot s s.
Proof. by destruct s. Qed.

Lemma same_slot_insert es i e e' :
  es !! i = Some (Some e) -> same_slot (Some e) (Some e') -> Forall2 same_slot es (<[i := Some e']> es).
Proof.
  intros Hi Hs. apply Forall2_same_length_lookup_2; [by rewrite length_insert|].
  intros j x y Hx Hy. apply list_lookup_insert_Some in Hy as [(-> & <- & _)|[_ Hy]].
  - rewrite Hi in Hx. injection Hx as <-. done.
  - rewrite Hx in Hy. injection Hy as <-. apply same_slot_refl.
Qed.

Lemma same_slot_lookup es es' j e' :
  Forall2 same_slot es es' -> es' !! j = Some (Some e') ->
  exists e, es !! j = Some (Some e) /\ same_slot (Some e) (Some e').
Proof.
  intros Hf Hj. destruct (Forall2_lookup_r _ _ _ _ _ Hf Hj) as ([e|] & He & Hs); [eauto|done].
Qed.

Lemma same_slot_sym es es' : Forall2 same_slot es es' -> Forall2 same_slot es' es.
Proof.
  intros Hf. apply Forall2_flip. eapply Forall2_impl; [exact Hf|].
  intros [e|] [e'|]; cbn; naive_solver.
Qed.

Lemma same_slot_incumbent es es' k i :
  Forall2 same_slot es es' -> incumbent es k i -> incumbent es' k i.
Proof.
  intros Hf (e & He & Hk & Hmin).
  destruct (same_slot_lookup _ _ _ _ (same_slot_sym _ _ Hf) He) as (e' & He' & Hc & _ & Ho).
  exists e'. split; [done|]. split; [congruence|]. intros j x Hx Hkx.
  destruct (same_slot_lookup _ _ _ _ Hf Hx) as (y & Hy & Hcy & _ & Hoy).
  rewrite <- Ho, Hoy. apply (Hmin j y Hy). congruence.
Qed.

Lemma same_slot_count es es' :
  Forall2 same_slot es es' -> length (omap id es) = length (omap id es').
Proof. induction 1 as [|[e|] [e'|] es es' Hs _ IH]; cbn in *; try done; by f_equal. Qed.

Lemma rc_inv_congr rc es' :
  Forall2 same_slot (rc_entries rc) es' -> rc_inv rc ->
  rc_inv (mkRouteCache es' (rc_len rc) (rc_trie rc) (rc_next rc)).
Proof.
  intros Hf [I1 I2 I3 I4 I5 I6 I7]. split; cbn.
  - by rewrite <- (Forall2_length _ _ _ Hf).
  - rewrite I2. by apply same_slot_count.
  - intros i j e e' Hi Hj Ho.
    destruct (same_slot_lookup _ _ _ _ Hf Hi) as (x & Hx & _ & _ & Hox).
    destruct (same_slot_lookup _ _ _ _ Hf Hj) as (y & Hy & _ & _ & Hoy).
    eapply I3; eauto. congruence.
  - intros e [i Hi]%list_elem_of_lookup.
    destruct (same_slot_lookup _ _ _ _ Hf Hi) as (x & Hx & _ & _ & Hox). rewrite Hox.
    eapply I4, list_elem_of_lookup_2; eauto.
  - intros i j e e' Hi Hj Hc Hp.
    destruct (same_slot_lookup _ _ _ _ Hf Hi) as (x & Hx & ? & ? & _).
    destruct (same_slot_lookup _ _ _ _ Hf Hj) as (y & Hy & ? & ? & _).
    eapply I5; eauto; congruence.
  - done.
  - intros k i. rewrite I7. split; apply same_slot_incumbent; [done|by apply same_slot_sym].
Qed.

Lemma omap_insert_some es i (e : RouteEntry) :
  es !! i = Some None -> length (omap id (<[i := Some e]> es)) = S (length (omap id es)).
Proof.
  intros Hi. rewrite <- (take_drop_middle _ _ _ Hi) at 2.
  rewrite insert_take_drop by (by eapply lookup_lt_Some).
  rewrite !omap_app, !length_app. cbn. lia.
Qed.

Lemma omap_insert_none es i (e : RouteEntry) :
  es !! i = Some (Some e) -> S (length (omap id (<[i := None]> es))) = length (omap id es).
Proof.
  intros Hi. rewrite <- (take_drop_middle _ _ _ Hi) at 2.
  rewrite insert_take_drop by (by eapply lookup_lt_Some).
  rewrite !omap_app, !length_app. cbn. lia.
Qed.

Lemma omap_length_lt (es : list (option RouteEntry)) i :
  es !! i = Some None -> length (omap id es) < length es.
Proof.
  intros Hi. rewrite <- (take_drop_middle _ _ _ Hi) at 1.
  assert (Hle : forall l : list (option RouteEntry), length (omap id l) <= length l)
    by (induction l as [|[]]; cbn; lia).
  rewrite omap_app, length_app. cbn.
  pose proof (Hle (take i es)). pose proof (Hle (drop (S i) es)).
  rewrite length_take, length_drop in *. apply lookup_lt_Some in Hi. lia.
Qed.

(** The trie holds no more prefixes than there are routes. *)
Lemma trie_size rc : rc_inv rc -> size (pm_map (rc_trie rc)) <= length (routes rc).
Proof.
  intros H. rewrite <- length_map_to_list, <- (length_fmap fst).
  transitivity (length (ckey ∘ re_cidr <$> routes rc)); [|by rewrite length_fmap].
  apply submseteq_length, NoDup_submseteq; [apply NoDup_fst_map_to_list|].
  intros k ([k' i] & -> & Hk)%list_elem_of_fmap. apply elem_of_map_to_list in Hk.
  apply (rci_map _ H) in Hk as (e & He & <- & _). apply list_elem_of_fmap. exists e.
  split; [done|]. apply elem_of_routes. by eapply list_elem_of_lookup_2.
Qed.

Lemma best_match_slot rc ip i :
  rc_inv rc -> best_match rc ip = Some i -> exists e, rc_entries rc !! i = Some (Some e).
Proof. intros H Hb. destruct (best_match_decides _ _ _ H Hb) as (e & He & _). eauto. Qed.

Lemma rc_lookup_inv rc ip now : rc_inv rc -> rc_inv (snd (rc_lookup rc ip now)).
Proof.
  intros H. unfold rc_lookup. destruct (best_match rc ip) as [i|]; [|done].
  destruct (rc_entries rc !! i) as [[e|]|] eqn:He; [|done..].
  apply rc_inv_congr; [|done]. by eapply same_slot_insert.
Qed.

(** Incumbents after a new route of the largest order takes a free slot. *)
Lemma incumbent_add es i (e : RouteEntry) k j :
  es !! i = Some None -> (forall e', Some e' ∈ es -> (re_order e' < re_order e)%Z) ->
  incumbent (<[i := Some e]> es) k j <->
  incumbent es k j \/ (j = i /\ k = ckey (re_cidr e) /\ forall m, ~ incumbent es k m).
Proof.
  intros Hi Hlt.
  assert (Hne : forall j' e', es !! j' = Some (Some e') -> j' <> i) by (intros; congruence).
  split.
  - intros (x & Hx & Hk & Hmin). apply list_lookup_insert_Some in Hx as [(-> & [= <-] & _)|[Hne' Hx]].
    + right. split; [done|]. split; [done|]. intros m (y & Hy & Hky & _).
      specialize (Hmin m y). rewrite list_lookup_insert_ne in Hmin by (symmetry; eauto).
      specialize (Hmin Hy Hky). specialize (Hlt y (list_elem_of_lookup_2 _ _ _ Hy)). lia.
    + left. exists x. repeat split; try done. intros j' e' Hj' Hk'.
      apply (Hmin j' e'); [|done]. rewrite list_lookup_insert_ne by (symmetry; eauto). done.
  - intros [(x & Hx & Hk & Hmin)|(-> & -> & Hno)].
    + exists x. rewrite list_lookup_insert_ne by (symmetry; eauto). repeat split; try done.
      intros j' e' Hj' Hk'. apply list_lookup_insert_Some in Hj' as [(-> & [= <-] & _)|[_ Hj']]; [|eauto].
      specialize (Hlt x (list_elem_of_lookup_2 _ _ _ Hx)). lia.
    + exists e. split; [apply list_lookup_insert_eq; by eapply lookup_lt_Some|]. split; [done|].
      intros j' e' Hj' Hk'. apply list_lookup_insert_Some in Hj' as [(-> & [= <-] & _)|[_ Hj']]; [lia|].
      destruct (incumbent_exists _ _ _ _ Hj' Hk') as [m Hm]. by destruct (Hno m).
Qed.

(** Committing a new route in a free slot, given the trie maps the incumbents. *)
Lemma commit_inv rc i e t :
  rc_inv rc -> rc_entries rc !! i = Some None -> re_order e = rc_next rc -> (rc_next rc < u64_max)%Z ->
  (0 <= rc_next rc)%Z ->
  (forall j e', rc_entries rc !! j = Some (Some e') -> re_cidr e' = re_cidr e -> re_peer e' = re_peer e -> False) ->
  pm_ok t ->
  (forall k j, pm_map t !! k = Some j <-> incumbent (<[i := Some e]> (rc_entries rc)) k j) ->
  rc_inv (mkRouteCache (<[i := Some e]> (rc_entries rc)) (S (rc_len rc)) t (wrap_add u64_max (rc_next rc) 1)).
Proof.
  intros [I1 I2 I3 I4 I5 I6 I7] Hi Ho Hmax H0 Hpair Hok Hmap.
  assert (Hw : wrap_add u64_max (rc_next rc) 1 = (rc_next rc + 1)%Z).
  { unfold wrap_add, u64_max in *. apply Z.mod_small. lia. }
  assert (Hcase : forall j x, <[i := Some e]> (rc_entries rc) !! j = Some (Some x) ->
    (j = i /\ x = e) \/ (j <> i /\ rc_entries rc !! j = Some (Some x))).
  { intros j x [(-> & [= <-] & _)|[? ?]]%list_lookup_insert_Some; naive_solver. }
  split; cbn.
  - by rewrite length_insert.
  - unfold routes. cbn. by rewrite omap_insert_some, I2.
  - intros j j' x y [[-> ->]|[Hj Hx]]%Hcase [[-> ->]|[Hj' Hy]]%Hcase E; [done| | |by eapply I3].
    + specialize (I4 y (list_elem_of_lookup_2 _ _ _ Hy)). lia.
    + specialize (I4 x (list_elem_of_lookup_2 _ _ _ Hx)). lia.
  - intros x [j [[-> ->]|[Hj Hx]]%Hcase]%list_elem_of_lookup; rewrite Hw; [lia|].
    specialize (I4 x (list_elem_of_lookup_2 _ _ _ Hx)). lia.
  - intros j j' x y [[-> ->]|[Hj Hx]]%Hcase [[-> ->]|[Hj' Hy]]%Hcase Ec Ep; [done| | |by eapply I5].
    + by destruct (Hpair _ _ Hy).
    + by destruct (Hpair _ _ Hx).
  - done.
  - done.
Qed.

Lemma position_free_slot (es : list (option RouteEntry)) i :
  position (fun s : option RouteEntry => match s with None => true | Some _ => false end) es = Some i ->
  es !! i = Some None.
Proof. intros ([e|] & Hi & Hn & _)%position_Some; done. Qed.

(** Insertion refreshes an identical route, fails exactly when every slot is
    taken, and otherwise adds the route in a free slot. *)
Lemma rc_insert_spec rc cidr peer pinned now :
  rc_inv rc -> (rc_next rc < u64_max)%Z -> (0 <= rc_next rc)%Z ->
  let '(r, rc') := rc_insert rc cidr peer pinned now in
  rc_inv rc' /\
  ((exists i e, rc_entries rc !! i = Some (Some e) /\ re_cidr e = cidr /\ re_peer e = peer /\ r = Ok tt /\
      rc' = set_slot rc i (Some (mkRouteEntry cidr peer pinned now (re_order e)))) \/
   (r = Failed RouteCacheFull /\ rc' = rc /\ None ∉ rc_entries rc) \/
   (r = Ok tt /\ (forall e, e ∈ routes rc -> re_cidr e = cidr -> re_peer e = peer -> False) /\
    exists i, rc_entries rc !! i = Some None /\
      rc_entries rc' = <[i := Some (mkRouteEntry cidr peer pinned now (rc_next rc))]> (rc_entries rc) /\
      rc_next rc' = (rc_next rc + 1)%Z)).
Proof.
  intros H Hmax H0. unfold rc_insert.
  destruct (position (is_same_route cidr peer) (rc_entries rc)) as [i|] eqn:Hpos.
  { apply position_Some in Hpos as ([e|] & Hi & Hs & _); [|done]. cbn in Hs. bool_to_prop. subst.
    rewrite Hi. split; [|left; eauto 10]. apply rc_inv_congr; [|done]. by eapply same_slot_insert. }
  apply position_None in Hpos. rewrite Forall_forall in Hpos.
  assert (Hpair : forall j e', rc_entries rc !! j = Some (Some e') -> re_cidr e' = cidr -> re_peer e' = peer -> False).
  { intros j e' Hj <- <-. specialize (Hpos _ (list_elem_of_lookup_2 _ _ _ Hj)). cbn in Hpos.
    by rewrite bool_decide_eq_true_2, Nat.eqb_refl in Hpos. }
  destruct (position _ (rc_entries rc)) as [i|] eqn:Hfree.
  2:{ split; [done|]. right. left. split; [done|]. split; [done|]. apply position_None in Hfree.
      rewrite Forall_forall in Hfree. intros Hin. by specialize (Hfree _ Hin). }
  apply position_free_slot in Hfree. set (e := mkRouteEntry cidr peer pinned now (rc_next rc)).
  assert (Hlt : forall e', Some e' ∈ rc_entries rc -> (re_order e' < re_order e)%Z)
    by (intros e' He'; cbn; apply (rci_next _ H e' He')).
  assert (Hend : forall t, pm_ok t ->
    (forall k j, pm_map t !! k = Some j <-> incumbent (<[i := Some e]> (rc_entries rc)) k j) ->
    rc_inv (mkRouteCache (<[i := Some e]> (rc_entries rc)) (S (rc_len rc)) t (wrap_add u64_max (rc_next rc) 1))).
  { intros t Hok Hmap. by apply commit_inv. }
  assert (Hres : wrap_add u64_max (rc_next rc) 1 = (rc_next rc + 1)%Z).
  { unfold wrap_add, u64_max in *. apply Z.mod_small. lia. }
  assert (Hroutes : forall e', e' ∈ routes rc -> re_cidr e' = cidr -> re_peer e' = peer -> False)
    by (intros e' [j Hj]%elem_of_routes%list_elem_of_lookup; eauto).
  rewrite (pm_get_spec _ _ (rci_trie _ H)).
  destruct (pm_map (rc_trie rc) !! ckey cidr) as [j|] eqn:Hget.
  - cbn. split; [|right; right; eauto 10]. apply Hend; [apply H|]. intros k m.
    rewrite (incumbent_add _ _ _ _ _ Hfree Hlt), (rci_map _ H). split; [by left|].
    intros [?|(-> & -> & Hno)]; [done|]. apply (rci_map _ H) in Hget. by destruct (Hno j).
  - pose proof (omap_length_lt _ _ Hfree). pose proof (trie_size _ H) as Hsz.
    pose proof (rci_slots _ H). unfold routes in Hsz.
    pose proof (pm_insert_spec (rc_trie rc) cidr i (rci_trie _ H) ltac:(right; lia)) as Hins.
    destruct (pm_insert (rc_trie rc) cidr i) as [r t]. destruct Hins as (-> & Hok & Hmap). rewrite Hget. cbn.
    split; [|right; right; eauto 10]. apply Hend; [done|]. intros k m.
    rewrite Hmap, (incumbent_add _ _ _ _ _ Hfree Hlt). destruct (decide (k = ckey cidr)) as [->|Hk].
    + rewrite lookup_insert_eq. split.
      * intros [= <-]. right. split; [done|]. split; [done|]. intros m Hm. apply (rci_map _ H) in Hm. congruence.
      * intros [Hm|(-> & _)]; [|done]. apply (rci_map _ H) in Hm. congruence.
    + rewrite lookup_insert_ne by done. rewrite (rci_map _ H). split; [by left|]. intros [?|(_ & -> & _)]; done.
Qed.

(** Dropping the route of a slot, given the trie then maps the incumbents. *)
Lemma drop_inv rc i e t :
  rc_inv rc -> rc_entries rc !! i = Some (Some e) -> pm_ok t ->
  (forall k j, pm_map t !! k = Some j <-> incumbent (<[i := None]> (rc_entries rc)) k j) ->
  rc_inv (mkRouteCache (<[i := None]> (rc_entries rc)) (rc_len rc - 1) t (rc_next rc)).
Proof.
  intros [I1 I2 I3 I4 I5 I6 I7] Hi Hok Hmap.
  assert (Hcase : forall j x, <[i := None]> (rc_entries rc) !! j = Some (Some x) -> rc_entries rc !! j = Some (Some x)).
  { intros j x [(_ & ? & _)|[_ ?]]%list_lookup_insert_Some; done. }
  split; cbn; try done.
  - by rewrite length_insert.
  - unfold routes. cbn. pose proof (omap_insert_none _ _ _ Hi). unfold routes in I2. lia.
  - intros j j' x y Hx Hy. eauto.
  - intros x [j Hx]%list_elem_of_lookup. eapply I4, list_elem_of_lookup_2. eauto.
  - intros j j' x y Hx Hy. eauto.
Qed.

(** Incumbents after a slot is emptied: those of other prefixes stay; for its own
    prefix the next-oldest route takes over. *)
Lemma incumbent_drop_other (es : list (option RouteEntry)) i (e : RouteEntry) k j :
  es !! i = Some (Some e) -> k <> ckey (re_cidr e) ->
  incumbent (<[i := None]> es) k j <-> incumbent es k j.
Proof.
  intros Hi Hk. split; intros (x & Hx & Hkx & Hmin).
  - apply list_lookup_insert_Some in Hx as [(_ & ? & _)|[Hne Hx]]; [done|].
    exists x. repeat split; try done. intros j' y Hy Hky. apply (Hmin j' y); [|done].
    rewrite list_lookup_insert_ne; [done|]. intros <-. congruence.
  - assert (Hne : forall j' y, es !! j' = Some (Some y) -> ckey (re_cidr y) = k -> i <> j')
      by (intros j' y Hy Hky <-; congruence).
    exists x. rewrite list_lookup_insert_ne by eauto. repeat split; try done.
    intros j' y [(_ & ? & _)|[_ Hy]]%list_lookup_insert_Some Hky; [done|eauto].
Qed.

Lemma replacement_spec rc i e :
  rc_entries rc !! i = Some (Some e) ->
  match replacement rc i (re_cidr e) with
  | Some r => incumbent (<[i := None]> (rc_entries rc)) (ckey (re_cidr e)) r
  | None => forall j, ~ incumbent (<[i := None]> (rc_entries rc)) (ckey (re_cidr e)) j
  end.
Proof.
  intros Hi. unfold replacement.
  pose proof (min_by_key_spec (replaces i (re_cidr e)) (fun a b => slot_order a <? slot_order b)%Z
    ltac:(cbn beta; intros; bool_lia) ltac:(cbn beta; intros; bool_lia) (rc_entries rc)) as H.
  assert (Hrep : forall j x, <[i := None]> (rc_entries rc) !! j = Some (Some x) ->
    ckey (re_cidr x) = ckey (re_cidr e) -> rc_entries rc !! j = Some (Some x) /\ replaces i (re_cidr e) j (Some x) = true).
  { intros j x [(_ & ? & _)|[Hne Hx]]%list_lookup_insert_Some Hk; [done|]. split; [done|].
    unfold replaces. apply cidr_ext in Hk. destruct (Nat.eqb_spec j i); [congruence|]. cbn.
    by apply bool_decide_eq_true. }
  destruct (min_by_key _ _ _) as [[r s]|]; cbn.
  - destruct H as (Hr & Hk & Hmin). unfold replaces in Hk. destruct s as [x|]; [|bool_lia]. bool_to_prop.
    exists x. rewrite list_lookup_insert_ne by done. split; [done|]. split; [congruence|].
    intros j' y Hy Hky. destruct (Hrep _ _ Hy Hky) as [Hy' Hkeep].
    specialize (Hmin j' _ Hy' Hkeep). cbn in Hmin. bool_lia.
  - intros j (x & Hx & Hk & _). destruct (Hrep _ _ Hx Hk) as [Hx' Hkeep].
    specialize (H j _ Hx'). congruence.
Qed.

Lemma clear_insert (es : list (option RouteEntry)) i e peer :
  es !! i = Some (Some e) -> re_peer e = peer -> <[i := None]> es = alter (clear peer) i es.
Proof.
  intros Hi Hp. apply list_eq. intros j. destruct (decide (j = i)) as [->|].
  - rewrite list_lookup_insert_eq by (by eapply lookup_lt_Some).
    rewrite list_lookup_alter_eq, Hi. cbn. by rewrite Hp, Nat.eqb_refl.
  - by rewrite list_lookup_insert_ne, list_lookup_alter_ne.
Qed.

Lemma clear_noop (es : list (option RouteEntry)) i peer :
  (forall e, es !! i = Some (Some e) -> re_peer e <> peer) -> alter (clear peer) i es = es.
Proof.
  intros Hno. apply list_eq. intros j. destruct (decide (j = i)) as [->|].
  - rewrite list_lookup_alter_eq. destruct (es !! i) as [[e|]|] eqn:Hi; cbn; try done.
    destruct (Nat.eqb_spec (re_peer e) peer); [by destruct (Hno e)|done].
  - by rewrite list_lookup_alter_ne.
Qed.

(** One slot of the removal loop always succeeds. *)
Lemma remove_route_spec rc i peer :
  rc_inv rc -> exists rc', remove_route rc i peer = (Ok tt, rc') /\ rc_inv rc' /\
    rc_entries rc' = alter (clear peer) i (rc_entries rc) /\ rc_next rc' = rc_next rc.
Proof.
  intros H. unfold remove_route. destruct (rc_entries rc !! i) as [[e|]|] eqn:Hi.
  2,3: exists rc; rewrite clear_noop by (intros ? ?; congruence); done.
  destruct (Nat.eqb_spec (re_peer e) peer) as [Hp|Hp]; cbn [negb].
  2: exists rc; rewrite clear_noop by (intros ? ?; congruence); done.
  assert (Hfin : forall t, pm_ok t ->
    (forall k j, pm_map t !! k = Some j <-> incumbent (<[i := None]> (rc_entries rc)) k j) ->
    exists rc', (Ok tt, set_len (set_slot (set_trie rc t) i None) (rc_len rc - 1)) = (@Ok unit tt, rc') /\
      rc_inv rc' /\ rc_entries rc' = alter (clear peer) i (rc_entries rc) /\ rc_next rc' = rc_next rc).
  { intros t Hok Hmap. eexists. split; [reflexivity|].
    split; [by apply (drop_inv rc i e t)|]. split; [by eapply clear_insert|done]. }
  rewrite (pm_get_spec _ _ (rci_trie _ H)). case_bool_decide as Hinc; cbn [negb].
  - pose proof (pm_remove_spec (rc_trie rc) (re_cidr e) (rci_trie _ H)) as Hrem.
    destruct (pm_remove (rc_trie rc) (re_cidr e)) as [r t]. destruct Hrem as (-> & Hok & Hmap).
    rewrite Hinc, Nat.eqb_refl. cbn [negb]. pose proof (replacement_spec rc i e Hi) as Hrep.
    destruct (replacement rc i (re_cidr e)) as [r|].
    + assert (Hsz : size (pm_map t) < MAX_ROUTES).
      { rewrite Hmap, map_size_delete_Some by eauto. pose proof (trie_size _ H) as Hs.
        assert (Hle : length (routes rc) <= length (rc_entries rc)).
        { unfold routes. generalize (rc_entries rc) as l. induction l as [|[]]; cbn; lia. }
        rewrite (rci_slots _ H) in Hle. assert (size (pm_map (rc_trie rc)) <> 0); [|lia].
        intros E%map_size_empty_inv. by rewrite E, lookup_empty in Hinc. }
      pose proof (pm_insert_spec t (re_cidr e) r Hok ltac:(by right)) as Hins.
      destruct (pm_insert t (re_cidr e) r) as [o t']. destruct Hins as (-> & Hok' & Hmap').
      rewrite Hmap, lookup_delete_eq. apply Hfin; [done|]. intros k j. rewrite Hmap', Hmap.
      destruct (decide (k = ckey (re_cidr e))) as [->|Hk].
      * rewrite lookup_insert_eq. split; [by intros [= <-]|]. intros Hj. f_equal.
        eapply incumbent_unique; [|exact Hrep|exact Hj].
        intros a b x y [(_ & ? & _)|[_ Hx]]%list_lookup_insert_Some; [done|].
        intros [(_ & ? & _)|[_ Hy]]%list_lookup_insert_Some; [done|]. by eapply (rci_orders _ H).
      * rewrite lookup_insert_ne, lookup_delete_ne by done.
        by rewrite (incumbent_drop_other _ _ _ _ _ Hi Hk), (rci_map _ H).
    + apply Hfin; [done|]. intros k j. rewrite Hmap. destruct (decide (k = ckey (re_cidr e))) as [->|Hk].
      * rewrite lookup_delete_eq. split; [done|]. intros Hj. by destruct (Hrep j).
      * rewrite lookup_delete_ne by done. by rewrite (incumbent_drop_other _ _ _ _ _ Hi Hk), (rci_map _ H).
  - destruct (incumbent_exists _ _ _ _ Hi eq_refl) as [m Hm].
    assert (Hmi : m <> i) by (intros ->; apply (rci_map _ H) in Hm; done).
    apply (Hfin (rc_trie rc)); [apply H|]. intros k j. rewrite (rci_map _ H).
    destruct (decide (k = ckey (re_cidr e))) as [->|Hk]; [|by rewrite (incumbent_drop_other _ _ _ _ _ Hi Hk)].
    split.
    + intros Hj. pose proof (incumbent_unique _ _ _ _ (rci_orders _ H) Hm Hj) as <-.
      destruct Hj as (x & Hx & Hkx & Hmin). exists x. rewrite list_lookup_insert_ne by done.
      repeat split; try done. intros j' y [(_ & ? & _)|[_ Hy]]%list_lookup_insert_Some Hky; [done|eauto].
    + intros (x & Hx & Hkx & Hmin). apply list_lookup_insert_Some in Hx as [(_ & ? & _)|[_ Hx]]; [done|].
      exists x. repeat split; try done. intros j' y Hy Hky.
      destruct (decide (j' = i)) as [->|]; [|apply (Hmin j' y); [by rewrite list_lookup_insert_ne|done]].
      destruct Hm as (z & Hz & Hkz & Hminz). specialize (Hminz i y Hy Hky).
      specialize (Hmin m z). rewrite list_lookup_insert_ne in Hmin by done. specialize (Hmin Hz Hkz). lia.
Qed.

Lemma remove_routes_spec rc index n peer :
  rc_inv rc -> exists rc', remove_routes rc index n peer = (Ok tt, rc') /\ rc_inv rc' /\
    rc_next rc' = rc_next rc /\
    forall j, rc_entries rc' !! j =
      if (index <=? j) && (j <? index + n) then clear peer <$> rc_entries rc !! j else rc_entries rc !! j.
Proof.
  revert rc index. induction n as [|n IH]; intros rc index H; cbn [remove_routes].
  - exists rc. do 3 (split; [done|]). intros j.
    destruct (Nat.leb_spec index j), (Nat.ltb_spec j (index + 0)); try lia; done.
  - destruct (remove_route_spec rc index peer H) as (rc1 & -> & H1 & E1 & N1).
    destruct (IH rc1 (S index) H1) as (rc2 & -> & H2 & N2 & E2). exists rc2.
    do 2 (split; [done|]). split; [congruence|]. intros j. rewrite E2, E1.
    destruct (decide (j = index)) as [->|Hj].
    + rewrite list_lookup_alter_eq.
      destruct (Nat.leb_spec (S index) index), (Nat.leb_spec index index), (Nat.ltb_spec index (index + S n)); try lia. done.
    + rewrite list_lookup_alter_ne by done.
      destruct (Nat.leb_spec (S index) j), (Nat.leb_spec index j), (Nat.ltb_spec j (S index + n)),
        (Nat.ltb_spec j (index + S n)); try lia; done.
Qed.

Lemma rc_remove_peer_spec rc peer :
  rc_inv rc -> exists rc', rc_remove_peer rc peer = (Ok tt, rc') /\ rc_inv rc' /\
    rc_next rc' = rc_next rc /\ rc_entries rc' = clear peer <$> rc_entries rc.
Proof.
  intros H. destruct (remove_routes_spec rc 0 MAX_ROUTES peer H) as (rc' & E & H' & N & L).
  exists rc'. do 3 (split; [done|]). apply list_eq. intros j. rewrite L, list_lookup_fmap.
  destruct (Nat.ltb_spec j (0 + MAX_ROUTES)) as [|Hge]; [done|].
  rewrite andb_false_r. rewrite lookup_ge_None_2; [done|]. rewrite (rci_slots _ H). lia.
Qed.

(** ** Theorems *)

(** What the read-only lookup answers. *)
Lemma lookup_readonly_spec (rc : RouteCache) (ip : IpAddr) :
  rc_inv rc ->
  (forall p, lookup_readonly rc ip = Some p <-> exists e, decides rc ip e /\ re_peer e = p) /\
  (lookup_readonly rc ip = None <-> forall e, e ∈ routes rc -> contains (re_cidr e) ip = false).
Proof.
  intros H. unfold lookup_readonly. destruct (best_match rc ip) as [i|] eqn:Hb; cbn.
  - destruct (best_match_decides _ _ _ H Hb) as (e & He & Hd). rewrite He. cbn. split.
    + intros p. split; [intros [= <-]; eauto|]. intros (e' & Hd' & <-). f_equal.
      destruct Hd as (Hr & Hc & Hm), Hd' as (Hr' & Hc' & Hm').
      destruct (Hm _ Hr' Hc') as [?|[Ec Ho]], (Hm' _ Hr Hc) as [?|[Ec' Ho']];
        try apply (f_equal network_length) in Ec; try apply (f_equal network_length) in Ec'; try lia.
      apply elem_of_routes, list_elem_of_lookup in Hr' as [j Hj].
      assert (i = j) as <- by (apply (rci_orders _ H i j e e' He Hj); lia). congruence.
    + split; [done|]. intros Hno. destruct Hd as (Hr & Hc & _). by rewrite (Hno e Hr) in Hc.
  - pose proof (best_match_none _ _ H Hb) as Hno. split; [|done].
    intros p. split; [done|]. intros (e & (Hr & Hc & _) & _). by rewrite (Hno e Hr) in Hc.
Qed.

(** C15: cryptokey routing is longest-prefix match with the earliest route winning
    a tie: the read-only lookup answers the peer of the deciding route of an
    address, answers nothing exactly when no route contains it, and the lookup of
    the send path answers the same peer. *)
Theorem lookup_is_longest_prefix (rc : RouteCache) (ip : IpAddr) (now : Instant) :
  rc_inv rc ->
  (forall p, lookup_readonly rc ip = Some p <-> exists e, decides rc ip e /\ re_peer e = p) /\
  (lookup_readonly rc ip = None <-> forall e, e ∈ routes rc -> contains (re_cidr e) ip = false) /\
  fst (rc_lookup rc ip now) = lookup_readonly rc ip.
Proof.
  intros H. destruct (lookup_readonly_spec rc ip H) as [Hs Hn]. split_and!; [exact Hs|exact Hn|].
  unfold rc_lookup, lookup_readonly. destruct (best_match rc ip) as [i|] eqn:Hb; [|done].
  destruct (best_match_slot _ _ _ H Hb) as (e & He). cbn. by rewrite He.
Qed.

(** every operation keeps the cache consistent and never fails for an internal
    reason: an insertion refreshes an identical route, is refused only when every
    slot is taken (changing nothing), and otherwise adds exactly one route;
    removing a peer succeeds and drops exactly its routes, promoting the
    next-oldest owner of each prefix it held. *)
Theorem route_cache_operations (rc : RouteCache) (cidr : IpCidr) (peer : PeerIdx) (pinned : bool) (now : Instant) :
  rc_inv rc -> (0 <= rc_next rc < u64_max)%Z ->
  (let '(r, rc') := rc_insert rc cidr peer pinned now in
   rc_inv rc' /\ (r = Ok tt \/ r = Failed RouteCacheFull /\ rc' = rc /\ available_slots rc = 0) /\
   (r = Ok tt -> exists e, e ∈ routes rc' /\ re_cidr e = cidr /\ re_peer e = peer) /\
   (length (routes rc') <= S (length (routes rc)))) /\
  (exists rc', rc_remove_peer rc peer = (Ok tt, rc') /\ rc_inv rc' /\
   forall e, e ∈ routes rc' <-> e ∈ routes rc /\ re_peer e <> peer).
Proof.
  intros H [H0 Hmax]. split.
  - pose proof (rc_insert_spec rc cidr peer pinned now H Hmax H0) as Hs.
    destruct (rc_insert rc cidr peer pinned now) as [r rc'].
    destruct Hs as [H' [(i & e & Hi & <- & <- & -> & ->)|[(-> & -> & Hfull)|(-> & _ & i & Hi & E & _)]]];
      (split; [done|]).
    + split; [by left|]. split.
      * intros _. eexists. split; [apply elem_of_routes, list_elem_of_lookup; exists i; apply list_lookup_insert_eq;
          by eapply lookup_lt_Some|done].
      * unfold routes, set_slot. cbn [rc_entries].
        rewrite <- (same_slot_count (rc_entries rc)); [lia|]. by eapply same_slot_insert.
    + split; [right; split; [done|]; split; [done|]|split; [done|lia]].
      unfold available_slots. rewrite (rci_len _ H), <- (rci_slots _ H). unfold routes.
      assert (length (omap id (rc_entries rc)) = length (rc_entries rc)); [|lia].
      revert Hfull. generalize (rc_entries rc) as l. induction l as [|[x|] l IH]; cbn; [done| |].
      * intros Hn. rewrite IH; [done|]. intros Hin. apply Hn. by right.
      * intros []. by left.
    + split; [by left|]. split.
      * intros _. eexists. split; [apply elem_of_routes, list_elem_of_lookup; exists i; rewrite E;
          apply list_lookup_insert_eq; by eapply lookup_lt_Some|done].
      * unfold routes. rewrite E, omap_insert_some by done. lia.
  - destruct (rc_remove_peer_spec rc peer H) as (rc' & Er & H' & _ & E). exists rc'. split; [done|]. split; [done|].
    intros e. rewrite !elem_of_routes, E, list_elem_of_fmap. split.
    + intros ([x|] & Ex & Hx); cbn in Ex; [|done].
      destruct (Nat.eqb_spec (re_peer x) peer); [done|]. injection Ex as ->. done.
    + intros [He Hp]. exists (Some e). cbn. destruct (Nat.eqb_spec (re_peer e) peer); done.
Qed.

End Routing.

(** ** Witnesses *)

Section RoutingWitness.
#[local] Existing Instance CidrModel.ops.
#[local] Existing Instance CidrModel.laws.
#[local] Existing Instance MapModel.ops.
#[local] Existing Instance MapModel.laws.

(** 10.0.0.0/8 for peer 1, then 10.1.0.0/16 for peer 2 and for peer 3. *)
Definition net8 : IpCidr := CidrModel.mk (V4 167772160) 8 eq_refl.
Definition net16 : IpCidr := CidrModel.mk (V4 167837696) 16 eq_refl.
Definition demo_routes : RouteCache :=
  snd (rc_insert (snd (rc_insert (snd (rc_insert (rc_new 4) net8 1 false 0%Z)) net16 2 false 0%Z)) net16 3 false 0%Z).

Lemma insert_step rc cidr peer now n :
  rc_inv 4 rc -> rc_next rc = n -> (0 <= n < u64_max)%Z ->
  rc_inv 4 (snd (rc_insert rc cidr peer false now)).
Proof.
  intros H <- Hn. pose proof (rc_insert_spec 4 rc cidr peer false now H ltac:(lia) ltac:(lia)) as Hs.
  destruct (rc_insert rc cidr peer false now) as [r rc']. apply Hs.
Qed.

Lemma demo_routes_inv : rc_inv 4 demo_routes.
Proof.
  unfold demo_routes.
  do 3 (eapply insert_step; [|vm_compute; reflexivity|done]). apply rc_new_inv.
Qed.

Lemma lookup_is_longest_prefix_witness :
  lookup_readonly demo_routes (V4 167837700) = Some 2 /\
  fst (rc_lookup demo_routes (V4 167837700) 7%Z) = Some 2.
Proof.
  assert (E : lookup_readonly demo_routes (V4 167837700) = Some 2) by (vm_compute; reflexivity).
  split; [exact E|].
  destruct (lookup_is_longest_prefix 4 demo_routes (V4 167837700) 7%Z demo_routes_inv) as (_ & _ & ->).
  exact E.
Defined.

Lemma route_cache_operations_witness :
  exists rc', rc_remove_peer 4 demo_routes 2 = (Ok tt, rc') /\ rc_inv 4 rc' /\
    lookup_readonly rc' (V4 167837700) = Some 3.
Proof.
  assert (Hn : (0 <= rc_next demo_routes < u64_max)%Z) by (vm_compute; split; congruence).
  destruct (route_cache_operations 4 demo_routes net8 2 false 0%Z demo_routes_inv Hn) as (_ & rc' & E & I & _).
  exists rc'. split; [exact E|]. split; [exact I|].
  apply (f_equal (fun x => lookup_readonly (snd x) (V4 167837700))) in E. cbn [snd] in E. rewrite <- E.
  vm_compute. reflexivity.
Defined.
End RoutingWitness.
