(* ===== verification/Relay.v ===== *)
(** * The relay envelope ([microtun-core/src/relay.rs])

    [destination\[32\] || inner_len_le\[4\] || inner || zero padding to 16]. *)

From S2P Require Import Prelude Messages.
Local Open Scope nat_scope.

Record EnvelopeHeader := mkEnvelopeHeader { eh_destination : list Z; eh_inner_len : Z }.

Definition envelope_layout : list nat := [32; 4].
Definition ENVELOPE_HEADER_LEN : nat := size_of envelope_layout.

Definition MAX_RELAY_INNER_SIZE : nat :=
  align_down16 (align_down16 (MAX_UDP_SIZE - DATA_OVERHEAD) - ENVELOPE_HEADER_LEN).
Definition MAX_RELAY_INNER_IP_SIZE : nat := align_down16 (MAX_RELAY_INNER_SIZE - DATA_OVERHEAD).

Definition envelope_header_bytes (h : EnvelopeHeader) : list Z :=
  eh_destination h ++ le_bytes 4 (eh_inner_len h).

Definition write_header (buf : list Z) (destination : list Z) (inner_len : nat) : option (list Z) :=
  if (u32_max <? Z.of_nat inner_len)%Z then None
  else if (length buf <? ENVELOPE_HEADER_LEN) then None
  else Some (blit buf 0 (envelope_header_bytes (mkEnvelopeHeader destination (Z.of_nat inner_len)))).

Record Envelope := mkEnvelope { destination : list Z; inner : list Z }.

Definition inner_plausible (inner : list Z) : bool :=
  match classify inner with
  | Some Initiation | Some Response | Some CookieReplyMsg => true
  | Some Data => (length inner mod 16 =? 0)
  | Some RelayData | None => false
  end.

(** [checked_add] on [usize] cannot overflow for a [u32] length on the 32- and
    64-bit targets the crate supports below [usize::MAX - 51]; the length test
    against a real slice rejects the remaining values as [None] does. *)
Definition parse (plaintext : list Z) : option Envelope :=
  dest ← slice plaintext 0 32;
  len_bytes ← slice plaintext 32 4;
  let rest := drop ENVELOPE_HEADER_LEN plaintext in
  let inner_len := Z.to_nat (le_value len_bytes) in
  let unpadded_len := ENVELOPE_HEADER_LEN + inner_len in
  let expected_plaintext_len := align_down16 (unpadded_len + 15) in
  if negb (length plaintext =? expected_plaintext_len) then None else
  inner ← slice rest 0 inner_len;
  if existsb (fun b => negb (b =? 0)%Z) (drop inner_len rest) || negb (inner_plausible inner)
  then None
  else Some (mkEnvelope dest inner).

(** ** Specification: the one plaintext of an envelope *)

(** [(len + 15) & !15] *)
Definition padded16 (n : nat) : nat := align_down16 (n + 15).

(** What the sender stages: the header and the inner datagram at the front of
    a buffer, zero-filled up to the next multiple of sixteen. *)
Definition stage (e : Envelope) : option (list Z) :=
  let payload_len := ENVELOPE_HEADER_LEN + length (inner e) in
  buf ← write_header (replicate (padded16 payload_len) 0%Z) (destination e) (length (inner e));
  Some (blit buf ENVELOPE_HEADER_LEN (inner e)).

Definition envelope_wf (e : Envelope) : Prop :=
  length (destination e) = 32 /\ inner_plausible (inner e) = true /\
  (Z.of_nat (length (inner e)) <= u32_max)%Z.

(** ** Lemmas *)

Lemma padded16_le n : n <= padded16 n < n + 16.
Proof.
  unfold padded16, align_down16. pose proof (Nat.mod_upper_bound (n + 15) 16 ltac:(lia)).
  pose proof (Nat.mod_le (n + 15) 16 ltac:(lia)). lia.
Qed.

Lemma existsb_nonzero l : existsb (fun b => negb (b =? 0)%Z) l = false -> l = replicate (length l) 0%Z.
Proof.
  induction l as [|b l IH]; cbn -[Z.eqb]; [done|]. intros [Hb Hl]%orb_false_iff.
  apply negb_false_iff, Z.eqb_eq in Hb as ->. by rewrite <- IH.
Qed.

Lemma existsb_zeros n : existsb (fun b => negb (b =? 0)%Z) (replicate n 0%Z) = false.
Proof. induction n; cbn; auto. Qed.

Lemma stage_eq e :
  length (destination e) = 32 -> (Z.of_nat (length (inner e)) <= u32_max)%Z ->
  stage e = Some (destination e ++ le_bytes 4 (Z.of_nat (length (inner e))) ++ inner e ++
    replicate (padded16 (36 + length (inner e)) - (36 + length (inner e))) 0%Z).
Proof.
  intros Hd Hi. unfold stage, write_header.
  destruct (Z.ltb_spec u32_max (Z.of_nat (length (inner e)))); [lia|].
  change ENVELOPE_HEADER_LEN with 36.
  pose proof (padded16_le (36 + length (inner e))) as Hp. rewrite length_replicate.
  destruct (Nat.ltb_spec (padded16 (36 + length (inner e))) 36); [lia|].
  cbn [mbind option_bind]. f_equal. unfold blit, envelope_header_bytes.
  cbn [eh_destination eh_inner_len]. rewrite take_0, app_nil_l.
  assert (H36 : length (destination e ++ le_bytes 4 (Z.of_nat (length (inner e)))) = 36)
    by (rewrite length_app, length_le_bytes; lia).
  rewrite H36, drop_replicate. rewrite take_app_le, take_ge by lia.
  rewrite <- app_assoc. do 2 f_equal. f_equal.
  rewrite drop_app_ge, drop_replicate by lia. f_equal. lia.
Qed.

Lemma parse_staged d i z :
  length d = 32 -> (Z.of_nat (length i) <= u32_max)%Z -> inner_plausible i = true ->
  z = padded16 (36 + length i) - (36 + length i) ->
  parse (d ++ le_bytes 4 (Z.of_nat (length i)) ++ i ++ replicate z 0%Z) = Some (mkEnvelope d i).
Proof.
  intros Hd Hi Hp Hz. unfold parse.
  rewrite (slice_app_here d) by done. cbn [mbind option_bind].
  rewrite slice_app_skip, Hd by lia. rewrite slice_app_here by apply length_le_bytes.
  cbn [mbind option_bind]. change ENVELOPE_HEADER_LEN with 36.
  rewrite le_value_4 by (unfold is_u32; lia). rewrite Nat2Z.id.
  pose proof (padded16_le (36 + length i)).
  rewrite !length_app, length_le_bytes, length_replicate, Hd. fold (padded16 (36 + length i)).
  replace (32 + (4 + (length i + z))) with (padded16 (36 + length i)) by lia.
  rewrite Nat.eqb_refl. cbn [negb].
  rewrite (app_assoc d), (drop_app_length' (d ++ _) _ 36)
    by (rewrite length_app, length_le_bytes; lia).
  rewrite slice_app_here by done. cbn [mbind option_bind].
  rewrite drop_app_length, existsb_zeros, Hp. done.
Qed.

(** ** Theorems *)

(** C20: parsing accepts exactly the canonical envelopes: a plaintext parses to
    an envelope if and only if it is what the sender stages for it, the inner
    datagram being a plausible standard datagram (never another relay message);
    in particular the padding is minimal and zero, and staging round-trips. *)
Theorem relay_parse_iff_staged (plaintext : list Z) (e : Envelope) :
  Forall is_u8 plaintext ->
  parse plaintext = Some e <-> envelope_wf e /\ stage e = Some plaintext.
Proof.
  intros Hu. split.
  - unfold parse. intros H.
    destruct (slice plaintext 0 32) as [d|] eqn:Ed; [|done]. cbn [mbind option_bind] in H.
    destruct (slice plaintext 32 4) as [lb|] eqn:El; [|done]. cbn [mbind option_bind] in H.
    pose proof (slice_length _ _ _ _ Ed) as Hd. pose proof (slice_length _ _ _ _ El) as Hlb.
    apply slice_Some in Ed as [Hlen Ed]. apply slice_Some in El as [Hlen2 El].
    set (n := Z.to_nat (le_value lb)) in *. change ENVELOPE_HEADER_LEN with 36 in H.
    destruct (Nat.eqb_spec (length plaintext) (align_down16 (36 + n + 15))) as [Hl|]; [|done].
    cbn [negb] in H. destruct (slice (drop 36 plaintext) 0 n) as [i|] eqn:Ei; [|done].
    cbn [mbind option_bind] in H. pose proof (slice_length _ _ _ _ Ei) as Hi.
    apply slice_Some in Ei as [_ Ei]. rewrite drop_0 in Ei.
    destruct (existsb _ _ || negb (inner_plausible i)) eqn:Hb; [done|]. injection H as <-.
    apply orb_false_iff in Hb as [Hz Hp]. apply negb_false_iff in Hp.
    assert (Hlbu : Forall is_u8 lb) by (rewrite El; by apply Forall_take, Forall_drop).
    pose proof (le_value_4_u32 lb Hlbu Hlb) as [Hn0 Hn1].
    assert (Hin : Z.of_nat (length i) = le_value lb) by lia.
    split; [repeat split; cbn; try done; lia|].
    rewrite stage_eq by (cbn; lia). cbn [destination inner]. f_equal.
    rewrite Hin, concat_bytes4 by done. apply existsb_nonzero in Hz.
    rewrite length_drop, length_drop, Hl in Hz. fold (padded16 (36 + n)) in Hz.
    rewrite <- (take_drop 32 plaintext). rewrite drop_0 in Ed. rewrite <- Ed. f_equal.
    rewrite <- (take_drop 4 (drop 32 plaintext)), <- El, drop_drop. f_equal.
    rewrite <- (take_drop n (drop (32 + 4) plaintext)). change (32 + 4) with 36. rewrite <- Ei. f_equal.
    rewrite Hi, Hz. f_equal. unfold padded16. lia.
  - intros [(Hd & Hp & Hi) Hs]. rewrite stage_eq in Hs by done. injection Hs as <-.
    destruct e as [d i]. cbn in *. by apply parse_staged.
Qed.

Definition sample_envelope : Envelope :=
  mkEnvelope (replicate 32 7%Z) (4%Z :: replicate 31 0%Z).

Lemma relay_parse_iff_staged_witness :
  exists plaintext, length plaintext = 80 /\ parse plaintext = Some sample_envelope.
Proof.
  eexists (default [] (stage sample_envelope)). split; [vm_compute; reflexivity|].
  apply relay_parse_iff_staged.
  - apply (bool_decide_eq_true_1 (Forall (fun b => 0 <= b <= 255)%Z _)). vm_compute. reflexivity.
  - split; [|vm_compute; reflexivity]. split; [vm_compute; reflexivity|].
    split; [vm_compute; reflexivity|]. vm_compute. discriminate.
Defined.
