(* ===== verification/Crypto.v ===== *)
(** * Cryptographic primitives ([microtun-core/src/crypto.rs])

    The crates the code calls (blake2, hmac, chacha20poly1305, x25519-dalek, a
    [rand_core] generator) are the classes [Prims] and [RngCore]; what the code
    relies on of them is the classes [PrimLaws] and [RngLaws], satisfied by the
    concrete instances of the Module [Toy].  Everything [crypto.rs] builds on top
    is defined here. *)

From S2P Require Import Prelude Messages.
Local Open Scope Z_scope.

(** ** External interfaces *)

Class Prims := {
  blake2s256 : list Z -> list Z;
  (** keyed BLAKE2s with a 16-byte output; refuses an invalid key length *)
  blake2s_mac16 : list Z -> list Z -> option (list Z);
  hmac_blake2s : list Z -> list Z -> option (list Z);
  (** key, nonce, associated data, plaintext -> ciphertext and detached tag *)
  chacha_encrypt : list Z -> list Z -> list Z -> list Z -> option (list Z * list Z);
  (** key, nonce, associated data, ciphertext, tag *)
  chacha_decrypt : list Z -> list Z -> list Z -> list Z -> list Z -> option (list Z);
  xchacha_encrypt : list Z -> list Z -> list Z -> list Z -> option (list Z * list Z);
  xchacha_decrypt : list Z -> list Z -> list Z -> list Z -> list Z -> option (list Z);
  x25519 : list Z -> list Z -> list Z;
  x25519_base : list Z -> list Z;
}.

(** Documented behaviour: output sizes, an opened seal is the plaintext, and
    Diffie-Hellman commutes. *)
Class PrimLaws `{Prims} := {
  blake2s256_length m : length (blake2s256 m) = 32%nat;
  mac16_total k m : (length k <= 32)%nat -> exists t, blake2s_mac16 k m = Some t /\ length t = 16%nat;
  hmac_total k m : exists t, hmac_blake2s k m = Some t /\ length t = 32%nat;
  chacha_open k n ad pt ct tag :
    length k = 32%nat -> length n = 12%nat -> chacha_encrypt k n ad pt = Some (ct, tag) ->
    length ct = length pt /\ length tag = 16%nat /\ chacha_decrypt k n ad ct tag = Some pt;
  chacha_length k n ad ct tag pt :
    chacha_decrypt k n ad ct tag = Some pt -> length pt = length ct;
  xchacha_open k n ad pt ct tag :
    length k = 32%nat -> length n = 24%nat -> xchacha_encrypt k n ad pt = Some (ct, tag) ->
    length ct = length pt /\ length tag = 16%nat /\ xchacha_decrypt k n ad ct tag = Some pt;
  x25519_length a b : length (x25519 a b) = 32%nat;
  x25519_base_length a : length (x25519_base a) = 32%nat;
  x25519_comm a b :
    length a = 32%nat -> length b = 32%nat -> x25519 a (x25519_base b) = x25519 b (x25519_base a);
}.

Class RngCore (R : Type) := {
  next_u32 : R -> Z * R;
  fill_bytes : nat -> R -> list Z * R;
}.

Class RngLaws (R : Type) `{RngCore R} := {
  next_u32_range r : is_u32 (fst (next_u32 r));
  fill_bytes_length n r : length (fst (fill_bytes n r)) = n;
}.

(** ** Hash, MAC and key derivation *)

Section Crypto.
Context `{Prims}.

Definition hash (parts : list (list Z)) : list Z := blake2s256 (concat parts).

Definition mac16 (key : list Z) (parts : list (list Z)) : Result (list Z) :=
  ok_or (blake2s_mac16 key (concat parts)) CryptoErr.

Definition mac_eq (a b : list Z) : bool := (length b =? 16)%nat && bool_decide (a = b).

Definition hmac (key : list Z) (parts : list (list Z)) : Result (list Z) :=
  ok_or (hmac_blake2s key (concat parts)) CryptoErr.

Definition kdf1 (key input : list Z) : Result (list Z) :=
  t0 ← hmac key [input];
  hmac t0 [[1]].

Definition kdf2 (key input : list Z) : Result (list Z * list Z) :=
  t0 ← hmac key [input];
  t1 ← hmac t0 [[1]];
  t2 ← hmac t0 [t1; [2]];
  mret (t1, t2).

Definition kdf3 (key input : list Z) : Result (list Z * list Z * list Z) :=
  t0 ← hmac key [input];
  t1 ← hmac t0 [[1]];
  t2 ← hmac t0 [t1; [2]];
  t3 ← hmac t0 [t2; [3]];
  mret (t1, t2, t3).

(** ** AEAD over a buffer *)

Definition counter_nonce (counter : Z) : list Z := blit (replicate 12 0) 4 (le_bytes 8 counter).

(** Encrypts [buf\[..pt_len\]] in place and writes the tag after it; the rest of
    the buffer is kept. *)
Definition seal_with (encrypt : list Z -> option (list Z * list Z)) (buf : list Z) (pt_len : nat)
  : Result (list Z * nat) :=
  let total := (pt_len + TAG_LEN)%nat in
  if (length buf <? total)%nat then Failed BufferTooSmall else
  '(ct, tag) ← ok_or (encrypt (take pt_len buf)) CryptoErr;
  mret (ct ++ tag ++ drop total buf, total).

(** Opens [ciphertext || tag]; on success the plaintext is at the front. *)
Definition open_with (decrypt : list Z -> list Z -> option (list Z)) (buf : list Z)
  : Result (list Z * nat) :=
  if (length buf <? TAG_LEN)%nat then Failed CryptoErr else
  let pt_len := (length buf - TAG_LEN)%nat in
  let tag := drop pt_len buf in
  pt ← ok_or (decrypt (take pt_len buf) tag) CryptoErr;
  mret (pt ++ tag, pt_len).

Definition aead_seal (key : list Z) (counter : Z) (buf : list Z) (pt_len : nat) (ad : list Z)
  : Result (list Z * nat) :=
  seal_with (chacha_encrypt key (counter_nonce counter) ad) buf pt_len.
Definition aead_open (key : list Z) (counter : Z) (buf ad : list Z) : Result (list Z * nat) :=
  open_with (chacha_decrypt key (counter_nonce counter) ad) buf.
Definition xaead_seal (key nonce buf : list Z) (pt_len : nat) (ad : list Z) : Result (list Z * nat) :=
  seal_with (xchacha_encrypt key nonce ad) buf pt_len.
Definition xaead_open (key nonce buf ad : list Z) : Result (list Z * nat) :=
  open_with (xchacha_decrypt key nonce ad) buf.

(** ** Diffie-Hellman *)

(** Rejects an all-zero shared secret. *)
Definition dh (private public : list Z) : Result (list Z) :=
  let bytes := x25519 private public in
  if forallb (fun b => b =? 0) bytes then Failed CryptoErr else Ok bytes.

Definition public_key (private : list Z) : list Z := x25519_base private.

Definition dh_generate `{RngCore R} (rng : R) : (list Z * list Z) * R :=
  let '(secret, rng) := fill_bytes 32 rng in
  ((secret, x25519_base secret), rng).

End Crypto.

(** ** TAI64N *)

Definition TAI64_BASE : Z := 4611686018427387914.   (* 0x4000_0000_0000_000a *)

(** [nanos & !0x00ff_ffff] on a [u32]. *)
Definition whiten (nanos : Z) : Z := Z.land nanos 4278190080.

Definition tai64n (unix_secs nanos : Z) : Result (list Z) :=
  if (u64_max <? TAI64_BASE + unix_secs)%Z then Failed TimeOverflow
  else Ok (be_bytes 8 (TAI64_BASE + unix_secs) ++ be_bytes 4 (whiten nanos)).

(** Lexicographic order of byte arrays, as Rust compares [\[u8; N\]]. *)
Fixpoint bytes_lt (a b : list Z) : bool :=
  match a, b with
  | [], _ :: _ => true
  | x :: a, y :: b => (x <? y) || ((x =? y) && bytes_lt a b)
  | _, [] => false
  end.
Definition bytes_le (a b : list Z) : bool := negb (bytes_lt b a).

(** ** Lemmas *)

Section CryptoLemmas.
Context `{PL : PrimLaws}.

Lemma hash_length parts : length (hash parts) = 32%nat.
Proof. apply blake2s256_length. Qed.

Lemma hmac_ok k parts : exists t, hmac k parts = Ok t /\ length t = 32%nat.
Proof. unfold hmac. destruct (hmac_total k (concat parts)) as (t & -> & Ht). eauto. Qed.

Lemma mac16_ok k parts : (length k <= 32)%nat -> exists t, mac16 k parts = Ok t /\ length t = 16%nat.
Proof. intros Hk. unfold mac16. destruct (mac16_total k (concat parts) Hk) as (t & -> & Ht). eauto. Qed.

Lemma kdf1_ok k i : exists t, kdf1 k i = Ok t /\ length t = 32%nat.
Proof. unfold kdf1. destruct (hmac_ok k [i]) as (t & -> & _). cbn. apply hmac_ok. Qed.

Lemma kdf2_ok k i : exists t1 t2, kdf2 k i = Ok (t1, t2) /\ length t1 = 32%nat /\ length t2 = 32%nat.
Proof.
  unfold kdf2. destruct (hmac_ok k [i]) as (t & -> & _). cbn.
  destruct (hmac_ok t [[1]]) as (t1 & -> & ?). cbn.
  destruct (hmac_ok t [t1; [2]]) as (t2 & -> & ?). eauto.
Qed.

Lemma kdf3_ok k i : exists t1 t2 t3, kdf3 k i = Ok (t1, t2, t3) /\ length t3 = 32%nat.
Proof.
  unfold kdf3. destruct (hmac_ok k [i]) as (t & -> & _). cbn.
  destruct (hmac_ok t [[1]]) as (t1 & -> & ?). cbn.
  destruct (hmac_ok t [t1; [2]]) as (t2 & -> & ?). cbn.
  destruct (hmac_ok t [t2; [3]]) as (t3 & -> & ?). eauto.
Qed.

Lemma counter_nonce_length c : length (counter_nonce c) = 12%nat.
Proof. unfold counter_nonce. apply length_blit. rewrite length_le_bytes. cbn. lia. Qed.

(** A sealed buffer keeps its length and its tail, and opens to the plaintext. *)
Lemma aead_seal_open key c buf pt_len ad buf' total :
  length key = 32%nat -> aead_seal key c buf pt_len ad = Ok (buf', total) ->
  total = (pt_len + TAG_LEN)%nat /\ length buf' = length buf /\ drop total buf' = drop total buf /\
  exists tag, length tag = TAG_LEN /\
    aead_open key c (take total buf') ad = Ok (take pt_len buf ++ tag, pt_len).
Proof.
  intros Hk. unfold aead_seal, seal_with, aead_open, open_with.
  destruct (Nat.ltb_spec (length buf) (pt_len + TAG_LEN)) as [|Hl]; [done|].
  intros ([ct tag] & Ho%ok_or_Ok & [= <- <-])%bind_Ok.
  destruct (chacha_open _ _ _ _ _ _ Hk (counter_nonce_length c) Ho) as (Hct & Htag & Hd).
  rewrite length_take in Hct. unfold TAG_LEN in *.
  assert (E : (ct ++ tag ++ drop (pt_len + 16) buf) = (ct ++ tag) ++ drop (pt_len + 16) buf)
    by by rewrite app_assoc.
  assert (Hct' : length (ct ++ tag) = (pt_len + 16)%nat) by (rewrite length_app; lia).
  split; [done|]. split; [rewrite E, length_app, length_drop; lia|].
  split; [rewrite E; by rewrite drop_app_length'|].
  exists tag. split; [done|]. rewrite E, take_app_length' by done.
  destruct (Nat.ltb_spec (length (ct ++ tag)) 16); [lia|].
  replace (length (ct ++ tag) - 16)%nat with pt_len by lia.
  rewrite take_app_length', drop_app_length' by lia. rewrite Hd. done.
Qed.

Lemma xaead_seal_open key n buf pt_len ad buf' total :
  length key = 32%nat -> length n = 24%nat -> xaead_seal key n buf pt_len ad = Ok (buf', total) ->
  total = (pt_len + TAG_LEN)%nat /\ length buf' = length buf /\
  exists tag, length tag = TAG_LEN /\
    xaead_open key n (take total buf') ad = Ok (take pt_len buf ++ tag, pt_len).
Proof.
  intros Hk Hn. unfold xaead_seal, seal_with, xaead_open, open_with.
  destruct (Nat.ltb_spec (length buf) (pt_len + TAG_LEN)) as [|Hl]; [done|].
  intros ([ct tag] & Ho%ok_or_Ok & [= <- <-])%bind_Ok.
  destruct (xchacha_open _ _ _ _ _ _ Hk Hn Ho) as (Hct & Htag & Hd).
  rewrite length_take in Hct. unfold TAG_LEN in *.
  assert (E : (ct ++ tag ++ drop (pt_len + 16) buf) = (ct ++ tag) ++ drop (pt_len + 16) buf)
    by by rewrite app_assoc.
  assert (Hct' : length (ct ++ tag) = (pt_len + 16)%nat) by (rewrite length_app; lia).
  split; [done|]. split; [rewrite E, length_app, length_drop; lia|].
  exists tag. split; [done|]. rewrite E, take_app_length' by done.
  destruct (Nat.ltb_spec (length (ct ++ tag)) 16); [lia|].
  replace (length (ct ++ tag) - 16)%nat with pt_len by lia.
  rewrite take_app_length', drop_app_length' by lia. rewrite Hd. done.
Qed.

(** The two sides of a key exchange compute the same secret. *)
Lemma dh_agree a b :
  length a = 32%nat -> length b = 32%nat -> dh a (x25519_base b) = dh b (x25519_base a).
Proof. intros Ha Hb. unfold dh. by rewrite x25519_comm. Qed.

End CryptoLemmas.

(** ** A concrete instance, for evaluation *)

Module Toy.
(** Sums bytes; not secure, but satisfies every law. *)
Definition digest (n : nat) (m : list Z) : list Z :=
  let s := foldl (fun a b => (a * 31 + b + 7) mod 65521) 1 m in
  (fun i => (s + 3 * Z.of_nat i) mod 251 + 1) <$> seq 0 n.

Definition pad32 (a : list Z) : list Z := take 32 (a ++ replicate 32 0).
Definition mix (a b : list Z) : list Z :=
  zip_with (fun x y => (x + y) mod 251 + 1) (pad32 a) (pad32 b).

Definition seal (k n ad pt : list Z) : option (list Z * list Z) :=
  Some (pt, digest 16 (k ++ n ++ ad ++ pt)).
Definition open (k n ad ct tag : list Z) : option (list Z) :=
  if bool_decide (tag = digest 16 (k ++ n ++ ad ++ ct)) then Some ct else None.

Definition prims : Prims := {|
  blake2s256 := digest 32;
  blake2s_mac16 := fun k m => if (length k <=? 32)%nat then Some (digest 16 (k ++ m)) else None;
  hmac_blake2s := fun k m => Some (digest 32 (k ++ m));
  chacha_encrypt := seal; chacha_decrypt := open;
  xchacha_encrypt := seal; xchacha_decrypt := open;
  x25519 := mix;
  x25519_base := pad32;
|}.

Lemma digest_length n m : length (digest n m) = n.
Proof. unfold digest. by rewrite length_fmap, length_seq. Qed.

Lemma pad32_length a : length (pad32 a) = 32%nat.
Proof. unfold pad32. rewrite length_take, length_app, length_replicate. lia. Qed.

Lemma pad32_id a : length a = 32%nat -> pad32 a = a.
Proof. intros H. unfold pad32. by rewrite take_app_length'. Qed.

Lemma laws : @PrimLaws prims.
Proof.
  split; cbn -[digest pad32 mix open].
  - intros m. apply digest_length.
  - intros k m Hk%Nat.leb_le. rewrite Hk. eauto using digest_length.
  - eauto using digest_length.
  - intros k n ad pt ct tag _ _ [= <- <-]. unfold open.
    rewrite bool_decide_eq_true_2 by done. auto using digest_length.
  - intros k n ad ct tag pt. unfold open. by case_bool_decide; intros [= <-].
  - intros k n ad pt ct tag _ _ [= <- <-]. unfold open.
    rewrite bool_decide_eq_true_2 by done. auto using digest_length.
  - intros a b. unfold mix. rewrite length_zip_with, !pad32_length. done.
  - intros a. apply pad32_length.
  - intros a b Ha Hb. unfold mix. rewrite !pad32_id by (rewrite ?pad32_length; done).
    rewrite <- (zip_with_flip (fun x y => (x + y) mod 251 + 1)).
    apply zip_with_ext; [|done..]. intros x y. unfold flip. by rewrite (Z.add_comm y).
Qed.

(** A counting generator. *)
Definition rng : RngCore Z := {|
  next_u32 := fun r => (r mod (u32_max + 1), r + 1);
  fill_bytes := fun n r => ((fun i => (r + Z.of_nat i) mod 256) <$> seq 0 n, r + 1);
|}.

Lemma rng_laws : @RngLaws Z rng.
Proof.
  split; cbn -[seq].
  - intros r. unfold is_u32, u32_max. dlia.
  - intros n r. by rewrite length_fmap, length_seq.
Qed.
End Toy.
