(* ===== verification/Noise.v ===== *)
(** * The Noise IKpsk2 handshake ([microtun-core/src/noise.rs]) *)

From S2P Require Import Prelude Messages Crypto.
From Stdlib Require Import Ascii String.
Local Open Scope nat_scope.

Definition bytes_of (s : string) : list Z :=
  (fun a => Z.of_N (N_of_ascii a)) <$> list_ascii_of_string s.

Definition CONSTRUCTION : list Z := bytes_of "Noise_IKpsk2_25519_ChaChaPoly_BLAKE2s".
Definition IDENTIFIER : list Z := bytes_of "WireGuard v1 zx2c4 Jason@zx2c4.com".
Definition PSK_Q : list Z := replicate 32 0%Z.

Record InitiatorState := mkInitiatorState {
  is_chain : list Z;
  is_hash : list Z;
  is_e_priv : list Z;
}.

Record IdentifiedInitiation := mkIdentified {
  id_chain : list Z;
  id_hash : list Z;
  id_e_pub_i : list Z;
  id_s_pub_i : list Z;
  id_encrypted_timestamp : list Z;
  id_sender : Z;
}.

Definition static_key (i : IdentifiedInitiation) : list Z := id_s_pub_i i.

Record ConsumedInitiation := mkConsumed {
  ci_chain : list Z;
  ci_hash : list Z;
  ci_e_pub_i : list Z;
  ci_s_pub_i : list Z;
  ci_timestamp : list Z;
  ci_sender : Z;
}.

Record TransportKeys := mkTransportKeys { tk_send : list Z; tk_recv : list Z }.

Section Noise.
Context `{Prims}.

Definition prologue : list Z * list Z :=
  let c := hash [CONSTRUCTION] in
  (c, hash [c; IDENTIFIER]).

(** [copy_from_slice] into a field. *)
Definition set_field (msg : list Z) (r : nat * nat) (src : list Z) : list Z := blit msg r.1 src.

(** The plaintext is copied to the front of the field, then sealed in place. *)
Definition seal_field (key : list Z) (msg : list Z) (r : nat * nat) (plaintext ad : list Z)
  : Result (list Z) :=
  let out := blit (field msg r) 0 plaintext in
  '(out, _) ← aead_seal key 0 out (List.length plaintext) ad;
  mret (set_field msg r out).

Definition create_initiation `{RngCore R} (rng : R) (s_priv_i s_pub_i s_pub_r : list Z) (sender : Z)
    (timestamp msg : list Z) : Result (InitiatorState * list Z) * R :=
  if negb (List.length msg =? INITIATION_LEN) then (Failed BufferTooSmall, rng) else
  let '(c, h) := prologue in
  let h := hash [h; s_pub_r] in
  let '((e_priv, e_pub), rng) := dh_generate rng in
  (c ← kdf1 c e_pub;
   msg ← write_type msg MSG_INITIATION;
   let msg := set_field msg init_SENDER (le_bytes 4 sender) in
   let msg := set_field msg init_EPHEMERAL e_pub in
   let h := hash [h; e_pub] in
   es ← dh e_priv s_pub_r;
   '(c, k) ← kdf2 c es;
   msg ← seal_field k msg init_STATIC s_pub_i h;
   let h := hash [h; field msg init_STATIC] in
   ss ← dh s_priv_i s_pub_r;
   '(c, k) ← kdf2 c ss;
   msg ← seal_field k msg init_TIMESTAMP timestamp h;
   let h := hash [h; field msg init_TIMESTAMP] in
   let msg := set_field msg init_MAC1 (replicate 16 0%Z) in
   let msg := set_field msg init_MAC2 (replicate 16 0%Z) in
   mret (mkInitiatorState c h e_priv, msg), rng).

Definition identify_initiation (s_priv_r s_pub_r msg : list Z) : Result IdentifiedInitiation :=
  if negb (List.length msg =? INITIATION_LEN) then Failed CryptoErr else
  let '(c, h) := prologue in
  let h := hash [h; s_pub_r] in
  let e_pub_i := field msg init_EPHEMERAL in
  c ← kdf1 c e_pub_i;
  let h := hash [h; e_pub_i] in
  es ← dh s_priv_r e_pub_i;
  '(c, k) ← kdf2 c es;
  '(static_buf, _) ← aead_open k 0 (field msg init_STATIC) h;
  let s_pub_i := take 32 static_buf in
  let h := hash [h; field msg init_STATIC] in
  mret (mkIdentified c h e_pub_i s_pub_i (field msg init_TIMESTAMP) (le_value (field msg init_SENDER))).

Definition authenticate_identified_with_shared_secret (identified : IdentifiedInitiation)
    (shared : list Z) : Result ConsumedInitiation :=
  let ciphertext := id_encrypted_timestamp identified in
  '(c, k) ← kdf2 (id_chain identified) shared;
  '(ts_buf, _) ← aead_open k 0 ciphertext (id_hash identified);
  let timestamp := take TIMESTAMP_LEN ts_buf in
  mret (mkConsumed c (hash [id_hash identified; ciphertext]) (id_e_pub_i identified)
          (id_s_pub_i identified) timestamp (id_sender identified)).

Definition authenticate_identified_initiation (s_priv_r : list Z) (identified : IdentifiedInitiation)
  : Result ConsumedInitiation :=
  shared ← dh s_priv_r (static_key identified);
  authenticate_identified_with_shared_secret identified shared.

Definition create_response `{RngCore R} (rng : R) (consumed : ConsumedInitiation) (sender : Z)
    (msg : list Z) : Result (TransportKeys * list Z) * R :=
  if negb (List.length msg =? RESPONSE_LEN) then (Failed BufferTooSmall, rng) else
  let c := ci_chain consumed in
  let h := ci_hash consumed in
  let '((e_priv_r, e_pub_r), rng) := dh_generate rng in
  (c ← kdf1 c e_pub_r;
   msg ← write_type msg MSG_RESPONSE;
   let msg := set_field msg resp_SENDER (le_bytes 4 sender) in
   let msg := set_field msg resp_RECEIVER (le_bytes 4 (ci_sender consumed)) in
   let msg := set_field msg resp_EPHEMERAL e_pub_r in
   let h := hash [h; e_pub_r] in
   ee ← dh e_priv_r (ci_e_pub_i consumed);
   c ← kdf1 c ee;
   se ← dh e_priv_r (ci_s_pub_i consumed);
   c ← kdf1 c se;
   '(c, tau, k) ← kdf3 c PSK_Q;
   let h := hash [h; tau] in
   msg ← seal_field k msg resp_EMPTY [] h;
   let msg := set_field msg resp_MAC1 (replicate 16 0%Z) in
   let msg := set_field msg resp_MAC2 (replicate 16 0%Z) in
   '(t1, t2) ← kdf2 c [];
   mret (mkTransportKeys t2 t1, msg), rng).

Definition consume_response (state : InitiatorState) (s_priv_i msg : list Z)
  : Result (TransportKeys * Z) :=
  if negb (List.length msg =? RESPONSE_LEN) then Failed CryptoErr else
  let e_pub_r := field msg resp_EPHEMERAL in
  c ← kdf1 (is_chain state) e_pub_r;
  let h := hash [is_hash state; e_pub_r] in
  ee ← dh (is_e_priv state) e_pub_r;
  c ← kdf1 c ee;
  se ← dh s_priv_i e_pub_r;
  c ← kdf1 c se;
  '(c, tau, k) ← kdf3 c PSK_Q;
  let h := hash [h; tau] in
  _ ← aead_open k 0 (field msg resp_EMPTY) h;
  '(t1, t2) ← kdf2 c [];
  mret (mkTransportKeys t1 t2, le_value (field msg resp_SENDER)).

End Noise.

(** ** Lemmas *)

Section NoiseLemmas.
Context `{PL : PrimLaws}.

(** A range lies in a message of length [n]. *)
Definition fits (n : nat) (r : nat * nat) : Prop := r.1 + r.2 <= n.
Definition disjoint_ranges (r s : nat * nat) : Prop := r.1 + r.2 <= s.1 \/ s.1 + s.2 <= r.1.

Lemma set_field_length msg r src :
  fits (List.length msg) r -> List.length src = r.2 -> List.length (set_field msg r src) = List.length msg.
Proof. unfold fits. intros ? ?. apply length_blit. lia. Qed.

Lemma set_field_len n msg r src :
  List.length msg = n -> fits n r -> List.length src = r.2 -> List.length (set_field msg r src) = n.
Proof. intros <- ? ?. by apply set_field_length. Qed.

Lemma field_set_same msg r src :
  fits (List.length msg) r -> List.length src = r.2 -> field (set_field msg r src) r = src.
Proof. apply field_blit_same. Qed.

Lemma field_set_other msg r s src :
  fits (List.length msg) s -> List.length src = s.2 -> disjoint_ranges r s ->
  field (set_field msg s src) r = field msg r.
Proof. unfold fits, disjoint_ranges. intros. apply field_blit_other; lia. Qed.

Lemma write_type_field msg t msg' :
  write_type msg t = Ok msg' ->
  msg' = set_field msg (0, 4) (prefix_bytes (std_prefix t)) /\ 4 <= List.length msg.
Proof.
  unfold write_type. destruct (Nat.ltb_spec (List.length msg) 4); [done|]. intros [= <-]. done.
Qed.

Lemma seal_field_inv k msg r pt ad msg' :
  List.length k = 32 -> fits (List.length msg) r -> r.2 = List.length pt + TAG_LEN ->
  seal_field k msg r pt ad = Ok msg' ->
  exists out tag, msg' = set_field msg r out /\ List.length out = r.2 /\
    aead_open k 0 out ad = Ok (pt ++ tag, List.length pt).
Proof.
  intros Hk Hf Hr. unfold seal_field. intros ([out total] & Hs & [= <-])%bind_Ok.
  assert (Hfl : List.length (field msg r) = r.2) by by apply field_length.
  assert (Hbl : List.length (blit (field msg r) 0 pt) = r.2) by (rewrite length_blit; lia).
  destruct (aead_seal_open _ _ _ _ _ _ _ Hk Hs) as (-> & Hlen & _ & tag & _ & Ho).
  exists out, tag. split; [done|]. split; [lia|].
  rewrite take_ge in Ho by lia. rewrite Ho. repeat f_equal.
  unfold blit. by rewrite take_0, app_nil_l, take_app_length.
Qed.

Lemma initiation_macs msg :
  List.length msg = INITIATION_LEN ->
  let msg' := set_field (set_field msg init_MAC1 (replicate 16 0%Z)) init_MAC2 (replicate 16 0%Z) in
  List.length msg' = INITIATION_LEN /\
  forall r, fits (offset_of initiation_layout 5) r -> field msg' r = field msg r.
Proof.
  intros Hl msg'.
  assert (H1 : List.length (set_field msg init_MAC1 (replicate 16 0%Z)) = INITIATION_LEN).
  { rewrite set_field_length; [done|rewrite Hl; cbv; lia|done]. }
  split; [unfold msg'; rewrite set_field_length; [done|rewrite H1; cbv; lia|done]|].
  intros r Hr. unfold msg'. rewrite field_set_other; [|rewrite H1; cbv; lia|done|].
  - rewrite field_set_other; [done|rewrite Hl; cbv; lia|done|].
    unfold fits, disjoint_ranges in *. cbn in *. lia.
  - unfold fits, disjoint_ranges in *. cbn in *. lia.
Qed.

Lemma response_macs msg :
  List.length msg = RESPONSE_LEN ->
  let msg' := set_field (set_field msg resp_MAC1 (replicate 16 0%Z)) resp_MAC2 (replicate 16 0%Z) in
  List.length msg' = RESPONSE_LEN /\
  forall r, fits (offset_of response_layout 5) r -> field msg' r = field msg r.
Proof.
  intros Hl msg'.
  assert (H1 : List.length (set_field msg resp_MAC1 (replicate 16 0%Z)) = RESPONSE_LEN).
  { rewrite set_field_length; [done|rewrite Hl; cbv; lia|done]. }
  split; [unfold msg'; rewrite set_field_length; [done|rewrite H1; cbv; lia|done]|].
  intros r Hr. unfold msg'. rewrite field_set_other; [|rewrite H1; cbv; lia|done|].
  - rewrite field_set_other; [done|rewrite Hl; cbv; lia|done|].
    unfold fits, disjoint_ranges in *. cbn in *. lia.
  - unfold fits, disjoint_ranges in *. cbn in *. lia.
Qed.

(** What a successful [create_initiation] leaves in the message and the state. *)
Record initiation_facts (s_priv_i s_pub_i s_pub_r : list Z) (sender : Z) (timestamp e_priv e_pub msg : list Z)
    (st : InitiatorState) : Prop := {
  if_len : List.length msg = INITIATION_LEN;
  if_sender : field msg init_SENDER = le_bytes 4 sender;
  if_eph : field msg init_EPHEMERAL = e_pub;
  if_chain : exists c1 es c2 k2 ss k3 t1 t2,
    let h2 := hash [hash [prologue.2; s_pub_r]; e_pub] in
    let h3 := hash [h2; field msg init_STATIC] in
    kdf1 prologue.1 e_pub = Ok c1 /\ dh e_priv s_pub_r = Ok es /\ kdf2 c1 es = Ok (c2, k2) /\
    aead_open k2 0 (field msg init_STATIC) h2 = Ok (s_pub_i ++ t1, 32) /\
    dh s_priv_i s_pub_r = Ok ss /\ kdf2 c2 ss = Ok (is_chain st, k3) /\
    aead_open k3 0 (field msg init_TIMESTAMP) h3 = Ok (timestamp ++ t2, TIMESTAMP_LEN) /\
    is_hash st = hash [h3; field msg init_TIMESTAMP];
  if_epriv : is_e_priv st = e_priv;
}.

(** Side conditions of a field read through writes, from the known lengths. *)
Ltac fits_by n L1 L2 L3 :=
  replace (List.length _) with n by (symmetry; first [exact L1|exact L2|exact L3]); cbv; lia.

Context `{RL : RngLaws R}.

Lemma dh_generate_facts (rng : R) e_priv e_pub rng' :
  dh_generate rng = ((e_priv, e_pub), rng') ->
  List.length e_priv = 32 /\ e_pub = x25519_base e_priv /\ List.length e_pub = 32.
Proof.
  unfold dh_generate. pose proof (fill_bytes_length 32 rng) as Hl.
  destruct (fill_bytes 32 rng) as [s r]. intros [= <- <- _]. auto using x25519_base_length.
Qed.

Lemma create_initiation_facts (rng : R) s_priv_i s_pub_i s_pub_r sender ts msg st msg' rng' :
  List.length s_pub_i = 32 -> List.length ts = TIMESTAMP_LEN ->
  create_initiation rng s_priv_i s_pub_i s_pub_r sender ts msg = (Ok (st, msg'), rng') ->
  exists e_priv e_pub, List.length e_priv = 32 /\ e_pub = x25519_base e_priv /\
    initiation_facts s_priv_i s_pub_i s_pub_r sender ts e_priv e_pub msg' st.
Proof.
  intros Hsp Hts. unfold create_initiation.
  destruct (Nat.eqb_spec (List.length msg) INITIATION_LEN) as [Hl|]; [|done]. cbn [negb].
  destruct prologue as [c0 h0] eqn:Epro.
  destruct (dh_generate rng) as [[e_priv e_pub] rng1] eqn:Erng.
  destruct (dh_generate_facts _ _ _ _ Erng) as (Hepriv & Hepub & Hepl).
  intros [= K <-].
  apply bind_Ok in K as (c1 & Hc1 & K).
  apply bind_Ok in K as (m0 & Hm0 & K). apply write_type_field in Hm0 as [-> _].
  set (m1 := set_field _ init_SENDER _) in K. set (m2 := set_field m1 init_EPHEMERAL e_pub) in K.
  assert (L0 : List.length (set_field msg (0, 4) (prefix_bytes (std_prefix MSG_INITIATION))) = INITIATION_LEN)
    by (apply set_field_len; [done|cbv; lia|done]).
  assert (L1 : List.length m1 = INITIATION_LEN)
    by (apply set_field_len; [done|cbv; lia|reflexivity]).
  assert (L2 : List.length m2 = INITIATION_LEN)
    by (apply set_field_len; [done|cbv; lia|done]).
  apply bind_Ok in K as (es & Hes & K).
  apply bind_Ok in K as ([c2 k2] & Hk2 & K).
  apply bind_Ok in K as (m3 & Hm3 & K).
  destruct (kdf2_ok c1 es) as (? & ? & E & _ & Lk2). rewrite Hk2 in E. injection E as <- <-.
  apply seal_field_inv in Hm3 as (o3 & t1 & -> & Lo3 & Ho3);
    [|done|rewrite L2; cbv; lia|rewrite Hsp; reflexivity].
  set (m3 := set_field m2 init_STATIC o3) in K.
  assert (L3 : List.length m3 = INITIATION_LEN)
    by (apply set_field_len; [done|cbv; lia|done]).
  apply bind_Ok in K as (ss & Hss & K).
  apply bind_Ok in K as ([c3 k3] & Hk3 & K).
  apply bind_Ok in K as (m4 & Hm4 & K).
  destruct (kdf2_ok c2 ss) as (? & ? & E & _ & Lk3). rewrite Hk3 in E. injection E as <- <-.
  apply seal_field_inv in Hm4 as (o4 & t2 & -> & Lo4 & Ho4);
    [|done|rewrite L3; cbv; lia|rewrite Hts; reflexivity].
  set (m4 := set_field m3 init_TIMESTAMP o4) in K.
  assert (L4 : List.length m4 = INITIATION_LEN)
    by (apply set_field_len; [done|cbv; lia|done]).
  injection K as <- <-. destruct (initiation_macs m4 L4) as [L5 Hmac].
  assert (F3 : field m3 init_STATIC = o3)
    by (unfold m3; apply field_set_same; [rewrite L2; cbv; lia|done]).
  assert (F4 : field m4 init_TIMESTAMP = o4)
    by (unfold m4; apply field_set_same; [rewrite L3; cbv; lia|done]).
  assert (F4' : field m4 init_STATIC = o3)
    by (unfold m4; rewrite field_set_other; [done|rewrite L3; cbv; lia|done|cbv; lia]).
  exists e_priv, e_pub. split; [done|]. split; [done|]. split.
  - done.
  - rewrite Hmac by (cbv; lia). unfold m4, m3, m2.
    rewrite 3!field_set_other; [|solve [done|cbv; lia|fits_by INITIATION_LEN L1 L2 L3]..].
    apply field_set_same; [rewrite L0; cbv; lia|reflexivity].
  - rewrite Hmac by (cbv; lia). unfold m4, m3.
    rewrite 2!field_set_other; [|solve [done|cbv; lia|fits_by INITIATION_LEN L1 L2 L3]..].
    apply field_set_same; [rewrite L1; cbv; lia|done].
  - exists c1, es, c2, k2, ss, k3, t1, t2. cbn [is_chain is_hash].
    rewrite !Hmac by (cbv; lia). rewrite F4, F4'. rewrite F3 in Ho4. rewrite Epro. cbn [fst snd].
    rewrite F3, Hsp in *. rewrite Hts in *. repeat split; done.
  - done.
Qed.

(** The responder recovers exactly what the initiator put in, from any message
    that agrees with it outside the two MAC fields. *)
Lemma identify_facts s_priv_i s_priv_r sender ts e_priv msg st w :
  List.length s_priv_i = 32 -> List.length s_priv_r = 32 -> List.length e_priv = 32 ->
  is_u32 sender -> List.length ts = TIMESTAMP_LEN ->
  initiation_facts s_priv_i (x25519_base s_priv_i) (x25519_base s_priv_r) sender ts
    e_priv (x25519_base e_priv) msg st ->
  List.length w = INITIATION_LEN -> field w init_ALPHA = field msg init_ALPHA ->
  exists ident, identify_initiation s_priv_r (x25519_base s_priv_r) w = Ok ident /\
    static_key ident = x25519_base s_priv_i /\
    authenticate_identified_initiation s_priv_r ident =
      Ok (mkConsumed (is_chain st) (is_hash st) (x25519_base e_priv) (x25519_base s_priv_i) ts sender).
Proof.
  intros Hi Hr He Hs Hts [Hl Hsnd Heph Hch _] Hw Ha.
  destruct Hch as (c1 & es & c2 & k2 & ss & k3 & t1 & t2 & Hc1 & Hes & Hk2 & Ho2 & Hss & Hk3 & Ho3 & Hh).
  assert (Hag : forall r, fits 116 r -> field w r = field msg r)
    by (intros r Hf; by apply (field_prefix_agree 116)).
  unfold identify_initiation. rewrite Hw, Nat.eqb_refl. cbn [negb].
  rewrite !Hag by (cbv; lia). rewrite Heph, Hsnd. destruct prologue as [c0 h0]. cbn [fst snd] in *.
  rewrite Hc1. cbn [mbind result_bind]. rewrite (dh_agree s_priv_r e_priv) by done. rewrite Hes.
  cbn [mbind result_bind]. rewrite Hk2. cbn [mbind result_bind]. rewrite Ho2.
  cbn [mbind result_bind]. eexists. split; [reflexivity|].
  rewrite take_app_length' by (symmetry; apply x25519_base_length).
  split; [done|]. unfold authenticate_identified_initiation, authenticate_identified_with_shared_secret.
  cbn [static_key id_s_pub_i id_chain id_hash id_encrypted_timestamp id_e_pub_i id_sender].
  rewrite (dh_agree s_priv_r s_priv_i), Hss by done. cbn [mbind result_bind].
  rewrite Hk3. cbn [mbind result_bind]. rewrite Ho3. cbn [mbind result_bind].
  rewrite take_app_length' by done. unfold mret, result_ret. rewrite Hh, le_value_4 by done. done.
Qed.

Record response_facts (consumed : ConsumedInitiation) (sender : Z) (e_priv_r msg : list Z)
    (keys : TransportKeys) : Prop := {
  rf_len : List.length msg = RESPONSE_LEN;
  rf_sender : field msg resp_SENDER = le_bytes 4 sender;
  rf_eph : field msg resp_EPHEMERAL = x25519_base e_priv_r;
  rf_chain : exists c1 ee c2 se c3 c4 tau k tag,
    let e_pub_r := x25519_base e_priv_r in
    kdf1 (ci_chain consumed) e_pub_r = Ok c1 /\ dh e_priv_r (ci_e_pub_i consumed) = Ok ee /\
    kdf1 c1 ee = Ok c2 /\ dh e_priv_r (ci_s_pub_i consumed) = Ok se /\ kdf1 c2 se = Ok c3 /\
    kdf3 c3 PSK_Q = Ok (c4, tau, k) /\
    aead_open k 0 (field msg resp_EMPTY) (hash [hash [ci_hash consumed; e_pub_r]; tau]) = Ok (tag, 0) /\
    kdf2 c4 [] = Ok (tk_recv keys, tk_send keys);
}.

Lemma create_response_facts (rng : R) consumed sender msg keys msg' rng' :
  create_response rng consumed sender msg = (Ok (keys, msg'), rng') ->
  exists e_priv_r, List.length e_priv_r = 32 /\ response_facts consumed sender e_priv_r msg' keys.
Proof.
  unfold create_response.
  destruct (Nat.eqb_spec (List.length msg) RESPONSE_LEN) as [Hl|]; [|done]. cbn [negb].
  destruct (dh_generate rng) as [[e_priv e_pub] rng1] eqn:Erng.
  destruct (dh_generate_facts _ _ _ _ Erng) as (Hepriv & -> & Hepl).
  intros [= K <-].
  apply bind_Ok in K as (c1 & Hc1 & K).
  apply bind_Ok in K as (m0 & Hm0 & K). apply write_type_field in Hm0 as [-> _].
  set (m0 := set_field msg (0, 4) _) in K. set (m1 := set_field m0 resp_SENDER _) in K.
  set (m2 := set_field m1 resp_RECEIVER _) in K. set (m3 := set_field m2 resp_EPHEMERAL _) in K.
  assert (L0 : List.length m0 = RESPONSE_LEN) by (apply set_field_len; [done|cbv; lia|done]).
  assert (L1 : List.length m1 = RESPONSE_LEN) by (apply set_field_len; [done|cbv; lia|reflexivity]).
  assert (L2 : List.length m2 = RESPONSE_LEN) by (apply set_field_len; [done|cbv; lia|reflexivity]).
  assert (L3 : List.length m3 = RESPONSE_LEN) by (apply set_field_len; [done|cbv; lia|done]).
  apply bind_Ok in K as (ee & Hee & K). apply bind_Ok in K as (c2 & Hc2 & K).
  apply bind_Ok in K as (se & Hse & K). apply bind_Ok in K as (c3 & Hc3 & K).
  apply bind_Ok in K as ([[c4 tau] k] & Hk & K). apply bind_Ok in K as (m4 & Hm4 & K).
  destruct (kdf3_ok c3 PSK_Q) as (? & ? & ? & E & Lk). rewrite Hk in E. injection E as <- <- <-.
  apply seal_field_inv in Hm4 as (o & tag & -> & Lo & Ho); [|done|rewrite L3; cbv; lia|reflexivity].
  set (m4 := set_field m3 resp_EMPTY o) in K.
  assert (L4 : List.length m4 = RESPONSE_LEN) by (apply set_field_len; [done|cbv; lia|done]).
  apply bind_Ok in K as ([t1 t2] & Ht & K). injection K as <- <-.
  destruct (response_macs m4 L4) as [L5 Hmac].
  exists e_priv. split; [done|]. split.
  - done.
  - rewrite Hmac by (cbv; lia). unfold m4, m3, m2.
    rewrite 3!field_set_other; [|solve [done|cbv; lia|reflexivity|fits_by RESPONSE_LEN L1 L2 L3]..].
    apply field_set_same; [rewrite L0; cbv; lia|reflexivity].
  - rewrite Hmac by (cbv; lia). unfold m4, m3.
    rewrite field_set_other; [|solve [done|cbv; lia|fits_by RESPONSE_LEN L1 L2 L3]..].
    apply field_set_same; [rewrite L2; cbv; lia|done].
  - exists c1, ee, c2, se, c3, c4, tau, k, tag. rewrite Hmac by (cbv; lia).
    unfold m4. rewrite field_set_same by (rewrite ?L3; done || (cbv; lia)).
    repeat split; done.
Qed.

Lemma consume_facts consumed sender e_priv_r s_priv_i st keys msg w :
  List.length e_priv_r = 32 -> List.length s_priv_i = 32 -> List.length (is_e_priv st) = 32 ->
  is_u32 sender -> response_facts consumed sender e_priv_r msg keys ->
  ci_chain consumed = is_chain st -> ci_hash consumed = is_hash st ->
  ci_e_pub_i consumed = x25519_base (is_e_priv st) -> ci_s_pub_i consumed = x25519_base s_priv_i ->
  List.length w = RESPONSE_LEN -> field w resp_ALPHA = field msg resp_ALPHA ->
  consume_response st s_priv_i w = Ok (mkTransportKeys (tk_recv keys) (tk_send keys), sender).
Proof.
  intros Hr Hi He Hs [Hl Hsnd Heph Hch] Ec Eh Ee Es Hw Ha.
  destruct Hch as (c1 & ee & c2 & se & c3 & c4 & tau & k & tag & Hc1 & Hee & Hc2 & Hse & Hc3 & Hk & Ho & Ht).
  assert (Hag : forall r, fits 60 r -> field w r = field msg r)
    by (intros r Hf; by apply (field_prefix_agree 60)).
  unfold consume_response. rewrite Hw, Nat.eqb_refl. cbn [negb].
  rewrite !Hag by (cbv; lia). rewrite Heph, Hsnd, <- Ec, <- Eh, Hc1. cbn [mbind result_bind].
  rewrite (dh_agree (is_e_priv st) e_priv_r), <- Ee, Hee by done. cbn [mbind result_bind].
  rewrite Hc2. cbn [mbind result_bind].
  rewrite (dh_agree s_priv_i e_priv_r), <- Es, Hse by done. cbn [mbind result_bind].
  rewrite Hc3. cbn [mbind result_bind]. rewrite Hk. cbn [mbind result_bind]. rewrite Ho.
  cbn [mbind result_bind]. rewrite Ht. cbn [mbind result_bind]. unfold mret, result_ret.
  rewrite le_value_4 by done. done.
Qed.

(** ** Theorems *)

(** C9: the handshake agrees: if the initiator builds an initiation for the
    responder's public key, then (whatever the cookie layer writes in the MAC
    fields) the responder identifies and authenticates exactly the initiator's
    static key, timestamp and sender index; if it then builds a response, the
    initiator consumes it, learns the responder's index, and holds the mirrored
    transport keys. *)
Theorem handshake_agreement (rng_i rng_r rng_i' rng_r' : R) (s_priv_i s_priv_r ts buf1 buf2 w1 w2 : list Z)
    (sender_i sender_r : Z) (st : InitiatorState) (m1 : list Z) :
  List.length s_priv_i = 32 -> List.length s_priv_r = 32 -> List.length ts = TIMESTAMP_LEN ->
  is_u32 sender_i -> is_u32 sender_r ->
  create_initiation rng_i s_priv_i (x25519_base s_priv_i) (x25519_base s_priv_r) sender_i ts buf1 =
    (Ok (st, m1), rng_i') ->
  List.length w1 = INITIATION_LEN -> field w1 init_ALPHA = field m1 init_ALPHA ->
  exists ident consumed,
    identify_initiation s_priv_r (x25519_base s_priv_r) w1 = Ok ident /\
    authenticate_identified_initiation s_priv_r ident = Ok consumed /\
    ci_s_pub_i consumed = x25519_base s_priv_i /\ ci_timestamp consumed = ts /\
    ci_sender consumed = sender_i /\
    forall keys_r m2,
      create_response rng_r consumed sender_r buf2 = (Ok (keys_r, m2), rng_r') ->
      List.length w2 = RESPONSE_LEN -> field w2 resp_ALPHA = field m2 resp_ALPHA ->
      consume_response st s_priv_i w2 =
        Ok (mkTransportKeys (tk_recv keys_r) (tk_send keys_r), sender_r).
Proof.
  intros Hi Hr Hts Hsi Hsr Hcreate Hw1 Ha1.
  destruct (create_initiation_facts _ _ _ _ _ _ _ _ _ _ (x25519_base_length _) Hts Hcreate)
    as (e_priv & ? & Hep & -> & Hif).
  destruct (identify_facts _ _ _ _ _ _ _ _ Hi Hr Hep Hsi Hts Hif Hw1 Ha1) as (ident & Hid & _ & Hau).
  exists ident. eexists. split; [exact Hid|]. split; [exact Hau|]. do 3 (split; [done|]).
  intros keys_r m2 Hresp Hw2 Ha2.
  destruct (create_response_facts _ _ _ _ _ _ _ Hresp) as (e_priv_r & Hepr & Hrf).
  pose proof (if_epriv _ _ _ _ _ _ _ _ _ Hif) as He.
  eapply consume_facts; try done; cbn; congruence.
Qed.

End NoiseLemmas.

(** ** Witness: a run with the toy primitives *)

Definition demo_initiation : Result (InitiatorState * list Z) * Z :=
  @create_initiation Toy.prims Z Toy.rng 5%Z (replicate 32 9%Z) (Toy.pad32 (replicate 32 9%Z))
    (Toy.pad32 (replicate 32 11%Z)) 77 (replicate 12 1%Z) (replicate 148 0%Z).

Lemma handshake_agreement_witness :
  exists st m1 ident consumed,
    fst demo_initiation = Ok (st, m1) /\
    @identify_initiation Toy.prims (replicate 32 11%Z) (Toy.pad32 (replicate 32 11%Z)) m1 = Ok ident /\
    @authenticate_identified_initiation Toy.prims (replicate 32 11%Z) ident = Ok consumed /\
    ci_sender consumed = 77%Z /\ ci_timestamp consumed = replicate 12 1%Z.
Proof.
  destruct demo_initiation as [[[st m1]|e] rng'] eqn:E.
  2:{ apply (f_equal (fun x => is_ok (fst x))) in E. vm_compute in E. discriminate. }
  assert (Hlen : List.length m1 = INITIATION_LEN).
  { assert (El : List.length (snd (match fst demo_initiation with Ok x => x | Failed _ => (mkInitiatorState [] [] [], []) end))
                 = INITIATION_LEN) by (vm_compute; reflexivity). by rewrite E in El. }
  destruct (@handshake_agreement Toy.prims Toy.laws Z Toy.rng Toy.rng_laws 5%Z 5%Z rng' 6%Z
    (replicate 32 9%Z) (replicate 32 11%Z) (replicate 12 1%Z) (replicate 148 0%Z) (replicate 92 0%Z)
    m1 (replicate 92 0%Z) 77 78 st m1) as (ident & consumed & H1 & H2 & _ & H4 & H5 & _); try done.
  exists st, m1, ident, consumed. done.
Defined.
