(* ===== verification/Cookie.v ===== *)
(** * The cookie layer ([microtun-core/src/cookie.rs]) *)

From S2P Require Import Prelude Clock Constants Ip Messages Crypto Noise.
From Stdlib Require Import String.
Local Open Scope nat_scope.

Definition LABEL_MAC1 : list Z := bytes_of "mac1----".
Definition LABEL_COOKIE : list Z := bytes_of "cookie--".

(** The MAC ranges of a handshake message, chosen by its type byte and exact
    length: alpha, mac1, beta, mac2. *)
Definition mac_ranges (msg : list Z) : option ((nat * nat) * (nat * nat) * (nat * nat) * (nat * nat)) :=
  first ← msg !! 0;
  if (first =? MSG_INITIATION)%Z && (List.length msg =? INITIATION_LEN)
  then Some (init_ALPHA, init_MAC1, init_BETA, init_MAC2)
  else if (first =? MSG_RESPONSE)%Z && (List.length msg =? RESPONSE_LEN)
  then Some (resp_ALPHA, resp_MAC1, resp_BETA, resp_MAC2)
  else None.

(** [Aₘ]: address octets in network order, then the port big-endian. *)
Definition addr_bytes (addr : SocketAddr) : list Z :=
  match unmap_socket_addr addr with
  | SockV4 ip port => be_bytes 4 ip ++ be_bytes 2 port
  | SockV6 ip port _ _ => be_bytes 16 ip ++ be_bytes 2 port
  end.

Record CookieSecret := mkCookieSecret { cs_current : list Z; cs_rotated_at : Instant }.

Section Cookie.
Context `{Prims}.

Definition mac1_key (s_pub_receiver : list Z) : list Z := hash [LABEL_MAC1; s_pub_receiver].
Definition cookie_key (s_pub : list Z) : list Z := hash [LABEL_COOKIE; s_pub].

Definition apply_macs (msg peer_pub : list Z) (cookie : option (list Z * Instant)) (now : Instant)
  : Result (list Z * list Z) :=
  match mac_ranges msg with
  | None => Failed CryptoErr
  | Some (alpha, mac1_r, beta, mac2_r) =>
      m1 ← mac16 (mac1_key peer_pub) [field msg alpha];
      let msg := set_field msg mac1_r m1 in
      match cookie with
      | Some (c, received) =>
          if (saturating_since now received <? COOKIE_REFRESH_TIME)%Z then
            m2 ← mac16 c [field msg beta];
            mret (m1, set_field msg mac2_r m2)
          else mret (m1, set_field msg mac2_r (replicate 16 0%Z))
      | None => mret (m1, set_field msg mac2_r (replicate 16 0%Z))
      end
  end.

Definition verify_mac1 (msg our_mac1_key : list Z) : option (list Z) :=
  '(alpha, mac1_r, _, _) ← mac_ranges msg;
  a ← get_range msg alpha;
  match mac16 our_mac1_key [a] with
  | Failed _ => None
  | Ok expect =>
      received ← get_range msg mac1_r;
      if mac_eq expect received then Some received else None
  end.

Definition cs_new `{RngCore R} (rng : R) (now : Instant) : CookieSecret * R :=
  let '(current, rng) := fill_bytes 32 rng in (mkCookieSecret current now, rng).

Definition cs_refresh `{RngCore R} (cs : CookieSecret) (rng : R) (now : Instant) : CookieSecret * R :=
  if (COOKIE_REFRESH_TIME <=? saturating_since now (cs_rotated_at cs))%Z then
    let '(next, rng) := fill_bytes 32 rng in (mkCookieSecret next now, rng)
  else (cs, rng).

Definition cookie_for (cs : CookieSecret) (src : SocketAddr) : Result (list Z) :=
  mac16 (cs_current cs) [addr_bytes src].

Definition verify_mac2 (cs : CookieSecret) (msg : list Z) (src : SocketAddr) : bool :=
  match mac_ranges msg with
  | None => false
  | Some (_, _, beta, mac2_r) =>
      match mac16 (cs_current cs) [addr_bytes src] with
      | Failed _ => false
      | Ok cookie =>
          match get_range msg beta with
          | None => false
          | Some beta_bytes =>
              match mac16 cookie [beta_bytes] with
              | Failed _ => false
              | Ok expect =>
                  match get_range msg mac2_r with
                  | None => false
                  | Some received => mac_eq expect received
                  end
              end
          end
      end
  end.

Definition create_cookie_reply `{RngCore R} (rng : R) (secret : CookieSecret) (our_cookie_key : list Z)
    (receiver : Z) (src : SocketAddr) (provoking_mac1 msg : list Z) : Result (list Z) * R :=
  if negb (List.length msg =? COOKIE_REPLY_LEN) then (Failed BufferTooSmall, rng) else
  match write_type msg MSG_COOKIE_REPLY with
  | Failed e => (Failed e, rng)
  | Ok msg =>
      let msg := set_field msg cookie_RECEIVER (le_bytes 4 receiver) in
      let '(nonce, rng) := fill_bytes XNONCE_LEN rng in
      let msg := set_field msg cookie_NONCE nonce in
      (tau ← cookie_for secret src;
       let out := blit (field msg cookie_COOKIE) 0 tau in
       '(out, _) ← xaead_seal our_cookie_key nonce out 16 provoking_mac1;
       mret (set_field msg cookie_COOKIE out), rng)
  end.

Definition consume_cookie_reply (peer_pub last_sent_mac1 msg : list Z) : Result (list Z) :=
  if negb (List.length msg =? COOKIE_REPLY_LEN) then Failed CryptoErr else
  let nonce := field msg cookie_NONCE in
  let buf := field msg cookie_COOKIE in
  '(buf, _) ← xaead_open (cookie_key peer_pub) nonce buf last_sent_mac1;
  mret (take 16 buf).

End Cookie.

(** ** Lemmas *)

Section CookieLemmas.
Context `{PL : PrimLaws}.

Lemma mac_eq_refl a : List.length a = 16 -> mac_eq a a = true.
Proof. intros E. unfold mac_eq. rewrite E, (bool_decide_eq_true_2 (a = a)); done. Qed.

(** The MAC fields of a handshake message: sixteen bytes each at the end, mac2
    after mac1, alpha before mac1, and beta everything before mac2. *)
Lemma mac_ranges_inv msg a m1 b m2 :
  mac_ranges msg = Some (a, m1, b, m2) ->
  exists n, a = (0, n) /\ m1 = (n, 16) /\ b = (0, n + 16) /\ m2 = (n + 16, 16) /\
    List.length msg = n + 32 /\ 0 < n.
Proof.
  unfold mac_ranges. destruct (msg !! 0) as [t|]; [|done]. cbn [mbind option_bind].
  destruct ((t =? MSG_INITIATION)%Z && (List.length msg =? INITIATION_LEN)) eqn:E1;
    [|destruct ((t =? MSG_RESPONSE)%Z && (List.length msg =? RESPONSE_LEN)) eqn:E2];
    intros [= <- <- <- <-]; bool_to_prop.
  - exists 116. repeat split; done || (unfold INITIATION_LEN in *; cbn in *; lia).
  - exists 60. repeat split; done || (unfold RESPONSE_LEN in *; cbn in *; lia).
Qed.

Lemma mac_ranges_set msg r src :
  0 < r.1 -> fits (List.length msg) r -> List.length src = r.2 ->
  mac_ranges (set_field msg r src) = mac_ranges msg.
Proof.
  intros H0 Hf Hs. unfold mac_ranges. rewrite set_field_length by done.
  unfold set_field, blit. destruct msg as [|x msg]; cbn [lookup list_lookup].
  - unfold fits in Hf. cbn in Hf. lia.
  - destruct r as [[|n] l]; cbn in *; [lia|done].
Qed.

Lemma get_range_field msg r : fits (List.length msg) r -> get_range msg r = Some (field msg r).
Proof. intros Hf. unfold get_range, field. by apply slice_is. Qed.

Lemma mac1_key_length p : List.length (mac1_key p) = 32.
Proof. apply hash_length. Qed.

Lemma cookie_key_length p : List.length (cookie_key p) = 32.
Proof. apply hash_length. Qed.

(** A message with both MAC fields written, over the ranges of its type. *)
Lemma stamped msg n peer_pub m1 m2 :
  mac_ranges msg = Some ((0, n), (n, 16), (0, n + 16), (n + 16, 16)) ->
  List.length msg = n + 32 -> 0 < n -> List.length m1 = 16 -> List.length m2 = 16 ->
  mac16 (mac1_key peer_pub) [field msg (0, n)] = Ok m1 ->
  let msg1 := set_field msg (n, 16) m1 in
  let msg2 := set_field msg1 (n + 16, 16) m2 in
  mac_ranges msg2 = Some ((0, n), (n, 16), (0, n + 16), (n + 16, 16)) /\
  verify_mac1 msg2 (mac1_key peer_pub) = Some m1 /\ List.length msg2 = n + 32 /\
  field msg2 (0, n + 16) = field msg1 (0, n + 16) /\ field msg2 (n + 16, 16) = m2.
Proof.
  intros Hr Hl Hn Lm1 Lm2 Hm1 msg1 msg2.
  assert (L1 : List.length msg1 = n + 32) by (apply set_field_len; unfold fits; cbn [fst snd]; lia).
  assert (R1 : mac_ranges msg1 = mac_ranges msg) by (apply mac_ranges_set; unfold fits; cbn [fst snd]; lia).
  assert (L2 : List.length msg2 = n + 32) by (apply set_field_len; unfold fits; cbn [fst snd]; lia).
  assert (R2 : mac_ranges msg2 = mac_ranges msg1) by (apply mac_ranges_set; unfold fits; cbn [fst snd]; lia).
  split; [by rewrite R2, R1|]. split; [|split; [done|split]].
  - unfold verify_mac1. rewrite R2, R1, Hr. cbn [mbind option_bind].
    rewrite !get_range_field by (unfold fits; cbn [fst snd]; lia). cbn [mbind option_bind].
    unfold msg2. rewrite (field_set_other msg1 (0, n)), (field_set_other msg1 (n, 16))
      by (unfold fits, disjoint_ranges; cbn [fst snd]; lia).
    unfold msg1. rewrite (field_set_other msg (0, n)) by (unfold fits, disjoint_ranges; cbn [fst snd]; lia).
    rewrite Hm1, field_set_same by (unfold fits; cbn [fst snd]; lia). by rewrite mac_eq_refl.
  - unfold msg2. apply field_set_other; unfold fits, disjoint_ranges; cbn [fst snd]; lia.
  - apply field_set_same; unfold fits; cbn [fst snd]; lia.
Qed.

(** Stamping a handshake message always succeeds with a proper cookie, and the
    receiver accepts both MACs. *)
Lemma apply_macs_ok msg peer_pub cookie now ranges :
  mac_ranges msg = Some ranges ->
  (forall c received, cookie = Some (c, received) -> List.length c <= 32) ->
  exists m1 msg', apply_macs msg peer_pub cookie now = Ok (m1, msg') /\
    verify_mac1 msg' (mac1_key peer_pub) = Some m1 /\ List.length m1 = 16 /\
    List.length msg' = List.length msg /\
    (forall c received cs src, cookie = Some (c, received) ->
       (saturating_since now received < COOKIE_REFRESH_TIME)%Z -> cookie_for cs src = Ok c ->
       verify_mac2 cs msg' src = true).
Proof.
  destruct ranges as [[[a r1] b] r2]. intros Hr Hc.
  destruct (mac_ranges_inv _ _ _ _ _ Hr) as (n & -> & -> & -> & -> & Hl & Hn).
  unfold apply_macs. rewrite Hr.
  destruct (mac16_ok (mac1_key peer_pub) [field msg (0, n)]) as (m1 & Hm1 & Lm1);
    [by rewrite mac1_key_length|].
  rewrite Hm1, Hl. cbn [mbind result_bind].
  pose proof (fun m2 Lm2 => stamped msg n peer_pub m1 m2 Hr Hl Hn Lm1 Lm2 Hm1) as Hst.
  set (msg1 := set_field msg (n, 16) m1) in *.
  destruct (Hst (replicate 16 0%Z) eq_refl) as (_ & Hv0 & Hl0 & _).
  destruct cookie as [[c received]|]; [|by do 2 eexists].
  destruct (Z.ltb_spec (saturating_since now received) COOKIE_REFRESH_TIME) as [Hfr|Hold].
  - destruct (mac16_ok c [field msg1 (0, n + 16)]) as (m2 & Hm2 & Lm2); [by eapply Hc|].
    rewrite Hm2. cbn [mbind result_bind]. destruct (Hst m2 Lm2) as (R2 & ? & L2 & Fb & Fm).
    eexists m1, _. split; [reflexivity|]. repeat split; try done.
    intros c' rec' cs src [= <- <-] _ Hcf. unfold verify_mac2. rewrite R2.
    unfold cookie_for in Hcf. rewrite Hcf.
    rewrite !get_range_field by (unfold fits; rewrite L2; cbn [fst snd]; lia).
    rewrite Fb, Hm2, Fm. by apply mac_eq_refl.
  - eexists m1, _. split; [reflexivity|]. repeat split; try done.
    intros c' rec' cs src [= <- <-] ?. lia.
Qed.

Context `{RL : RngLaws R}.

(** The reply to a challenged message carries the cookie of the source address,
    readable by whoever sent that message. *)
Lemma cookie_reply_opens (rng rng' : R) cs s_pub receiver src mac1 buf reply :
  List.length (cs_current cs) = 32 ->
  create_cookie_reply rng cs (cookie_key s_pub) receiver src mac1 buf = (Ok reply, rng') ->
  exists c, cookie_for cs src = Ok c /\ List.length c = 16 /\
    consume_cookie_reply s_pub mac1 reply = Ok c.
Proof.
  intros Hcs. unfold create_cookie_reply.
  destruct (Nat.eqb_spec (List.length buf) COOKIE_REPLY_LEN) as [Hl|]; [|done]. cbn [negb].
  destruct (write_type buf MSG_COOKIE_REPLY) as [m0|] eqn:Hm0; [|done].
  apply write_type_field in Hm0 as [-> _].
  pose proof (fill_bytes_length XNONCE_LEN rng) as Hnl.
  destruct (fill_bytes XNONCE_LEN rng) as [nonce rng1]. cbn [fst] in Hnl.
  set (m0 := set_field buf (0, 4) _). set (m1 := set_field m0 cookie_RECEIVER _).
  set (m2 := set_field m1 cookie_NONCE nonce). intros [= K <-].
  assert (L0 : List.length m0 = COOKIE_REPLY_LEN) by (apply set_field_len; [done|cbv; lia|done]).
  assert (L1 : List.length m1 = COOKIE_REPLY_LEN) by (apply set_field_len; [done|cbv; lia|reflexivity]).
  assert (L2 : List.length m2 = COOKIE_REPLY_LEN) by (apply set_field_len; [done|cbv; lia|done]).
  apply bind_Ok in K as (tau & Htau & K). apply bind_Ok in K as ([out total] & Hs & [= <-]).
  assert (Lt : List.length tau = 16).
  { destruct (mac16_ok (cs_current cs) [addr_bytes src]) as (t & E & Lt); [lia|].
    unfold cookie_for in Htau. congruence. }
  exists tau. split; [done|]. split; [done|].
  assert (Hfl : List.length (field m2 cookie_COOKIE) = 32) by (apply field_length; rewrite L2; cbv; lia).
  assert (Hbl : List.length (blit (field m2 cookie_COOKIE) 0 tau) = 32) by (rewrite length_blit; lia).
  destruct (xaead_seal_open _ _ _ _ _ _ _ (cookie_key_length s_pub) Hnl Hs) as (-> & Ho & tag & _ & Hop).
  unfold consume_cookie_reply.
  assert (Lo : List.length out = cookie_COOKIE.2) by (rewrite Ho, Hbl; reflexivity).
  assert (F2 : fits (List.length m2) cookie_COOKIE) by (rewrite L2; cbv; lia).
  rewrite (set_field_len COOKIE_REPLY_LEN m2), Nat.eqb_refl by (done || (cbv; lia)).
  cbn [negb]. rewrite (field_set_other m2 cookie_NONCE) by (done || (cbv; lia)).
  rewrite (field_set_same m2 cookie_COOKIE), take_ge in * by (done || (rewrite Ho, Hbl; cbv; lia)).
  unfold m2. rewrite field_set_same by (done || (rewrite L1; cbv; lia)).
  rewrite Hop. cbn [mbind result_bind]. unfold mret, result_ret.
  unfold blit. rewrite take_0, app_nil_l, (take_app_length' tau) by done.
  by rewrite take_app_length'.
Qed.

End CookieLemmas.

(** ** Theorems *)

Section CookieTheorems.
Context `{PL : PrimLaws} `{RL : RngLaws R}.

(** C18: a challenged peer can always satisfy the challenge: if it stamps a
    handshake message for our key, we accept mac1; the cookie reply we answer
    with opens under that mac1; and every later handshake message it stamps
    with the cookie while the cookie is fresh passes both mac1 and, from the
    same source address and before our secret rotates, mac2. *)
Theorem cookie_challenge_satisfiable (rng rng' : R) (cs : CookieSecret) (s_pub msg buf reply : list Z)
    (old_cookie : option (list Z * Instant)) (src : SocketAddr) (receiver : Z) (now : Instant)
    (mac1 msg1 : list Z) :
  List.length (cs_current cs) = 32 ->
  apply_macs msg s_pub old_cookie now = Ok (mac1, msg1) ->
  (forall c received, old_cookie = Some (c, received) -> List.length c <= 32) ->
  create_cookie_reply rng cs (cookie_key s_pub) receiver src mac1 buf = (Ok reply, rng') ->
  verify_mac1 msg1 (mac1_key s_pub) = Some mac1 /\
  exists c, consume_cookie_reply s_pub mac1 reply = Ok c /\
    forall received now' msg' ranges,
      (saturating_since now' received < COOKIE_REFRESH_TIME)%Z -> mac_ranges msg' = Some ranges ->
      exists mac1' msg2, apply_macs msg' s_pub (Some (c, received)) now' = Ok (mac1', msg2) /\
        verify_mac1 msg2 (mac1_key s_pub) = Some mac1' /\ verify_mac2 cs msg2 src = true.
Proof.
  intros Hcs Happ Hold Hreply. split.
  - destruct (mac_ranges msg) as [ranges|] eqn:Hr.
    + destruct (apply_macs_ok msg s_pub old_cookie now ranges Hr Hold) as (m & w & E & Hv & _).
      congruence.
    + unfold apply_macs in Happ. by rewrite Hr in Happ.
  - destruct (cookie_reply_opens rng rng' cs s_pub receiver src mac1 buf reply Hcs Hreply)
      as (c & Hc & Lc & Hopen).
    exists c. split; [done|]. intros received now' msg' ranges Hfresh Hr.
    destruct (apply_macs_ok msg' s_pub (Some (c, received)) now' ranges Hr) as (m & w & E & Hv & _ & _ & H2).
    { intros c' ? [= <- <-]. lia. }
    exists m, w. split; [done|]. split; [done|]. by eapply H2.
Qed.

End CookieTheorems.

(** ** Witness *)

Definition demo_secret : CookieSecret := mkCookieSecret (replicate 32 3%Z) 0%Z.
Definition demo_stamp : Result (list Z * list Z) :=
  @apply_macs Toy.prims (MSG_INITIATION :: replicate 147 0%Z) (replicate 32 5%Z) None 0%Z.
Definition demo_reply (mac1 : list Z) : Result (list Z) * Z :=
  @create_cookie_reply Toy.prims Z Toy.rng 8%Z demo_secret (@cookie_key Toy.prims (replicate 32 5%Z)) 77
    (SockV4 3232235777 51820) mac1 (replicate 64 0%Z).

Lemma cookie_challenge_satisfiable_witness :
  exists mac1 msg1 reply c, demo_stamp = Ok (mac1, msg1) /\ fst (demo_reply mac1) = Ok reply /\
    @consume_cookie_reply Toy.prims (replicate 32 5%Z) mac1 reply = Ok c.
Proof.
  assert (E : match demo_stamp with Ok (m, _) => is_ok (fst (demo_reply m)) | Failed _ => false end = true)
    by (vm_compute; reflexivity).
  destruct demo_stamp as [[mac1 msg1]|] eqn:Es; [|done].
  destruct (demo_reply mac1) as [[reply|] rng'] eqn:Er; [|done].
  destruct (@cookie_challenge_satisfiable Toy.prims Toy.laws Z Toy.rng Toy.rng_laws 8%Z rng' demo_secret
    (replicate 32 5%Z) (MSG_INITIATION :: replicate 147 0%Z) (replicate 64 0%Z) reply None
    (SockV4 3232235777 51820) 77 0%Z mac1 msg1) as (_ & c & Hc & _); try done.
  exists mac1, msg1, reply, c. split; [done|]. split; [by rewrite Er|exact Hc].
Defined.
