(* ===== verification/Session.v ===== *)
(** * Established sessions ([microtun-core/src/session.rs]) and the jittered timers
    of [lib.rs] *)

From S2P Require Import Prelude Clock Constants Replay Crypto Noise.
Local Open Scope Z_scope.

Inductive Role := InitiatorRole | ResponderRole.

#[export] Instance Role_eq_dec : EqDecision Role.
Proof. solve_decision. Defined.

Record Session := mkSession {
  s_peer : PeerIdx;
  t_send : list Z;
  t_recv : list Z;
  n_send : Z;
  s_replay : ReplayWindow;
  s_local_index : Z;
  s_remote_index : Z;
  s_role : Role;
  created : Instant;
  rekey_after : Duration;
  confirmed : bool;
  rekey_triggered : bool;
}.

Definition session_new (REPLAY_WORDS : nat) (keys : TransportKeys) (role : Role)
    (local_index remote_index : Z) (now : Instant) : Session :=
  mkSession 0%nat (tk_send keys) (tk_recv keys) 0 (rw_new REPLAY_WORDS) local_index remote_index role now
    REKEY_AFTER_TIME (bool_decide (role = InitiatorRole)) false.

(** Record updates: the send counter with the rekey flag, the replay window, and
    the flags alone. *)
Definition with_send (s : Session) (n : Z) (triggered : bool) : Session :=
  mkSession (s_peer s) (t_send s) (t_recv s) n (s_replay s) (s_local_index s) (s_remote_index s) (s_role s)
    (created s) (rekey_after s) (confirmed s) triggered.
Definition with_window (s : Session) (w : ReplayWindow) : Session :=
  mkSession (s_peer s) (t_send s) (t_recv s) (n_send s) w (s_local_index s) (s_remote_index s) (s_role s)
    (created s) (rekey_after s) (confirmed s) (rekey_triggered s).
Definition with_flags (s : Session) (confirmed triggered : bool) : Session :=
  mkSession (s_peer s) (t_send s) (t_recv s) (n_send s) (s_replay s) (s_local_index s) (s_remote_index s)
    (s_role s) (created s) (rekey_after s) confirmed triggered.
(** The owner and the sampled rekey age, written right after [Session::new]. *)
Definition with_owner (s : Session) (pidx : PeerIdx) (after : Duration) : Session :=
  mkSession pidx (t_send s) (t_recv s) (n_send s) (s_replay s) (s_local_index s) (s_remote_index s)
    (s_role s) (created s) after (confirmed s) (rekey_triggered s).

Definition rekey_deadline (s : Session) : Instant :=
  let after := if rekey_after s <? REJECT_AFTER_TIME then rekey_after s else REKEY_AFTER_TIME in
  instant_add (created s) after.

Definition expired (s : Session) (now : Instant) : bool :=
  (REJECT_AFTER_TIME <=? saturating_since now (created s)) || (REJECT_AFTER_MESSAGES <=? n_send s).

Definition can_send (s : Session) (now : Instant) : bool :=
  if expired s now then false else confirmed s.

(** ** Jitter ([lib.rs]) *)

Definition rekey_timeout_jitter `{RngCore R} (rng : R) : Duration * R :=
  let jitter_range := sat_add u64_max REKEY_TIMEOUT_JITTER_MAX 1 in
  let '(x, rng) := next_u32 rng in
  (x mod jitter_range, rng).

Definition handshake_retry_deadline `{RngCore R} (rng : R) (now : Instant) : Instant * R :=
  let '(jitter, rng) := rekey_timeout_jitter rng in
  (instant_add (instant_add now REKEY_TIMEOUT) jitter, rng).

Definition rekey_after_time `{RngCore R} (rng : R) : Duration * R :=
  let spread_ms := sat_add u64_max (Z.min REKEY_AFTER_TIME_JITTER_MAX REKEY_AFTER_TIME) 1 in
  let '(x, rng) := next_u32 rng in
  let offset_ms := x mod spread_ms in
  (sat_sub REKEY_AFTER_TIME offset_ms, rng).

(** ** Lemmas *)

(** The next retransmission is later than now. *)
Lemma handshake_retry_later `{RngCore R} (rng : R) now :
  instant_add now 1 <= fst (handshake_retry_deadline rng now).
Proof.
  unfold handshake_retry_deadline, rekey_timeout_jitter. destruct (next_u32 rng) as [x r]. cbn [fst].
  pose proof (Z.mod_pos_bound x (sat_add u64_max REKEY_TIMEOUT_JITTER_MAX 1) ltac:(reflexivity)).
  unfold instant_add, saturating_add, sat_add in *. change REKEY_TIMEOUT with 5000. lia.
Qed.

Section SessionLemmas.
Context `{RL : RngLaws R}.

Lemma rekey_timeout_jitter_range (rng : R) : 0 <= fst (rekey_timeout_jitter rng) <= REKEY_TIMEOUT_JITTER_MAX.
Proof.
  unfold rekey_timeout_jitter. destruct (next_u32 rng) as [x r]. cbn [fst].
  change (sat_add u64_max REKEY_TIMEOUT_JITTER_MAX 1) with 334. unfold REKEY_TIMEOUT_JITTER_MAX.
  pose proof (Z.mod_pos_bound x 334). lia.
Qed.

Lemma rekey_after_time_range (rng : R) :
  REKEY_AFTER_TIME - REKEY_AFTER_TIME_JITTER_MAX <= fst (rekey_after_time rng) <= REKEY_AFTER_TIME.
Proof.
  unfold rekey_after_time. destruct (next_u32 rng) as [x r]. cbn [fst].
  change (sat_add u64_max (Z.min REKEY_AFTER_TIME_JITTER_MAX REKEY_AFTER_TIME) 1) with 10001.
  change REKEY_AFTER_TIME with 120000. change REKEY_AFTER_TIME_JITTER_MAX with 10000.
  pose proof (Z.mod_pos_bound x 10001). unfold sat_sub. lia.
Qed.
End SessionLemmas.

(** ** Theorems *)

(** a session sampled by the engine always starts its rekey before it is
    refused: whatever the generator returns, the rekey deadline lies at least
    sixty seconds before the rejection time and no earlier than 110 s after
    creation, and until then the session is not refused for its age. *)
Theorem rekey_before_reject `{RngLaws R} (rng : R) (s : Session) (now : Instant) :
  0 <= created s -> created s + REJECT_AFTER_TIME <= u64_max ->
  rekey_after s = fst (rekey_after_time rng) ->
  created s + 110000 <= rekey_deadline s <= created s + REJECT_AFTER_TIME - 60000 /\
  (created s <= now <= rekey_deadline s + 59999 -> n_send s < REJECT_AFTER_MESSAGES ->
   expired s now = false).
Proof.
  intros Hc0 Hmax Hr. pose proof (rekey_after_time_range rng) as Hb.
  change REKEY_AFTER_TIME with 120000 in Hb. change REKEY_AFTER_TIME_JITTER_MAX with 10000 in Hb.
  change REJECT_AFTER_TIME with 180000 in *.
  assert (E : rekey_deadline s = created s + rekey_after s).
  { unfold rekey_deadline. change REJECT_AFTER_TIME with 180000.
    destruct (Z.ltb_spec (rekey_after s) 180000); [|lia].
    unfold instant_add, saturating_add, sat_add. lia. }
  split; [lia|]. intros Hnow Hn. unfold expired. change REJECT_AFTER_TIME with 180000.
  apply orb_false_iff. split; [apply Z.leb_gt|apply Z.leb_gt; lia].
  unfold saturating_since, sat_sub. lia.
Qed.

Lemma rekey_before_reject_witness :
  let s := mkSession 0%nat [] [] 0 (rw_new 2%nat) 0 0 InitiatorRole 1000
             (fst (@rekey_after_time Z Toy.rng 12345)) true false in
  expired s 120000 = false.
Proof.
  intros s.
  apply (@rekey_before_reject Z Toy.rng Toy.rng_laws 12345 s 120000); vm_compute; try discriminate;
    try reflexivity. split; discriminate.
Defined.
