(* ===== verification/SessionIndex.v ===== *)
(** * The reverse session-index map ([microtun-core/src/session_index.rs])

    The [heapless::IndexMap] of capacity [MAX_SESSIONS] is a finite map whose
    insertion of a new key is refused when it already holds that many. *)

From S2P Require Import Prelude Messages Crypto.
Local Open Scope nat_scope.

Notation SessionIndexMap := (gmap Z SlotIdx).

Definition MAX_RANDOM_ATTEMPTS : nat := 32.

Section SessionIndex.
Context (MAX_SESSIONS : nat).

Definition sim_new : SessionIndexMap := ∅.

(** [attempts] draws at most. *)
Fixpoint random_unused_from `{RngCore R} (m : SessionIndexMap) (attempts : nat) (rng : R) : Result Z * R :=
  match attempts with
  | O => (Failed SessionIndexGenerationFailed, rng)
  | S attempts =>
      let '(index, rng) := next_u32 rng in
      if bool_decide (is_Some (m !! index)) then random_unused_from m attempts rng
      else (Ok index, rng)
  end.
Definition random_unused `{RngCore R} (m : SessionIndexMap) (rng : R) : Result Z * R :=
  random_unused_from m MAX_RANDOM_ATTEMPTS rng.

Definition sim_insert (m : SessionIndexMap) (index : Z) (slot : SlotIdx) : Result SessionIndexMap :=
  if MAX_SESSIONS <=? slot then Failed SessionIndexGenerationFailed
  else match m !! index with
       | Some _ => Failed SessionIndexGenerationFailed
       | None => if MAX_SESSIONS <=? size m then Failed SessionIndexGenerationFailed
                 else Ok (<[index := slot]> m)
       end.

(** The result and the map afterwards, whether it succeeded or not. *)
Definition sim_replace (m : SessionIndexMap) (old new : Z) (slot : SlotIdx)
  : Result unit * SessionIndexMap :=
  if MAX_SESSIONS <=? slot then (Failed SessionIndexGenerationFailed, m)
  else if negb (bool_decide (m !! old = Some slot)) then (Failed InternalInvariant, m)
  else if (old =? new)%Z then (Ok tt, m)
  else if bool_decide (is_Some (m !! new)) then (Failed SessionIndexGenerationFailed, m)
  else
    let m := delete old m in
    match sim_insert m new slot with
    | Ok m => (Ok tt, m)
    | Failed _ =>
        match sim_insert m old slot with
        | Failed _ => (Failed InternalInvariant, m)
        | Ok m => (Failed SessionIndexGenerationFailed, m)
        end
    end.

Definition slot_for (m : SessionIndexMap) (index : Z) : option SlotIdx := m !! index.

Definition sim_remove (m : SessionIndexMap) (index : Z) (slot : SlotIdx) : Result SessionIndexMap :=
  if bool_decide (m !! index = Some slot) then Ok (delete index m) else Failed InternalInvariant.

(** ** Lemmas *)

Lemma random_unused_from_fresh `{RngLaws R} m n (rng rng' : R) i :
  random_unused_from m n rng = (Ok i, rng') -> m !! i = None /\ is_u32 i.
Proof.
  revert rng. induction n as [|n IH]; intros rng; cbn; [done|].
  pose proof (next_u32_range rng) as Hr. destruct (next_u32 rng) as [x r]. cbn in Hr.
  case_bool_decide as Hx; [apply IH|]. intros [= <- <-]. split; [|done].
  by apply eq_None_not_Some.
Qed.

Lemma sim_insert_Ok m i s m' :
  sim_insert m i s = Ok m' <->
  s < MAX_SESSIONS /\ m !! i = None /\ size m < MAX_SESSIONS /\ m' = <[i := s]> m.
Proof.
  unfold sim_insert. destruct (Nat.leb_spec MAX_SESSIONS s); [split; [done|lia]|].
  destruct (m !! i) eqn:E; [naive_solver|].
  destruct (Nat.leb_spec MAX_SESSIONS (size m)); [split; [done|lia]|]. naive_solver.
Qed.

Lemma sim_remove_Ok m i s m' :
  sim_remove m i s = Ok m' <-> m !! i = Some s /\ m' = delete i m.
Proof. unfold sim_remove. case_bool_decide; naive_solver. Qed.

(** Replacing succeeds exactly on an owned index and a fresh one (or the same),
    and a failure leaves the map as it was. *)
Lemma sim_replace_spec m old new s :
  size m <= MAX_SESSIONS ->
  match sim_replace m old new s with
  | (Ok _, m') => s < MAX_SESSIONS /\ m !! old = Some s /\
      (old = new /\ m' = m \/ old <> new /\ m !! new = None /\ m' = <[new := s]> (delete old m))
  | (Failed e, m') => m' = m /\
      (MAX_SESSIONS <= s \/ m !! old <> Some s \/ (old <> new /\ is_Some (m !! new)))
  end.
Proof.
  intros Hsize. unfold sim_replace. destruct (Nat.leb_spec MAX_SESSIONS s); [by auto|].
  case_bool_decide as Ho; cbn [negb]; [|by auto].
  destruct (Z.eqb_spec old new) as [->|Hne]; [by auto 10|].
  case_bool_decide as Hn; [by auto 10|].
  assert (Hsz : size (delete old m) < MAX_SESSIONS).
  { rewrite map_size_delete_Some by eauto. assert (size m <> 0); [|lia].
    intros E%map_size_empty_inv. subst m. by rewrite lookup_empty in Ho. }
  apply eq_None_not_Some in Hn.
  destruct (sim_insert (delete old m) new s) as [m'|e] eqn:Hi.
  - apply sim_insert_Ok in Hi as (_ & _ & _ & ->). auto 10.
  - exfalso. assert (Hins : sim_insert (delete old m) new s = Ok (<[new := s]> (delete old m))).
    { apply sim_insert_Ok. by rewrite lookup_delete_ne. }
    by rewrite Hins in Hi.
Qed.

(** ** Theorems *)

(** replacing a receiver index is transactional on a table within its
    capacity: it succeeds exactly when the slot owns the old index and the new
    one is free (or unchanged), the capacity never getting in the way, and
    otherwise leaves every mapping as it was. *)
Theorem replace_is_transactional (m : SessionIndexMap) (old new : Z) (slot : SlotIdx) :
  size m <= MAX_SESSIONS ->
  let '(r, m') := sim_replace m old new slot in
  (is_ok r = true <->
     slot < MAX_SESSIONS /\ m !! old = Some slot /\ (old = new \/ m !! new = None)) /\
  (is_ok r = false -> m' = m) /\
  (is_ok r = true ->
     slot_for m' new = Some slot /\ (old <> new -> slot_for m' old = None) /\ size m' = size m /\
     forall i, i <> old -> i <> new -> slot_for m' i = slot_for m i).
Proof.
  intros Hsz. pose proof (sim_replace_spec m old new slot Hsz) as Hs.
  destruct (sim_replace m old new slot) as [[[]|e] m']; cbn [is_ok].
  - destruct Hs as (Hlt & Ho & Hcase). split; [|split; [done|intros _]].
    + split; [|done]. intros _. naive_solver.
    + unfold slot_for. destruct Hcase as [[-> ->]|(Hne & Hn & ->)]; [naive_solver|].
      rewrite lookup_insert_eq. split; [done|]. split; [|split].
      * intros _. by rewrite lookup_insert_ne, lookup_delete_eq.
      * rewrite map_size_insert_None by (by rewrite lookup_delete_ne).
        rewrite map_size_delete_Some by eauto. assert (size m <> 0); [|lia].
        intros E%map_size_empty_inv. subst m. by rewrite lookup_empty in Ho.
      * intros i Hi Hi'. by rewrite lookup_insert_ne, lookup_delete_ne.
  - destruct Hs as [-> Hwhy]. split; [|done]. split; [done|]. intros (Hlt & Ho & Hn). exfalso.
    destruct Hwhy as [?|[?|[Hne [x Hx]]]]; [lia|done|]. destruct Hn; [done|congruence].
Qed.

End SessionIndex.

Lemma replace_is_transactional_witness :
  let m := <[7%Z := 0]> (<[9%Z := 1]> ∅) : SessionIndexMap in
  is_ok (fst (sim_replace 2 m 7 8 0)) = true /\ slot_for (snd (sim_replace 2 m 7 8 0)) 8 = Some 0.
Proof.
  intros m. assert (Hsz : size m <= 2) by (vm_compute; lia).
  pose proof (replace_is_transactional 2 m 7 8 0 Hsz) as H.
  assert (E : is_ok (fst (sim_replace 2 m 7 8 0)) = true) by (vm_compute; reflexivity).
  split; [exact E|]. destruct (sim_replace 2 m 7 8 0) as [r m']. cbn [fst snd] in *.
  by apply H.
Defined.
