(* ===== verification/Pending.v ===== *)
(** * Parked packets ([microtun-core/src/pending.rs]) *)

From S2P Require Import Prelude Clock Messages.
Local Open Scope nat_scope.

(** [ResolveId] of [resolver.rs]: a [u64] request identifier. *)
Definition ResolveId : Type := Z.

Inductive Wait :=
| WaitResolve (id : ResolveId)
| WaitHandshake (p : PeerIdx).

#[export] Instance Wait_eq_dec : EqDecision Wait.
Proof. solve_decision. Defined.

(** The inline buffer is worst-case sized; [pp_len] bytes of it are the packet. *)
Record PendingPacket := mkPendingPacket {
  pp_buf : list Z;
  pp_len : nat;
  pp_wait : Wait;
  pp_deadline : Instant;
}.

Definition pp_packet (p : PendingPacket) : list Z := take (pp_len p) (pp_buf p).

Definition PendingPool : Type := list (option PendingPacket).

Definition pool_new (MAX_PACKETS : nat) : PendingPool := replicate MAX_PACKETS None.

Definition is_free_slot {A} (s : option A) : bool := match s with None => true | Some _ => false end.

Definition park_key (s : option PendingPacket) : Instant :=
  match s with Some p => pp_deadline p | None => 0%Z end.

Definition park (pool : PendingPool) (packet : list Z) (wait : Wait) (deadline : Instant)
  : bool * PendingPool :=
  if MAX_INNER_SIZE <? length packet then (false, pool) else
  let buf := blit (replicate MAX_INNER_SIZE 0%Z) 0 packet in
  let entry := mkPendingPacket buf (length packet) wait deadline in
  match position is_free_slot pool with
  | Some i => (true, <[i := Some entry]> pool)
  | None =>
      match min_by_key (fun _ _ => true) (fun a b => park_key a <? park_key b)%Z pool with
      | Some (i, _) => (true, <[i := Some entry]> pool)
      | None => (false, pool)
      end
  end.

Definition matches (pred : PendingPacket -> bool) (s : option PendingPacket) : bool :=
  match s with Some p => pred p | None => false end.

Definition take_if (pool : PendingPool) (pred : PendingPacket -> bool)
  : option PendingPacket * PendingPool :=
  match position (matches pred) pool with
  | Some i => (pool !! i ≫= id, <[i := None]> pool)
  | None => (None, pool)
  end.

Definition drop_if (pool : PendingPool) (pred : PendingPacket -> bool) : PendingPool :=
  (fun s => if matches pred s then None else s) <$> pool.

Definition next_deadline (pool : PendingPool) : option Instant :=
  foldr (fun s acc => match s with Some p => min_deadline (Some (pp_deadline p)) acc | None => acc end)
    None pool.

Definition expire_one (pool : PendingPool) (now : Instant) : bool * PendingPool :=
  match position (matches (fun p => pp_deadline p <=? now)%Z) pool with
  | Some i => (true, <[i := None]> pool)
  | None => (false, pool)
  end.

(** The deadlines of the parked packets. *)
Definition pool_deadlines (pool : PendingPool) : list Instant :=
  omap (fun s => pp_deadline <$> s) pool.

(** ** Lemmas *)

Lemma omap_insert_submseteq {A B} (f : A -> option B) l i x :
  omap f (<[i := x]> l) ⊆+ match f x with Some y => [y] | None => [] end ++ omap f l.
Proof.
  destruct (decide (i < length l)) as [Hi|Hi].
  - destruct (lookup_lt_is_Some_2 l i Hi) as [y Hy]. rewrite insert_take_drop by done.
    assert (E : l = take i l ++ y :: drop (S i) l) by (symmetry; by apply take_drop_middle).
    rewrite E at 3. rewrite !omap_app. cbn. destruct (f x), (f y); cbn; solve_submseteq.
  - rewrite list_insert_ge by lia. by apply submseteq_inserts_l.
Qed.

Lemma park_deadlines pool packet wait d :
  pool_deadlines (snd (park pool packet wait d)) ⊆+ d :: pool_deadlines pool.
Proof.
  unfold park. destruct (_ <? _); [by apply submseteq_cons|].
  pose proof (fun i e => omap_insert_submseteq (fun s => pp_deadline <$> s) pool i (Some e)) as H.
  destruct (position _ _) as [i|]; [apply H|].
  destruct (min_by_key _ _ _) as [[i v]|]; [apply H|by apply submseteq_cons].
Qed.

Lemma next_deadline_spec pool d :
  at_or_before (next_deadline pool) d <-> exists p, Some p ∈ pool /\ (pp_deadline p <= d)%Z.
Proof.
  induction pool as [|s pool IH]; cbn [next_deadline foldr].
  - split; [done|]. intros (p & Hp & _). by apply not_elem_of_nil in Hp.
  - destruct s as [p|].
    + fold (next_deadline pool). rewrite min_deadline_spec, IH. split.
      * intros [Hd|(q & Hq & Hd)]; [exists p|exists q]; (split; [set_solver|done]).
      * intros (q & Hq & Hd). apply elem_of_cons in Hq as [[= ->]|Hq]; [by left|right; eauto].
    + fold (next_deadline pool). rewrite IH. split; intros (q & Hq & Hd); exists q; (split; [|done]).
      * set_solver.
      * by apply elem_of_cons in Hq as [?|?].
Qed.

Lemma pp_packet_new packet wait deadline :
  length packet <= MAX_INNER_SIZE ->
  pp_packet (mkPendingPacket (blit (replicate MAX_INNER_SIZE 0%Z) 0 packet) (length packet) wait deadline)
    = packet.
Proof. intros H. unfold pp_packet, blit. cbn [pp_buf pp_len]. by rewrite take_0, app_nil_l, take_app_length. Qed.

(** ** Theorems *)

(** parking keeps the newest packet and sacrifices as little as possible: a
    packet of legal size is always stored intact in a non-empty pool, in a free
    place if there is one, and otherwise over a packet of earliest deadline,
    every other packet being untouched; an oversized packet changes nothing. *)
Theorem park_policy (pool : PendingPool) (packet : list Z) (wait : Wait) (deadline : Instant) :
  0 < length pool ->
  let '(ok, pool') := park pool packet wait deadline in
  ok = (length packet <=? MAX_INNER_SIZE) /\ (ok = false -> pool' = pool) /\
  (ok = true -> exists i old e, pool !! i = Some old /\ pool' = <[i := Some e]> pool /\
     pp_packet e = packet /\ pp_wait e = wait /\ pp_deadline e = deadline /\
     (old = None \/
      (None ∉ pool) /\ exists v, old = Some v /\ forall q, Some q ∈ pool -> (pp_deadline v <= pp_deadline q)%Z)).
Proof.
  intros Hlen. unfold park.
  destruct (Nat.ltb_spec MAX_INNER_SIZE (length packet)) as [Hbig|Hfit].
  { split; [symmetry; apply Nat.leb_gt; lia|done]. }
  assert (E : true = (length packet <=? MAX_INNER_SIZE)) by (symmetry; by apply Nat.leb_le).
  set (e := mkPendingPacket _ _ _ _).
  assert (He : pp_packet e = packet) by by apply pp_packet_new.
  destruct (position is_free_slot pool) as [i|] eqn:Hpos.
  - apply position_Some in Hpos as ([p|] & Hi & Hf & _); [done|].
    split; [done|]. split; [done|]. intros _. exists i, None, e. auto 10.
  - apply position_None in Hpos. rewrite Forall_forall in Hpos.
    pose proof (min_by_key_spec (fun _ _ => true) (fun a b => park_key a <? park_key b)%Z
      ltac:(cbn beta; intros; bool_lia) ltac:(cbn beta; intros; bool_lia) pool) as Hmin.
    destruct (min_by_key _ _ pool) as [[i x]|].
    + destruct Hmin as (Hi & _ & Hmin). split; [done|]. split; [done|]. intros _.
      exists i, x, e. do 5 (split; [done|]). right.
      assert (Hn : None ∉ pool) by (intros Hin; by specialize (Hpos _ Hin)).
      split; [done|]. destruct x as [v|]; [|by apply list_elem_of_lookup_2 in Hi]. exists v. split; [done|].
      intros q [j Hj]%list_elem_of_lookup. specialize (Hmin j _ Hj eq_refl). cbn in Hmin. bool_lia.
    + exfalso. destruct pool as [|s pool]; [cbn in Hlen; lia|]. by specialize (Hmin 0 s eq_refl).
Qed.

Lemma park_policy_witness :
  let '(ok, pool') := park (pool_new 2) [69%Z] (WaitHandshake 3) 90000%Z in
  ok = true /\ exists e, Some e ∈ pool' /\ pp_packet e = [69%Z].
Proof.
  pose proof (park_policy (pool_new 2) [69%Z] (WaitHandshake 3) 90000%Z ltac:(cbn; lia)) as H.
  destruct (park _ _ _ _) as [ok pool']. destruct H as (E & _ & H). split; [exact E|].
  destruct (H E) as (i & old & e & Hi & -> & Hp & _). exists e. split; [|done].
  apply list_elem_of_lookup. exists i. apply list_lookup_insert_eq. by eapply lookup_lt_Some.
Defined.

(** The timer of the pool and its expiry agree: the pool reports a deadline
    at or before [now] exactly when [expire_one] drops a packet, the packet
    dropped was due, and nothing else changes. *)
Theorem expire_one_iff_due (pool : PendingPool) (now : Instant) :
  let '(dropped, pool') := expire_one pool now in
  (dropped = true <-> at_or_before (next_deadline pool) now) /\
  (dropped = false -> pool' = pool) /\
  (dropped = true -> exists i p, pool !! i = Some (Some p) /\ (pp_deadline p <= now)%Z /\
     pool' = <[i := None]> pool).
Proof.
  pose proof (next_deadline_spec pool now) as Hnd. unfold expire_one.
  destruct (position _ pool) as [i|] eqn:Hpos; rewrite Hnd.
  - apply position_Some in Hpos as ([p|] & Hi & Hd & _); [|done]. cbn in Hd. bool_to_prop.
    split; [|split; [done|intros _; by exists i, p]]. split; [|done]. intros _. exists p. split; [|done].
    by eapply list_elem_of_lookup_2.
  - apply position_None in Hpos. rewrite Forall_forall in Hpos. split; [|done]. split; [done|].
    intros (p & Hp & Hd). specialize (Hpos _ Hp). cbn in Hpos. bool_lia.
Qed.
