(* ===== verification/Peer.v ===== *)
(** * Peer-owned state ([microtun-core/src/peer.rs]) *)

From S2P Require Import Prelude Clock Ip Firewall Messages Cidr.
Local Open Scope nat_scope.

Inductive PeerKind := Pinned | Dynamic.

#[export] Instance PeerKind_eq_dec : EqDecision PeerKind.
Proof. solve_decision. Defined.

(** ** Session generations of one peer *)

Record PeerSessions := mkPeerSessions {
  current : option SlotIdx;
  previous : option SlotIdx;
  next : option SlotIdx;
  handshake : option SlotIdx;
  keepalive_due : option Instant;
  persistent_keepalive_due : option Instant;
  reply_due : option Instant;
  attempt_deadline : option Instant;
}.

Definition ps_default : PeerSessions := mkPeerSessions None None None None None None None None.

Definition set_generations (ps : PeerSessions) (c p n h : option SlotIdx) (attempt : option Instant)
  : PeerSessions :=
  mkPeerSessions c p n h (keepalive_due ps) (persistent_keepalive_due ps) (reply_due ps) attempt.

(** The three send and receive timers. *)
Definition set_due (ps : PeerSessions) (keepalive persistent reply : option Instant) : PeerSessions :=
  mkPeerSessions (current ps) (previous ps) (next ps) (handshake ps) keepalive persistent reply
    (attempt_deadline ps).

Definition ps_slots (ps : PeerSessions) : list (option SlotIdx) :=
  [current ps; previous ps; next ps; handshake ps].

Definition validate_responder_install (ps : PeerSessions) (sidx : SlotIdx) : Result unit :=
  if bool_decide (is_Some (next ps)) && negb (bool_decide (next ps = Some sidx))
  then Failed InternalInvariant else Ok tt.

Definition commit_responder_install (ps : PeerSessions) (sidx : SlotIdx) : PeerSessions :=
  set_generations ps (current ps) (previous ps) (Some sidx) (handshake ps) (attempt_deadline ps).

(** Returns the slot pushed out of [previous]. *)
Definition rotate_current (ps : PeerSessions) (sidx : SlotIdx) : option SlotIdx * PeerSessions :=
  (previous ps, set_generations ps (Some sidx) (current ps) (next ps) (handshake ps) (attempt_deadline ps)).

Definition install_initiator (ps : PeerSessions) (sidx : SlotIdx)
  : Result (option SlotIdx * PeerSessions) :=
  if negb (bool_decide (handshake ps = Some sidx)) then Failed InternalInvariant
  else Ok (rotate_current (set_generations ps (current ps) (previous ps) (next ps) None None) sidx).

Definition confirm_responder (ps : PeerSessions) (sidx : SlotIdx)
  : Result (option SlotIdx * PeerSessions) :=
  if negb (bool_decide (next ps = Some sidx)) then Failed InternalInvariant
  else Ok (rotate_current
             (set_generations ps (current ps) (previous ps) None (handshake ps) (attempt_deadline ps)) sidx).

Definition begin_handshake (ps : PeerSessions) (sidx : SlotIdx) (deadline : Instant)
  : Result PeerSessions :=
  if bool_decide (is_Some (handshake ps)) then Failed InternalInvariant
  else Ok (set_generations ps (current ps) (previous ps) (next ps) (Some sidx)
             (match attempt_deadline ps with None => Some deadline | d => d end)).

Definition abort_handshake (ps : PeerSessions) : PeerSessions :=
  set_generations ps (current ps) (previous ps) (next ps) None None.

Definition drop_slot (sidx : SlotIdx) (s : option SlotIdx) : option SlotIdx :=
  if bool_decide (s = Some sidx) then None else s.

Definition unlink (ps : PeerSessions) (sidx : SlotIdx) : PeerSessions :=
  let ps := set_generations ps (drop_slot sidx (current ps)) (drop_slot sidx (previous ps))
              (drop_slot sidx (next ps)) (handshake ps) (attempt_deadline ps) in
  if bool_decide (handshake ps = Some sidx) then abort_handshake ps else ps.

(** ** Peer entries *)

Section Peer.
Context {CR : Cidr}.

Record PeerEntry := mkPeerEntry {
  public_key : list Z;
  precomputed_static_static : list Z;
  kind : PeerKind;
  endpoint : option SocketAddr;
  endpoint_confirmed : option Instant;
  relay : option (list Z);
  inbound_policy : InboundPolicy;
  persistent_keepalive : option Duration;
  address : IpCidr;
  greatest_ts : list Z;
  last_initiation_consumption : option Instant;
  cookie : option (list Z * Instant);
  last_mac1 : option (list Z);
  sessions : PeerSessions;
  last_relay_resolve : option Instant;
  latest_handshake : option Instant;
  rx_bytes : Z;
  tx_bytes : Z;
  last_activity : Instant;
}.

Definition peer_new (public_key : list Z) (kind : PeerKind) (precomputed : list Z)
    (endpoint : option SocketAddr) (relay : option (list Z)) (inbound_policy : InboundPolicy)
    (persistent_keepalive : option Duration) (address : IpCidr) (now : Instant) : PeerEntry :=
  let persistent_keepalive :=
    match persistent_keepalive with
    | Some interval => if negb (interval =? 0)%Z then Some interval else None
    | None => None
    end in
  let due := instant_add now <$> persistent_keepalive in
  mkPeerEntry public_key precomputed kind (unmap_socket_addr <$> endpoint) None relay inbound_policy
    persistent_keepalive address (replicate TIMESTAMP_LEN 0%Z) None None None
    (mkPeerSessions None None None None None due None None) None None 0 0 now.

(** Record updates. *)
Definition with_sessions (p : PeerEntry) (ps : PeerSessions) : PeerEntry :=
  mkPeerEntry (public_key p) (precomputed_static_static p) (kind p) (endpoint p) (endpoint_confirmed p)
    (relay p) (inbound_policy p) (persistent_keepalive p) (address p) (greatest_ts p)
    (last_initiation_consumption p) (cookie p) (last_mac1 p) ps (last_relay_resolve p)
    (latest_handshake p) (rx_bytes p) (tx_bytes p) (last_activity p).
Definition with_endpoint (p : PeerEntry) (e : option SocketAddr) (confirmed : option Instant) : PeerEntry :=
  mkPeerEntry (public_key p) (precomputed_static_static p) (kind p) e confirmed
    (relay p) (inbound_policy p) (persistent_keepalive p) (address p) (greatest_ts p)
    (last_initiation_consumption p) (cookie p) (last_mac1 p) (sessions p) (last_relay_resolve p)
    (latest_handshake p) (rx_bytes p) (tx_bytes p) (last_activity p).
Definition with_replay (p : PeerEntry) (ts : list Z) (consumed : option Instant) : PeerEntry :=
  mkPeerEntry (public_key p) (precomputed_static_static p) (kind p) (endpoint p) (endpoint_confirmed p)
    (relay p) (inbound_policy p) (persistent_keepalive p) (address p) ts consumed
    (cookie p) (last_mac1 p) (sessions p) (last_relay_resolve p)
    (latest_handshake p) (rx_bytes p) (tx_bytes p) (last_activity p).
Definition with_cookie (p : PeerEntry) (c : option (list Z * Instant)) (mac1 : option (list Z)) : PeerEntry :=
  mkPeerEntry (public_key p) (precomputed_static_static p) (kind p) (endpoint p) (endpoint_confirmed p)
    (relay p) (inbound_policy p) (persistent_keepalive p) (address p) (greatest_ts p)
    (last_initiation_consumption p) c mac1 (sessions p) (last_relay_resolve p)
    (latest_handshake p) (rx_bytes p) (tx_bytes p) (last_activity p).
Definition with_activity (p : PeerEntry) (relay_resolve latest : option Instant) (rx tx : Z) (activity : Instant)
  : PeerEntry :=
  mkPeerEntry (public_key p) (precomputed_static_static p) (kind p) (endpoint p) (endpoint_confirmed p)
    (relay p) (inbound_policy p) (persistent_keepalive p) (address p) (greatest_ts p)
    (last_initiation_consumption p) (cookie p) (last_mac1 p) (sessions p) relay_resolve latest rx tx activity.

Definition observe_direct_endpoint (p : PeerEntry) (e : SocketAddr) (now : Instant) : bool * PeerEntry :=
  if bool_decide (is_Some (relay p)) then (false, p) else
  let newly_observed :=
    bool_decide (endpoint_confirmed p = None) || negb (bool_decide (endpoint p = Some e)) in
  (newly_observed, with_endpoint p (Some e) (Some now)).

(** What configuration or the resolver says of a peer, endpoint apart: no traffic
    changes it. *)
Definition identity (p : PeerEntry) :=
  (public_key p, kind p, relay p, inbound_policy p, persistent_keepalive p, address p).

Definition is_pinned (p : PeerEntry) : bool := bool_decide (kind p = Pinned).

End Peer.

(** ** Specification *)

(** The slots a peer links, with their generations. *)
Definition linked (ps : PeerSessions) : list SlotIdx := omap id (ps_slots ps).
Definition opt_list {A} (o : option A) : list A := match o with Some a => [a] | None => [] end.

(** ** Lemmas *)

Lemma linked_unlink ps sidx : linked (unlink ps sidx) = retain (fun s => negb (s =? sidx)) (linked ps).
Proof.
  unfold unlink, linked, ps_slots, drop_slot. destruct ps as [c p n h k pk r a]. cbn.
  assert (E : forall o : option nat, bool_decide (o = Some sidx) = match o with Some s => s =? sidx | None => false end).
  { intros [s|]; [|done]. destruct (Nat.eqb_spec s sidx) as [->|]; [by apply bool_decide_eq_true_2|].
    apply bool_decide_eq_false_2. congruence. }
  rewrite !E. destruct c as [c|], p as [p|], n as [n|], h as [h|]; cbn;
    repeat (destruct (_ =? sidx); cbn); done.
Qed.

Lemma handshake_unlink ps sidx : handshake (unlink ps sidx) = drop_slot sidx (handshake ps).
Proof.
  unfold unlink, drop_slot. cbn [handshake set_generations].
  destruct (decide (handshake ps = Some sidx)) as [E|E].
  - by rewrite !(bool_decide_eq_true_2 (handshake ps = Some sidx)).
  - by rewrite !(bool_decide_eq_false_2 (handshake ps = Some sidx)).
Qed.

Lemma elem_of_linked ps s : s ∈ linked ps <-> Some s ∈ ps_slots ps.
Proof.
  unfold linked. rewrite list_elem_of_omap. split.
  - by intros ([x|] & Hx & [= ->]).
  - intros H. by exists (Some s).
Qed.

Lemma unlink_id ps sidx : sidx ∉ linked ps -> unlink ps sidx = ps.
Proof.
  rewrite elem_of_linked. unfold ps_slots. rewrite !not_elem_of_cons. intros (Hc & Hp & Hn & Hh & _).
  unfold unlink, drop_slot. cbn [handshake set_generations]. rewrite !bool_decide_eq_false_2 by congruence. by destruct ps.
Qed.

Lemma unlink_not_linked ps sidx : sidx ∉ linked (unlink ps sidx).
Proof. rewrite linked_unlink, elem_of_retain, negb_true_iff, Nat.eqb_neq. tauto. Qed.

Lemma install_initiator_links ps sidx freed ps' :
  install_initiator ps sidx = Ok (freed, ps') ->
  handshake ps = Some sidx /\ linked ps ≡ₚ linked ps' ++ opt_list freed /\ current ps' = Some sidx /\ handshake ps' = None.
Proof.
  unfold install_initiator. case_bool_decide as H; cbn [negb]; [|done]. intros [= <- <-].
  unfold linked, ps_slots. cbn. rewrite H. split; [done|]. split; [|done].
  destruct (current ps), (previous ps), (next ps); cbn; solve_Permutation.
Qed.

Lemma confirm_responder_links ps sidx freed ps' :
  confirm_responder ps sidx = Ok (freed, ps') ->
  next ps = Some sidx /\ linked ps ≡ₚ linked ps' ++ opt_list freed /\ current ps' = Some sidx /\ handshake ps' = handshake ps.
Proof.
  unfold confirm_responder. case_bool_decide as H; cbn [negb]; [|done]. intros [= <- <-].
  unfold linked, ps_slots. cbn. rewrite H. split; [done|]. split; [|done].
  destruct (current ps), (previous ps), (handshake ps); cbn; solve_Permutation.
Qed.

(** ** Theorems *)

(** session generations never leak or duplicate a slot: whenever a transition
    succeeds, the slots linked before are exactly those linked after together
    with the one handed back to be freed; the new session becomes current and
    the old current becomes previous; transitions on a slot in the wrong
    generation are refused. *)
Theorem transitions_conserve_slots (ps : PeerSessions) (sidx : SlotIdx) (deadline : Instant) :
  (match install_initiator ps sidx with
   | Ok (freed, ps') => handshake ps = Some sidx /\ linked ps ≡ₚ linked ps' ++ opt_list freed /\
       current ps' = Some sidx /\ previous ps' = current ps /\ freed = previous ps /\
       handshake ps' = None /\ attempt_deadline ps' = None /\ next ps' = next ps
   | Failed e => handshake ps <> Some sidx /\ e = InternalInvariant
   end) /\
  (match confirm_responder ps sidx with
   | Ok (freed, ps') => next ps = Some sidx /\ linked ps ≡ₚ linked ps' ++ opt_list freed /\
       current ps' = Some sidx /\ previous ps' = current ps /\ freed = previous ps /\
       handshake ps' = handshake ps /\ next ps' = None
   | Failed e => next ps <> Some sidx /\ e = InternalInvariant
   end) /\
  (match begin_handshake ps sidx deadline with
   | Ok ps' => handshake ps = None /\ linked ps' ≡ₚ sidx :: linked ps /\ is_Some (attempt_deadline ps')
   | Failed e => is_Some (handshake ps) /\ e = InternalInvariant
   end).
Proof.
  unfold install_initiator, confirm_responder, begin_handshake, rotate_current, linked, ps_slots.
  destruct ps as [c p n h k pk r a]. cbn. split; [|split]; case_bool_decide as Hd; cbn.
  - subst h. split; [done|]. split; [|done].
    destruct c, p, n; cbn; solve_Permutation.
  - done.
  - subst n. split; [done|]. split; [|done].
    destruct c, p, h; cbn; solve_Permutation.
  - done.
  - done.
  - apply eq_None_not_Some in Hd as ->. split; [done|]. split; [|by destruct a].
    destruct c, p, n; cbn; solve_Permutation.
Qed.
