(* ===== verification/Pool.v ===== *)
(** * The peer table and the session-slot pool ([microtun-core/src/lib.rs])

    The part of [Core] that owns peers, session slots and the two reverse
    indexes, with the timer cache their deadlines arm. *)

From S2P Require Import Prelude Clock Constants Ip Messages Effect Cidr Firewall.
From S2P Require Import Crypto Noise Session SessionIndex Peer.
Local Open Scope nat_scope.

Record Initiating := mkInitiating {
  hs_peer : PeerIdx;
  hs_local_index : Z;
  hs_noise : InitiatorState;
  retry_at : Instant;
}.

Inductive Slot :=
| Free
| InitiatingSlot (handshake : Initiating)
| Established (session : Session).

Definition is_free (s : Slot) : bool := match s with Free => true | _ => false end.

Definition local_index (s : Slot) : option Z :=
  match s with
  | InitiatingSlot h => Some (hs_local_index h)
  | Established session => Some (s_local_index session)
  | Free => None
  end.

(** The [match slot { .. => Some(..peer) }] of [slot_owner] and [free_slot]. *)
Definition owner_of (s : Slot) : option PeerIdx :=
  match s with
  | Established session => Some (s_peer session)
  | InitiatingSlot h => Some (hs_peer h)
  | Free => None
  end.

(** [matches!(s, Slot::Established(sess) if now - sess.created >= REJECT_AFTER_TIME)] *)
Definition lapsed (now : Instant) (s : Slot) : bool :=
  match s with
  | Established session => (REJECT_AFTER_TIME <=? saturating_since now (created session))%Z
  | _ => false
  end.

Section Pool.
Context {CR : Cidr}.
Context (MAX_PEERS MAX_SESSIONS : nat).

Record Pool := mkPool {
  peers : list (option PeerEntry);
  peers_by_public_key : gmap (list Z) PeerIdx;
  slots : list Slot;
  session_indices : SessionIndexMap;
  timers : TimerCache;
}.

Definition pool_init : Pool :=
  mkPool (replicate MAX_PEERS None) ∅ (replicate MAX_SESSIONS Free) sim_new tc_new.

(** Record updates. *)
Definition with_peers (p : Pool) (x : list (option PeerEntry)) : Pool :=
  mkPool x (peers_by_public_key p) (slots p) (session_indices p) (timers p).
Definition with_by_key (p : Pool) (x : gmap (list Z) PeerIdx) : Pool :=
  mkPool (peers p) x (slots p) (session_indices p) (timers p).
Definition with_slots (p : Pool) (x : list Slot) : Pool :=
  mkPool (peers p) (peers_by_public_key p) x (session_indices p) (timers p).
Definition with_indices (p : Pool) (x : SessionIndexMap) : Pool :=
  mkPool (peers p) (peers_by_public_key p) (slots p) x (timers p).
Definition with_timers (p : Pool) (x : TimerCache) : Pool :=
  mkPool (peers p) (peers_by_public_key p) (slots p) (session_indices p) x.

(** [self.peers.get(pidx as usize).and_then(Option::as_ref)] *)
Definition peer_at (p : Pool) (pidx : PeerIdx) : option PeerEntry := mjoin (peers p !! pidx).

(** Writes through [get_mut(pidx).and_then(Option::as_mut)]. *)
Definition update_peer (pidx : PeerIdx) (f : PeerEntry -> PeerEntry) (p : Pool) : Pool :=
  with_peers p (alter (fmap f) pidx (peers p)).

Definition arm (at' : Instant) : Eff Pool unit := modify (fun p => with_timers p (tc_arm (timers p) at')).

Definition find_peer (p : Pool) (key : list Z) : option PeerIdx := peers_by_public_key p !! key.

(** [IndexMap::insert] of capacity [MAX_PEERS]: the previous value, or [Err] when a
    new key does not fit. *)
Definition by_key_insert (m : gmap (list Z) PeerIdx) (key : list Z) (pidx : PeerIdx)
  : Result (option PeerIdx * gmap (list Z) PeerIdx) :=
  if bool_decide (m !! key = None) && (MAX_PEERS <=? size m) then Failed InternalInvariant
  else Ok (m !! key, <[key := pidx]> m).

Definition install_peer (pidx : PeerIdx) (peer : PeerEntry) : Eff Pool unit :=
  entry ← demand (fun p => peers p !! pidx) InternalInvariant;
  _ ← guard (fun p => bool_decide (is_Some entry) ||
                      bool_decide (is_Some (peers_by_public_key p !! public_key peer))) InternalInvariant;
  let key := public_key peer in
  m ← gets peers_by_public_key;
  '(prev, m') ← lift (by_key_insert m key pidx);
  _ ← modify (fun p => with_by_key p m');
  match prev with
  | Some previous_pidx =>
      _ ← modify (fun p => with_by_key p (<[key := previous_pidx]> (peers_by_public_key p)));
      throw InternalInvariant
  | None =>
      slot ← gets (fun p => peers p !! pidx);
      match slot with
      | Some None =>
          _ ← modify (fun p => with_peers p (<[pidx := Some peer]> (peers p)));
          match persistent_keepalive_due (sessions peer) with
          | Some deadline => arm deadline
          | None => mret tt
          end
      | _ =>
          _ ← modify (fun p => with_by_key p (delete key (peers_by_public_key p)));
          throw InternalInvariant
      end
  end.

Definition take_peer (pidx : PeerIdx) : Eff Pool (option PeerEntry) :=
  entry ← demand (fun p => peers p !! pidx) InternalInvariant;
  match entry with
  | None => mret None
  | Some peer =>
      let key := public_key peer in
      _ ← guard (fun p => negb (bool_decide (peers_by_public_key p !! key = Some pidx))) InternalInvariant;
      removed ← gets (fun p => peers_by_public_key p !! key);
      _ ← modify (fun p => with_by_key p (delete key (peers_by_public_key p)));
      _ ← guard (fun _ => negb (bool_decide (removed = Some pidx))) InternalInvariant;
      slot ← gets (fun p => peer_at p pidx);
      match slot with
      | Some peer =>
          _ ← modify (fun p => with_peers p (<[pidx := None]> (peers p)));
          mret (Some peer)
      | None =>
          _ ← modify (fun p => with_by_key p (<[key := pidx]> (peers_by_public_key p)));
          throw InternalInvariant
      end
  end.

Definition slot_owner (p : Pool) (sidx : SlotIdx) : option PeerIdx := slots p !! sidx ≫= owner_of.

Definition free_slot (sidx : SlotIdx) : Eff Pool unit :=
  slot ← demand (fun p => slots p !! sidx) InternalInvariant;
  let owner := owner_of slot in
  _ ← guard (fun p => match owner with
                      | Some pidx => bool_decide (peer_at p pidx = None)
                      | None => false
                      end) InternalInvariant;
  _ ← match local_index slot with
      | Some index =>
          m ← gets session_indices;
          m' ← lift (sim_remove m index sidx);
          modify (fun p => with_indices p m')
      | None => mret tt
      end;
  _ ← match owner with
      | Some pidx =>
          modify (update_peer pidx (fun peer => with_sessions peer (unlink (sessions peer) sidx)))
      | None => mret tt
      end;
  modify (fun p => with_slots p (<[sidx := Free]> (slots p))).

(** [filter] of eviction stage 4: established, and not a pinned peer's current session. *)
Definition evictable (p : Pool) (i : SlotIdx) (s : Slot) : bool :=
  match s with
  | Established session =>
      match peer_at p (s_peer session) with
      | None => true
      | Some peer => negb (is_pinned peer && bool_decide (current (sessions peer) = Some i))
      end
  | _ => false
  end.

(** [min_by_key] of eviction stage 4: the owner's last activity. *)
Definition activity_of (p : Pool) (s : Slot) : Instant :=
  match owner_of s ≫= peer_at p with Some peer => last_activity peer | None => 0%Z end.

Definition lru_victim (p : Pool) : option SlotIdx :=
  fst <$> min_by_key (evictable p) (fun a b => (activity_of p a <? activity_of p b)%Z) (slots p).

Definition alloc_slot (now : Instant) : Eff Pool (option SlotIdx) := fun p =>
  match position is_free (slots p) with
  | Some i => (Ok (Some i), p)
  | None =>
  match position (lapsed now) (slots p) with
  | Some i => (_ ← free_slot i; mret (Some i)) p
  | None =>
  match head (omap (fun peer => previous (sessions peer)) (omap id (peers p))) with
  | Some prev => (_ ← free_slot prev; mret (Some prev)) p
  | None =>
  match lru_victim p with
  | Some v => (_ ← free_slot v; mret (Some v)) p
  | None => (Ok None, p)
  end end end end.

Definition slot_for_session_index (p : Pool) (index : Z) : option SlotIdx := slot_for (session_indices p) index.

Definition usable_session (p : Pool) (pidx : PeerIdx) (now : Instant) : option SlotIdx :=
  peer ← peer_at p pidx;
  sidx ← current (sessions peer);
  match slots p !! sidx with
  | Some (Established session) => if can_send session now then Some sidx else None
  | _ => None
  end.

(** ** The invariant *)

(** Slot [s] holds what generation [g] of peer [i] should: an initiation in
    [handshake], a session in the other three. *)
Definition holds (p : Pool) (i : PeerIdx) (hs : bool) (s : SlotIdx) : Prop :=
  match slots p !! s with
  | Some (InitiatingSlot h) => hs = true /\ hs_peer h = i
  | Some (Established session) => hs = false /\ s_peer session = i
  | _ => False
  end.

(** [orphan] is the slot a handshake is being staged in, not linked yet. *)
Record pool_inv (orphan : option SlotIdx) (p : Pool) : Prop := {
  pi_peers : length (peers p) = MAX_PEERS;
  pi_slots : length (slots p) = MAX_SESSIONS;
  pi_keys k i : peers_by_public_key p !! k = Some i <-> exists e, peer_at p i = Some e /\ public_key e = k;
  pi_indices x s : session_indices p !! x = Some s <-> slots p !! s ≫= local_index = Some x;
  pi_links i e : peer_at p i = Some e ->
    NoDup (linked (sessions e)) /\
    (forall s, handshake (sessions e) = Some s -> holds p i true s) /\
    (forall s, s ∈ linked (sessions e) -> handshake (sessions e) <> Some s -> holds p i false s);
  pi_owned s i : slot_owner p s = Some i ->
    exists e, peer_at p i = Some e /\ (s ∈ linked (sessions e) \/ orphan = Some s);
}.

(** What [alloc_slot] may take, in its order of preference. *)
Inductive victim (now : Instant) (p : Pool) (s : SlotIdx) : Prop :=
| VictimFree : slots p !! s = Some Free -> victim now p s
| VictimLapsed sl :
    Forall (fun x => is_free x = false) (slots p) ->
    slots p !! s = Some sl -> lapsed now sl = true -> victim now p s
| VictimPrevious i e :
    Forall (fun x => is_free x = false /\ lapsed now x = false) (slots p) ->
    peer_at p i = Some e -> previous (sessions e) = Some s -> victim now p s
| VictimLru sl :
    Forall (fun x => is_free x = false /\ lapsed now x = false) (slots p) ->
    (forall i e, peer_at p i = Some e -> previous (sessions e) = None) ->
    slots p !! s = Some sl -> evictable p s sl = true ->
    (forall t sl', slots p !! t = Some sl' -> evictable p t sl' = true -> (activity_of p sl <= activity_of p sl')%Z) ->
    victim now p s.

(** ** Lemmas *)

Lemma peer_at_update pidx f p i :
  peer_at (update_peer pidx f p) i = if decide (i = pidx) then f <$> peer_at p i else peer_at p i.
Proof.
  unfold peer_at, update_peer. cbn [peers with_peers]. case_decide as E.
  - subst. rewrite list_lookup_alter_eq. by destruct (peers p !! _) as [[]|].
  - by rewrite list_lookup_alter_ne.
Qed.

(** The pool [free_slot] leaves. *)
Definition freed (s : SlotIdx) (p : Pool) : Pool :=
  let unlinked := match slot_owner p s with
                  | Some i => update_peer i (fun e => with_sessions e (unlink (sessions e) s)) p
                  | None => p
                  end in
  with_slots
    (with_indices unlinked
       match slots p !! s ≫= local_index with
       | Some x => delete x (session_indices p)
       | None => session_indices p
       end) (<[s := Free]> (slots p)).

Lemma free_slot_run o p s : pool_inv o p -> s < MAX_SESSIONS -> free_slot s p = (Ok tt, freed s p).
Proof.
  intros Hinv Hs.
  assert (exists sl, slots p !! s = Some sl) as [sl Hsl].
  { apply lookup_lt_is_Some_2. by rewrite (pi_slots _ _ Hinv). }
  assert (Hidx : forall x, local_index sl = Some x -> session_indices p !! x = Some s).
  { intros x Hx. apply (pi_indices _ _ Hinv). by rewrite Hsl. }
  assert (Hown : forall i, owner_of sl = Some i -> peer_at p i <> None).
  { intros i Hi. destruct (pi_owned _ _ Hinv s i) as (e & -> & _); [|done].
    unfold slot_owner. by rewrite Hsl. }
  unfold free_slot, freed, slot_owner. eff. rewrite Hsl. cbn [mbind option_bind].
  destruct (owner_of sl) as [i|] eqn:Eo; eff.
  - rewrite bool_decide_eq_false_2 by (by apply Hown).
    destruct (local_index sl) as [x|] eqn:Ex; eff; [|by destruct sl].
    unfold sim_remove.
    rewrite (bool_decide_eq_true_2 (session_indices p !! x = Some s)) by (by apply Hidx). done.
  - by destruct sl.
Qed.

(** ** Effect of freeing on each part of the pool *)

Lemma freed_slots s p : slots (freed s p) = <[s := Free]> (slots p).
Proof. done. Qed.

Lemma freed_by_key s p : peers_by_public_key (freed s p) = peers_by_public_key p.
Proof. unfold freed. by destruct (slot_owner p s). Qed.

Lemma freed_timers s p : timers (freed s p) = timers p.
Proof. unfold freed. by destruct (slot_owner p s). Qed.

Lemma freed_lookup s p t : s < length (slots p) ->
  slots (freed s p) !! t = if decide (t = s) then Some Free else slots p !! t.
Proof.
  intros Hs. rewrite freed_slots. case_decide as E.
  - subst. by rewrite list_lookup_insert_eq.
  - by rewrite list_lookup_insert_ne.
Qed.

(** Only the owner links the slot. *)
Lemma linked_owner o p i e s :
  pool_inv o p -> peer_at p i = Some e -> s ∈ linked (sessions e) -> slot_owner p s = Some i.
Proof.
  intros Hinv He Hs. destruct (pi_links _ _ Hinv i e He) as (_ & Hh & Hg).
  destruct (decide (handshake (sessions e) = Some s)) as [E|E].
  - specialize (Hh s E). unfold holds in Hh. unfold slot_owner.
    destruct (slots p !! s) as [[]|]; cbn in *; naive_solver.
  - specialize (Hg s Hs E). unfold holds in Hg. unfold slot_owner.
    destruct (slots p !! s) as [[]|]; cbn in *; naive_solver.
Qed.

(** Every peer afterwards: the entry it was, its generations without the slot. *)
Lemma freed_peer o p s i :
  pool_inv o p ->
  peer_at (freed s p) i = (fun e => with_sessions e (unlink (sessions e) s)) <$> peer_at p i.
Proof.
  intros Hinv. unfold freed.
  assert (Hid : slot_owner p s <> Some i ->
    (fun e => with_sessions e (unlink (sessions e) s)) <$> peer_at p i = peer_at p i).
  { intros Hne. destruct (peer_at p i) as [e|] eqn:He; [|done]. cbn. f_equal.
    assert (Hnl : s ∉ linked (sessions e)) by (intros Hs; by apply Hne, (linked_owner _ _ _ _ _ Hinv He)).
    destruct e as [? ? ? ? ? ? ? ? ? ? ? ? ? ps]. unfold with_sessions. cbn in *. f_equal.
    by apply unlink_id. }
  destruct (slot_owner p s) as [j|] eqn:Ho.
  - change (peer_at (with_slots (with_indices ?q _) _) i) with (peer_at q i).
    rewrite peer_at_update. case_decide as E; [done|]. rewrite Hid; [done|congruence].
  - change (peer_at (with_slots (with_indices ?q _) _) i) with (peer_at q i). by rewrite Hid.
Qed.

Lemma freed_inv o p s :
  pool_inv o p -> s < MAX_SESSIONS -> pool_inv (drop_slot s o) (freed s p).
Proof.
  intros Hinv Hs. assert (Hs' : s < length (slots p)) by (by rewrite (pi_slots _ _ Hinv)).
  assert (Hpeer := fun i => freed_peer o p s i Hinv).
  assert (Howner : forall t i, slot_owner (freed s p) t = Some i -> t <> s /\ slot_owner p t = Some i).
  { intros t i. unfold slot_owner. rewrite freed_lookup by done. by case_decide. }
  assert (Hholds : forall i b t, t <> s -> holds p i b t -> holds (freed s p) i b t).
  { intros i b t Hne. unfold holds. rewrite freed_lookup by done. by rewrite decide_False. }
  constructor.
  - rewrite <- (pi_peers _ _ Hinv). unfold freed, update_peer.
    destruct (slot_owner p s); [|done]. cbn. by rewrite length_alter.
  - rewrite freed_slots, length_insert. apply (pi_slots _ _ Hinv).
  - intros k i. rewrite freed_by_key, (pi_keys _ _ Hinv), Hpeer. split.
    + intros (e & -> & <-). by eexists.
    + intros (e & (e' & -> & ->)%fmap_Some & <-). by eexists.
  - intros x t. rewrite freed_lookup by done.
    assert (Hi := pi_indices _ _ Hinv x). unfold freed. cbn [session_indices with_slots with_indices].
    destruct (slots p !! s ≫= local_index) as [y|] eqn:Ey.
    + rewrite lookup_delete_Some, Hi. case_decide as E; [subst; cbn; naive_solver|].
      split; [by intros [_ ?]|]. intros Hx. split; [|done]. intros ->.
      assert (session_indices p !! x = Some s) by (by apply (pi_indices _ _ Hinv)).
      apply Hi in Hx. congruence.
    + rewrite Hi. case_decide as E; [subst; cbn; naive_solver|done].
  - intros i e'. rewrite Hpeer. intros (e & He & ->)%fmap_Some. cbn [sessions with_sessions].
    destruct (pi_links _ _ Hinv i e He) as (Hnd & Hh & Hg). rewrite linked_unlink, handshake_unlink.
    split; [|split].
    + rewrite <- (list_fmap_id (retain _ _)). apply NoDup_fmap_retain. by rewrite list_fmap_id.
    + intros t Ht. unfold drop_slot in Ht. case_bool_decide as E; [done|].
      apply Hholds; [congruence|by apply Hh].
    + intros t [Hne Ht]%elem_of_retain Hnh. apply negb_true_iff, Nat.eqb_neq in Hne.
      apply Hholds; [done|]. apply Hg; [done|]. intros E. apply Hnh.
      unfold drop_slot. rewrite E. rewrite bool_decide_eq_false_2; [done|congruence].
  - intros t i [Hne Ho]%Howner. destruct (pi_owned _ _ Hinv t i Ho) as (e & He & Hl).
    rewrite Hpeer, He. eexists. split; [done|]. cbn [sessions with_sessions]. rewrite linked_unlink.
    destruct Hl as [Hl| ->].
    + left. apply elem_of_retain. split; [|done]. by apply negb_true_iff, Nat.eqb_neq.
    + right. unfold drop_slot. rewrite bool_decide_eq_false_2; [done|congruence].
Qed.

(** ** Allocation *)

Lemma lru_victim_spec p :
  match lru_victim p with
  | Some s => exists sl, slots p !! s = Some sl /\ evictable p s sl = true /\
      forall t sl', slots p !! t = Some sl' -> evictable p t sl' = true ->
        (activity_of p sl <= activity_of p sl')%Z
  | None => forall t sl, slots p !! t = Some sl -> evictable p t sl = false
  end.
Proof.
  unfold lru_victim.
  pose proof (min_by_key_spec (evictable p) (fun a b => (activity_of p a <? activity_of p b)%Z)) as H.
  specialize (H ltac:(intros a b c; rewrite !Z.ltb_ge; lia) ltac:(intros a b; rewrite Z.ltb_lt, Z.ltb_ge; lia)
                (slots p)).
  destruct (min_by_key _ _ _) as [[s sl]|]; cbn; [|done].
  destruct H as (H1 & H2 & H3). exists sl. split; [done|]. split; [done|].
  intros t sl' Ht He. specialize (H3 t sl' Ht He). by apply Z.ltb_ge in H3.
Qed.

Lemma first_previous p :
  match head (omap (fun peer => previous (sessions peer)) (omap id (peers p))) with
  | Some s => exists i e, peer_at p i = Some e /\ previous (sessions e) = Some s
  | None => forall i e, peer_at p i = Some e -> previous (sessions e) = None
  end.
Proof.
  assert (Hin : forall e, e ∈ omap id (peers p) <-> exists i, peer_at p i = Some e).
  { intros e. rewrite list_elem_of_omap. unfold peer_at, id. split.
    - intros (x & [i Hi]%list_elem_of_lookup & ->). exists i. by rewrite Hi.
    - intros (i & Hi). destruct (peers p !! i) as [x|] eqn:E; [|done]. cbn in Hi. subst x.
      exists (Some e). split; [by apply list_elem_of_lookup_2 in E|done]. }
  destruct (omap (fun peer => previous (sessions peer)) (omap id (peers p))) as [|s l] eqn:E; cbn.
  - intros i e He. destruct (previous (sessions e)) as [s|] eqn:Es; [|done].
    assert (Hs : s ∈ omap (fun peer => previous (sessions peer)) (omap id (peers p))).
    { apply list_elem_of_omap. exists e. split; [|done]. apply Hin. eauto. }
    rewrite E in Hs. by apply elem_of_nil in Hs.
  - assert (Hs : s ∈ omap (fun peer => previous (sessions peer)) (omap id (peers p))) by (rewrite E; left).
    apply list_elem_of_omap in Hs as (e & [i Hi]%Hin & Hp). eauto.
Qed.

(** The pool after slot [s] was claimed: freed unless it was free already. *)
Definition claimed (s : SlotIdx) (p : Pool) : Pool :=
  match slots p !! s with Some Free => p | _ => freed s p end.

(** The allocation frees its victim and returns it. *)
Lemma alloc_slot_run o p now :
  pool_inv o p ->
  match fst (alloc_slot now p) with
  | Ok (Some s) => s < MAX_SESSIONS /\ victim now p s /\
      snd (alloc_slot now p) = claimed s p
  | Ok None => snd (alloc_slot now p) = p /\
      (forall t sl, slots p !! t = Some sl -> is_free sl = false /\ lapsed now sl = false /\ evictable p t sl = false)
  | Failed _ => False
  end.
Proof.
  intros Hinv. unfold alloc_slot.
  assert (Hlt : forall s sl, slots p !! s = Some sl -> s < MAX_SESSIONS).
  { intros s sl H. rewrite <- (pi_slots _ _ Hinv). by eapply lookup_lt_Some. }
  destruct (position is_free (slots p)) as [i|] eqn:Ef.
  { apply position_Some in Ef as (sl & Hsl & Hf & _). destruct sl; [|done|done]. cbn.
    split; [by eapply Hlt|]. split; [by apply VictimFree|]. unfold claimed. by rewrite Hsl. }
  apply position_None in Ef.
  assert (Hnf : forall s sl, slots p !! s = Some sl -> is_free sl = false) by (by apply Forall_lookup).
  assert (Hrun : forall s, s < MAX_SESSIONS -> (_ ← free_slot s; mret (Some s)) p = (Ok (Some s), freed s p)).
  { intros s Hs. by rewrite bind_run, (free_slot_run o). }
  assert (Hbd : forall s, claimed s p = freed s p).
  { intros s. unfold claimed. destruct (slots p !! s) as [[]|] eqn:E; [|done..]. by apply Hnf in E. }
  destruct (position (lapsed now) (slots p)) as [i|] eqn:El.
  { apply position_Some in El as (sl & Hsl & Hl & _). rewrite Hrun by (by eapply Hlt). cbn.
    rewrite Hbd. split; [by eapply Hlt|]. split; [by eapply VictimLapsed|done]. }
  apply position_None in El.
  assert (Hn : Forall (fun x => is_free x = false /\ lapsed now x = false) (slots p)) by (by apply Forall_and).
  pose proof (first_previous p) as Hp.
  destruct (head _) as [s|].
  { destruct Hp as (i & e & He & Hs).
    assert (Hl : s < MAX_SESSIONS).
    { assert (Ho : slot_owner p s = Some i).
      { eapply linked_owner; [done..|]. apply elem_of_linked. unfold ps_slots. rewrite Hs. set_solver. }
      unfold slot_owner in Ho. destruct (slots p !! s) eqn:E; [by eapply Hlt|done]. }
    rewrite Hrun by done. cbn. rewrite Hbd. split; [done|]. split; [by eapply VictimPrevious|done]. }
  pose proof (lru_victim_spec p) as Hv. destruct (lru_victim p) as [s|].
  { destruct Hv as (sl & Hsl & Hev & Hmin). rewrite Hrun by (by eapply Hlt). cbn. rewrite Hbd.
    split; [by eapply Hlt|]. split; [by eapply VictimLru|done]. }
  cbn. split; [done|]. intros t sl Ht. rewrite Forall_forall in Hn.
  destruct (Hn sl) as [H1 H2]; [by apply list_elem_of_lookup_2 in Ht|]. eauto.
Qed.

Lemma claimed_inv o p s : pool_inv o p -> s < MAX_SESSIONS -> pool_inv (drop_slot s o) (claimed s p) \/
  slots p !! s = Some Free /\ claimed s p = p.
Proof.
  intros Hinv Hs. unfold claimed. destruct (slots p !! s) as [[]|] eqn:E; [by right|..]; left; by apply freed_inv.
Qed.

Lemma claimed_free s p : s < length (slots p) -> slots (claimed s p) !! s = Some Free.
Proof.
  intros Hs. unfold claimed. pose proof (freed_lookup s p s Hs) as H. rewrite decide_True in H by done.
  by destruct (slots p !! s) as [[]|] eqn:E.
Qed.

Lemma claimed_other s p t : t <> s -> slots (claimed s p) !! t = slots p !! t.
Proof.
  intros Hne. unfold claimed. destruct (slots p !! s) as [[]|]; [done|..];
    rewrite freed_slots; by rewrite list_lookup_insert_ne.
Qed.

Lemma claimed_peer o p s i :
  pool_inv o p ->
  peer_at (claimed s p) i = (fun e => with_sessions e (unlink (sessions e) s)) <$> peer_at p i.
Proof.
  intros Hinv. unfold claimed. pose proof (freed_peer o p s i Hinv) as H.
  destruct (slots p !! s) as [[]|] eqn:E; [|done..].
  rewrite <- H. unfold freed, slot_owner. rewrite E. cbn. by destruct p.
Qed.

(** ** The peer table *)

Lemma pool_init_inv : pool_inv None pool_init.
Proof.
  assert (Hp : forall i, peer_at pool_init i = None).
  { intros i. unfold peer_at. cbn. destruct (replicate MAX_PEERS None !! i) as [x|] eqn:E; [|done].
    by apply lookup_replicate in E as [-> _]. }
  assert (Hs : forall s, slots pool_init !! s ≫= local_index = None /\ slot_owner pool_init s = None).
  { intros s. unfold slot_owner. cbn. destruct (replicate MAX_SESSIONS Free !! s) as [x|] eqn:E; [|done].
    by apply lookup_replicate in E as [-> _]. }
  constructor.
  - apply length_replicate.
  - apply length_replicate.
  - intros k i. rewrite Hp. cbn. rewrite lookup_empty. naive_solver.
  - intros x s. destruct (Hs s) as [-> _]. cbn. unfold sim_new. by rewrite lookup_empty.
  - intros i e. by rewrite Hp.
  - intros s i. by destruct (Hs s) as [_ ->].
Qed.

Lemma index_has_room o p pidx :
  pool_inv o p -> peers p !! pidx = Some None -> size (peers_by_public_key p) < MAX_PEERS.
Proof.
  intros Hinv Hi. assert (Hlt : pidx < MAX_PEERS).
  { rewrite <- (pi_peers _ _ Hinv). by eapply lookup_lt_Some. }
  set (m := peers_by_public_key p).
  assert (Hin : forall i, i ∈ (map_to_list m).*2 -> exists k, m !! k = Some i).
  { intros i ([k j] & -> & Hk%elem_of_map_to_list)%list_elem_of_fmap. by exists k. }
  assert (Hocc : forall k i, m !! k = Some i -> i < MAX_PEERS /\ i <> pidx).
  { intros k i Hk. apply (pi_keys _ _ Hinv) in Hk as (e & He & _). unfold peer_at in He. split.
    - destruct (peers p !! i) eqn:E; [|done]. rewrite <- (pi_peers _ _ Hinv). by eapply lookup_lt_Some.
    - intros ->. by rewrite Hi in He. }
  assert (Hnd : NoDup (pidx :: (map_to_list m).*2)).
  { apply NoDup_cons. split.
    - intros [k Hk]%Hin. by apply Hocc in Hk as [_ []].
    - apply NoDup_fmap_2_strong; [|apply NoDup_map_to_list].
      intros [k i] [k' i'] Hk%elem_of_map_to_list Hk'%elem_of_map_to_list; cbn. intros <-.
      apply (pi_keys _ _ Hinv) in Hk as (e & He & <-), Hk' as (e' & He' & <-). congruence. }
  apply (NoDup_submseteq _ (seq 0 MAX_PEERS)) in Hnd; last first.
  { intros i [->|[k Hk]%Hin]%elem_of_cons; apply elem_of_seq; [lia|]. apply Hocc in Hk. lia. }
  apply submseteq_length in Hnd. rewrite length_seq in Hnd. cbn in Hnd.
  rewrite length_fmap, length_map_to_list in Hnd. exact Hnd.
Qed.

(** The pool after a successful installation. *)
Definition installed (pidx : PeerIdx) (e : PeerEntry) (p : Pool) : Pool :=
  mkPool (<[pidx := Some e]> (peers p)) (<[public_key e := pidx]> (peers_by_public_key p)) (slots p)
    (session_indices p)
    (match persistent_keepalive_due (sessions e) with Some d => tc_arm (timers p) d | None => timers p end).

Lemma install_peer_run o p pidx e :
  pool_inv o p ->
  install_peer pidx e p =
    match peers p !! pidx, find_peer p (public_key e) with
    | Some None, None => (Ok tt, installed pidx e p)
    | _, _ => (Failed InternalInvariant, p)
    end.
Proof.
  intros Hinv. unfold install_peer, find_peer. eff.
  destruct (peers p !! pidx) as [[e'|]|] eqn:E; eff; [done| |done].
  destruct (peers_by_public_key p !! public_key e) as [j|] eqn:Ej; cbn [bool_decide orb]; [done|].
  rewrite bool_decide_eq_false_2 by (by intros []). cbn [orb].
  rewrite bool_decide_eq_false_2 by (by intros []). unfold by_key_insert.
  pose proof (index_has_room o p pidx Hinv E) as Hsz.
  rewrite (proj2 (Nat.leb_gt _ _) Hsz), andb_false_r. eff. rewrite Ej. eff. cbn. rewrite E. eff.
  unfold installed, arm. by destruct (persistent_keepalive_due (sessions e)).
Qed.

Lemma peer_at_set p i x by_key ss si tm j :
  i < length (peers p) ->
  peer_at (mkPool (<[i := x]> (peers p)) by_key ss si tm) j = if decide (j = i) then x else peer_at p j.
Proof.
  intros Hi. unfold peer_at. cbn. case_decide as E.
  - subst. by rewrite list_lookup_insert_eq.
  - by rewrite list_lookup_insert_ne.
Qed.

Lemma installed_inv o p pidx e :
  pool_inv o p -> peers p !! pidx = Some None -> find_peer p (public_key e) = None ->
  linked (sessions e) = [] -> pool_inv o (installed pidx e p).
Proof.
  intros Hinv Hi Hk Hl. assert (Hlt : pidx < length (peers p)) by (by eapply lookup_lt_Some).
  assert (Hat : peer_at p pidx = None) by (unfold peer_at; by rewrite Hi).
  assert (Hp : forall j, peer_at (installed pidx e p) j = if decide (j = pidx) then Some e else peer_at p j).
  { intros j. by apply peer_at_set. }
  constructor.
  - cbn. rewrite length_insert. apply (pi_peers _ _ Hinv).
  - apply (pi_slots _ _ Hinv).
  - intros k i. rewrite Hp. cbn [peers_by_public_key installed]. rewrite lookup_insert_Some. split.
    + intros [[<- <-]|[Hne Hm]]; [rewrite decide_True by done; eauto|].
      apply (pi_keys _ _ Hinv) in Hm as (e' & He' & <-). rewrite decide_False by congruence. eauto.
    + case_decide as E; [subst; intros (? & [= <-] & <-); by left|].
      intros (e' & He' & <-). right. assert (Hm : peers_by_public_key p !! public_key e' = Some i).
      { apply (pi_keys _ _ Hinv). eauto. }
      split; [|done]. intros E'. unfold find_peer in Hk. congruence.
  - apply (pi_indices _ _ Hinv).
  - intros i e'. rewrite Hp. case_decide; [|apply (pi_links _ _ Hinv)].
    intros [= <-]. rewrite Hl. split; [constructor|].
    assert (Hnl : forall s, s ∉ linked (sessions e)) by (rewrite Hl; intros s; apply not_elem_of_nil).
    split; [|intros s Hs; by apply elem_of_nil in Hs]. intros s Hs. destruct (Hnl s).
    apply elem_of_linked. unfold ps_slots. rewrite Hs. set_solver.
  - intros s i Ho. destruct (pi_owned _ _ Hinv s i Ho) as (e' & He' & ?). exists e'. split; [|done].
    rewrite Hp. rewrite decide_False by congruence. done.
Qed.

(** The pool after a peer was taken. *)
Definition taken (pidx : PeerIdx) (e : PeerEntry) (p : Pool) : Pool :=
  mkPool (<[pidx := None]> (peers p)) (delete (public_key e) (peers_by_public_key p)) (slots p)
    (session_indices p) (timers p).

Lemma take_peer_run o p pidx :
  pool_inv o p ->
  take_peer pidx p =
    match peers p !! pidx with
    | None => (Failed InternalInvariant, p)
    | Some None => (Ok None, p)
    | Some (Some e) => (Ok (Some e), taken pidx e p)
    end.
Proof.
  intros Hinv. unfold take_peer. eff. destruct (peers p !! pidx) as [[e|]|] eqn:E; [|done..]. eff.
  assert (Hk : peers_by_public_key p !! public_key e = Some pidx).
  { apply (pi_keys _ _ Hinv). unfold peer_at. rewrite E. eauto. }
  rewrite Hk, bool_decide_eq_true_2 by done. cbn [negb]. eff.
  unfold peer_at at 1. cbn. by rewrite E.
Qed.

Lemma taken_inv o p pidx e :
  pool_inv o p -> peer_at p pidx = Some e -> linked (sessions e) = [] ->
  (forall s, o = Some s -> slot_owner p s <> Some pidx) -> pool_inv o (taken pidx e p).
Proof.
  intros Hinv He Hl Ho. assert (Hlt : pidx < length (peers p)).
  { unfold peer_at in He. destruct (peers p !! pidx) eqn:E; [|done]. by eapply lookup_lt_Some. }
  assert (Hp : forall j, peer_at (taken pidx e p) j = if decide (j = pidx) then None else peer_at p j).
  { intros j. by apply peer_at_set. }
  constructor.
  - cbn. rewrite length_insert. apply (pi_peers _ _ Hinv).
  - apply (pi_slots _ _ Hinv).
  - intros k i. rewrite Hp. cbn [peers_by_public_key taken]. rewrite lookup_delete_Some, (pi_keys _ _ Hinv). split.
    + intros [Hne (e' & He' & <-)]. rewrite decide_False by congruence. eauto.
    + case_decide as E; [by intros (? & ? & _)|]. intros (e' & He' & <-). split; [|eauto]. intros Ek.
      assert (peers_by_public_key p !! public_key e = Some pidx) by (apply (pi_keys _ _ Hinv); eauto).
      assert (peers_by_public_key p !! public_key e' = Some i) by (apply (pi_keys _ _ Hinv); eauto).
      congruence.
  - apply (pi_indices _ _ Hinv).
  - intros i e'. rewrite Hp. case_decide; [done|]. apply (pi_links _ _ Hinv).
  - intros s i Hs. destruct (pi_owned _ _ Hinv s i Hs) as (e' & He' & Hor). exists e'. split; [|done].
    rewrite Hp. case_decide as E; [|done]. subst. rewrite He in He'. injection He' as <-.
    rewrite Hl in Hor. destruct Hor as [Hx| ->]; [by apply elem_of_nil in Hx|]. by destruct (Ho s).
Qed.

(** ** Updates the invariant does not see, and writing a slot *)

Lemma pool_inv_timers o p tm : pool_inv o p -> pool_inv o (with_timers p tm).
Proof. intros [? ? ? ? ? ?]. by constructor. Qed.

(** [f] keeps the key and the links of an entry. *)
Definition link_preserving (f : PeerEntry -> PeerEntry) : Prop :=
  forall e, public_key (f e) = public_key e /\ linked (sessions (f e)) = linked (sessions e) /\
    handshake (sessions (f e)) = handshake (sessions e).

(** Writes of an entry that keep its key and its links. *)
Lemma pool_inv_update_at o p i f :
  (forall e, peer_at p i = Some e -> public_key (f e) = public_key e /\
     linked (sessions (f e)) = linked (sessions e) /\ handshake (sessions (f e)) = handshake (sessions e)) ->
  pool_inv o p -> pool_inv o (update_peer i f p).
Proof.
  intros Hf Hinv.
  assert (Hp : forall j e', peer_at (update_peer i f p) j = Some e' -> exists e, peer_at p j = Some e /\
    public_key e' = public_key e /\ linked (sessions e') = linked (sessions e) /\
    handshake (sessions e') = handshake (sessions e)).
  { intros j e'. rewrite peer_at_update. case_decide; [|eauto].
    intros (e & He & ->)%fmap_Some. exists e. split; [done|]. subst j. by apply Hf. }
  assert (Hp' : forall j e, peer_at p j = Some e -> exists e', peer_at (update_peer i f p) j = Some e' /\
    public_key e' = public_key e /\ linked (sessions e') = linked (sessions e)).
  { intros j e He. rewrite peer_at_update, He. case_decide; [|by exists e].
    exists (f e). split; [done|]. subst j. by destruct (Hf e He) as (? & ? & _). }
  constructor.
  - unfold update_peer. cbn. rewrite length_alter. apply (pi_peers _ _ Hinv).
  - apply (pi_slots _ _ Hinv).
  - intros k j. change (peers_by_public_key (update_peer i f p)) with (peers_by_public_key p).
    rewrite (pi_keys _ _ Hinv). split.
    + intros (e & He & <-). destruct (Hp' j e He) as (e' & ? & ? & _). eauto.
    + intros (e' & He' & <-). destruct (Hp j e' He') as (e & ? & ? & _). eauto.
  - apply (pi_indices _ _ Hinv).
  - intros j e' He'. destruct (Hp j e' He') as (e & He & _ & -> & ->). apply (pi_links _ _ Hinv j e He).
  - intros s j Ho. destruct (pi_owned _ _ Hinv s j Ho) as (e & He & Hl).
    destruct (Hp' j e He) as (e' & ? & _ & Hl'). exists e'. split; [done|]. by rewrite Hl'.
Qed.

Lemma pool_inv_update_peer o p i f : link_preserving f -> pool_inv o p -> pool_inv o (update_peer i f p).
Proof. intros Hf. apply pool_inv_update_at. intros e _. apply Hf. Qed.

(** Slot [s] takes content of the same owner and kind as it had, or is filled
    from free by a new owner and becomes the orphan. *)
Definition same_role (x y : Slot) : Prop :=
  owner_of x = owner_of y /\ local_index x = local_index y /\
  match x, y with
  | Free, Free | InitiatingSlot _, InitiatingSlot _ | Established _, Established _ => True
  | _, _ => False
  end.

Lemma pool_inv_same_role o p s x y :
  pool_inv o p -> slots p !! s = Some x -> same_role x y ->
  pool_inv o (with_slots p (<[s := y]> (slots p))).
Proof.
  intros Hinv Hx (Ho & Hl & Hk). assert (Hlt : s < length (slots p)) by (by eapply lookup_lt_Some).
  assert (Hown : forall t, slot_owner (with_slots p (<[s := y]> (slots p))) t = slot_owner p t).
  { intros t. unfold slot_owner. cbn. destruct (decide (t = s)) as [->|Hne].
    - by rewrite list_lookup_insert_eq, Hx.
    - by rewrite list_lookup_insert_ne. }
  assert (Hholds : forall i b t, holds p i b t -> holds (with_slots p (<[s := y]> (slots p))) i b t).
  { intros i b t. unfold holds. cbn. destruct (decide (t = s)) as [->|Hne].
    - rewrite list_lookup_insert_eq, Hx by done. cbn in *. destruct x, y; cbn in *; naive_solver.
    - by rewrite list_lookup_insert_ne. }
  constructor.
  - apply (pi_peers _ _ Hinv).
  - cbn. rewrite length_insert. apply (pi_slots _ _ Hinv).
  - apply (pi_keys _ _ Hinv).
  - intros idx t. cbn. rewrite (pi_indices _ _ Hinv). destruct (decide (t = s)) as [->|Hne].
    + rewrite list_lookup_insert_eq, Hx by done. cbn. by rewrite Hl.
    + by rewrite list_lookup_insert_ne.
  - intros i e He. destruct (pi_links _ _ Hinv i e He) as (H1 & H2 & H3). split; [done|]. split; eauto.
  - intros t i. rewrite Hown. apply (pi_owned _ _ Hinv).
Qed.

Lemma pool_inv_fill p s x i idx :
  pool_inv None p -> slots p !! s = Some Free -> owner_of x = Some i -> local_index x = Some idx ->
  session_indices p !! idx = None -> peer_at p i <> None ->
  pool_inv (Some s) (with_slots (with_indices p (<[idx := s]> (session_indices p))) (<[s := x]> (slots p))).
Proof.
  intros Hinv Hs Ho Hl Hidx Hp. assert (Hlt : s < length (slots p)) by (by eapply lookup_lt_Some).
  assert (Hnl : forall j e, peer_at p j = Some e -> s ∉ linked (sessions e)).
  { intros j e He Hin. assert (Hso := linked_owner _ _ _ _ _ Hinv He Hin). unfold slot_owner in Hso. by rewrite Hs in Hso. }
  constructor.
  - apply (pi_peers _ _ Hinv).
  - cbn. rewrite length_insert. apply (pi_slots _ _ Hinv).
  - apply (pi_keys _ _ Hinv).
  - intros y t. cbn. rewrite lookup_insert_Some, (pi_indices _ _ Hinv). destruct (decide (t = s)) as [->|Hne].
    + rewrite list_lookup_insert_eq, Hs by done. cbn. naive_solver.
    + rewrite list_lookup_insert_ne by done. split; [naive_solver|]. intros Hy. right. split; [|done].
      intros ->. apply (pi_indices _ _ Hinv) in Hy. congruence.
  - intros j e He. destruct (pi_links _ _ Hinv j e He) as (H1 & H2 & H3).
    assert (Hh : forall b t, t ∈ linked (sessions e) -> holds p j b t ->
      holds (with_slots (with_indices p (<[idx := s]> (session_indices p))) (<[s := x]> (slots p))) j b t).
    { intros b t Ht. unfold holds. cbn. rewrite list_lookup_insert_ne; [done|]. intros <-. by apply (Hnl j e). }
    split; [done|]. split.
    + intros t Ht. apply Hh; [|auto]. apply elem_of_linked. unfold ps_slots. rewrite Ht. set_solver.
    + intros t Ht Hne. auto.
  - intros t j. unfold slot_owner. cbn. destruct (decide (t = s)) as [->|Hne].
    + rewrite list_lookup_insert_eq by done. cbn. rewrite Ho. intros [= <-].
      destruct (peer_at p i) as [e|] eqn:He; [|done]. exists e. auto.
    + rewrite list_lookup_insert_ne by done. intros Hj. destruct (pi_owned _ _ Hinv t j Hj) as (e & He & [Hin|]); [|done].
      eauto.
Qed.

(** Linking the orphan completes the pool. *)
Lemma pool_inv_link p s i e ps b :
  pool_inv (Some s) p -> peer_at p i = Some e -> holds p i b s -> s ∉ linked (sessions e) ->
  linked ps ≡ₚ s :: linked (sessions e) ->
  handshake ps = (if b then Some s else handshake (sessions e)) -> (b = true -> handshake (sessions e) = None) ->
  pool_inv None (update_peer i (fun e => with_sessions e ps) p).
Proof.
  intros Hinv He Hh Hns Hl Hhs Hb.
  assert (Hp : forall j, peer_at (update_peer i (fun e => with_sessions e ps) p) j =
    if decide (j = i) then Some (with_sessions e ps) else peer_at p j).
  { intros j. rewrite peer_at_update. case_decide; [subst; by rewrite He|done]. }
  constructor.
  - unfold update_peer. cbn. rewrite length_alter. apply (pi_peers _ _ Hinv).
  - apply (pi_slots _ _ Hinv).
  - intros k j. change (peers_by_public_key (update_peer i _ p)) with (peers_by_public_key p).
    rewrite (pi_keys _ _ Hinv), Hp. case_decide; [subst; rewrite He; cbn; naive_solver|done].
  - apply (pi_indices _ _ Hinv).
  - intros j e'. rewrite Hp. case_decide as E; [|apply (pi_links _ _ Hinv)]. intros [= <-]. cbn.
    subst j. destruct (pi_links _ _ Hinv i e He) as (H1 & H2 & H3). split; [|split].
    + rewrite Hl. by constructor.
    + intros t Ht. rewrite Hhs in Ht. destruct b; [injection Ht as <-; exact Hh|by apply H2].
    + intros t Ht Hne. rewrite Hl in Ht. apply elem_of_cons in Ht as [->|Ht].
      * destruct b; [congruence|exact Hh].
      * apply H3; [done|]. destruct b; [rewrite Hb by done; done|congruence].
  - intros t j Ho. destruct (pi_owned _ _ Hinv t j Ho) as (e' & He' & Hor).
    rewrite Hp. case_decide as E.
    + subst j. rewrite He in He'. injection He' as <-. eexists. split; [done|]. left. cbn. rewrite Hl.
      apply elem_of_cons. destruct Hor as [Hor|[= ->]]; auto.
    + exists e'. split; [done|]. left. destruct Hor as [|Es]; [done|]. exfalso. injection Es as ->.
      change (slots p !! t ≫= owner_of = Some j) in Ho. unfold holds in Hh.
      destruct (slots p !! t) as [[|h|ses]|]; [done| | |done]; cbn in Ho; destruct Hh as [_ Hi]; congruence.
Qed.

(** The session in a slot. *)
Definition established (p : Pool) (sidx : SlotIdx) : option Session :=
  match slots p !! sidx with Some (Established session) => Some session | _ => None end.

Lemma established_Some p sidx sess : established p sidx = Some sess <-> slots p !! sidx = Some (Established sess).
Proof. unfold established. destruct (slots p !! sidx) as [[]|]; naive_solver. Qed.

(** [p'] has only sessions of [p], unchanged, and the same peers by key. *)
Definition pool_le (p p' : Pool) : Prop :=
  (forall s sess, established p' s = Some sess -> established p s = Some sess) /\
  peers_by_public_key p' = peers_by_public_key p /\
  (forall i, identity <$> peer_at p' i = identity <$> peer_at p i).

Lemma pool_le_refl p : pool_le p p.
Proof. by split. Qed.

Lemma pool_le_trans p q r : pool_le p q -> pool_le q r -> pool_le p r.
Proof. intros (H1 & H2 & H3) (H4 & H5 & H6). split; [auto|]. split; [congruence|]. intros i. by rewrite H6, H3. Qed.

Lemma pool_le_insert p p' s x :
  slots p' = <[s := x]> (slots p) -> (forall sess, x <> Established sess) ->
  peers_by_public_key p' = peers_by_public_key p ->
  (forall i, identity <$> peer_at p' i = identity <$> peer_at p i) -> pool_le p p'.
Proof.
  intros E Hx Hk Hi. split; [|done].
  intros t sess. rewrite !established_Some, E. intros [(-> & -> & _)|[_ ?]]%list_lookup_insert_Some; [|done].
  by destruct (Hx sess).
Qed.

Lemma update_peer_identity i f p j :
  (forall e, identity (f e) = identity e) -> identity <$> peer_at (update_peer i f p) j = identity <$> peer_at p j.
Proof.
  intros Hf. rewrite peer_at_update. case_decide; [|done]. destruct (peer_at p j); cbn; [by rewrite Hf|done].
Qed.

Lemma freed_le s p : pool_le p (freed s p).
Proof.
  apply (pool_le_insert _ _ s Free); [done..|apply freed_by_key|]. intros i. unfold freed.
  change (identity <$> peer_at (match slot_owner p s with
    | Some i => update_peer i (fun e => with_sessions e (unlink (sessions e) s)) p | None => p end) i = identity <$> peer_at p i).
  destruct (slot_owner p s); [by apply update_peer_identity|done].
Qed.

Lemma claimed_le s p : pool_le p (claimed s p).
Proof. unfold claimed. destruct (slots p !! s) as [[]|]; [apply pool_le_refl|apply freed_le..]. Qed.

(** ** Theorems *)

(** the slot pool's eviction policy: on a consistent pool allocation never
    errs; it returns the first free slot without touching anything when there
    is one, else reclaims exactly one victim in the order expired session, some
    peer's superseded session, least recently active session, leaving every
    other slot and every other link alone and the pool consistent; the current
    session of a pinned peer is reclaimed only after it expired; and it fails
    only when every slot is a running handshake or a pinned peer's live current
    session. *)
Theorem alloc_slot_policy (p : Pool) (now : Instant) :
  pool_inv None p ->
  exists r p', alloc_slot now p = (Ok r, p') /\ pool_inv None p' /\
  match r with
  | Some s =>
      victim now p s /\ slots p' !! s = Some Free /\ slot_owner p' s = None /\
      (slots p !! s = Some Free -> p' = p) /\
      (forall t, t <> s -> slots p' !! t = slots p !! t) /\
      (forall i, peer_at p' i = (fun e => with_sessions e (unlink (sessions e) s)) <$> peer_at p i) /\
      (forall i e, peer_at p i = Some e -> is_pinned e = true -> current (sessions e) = Some s ->
         exists sl, slots p !! s = Some sl /\ lapsed now sl = true)
  | None =>
      p' = p /\
      (forall s sl, slots p !! s = Some sl ->
         (exists h, sl = InitiatingSlot h) \/
         (exists session e, sl = Established session /\ lapsed now sl = false /\
            peer_at p (s_peer session) = Some e /\ is_pinned e = true /\ current (sessions e) = Some s))
  end.
Proof.
  intros Hinv. pose proof (alloc_slot_run None p now Hinv) as Hrun.
  destruct (alloc_slot now p) as [[[s|]|e] p']; cbn [fst snd] in Hrun; [..|done].
  - destruct Hrun as (Hs & Hv & ->). exists (Some s), (claimed s p). split; [done|].
    assert (Hs' : s < length (slots p)) by (by rewrite (pi_slots _ _ Hinv)).
    split. { destruct (claimed_inv None p s Hinv Hs) as [H|[_ ->]]; [|done]. exact H. }
    split; [done|]. split; [by apply claimed_free|].
    split. { unfold slot_owner. by rewrite claimed_free. }
    split. { intros E. unfold claimed. by rewrite E. }
    split; [intros t; apply claimed_other|]. split; [intros i; by apply (claimed_peer None)|].
    intros i e He Hpin Hc. assert (Ho : slot_owner p s = Some i).
    { eapply linked_owner; [done..|]. apply elem_of_linked. unfold ps_slots. rewrite Hc. set_solver. }
    destruct Hv as [E|sl Hf E Hl|j e' Hf He' Hp|sl Hf Hn E Hev Hmin].
    + unfold slot_owner in Ho. by rewrite E in Ho.
    + eauto.
    + exfalso. assert (Ho' : slot_owner p s = Some j).
      { eapply linked_owner; [done..|]. apply elem_of_linked. unfold ps_slots. rewrite Hp. set_solver. }
      rewrite Ho in Ho'. injection Ho' as <-. rewrite He in He'. injection He' as <-.
      destruct (pi_links _ _ Hinv i e He) as (Hnd & _).
      unfold linked, ps_slots in Hnd. rewrite Hc, Hp in Hnd. cbn in Hnd. apply NoDup_cons in Hnd as [Hx _].
      by destruct Hx; left.
    + exfalso. unfold slot_owner in Ho. rewrite E in Ho. unfold evictable in Hev.
      destruct sl as [| |session]; [done..|]. cbn in Ho. injection Ho as Ei.
      rewrite Ei, He, Hpin, bool_decide_eq_true_2 in Hev by done. done.
  - destruct Hrun as [-> Hall]. exists None, p. split; [done|]. split; [done|]. split; [done|].
    intros s sl Hsl. destruct (Hall s sl Hsl) as (Hf & Hl & He). destruct sl as [|h|session]; [done|eauto|].
    right. exists session. unfold evictable in He. destruct (peer_at p (s_peer session)) as [e|]; [|done].
    exists e. apply negb_false_iff, andb_true_iff in He as [Hp Hc]. apply bool_decide_eq_true in Hc. auto.
Qed.

(** freeing a slot of a consistent pool succeeds and is exact: the slot is
    free and owned by nobody, its receiver index stops resolving while every
    other index resolves as before, its owner no longer links it, no other peer,
    slot, key or timer changes, and the pool stays consistent. *)
Theorem free_slot_unlinks (p : Pool) (s : SlotIdx) :
  pool_inv None p -> s < MAX_SESSIONS ->
  exists p', free_slot s p = (Ok tt, p') /\ pool_inv None p' /\
    slots p' = <[s := Free]> (slots p) /\ timers p' = timers p /\
    (forall x, slot_for_session_index p' x =
       if bool_decide (slot_for_session_index p x = Some s) then None else slot_for_session_index p x) /\
    (forall i e, peer_at p' i = Some e -> s ∉ linked (sessions e)) /\
    (forall i, slot_owner p s <> Some i -> peer_at p' i = peer_at p i) /\
    (forall i, slot_owner p s = Some i ->
       peer_at p' i = (fun e => with_sessions e (unlink (sessions e) s)) <$> peer_at p i) /\
    (forall k, find_peer p' k = find_peer p k).
Proof.
  intros Hinv Hs. exists (freed s p). split; [by eapply free_slot_run|].
  pose proof (fun i => freed_peer None p s i Hinv) as Hp.
  split; [by apply (freed_inv None)|]. split; [done|]. split; [apply freed_timers|]. split; [|split; [|split; [|split]]].
  - intros x. unfold slot_for_session_index, slot_for, freed. cbn [session_indices with_slots with_indices].
    assert (Hi := pi_indices _ _ Hinv).
    destruct (slots p !! s ≫= local_index) as [y|] eqn:Ey.
    + apply Hi in Ey. destruct (decide (x = y)) as [->|Hne].
      * by rewrite lookup_delete_eq, bool_decide_eq_true_2.
      * rewrite lookup_delete_ne by done. rewrite bool_decide_eq_false_2; [done|].
        intros Hx. apply Hi in Ey, Hx. congruence.
    + rewrite bool_decide_eq_false_2; [done|]. intros Hx. apply Hi in Hx. congruence.
  - intros i e'. rewrite Hp. intros (e & _ & ->)%fmap_Some. apply unlink_not_linked.
  - intros i Hne. unfold freed. destruct (slot_owner p s) as [j|] eqn:Ho; [|done].
    change (peer_at (with_slots (with_indices ?q _) _) i) with (peer_at q i).
    rewrite peer_at_update. rewrite decide_False by congruence. done.
  - intros i _. apply Hp.
  - intros k. unfold find_peer. by rewrite freed_by_key.
Qed.

(** the peer table and its key index change together or not at all: a peer
    without linked slots is installed exactly when its place is empty and its
    key unknown, after which key and place find it and nothing else moved; a
    refusal changes nothing; and taking it out again restores the table. *)
Theorem install_peer_transactional (p : Pool) (pidx : PeerIdx) (e : PeerEntry) :
  pool_inv None p -> linked (sessions e) = [] ->
  let '(r, p') := install_peer pidx e p in
  pool_inv None p' /\
  (is_ok r = true <-> peers p !! pidx = Some None /\ find_peer p (public_key e) = None) /\
  (is_ok r = false -> p' = p) /\
  (is_ok r = true ->
     find_peer p' (public_key e) = Some pidx /\ peer_at p' pidx = Some e /\
     (forall k, k <> public_key e -> find_peer p' k = find_peer p k) /\
     (forall i, i <> pidx -> peer_at p' i = peer_at p i) /\
     take_peer pidx p' = (Ok (Some e), with_timers p (timers p'))).
Proof.
  intros Hinv Hl. rewrite (install_peer_run None) by done.
  destruct (peers p !! pidx) as [[e'|]|] eqn:Ei; [split; [done|]; naive_solver| |split; [done|]; naive_solver].
  destruct (find_peer p (public_key e)) as [j|] eqn:Ek; [split; [done|]; naive_solver|].
  assert (Hlt : pidx < length (peers p)) by (by eapply lookup_lt_Some).
  assert (Hinv' := installed_inv None p pidx e Hinv Ei Ek Hl).
  split; [done|]. split; [done|]. split; [done|]. intros _.
  split; [apply lookup_insert_eq|].
  split. { unfold installed. rewrite peer_at_set by done. by rewrite decide_True. }
  split. { intros k Hk. unfold find_peer. cbn. by rewrite lookup_insert_ne. }
  split. { intros i Hi. unfold installed. rewrite peer_at_set by done. by rewrite decide_False. }
  rewrite (take_peer_run None) by done. cbn [installed peers].
  rewrite list_lookup_insert_eq by done. f_equal. unfold taken, installed, with_timers.
  cbn [peers peers_by_public_key slots session_indices timers].
  rewrite list_insert_insert_eq, list_insert_id by done.
  by rewrite delete_insert_id.
Qed.

End Pool.

(** ** Concrete pools *)

Definition demo_peer : @PeerEntry CidrModel.ops :=
  @peer_new CidrModel.ops (replicate 32 7%Z) Pinned (replicate 32 0%Z) None None AllowAll (Some 25000%Z)
    (CidrModel.mk (V4 167772160) 8 eq_refl) 5%Z.

Lemma alloc_slot_policy_witness :
  fst (@alloc_slot CidrModel.ops 7%Z (@pool_init CidrModel.ops 2 2)) = Ok (Some 0).
Proof.
  destruct (@alloc_slot_policy CidrModel.ops 2 2 (pool_init 2 2) 7%Z) as (r & p' & E & _);
    [apply pool_init_inv|].
  vm_compute. reflexivity.
Defined.

Lemma free_slot_unlinks_witness :
  exists p', @free_slot CidrModel.ops 1 (pool_init 2 2) = (Ok tt, p') /\ slots p' = [Free; Free].
Proof.
  destruct (@free_slot_unlinks CidrModel.ops 2 2 (pool_init 2 2) 1) as (p' & E & _ & Hs & _);
    [apply pool_init_inv|lia|].
  exists p'. split; [exact E|]. rewrite Hs. reflexivity.
Defined.

Lemma install_peer_transactional_witness :
  let '(r, p') := @install_peer CidrModel.ops 2 1 demo_peer (pool_init 2 2) in
  is_ok r = true /\ find_peer p' (replicate 32 7%Z) = Some 1 /\ timers p' = mkTimerCache (Some 25005%Z).
Proof.
  pose proof (@install_peer_transactional CidrModel.ops 2 2 (pool_init 2 2) 1 demo_peer
                (pool_init_inv 2 2) eq_refl) as H.
  assert (E : is_ok (fst (@install_peer CidrModel.ops 2 1 demo_peer (pool_init 2 2))) = true) by (vm_compute; reflexivity).
  assert (T : timers (snd (@install_peer CidrModel.ops 2 1 demo_peer (pool_init 2 2))) = mkTimerCache (Some 25005%Z))
    by (vm_compute; reflexivity).
  destruct (@install_peer CidrModel.ops 2 1 demo_peer (pool_init 2 2)) as [r p']. cbn [fst snd] in E, T.
  destruct H as (_ & _ & _ & H). split; [done|]. split; [|done]. by apply H.
Defined.
