(* ===== verification/Deadlines.v ===== *)
(** * Live deadlines ([poll_at] and [scan_deadlines] of [microtun-core/src/lib.rs])

    The deadlines the engine's timers watch, as a list with multiplicity, and the
    relation an operation stands in to them: it may drop deadlines, and every one
    it adds is later than [now] and covered by the timer cache. *)

From S2P Require Import Prelude Clock Constants Cidr Session Peer Pool.
Local Open Scope Z_scope.

Section Advance.

(** From cache [t] and live deadlines [l] to [t'] and [l'], adding nothing before
    [soon]. *)
Definition adv_on (soon : Instant) (t t' : TimerCache) (l l' : list Instant) : Prop :=
  (forall d, at_or_before (tc_get t) d -> at_or_before (tc_get t') d) /\
  exists news, l' ⊆+ news ++ l /\ Forall (fun n => at_or_before (tc_get t') n /\ soon <= n) news.

Lemma adv_refl soon t l : adv_on soon t t l l.
Proof. split; [done|]. exists []. done. Qed.

Lemma adv_trans soon t1 t2 t3 l1 l2 l3 :
  adv_on soon t1 t2 l1 l2 -> adv_on soon t2 t3 l2 l3 -> adv_on soon t1 t3 l1 l3.
Proof.
  intros (Hm1 & n1 & Hl1 & Hf1) (Hm2 & n2 & Hl2 & Hf2). split; [auto|]. exists (n2 ++ n1). split.
  - rewrite <- app_assoc. etrans; [exact Hl2|]. by apply submseteq_skips_l.
  - apply Forall_app. split; [done|]. eapply Forall_impl; [exact Hf1|]. intros n [? ?]. auto.
Qed.

(** Only dropping deadlines. *)
Lemma adv_drop soon t l l' : l' ⊆+ l -> adv_on soon t t l l'.
Proof. intros H. split; [done|]. by exists []. Qed.

(** Arming covers. *)
Lemma adv_arm soon t l l' d :
  l' ⊆+ d :: l -> soon <= d -> adv_on soon t (tc_arm t d) l l'.
Proof.
  intros Hl Hd. split.
  - intros x Hx. rewrite tc_arm_get. apply min_deadline_spec. by left.
  - exists [d]. split; [done|]. constructor; [|done]. rewrite tc_arm_get. split; [|done].
    apply min_deadline_spec. right. cbn. lia.
Qed.

Lemma adv_arm_only soon t l d : adv_on soon t (tc_arm t d) l l.
Proof.
  split; [|by exists []]. intros x Hx. rewrite tc_arm_get. apply min_deadline_spec. by left.
Qed.

Lemma adv_app soon t t' l l' r : adv_on soon t t' l l' -> adv_on soon t t' (l ++ r) (l' ++ r).
Proof.
  intros (Hm & n & Hl & Hf). split; [done|]. exists n. split; [|done]. rewrite app_assoc. by apply submseteq_skips_r.
Qed.

Lemma adv_perm soon t t' l1 l1' l2 l2' :
  l1 ≡ₚ l2 -> l1' ≡ₚ l2' -> adv_on soon t t' l2 l2' -> adv_on soon t t' l1 l1'.
Proof. intros H1 H2 (Hm & n & Hl & Hf). split; [done|]. exists n. split; [|done]. rewrite H2. etrans; [exact Hl|]. by rewrite H1. Qed.

Lemma adv_weaken soon soon' t t' l l' : soon' <= soon -> adv_on soon t t' l l' -> adv_on soon' t t' l l'.
Proof.
  intros Hs (Hm & n & Hl & Hf). split; [done|]. exists n. split; [done|].
  eapply Forall_impl; [exact Hf|]. intros x [? ?]. split; [done|lia].
Qed.

(** The cache stays a lower bound. *)
Lemma adv_sound soon t t' l l' : adv_on soon t t' l l' -> tc_sound t l -> tc_sound t' l'.
Proof.
  intros (Hm & n & Hl & Hf) Hs. unfold tc_sound in *.
  rewrite Forall_forall in *. intros d Hd. apply (elem_of_submseteq _ _ _ Hd), elem_of_app in Hl as [Hn|Hn].
  - by apply Hf.
  - by apply Hm, Hs.
Qed.

(** Deadlines due at [now]. *)
Definition due (now : Instant) (l : list Instant) : list Instant := retain (fun d => d <=? now) l.

Lemma due_submseteq now l l' : l ⊆+ l' -> due now l ⊆+ due now l'.
Proof.
  induction 1; cbn [due retain] in *; [done| | | |by etrans]; repeat case_match; try done;
    first [by constructor|by apply submseteq_cons].
Qed.

Lemma due_app now l l' : due now (l ++ l') = due now l ++ due now l'.
Proof. unfold due. induction l as [|d l IH]; [done|]. cbn. destruct (d <=? now); cbn; by rewrite IH. Qed.

Lemma due_none now l : Forall (fun d => now < d) l -> due now l = [].
Proof.
  unfold due. induction 1 as [|d l Hd _ IH]; [done|]. cbn. destruct (Z.leb_spec d now); [lia|done].
Qed.

Lemma adv_due soon t t' l l' now : adv_on soon t t' l l' -> now < soon -> (length (due now l') <= length (due now l))%nat.
Proof.
  intros (_ & n & Hl & Hf) Hs. apply submseteq_length. apply (due_submseteq now) in Hl.
  rewrite due_app, (due_none now n) in Hl; [done|]. eapply Forall_impl; [exact Hf|]. intros x [_ ?]. cbn in *. lia.
Qed.

End Advance.

(** Updates of a table of entries with deadlines. *)
Lemma bind_insert {A B} (f : A -> list B) l i x y (news : list B) :
  l !! i = Some x -> f y ⊆+ news ++ f x -> (<[i := y]> l ≫= f) ⊆+ news ++ (l ≫= f).
Proof.
  intros Hi Hf. rewrite insert_take_drop by (by eapply lookup_lt_Some).
  assert (E : l = take i l ++ x :: drop (S i) l) by (symmetry; by apply take_drop_middle).
  rewrite E at 3. rewrite !bind_app, !bind_cons. etrans.
  { apply submseteq_skips_l, submseteq_skips_r, Hf. }
  solve_submseteq.
Qed.

Lemma alter_as_insert {A} (f : A -> A) (i : nat) (l : list A) :
  alter f i l = match l !! i with Some x => <[i := f x]> l | None => l end.
Proof.
  apply list_eq. intros j. destruct (decide (j = i)) as [->|Hne].
  - rewrite list_lookup_alter_eq. destruct (l !! i) as [x|] eqn:E; cbn; [|done].
    by rewrite list_lookup_insert_eq by by eapply lookup_lt_Some.
  - rewrite list_lookup_alter_ne by done. destruct (l !! i); [by rewrite list_lookup_insert_ne|done].
Qed.

Section Deadlines.
Context {CR : Cidr}.

Definition session_deadlines (ps : PeerSessions) : list Instant :=
  omap id [keepalive_due ps; persistent_keepalive_due ps; reply_due ps; attempt_deadline ps].
Definition peer_deadlines (e : option PeerEntry) : list Instant :=
  match e with Some e => session_deadlines (sessions e) | None => [] end.
Definition slot_deadlines (s : Slot) : list Instant :=
  match s with
  | Free => []
  | InitiatingSlot h => [retry_at h]
  | Established session => [instant_add (created session) REJECT_AFTER_TIME]
  end.

(** The deadlines of the two tables. *)
Definition pool_live (p : Pool) : list Instant := (peers p ≫= peer_deadlines) ++ (slots p ≫= slot_deadlines).

Definition pool_adv (now : Instant) (p p' : Pool) : Prop :=
  adv_on (instant_add now 1) (timers p) (timers p') (pool_live p) (pool_live p').

Lemma pool_adv_refl now p : pool_adv now p p.
Proof. apply adv_refl. Qed.
Lemma pool_adv_trans now p q r : pool_adv now p q -> pool_adv now q r -> pool_adv now p r.
Proof. apply adv_trans. Qed.

(** Same tables and cache. *)
Lemma pool_adv_same now p p' :
  peers p' = peers p -> slots p' = slots p -> timers p' = timers p -> pool_adv now p p'.
Proof. intros Hp Hs Ht. unfold pool_adv, pool_live. rewrite Hp, Hs, Ht. apply adv_refl. Qed.

Lemma peer_at_lookup (p : Pool) i e : peer_at p i = Some e <-> peers p !! i = Some (Some e).
Proof. unfold peer_at. destruct (peers p !! i) as [[]|]; naive_solver. Qed.

Lemma alter_peers_live f pidx ps news :
  (forall e, ps !! pidx = Some (Some e) -> session_deadlines (sessions (f e)) ⊆+ news ++ session_deadlines (sessions e)) ->
  (alter (fmap f) pidx ps ≫= peer_deadlines) ⊆+ news ++ (ps ≫= peer_deadlines).
Proof.
  intros Hf. rewrite alter_as_insert. destruct (ps !! pidx) as [[e|]|] eqn:E.
  - apply (bind_insert _ _ _ (Some e)); [done|by apply Hf].
  - apply (bind_insert _ _ _ None); [done|]. apply submseteq_nil_l.
  - by apply submseteq_inserts_l.
Qed.

(** Writes of one peer entry. *)
Lemma update_peer_live f pidx p news :
  (forall e, peer_at p pidx = Some e -> session_deadlines (sessions (f e)) ⊆+ news ++ session_deadlines (sessions e)) ->
  pool_live (update_peer pidx f p) ⊆+ news ++ pool_live p.
Proof.
  intros Hf. unfold pool_live. cbn. rewrite app_assoc. apply submseteq_skips_r, alter_peers_live.
  intros e He. by apply Hf, peer_at_lookup.
Qed.

Lemma put_slot_live p s x y news :
  slots p !! s = Some x -> slot_deadlines y ⊆+ news ++ slot_deadlines x ->
  pool_live (with_slots p (<[s := y]> (slots p))) ⊆+ news ++ pool_live p.
Proof.
  intros Hs Hy. unfold pool_live. cbn. etrans; [apply submseteq_skips_l, (bind_insert _ _ _ _ _ _ Hs Hy)|]. solve_submseteq.
Qed.

Lemma unlink_deadlines ps s : session_deadlines (unlink ps s) ⊆+ session_deadlines ps.
Proof.
  unfold unlink. destruct (bool_decide _); unfold session_deadlines; cbn; [|done].
  destruct (keepalive_due ps), (persistent_keepalive_due ps), (reply_due ps), (attempt_deadline ps); cbn; solve_submseteq.
Qed.

Lemma freed_live s p : pool_live (freed s p) ⊆+ pool_live p.
Proof.
  unfold freed, pool_live. cbn. apply submseteq_app.
  - destruct (slot_owner p s) as [i|]; [|done]. apply (alter_peers_live _ _ _ []). intros e _. apply unlink_deadlines.
  - destruct (slots p !! s) as [x|] eqn:E.
    + apply (bind_insert slot_deadlines _ _ x Free []); [done|]. apply submseteq_nil_l.
    + by rewrite list_insert_ge by by apply lookup_ge_None.
Qed.

Lemma freed_adv now s p : pool_adv now p (freed s p).
Proof. unfold pool_adv. rewrite freed_timers. apply adv_drop, freed_live. Qed.

Lemma claimed_adv now s p : pool_adv now p (claimed s p).
Proof. unfold claimed. destruct (slots p !! s) as [[]|]; [apply pool_adv_refl|apply freed_adv..]. Qed.

(** Both relations at once: what the send path keeps of the pool. *)
Definition pool_step (now : Instant) (p p' : Pool) : Prop := pool_le p p' /\ pool_adv now p p'.

Lemma pool_step_refl now p : pool_step now p p.
Proof. split; [apply pool_le_refl|apply pool_adv_refl]. Qed.
Lemma pool_step_trans now p q r : pool_step now p q -> pool_step now q r -> pool_step now p r.
Proof. intros [] []. split; [by eapply pool_le_trans|by eapply pool_adv_trans]. Qed.
Lemma freed_step now s p : pool_step now p (freed s p).
Proof. split; [apply freed_le|apply freed_adv]. Qed.
Lemma claimed_step now s p : pool_step now p (claimed s p).
Proof. split; [apply claimed_le|apply claimed_adv]. Qed.

End Deadlines.
