(* ===== verification/Rotation.v ===== *)
(** * Pool steps of session rotation

    How the handlers that install, confirm or replace a session move the tables of
    [Pool.v] from one consistent state to the next. *)

From S2P Require Import Prelude Clock Constants Effect Messages Cidr Session SessionIndex.
From S2P Require Import Peer Pool Deadlines.
Local Open Scope nat_scope.

Section Rotation.
Context {CR : Cidr} (MAX_PEERS MAX_SESSIONS : nat).
Notation pool_inv := (pool_inv MAX_PEERS MAX_SESSIONS).

Lemma update_peer_const i f g p e :
  peer_at p i = Some e -> g e = f e -> update_peer i g p = update_peer i f p.
Proof.
  intros He Hg. unfold update_peer. f_equal. apply list_alter_ext; [|done].
  intros x Hx. apply peer_at_lookup in He. rewrite He in Hx. injection Hx as <-. cbn. by rewrite Hg.
Qed.

Lemma update_peer_twice i f g p : update_peer i g (update_peer i f p) = update_peer i (fun e => g (f e)) p.
Proof.
  unfold update_peer, with_peers. cbn. f_equal. rewrite list_alter_alter_eq. apply list_alter_ext; [|done].
  intros [x|] _; done.
Qed.

(** Linking the orphan, with whatever else the entry's write changes. *)
Lemma pool_inv_link_at p s i e f b :
  pool_inv (Some s) p -> peer_at p i = Some e -> holds p i b s -> s ∉ linked (sessions e) ->
  public_key (f e) = public_key e -> linked (sessions (f e)) ≡ₚ s :: linked (sessions e) ->
  handshake (sessions (f e)) = (if b then Some s else handshake (sessions e)) ->
  (b = true -> handshake (sessions e) = None) ->
  pool_inv None (update_peer i f p).
Proof.
  intros Hinv He Hh Hns Hk Hl Hhs Hb.
  pose proof (pool_inv_link _ _ p s i e (sessions (f e)) b Hinv He Hh Hns Hl Hhs Hb) as H.
  set (q := update_peer i (fun x => with_sessions x (sessions (f e))) p) in *.
  assert (E : update_peer i f p = update_peer i (fun _ => f e) q).
  { unfold q. rewrite update_peer_twice. symmetry. by apply (update_peer_const _ _ _ _ e). }
  rewrite E. apply pool_inv_update_at; [|exact H]. intros x Hx. unfold q in Hx.
  rewrite peer_at_update, decide_True, He in Hx by done. injection Hx as <-. by cbn.
Qed.

(** A linked slot becomes an established session of the same owner and index, and
    its entry is rewritten so that exactly the slot of [old] drops out. *)
Lemma pool_inv_relink p s i e f x y old :
  pool_inv None p -> peer_at p i = Some e -> slots p !! s = Some x -> s ∈ linked (sessions e) ->
  owner_of y = Some i -> local_index y = local_index x -> (exists sess, y = Established sess) ->
  public_key (f e) = public_key e ->
  linked (sessions e) ≡ₚ linked (sessions (f e)) ++ opt_list old -> s ∈ linked (sessions (f e)) ->
  (forall t, handshake (sessions (f e)) = Some t -> t <> s /\ handshake (sessions e) = Some t) ->
  (forall t, t ∈ linked (sessions (f e)) -> t <> s -> handshake (sessions (f e)) <> Some t -> handshake (sessions e) <> Some t) ->
  pool_inv old (update_peer i f (with_slots p (<[s := y]> (slots p)))).
Proof.
  intros Hinv He Hx Hin Hoy Hly (sess & Ey) Hk Hperm Hs' Hh1 Hh2.
  assert (Hlt : s < length (slots p)) by (by eapply lookup_lt_Some).
  set (q := with_slots p (<[s := y]> (slots p))).
  assert (Hpeer : forall j, peer_at (update_peer i f q) j = if decide (j = i) then Some (f e) else peer_at p j).
  { intros j. rewrite peer_at_update. change (peer_at q j) with (peer_at p j). case_decide; [subst; by rewrite He|done]. }
  destruct (pi_links _ _ _ _ Hinv i e He) as (Hnd & Hl1 & Hl2).
  assert (Hsub : forall t, t ∈ linked (sessions (f e)) -> t ∈ linked (sessions e)).
  { intros t Ht. rewrite Hperm. apply elem_of_app. by left. }
  assert (Hox : slot_owner p s = Some i) by (by eapply linked_owner).
  assert (Howner : forall t, slot_owner (update_peer i f q) t = slot_owner p t).
  { intros t. unfold slot_owner, q. cbn. destruct (decide (t = s)) as [->|].
    - rewrite list_lookup_insert_eq by done. cbn. rewrite Hoy. symmetry. exact Hox.
    - by rewrite list_lookup_insert_ne. }
  assert (Hother : forall j b t, t <> s -> holds p j b t -> holds (update_peer i f q) j b t).
  { intros j b t Hne. unfold holds, q. cbn. by rewrite list_lookup_insert_ne. }
  constructor.
  - unfold update_peer. cbn. rewrite length_alter. apply (pi_peers _ _ _ _ Hinv).
  - cbn. rewrite length_insert. apply (pi_slots _ _ _ _ Hinv).
  - intros k j. change (peers_by_public_key (update_peer i f q)) with (peers_by_public_key p).
    rewrite (pi_keys _ _ _ _ Hinv), Hpeer. case_decide; [subst; rewrite He; naive_solver|done].
  - intros z t. change (session_indices (update_peer i f q)) with (session_indices p).
    rewrite (pi_indices _ _ _ _ Hinv). cbn. destruct (decide (t = s)) as [->|].
    + rewrite list_lookup_insert_eq, Hx by done. cbn. by rewrite Hly.
    + by rewrite list_lookup_insert_ne.
  - intros j e'. rewrite Hpeer. case_decide as E.
    + intros [= <-]. subst j. split; [|split].
      * rewrite Hperm in Hnd. by apply NoDup_app in Hnd as [? _].
      * intros t Ht. destruct (Hh1 t Ht) as [Hne Ht']. apply Hother; auto.
      * intros t Ht Hne. destruct (decide (t = s)) as [->|Hts].
        -- unfold holds, q. cbn. rewrite list_lookup_insert_eq by done. rewrite Ey in Hoy |- *. cbn in *.
           split; [done|congruence].
        -- apply Hother; auto.
    + intros He'. destruct (pi_links _ _ _ _ Hinv j e' He') as (H1 & H2 & H3).
      assert (Hnots : s ∉ linked (sessions e')).
      { intros H. pose proof (linked_owner _ _ _ _ _ _ _ Hinv He' H). congruence. }
      split; [done|]. split.
      * intros t Ht. apply Hother; [|auto]. intros ->. apply Hnots, elem_of_linked. unfold ps_slots.
        rewrite Ht. set_solver.
      * intros t Ht Hne. apply Hother; [|auto]. by intros ->.
  - intros t j. rewrite Howner. intros Ho. destruct (pi_owned _ _ _ _ Hinv t j Ho) as (e' & He' & Hor).
    destruct Hor as [Hor|Hor]; [|done]. rewrite Hpeer. case_decide as E; [|eauto].
    subst j. rewrite He in He'. injection He' as <-. exists (f e). split; [done|].
    rewrite Hperm in Hor. apply elem_of_app in Hor as [|Hor]; [by left|]. right.
    destruct old; cbn in Hor; [by apply list_elem_of_singleton in Hor as ->|by apply elem_of_nil in Hor].
Qed.

(** A session replaced in its slot under a fresh index. *)
Lemma pool_inv_reindex o p s x y old new :
  pool_inv o p -> slots p !! s = Some (Established x) -> s_local_index x = old ->
  s_peer y = s_peer x -> s_local_index y = new ->
  (new = old \/ session_indices p !! new = None) ->
  pool_inv o (with_slots (with_indices p (<[new := s]> (delete old (session_indices p))))
                (<[s := Established y]> (slots p))).
Proof.
  intros Hinv Hx Hlx Hp Hly Hnew. assert (Hlt : s < length (slots p)) by (by eapply lookup_lt_Some).
  set (q := with_slots _ _).
  assert (Howner : forall t, slot_owner q t = slot_owner p t).
  { intros t. unfold slot_owner, q. cbn. destruct (decide (t = s)) as [->|].
    - rewrite list_lookup_insert_eq, Hx by done. cbn. by rewrite Hp.
    - by rewrite list_lookup_insert_ne. }
  assert (Hholds : forall i b t, holds p i b t -> holds q i b t).
  { intros i b t. unfold holds, q. cbn. destruct (decide (t = s)) as [->|].
    - rewrite list_lookup_insert_eq, Hx by done. by rewrite Hp.
    - by rewrite list_lookup_insert_ne. }
  constructor.
  - apply (pi_peers _ _ _ _ Hinv).
  - cbn. rewrite length_insert. apply (pi_slots _ _ _ _ Hinv).
  - apply (pi_keys _ _ _ _ Hinv).
  - intros z t. unfold q. cbn.
    assert (Hold : session_indices p !! old = Some s) by (apply (pi_indices _ _ _ _ Hinv); rewrite Hx; cbn; congruence).
    destruct (decide (z = new)) as [->|Hz].
    + rewrite lookup_insert_eq. destruct (decide (t = s)) as [->|Ht].
      * rewrite list_lookup_insert_eq by done. cbn. naive_solver.
      * rewrite list_lookup_insert_ne by done. split; [congruence|]. intros Hi. apply (pi_indices _ _ _ _ Hinv) in Hi.
        destruct Hnew as [->|Hn]; congruence.
    + rewrite lookup_insert_ne by done. destruct (decide (z = old)) as [->|Hzo].
      * rewrite lookup_delete_eq. split; [done|]. destruct (decide (t = s)) as [->|Ht].
        -- rewrite list_lookup_insert_eq by done. cbn. naive_solver.
        -- rewrite list_lookup_insert_ne by done. intros Hi. apply (pi_indices _ _ _ _ Hinv) in Hi. congruence.
      * rewrite lookup_delete_ne by done. rewrite (pi_indices _ _ _ _ Hinv). destruct (decide (t = s)) as [->|Ht].
        -- rewrite list_lookup_insert_eq, Hx by done. cbn. split; congruence.
        -- by rewrite list_lookup_insert_ne.
  - intros i e He. destruct (pi_links _ _ _ _ Hinv i e He) as (H1 & H2 & H3). split; [done|]. split; eauto.
  - intros t i. rewrite Howner. apply (pi_owned _ _ _ _ Hinv).
Qed.

(** The deadlines of an installed session: its own expiry is armed with it. *)
Lemma installed_adv now p m s x sess i f :
  slots p !! s = Some x -> created sess = now ->
  (forall e, session_deadlines (sessions (f e)) ⊆+ session_deadlines (sessions e)) ->
  pool_adv now p
    (with_timers (update_peer i f (with_slots (with_indices p m) (<[s := Established sess]> (slots p))))
       (tc_arm (timers p) (instant_add now REJECT_AFTER_TIME))).
Proof.
  intros Hs Hcr Hf. apply adv_arm.
  - change (pool_live (with_timers ?q _)) with (pool_live q).
    etrans; [apply (update_peer_live _ _ _ []); intros e _; apply Hf|].
    change (pool_live (with_slots (with_indices p m) ?ss)) with (pool_live (with_slots p ss)).
    apply (put_slot_live p s x (Established sess) [_] Hs). cbn. rewrite Hcr. apply submseteq_skip, submseteq_nil_l.
  - unfold instant_add, saturating_add, sat_add. change REJECT_AFTER_TIME with 180000%Z. lia.
Qed.

(** A slot freed while its owner no longer links it. *)
Lemma free_orphan p old :
  pool_inv old p ->
  let p' := match old with Some s => snd (free_slot s p) | None => p end in
  pool_inv None p' /\ (forall now, pool_step now p p') /\
  (forall t, old <> Some t -> slots p' !! t = slots p !! t).
Proof.
  intros Hinv. destruct old as [s|]; [|split; [done|split; [intros; apply pool_step_refl|done]]].
  assert (Hs : s < MAX_SESSIONS \/ MAX_SESSIONS <= s) by lia. destruct Hs as [Hs|Hs].
  - cbn zeta. rewrite (free_slot_run _ _ (Some s) p s Hinv Hs). cbn [snd].
    split; [|split; [intros; apply freed_step|]].
    + pose proof (freed_inv _ _ (Some s) p s Hinv Hs) as H. unfold drop_slot in H.
      by rewrite bool_decide_eq_true_2 in H.
    + intros t Ht. rewrite freed_slots, list_lookup_insert_ne by congruence. done.
  - assert (Hn : slots p !! s = None) by (apply lookup_ge_None; rewrite (pi_slots _ _ _ _ Hinv); lia).
    cbn zeta. unfold free_slot. rewrite bind_demand, Hn. cbn [snd].
    split; [|split; [intros; apply pool_step_refl|done]].
    destruct Hinv as [H1 H2 H3 H4 H5 H6]. split; try done. intros t i Ho.
    destruct (H6 t i Ho) as (e & He & [Hin|[= ->]]); [eauto|]. unfold slot_owner in Ho. by rewrite Hn in Ho.
Qed.

Lemma free_slot_any p s :
  pool_inv None p -> pool_inv None (snd (free_slot s p)) /\ forall now, pool_step now p (snd (free_slot s p)).
Proof.
  intros Hinv. assert (Hs : s < MAX_SESSIONS \/ MAX_SESSIONS <= s) by lia. destruct Hs as [Hs|Hs].
  - rewrite (free_slot_run _ _ None p s Hinv Hs). split; [apply (freed_inv _ _ None p s Hinv Hs)|intros; apply freed_step].
  - unfold free_slot. rewrite bind_demand, (proj2 (lookup_ge_None _ _)) by (rewrite (pi_slots _ _ _ _ Hinv); lia).
    split; [done|intros; apply pool_step_refl].
Qed.

Lemma alloc_slot_any p now :
  pool_inv None p ->
  pool_inv None (snd (alloc_slot now p)) /\ pool_step now p (snd (alloc_slot now p)) /\
  match fst (alloc_slot now p) with
  | Ok (Some s) => slots (snd (alloc_slot now p)) !! s = Some Free /\
      forall i e, peer_at p i = Some e -> exists e', peer_at (snd (alloc_slot now p)) i = Some e' /\
        sessions e' = unlink (sessions e) s
  | _ => True
  end.
Proof.
  intros Hinv. pose proof (alloc_slot_run _ _ None p now Hinv) as H.
  destruct (alloc_slot now p) as [[[s|]|e] p']; cbn [fst snd] in *; [| |done].
  - destruct H as (Hs & _ & ->). assert (s < length (slots p)) by (by rewrite (pi_slots _ _ _ _ Hinv)).
    split; [|split; [apply claimed_step|split; [by apply claimed_free|]]].
    + destruct (claimed_inv _ _ None p s Hinv Hs) as [Hi|[_ ->]]; [exact Hi|done].
    + intros i e He. rewrite (claimed_peer _ _ None p s i Hinv), He. eexists. split; [reflexivity|done].
  - destruct H as [-> _]. split; [done|]. split; [apply pool_step_refl|done].
Qed.

Lemma indices_size o p : pool_inv o p -> size (session_indices p) <= MAX_SESSIONS.
Proof.
  intros Hinv. set (l := (map_to_list (session_indices p)).*2).
  assert (Hnd : NoDup l).
  { apply NoDup_fmap_2_strong; [|apply NoDup_map_to_list].
    intros [x s] [y t] Hx%elem_of_map_to_list Hy%elem_of_map_to_list. cbn. intros ->.
    apply (pi_indices _ _ _ _ Hinv) in Hx, Hy. congruence. }
  assert (Hsub : l ⊆ seq 0 MAX_SESSIONS).
  { intros s ([x t] & -> & Hx%elem_of_map_to_list)%list_elem_of_fmap. cbn. apply elem_of_seq. split; [lia|].
    apply (pi_indices _ _ _ _ Hinv) in Hx. destruct (slots p !! t) eqn:E; [|done].
    apply lookup_lt_Some in E. rewrite (pi_slots _ _ _ _ Hinv) in E. lia. }
  apply (NoDup_submseteq _ _ Hnd), submseteq_length in Hsub.
  unfold l in Hsub. by rewrite length_fmap, length_seq, length_map_to_list in Hsub.
Qed.

(** The unconfirmed session of an entry is established in its slot. *)
Lemma next_established o p i e s :
  pool_inv o p -> peer_at p i = Some e -> next (sessions e) = Some s ->
  s ∈ linked (sessions e) /\ handshake (sessions e) <> Some s /\
  exists sess, slots p !! s = Some (Established sess) /\ s_peer sess = i.
Proof.
  intros Hinv He Hn. destruct (pi_links _ _ _ _ Hinv i e He) as (Hnd & _ & Hl).
  assert (Hin : s ∈ linked (sessions e)) by (apply elem_of_linked; unfold ps_slots; rewrite Hn; set_solver).
  assert (Hh : handshake (sessions e) <> Some s).
  { intros Hh. unfold linked, ps_slots in Hnd. rewrite Hn, Hh in Hnd.
    destruct (current (sessions e)), (previous (sessions e)); cbn in Hnd;
      repeat (apply NoDup_cons in Hnd as [? Hnd]); set_solver. }
  split; [done|]. split; [done|]. specialize (Hl s Hin Hh). unfold holds in Hl.
  destruct (slots p !! s) as [[| |sess]|]; [done|by destruct Hl| |done]. exists sess. by destruct Hl.
Qed.

End Rotation.
