(* ===== verification/Resolve.v ===== *)
(** * Resolver bookkeeping ([microtun-core/src/resolver.rs])

    The request and event types, the in-flight table with its negative markers,
    the parked responder handshakes, the ghosts of evicted peers and the owed
    reconciliations: the resolver's share of the engine's state and the operations
    that touch nothing else. *)

From S2P Require Import Prelude Clock Ip Messages Effect Cidr Rate Firewall.
From S2P Require Import Crypto Noise Pending Peer.
Local Open Scope Z_scope.

Inductive ResolveQuery :=
| ByPublicKey (key : list Z)
| ByDstAddress (dst : IpAddr).

#[export] Instance ResolveQuery_eq_dec : EqDecision ResolveQuery.
Proof. solve_decision. Defined.

Inductive InstallSource := AuthenticatedInitiatorInstall | RelayInstall.

#[export] Instance InstallSource_eq_dec : EqDecision InstallSource.
Proof. solve_decision. Defined.

Inductive PeerAdmission :=
| AuthenticatedInitiator
| LazyOutbound
| LazyRelay
| HeldUpdate.

#[export] Instance PeerAdmission_eq_dec : EqDecision PeerAdmission.
Proof. solve_decision. Defined.

Inductive ResolveKind :=
| OutboundResolve
| Install (source : InstallSource)
| Negative
| Reconcile.

#[export] Instance ResolveKind_eq_dec : EqDecision ResolveKind.
Proof. solve_decision. Defined.

Record PendingReconcile := mkPendingReconcile {
  pr_public_key : list Z;
  pr_due : Instant;
}.

Record InflightResolve := mkInflightResolve {
  ir_id : ResolveId;
  ir_query : ResolveQuery;
  ir_kind : ResolveKind;
  ir_deadline : Instant;
  emitted : bool;
}.

Record ResolveRequest := mkResolveRequest { rq_id : ResolveId; rq_query : ResolveQuery }.

(** [EvictedPeerGhost] and [PendingInitiation] of [lib.rs]. *)
Record EvictedPeerGhost := mkEvictedPeerGhost {
  gh_public_key : list Z;
  gh_expires : Instant;
}.

Record PendingInitiation := mkPendingInitiation {
  pi_resolve_id : ResolveId;
  pi_src : SocketAddr;
  pi_consumed : ConsumedInitiation;
}.

(** The resolver settings of [CoreConfig]. *)
Record ResolverConfig := mkResolverConfig {
  resolve_timeout : Duration;
  resolve_outbound_timeout : Duration;
  negative_ttl : Duration;
  max_inflight_resolves : nat;
  lazy_peer_reserve : nat;
  dynamic_peer_min_idle : Duration;
  peer_eviction_ghost_entries : nat;
  peer_eviction_ghost_ttl : Duration;
  relay_resolve_min_interval : Duration;
}.

Record Resolver := mkResolver {
  core_config : ResolverConfig;
  resolves : list InflightResolve;
  next_resolve_id : Z;
  pending_initiations : list (option PendingInitiation);
  pending_peer_evictions : list (list Z);
  pending_reconciles : list PendingReconcile;
  evicted_peer_ghosts : list (option EvictedPeerGhost);
  remote_resolves : TokenBucket;
  peer_evictions : IntervalBudget;
}.

(** Record updates. *)
Definition with_resolves (r : Resolver) (x : list InflightResolve) : Resolver :=
  mkResolver (core_config r) x (next_resolve_id r) (pending_initiations r) (pending_peer_evictions r)
    (pending_reconciles r) (evicted_peer_ghosts r) (remote_resolves r) (peer_evictions r).
Definition with_next_id (r : Resolver) (x : Z) : Resolver :=
  mkResolver (core_config r) (resolves r) x (pending_initiations r) (pending_peer_evictions r)
    (pending_reconciles r) (evicted_peer_ghosts r) (remote_resolves r) (peer_evictions r).
Definition with_initiations (r : Resolver) (x : list (option PendingInitiation)) : Resolver :=
  mkResolver (core_config r) (resolves r) (next_resolve_id r) x (pending_peer_evictions r)
    (pending_reconciles r) (evicted_peer_ghosts r) (remote_resolves r) (peer_evictions r).
Definition with_evictions (r : Resolver) (x : list (list Z)) : Resolver :=
  mkResolver (core_config r) (resolves r) (next_resolve_id r) (pending_initiations r) x
    (pending_reconciles r) (evicted_peer_ghosts r) (remote_resolves r) (peer_evictions r).
Definition with_reconciles (r : Resolver) (x : list PendingReconcile) : Resolver :=
  mkResolver (core_config r) (resolves r) (next_resolve_id r) (pending_initiations r) (pending_peer_evictions r)
    x (evicted_peer_ghosts r) (remote_resolves r) (peer_evictions r).
Definition with_ghosts (r : Resolver) (x : list (option EvictedPeerGhost)) : Resolver :=
  mkResolver (core_config r) (resolves r) (next_resolve_id r) (pending_initiations r) (pending_peer_evictions r)
    (pending_reconciles r) x (remote_resolves r) (peer_evictions r).
Definition with_budgets (r : Resolver) (x : TokenBucket) (y : IntervalBudget) : Resolver :=
  mkResolver (core_config r) (resolves r) (next_resolve_id r) (pending_initiations r) (pending_peer_evictions r)
    (pending_reconciles r) (evicted_peer_ghosts r) x y.

(** [Vec::swap_remove] on an index in range. *)
Definition swap_remove {A} (i : nat) (l : list A) : list A :=
  match list.last l with
  | Some x => take (length l - 1) (<[i := x]> l)
  | None => l
  end.

(** ** The in-flight table *)

Definition same_query (q : ResolveQuery) (e : InflightResolve) : bool := bool_decide (ir_query e = q).
Definition is_negative (e : InflightResolve) : bool := bool_decide (ir_kind e = Negative).

(** The loop of [alloc_resolve_id]. *)
Fixpoint alloc_id_loop (fuel : nat) (rs : list InflightResolve) (next : Z) : option (ResolveId * Z) :=
  match fuel with
  | O => None
  | S fuel =>
      let next' := wrap_add u64_max next 1 in
      if existsb (fun e => ir_id e =? next) rs then alloc_id_loop fuel rs next' else Some (next, next')
  end.

(** The fuel is enough for any table ([alloc_id_loop_terminates]). *)
Definition alloc_resolve_id (r : Resolver) : ResolveId * Resolver :=
  match alloc_id_loop (S (length (resolves r))) (resolves r) (next_resolve_id r) with
  | Some (id, next') => (id, with_next_id r next')
  | None => (next_resolve_id r, r)
  end.

Definition resolve_suppressed (r : Resolver) (query : ResolveQuery) (now : Instant) : bool :=
  existsb (fun e => same_query query e &&
    match ir_kind e with Negative => now <? ir_deadline e | _ => true end) (resolves r).

(** Drops every entry of [query], and its negative markers alone. *)
Definition clear_query (r : Resolver) (query : ResolveQuery) : Resolver :=
  with_resolves r (retain (fun e => negb (same_query query e)) (resolves r)).
Definition clear_negative (r : Resolver) (query : ResolveQuery) : Resolver :=
  with_resolves r (retain (fun e => negb (is_negative e && same_query query e)) (resolves r)).

Definition authenticated_initiator_resolve_id (r : Resolver) (key : list Z) (now : Instant) : option ResolveId :=
  i ← position (fun e => same_query (ByPublicKey key) e && (now <? ir_deadline e) &&
                bool_decide (ir_kind e = Install AuthenticatedInitiatorInstall)) (resolves r);
  ir_id <$> resolves r !! i.

(** The index of the soonest-to-expire negative marker. *)
Definition negative_victim (rs : list InflightResolve) : option nat :=
  fst <$> min_by_key (fun _ e => is_negative e) (fun a b => ir_deadline a <? ir_deadline b) rs.

(** ** Parked responder handshakes *)

Definition parked_for (id : ResolveId) (s : option PendingInitiation) : bool :=
  match s with Some p => pi_resolve_id p =? id | None => false end.

Definition park_pending_initiation (r : Resolver) (id : ResolveId) (src : SocketAddr) (consumed : ConsumedInitiation)
  : bool * Resolver :=
  match position (parked_for id) (pending_initiations r) with
  | Some i =>
      let should_replace := match pending_initiations r !! i with
                            | Some (Some pending) => bytes_lt (ci_timestamp (pi_consumed pending)) (ci_timestamp consumed)
                            | _ => false
                            end in
      (true, if should_replace
             then with_initiations r (<[i := Some (mkPendingInitiation id src consumed)]> (pending_initiations r))
             else r)
  | None =>
      match position is_free_slot (pending_initiations r) with
      | None => (false, r)
      | Some i => (true, with_initiations r (<[i := Some (mkPendingInitiation id src consumed)]> (pending_initiations r)))
      end
  end.

Definition take_pending_initiation (r : Resolver) (id : ResolveId) : option PendingInitiation * Resolver :=
  match position (parked_for id) (pending_initiations r) with
  | Some i => (pending_initiations r !! i ≫= (fun x => x), with_initiations r (<[i := None]> (pending_initiations r)))
  | None => (None, r)
  end.

Definition drop_pending_initiation (r : Resolver) (id : ResolveId) : Resolver := snd (take_pending_initiation r id).

(** ** Ghosts of evicted peers *)

Definition ghost_limit (r : Resolver) : nat :=
  (Nat.min (peer_eviction_ghost_entries (core_config r)) (length (evicted_peer_ghosts r))).

Definition lapsed_ghost (now : Instant) (g : option EvictedPeerGhost) : bool :=
  match g with Some g => gh_expires g <=? now | None => false end.
Definition ghost_of (key : list Z) (g : option EvictedPeerGhost) : bool :=
  match g with Some g => bool_decide (gh_public_key g = key) | None => false end.

(** Sweeps the lapsed ghosts of the active prefix, then looks [public_key] up. *)
Definition peer_is_ghosted (r : Resolver) (public_key : list Z) (now : Instant) : bool * Resolver :=
  let limit := ghost_limit r in
  let swept := (fun g => if lapsed_ghost now g then None else g) <$> take limit (evicted_peer_ghosts r) in
  let r := with_ghosts r (swept ++ drop limit (evicted_peer_ghosts r)) in
  (existsb (ghost_of public_key) (take limit (evicted_peer_ghosts r)), r).

(** The entry of least expiry of the active prefix, the first among equals. *)
Definition ghost_victim (now : Instant) (gs : list (option EvictedPeerGhost)) : nat :=
  let expiry g := match g with Some g => gh_expires g | None => now end in
  match min_by_key (fun _ _ => true) (fun a b => expiry a <? expiry b) gs with
  | Some (i, _) => i
  | None => 0%nat
  end.

Definition remember_evicted_peer (r : Resolver) (public_key : list Z) (now : Instant) : Resolver :=
  let limit := ghost_limit r in
  let ttl := peer_eviction_ghost_ttl (core_config r) in
  if (limit =? 0)%nat || (ttl =? 0) then r else
  let active := take limit (evicted_peer_ghosts r) in
  let entry := Some (mkEvictedPeerGhost public_key (instant_add now ttl)) in
  let store i := with_ghosts r (<[i := entry]> (evicted_peer_ghosts r)) in
  match position (ghost_of public_key) active with
  | Some i => store i
  | None =>
      match position (fun g => is_free_slot g || lapsed_ghost now g) active with
      | Some i => store i
      | None => store (ghost_victim now active)
      end
  end.

(** ** Evictions to report and reconciliations owed *)

(** The const parameter of [Core] that bounds the backlog. *)
Definition queue_peer_evicted (MAX_PEERS : nat) (r : Resolver) (public_key : list Z) : Resolver :=
  if bool_decide (public_key ∈ pending_peer_evictions r) then r
  else if (length (pending_peer_evictions r) <? MAX_PEERS)%nat
  then with_evictions r (pending_peer_evictions r ++ [public_key])
  else r.

Definition discard_answer (MAX_PEERS : nat) (r : Resolver) (public_key : list Z) : Resolver :=
  queue_peer_evicted MAX_PEERS r public_key.

Definition push_reconcile (MAX_PEERS : nat) (r : Resolver) (pending : PendingReconcile) : Result Resolver :=
  if (MAX_PEERS <=? length (pending_reconciles r))%nat then Failed ResolverBusy
  else Ok (with_reconciles r (pending_reconciles r ++ [pending])).

Definition forget_reconcile (r : Resolver) (public_key : list Z) : Resolver :=
  with_reconciles r (retain (fun p => negb (bool_decide (pr_public_key p = public_key))) (pending_reconciles r)).

(** ** Resolver answers *)

Section Answers.
Context {CR : Cidr}.

Record ResolvedPeer := mkResolvedPeer {
  rp_public_key : list Z;
  rp_endpoint : option SocketAddr;
  rp_relay : option (list Z);
  rp_address : IpCidr;
  rp_inbound_policy : InboundPolicy;
  rp_persistent_keepalive : option Duration;
}.

Inductive ResolveOutcome :=
| Found (info : ResolvedPeer)
| NotFound
| ResolveFailed.

Record ResolveResponse := mkResolveResponse { rs_id : ResolveId; rs_outcome : ResolveOutcome }.

Definition complete (request : ResolveRequest) (outcome : ResolveOutcome) : ResolveResponse :=
  mkResolveResponse (rq_id request) outcome.

Record PeerUpdate := mkPeerUpdate { pu_public_key : list Z; pu_outcome : ResolveOutcome }.

Inductive ResolverEvent :=
| Resolved (response : ResolveResponse)
| PeerUpdated (update : PeerUpdate).

Definition with_answer_endpoint (i : ResolvedPeer) (e : option SocketAddr) : ResolvedPeer :=
  mkResolvedPeer (rp_public_key i) e (rp_relay i) (rp_address i) (rp_inbound_policy i) (rp_persistent_keepalive i).

End Answers.

(** ** The invariant of the table *)

Definition is_dst (e : InflightResolve) : bool := match ir_query e with ByDstAddress _ => true | ByPublicKey _ => false end.

(** The entries that are alone with their query: live lookups, and everything known
    of a destination address. A key may have a spent marker next to its lookup. *)
Definition keyed (e : InflightResolve) : bool := negb (is_negative e) || is_dst e.

Record resolver_inv (MAX_PEERS : nat) (r : Resolver) : Prop := {
  ri_ids : NoDup (ir_id <$> resolves r);
  ri_next : is_u64 (next_resolve_id r);
  ri_bound : (length (resolves r) <= max_inflight_resolves (core_config r))%nat;
  ri_keyed : NoDup (ir_query <$> retain keyed (resolves r));
  ri_backlog : (length (pending_reconciles r) <= MAX_PEERS)%nat;
  ri_owed : NoDup (pr_public_key <$> pending_reconciles r);
}.

Lemma swap_remove_perm {A} i (l : list A) x : l !! i = Some x -> x :: swap_remove i l ≡ₚ l.
Proof.
  intros Hi. unfold swap_remove. destruct (list.last l) as [y|] eqn:E; [|by apply last_None in E; subst].
  apply last_Some in E as [l' ->]. rewrite length_app. cbn [length]. replace (length l' + 1 - 1)%nat with (length l') by lia.
  destruct (decide (i = length l')) as [->|Hne].
  - rewrite lookup_app_r, Nat.sub_diag in Hi by done. cbn in Hi. injection Hi as ->.
    rewrite insert_app_r_alt by done. rewrite take_app_length'; [|done]. by rewrite Permutation_app_comm.
  - assert (Hlt : (i < length l')%nat) by (apply lookup_lt_Some in Hi; rewrite length_app in Hi; cbn in Hi; lia).
    rewrite insert_app_l by done. rewrite lookup_app_l in Hi by done.
    rewrite take_app_length' by (by rewrite length_insert).
    rewrite insert_take_drop by done. rewrite <- (take_drop_middle l' i x Hi) at 3.
    solve_Permutation.
Qed.

Lemma swap_remove_submseteq {A} i (l : list A) x : l !! i = Some x -> swap_remove i l ⊆+ l.
Proof. intros Hi. rewrite <- (swap_remove_perm i l x Hi) at 2. by apply submseteq_cons. Qed.

Lemma retain_sublist {A} (p : A -> bool) l : retain p l `sublist_of` l.
Proof. induction l as [|x l IH]; [constructor|]. cbn. destruct (p x); by constructor. Qed.

Lemma retain_submseteq {A} (p : A -> bool) l l' : l ⊆+ l' -> retain p l ⊆+ retain p l'.
Proof.
  induction 1; cbn [retain]; repeat case_match; try done; first [by constructor|by apply submseteq_cons|by etrans].
Qed.

Lemma retain_app {A} (p : A -> bool) l l' : retain p (l ++ l') = retain p l ++ retain p l'.
Proof. induction l as [|x l IH]; [done|]. cbn. destruct (p x); cbn; by rewrite IH. Qed.

Lemma submseteq_NoDup {A} (l l' : list A) : l ⊆+ l' -> NoDup l' -> NoDup l.
Proof.
  intros H Hn. apply submseteq_Permutation in H as [k Hp]. rewrite Hp in Hn. by apply NoDup_app in Hn as [? _].
Qed.

(** Dropping entries. *)
Lemma resolver_inv_drop n r rs :
  resolver_inv n r -> rs ⊆+ resolves r -> resolver_inv n (with_resolves r rs).
Proof.
  intros [Hi Hx Hb Hk Hl Ho] Hs. split; cbn; try done.
  - eapply submseteq_NoDup; [|exact Hi]. by apply fmap_submseteq.
  - apply submseteq_length in Hs. lia.
  - eapply submseteq_NoDup; [|exact Hk]. by apply fmap_submseteq, retain_submseteq.
Qed.

(** Adding an entry under a fresh id. *)
Lemma resolver_inv_push n r e :
  resolver_inv n r -> (length (resolves r) < max_inflight_resolves (core_config r))%nat ->
  ir_id e ∉ ir_id <$> resolves r ->
  (keyed e = true -> forall e', e' ∈ resolves r -> keyed e' = true -> ir_query e' <> ir_query e) ->
  resolver_inv n (with_resolves r (resolves r ++ [e])).
Proof.
  intros [Hi Hx Hb Hk Hl Ho] Hlt Hid Hq. split; cbn; try done.
  - rewrite fmap_app. apply NoDup_app. split; [done|]. split; [|apply NoDup_singleton].
    intros x Hx' ->%list_elem_of_singleton. done.
  - rewrite length_app. cbn. lia.
  - rewrite retain_app, fmap_app. cbn. destruct (keyed e) eqn:E; cbn; [|by rewrite app_nil_r].
    apply NoDup_app. split; [done|]. split; [|apply NoDup_singleton].
    intros x (e' & -> & He')%list_elem_of_fmap Hxe%list_elem_of_singleton.
    apply elem_of_retain in He' as [? ?]. by eapply Hq.
Qed.

Lemma resolver_inv_next n r next : resolver_inv n r -> is_u64 next -> resolver_inv n (with_next_id r next).
Proof. intros [Hi Hx Hb Hk Hl Ho] H. by split. Qed.

(** ** The loop of [alloc_resolve_id] *)

Lemma alloc_id_loop_None fuel rs next :
  0 <= next <= u64_max -> Z.of_nat fuel <= u64_max + 1 -> alloc_id_loop fuel rs next = None ->
  forall k, (k < fuel)%nat -> (next + Z.of_nat k) mod (u64_max + 1) ∈ ir_id <$> rs.
Proof.
  revert next. induction fuel as [|fuel IH]; intros next Hn Hf; cbn [alloc_id_loop]; [lia|].
  destruct (existsb _ rs) eqn:E; [|done]. intros Hl k Hk. destruct k as [|k].
  - rewrite Z.add_0_r, Z.mod_small by (unfold u64_max in *; lia).
    apply existsb_exists in E as (e & He & Heq). apply Z.eqb_eq in Heq. apply list_elem_of_fmap.
    exists e. split; [done|]. by apply list_elem_of_In.
  - assert (Hw : 0 <= wrap_add u64_max next 1 <= u64_max).
    { unfold wrap_add. pose proof (Z.mod_pos_bound (next + 1) (u64_max + 1) ltac:(unfold u64_max; lia)). lia. }
    specialize (IH _ Hw ltac:(lia) Hl k ltac:(lia)). unfold wrap_add in IH.
    rewrite Z.add_mod_idemp_l in IH by (unfold u64_max; lia). 
    replace (next + Z.of_nat (S k)) with (next + 1 + Z.of_nat k) by lia. exact IH.
Qed.

Lemma alloc_id_loop_Some fuel rs next id next' :
  is_u64 next -> alloc_id_loop fuel rs next = Some (id, next') ->
  id ∉ ir_id <$> rs /\ is_u64 id /\ is_u64 next' /\ next' = wrap_add u64_max id 1.
Proof.
  revert next. induction fuel as [|fuel IH]; intros next Hn; cbn [alloc_id_loop]; [done|].
  assert (Hw : is_u64 (wrap_add u64_max next 1)).
  { unfold is_u64, wrap_add. pose proof (Z.mod_pos_bound (next + 1) (u64_max + 1) ltac:(unfold u64_max; lia)). lia. }
  destruct (existsb _ rs) eqn:E; [by apply IH|]. intros [= <- <-]. split; [|done].
  intros (e & He & Hin)%list_elem_of_fmap.
  assert (Hex : existsb (fun e => ir_id e =? next) rs = true); [|congruence].
  apply existsb_exists. exists e. split; [by apply list_elem_of_In|]. by apply Z.eqb_eq.
Qed.

Lemma alloc_id_loop_runs rs next :
  is_u64 next -> Z.of_nat (length rs) <= u64_max ->
  exists id next', alloc_id_loop (S (length rs)) rs next = Some (id, next').
Proof.
  intros Hn Hl. destruct (alloc_id_loop (S (length rs)) rs next) as [[id next']|] eqn:E; [eauto|].
  pose proof (alloc_id_loop_None (S (length rs)) rs next Hn ltac:(lia) E) as Hin. exfalso.
  set (ids := (fun k => (next + Z.of_nat k) mod (u64_max + 1)) <$> seq 0 (S (length rs))).
  assert (Hnd : NoDup ids).
  { apply NoDup_fmap_2_strong; [|apply NoDup_seq]. intros x y Hx%elem_of_seq Hy%elem_of_seq Hxy.
    cbn beta in Hxy. unfold is_u64, u64_max in *. dlia. }
  assert (Hsub : ids ⊆ ir_id <$> rs).
  { intros x (k & -> & Hk)%list_elem_of_fmap. apply elem_of_seq in Hk. apply Hin. lia. }
  apply (NoDup_submseteq _ _ Hnd), submseteq_length in Hsub. unfold ids in Hsub. rewrite !length_fmap, length_seq in Hsub. lia.
Qed.

Lemma alloc_resolve_id_run n r :
  resolver_inv n r -> Z.of_nat (max_inflight_resolves (core_config r)) <= u64_max ->
  exists id next', alloc_resolve_id r = (id, with_next_id r next') /\ id ∉ ir_id <$> resolves r /\ is_u64 next' /\
    next' = wrap_add u64_max id 1.
Proof.
  intros [Hi Hx Hb Hk Hl Ho] Hm. unfold alloc_resolve_id.
  destruct (alloc_id_loop_runs (resolves r) (next_resolve_id r) Hx ltac:(lia)) as (id & next' & E). rewrite E.
  exists id, next'. split; [done|]. destruct (alloc_id_loop_Some _ _ _ _ _ Hx E) as (? & _ & ? & ?). done.
Qed.

Lemma resolve_suppressed_false r q now e :
  resolve_suppressed r q now = false -> e ∈ resolves r -> ir_query e = q ->
  ir_kind e = Negative /\ ir_deadline e <= now.
Proof.
  intros Hs He Hq. unfold resolve_suppressed in Hs.
  assert (H : (same_query q e && match ir_kind e with Negative => now <? ir_deadline e | _ => true end) = false).
  { apply not_true_is_false. intros Ht. rewrite <- not_true_iff_false in Hs. apply Hs, existsb_exists.
    exists e. split; [by apply list_elem_of_In|done]. }
  unfold same_query in H. rewrite bool_decide_eq_true_2 in H by done. cbn in H.
  destruct (ir_kind e); [done|done| |done]. split; [done|]. by apply Z.ltb_ge.
Qed.

(** ** Theorems *)

(** the loop that picks a request id terminates for every table that can exist,
    within one probe per entry and one more, whatever the counter and across its
    wrap-around, and the id it returns belongs to no entry. *)
Theorem alloc_id_loop_terminates (rs : list InflightResolve) (next : Z) :
  is_u64 next -> Z.of_nat (length rs) <= u64_max ->
  exists fuel id next', (fuel <= S (length rs))%nat /\ alloc_id_loop fuel rs next = Some (id, next') /\
    id ∉ ir_id <$> rs /\ is_u64 id /\ next' = wrap_add u64_max id 1.
Proof.
  intros Hn Hl. destruct (alloc_id_loop_runs rs next Hn Hl) as (id & next' & E).
  exists (S (length rs)), id, next'. split; [done|]. split; [done|].
  destruct (alloc_id_loop_Some _ _ _ _ _ Hn E) as (? & ? & _ & ?). done.
Qed.

Lemma alloc_id_loop_terminates_witness :
  let e id := mkInflightResolve id (ByDstAddress (V4 id)) OutboundResolve 0 false in
  exists fuel, alloc_id_loop fuel [e 0; e u64_max] u64_max = Some (1, 2).
Proof.
  intros e. destruct (alloc_id_loop_terminates [e 0; e u64_max] u64_max) as (fuel & id & next' & Hf & E & _).
  - unfold is_u64, u64_max. lia.
  - cbn. unfold u64_max. lia.
  - exists fuel. rewrite E. cbn in Hf.
    destruct fuel as [|[|[|[|fuel]]]]; [discriminate E|discriminate E|discriminate E| |lia].
    vm_compute in E. by rewrite E.
Defined.
