(* ===== verification/WallClock.v ===== *)
(** * Handshake timestamps ([set_unix_time], [timestamp] and
    [next_whitened_timestamp] of [microtun-core/src/lib.rs]) *)

From S2P Require Import Prelude Clock Messages Effect Crypto.
From Stdlib Require Import Sorting.Sorted.
Local Open Scope Z_scope.

Record WallClock := mkWallClock { base_unix_nanos : Z; base_instant : Instant }.

(** The two fields of [Core] the timestamps use. *)
Record Wall := mkWall { wall : option WallClock; last_ts : list Z }.

Definition wall_init : Wall := mkWall None (replicate TIMESTAMP_LEN 0).

Definition set_unix_time (unix_secs nanos : Z) (now : Instant) (w : Wall) : Wall :=
  mkWall (Some (mkWallClock (sat_add u64_max (sat_mul u64_max unix_secs 1000000000) nanos) now)) (last_ts w).

Definition has_wall_clock (w : Wall) : bool := bool_decide (is_Some (wall w)).

Definition QUANTUM : Z := 16777216.   (* 1 << 24 *)

Definition next_whitened_timestamp (last : list Z) : Result (list Z) :=
  let seconds := be_value (take 8 last) in
  let nanos := whiten (be_value (drop 8 last)) in
  let next_nanos := sat_add u32_max nanos QUANTUM in
  if 1000000000 <=? next_nanos then
    if u64_max <? seconds + 1 then Failed TimeOverflow
    else Ok (be_bytes 8 (seconds + 1) ++ be_bytes 4 0)
  else Ok (be_bytes 8 seconds ++ be_bytes 4 next_nanos).

Definition timestamp (now : Instant) : Eff Wall (list Z) :=
  w ← demand wall NoWallClock;
  let elapsed_ms := saturating_since now (base_instant w) in
  let nanos_total := sat_add u64_max (base_unix_nanos w) (sat_mul u64_max elapsed_ms 1000000) in
  ts ← lift (tai64n (nanos_total / 1000000000) (nanos_total mod 1000000000));
  last ← gets last_ts;
  ts ← (if bytes_le ts last then lift (next_whitened_timestamp last) else mret ts);
  _ ← modify (fun w => mkWall (wall w) ts);
  mret ts.

(** ** Traces *)

Inductive WallEvent := SetUnixTime (unix_secs nanos : Z) (now : Instant) | Timestamp (now : Instant).

Definition event_wf (ev : WallEvent) : Prop :=
  match ev with
  | SetUnixTime s n now => is_u64 s /\ is_u32 n /\ is_u64 now
  | Timestamp now => is_u64 now
  end.

(** The timestamps emitted, oldest first, and the state reached. *)
Fixpoint wall_run (w : Wall) (trace : list WallEvent) : list (list Z) * Wall :=
  match trace with
  | [] => ([], w)
  | SetUnixTime s n now :: trace => wall_run (set_unix_time s n now w) trace
  | Timestamp now :: trace =>
      match timestamp now w with
      | (Ok ts, w) => let '(out, w) := wall_run w trace in (ts :: out, w)
      | (Failed _, w) => wall_run w trace
      end
  end.

(** ** Bytewise order is numeric order *)

Lemma be_value_cons x bs : be_value (x :: bs) = x * 256 ^ Z.of_nat (length bs) + be_value bs.
Proof.
  unfold be_value. rewrite reverse_cons. rewrite <- (length_reverse bs).
  induction (reverse bs) as [|b r IH]; cbn [app le_value length].
  - change (256 ^ Z.of_nat 0) with 1. lia.
  - rewrite IH, Nat2Z.inj_succ, Z.pow_succ_r by lia. lia.
Qed.

Lemma be_value_app a b : be_value (a ++ b) = be_value a * 256 ^ Z.of_nat (length b) + be_value b.
Proof.
  induction a as [|x a IH]; cbn [app]; [done|].
  rewrite !be_value_cons, IH, length_app, Nat2Z.inj_add, Z.pow_add_r by lia. ring.
Qed.

Lemma bytes_lt_value a b :
  Forall is_u8 a -> Forall is_u8 b -> length a = length b -> bytes_lt a b = (be_value a <? be_value b).
Proof.
  revert b. induction a as [|x a IH]; intros [|y b] Ha Hb Hl; [done..|].
  injection Hl as Hl. apply Forall_cons in Ha as [Hx Ha], Hb as [Hy Hb]. cbn [bytes_lt].
  rewrite (IH b) by done. rewrite !be_value_cons, Hl.
  pose proof (be_value_bound a Ha) as Ba. pose proof (be_value_bound b Hb) as Bb. rewrite Hl in Ba.
  set (W := 256 ^ Z.of_nat (length b)) in *. set (A := be_value a) in *. set (B := be_value b) in *.
  destruct (Z.ltb_spec x y) as [Hlt|Hge]; cbn [orb].
  - symmetry. apply Z.ltb_lt. nia.
  - destruct (Z.eqb_spec x y) as [->|Hne]; cbn [andb].
    + destruct (Z.ltb_spec A B), (Z.ltb_spec (y * W + A) (y * W + B)); lia.
    + symmetry. apply Z.ltb_ge. nia.
Qed.

Lemma bytes_lt_trans a b c : bytes_lt a b = true -> bytes_lt b c = true -> bytes_lt a c = true.
Proof.
  revert b c. induction a as [|x a IH]; intros [|y b] [|z c]; cbn; try done.
  rewrite !orb_true_iff, !andb_true_iff, !Z.ltb_lt, !Z.eqb_eq.
  intros [Hxy|[-> Hab]] [Hyz|[-> Hbc]]; [left; lia|left; lia|left; lia|right]. eauto.
Qed.

(** ** Timestamps as numbers *)

(** Twelve bytes of the given seconds and nanoseconds. *)
Record ts_is (ts : list Z) (s n : Z) : Prop := {
  ti_length : length ts = TIMESTAMP_LEN;
  ti_u8 : Forall is_u8 ts;
  ti_secs : be_value (take 8 ts) = s;
  ti_nanos : be_value (drop 8 ts) = n;
}.

(** The low 24 bits of the nanoseconds are hidden. *)
Definition whitened (ts : list Z) : Prop := be_value (drop 8 ts) mod QUANTUM = 0.

Lemma be_bytes_u8 n z : Forall is_u8 (be_bytes n z).
Proof. unfold be_bytes. apply Forall_reverse. apply le_bytes_u8. Qed.

Lemma ts_is_bytes s n : is_u64 s -> is_u32 n -> ts_is (be_bytes 8 s ++ be_bytes 4 n) s n.
Proof.
  intros Hs Hn. unfold is_u64, u64_max, is_u32, u32_max in *. split.
  - by rewrite length_app, !length_be_bytes.
  - apply Forall_app. split; apply be_bytes_u8.
  - rewrite take_app_length' by (by rewrite length_be_bytes).
    rewrite be_value_bytes. apply Z.mod_small. change (256 ^ Z.of_nat 8) with 18446744073709551616. lia.
  - rewrite drop_app_length' by (by rewrite length_be_bytes).
    rewrite be_value_bytes. apply Z.mod_small. change (256 ^ Z.of_nat 4) with 4294967296. lia.
Qed.

Lemma ts_lt ts ts' s n s' n' :
  ts_is ts s n -> ts_is ts' s' n' -> bytes_lt ts ts' = true <-> s < s' \/ s = s' /\ n < n'.
Proof.
  intros [Hl Hu Hs Hn] [Hl' Hu' Hs' Hn']. rewrite bytes_lt_value by congruence.
  rewrite Z.ltb_lt. rewrite <- (take_drop 8 ts), <- (take_drop 8 ts'), !be_value_app.
  rewrite !length_drop, Hl, Hl'. change (256 ^ Z.of_nat (TIMESTAMP_LEN - 8)) with 4294967296.
  rewrite Hs, Hn, Hs', Hn'.
  assert (B : forall t, length t = TIMESTAMP_LEN -> Forall is_u8 t -> 0 <= be_value (drop 8 t) < 4294967296).
  { intros t Ht Hu0. pose proof (be_value_bound (drop 8 t) (Forall_drop _ 8 _ Hu0)) as B.
    rewrite length_drop, Ht in B. exact B. }
  pose proof (B ts Hl Hu). pose proof (B ts' Hl' Hu'). lia.
Qed.

Lemma whiten_spec n : is_u32 n ->
  whiten n mod QUANTUM = 0 /\ whiten n <= n < whiten n + QUANTUM /\ 0 <= whiten n.
Proof.
  intros Hn. unfold whiten, QUANTUM.
  assert (E : Z.land n 4278190080 = n / 2 ^ 24 * 2 ^ 24).
  { unfold is_u32, u32_max in Hn.
    change 4278190080 with (Z.ldiff (Z.ones 32) (Z.ones 24)).
    rewrite Z.ldiff_land, Z.land_assoc, <- Z.ldiff_land, Z.land_ones by lia.
    rewrite Z.mod_small by (change (2 ^ 32) with 4294967296; lia).
    by rewrite Z.ldiff_ones_r, Z.shiftl_mul_pow2, Z.shiftr_div_pow2 by lia. }
  rewrite E. change (2 ^ 24) with 16777216. unfold is_u32, u32_max in Hn. split; dlia.
Qed.

(** The bump of a timestamp is later, whitened, and at most one second on. *)
Lemma next_whitened_spec last s n :
  ts_is last s n -> is_u64 s -> 0 <= n < 1000000000 ->
  match next_whitened_timestamp last with
  | Ok ts => exists s' n', ts_is ts s' n' /\ bytes_lt last ts = true /\ s <= s' <= s + 1 /\ is_u64 s' /\
      0 <= n' < 1000000000 /\ n' mod QUANTUM = 0
  | Failed _ => s = u64_max
  end.
Proof.
  intros Hl Hs Hn. unfold next_whitened_timestamp. rewrite (ti_secs _ _ _ Hl), (ti_nanos _ _ _ Hl).
  assert (Hu : is_u32 n) by (unfold is_u32, u32_max; lia).
  destruct (whiten_spec n Hu) as (Hw & Hb & H0). unfold is_u64, u64_max in Hs.
  assert (Hsat : sat_add u32_max (whiten n) QUANTUM = whiten n + QUANTUM).
  { unfold sat_add, u32_max, QUANTUM in *. lia. }
  rewrite Hsat. destruct (Z.leb_spec 1000000000 (whiten n + QUANTUM)) as [Hge|Hlt].
  - destruct (Z.ltb_spec u64_max (s + 1)) as [Hov|Hov]; unfold u64_max in *; [lia|].
    assert (Ht : ts_is (be_bytes 8 (s + 1) ++ be_bytes 4 0) (s + 1) 0).
    { apply ts_is_bytes; unfold is_u64, u64_max, is_u32, u32_max; lia. }
    exists (s + 1), 0. split; [done|]. split; [apply (ts_lt _ _ _ _ _ _ Hl Ht); lia|].
    unfold is_u64, u64_max. do 3 (split; [lia|]). done.
  - assert (Ht : ts_is (be_bytes 8 s ++ be_bytes 4 (whiten n + QUANTUM)) s (whiten n + QUANTUM)).
    { apply ts_is_bytes; unfold is_u64, u64_max, is_u32, u32_max in *; lia. }
    exists s, (whiten n + QUANTUM).
    split; [done|]. split; [apply (ts_lt _ _ _ _ _ _ Hl Ht); lia|].
    unfold QUANTUM, is_u64, u64_max in *. do 3 (split; [lia|]). rewrite Z.add_mod, Hw by lia. done.
Qed.

(** The latest second a 64-bit nanosecond clock can reach. *)
Definition LAST_SECOND : Z := TAI64_BASE + 18446744073.

(** After [k] requests. *)
Record wall_inv (k : Z) (w : Wall) : Prop := {
  wi_last : exists s n, ts_is (last_ts w) s n /\ is_u64 s /\ s <= LAST_SECOND + k /\ 0 <= n < 1000000000;
  wi_wall : forall c, wall w = Some c -> is_u64 (base_unix_nanos c);
}.

Lemma wall_init_inv : wall_inv 0 wall_init.
Proof.
  split; [|done]. exists 0, 0. split; [|unfold LAST_SECOND, TAI64_BASE, is_u64, u64_max; lia].
  split; [done| |done|done].
  apply Forall_replicate. unfold is_u8, u8_max. lia.
Qed.

Lemma tai64n_spec total :
  is_u64 total ->
  exists ts s n, tai64n (total / 1000000000) (total mod 1000000000) = Ok ts /\ ts_is ts s n /\
    0 <= s <= LAST_SECOND /\ 0 <= n < 1000000000 /\ n mod QUANTUM = 0.
Proof.
  intros Ht. unfold is_u64, u64_max in Ht. unfold tai64n.
  assert (Hs : 0 <= total / 1000000000 <= 18446744073) by dlia.
  assert (Hn : 0 <= total mod 1000000000 < 1000000000) by dlia.
  set (secs := total / 1000000000) in *. set (nanos := total mod 1000000000) in *.
  destruct (Z.ltb_spec u64_max (TAI64_BASE + secs)) as [Hov|_].
  { unfold u64_max, TAI64_BASE in Hov. lia. }
  assert (Hu : is_u32 nanos) by (unfold is_u32, u32_max; lia).
  destruct (whiten_spec nanos Hu) as (Hw & Hb & H0).
  eexists _, (TAI64_BASE + secs), (whiten nanos). split; [done|]. split.
  { apply ts_is_bytes; unfold is_u64, u64_max, is_u32, u32_max, TAI64_BASE in *; lia. }
  unfold LAST_SECOND. split; [unfold TAI64_BASE; lia|]. split; [lia|done].
Qed.

Lemma timestamp_step k w now :
  wall_inv k w -> 0 <= k -> is_u64 now ->
  match timestamp now w with
  | (Ok ts, w') => last_ts w' = ts /\ wall w' = wall w /\ bytes_lt (last_ts w) ts = true /\
      length ts = TIMESTAMP_LEN /\ whitened ts /\ wall_inv (k + 1) w'
  | (Failed e, w') => w' = w /\ (wall w = None \/ 10 ^ 18 <= k)
  end.
Proof.
  intros [(s & n & Hl & Hs & Hsk & Hn) Hw] Hk Hnow. unfold timestamp. eff.
  destruct (wall w) as [c|] eqn:Ec; [|by auto]. eff.
  set (total := sat_add _ _ _).
  assert (Ht : is_u64 total).
  { specialize (Hw c eq_refl). unfold total, is_u64, sat_add, sat_mul, saturating_since, sat_sub in *.
    unfold u64_max in *. lia. }
  assert (Hwall : forall ts s' n', ts_is ts s' n' -> is_u64 s' -> s' <= LAST_SECOND + (k + 1) ->
    0 <= n' < 1000000000 -> wall_inv (k + 1) (mkWall (Some c) ts)).
  { intros ts s' n' H1 H2 H3 H4. split; [by exists s', n'|]. cbn. naive_solver. }
  destruct (tai64n_spec total Ht) as (ts & s' & n' & -> & Hts & Hs' & Hn' & Hq). eff.
  unfold bytes_le. destruct (bytes_lt (last_ts w) ts) eqn:Elt; cbn [negb]; eff.
  - rewrite Ec. cbn. split; [done|]. split; [done|]. split; [done|]. split; [apply Hts|].
    split; [by unfold whitened; rewrite (ti_nanos _ _ _ Hts)|].
    eapply Hwall; [done|unfold is_u64, u64_max, LAST_SECOND, TAI64_BASE in *; lia|lia|done].
  - pose proof (next_whitened_spec _ _ _ Hl Hs Hn) as Hnext.
    destruct (next_whitened_timestamp (last_ts w)) as [ts2|e]; eff; cbn.
    + destruct Hnext as (s2 & n2 & Hts2 & Hlt2 & Hs2 & Hu2 & Hn2 & Hq2). rewrite Ec.
      split; [done|]. split; [done|]. split; [done|]. split; [apply Hts2|].
      split; [by unfold whitened; rewrite (ti_nanos _ _ _ Hts2)|].
      eapply Hwall; [done..|lia|done].
    + split; [done|]. right. unfold LAST_SECOND, TAI64_BASE, u64_max in *. lia.
Qed.

Lemma set_unix_time_inv k w s n now :
  wall_inv k w -> is_u64 s -> is_u32 n -> wall_inv k (set_unix_time s n now w).
Proof.
  intros [Hl Hw] Hs Hn. split; [done|]. cbn. intros c [= <-]. cbn.
  unfold is_u64, is_u32, sat_add, sat_mul, u64_max, u32_max in *. lia.
Qed.

Definition at_most (a b : list Z) : Prop := a = b \/ bytes_lt a b = true.

Lemma at_most_trans a b c : at_most a b -> at_most b c -> at_most a c.
Proof. intros [->|H1] [->|H2]; [by left|by right..|]. right. by eapply bytes_lt_trans. Qed.

Lemma wall_inv_mono k k' w : wall_inv k w -> k <= k' -> wall_inv k' w.
Proof.
  intros [(s & n & ? & ? & ? & ?) ?] Hk. split; [|done]. exists s, n. do 2 (split; [done|]). split; [lia|done].
Qed.

Lemma wall_run_spec k w trace :
  wall_inv k w -> 0 <= k -> Forall event_wf trace ->
  let '(out, w') := wall_run w trace in
  StronglySorted (fun a b => bytes_lt a b = true) out /\
  Forall (fun ts => bytes_lt (last_ts w) ts = true /\ at_most ts (last_ts w') /\
                    length ts = TIMESTAMP_LEN /\ whitened ts) out /\
  at_most (last_ts w) (last_ts w') /\ wall_inv (k + Z.of_nat (length trace)) w'.
Proof.
  intros Hinv Hk Hwf. revert k w Hinv Hk. induction Hwf as [|ev trace Hev _ IH]; intros k w Hinv Hk.
  { cbn. rewrite Z.add_0_r. split; [constructor|]. split; [done|]. split; [by left|done]. }
  cbn [length]. replace (k + Z.of_nat (S (length trace))) with (k + 1 + Z.of_nat (length trace)) by lia.
  destruct ev as [s n now|now]; cbn [wall_run].
  - destruct Hev as (Hs & Hn & _). specialize (IH (k + 1) (set_unix_time s n now w)).
    apply IH; [|lia]. apply (wall_inv_mono k); [by apply set_unix_time_inv|lia].
  - pose proof (timestamp_step k w now Hinv Hk Hev) as Hstep.
    destruct (timestamp now w) as [[ts|e] w1]; last first.
    { destruct Hstep as [-> _]. apply IH; [|lia]. apply (wall_inv_mono k); [done|lia]. }
    destruct Hstep as (Hlast & _ & Hlt & Hlen & Hwh & Hinv1). specialize (IH (k + 1) w1 Hinv1).
    destruct (wall_run w1 trace) as [out w']. rewrite Hlast in IH. destruct IH as (Hso & Hall & Hle & Hk'); [lia|].
    split; [|split; [|split; [|done]]].
    + constructor; [done|]. eapply Forall_impl; [exact Hall|]. by intros x [? _].
    + constructor; [done|]. eapply Forall_impl; [exact Hall|]. intros x (Hx & ?).
      split; [|done]. by eapply bytes_lt_trans.
    + eapply at_most_trans; [|exact Hle]. by right.
Qed.

(** ** Theorems *)

(** C16: handshake timestamps never repeat or regress: over any sequence of clock
    settings (also backwards) and requests, the emitted timestamps are strictly
    increasing in the byte order peers compare them by, are twelve bytes with
    the low 24 bits of the nanoseconds hidden, and once a clock was set a
    request fails only after a quintillion events. *)
Theorem timestamps_strictly_increase (trace : list WallEvent) :
  Forall event_wf trace ->
  let '(out, w) := wall_run wall_init trace in
  StronglySorted (fun a b => bytes_lt a b = true) out /\
  Forall (fun ts => length ts = TIMESTAMP_LEN /\ whitened ts) out /\
  forall now, is_u64 now -> has_wall_clock w = true -> Z.of_nat (length trace) < 10 ^ 18 ->
    exists ts w', timestamp now w = (Ok ts, w') /\ Forall (fun t => bytes_lt t ts = true) out.
Proof.
  intros Hwf. pose proof (wall_run_spec 0 wall_init trace wall_init_inv ltac:(lia) Hwf) as H.
  destruct (wall_run wall_init trace) as [out w]. destruct H as (Hso & Hall & _ & Hinv). split; [done|]. split.
  { eapply Forall_impl; [exact Hall|]. naive_solver. }
  intros now Hnow Hc Hlen. pose proof (timestamp_step _ w now Hinv ltac:(lia) Hnow) as Hstep.
  destruct (timestamp now w) as [[ts|e] w'].
  - destruct Hstep as (_ & _ & Hlt & _). exists ts, w'. split; [done|].
    eapply Forall_impl; [exact Hall|]. intros t (_ & [-> |Ht] & _); [done|]. by eapply bytes_lt_trans.
  - destruct Hstep as [_ [Hn|Hn]]; [|lia]. unfold has_wall_clock in Hc. by rewrite Hn in Hc.
Qed.

Lemma timestamps_strictly_increase_witness :
  let trace := [Timestamp 1; SetUnixTime 1700000000 0 10; Timestamp 10; Timestamp 10;
                SetUnixTime 5 0 20; Timestamp 20] in
  length (fst (wall_run wall_init trace)) = 3%nat /\
  StronglySorted (fun a b => bytes_lt a b = true) (fst (wall_run wall_init trace)).
Proof.
  intros trace.
  assert (Hwf : Forall event_wf trace).
  { unfold trace, event_wf, is_u64, is_u32, u64_max, u32_max. repeat constructor; lia. }
  pose proof (timestamps_strictly_increase trace Hwf) as H.
  assert (E : length (fst (wall_run wall_init trace)) = 3%nat) by (vm_compute; reflexivity).
  split; [exact E|]. destruct (wall_run wall_init trace) as [out w]. apply H.
Defined.
