(* ===== verification/Load.v ===== *)
(** * Load tracking ([note_handshake_msg] and [under_load] of
    [microtun-core/src/lib.rs]) *)

From S2P Require Import Prelude Clock Constants Cidr Session Peer Pool.
From Stdlib Require Import Sorting.Sorted.
Local Open Scope Z_scope.

(** The three load fields of [Core]. *)
Record Load := mkLoad { hs_window_start : Instant; hs_window_count : Z; hs_prev_count : Z }.

(** The two load settings of [CoreConfig]. *)
Record LoadConfig := mkLoadConfig { under_load_free_slots : nat; under_load_handshakes_per_sec : Z }.

Definition note_handshake_msg (now : Instant) (l : Load) : Load :=
  let elapsed := saturating_since now (hs_window_start l) in
  let l :=
    if from_secs 1 <=? elapsed
    then mkLoad now 0 (if elapsed <? from_secs 2 then hs_window_count l else 0)
    else l in
  mkLoad (hs_window_start l) (sat_add u32_max (hs_window_count l) 1) (hs_prev_count l).

Definition under_load `{Cidr} (cfg : LoadConfig) (p : Pool) (l : Load) (now : Instant) : bool :=
  let free := length (retain (fun s => is_free s || lapsed now s) (slots p)) in
  (free <=? under_load_free_slots cfg)%nat
  || (under_load_handshakes_per_sec cfg <? hs_window_count l)
  || (under_load_handshakes_per_sec cfg <? hs_prev_count l).

(** Handshake messages at the given instants, oldest first. *)
Definition load_run (l : Load) (times : list Instant) : Load := foldl (fun l now => note_handshake_msg now l) l times.

(** ** Lemmas *)

(** How many of [times] fall in [\[a, b)]. *)
Definition between (a b : Z) (times : list Instant) : Z :=
  Z.of_nat (length (retain (fun t => (a <=? t) && (t <? b)) times)).

Lemma between_app a b xs ys : between a b (xs ++ ys) = between a b xs + between a b ys.
Proof.
  unfold between. induction xs as [|x xs IH]; cbn; [lia|].
  destruct ((a <=? x) && (x <? b)); cbn [length]; lia.
Qed.

Lemma between_one a b x : between a b [x] = if (a <=? x) && (x <? b) then 1 else 0.
Proof. unfold between. cbn. by destruct ((a <=? x) && (x <? b)). Qed.

Lemma between_nonneg a b xs : 0 <= between a b xs.
Proof. unfold between. lia. Qed.

Lemma between_le_length a b xs : between a b xs <= Z.of_nat (length xs).
Proof. unfold between. pose proof (length_retain (fun t => (a <=? t) && (t <? b)) xs). lia. Qed.

Lemma between_mono a b a' b' xs : a' <= a -> b <= b' -> between a b xs <= between a' b' xs.
Proof.
  intros Ha Hb. unfold between. induction xs as [|x xs IH]; cbn [retain]; [done|].
  destruct (Z.leb_spec a x), (Z.ltb_spec x b), (Z.leb_spec a' x), (Z.ltb_spec x b'); cbn [andb length]; try lia; cbn [length] in *; lia.
Qed.

Lemma between_split a b c xs : a <= b <= c -> between a c xs = between a b xs + between b c xs.
Proof.
  intros H. unfold between. induction xs as [|x xs IH]; cbn [retain]; [done|].
  destruct (Z.leb_spec a x), (Z.ltb_spec x b), (Z.leb_spec b x), (Z.ltb_spec x c); cbn [andb length]; try lia; cbn [length] in *; lia.
Qed.

Lemma between_above a b xs : Forall (fun t => t < a) xs -> between a b xs = 0.
Proof.
  unfold between. induction 1 as [|x xs Hx _ IH]; cbn; [done|].
  destruct (Z.leb_spec a x); cbn [andb]; [lia|done].
Qed.

(** The counters are exact counts of the running window and of the second before
    it, and nothing between the two windows is lost. *)
Record load_inv (times : list Instant) (l : Load) : Prop := {
  li_past : Forall (fun t => 0 <= t < hs_window_start l + 1000) times;
  li_start : 0 <= hs_window_start l;
  li_count : hs_window_count l = between (hs_window_start l) (hs_window_start l + 1000) times;
  li_prev_low : between (hs_window_start l - 1000) (hs_window_start l) times <= hs_prev_count l;
  li_prev_high : hs_prev_count l <= between (hs_window_start l - 2000) (hs_window_start l) times;
}.

Lemma note_inv times l now :
  load_inv times l -> Forall (fun t => t <= now) times -> 0 <= now -> hs_window_start l <= now ->
  Z.of_nat (length times) < u32_max -> load_inv (times ++ [now]) (note_handshake_msg now l).
Proof.
  intros [Hp Hs Hc Hl Hh] Hle Hnow Hge Hlen. unfold note_handshake_msg.
  change (from_secs 1) with 1000. change (from_secs 2) with 2000.
  unfold saturating_since, sat_sub.
  destruct (Z.leb_spec 1000 (Z.max 0 (now - hs_window_start l))) as [Hroll|Hin].
  - assert (Hz : between now (now + 1000) times = 0).
    { apply between_above. eapply Forall_impl; [exact Hp|]. cbn. lia. }
    assert (Hw : between (hs_window_start l + 1000) now times = 0).
    { apply between_above. eapply Forall_impl; [exact Hp|]. cbn. lia. }
    split; cbn [hs_window_start hs_window_count hs_prev_count]; rewrite ?between_app, ?between_one.
    + apply Forall_app. split; [eapply Forall_impl; [exact Hp|]; cbn; lia|]. repeat constructor; lia.
    + done.
    + rewrite Hz. destruct (Z.leb_spec now now), (Z.ltb_spec now (now + 1000)); cbn [andb]; try lia.
      unfold sat_add, u32_max. lia.
    + replace ((now - 1000 <=? now) && (now <? now)) with false
        by (destruct (Z.ltb_spec now now); [lia|by rewrite andb_false_r]).
      destruct (Z.ltb_spec (Z.max 0 (now - hs_window_start l)) 2000) as [Hadj|Hgap].
      * rewrite Hc. pose proof (between_split (hs_window_start l) (hs_window_start l + 1000) now times ltac:(lia)).
        pose proof (between_mono (now - 1000) now (hs_window_start l) now times ltac:(lia) ltac:(lia)). lia.
      * assert (between (now - 1000) now times = 0); [|lia].
        apply between_above. eapply Forall_impl; [exact Hp|]. cbn. lia.
    + replace ((now - 2000 <=? now) && (now <? now)) with false
        by (destruct (Z.ltb_spec now now); [lia|by rewrite andb_false_r]).
      destruct (Z.ltb_spec (Z.max 0 (now - hs_window_start l)) 2000) as [Hadj|Hgap].
      * rewrite Hc. pose proof (between_mono (hs_window_start l) (hs_window_start l + 1000) (now - 2000) now times
                    ltac:(lia) ltac:(lia)). lia.
      * pose proof (between_nonneg (now - 2000) now times). lia.
  - split; cbn [hs_window_start hs_window_count hs_prev_count]; rewrite ?between_app, ?between_one.
    + apply Forall_app. split; [done|]. repeat constructor; lia.
    + done.
    + rewrite Hc. pose proof (between_le_length (hs_window_start l) (hs_window_start l + 1000) times).
      pose proof (between_nonneg (hs_window_start l) (hs_window_start l + 1000) times).
      destruct (Z.leb_spec (hs_window_start l) now), (Z.ltb_spec now (hs_window_start l + 1000)); cbn [andb]; try lia.
      unfold sat_add. lia.
    + replace ((hs_window_start l - 1000 <=? now) && (now <? hs_window_start l)) with false
        by (destruct (Z.ltb_spec now (hs_window_start l)); [lia|by rewrite andb_false_r]). lia.
    + replace ((hs_window_start l - 2000 <=? now) && (now <? hs_window_start l)) with false
        by (destruct (Z.ltb_spec now (hs_window_start l)); [lia|by rewrite andb_false_r]). lia.
Qed.

Lemma load_init_inv start : 0 <= start -> load_inv [] (mkLoad start 0 0).
Proof. intros H. split; cbn; try constructor; try done; lia. Qed.

Lemma sorted_snoc (times : list Z) now :
  StronglySorted Z.le (times ++ [now]) -> StronglySorted Z.le times /\ Forall (fun t => t <= now) times.
Proof.
  induction times as [|x times IH]; cbn; [intros _; split; constructor|].
  intros [Hs Hx]%StronglySorted_inv. destruct (IH Hs) as [H1 H2].
  apply Forall_app in Hx as [Hx Hn]. split; [by constructor|]. constructor; [|done]. by inversion Hn.
Qed.

Lemma load_run_inv start times :
  0 <= start -> StronglySorted Z.le times -> Forall (fun t => start <= t) times ->
  Z.of_nat (length times) < u32_max ->
  let l := load_run (mkLoad start 0 0) times in
  load_inv times l /\ Forall (fun now => hs_window_start l <= now) (take 1 (reverse times)) /\
  (times = [] -> hs_window_start l = start).
Proof.
  intros H0. induction times as [|now times IH] using rev_ind; intros Hs Hf Hlen.
  { cbn. split; [by apply load_init_inv|]. by split. }
  apply sorted_snoc in Hs as [Hs Hle]. apply Forall_app in Hf as [Hf Hn].
  rewrite length_app in Hlen. cbn [length] in Hlen. destruct IH as (Hinv & Hlast & Hnil); [done|done|lia|].
  unfold load_run in *. rewrite foldl_snoc. set (l := foldl _ _ times) in *.
  assert (Hge : hs_window_start l <= now).
  { destruct times as [|x times] using rev_ind; [rewrite Hnil by done; by inversion Hn|].
    rewrite reverse_snoc in Hlast. inversion Hlast as [|? ? Hx]; subst.
    apply Forall_app in Hle as [_ Hle]. inversion Hle; subst. lia. }
  split; [|split].
  - apply note_inv; try done; [|lia]. inversion Hn; subst. lia.
  - rewrite reverse_snoc. cbn. constructor; [|constructor].
    unfold note_handshake_msg. destruct (_ <=? _); cbn; lia.
  - intros E. by destruct times.
Qed.

(** ** Theorems *)

(** load detection is sound in both directions at every message: more than
    twice the limit of handshake messages within one second always puts the
    engine under load, and it is under load only with few reclaimable slots or
    with more than the limit of messages in the last three seconds, so a burst
    is forgotten after an idle gap. *)
Theorem load_detection `{Cidr} (cfg : LoadConfig) (p : Pool) (start : Instant) (times : list Instant) (now : Instant) :
  0 <= start -> StronglySorted Z.le (times ++ [now]) -> Forall (fun t => start <= t) (times ++ [now]) ->
  Z.of_nat (length times) + 1 < u32_max ->
  let l := load_run (mkLoad start 0 0) (times ++ [now]) in
  (2 * under_load_handshakes_per_sec cfg < between (now - 999) (now + 1) (times ++ [now]) ->
   under_load cfg p l now = true) /\
  (under_load cfg p l now = true ->
   (length (retain (fun s => is_free s || lapsed now s) (slots p)) <= under_load_free_slots cfg)%nat \/
   under_load_handshakes_per_sec cfg < between (now - 2999) (now + 1) (times ++ [now])).
Proof.
  intros H0 Hs Hf Hlen. pose proof (load_run_inv start (times ++ [now]) H0 Hs Hf) as Hinv.
  rewrite length_app in Hinv. cbn [length] in Hinv. specialize (Hinv ltac:(lia)).
  destruct Hinv as ([Hp Hst Hc Hl Hh] & Hlast & _). rewrite reverse_snoc in Hlast.
  inversion Hlast as [|? ? Hge _]; subst. clear Hlast. intros l. fold l in Hp, Hst, Hc, Hl, Hh, Hge.
  set (all := times ++ [now]) in *. set (s := hs_window_start l) in *.
  assert (Hin : now < s + 1000).
  { unfold all in Hp. apply Forall_app in Hp as [_ Hp]. inversion Hp; subst. lia. }
  assert (Hcur : between s (s + 1000) all = between s (now + 1) all).
  { rewrite (between_split s (now + 1) (s + 1000)) by lia.
    rewrite (between_above (now + 1)); [lia|]. unfold all. apply sorted_snoc in Hs as [_ Hs].
    apply Forall_app. split; [eapply Forall_impl; [exact Hs|]; cbn; lia|]. repeat constructor; lia. }
  unfold under_load. split.
  - intros Hflood. pose proof (between_mono (now - 999) (now + 1) (s - 1000) (now + 1) all ltac:(lia) ltac:(lia)).
    pose proof (between_split (s - 1000) s (now + 1) all ltac:(lia)).
    destruct (Z.ltb_spec (under_load_handshakes_per_sec cfg) (hs_window_count l)); [by rewrite orb_true_r|].
    destruct (Z.ltb_spec (under_load_handshakes_per_sec cfg) (hs_prev_count l)); [by rewrite orb_true_r|]. lia.
  - rewrite !orb_true_iff, Nat.leb_le, !Z.ltb_lt. intros [[?|Hcnt]|Hprev]; [by left|right..].
    + pose proof (between_mono s (now + 1) (now - 2999) (now + 1) all ltac:(lia) ltac:(lia)). lia.
    + pose proof (between_mono (s - 2000) s (now - 2999) (now + 1) all ltac:(lia) ltac:(lia)). lia.
Qed.

Lemma load_detection_witness :
  @under_load CidrModel.ops (mkLoadConfig 1 2) (pool_init 2 4) (load_run (mkLoad 0 0 0) ([10; 20; 30; 40] ++ [50])) 50 = true.
Proof.
  apply (@load_detection CidrModel.ops (mkLoadConfig 1 2) (pool_init 2 4) 0 [10; 20; 30; 40] 50).
  - lia.
  - repeat constructor; lia.
  - repeat constructor; lia.
  - vm_compute. reflexivity.
  - vm_compute. reflexivity.
Defined.
