(* ===== verification/Core.v ===== *)
(** * The engine's state ([pub struct Core] of [microtun-core/src/lib.rs])

    The fields the modelled handlers use, grouped by the component that owns them.
    The embedding's [Sink] is the list of what was delivered to it, oldest first. *)

From S2P Require Import Prelude Clock Constants Ip Messages Effect Cidr Rate.
From S2P Require Import Firewall Routing Crypto Noise Cookie Session Pending Peer.
From S2P Require Import Pool Deadlines WallClock Load Resolve.
Local Open Scope nat_scope.

(** The const parameters of [Core] and the storage ceilings of the backend. *)
Class Sizes := {
  MAX_PEERS : nat;
  MAX_SESSIONS : nat;
  REPLAY_WORDS : nat;
  MAX_FIREWALL_FLOWS : nat;
  MAX_RATE_ENTRIES : nat;
  MAX_ROUTES : nat;
}.

(** What the engine hands to its [Sink]. *)
Inductive Output :=
| OuterDatagram (destination : SocketAddr) (datagram : list Z)
| InnerPacket (src_peer_key : list Z) (src_endpoint : option SocketAddr) (packet : list Z)
| PeerEndpointUpdate (peer_key : list Z) (new_endpoint : SocketAddr)
| PeerEvicted (peer_key : list Z)
| ResolveRequested (request : ResolveRequest).

Record Keys := mkKeys {
  s_priv : list Z;
  s_pub : list Z;
  our_mac1_key : list Z;
  our_cookie_key : list Z;
}.

(** The handshake admission state: cookies, the per-source limiter and the
    budget of unknown identities. *)
Record Gate := mkGate {
  cookie_secret : CookieSecret;
  rate : RateLimiter;
  unknown_authentications : TokenBucket;
}.

Section Core.
Context {CR : Cidr} {PM : PrefixMap nat} {R : Type}.

Record Core := mkCore {
  rng : R;
  keys : Keys;
  load_config : LoadConfig;
  relay_policy : list Z -> list Z -> bool;
  pool : Pool;
  routes : RouteCache;
  pending : PendingPool;
  gate : Gate;
  firewall : Firewall;
  wallclock : Wall;
  load : Load;
  resolver : Resolver;
  scratch : list Z;
  relay_scratch : list Z;
  sink : list Output;
}.

(** Record updates. *)
Definition with_rng (c : Core) (x : R) : Core :=
  mkCore x (keys c) (load_config c) (relay_policy c) (pool c) (routes c) (pending c) (gate c) (firewall c) (wallclock c) (load c) (resolver c)
    (scratch c) (relay_scratch c) (sink c).
Definition with_pool (c : Core) (x : Pool) : Core :=
  mkCore (rng c) (keys c) (load_config c) (relay_policy c) x (routes c) (pending c) (gate c) (firewall c) (wallclock c) (load c) (resolver c)
    (scratch c) (relay_scratch c) (sink c).
Definition with_routes (c : Core) (x : RouteCache) : Core :=
  mkCore (rng c) (keys c) (load_config c) (relay_policy c) (pool c) x (pending c) (gate c) (firewall c) (wallclock c) (load c) (resolver c)
    (scratch c) (relay_scratch c) (sink c).
Definition with_pending (c : Core) (x : PendingPool) : Core :=
  mkCore (rng c) (keys c) (load_config c) (relay_policy c) (pool c) (routes c) x (gate c) (firewall c) (wallclock c) (load c) (resolver c)
    (scratch c) (relay_scratch c) (sink c).
Definition with_gate (c : Core) (x : Gate) : Core :=
  mkCore (rng c) (keys c) (load_config c) (relay_policy c) (pool c) (routes c) (pending c) x (firewall c) (wallclock c) (load c) (resolver c)
    (scratch c) (relay_scratch c) (sink c).
Definition with_firewall (c : Core) (x : Firewall) : Core :=
  mkCore (rng c) (keys c) (load_config c) (relay_policy c) (pool c) (routes c) (pending c) (gate c) x (wallclock c) (load c) (resolver c)
    (scratch c) (relay_scratch c) (sink c).
Definition with_wallclock (c : Core) (x : Wall) : Core :=
  mkCore (rng c) (keys c) (load_config c) (relay_policy c) (pool c) (routes c) (pending c) (gate c) (firewall c) x (load c) (resolver c)
    (scratch c) (relay_scratch c) (sink c).
Definition with_load (c : Core) (x : Load) : Core :=
  mkCore (rng c) (keys c) (load_config c) (relay_policy c) (pool c) (routes c) (pending c) (gate c) (firewall c) (wallclock c) x (resolver c)
    (scratch c) (relay_scratch c) (sink c).
Definition with_resolver (c : Core) (x : Resolver) : Core :=
  mkCore (rng c) (keys c) (load_config c) (relay_policy c) (pool c) (routes c) (pending c) (gate c) (firewall c) (wallclock c) (load c) x
    (scratch c) (relay_scratch c) (sink c).
Definition with_buffers (c : Core) (x y : list Z) : Core :=
  mkCore (rng c) (keys c) (load_config c) (relay_policy c) (pool c) (routes c) (pending c) (gate c) (firewall c) (wallclock c) (load c) (resolver c)
    x y (sink c).
Definition with_sink (c : Core) (x : list Output) : Core :=
  mkCore (rng c) (keys c) (load_config c) (relay_policy c) (pool c) (routes c) (pending c) (gate c) (firewall c) (wallclock c) (load c) (resolver c)
    (scratch c) (relay_scratch c) x.

(** The effect of a handler. *)
Notation Run := (Eff Core).

Definition on_pool {A} (m : Eff Pool A) : Run A := zoom pool with_pool m.
Definition on_wall {A} (m : Eff Wall A) : Run A := zoom wallclock with_wallclock m.

(** A draw from the generator. *)
Definition draw {A} (f : R -> A * R) : Run A := fun c =>
  let '(a, r) := f (rng c) in (Ok a, with_rng c r).
(** A fallible draw: the generator advances also when it fails. *)
Definition try_draw {A} (f : R -> Result A * R) : Run A := fun c =>
  let '(a, r) := f (rng c) in (a, with_rng c r).

(** [sink.outer_datagram(..).await] and the other deliveries. *)
Definition emit (o : Output) : Run unit := modify (fun c => with_sink c (sink c ++ [o])).

(** [Option<Error>]-free reads of the pool. *)
Definition the_peer (pidx : PeerIdx) (e : Err) : Run PeerEntry := demand (fun c => peer_at (pool c) pidx) e.

(** [peers.get_mut(pidx).and_then(Option::as_mut)] then writes. *)
Definition edit_peer (pidx : PeerIdx) (f : PeerEntry -> PeerEntry) : Run unit :=
  modify (fun c => with_pool c (update_peer pidx f (pool c))).
(** [*self.slots.get_mut(sidx) = slot] *)
Definition put_slot (sidx : SlotIdx) (s : Slot) : Run unit :=
  modify (fun c => with_pool c (with_slots (pool c) (<[sidx := s]> (slots (pool c))))).
Definition arm_timer (at' : Instant) : Run unit := on_pool (arm at').

(** ** Running the primitive effects *)

Section Steps.
Context {B : Type} (k : unit -> Run B).

Lemma bind_emit o c : (emit o ≫= k) c = k tt (with_sink c (sink c ++ [o])).
Proof. done. Qed.
Lemma bind_edit_peer i f c : (edit_peer i f ≫= k) c = k tt (with_pool c (update_peer i f (pool c))).
Proof. done. Qed.
Lemma bind_put_slot s x c :
  (put_slot s x ≫= k) c = k tt (with_pool c (with_slots (pool c) (<[s := x]> (slots (pool c))))).
Proof. done. Qed.
Lemma bind_arm_timer d c :
  (arm_timer d ≫= k) c = k tt (with_pool c (with_timers (pool c) (tc_arm (timers (pool c)) d))).
Proof. done. Qed.
End Steps.

Lemma run_arm_timer d c :
  arm_timer d c = (Ok tt, with_pool c (with_timers (pool c) (tc_arm (timers (pool c)) d))).
Proof. done. Qed.

Lemma bind_the_peer {A} i e (k : PeerEntry -> Run A) c :
  (the_peer i e ≫= k) c = match peer_at (pool c) i with Some p => k p c | None => (Failed e, c) end.
Proof. unfold the_peer. by rewrite bind_demand. Qed.

Lemma bind_draw {A A'} (f : R -> A * R) (k : A -> Run A') c :
  (draw f ≫= k) c = let '(a, r) := f (rng c) in k a (with_rng c r).
Proof. rewrite bind_run. unfold draw. by destruct (f (rng c)). Qed.

Lemma bind_try_draw {A A'} (f : R -> Result A * R) (k : A -> Run A') c :
  (try_draw f ≫= k) c =
    let '(a, r) := f (rng c) in match a with Ok a => k a (with_rng c r) | Failed e => (Failed e, with_rng c r) end.
Proof. rewrite bind_run. unfold try_draw. by destruct (f (rng c)) as [[]]. Qed.

Lemma bind_on_pool {A A'} (m : Eff Pool A) (k : A -> Run A') c :
  (on_pool m ≫= k) c = match m (pool c) with
                       | (Ok a, p) => k a (with_pool c p)
                       | (Failed e, p) => (Failed e, with_pool c p)
                       end.
Proof. rewrite bind_run. unfold on_pool, zoom. by destruct (m (pool c)) as [[]]. Qed.

Lemma bind_on_wall {A A'} (m : Eff Wall A) (k : A -> Run A') c :
  (on_wall m ≫= k) c = match m (wallclock c) with
                       | (Ok a, w) => k a (with_wallclock c w)
                       | (Failed e, w) => (Failed e, with_wallclock c w)
                       end.
Proof. rewrite bind_run. unfold on_wall, zoom. by destruct (m (wallclock c)) as [[]]. Qed.

(** Effects on the resolver's share of the state. *)
Definition edit_resolver (f : Resolver -> Resolver) : Run unit := modify (fun c => with_resolver c (f (resolver c))).
(** An operation on it that also returns a value. *)
Definition on_resolver {A} (f : Resolver -> A * Resolver) : Run A := fun c =>
  let '(a, r) := f (resolver c) in (Ok a, with_resolver c r).

Lemma bind_edit_resolver {B} f (k : unit -> Run B) c :
  (edit_resolver f ≫= k) c = k tt (with_resolver c (f (resolver c))).
Proof. done. Qed.

Lemma bind_on_resolver {A B} (f : Resolver -> A * Resolver) (k : A -> Run B) c :
  (on_resolver f ≫= k) c = let '(a, r) := f (resolver c) in k a (with_resolver c r).
Proof. rewrite bind_run. unfold on_resolver. by destruct (f (resolver c)). Qed.

(** ** The engine's deadlines *)

Definition live (c : Core) : list Instant :=
  pool_live (pool c) ++ pool_deadlines (pending c) ++ (ir_deadline <$> resolves (resolver c))
    ++ (pr_due <$> pending_reconciles (resolver c)).

(** No deadline is added before this instant: a reconciliation may be owed at once
    when the negative lifetime is zero. *)
Definition soon (c : Core) (now : Instant) : Instant :=
  instant_add now (Z.min 1 (negative_ttl (core_config (resolver c)))).

(** What every handler keeps between the states before and after: the settings, and
    the cover of the deadlines. *)
Definition core_le (now : Instant) (c c' : Core) : Prop :=
  core_config (resolver c') = core_config (resolver c) /\
  adv_on (soon c now) (timers (pool c)) (timers (pool c')) (live c) (live c').

Lemma core_le_refl now c : core_le now c c.
Proof. split; [done|apply adv_refl]. Qed.

Lemma core_le_trans now c1 c2 c3 : core_le now c1 c2 -> core_le now c2 c3 -> core_le now c1 c3.
Proof.
  intros [E1 H1] [E2 H2]. split; [congruence|]. eapply adv_trans; [exact H1|]. unfold soon in *. by rewrite <- E1.
Qed.

(** A step of the pool alone. *)
Lemma core_le_pool now c c' :
  resolver c' = resolver c -> pending c' = pending c -> pool_adv now (pool c) (pool c') -> core_le now c c'.
Proof.
  intros Er Ep H. split; [by rewrite Er|]. unfold live. rewrite Er, Ep. apply adv_app.
  eapply adv_weaken; [|exact H]. unfold soon, instant_add, saturating_add, sat_add. lia.
Qed.

Lemma core_le_same now c c' :
  resolver c' = resolver c -> pending c' = pending c -> pool c' = pool c -> core_le now c c'.
Proof. intros Er Ep E. apply core_le_pool; [done..|]. rewrite E. apply pool_adv_refl. Qed.

(** ** The engine's invariant *)

(** Keys are 32 bytes and the send counter is a counter. *)
Definition session_wf (s : Session) : Prop :=
  length (t_send s) = 32 /\ length (t_recv s) = 32 /\ (0 <= n_send s)%Z.

(** Timeouts that matter for progress are positive, as construction checks. *)
Definition config_wf (cfg : ResolverConfig) : Prop :=
  (1 <= resolve_timeout cfg)%Z /\ (1 <= resolve_outbound_timeout cfg)%Z /\ (0 <= negative_ttl cfg)%Z /\
  (Z.of_nat (max_inflight_resolves cfg) <= u64_max)%Z.

Context {SZ : Sizes} {CL : CidrLaws} {ML : PrefixMapLaws (V:=nat) MAX_ROUTES}.

Record core_inv (c : Core) : Prop := {
  co_pool : pool_inv MAX_PEERS MAX_SESSIONS None (pool c);
  co_sessions s sess : established (pool c) s = Some sess -> session_wf sess;
  co_keys k i : peers_by_public_key (pool c) !! k = Some i -> length k = 32;
  co_keepalive i e iv : peer_at (pool c) i = Some e -> persistent_keepalive e = Some iv -> (1 <= iv)%Z;
  co_routes : rc_inv MAX_ROUTES (routes c);
  co_orders : (0 <= rc_next (routes c))%Z;
  co_routed e : e ∈ Routing.routes (routes c) -> is_Some (peer_at (pool c) (re_peer e));
  co_resolver : resolver_inv MAX_PEERS (resolver c);
  co_config : config_wf (core_config (resolver c));
  co_scratch : length (scratch c) = MAX_UDP_SIZE;
  co_relay : length (relay_scratch c) = MAX_UDP_SIZE;
}.

(** A handler that keeps the invariant and covers the deadlines it adds. *)
Definition moves {A} (now : Instant) (m : Run A) : Prop :=
  forall c, core_inv c -> core_inv (snd (m c)) /\ core_le now c (snd (m c)).

Lemma moves_bind {A B} now (m : Run A) (k : A -> Run B) :
  moves now m -> (forall a, moves now (k a)) -> moves now (m ≫= k).
Proof.
  intros Hm Hk c Hc. rewrite bind_run. destruct (Hm c Hc) as [Hi Hl].
  destruct (m c) as [[a|e] c']; cbn [snd] in *; [|done].
  destruct (Hk a c' Hi) as [Hi' Hl']. split; [done|]. by eapply core_le_trans.
Qed.

Lemma moves_pure {A} now (f : Core -> Result A) : moves now (fun c => (f c, c)).
Proof. intros c Hc. split; [done|apply core_le_refl]. Qed.
Lemma moves_mret {A} now (a : A) : moves now (mret a).
Proof. apply (moves_pure now (fun _ => Ok a)). Qed.
Lemma moves_throw {A} now e : moves now (@throw Core A e).
Proof. apply (moves_pure now (fun _ => Failed e)). Qed.
Lemma moves_lift {A} now (r : Result A) : moves now (lift r).
Proof. apply (moves_pure now (fun _ => r)). Qed.
Lemma moves_gets {A} now (f : Core -> A) : moves now (gets f).
Proof. apply (moves_pure now (fun c => Ok (f c))). Qed.
Lemma moves_demand {A} now (f : Core -> option A) e : moves now (demand f e).
Proof. apply moves_pure. Qed.
Lemma moves_guard now (f : Core -> bool) e : moves now (guard f e).
Proof. apply (moves_pure now (fun c => if f c then Failed e else Ok tt)). Qed.
Lemma moves_ignore {A} now (m : Run A) : moves now m -> moves now (ignore m).
Proof. intros Hm c Hc. exact (Hm c Hc). Qed.
Lemma moves_attempt {A} now (m : Run A) : moves now m -> moves now (attempt m).
Proof. intros Hm c Hc. destruct (Hm c Hc) as [? ?]. unfold attempt. by destruct (m c). Qed.

Lemma moves_if {A} now (b : bool) (m m' : Run A) : moves now m -> moves now m' -> moves now (if b then m else m').
Proof. by destruct b. Qed.
Lemma moves_state {A} now (f : Core -> Run A) : (forall c, core_inv c -> moves now (f c)) -> moves now (fun c => f c c).
Proof. intros H c Hc. by apply H. Qed.

(** Replacing the pool, the rest of the invariant being carried along. *)
Lemma core_inv_pool c c' :
  core_inv c -> pool_inv MAX_PEERS MAX_SESSIONS None (pool c') ->
  (forall s sess, established (pool c') s = Some sess -> session_wf sess) ->
  peers_by_public_key (pool c') = peers_by_public_key (pool c) ->
  (forall i, identity <$> peer_at (pool c') i = identity <$> peer_at (pool c) i) ->
  routes c' = routes c -> resolver c' = resolver c ->
  length (scratch c') = MAX_UDP_SIZE -> length (relay_scratch c') = MAX_UDP_SIZE -> core_inv c'.
Proof.
  intros [_ _ Hk Hka Hr Ho Hrt Hrs Hcf _ _] Hp Hs Ek Hid Er Eres Hsc Hrsc.
  split; rewrite ?Er, ?Eres; try done.
  - by rewrite Ek.
  - intros i e iv He Hiv. specialize (Hid i). rewrite He in Hid. cbn in Hid.
    destruct (peer_at (pool c) i) as [e0|] eqn:E0; [|done]. eapply Hka; [done|].
    unfold identity in Hid. cbn in Hid. congruence.
  - intros e He. destruct (Hrt e He) as [x Hx]. specialize (Hid (re_peer e)). rewrite Hx in Hid.
    destruct (peer_at (pool c') (re_peer e)); [done|discriminate].
Qed.

(** The other components. *)
Lemma core_inv_rest c c' :
  core_inv c -> pool c' = pool c -> routes c' = routes c -> resolver c' = resolver c ->
  length (scratch c') = MAX_UDP_SIZE -> length (relay_scratch c') = MAX_UDP_SIZE -> core_inv c'.
Proof.
  intros Hc Ep Er Es ? ?. apply (core_inv_pool c); rewrite ?Ep; try done; apply Hc.
Qed.

End Core.

#[export] Hint Rewrite @bind_emit @bind_edit_peer @bind_put_slot @bind_arm_timer @run_arm_timer @bind_the_peer
  @bind_draw @bind_try_draw @bind_on_pool @bind_on_wall @bind_edit_resolver @bind_on_resolver : eff.
#[export] Hint Resolve moves_mret moves_throw moves_lift moves_gets moves_demand moves_guard moves_ignore
  moves_attempt core_le_refl : mt.
