(* ===== verification/Demo.v ===== *)
(** * A concrete engine, for the witnesses of the engine's theorems

    Two instances of the engine with the toy primitives and each other as their
    only peer. *)

From S2P Require Import Prelude Clock Constants Ip Messages Effect Cidr Rate.
From S2P Require Import Firewall Routing Crypto Noise Cookie Session Pending Peer.
From S2P Require Import Pool WallClock Load Resolve Core Replay.
Local Open Scope nat_scope.

#[export] Existing Instance CidrModel.ops.
#[export] Existing Instance MapModel.ops.
#[export] Existing Instance CidrModel.laws.
#[export] Existing Instance MapModel.laws.
#[export] Existing Instance Toy.prims.
#[export] Existing Instance Toy.rng.

#[export] Instance demo_sizes : Sizes := {|
  MAX_PEERS := 2; MAX_SESSIONS := 4; REPLAY_WORDS := 2; MAX_FIREWALL_FLOWS := 4; MAX_RATE_ENTRIES := 4; MAX_ROUTES := 4;
|}.

Definition demo_net : IpCidr := CidrModel.mk (V4 167772160) 8 eq_refl.
Definition demo_endpoint (port : Z) : SocketAddr := SockV4 3232235777 port.

(** The peer with private key bytes [k], reachable on port [p]. *)
Definition demo_entry (me k p : Z) : PeerEntry :=
  let theirs := Crypto.public_key (replicate 32 k) in
  peer_new theirs Pinned (x25519 (replicate 32 me) theirs) (Some (demo_endpoint p)) None AllowAll None
    demo_net 0%Z.

Definition demo_config : ResolverConfig := mkResolverConfig 10000 10000 60000 4 0 30000 2 60000 5000.

Definition demo_resolver : Resolver :=
  mkResolver demo_config [] 0 (replicate 2 None) [] [] (replicate 2 None) (tb_new 1 4 0) (ib_new 10000 1 0).

Lemma demo_resolver_inv : resolver_inv MAX_PEERS demo_resolver.
Proof. split; cbn; try constructor; unfold is_u64, u64_max; lia. Qed.

(** The engine with private key bytes [me] whose peer 0 has key bytes [other]. *)
Definition demo_core (me other port : Z) : @Core CidrModel.ops MapModel.ops Z :=
  let s_pub := Crypto.public_key (replicate 32 me) in
  mkCore (me * 1000)%Z
    (mkKeys (replicate 32 me) s_pub (mac1_key s_pub) (cookie_key s_pub))
    (mkLoadConfig 0 100) (fun _ _ => false)
    (installed 0 (demo_entry me other port) (pool_init MAX_PEERS MAX_SESSIONS))
    (snd (rc_insert (rc_new 4) demo_net 0 true 0%Z))
    (pool_new 2)
    (mkGate (mkCookieSecret (replicate 32 9%Z) 0) (rl_new 10 10 4) (tb_new 1 1 0))
    (with_limits_and_timeouts 4 2 4 4 (mkTimeouts 30000 10000 7200000 10000))
    (set_unix_time 1700000000 0 0 wall_init)
    (mkLoad 0 0 0) demo_resolver
    (replicate MAX_UDP_SIZE 0%Z) (replicate MAX_UDP_SIZE 0%Z) [].

Lemma demo_pool_inv me other port : pool_inv MAX_PEERS MAX_SESSIONS None (pool (demo_core me other port)).
Proof.
  apply installed_inv; [apply pool_init_inv|done|done|done].
Qed.

(** The same engine with a confirmed session to its peer in slot 0. *)
Definition demo_session (send recv : list Z) (local remote : Z) : Session :=
  mkSession 0 send recv 0 (rw_new REPLAY_WORDS) local remote InitiatorRole 0 REKEY_AFTER_TIME true false.

Definition demo_ps : PeerSessions := mkPeerSessions (Some 0) None None None None None None None.

Definition demo_connected (me other port : Z) (send recv : list Z) (local remote : Z) : @Core CidrModel.ops MapModel.ops Z :=
  let c := demo_core me other port in
  let p := pool c in
  with_pool c
    (update_peer 0 (fun e => with_sessions e demo_ps)
       (with_slots (with_indices p (<[local := 0]> (session_indices p)))
          (<[0 := Established (demo_session send recv local remote)]> (slots p)))).

Lemma demo_core_routes_inv me other port : rc_inv MAX_ROUTES (routes (demo_core me other port)).
Proof.
  assert (H : rc_inv MAX_ROUTES (rc_new MAX_ROUTES)) by apply rc_new_inv.
  pose proof (rc_insert_spec _ (rc_new MAX_ROUTES) demo_net 0 true 0%Z H) as Hi.
  specialize (Hi ltac:(cbn; unfold u64_max; lia) ltac:(done)).
  change (routes (demo_core me other port)) with (snd (rc_insert (rc_new MAX_ROUTES) demo_net 0 true 0%Z)).
  destruct (rc_insert (rc_new MAX_ROUTES) demo_net 0 true 0%Z) as [r rc]. apply Hi.
Qed.

Lemma demo_connected_inv me other port send recv local remote :
  length send = 32 -> length recv = 32 -> core_inv (demo_connected me other port send recv local remote).
Proof.
  intros Hs Hr.
  assert (Hpeer : forall i e, peer_at (pool (demo_connected me other port send recv local remote)) i = Some e ->
    i = 0 /\ e = with_sessions (demo_entry me other port) demo_ps).
  { intros [|[|i]] e; [intros [= <-]; done|done|]. unfold peer_at. cbn. done. }
  split.
  - unfold demo_connected. cbn [pool with_pool].
    eapply (pool_inv_link _ _ _ 0 0 (demo_entry me other port) demo_ps false).
    + apply (pool_inv_fill _ _ _ _ _ 0); [apply demo_pool_inv|done..].
    + done.
    + done.
    + apply not_elem_of_nil.
    + done.
    + done.
    + done.
  - intros s sess. rewrite established_Some. unfold demo_connected. cbn.
    destruct s as [|s]; cbn; [intros [= <-]; done|].
    destruct s as [|[|[|s]]]; cbn; try done.
  - intros k i. unfold demo_connected. cbn. rewrite lookup_insert_Some, lookup_empty. intros [[<- _]|[_ [=]]].
    done.
  - intros i e iv He Hiv. destruct (Hpeer i e He) as [-> ->]. discriminate Hiv.
  - apply demo_core_routes_inv.
  - apply Z.leb_le. vm_compute. reflexivity.
  - intros e He. assert (re_peer e = 0) as ->; [|eexists; reflexivity].
    apply elem_of_routes in He. cbn in He. repeat (apply elem_of_cons in He as [He|He]; [first [discriminate He|by injection He as ->]|]).
    by apply elem_of_nil in He.
  - apply demo_resolver_inv.
  - unfold config_wf. cbn. unfold u64_max. lia.
  - exact (length_replicate MAX_UDP_SIZE 0%Z).
  - exact (length_replicate MAX_UDP_SIZE 0%Z).
Qed.
