(* ===== verification/Handshake.v ===== *)
(** * Starting handshakes ([allocate_handshake_slot] .. [build_initiation] of
    [microtun-core/src/lib.rs]) *)

From S2P Require Import Prelude Clock Constants Ip Messages Effect Cidr Rate.
From S2P Require Import Firewall Routing Crypto Noise Cookie Session SessionIndex Pending.
From S2P Require Import Peer Pool Deadlines WallClock Load Resolve Core Demo.
Local Open Scope nat_scope.

Section Handshake.
Context {SZ : Sizes} {CR : Cidr} {PM : PrefixMap nat} {PRM : Prims} {R : Type} {RG : RngCore R}.
Context {CL : CidrLaws} {ML : PrefixMapLaws (V:=nat) MAX_ROUTES}.
Notation Run := (Eff (@Core CR PM R)).

Definition unreachable (p : PeerEntry) : bool :=
  bool_decide (endpoint p = None) && bool_decide (relay p = None).

Definition allocate_handshake_slot (pidx : PeerIdx) (now : Instant) : Run (option SlotIdx) :=
  entry ← gets (fun c => peer_at (pool c) pidx);
  match entry with
  | None => mret None
  | Some peer =>
      if bool_decide (is_Some (handshake (sessions peer))) then mret None
      else if unreachable peer then throw NoEndpoint
      else
        slot ← on_pool (alloc_slot now);
        match slot with
        | None => throw SessionPoolFull
        | Some sidx => mret (Some sidx)
        end
  end.

Definition commit_handshake_start (pidx : PeerIdx) (sidx : SlotIdx) (now : Instant) : Run unit :=
  let deadline := instant_add now REKEY_ATTEMPT_TIME in
  started ← gets (fun c =>
    peer ← ok_or (peer_at (pool c) pidx) InternalInvariant;
    begin_handshake (sessions peer) sidx deadline);
  match started with
  | Failed error =>
      _ ← on_pool (free_slot sidx);
      throw error
  | Ok ps =>
      _ ← edit_peer pidx (fun peer => with_sessions peer ps);
      arm_timer deadline
  end.

Definition build_initiation (pidx : PeerIdx) (sidx : SlotIdx) (now : Instant) : Run (list Z) :=
  peer ← the_peer pidx InternalInvariant;
  _ ← guard (fun _ => unreachable peer) NoEndpoint;
  ts ← on_wall (timestamp now);
  slot ← demand (fun c => slots (pool c) !! sidx) InternalInvariant;
  existing_index ← lift (match slot with
                         | InitiatingSlot h => Ok (Some (hs_local_index h))
                         | Free => Ok None
                         | Established _ => Failed CryptoErr
                         end);
  local_index ← match existing_index with
                | Some index => mret index
                | None =>
                    m ← gets (fun c => session_indices (pool c));
                    try_draw (random_unused m)
                end;
  k ← gets keys;
  '(state, msg) ← try_draw (fun rng =>
    create_initiation rng (s_priv k) (s_pub k) (public_key peer) local_index ts (replicate INITIATION_LEN 0%Z));
  '(mac1, msg) ← lift (apply_macs msg (public_key peer) (cookie peer) now);
  retry ← draw (fun rng => handshake_retry_deadline rng now);
  _ ← match existing_index with
      | None =>
          m ← gets (fun c => session_indices (pool c));
          m' ← lift (sim_insert MAX_SESSIONS m local_index sidx);
          on_pool (modify (fun p => with_indices p m'))
      | Some _ => mret tt
      end;
  _ ← put_slot sidx (InitiatingSlot (mkInitiating pidx local_index state retry));
  _ ← edit_peer pidx (fun peer => with_cookie peer (cookie peer) (Some mac1));
  _ ← arm_timer retry;
  mret msg.

Definition stage_initiation (pidx : PeerIdx) (now : Instant) : Run (option (list Z)) :=
  slot ← allocate_handshake_slot pidx now;
  match slot with
  | None => mret None
  | Some sidx =>
      built ← attempt (build_initiation pidx sidx now);
      match built with
      | Failed error =>
          _ ← on_pool (free_slot sidx);
          throw error
      | Ok msg =>
          _ ← commit_handshake_start pidx sidx now;
          mret (Some msg)
      end
  end.

Definition ensure_direct_handshake (pidx : PeerIdx) (now : Instant) : Run unit :=
  entry ← gets (fun c => peer_at (pool c) pidx);
  match entry with
  | None => mret tt
  | Some peer =>
      if bool_decide (is_Some (relay peer)) then throw RelayUnavailable else
      dst ← lift (ok_or (endpoint peer) NoEndpoint);
      staged ← stage_initiation pidx now;
      match staged with
      | Some msg => emit (OuterDatagram dst msg)
      | None => mret tt
      end
  end.

(** ** What an initiation writes *)

(** The pool once [build_initiation] wrote its slot. *)
Definition initiated (pidx : PeerIdx) (sidx : SlotIdx) (h : Initiating) (mac1 : list Z) (p : Pool) : Pool :=
  with_timers
    (update_peer pidx (fun peer => with_cookie peer (cookie peer) (Some mac1))
       (with_slots
          (with_indices p (<[hs_local_index h := sidx]> (session_indices p)))
          (<[sidx := InitiatingSlot h]> (slots p))))
    (tc_arm (timers p) (retry_at h)).

(** Everything of the engine a staging leaves alone. *)
Record stage_frame (c c' : @Core CR PM R) : Prop := {
  sf_keys : keys c' = keys c;
  sf_routes : routes c' = routes c;
  sf_pending : pending c' = pending c;
  sf_gate : gate c' = gate c;
  sf_firewall : firewall c' = firewall c;
  sf_load : load c' = load c;
  sf_resolver : resolver c' = resolver c;
  sf_sink : sink c' = sink c;
  sf_scratch : scratch c' = scratch c /\ relay_scratch c' = relay_scratch c;
}.

Lemma build_initiation_spec pidx sidx now c o :
  pool_inv MAX_PEERS MAX_SESSIONS o (pool c) ->
  (forall h, slots (pool c) !! sidx = Some (InitiatingSlot h) -> hs_peer h = pidx) ->
  match build_initiation pidx sidx now c with
  | (Failed e, c') => pool c' = pool c /\ stage_frame c c'
  | (Ok msg, c') => stage_frame c c' /\
      exists h mac1 e, hs_peer h = pidx /\ (instant_add now 1 <= retry_at h)%Z /\ peer_at (pool c) pidx = Some e /\
        pool c' = initiated pidx sidx h mac1 (pool c) /\
        match slots (pool c) !! sidx with
        | Some Free => session_indices (pool c) !! hs_local_index h = None
        | Some (InitiatingSlot h0) => hs_local_index h = hs_local_index h0
        | _ => False
        end
  end.
Proof.
  intros Hinv Hown. unfold build_initiation, the_peer. eff.
  destruct (peer_at (pool c) pidx) as [peer|] eqn:Ep; [|by repeat split]. eff.
  destruct (unreachable peer); [by repeat split|].
  destruct (timestamp now (wallclock c)) as [[ts|e] w]; [|by repeat split]. cbn beta iota. eff.
  change (pool (with_wallclock c w)) with (pool c).
  destruct (slots (pool c) !! sidx) as [sl|] eqn:Esl; [|by repeat split]. eff.
  destruct sl as [|h0|session]; eff; [| |by repeat split].
  - change (pool (with_wallclock c w)) with (pool c). destruct (random_unused _ _) as [[idx|e] r1] eqn:Er; [|by repeat split]. eff.
    destruct (create_initiation _ _ _ _ _ _ _) as [[[st msg]|e] r2]; [|by repeat split]. eff.
    destruct (apply_macs _ _ _ _) as [[mac1 msg']|e]; eff; [|by repeat split].
    match goal with |- context [handshake_retry_deadline ?g now] =>
      pose proof (handshake_retry_later g now) as Hlater; destruct (handshake_retry_deadline g now) as [retry r3] end. eff.
    destruct (sim_insert _ _ _ _) as [m'|e] eqn:Ei; eff; [|by repeat split].
    apply sim_insert_Ok in Ei as (_ & Hnone & _ & ->).
    cbn. split; [by repeat split|].
    exists (mkInitiating pidx idx st retry), mac1, peer. by repeat split.
  - destruct (create_initiation _ _ _ _ _ _ _) as [[[st msg]|e] r2]; [|by repeat split]. eff.
    destruct (apply_macs _ _ _ _) as [[mac1 msg']|e]; eff; [|by repeat split].
    match goal with |- context [handshake_retry_deadline ?g now] =>
      pose proof (handshake_retry_later g now) as Hlater; destruct (handshake_retry_deadline g now) as [retry r3] end. eff.
    cbn. split; [by repeat split|].
    exists (mkInitiating pidx (hs_local_index h0) st retry), mac1, peer.
    do 3 (split; [done|]). split; [|done]. unfold initiated. cbn.
    assert (Hidx : session_indices (pool c) !! hs_local_index h0 = Some sidx).
    { apply (pi_indices _ _ _ _ Hinv). by rewrite Esl. }
    rewrite (insert_id (session_indices (pool c))) by done. by destruct (pool c).
Qed.
Lemma initiated_peer pidx sidx h mac1 p i :
  peer_at (initiated pidx sidx h mac1 p) i =
    if decide (i = pidx) then (fun peer => with_cookie peer (cookie peer) (Some mac1)) <$> peer_at p i
    else peer_at p i.
Proof.
  set (q := with_slots (with_indices p (<[hs_local_index h := sidx]> (session_indices p)))
              (<[sidx := InitiatingSlot h]> (slots p))).
  exact (peer_at_update pidx (fun peer => with_cookie peer (cookie peer) (Some mac1)) q i).
Qed.

Lemma initiated_slot pidx sidx h mac1 p t :
  sidx < length (slots p) ->
  slots (initiated pidx sidx h mac1 p) !! t = if decide (t = sidx) then Some (InitiatingSlot h) else slots p !! t.
Proof.
  intros Hlt. unfold initiated. cbn. case_decide.
  - subst. by rewrite list_lookup_insert_eq.
  - by rewrite list_lookup_insert_ne.
Qed.

(** What it adds to the deadlines. *)
Lemma initiated_live pidx sidx h mac1 p x :
  slots p !! sidx = Some x -> (forall sess, x <> Established sess) ->
  pool_live (initiated pidx sidx h mac1 p) ⊆+ retry_at h :: retain (fun _ => false) (slot_deadlines x) ++ pool_live p.
Proof.
  intros Hs Hx. unfold initiated.
  change (pool_live (with_timers ?q _)) with (pool_live q).
  etrans; [apply (update_peer_live _ _ _ []); intros e _; done|]. 
  change (pool_live (with_slots (with_indices p ?m) ?ss)) with (pool_live (with_slots p ss)).
  etrans; [apply (put_slot_live p sidx x (InitiatingSlot h) [retry_at h] Hs)|].
  { cbn. apply submseteq_skip, submseteq_nil_l. }
  destruct x; done.
Qed.

Lemma initiated_step pidx sidx h mac1 p x now :
  slots p !! sidx = Some x -> (forall sess, x <> Established sess) -> (instant_add now 1 <= retry_at h)%Z ->
  pool_step now p (initiated pidx sidx h mac1 p).
Proof.
  intros Hs Hx Hr. split.
  - apply (pool_le_insert _ _ sidx (InitiatingSlot h)); [done..|]. intros i. rewrite initiated_peer.
    case_decide; [|done]. by destruct (peer_at p i).
  - apply adv_arm; [|done]. pose proof (initiated_live pidx sidx h mac1 p x Hs Hx) as H. by destruct x.
Qed.

(** A fresh initiation leaves its slot unlinked; a retransmission keeps its role. *)
Lemma initiated_inv pidx sidx h mac1 p e :
  hs_peer h = pidx -> peer_at p pidx = Some e ->
  match slots p !! sidx with
  | Some Free =>
      pool_inv MAX_PEERS MAX_SESSIONS None p -> session_indices p !! hs_local_index h = None ->
      pool_inv MAX_PEERS MAX_SESSIONS (Some sidx) (initiated pidx sidx h mac1 p)
  | Some (InitiatingSlot h0) =>
      forall o, pool_inv MAX_PEERS MAX_SESSIONS o p -> hs_peer h0 = pidx -> hs_local_index h = hs_local_index h0 ->
      pool_inv MAX_PEERS MAX_SESSIONS o (initiated pidx sidx h mac1 p)
  | _ => True
  end.
Proof.
  intros Hh He. destruct (slots p !! sidx) as [[|h0|]|] eqn:Es; [| |done|done].
  - intros Hinv Hidx. apply pool_inv_timers, pool_inv_update_peer; [done|].
    apply (pool_inv_fill _ _ p sidx (InitiatingSlot h) pidx); try done; cbn; congruence.
  - intros o Hinv Hh0 Hidx. apply pool_inv_timers, pool_inv_update_peer; [done|].
    assert (Hm : session_indices p !! hs_local_index h = Some sidx).
    { apply (pi_indices _ _ _ _ Hinv). rewrite Es. cbn. by rewrite Hidx. }
    rewrite (insert_id (session_indices p)) by done.
    replace (with_indices p (session_indices p)) with p by (by destruct p).
    eapply pool_inv_same_role; [done|exact Es|]. repeat split; cbn; congruence.
Qed.

(** The pool of a committed handshake. *)
Lemma commit_handshake_run pidx sidx now c e h :
  peer_at (pool c) pidx = Some e -> handshake (sessions e) = None ->
  pool_inv MAX_PEERS MAX_SESSIONS (Some sidx) (pool c) ->
  slots (pool c) !! sidx = Some (InitiatingSlot h) -> hs_peer h = pidx -> sidx ∉ linked (sessions e) ->
  exists c' ps, commit_handshake_start pidx sidx now c = (Ok tt, c') /\ stage_frame c c' /\
    begin_handshake (sessions e) sidx (instant_add now REKEY_ATTEMPT_TIME) = Ok ps /\
    pool c' = with_timers (update_peer pidx (fun e => with_sessions e ps) (pool c))
                (tc_arm (timers (pool c)) (instant_add now REKEY_ATTEMPT_TIME)) /\
    pool_inv MAX_PEERS MAX_SESSIONS None (pool c') /\ pool_step now (pool c) (pool c').
Proof.
  intros He Hn Hinv Hs Hp Hnl.
  assert (Hb : exists ps, begin_handshake (sessions e) sidx (instant_add now REKEY_ATTEMPT_TIME) = Ok ps /\
    linked ps ≡ₚ sidx :: linked (sessions e) /\ handshake ps = Some sidx).
  { unfold begin_handshake. rewrite Hn. eexists. split; [done|].
    unfold linked, ps_slots. cbn. rewrite Hn.
    destruct (current (sessions e)), (previous (sessions e)), (next (sessions e)); cbn; (split; [solve_Permutation|done]). }
  destruct Hb as (ps & Hb & Hl & Hh).
  unfold commit_handshake_start. eff. rewrite He. cbn [ok_or]. cbn [mbind result_bind]. rewrite Hb.
  eexists _, ps. split; [done|]. split; [by repeat split|]. split; [done|]. split; [done|].
  split.
  - cbn. apply pool_inv_timers. eapply (pool_inv_link _ _ _ _ _ e ps true); try done.
    unfold holds. by rewrite Hs.
  - split.
    + split; [done|]. split; [done|]. intros i.
      change (identity <$> peer_at (update_peer pidx (fun e => with_sessions e ps) (pool c)) i = identity <$> peer_at (pool c) i).
      by apply update_peer_identity.
    + apply adv_arm; [|unfold instant_add, saturating_add, sat_add; change REKEY_ATTEMPT_TIME with 90000%Z; lia].
      change (pool_live (with_timers ?q _)) with (pool_live q). apply (update_peer_live _ _ _ [_]).
      intros e0 He0. rewrite He in He0. injection He0 as <-. cbn [sessions with_sessions].
      unfold begin_handshake in Hb. rewrite Hn in Hb. injection Hb as <-. unfold session_deadlines. cbn.
      destruct (keepalive_due (sessions e)), (persistent_keepalive_due (sessions e)), (reply_due (sessions e)),
        (attempt_deadline (sessions e)); cbn; solve_submseteq.
Qed.

(** A running handshake of peer [pidx]: linked, addressable, and covered by the
    timer cache. *)
Definition handshake_running (p : Pool) (pidx : PeerIdx) (now : Instant) : Prop :=
  exists sidx h e, peer_at p pidx = Some e /\ handshake (sessions e) = Some sidx /\
    slots p !! sidx = Some (InitiatingSlot h) /\ hs_peer h = pidx /\
    slot_for_session_index p (hs_local_index h) = Some sidx /\ is_Some (attempt_deadline (sessions e)) /\
    at_or_before (tc_get (timers p)) (retry_at h) /\
    at_or_before (tc_get (timers p)) (instant_add now REKEY_ATTEMPT_TIME).

Lemma stage_frame_pool (c : @Core CR PM R) p : stage_frame c (with_pool c p).
Proof. by repeat split. Qed.

Lemma stage_frame_trans (c1 c2 c3 : @Core CR PM R) : stage_frame c1 c2 -> stage_frame c2 c3 -> stage_frame c1 c3.
Proof. intros [? ? ? ? ? ? ? ? [? ?]] [? ? ? ? ? ? ? ? [? ?]]. split; try congruence. split; congruence. Qed.

(** The build step over a free slot, with the commit after it. *)
Lemma stage_on_slot pidx sidx now c e :
  pool_inv MAX_PEERS MAX_SESSIONS None (pool c) -> peer_at (pool c) pidx = Some e ->
  handshake (sessions e) = None -> slots (pool c) !! sidx = Some Free -> sidx < MAX_SESSIONS ->
  let '(r, c') := (built ← attempt (build_initiation pidx sidx now);
    match built with
    | Failed error => _ ← on_pool (free_slot sidx); throw error
    | Ok msg => _ ← commit_handshake_start pidx sidx now; mret (Some msg)
    end) c in
  pool_inv MAX_PEERS MAX_SESSIONS None (pool c') /\ stage_frame c c' /\
  pool_step now (pool c) (pool c') /\
  match r with
  | Ok (Some _) => handshake_running (pool c') pidx now
  | Ok None => False
  | Failed _ => forall e', peer_at (pool c') pidx = Some e' -> handshake (sessions e') = None
  end.
Proof.
  intros Hinv He Hh Hs Hlt. rewrite bind_attempt.
  pose proof (build_initiation_spec pidx sidx now c None Hinv) as Hb. rewrite Hs in Hb.
  specialize (Hb ltac:(done)). destruct (build_initiation pidx sidx now c) as [[msg|err] c1]; cbn [fst snd].
  - destruct Hb as (Hf & h & mac1 & e0 & Hhp & Hretry & He0 & Hpool & Hidx). rewrite He in He0. injection He0 as <-.
    assert (Hlen : sidx < length (slots (pool c))) by (by eapply lookup_lt_Some).
    pose proof (initiated_inv pidx sidx h mac1 (pool c) e Hhp He) as Hi. rewrite Hs in Hi.
    specialize (Hi Hinv Hidx). rewrite <- Hpool in Hi.
    assert (Hp1 : peer_at (pool c1) pidx = Some (with_cookie e (cookie e) (Some mac1))).
    { rewrite Hpool, initiated_peer, decide_True, He by done. done. }
    assert (Hs1 : slots (pool c1) !! sidx = Some (InitiatingSlot h)).
    { rewrite Hpool, initiated_slot, decide_True by done. done. }
    assert (Hnl : sidx ∉ linked (sessions e)).
    { intros Hin. pose proof (linked_owner _ _ _ _ _ _ _ Hinv He Hin) as Ho.
      unfold slot_owner in Ho. by rewrite Hs in Ho. }
    destruct (commit_handshake_run pidx sidx now c1 _ h Hp1 Hh Hi Hs1 Hhp Hnl) as (c2 & ps & Hrun & Hf2 & Hbh & Hp2 & Hinv2 & Hst2).
    rewrite bind_run, Hrun. split; [done|]. split; [by eapply stage_frame_trans|].
    split. { eapply pool_step_trans; [|exact Hst2]. rewrite Hpool. by eapply initiated_step. }
    exists sidx, h, (with_sessions (with_cookie e (cookie e) (Some mac1)) ps).
    unfold begin_handshake in Hbh. cbn [sessions with_cookie] in Hbh. rewrite Hh in Hbh. cbn in Hbh. injection Hbh as <-.
    split. { rewrite Hp2. cbn [with_timers]. change (peer_at (with_timers ?q _) pidx) with (peer_at q pidx).
             rewrite peer_at_update, decide_True, Hp1 by done. done. }
    split; [done|]. split; [by rewrite Hp2|]. split; [done|].
    split. { apply (pi_indices _ _ _ _ Hinv2). rewrite Hp2. cbn. by rewrite Hs1. }
    split; [cbn; by destruct (attempt_deadline (sessions e))|].
    rewrite Hp2. cbn [timers with_timers]. rewrite tc_arm_get.
    split; apply min_deadline_spec; [left|right; cbn; lia].
    rewrite Hpool. unfold initiated. cbn [timers with_timers]. rewrite tc_arm_get. apply min_deadline_spec. right. cbn. lia.
  - destruct Hb as [Hpool Hf]. rewrite bind_run. unfold on_pool, zoom.
    rewrite Hpool, (free_slot_run _ _ None) by done. cbn.
    split; [apply (freed_inv _ _ None); done|]. split; [eapply stage_frame_trans; [done|apply stage_frame_pool]|].
    split; [apply freed_step|].
    intros e'. rewrite (freed_peer _ _ None) by done. rewrite He. cbn. intros [= <-]. cbn.
    by rewrite handshake_unlink, Hh.
Qed.

Lemma stage_initiation_spec pidx now c :
  pool_inv MAX_PEERS MAX_SESSIONS None (pool c) ->
  let '(r, c') := stage_initiation pidx now c in
  pool_inv MAX_PEERS MAX_SESSIONS None (pool c') /\ stage_frame c c' /\
  pool_step now (pool c) (pool c') /\
  match r with
  | Ok (Some _) => handshake_running (pool c') pidx now
  | Ok None => c' = c /\ (forall e, peer_at (pool c) pidx = Some e -> is_Some (handshake (sessions e)))
  | Failed _ => forall e, peer_at (pool c') pidx = Some e -> handshake (sessions e) = None
  end.
Proof.
  intros Hinv. unfold stage_initiation, allocate_handshake_slot. eff.
  destruct (peer_at (pool c) pidx) as [e|] eqn:He; eff; last first.
  { split; [done|]. split; [by repeat split|]. split; [apply pool_step_refl|]. split; [done|]. done. }
  destruct (bool_decide (is_Some (handshake (sessions e)))) eqn:Hh; eff.
  { apply bool_decide_eq_true in Hh. cbn. split; [done|]. split; [by repeat split|]. split; [apply pool_step_refl|].
    split; [done|]. intros e' [= <-]. done. }
  apply bool_decide_eq_false, eq_None_not_Some in Hh.
  destruct (unreachable e); eff.
  { cbn. split; [done|]. split; [by repeat split|]. split; [apply pool_step_refl|]. intros e'. rewrite He. by intros [= <-]. }
  
  pose proof (alloc_slot_run _ _ None (pool c) now Hinv) as Ha.
  destruct (alloc_slot now (pool c)) as [[[s|]|err] p1]; cbn [fst snd] in Ha; [| |done].
  - destruct Ha as (Hs & _ & ->). eff.
    assert (Hlt : s < length (slots (pool c))) by (by rewrite (pi_slots _ _ _ _ Hinv)).
    assert (Hinv1 : pool_inv MAX_PEERS MAX_SESSIONS None (claimed s (pool c))).
    { destruct (claimed_inv _ _ None (pool c) s Hinv Hs) as [Hi|[_ ->]]; [exact Hi|done]. }
    pose proof (stage_on_slot pidx s now (with_pool c (claimed s (pool c)))
      (with_sessions e (unlink (sessions e) s)) Hinv1) as Hst.
    cbn [pool with_pool] in Hst.
    specialize (Hst ltac:(rewrite (claimed_peer _ _ None) by done; by rewrite He)).
    specialize (Hst ltac:(cbn; by rewrite handshake_unlink, Hh) (claimed_free _ _ Hlt) Hs).
    rewrite bind_attempt in Hst.
    match type of Hst with context [let '(_, _) := ?run in _] => destruct run as [r c'] end.
    destruct Hst as (H1 & H2 & H3 & H4). split; [done|].
    split; [by eapply stage_frame_trans; [apply stage_frame_pool|]|].
    split; [by eapply pool_step_trans; [apply claimed_step|]|]. by destruct r as [[|]|].
  - destruct Ha as [-> _]. eff. cbn. split; [done|]. split; [by repeat split|]. split; [apply pool_step_refl|].
    intros e'. rewrite He. by intros [= <-].
Qed.

Lemma stage_core_inv now (c c' : @Core CR PM R) :
  core_inv c -> pool_inv MAX_PEERS MAX_SESSIONS None (pool c') -> stage_frame c c' ->
  pool_step now (pool c) (pool c') -> core_inv c' /\ core_le now c c'.
Proof.
  intros Hc Hp [? ? ? ? ? ? ? ? [Es Er]] [(Hn & Hbk & Hid) Hadv]. split.
  - apply (core_inv_pool c); try done; [|rewrite Es; apply Hc|rewrite Er; apply Hc].
    intros s sess Hs. by eapply (co_sessions _ Hc), Hn.
  - by apply core_le_pool.
Qed.

Lemma stage_initiation_moves pidx now : moves now (stage_initiation pidx now).
Proof.
  intros c Hc. pose proof (stage_initiation_spec pidx now c (co_pool _ Hc)) as H.
  destruct (stage_initiation pidx now c) as [r c']. destruct H as (? & ? & ? & _). by eapply stage_core_inv.
Qed.

Lemma emit_moves now o : moves now (@emit CR PM R o).
Proof.
  intros c Hc. split; [|by apply core_le_same]. apply (core_inv_rest c); try done; apply Hc.
Qed.

Lemma ensure_direct_handshake_moves pidx now : moves now (ensure_direct_handshake pidx now).
Proof.
  apply moves_bind; [apply moves_gets|]. intros [peer|]; [|apply moves_mret].
  case_bool_decide; [apply moves_throw|]. apply moves_bind; [apply moves_lift|]. intros dst.
  apply moves_bind; [apply stage_initiation_moves|]. intros [msg|]; [apply emit_moves|apply moves_mret].
Qed.

(** ** Theorems *)

(** starting a handshake is all or nothing: on a consistent pool it either
    leaves the engine untouched because the peer is gone or already has one in
    flight, or ends with a linked, addressable initiation whose retry and attempt
    deadlines the timer cache covers, or fails with no handshake and no slot
    left behind; the pool is consistent afterwards in every case and nothing is
    sent and no other component changes. *)
Theorem stage_initiation_atomic (pidx : PeerIdx) (now : Instant) (c : @Core CR PM R) :
  pool_inv MAX_PEERS MAX_SESSIONS None (pool c) ->
  let '(r, c') := stage_initiation pidx now c in
  pool_inv MAX_PEERS MAX_SESSIONS None (pool c') /\ stage_frame c c' /\
  pool_step now (pool c) (pool c') /\
  match r with
  | Ok (Some _) => handshake_running (pool c') pidx now
  | Ok None => c' = c /\ (forall e, peer_at (pool c) pidx = Some e -> is_Some (handshake (sessions e)))
  | Failed _ => forall e, peer_at (pool c') pidx = Some e -> handshake (sessions e) = None
  end.
Proof. apply stage_initiation_spec. Qed.

End Handshake.

Lemma stage_initiation_atomic_witness :
  exists msg, fst (stage_initiation 0 5000 (demo_core 1 2 51820)) = Ok (Some msg) /\
    handshake_running (pool (snd (stage_initiation 0 5000 (demo_core 1 2 51820)))) 0 5000.
Proof.
  pose proof (stage_initiation_atomic 0 5000 (demo_core 1 2 51820) (demo_pool_inv 1 2 51820)) as H.
  assert (E : match fst (stage_initiation 0 5000 (demo_core 1 2 51820)) with Ok (Some _) => true | _ => false end = true)
    by (vm_compute; reflexivity).
  destruct (stage_initiation 0 5000 (demo_core 1 2 51820)) as [r c']. cbn [fst snd] in *.
  destruct H as (_ & _ & _ & H). destruct r as [[msg|]|e]; [|discriminate E|discriminate E]. by exists msg.
Defined.
