(* ===== verification/Transport.v ===== *)
(** * Sealing and sending transport messages ([outbound], [send_to_peer],
    [encrypt_and_send] .. [transmit_wire] of [microtun-core/src/lib.rs]) *)

From S2P Require Import Prelude Clock Constants Ip Messages Effect Cidr Rate.
From S2P Require Import Firewall Routing Relay Crypto Noise Cookie Session Pending.
From S2P Require Import Peer Pool Deadlines WallClock Load Resolve Core Demo.
From S2P Require Import Handshake.
Local Open Scope nat_scope.

Section Transport.
Context {SZ : Sizes} {CR : Cidr} {PM : PrefixMap nat} {PRM : Prims} {R : Type} {RG : RngCore R}.
Context {CL : CidrLaws} {ML : PrefixMapLaws (V:=nat) MAX_ROUTES}.
Notation Run := (Eff (@Core CR PM R)).

Definition buffer (use_relay : bool) (c : @Core CR PM R) : list Z :=
  if use_relay then relay_scratch c else scratch c.
Definition write_buffer (use_relay : bool) (b : list Z) : Run unit :=
  modify (fun c => if use_relay then with_buffers c (scratch c) b else with_buffers c b (relay_scratch c)).

(** The associated data of a transport message type. *)
Definition transport_ad (message_type : Z) : Result (list Z) :=
  if (message_type =? MSG_DATA)%Z then Ok []
  else if (message_type =? MSG_RELAY)%Z then Ok RELAY_AEAD_AD
  else Failed InternalInvariant.

(** Header fields and padding around the payload staged at [PACKET_START]. *)
Definition frame_datagram (buf : list Z) (message_type : Z) (sess : Session) (payload_len padded_len : nat)
  : Result (list Z) :=
  buf ← write_type buf message_type;
  let buf := blit buf data_RECEIVER.1 (le_bytes 4 (s_remote_index sess)) in
  let buf := blit buf data_COUNTER.1 (le_bytes 8 (n_send sess)) in
  mret (blit buf (PACKET_START + payload_len) (replicate (padded_len - payload_len) 0%Z)).

(** The entry of the peer that sealed. *)
Definition sealed_entry (total : nat) (persistent armed : option Instant) (now : Instant) (peer : PeerEntry)
  : PeerEntry :=
  with_activity
    (with_sessions peer (set_due (sessions peer) None persistent
       (match armed with Some d => Some d | None => reply_due (sessions peer) end)))
    (last_relay_resolve peer) (latest_handshake peer) (rx_bytes peer)
    (sat_add u64_max (tx_bytes peer) (Z.of_nat total)) now.

(** The bookkeeping after a successful seal: counter, traffic, send-side timers. *)
Definition seal_commit (pidx : PeerIdx) (sidx : SlotIdx) (sess' : Session) (peer : PeerEntry)
    (total payload_len : nat) (now : Instant) : Run unit :=
  let persistent_deadline := (fun interval => instant_add now interval) <$> persistent_keepalive peer in
  _ ← put_slot sidx (Established sess');
  armed ← (if (0 <? payload_len) && bool_decide (reply_due (sessions peer) = None) then
             jitter ← draw rekey_timeout_jitter;
             mret (Some (instant_add (instant_add (instant_add now KEEPALIVE_TIMEOUT) REKEY_TIMEOUT) jitter))
           else mret None);
  _ ← edit_peer pidx (sealed_entry total persistent_deadline armed now);
  _ ← match armed with Some d => arm_timer d | None => mret tt end;
  match persistent_deadline with Some d => arm_timer d | None => mret tt end.

Definition seal_transport (pidx : PeerIdx) (sidx : SlotIdx) (message_type : Z) (payload_len : nat)
    (use_relay : bool) (now : Instant) : Run (nat * bool) :=
  let padded_len := align_down16 (payload_len + 15) in
  let total := DATA_HEADER_LEN + padded_len + TAG_LEN in
  _ ← guard (fun _ => MAX_UDP_SIZE <? total) PacketTooLarge;
  _ ← guard (fun c => bool_decide (peer_at (pool c) pidx = None)) InternalInvariant;
  sess ← demand (fun c => match slots (pool c) !! sidx with Some (Established session) => Some session | _ => None end)
           InternalInvariant;
  _ ← guard (fun _ => negb (can_send sess now)) CryptoErr;
  let next_send := (n_send sess + 1)%Z in
  peer ← the_peer pidx InternalInvariant;
  storage ← gets (buffer use_relay);
  buf ← lift (frame_datagram (take total storage) message_type sess payload_len padded_len);
  _ ← write_buffer use_relay (buf ++ drop total storage);
  ad ← lift (transport_ad message_type);
  '(ciphertext, _) ← lift (aead_seal (t_send sess) (n_send sess) (drop PACKET_START buf) padded_len ad);
  _ ← write_buffer use_relay (take PACKET_START buf ++ ciphertext ++ drop total storage);
  let hit_msg_rekey := (REKEY_AFTER_MESSAGES <=? next_send)%Z && negb (rekey_triggered sess) in
  let hit_time_rekey := bool_decide (s_role sess = InitiatorRole) && (rekey_deadline sess <=? now)%Z
                        && negb (rekey_triggered sess) in
  let rekey := hit_msg_rekey || hit_time_rekey in
  _ ← seal_commit pidx sidx (with_send sess next_send (rekey_triggered sess || rekey)) peer total payload_len now;
  mret (total, rekey).

Definition wrap_and_seal (rpidx : PeerIdx) (rsidx : SlotIdx) (dest : list Z) (inner_total : nat) (now : Instant)
  : Run (nat * bool) :=
  let payload_len := ENVELOPE_HEADER_LEN + inner_total in
  inner ← gets (fun c => take inner_total (scratch c));
  _ ← modify (fun c => with_buffers c (scratch c)
                         (blit (relay_scratch c) (PACKET_START + ENVELOPE_HEADER_LEN) inner));
  header ← demand (fun c => write_header (drop PACKET_START (relay_scratch c)) dest inner_total) InternalInvariant;
  _ ← modify (fun c => with_buffers c (scratch c) (take PACKET_START (relay_scratch c) ++ header));
  seal_transport rpidx rsidx MSG_RELAY payload_len true now.

Definition note_outbound_flow (pidx : PeerIdx) (packet : list Z) (now : Instant) : Run unit :=
  modify (fun c =>
    match peer_at (pool c) pidx with
    | Some peer =>
        match inbound_policy peer with
        | EstablishedOnly =>
            with_firewall c (observe_outbound MAX_FIREWALL_FLOWS MAX_PEERS (firewall c) pidx packet now)
        | AllowAll => c
        end
    | None => c
    end).

Definition relay_path (relay_key : list Z) (now : Instant) : Run (PeerIdx * SlotIdx * SocketAddr) :=
  rpidx ← demand (fun c => find_peer (pool c) relay_key) RelayUnavailable;
  rpeer ← the_peer rpidx RelayUnavailable;
  _ ← guard (fun _ => bool_decide (is_Some (relay rpeer))) RelayUnavailable;
  dst ← lift (ok_or (endpoint rpeer) RelayUnavailable);
  usable ← gets (fun c => usable_session (pool c) rpidx now);
  match usable with
  | Some rsidx => mret (rpidx, rsidx, dst)
  | None =>
      _ ← ignore (ensure_direct_handshake rpidx now);
      throw RelayUnavailable
  end.

Definition transmit_wire (pidx : PeerIdx) (direct_dst : option SocketAddr) (msg : list Z) (now : Instant) : Run unit :=
  peer ← the_peer pidx InternalInvariant;
  match relay peer with
  | None =>
      dst ← lift (ok_or (match direct_dst with Some d => Some d | None => endpoint peer end) NoEndpoint);
      emit (OuterDatagram dst msg)
  | Some relay_key =>
      '(rpidx, rsidx, relay_endpoint) ← relay_path relay_key now;
      _ ← guard (fun _ => MAX_RELAY_INNER_SIZE <? length msg) PacketTooLarge;
      let payload_len := ENVELOPE_HEADER_LEN + length msg in
      _ ← modify (fun c => with_buffers c (scratch c)
                             (blit (relay_scratch c) (PACKET_START + ENVELOPE_HEADER_LEN) msg));
      header ← demand (fun c => write_header (drop PACKET_START (relay_scratch c)) (public_key peer) (length msg))
                 InternalInvariant;
      _ ← modify (fun c => with_buffers c (scratch c) (take PACKET_START (relay_scratch c) ++ header));
      '(total, rekey_relay) ← seal_transport rpidx rsidx MSG_RELAY payload_len true now;
      datagram ← gets (fun c => take total (relay_scratch c));
      _ ← emit (OuterDatagram relay_endpoint datagram);
      if rekey_relay : bool then ignore (ensure_direct_handshake rpidx now) else mret tt
  end.

Definition ensure_handshake (pidx : PeerIdx) (now : Instant) : Run unit :=
  staged ← stage_initiation pidx now;
  match staged with
  | Some msg => ignore (transmit_wire pidx None msg now)
  | None => mret tt
  end.

(** [self.scratch\[PACKET_START..packet_end\].copy_from_slice(packet)] *)
Definition stage_packet (packet : list Z) : Run unit :=
  modify (fun c => with_buffers c (blit (scratch c) PACKET_START packet) (relay_scratch c)).

Definition encrypt_via_relay (pidx : PeerIdx) (sidx : SlotIdx) (relay_key packet : list Z) (now : Instant) : Run unit :=
  '(rpidx, rsidx, relay_endpoint) ← relay_path relay_key now;
  let padded_len := align_down16 (length packet + 15) in
  let inner_total := DATA_HEADER_LEN + padded_len + TAG_LEN in
  _ ← guard (fun _ => MAX_RELAY_INNER_SIZE <? inner_total) PacketTooLarge;
  peer ← the_peer pidx InternalInvariant;
  _ ← stage_packet packet;
  '(inner_total, rekey_dest) ← seal_transport pidx sidx MSG_DATA (length packet) false now;
  '(total, rekey_relay) ← wrap_and_seal rpidx rsidx (public_key peer) inner_total now;
  datagram ← gets (fun c => take total (relay_scratch c));
  _ ← emit (OuterDatagram relay_endpoint datagram);
  _ ← note_outbound_flow pidx packet now;
  _ ← (if rekey_dest : bool then ignore (ensure_handshake pidx now) else mret tt);
  if rekey_relay : bool then ignore (ensure_direct_handshake rpidx now) else mret tt.

Definition encrypt_and_send (pidx : PeerIdx) (sidx : SlotIdx) (packet : list Z) (now : Instant) : Run unit :=
  _ ← guard (fun _ => MAX_INNER_SIZE <? length packet) PacketTooLarge;
  entry ← gets (fun c => peer_at (pool c) pidx);
  match entry ≫= relay with
  | Some relay_key => encrypt_via_relay pidx sidx relay_key packet now
  | None =>
      dst ← lift (ok_or (entry ≫= endpoint) NoEndpoint);
      _ ← stage_packet packet;
      '(total, rekey) ← seal_transport pidx sidx MSG_DATA (length packet) false now;
      datagram ← gets (fun c => take total (scratch c));
      _ ← emit (OuterDatagram dst datagram);
      _ ← note_outbound_flow pidx packet now;
      if rekey : bool then ignore (ensure_handshake pidx now) else mret tt
  end.

Definition send_to_peer (pidx : PeerIdx) (packet : list Z) (now : Instant) : Run unit :=
  usable ← gets (fun c => usable_session (pool c) pidx now);
  match usable with
  | Some sidx => encrypt_and_send pidx sidx packet now
  | None =>
      let deadline := instant_add now REKEY_ATTEMPT_TIME in
      _ ← modify (fun c => with_pending c (snd (park (pending c) packet (WaitHandshake pidx) deadline)));
      _ ← arm_timer deadline;
      ensure_handshake pidx now
  end.

(** [send_initiation] and [retransmit_initiation] *)
Definition send_initiation (pidx : PeerIdx) (sidx : SlotIdx) (now : Instant) : Run unit :=
  msg ← build_initiation pidx sidx now;
  ignore (transmit_wire pidx None msg now).

Definition retransmit_initiation (pidx : PeerIdx) (sidx : SlotIdx) (now : Instant) : Run unit :=
  sent ← attempt (send_initiation pidx sidx now);
  if negb (is_ok sent) then ignore (on_pool (free_slot sidx)) else mret tt.

(** ** The datagram a seal produces *)

(** Header of a transport message. *)
Definition data_header (message_type : Z) (sess : Session) : list Z :=
  data_header_bytes (mkDataHeader (std_prefix message_type) (s_remote_index sess) (n_send sess)).

Lemma align_down16_pad n : n <= align_down16 (n + 15) < n + 16.
Proof.
  unfold align_down16. pose proof (Nat.mod_upper_bound (n + 15) 16 ltac:(lia)).
  pose proof (Nat.mod_le (n + 15) 16 ltac:(lia)). lia.
Qed.

Lemma frame_datagram_run buf mt sess n padded :
  n <= padded -> length buf = DATA_HEADER_LEN + padded + TAG_LEN ->
  frame_datagram buf mt sess n padded =
    Ok (data_header mt sess ++ (take n (drop PACKET_START buf) ++ replicate (padded - n) 0%Z)
        ++ drop (PACKET_START + padded) buf).
Proof.
  intros Hn Hl. change DATA_HEADER_LEN with 16 in Hl. change TAG_LEN with 16 in Hl. change PACKET_START with 16.
  assert (E : buf = take 4 buf ++ take 4 (drop 4 buf) ++ take 8 (drop 8 buf) ++ take n (drop 16 buf)
                    ++ take (padded - n) (drop (16 + n) buf) ++ drop (16 + padded) buf).
  { pose proof (concat_split_layout [4; 4; 8; n; padded - n; 16] buf) as H. cbn -[take drop] in H.
    rewrite app_nil_r, !drop_drop in H. rewrite <- H at 1 by (cbn; lia). cbn -[take drop].
    replace (4 + (4 + (8 + n))) with (16 + n) by lia.
    do 5 f_equal. rewrite take_ge by (rewrite length_drop; lia). f_equal. lia. }
  set (p := take n (drop 16 buf)) in *. set (z := take (padded - n) (drop (16 + n) buf)) in *.
  set (tl := drop (16 + padded) buf) in *.
  assert (Lp : length p = n) by (unfold p; rewrite length_take, length_drop; lia).
  assert (Lz : length z = padded - n) by (unfold z; rewrite length_take, length_drop; lia).
  assert (L1 : length (take 4 buf) = 4) by (rewrite length_take; lia).
  assert (L2 : length (take 4 (drop 4 buf)) = 4) by (rewrite length_take, length_drop; lia).
  assert (L3 : length (take 8 (drop 8 buf)) = 8) by (rewrite length_take, length_drop; lia).
  unfold frame_datagram, write_type. destruct (Nat.ltb_spec (length buf) 4); [lia|]. cbn [mbind result_bind].
  rewrite E at 1. revert L1 L2 L3. generalize (take 4 buf) (take 4 (drop 4 buf)) (take 8 (drop 8 buf)).
  intros b1 b2 b3 L1 L2 L3. change (data_RECEIVER.1) with 4. change (data_COUNTER.1) with 8.
  rewrite (blit_front b1) by done.
  set (hd := prefix_bytes (mkPrefix mt [0; 0; 0]%Z)). assert (Lh : length hd = 4) by done.
  rewrite (blit_piece hd b2) by (rewrite ?length_le_bytes; done).
  set (rx := le_bytes 4 (s_remote_index sess)). assert (Lr : length rx = 4) by apply length_le_bytes.
  rewrite (app_assoc hd rx), (blit_piece (hd ++ rx) b3)
    by (rewrite ?length_app, ?length_le_bytes; lia).
  set (ct := le_bytes 8 (n_send sess)). assert (Lc : length ct = 8) by apply length_le_bytes.
  replace ((hd ++ rx) ++ ct ++ p ++ z ++ tl) with (((hd ++ rx) ++ ct ++ p) ++ z ++ tl) by by rewrite !app_assoc.
  change PACKET_START with 16.
  rewrite (blit_piece ((hd ++ rx) ++ ct ++ p) z) by (rewrite ?length_app, ?length_replicate; lia).
  unfold mret, result_ret. f_equal. unfold data_header, data_header_bytes. cbn [dh_prefix dh_receiver dh_counter].
  by rewrite !app_assoc.
Qed.

(** What sealing leaves alone: everything but the generator, the pool and the
    chosen buffer. *)
Record seal_frame (use_relay : bool) (c c' : @Core CR PM R) : Prop := {
  slf_keys : keys c' = keys c;
  slf_routes : routes c' = routes c;
  slf_pending : pending c' = pending c;
  slf_gate : gate c' = gate c;
  slf_firewall : firewall c' = firewall c;
  slf_wall : wallclock c' = wallclock c;
  slf_load : load c' = load c;
  slf_resolver : resolver c' = resolver c;
  slf_sink : sink c' = sink c;
  slf_other : buffer (negb use_relay) c' = buffer (negb use_relay) c;
  slf_length : length (buffer use_relay c') = length (buffer use_relay c);
}.

(** A datagram that carries [payload] under session [sess]: the header, then a
    ciphertext that opens under the send key and counter to the payload padded
    with zeros to a multiple of sixteen. *)
Definition carries (message_type : Z) (sess : Session) (payload datagram : list Z) : Prop :=
  exists ad ct tag, transport_ad message_type = Ok ad /\
    let padded := align_down16 (length payload + 15) in
    datagram = data_header message_type sess ++ ct /\ length ct = padded + TAG_LEN /\ length tag = TAG_LEN /\
    aead_open (t_send sess) (n_send sess) ct ad =
      Ok (payload ++ replicate (padded - length payload) 0%Z ++ tag, padded).

Lemma same_role_send sess n b : same_role (Established sess) (Established (with_send sess n b)).
Proof. by repeat split. Qed.

Lemma set_due_links e ka pk r lr lh rx tx la :
  linked (sessions (with_activity (with_sessions e (set_due (sessions e) ka pk r)) lr lh rx tx la)) = linked (sessions e).
Proof. done. Qed.

Context {PL : PrimLaws}.

Lemma seal_bytes buf mt sess n padded framed ad ct sealed :
  n <= padded -> length buf = DATA_HEADER_LEN + padded + TAG_LEN -> length (t_send sess) = 32 ->
  padded = align_down16 (n + 15) -> transport_ad mt = Ok ad ->
  frame_datagram buf mt sess n padded = Ok framed ->
  aead_seal (t_send sess) (n_send sess) (drop PACKET_START framed) padded ad = Ok (ct, sealed) ->
  length (take PACKET_START framed ++ ct) = length buf /\
  carries mt sess (take n (drop PACKET_START buf)) (take PACKET_START framed ++ ct).
Proof.
  intros Hn Hl Hk Hp Had Hf Hs. rewrite frame_datagram_run in Hf by done.
  match type of Hf with Ok ?x = Ok _ => assert (framed = x) as -> by congruence end. clear Hf.
  assert (Hpl : length (take n (drop PACKET_START buf)) = n).
  { rewrite length_take, length_drop. change PACKET_START with 16. change DATA_HEADER_LEN with 16 in Hl.
    change TAG_LEN with 16 in Hl. lia. }
  set (payload := take n (drop PACKET_START buf)) in *.
  assert (Htl : length (drop (PACKET_START + padded) buf) = 16).
  { rewrite length_drop, Hl. change PACKET_START with 16. change DATA_HEADER_LEN with 16. change TAG_LEN with 16. lia. }
  set (tl := drop (PACKET_START + padded) buf) in *.
  assert (Hh : length (data_header mt sess) = PACKET_START).
  { unfold data_header, data_header_bytes. by rewrite !length_app, !length_le_bytes. }
  rewrite drop_app_length' in Hs by done. rewrite take_app_length' by done.
  destruct (aead_seal_open _ _ _ _ _ _ _ Hk Hs) as (-> & Hlc & Hd & tag & Htag & Ho).
  rewrite !length_app, length_replicate, Hpl, Htl in Hlc.
  assert (Hct : length ct = padded + 16) by lia.
  change (padded + TAG_LEN) with (padded + 16) in *. rewrite take_ge in Ho by lia.
  split.
  - rewrite length_app, Hh, Hct, Hl. change PACKET_START with 16. change DATA_HEADER_LEN with 16. change TAG_LEN with 16. lia.
  - exists ad, ct, tag. rewrite Hpl, <- Hp. do 4 (split; [done|]). rewrite Ho. do 2 f_equal.
    rewrite take_app_length' by (rewrite length_app, length_replicate; lia). by rewrite app_assoc.
Qed.

Lemma write_buffer_run relay b (c : @Core CR PM R) : exists c', write_buffer relay b c = (Ok tt, c') /\
  buffer relay c' = b /\ buffer (negb relay) c' = buffer (negb relay) c /\ pool c' = pool c /\ rng c' = rng c /\
  (length b = length (buffer relay c) -> seal_frame relay c c').
Proof. eexists. split; [done|]. destruct relay; by repeat split. Qed.

Lemma seal_frame_trans relay (c1 c2 c3 : @Core CR PM R) :
  seal_frame relay c1 c2 -> seal_frame relay c2 c3 -> seal_frame relay c1 c3.
Proof. intros [] []. split; congruence. Qed.

Lemma seal_frame_rest relay (c c' : @Core CR PM R) :
  keys c' = keys c -> routes c' = routes c -> pending c' = pending c -> gate c' = gate c ->
  firewall c' = firewall c -> wallclock c' = wallclock c -> load c' = load c -> resolver c' = resolver c ->
  sink c' = sink c ->
  scratch c' = scratch c -> relay_scratch c' = relay_scratch c -> seal_frame relay c c'.
Proof. intros. split; try done; destruct relay; cbn; congruence. Qed.

(** The bookkeeping after a seal. *)
Definition sealed_session (sess : Session) (now : Instant) : bool * Session :=
  let rekey := ((REKEY_AFTER_MESSAGES <=? n_send sess + 1)%Z && negb (rekey_triggered sess))
    || (bool_decide (s_role sess = InitiatorRole) && (rekey_deadline sess <=? now)%Z && negb (rekey_triggered sess)) in
  (rekey, with_send sess (n_send sess + 1) (rekey_triggered sess || rekey)).

Lemma established_insert p p' s sess t sess' :
  slots p' = <[s := Established sess]> (slots p) -> established p' t = Some sess' ->
  sess' = sess /\ t = s \/ t <> s /\ established p t = Some sess'.
Proof.
  rewrite !established_Some. intros ->. intros [(-> & [= ->] & _)|[? ?]]%list_lookup_insert_Some; [by left|by right].
Qed.

Lemma instant_add_mono now a b : (a <= b)%Z -> (instant_add now a <= instant_add now b)%Z.
Proof. unfold instant_add, saturating_add, sat_add. lia. Qed.

Lemma jitter_nonneg (g : R) : (0 <= fst (rekey_timeout_jitter g))%Z.
Proof.
  unfold rekey_timeout_jitter. destruct (next_u32 g) as [x r]. cbn [fst].
  apply (Z.mod_pos_bound x (sat_add u64_max REKEY_TIMEOUT_JITTER_MAX 1)). reflexivity.
Qed.

(** The timers a seal arms cover what it adds. *)
Lemma sealed_adv pidx total persistent armed peer now p :
  peer_at p pidx = Some peer ->
  (armed = None \/ exists d, armed = Some d /\ (instant_add now 1 <= d)%Z) ->
  match persistent with Some d => (instant_add now 1 <= d)%Z | None => True end ->
  pool_adv now p
    (let p := update_peer pidx (sealed_entry total persistent armed now) p in
     let p := match armed with Some d => with_timers p (tc_arm (timers p) d) | None => p end in
     match persistent with Some d => with_timers p (tc_arm (timers p) d) | None => p end).
Proof.
  intros Hp Harmed Hpers. set (q := update_peer pidx (sealed_entry total persistent armed now) p).
  assert (Hlive : pool_live q ⊆+ (omap id [persistent; armed]) ++ pool_live p).
  { apply update_peer_live. intros e He. rewrite Hp in He. injection He as <-.
    unfold session_deadlines. cbn.
    destruct persistent, armed, (keepalive_due (sessions peer)), (persistent_keepalive_due (sessions peer)),
      (reply_due (sessions peer)), (attempt_deadline (sessions peer)); cbn; solve_submseteq. }
  split.
  - intros d Hd. destruct armed, persistent; cbn; rewrite ?tc_arm_get; rewrite ?min_deadline_spec; auto.
  - exists (omap id [persistent; armed]). split; [by destruct armed, persistent|].
    destruct Harmed as [->|(d & -> & Hd)], persistent as [pd|]; cbn; repeat constructor; try done;
      rewrite ?tc_arm_get; rewrite ?min_deadline_spec; cbn; rewrite ?tc_arm_get, ?min_deadline_spec; cbn; lia.
Qed.

(** The writes of [seal_transport] to the pool. *)
Lemma seal_commit_spec pidx sidx sess sess' peer total n now (c : @Core CR PM R) :
  core_inv c -> established (pool c) sidx = Some sess -> same_role (Established sess) (Established sess') ->
  created sess' = created sess ->
  session_wf sess' -> peer_at (pool c) pidx = Some peer ->
  let '(r, c') := seal_commit pidx sidx sess' peer total n now c in
  r = Ok tt /\ core_inv c' /\ core_le now c c' /\ slots (pool c') = <[sidx := Established sess']> (slots (pool c)) /\
  scratch c' = scratch c /\ relay_scratch c' = relay_scratch c /\ (forall relay, seal_frame relay c c') /\
  (0 < n -> exists e', peer_at (pool c') pidx = Some e' /\
     match reply_due (sessions e') with Some d => True | None => False end).
Proof.
  intros Hc Hs Hrole Hcr Hsw Hp. pose proof (co_pool _ Hc) as Hinv. unfold seal_commit.
  set (persistent := (fun interval => instant_add now interval) <$> persistent_keepalive peer). eff.
  set (c1 := with_pool c (with_slots (pool c) (<[sidx := Established sess']> (slots (pool c))))).
  assert (Hinv1 : pool_inv MAX_PEERS MAX_SESSIONS None (pool c1)).
  { unfold c1. cbn. eapply pool_inv_same_role; [done|by apply established_Some|done]. }
  assert (Hend : forall armed g,
    (armed = None \/ exists d, armed = Some d /\ (instant_add now 1 <= d)%Z) ->
    let c' := with_pool (with_rng c1 g)
      (let p := update_peer pidx (sealed_entry total persistent armed now) (pool c1) in
       let p := match armed with Some d => with_timers p (tc_arm (timers p) d) | None => p end in
       match persistent with Some d => with_timers p (tc_arm (timers p) d) | None => p end) in
    core_inv c' /\ core_le now c c' /\ slots (pool c') = <[sidx := Established sess']> (slots (pool c)) /\
    scratch c' = scratch c /\ relay_scratch c' = relay_scratch c /\ (forall relay, seal_frame relay c c') /\
    (peer_at (pool c') pidx = Some (sealed_entry total persistent armed now peer))).
  { intros armed g Harmed c'.
    assert (Hs' : slots (pool c') = <[sidx := Established sess']> (slots (pool c))) by by destruct armed, persistent.
    assert (Hpeers : forall i, peer_at (pool c') i = peer_at (update_peer pidx (sealed_entry total persistent armed now) (pool c)) i)
      by (intros i; by destruct armed, persistent).
    split; [|split; [|split; [done|]]].
    - apply (core_inv_pool c); try done; [..|apply Hc|apply Hc].
      + pose proof (pool_inv_update_peer _ _ None (pool c1) pidx (sealed_entry total persistent armed now) ltac:(done) Hinv1).
        destruct armed, persistent; cbn; repeat apply pool_inv_timers; done.
      + intros t x Hx. destruct (established_insert _ _ _ _ _ _ Hs' Hx) as [[-> _]|[_ Hx']]; [done|].
        by eapply (co_sessions _ Hc).
      + by destruct armed, persistent.
      + intros i. rewrite Hpeers. by apply update_peer_identity.
    - apply core_le_pool; [done..|]. eapply pool_adv_trans.
      + apply (pool_adv_trans _ _ (pool c1)); [apply adv_drop|apply pool_adv_refl].
        apply (put_slot_live (pool c) sidx (Established sess) (Established sess') []); [by apply established_Some|].
        cbn. by rewrite Hcr.
      + apply (sealed_adv _ _ _ _ peer); [done|done|].
        unfold persistent. destruct (persistent_keepalive peer) as [iv|] eqn:Eiv; cbn; [|done].
        apply instant_add_mono. by eapply (co_keepalive _ Hc).
    - do 2 (split; [done|]). split; [by intros relay; apply seal_frame_rest|].
      rewrite Hpeers, peer_at_update, decide_True by done. by rewrite Hp. }
  assert (Hreply : forall armed, (0 < n -> armed = None -> reply_due (sessions peer) <> None) ->
    0 < n -> match reply_due (sessions (sealed_entry total persistent armed now peer)) with Some _ => True | None => False end).
  { intros armed Hn Hpos. cbn. destruct armed; [done|]. specialize (Hn Hpos eq_refl).
    by destruct (reply_due (sessions peer)). }
  destruct ((0 <? n) && bool_decide (reply_due (sessions peer) = None)) eqn:Ha; eff.
  - destruct (rekey_timeout_jitter (rng c1)) as [jitter g] eqn:Ej. eff.
    set (d := instant_add (instant_add (instant_add now KEEPALIVE_TIMEOUT) REKEY_TIMEOUT) jitter).
    assert (Hd : (instant_add now 1 <= d)%Z).
    { pose proof (jitter_nonneg (rng c1)) as Hj. rewrite Ej in Hj. cbn in Hj. unfold d, instant_add, saturating_add, sat_add.
      change KEEPALIVE_TIMEOUT with 10000%Z. change REKEY_TIMEOUT with 5000%Z. lia. }
    destruct (Hend (Some d) g) as (H1 & H2 & H3 & H4 & H5 & H6 & H7); [right; eauto|].
    destruct persistent as [pd|]; eff; cbn beta iota; (split; [done|]); do 6 (split; [done|]); intros Hn; eexists; (split; [exact H7|]);
      by apply Hreply.
  - destruct (Hend None (rng c)) as (H1 & H2 & H3 & H4 & H5 & H6 & H7); [by left|].
    destruct persistent as [pd|]; eff; cbn beta iota; (split; [done|]); do 6 (split; [done|]); intros Hn; eexists; (split; [exact H7|]);
      (apply Hreply; [|done]); intros Hpos _ E; rewrite (proj2 (Nat.ltb_lt 0 n) Hpos) in Ha; cbn in Ha;
      by apply bool_decide_eq_false in Ha.
Qed.

Lemma seal_frame_inv relay (c c' : @Core CR PM R) :
  core_inv c -> seal_frame relay c c' -> pool c' = pool c -> core_inv c'.
Proof.
  intros Hc [? ? ? ? ? ? ? ? ? Hoth Hlen] E. pose proof (co_scratch _ Hc). pose proof (co_relay _ Hc).
  apply (core_inv_rest c); try done; destruct relay; cbn in *; congruence.
Qed.

Lemma seal_transport_spec pidx sidx mt n relay now c :
  core_inv c ->
  let '(r, c') := seal_transport pidx sidx mt n relay now c in
  seal_frame relay c c' /\ core_inv c' /\ core_le now c c' /\
  match r with
  | Failed _ => pool c' = pool c
  | Ok (total, rekey) => exists sess, established (pool c) sidx = Some sess /\ can_send sess now = true /\
      total = DATA_HEADER_LEN + align_down16 (n + 15) + TAG_LEN /\ total <= MAX_UDP_SIZE /\
      slots (pool c') = <[sidx := Established (snd (sealed_session sess now))]> (slots (pool c)) /\
      rekey = fst (sealed_session sess now) /\
      carries mt sess (take n (drop PACKET_START (buffer relay c))) (take total (buffer relay c'))
  end.
Proof.
  intros Hinv. pose proof (co_sessions _ Hinv) as Hwf.
  assert (Hbuf : length (buffer relay c) = MAX_UDP_SIZE) by (destruct relay; apply Hinv).
  pose proof (core_le_refl now c) as Hrefl.
  unfold seal_transport, the_peer. eff.
  set (padded := align_down16 (n + 15)). set (total := DATA_HEADER_LEN + padded + TAG_LEN).
  destruct (Nat.ltb_spec MAX_UDP_SIZE total) as [|Htot]; [by split; [apply seal_frame_rest|]|]. eff.
  destruct (bool_decide (peer_at (pool c) pidx = None)) eqn:Hp; [by split; [apply seal_frame_rest|]|]. eff.
  fold (established (pool c) sidx).
  destruct (established (pool c) sidx) as [sess|] eqn:Es; [|by split; [apply seal_frame_rest|]]. eff.
  destruct (can_send sess now) eqn:Hcan; cbn [negb]; [|by split; [apply seal_frame_rest|]]. eff.
  destruct (peer_at (pool c) pidx) as [peer|] eqn:He; [|by split; [apply seal_frame_rest|]]. eff.
  assert (Hl : length (take total (buffer relay c)) = DATA_HEADER_LEN + padded + TAG_LEN) by (rewrite length_take; lia).
  assert (Hpad : n <= padded < n + 16) by apply align_down16_pad.
  destruct (Hwf _ _ Es) as (Hk & Hk' & Hn0).
  destruct (frame_datagram _ _ _ _ _) as [framed|e] eqn:Hf;
    [|rewrite frame_datagram_run in Hf by (done || lia); discriminate]. eff.
  assert (Hfl : length framed = total).
  { rewrite frame_datagram_run in Hf by (done || lia). 
    match type of Hf with Ok ?x = Ok _ => assert (framed = x) as -> by congruence end.
    rewrite !length_app, length_replicate, length_take, !length_drop, length_take.
    unfold data_header, data_header_bytes. rewrite !length_app, !length_le_bytes. cbn [length prefix_bytes std_prefix message_type reserved dh_prefix].
    rewrite Hbuf. unfold total in *. change DATA_HEADER_LEN with 16 in *. change TAG_LEN with 16 in *.
    change PACKET_START with 16. rewrite Nat.min_l by lia. lia. }
  destruct (write_buffer_run relay (framed ++ drop total (buffer relay c)) c) as (c1 & Hw & Hb1 & Ho1 & Hp1 & _ & Hfr1).
  specialize (Hfr1 ltac:(rewrite length_app, length_drop, Hfl; lia)).
  rewrite (bind_ok _ _ _ _ _ Hw). eff.
  assert (Hinv1 : forall c2, seal_frame relay c c2 -> pool c2 = pool c -> core_inv c2 /\ core_le now c c2).
  { intros c2 Hf2 E. split; [by eapply seal_frame_inv|]. apply core_le_same; [apply Hf2|apply Hf2|done]. }
  destruct (transport_ad mt) as [ad|] eqn:Had; [|cbn; destruct (Hinv1 c1 Hfr1 Hp1); by auto]. eff.
  destruct (aead_seal _ _ _ _ _) as [[ct sealed]|] eqn:Hs; [|cbn; destruct (Hinv1 c1 Hfr1 Hp1); by auto]. eff.
  destruct (seal_bytes (take total (buffer relay c)) mt sess n padded framed ad ct sealed) as [Hct Hcar]; try done; [lia|].
  rewrite Hl in Hct.
  destruct (write_buffer_run relay (take PACKET_START framed ++ ct ++ drop total (buffer relay c)) c1)
    as (c2 & Hw2 & Hb2 & Ho2 & Hp2 & _ & Hfr2).
  specialize (Hfr2 ltac:(rewrite app_assoc, length_app, Hct, length_drop, Hb1, length_app, length_drop, Hfl; lia)).
  rewrite (bind_ok _ _ _ _ _ Hw2).
  assert (Hfr : seal_frame relay c c2) by (by eapply seal_frame_trans).
  assert (Hpc : pool c2 = pool c) by congruence.
  pose proof (seal_commit_spec pidx sidx sess (snd (sealed_session sess now)) peer total n now c2 (proj1 (Hinv1 c2 Hfr Hpc))) as Hc.
  rewrite Hpc in Hc. specialize (Hc Es (same_role_send _ _ _)).
  specialize (Hc eq_refl ltac:(split; [done|split; [done|cbn; lia]]) He).
  rewrite bind_run. change (with_send sess (n_send sess + 1) _) with (snd (sealed_session sess now)).
  destruct (seal_commit _ _ _ _ _ _ _ c2) as [r c3]. destruct Hc as (-> & Hi3 & Hle3 & Hs3 & Hsc3 & Hrs3 & Hfr3 & _).
  split; [eapply seal_frame_trans; [exact Hfr|apply Hfr3]|]. split; [done|].
  split; [by eapply core_le_trans; [by apply Hinv1|]|].
  exists sess. split; [done|]. split; [done|]. split; [done|]. split; [done|]. split; [done|]. split; [done|].
  assert (Hb3 : buffer relay c3 = buffer relay c2) by (destruct relay; cbn; congruence).
  rewrite Hb3, Hb2, app_assoc, take_app_length' by done.
  replace (take n (drop PACKET_START (buffer relay c))) with (take n (drop PACKET_START (take total (buffer relay c)))); [done|].
  apply list_eq. intros i. destruct (decide (i < n)) as [Hi|Hi]; [|by rewrite !lookup_take_ge by lia].
  rewrite !lookup_take_lt, !lookup_drop by lia. rewrite lookup_take_lt; [done|].
  unfold total. change DATA_HEADER_LEN with 16. change PACKET_START with 16. lia.
Qed.

(** What a receiver reads of such a datagram. *)
Lemma carries_reads mt sess payload d :
  carries mt sess payload d -> is_u32 (s_remote_index sess) -> is_u64 (n_send sess) ->
  classify d = (if (mt =? MSG_DATA)%Z then Some Data else Some RelayData) /\
  get_range d data_RECEIVER ≫= read_u32_le = Some (s_remote_index sess) /\
  get_range d data_COUNTER ≫= read_u64_le = Some (n_send sess) /\
  length d = DATA_HEADER_LEN + align_down16 (length payload + 15) + TAG_LEN.
Proof.
  intros (ad & ct & tag & Had & -> & Hct & _ & _) Hr Hn.
  assert (Hl : length (data_header mt sess ++ ct) = DATA_HEADER_LEN + align_down16 (length payload + 15) + TAG_LEN).
  { unfold data_header, data_header_bytes. rewrite !length_app, !length_le_bytes, Hct.
    change DATA_HEADER_LEN with 16. cbn [length prefix_bytes std_prefix message_type reserved dh_prefix]. lia. }
  split; [|split; [|split; [|exact Hl]]].
  - unfold data_header, data_header_bytes. cbn [dh_prefix]. rewrite <- app_assoc, classify_prefix.
    cbn [app]. rewrite !length_app, !length_le_bytes, Hct.
    set (len := 4 + _). assert (Hlen : DATA_MIN_LEN <= len).
    { unfold len. change DATA_MIN_LEN with 32. change TAG_LEN with 16. lia. }
    unfold transport_ad in Had. destruct (Z.eqb_spec mt MSG_DATA) as [->|Hne].
    + cbv zeta. cbn [Z.eqb MSG_DATA MSG_INITIATION MSG_RESPONSE MSG_COOKIE_REPLY andb].
      destruct (Nat.leb_spec DATA_MIN_LEN len); [done|lia].
    + destruct (Z.eqb_spec mt MSG_RELAY) as [->|]; [|done]. cbv zeta.
      cbn [Z.eqb MSG_DATA MSG_RELAY MSG_INITIATION MSG_RESPONSE MSG_COOKIE_REPLY andb Pos.eqb].
      destruct (Nat.leb_spec DATA_MIN_LEN len); [done|lia].
  - unfold data_header, data_header_bytes, get_range, data_RECEIVER. cbn [fst snd dh_prefix dh_receiver dh_counter].
    rewrite <- !app_assoc. change (offset_of data_layout 1) with (length (prefix_bytes (std_prefix mt))).
    cbn [field_range fst snd]. rewrite slice_app_skip, Nat.sub_diag by done.
    rewrite slice_app_here by apply length_le_bytes. by apply read_u32_le_bytes.
  - unfold data_header, data_header_bytes, get_range, data_COUNTER. cbn [fst snd dh_prefix dh_receiver dh_counter].
    rewrite app_assoc, <- app_assoc.
    change (offset_of data_layout 2) with (length (prefix_bytes (std_prefix mt) ++ le_bytes 4 (s_remote_index sess))).
    cbn [field_range fst snd]. rewrite slice_app_skip, Nat.sub_diag by done.
    rewrite slice_app_here by apply length_le_bytes. cbn [mbind option_bind]. unfold read_u64_le.
    rewrite slice_exact by apply length_le_bytes. cbn [fmap option_fmap option_map]. rewrite le_value_bytes.
    f_equal. apply Z.mod_small. unfold is_u64, u64_max in Hn. change (256 ^ Z.of_nat 8)%Z with 18446744073709551616%Z. lia.
Qed.

(** ** Sequences of seals *)

Record SealCall := mkSealCall {
  sc_peer : PeerIdx;
  sc_slot : SlotIdx;
  sc_type : Z;
  sc_len : nat;
  sc_relay : bool;
  sc_now : Instant;
}.

Definition seal_call (x : SealCall) : Run (nat * bool) :=
  seal_transport (sc_peer x) (sc_slot x) (sc_type x) (sc_len x) (sc_relay x) (sc_now x).

(** The sealed datagrams with their slots, oldest first. *)
Fixpoint seal_run (calls : list SealCall) (c : @Core CR PM R) : list (SlotIdx * list Z) * @Core CR PM R :=
  match calls with
  | [] => ([], c)
  | x :: calls =>
      match seal_call x c with
      | (Ok (total, _), c) =>
          let '(out, c') := seal_run calls c in ((sc_slot x, take total (buffer (sc_relay x) c)) :: out, c')
      | (Failed _, c) => seal_run calls c
      end
  end.

(** The datagrams sealed in slot [s]. *)
Definition sealed_by (s : SlotIdx) (out : list (SlotIdx * list Z)) : list (list Z) :=
  snd <$> retain (fun x => fst x =? s) out.

Lemma sealed_established p p' sidx sess now s x :
  slots p' = <[sidx := Established (snd (sealed_session sess now))]> (slots p) -> established p sidx = Some sess ->
  established p s = Some x ->
  established p' s = Some (if decide (s = sidx) then snd (sealed_session sess now) else x).
Proof.
  intros E Hs Hx. apply established_Some. rewrite E. apply established_Some in Hx.
  assert (Hlt : s < length (slots p)) by (by eapply lookup_lt_Some).
  case_decide; [subst; by rewrite list_lookup_insert_eq|]. by rewrite list_lookup_insert_ne.
Qed.

Lemma can_send_bound sess now : can_send sess now = true -> (n_send sess < REJECT_AFTER_MESSAGES)%Z.
Proof. unfold can_send, expired. destruct (Z.leb_spec REJECT_AFTER_MESSAGES (n_send sess)); [by rewrite orb_true_r|done]. Qed.

Lemma seal_run_spec calls (c : @Core CR PM R) s sess :
  core_inv c -> established (pool c) s = Some sess -> is_u32 (s_remote_index sess) ->
  let ds := sealed_by s (fst (seal_run calls c)) in
  (fun d => get_range d data_COUNTER ≫= read_u64_le) <$> ds = Some <$> seqZ (n_send sess) (Z.of_nat (length ds)) /\
  (ds = [] \/ n_send sess + Z.of_nat (length ds) <= REJECT_AFTER_MESSAGES)%Z.
Proof.
  revert c sess. induction calls as [|x calls IH]; intros c sess Hc Hs Hr; cbn [seal_run].
  { cbn. auto. }
  pose proof (seal_transport_spec (sc_peer x) (sc_slot x) (sc_type x) (sc_len x) (sc_relay x) (sc_now x) c Hc) as Hx.
  unfold seal_call. destruct (seal_transport _ _ _ _ _ _ c) as [[[total rk]|e] c1];
    destruct Hx as (_ & Hc1 & _ & Hx); [|rewrite <- Hx in Hs; by apply IH].
  destruct Hx as (sx & Hsx & Hcan & _ & _ & Hsl & _ & Hcar).
  pose proof (sealed_established _ _ _ _ _ s sess Hsl Hsx Hs) as Hs1.
  unfold sealed_by in *. destruct (decide (s = sc_slot x)) as [->|Hne].
  - rewrite Hs in Hsx. injection Hsx as <-. specialize (IH c1 _ Hc1 Hs1 Hr).
    destruct (seal_run calls c1) as [out c2]. cbn [fst retain fmap list_fmap length] in *.
    rewrite Nat.eqb_refl. cbn [fmap list_fmap length snd] in *. destruct IH as [IH1 IH2].
    cbn [sealed_session snd n_send with_send] in IH1, IH2.
    pose proof (can_send_bound _ _ Hcan) as Hb. destruct (co_sessions _ Hc _ _ Hs) as (_ & _ & H0).
    destruct (carries_reads _ _ _ _ Hcar Hr) as (_ & _ & Hcnt & _).
    { unfold is_u64, REJECT_AFTER_MESSAGES, u64_max in *. lia. }
    split.
    + rewrite Nat2Z.inj_succ. rewrite seqZ_cons by lia. cbn [fmap list_fmap]. rewrite Hcnt. f_equal.
      rewrite IH1. do 2 f_equal; lia.
    + right. destruct IH2 as [IH2|IH2]; [rewrite IH2; cbn; lia|lia].
  - specialize (IH c1 _ Hc1 Hs1 Hr). destruct (seal_run calls c1) as [out c2]. cbn [fst retain] in *.
    destruct (Nat.eqb_spec (sc_slot x) s); [congruence|]. done.
Qed.

(** ** The send path keeps the engine's invariant *)

Lemma seal_transport_moves pidx sidx mt n relay now : moves now (seal_transport pidx sidx mt n relay now).
Proof.
  intros c Hc. pose proof (seal_transport_spec pidx sidx mt n relay now c Hc) as H.
  destruct (seal_transport pidx sidx mt n relay now c) as [r c']. by destruct H as (_ & ? & ? & _).
Qed.

Lemma with_buffers_moves now (c : @Core CR PM R) a b :
  core_inv c -> length a = MAX_UDP_SIZE -> length b = MAX_UDP_SIZE ->
  core_inv (with_buffers c a b) /\ core_le now c (with_buffers c a b).
Proof. intros Hc Ha Hb. split; [by apply (core_inv_rest c)|by apply core_le_same]. Qed.

Lemma relay_path_moves key now : moves now (relay_path key now).
Proof.
  apply moves_bind; [apply moves_demand|]. intros rpidx. apply moves_bind; [apply moves_demand|]. intros rpeer.
  apply moves_bind; [apply moves_guard|]. intros _. apply moves_bind; [apply moves_lift|]. intros dst.
  apply moves_bind; [apply moves_gets|]. intros [rsidx|]; [apply moves_mret|].
  apply moves_bind; [apply moves_ignore, ensure_direct_handshake_moves|]. intros _. apply moves_throw.
Qed.

(** One run at a time, when a step moves only from the states at hand. *)
Definition moved {A} (now : Instant) (m : Run A) (c : @Core CR PM R) : Prop :=
  core_inv (snd (m c)) /\ core_le now c (snd (m c)).

Lemma moved_bind {A B} now (m : Run A) (k : A -> Run B) (c : @Core CR PM R) :
  moved now m c -> (forall a c', m c = (Ok a, c') -> core_inv c' -> moved now (k a) c') -> moved now (m ≫= k) c.
Proof.
  unfold moved. intros [Hm Hl] Hk. rewrite bind_run. destruct (m c) as [[a|e] c']; cbn [snd] in *; [|done].
  destruct (Hk a c' eq_refl Hm). split; [done|]. by eapply core_le_trans.
Qed.

Lemma moved_here {A} now (c : @Core CR PM R) (r : Result A) : core_inv c -> moved now (fun c => (r, c)) c.
Proof. intros Hc. split; [done|apply core_le_refl]. Qed.

(** The envelope of [n] bytes at the front of [relay_scratch]: what
    [wrap_and_seal] and [transmit_wire] share. *)
Lemma envelope_moves {A} now (inner : list Z) n dest (k : Run A) (c : @Core CR PM R) :
  core_inv c -> length inner = n -> n <= MAX_RELAY_INNER_SIZE -> length dest = 32 -> moves now k ->
  moved now (_ ← modify (fun c => with_buffers c (scratch c)
                             (blit (relay_scratch c) (PACKET_START + ENVELOPE_HEADER_LEN) inner));
      header ← demand (fun c => write_header (drop PACKET_START (relay_scratch c)) dest n) InternalInvariant;
      _ ← modify (fun c => with_buffers c (scratch c) (take PACKET_START (relay_scratch c) ++ header));
      k) c.
Proof.
  intros Hc <- Hn Hd Hk. change MAX_RELAY_INNER_SIZE with 1408 in Hn.
  assert (Hl : length (blit (relay_scratch c) (PACKET_START + ENVELOPE_HEADER_LEN) inner) = MAX_UDP_SIZE).
  { rewrite length_blit; [apply Hc|]. rewrite (co_relay _ Hc). change PACKET_START with 16.
    change ENVELOPE_HEADER_LEN with 36. change MAX_UDP_SIZE with 1500. lia. }
  apply moved_bind; [apply with_buffers_moves; [done|apply Hc|done]|].
  intros [] c1 E Hc1. assert (El : length (relay_scratch c1) = MAX_UDP_SIZE) by apply Hc1. clear E Hl.
  apply moved_bind; [split; [done|apply core_le_refl]|].
  intros header c2 E Hc2. unfold demand in E.
  destruct (write_header _ _ _) as [h|] eqn:Eh; [|discriminate E]. injection E as <- <-.
  assert (Hl : length (take PACKET_START (relay_scratch c1) ++ h) = MAX_UDP_SIZE).
  { unfold write_header in Eh. destruct (_ <? _)%Z; [done|].
    destruct (Nat.ltb_spec (length (drop PACKET_START (relay_scratch c1))) ENVELOPE_HEADER_LEN); [done|].
    assert (Hh : h = blit (drop PACKET_START (relay_scratch c1)) 0
      (envelope_header_bytes (mkEnvelopeHeader dest (Z.of_nat (length inner))))) by congruence.
    rewrite Hh, length_app, length_blit, length_take, length_drop, El;
      [change PACKET_START with 16; change MAX_UDP_SIZE with 1500; lia|].
    unfold envelope_header_bytes. rewrite length_app, length_le_bytes. cbn [eh_destination]. rewrite Hd.
    change ENVELOPE_HEADER_LEN with 36 in *. lia. }
  apply moved_bind; [apply with_buffers_moves; [done|apply Hc1|done]|].
  intros [] c3 _ Hc3. by apply Hk.
Qed.

Lemma peer_key_length (c : @Core CR PM R) i e : core_inv c -> peer_at (pool c) i = Some e -> length (public_key e) = 32.
Proof.
  intros Hc He. apply (co_keys _ Hc _ i). apply (pi_keys _ _ _ _ (co_pool _ Hc)). eauto.
Qed.

Lemma sealed_send_moves {A} rpidx rsidx n now relay dst (k : bool -> Run A) :
  (forall b, moves now (k b)) ->
  moves now ('(total, rekey) ← seal_transport rpidx rsidx (if relay then MSG_RELAY else MSG_DATA) n relay now;
    datagram ← gets (fun c => take total (buffer relay c));
    _ ← emit (OuterDatagram dst datagram);
    k rekey).
Proof.
  intros Hk. apply moves_bind; [apply seal_transport_moves|]. intros [total rekey].
  apply moves_bind; [apply moves_gets|]. intros datagram. apply moves_bind; [apply emit_moves|]. intros _. apply Hk.
Qed.

Lemma relay_rekey_moves rpidx now (b : bool) :
  moves now (if b then ignore (ensure_direct_handshake rpidx now) else mret tt).
Proof. destruct b; [apply moves_ignore, ensure_direct_handshake_moves|apply moves_mret]. Qed.

Lemma transmit_wire_moves pidx dst msg now : moves now (transmit_wire pidx dst msg now).
Proof.
  intros c Hc. apply moved_bind; [by apply moves_demand|]. intros peer c0 E _.
  unfold the_peer, demand in E. destruct (peer_at (pool c) pidx) as [p|] eqn:He; [|discriminate E]. injection E as <- <-.
  destruct (relay p) as [key|].
  - apply moved_bind; [by apply relay_path_moves|]. intros [[rpidx rsidx] ep] c1 _ Hc1.
    apply moved_bind; [by apply moves_guard|]. intros [] c2 E Hc2. unfold guard in E.
    destruct (Nat.ltb_spec MAX_RELAY_INNER_SIZE (length msg)) as [|Hm]; [discriminate E|]. injection E as ->.
    apply (envelope_moves now msg (length msg) (public_key p)); [done|done|done|by apply (peer_key_length c pidx)|].
    apply (sealed_send_moves rpidx rsidx _ now true ep). intros b. apply relay_rekey_moves.
  - apply moved_bind; [by apply moves_lift|]. intros d c1 _ Hc1. by apply emit_moves.
Qed.

Lemma ensure_handshake_moves pidx now : moves now (ensure_handshake pidx now).
Proof.
  apply moves_bind; [apply stage_initiation_moves|]. intros [msg|]; [|apply moves_mret].
  apply moves_ignore, transmit_wire_moves.
Qed.

Lemma rekey_moves pidx now (b : bool) : moves now (if b then ignore (ensure_handshake pidx now) else mret tt).
Proof. destruct b; [apply moves_ignore, ensure_handshake_moves|apply moves_mret]. Qed.

Lemma with_firewall_moves now (c : @Core CR PM R) f :
  core_inv c -> core_inv (with_firewall c f) /\ core_le now c (with_firewall c f).
Proof. intros Hc. split; [|by apply core_le_same]. apply (core_inv_rest c); try done; apply Hc. Qed.

Lemma note_outbound_flow_moves pidx packet now : moves now (note_outbound_flow pidx packet now).
Proof.
  intros c Hc. unfold note_outbound_flow. cbn.
  destruct (peer_at (pool c) pidx) as [peer|]; [|by split; [|apply core_le_refl]].
  destruct (inbound_policy peer); [by split; [|apply core_le_refl]|by apply with_firewall_moves].
Qed.

Lemma stage_packet_moved packet now (c : @Core CR PM R) :
  core_inv c -> length packet <= MAX_INNER_SIZE -> moved now (stage_packet packet) c.
Proof.
  intros Hc Hp. apply with_buffers_moves; [done| |apply Hc].
  rewrite length_blit; [apply Hc|]. rewrite (co_scratch _ Hc). change PACKET_START with 16.
  change MAX_INNER_SIZE with 1456 in Hp. change MAX_UDP_SIZE with 1500. lia.
Qed.

Lemma wrap_and_seal_moved rpidx rsidx dest n now (c : @Core CR PM R) :
  core_inv c -> n <= MAX_RELAY_INNER_SIZE -> length dest = 32 -> moved now (wrap_and_seal rpidx rsidx dest n now) c.
Proof.
  intros Hc Hn Hd. unfold moved, wrap_and_seal. rewrite bind_gets.
  assert (Hl : length (take n (scratch c)) = n).
  { rewrite length_take, (co_scratch _ Hc). change MAX_RELAY_INNER_SIZE with 1408 in Hn. change MAX_UDP_SIZE with 1500. lia. }
  apply (envelope_moves now (take n (scratch c)) n dest); [done..|apply seal_transport_moves].
Qed.

Lemma encrypt_via_relay_moved pidx sidx key packet now (c : @Core CR PM R) :
  core_inv c -> length packet <= MAX_INNER_SIZE -> moved now (encrypt_via_relay pidx sidx key packet now) c.
Proof.
  intros Hc Hp. apply moved_bind; [by apply relay_path_moves|]. intros [[rpidx rsidx] ep] c1 _ Hc1.
  apply moved_bind; [by apply moves_guard|]. intros [] c2 E Hc2. unfold guard in E.
  destruct (Nat.ltb_spec MAX_RELAY_INNER_SIZE (DATA_HEADER_LEN + align_down16 (length packet + 15) + TAG_LEN))
    as [|Hm]; [discriminate E|]. injection E as ->.
  apply moved_bind; [by apply moves_demand|]. intros peer c3 E _. unfold the_peer, demand in E.
  destruct (peer_at (pool c2) pidx) as [p|] eqn:He; [|discriminate E]. injection E as <- <-.
  assert (Hkey : length (public_key p) = 32) by (by apply (peer_key_length c2 pidx)).
  apply moved_bind; [by apply stage_packet_moved|]. intros [] c4 _ Hc4.
  pose proof (seal_transport_spec pidx sidx MSG_DATA (length packet) false now c4 Hc4) as Hs.
  apply moved_bind; [by apply seal_transport_moves|]. intros [tot rk] c5 E Hc5. rewrite E in Hs.
  destruct Hs as (_ & _ & _ & sess & _ & _ & Htot & _).
  apply moved_bind; [apply wrap_and_seal_moved; [done|by rewrite Htot|done]|]. intros [total rekey] c6 _ Hc6.
  assert (Hrest : moves now (datagram ← gets (fun c => take total (relay_scratch c));
      _ ← emit (OuterDatagram ep datagram); _ ← note_outbound_flow pidx packet now;
      _ ← (if rk : bool then ignore (ensure_handshake pidx now) else mret tt);
      if rekey : bool then ignore (ensure_direct_handshake rpidx now) else mret tt)); [|by apply Hrest].
  apply moves_bind; [apply moves_gets|]. intros d. apply moves_bind; [apply emit_moves|]. intros _.
  apply moves_bind; [apply note_outbound_flow_moves|]. intros _.
  apply moves_bind; [apply rekey_moves|]. intros _. apply relay_rekey_moves.
Qed.

Lemma encrypt_and_send_moves pidx sidx packet now : moves now (encrypt_and_send pidx sidx packet now).
Proof.
  intros c Hc. apply moved_bind; [by apply moves_guard|]. intros [] c1 E Hc1. unfold guard in E.
  destruct (Nat.ltb_spec MAX_INNER_SIZE (length packet)) as [|Hp]; [discriminate E|]. injection E as <-.
  apply moved_bind; [by apply moves_gets|]. intros entry c1 _ Hc1'.
  destruct (entry ≫= relay) as [key|]; [by apply encrypt_via_relay_moved|].
  apply moved_bind; [by apply moves_lift|]. intros dst c2 _ Hc2.
  apply moved_bind; [by apply stage_packet_moved|]. intros [] c3 _ Hc3.
  apply (sealed_send_moves pidx sidx (length packet) now false dst); [|done]. intros b.
  apply moves_bind; [apply note_outbound_flow_moves|]. intros _. apply rekey_moves.
Qed.

Lemma arm_timer_moves now d : moves now (@arm_timer CR PM R d).
Proof.
  intros c Hc. split.
  - apply (core_inv_pool c); try done; [..|apply Hc|apply Hc].
    + apply pool_inv_timers, Hc.
    + apply (co_sessions _ Hc).
  - apply core_le_pool; [done..|]. apply adv_arm_only.
Qed.

(** Parking a packet and arming its deadline. *)
Lemma park_moves now packet wait d :
  (instant_add now 1 <= d)%Z ->
  moves now (_ ← modify (fun c => with_pending c (snd (park (pending c) packet wait d))); @arm_timer CR PM R d).
Proof.
  intros Hd c Hc. rewrite bind_modify. split.
  - refine (proj1 (arm_timer_moves now d _ _)). apply (core_inv_rest c); try done; apply Hc.
  - split; [done|]. unfold live. cbn.
    apply (adv_perm _ _ _ _ _ (pool_deadlines (pending c) ++ (pool_live (pool c) ++ (ir_deadline <$> resolves (resolver c))
      ++ (pr_due <$> pending_reconciles (resolver c))))
      (pool_deadlines (snd (park (pending c) packet wait d)) ++ (pool_live (pool c) ++ (ir_deadline <$> resolves (resolver c))
      ++ (pr_due <$> pending_reconciles (resolver c))))); [solve_Permutation..|].
    apply adv_app, (adv_weaken (instant_add now 1)); [unfold soon, instant_add, saturating_add, sat_add; lia|].
    apply adv_arm; [apply park_deadlines|done].
Qed.

Lemma send_to_peer_moves pidx packet now : moves now (send_to_peer pidx packet now).
Proof.
  apply moves_bind; [apply moves_gets|]. intros [sidx|]; [apply encrypt_and_send_moves|].
  intros c Hc. cbv zeta. rewrite <- bind_assoc.
  apply (moves_bind now); [|intros _; apply ensure_handshake_moves|done].
  apply park_moves, instant_add_mono. by vm_compute.
Qed.

(** ** Theorems *)

(** a sealed transport message is exactly the staged payload: sealing
    succeeds only under a usable session, produces a datagram of at most
    MAX_UDP_SIZE bytes whose header reads back the session's receiver index and
    counter and whose ciphertext opens under the send key and that counter to
    the payload padded with zeros to sixteen bytes, and advances the counter of
    that session alone; a refusal leaves the pool as it was; nothing is sent. *)
Theorem seal_transport_sound (pidx : PeerIdx) (sidx : SlotIdx) (mt : Z) (n : nat) (relay : bool) (now : Instant)
    (c : @Core CR PM R) :
  core_inv c ->
  let '(r, c') := seal_transport pidx sidx mt n relay now c in
  core_inv c' /\ sink c' = sink c /\
  match r with
  | Failed _ => pool c' = pool c
  | Ok (total, _) => exists sess sess',
      established (pool c) sidx = Some sess /\ can_send sess now = true /\
      established (pool c') sidx = Some sess' /\ n_send sess' = (n_send sess + 1)%Z /\
      (forall t, t <> sidx -> slots (pool c') !! t = slots (pool c) !! t) /\
      let d := take total (buffer relay c') in
      length d = total /\ total <= MAX_UDP_SIZE /\
      carries mt sess (take n (drop PACKET_START (buffer relay c))) d /\
      (is_u32 (s_remote_index sess) ->
       classify d = (if (mt =? MSG_DATA)%Z then Some Data else Some RelayData) /\
       get_range d data_RECEIVER ≫= read_u32_le = Some (s_remote_index sess) /\
       get_range d data_COUNTER ≫= read_u64_le = Some (n_send sess))
  end.
Proof.
  intros Hc. pose proof (seal_transport_spec pidx sidx mt n relay now c Hc) as H.
  destruct (seal_transport pidx sidx mt n relay now c) as [[[total rk]|e] c']; destruct H as (Hf & Hc' & _ & H);
    (split; [done|]); (split; [apply Hf|]); [|done].
  destruct H as (sess & Hs & Hcan & Htot & Hmax & Hsl & _ & Hcar). exists sess, (snd (sealed_session sess now)).
  split; [done|]. split; [done|]. split.
  { pose proof (sealed_established _ _ _ _ _ sidx sess Hsl Hs Hs) as H. by rewrite decide_True in H. }
  split; [done|]. split; [intros t Ht; rewrite Hsl; by rewrite list_lookup_insert_ne|].
  assert (Hb : length (buffer relay c') = MAX_UDP_SIZE) by (destruct relay; apply Hc').
  split; [rewrite length_take; lia|]. split; [done|]. split; [done|]. intros Hr.
  destruct (carries_reads _ _ _ _ Hcar Hr) as (? & ? & ? & _); [|done].
  pose proof (can_send_bound _ _ Hcan). destruct (co_sessions _ Hc _ _ Hs) as (_ & _ & ?).
  unfold is_u64, REJECT_AFTER_MESSAGES, u64_max in *. lia.
Qed.

(** C10: a nonce is never used twice: over any sequence of seals, of any peers,
    slots, kinds, sizes and times, the datagrams sealed in a slot carry the
    consecutive counters from its session's send counter on, none reaching
    REJECT_AFTER_MESSAGES. *)
Theorem seal_counters_never_reused (calls : list SealCall) (c : @Core CR PM R) (s : SlotIdx) (sess : Session) :
  core_inv c -> established (pool c) s = Some sess -> is_u32 (s_remote_index sess) ->
  let ds := sealed_by s (fst (seal_run calls c)) in
  (fun d => get_range d data_COUNTER ≫= read_u64_le) <$> ds = Some <$> seqZ (n_send sess) (Z.of_nat (length ds)) /\
  (ds = [] \/ n_send sess + Z.of_nat (length ds) <= REJECT_AFTER_MESSAGES)%Z.
Proof. apply seal_run_spec. Qed.

End Transport.

(** ** Witnesses: a connected engine *)

Definition demo_key (k : Z) : list Z := replicate 32 k.
Definition demo_sender : Core := demo_connected 1 2 51820 (demo_key 5) (demo_key 6) 70 80.

Lemma seal_transport_sound_witness :
  exists total, fst (seal_transport 0 0 MSG_DATA 5 false 1000 demo_sender) = Ok (total, false) /\ total = 48 /\
    sink (snd (seal_transport 0 0 MSG_DATA 5 false 1000 demo_sender)) = [].
Proof.
  pose proof (seal_transport_sound (PL := Toy.laws) 0 0 MSG_DATA 5 false 1000 demo_sender
    (demo_connected_inv 1 2 51820 (demo_key 5) (demo_key 6) 70 80 eq_refl eq_refl)) as H.
  assert (E : match fst (seal_transport 0 0 MSG_DATA 5 false 1000 demo_sender) with
              | Ok (48, false) => true | _ => false end = true) by (vm_compute; reflexivity).
  destruct (seal_transport 0 0 MSG_DATA 5 false 1000 demo_sender) as [r c']. cbn [fst snd] in *.
  destruct H as (_ & Hs & _). destruct r as [[total [|]]|]; [by repeat (destruct total; try discriminate E)| |discriminate E].
  exists total. do 48 (destruct total as [|total]; [discriminate E|]). destruct total; [|discriminate E].
  split; [reflexivity|]. split; [reflexivity|exact Hs].
Defined.

Definition demo_calls : list SealCall :=
  [mkSealCall 0 0 MSG_DATA 0 false 1000; mkSealCall 0 1 MSG_DATA 0 false 1000;
   mkSealCall 0 0 MSG_RELAY 100 true 1001; mkSealCall 0 0 MSG_DATA 20 false 1002].

Lemma seal_counters_never_reused_witness :
  length (sealed_by 0 (fst (seal_run demo_calls demo_sender))) = 3 /\
  (fun d => get_range d data_COUNTER ≫= read_u64_le) <$> sealed_by 0 (fst (seal_run demo_calls demo_sender)) =
    [Some 0%Z; Some 1%Z; Some 2%Z].
Proof.
  assert (E : length (sealed_by 0 (fst (seal_run demo_calls demo_sender))) = 3) by (vm_compute; reflexivity).
  split; [exact E|].
  destruct (seal_counters_never_reused (PL := Toy.laws) demo_calls demo_sender 0
    (demo_session (demo_key 5) (demo_key 6) 70 80)
    (demo_connected_inv 1 2 51820 (demo_key 5) (demo_key 6) 70 80 eq_refl eq_refl)) as [H _].
  - reflexivity.
  - unfold is_u32, u32_max. cbn. lia.
  - rewrite H, E. reflexivity.
Defined.
