(* ===== verification/Frame.v ===== *)
(** * What the send path leaves alone

    Which fields of the engine's state ([Core]) sealing, staging a handshake and
    sending never touch, and what they may do to the rest: no peer's identity
    changes, sessions only disappear or count, and nothing is handed to the inside. *)

From S2P Require Import Prelude Clock Constants Ip Messages Effect Cidr Rate.
From S2P Require Import Firewall Routing Replay Relay Crypto Noise Cookie Session.
From S2P Require Import SessionIndex Pending Peer Pool Deadlines WallClock Load Resolve.
From S2P Require Import Core Demo Handshake Transport.
Local Open Scope nat_scope.

(** [f] of the state is the same after [m]. *)
Definition same {S X A} (f : S -> X) (m : Eff S A) : Prop := forall v, keeps (fun s => f s = v) m.

Section Same.
Context {S X : Type} (f : S -> X).

Lemma same_run {A} (m : Eff S A) s : same f m -> f (snd (m s)) = f s.
Proof. intros H. by apply (H (f s)). Qed.
Lemma same_bind {A B} (m : Eff S A) (k : A -> Eff S B) : same f m -> (forall a, same f (k a)) -> same f (m ≫= k).
Proof. intros Hm Hk v. apply keeps_bind; [apply Hm|intros; apply Hk]. Qed.
Lemma same_pure {A} (g : S -> Result A) : same f (fun s => (g s, s)).
Proof. intros v. apply keeps_pure. Qed.
Lemma same_mret {A} (a : A) : same f (mret a).
Proof. apply same_pure. Qed.
Lemma same_throw {A} e : same f (@throw S A e).
Proof. apply same_pure. Qed.
Lemma same_lift {A} (r : Result A) : same f (lift r).
Proof. apply same_pure. Qed.
Lemma same_gets {A} (g : S -> A) : same f (gets g).
Proof. apply (same_pure (fun s => Ok (g s))). Qed.
Lemma same_demand {A} (g : S -> option A) e : same f (demand g e).
Proof. apply same_pure. Qed.
Lemma same_guard (g : S -> bool) e : same f (guard g e).
Proof. apply (same_pure (fun s => if g s then Failed e else Ok tt)). Qed.
Lemma same_ignore {A} (m : Eff S A) : same f m -> same f (ignore m).
Proof. intros H v. apply keeps_ignore, H. Qed.
Lemma same_attempt {A} (m : Eff S A) : same f m -> same f (attempt m).
Proof. intros H v s Hs. specialize (H v s Hs). unfold attempt. by destruct (m s). Qed.
Lemma same_modify g : (forall s, f (g s) = f s) -> same f (modify g).
Proof. intros H v s <-. apply H. Qed.
Lemma same_if {A} (b : bool) (m m' : Eff S A) : same f m -> same f m' -> same f (if b then m else m').
Proof. by destruct b. Qed.
End Same.

#[export] Hint Resolve same_mret same_throw same_lift same_gets same_demand same_guard same_ignore same_attempt
  same_if : same.

Section Frame.
Context {SZ : Sizes} {CR : Cidr} {PM : PrefixMap nat} {PRM : Prims} {R : Type} {RG : RngCore R}.
Context {CL : CidrLaws} {ML : PrefixMapLaws (V:=nat) MAX_ROUTES} {PL : PrimLaws}.
Notation Run := (Eff (@Core CR PM R)).

(** ** Primitive effects *)

Section Prim.
Context {X : Type} (f : @Core CR PM R -> X).

Lemma same_draw {A} (g : R -> A * R) : (forall c r, f (with_rng c r) = f c) -> same f (draw g).
Proof. intros H v c <-. unfold draw. destruct (g (rng c)). apply H. Qed.
Lemma same_try_draw {A} (g : R -> Result A * R) : (forall c r, f (with_rng c r) = f c) -> same f (try_draw g).
Proof. intros H v c <-. unfold try_draw. destruct (g (rng c)). apply H. Qed.
Lemma same_on_pool {A} (m : Eff Pool A) : (forall c p, f (with_pool c p) = f c) -> same f (on_pool m).
Proof. intros H v c <-. unfold on_pool, zoom. destruct (m (pool c)). apply H. Qed.
Lemma same_on_resolver {A} (g : Resolver -> A * Resolver) : (forall c r, f (with_resolver c r) = f c) -> same f (on_resolver g).
Proof. intros H v c <-. unfold on_resolver. destruct (g (resolver c)). apply H. Qed.
Lemma same_on_wall {A} (m : Eff Wall A) : (forall c w, f (with_wallclock c w) = f c) -> same f (on_wall m).
Proof. intros H v c <-. unfold on_wall, zoom. destruct (m (wallclock c)). apply H. Qed.

End Prim.

End Frame.

(** Follows an effect down to the primitives, closing those that leave the field alone
    by computation. *)
Ltac same_step :=
  lazymatch goal with
  | |- forall _, _ => intro
  | |- same _ (modify _) => apply same_modify; intros; first [reflexivity|case_match; reflexivity]
  | |- same _ (let _ := _ in _) => cbv zeta
  | |- same _ (draw _) => apply same_draw; intros; reflexivity
  | |- same _ (try_draw _) => apply same_try_draw; intros; reflexivity
  | |- same _ (on_pool _) => apply same_on_pool; intros; reflexivity
  | |- same _ (on_resolver _) => apply same_on_resolver; intros; reflexivity
  | |- same _ (on_wall _) => apply same_on_wall; intros; reflexivity
  | |- same _ (the_peer _ _) => apply same_demand
  | |- same _ (edit_peer _ _) => apply same_modify; intros; reflexivity
  | |- same _ (put_slot _ _) => apply same_modify; intros; reflexivity
  | |- same _ (edit_resolver _) => apply same_modify; intros; reflexivity
  | |- same _ (arm_timer _) => apply same_on_pool; intros; reflexivity
  | |- same _ (ignore _) => apply same_ignore
  | |- same _ (attempt _) => apply same_attempt
  | |- same _ (match ?x with _ => _ end) => destruct x
  | |- same _ (@mbind _ _ _ _ _ _) => apply same_bind
  | |- _ => solve [eauto 1 with same]
  end.
Ltac same_tac := repeat same_step.

Section Fields.
Context {SZ : Sizes} {CR : Cidr} {PM : PrefixMap nat} {PRM : Prims} {R : Type} {RG : RngCore R}.
Context {CL : CidrLaws} {ML : PrefixMapLaws (V:=nat) MAX_ROUTES} {PL : PrimLaws}.
Notation Run := (Eff (@Core CR PM R)).

(** ** Fields no handshake and no packet sent touches *)

(** The routes, the resolver, the parked packets, the admission and the settings. *)
Definition aside (c : @Core CR PM R) := (routes c, resolver c, pending c, gate c, relay_policy c, keys c, load_config c).

Lemma stage_initiation_aside pidx now : same aside (stage_initiation pidx now).
Proof.
  unfold stage_initiation, allocate_handshake_slot, build_initiation, commit_handshake_start. same_tac.
Qed.

Lemma ensure_direct_handshake_aside pidx now : same aside (ensure_direct_handshake pidx now).
Proof. unfold ensure_direct_handshake, emit. same_tac. apply stage_initiation_aside. Qed.
Lemma seal_transport_aside pidx sidx mt n relay now : same aside (seal_transport pidx sidx mt n relay now).
Proof.
  unfold seal_transport, seal_commit, write_buffer. same_tac.
Qed.

Lemma relay_path_aside key now : same aside (relay_path key now).
Proof. unfold relay_path. same_tac. apply ensure_direct_handshake_aside. Qed.

Hint Resolve stage_initiation_aside ensure_direct_handshake_aside seal_transport_aside relay_path_aside : same.

Lemma transmit_wire_aside pidx dst msg now : same aside (transmit_wire pidx dst msg now).
Proof. unfold transmit_wire, emit. same_tac. Qed.

Hint Resolve transmit_wire_aside : same.

Lemma ensure_handshake_aside pidx now : same aside (ensure_handshake pidx now).
Proof. unfold ensure_handshake. same_tac. Qed.

Hint Resolve ensure_handshake_aside : same.

Lemma note_outbound_flow_aside pidx packet now : same aside (note_outbound_flow pidx packet now).
Proof.
  apply same_modify. intros c. destruct (peer_at (pool c) pidx) as [peer|]; [|done]. by destruct (inbound_policy peer).
Qed.

Hint Resolve note_outbound_flow_aside : same.

Lemma encrypt_and_send_aside pidx sidx packet now : same aside (encrypt_and_send pidx sidx packet now).
Proof.
  unfold encrypt_and_send, encrypt_via_relay, wrap_and_seal, stage_packet, emit. same_tac.
Qed.

(** A handshake run touches no flow of the firewall either. *)
Lemma ensure_handshake_firewall pidx now : same (@firewall CR PM R) (ensure_handshake pidx now).
Proof.
  assert (Hs : forall i, same (@firewall CR PM R) (stage_initiation i now)).
  { intros i. unfold stage_initiation, allocate_handshake_slot, build_initiation, commit_handshake_start. same_tac. }
  assert (Hd : forall i, same (@firewall CR PM R) (ensure_direct_handshake i now)).
  { intros i. unfold ensure_direct_handshake, emit. same_tac. }
  assert (Hr : forall k, same (@firewall CR PM R) (relay_path k now)).
  { intros k. unfold relay_path. same_tac. }
  assert (Ht : forall i s m n r, same (@firewall CR PM R) (seal_transport i s m n r now)).
  { intros. unfold seal_transport, seal_commit, write_buffer. same_tac. }
  unfold ensure_handshake, transmit_wire, emit. same_tac.
Qed.

(** ** Peers, sessions and the sink *)

Definition is_inner (o : Output) : bool := match o with InnerPacket _ _ _ => true | _ => false end.

(** No peer changes identity, no session appears or changes its receiving side, and
    nothing is delivered inside. *)
Record quiet (c c' : @Core CR PM R) : Prop := {
  q_identity i : identity <$> peer_at (pool c') i = identity <$> peer_at (pool c) i;
  q_sessions s x' : established (pool c') s = Some x' -> exists x, established (pool c) s = Some x /\
    s_replay x' = s_replay x /\ t_recv x' = t_recv x /\ s_local_index x' = s_local_index x;
  q_sink : exists outs, sink c' = sink c ++ outs /\ Forall (fun o => is_inner o = false) outs;
}.

Lemma quiet_refl c : quiet c c.
Proof. split; [done|eauto|]. exists []. by rewrite app_nil_r. Qed.

Lemma quiet_trans c1 c2 c3 : quiet c1 c2 -> quiet c2 c3 -> quiet c1 c3.
Proof.
  intros [Hi1 Hs1 (o1 & E1 & Ho1)] [Hi2 Hs2 (o2 & E2 & Ho2)]. split.
  - intros i. by rewrite Hi2.
  - intros s x3 H3. destruct (Hs2 s x3 H3) as (x2 & E2' & ? & ? & ?). destruct (Hs1 s x2 E2') as (x1 & E1' & ? & ? & ?).
    exists x1. split; [done|]. split; [congruence|]. split; congruence.
  - exists (o1 ++ o2). rewrite E2, E1, app_assoc. split; [done|]. by apply Forall_app.
Qed.

(** A step of the pool, or of neither pool nor sink. *)
Lemma quiet_pool c c' : sink c' = sink c -> pool_le (pool c) (pool c') -> quiet c c'.
Proof.
  intros E (Hs & _ & Hi). split; [done| |exists []; by rewrite app_nil_r].
  intros s x Hx. exists x. auto.
Qed.
Lemma quiet_same c c' : sink c' = sink c -> pool c' = pool c -> quiet c c'.
Proof. intros E Ep. apply quiet_pool; [done|]. rewrite Ep. apply pool_le_refl. Qed.

Definition quietly {A} (m : Run A) : Prop := forall c, core_inv c -> quiet c (snd (m c)).

Lemma quietly_bind {A B} now (m : Run A) (k : A -> Run B) :
  moves now m -> quietly m -> (forall a, quietly (k a)) -> quietly (m ≫= k).
Proof.
  intros Hv Hm Hk c Hc. rewrite bind_run. specialize (Hm c Hc). destruct (Hv c Hc) as [Hc' _].
  destruct (m c) as [[a|e] c']; cbn [snd] in *; [|done]. eapply quiet_trans; [exact Hm|]. by apply Hk.
Qed.

Lemma quietly_pure {A} (g : @Core CR PM R -> Result A) : quietly (fun c => (g c, c)).
Proof. intros c _. apply quiet_refl. Qed.
Lemma quietly_mret {A} (a : A) : quietly (mret a).
Proof. apply (quietly_pure (fun _ => Ok a)). Qed.
Lemma quietly_gets {A} (g : @Core CR PM R -> A) : quietly (gets g).
Proof. apply (quietly_pure (fun c => Ok (g c))). Qed.
Lemma quietly_if {A} (b : bool) (m m' : Run A) : quietly m -> quietly m' -> quietly (if b then m else m').
Proof. by destruct b. Qed.
Lemma quietly_ignore {A} (m : Run A) : quietly m -> quietly (ignore m).
Proof. intros H c Hc. exact (H c Hc). Qed.

Lemma quietly_emit o : is_inner o = false -> quietly (emit o).
Proof. intros H c _. split; [done|eauto|]. exists [o]. split; [done|]. by repeat constructor. Qed.

Lemma stage_initiation_quiet pidx now : quietly (stage_initiation pidx now).
Proof.
  intros c Hc. pose proof (stage_initiation_spec pidx now c (co_pool _ Hc)) as H.
  destruct (stage_initiation pidx now c) as [r c']. destruct H as (_ & Hf & [Hp _] & _). by apply quiet_pool; [apply Hf|].
Qed.

Lemma ensure_direct_handshake_quiet pidx now : quietly (ensure_direct_handshake pidx now).
Proof.
  apply (quietly_bind now); [apply moves_gets|apply quietly_gets|]. intros [peer|]; [|apply quietly_mret].
  apply quietly_if; [apply (quietly_pure (fun _ => Failed _))|].
  apply (quietly_bind now); [apply moves_lift|apply (quietly_pure (fun _ => _))|]. intros dst.
  apply (quietly_bind now); [apply stage_initiation_moves|apply stage_initiation_quiet|].
  intros [msg|]; [by apply quietly_emit|apply quietly_mret].
Qed.

Lemma seal_transport_quiet pidx sidx mt n relay now : quietly (seal_transport pidx sidx mt n relay now).
Proof.
  intros c Hc. pose proof (seal_transport_spec pidx sidx mt n relay now c Hc) as H.
  assert (Hid : forall i, same (fun c : @Core CR PM R => identity <$> peer_at (pool c) i) (seal_transport pidx sidx mt n relay now)).
  { intros i. unfold seal_transport, seal_commit, write_buffer. same_tac.
    all: apply same_modify; intros c1; first [by destruct relay|by apply update_peer_identity]. }
  assert (Hi : forall i, identity <$> peer_at (pool (snd (seal_transport pidx sidx mt n relay now c))) i
                         = identity <$> peer_at (pool c) i) by (intros i; by apply (same_run _ _ c (Hid i))).
  destruct (seal_transport pidx sidx mt n relay now c) as [[[total rekey]|e] c']; destruct H as (Hf & _ & _ & H).
  - destruct H as (sess & Hs & _ & _ & _ & Hsl & _). split; [exact Hi| |exists []; rewrite app_nil_r; by split; [apply Hf|]].
    intros s x'. rewrite established_Some. cbn [snd]. rewrite Hsl.
    intros [(-> & Hx & _)|[_ Hx]]%list_lookup_insert_Some; [|exists x'; by rewrite established_Some].
    injection Hx as <-. exists sess. by split.
  - by apply quiet_same; [apply Hf|].
Qed.

Lemma relay_path_quiet key now : quietly (relay_path key now).
Proof.
  apply (quietly_bind now); [apply moves_demand|apply quietly_pure|]. intros rpidx.
  apply (quietly_bind now); [apply moves_demand|apply quietly_pure|]. intros rpeer.
  apply (quietly_bind now); [apply moves_guard|intros c _; apply quiet_refl|]. intros _.
  apply (quietly_bind now); [apply moves_lift|intros c _; apply quiet_refl|]. intros dst.
  apply (quietly_bind now); [apply moves_gets|apply quietly_gets|]. intros [rsidx|]; [apply quietly_mret|].
  apply (quietly_bind now); [apply moves_ignore, ensure_direct_handshake_moves|
    apply quietly_ignore, ensure_direct_handshake_quiet|]. intros _ c _. apply quiet_refl.
Qed.

Lemma quiet_bind_at {A B} (m : Run A) (k : A -> Run B) (c : @Core CR PM R) :
  core_inv (snd (m c)) -> quiet c (snd (m c)) -> (forall a, quietly (k a)) -> quiet c (snd ((m ≫= k) c)).
Proof.
  intros Hi Hq Hk. rewrite bind_run. destruct (m c) as [[a|e] c']; cbn [snd] in *; [|done].
  eapply quiet_trans; [exact Hq|]. by apply Hk.
Qed.

(** The envelope of [envelope_moves] before its continuation. *)
Lemma envelope_quiet {A} (inner : list Z) n dest (k : Run A) (c : @Core CR PM R) :
  core_inv c -> length inner = n -> n <= MAX_RELAY_INNER_SIZE -> length dest = 32 -> quietly k ->
  quiet c (snd ((_ ← modify (fun c => with_buffers c (scratch c)
                             (blit (relay_scratch c) (PACKET_START + ENVELOPE_HEADER_LEN) inner));
      header ← demand (fun c => write_header (drop PACKET_START (relay_scratch c)) dest n) InternalInvariant;
      _ ← modify (fun c => with_buffers c (scratch c) (take PACKET_START (relay_scratch c) ++ header));
      k) c)).
Proof.
  intros Hc Hl Hn Hd Hk. pose proof (envelope_moves 0%Z inner n dest (mret tt) c Hc Hl Hn Hd (moves_mret _ _)) as [Hi _].
  unfold moved in Hi. rewrite bind_modify, bind_demand in Hi. rewrite bind_modify, bind_demand.
  destruct (write_header _ _ _) as [h|]; [|by apply quiet_same]. rewrite bind_modify in Hi. rewrite bind_modify.
  eapply quiet_trans; [|exact (Hk _ Hi)]. by apply quiet_same.
Qed.

Lemma transmit_wire_quiet pidx dst msg now : quietly (transmit_wire pidx dst msg now).
Proof.
  intros c Hc. unfold transmit_wire. rewrite bind_the_peer.
  destruct (peer_at (pool c) pidx) as [p|] eqn:He; [|apply quiet_refl]. destruct (relay p) as [key|].
  - apply quiet_bind_at; [by apply relay_path_moves|by apply relay_path_quiet|].
    intros [[rpidx rsidx] ep] c1 Hc1. rewrite bind_guard. destruct (Nat.ltb_spec MAX_RELAY_INNER_SIZE (length msg)); [apply quiet_refl|].
    apply envelope_quiet; [done..|by apply (peer_key_length c pidx)|].
    apply (quietly_bind now); [apply seal_transport_moves|apply seal_transport_quiet|]. intros [total rk].
    apply (quietly_bind now); [apply moves_gets|apply quietly_gets|]. intros d.
    apply (quietly_bind now); [apply emit_moves|by apply quietly_emit|]. intros _.
    apply quietly_if; [apply quietly_ignore, ensure_direct_handshake_quiet|apply quietly_mret].
  - apply quiet_bind_at; [done|apply quiet_refl|]. intros d. by apply quietly_emit.
Qed.

Lemma ensure_handshake_quiet pidx now : quietly (ensure_handshake pidx now).
Proof.
  apply (quietly_bind now); [apply stage_initiation_moves|apply stage_initiation_quiet|].
  intros [msg|]; [apply quietly_ignore, transmit_wire_quiet|apply quietly_mret].
Qed.

End Fields.
