(* ===== verification/Resolver.v ===== *)
(** * Queueing resolver work ([microtun-core/src/resolver.rs])

    The methods of [Core] that add, expire and deliver in-flight lookups, owed
    reconciliations and negative markers. *)

From S2P Require Import Prelude Clock Constants Ip Messages Effect Cidr Rate.
From S2P Require Import Firewall Routing Crypto Noise Cookie Session Pending Peer.
From S2P Require Import Pool Deadlines WallClock Load Resolve Core Demo Handshake.
From S2P Require Import Transport.
Local Open Scope nat_scope.

Section Resolver.
Context {SZ : Sizes} {CR : Cidr} {PM : PrefixMap nat} {PRM : Prims} {R : Type} {RG : RngCore R}.
Context {CL : CidrLaws} {ML : PrefixMapLaws (V:=nat) MAX_ROUTES} {PL : PrimLaws}.
Notation Run := (Eff (@Core CR PM R)).

Definition config_of (c : @Core CR PM R) : ResolverConfig := core_config (resolver c).

Definition new_id : Run ResolveId := on_resolver alloc_resolve_id.

(** ** Pushing entries *)

Definition try_push_resolve (entry : InflightResolve) : Run unit :=
  _ ← guard (fun c => max_inflight_resolves (config_of c) <=? length (resolves (resolver c))) ResolverBusy;
  _ ← edit_resolver (fun r => with_resolves r (resolves r ++ [entry]));
  arm_timer (ir_deadline entry).

Definition push_resolve (entry : InflightResolve) : Run unit :=
  pushed ← attempt (try_push_resolve entry);
  if is_ok pushed then mret tt else
  victim ← gets (fun c => negative_victim (resolves (resolver c)));
  match victim with
  | None => throw ResolverBusy
  | Some index =>
      _ ← edit_resolver (fun r => with_resolves r (swap_remove index (resolves r)));
      try_push_resolve entry
  end.

Definition mark_negative (query : ResolveQuery) (now : Instant) : Run unit :=
  _ ← edit_resolver (fun r => clear_query r query);
  id ← new_id;
  ttl ← gets (fun c => negative_ttl (config_of c));
  ignore (try_push_resolve (mkInflightResolve id query Negative (instant_add now ttl) true)).

(** ** Lookups for outbound packets *)

Definition queue_outbound_resolution (dst : IpAddr) (packet : list Z) (now : Instant) : Run unit :=
  let query := ByDstAddress dst in
  deadline ← gets (fun c => instant_add now (resolve_outbound_timeout (config_of c)));
  found ← gets (fun c => pos ← position (same_query query) (resolves (resolver c));
                         existing ← resolves (resolver c) !! pos; Some (pos, existing));
  id ← match found with
       | Some (pos, existing) =>
           match ir_kind existing with
           | Negative =>
               if (now <? ir_deadline existing)%Z then mret None
               else
                 id ← new_id;
                 _ ← edit_resolver (fun r => with_resolves r
                       (<[pos := mkInflightResolve id query OutboundResolve deadline false]> (resolves r)));
                 mret (Some id)
           | _ => mret (Some (ir_id existing))
           end
       | None =>
           id ← new_id;
           _ ← push_resolve (mkInflightResolve id query OutboundResolve deadline false);
           mret (Some id)
       end;
  match id with
  | None => mret tt
  | Some id =>
      _ ← modify (fun c => with_pending c (snd (park (pending c) packet (WaitResolve id) deadline)));
      arm_timer deadline
  end.

(** ** Lookups for unknown keys *)

Definition queue_peer_install (key : list Z) (source : InstallSource) (now : Instant) : Run (option ResolveId) :=
  suppressed ← gets (fun c => resolve_suppressed (resolver c) (ByPublicKey key) now);
  if suppressed : bool then mret None else
  allowed ← on_resolver (fun r => let '(ok, b) := try_take (remote_resolves r) now in
                                  (ok, with_budgets r b (peer_evictions r)));
  if negb allowed then mret None else
  id ← new_id;
  timeout ← gets (fun c => resolve_timeout (config_of c));
  pushed ← attempt (push_resolve (mkInflightResolve id (ByPublicKey key) (Install source) (instant_add now timeout) false));
  mret (if is_ok pushed then Some id else None).

Definition request_peer_install (key : list Z) (now : Instant) : Run (option ResolveId) :=
  ghosted ← on_resolver (fun r => peer_is_ghosted r key now);
  if ghosted : bool then mret None
  else queue_peer_install key AuthenticatedInitiatorInstall now.

Definition free_peers (p : Pool) : nat := length (retain is_free_slot (peers p)).

Definition request_relay_peer_install (submitter : PeerIdx) (key : list Z) (now : Instant) : Run unit :=
  suppressed ← gets (fun c => resolve_suppressed (resolver c) (ByPublicKey key) now);
  if suppressed : bool then mret tt else
  ghosted ← on_resolver (fun r => peer_is_ghosted r key now);
  if ghosted : bool then mret tt else
  reserved ← gets (fun c => free_peers (pool c) <=? lazy_peer_reserve (config_of c));
  if reserved : bool then mret tt else
  interval ← gets (fun c => relay_resolve_min_interval (config_of c));
  allowed ← (if (interval =? 0)%Z then mret true else
    entry ← gets (fun c => peer_at (pool c) submitter);
    match entry with
    | None => mret false
    | Some peer =>
        if match last_relay_resolve peer with
           | Some last => (saturating_since now last <? interval)%Z
           | None => false
           end
        then mret false
        else
          _ ← edit_peer submitter (fun peer =>
                with_activity peer (Some now) (latest_handshake peer) (rx_bytes peer) (tx_bytes peer) (last_activity peer));
          mret true
    end);
  if allowed : bool then ignore (queue_peer_install key RelayInstall now) else mret tt.

(** ** Reconciliations owed *)

Definition queue_reconcile (public_key : list Z) (now : Instant) : Run unit :=
  due ← gets (fun c => instant_add now (negative_ttl (config_of c)));
  found ← gets (fun c =>
    i ← position (fun p => bool_decide (pr_public_key p = public_key)) (pending_reconciles (resolver c));
    p ← pending_reconciles (resolver c) !! i; Some (i, p));
  match found with
  | Some (i, pending) =>
      let earlier := if (due <? pr_due pending)%Z then due else pr_due pending in
      _ ← edit_resolver (fun r => with_reconciles r
            (<[i := mkPendingReconcile (pr_public_key pending) earlier]> (pending_reconciles r)));
      arm_timer earlier
  | None =>
      pushed ← gets (fun c => push_reconcile MAX_PEERS (resolver c) (mkPendingReconcile public_key due));
      match pushed with
      | Failed _ => mret tt
      | Ok r => _ ← edit_resolver (fun _ => r); arm_timer due
      end
  end.

Definition defer_reconcile (index : nat) (now : Instant) : Run unit :=
  due ← gets (fun c => instant_add now (negative_ttl (config_of c)));
  _ ← edit_resolver (fun r => with_reconciles r
        (alter (fun p => mkPendingReconcile (pr_public_key p) due) index (pending_reconciles r)));
  arm_timer due.

Definition promote_due_reconcile (now : Instant) : Run bool :=
  found ← gets (fun c =>
    i ← position (fun p => pr_due p <=? now)%Z (pending_reconciles (resolver c));
    p ← pending_reconciles (resolver c) !! i; Some (i, p));
  match found with
  | None => mret false
  | Some (index, pending) =>
      let remove := edit_resolver (fun r => with_reconciles r (swap_remove index (pending_reconciles r))) in
      held ← gets (fun c => find_peer (pool c) (pr_public_key pending));
      match held with
      | None => _ ← remove; mret true
      | Some _ =>
          let query := ByPublicKey (pr_public_key pending) in
          suppressed ← gets (fun c => resolve_suppressed (resolver c) query now);
          if suppressed : bool then _ ← defer_reconcile index now; mret true
          else
            id ← new_id;
            timeout ← gets (fun c => resolve_timeout (config_of c));
            pushed ← attempt (push_resolve (mkInflightResolve id query Reconcile (instant_add now timeout) false));
            if is_ok pushed then _ ← remove; mret true
            else _ ← defer_reconcile index now; mret true
      end
  end.

(** ** Expiry *)

Definition drop_parked (id : ResolveId) : Run unit :=
  modify (fun c => with_pending c (drop_if (pending c) (fun p => bool_decide (pp_wait p = WaitResolve id)))).

Definition expire_one_resolve (now : Instant) : Run bool :=
  found ← gets (fun c =>
    pos ← position (fun e => ir_deadline e <=? now)%Z (resolves (resolver c));
    e ← resolves (resolver c) !! pos; Some (pos, e));
  match found with
  | None => mret false
  | Some (pos, entry) =>
      _ ← edit_resolver (fun r => with_resolves r (swap_remove pos (resolves r)));
      _ ← match ir_kind entry with
          | OutboundResolve => drop_parked (ir_id entry)
          | Install AuthenticatedInitiatorInstall => edit_resolver (fun r => drop_pending_initiation r (ir_id entry))
          | Install RelayInstall => mret tt
          | Reconcile =>
              match ir_query entry with
              | ByPublicKey key =>
                  held ← gets (fun c => find_peer (pool c) key);
                  if bool_decide (is_Some held) then queue_reconcile key now else mret tt
              | ByDstAddress _ => mret tt
              end
          | Negative => mret tt
          end;
      mret true
  end.

(** ** Delivery *)

(** Whether the embedding takes a request, given what it was handed before. *)
Context (accepts : list Output -> ResolveRequest -> bool).

Fixpoint flush_requests (fuel : nat) : Run unit :=
  match fuel with
  | O => mret tt
  | S fuel =>
      found ← gets (fun c =>
        pos ← position (fun e => negb (emitted e)) (resolves (resolver c));
        e ← resolves (resolver c) !! pos; Some (pos, e));
      match found with
      | None => mret tt
      | Some (pos, pending) =>
          let request := mkResolveRequest (ir_id pending) (ir_query pending) in
          taken ← gets (fun c => accepts (sink c) request);
          if negb taken then mret tt else
          _ ← emit (ResolveRequested request);
          _ ← edit_resolver (fun r => with_resolves r
                (alter (fun e => mkInflightResolve (ir_id e) (ir_query e) (ir_kind e) (ir_deadline e) true) pos (resolves r)));
          flush_requests fuel
      end
  end.

(** One pass per entry is enough ([flush_requests_delivers]). *)
Definition flush_sink_output : Run unit :=
  _ ← modify (fun c => with_resolver (with_sink c (sink c ++ (PeerEvicted <$> reverse (pending_peer_evictions (resolver c)))))
                         (with_evictions (resolver c) []));
  n ← gets (fun c => length (resolves (resolver c)));
  flush_requests n.

(** ** The invariant *)

Definition res_live (r : Resolver) : list Instant := (ir_deadline <$> resolves r) ++ (pr_due <$> pending_reconciles r).

Lemma core_inv_resolver (c : @Core CR PM R) r :
  core_inv c -> resolver_inv MAX_PEERS r -> core_config r = core_config (resolver c) -> core_inv (with_resolver c r).
Proof. intros [] Hr Hcfg. split; try done. cbn. by rewrite Hcfg. Qed.

(** A step of the resolver's share that only drops deadlines. *)
Lemma resolver_moved now (c : @Core CR PM R) r :
  core_inv c -> resolver_inv MAX_PEERS r -> core_config r = core_config (resolver c) ->
  res_live r ⊆+ res_live (resolver c) ->
  core_inv (with_resolver c r) /\ core_le now c (with_resolver c r).
Proof.
  intros Hc Hr Hcfg Hl. split; [by apply core_inv_resolver|]. split; [done|]. apply adv_drop. unfold live. cbn.
  do 2 apply submseteq_skips_l. exact Hl.
Qed.

(** One that adds a deadline, armed next. *)
Lemma resolver_armed now (c : @Core CR PM R) r d :
  core_inv c -> resolver_inv MAX_PEERS r -> core_config r = core_config (resolver c) ->
  res_live r ⊆+ d :: res_live (resolver c) -> (soon c now <= d)%Z ->
  moved now (_ ← edit_resolver (fun _ => r); arm_timer d) c.
Proof.
  intros Hc Hr Hcfg Hl Hd. unfold moved. rewrite bind_edit_resolver. split.
  - refine (proj1 (arm_timer_moves now d _ _)). by apply core_inv_resolver.
  - split; [done|]. unfold live. cbn. apply adv_arm; [|done].
    change (pool_live (with_timers ?q _)) with (pool_live q).
    fold (res_live r) (res_live (resolver c)). etrans; [do 2 apply submseteq_skips_l; exact Hl|]. solve_submseteq.
Qed.

Lemma soon_later (c : @Core CR PM R) now d : (instant_add now 1 <= d)%Z -> (soon c now <= d)%Z.
Proof. unfold soon, instant_add, saturating_add, sat_add. lia. Qed.

Lemma soon_ttl (c : @Core CR PM R) now :
  (soon c now <= instant_add now (negative_ttl (core_config (resolver c))))%Z.
Proof. apply instant_add_mono. lia. Qed.

Lemma new_id_run (c : @Core CR PM R) :
  core_inv c -> exists id next', new_id c = (Ok id, with_resolver c (with_next_id (resolver c) next')) /\
    id ∉ ir_id <$> resolves (resolver c) /\ is_u64 next'.
Proof.
  intros Hc. destruct (alloc_resolve_id_run MAX_PEERS (resolver c) (co_resolver _ Hc)) as (id & next' & E & Hid & Hn & _).
  { apply (co_config _ Hc). }
  exists id, next'. split; [|done]. unfold new_id, on_resolver. by rewrite E.
Qed.

Lemma new_id_moved now (c : @Core CR PM R) : core_inv c -> moved now new_id c.
Proof.
  intros Hc. destruct (new_id_run c Hc) as (id & next' & E & _ & Hn). unfold moved. rewrite E. cbn [snd].
  apply resolver_moved; [done| |done|done]. by apply resolver_inv_next; [apply Hc|].
Qed.

(** An entry the table can take. *)
Definition push_ready (e : InflightResolve) (c : @Core CR PM R) : Prop :=
  ir_id e ∉ ir_id <$> resolves (resolver c) /\
  (keyed e = true -> forall e', e' ∈ resolves (resolver c) -> keyed e' = true -> ir_query e' <> ir_query e).

Lemma push_ready_drop e (c c' : @Core CR PM R) :
  resolves (resolver c') ⊆+ resolves (resolver c) -> push_ready e c -> push_ready e c'.
Proof.
  intros Hs [Hid Hq]. assert (Hin : forall x, x ∈ resolves (resolver c') -> x ∈ resolves (resolver c))
    by (intros x Hx; by eapply elem_of_submseteq).
  split.
  - intros (x & E & Hx)%list_elem_of_fmap. apply Hid, list_elem_of_fmap. eauto.
  - intros Hk e' He'. apply Hq; auto.
Qed.

Lemma try_push_resolve_moved now e (c : @Core CR PM R) :
  core_inv c -> push_ready e c -> (soon c now <= ir_deadline e)%Z -> moved now (try_push_resolve e) c.
Proof.
  intros Hc [Hid Hq] Hd. unfold moved, try_push_resolve. rewrite bind_guard. unfold config_of.
  destruct (Nat.leb_spec (max_inflight_resolves (core_config (resolver c))) (length (resolves (resolver c)))) as [|Hlt];
    [by split; [|apply core_le_refl]|].
  apply (resolver_armed now c (with_resolves (resolver c) (resolves (resolver c) ++ [e]))); [done| |done| |done].
  - apply resolver_inv_push; [apply Hc|done..].
  - unfold res_live. cbn. rewrite fmap_app. cbn. solve_submseteq.
Qed.

Lemma negative_victim_lookup rs i : negative_victim rs = Some i -> exists e, rs !! i = Some e /\ is_negative e = true.
Proof.
  unfold negative_victim. intros ((j & e) & E & ->)%fmap_Some.
  pose proof (min_by_key_spec (fun _ e => is_negative e) (fun a b => (ir_deadline a <? ir_deadline b)%Z)
    ltac:(intros; cbn in *; bool_lia) ltac:(intros; cbn in *; bool_lia) rs) as H.
  rewrite E in H. exists e. by destruct H as (? & ? & _).
Qed.

Lemma res_live_drop r rs : rs ⊆+ resolves r -> res_live (with_resolves r rs) ⊆+ res_live r.
Proof. intros H. unfold res_live. cbn. by apply submseteq_skips_r, fmap_submseteq. Qed.

Lemma drop_entries_moved now (c : @Core CR PM R) rs :
  core_inv c -> rs ⊆+ resolves (resolver c) ->
  core_inv (with_resolver c (with_resolves (resolver c) rs)) /\
  core_le now c (with_resolver c (with_resolves (resolver c) rs)).
Proof.
  intros Hc Hs. apply resolver_moved; [done| |done|by apply res_live_drop].
  apply resolver_inv_drop; [apply Hc|done].
Qed.

Lemma push_resolve_moved now e (c : @Core CR PM R) :
  core_inv c -> push_ready e c -> (instant_add now 1 <= ir_deadline e)%Z -> moved now (push_resolve e) c.
Proof.
  intros Hc Hr Hd. unfold push_resolve.
  pose proof (try_push_resolve_moved now e c Hc Hr (soon_later c _ _ Hd)) as [Ht Hl].
  unfold moved. rewrite bind_attempt. unfold try_push_resolve in *. rewrite bind_guard in *. unfold config_of in *.
  destruct (Nat.leb_spec (max_inflight_resolves (core_config (resolver c))) (length (resolves (resolver c)))); [|done].
  cbn [fst snd is_ok]. rewrite bind_gets.
  destruct (negative_victim _) as [i|] eqn:Ev; [|by split; [|apply core_le_refl]].
  destruct (negative_victim_lookup _ _ Ev) as (v & Hi & _).
  pose proof (drop_entries_moved now c _ Hc (swap_remove_submseteq _ _ _ Hi)) as [Hc' Hl'].
  rewrite bind_edit_resolver. set (c' := with_resolver c _) in *.
  assert (Hr' : push_ready e c') by (eapply push_ready_drop; [|exact Hr]; by eapply swap_remove_submseteq).
  destruct (try_push_resolve_moved now e c' Hc' Hr' (soon_later c' _ _ Hd)). split; [done|]. by eapply core_le_trans.
Qed.

(** A fresh entry for a query nobody else answers. *)
Lemma push_new_moved {B} now (mk : ResolveId -> InflightResolve) (c : @Core CR PM R) (k : ResolveId -> Result unit -> Run B) :
  core_inv c -> (forall id, ir_id (mk id) = id) -> (forall id, (instant_add now 1 <= ir_deadline (mk id))%Z) ->
  (forall id e', keyed (mk id) = true -> e' ∈ resolves (resolver c) -> keyed e' = true -> ir_query e' <> ir_query (mk id)) ->
  (forall id r, moves now (k id r)) ->
  moved now (id ← new_id; pushed ← attempt (push_resolve (mk id)); k id pushed) c.
Proof.
  intros Hc Hid Hd Hq Hk. apply moved_bind; [by apply new_id_moved|]. intros id c1 E Hc1.
  destruct (new_id_run c Hc) as (id' & next' & E' & Hfresh & _). rewrite E in E'. injection E' as -> ->.
  apply moved_bind.
  - assert (H : moved now (push_resolve (mk id')) (with_resolver c (with_next_id (resolver c) next'))).
    { apply push_resolve_moved; [done| |done]. split; [by rewrite Hid|]. intros Hkk e'. by apply Hq. }
    destruct H as [? ?]. split; unfold attempt; by destruct (push_resolve _ _).
  - intros r c2 _ Hc2. by apply Hk.
Qed.

Lemma later_of now d : (1 <= d)%Z -> (instant_add now 1 <= instant_add now d)%Z.
Proof. apply instant_add_mono. Qed.

Lemma edit_budget_moves now {A} (f : Resolver -> A * Resolver) :
  (forall r, resolves (snd (f r)) = resolves r /\ pending_reconciles (snd (f r)) = pending_reconciles r /\
     next_resolve_id (snd (f r)) = next_resolve_id r /\ core_config (snd (f r)) = core_config r) ->
  moves now (@on_resolver CR PM R A f).
Proof.
  intros Hf c Hc. unfold on_resolver. specialize (Hf (resolver c)). destruct (f (resolver c)) as [a r].
  cbn [fst snd] in *. destruct Hf as (E1 & E2 & E3 & E4).
  apply resolver_moved; [done| |done|]; [|unfold res_live; by rewrite E1, E2].
  destruct (co_resolver _ Hc). split; by rewrite ?E1, ?E2, ?E3, ?E4.
Qed.

Lemma peer_is_ghosted_moves now key : moves now (@on_resolver CR PM R bool (fun r => peer_is_ghosted r key now)).
Proof. by apply edit_budget_moves. Qed.

Lemma clear_query_sub r q : resolves (clear_query r q) ⊆+ resolves r.
Proof. apply sublist_submseteq, retain_sublist. Qed.

Lemma mark_negative_moves query now : moves now (mark_negative query now).
Proof.
  intros c Hc. unfold mark_negative. rewrite bind_edit_resolver.
  destruct (drop_entries_moved now c _ Hc (clear_query_sub (resolver c) query)) as [Hc1 Hl1].
  change (with_resolver c (with_resolves (resolver c) (resolves (clear_query (resolver c) query))))
    with (with_resolver c (clear_query (resolver c) query)) in *.
  set (c1 := with_resolver c _) in *.
  destruct (new_id_run c1 Hc1) as (id & next' & E & Hfresh & Hn).
  destruct (new_id_moved now c1 Hc1) as [Hc2 Hl2]. rewrite E in Hc2, Hl2. cbn [snd] in Hc2, Hl2.
  rewrite (bind_ok _ _ _ _ _ E), bind_gets. set (c2 := with_resolver c1 _) in *.
  destruct (try_push_resolve_moved now
    (mkInflightResolve id query Negative (instant_add now (negative_ttl (config_of c2))) true) c2 Hc2) as [Hc3 Hl3].
  - split; [exact Hfresh|]. intros _ e' He' _ Hq. cbn in He'.
    apply elem_of_retain in He' as [Hk _]. unfold same_query in Hk. cbn [ir_query] in Hq.
    by rewrite bool_decide_eq_true_2 in Hk.
  - apply soon_ttl.
  - split; [done|]. eapply core_le_trans; [exact Hl1|]. eapply core_le_trans; [exact Hl2|exact Hl3].
Qed.

Lemma same_query_eq q e : same_query q e = true <-> ir_query e = q.
Proof. apply bool_decide_eq_true. Qed.

(** A query is its entry's when that entry's place counts. *)
Lemma keyed_unique n r i e e' :
  resolver_inv n r -> resolves r !! i = Some e -> e' ∈ resolves r -> keyed e = true -> keyed e' = true ->
  ir_query e' = ir_query e -> e' = e.
Proof.
  intros Hr Hi He' Hk Hk' Hq. pose proof (swap_remove_perm _ _ _ Hi) as Hp.
  rewrite <- Hp in He'. apply elem_of_cons in He' as [->|He']; [done|]. exfalso.
  pose proof (ri_keyed _ _ Hr) as Hnd. rewrite (retain_filter keyed), <- Hp in Hnd.
  rewrite filter_cons_True in Hnd by done. cbn in Hnd. apply NoDup_cons in Hnd as [Hx _]. apply Hx, list_elem_of_fmap.
  exists e'. split; [done|]. by apply list_elem_of_filter.
Qed.

Lemma insert_perm {A} (l : list A) i y x : l !! i = Some y -> y :: <[i := x]> l ≡ₚ x :: l.
Proof.
  intros Hi. assert (i < length l) by (by eapply lookup_lt_Some).
  rewrite insert_take_drop by done. rewrite <- (take_drop_middle l i y Hi) at 3. solve_Permutation.
Qed.

(** Replacing a spent destination marker by a lookup, under a fresh id. *)
Lemma reuse_marker n r i e id d :
  resolver_inv n r -> resolves r !! i = Some e -> is_dst e = true -> id ∉ ir_id <$> resolves r ->
  resolver_inv n (with_resolves r (<[i := mkInflightResolve id (ir_query e) OutboundResolve d false]> (resolves r))).
Proof.
  intros Hr Hi Hd Hid. set (x := mkInflightResolve _ _ _ _ _).
  assert (Hk : keyed e = true) by (unfold keyed; by rewrite Hd, orb_true_r).
  pose proof (swap_remove_perm _ _ _ Hi) as Hp. set (l := swap_remove i (resolves r)) in *.
  assert (Hp' : <[i := x]> (resolves r) ≡ₚ x :: l).
  { apply (Permutation_cons_inv (a := e)). rewrite (insert_perm _ _ _ x Hi), <- Hp. apply Permutation_swap. }
  assert (Hnd : NoDup (ir_id <$> l) /\ NoDup (ir_query <$> retain keyed l) /\ ir_query e ∉ ir_query <$> retain keyed l).
  { pose proof (ri_ids _ _ Hr) as H1. pose proof (ri_keyed _ _ Hr) as H2. rewrite (retain_filter keyed) in *.
    rewrite <- Hp in H1, H2. rewrite filter_cons_True in H2 by done. cbn in H1, H2.
    apply NoDup_cons in H1 as [_ ?], H2 as [? ?]. done. }
  destruct Hnd as (H1 & H2 & H3). destruct Hr as [Hids Hx Hb Hkd Hl Ho]. split; cbn; try done.
  - rewrite Hp'. cbn. apply NoDup_cons. split; [|done]. intros Hin. apply Hid. rewrite <- Hp. by apply elem_of_cons; right.
  - by rewrite length_insert.
  - rewrite (retain_filter keyed) in *. rewrite Hp', filter_cons_True by done.
    cbn. by apply NoDup_cons.
Qed.

Lemma found_some {A} (p : A -> bool) (l : list A) i x :
  (pos ← position p l; existing ← l !! pos; Some (pos, existing)) = Some (i, x) ->
  l !! i = Some x /\ p x = true.
Proof.
  destruct (position p l) as [j|] eqn:E; [|done]. apply position_Some in E as (y & Hj & Hy & _). cbn.
  rewrite Hj. cbn. intros [= <- <-]. done.
Qed.

Lemma found_none {A} (p : A -> bool) (l : list A) :
  (pos ← position p l; existing ← l !! pos; Some (pos, existing)) = None -> forall x, x ∈ l -> p x = false.
Proof.
  destruct (position p l) as [j|] eqn:E.
  - apply position_Some in E as (y & Hj & _). cbn. by rewrite Hj.
  - intros _ x Hx. apply position_None in E. rewrite Forall_forall in E. by apply E.
Qed.

(** A lookup that takes over a marker's place, its packet parked behind it. *)
Lemma takeover_moved now (c : @Core CR PM R) r packet wait d :
  core_inv c -> resolver_inv MAX_PEERS r -> core_config r = core_config (resolver c) ->
  res_live r ⊆+ d :: res_live (resolver c) -> (instant_add now 1 <= d)%Z ->
  moved now (_ ← edit_resolver (fun _ => r);
             _ ← modify (fun c => with_pending c (snd (park (pending c) packet wait d))); arm_timer d) c.
Proof.
  intros Hc Hr Hcfg Hl Hd. unfold moved. rewrite bind_edit_resolver. split.
  - refine (proj1 (park_moves now packet wait d Hd _ _)). by apply core_inv_resolver.
  - split; [done|]. split.
    + intros x Hx. change (at_or_before (tc_get (tc_arm (timers (pool c)) d)) x).
      rewrite tc_arm_get. apply min_deadline_spec. by left.
    + exists [d; d]. split.
      * unfold live. cbn. change (pool_live (with_timers ?q _)) with (pool_live q).
        fold (res_live r) (res_live (resolver c)).
        etrans; [apply submseteq_skips_l, submseteq_app; [apply park_deadlines|exact Hl]|]. solve_submseteq.
      * assert (at_or_before (tc_get (tc_arm (timers (pool c)) d)) d /\ (soon c now <= d)%Z).
        { rewrite tc_arm_get. split; [apply min_deadline_spec; right; cbn; lia|by apply soon_later]. }
        constructor; [exact H|constructor; [exact H|constructor]].
Qed.

Lemma queue_outbound_resolution_moves dst packet now : moves now (queue_outbound_resolution dst packet now).
Proof.
  intros c Hc. destruct (co_config _ Hc) as (Hrt & Hro & _).
  unfold queue_outbound_resolution. cbv zeta. unfold moved. rewrite !bind_gets. unfold config_of.
  set (d := instant_add now (resolve_outbound_timeout (core_config (resolver c)))).
  assert (Hd : (instant_add now 1 <= d)%Z) by by apply later_of.
  destruct (pos ← position _ _; _) as [[pos e]|] eqn:Ef.
  - apply found_some in Ef as [Hi Hq]. apply same_query_eq in Hq.
    assert (Hlive : moves now (_ ← modify (fun c : @Core CR PM R => with_pending c (snd (park (pending c) packet (WaitResolve (ir_id e)) d)));
      arm_timer d)) by by apply park_moves.
    destruct (ir_kind e) eqn:Ek; [by apply Hlive..| |by apply Hlive].
    destruct (_ <? _)%Z; [by apply (moves_mret now tt)|].
    rewrite bind_assoc. destruct (new_id_run c Hc) as (id & next' & E & Hfresh & Hn).
    rewrite (bind_ok _ _ _ _ _ E), bind_assoc, bind_edit_resolver.
    destruct (new_id_moved now c Hc) as [Hc1 Hl1]. rewrite E in Hc1, Hl1. cbn [snd] in Hc1, Hl1.
    set (r := with_resolves (with_next_id (resolver c) next')
      (<[pos := mkInflightResolve id (ByDstAddress dst) OutboundResolve d false]> (resolves (resolver c)))).
    destruct (takeover_moved now (with_resolver c (with_next_id (resolver c) next')) r packet (WaitResolve id) d) as [Hi2 Hl2];
      [done| |done| |done|split; [exact Hi2|eapply core_le_trans; [exact Hl1|exact Hl2]]].
    + unfold r. rewrite <- Hq. apply (reuse_marker _ (with_next_id (resolver c) next')); [apply Hc1|done| |done].
      unfold is_dst. by rewrite Hq.
    + unfold res_live, r. cbn. rewrite app_comm_cons. apply submseteq_skips_r.
      rewrite list_fmap_insert. cbn. rewrite <- (insert_perm (ir_deadline <$> resolves (resolver c)) pos (ir_deadline e)).
      * by apply submseteq_cons.
      * by rewrite list_lookup_fmap, Hi.
  - pose proof (found_none _ _ Ef) as Hnone. rewrite bind_assoc.
    apply moved_bind; [by apply new_id_moved|]. intros id c1 E Hc1.
    destruct (new_id_run c Hc) as (id' & next' & E' & Hfresh & _). rewrite E in E'. injection E' as -> ->.
    unfold moved. rewrite bind_assoc. apply moved_bind.
    + apply push_resolve_moved; [done| |done]. split; [done|]. intros _ e' He' _ Hq.
      specialize (Hnone e' He'). cbn in Hq. by rewrite (proj2 (same_query_eq _ _) Hq) in Hnone.
    + intros [] c2 _ Hc2. unfold moved. rewrite bind_ret. by apply park_moves.
Qed.

(** Writes of a peer entry that touch neither its links nor its deadlines. *)
Lemma edit_peer_moves now pidx f :
  link_preserving f -> (forall e, identity (f e) = identity e) ->
  (forall e, session_deadlines (sessions (f e)) ⊆+ session_deadlines (sessions e)) ->
  moves now (@edit_peer CR PM R pidx f).
Proof.
  intros Hlp Hid Hd c Hc. split.
  - apply (core_inv_pool c); try done; [..|apply Hc|apply Hc].
    + apply pool_inv_update_peer; [done|apply Hc].
    + apply (co_sessions _ Hc).
    + intros i. by apply update_peer_identity.
  - apply core_le_pool; [done..|]. apply adv_drop, (update_peer_live _ _ _ []). intros e _. apply Hd.
Qed.

Lemma queue_peer_install_moves key source now : moves now (queue_peer_install key source now).
Proof.
  intros c Hc. apply moved_bind; [by apply moves_gets|]. intros suppressed c0 E _.
  unfold gets in E. injection E as <- <-.
  destruct (resolve_suppressed (resolver c) (ByPublicKey key) now) eqn:Es; [by apply moves_mret|].
  apply moved_bind.
  { apply edit_budget_moves; [|done]. intros r. by destruct (try_take (remote_resolves r) now). }
  intros allowed c1 E Hc1. destruct allowed; [|by apply moves_mret]. cbn [negb].
  assert (Er : resolves (resolver c1) = resolves (resolver c)).
  { unfold on_resolver in E. destruct (try_take _ _) as [ok b]. by injection E as _ <-. }
  destruct (co_config _ Hc1) as (Hrt & _).
  destruct (new_id_run c1 Hc1) as (id & next' & E1 & Hfresh & Hn).
  apply moved_bind; [by apply new_id_moved|]. intros id' c2 E2 Hc2. rewrite E1 in E2. injection E2 as <- <-.
  apply moved_bind; [by apply moves_gets|]. intros timeout c3 E3 _. unfold gets, config_of in E3. injection E3 as <- <-.
  set (e := mkInflightResolve id (ByPublicKey key) (Install source) _ false).
  apply moved_bind; [|intros; by apply moves_mret].
  assert (H : moved now (push_resolve e) (with_resolver c1 (with_next_id (resolver c1) next'))).
  { apply push_resolve_moved; [done| |by apply later_of]. split; [done|].
    intros _ e' He' Hk Hq. cbn in He'. rewrite Er in He'. 
    destruct (resolve_suppressed_false _ _ _ _ Es He' Hq) as [Hneg _].
    unfold keyed, is_negative, is_dst in Hk. rewrite Hneg, Hq in Hk. by rewrite bool_decide_eq_true_2 in Hk. }
  destruct H as [? ?]. split; unfold attempt; by destruct (push_resolve _ _).
Qed.

Lemma request_peer_install_moves key now : moves now (request_peer_install key now).
Proof.
  apply moves_bind; [apply peer_is_ghosted_moves|]. intros [|]; [apply moves_mret|apply queue_peer_install_moves].
Qed.

Lemma request_relay_peer_install_moves submitter key now : moves now (request_relay_peer_install submitter key now).
Proof.
  apply moves_bind; [apply moves_gets|]. intros [|]; [apply moves_mret|].
  apply moves_bind; [apply peer_is_ghosted_moves|]. intros [|]; [apply moves_mret|].
  apply moves_bind; [apply moves_gets|]. intros [|]; [apply moves_mret|].
  apply moves_bind; [apply moves_gets|]. intros interval. apply moves_bind.
  - destruct (_ =? _)%Z; [apply moves_mret|]. apply moves_bind; [apply moves_gets|].
    intros [peer|]; [|apply moves_mret]. destruct (match last_relay_resolve peer with Some _ => _ | None => _ end);
      [apply moves_mret|].
    apply moves_bind; [by apply edit_peer_moves|]. intros _. apply moves_mret.
  - intros [|]; [apply moves_ignore, queue_peer_install_moves|apply moves_mret].
Qed.

(** Writes of the backlog. *)
Lemma resolver_inv_reconciles n r ps :
  resolver_inv n r -> length ps <= n -> NoDup (pr_public_key <$> ps) -> resolver_inv n (with_reconciles r ps).
Proof. intros [] Hl Hn. by split. Qed.

Lemma redue_keys (l : list PendingReconcile) i p d :
  l !! i = Some p -> pr_public_key <$> <[i := mkPendingReconcile (pr_public_key p) d]> l = pr_public_key <$> l.
Proof.
  intros Hi. rewrite list_fmap_insert. cbn. apply list_insert_id. by rewrite list_lookup_fmap, Hi.
Qed.

Lemma redue_inv n r i p d :
  resolver_inv n r -> pending_reconciles r !! i = Some p ->
  resolver_inv n (with_reconciles r (<[i := mkPendingReconcile (pr_public_key p) d]> (pending_reconciles r))).
Proof.
  intros Hr Hi. apply resolver_inv_reconciles; [done|rewrite length_insert; apply Hr|].
  rewrite redue_keys by done. apply Hr.
Qed.

Lemma redue_live r i p d :
  pending_reconciles r !! i = Some p ->
  res_live (with_reconciles r (<[i := mkPendingReconcile (pr_public_key p) d]> (pending_reconciles r))) ⊆+
    d :: res_live r.
Proof.
  intros Hi. unfold res_live. cbn. rewrite list_fmap_insert. cbn.
  assert (H : pr_due p :: <[i := d]> (pr_due <$> pending_reconciles r) ≡ₚ d :: (pr_due <$> pending_reconciles r)).
  { apply insert_perm. by rewrite list_lookup_fmap, Hi. }
  assert (H2 : <[i := d]> (pr_due <$> pending_reconciles r) ⊆+ d :: (pr_due <$> pending_reconciles r)).
  { rewrite <- H. by apply submseteq_cons. }
  etrans; [apply submseteq_skips_l, H2|]. solve_submseteq.
Qed.

Lemma defer_reconcile_moves index now : moves now (defer_reconcile index now).
Proof.
  intros c Hc. unfold defer_reconcile, moved. rewrite bind_gets. unfold config_of.
  set (d := instant_add now (negative_ttl (core_config (resolver c)))). pose proof (soon_ttl c now) as Hd.
  rewrite bind_edit_resolver, alter_as_insert.
  destruct (pending_reconciles (resolver c) !! index) as [p|] eqn:Ep.
  - apply (resolver_armed now c (with_reconciles (resolver c) _) d Hc); [|done| |done].
    + apply redue_inv; [apply Hc|done].
    + by apply redue_live.
  - replace (with_reconciles (resolver c) (pending_reconciles (resolver c))) with (resolver c)
      by (by destruct (resolver c)).
    apply (resolver_armed now c (resolver c) d Hc); [apply Hc|done|by apply submseteq_cons|done].
Qed.

Lemma queue_reconcile_moves key now : moves now (queue_reconcile key now).
Proof.
  intros c Hc. unfold queue_reconcile, moved. rewrite !bind_gets. unfold config_of.
  set (d := instant_add now (negative_ttl (core_config (resolver c)))). pose proof (soon_ttl c now) as Hd.
  destruct (i ← position _ _; _) as [[i p]|] eqn:Ef.
  - apply found_some in Ef as [Hi _]. destruct (Z.ltb_spec d (pr_due p)).
    + rewrite bind_edit_resolver.
      apply (resolver_armed now c (with_reconciles (resolver c) _) d Hc); [|done| |done].
      * apply redue_inv; [apply Hc|done].
      * by apply redue_live.
    + rewrite bind_edit_resolver, list_insert_id by (by destruct p).
      replace (with_reconciles (resolver c) (pending_reconciles (resolver c))) with (resolver c)
        by (by destruct (resolver c)).
      replace (with_resolver c (resolver c)) with c by (by destruct c). by apply arm_timer_moves.
  - pose proof (found_none _ _ Ef) as Hnone. rewrite bind_gets. unfold push_reconcile.
    destruct (Nat.leb_spec MAX_PEERS (length (pending_reconciles (resolver c)))) as [|Hlt];
      [by apply (moves_mret now tt)|].
    apply (resolver_armed now c _ d Hc); [|done| |done].
    + apply resolver_inv_reconciles; [apply Hc|rewrite length_app; cbn; lia|].
      rewrite fmap_app. apply NoDup_app. split; [apply (co_resolver _ Hc)|]. split; [|apply NoDup_singleton].
      intros x (q & -> & Hq)%list_elem_of_fmap Hx%list_elem_of_singleton. specialize (Hnone q Hq). cbn in Hx, Hnone.
      by rewrite bool_decide_eq_true_2 in Hnone.
    + unfold res_live. cbn. rewrite fmap_app. cbn. solve_submseteq.
Qed.

Lemma drop_parked_moves now id : moves now (drop_parked id).
Proof.
  intros c Hc. split; [apply (core_inv_rest c); try done; apply Hc|]. split; [done|]. apply adv_drop.
  unfold live. cbn. apply submseteq_skips_l, submseteq_skips_r. unfold drop_if, pool_deadlines.
  induction (pending c) as [|[q|] l IH]; cbn; [done| |done]. destruct (bool_decide _); cbn; [by apply submseteq_cons|].
  by apply submseteq_skip.
Qed.

Lemma drop_initiation_moves now id : moves now (@edit_resolver CR PM R (fun r => drop_pending_initiation r id)).
Proof.
  intros c Hc. unfold edit_resolver, modify. cbn [snd].
  assert (E : drop_pending_initiation (resolver c) id =
    with_initiations (resolver c) (pending_initiations (drop_pending_initiation (resolver c) id))).
  { unfold drop_pending_initiation, take_pending_initiation. destruct (position _ _); [done|]. by destruct (resolver c). }
  rewrite E. apply resolver_moved; [done| |done|done]. destruct (co_resolver _ Hc). by split.
Qed.

Lemma expire_one_resolve_moves now : moves now (expire_one_resolve now).
Proof.
  intros c Hc. unfold expire_one_resolve, moved. rewrite bind_gets.
  destruct (pos ← position _ _; _) as [[i e]|] eqn:Ef; [|by apply (moves_mret now false)].
  apply found_some in Ef as [Hi _]. apply moved_bind.
  { apply drop_entries_moved; [done|]. by eapply swap_remove_submseteq. }
  intros _ c1 _ Hc1. apply moved_bind; [|intros; by apply moves_mret].
  destruct (ir_kind e) as [|[]| |]; [by apply drop_parked_moves|by apply drop_initiation_moves|by apply moves_mret..|].
  destruct (ir_query e) as [key|]; [|by apply moves_mret]. apply moved_bind; [by apply moves_gets|].
  intros held c2 _ Hc2. case_bool_decide; [by apply queue_reconcile_moves|by apply moves_mret].
Qed.

Lemma remove_reconcile_moved now i (c : @Core CR PM R) p :
  core_inv c -> pending_reconciles (resolver c) !! i = Some p ->
  moved now (edit_resolver (fun r => with_reconciles r (swap_remove i (pending_reconciles r)))) c.
Proof.
  intros Hc Hi. pose proof (swap_remove_submseteq _ _ _ Hi) as Hs.
  apply resolver_moved; [done| |done|].
  - apply resolver_inv_reconciles; [apply Hc| |].
    + apply submseteq_length in Hs. pose proof (ri_backlog _ _ (co_resolver _ Hc)). lia.
    + eapply submseteq_NoDup; [by apply fmap_submseteq|]. apply (co_resolver _ Hc).
  - unfold res_live. cbn. by apply submseteq_skips_l, fmap_submseteq.
Qed.

Lemma push_keeps_reconciles e (c : @Core CR PM R) :
  pending_reconciles (resolver (snd (push_resolve e c))) = pending_reconciles (resolver c).
Proof.
  unfold push_resolve. rewrite bind_attempt. unfold try_push_resolve. rewrite bind_guard.
  destruct (_ <=? _); [|done]. cbn [fst snd is_ok]. rewrite bind_gets.
  destruct (negative_victim _); [|done]. rewrite bind_edit_resolver, bind_guard. by destruct (_ <=? _).
Qed.

Lemma promote_due_reconcile_moves now : moves now (promote_due_reconcile now).
Proof.
  intros c Hc. unfold promote_due_reconcile, moved. rewrite bind_gets.
  destruct (i ← position _ _; _) as [[i p]|] eqn:Ef; [|by apply (moves_mret now false)].
  apply found_some in Ef as [Hi _]. cbv zeta. rewrite bind_gets.
  destruct (find_peer (pool c) (pr_public_key p)) as [pidx|].
  2: { apply moved_bind; [by eapply remove_reconcile_moved|]. intros; by apply moves_mret. }
  rewrite bind_gets. destruct (resolve_suppressed _ _ _) eqn:Es.
  { apply moved_bind; [by apply defer_reconcile_moves|]. intros; by apply moves_mret. }
  destruct (co_config _ Hc) as (Hrt & _).
  destruct (new_id_run c Hc) as (id & next' & E1 & Hfresh & Hn).
  apply moved_bind; [by apply new_id_moved|]. intros id' c2 E2 Hc2. rewrite E1 in E2. injection E2 as <- <-.
  unfold moved. rewrite bind_gets. unfold config_of.
  set (e := mkInflightResolve id (ByPublicKey (pr_public_key p)) Reconcile _ false).
  set (c1 := with_resolver c _) in *.
  pose proof (push_keeps_reconciles e c1) as Hkeep.
  apply moved_bind.
  - assert (H : moved now (push_resolve e) c1).
    { apply push_resolve_moved; [done| |by apply later_of]. split; [done|].
      intros _ e' He' Hk Hq. cbn in He'.
      destruct (resolve_suppressed_false _ _ _ _ Es He' Hq) as [Hneg _].
      unfold keyed, is_negative, is_dst in Hk. rewrite Hneg, Hq in Hk. by rewrite bool_decide_eq_true_2 in Hk. }
    destruct H as [? ?]. split; unfold attempt; by destruct (push_resolve _ _).
  - intros r c3 E3 Hc3. assert (E : c3 = snd (push_resolve e c1)).
    { unfold attempt in E3. destruct (push_resolve e c1). by injection E3. }
    destruct (is_ok r).
    + apply moved_bind; [|intros; by apply moves_mret]. eapply remove_reconcile_moved; [done|].
      rewrite E, Hkeep. exact Hi.
    + apply moved_bind; [by apply defer_reconcile_moves|]. intros; by apply moves_mret.
Qed.

Lemma flush_requests_moves now fuel : moves now (flush_requests fuel).
Proof.
  induction fuel as [|fuel IH]; [apply moves_mret|]. cbn [flush_requests]. intros c Hc. unfold moved. rewrite bind_gets.
  destruct (pos ← position _ _; _) as [[i e]|] eqn:Ef; [|by apply (moves_mret now tt)].
  apply found_some in Ef as [Hi _]. apply moved_bind; [by apply moves_gets|]. intros taken c1 E Hc1.
  unfold gets in E. assert (c1 = c) as -> by (by injection E). clear E. destruct (negb taken); [by apply moves_mret|].
  apply moved_bind; [by apply emit_moves|]. intros [] c2' E2 Hc2. assert (E : c2' = with_sink c (sink c ++ [ResolveRequested (mkResolveRequest (ir_id e) (ir_query e))]))
    by (by injection E2). clear E2. subst c2'.
  apply moved_bind; [|intros; by apply IH].
  set (f := fun e => mkInflightResolve (ir_id e) (ir_query e) (ir_kind e) (ir_deadline e) true).
  set (c2 := with_sink c _) in *.
  assert (Hmap : forall {A} (g : InflightResolve -> A), (forall e, g (f e) = g e) ->
    g <$> alter f i (resolves (resolver c)) = g <$> resolves (resolver c)).
  { intros A g Hg. apply list_eq. intros j. rewrite !list_lookup_fmap.
    destruct (decide (i = j)) as [->|]; [rewrite list_lookup_alter_eq|by rewrite list_lookup_alter_ne].
    destruct (_ !! j); cbn; [by rewrite Hg|done]. }
  assert (Hkeyed : forall l j, ir_query <$> retain keyed (alter f j l) = ir_query <$> retain keyed l).
  { induction l as [|x l IHl]; intros [|j]; cbn; [done..| |].
    - change (keyed (f x)) with (keyed x). by destruct (keyed x).
    - destruct (keyed x); cbn; [f_equal|]; apply IHl. }
  unfold edit_resolver, moved, modify. cbn [snd]. apply resolver_moved; [done| |done|].
  - destruct (co_resolver _ Hc2) as [Hids Hx Hb Hk Hl Ho]. split; cbn; try done.
    + rewrite (Hmap _ ir_id) by done. exact Hids.
    + rewrite length_alter. exact Hb.
    + rewrite Hkeyed. exact Hk.
  - unfold res_live. cbn. by rewrite (Hmap _ ir_deadline).
Qed.

Lemma flush_sink_output_moves now : moves now flush_sink_output.
Proof.
  apply moves_bind; [|intros _; apply moves_bind; [apply moves_gets|intros n; apply flush_requests_moves]].
  intros c Hc. unfold modify. cbn [snd].
  assert (Hc1 : core_inv (with_sink c (sink c ++ (PeerEvicted <$> reverse (pending_peer_evictions (resolver c))))))
    by (apply (core_inv_rest c); try done; apply Hc).
  destruct (resolver_moved now _ (with_evictions (resolver c) []) Hc1) as [? ?]; [|done|done|].
  { destruct (co_resolver _ Hc). by split. }
  split; [done|]. eapply core_le_trans; [|eassumption]. by apply core_le_same.
Qed.

End Resolver.
