(* ===== verification/Respond.v ===== *)
(** * Answering handshakes ([check_mac2_or_reply], [accept_authenticated_initiation],
    [respond_to_initiation], [rx_response] and [rx_cookie_reply] of
    [microtun-core/src/lib.rs]) *)

From S2P Require Import Prelude Clock Constants Ip Messages Effect Cidr Rate.
From S2P Require Import Firewall Routing Replay Crypto Noise Cookie Session SessionIndex.
From S2P Require Import Pending Peer Pool Deadlines Rotation WallClock Load Resolve.
From S2P Require Import Core Demo Handshake Transport Resolver.
Local Open Scope nat_scope.

Section Respond.
Context {SZ : Sizes} {CR : Cidr} {PM : PrefixMap nat} {PRM : Prims} {R : Type} {RG : RngCore R}.
Context {CL : CidrLaws} {ML : PrefixMapLaws (V:=nat) MAX_ROUTES} {PL : PrimLaws}.
Notation Run := (Eff (@Core CR PM R)).

(** ** Admission *)

(** [SocketAddr::ip] *)
Definition socket_ip (a : SocketAddr) : IpAddr :=
  match a with SockV4 ip _ => V4 ip | SockV6 ip _ _ _ => V6 ip end.

Definition set_secret (g : Gate) (s : CookieSecret) : Gate := mkGate s (rate g) (unknown_authentications g).
Definition set_rate (g : Gate) (r : RateLimiter) : Gate := mkGate (cookie_secret g) r (unknown_authentications g).
Definition set_unknown (g : Gate) (b : TokenBucket) : Gate := mkGate (cookie_secret g) (rate g) b.

(** [self.note_handshake_msg(now)] then [self.under_load(now)] *)
Definition note_load (now : Instant) : Run bool :=
  _ ← modify (fun c => with_load c (note_handshake_msg now (load c)));
  gets (fun c => under_load (load_config c) (pool c) (load c) now).

(** [self.unknown_authentications.try_take(now)] *)
Definition take_unknown (now : Instant) : Run bool := fun c =>
  let '(ok, b) := try_take (unknown_authentications (gate c)) now in
  (Ok ok, with_gate c (set_unknown (gate c) b)).

(** The multiplication's result is dropped: only the budget changes. *)
Definition equalize_unknown_identity_cost (claimed_key : list Z) (now : Instant) : Run unit :=
  _ ← take_unknown now; mret tt.

Definition check_mac2_or_reply (now : Instant) (src : SocketAddr) (data mac1 : list Z) : Run bool :=
  secret ← gets (fun c => cookie_secret (gate c));
  secret ← draw (fun g => cs_refresh secret g now);
  _ ← modify (fun c => with_gate c (set_secret (gate c) secret));
  if verify_mac2 secret data src then
    limiter ← gets (fun c => rate (gate c));
    let '(allowed, limiter) := allow MAX_RATE_ENTRIES limiter (socket_ip src) now in
    _ ← modify (fun c => with_gate c (set_rate (gate c) limiter));
    mret allowed
  else
    let sender := if bool_decide (data !! 0 = Some MSG_INITIATION)
                  then get_range data init_SENDER ≫= read_u32_le
                  else get_range data resp_SENDER ≫= read_u32_le in
    match sender with
    | None => mret false
    | Some sender =>
        k ← gets keys;
        reply ← attempt (try_draw (fun g => create_cookie_reply g secret (our_cookie_key k) sender src mac1
                                              (replicate COOKIE_REPLY_LEN 0%Z)));
        _ ← match reply with Ok reply => emit (OuterDatagram src reply) | Failed _ => mret tt end;
        mret false
    end.

(** ** Answering an initiation *)

(** The peer after its response was built. *)
Definition answered_entry (mac1 : list Z) (sidx : SlotIdx) (src : SocketAddr) (now : Instant) (peer : PeerEntry)
  : bool * PeerEntry :=
  let peer := with_cookie peer (cookie peer) (Some mac1) in
  let peer := with_sessions peer (commit_responder_install (sessions peer) sidx) in
  let peer := with_activity peer (last_relay_resolve peer) (Some now) (rx_bytes peer) (tx_bytes peer) (last_activity peer) in
  let '(observed, peer) := observe_direct_endpoint peer src now in
  (observed, with_activity peer (last_relay_resolve peer) (latest_handshake peer) (rx_bytes peer) (tx_bytes peer) now).

(** The slot and fresh index of the new session: the unconfirmed one's slot again, or
    a fresh slot. *)
Definition responder_slot (replacement : option SlotIdx) (now : Instant) : Run (option (SlotIdx * Z)) :=
  match replacement with
  | Some sidx =>
      m ← gets (fun c => session_indices (pool c));
      index ← try_draw (random_unused m);
      mret (Some (sidx, index))
  | None =>
      slot ← on_pool (alloc_slot now);
      match slot with
      | None => mret None
      | Some sidx =>
          m ← gets (fun c => session_indices (pool c));
          index ← attempt (try_draw (random_unused m));
          match index with
          | Ok index => mret (Some (sidx, index))
          | Failed error => _ ← on_pool (free_slot sidx); throw error
          end
      end
  end.

(** On an error the slot taken for this response is given back. *)
Definition or_release {A} (replacement : option SlotIdx) (sidx : SlotIdx) (m : Run A) : Run A :=
  r ← attempt m;
  match r with
  | Ok a => mret a
  | Failed error =>
      _ ← (if bool_decide (replacement = None) then on_pool (free_slot sidx) else mret tt);
      throw error
  end.

(** Keys, message and its mac1. *)
Definition build_response (pidx : PeerIdx) (consumed : ConsumedInitiation) (local_index : Z) (now : Instant)
  : Run (TransportKeys * list Z * list Z) :=
  '(tk, msg) ← try_draw (fun g => create_response g consumed local_index (replicate RESPONSE_LEN 0%Z));
  peer ← the_peer pidx InternalInvariant;
  '(mac1, msg) ← lift (apply_macs msg (ci_s_pub_i consumed) (cookie peer) now);
  mret (tk, mac1, msg).

(** The wire index and the slot, once nothing can fail any more. *)
Definition commit_response_slot (sidx : SlotIdx) (local_index : Z) (sess : Session) : Run unit :=
  slot ← demand (fun c => slots (pool c) !! sidx) InternalInvariant;
  m ← gets (fun c => session_indices (pool c));
  _ ← match Pool.local_index slot with
      | Some old_index =>
          fun c => let '(r, m') := sim_replace MAX_SESSIONS m old_index local_index sidx in
                   (r, with_pool c (with_indices (pool c) m'))
      | None =>
          m' ← lift (sim_insert MAX_SESSIONS m local_index sidx);
          on_pool (modify (fun p => with_indices p m'))
      end;
  put_slot sidx (Established sess).

Definition respond_to_initiation (pidx : PeerIdx) (consumed : ConsumedInitiation) (src : SocketAddr) (now : Instant)
  : Run unit :=
  peer ← the_peer pidx InternalInvariant;
  let replacement := next (sessions peer) in
  slot ← responder_slot replacement now;
  match slot with
  | None => mret tt
  | Some (sidx, local_index) =>
      '(tk, mac1, msg) ← or_release replacement sidx (build_response pidx consumed local_index now);
      after ← draw rekey_after_time;
      let sess := with_owner (session_new REPLAY_WORDS tk ResponderRole local_index (ci_sender consumed) now) pidx after in
      peer ← the_peer pidx InternalInvariant;
      _ ← lift (validate_responder_install (sessions peer) sidx);
      _ ← commit_response_slot sidx local_index sess;
      _ ← arm_timer (instant_add now REJECT_AFTER_TIME);
      peer ← the_peer pidx InternalInvariant;
      let '(observed, _) := answered_entry mac1 sidx src now peer in
      _ ← edit_peer pidx (fun peer => snd (answered_entry mac1 sidx src now peer));
      _ ← (if observed : bool then emit (PeerEndpointUpdate (public_key peer) src) else mret tt);
      ignore (transmit_wire pidx (Some src) msg now)
  end.

Definition accept_authenticated_initiation (pidx : PeerIdx) (consumed : ConsumedInitiation) (src : SocketAddr)
    (now : Instant) : Run unit :=
  entry ← gets (fun c => peer_at (pool c) pidx);
  match entry with
  | None => mret tt
  | Some peer =>
      if bytes_le (ci_timestamp consumed) (greatest_ts peer) then mret tt
      else if match last_initiation_consumption peer with
              | Some last => (saturating_since now last <=? HANDSHAKE_INITIATION_MIN_INTERVAL)%Z
              | None => false
              end
      then mret tt
      else
        _ ← edit_peer pidx (fun peer => with_replay peer (ci_timestamp consumed) (Some now));
        respond_to_initiation pidx consumed src now
  end.

(** ** Consuming a response *)

(** The peer once its initiation was answered, with the slot pushed out. *)
Definition confirmed_entry (ps : PeerSessions) (src : SocketAddr) (now : Instant) (peer : PeerEntry) : bool * PeerEntry :=
  let peer := with_sessions peer ps in
  let peer := with_activity peer (last_relay_resolve peer) (Some now) (rx_bytes peer) (tx_bytes peer) (last_activity peer) in
  let '(observed, peer) := observe_direct_endpoint peer src now in
  (observed, with_activity peer (last_relay_resolve peer) (latest_handshake peer) (rx_bytes peer) (tx_bytes peer) now).

Definition awaits (pidx : PeerIdx) (p : PendingPacket) : bool := bool_decide (pp_wait p = WaitHandshake pidx).

(** The loop that sends what waited for the handshake; every round empties one place
    of the parking pool, whose size is fuel enough. *)
Fixpoint flush_handshake (fuel : nat) (pidx : PeerIdx) (sidx : SlotIdx) (sent_any : bool) (now : Instant) : Run bool :=
  match fuel with
  | O => mret sent_any
  | S fuel =>
      taken ← gets (fun c => take_if (pending c) (awaits pidx));
      match taken with
      | (None, _) => mret sent_any
      | (Some p, rest) =>
          _ ← modify (fun c => with_pending c rest);
          sent ← attempt (encrypt_and_send pidx sidx (pp_packet p) now);
          flush_handshake fuel pidx sidx (sent_any || is_ok sent) now
      end
  end.

Definition start_speaking (pidx : PeerIdx) (sidx : SlotIdx) (now : Instant) : Run unit :=
  n ← gets (fun c => length (pending c));
  sent_any ← flush_handshake (S n) pidx sidx false now;
  if sent_any : bool then mret tt else ignore (encrypt_and_send pidx sidx [] now).

(** The session of an answered initiation takes over its slot. *)
Definition install_response (sidx : SlotIdx) (hs : Initiating) (tk : TransportKeys) (remote_index : Z)
    (src : SocketAddr) (now : Instant) : Run bool :=
  let pidx := hs_peer hs in
  after ← draw rekey_after_time;
  let sess := with_owner (session_new REPLAY_WORDS tk InitiatorRole (hs_local_index hs) remote_index now) pidx after in
  entry ← gets (fun c => peer_at (pool c) pidx);
  match entry with
  | None => _ ← ignore (on_pool (free_slot sidx)); mret false
  | Some peer =>
      match install_initiator (sessions peer) sidx with
      | Failed _ => mret false
      | Ok (old_previous, ps) =>
          let '(observed, _) := confirmed_entry ps src now peer in
          _ ← edit_peer pidx (fun peer => snd (confirmed_entry ps src now peer));
          _ ← (if observed : bool then emit (PeerEndpointUpdate (public_key peer) src) else mret tt);
          _ ← put_slot sidx (Established sess);
          _ ← arm_timer (instant_add now REJECT_AFTER_TIME);
          _ ← match old_previous with Some old => ignore (on_pool (free_slot old)) | None => mret tt end;
          mret true
      end
  end.

Definition rx_response (now : Instant) (src : SocketAddr) (data : list Z) : Run unit :=
  k ← gets keys;
  match verify_mac1 data (our_mac1_key k) with
  | None => mret tt
  | Some mac1 =>
      loaded ← note_load now;
      pass ← (if loaded : bool then check_mac2_or_reply now src data mac1 else mret true);
      if negb pass then mret tt else
      match get_range data resp_RECEIVER ≫= read_u32_le with
      | None => mret tt
      | Some receiver =>
          found ← gets (fun c => sidx ← slot_for_session_index (pool c) receiver;
                                 match slots (pool c) !! sidx with
                                 | Some (InitiatingSlot hs) => Some (sidx, hs)
                                 | _ => None
                                 end);
          match found with
          | None => mret tt
          | Some (sidx, hs) =>
              match consume_response (hs_noise hs) (s_priv k) data with
              | Failed _ => mret tt
              | Ok (tk, remote_index) =>
                  installed ← install_response sidx hs tk remote_index src now;
                  if installed : bool then start_speaking (hs_peer hs) sidx now else mret tt
              end
          end
      end
  end.

Definition rx_cookie_reply (now : Instant) (data : list Z) : Run unit :=
  match get_range data cookie_RECEIVER ≫= read_u32_le with
  | None => mret tt
  | Some receiver =>
      found ← gets (fun c => sidx ← slot_for_session_index (pool c) receiver;
                             pidx ← slot_owner (pool c) sidx;
                             peer ← peer_at (pool c) pidx;
                             mac1 ← last_mac1 peer; Some (pidx, public_key peer, mac1));
      match found with
      | None => mret tt
      | Some (pidx, peer_pub, mac1) =>
          match consume_cookie_reply peer_pub mac1 data with
          | Failed _ => mret tt
          | Ok cookie => edit_peer pidx (fun peer => with_cookie peer (Some (cookie, now)) (last_mac1 peer))
          end
      end
  end.

(** ** Admission keeps the invariant *)

(** Steps outside the pool, the routes, the resolver, the parked packets and the buffers. *)
Lemma aside_moved now (c c' : @Core CR PM R) :
  core_inv c -> pool c' = pool c -> routes c' = routes c -> resolver c' = resolver c -> pending c' = pending c ->
  scratch c' = scratch c -> relay_scratch c' = relay_scratch c -> core_inv c' /\ core_le now c c'.
Proof.
  intros Hc Hp Hr Hs Hq Hb Hb'. split; [|by apply core_le_same].
  apply (core_inv_rest c); try done; [rewrite Hb|rewrite Hb']; apply Hc.
Qed.

Lemma draw_moves {A} now (f : R -> A * R) : moves now (@draw CR PM R A f).
Proof. intros c Hc. unfold draw. destruct (f (rng c)). by apply aside_moved. Qed.
Lemma try_draw_moves {A} now (f : R -> Result A * R) : moves now (@try_draw CR PM R A f).
Proof. intros c Hc. unfold try_draw. destruct (f (rng c)). by apply aside_moved. Qed.

Lemma note_load_moves now t : moves now (note_load t).
Proof. apply moves_bind; [intros c Hc; by apply aside_moved|]. intros []. apply moves_gets. Qed.

Lemma take_unknown_moves now t : moves now (take_unknown t).
Proof. intros c Hc. unfold take_unknown. destruct (try_take _ _). by apply aside_moved. Qed.

Lemma equalize_moves now key t : moves now (equalize_unknown_identity_cost key t).
Proof. apply moves_bind; [apply take_unknown_moves|]. intros _. apply moves_mret. Qed.

Lemma check_mac2_or_reply_moves now t src data mac1 : moves now (check_mac2_or_reply t src data mac1).
Proof.
  apply moves_bind; [apply moves_gets|]. intros secret. apply moves_bind; [apply draw_moves|]. intros secret'.
  apply moves_bind; [intros c Hc; by apply aside_moved|]. intros [].
  destruct (verify_mac2 _ _ _).
  - apply moves_bind; [apply moves_gets|]. intros limiter. destruct (allow _ _ _ _) as [ok l'].
    apply moves_bind; [intros c Hc; by apply aside_moved|]. intros []. apply moves_mret.
  - cbv zeta. destruct (if bool_decide _ then _ else _) as [sender|]; [|apply moves_mret].
    apply moves_bind; [apply moves_gets|]. intros k.
    apply moves_bind; [apply moves_attempt, try_draw_moves|]. intros reply.
    apply moves_bind; [destruct reply; [apply emit_moves|apply moves_mret]|]. intros _. apply moves_mret.
Qed.

(** ** Keys of new sessions *)

Lemma result_bind_ok {A B} (m : Result A) (k : A -> Result B) b :
  (m ≫= k) = Ok b -> exists a, m = Ok a /\ k a = Ok b.
Proof. destruct m as [a|e]; [eauto|discriminate]. Qed.

(** Runs [H], a computation known to succeed, to its last step. *)
Ltac inv_results H :=
  repeat (let a := fresh "a" in apply result_bind_ok in H as (a & ? & H);
    lazymatch type of a with prod (prod _ _) _ => destruct a as [[? ?] ?] | prod _ _ => destruct a | _ => idtac end).

Lemma kdf2_lengths k i t1 t2 : kdf2 k i = Ok (t1, t2) -> length t1 = 32 /\ length t2 = 32.
Proof. destruct (kdf2_ok k i) as (a & b & E & ? & ?). rewrite E. by intros [= <- <-]. Qed.

Lemma create_response_keys (g g' : R) consumed idx buf tk msg :
  create_response g consumed idx buf = (Ok (tk, msg), g') -> length (tk_send tk) = 32 /\ length (tk_recv tk) = 32.
Proof.
  unfold create_response. destruct (negb _); [done|]. destruct (dh_generate g) as [[e_priv e_pub] g1].
  intros [= H _]. inv_results H. injection H as <- _.
  match goal with E : kdf2 _ _ = _ |- _ => by apply kdf2_lengths in E as [? ?] end.
Qed.

Lemma consume_response_keys st priv msg tk idx :
  consume_response st priv msg = Ok (tk, idx) -> length (tk_send tk) = 32 /\ length (tk_recv tk) = 32.
Proof.
  unfold consume_response. destruct (negb _); [done|]. intros H. inv_results H. injection H as <- _.
  match goal with E : kdf2 _ _ = _ |- _ => by apply kdf2_lengths in E as [? ?] end.
Qed.

(** ** Answering keeps the invariant *)

Lemma pool_step_moved now (c c' : @Core CR PM R) :
  core_inv c -> pool_inv MAX_PEERS MAX_SESSIONS None (pool c') -> pool_step now (pool c) (pool c') ->
  routes c' = routes c -> resolver c' = resolver c -> pending c' = pending c ->
  scratch c' = scratch c -> relay_scratch c' = relay_scratch c -> core_inv c' /\ core_le now c c'.
Proof.
  intros Hc Hp [(Hs & Hk & Hi) Ha] Hr Hres Hq Hb Hb'. split; [|by apply core_le_pool].
  apply (core_inv_pool c); try done; [|rewrite Hb; apply Hc|rewrite Hb'; apply Hc].
  intros s sess Hse. by eapply (co_sessions _ Hc), Hs.
Qed.

Lemma on_pool_moved {A} now (m : Eff Pool A) (c : @Core CR PM R) :
  core_inv c -> pool_inv MAX_PEERS MAX_SESSIONS None (snd (m (pool c))) ->
  pool_step now (pool c) (snd (m (pool c))) -> moved now (on_pool m) c.
Proof.
  intros Hc Hp Hs. unfold moved, on_pool, zoom. destruct (m (pool c)) as [r p]. cbn [snd] in *.
  by apply pool_step_moved.
Qed.

Lemma free_slot_moves now s : moves now (@on_pool CR PM R unit (free_slot s)).
Proof. intros c Hc. destruct (free_slot_any _ _ (pool c) s (co_pool _ Hc)). by apply on_pool_moved. Qed.

(** What the slot of a response is: a free one, or that of the unconfirmed session. *)
Definition response_slot (c : @Core CR PM R) (pidx : PeerIdx) (replacement : option SlotIdx) (sidx : SlotIdx) : Prop :=
  exists e, peer_at (pool c) pidx = Some e /\ next (sessions e) = replacement /\
    match replacement with None => slots (pool c) !! sidx = Some Free | Some s => sidx = s end.

Lemma response_slot_pool c c' pidx replacement sidx :
  pool c' = pool c -> response_slot c pidx replacement sidx -> response_slot c' pidx replacement sidx.
Proof. intros E. unfold response_slot. by rewrite E. Qed.

Lemma next_unlink ps s : next ps = None -> next (unlink ps s) = None.
Proof. intros H. unfold unlink. destruct (bool_decide _); cbn; by rewrite H. Qed.

Lemma responder_slot_spec pidx e now (c : @Core CR PM R) :
  core_inv c -> peer_at (pool c) pidx = Some e ->
  moved now (responder_slot (next (sessions e)) now) c /\
  forall sidx idx c', responder_slot (next (sessions e)) now c = (Ok (Some (sidx, idx)), c') ->
    response_slot c' pidx (next (sessions e)) sidx.
Proof.
  intros Hc He. destruct (next (sessions e)) as [s|] eqn:En.
  - split.
    + refine (moves_bind now _ _ (moves_gets now _) _ c Hc). intros m.
      apply moves_bind; [apply try_draw_moves|]. intros i. apply moves_mret.
    + intros sidx idx c'. unfold responder_slot. rewrite bind_gets, bind_try_draw.
      destruct (random_unused _ _) as [[i|] g]; [|discriminate]. intros [= <- <- <-]. exists e. done.
  - destruct (alloc_slot_any _ _ (pool c) now (co_pool _ Hc)) as (Hp & Hst & Hres).
    assert (Halloc : moved now (on_pool (alloc_slot now)) c) by by apply on_pool_moved.
    split.
    + apply moved_bind; [done|]. intros [s|] c1 _ Hc1; [|by apply moves_mret].
      refine (moves_bind now _ _ (moves_gets now _) _ c1 Hc1). intros m.
      apply moves_bind; [apply moves_attempt, try_draw_moves|]. intros [i|err]; [apply moves_mret|].
      apply moves_bind; [apply free_slot_moves|]. intros _. apply moves_throw.
    + intros sidx idx c'. unfold responder_slot. rewrite bind_on_pool.
      destruct (alloc_slot now (pool c)) as [[[s|]|] p']; cbn [fst snd] in *; [|discriminate..].
      rewrite bind_gets, bind_attempt. unfold try_draw. destruct (random_unused _ _) as [[i|] g]; cbn [fst snd].
      * intros [= <- <- <-]. destruct Hres as [Hfree Hpeer]. destruct (Hpeer pidx e He) as (e' & He' & Hse).
        exists e'. split; [done|]. split; [rewrite Hse; by apply next_unlink|done].
      * rewrite bind_on_pool. by destruct (free_slot s _) as [[|] ?].
Qed.

(** The deadlines of the rewritten entry are the old ones. *)
Lemma answered_deadlines mac1 sidx src now e :
  session_deadlines (sessions (snd (answered_entry mac1 sidx src now e))) = session_deadlines (sessions e).
Proof. unfold answered_entry, observe_direct_endpoint. cbn. by destruct (bool_decide _). Qed.

Lemma answered_sessions mac1 sidx src now e :
  sessions (snd (answered_entry mac1 sidx src now e)) = commit_responder_install (sessions e) sidx.
Proof. unfold answered_entry, observe_direct_endpoint. cbn. by destruct (bool_decide _). Qed.

Lemma answered_identity mac1 sidx src now e :
  identity (snd (answered_entry mac1 sidx src now e)) = identity e.
Proof. unfold answered_entry, observe_direct_endpoint. cbn. by destruct (bool_decide _). Qed.

Lemma commit_links ps s : next ps = None -> linked (commit_responder_install ps s) ≡ₚ s :: linked ps.
Proof.
  intros Hn. unfold linked, ps_slots, commit_responder_install. cbn. rewrite Hn.
  destruct (current ps), (previous ps), (handshake ps); cbn; solve_Permutation.
Qed.

Lemma commit_links_same ps s : next ps = Some s -> commit_responder_install ps s = ps.
Proof. intros Hn. unfold commit_responder_install, set_generations. destruct ps. cbn in *. by subst. Qed.

(** What committing the slot writes, when it succeeds; nothing when it fails. *)
Lemma commit_response_slot_run sidx idx sess (c : @Core CR PM R) :
  core_inv c -> s_local_index sess = idx ->
  match commit_response_slot sidx idx sess c with
  | (Failed _, c') => c' = c
  | (Ok _, c') => exists m, c' = with_pool c (with_slots (with_indices (pool c) m) (<[sidx := Established sess]> (slots (pool c)))) /\
      ((slots (pool c) !! sidx = Some Free -> session_indices (pool c) !! idx = None /\
          m = <[idx := sidx]> (session_indices (pool c))) /\
       (forall x, slots (pool c) !! sidx = Some (Established x) ->
          (idx = s_local_index x \/ session_indices (pool c) !! idx = None) /\
          m = <[idx := sidx]> (delete (s_local_index x) (session_indices (pool c)))))
  end.
Proof.
  intros Hc Hi. unfold commit_response_slot. rewrite bind_demand.
  destruct (slots (pool c) !! sidx) as [slot|] eqn:Es; [|done]. rewrite bind_gets.
  assert (E0 : forall m, m = session_indices (pool c) -> with_pool c (with_indices (pool c) m) = c).
  { intros m ->. destruct c as [? ? ? ? [] ? ? ? ? ? ? ? ? ? ?]. done. }
  destruct slot as [|h|x]; cbn [Pool.local_index].
  - rewrite bind_assoc, bind_lift. destruct (sim_insert _ _ _ _) as [m|err] eqn:E; [|done].
    apply sim_insert_Ok in E as (_ & Hn & _ & ->).
    eexists. split; [reflexivity|]. split; [done|]. discriminate.
  - rewrite bind_run. pose proof (sim_replace_spec MAX_SESSIONS (session_indices (pool c)) (hs_local_index h) idx sidx) as H.
    specialize (H (indices_size _ _ _ _ (co_pool _ Hc))).
    destruct (sim_replace _ _ _ _ _) as [[[]|err] m]; [|by apply E0, H].
    eexists. split; [reflexivity|]. split; discriminate.
  - rewrite bind_run. pose proof (sim_replace_spec MAX_SESSIONS (session_indices (pool c)) (s_local_index x) idx sidx) as H.
    specialize (H (indices_size _ _ _ _ (co_pool _ Hc))).
    destruct (sim_replace _ _ _ _ _) as [[[]|err] m]; [|by apply E0, H].
    eexists. split; [reflexivity|]. split; [discriminate|]. intros y [= <-].
    destruct H as (_ & Ho & [[E ->]|(Hne & Hn & ->)]); [|auto]. split; [by left|].
    rewrite <- E, insert_delete_eq. symmetry. by apply insert_id.
Qed.

(** The pool once the response's slot, its deadline and its entry are written. *)
Lemma answered_pool pidx replacement sidx idx sess m f e (c : @Core CR PM R) :
  core_inv c -> response_slot c pidx replacement sidx -> peer_at (pool c) pidx = Some e ->
  s_peer sess = pidx -> s_local_index sess = idx ->
  public_key (f e) = public_key e -> sessions (f e) = commit_responder_install (sessions e) sidx ->
  (slots (pool c) !! sidx = Some Free -> session_indices (pool c) !! idx = None /\
     m = <[idx := sidx]> (session_indices (pool c))) ->
  (forall x, slots (pool c) !! sidx = Some (Established x) ->
     (idx = s_local_index x \/ session_indices (pool c) !! idx = None) /\
     m = <[idx := sidx]> (delete (s_local_index x) (session_indices (pool c)))) ->
  (exists x, slots (pool c) !! sidx = Some x) /\
  pool_inv MAX_PEERS MAX_SESSIONS None
    (update_peer pidx f (with_slots (with_indices (pool c) m) (<[sidx := Established sess]> (slots (pool c))))).
Proof.
  intros Hc (e0 & He0 & Hn & Hslot) He Hp Hi Hk Hse Hfree Hest. rewrite He in He0. injection He0 as <-.
  destruct replacement as [s|].
  - subst s. destruct (next_established _ _ _ _ _ _ _ (co_pool _ Hc) He Hn) as (_ & _ & x & Hx & Hxp).
    split; [eauto|]. destruct (Hest x Hx) as [Hidx ->].
    apply pool_inv_update_at.
    { intros e1 He1. change (peer_at (with_slots ?p _) pidx) with (peer_at p pidx) in He1.
      change (peer_at (with_indices ?p _) pidx) with (peer_at p pidx) in He1.
      rewrite He in He1. injection He1 as <-. rewrite Hse, commit_links_same by done. done. }
    apply (pool_inv_reindex _ _ _ _ _ x); try done; [apply Hc|congruence].
  - split; [eauto|]. destruct (Hfree Hslot) as [Hnone ->].
    assert (Hnl : sidx ∉ linked (sessions e)).
    { intros Hin. pose proof (linked_owner _ _ _ _ _ _ _ (co_pool _ Hc) He Hin) as Ho.
      unfold slot_owner in Ho. by rewrite Hslot in Ho. }
    apply (pool_inv_link_at _ _ _ sidx pidx e f false); [|exact He| |done|done| | |done].
    + apply (pool_inv_fill _ _ _ _ _ pidx); [apply Hc|done|cbn; congruence|cbn; congruence|done|congruence].
    + unfold holds. cbn. rewrite list_lookup_insert_eq by (by eapply lookup_lt_Some). done.
    + rewrite Hse. by apply commit_links.
    + by rewrite Hse.
Qed.

(** A session written over its slot together with an entry of its owner. *)
Lemma session_written pidx sidx m sess x f e now (c : @Core CR PM R) :
  core_inv c -> peer_at (pool c) pidx = Some e -> slots (pool c) !! sidx = Some x ->
  session_wf sess -> created sess = now -> identity (f e) = identity e ->
  session_deadlines (sessions (f e)) ⊆+ session_deadlines (sessions e) ->
  let p := update_peer pidx f (with_slots (with_indices (pool c) m) (<[sidx := Established sess]> (slots (pool c)))) in
  let c' := with_pool c (with_timers p (tc_arm (timers (pool c)) (instant_add now REJECT_AFTER_TIME))) in
  pool_inv MAX_PEERS MAX_SESSIONS None p -> core_inv c' /\ core_le now c c'.
Proof.
  intros Hc He Hx Hwf Hcr Hid Hd p c' Hinv.
  set (g := fun _ : PeerEntry => f e).
  assert (Ep : p = update_peer pidx g (with_slots (with_indices (pool c) m) (<[sidx := Established sess]> (slots (pool c))))).
  { unfold p, g. symmetry. by apply (update_peer_const _ _ _ _ e). }
  split.
  - apply (core_inv_pool c); try done; [..|apply Hc|apply Hc].
    + by apply pool_inv_timers.
    + intros t y. rewrite established_Some. cbn. intros [(-> & Hy & _)|[_ Hy]]%list_lookup_insert_Some; [congruence|].
      apply (co_sessions _ Hc t), established_Some, Hy.
    + intros i. change (peer_at (pool c') i) with (peer_at p i). unfold p. rewrite peer_at_update.
      case_decide as E; [subst i|done]. change (peer_at (with_slots ?q _) pidx) with (peer_at (pool c) pidx).
      rewrite He. cbn. by rewrite Hid.
  - apply core_le_pool; [done..|]. unfold c'. cbn [pool with_pool]. 
    unfold pool_adv. cbn [timers with_timers].
    rewrite Ep. apply adv_arm; [|unfold instant_add, saturating_add, sat_add; change REJECT_AFTER_TIME with 180000%Z; lia].
    change (pool_live (with_timers ?q _)) with (pool_live q). etrans.
    + apply (update_peer_live _ _ _ []). intros e1 He1.
      change (peer_at (with_slots ?q _) pidx) with (peer_at (pool c) pidx) in He1.
      rewrite He in He1. injection He1 as <-. exact Hd.
    + change (pool_live (with_slots (with_indices ?q m) ?ss)) with (pool_live (with_slots q ss)).
      apply (put_slot_live _ sidx x (Established sess) [_] Hx). cbn. rewrite Hcr. apply submseteq_skip, submseteq_nil_l.
Qed.

(** The end of a response: from the committed slot to the datagram. *)
Lemma answer_committed pidx replacement sidx idx sess mac1 src now (k : PeerEntry -> bool -> Run unit) (c : @Core CR PM R) :
  core_inv c -> response_slot c pidx replacement sidx -> session_wf sess ->
  s_peer sess = pidx -> s_local_index sess = idx -> created sess = now -> (forall peer b, moves now (k peer b)) ->
  moved now (_ ← commit_response_slot sidx idx sess;
      _ ← arm_timer (instant_add now REJECT_AFTER_TIME);
      peer ← the_peer pidx InternalInvariant;
      let '(observed, _) := answered_entry mac1 sidx src now peer in
      _ ← edit_peer pidx (fun peer => snd (answered_entry mac1 sidx src now peer));
      k peer observed) c.
Proof.
  intros Hc Hslot Hwf Hp Hi Hcr Hk. pose proof (commit_response_slot_run sidx idx sess c Hc Hi) as H.
  unfold moved. rewrite bind_run. destruct (commit_response_slot sidx idx sess c) as [[[]|err] c1];
    [|subst c1; split; [done|apply core_le_refl]].
  destruct H as (m & -> & Hfree & Hest). destruct Hslot as (e & He & Hn & Hs).
  pose proof (answered_pool pidx replacement sidx idx sess m (fun e => snd (answered_entry mac1 sidx src now e)) e c) as Hpool.
  destruct Hpool as [[x Hx] Hpool]; try done; [by exists e|apply (f_equal (fun i => fst (fst (fst (fst (fst i)))))  (answered_identity mac1 sidx src now e))|
    apply answered_sessions|].
  rewrite bind_arm_timer, bind_the_peer.
  change (peer_at (pool (with_pool ?a (with_timers (pool (with_pool ?b (with_slots (with_indices ?p _) _))) _))) pidx) with (peer_at p pidx).
  rewrite He. destruct (answered_entry mac1 sidx src now e) as [observed e1] eqn:Ea. rewrite bind_edit_peer.
  match goal with |- context [k e observed ?x] => set (c2 := x) end.
  assert (H2 : core_inv c2 /\ core_le now c c2).
  { apply (session_written pidx sidx m sess x (fun e => snd (answered_entry mac1 sidx src now e)) e now c); try done.
    - apply answered_identity.
    - by rewrite answered_deadlines. }
  destruct H2 as [H2 H2']. destruct (Hk e observed c2 H2) as [H3 H3']. split; [done|]. by eapply core_le_trans.
Qed.

Lemma build_response_moves pidx consumed idx now : moves now (build_response pidx consumed idx now).
Proof.
  apply moves_bind; [apply try_draw_moves|]. intros [tk msg]. apply moves_bind; [apply moves_demand|]. intros peer.
  apply moves_bind; [apply moves_lift|]. intros [mac1 msg']. apply moves_mret.
Qed.

Lemma build_response_run pidx consumed idx now (c c' : @Core CR PM R) tk mac1 msg :
  build_response pidx consumed idx now c = (Ok (tk, mac1, msg), c') ->
  pool c' = pool c /\ length (tk_send tk) = 32 /\ length (tk_recv tk) = 32.
Proof.
  unfold build_response. rewrite bind_try_draw.
  destruct (create_response _ _ _ _) as [[[tk0 msg0]|e] g] eqn:E; [|discriminate].
  apply create_response_keys in E. rewrite bind_the_peer.
  destruct (peer_at (pool (with_rng c g)) pidx); [|discriminate]. rewrite bind_lift.
  destruct (apply_macs _ _ _ _) as [[m1 msg1]|]; [|discriminate]. intros [= <- <- <- <-]. done.
Qed.

Lemma or_release_moves {A} now replacement s (m : Run A) : moves now m -> moves now (or_release replacement s m).
Proof.
  intros Hm. apply moves_bind; [by apply moves_attempt|]. intros [a|err]; [apply moves_mret|].
  apply moves_bind; [|intros _; apply moves_throw]. destruct (bool_decide _); [apply free_slot_moves|apply moves_mret].
Qed.

Lemma or_release_Ok {A} replacement s (m : Run A) (c c' : @Core CR PM R) a :
  or_release replacement s m c = (Ok a, c') -> m c = (Ok a, c').
Proof.
  unfold or_release. rewrite bind_attempt. destruct (m c) as [[x|err] c1]; cbn [fst snd]; [done|].
  rewrite bind_run. destruct (bool_decide _); [|discriminate]. by destruct (on_pool _ c1) as [[|] ?].
Qed.

Lemma respond_to_initiation_moves pidx consumed src now : moves now (respond_to_initiation pidx consumed src now).
Proof.
  intros c Hc. apply moved_bind; [by apply moves_demand|]. intros peer c0 E _.
  unfold the_peer, demand in E. destruct (peer_at (pool c) pidx) as [e|] eqn:He; [|discriminate E]. injection E as <- <-.
  destruct (responder_slot_spec pidx e now c Hc He) as [Hm Hs].
  apply moved_bind; [done|]. intros [[sidx idx]|] c1 E Hc1; [|by apply moves_mret].
  specialize (Hs sidx idx c1 E). clear E.
  apply moved_bind; [by apply or_release_moves; [apply build_response_moves|]|].
  intros [[tk mac1] msg] c2 E Hc2. apply or_release_Ok, build_response_run in E as (Ep & Hk1 & Hk2).
  apply (response_slot_pool _ _ _ _ _ Ep) in Hs.
  apply moved_bind; [by apply draw_moves|]. intros after c3 E Hc3.
  assert (Ep3 : pool c3 = pool c2) by (unfold draw in E; destruct (rekey_after_time (rng c2)); by injection E as _ <-).
  clear E. apply (response_slot_pool _ c3 _ _ _ Ep3) in Hs.
  apply moved_bind; [by apply moves_demand|]. intros peer c4 E _.
  unfold the_peer, demand in E. destruct (peer_at (pool c3) pidx) as [e3|] eqn:He3; [|discriminate E]. injection E as <- <-.
  apply moved_bind; [by apply moves_lift|]. intros [] c5 E _. assert (c5 = c3) as -> by (unfold lift in E; congruence). clear E.
  cbv zeta. apply (answer_committed pidx (next (sessions e)) sidx idx _ mac1 src now
    (fun (peer : PeerEntry) (observed : bool) =>
      _ ← (if observed then emit (PeerEndpointUpdate (public_key peer) src) else mret tt);
      ignore (transmit_wire pidx (Some src) msg now))); try done.
  intros peer b. apply moves_bind; [destruct b; [apply emit_moves|apply moves_mret]|]. intros _. apply moves_ignore, transmit_wire_moves.
Qed.

Lemma accept_authenticated_initiation_moves pidx consumed src now :
  moves now (accept_authenticated_initiation pidx consumed src now).
Proof.
  apply moves_bind; [apply moves_gets|]. intros [peer|]; [|apply moves_mret].
  apply moves_if; [apply moves_mret|]. apply moves_if; [apply moves_mret|].
  apply moves_bind; [|intros _; apply respond_to_initiation_moves]. intros c Hc. by apply edit_peer_moves.
Qed.

(** ** A confirmed initiation keeps the invariant *)

Lemma confirmed_sessions ps src now e : sessions (snd (confirmed_entry ps src now e)) = ps.
Proof. unfold confirmed_entry, observe_direct_endpoint. cbn. by destruct (bool_decide _). Qed.

Lemma confirmed_identity ps src now e : identity (snd (confirmed_entry ps src now e)) = identity e.
Proof. unfold confirmed_entry, observe_direct_endpoint. cbn. by destruct (bool_decide _). Qed.

Lemma identity_key (e e' : PeerEntry) : identity e = identity e' -> public_key e = public_key e'.
Proof. apply (f_equal (fun i => fst (fst (fst (fst (fst i)))))). Qed.

Lemma install_initiator_deadlines ps sidx freed ps' :
  install_initiator ps sidx = Ok (freed, ps') -> session_deadlines ps' ⊆+ session_deadlines ps.
Proof.
  unfold install_initiator. destruct (negb _); [done|]. intros [= <- <-]. unfold session_deadlines. cbn.
  destruct (keepalive_due ps), (persistent_keepalive_due ps), (reply_due ps), (attempt_deadline ps); cbn; solve_submseteq.
Qed.

(** Freeing the superseded session, as an effect. *)
Definition free_superseded (old : option SlotIdx) : Run unit :=
  match old with Some old => ignore (on_pool (free_slot old)) | None => mret tt end.

Lemma free_superseded_run old (c : @Core CR PM R) :
  free_superseded old c =
    (Ok tt, match old with Some s => with_pool c (snd (free_slot s (pool c))) | None => c end).
Proof. destruct old; [|done]. cbn. unfold ignore, on_pool, zoom. by destruct (free_slot _ _) as [[] ?]. Qed.

(** A session relinked by its owner's transition, with what that pushed out freed. *)
Lemma session_relinked pidx sidx sess x f e old tm now (c : @Core CR PM R) :
  core_inv c -> peer_at (pool c) pidx = Some e -> slots (pool c) !! sidx = Some x ->
  session_wf sess -> s_peer sess = pidx -> local_index x = Some (s_local_index sess) ->
  identity (f e) = identity e -> sidx ∈ linked (sessions e) ->
  linked (sessions e) ≡ₚ linked (sessions (f e)) ++ opt_list old -> sidx ∈ linked (sessions (f e)) ->
  (forall t, handshake (sessions (f e)) = Some t -> t <> sidx /\ handshake (sessions e) = Some t) ->
  (forall t, t ∈ linked (sessions (f e)) -> t <> sidx -> handshake (sessions (f e)) <> Some t -> handshake (sessions e) <> Some t) ->
  let c' := with_pool c (with_timers (update_peer pidx f (with_slots (pool c) (<[sidx := Established sess]> (slots (pool c))))) tm) in
  pool_adv now (pool c) (pool c') -> moved now (fun _ => free_superseded old c') c.
Proof.
  intros Hc He Hx Hwf Hp Hli Hid Hin Hperm Hin' Hh1 Hh2 c' Hadv.
  set (p := update_peer pidx f (with_slots (pool c) (<[sidx := Established sess]> (slots (pool c))))).
  assert (Hp1 : pool_inv MAX_PEERS MAX_SESSIONS old (pool c')).
  { apply pool_inv_timers. apply (pool_inv_relink _ _ _ _ pidx e f x (Established sess) old); try done;
      [apply Hc|by rewrite <- Hp|eauto|by apply identity_key]. }
  assert (Hs1 : forall t y, established (pool c') t = Some y -> session_wf y).
  { intros t y. rewrite established_Some. cbn. intros [(-> & Hy & _)|[_ Hy]]%list_lookup_insert_Some; [congruence|].
    apply (co_sessions _ Hc t), established_Some, Hy. }
  assert (Hid1 : forall i, identity <$> peer_at (pool c') i = identity <$> peer_at (pool c) i).
  { intros i. change (peer_at (pool c') i) with (peer_at p i). unfold p. rewrite peer_at_update.
    case_decide as E; [subst i|done]. change (peer_at (with_slots ?q _) pidx) with (peer_at (pool c) pidx).
    rewrite He. cbn. by rewrite Hid. }
  unfold moved. rewrite free_superseded_run. cbn [snd].
  destruct (free_orphan _ _ (pool c') old Hp1) as (Hp2 & Hst & _).
  destruct old as [s|]; cbn beta iota zeta in Hp2, Hst.
  - destruct (Hst now) as [(Hs2 & Hk2 & Hi2) Ha2]. split.
    + apply (core_inv_pool c); try done; [|intros i; cbn [pool with_pool]; by rewrite Hi2|apply Hc|apply Hc].
      intros t y Hy. by eapply Hs1, Hs2.
    + apply core_le_pool; [done..|]. by eapply pool_adv_trans.
  - split; [|by apply core_le_pool]. apply (core_inv_pool c); try done; apply Hc.
Qed.

(** The deadlines after one entry and one slot of its peer were written. *)
Lemma entry_slot_live p pidx f e sidx x y newp news :
  peer_at p pidx = Some e -> slots p !! sidx = Some x ->
  session_deadlines (sessions (f e)) ⊆+ newp ++ session_deadlines (sessions e) ->
  slot_deadlines y ⊆+ news ++ slot_deadlines x ->
  pool_live (update_peer pidx f (with_slots p (<[sidx := y]> (slots p)))) ⊆+ (newp ++ news) ++ pool_live p.
Proof.
  intros He Hx Hf Hy. set (q := with_slots p (<[sidx := y]> (slots p))). etrans.
  - apply (update_peer_live _ _ _ newp). intros e1 He1. change (peer_at q pidx) with (peer_at p pidx) in He1.
    rewrite He in He1. by injection He1 as <-.
  - rewrite <- app_assoc. by apply submseteq_skips_l, (put_slot_live p sidx x).
Qed.

Lemma install_response_moved sidx hs tk remote_index src now (c : @Core CR PM R) :
  core_inv c -> slots (pool c) !! sidx = Some (InitiatingSlot hs) ->
  length (tk_send tk) = 32 -> length (tk_recv tk) = 32 ->
  moved now (install_response sidx hs tk remote_index src now) c.
Proof.
  intros Hc0 Hs0 Hk1 Hk2. apply moved_bind; [by apply draw_moves|]. intros after c1 E Hc.
  assert (Hs : slots (pool c1) !! sidx = Some (InitiatingSlot hs)).
  { unfold draw in E. destruct (rekey_after_time (rng c)). by injection E as _ <-. }
  clear E Hc0 Hs0 c. rename c1 into c. cbv zeta. set (sess := with_owner _ _ after).
  apply moved_bind; [by apply moves_gets|]. intros entry c1 E _. unfold gets in E. injection E as <- <-.
  destruct (peer_at (pool c) (hs_peer hs)) as [e|] eqn:He; last first.
  { apply (moves_bind now); [apply moves_ignore, free_slot_moves|intros; apply moves_mret|done]. }
  destruct (install_initiator (sessions e) sidx) as [[old ps]|err] eqn:Ei; [|by apply moves_mret].
  destruct (confirmed_entry ps src now e) as [observed e1] eqn:Ee. set (f := fun peer => snd (confirmed_entry ps src now peer)).
  destruct (install_initiator_links _ _ _ _ Ei) as (Hh & Hperm & Hcur & Hhn).
  pose proof (install_initiator_deadlines _ _ _ _ Ei) as Hd.
  unfold moved. rewrite bind_edit_peer, bind_run. set (c1 := with_pool c _).
  assert (Ho : exists s, (if observed then emit (PeerEndpointUpdate (public_key e) src) else mret tt) c1 =
    (Ok tt, with_pool (with_sink c s) (pool c1))).
  { destruct observed; [eexists; reflexivity|exists (sink c)]. by destruct c. }
  destruct Ho as [snk ->]. rewrite bind_put_slot, bind_arm_timer.
  set (c0 := with_sink c snk).
  assert (H0 : core_inv c0 /\ core_le now c c0) by (by apply aside_moved).
  destruct H0 as [Hc0 Hl0].
  assert (Hlin : sidx ∈ linked (sessions e)) by (apply elem_of_linked; unfold ps_slots; rewrite Hh; set_solver).
  pose proof (session_relinked (hs_peer hs) sidx sess (InitiatingSlot hs) f e old
    (tc_arm (timers (pool c)) (instant_add now REJECT_AFTER_TIME)) now c0 Hc0 He Hs) as H.
  cbv zeta in H. rewrite bind_run.
  match goal with |- context [ (match old with Some _ => _ | None => _ end) ?x ] =>
    assert (Hm : moved now (fun _ => free_superseded old x) c0) end.
  { apply H; try done; unfold f; rewrite ?confirmed_identity, ?confirmed_sessions; try done.
    - apply elem_of_linked. unfold ps_slots. rewrite Hcur. set_solver.
    - by rewrite Hhn.
    - intros t Ht Hne _. rewrite Hh. congruence.
    - apply adv_arm; [|unfold instant_add, saturating_add, sat_add; change REJECT_AFTER_TIME with 180000%Z; lia].
      apply (entry_slot_live (pool c) _ f e _ (InitiatingSlot hs) _ [] [_] He Hs); unfold f; rewrite ?confirmed_sessions; [done|].
      cbn. apply submseteq_skip, submseteq_nil_l. }
  unfold moved in Hm. rewrite free_superseded_run in Hm. fold (free_superseded old). rewrite free_superseded_run.
  destruct Hm as [Hm1 Hm2]. split; [exact Hm1|]. eapply core_le_trans; [exact Hl0|exact Hm2].
Qed.

Lemma pending_shrinks now (c : @Core CR PM R) p :
  core_inv c -> pool_deadlines p ⊆+ pool_deadlines (pending c) ->
  core_inv (with_pending c p) /\ core_le now c (with_pending c p).
Proof.
  intros Hc Hp. split; [apply (core_inv_rest c); try done; apply Hc|].
  split; [done|]. unfold live. cbn. apply adv_drop. by apply submseteq_skips_l, submseteq_skips_r.
Qed.

Lemma take_if_shrinks p pred : pool_deadlines (snd (take_if p pred)) ⊆+ pool_deadlines p.
Proof.
  unfold take_if. destruct (position _ _) as [i|]; [|done]. cbn [snd].
  exact (omap_insert_submseteq (fun s : option PendingPacket => pp_deadline <$> s) p i None).
Qed.

Lemma flush_handshake_moves fuel pidx sidx sent now : moves now (flush_handshake fuel pidx sidx sent now).
Proof.
  revert sent. induction fuel as [|fuel IH]; intros sent; [apply moves_mret|].
  intros c Hc. apply moved_bind; [by apply moves_gets|]. intros taken c1 E _. unfold gets in E. injection E as <- <-.
  pose proof (take_if_shrinks (pending c) (awaits pidx)) as Hp.
  destruct (take_if (pending c) (awaits pidx)) as [[p|] rest]; [|by apply moves_mret]. cbn [snd] in Hp.
  apply moved_bind; [by apply pending_shrinks|]. intros [] c1 _ Hc1.
  apply (moves_bind now); [apply moves_attempt, encrypt_and_send_moves|intros; apply IH|done].
Qed.

Lemma start_speaking_moves pidx sidx now : moves now (start_speaking pidx sidx now).
Proof.
  apply moves_bind; [apply moves_gets|]. intros n. apply moves_bind; [apply flush_handshake_moves|].
  intros sent. apply moves_if; [apply moves_mret|]. apply moves_ignore, encrypt_and_send_moves.
Qed.

Lemma loaded_check_moves now t src data mac1 (loaded : bool) :
  moves now (if loaded then check_mac2_or_reply t src data mac1 else mret true).
Proof. apply moves_if; [apply check_mac2_or_reply_moves|apply moves_mret]. Qed.

Lemma rx_response_moves now src data : moves now (rx_response now src data).
Proof.
  apply moves_bind; [apply moves_gets|]. intros k. destruct (verify_mac1 _ _) as [mac1|]; [|apply moves_mret].
  apply moves_bind; [apply note_load_moves|]. intros loaded. apply moves_bind; [apply loaded_check_moves|].
  intros pass. apply moves_if; [apply moves_mret|]. destruct (get_range _ _ ≫= _) as [receiver|]; [|apply moves_mret].
  intros c Hc. apply moved_bind; [by apply moves_gets|]. intros found c1 E _. unfold gets in E. injection E as <- <-.
  destruct (slot_for_session_index (pool c) receiver) as [sidx|]; [|by apply moves_mret]. cbn [mbind option_bind].
  destruct (slots (pool c) !! sidx) as [[|hs|]|] eqn:Es; try by apply moves_mret.
  destruct (consume_response _ _ _) as [[tk idx]|err] eqn:Er; [|by apply moves_mret].
  apply consume_response_keys in Er as [? ?]. apply moved_bind; [by apply install_response_moved|].
  intros installed c1 _ Hc1. by apply moves_if; [apply start_speaking_moves|apply moves_mret|].
Qed.

Lemma rx_cookie_reply_moves now data : moves now (rx_cookie_reply now data).
Proof.
  unfold rx_cookie_reply. destruct (get_range _ _ ≫= _) as [receiver|]; [|apply moves_mret].
  apply moves_bind; [apply moves_gets|]. intros [[[pidx key] mac1]|]; [|apply moves_mret].
  destruct (consume_cookie_reply _ _ _); [|apply moves_mret]. by apply edit_peer_moves.
Qed.

End Respond.
