(* ===== verification/Receive.v ===== *)
(** * Received datagrams ([rx_data], [rx_relay], [rx_initiation] and [datagram] of
    [microtun-core/src/lib.rs])

    A data packet is opened and checked for replay ([rx_open]), accounted to its
    peer ([rx_account]) and only then looked at ([rx_deliver], [rx_relay]). *)

From S2P Require Import Prelude Clock Constants Ip Messages Effect Cidr Rate.
From S2P Require Import Firewall Routing Replay Relay Crypto Noise Cookie Session.
From S2P Require Import SessionIndex Pending Peer Pool Deadlines Rotation WallClock Load.
From S2P Require Import Resolve Core Demo Handshake Transport Resolver Respond.
Local Open Scope nat_scope.

Section Receive.
Context {SZ : Sizes} {CR : Cidr} {PM : PrefixMap nat} {PRM : Prims} {R : Type} {RG : RngCore R}.
Context {CL : CidrLaws} {ML : PrefixMapLaws (V:=nat) MAX_ROUTES} {PL : PrimLaws}.
Notation Run := (Eff (@Core CR PM R)).

(** ** Opening *)

(** A packet that was opened: its slot, the session as it was found, the buffer from
    [PACKET_START] on and how much of it is plaintext. *)
Record Opened := mkOpened {
  op_slot : SlotIdx;
  op_session : Session;
  op_buf : list Z;
  op_len : nat;
}.

Definition data_ad (is_relay : bool) : list Z := if is_relay then RELAY_AEAD_AD else [].

(** The replay window is consulted, and moved, strictly after authentication. *)
Definition rx_open (now : Instant) (data : list Z) (is_relay : bool) : Run (option Opened) :=
  match get_range data data_RECEIVER ≫= read_u32_le with
  | None => mret None
  | Some receiver =>
      found ← gets (fun c => slot_for_session_index (pool c) receiver);
      match found, get_range data data_COUNTER ≫= read_u64_le with
      | Some sidx, Some counter =>
          if (REJECT_AFTER_MESSAGES <=? counter)%Z then mret None else
          session ← gets (fun c => established (pool c) sidx);
          match session with
          | None => mret None
          | Some sess =>
              if (REJECT_AFTER_TIME <=? saturating_since now (created sess))%Z then mret None
              else if length data <? PACKET_START then mret None
              else
              match aead_open (t_recv sess) counter (drop PACKET_START data) (data_ad is_relay) with
              | Failed _ => mret None
              | Ok (buf, pt_len) =>
                  let '(fresh, window) := check_and_update REPLAY_WORDS (s_replay sess) counter in
                  _ ← put_slot sidx (Established (with_window sess window));
                  mret (if fresh : bool then Some (mkOpened sidx sess buf pt_len) else None)
              end
          end
      | _, _ => mret None
      end
  end.

(** ** Accounting *)

(** The peer once a packet of [len] bytes was accepted from [src]. *)
Definition received_entry (src : SocketAddr) (now : Instant) (len : nat) (is_keepalive : bool) (peer : PeerEntry)
  : bool * PeerEntry :=
  let peer := with_activity peer (last_relay_resolve peer) (latest_handshake peer)
                (sat_add u64_max (rx_bytes peer) (Z.of_nat len)) (tx_bytes peer) (last_activity peer) in
  let '(observed, peer) := observe_direct_endpoint peer src now in
  let peer := with_activity peer (last_relay_resolve peer) (latest_handshake peer) (rx_bytes peer) (tx_bytes peer) now in
  let persistent := instant_add now <$> persistent_keepalive peer in
  let keepalive := if is_keepalive then keepalive_due (sessions peer) else Some (instant_add now KEEPALIVE_TIMEOUT) in
  (observed, with_sessions peer (set_due (sessions peer) keepalive persistent None)).

(** The first packet over an unconfirmed session makes it the current one; [None]
    when the transition is refused. *)
Definition confirm_next (pidx : PeerIdx) (sidx : SlotIdx) (peer : PeerEntry) : Run (option (option SlotIdx)) :=
  if bool_decide (next (sessions peer) = Some sidx) then
    match confirm_responder (sessions peer) sidx with
    | Failed _ => mret None
    | Ok (old, ps) =>
        _ ← edit_peer pidx (fun peer => with_sessions peer ps);
        session ← gets (fun c => established (pool c) sidx);
        match session with
        | None => mret None
        | Some sess => _ ← put_slot sidx (Established (with_flags sess true (rekey_triggered sess))); mret (Some old)
        end
    end
  else mret (Some None).

Definition rx_account (now : Instant) (src : SocketAddr) (len : nat) (o : Opened) : Run bool :=
  let pidx := s_peer (op_session o) in
  let is_keepalive := op_len o =? 0 in
  entry ← gets (fun c => peer_at (pool c) pidx);
  match entry with
  | None => mret false
  | Some peer =>
      freed ← confirm_next pidx (op_slot o) peer;
      match freed with
      | None => mret false
      | Some freed =>
          _ ← edit_peer pidx (fun peer => snd (received_entry src now len is_keepalive peer));
          _ ← (if is_keepalive then mret tt else arm_timer (instant_add now KEEPALIVE_TIMEOUT));
          _ ← match persistent_keepalive peer with
              | Some interval => arm_timer (instant_add now interval)
              | None => mret tt
              end;
          _ ← (if fst (received_entry src now len is_keepalive peer)
               then emit (PeerEndpointUpdate (public_key peer) src) else mret tt);
          _ ← free_superseded freed;
          mret true
      end
  end.

(** Receive-path rekey, on the initiator's side only. *)
Definition rx_rekey (now : Instant) (o : Opened) : Run unit :=
  let sess := op_session o in
  if bool_decide (s_role sess = InitiatorRole) && negb (rekey_triggered sess) &&
     (sat_sub (sat_sub REJECT_AFTER_TIME KEEPALIVE_TIMEOUT) REKEY_TIMEOUT <=? saturating_since now (created sess))%Z
  then
    session ← gets (fun c => established (pool c) (op_slot o));
    _ ← match session with
        | Some s => put_slot (op_slot o) (Established (with_flags s (confirmed s) true))
        | None => mret tt
        end;
    ignore (ensure_handshake (s_peer sess) now)
  else mret tt.

(** ** Delivery *)

Definition rx_relay (pidx : PeerIdx) (plaintext : list Z) (now : Instant) : Run unit :=
  submitter ← gets (fun c => peer_at (pool c) pidx);
  match submitter, Relay.parse plaintext with
  | Some submitter, Some envelope =>
      allowed ← gets (fun c => relay_policy c (public_key submitter) (destination envelope));
      if negb allowed then mret tt else
      found ← gets (fun c => find_peer (pool c) (destination envelope));
      match found with
      | None => request_relay_peer_install pidx (destination envelope) now
      | Some dpidx =>
          entry ← gets (fun c => peer_at (pool c) dpidx);
          match entry with
          | None => mret tt
          | Some dest =>
              if bool_decide (is_Some (relay dest)) then mret tt else
              match endpoint dest with
              | Some ep => emit (OuterDatagram ep (inner envelope))
              | None => mret tt
              end
          end
      end
  | _, _ => mret tt
  end.

(** The policy of a vanished peer is the permissive one. *)
Definition policy_of (entry : option PeerEntry) : InboundPolicy :=
  match entry with Some peer => inbound_policy peer | None => AllowAll end.

Definition admits (pidx : PeerIdx) (packet : list Z) (now : Instant) : Run bool :=
  entry ← gets (fun c => peer_at (pool c) pidx);
  if bool_decide (policy_of entry = EstablishedOnly) then
    verdict ← gets (fun c => allows_inbound (firewall c) pidx packet now);
    _ ← modify (fun c => with_firewall c (snd verdict));
    mret (fst verdict)
  else mret true.

Definition rx_deliver (pidx : PeerIdx) (src : SocketAddr) (inner : list Z) (now : Instant) : Run unit :=
  match parse_header inner with
  | None => mret tt
  | Some header =>
      owner ← gets (fun c => lookup_readonly (routes c) (Ip.src header));
      if negb (bool_decide (owner = Some pidx)) then mret tt else
      match slice inner 0 (total_len header) with
      | None => mret tt
      | Some ip_packet =>
          ok ← admits pidx ip_packet now;
          if negb ok then mret tt else
          entry ← gets (fun c => peer_at (pool c) pidx);
          match entry with
          | None => mret tt
          | Some peer =>
              emit (InnerPacket (public_key peer) (if bool_decide (relay peer = None) then Some src else None) ip_packet)
          end
      end
  end.

Definition rx_data (now : Instant) (src : SocketAddr) (data : list Z) (is_relay : bool) : Run unit :=
  opened ← rx_open now data is_relay;
  match opened with
  | None => mret tt
  | Some o =>
      ok ← rx_account now src (length data) o;
      if negb ok then mret tt else
      _ ← rx_rekey now o;
      if op_len o =? 0 then mret tt else
      match slice (take PACKET_START data ++ op_buf o) PACKET_START (op_len o) with
      | None => mret tt
      | Some inner =>
          let pidx := s_peer (op_session o) in
          if is_relay then rx_relay pidx inner now else rx_deliver pidx src inner now
      end
  end.

(** ** Initiations *)

Definition rx_initiation (now : Instant) (src : SocketAddr) (data : list Z) : Run unit :=
  k ← gets keys;
  match verify_mac1 data (our_mac1_key k) with
  | None => mret tt
  | Some mac1 =>
      loaded ← note_load now;
      pass ← (if loaded : bool then check_mac2_or_reply now src data mac1 else mret true);
      if negb pass then mret tt else
      match identify_initiation (s_priv k) (s_pub k) data with
      | Failed _ => mret tt
      | Ok identified =>
          let claimed_key := static_key identified in
          found ← gets (fun c => find_peer (pool c) claimed_key);
          match found with
          | Some pidx =>
              entry ← gets (fun c => peer_at (pool c) pidx);
              match entry with
              | None => mret tt
              | Some peer =>
                  match authenticate_identified_with_shared_secret identified (precomputed_static_static peer) with
                  | Failed _ => equalize_unknown_identity_cost claimed_key now
                  | Ok consumed => accept_authenticated_initiation pidx consumed src now
                  end
              end
          | None =>
              pending_resolve ← gets (fun c => authenticated_initiator_resolve_id (resolver c) claimed_key now);
              suppressed ← gets (fun c => resolve_suppressed (resolver c) (ByPublicKey claimed_key) now);
              if bool_decide (pending_resolve = None) && suppressed
              then equalize_unknown_identity_cost claimed_key now
              else
              allowed ← take_unknown now;
              if negb allowed then mret tt else
              match authenticate_identified_initiation (s_priv k) identified with
              | Failed _ => mret tt
              | Ok consumed =>
                  match pending_resolve with
                  | Some id => ignore (on_resolver (fun r => park_pending_initiation r id src consumed))
                  | None =>
                      requested ← request_peer_install (ci_s_pub_i consumed) now;
                      match requested with
                      | Some id => ignore (on_resolver (fun r => park_pending_initiation r id src consumed))
                      | None => mret tt
                      end
                  end
              end
          end
      end
  end.

Definition datagram (now : Instant) (src : SocketAddr) (data : list Z) : Run unit :=
  match classify data with
  | Some Initiation => rx_initiation now src data
  | Some Response => ignore (rx_response now src data)
  | Some CookieReplyMsg => ignore (rx_cookie_reply now data)
  | Some Data => ignore (rx_data now src data false)
  | Some RelayData => ignore (rx_data now src data true)
  | None => mret tt
  end.

(** ** What opening accepts *)

(** [data] authenticates as packet [counter] of the session found by its receiver
    index, which is neither too old nor used up. *)
Record authentic (now : Instant) (data : list Z) (is_relay : bool) (c : @Core CR PM R) (o : Opened) (counter : Z) : Prop := {
  au_receiver : exists receiver, get_range data data_RECEIVER ≫= read_u32_le = Some receiver /\
    slot_for_session_index (pool c) receiver = Some (op_slot o);
  au_counter : get_range data data_COUNTER ≫= read_u64_le = Some counter;
  au_limit : (counter < REJECT_AFTER_MESSAGES)%Z;
  au_session : established (pool c) (op_slot o) = Some (op_session o);
  au_age : (saturating_since now (created (op_session o)) < REJECT_AFTER_TIME)%Z;
  au_length : PACKET_START <= length data;
  au_open : aead_open (t_recv (op_session o)) counter (drop PACKET_START data) (data_ad is_relay) = Ok (op_buf o, op_len o);
}.

Definition windowed (o : Opened) (counter : Z) (c : @Core CR PM R) : @Core CR PM R :=
  with_pool c (with_slots (pool c)
    (<[op_slot o := Established (with_window (op_session o) (snd (check_and_update REPLAY_WORDS (s_replay (op_session o)) counter)))]>
       (slots (pool c)))).

Lemma rx_open_cases now data is_relay (c : @Core CR PM R) :
  rx_open now data is_relay c = (Ok None, c) \/
  exists o counter, authentic now data is_relay c o counter /\
    rx_open now data is_relay c =
      (Ok (if fst (check_and_update REPLAY_WORDS (s_replay (op_session o)) counter) then Some o else None), windowed o counter c).
Proof.
  unfold rx_open. destruct (get_range _ data_RECEIVER ≫= _) as [receiver|] eqn:Er; [|by left]. rewrite bind_gets.
  destruct (slot_for_session_index _ _) as [sidx|] eqn:Es; [|by left].
  destruct (get_range _ data_COUNTER ≫= _) as [counter|] eqn:Ec; [|by left].
  destruct (Z.leb_spec REJECT_AFTER_MESSAGES counter); [by left|]. rewrite bind_gets.
  destruct (established (pool c) sidx) as [sess|] eqn:Ee; [|by left].
  destruct (Z.leb_spec REJECT_AFTER_TIME (saturating_since now (created sess))); [by left|].
  destruct (Nat.ltb_spec (length data) PACKET_START); [by left|].
  destruct (aead_open _ _ _ _) as [[buf n]|] eqn:Eo; [|by left]. right.
  exists (mkOpened sidx sess buf n), counter. split; [by split; eauto|].
  unfold windowed. cbn [op_session op_slot]. by destruct (check_and_update _ _ _) as [[] w].
Qed.

(** ** Receiving keeps the invariant *)

(** A session rewritten in place: same owner, index and age. *)
Lemma rewrite_session_moved now sidx s s' (c : @Core CR PM R) :
  core_inv c -> established (pool c) sidx = Some s -> same_role (Established s) (Established s') ->
  session_wf s' -> created s' = created s -> moved now (put_slot sidx (Established s')) c.
Proof.
  intros Hc Hs Hr Hwf Hcr. assert (Hs' := proj1 (established_Some _ _ _) Hs). split.
  - apply (core_inv_pool c); try done; [..|apply Hc|apply Hc].
    + apply (pool_inv_same_role _ _ _ _ _ (Established s)); [apply Hc|done..].
    + intros t y. rewrite established_Some. cbn. intros [(-> & Hy & _)|[_ Hy]]%list_lookup_insert_Some; [congruence|].
      apply (co_sessions _ Hc t), established_Some, Hy.
  - apply core_le_pool; [done..|]. apply adv_drop. apply (put_slot_live _ _ (Established s) _ [] Hs'). cbn. by rewrite Hcr.
Qed.

Lemma windowed_moved now data is_relay (c : @Core CR PM R) o counter :
  core_inv c -> authentic now data is_relay c o counter -> core_inv (windowed o counter c) /\ core_le now c (windowed o counter c).
Proof.
  intros Hc Ha. apply (rewrite_session_moved now (op_slot o) (op_session o)); [done|apply Ha|by repeat split| |done].
  exact (co_sessions _ Hc _ _ (au_session _ _ _ _ _ _ Ha)).
Qed.

Lemma rx_open_moves now data is_relay : moves now (rx_open now data is_relay).
Proof.
  intros c Hc. destruct (rx_open_cases now data is_relay c) as [->|(o & counter & Ha & ->)]; [by split; [|apply core_le_refl]|].
  by eapply windowed_moved.
Qed.

(** The session an opened packet came through is still there, with its peer linking
    its slot. *)
Definition opened_at (o : Opened) (c : @Core CR PM R) : Prop :=
  exists s, established (pool c) (op_slot o) = Some s /\ s_peer s = s_peer (op_session o) /\ created s = created (op_session o).

Lemma rx_open_Some now data is_relay (c c' : @Core CR PM R) o :
  rx_open now data is_relay c = (Ok (Some o), c') ->
  exists counter, authentic now data is_relay c o counter /\ c' = windowed o counter c /\
    fst (check_and_update REPLAY_WORDS (s_replay (op_session o)) counter) = true.
Proof.
  destruct (rx_open_cases now data is_relay c) as [->|(o' & counter & Ha & ->)]; [discriminate|].
  destruct (fst _) eqn:E; [|discriminate]. intros [= <- <-]. eauto.
Qed.

Lemma windowed_slot o counter (c : @Core CR PM R) now data is_relay :
  authentic now data is_relay c o counter ->
  established (pool (windowed o counter c)) (op_slot o) =
    Some (with_window (op_session o) (snd (check_and_update REPLAY_WORDS (s_replay (op_session o)) counter))).
Proof.
  intros Ha. apply established_Some. cbn. apply list_lookup_insert_eq.
  pose proof (au_session _ _ _ _ _ _ Ha) as H. apply established_Some in H. by eapply lookup_lt_Some.
Qed.

(** The deadlines a received packet arms. *)
Definition received_due (now : Instant) (is_keepalive : bool) (persistent : option Duration) : list Instant :=
  (if is_keepalive then [] else [instant_add now KEEPALIVE_TIMEOUT]) ++
  match persistent with Some interval => [instant_add now interval] | None => [] end.

Definition arm_all (t : TimerCache) (ds : list Instant) : TimerCache := fold_left tc_arm ds t.

Lemma arm_all_get t ds d :
  at_or_before (tc_get (arm_all t ds)) d <-> at_or_before (tc_get t) d \/ Exists (fun x => x <= d)%Z ds.
Proof.
  revert t. induction ds as [|x ds IH]; intros t; cbn [arm_all fold_left].
  - split; [auto|]. intros [|H]; [done|]. by apply Exists_nil in H.
  - fold (arm_all (tc_arm t x) ds). rewrite IH, tc_arm_get, min_deadline_spec, Exists_cons. cbn. tauto.
Qed.

Lemma arm_all_adv soon t ds l l' :
  l' ⊆+ ds ++ l -> Forall (fun d => soon <= d)%Z ds -> adv_on soon t (arm_all t ds) l l'.
Proof.
  intros Hl Hd. split; [intros d Hd'; apply arm_all_get; by left|]. exists ds. split; [done|].
  rewrite Forall_forall in *. intros d Hin. split; [|by apply Hd]. apply arm_all_get. right.
  apply Exists_exists. exists d. split; [done|lia].
Qed.

Lemma received_due_later now is_keepalive persistent :
  (forall iv, persistent = Some iv -> (1 <= iv)%Z) ->
  Forall (fun d => instant_add now 1 <= d)%Z (received_due now is_keepalive persistent).
Proof.
  intros H. unfold received_due. destruct is_keepalive, persistent as [iv|]; cbn; repeat constructor;
    try (apply instant_add_mono; [by vm_compute || by apply H]); apply instant_add_mono; first [by vm_compute|by apply H].
Qed.

Lemma received_deadlines src now len is_keepalive e :
  session_deadlines (sessions (snd (received_entry src now len is_keepalive e))) ⊆+
    received_due now is_keepalive (persistent_keepalive e) ++ session_deadlines (sessions e).
Proof.
  unfold received_entry, observe_direct_endpoint, received_due. cbn.
  destruct (bool_decide _); unfold session_deadlines; cbn;
    destruct is_keepalive, (persistent_keepalive e), (keepalive_due (sessions e)), (persistent_keepalive_due (sessions e)),
      (reply_due (sessions e)), (attempt_deadline (sessions e)); cbn; solve_submseteq.
Qed.

Lemma received_identity src now len is_keepalive e :
  identity (snd (received_entry src now len is_keepalive e)) = identity e.
Proof. unfold received_entry, observe_direct_endpoint. cbn. by destruct (bool_decide _). Qed.

Lemma received_links src now len is_keepalive e :
  ps_slots (sessions (snd (received_entry src now len is_keepalive e))) = ps_slots (sessions e).
Proof. unfold received_entry, observe_direct_endpoint. cbn. by destruct (bool_decide _). Qed.

Lemma ps_slots_links ps ps' : ps_slots ps = ps_slots ps' -> linked ps = linked ps' /\ handshake ps = handshake ps'.
Proof. intros H. unfold linked. rewrite H. unfold ps_slots in H. split; [done|]. congruence. Qed.

(** The peer, the timers and the sink of an accepted packet. *)
Definition account (src : SocketAddr) (now : Instant) (len : nat) (ka : bool) (pidx : PeerIdx) (peer : PeerEntry)
    (freed : option SlotIdx) : Run bool :=
  _ ← edit_peer pidx (fun peer => snd (received_entry src now len ka peer));
  _ ← (if ka then mret tt else arm_timer (instant_add now KEEPALIVE_TIMEOUT));
  _ ← match persistent_keepalive peer with
      | Some interval => arm_timer (instant_add now interval)
      | None => mret tt
      end;
  _ ← (if fst (received_entry src now len ka peer) then emit (PeerEndpointUpdate (public_key peer) src) else mret tt);
  _ ← free_superseded freed;
  mret true.

Lemma arm_some_run ds (m : Run unit) (c : @Core CR PM R) :
  m = match ds with [] => mret tt | d :: _ => arm_timer d end -> length ds <= 1 ->
  m c = (Ok tt, with_pool c (with_timers (pool c) (arm_all (timers (pool c)) ds))).
Proof.
  intros ->. destruct ds as [|d [|]]; cbn; [|done|lia]. intros _. destruct c as [? ? ? ? [] ? ? ? ? ? ? ? ? ? ?]. done.
Qed.

Lemma emit_if_run (b : bool) o (c : @Core CR PM R) :
  (if b then emit o else mret tt) c = (Ok tt, with_sink c (sink c ++ if b then [o] else [])).
Proof. destruct b; [done|]. rewrite app_nil_r. by destruct c. Qed.

Lemma account_run src now len ka pidx peer freed (c : @Core CR PM R) :
  exists snk, snd (account src now len ka pidx peer freed c) =
    snd (free_superseded freed (with_pool (with_sink c snk)
      (with_timers (update_peer pidx (fun peer => snd (received_entry src now len ka peer)) (pool c))
         (arm_all (timers (pool c)) (received_due now ka (persistent_keepalive peer)))))).
Proof.
  unfold account. rewrite bind_edit_peer. eexists.
  rewrite bind_run, (arm_some_run (if ka then [] else [instant_add now KEEPALIVE_TIMEOUT])) by (destruct ka; cbn; done || lia).
  rewrite bind_run, (arm_some_run (match persistent_keepalive peer with Some iv => [instant_add now iv] | None => [] end))
    by (destruct (persistent_keepalive peer); cbn; done || lia).
  rewrite bind_run, emit_if_run, bind_run, free_superseded_run. cbn [snd mret].
  rewrite free_superseded_run. cbn [snd]. unfold received_due.
  assert (E : forall t l l', arm_all t (l ++ l') = arm_all (arm_all t l) l') by (intros; apply fold_left_app).
  rewrite E. reflexivity.
Qed.

Lemma confirm_responder_deadlines ps sidx freed ps' :
  confirm_responder ps sidx = Ok (freed, ps') -> session_deadlines ps' = session_deadlines ps.
Proof. unfold confirm_responder. destruct (negb _); [done|]. by intros [= <- <-]. Qed.

Lemma keepalive_positive (c : @Core CR PM R) i e iv :
  core_inv c -> peer_at (pool c) i = Some e -> persistent_keepalive e = Some iv -> (1 <= iv)%Z.
Proof. intros Hc. apply (co_keepalive _ Hc). Qed.

Lemma account_plain src now len ka pidx peer (c : @Core CR PM R) :
  core_inv c -> peer_at (pool c) pidx = Some peer -> moved now (account src now len ka pidx peer None) c.
Proof.
  intros Hc Hp. destruct (account_run src now len ka pidx peer None c) as [snk E]. unfold moved. rewrite E.
  set (f := fun peer => snd (received_entry src now len ka peer)). rewrite free_superseded_run. cbn [snd].
  assert (Hupd : pool_inv MAX_PEERS MAX_SESSIONS None (update_peer pidx f (pool c))).
  { apply pool_inv_update_peer; [|apply Hc]. intros e. split; [apply identity_key, received_identity|].
    apply ps_slots_links, received_links. }
  split.
  - apply (core_inv_pool c); try done; [..|apply Hc|apply Hc].
    + by apply pool_inv_timers.
    + apply (co_sessions _ Hc).
    + intros i. apply (update_peer_identity pidx f (pool c) i). intros e. apply received_identity.
  - apply core_le_pool; [done..|]. apply arm_all_adv.
    + apply (update_peer_live f). intros e He. rewrite Hp in He. injection He as <-. apply received_deadlines.
    + apply received_due_later. intros iv. by apply (keepalive_positive c pidx).
Qed.

Lemma account_confirmed src now len ka pidx sidx peer s old ps (c : @Core CR PM R) :
  core_inv c -> peer_at (pool c) pidx = Some peer -> established (pool c) sidx = Some s -> s_peer s = pidx ->
  confirm_responder (sessions peer) sidx = Ok (old, ps) ->
  moved now (fun c => account src now len ka pidx peer old
    (with_pool c (with_slots (update_peer pidx (fun peer => with_sessions peer ps) (pool c))
                   (<[sidx := Established (with_flags s true (rekey_triggered s))]> (slots (pool c)))))) c.
Proof.
  intros Hc Hp Hs Hsp Hcf. destruct (confirm_responder_links _ _ _ _ Hcf) as (Hn & Hperm & Hcur & Hhs).
  pose proof (confirm_responder_deadlines _ _ _ _ Hcf) as Hd.
  set (c1 := with_pool c (with_slots (update_peer pidx (fun peer => with_sessions peer ps) (pool c))
                   (<[sidx := Established (with_flags s true (rekey_triggered s))]> (slots (pool c))))).
  destruct (account_run src now len ka pidx peer old c1) as [snk E].
  unfold moved. fold c1. rewrite E. set (f := fun peer => snd (received_entry src now len ka peer)).
  set (s' := with_flags s true (rekey_triggered s)).
  set (tm := arm_all (timers (pool c1)) (received_due now ka (persistent_keepalive peer))).
  set (g := fun e => f (with_sessions e ps)). set (c0 := with_sink c snk).
  destruct (aside_moved now c c0) as [Hc0 Hl0]; [done..|].
  assert (Ep : with_timers (update_peer pidx f (pool c1)) tm =
    with_timers (update_peer pidx g (with_slots (pool c0) (<[sidx := Established s']> (slots (pool c0))))) tm).
  { unfold g. rewrite <- (update_peer_twice pidx (fun e => with_sessions e ps) f). reflexivity. }
  assert (Hps : sessions (g peer) = set_due ps (keepalive_due (sessions (g peer))) (persistent_keepalive_due (sessions (g peer)))
                  (reply_due (sessions (g peer)))).
  { unfold g, f, received_entry, observe_direct_endpoint. cbn. by destruct (bool_decide _). }
  assert (Hl : ps_slots (sessions (g peer)) = ps_slots ps) by by rewrite Hps.
  apply ps_slots_links in Hl as [Hlk Hhk].
  destruct (pi_links _ _ _ _ (co_pool _ Hc) pidx peer Hp) as (_ & Hlh & _).
  pose proof (next_established _ _ _ _ _ _ _ (co_pool _ Hc) Hp Hn) as (Hin & Hneq & _).
  pose proof (proj1 (established_Some _ _ _) Hs) as Hs'.
  assert (Hm : moved now (fun _ => free_superseded old (with_pool c0 (with_timers (update_peer pidx f (pool c1)) tm))) c0).
  { rewrite Ep. apply (session_relinked pidx sidx s' (Established s) g peer old tm now c0); try done;
      [apply (co_sessions _ Hc _ _ Hs)|unfold g, f; by rewrite received_identity|by rewrite Hlk| | | |].
    - rewrite Hlk. apply elem_of_linked. unfold ps_slots. rewrite Hcur. set_solver.
    - intros t Ht. rewrite Hhk, Hhs in Ht. split; [congruence|done].
    - intros t _ _ Ht. by rewrite Hhk, Hhs in Ht.
    - apply arm_all_adv.
      + pose proof (received_deadlines src now len ka (with_sessions peer ps)) as Hr. cbn [sessions with_sessions] in Hr.
        rewrite Hd in Hr. etrans.
        * apply (entry_slot_live (pool c0) pidx g peer sidx (Established s) (Established s') _ [] Hp Hs' Hr). done.
        * by rewrite app_nil_r.
      + apply received_due_later. intros iv. by apply (keepalive_positive c pidx). }
  destruct Hm as [Hm1 Hm2]. split; [exact Hm1|]. eapply core_le_trans; [exact Hl0|exact Hm2].
Qed.

Lemma rx_account_moved now src len o (c : @Core CR PM R) :
  core_inv c -> opened_at o c -> moved now (rx_account now src len o) c.
Proof.
  intros Hc (s & Hs & Hsp & Hcr). unfold moved, rx_account. rewrite bind_gets.
  destruct (peer_at (pool c) (s_peer (op_session o))) as [peer|] eqn:Hp; [|by split; [|apply core_le_refl]].
  unfold confirm_next. case_bool_decide as Hn.
  - destruct (confirm_responder (sessions peer) (op_slot o)) as [[old ps]|err] eqn:Ec; [|by split; [|apply core_le_refl]].
    rewrite bind_assoc, bind_edit_peer, bind_assoc, bind_gets.
    change (established (pool (with_pool c (update_peer _ _ _))) (op_slot o)) with (established (pool c) (op_slot o)).
    rewrite Hs, bind_assoc, bind_put_slot, bind_ret.
    exact (account_confirmed src now len (op_len o =? 0) _ (op_slot o) peer s old ps c Hc Hp Hs Hsp Ec).
  - rewrite bind_ret. exact (account_plain src now len (op_len o =? 0) _ peer c Hc Hp).
Qed.

Lemma rx_rekey_moves now o : moves now (rx_rekey now o).
Proof.
  unfold rx_rekey. apply moves_if; [|apply moves_mret]. intros c Hc.
  apply moved_bind; [by apply moves_gets|]. intros session c1 E _. unfold gets in E. injection E as <- <-.
  apply (moved_bind now); [|intros [] c1 _ Hc1; by apply moves_ignore; [apply ensure_handshake_moves|]].
  destruct (established (pool c) (op_slot o)) as [s|] eqn:Es; [|by apply moves_mret].
  apply (rewrite_session_moved now _ s); [done|done|by repeat split| |done]. exact (co_sessions _ Hc _ _ Es).
Qed.

Lemma rx_relay_moves pidx plaintext now : moves now (rx_relay pidx plaintext now).
Proof.
  apply moves_bind; [apply moves_gets|]. intros [submitter|]; [|apply moves_mret].
  destruct (Relay.parse plaintext) as [envelope|]; [|apply moves_mret].
  apply moves_bind; [apply moves_gets|]. intros allowed. apply moves_if; [apply moves_mret|].
  apply moves_bind; [apply moves_gets|]. intros [dpidx|]; [|apply request_relay_peer_install_moves].
  apply moves_bind; [apply moves_gets|]. intros [dest|]; [|apply moves_mret].
  apply moves_if; [apply moves_mret|]. destruct (endpoint dest); [apply emit_moves|apply moves_mret].
Qed.

Lemma admits_moves pidx packet now : moves now (admits pidx packet now).
Proof.
  apply moves_bind; [apply moves_gets|]. intros entry. apply moves_if; [|apply moves_mret].
  apply moves_bind; [apply moves_gets|]. intros verdict. apply moves_bind; [|intros _; apply moves_mret].
  intros c Hc. by apply with_firewall_moves.
Qed.

Lemma rx_deliver_moves pidx src inner now : moves now (rx_deliver pidx src inner now).
Proof.
  unfold rx_deliver. destruct (parse_header inner) as [header|]; [|apply moves_mret].
  apply moves_bind; [apply moves_gets|]. intros owner. apply moves_if; [apply moves_mret|].
  destruct (slice _ _ _); [|apply moves_mret]. apply moves_bind; [apply admits_moves|]. intros ok.
  apply moves_if; [apply moves_mret|]. apply moves_bind; [apply moves_gets|].
  intros [peer|]; [apply emit_moves|apply moves_mret].
Qed.

Lemma rx_data_moves now src data is_relay : moves now (rx_data now src data is_relay).
Proof.
  intros c Hc. apply moved_bind; [by apply rx_open_moves|]. intros opened c1 E Hc1.
  destruct opened as [o|]; [|by apply moves_mret].
  apply rx_open_Some in E as (counter & Ha & -> & _).
  apply moved_bind.
  { apply rx_account_moved; [done|]. eexists. split; [exact (windowed_slot o counter c now data is_relay Ha)|done]. }
  intros ok c2 _ Hc2. apply moves_if; [apply moves_mret| |done].
  apply moves_bind; [apply rx_rekey_moves|]. intros _. apply moves_if; [apply moves_mret|].
  destruct (slice _ _ _) as [inner|]; [|apply moves_mret]. apply moves_if; [apply rx_relay_moves|apply rx_deliver_moves].
Qed.

Lemma park_initiation_moves now id src consumed :
  moves now (@on_resolver CR PM R bool (fun r => park_pending_initiation r id src consumed)).
Proof.
  intros c Hc. unfold on_resolver. destruct (park_pending_initiation (resolver c) id src consumed) as [b r] eqn:E. cbn [snd].
  assert (Er : exists x, r = with_initiations (resolver c) x \/ r = resolver c).
  { unfold park_pending_initiation in E. destruct (position (parked_for id) _).
    - injection E as _ <-. case_match; [eauto|exists []; by right].
    - destruct (position is_free_slot _); injection E as _ <-; [eauto|exists []; by right]. }
  destruct Er as [x [->| ->]]; (apply resolver_moved; [done| |done|done]); [|apply Hc].
  destruct (co_resolver _ Hc). by split.
Qed.

Lemma rx_initiation_moves now src data : moves now (rx_initiation now src data).
Proof.
  apply moves_bind; [apply moves_gets|]. intros k. destruct (verify_mac1 _ _) as [mac1|]; [|apply moves_mret].
  apply moves_bind; [apply note_load_moves|]. intros loaded. apply moves_bind; [apply loaded_check_moves|].
  intros pass. apply moves_if; [apply moves_mret|]. destruct (identify_initiation _ _ _) as [identified|]; [|apply moves_mret].
  cbv zeta. apply moves_bind; [apply moves_gets|]. intros [pidx|].
  - apply moves_bind; [apply moves_gets|]. intros [peer|]; [|apply moves_mret].
    destruct (authenticate_identified_with_shared_secret _ _);
      [apply accept_authenticated_initiation_moves|apply equalize_moves].
  - apply moves_bind; [apply moves_gets|]. intros pending. apply moves_bind; [apply moves_gets|]. intros suppressed.
    apply moves_if; [apply equalize_moves|]. apply moves_bind; [apply take_unknown_moves|]. intros allowed.
    apply moves_if; [apply moves_mret|]. destruct (authenticate_identified_initiation _ _) as [consumed|]; [|apply moves_mret].
    destruct pending as [id|]; [apply moves_ignore, park_initiation_moves|].
    apply moves_bind; [apply request_peer_install_moves|].
    intros [id|]; [apply moves_ignore, park_initiation_moves|apply moves_mret].
Qed.

Lemma datagram_moves now src data : moves now (datagram now src data).
Proof.
  unfold datagram. destruct (classify data) as [[]|];
    first [apply rx_initiation_moves|apply moves_ignore, rx_response_moves|apply moves_ignore, rx_cookie_reply_moves|
           apply moves_ignore, rx_data_moves|apply moves_mret].
Qed.

End Receive.
