(* ===== verification/Aloof.v ===== *)
(** * Parts of the state a handler stays clear of

    [Aloof f] says that [f] of the engine depends on no table, buffer or budget and on
    no output but the inner packets. Handlers that neither deliver a packet nor touch
    the routes keep every such [f]: what was delivered so far, and the routes, are two
    instances. *)

From S2P Require Import Prelude Clock Constants Ip Messages Effect Cidr Rate.
From S2P Require Import Firewall Routing Crypto Noise Cookie Session Pending Peer.
From S2P Require Import Pool Deadlines WallClock Load Resolve Core Handshake Transport.
From S2P Require Import SessionIndex Frame Resolver Respond Receive.
Local Open Scope nat_scope.

Section Class.
Context {CR : Cidr} {PM : PrefixMap nat} {R : Type}.
Notation Core := (@Core CR PM R).

Class Aloof {X} (f : Core -> X) : Prop := {
  aloof_rng c x : f (with_rng c x) = f c;
  aloof_pool c x : f (with_pool c x) = f c;
  aloof_pending c x : f (with_pending c x) = f c;
  aloof_gate c x : f (with_gate c x) = f c;
  aloof_firewall c x : f (with_firewall c x) = f c;
  aloof_wallclock c x : f (with_wallclock c x) = f c;
  aloof_load c x : f (with_load c x) = f c;
  aloof_resolver c x : f (with_resolver c x) = f c;
  aloof_buffers c x y : f (with_buffers c x y) = f c;
  aloof_sink c o : is_inner o = false -> f (with_sink c (sink c ++ [o])) = f c;
}.

(** The inner packets handed to the embedding so far. *)
Definition delivered (c : Core) : list Output := retain is_inner (sink c).

#[export] Instance delivered_aloof : Aloof delivered.
Proof.
  split; try done. intros c o H. unfold delivered. cbn. rewrite retain_app. cbn. by rewrite H, app_nil_r.
Qed.

#[export] Instance routes_aloof : Aloof (fun c : Core => routes c).
Proof. by split. Qed.

End Class.

(** Closes an update of a part [f] does not depend on. *)
Ltac aloof_close :=
  intros; cbn beta; repeat case_match;
  first [ reflexivity | apply aloof_pool | apply aloof_pending | apply aloof_resolver | apply aloof_gate
        | apply aloof_load | apply aloof_firewall | apply aloof_buffers | apply aloof_rng
        | apply aloof_sink; reflexivity ].

Ltac aloof_step :=
  lazymatch goal with
  | |- forall _, _ => intro
  | |- same _ (modify _) => apply same_modify; aloof_close
  | |- same _ (let _ := _ in _) => cbv zeta
  | |- same _ (draw _) => apply same_draw; aloof_close
  | |- same _ (try_draw _) => apply same_try_draw; aloof_close
  | |- same _ (on_pool _) => apply same_on_pool; aloof_close
  | |- same _ (on_resolver _) => apply same_on_resolver; aloof_close
  | |- same _ (on_wall _) => apply same_on_wall; intros; apply aloof_wallclock
  | |- same _ (the_peer _ _) => apply same_demand
  | |- same _ (emit _) => apply same_modify; aloof_close
  | |- same _ (edit_peer _ _) => apply same_modify; aloof_close
  | |- same _ (put_slot _ _) => apply same_modify; aloof_close
  | |- same _ (edit_resolver _) => apply same_modify; aloof_close
  | |- same _ (arm_timer _) => apply same_on_pool; aloof_close
  | |- same _ (ignore _) => apply same_ignore
  | |- same _ (attempt _) => apply same_attempt
  | |- same _ (match ?x with _ => _ end) => destruct x
  | |- same _ (@mbind _ _ _ _ _ _) => apply same_bind
  | |- _ => solve [eauto 1 with same]
  end.
Ltac aloof_tac := repeat aloof_step.

Section Aloof.
Context {SZ : Sizes} {CR : Cidr} {PM : PrefixMap nat} {PRM : Prims} {R : Type} {RG : RngCore R}.
Context {CL : CidrLaws} {ML : PrefixMapLaws (V:=nat) MAX_ROUTES} {PL : PrimLaws}.
Context {X : Type} (f : @Core CR PM R -> X) {AF : Aloof f}.

(** ** Sending *)

Lemma stage_initiation_aloof i now : same f (stage_initiation i now).
Proof. unfold stage_initiation, allocate_handshake_slot, build_initiation, commit_handshake_start. aloof_tac. Qed.
Hint Resolve stage_initiation_aloof : same.

Lemma ensure_direct_handshake_aloof i now : same f (ensure_direct_handshake i now).
Proof. unfold ensure_direct_handshake. aloof_tac. Qed.
Lemma seal_transport_aloof i s m n r now : same f (seal_transport i s m n r now).
Proof. unfold seal_transport, seal_commit, write_buffer. aloof_tac. Qed.
Hint Resolve ensure_direct_handshake_aloof seal_transport_aloof : same.

Lemma relay_path_aloof k now : same f (relay_path k now).
Proof. unfold relay_path. aloof_tac. Qed.
Hint Resolve relay_path_aloof : same.

Lemma transmit_wire_aloof i dst msg now : same f (transmit_wire i dst msg now).
Proof. unfold transmit_wire. aloof_tac. Qed.
Hint Resolve transmit_wire_aloof : same.

Lemma ensure_handshake_aloof i now : same f (ensure_handshake i now).
Proof. unfold ensure_handshake. aloof_tac. Qed.
Hint Resolve ensure_handshake_aloof : same.

Lemma note_outbound_flow_aloof i packet now : same f (note_outbound_flow i packet now).
Proof.
  apply same_modify. intros c. destruct (peer_at (pool c) i) as [peer|]; [|done].
  destruct (inbound_policy peer); [done|apply aloof_firewall].
Qed.
Hint Resolve note_outbound_flow_aloof : same.

Lemma encrypt_and_send_aloof i s packet now : same f (encrypt_and_send i s packet now).
Proof. unfold encrypt_and_send, encrypt_via_relay, wrap_and_seal, stage_packet. aloof_tac. Qed.
Hint Resolve encrypt_and_send_aloof : same.

Lemma send_to_peer_aloof i packet now : same f (send_to_peer i packet now).
Proof. unfold send_to_peer. aloof_tac. Qed.

Lemma retransmit_initiation_aloof i s now : same f (retransmit_initiation i s now).
Proof. unfold retransmit_initiation, send_initiation, build_initiation. aloof_tac. Qed.

(** ** Receiving *)

Lemma take_unknown_aloof now : same f (take_unknown now).
Proof. intros v c <-. unfold take_unknown. destruct (try_take _ _). apply aloof_gate. Qed.
Lemma check_mac2_aloof now src data mac1 : same f (check_mac2_or_reply now src data mac1).
Proof. unfold check_mac2_or_reply. aloof_tac. Qed.
Lemma note_load_aloof now : same f (note_load now).
Proof. unfold note_load. aloof_tac. Qed.
Hint Resolve take_unknown_aloof check_mac2_aloof note_load_aloof : same.

Lemma respond_aloof i consumed src now : same f (respond_to_initiation i consumed src now).
Proof.
  unfold respond_to_initiation, responder_slot, or_release, build_response, commit_response_slot. aloof_tac.
  intros v c <-. destruct (sim_replace _ _ _ _ _). apply aloof_pool.
Qed.
Hint Resolve respond_aloof : same.

Lemma accept_aloof i consumed src now : same f (accept_authenticated_initiation i consumed src now).
Proof. unfold accept_authenticated_initiation. aloof_tac. Qed.
Hint Resolve accept_aloof : same.

Lemma flush_handshake_aloof fuel i s b now : same f (flush_handshake fuel i s b now).
Proof. revert b. induction fuel as [|fuel IH]; intros b; cbn [flush_handshake]; aloof_tac. Qed.
Hint Resolve flush_handshake_aloof : same.

Lemma push_resolve_aloof e : same f (push_resolve e).
Proof. unfold push_resolve, try_push_resolve. aloof_tac. Qed.
Hint Resolve push_resolve_aloof : same.

Lemma queue_peer_install_aloof key source now : same f (queue_peer_install key source now).
Proof. unfold queue_peer_install, new_id. aloof_tac. Qed.
Hint Resolve queue_peer_install_aloof : same.

Lemma rx_initiation_aloof now src data : same f (rx_initiation now src data).
Proof. unfold rx_initiation, equalize_unknown_identity_cost, request_peer_install. aloof_tac. Qed.

Lemma rx_response_aloof now src data : same f (rx_response now src data).
Proof. unfold rx_response, install_response, start_speaking. aloof_tac. Qed.

Lemma rx_cookie_reply_aloof now data : same f (rx_cookie_reply now data).
Proof. unfold rx_cookie_reply. aloof_tac. Qed.

Lemma rx_relay_aloof i plaintext now : same f (rx_relay i plaintext now).
Proof. unfold rx_relay, request_relay_peer_install. aloof_tac. Qed.

Lemma rx_open_aloof now data is_relay : same f (rx_open now data is_relay).
Proof. unfold rx_open. aloof_tac. Qed.
Lemma rx_account_aloof now src len o : same f (rx_account now src len o).
Proof. unfold rx_account, confirm_next, free_superseded. aloof_tac. Qed.
Lemma rx_rekey_aloof now o : same f (rx_rekey now o).
Proof. unfold rx_rekey. aloof_tac. Qed.

(** ** Resolver work *)

Lemma mark_negative_aloof query now : same f (mark_negative query now).
Proof. unfold mark_negative, new_id, try_push_resolve. aloof_tac. Qed.
Lemma queue_outbound_resolution_aloof dst packet now : same f (queue_outbound_resolution dst packet now).
Proof. unfold queue_outbound_resolution, new_id. aloof_tac. Qed.
Lemma queue_reconcile_aloof key now : same f (queue_reconcile key now).
Proof. unfold queue_reconcile. aloof_tac. Qed.
Lemma defer_reconcile_aloof i now : same f (defer_reconcile i now).
Proof. unfold defer_reconcile. aloof_tac. Qed.
Hint Resolve queue_reconcile_aloof defer_reconcile_aloof : same.
Lemma promote_due_reconcile_aloof now : same f (promote_due_reconcile now).
Proof. unfold promote_due_reconcile, new_id. aloof_tac. Qed.
Lemma expire_one_resolve_aloof now : same f (expire_one_resolve now).
Proof. unfold expire_one_resolve, drop_parked. aloof_tac. Qed.

End Aloof.

#[export] Hint Resolve stage_initiation_aloof ensure_direct_handshake_aloof seal_transport_aloof relay_path_aloof
  transmit_wire_aloof ensure_handshake_aloof note_outbound_flow_aloof encrypt_and_send_aloof send_to_peer_aloof
  retransmit_initiation_aloof accept_aloof rx_initiation_aloof rx_response_aloof rx_cookie_reply_aloof rx_relay_aloof
  rx_open_aloof rx_account_aloof rx_rekey_aloof mark_negative_aloof queue_outbound_resolution_aloof queue_reconcile_aloof
  defer_reconcile_aloof promote_due_reconcile_aloof expire_one_resolve_aloof : same.
