(* ===== verification/Delivery.v ===== *)
(** * What reaches the inside ([rx_data] of [microtun-core/src/lib.rs])

    The theorems on received data: what it takes for an inner packet to be delivered,
    that a datagram is delivered at most once, and that what one engine sends the
    other delivers. *)

From S2P Require Import Prelude Clock Constants Ip Messages Effect Cidr Rate.
From S2P Require Import Firewall Routing Replay Relay Crypto Noise Cookie Session.
From S2P Require Import SessionIndex Pending Peer Pool Deadlines Rotation WallClock Load.
From S2P Require Import Resolve Core Demo Handshake Transport Frame Resolver Respond.
From S2P Require Import Receive Aloof.
Local Open Scope nat_scope.

Section Delivery.
Context {SZ : Sizes} {CR : Cidr} {PM : PrefixMap nat} {PRM : Prims} {R : Type} {RG : RngCore R}.
Context {CL : CidrLaws} {ML : PrefixMapLaws (V:=nat) MAX_ROUTES} {PL : PrimLaws}.
Notation Run := (Eff (@Core CR PM R)).

(** ** Between opening a packet and judging it *)

(** The routes and the firewall, which judge it. *)
Definition judges (c : @Core CR PM R) := (routes c, firewall c).

Lemma ensure_handshake_judges i now : same judges (ensure_handshake i now).
Proof.
  intros v c <-. unfold judges. rewrite (same_run _ _ c (ensure_handshake_firewall i now)).
  pose proof (same_run _ _ c (ensure_handshake_aside i now)) as H. unfold aside in H. congruence.
Qed.
Hint Resolve ensure_handshake_judges : same.

Lemma rx_account_judges now src len o : same judges (rx_account now src len o).
Proof. unfold rx_account, confirm_next, free_superseded, emit. same_tac. Qed.

Lemma rx_rekey_judges now o : same judges (rx_rekey now o).
Proof. unfold rx_rekey. same_tac. Qed.
Definition who (i : PeerIdx) (c : @Core CR PM R) := identity <$> peer_at (pool c) i.

Lemma free_slot_who i s : same (fun p => identity <$> peer_at p i) (free_slot s).
Proof.
  unfold free_slot. same_tac. all: apply same_modify; intros p; by apply update_peer_identity.
Qed.

Lemma on_pool_who {A} i (m : Eff Pool A) : same (fun p => identity <$> peer_at p i) m -> same (who i) (on_pool m).
Proof. intros H v c <-. unfold on_pool, zoom, who. specialize (H _ (pool c) eq_refl). by destruct (m (pool c)). Qed.

Lemma rx_account_who i now src len o : same (who i) (rx_account now src len o).
Proof.
  unfold rx_account, confirm_next, free_superseded, emit. same_tac.
  all: try (apply same_modify; intros c; apply update_peer_identity; intros e; apply received_identity).
  all: try (apply same_modify; intros c; by apply update_peer_identity).
  all: apply on_pool_who; first [apply free_slot_who|by apply same_modify].
Qed.

Lemma rx_rekey_who i now o (c : @Core CR PM R) : core_inv c -> who i (snd (rx_rekey now o c)) = who i c.
Proof.
  intros Hc. unfold rx_rekey. destruct (bool_decide _ && _ && _)%Z; [|done]. rewrite bind_gets.
  destruct (established (pool c) (op_slot o)) as [s|] eqn:Es.
  - rewrite bind_put_slot. set (c1 := with_pool c _).
    assert (Hc1 : core_inv c1).
    { refine (proj1 (rewrite_session_moved now (op_slot o) s _ c Hc Es _ _ _)); [by repeat split| |done].
      exact (co_sessions _ Hc _ _ Es). }
    exact (q_identity _ _ (quietly_ignore _ (ensure_handshake_quiet (s_peer (op_session o)) now) c1 Hc1) i).
  - exact (q_identity _ _ (quietly_ignore _ (ensure_handshake_quiet (s_peer (op_session o)) now) c Hc) i).
Qed.

(** What [rx_deliver] hands over, and when. *)
Lemma rx_deliver_run pidx src inner now (c : @Core CR PM R) :
  let outs := delivered (snd (rx_deliver pidx src inner now c)) in
  outs = delivered c \/
  exists header peer, parse_header inner = Some header /\ lookup_readonly (routes c) (Ip.src header) = Some pidx /\
    peer_at (pool c) pidx = Some peer /\
    (inbound_policy peer = EstablishedOnly ->
       fst (allows_inbound (firewall c) pidx (take (total_len header) inner) now) = true) /\
    outs = delivered c ++ [InnerPacket (public_key peer) (if bool_decide (relay peer = None) then Some src else None)
                             (take (total_len header) inner)].
Proof.
  unfold rx_deliver. destruct (parse_header inner) as [header|]; [|by left]. rewrite bind_gets.
  case_bool_decide as Hr; [|by left]. cbn [negb]. destruct (slice inner 0 (total_len header)) as [pkt|] eqn:Es; [|by left].
  apply slice_Some in Es as [_ ->]. rewrite drop_0. unfold admits. rewrite bind_assoc, bind_gets.
  destruct (peer_at (pool c) pidx) as [peer|] eqn:Ep.
  - cbn [policy_of]. case_bool_decide as Hpol.
    + rewrite bind_assoc, bind_gets, bind_assoc, bind_modify, bind_ret.
      destruct (allows_inbound _ _ _ _) as [ok fw] eqn:Ea. cbn [fst snd]. destruct ok; [|by left]. cbn [negb].
      rewrite bind_gets. change (peer_at (pool (with_firewall c fw)) pidx) with (peer_at (pool c) pidx). rewrite Ep.
      right. exists header, peer. do 3 (split; [done|]). split; [by rewrite Ea|]. unfold delivered. cbn. by rewrite retain_app.
    + rewrite bind_ret. cbn [negb]. rewrite bind_gets, Ep. right. exists header, peer. do 3 (split; [done|]).
      split; [done|]. unfold delivered. cbn. by rewrite retain_app.
  - rewrite bool_decide_eq_false_2 by done. rewrite bind_ret. cbn [negb]. rewrite bind_gets, Ep. by left.
Qed.

Lemma rx_data_delivered now src data is_relay (c : @Core CR PM R) :
  core_inv c ->
  let outs := delivered (snd (rx_data now src data is_relay c)) in
  outs = delivered c \/
  exists o counter header peer,
    let pidx := s_peer (op_session o) in
    let inner := take (op_len o) (op_buf o) in
    is_relay = false /\ authentic now data is_relay c o counter /\
    fst (check_and_update REPLAY_WORDS (s_replay (op_session o)) counter) = true /\
    parse_header inner = Some header /\ lookup_readonly (routes c) (Ip.src header) = Some pidx /\
    peer_at (pool c) pidx = Some peer /\
    (inbound_policy peer = EstablishedOnly ->
       fst (allows_inbound (firewall c) pidx (take (total_len header) inner) now) = true) /\
    outs = delivered c ++ [InnerPacket (public_key peer) (if bool_decide (relay peer = None) then Some src else None)
                             (take (total_len header) inner)].
Proof.
  intros Hc outs. unfold outs, rx_data. rewrite bind_run.
  destruct (rx_open now data is_relay c) as [[[o|]|e] c1] eqn:Eo;
    [|left; pose proof (same_run _ _ c (rx_open_aloof delivered now data is_relay)) as E; by rewrite Eo in E..].
  apply rx_open_Some in Eo as (counter & Ha & -> & Hfresh).
  destruct (windowed_moved now data is_relay c o counter Hc Ha) as [Hc1 _].
  assert (Hop : opened_at o (windowed o counter c)) by (eexists; split; [by eapply windowed_slot|done]).
  pose proof (rx_account_moved now src (length data) o _ Hc1 Hop) as [Hc2 _].
  pose proof (same_run _ _ (windowed o counter c) (rx_account_judges now src (length data) o)) as Hj.
  pose proof (same_run _ _ (windowed o counter c) (rx_account_aloof delivered now src (length data) o)) as Hd.
  pose proof (same_run _ _ (windowed o counter c) (rx_account_who (s_peer (op_session o)) now src (length data) o)) as Hw.
  rewrite bind_run. destruct (rx_account now src (length data) o (windowed o counter c)) as [[ok|e] c2]; cbn [snd] in *; [|by left].
  destruct ok; cbn [negb]; [|by left].
  pose proof (same_run _ _ c2 (rx_rekey_judges now o)) as Hj3.
  pose proof (same_run _ _ c2 (rx_rekey_aloof delivered now o)) as Hd3.
  pose proof (rx_rekey_who (s_peer (op_session o)) now o c2 Hc2) as Hw3.
  rewrite bind_run. destruct (rx_rekey now o c2) as [[[]|e] c3]; cbn [snd] in *;
    [|left; by rewrite Hd3, Hd].
  assert (Hsame : delivered c3 = delivered c) by (rewrite Hd3, Hd; done).
  destruct (op_len o =? 0); [by left|].
  destruct (slice _ _ _) as [inner|] eqn:Es; [|by left].
  assert (Hin : inner = take (op_len o) (op_buf o)).
  { apply slice_Some in Es as [_ ->]. rewrite drop_app_length'; [done|].
    rewrite length_take. pose proof (au_length _ _ _ _ _ _ Ha). lia. }
  subst inner. destruct is_relay.
  - left. rewrite (same_run _ _ c3 (rx_relay_aloof delivered _ _ _)). exact Hsame.
  - destruct (rx_deliver_run (s_peer (op_session o)) src (take (op_len o) (op_buf o)) now c3)
      as [E|(header & peer & Hh & Hr & Hp & Hf & E)]; [left; by rewrite E|].
    unfold judges in *. injection Hj as Er Ef. injection Hj3 as Er3 Ef3.
    change (routes (windowed o counter c)) with (routes c) in Er.
    change (firewall (windowed o counter c)) with (firewall c) in Ef.
    assert (Hid : exists peer0, peer_at (pool c) (s_peer (op_session o)) = Some peer0 /\ identity peer0 = identity peer).
    { unfold who in *. rewrite Hp in Hw3. change (peer_at (pool (windowed o counter c))) with (peer_at (pool c)) in Hw.
      rewrite Hw in Hw3. cbn in Hw3. symmetry in Hw3. apply fmap_Some in Hw3 as (peer0 & ? & ?). eauto. }
    destruct Hid as (peer0 & Hp0 & Hid). injection Hid as Hk _ Hrel Hpol _ _.
    right. exists o, counter, header, peer0. rewrite Hk, Hrel, Hpol.
    rewrite Er3, Er in Hr. rewrite Ef3, Ef in Hf. rewrite Hsame in E. done.
Qed.

(** ** What a datagram that carries a packet does at its receiver *)

(** Opening it. *)
Lemma rx_open_carries sess packet d sidx sr now (c : @Core CR PM R) :
  carries MSG_DATA sess packet d -> is_u32 (s_remote_index sess) -> (0 <= n_send sess < REJECT_AFTER_MESSAGES)%Z ->
  slot_for_session_index (pool c) (s_remote_index sess) = Some sidx -> established (pool c) sidx = Some sr ->
  t_recv sr = t_send sess -> (saturating_since now (created sr) < REJECT_AFTER_TIME)%Z ->
  fst (check_and_update REPLAY_WORDS (s_replay sr) (n_send sess)) = true ->
  exists o, op_slot o = sidx /\ op_session o = sr /\ op_len o = align_down16 (length packet + 15) /\
    take (op_len o) (op_buf o) = packet ++ replicate (op_len o - length packet) 0%Z /\
    rx_open now d false c = (Ok (Some o), windowed o (n_send sess) c) /\ authentic now d false c o (n_send sess).
Proof.
  intros Hcar Hr Hn Hsl Hs Hk Hage Hfresh.
  assert (Hn64 : is_u64 (n_send sess)).
  { unfold is_u64. pose proof (proj2 Hn) as Hn2. unfold REJECT_AFTER_MESSAGES, u64_max in *. lia. }
  destruct (carries_reads _ _ _ _ Hcar Hr Hn64) as (_ & Hrx & Hct & Hlen).
  destruct Hcar as (ad & ct & tag & Had & Hd & Hlct & Htag & Ho). injection Had as <-.
  set (padded := align_down16 (length packet + 15)) in *.
  exists (mkOpened sidx sr (packet ++ replicate (padded - length packet) 0%Z ++ tag) padded).
  cbn [op_slot op_session op_len op_buf]. do 3 (split; [done|]).
  pose proof (align_down16_pad (length packet)) as Hp. fold padded in Hp.
  split. { rewrite app_assoc, take_app_length'; [done|]. rewrite length_app, length_replicate. lia. }
  assert (Hdrop : drop PACKET_START d = ct).
  { rewrite Hd, drop_app_length'; [done|]. unfold data_header, data_header_bytes. by rewrite !length_app, !length_le_bytes. }
  assert (Hl16 : PACKET_START <= length d) by (rewrite Hlen; change PACKET_START with 16; change DATA_HEADER_LEN with 16; lia).
  split.
  - unfold rx_open. rewrite Hrx, bind_gets, Hsl, Hct.
    destruct (Z.leb_spec REJECT_AFTER_MESSAGES (n_send sess)); [lia|]. rewrite bind_gets, Hs.
    destruct (Z.leb_spec REJECT_AFTER_TIME (saturating_since now (created sr))); [lia|].
    destruct (Nat.ltb_spec (length d) PACKET_START); [lia|]. rewrite Hdrop, Hk. cbn [data_ad]. rewrite Ho.
    unfold windowed. cbn [op_session op_slot]. destruct (check_and_update _ _ _) as [fresh w]. cbn [fst] in Hfresh. by subst fresh.
  - split; cbn [op_slot op_session op_len op_buf]; [by exists (s_remote_index sess)|done|lia|done|done|done|].
    rewrite Hdrop, Hk. exact Ho.
Qed.

(** Accounting for it always succeeds when the peer is there. *)
Lemma rx_account_ok now src len o (c : @Core CR PM R) peer s :
  peer_at (pool c) (s_peer (op_session o)) = Some peer -> established (pool c) (op_slot o) = Some s ->
  exists c', rx_account now src len o c = (Ok true, c').
Proof.
  intros Hp Hs. unfold rx_account. rewrite bind_gets, Hp. unfold confirm_next, confirm_responder.
  assert (Hend : forall freed (c1 : @Core CR PM R), exists c', account src now len (op_len o =? 0) (s_peer (op_session o)) peer freed c1 = (Ok true, c')).
  { intros freed c1. unfold account. rewrite bind_edit_peer.
    rewrite bind_run, (arm_some_run (if op_len o =? 0 then [] else [instant_add now KEEPALIVE_TIMEOUT]))
      by (destruct (op_len o =? 0); cbn; done || lia).
    rewrite bind_run, (arm_some_run (match persistent_keepalive peer with Some iv => [instant_add now iv] | None => [] end))
      by (destruct (persistent_keepalive peer); cbn; done || lia).
    rewrite bind_run, emit_if_run, bind_run, free_superseded_run. eauto. }
  case_bool_decide as Hn; [|rewrite bind_ret; apply Hend].
  cbn [negb]. destruct (rotate_current _ _) as [old ps]. rewrite bind_assoc, bind_edit_peer, bind_assoc, bind_gets.
  change (established (pool (with_pool c (update_peer _ _ _))) (op_slot o)) with (established (pool c) (op_slot o)).
  rewrite Hs, bind_assoc, bind_put_slot, bind_ret. apply Hend.
Qed.

Lemma rx_rekey_ok now o (c : @Core CR PM R) : exists c', rx_rekey now o c = (Ok tt, c').
Proof.
  unfold rx_rekey. destruct (bool_decide _ && _ && _)%Z; [|by eexists]. rewrite bind_gets.
  destruct (established (pool c) (op_slot o)); [rewrite bind_put_slot|rewrite bind_ret]; unfold ignore; eauto.
Qed.

(** Delivering it. *)
Lemma rx_deliver_ok pidx src inner now (c : @Core CR PM R) header peer :
  parse_header inner = Some header -> lookup_readonly (routes c) (Ip.src header) = Some pidx ->
  peer_at (pool c) pidx = Some peer -> inbound_policy peer = AllowAll ->
  rx_deliver pidx src inner now c =
    (Ok tt, with_sink c (sink c ++ [InnerPacket (public_key peer) (if bool_decide (relay peer = None) then Some src else None)
                                      (take (total_len header) inner)])).
Proof.
  intros Hh Hr Hp Hpol. destruct (parse_header_cases _ _ Hh) as (_ & _ & Hl).
  unfold rx_deliver. rewrite Hh, bind_gets, Hr, bool_decide_eq_true_2 by done. cbn [negb].
  rewrite slice_is, drop_0 by lia. unfold admits. rewrite bind_assoc, bind_gets, Hp. cbn [policy_of].
  rewrite Hpol, bool_decide_eq_false_2 by done. rewrite bind_ret. cbn [negb]. by rewrite bind_gets, Hp.
Qed.

(** The datagram a direct peer is sent. *)
Lemma encrypt_and_send_direct pidx sidx packet now (c c' : @Core CR PM R) peer :
  core_inv c -> peer_at (pool c) pidx = Some peer -> relay peer = None ->
  encrypt_and_send pidx sidx packet now c = (Ok tt, c') ->
  exists dst sess d rest, endpoint peer = Some dst /\ established (pool c) sidx = Some sess /\ can_send sess now = true /\
    carries MSG_DATA sess packet d /\ sink c' = sink c ++ OuterDatagram dst d :: rest.
Proof.
  intros Hc Hp Hrel. unfold encrypt_and_send. rewrite bind_guard. destruct (Nat.ltb_spec MAX_INNER_SIZE (length packet)) as [|Hlen]; [done|].
  rewrite bind_gets, Hp. cbn [mbind option_bind]. rewrite Hrel, bind_lift.
  destruct (endpoint peer) as [dst|]; [|done]. cbn [ok_or]. unfold stage_packet. rewrite bind_modify.
  pose proof (stage_packet_moved packet now c Hc Hlen) as [Hc1 _]. cbn [stage_packet modify snd] in Hc1.
  set (c1 := with_buffers c _ _) in *.
  pose proof (seal_transport_spec pidx sidx MSG_DATA (length packet) false now c1 Hc1) as Hseal. rewrite bind_run.
  destruct (seal_transport pidx sidx MSG_DATA (length packet) false now c1) as [[[total rekey]|e] c2]; [|done].
  destruct Hseal as (Hf & Hc2 & _ & sess & Hs & Hcan & _ & _ & _ & _ & Hcar).
  assert (Hpay : take (length packet) (drop PACKET_START (buffer false c1)) = packet).
  { unfold c1. cbn [buffer scratch with_buffers]. apply (field_blit_same (scratch c) (PACKET_START, length packet)); [|done]. cbn [fst snd].
    rewrite (co_scratch _ Hc). change MAX_INNER_SIZE with 1456 in Hlen. change MAX_UDP_SIZE with 1500. change PACKET_START with 16. lia. }
  rewrite Hpay in Hcar. rewrite bind_gets, bind_emit. set (d := take total (scratch c2)).
  set (c3 := with_sink c2 _). set (k := _ ← note_outbound_flow pidx packet now; _).
  intros Hrun. exists dst, sess, d. change (established (pool c1) sidx) with (established (pool c) sidx) in Hs.
  assert (Hext : exists rest, sink c' = sink c3 ++ rest).
  { assert (Hc3 : core_inv c3) by (apply (core_inv_rest c2); try done; apply Hc2).
    unfold k in Hrun. rewrite bind_run in Hrun.
    assert (Hn : exists f, note_outbound_flow pidx packet now c3 = (Ok tt, with_firewall c3 f)).
    { unfold note_outbound_flow, modify. destruct (peer_at (pool c3) pidx) as [q|]; [destruct (inbound_policy q)|]; eauto.
      all: exists (firewall c3); by destruct c3. }
    destruct Hn as [f Hn]. rewrite Hn in Hrun.
    assert (Hc4 : core_inv (with_firewall c3 f)) by (by apply (with_firewall_moves 0%Z)).
    destruct rekey; [|injection Hrun as <-; exists []; by rewrite app_nil_r].
    pose proof (q_sink _ _ (quietly_ignore _ (ensure_handshake_quiet pidx now) _ Hc4)) as (rest & E & _).
    rewrite Hrun in E. exists rest. exact E. }
  destruct Hext as [rest E]. exists rest. do 4 (split; [done|]). rewrite E. unfold c3. cbn [sink with_sink].
  rewrite <- app_assoc. f_equal. apply Hf.
Qed.

(** ** Sessions while a packet is received *)

(** The session in slot [s], if any, satisfies [Q]. *)
Definition slot_ok (s : SlotIdx) (Q : Session -> Prop) (p : Pool) : Prop := forall x, established p s = Some x -> Q x.

Definition flags_closed (Q : Session -> Prop) : Prop := forall x a b, Q x -> Q (with_flags x a b).

Lemma free_slot_ok s Q t : keeps (slot_ok s Q) (free_slot t).
Proof.
  intros p Hp. unfold free_slot. rewrite bind_demand. destruct (slots p !! t) as [slot|]; [|done]. rewrite bind_guard.
  destruct (match owner_of slot with Some pidx => _ | None => _ end); [done|].
  assert (Hfin : forall q, slots q = slots p -> slot_ok s Q (snd ((_ ← match owner_of slot with
      | Some pidx => modify (update_peer pidx (fun peer => with_sessions peer (unlink (sessions peer) t)))
      | None => mret tt end; modify (fun p => with_slots p (<[t := Free]> (slots p)))) q))).
  { intros q Hq x. rewrite established_Some.
    assert (E : slots (snd ((_ ← match owner_of slot with
      | Some pidx => modify (update_peer pidx (fun peer => with_sessions peer (unlink (sessions peer) t)))
      | None => mret tt end; modify (fun p => with_slots p (<[t := Free]> (slots p)))) q)) = <[t := Free]> (slots p))
      by (rewrite <- Hq; by destruct (owner_of slot)).
    rewrite E. intros [(_ & [=] & _)|[_ Hx]]%list_lookup_insert_Some. apply Hp. by apply established_Some. }
  destruct (local_index slot) as [index|].
  - rewrite bind_assoc, bind_gets, bind_assoc, bind_lift. destruct (sim_remove _ _ _) as [m|e]; [|done].
    rewrite bind_modify. by apply Hfin.
  - rewrite bind_ret. by apply Hfin.
Qed.

Lemma free_superseded_ok s Q old (c : @Core CR PM R) :
  slot_ok s Q (pool c) -> slot_ok s Q (pool (snd (free_superseded old c))).
Proof.
  intros Hc. rewrite free_superseded_run. cbn [snd]. destruct old as [t|]; [|done].
  exact (free_slot_ok s Q t (pool c) Hc).
Qed.

Lemma put_flags_ok s Q t x a b (c : @Core CR PM R) :
  flags_closed Q -> established (pool c) t = Some x -> slot_ok s Q (pool c) ->
  slot_ok s Q (with_slots (pool c) (<[t := Established (with_flags x a b)]> (slots (pool c)))).
Proof.
  intros Hf Hx Hc y. rewrite established_Some. cbn. intros [(<- & Hy & _)|[_ Hy]]%list_lookup_insert_Some.
  - injection Hy as <-. by apply Hf, Hc.
  - by apply Hc, established_Some.
Qed.

Lemma rx_account_slot_ok s Q now src len o (c : @Core CR PM R) :
  flags_closed Q -> slot_ok s Q (pool c) -> slot_ok s Q (pool (snd (rx_account now src len o c))).
Proof.
  intros Hf Hc. unfold rx_account. rewrite bind_gets.
  destruct (peer_at (pool c) (s_peer (op_session o))) as [peer|]; [|done].
  assert (Hend : forall freed (c1 : @Core CR PM R), slot_ok s Q (pool c1) ->
    slot_ok s Q (pool (snd (account src now len (op_len o =? 0) (s_peer (op_session o)) peer freed c1)))).
  { intros freed c1 H1. destruct (account_run src now len (op_len o =? 0) (s_peer (op_session o)) peer freed c1) as [snk ->].
    by apply free_superseded_ok. }
  unfold confirm_next. case_bool_decide; [|rewrite bind_ret; by apply Hend].
  destruct (confirm_responder _ _) as [[old ps]|]; [|done].
  rewrite bind_assoc, bind_edit_peer, bind_assoc, bind_gets.
  destruct (established _ (op_slot o)) as [x|] eqn:Ex; [|done]. rewrite bind_assoc, bind_put_slot, bind_ret.
  apply Hend. by apply (put_flags_ok s Q (op_slot o) x true (rekey_triggered x) (with_pool c _)).
Qed.

Lemma rx_rekey_slot_ok s Q now o (c : @Core CR PM R) :
  core_inv c -> flags_closed Q -> (forall x y, Q x -> s_replay y = s_replay x -> t_recv y = t_recv x ->
    s_local_index y = s_local_index x -> Q y) ->
  slot_ok s Q (pool c) -> slot_ok s Q (pool (snd (rx_rekey now o c))).
Proof.
  intros Hi Hf Hq Hc. unfold rx_rekey. destruct (bool_decide _ && _ && _)%Z; [|done]. rewrite bind_gets.
  assert (Hend : forall c1 : @Core CR PM R, core_inv c1 -> slot_ok s Q (pool c1) ->
    slot_ok s Q (pool (snd (ignore (ensure_handshake (s_peer (op_session o)) now) c1)))).
  { intros c1 Hc1 H1 x Hx.
    destruct (q_sessions _ _ (quietly_ignore _ (ensure_handshake_quiet (s_peer (op_session o)) now) c1 Hc1) s x Hx)
      as (y & Hy & ? & ? & ?). eapply (Hq y); [by apply H1|done..]. }
  destruct (established (pool c) (op_slot o)) as [x|] eqn:Ex; [|rewrite bind_ret; by apply Hend].
  rewrite bind_put_slot. apply Hend; [|by apply put_flags_ok].
  refine (proj1 (rewrite_session_moved now (op_slot o) x _ c Hi Ex _ _ _)); [by repeat split| |done].
  exact (co_sessions _ Hi _ _ Ex).
Qed.

Definition the_slots (c : @Core CR PM R) := slots (pool c).

Lemma arm_timer_slots d : same the_slots (arm_timer d).
Proof. by intros v c. Qed.
Hint Resolve arm_timer_slots : same.

Lemma queue_peer_install_slots key source now : same the_slots (queue_peer_install key source now).
Proof.
  unfold queue_peer_install, new_id, push_resolve, try_push_resolve. same_tac. all: apply arm_timer_slots.
Qed.
Hint Resolve queue_peer_install_slots : same.

Lemma rx_relay_slots i plaintext now : same the_slots (rx_relay i plaintext now).
Proof. unfold rx_relay, request_relay_peer_install, emit. same_tac. Qed.

Lemma rx_deliver_slots i src inner now : same the_slots (rx_deliver i src inner now).
Proof. unfold rx_deliver, admits, emit. same_tac. Qed.

Lemma slot_ok_slots s Q (c c' : @Core CR PM R) : the_slots c' = the_slots c -> slot_ok s Q (pool c) -> slot_ok s Q (pool c').
Proof. intros E H x. unfold established. change (slots (pool c')) with (the_slots c'). rewrite E. apply H. Qed.

Definition receiving_closed (Q : Session -> Prop) : Prop := forall x y, Q x -> s_replay y = s_replay x ->
  t_recv y = t_recv x -> s_local_index y = s_local_index x -> Q y.

Lemma rx_data_slot_ok s Q now src data b (c c1 : @Core CR PM R) o :
  core_inv c -> rx_open now data b c = (Ok (Some o), c1) -> receiving_closed Q ->
  slot_ok s Q (pool c1) -> slot_ok s Q (pool (snd (rx_data now src data b c))).
Proof.
  intros Hc Eo HQ H1. assert (Hf : flags_closed Q) by (intros x y z Hx; by apply (HQ x)).
  unfold rx_data. rewrite bind_run, Eo. apply rx_open_Some in Eo as (counter & Ha & -> & _).
  destruct (windowed_moved now data b c o counter Hc Ha) as [Hc1 _].
  assert (Hop : opened_at o (windowed o counter c)) by (eexists; split; [by eapply windowed_slot|done]).
  pose proof (rx_account_moved now src (length data) o _ Hc1 Hop) as [Hc2 _].
  pose proof (rx_account_slot_ok s Q now src (length data) o _ Hf H1) as H2.
  rewrite bind_run. destruct (rx_account now src (length data) o (windowed o counter c)) as [[[]|e] c2]; cbn [snd negb] in *; [|done..].
  pose proof (rx_rekey_slot_ok s Q now o c2 Hc2 Hf HQ H2) as H3.
  rewrite bind_run. destruct (rx_rekey now o c2) as [[[]|e] c3]; cbn [snd] in *; [|done].
  destruct (op_len o =? 0); [done|]. destruct (slice _ _ _); [|done].
  destruct b; eapply slot_ok_slots; [|exact H3| |exact H3]; apply (same_run _ _ c3); [apply rx_relay_slots|apply rx_deliver_slots].
Qed.

(** Engine [c] holds, at time [now], the other end of session [sess] with peer [peer]:
    the receiver index leads to a young session whose receive key is the send key of
    [sess], which has not seen the counter to come. *)
Record receives (now : Instant) (sess : Session) (c : @Core CR PM R) (sidx : SlotIdx) (sr : Session) (peer : PeerEntry) : Prop := {
  rv_slot : slot_for_session_index (pool c) (s_remote_index sess) = Some sidx;
  rv_session : established (pool c) sidx = Some sr;
  rv_key : t_recv sr = t_send sess;
  rv_age : (saturating_since now (created sr) < REJECT_AFTER_TIME)%Z;
  rv_fresh : fst (check_and_update REPLAY_WORDS (s_replay sr) (n_send sess)) = true;
  rv_peer : peer_at (pool c) (s_peer sr) = Some peer;
  rv_policy : inbound_policy peer = AllowAll;
}.

Lemma rx_data_carries sess packet d now src (c : @Core CR PM R) sidx sr peer header :
  core_inv c -> carries MSG_DATA sess packet d -> is_u32 (s_remote_index sess) ->
  (0 <= n_send sess < REJECT_AFTER_MESSAGES)%Z -> receives now sess c sidx sr peer ->
  parse_header packet = Some header -> total_len header = length packet ->
  lookup_readonly (routes c) (Ip.src header) = Some (s_peer sr) ->
  delivered (snd (rx_data now src d false c)) =
    delivered c ++ [InnerPacket (public_key peer) (if bool_decide (relay peer = None) then Some src else None) packet].
Proof.
  intros Hc Hcar Hr Hn [Hsl Hs Hk Hage Hfresh Hp Hpol] Hh Htl Hroute.
  destruct (rx_open_carries sess packet d sidx sr now c Hcar Hr Hn Hsl Hs Hk Hage Hfresh)
    as (o & Eslot & Esess & Elen & Ebuf & Eo & Ha).
  destruct (windowed_moved now d false c o (n_send sess) Hc Ha) as [Hc1 _].
  pose proof (windowed_slot o (n_send sess) c now d false Ha) as Hw.
  set (c1 := windowed o (n_send sess) c) in *. rewrite <- Esess in Hp, Hroute.
  assert (Hop : opened_at o c1) by (eexists; split; [exact Hw|done]).
  pose proof (rx_account_moved now src (length d) o _ Hc1 Hop) as [Hc2 _].
  destruct (rx_account_ok now src (length d) o c1 peer _ Hp Hw) as [c2 Ea].
  pose proof (same_run _ _ c1 (rx_account_judges now src (length d) o)) as Hj.
  pose proof (same_run _ _ c1 (rx_account_aloof delivered now src (length d) o)) as Hd.
  pose proof (same_run _ _ c1 (rx_account_who (s_peer (op_session o)) now src (length d) o)) as Hwho.
  rewrite Ea in Hc2, Hj, Hd, Hwho. cbn [snd] in *.
  destruct (rx_rekey_ok now o c2) as [c3 Er].
  pose proof (same_run _ _ c2 (rx_rekey_judges now o)) as Hj3.
  pose proof (same_run _ _ c2 (rx_rekey_aloof delivered now o)) as Hd3.
  pose proof (rx_rekey_who (s_peer (op_session o)) now o c2 Hc2) as Hw3.
  rewrite Er in Hj3, Hd3, Hw3. cbn [snd] in *.
  assert (Hpeer : exists peer3, peer_at (pool c3) (s_peer (op_session o)) = Some peer3 /\ identity peer3 = identity peer).
  { rewrite Hwho in Hw3. unfold who in Hw3. change (peer_at (pool c1)) with (peer_at (pool c)) in Hw3. rewrite Hp in Hw3.
    apply fmap_Some in Hw3 as (q & ? & ?). eauto. }
  destruct Hpeer as (peer3 & Hp3 & Hid). injection Hid as Hkey _ Hrel Hpol3 _ _.
  destruct (parse_header_cases _ _ Hh) as (_ & Hb & _).
  pose proof (align_down16_pad (length packet)) as Hpad. rewrite <- Elen in Hpad.
  assert (Hin : parse_header (packet ++ replicate (op_len o - length packet) 0%Z) = Some header).
  { apply (parse_header_agree packet); [done|rewrite Htl, take_app_length; by rewrite take_ge|rewrite length_app; lia]. }
  unfold rx_data. rewrite bind_run, Eo, bind_run. fold c1. rewrite Ea. cbn [negb]. rewrite bind_run, Er.
  destruct (Nat.eqb_spec (op_len o) 0); [lia|].
  assert (Hslice : slice (take PACKET_START d ++ op_buf o) PACKET_START (op_len o) =
                   Some (packet ++ replicate (op_len o - length packet) 0%Z)).
  { pose proof (au_length _ _ _ _ _ _ Ha) as Hl. rewrite slice_is.
    - rewrite drop_app_length' by (rewrite length_take; lia). by rewrite Ebuf.
    - apply (f_equal length) in Ebuf. rewrite length_take, length_app, length_replicate in Ebuf.
      rewrite length_app, length_take. lia. }
  rewrite Hslice. unfold judges in *. injection Hj as Ejr _. injection Hj3 as Ejr3 _.
  change (routes c1) with (routes c) in Ejr.
  rewrite (rx_deliver_ok _ src _ now c3 header peer3 Hin); [|by rewrite Ejr3, Ejr|done|congruence].
  cbn [snd]. unfold delivered. cbn [sink with_sink]. rewrite retain_app. cbn [retain is_inner]. fold (delivered c3).
  rewrite Hd3, Hd, Hkey, Hrel, Htl, take_app_length. done.
Qed.

(** ** Theorems *)

(** C5: what reaches the inside: whatever the datagram and the state, at most one
    inner packet is delivered, and only when the datagram is a data message that
    authenticates under an established session, within its age and counter limits,
    with a counter its replay window has not seen; whose plaintext carries a sound IP
    header with a source address routed to exactly that session's peer; and which,
    under the peer's restrictive policy, answers a flow the peer's firewall knows. The
    packet is delivered trimmed to its IP length, under the peer's key, with the
    outer source only if the peer is direct. *)
Theorem inner_packet_authorised (now : Instant) (src : SocketAddr) (data : list Z) (c : @Core CR PM R) :
  core_inv c ->
  let outs := delivered (snd (datagram now src data c)) in
  outs = delivered c \/
  exists o counter header peer,
    let pidx := s_peer (op_session o) in
    let inner := take (op_len o) (op_buf o) in
    classify data = Some Data /\ authentic now data false c o counter /\
    fst (check_and_update REPLAY_WORDS (s_replay (op_session o)) counter) = true /\
    parse_header inner = Some header /\ lookup_readonly (routes c) (Ip.src header) = Some pidx /\
    peer_at (pool c) pidx = Some peer /\
    (inbound_policy peer = EstablishedOnly ->
       fst (allows_inbound (firewall c) pidx (take (total_len header) inner) now) = true) /\
    outs = delivered c ++ [InnerPacket (public_key peer) (if bool_decide (relay peer = None) then Some src else None)
                             (take (total_len header) inner)].
Proof.
  intros Hc outs. unfold outs, datagram. destruct (classify data) as [[]|].
  - left. apply (same_run _ _ c), (rx_initiation_aloof delivered _ _ _).
  - left. apply (same_run _ _ c), same_ignore, (rx_response_aloof delivered _ _ _).
  - left. apply (same_run _ _ c), same_ignore, (rx_cookie_reply_aloof delivered _ _).
  - unfold ignore. cbn [snd]. destruct (rx_data_delivered now src data false c Hc) as [E|(o & counter & header & peer & _ & H)];
      [by left|]. right. by exists o, counter, header, peer.
  - left. unfold ignore. cbn [snd]. by destruct (rx_data_delivered now src data true c Hc) as [E|(? & ? & ? & ? & ? & _)].
  - by left.
Qed.

(** C7: no replay reaches the inside: once a datagram has been accepted, receiving it
    again, at any later time and from any source, is refused before anything else is
    looked at: no packet is delivered, none forwarded and nothing is sent. *)
Theorem datagram_accepted_once (now now' : Instant) (src src' : SocketAddr) (data : list Z) (is_relay : bool)
    (c c1 : @Core CR PM R) (o : Opened) :
  core_inv c -> rx_open now data is_relay c = (Ok (Some o), c1) ->
  let c2 := snd (rx_data now src data is_relay c) in
  let c3 := snd (rx_data now' src' data is_relay c2) in
  fst (rx_open now' data is_relay c2) = Ok None /\ sink c3 = sink c2 /\ delivered c3 = delivered c2.
Proof.
  intros Hc Eo c2 c3. pose proof (rx_data_moves now src data is_relay c Hc) as [Hc2 _]. fold c2 in Hc2.
  pose proof Eo as Eo'. apply rx_open_Some in Eo' as (counter & Ha & -> & Hfresh).
  set (w := snd (check_and_update REPLAY_WORDS (s_replay (op_session o)) counter)).
  assert (Hnone : fst (rx_open now' data is_relay c2) = Ok None).
  { destruct (rx_open_cases now' data is_relay c2) as [->|(o' & counter' & Ha' & ->)]; [done|]. cbn [fst].
    assert (counter' = counter) as -> by (pose proof (au_counter _ _ _ _ _ _ Ha); pose proof (au_counter _ _ _ _ _ _ Ha'); congruence).
    destruct (au_receiver _ _ _ _ _ _ Ha) as (rc & Hr & Hsl). destruct (au_receiver _ _ _ _ _ _ Ha') as (rc' & Hr' & Hsl').
    assert (rc' = rc) as -> by congruence.
    (* The receiver index still names a session of that index, so it is the same slot. *)
    set (Q := fun x => exists y, established (pool (windowed o counter c)) (op_slot o') = Some y /\
                s_replay x = s_replay y /\ s_local_index x = s_local_index y).
    assert (HQ : slot_ok (op_slot o') Q (pool c2)).
    { eapply rx_data_slot_ok; [done|exact Eo| |intros x Hx; by exists x].
      intros x y (z & Hz & E1 & E2) ? _ ?. exists z. split; [done|]. split; congruence. }
    destruct (HQ _ (au_session _ _ _ _ _ _ Ha')) as (y & Hy & Ew & El).
    assert (Hidx : session_indices (pool (windowed o counter c)) !! rc = Some (op_slot o')).
    { destruct (windowed_moved now data is_relay c o counter Hc Ha) as [Hc1 _].
      apply (pi_indices _ _ _ _ (co_pool _ Hc1)). apply established_Some in Hy. rewrite Hy. cbn. f_equal.
      apply (pi_indices _ _ _ _ (co_pool _ Hc2)) in Hsl'. pose proof (au_session _ _ _ _ _ _ Ha') as Hs'.
      apply established_Some in Hs'. rewrite Hs' in Hsl'. cbn in Hsl'. congruence. }
    assert (op_slot o' = op_slot o) as Eslot by (unfold slot_for_session_index, slot_for in Hsl; cbn in Hidx; congruence).
    rewrite Eslot, (windowed_slot o counter c now data is_relay Ha) in Hy. injection Hy as <-. cbn in Ew.
    rewrite Ew, check_and_update_again; [done|]. exact Hfresh. }
  split; [done|]. cut (sink c3 = sink c2); [intros E; split; [done|unfold delivered; by rewrite E]|].
  unfold c3, rx_data. rewrite bind_run.
  destruct (rx_open_cases now' data is_relay c2) as [->|(o' & counter' & _ & E)]; [done|].
  rewrite E in Hnone. cbn [fst] in Hnone. injection Hnone as Hnone. by rewrite E, Hnone.
Qed.

(** C6: what one engine sends the other delivers: a packet encrypted to a direct peer
    leaves as one datagram to its endpoint, and an engine holding the other end of the
    session, with the packet's source routed to that peer, delivers from that datagram
    exactly the packet, byte for byte and with its padding removed. *)
Theorem sent_packet_arrives (pidx : PeerIdx) (sidx sidx' : SlotIdx) (packet : list Z) (now now' : Instant) (src : SocketAddr)
    (c c' r : @Core CR PM R) (sess sr : Session) (peer remote : PeerEntry) (header : IpHeader) :
  core_inv c -> core_inv r -> peer_at (pool c) pidx = Some peer -> relay peer = None ->
  encrypt_and_send pidx sidx packet now c = (Ok tt, c') ->
  established (pool c) sidx = Some sess -> is_u32 (s_remote_index sess) ->
  parse_header packet = Some header -> total_len header = length packet ->
  receives now' sess r sidx' sr remote -> lookup_readonly (routes r) (Ip.src header) = Some (s_peer sr) ->
  exists dst d rest, endpoint peer = Some dst /\ sink c' = sink c ++ OuterDatagram dst d :: rest /\
    delivered (snd (rx_data now' src d false r)) =
      delivered r ++ [InnerPacket (public_key remote) (if bool_decide (relay remote = None) then Some src else None) packet].
Proof.
  intros Hc Hr Hp Hrel Hrun Hs Hu32 Hh Htl Hrv Hroute.
  destruct (encrypt_and_send_direct pidx sidx packet now c c' peer Hc Hp Hrel Hrun) as (dst & sess0 & d & rest & He & Hs0 & Hcan & Hcar & Hsink).
  rewrite Hs in Hs0. injection Hs0 as <-. exists dst, d, rest. do 2 (split; [done|]).
  apply (rx_data_carries sess packet d now' src r sidx' sr remote header); try done.
  split; [apply (co_sessions _ Hc _ _ Hs)|by eapply can_send_bound].
Qed.

End Delivery.

(** ** Witnesses: the two connected engines *)

Definition demo_receiver : Core := demo_connected 2 1 51821 (demo_key 6) (demo_key 5) 80 70.

(** An IPv4 packet of 10.0.0.1 of twenty-one bytes. *)
Definition demo_packet : list Z := [69; 0; 0; 21; 0; 0; 0; 0; 64; 17; 0; 0; 10; 0; 0; 1; 10; 0; 0; 2; 7]%Z.

Definition demo_datagram : list Z :=
  match sink (snd (encrypt_and_send 0 0 demo_packet 1000 demo_sender)) with
  | OuterDatagram _ d :: _ => d
  | _ => []
  end.

Definition demo_header : IpHeader :=
  match parse_header demo_packet with Some h => h | None => mkIpHeader (V4 0) (V4 0) 0 0 0 end.

Lemma sent_packet_arrives_witness :
  delivered (snd (rx_data 2000 (demo_endpoint 9) demo_datagram false demo_receiver)) =
    [InnerPacket (Crypto.public_key (demo_key 1)) (Some (demo_endpoint 9)) demo_packet].
Proof.
  assert (E : exists c', encrypt_and_send 0 0 demo_packet 1000 demo_sender = (Ok tt, c') /\
    sink c' = [OuterDatagram (demo_endpoint 51820) demo_datagram]).
  { assert (Ef : fst (encrypt_and_send 0 0 demo_packet 1000 demo_sender) = Ok tt) by (vm_compute; reflexivity).
    exists (snd (encrypt_and_send 0 0 demo_packet 1000 demo_sender)). split.
    - rewrite <- Ef. by destruct (encrypt_and_send _ _ _ _ _).
    - vm_compute. reflexivity. }
  destruct E as (c' & Erun & Esink).
  destruct (sent_packet_arrives (PL := Toy.laws) 0 0 0 demo_packet 1000 2000 (demo_endpoint 9) demo_sender c' demo_receiver
    (demo_session (demo_key 5) (demo_key 6) 70 80) (demo_session (demo_key 6) (demo_key 5) 80 70)
    (with_sessions (demo_entry 1 2 51820) demo_ps) (with_sessions (demo_entry 2 1 51821) demo_ps) demo_header)
    as (dst & d & rest & _ & Hs & Hd).
  - exact (demo_connected_inv 1 2 51820 (demo_key 5) (demo_key 6) 70 80 eq_refl eq_refl).
  - exact (demo_connected_inv 2 1 51821 (demo_key 6) (demo_key 5) 80 70 eq_refl eq_refl).
  - reflexivity.
  - reflexivity.
  - exact Erun.
  - reflexivity.
  - unfold is_u32, u32_max. cbn. lia.
  - vm_compute. reflexivity.
  - vm_compute. reflexivity.
  - split; first [reflexivity|vm_compute; reflexivity].
  - vm_compute. reflexivity.
  - rewrite Esink in Hs. injection Hs as <- <- _. rewrite Hd. vm_compute. reflexivity.
Defined.

Definition demo_receiver_inv : core_inv demo_receiver :=
  demo_connected_inv 2 1 51821 (demo_key 6) (demo_key 5) 80 70 eq_refl eq_refl.

(** The second copy of the datagram is refused. *)
Lemma datagram_accepted_once_witness :
  is_ok (fst (rx_open 2000 demo_datagram false demo_receiver)) = true /\
  fst (rx_open 3000 demo_datagram false (snd (rx_data 2000 (demo_endpoint 9) demo_datagram false demo_receiver))) = Ok None.
Proof.
  assert (E : exists o c1, rx_open 2000 demo_datagram false demo_receiver = (Ok (Some o), c1)).
  { assert (Ef : match fst (rx_open 2000 demo_datagram false demo_receiver) with Ok (Some _) => true | _ => false end = true)
      by (vm_compute; reflexivity).
    destruct (rx_open 2000 demo_datagram false demo_receiver) as [[[o|]|] c1]; [by exists o, c1|discriminate Ef..]. }
  destruct E as (o & c1 & E). split; [by rewrite E|].
  exact (proj1 (datagram_accepted_once (PL := Toy.laws) 2000 3000 (demo_endpoint 9) (demo_endpoint 9) demo_datagram false demo_receiver c1 o
    demo_receiver_inv E)).
Defined.

Lemma nonempty_ne {A} (l : list A) : match l with [] => true | _ => false end = false -> l <> [].
Proof. by destruct l. Qed.


Lemma inner_packet_authorised_witness :
  delivered (snd (datagram 2000 (demo_endpoint 9) demo_datagram demo_receiver)) <> [] /\
  exists o counter, authentic 2000 demo_datagram false demo_receiver o counter /\ s_peer (op_session o) = 0.
Proof.
  assert (Hne : delivered (snd (datagram 2000 (demo_endpoint 9) demo_datagram demo_receiver)) <> []).
  { apply nonempty_ne. vm_compute. reflexivity. }
  split; [exact Hne|].
  destruct (inner_packet_authorised (PL := Toy.laws) 2000 (demo_endpoint 9) demo_datagram demo_receiver demo_receiver_inv)
    as [E|(o & counter & header & peer & _ & Ha & _ & _ & _ & Hp & _)].
  { assert (E0 : delivered demo_receiver = []) by reflexivity. destruct Hne. etrans; [exact E|exact E0]. }
  exists o, counter. split; [exact Ha|]. revert Hp. generalize (s_peer (op_session o)). intros [|[|i]]; [reflexivity|intros [=]|intros [=]].
Defined.
