(* ===== verification/Evict.v ===== *)
(** * Evicting a peer ([evict_peer], [capacity_victim_excluding] and the capacity
    evictions of [microtun-core/src/resolver.rs]) *)

From S2P Require Import Prelude Clock Constants Ip Messages Effect Cidr Rate.
From S2P Require Import Firewall Routing Crypto Noise Session SessionIndex Pending Peer.
From S2P Require Import Pool Deadlines Resolve Core Demo Handshake Transport Resolver.
From S2P Require Import Respond.
Local Open Scope nat_scope.

(** ** The two tables *)

Section Release.
Context {CR : Cidr} (MAX_PEERS MAX_SESSIONS : nat).
Notation pool_inv := (pool_inv MAX_PEERS MAX_SESSIONS).

Definition check_slot (pidx : PeerIdx) (sidx : SlotIdx) : Eff Pool unit :=
  slot ← demand (fun p => slots p !! sidx) InternalInvariant;
  _ ← guard (fun p => negb (bool_decide (slot_owner p sidx = Some pidx))) InternalInvariant;
  match local_index slot with
  | Some index => guard (fun p => negb (bool_decide (slot_for_session_index p index = Some sidx))) InternalInvariant
  | None => mret tt
  end.

Definition release_slot (sidx : SlotIdx) : Eff Pool unit :=
  slot ← demand (fun p => slots p !! sidx) InternalInvariant;
  _ ← match local_index slot with
      | Some index =>
          m ← gets session_indices;
          m' ← lift (sim_remove m index sidx);
          modify (fun p => with_indices p m')
      | None => mret tt
      end;
  modify (fun p => with_slots p (<[sidx := Free]> (slots p))).

(** [for x in xs { f(x)? }] *)
Fixpoint each {S A} (f : A -> Eff S unit) (xs : list A) : Eff S unit :=
  match xs with
  | [] => mret tt
  | x :: xs => _ ← f x; each f xs
  end.

(** The pool while the slots [ex] of a departed peer are still to be freed. *)
Record open_inv (ex : list SlotIdx) (p : Pool) : Prop := {
  oi_peers : length (peers p) = MAX_PEERS;
  oi_slots : length (slots p) = MAX_SESSIONS;
  oi_keys k i : peers_by_public_key p !! k = Some i <-> exists e, peer_at p i = Some e /\ public_key e = k;
  oi_indices x s : session_indices p !! x = Some s <-> slots p !! s ≫= local_index = Some x;
  oi_links i e : peer_at p i = Some e ->
    NoDup (linked (sessions e)) /\
    (forall s, handshake (sessions e) = Some s -> holds p i true s) /\
    (forall s, s ∈ linked (sessions e) -> handshake (sessions e) <> Some s -> holds p i false s);
  oi_owned s i : slot_owner p s = Some i ->
    (exists e, peer_at p i = Some e /\ s ∈ linked (sessions e)) \/ s ∈ ex;
  oi_ex s : s ∈ ex -> exists i, slot_owner p s = Some i /\ peer_at p i = None;
}.

Lemma open_inv_nil p : open_inv [] p -> pool_inv None p.
Proof.
  intros [H1 H2 H3 H4 H5 H6 H7]. constructor; try done. intros s i Ho.
  destruct (H6 s i Ho) as [(e & ? & ?)|H]; [eauto|by apply elem_of_nil in H].
Qed.

Lemma holds_owner p i b s : holds p i b s -> slot_owner p s = Some i.
Proof.
  unfold holds, slot_owner. destruct (slots p !! s) as [[|h|x]|]; try done; cbn; by intros [_ <-].
Qed.

Lemma taken_open p pidx e :
  pool_inv None p -> peer_at p pidx = Some e -> open_inv (linked (sessions e)) (taken pidx e p).
Proof.
  intros Hinv He. assert (Hlt : pidx < length (peers p)).
  { unfold peer_at in He. destruct (peers p !! pidx) eqn:E; [|done]. by eapply lookup_lt_Some. }
  assert (Hp : forall j, peer_at (taken pidx e p) j = if decide (j = pidx) then None else peer_at p j).
  { intros j. by apply peer_at_set. }
  constructor.
  - cbn. rewrite length_insert. apply (pi_peers _ _ _ _ Hinv).
  - apply (pi_slots _ _ _ _ Hinv).
  - intros k i. rewrite Hp. cbn [peers_by_public_key taken]. rewrite lookup_delete_Some, (pi_keys _ _ _ _ Hinv). split.
    + intros [Hne (e' & He' & <-)]. rewrite decide_False by congruence. eauto.
    + case_decide as E; [by intros (? & ? & _)|]. intros (e' & He' & <-). split; [|eauto]. intros Ek.
      assert (peers_by_public_key p !! public_key e = Some pidx) by (apply (pi_keys _ _ _ _ Hinv); eauto).
      assert (peers_by_public_key p !! public_key e' = Some i) by (apply (pi_keys _ _ _ _ Hinv); eauto).
      congruence.
  - apply (pi_indices _ _ _ _ Hinv).
  - intros i e'. rewrite Hp. case_decide; [done|]. apply (pi_links _ _ _ _ Hinv).
  - intros s i Hs. destruct (pi_owned _ _ _ _ Hinv s i Hs) as (e' & He' & [Hl|]); [|done]. rewrite Hp.
    case_decide as E; [|eauto]. subst. rewrite He in He'. injection He' as <-. by right.
  - intros s Hs. exists pidx. split; [|by rewrite Hp, decide_True].
    change (slot_owner (taken pidx e p) s) with (slot_owner p s). by eapply linked_owner.
Qed.

Definition released (s : SlotIdx) (p : Pool) : Pool :=
  with_slots (with_indices p (match slots p !! s ≫= local_index with
                              | Some x => delete x (session_indices p) | None => session_indices p end))
    (<[s := Free]> (slots p)).

Lemma release_open s ex p :
  open_inv (s :: ex) p -> s ∉ ex ->
  release_slot s p = (Ok tt, released s p) /\ open_inv ex (released s p).
Proof.
  intros Hinv Hns. destruct (oi_ex _ _ Hinv s) as (i & Ho & Hi); [set_solver|].
  assert (Hx : exists x, slots p !! s = Some x /\ owner_of x = Some i).
  { unfold slot_owner in Ho. destruct (slots p !! s); [eauto|done]. }
  destruct Hx as (x & Hx & Hox). assert (Hlt : s < length (slots p)) by (by eapply lookup_lt_Some).
  assert (Hidx : exists idx, local_index x = Some idx /\ session_indices p !! idx = Some s).
  { destruct x; [done| |]; eexists; (split; [done|]); apply (oi_indices _ _ Hinv); by rewrite Hx. }
  destruct Hidx as (idx & Hl & Hm). split.
  - unfold release_slot. rewrite bind_demand, Hx, Hl. rewrite bind_assoc, bind_gets, bind_assoc, bind_lift.
    unfold sim_remove. rewrite bool_decide_eq_true_2 by done. rewrite bind_modify. unfold released. rewrite Hx. cbn [mbind option_bind].
    by rewrite Hl.
  - assert (E : released s p = with_slots (with_indices p (delete idx (session_indices p))) (<[s := Free]> (slots p))).
    { unfold released. rewrite Hx. cbn. by rewrite Hl. }
    rewrite E. set (q := with_slots _ _).
    assert (Hown : forall t, t <> s -> slot_owner q t = slot_owner p t).
    { intros t Ht. unfold slot_owner, q. cbn. by rewrite list_lookup_insert_ne. }
    assert (Hs : slot_owner q s = None).
    { unfold slot_owner, q. cbn. by rewrite list_lookup_insert_eq. }
    assert (Hholds : forall j b t e, peer_at p j = Some e -> holds p j b t -> holds q j b t).
    { intros j b t e He H. assert (t <> s).
      { intros ->. apply holds_owner in H. congruence. }
      unfold holds, q in *. cbn. by rewrite list_lookup_insert_ne. }
    constructor.
    + apply (oi_peers _ _ Hinv).
    + cbn. rewrite length_insert. apply (oi_slots _ _ Hinv).
    + apply (oi_keys _ _ Hinv).
    + intros y t. unfold q. cbn. rewrite lookup_delete_Some, (oi_indices _ _ Hinv). destruct (decide (t = s)) as [->|Ht].
      * rewrite list_lookup_insert_eq, Hx by done. cbn. rewrite Hl. naive_solver.
      * rewrite list_lookup_insert_ne by done. split; [by intros [_ ?]|]. intros Hy. split; [|done]. intros ->.
        apply (oi_indices _ _ Hinv) in Hy. congruence.
    + intros j e He. destruct (oi_links _ _ Hinv j e He) as (H1 & H2 & H3). split; [done|]. split; eauto.
    + intros t j Ht. destruct (decide (t = s)) as [->|Hne]; [congruence|]. rewrite Hown in Ht by done.
      destruct (oi_owned _ _ Hinv t j Ht) as [?|Hin]; [by left|]. right. set_solver.
    + intros t Ht. destruct (decide (t = s)) as [->|Hne]; [done|]. rewrite Hown by done.
      apply (oi_ex _ _ Hinv). set_solver.
Qed.

(** Freeing them all. *)
Definition released_all (ss : list SlotIdx) (p : Pool) : Pool := fold_left (fun p s => released s p) ss p.

Lemma release_all ss p :
  open_inv ss p -> NoDup ss ->
  each release_slot ss p = (Ok tt, released_all ss p) /\ open_inv [] (released_all ss p).
Proof.
  revert p. induction ss as [|s ss IH]; intros p Hinv Hnd; [done|].
  apply NoDup_cons in Hnd as [Hs Hnd]. destruct (release_open s ss p Hinv Hs) as [E H].
  cbn [each released_all fold_left]. rewrite bind_run, E. by apply IH.
Qed.

Lemma check_slot_ok p pidx e s :
  pool_inv None p -> peer_at p pidx = Some e -> s ∈ linked (sessions e) -> check_slot pidx s p = (Ok tt, p).
Proof.
  intros Hinv He Hs. pose proof (linked_owner _ _ _ _ _ _ _ Hinv He Hs) as Ho. unfold check_slot. rewrite bind_demand.
  destruct (slots p !! s) as [x|] eqn:Hx; [|unfold slot_owner in Ho; by rewrite Hx in Ho].
  rewrite bind_guard, Ho, bool_decide_eq_true_2 by done. cbn [negb].
  destruct (local_index x) as [idx|] eqn:Hl; [|done]. unfold guard.
  assert (E : slot_for_session_index p idx = Some s) by (apply (pi_indices _ _ _ _ Hinv); rewrite Hx; exact Hl).
  by rewrite E, bool_decide_eq_true_2.
Qed.

Lemma check_all_ok p pidx e ss :
  pool_inv None p -> peer_at p pidx = Some e -> ss ⊆ linked (sessions e) -> each (check_slot pidx) ss p = (Ok tt, p).
Proof.
  intros Hinv He. induction ss as [|s ss IH]; intros Hs; [done|]. cbn [each].
  rewrite bind_run, (check_slot_ok p pidx e s) by set_solver. apply IH. set_solver.
Qed.

(** What freeing leaves: the peers, and the other slots. *)
Lemma released_all_peers ss p :
  peers (released_all ss p) = peers p /\ peers_by_public_key (released_all ss p) = peers_by_public_key p /\
  timers (released_all ss p) = timers p.
Proof. revert p. induction ss as [|s ss IH]; intros p; [done|]. exact (IH (released s p)). Qed.

Lemma released_all_slot ss p t x :
  slots (released_all ss p) !! t = Some x -> (x = Free \/ slots p !! t = Some x).
Proof.
  revert p. induction ss as [|s ss IH]; intros p; [by right|]. cbn. intros H. destruct (IH _ H) as [|Hx]; [by left|].
  cbn in Hx. apply list_lookup_insert_Some in Hx as [(_ & <- & _)|[_ ?]]; [by left|by right].
Qed.

End Release.

(** ** The cascade *)

Section Evict.
Context {SZ : Sizes} {CR : Cidr} {PM : PrefixMap nat} {PRM : Prims} {R : Type} {RG : RngCore R}.
Context {CL : CidrLaws} {ML : PrefixMapLaws (V:=nat) MAX_ROUTES} {PL : PrimLaws}.
Notation Run := (Eff (@Core CR PM R)).

(** Effects on the route cache. *)
Definition on_routes {A} (f : RouteCache -> Result A * RouteCache) : Run A := fun c =>
  let '(r, rc) := f (routes c) in (r, with_routes c rc).

Definition evict_peer (pidx : PeerIdx) : Run unit :=
  entry ← gets (fun c => peer_at (pool c) pidx);
  match entry with
  | None => mret tt
  | Some peer =>
      _ ← on_pool (each (check_slot pidx) (linked (sessions peer)));
      taken ← on_pool (take_peer pidx);
      match taken with
      | None => mret tt
      | Some peer =>
          _ ← on_pool (each release_slot (linked (sessions peer)));
          _ ← on_routes (fun rc => rc_remove_peer MAX_ROUTES rc pidx);
          _ ← modify (fun c => with_firewall c (fw_remove_peer MAX_PEERS (firewall c) pidx));
          _ ← modify (fun c => with_pending c (drop_if (pending c) (awaits pidx)));
          if is_pinned peer then mret tt else edit_resolver (fun r => queue_peer_evicted MAX_PEERS r (public_key peer))
      end
  end.

Definition evict_peer_and_remember (pidx : PeerIdx) (now : Instant) : Run unit :=
  entry ← gets (fun c => peer_at (pool c) pidx);
  match entry with
  | None => mret tt
  | Some peer =>
      _ ← evict_peer pidx;
      edit_resolver (fun r => remember_evicted_peer r (public_key peer) now)
  end.

(** [self.peer_evictions.try_take_many(count, now)] *)
Definition take_evictions (count : Z) (now : Instant) : Run bool :=
  on_resolver (fun r => let '(ok, b) := try_take_many (peer_evictions r) count now in
                        (ok, with_budgets r (remote_resolves r) b)).

Definition evict_peer_for_capacity (pidx : PeerIdx) (now : Instant) : Run unit :=
  ok ← take_evictions 1 now;
  if negb ok then throw PeerAdmissionLimited else evict_peer_and_remember pidx now.

(** May the peer in place [i] make room: not excluded nor chosen before, resolved,
    without any session, idle for long, and with enough routes? *)
Definition may_evict (c : @Core CR PM R) (now : Instant) (exclude : option PeerIdx) (selected : list PeerIdx)
    (minimum_routes_to_free : nat) (i : nat) (entry : option PeerEntry) : bool :=
  match entry with
  | None => false
  | Some peer =>
      negb (bool_decide (exclude = Some i)) && negb (bool_decide (i ∈ selected)) && negb (is_pinned peer) &&
      bool_decide (linked (sessions peer) = []) &&
      (dynamic_peer_min_idle (config_of c) <=? saturating_since now (last_activity peer))%Z &&
      (minimum_routes_to_free <=? peer_route_count (routes c) i)
  end.

Definition idle_since (entry : option PeerEntry) : Instant :=
  match entry with Some peer => last_activity peer | None => 0%Z end.

Definition capacity_victim_excluding (c : @Core CR PM R) (now : Instant) (exclude : option PeerIdx) (selected : list PeerIdx)
    (minimum_routes_to_free : nat) : option PeerIdx :=
  fst <$> min_by_key (may_evict c now exclude selected minimum_routes_to_free)
            (fun a b => idle_since a <? idle_since b)%Z (peers (pool c)).

(** ** What an eviction leaves *)

Definition gone (pidx : PeerIdx) (peer : PeerEntry) (rc : RouteCache) (c : @Core CR PM R) : @Core CR PM R :=
  let c := with_pool c (released_all (linked (sessions peer)) (taken pidx peer (pool c))) in
  let c := with_routes c rc in
  let c := with_firewall c (fw_remove_peer MAX_PEERS (firewall c) pidx) in
  let c := with_pending c (drop_if (pending c) (awaits pidx)) in
  if is_pinned peer then c else with_resolver c (queue_peer_evicted MAX_PEERS (resolver c) (public_key peer)).

Lemma evict_peer_run pidx e (c : @Core CR PM R) :
  core_inv c -> peer_at (pool c) pidx = Some e ->
  exists rc, evict_peer pidx c = (Ok tt, gone pidx e rc c) /\
    rc_inv MAX_ROUTES rc /\ rc_next rc = rc_next (routes c) /\ rc_entries rc = clear pidx <$> rc_entries (routes c) /\
    open_inv MAX_PEERS MAX_SESSIONS [] (released_all (linked (sessions e)) (taken pidx e (pool c))).
Proof.
  intros Hc He. pose proof (co_pool _ Hc) as Hp.
  destruct (rc_remove_peer_spec MAX_ROUTES (routes c) pidx (co_routes _ Hc)) as (rc & Er & Hr & Hn & Hent).
  exists rc. destruct (release_all MAX_PEERS MAX_SESSIONS (linked (sessions e)) (taken pidx e (pool c))) as [Erel Hopen].
  { by apply taken_open. }
  { by apply (pi_links _ _ _ _ Hp pidx e He). }
  split; [|done]. unfold evict_peer. rewrite bind_gets, He, bind_on_pool, (check_all_ok _ _ (pool c) pidx e) by done.
  rewrite bind_on_pool. cbn [pool with_pool]. rewrite (take_peer_run _ _ None _ _ Hp).
  pose proof He as He'. rewrite peer_at_lookup in He'. rewrite He', bind_on_pool. cbn [pool with_pool]. rewrite Erel.
  rewrite bind_run. unfold on_routes. cbn [routes with_pool]. rewrite Er, !bind_modify. unfold gone.
  by destruct (is_pinned e).
Qed.

Lemma taken_peer p pidx (e : PeerEntry) j :
  peer_at p pidx = Some e -> peer_at (taken pidx e p) j = if decide (j = pidx) then None else peer_at p j.
Proof.
  intros He. apply peer_at_set. apply peer_at_lookup in He. by eapply lookup_lt_Some.
Qed.

Lemma taken_live pidx e p : pool_live (taken pidx e p) ⊆+ pool_live p.
Proof.
  unfold pool_live. cbn. apply submseteq_skips_r. destruct (peers p !! pidx) as [x|] eqn:E.
  - apply (bind_insert peer_deadlines _ _ x None []); [done|]. apply submseteq_nil_l.
  - by rewrite list_insert_ge by by apply lookup_ge_None.
Qed.

Lemma released_all_live ss p : pool_live (released_all ss p) ⊆+ pool_live p.
Proof.
  revert p. induction ss as [|s ss IH]; intros p; [done|]. cbn. etrans; [apply IH|].
  unfold pool_live. cbn. apply submseteq_skips_l. destruct (slots p !! s) as [x|] eqn:E.
  - apply (bind_insert slot_deadlines _ _ x Free []); [done|]. apply submseteq_nil_l.
  - by rewrite list_insert_ge by by apply lookup_ge_None.
Qed.

Lemma released_other s p t : t <> s -> slots (released s p) !! t = slots p !! t.
Proof. intros Hne. cbn. by rewrite list_lookup_insert_ne. Qed.

Lemma released_all_other ss p t : t ∉ ss -> slots (released_all ss p) !! t = slots p !! t.
Proof.
  revert p. induction ss as [|s ss IH]; intros p Ht; [done|]. apply not_elem_of_cons in Ht as [Hne Ht].
  cbn [released_all fold_left]. etrans; [by apply (IH (released s p))|]. by apply released_other.
Qed.

Lemma released_all_length ss p : length (slots (released_all ss p)) = length (slots p).
Proof. revert p. induction ss as [|s ss IH]; intros p; [done|]. etrans; [apply (IH (released s p))|]. apply length_insert. Qed.

Lemma released_all_freed ss p t :
  t ∈ ss -> t < length (slots p) -> slots (released_all ss p) !! t = Some Free.
Proof.
  revert p. induction ss as [|s ss IH]; intros p Ht Hlt; [by apply elem_of_nil in Ht|].
  cbn [released_all fold_left]. change (fold_left _ ss ?q) with (released_all ss q).
  destruct (decide (t ∈ ss)) as [Hin|Hnin].
  - apply IH; [done|]. cbn. by rewrite length_insert.
  - rewrite released_all_other by done. apply elem_of_cons in Ht as [->|]; [|done].
    cbn. by rewrite list_lookup_insert_eq.
Qed.

Lemma drop_if_deadlines p f : pool_deadlines (drop_if p f) ⊆+ pool_deadlines p.
Proof.
  unfold drop_if, pool_deadlines. induction p as [|[q|] l IH]; cbn; [done| |done].
  destruct (f q); cbn; [by apply submseteq_cons|by apply submseteq_skip].
Qed.

Lemma drop_if_none p f q : Some q ∈ drop_if p f -> f q = false /\ Some q ∈ p.
Proof.
  unfold drop_if. rewrite list_elem_of_fmap. intros ([x|] & E & Hx); cbn in E; [|done].
  destruct (f x) eqn:Ef; [done|]. by injection E as ->.
Qed.

Lemma queue_evicted_inv m n r k : resolver_inv n r -> resolver_inv n (queue_peer_evicted m r k).
Proof. intros []. unfold queue_peer_evicted. repeat case_match; by split. Qed.
(** The key is queued unless the list is full without it; nothing queued is lost. *)
Lemma queue_evicted_in m r k :
  length (pending_peer_evictions r) < m -> k ∈ pending_peer_evictions (queue_peer_evicted m r k).
Proof.
  intros Hm. unfold queue_peer_evicted. case_bool_decide; [done|].
  destruct (Nat.ltb_spec (length (pending_peer_evictions r)) m); [|lia]. cbn. set_solver.
Qed.
Lemma queue_evicted_keeps m r k k' :
  k' ∈ pending_peer_evictions r -> k' ∈ pending_peer_evictions (queue_peer_evicted m r k).
Proof. intros H. unfold queue_peer_evicted. repeat case_match; cbn; set_solver. Qed.
Lemma queue_evicted_rest m r k :
  core_config (queue_peer_evicted m r k) = core_config r /\ resolves (queue_peer_evicted m r k) = resolves r /\
  pending_reconciles (queue_peer_evicted m r k) = pending_reconciles r.
Proof. unfold queue_peer_evicted. by repeat case_match. Qed.

Lemma clear_routes pidx rc rc' e :
  rc_entries rc' = clear pidx <$> rc_entries rc ->
  e ∈ Routing.routes rc' <-> e ∈ Routing.routes rc /\ re_peer e <> pidx.
Proof.
  intros E. rewrite !elem_of_routes, E, list_elem_of_fmap. split.
  - intros ([x|] & Ex & Hx); cbn in Ex; [|done]. destruct (Nat.eqb_spec (re_peer x) pidx); [done|]. by injection Ex as ->.
  - intros [He Hne]. exists (Some e). split; [|done]. cbn. by apply Nat.eqb_neq in Hne as ->.
Qed.

(** What stays of the cascade besides the queued event. *)
Lemma gone_facts pidx e rc (c : @Core CR PM R) :
  let c' := gone pidx e rc c in
  pool c' = released_all (linked (sessions e)) (taken pidx e (pool c)) /\ routes c' = rc /\
  firewall c' = fw_remove_peer MAX_PEERS (firewall c) pidx /\ pending c' = drop_if (pending c) (awaits pidx) /\
  scratch c' = scratch c /\ relay_scratch c' = relay_scratch c /\ sink c' = sink c /\
  resolver c' = if is_pinned e then resolver c else queue_peer_evicted MAX_PEERS (resolver c) (public_key e).
Proof. unfold gone. by destruct (is_pinned e). Qed.

Lemma evict_peer_moved now pidx (c : @Core CR PM R) :
  core_inv c -> moved now (evict_peer pidx) c.
Proof.
  intros Hc. destruct (peer_at (pool c) pidx) as [e|] eqn:He.
  2: { unfold moved, evict_peer. rewrite bind_gets, He. split; [done|apply core_le_refl]. }
  destruct (evict_peer_run pidx e c Hc He) as (rc & E & Hr & Hn & Hent & Hopen). unfold moved. rewrite E. cbn [snd].
  destruct (gone_facts pidx e rc c) as (Fp & Fr & _ & Fq & Fs & Frs & _ & Fres). set (c' := gone pidx e rc c) in *.
  destruct (released_all_peers (linked (sessions e)) (taken pidx e (pool c))) as (Pp & Pk & Pt).
  assert (Hat : forall j, peer_at (pool c') j = if decide (j = pidx) then None else peer_at (pool c) j).
  { intros j. rewrite Fp, <- (taken_peer (pool c) pidx e j He). unfold peer_at. by rewrite Pp. }
  assert (Hrc : core_config (resolver c') = core_config (resolver c) /\ resolves (resolver c') = resolves (resolver c) /\
    pending_reconciles (resolver c') = pending_reconciles (resolver c)).
  { rewrite Fres. destruct (is_pinned e); [done|apply queue_evicted_rest]. }
  destruct Hrc as (Rc & Rr & Rp). split.
  - split.
    + rewrite Fp. by apply open_inv_nil.
    + intros s sess Hs. apply established_Some in Hs. rewrite Fp in Hs. apply released_all_slot in Hs as [|Hs]; [done|].
      apply (co_sessions _ Hc s). by apply established_Some.
    + intros k i. rewrite Fp, Pk. cbn. intros [_ Hk]%lookup_delete_Some. by eapply (co_keys _ Hc).
    + intros i x iv. rewrite Hat. case_decide; [done|]. apply (co_keepalive _ Hc).
    + by rewrite Fr.
    + rewrite Fr, Hn. apply (co_orders _ Hc).
    + intros x Hx. rewrite Fr in Hx. apply (clear_routes _ _ _ _ Hent) in Hx as [Hx Hne]. rewrite Hat, decide_False by done.
      by apply (co_routed _ Hc).
    + rewrite Fres. destruct (is_pinned e); [apply Hc|apply queue_evicted_inv, Hc].
    + rewrite Rc. apply (co_config _ Hc).
    + rewrite Fs. apply (co_scratch _ Hc).
    + rewrite Frs. apply (co_relay _ Hc).
  - split; [done|]. rewrite Fp, Pt. apply adv_drop. unfold live. rewrite Fp, Fq, Rr, Rp. apply submseteq_app.
    + etrans; [apply released_all_live|apply taken_live].
    + apply submseteq_skips_r, drop_if_deadlines.
Qed.

Lemma evict_peer_and_remember_moved now pidx (c : @Core CR PM R) :
  core_inv c -> moved now (evict_peer_and_remember pidx now) c.
Proof.
  intros Hc. unfold moved, evict_peer_and_remember. rewrite bind_gets.
  destruct (peer_at (pool c) pidx) as [e|]; [|split; [done|apply core_le_refl]].
  apply moved_bind; [by apply evict_peer_moved|]. intros [] c' _ Hc'.
  refine (resolver_moved now c' (remember_evicted_peer (resolver c') (public_key e) now) Hc' _ _ _).
  - destruct (co_resolver _ Hc'). unfold remember_evicted_peer. repeat case_match; by split.
  - unfold remember_evicted_peer. repeat case_match; done.
  - unfold remember_evicted_peer. repeat case_match; done.
Qed.

Lemma take_evictions_moves now count : moves now (take_evictions count now).
Proof. apply edit_budget_moves. intros r. by destruct (try_take_many _ _ _). Qed.

Lemma evict_peer_for_capacity_moves now pidx : moves now (evict_peer_for_capacity pidx now).
Proof.
  apply moves_bind; [apply take_evictions_moves|]. intros ok. apply moves_if; [apply moves_throw|].
  intros c Hc. by apply evict_peer_and_remember_moved.
Qed.

(** The peer chosen to make room is the longest idle of those that may go. *)
Lemma capacity_victim_spec (c : @Core CR PM R) now exclude selected n :
  match capacity_victim_excluding c now exclude selected n with
  | Some i => exists e, peer_at (pool c) i = Some e /\ may_evict c now exclude selected n i (Some e) = true /\
      forall j x, peer_at (pool c) j = Some x -> may_evict c now exclude selected n j (Some x) = true ->
        (last_activity e <= last_activity x)%Z
  | None => forall j x, peer_at (pool c) j = Some x -> may_evict c now exclude selected n j (Some x) = false
  end.
Proof.
  unfold capacity_victim_excluding.
  pose proof (min_by_key_spec (may_evict c now exclude selected n) (fun a b => idle_since a <? idle_since b)%Z
    ltac:(cbn beta; intros; bool_lia) ltac:(cbn beta; intros; bool_lia) (peers (pool c))) as H.
  destruct (min_by_key _ _ _) as [[i x]|]; cbn.
  - destruct H as (Hi & Hk & Hmin). destruct x as [e|]; [|done]. exists e. split; [by apply peer_at_lookup|]. split; [exact Hk|].
    intros j y Hj Hy. apply peer_at_lookup in Hj. specialize (Hmin j (Some y) Hj Hy). cbn in Hmin. bool_lia.
  - intros j x Hj. apply peer_at_lookup in Hj. by apply (H j (Some x)).
Qed.

(** C13: an evicted peer leaves no trace, and nothing else does: on a consistent
    engine the cascade never fails; the peer, its key, its session slots, its routes,
    its firewall flows and the packets parked for its handshake are gone, and every
    other peer, slot, route and flow is where it was. A resolved peer's departure is
    queued as an event where the list of departures, which holds [MAX_PEERS] keys in
    the allocation-free backend, has room for it; departures queued before stay. *)
Theorem evict_peer_leaves_nothing (pidx : PeerIdx) (e : PeerEntry) (c : @Core CR PM R) :
  core_inv c -> peer_at (pool c) pidx = Some e ->
  exists c', evict_peer pidx c = (Ok tt, c') /\ core_inv c' /\
    (forall j, peer_at (pool c') j = if decide (j = pidx) then None else peer_at (pool c) j) /\
    find_peer (pool c') (public_key e) = None /\
    (forall s, slots (pool c') !! s = if bool_decide (slot_owner (pool c) s = Some pidx) then Some Free
                                      else slots (pool c) !! s) /\
    (forall r, r ∈ Routing.routes (routes c') <-> r ∈ Routing.routes (routes c) /\ re_peer r <> pidx) /\
    (forall f, f ∈ entries (firewall c') <-> f ∈ entries (firewall c) /\ Firewall.peer f <> pidx) /\
    (forall p, Some p ∈ pending c' -> pp_wait p <> WaitHandshake pidx) /\
    (kind e <> Pinned -> length (pending_peer_evictions (resolver c)) < MAX_PEERS ->
     public_key e ∈ pending_peer_evictions (resolver c')) /\
    (forall k, k ∈ pending_peer_evictions (resolver c) -> k ∈ pending_peer_evictions (resolver c')).
Proof.
  intros Hc He. destruct (evict_peer_run pidx e c Hc He) as (rc & E & Hr & Hn & Hent & Hopen).
  exists (gone pidx e rc c). split; [done|].
  assert (Hi : core_inv (gone pidx e rc c)) by (pose proof (evict_peer_moved 0%Z pidx c Hc) as [H _]; by rewrite E in H).
  split; [done|]. destruct (gone_facts pidx e rc c) as (Fp & Fr & Ff & Fq & _ & _ & _ & Fres).
  destruct (released_all_peers (linked (sessions e)) (taken pidx e (pool c))) as (Pp & Pk & _).
  rewrite Fp, Fr, Ff, Fq. split; [|split; [|split; [|split; [|split; [|split; [|split]]]]]].
  - intros j. rewrite <- (taken_peer (pool c) pidx e j He). unfold peer_at. by rewrite Pp.
  - unfold find_peer. rewrite Pk. cbn. apply lookup_delete_eq.
  - intros s. pose proof (co_pool _ Hc) as Hp. case_bool_decide as Ho.
    + assert (Hin : s ∈ linked (sessions e)).
      { destruct (pi_owned _ _ _ _ Hp s pidx Ho) as (e' & He' & [Hl|]); [|done]. congruence. }
      apply released_all_freed; [done|]. cbn. unfold slot_owner in Ho. destruct (slots (pool c) !! s) eqn:Es; [|done].
      by eapply lookup_lt_Some.
    + rewrite released_all_other; [done|]. intros Hin. by apply Ho, (linked_owner _ _ _ _ _ _ _ Hp He).
  - intros r. by apply clear_routes.
  - intros f. rewrite fw_remove_peer_entries, elem_of_retain, negb_true_iff, Nat.eqb_neq. tauto.
  - intros p [Hp _]%drop_if_none. unfold awaits in Hp. by apply bool_decide_eq_false in Hp.
  - intros Hk Hroom. rewrite Fres. unfold is_pinned. rewrite bool_decide_eq_false_2 by done. by apply queue_evicted_in.
  - intros k Hk. rewrite Fres. case_match; [done|]. by apply queue_evicted_keeps.
Qed.

End Evict.

Lemma evict_peer_leaves_nothing_witness :
  exists c', evict_peer 0 demo_sender = (Ok tt, c') /\ peer_at (pool c') 0 = None /\ slots (pool c') !! 0 = Some Free.
Proof.
  destruct (evict_peer_leaves_nothing (PL := Toy.laws) 0 (with_sessions (demo_entry 1 2 51820) demo_ps) demo_sender
    (demo_connected_inv 1 2 51820 (demo_key 5) (demo_key 6) 70 80 eq_refl eq_refl) eq_refl)
    as (c' & E & _ & Hp & _ & Hs & _).
  exists c'. split; [exact E|]. split; [exact (Hp 0)|exact (Hs 0)].
Defined.
