(* ===== verification/Upsert.v ===== *)
(** * Installing a resolver record ([upsert_peer_unchecked], [replace_dynamic_route]
    and their callers in [microtun-core/src/resolver.rs]) *)

From S2P Require Import Prelude Clock Constants Ip Messages Effect Cidr Rate.
From S2P Require Import Firewall Routing Crypto Noise Session SessionIndex Pending Peer.
From S2P Require Import Pool Deadlines Resolve Core Demo Handshake Transport Frame.
From S2P Require Import Resolver Respond Receive Aloof Evict.
Local Open Scope nat_scope.

Section Upsert.
Context {SZ : Sizes} {CR : Cidr} {PM : PrefixMap nat} {PRM : Prims} {R : Type} {RG : RngCore R}.
Context {CL : CidrLaws} {ML : PrefixMapLaws (V:=nat) MAX_ROUTES} {PL : PrimLaws}.
Notation Run := (Eff (@Core CR PM R)).

(** ** The route of a resolved peer *)

Definition with_address (p : PeerEntry) (a : IpCidr) : PeerEntry :=
  mkPeerEntry (public_key p) (precomputed_static_static p) (kind p) (endpoint p) (endpoint_confirmed p)
    (relay p) (inbound_policy p) (persistent_keepalive p) a (greatest_ts p)
    (last_initiation_consumption p) (cookie p) (last_mac1 p) (sessions p) (last_relay_resolve p)
    (latest_handshake p) (rx_bytes p) (tx_bytes p) (last_activity p).

(** Makes room by evicting one idle peer when the cache would be full. *)
Definition reserve_route (pidx : PeerIdx) (now : Instant) (allow_peer_eviction : bool) : Run unit :=
  full ← gets (fun c => available_slots MAX_ROUTES (routes c) + peer_route_count (routes c) pidx =? 0);
  if negb full then mret tt else
  if negb allow_peer_eviction then throw RouteCacheFull else
  victim ← gets (fun c => capacity_victim_excluding c now (Some pidx) [] 1);
  match victim with
  | None => throw RouteCacheFull
  | Some victim =>
      ok ← take_evictions 1 now;
      if negb ok then throw PeerAdmissionLimited else evict_peer_and_remember victim now
  end.

Definition replace_dynamic_route (pidx : PeerIdx) (address : IpCidr) (now : Instant) (allow_peer_eviction : bool) : Run unit :=
  _ ← reserve_route pidx now allow_peer_eviction;
  _ ← on_routes (fun rc => rc_remove_peer MAX_ROUTES rc pidx);
  _ ← on_routes (fun rc => rc_insert rc address pidx false now);
  _ ← the_peer pidx InternalInvariant;
  edit_peer pidx (fun peer => with_address peer address).

(** ** The record itself *)

Definition nonzero (interval : option Duration) : option Duration :=
  match interval with Some i => if negb (i =? 0)%Z then Some i else None | None => None end.

(** A record replaces all that the resolver says of a peer, its address apart. *)
Definition replaced_entry (info : ResolvedPeer) (now : Instant) (p : PeerEntry) : PeerEntry :=
  let p := if bool_decide (endpoint p = rp_endpoint info) then p else with_endpoint p (rp_endpoint info) None in
  let interval := nonzero (rp_persistent_keepalive info) in
  let ps := if bool_decide (persistent_keepalive p = interval) then sessions p
            else set_due (sessions p) (keepalive_due (sessions p)) (instant_add now <$> interval) (reply_due (sessions p)) in
  mkPeerEntry (public_key p) (precomputed_static_static p) (kind p) (endpoint p) (endpoint_confirmed p)
    (rp_relay info) (rp_inbound_policy info) interval (address p) (greatest_ts p)
    (last_initiation_consumption p) (cookie p) (last_mac1 p) ps (last_relay_resolve p)
    (latest_handshake p) (rx_bytes p) (tx_bytes p) (last_activity p).

(** The keepalive deadline a replacement arms. *)
Definition replaced_due (info : ResolvedPeer) (now : Instant) (p : PeerEntry) : option Instant :=
  let interval := nonzero (rp_persistent_keepalive info) in
  if bool_decide (persistent_keepalive p = interval) then None else instant_add now <$> interval.

Definition new_dynamic_peer (info : ResolvedPeer) (now : Instant) : Run PeerEntry :=
  k ← gets keys;
  shared ← lift (dh (s_priv k) (rp_public_key info));
  mret (peer_new (rp_public_key info) Dynamic shared (rp_endpoint info) (rp_relay info) (rp_inbound_policy info)
          (rp_persistent_keepalive info) (rp_address info) now).

Definition refresh_peer (pidx : PeerIdx) (info : ResolvedPeer) (now : Instant) : Run bool :=
  peer ← the_peer pidx InvalidResolverAnswer;
  _ ← edit_peer pidx (replaced_entry info now);
  _ ← match replaced_due info now peer with Some d => arm_timer d | None => mret tt end;
  _ ← (if bool_decide (inbound_policy peer = rp_inbound_policy info) then mret tt
       else modify (fun c => with_firewall c (fw_remove_peer MAX_PEERS (firewall c) pidx)));
  mret (negb (bool_decide (address peer = rp_address info))).

(** Where the new peer goes: an unreserved free place, or, unless the admission
    forbids it, the place of an idle resolved peer. *)
Definition place_new_peer (info : ResolvedPeer) (now : Instant) (admission : PeerAdmission) : Run PeerIdx :=
  free_index ← gets (fun c => position is_free_slot (peers (pool c)));
  free ← gets (fun c => free_peers (pool c));
  reserve ← gets (fun c => lazy_peer_reserve (config_of c));
  let authenticated := bool_decide (admission = AuthenticatedInitiator) in
  let lazy := bool_decide (admission = LazyOutbound) || bool_decide (admission = LazyRelay) in
  match (if authenticated || (reserve <? free) then free_index else None) with
  | Some i =>
      peer ← new_dynamic_peer info now;
      _ ← on_pool (install_peer MAX_PEERS i peer);
      mret i
  | None =>
      if bool_decide (admission = HeldUpdate) then throw InvalidResolverAnswer else
      if bool_decide (admission = LazyRelay) then throw PeerAdmissionLimited else
      victim ← gets (fun c => capacity_victim_excluding c now None [] (1 - available_slots MAX_ROUTES (routes c)));
      match victim with
      | None => throw (if lazy then PeerAdmissionLimited else PeerTableFull)
      | Some i =>
          peer ← new_dynamic_peer info now;
          _ ← evict_peer_for_capacity i now;
          _ ← on_pool (install_peer MAX_PEERS i peer);
          mret i
      end
  end.

(** The peer, whether its route changed and whether it is new. *)
Definition upsert_peer_unchecked (info : ResolvedPeer) (now : Instant) (admission : PeerAdmission)
  : Run (PeerIdx * bool * bool) :=
  found ← gets (fun c => find_peer (pool c) (rp_public_key info));
  match found with
  | Some pidx => routes_changed ← refresh_peer pidx info now; mret (pidx, routes_changed, false)
  | None =>
      ghosted ← on_resolver (fun r => peer_is_ghosted r (rp_public_key info) now);
      if ghosted : bool then throw PeerAdmissionLimited else
      i ← place_new_peer info now admission;
      mret (i, true, true)
  end.

Definition commit_existing_resolved_peer (pidx : PeerIdx) (info : ResolvedPeer) (now : Instant) (admission : PeerAdmission)
    (allow_peer_eviction : bool) : Run unit :=
  peer ← the_peer pidx InternalInvariant;
  _ ← (if bool_decide (address peer = rp_address info) then mret tt
       else replace_dynamic_route pidx (rp_address info) now allow_peer_eviction);
  '(updated, _, installed_new) ← upsert_peer_unchecked info now admission;
  if negb (updated =? pidx) || installed_new then throw InternalInvariant else mret tt.

Definition commit_held_update (pidx : PeerIdx) (info : ResolvedPeer) (now : Instant) : Run unit :=
  commit_existing_resolved_peer pidx info now HeldUpdate true.

(** ** The policy an answer must meet *)

Definition check_resolved_answer (c : @Core CR PM R) (query : ResolveQuery) (info : ResolvedPeer) : Result unit :=
  if match query with ByPublicKey expected => negb (bool_decide (rp_public_key info = expected)) | ByDstAddress _ => false end
  then Failed InvalidResolverAnswer else
  if bool_decide (rp_public_key info = s_pub (keys c)) then Failed InvalidResolverAnswer else
  if match find_peer (pool c) (rp_public_key info) ≫= peer_at (pool c) with Some peer => is_pinned peer | None => false end
  then Failed InvalidResolverAnswer else
  if bool_decide (rp_relay info = Some (rp_public_key info)) then Failed InvalidResolverAnswer else
  if network_length (rp_address info) =? 0 then Failed InvalidResolverAnswer else Ok tt.

Definition canonicalize_resolved_answer (c : @Core CR PM R) (query : ResolveQuery) (info : ResolvedPeer) : Result ResolvedPeer :=
  let info := with_answer_endpoint info (unmap_socket_addr <$> rp_endpoint info) in
  _ ← check_resolved_answer c query info;
  mret info.

(** ** What they keep *)

Lemma core_le_step {A} now (c c1 : @Core CR PM R) (m : Run A) :
  core_le now c c1 -> moved now m c1 -> core_inv (snd (m c1)) /\ core_le now c (snd (m c1)).
Proof. intros Hl [Hi Hl']. split; [done|]. by eapply core_le_trans. Qed.

(** What the resolver's client hands over: a key of 32 bytes and no negative interval. *)
Definition answer_wf (info : ResolvedPeer) : Prop :=
  length (rp_public_key info) = 32 /\ forall iv, rp_persistent_keepalive info = Some iv -> (0 <= iv)%Z.

(** The next insertion order. *)
Definition orders (c : @Core CR PM R) : Z := rc_next (routes c).

Lemma evict_peer_orders pidx (c : @Core CR PM R) : core_inv c -> orders (snd (evict_peer pidx c)) = orders c.
Proof.
  intros Hc. destruct (peer_at (pool c) pidx) as [e|] eqn:He.
  - destruct (evict_peer_run pidx e c Hc He) as (rc & E & _ & Hn & _). rewrite E. cbn [snd].
    destruct (gone_facts pidx e rc c) as (_ & Fr & _). unfold orders. by rewrite Fr.
  - unfold evict_peer. by rewrite bind_gets, He.
Qed.

Lemma evict_and_remember_orders pidx now (c : @Core CR PM R) :
  core_inv c -> orders (snd (evict_peer_and_remember pidx now c)) = orders c.
Proof.
  intros Hc. unfold evict_peer_and_remember. rewrite bind_gets.
  destruct (peer_at (pool c) pidx); [|done]. pose proof (evict_peer_orders pidx c Hc) as H. rewrite bind_run.
  by destruct (evict_peer pidx c) as [[[]|] c'].
Qed.

Lemma evict_for_capacity_orders pidx now (c : @Core CR PM R) :
  core_inv c -> orders (snd (evict_peer_for_capacity pidx now c)) = orders c.
Proof.
  intros Hc. unfold evict_peer_for_capacity. destruct (take_evictions_moves now 1 c Hc) as [Hc1 _].
  rewrite bind_run. unfold take_evictions, on_resolver in *. destruct (try_take_many _ _ _) as [ok b]. cbn [snd] in *.
  destruct ok; cbn [negb]; [|done]. by rewrite evict_and_remember_orders.
Qed.

(** Evicting one peer leaves another where it is. *)
Lemma evict_peer_keeps pidx j (c : @Core CR PM R) :
  core_inv c -> j <> pidx -> peer_at (pool (snd (evict_peer pidx c))) j = peer_at (pool c) j.
Proof.
  intros Hc Hne. destruct (peer_at (pool c) pidx) as [e|] eqn:He.
  - destruct (evict_peer_run pidx e c Hc He) as (rc & E & _). rewrite E. cbn [snd].
    destruct (gone_facts pidx e rc c) as (Fp & _). rewrite Fp.
    destruct (released_all_peers (linked (sessions e)) (taken pidx e (pool c))) as (Pp & _).
    etrans; [|etrans; [exact (taken_peer (pool c) pidx e j He)|by rewrite decide_False]]. unfold peer_at. by rewrite Pp.
  - unfold evict_peer. by rewrite bind_gets, He.
Qed.

Lemma evict_and_remember_keeps pidx j now (c : @Core CR PM R) :
  core_inv c -> j <> pidx -> peer_at (pool (snd (evict_peer_and_remember pidx now c))) j = peer_at (pool c) j.
Proof.
  intros Hc Hne. unfold evict_peer_and_remember. rewrite bind_gets.
  destruct (peer_at (pool c) pidx); [|done]. pose proof (evict_peer_keeps pidx j c Hc Hne) as H. rewrite bind_run.
  by destruct (evict_peer pidx c) as [[[]|] c'].
Qed.

(** Writes of an entry that keep its key and sessions. *)
Lemma edit_entry_inv i f (c : @Core CR PM R) :
  core_inv c -> link_preserving f ->
  (forall e iv, peer_at (pool c) i = Some e -> persistent_keepalive (f e) = Some iv -> (1 <= iv)%Z) ->
  core_inv (with_pool c (update_peer i f (pool c))).
Proof.
  intros Hc Hf Hka. pose proof (co_pool _ Hc) as Hp. split; try apply Hc.
  - by apply pool_inv_update_peer.
  - intros j e iv. cbn [pool with_pool]. rewrite peer_at_update. case_decide as E; [|apply (co_keepalive _ Hc)].
    subst j. intros (e0 & He & ->)%fmap_Some. by apply Hka.
  - intros x Hx. cbn [pool with_pool]. rewrite peer_at_update. destruct (co_routed _ Hc x Hx) as [y ->]. by case_decide.
Qed.

Lemma edit_entry_moved now i f (c : @Core CR PM R) :
  core_inv c -> link_preserving f ->
  (forall e iv, peer_at (pool c) i = Some e -> persistent_keepalive (f e) = Some iv -> (1 <= iv)%Z) ->
  (forall e, session_deadlines (sessions (f e)) = session_deadlines (sessions e)) -> moved now (edit_peer i f) c.
Proof.
  intros Hc Hf Hka Hd. split; [by apply edit_entry_inv|]. apply core_le_pool; [done..|]. apply adv_drop.
  apply (update_peer_live _ _ _ []). intros e _. by rewrite Hd.
Qed.

Lemma nonzero_positive info iv : answer_wf info -> nonzero (rp_persistent_keepalive info) = Some iv -> (1 <= iv)%Z.
Proof.
  intros [_ Hwf] H. unfold nonzero in H. destruct (rp_persistent_keepalive info) as [i|]; [|done].
  specialize (Hwf i eq_refl). destruct (Z.eqb_spec i 0); [done|]. injection H as <-. lia.
Qed.

Lemma replaced_links info now : link_preserving (replaced_entry info now).
Proof. intros e. unfold replaced_entry. do 2 case_bool_decide; done. Qed.

Lemma replaced_deadlines info now e :
  session_deadlines (sessions (replaced_entry info now e)) ⊆+
    option_list (replaced_due info now e) ++ session_deadlines (sessions e).
Proof.
  unfold replaced_entry, replaced_due. set (p := if bool_decide _ then e else _).
  assert (Ep : persistent_keepalive p = persistent_keepalive e /\ sessions p = sessions e) by (unfold p; by case_bool_decide).
  destruct Ep as [-> ->]. case_bool_decide; [done|]. unfold session_deadlines. cbn.
  destruct (nonzero _), (keepalive_due _), (persistent_keepalive_due _), (reply_due _), (attempt_deadline _); cbn; solve_submseteq.
Qed.

Lemma refresh_peer_moved now pidx info (c : @Core CR PM R) :
  core_inv c -> answer_wf info -> moved now (refresh_peer pidx info now) c.
Proof.
  intros Hc Hwf. unfold moved, refresh_peer. rewrite bind_the_peer.
  destruct (peer_at (pool c) pidx) as [e|] eqn:He; [|split; [done|apply core_le_refl]].
  rewrite bind_edit_peer. set (c1 := with_pool c _).
  assert (Hc1 : core_inv c1).
  { apply edit_entry_inv; [done|apply replaced_links|]. intros e0 iv _ H. by eapply nonzero_positive. }
  assert (Hlive : pool_live (pool c1) ⊆+ option_list (replaced_due info now e) ++ pool_live (pool c)).
  { apply update_peer_live. intros e0 He0. rewrite He in He0. injection He0 as <-. apply replaced_deadlines. }
  assert (Hend : moves now (_ ← (if bool_decide (inbound_policy e = rp_inbound_policy info) then mret tt
       else modify (fun c => with_firewall c (fw_remove_peer MAX_PEERS (firewall c) pidx)));
       mret (negb (bool_decide (address e = rp_address info))) : Run bool)).
  { apply moves_bind; [|intros; apply moves_mret]. apply moves_if; [apply moves_mret|]. intros x Hx.
    by apply (with_firewall_moves now). }
  destruct (replaced_due info now e) as [d|] eqn:Ed.
  - rewrite bind_arm_timer. set (c2 := with_pool c1 _).
    destruct (arm_timer_moves now d c1 Hc1) as [Hc2 _].
    change (snd (arm_timer d c1)) with c2 in Hc2. destruct (Hend c2 Hc2) as [Hi Hl]. split; [exact Hi|].
    eapply core_le_trans; [|exact Hl]. apply core_le_pool; [done..|]. apply adv_arm; [exact Hlive|].
    unfold replaced_due in Ed. destruct (bool_decide (persistent_keepalive e = _)) in Ed; [done|]. apply fmap_Some in Ed as (iv & Hiv & ->).
    apply instant_add_mono. by eapply nonzero_positive.
  - rewrite bind_ret. destruct (Hend c1 Hc1) as [Hi Hl]. split; [exact Hi|].
    eapply core_le_trans; [|exact Hl]. apply core_le_pool; [done..|]. by apply adv_drop.
Qed.

(** ** Routes *)

Lemma remove_routes_run pidx (c : @Core CR PM R) :
  core_inv c -> exists rc, on_routes (fun rc => rc_remove_peer MAX_ROUTES rc pidx) c = (Ok tt, with_routes c rc) /\
    core_inv (with_routes c rc) /\ rc_next rc = rc_next (routes c).
Proof.
  intros Hc. destruct (rc_remove_peer_spec MAX_ROUTES (routes c) pidx (co_routes _ Hc)) as (rc & E & Hr & Hn & Hent).
  exists rc. split; [unfold on_routes; by rewrite E|]. split; [|done]. destruct Hc. split; try done.
  - cbn. by rewrite Hn.
  - intros e He. apply (clear_routes _ _ _ _ Hent) in He as [He _]. by apply co_routed.
Qed.

Lemma add_route_moved now pidx address pinned (c : @Core CR PM R) :
  core_inv c -> (orders c < u64_max)%Z -> is_Some (peer_at (pool c) pidx) ->
  moved now (on_routes (fun rc => rc_insert rc address pidx pinned now)) c.
Proof.
  intros Hc Ho Hp. pose proof (rc_insert_spec MAX_ROUTES (routes c) address pidx pinned now (co_routes _ Hc) Ho (co_orders _ Hc)) as H.
  unfold moved, on_routes. destruct (rc_insert (routes c) address pidx pinned now) as [r rc]. cbn [snd].
  destruct H as [Hr Hcase]. split; [|by apply core_le_same].
  assert (Hfacts : (0 <= rc_next rc)%Z /\
    forall e, e ∈ Routing.routes rc -> re_peer e = pidx \/ exists e', e' ∈ Routing.routes (routes c) /\ re_peer e' = re_peer e).
  { pose proof (co_orders _ Hc) as H0. destruct Hcase as [(i & e & Hi & Hci & Hpe & _ & ->)|[(_ & -> & _)|(_ & _ & i & Hi & E & N)]].
    - split; [done|]. intros x. rewrite !elem_of_routes. cbn [rc_entries set_slot]. intros [j Hj]%list_elem_of_lookup.
      apply list_lookup_insert_Some in Hj as [(_ & [= <-] & _)|[_ Hj]]; [by left|]. right. exists x. split; [|done].
      apply elem_of_routes, list_elem_of_lookup. eauto.
    - split; [done|]. intros x Hx. right. eauto.
    - split; [lia|]. intros x. rewrite elem_of_routes, E. intros [j Hj]%list_elem_of_lookup.
      apply list_lookup_insert_Some in Hj as [(_ & [= <-] & _)|[_ Hj]]; [by left|]. right. exists x. split; [|done].
      apply elem_of_routes, list_elem_of_lookup. eauto. }
  destruct Hfacts as [H0 Hroutes]. destruct Hc. split; try done.
  intros e He. cbn [pool with_routes]. destruct (Hroutes e He) as [->|(e' & He' & <-)]; [done|]. by apply co_routed.
Qed.

Lemma reserve_route_spec now pidx allow (c : @Core CR PM R) :
  core_inv c ->
  let c' := snd (reserve_route pidx now allow c) in
  core_inv c' /\ core_le now c c' /\ orders c' = orders c /\ peer_at (pool c') pidx = peer_at (pool c) pidx.
Proof.
  intros Hc. cbv zeta. unfold reserve_route. rewrite bind_gets.
  destruct (_ =? 0); cbn [negb]; [|by split_and!; [|apply core_le_refl| |]].
  destruct allow; cbn [negb]; [|by split_and!; [|apply core_le_refl| |]]. rewrite bind_gets.
  pose proof (capacity_victim_spec c now (Some pidx) [] 1) as Hv.
  destruct (capacity_victim_excluding c now (Some pidx) [] 1) as [v|]; [|by split_and!; [|apply core_le_refl| |]].
  destruct Hv as (e & _ & Hm & _). assert (Hne : pidx <> v).
  { intros ->. cbn in Hm. by rewrite bool_decide_eq_true_2 in Hm. }
  destruct (take_evictions_moves now 1 c Hc) as [Hc1 Hl1]. rewrite bind_run. unfold take_evictions, on_resolver in *.
  destruct (try_take_many (peer_evictions (resolver c)) 1 now) as [ok b]. cbn [snd] in *.
  destruct ok; cbn [negb]; [|done]. destruct (evict_peer_and_remember_moved now v _ Hc1) as [Hc2 Hl2].
  split; [exact Hc2|]. split; [eapply core_le_trans; [exact Hl1|exact Hl2]|].
  rewrite (evict_and_remember_orders v now _ Hc1), (evict_and_remember_keeps v pidx now _ Hc1 Hne). done.
Qed.

Lemma replace_dynamic_route_moved now pidx address allow (c : @Core CR PM R) :
  core_inv c -> (orders c < u64_max)%Z -> is_Some (peer_at (pool c) pidx) ->
  moved now (replace_dynamic_route pidx address now allow) c.
Proof.
  intros Hc Ho Hp. destruct (reserve_route_spec now pidx allow c Hc) as (Hc1 & Hl1 & Ho1 & Hp1).
  unfold replace_dynamic_route. apply moved_bind; [by split|]. intros [] c1 E _. rewrite E in *. cbn [snd] in *.
  destruct (remove_routes_run pidx c1 Hc1) as (rc & Er & Hc2 & Hn). unfold moved. rewrite (bind_ok _ _ _ _ _ Er).
  apply (core_le_step now c1 (with_routes c1 rc)); [by apply core_le_same|].
  apply moved_bind; [apply add_route_moved; [done| |]|].
  - unfold orders. cbn. by rewrite Hn, <- Ho1 in *.
  - cbn. by rewrite Hp1.
  - intros [] c3 _ Hc3. unfold moved. rewrite bind_the_peer.
    destruct (peer_at (pool c3) pidx) as [e|] eqn:He; [|split; [done|apply core_le_refl]].
    apply edit_entry_moved; [done|by intros ?|intros e0 iv He0; apply (co_keepalive _ Hc3 pidx _ _ He0)|done].
Qed.

(** ** New peers *)

(** The entry of a newly admitted peer. *)
Definition new_entry (info : ResolvedPeer) (now : Instant) (shared : list Z) : PeerEntry :=
  peer_new (rp_public_key info) Dynamic shared (rp_endpoint info) (rp_relay info) (rp_inbound_policy info)
    (rp_persistent_keepalive info) (rp_address info) now.

Lemma new_dynamic_peer_run info now (c : @Core CR PM R) :
  new_dynamic_peer info now c = (new_entry info now <$> dh (s_priv (keys c)) (rp_public_key info), c).
Proof. unfold new_dynamic_peer. rewrite bind_gets, bind_lift. by destruct (dh _ _). Qed.

(** [c'] is [c] after an admission that answered [r]. *)
Record settled (now : Instant) (info : ResolvedPeer) (r : Result PeerIdx) (c c' : @Core CR PM R) : Prop := {
  se_inv : core_inv c';
  se_le : core_le now c c';
  se_orders : orders c' = orders c;
  se_peer i : r = Ok i -> exists shared, peer_at (pool c') i = Some (new_entry info now shared);
}.

Lemma settled_failed now info e c : core_inv c -> settled now info (Failed e) c c.
Proof. intros Hc. by split; [|apply core_le_refl| |]. Qed.

Lemma settled_after now info r c c1 c' :
  core_le now c c1 -> orders c1 = orders c -> settled now info r c1 c' -> settled now info r c c'.
Proof. intros Hl Ho [H1 H2 H3 H4]. split; [done| |congruence|done]. by eapply core_le_trans. Qed.

(** Installing a new entry, configured or resolved. *)
Lemma install_entry_spec now i k kd shared ep rl pol ka addr (c : @Core CR PM R) :
  core_inv c -> length k = 32 -> (forall iv, ka = Some iv -> (0 <= iv)%Z) ->
  let e := peer_new k kd shared ep rl pol ka addr now in
  (on_pool (install_peer MAX_PEERS i e) c = (Failed InternalInvariant, c) /\
     ~ (peers (pool c) !! i = Some None /\ find_peer (pool c) k = None)) \/
  (on_pool (install_peer MAX_PEERS i e) c = (Ok tt, with_pool c (installed i e (pool c))) /\
   peers (pool c) !! i = Some None /\ find_peer (pool c) k = None /\
   core_inv (with_pool c (installed i e (pool c))) /\ core_le now c (with_pool c (installed i e (pool c))) /\
   forall j, peer_at (installed i e (pool c)) j = if decide (j = i) then Some e else peer_at (pool c) j).
Proof.
  intros Hc Hlen Hiv e. pose proof (co_pool _ Hc) as Hp. unfold on_pool, zoom.
  rewrite (install_peer_run _ _ _ _ _ e Hp). change (public_key e) with k.
  assert (Hsame : with_pool c (pool c) = c) by (by destruct c).
  destruct (peers (pool c) !! i) as [[x|]|] eqn:Ei; [left; rewrite Hsame; naive_solver| |left; rewrite Hsame; naive_solver].
  destruct (find_peer (pool c) k) as [j|] eqn:Ek; [left; rewrite Hsame; naive_solver|]. right.
  assert (Hlt : i < length (peers (pool c))) by (by eapply lookup_lt_Some).
  assert (Hat : forall j, peer_at (installed i e (pool c)) j = if decide (j = i) then Some e else peer_at (pool c) j)
    by (intros j; by apply peer_at_set).
  assert (Hka : persistent_keepalive e = nonzero ka) by (unfold e, peer_new, nonzero; cbn; by case_match).
  assert (Hpos : forall iv, nonzero ka = Some iv -> (1 <= iv)%Z).
  { intros iv. unfold nonzero. destruct ka as [x|]; [|done]. destruct (Z.eqb_spec x 0); [done|]. intros [= <-].
    specialize (Hiv x eq_refl). lia. }
  split_and!; try done.
  - destruct Hc as [_ Hs Hk Hkp Hr Ho Hrt Hrs Hcf Hsc Hrl]. split; try done.
    + by apply installed_inv.
    + intros k' j. cbn. intros [[<- _]|[_ H]]%lookup_insert_Some; [done|by eapply Hk].
    + intros j x iv. cbn [pool with_pool]. rewrite Hat. case_decide; [|apply Hkp]. intros [= <-]. rewrite Hka. apply Hpos.
    + intros x Hx. cbn [pool with_pool]. rewrite Hat. case_decide; [done|by apply Hrt].
  - apply core_le_pool; [done..|]. unfold pool_adv.
    assert (Hlive : pool_live (installed i e (pool c)) ⊆+ option_list (persistent_keepalive_due (sessions e)) ++ pool_live (pool c)).
    { unfold pool_live. cbn [peers slots installed]. rewrite app_assoc. apply submseteq_skips_r.
      apply (bind_insert peer_deadlines _ _ None (Some e)); [done|]. unfold e. cbn.
      by destruct (instant_add now <$> _). }
    cbn [pool with_pool timers installed]. destruct (persistent_keepalive_due (sessions e)) as [d|] eqn:Ed.
    + apply adv_arm; [exact Hlive|]. assert (Ed' : instant_add now <$> nonzero ka = Some d) by (rewrite <- Hka; exact Ed).
      apply fmap_Some in Ed' as (iv & Hiv' & ->). by apply instant_add_mono, Hpos.
    + by apply adv_drop.
Qed.

Lemma install_new_settled now info shared i (c : @Core CR PM R) :
  core_inv c -> answer_wf info ->
  let '(r, c') := (_ ← on_pool (install_peer MAX_PEERS i (new_entry info now shared)); mret i : Run PeerIdx) c in
  settled now info r c c'.
Proof.
  intros Hc [Hlen Hka]. rewrite bind_run.
  destruct (install_entry_spec now i _ Dynamic shared (rp_endpoint info) (rp_relay info) (rp_inbound_policy info) _
              (rp_address info) c Hc Hlen Hka) as [[E _]|(E & _ & _ & Hi & Hl & Hat)];
    unfold new_entry; rewrite E; [by apply settled_failed|].
  split; [done|done|done|]. intros j [= <-]. exists shared. cbn [pool with_pool]. by rewrite Hat, decide_True.
Qed.

Lemma place_new_peer_settled now info admission (c : @Core CR PM R) :
  core_inv c -> answer_wf info ->
  let '(r, c') := place_new_peer info now admission c in settled now info r c c'.
Proof.
  intros Hc Hwf. unfold place_new_peer. rewrite !bind_gets.
  destruct (if _ || _ then _ else None) as [i|].
  - rewrite bind_run, new_dynamic_peer_run. destruct (dh _ _) as [shared|e]; [|by apply settled_failed].
    by apply install_new_settled.
  - destruct (bool_decide (admission = HeldUpdate)); [by apply settled_failed|].
    destruct (bool_decide (admission = LazyRelay)); [by apply settled_failed|]. rewrite bind_gets.
    destruct (capacity_victim_excluding _ _ _ _ _) as [i|]; [|by apply settled_failed].
    rewrite bind_run, new_dynamic_peer_run. destruct (dh _ _) as [shared|e]; [|by apply settled_failed].
    destruct (evict_peer_for_capacity_moves now i c Hc) as [Hc2 Hl2].
    pose proof (evict_for_capacity_orders i now c Hc) as Ho2. cbn [fmap result_fmap]. rewrite bind_run.
    destruct (evict_peer_for_capacity i now c) as [[[]|e] c2]; cbn [snd] in *.
    2: { eapply settled_after; [exact Hl2|exact Ho2|]. by apply settled_failed. }
    pose proof (install_new_settled now info shared i c2 Hc2 Hwf) as H.
    match goal with |- let '(_, _) := ?m in _ => destruct m as [r c3] end.
    eapply settled_after; [exact Hl2|exact Ho2|exact H].
Qed.

(** ** Upserts *)

Lemma refresh_peer_orders pidx info now (c : @Core CR PM R) : orders (snd (refresh_peer pidx info now c)) = orders c.
Proof.
  assert (H : same (fun c : @Core CR PM R => routes c) (refresh_peer pidx info now)) by (unfold refresh_peer; aloof_tac).
  unfold orders. by rewrite (same_run _ _ c H).
Qed.

Lemma refresh_peer_present pidx info now (c c' : @Core CR PM R) b :
  refresh_peer pidx info now c = (Ok b, c') -> is_Some (peer_at (pool c') pidx).
Proof.
  unfold refresh_peer. rewrite bind_the_peer. destruct (peer_at (pool c) pidx) as [e|] eqn:He; [|done].
  rewrite bind_edit_peer. set (c1 := with_pool c _).
  assert (Hat : peer_at (pool c1) pidx = Some (replaced_entry info now e)).
  { unfold c1. cbn [pool with_pool]. by rewrite peer_at_update, He, decide_True. }
  intros H. exists (replaced_entry info now e). rewrite <- Hat.
  destruct (replaced_due info now e); [rewrite bind_arm_timer in H|rewrite bind_ret in H].
  all: destruct (bool_decide (inbound_policy e = _)); [rewrite bind_ret in H|rewrite bind_modify in H]; by injection H as _ <-.
Qed.

Lemma upsert_peer_spec now info admission (c : @Core CR PM R) :
  core_inv c -> answer_wf info ->
  let '(r, c') := upsert_peer_unchecked info now admission c in
  core_inv c' /\ core_le now c c' /\ orders c' = orders c /\
  forall i changed fresh, r = Ok (i, changed, fresh) -> is_Some (peer_at (pool c') i).
Proof.
  intros Hc Hwf. unfold upsert_peer_unchecked. rewrite bind_gets.
  destruct (find_peer (pool c) (rp_public_key info)) as [pidx|].
  - destruct (refresh_peer_moved now pidx info c Hc Hwf) as [Hi Hl]. pose proof (refresh_peer_orders pidx info now c) as Ho.
    pose proof (refresh_peer_present pidx info now c) as Hp. rewrite bind_run.
    destruct (refresh_peer pidx info now c) as [[b|e] c1]; cbn [snd] in *; [|done].
    split; [exact Hi|]. split; [exact Hl|]. split; [exact Ho|]. intros i ? ? [= <- _ _]. by eapply Hp.
  - rewrite bind_run. destruct (peer_is_ghosted_moves now (rp_public_key info) c Hc) as [Hc1 Hl1]. unfold on_resolver in *.
    destruct (peer_is_ghosted _ _ _) as [g r]. cbn [snd] in *. destruct g; [done|].
    pose proof (place_new_peer_settled now info admission _ Hc1 Hwf) as H. rewrite bind_run.
    destruct (place_new_peer _ _ _ _) as [[i|e] c2]; destruct H as [H1 H2 H3 H4]; (split; [exact H1|]);
      (split; [eapply core_le_trans; [exact Hl1|exact H2]|]); (split; [exact H3|]); [|done].
    intros j ? ? [= <- _ _]. destruct (H4 i eq_refl) as [sh ->]. done.
Qed.

Lemma commit_existing_moved now pidx info admission allow (c : @Core CR PM R) :
  core_inv c -> answer_wf info -> (orders c < u64_max)%Z ->
  moved now (commit_existing_resolved_peer pidx info now admission allow) c.
Proof.
  intros Hc Hwf Ho. unfold moved, commit_existing_resolved_peer. rewrite bind_the_peer.
  destruct (peer_at (pool c) pidx) as [e|] eqn:He; [|split; [done|apply core_le_refl]].
  apply moved_bind.
  - destruct (bool_decide _); [by apply moved_here|]. apply replace_dynamic_route_moved; [done..|]. by rewrite He.
  - intros [] c1 _ Hc1. pose proof (upsert_peer_spec now info admission c1 Hc1 Hwf) as H. unfold moved. rewrite bind_run.
    destruct (upsert_peer_unchecked _ _ _ _) as [[[[i ch] fresh]|e'] c2]; destruct H as (Hi & Hl & _); [|done].
    by destruct (negb _ || _).
Qed.

End Upsert.
