(* ===== verification/Answers.v ===== *)
(** * Applying resolver completions, and the entry points for packets
    ([resolved], [peer_updated] and [resolver_event_completed] of
    [microtun-core/src/resolver.rs]; [outbound], [send_inner] and [receive_outer] of
    [microtun-core/src/lib.rs]) *)

From S2P Require Import Prelude Clock Constants Ip Messages Effect Cidr Rate.
From S2P Require Import Firewall Routing Crypto Noise Session SessionIndex Pending Peer.
From S2P Require Import Pool Deadlines Resolve Core Demo Handshake Transport Frame.
From S2P Require Import Resolver Respond Receive Aloof Evict Upsert.
Local Open Scope nat_scope.

Section Answers.
Context {SZ : Sizes} {CR : Cidr} {PM : PrefixMap nat} {PRM : Prims} {R : Type} {RG : RngCore R}.
Context {CL : CidrLaws} {ML : PrefixMapLaws (V:=nat) MAX_ROUTES} {PL : PrimLaws}.
Notation Run := (Eff (@Core CR PM R)).

(** ** The outbound path *)

Definition outbound (now : Instant) (packet : list Z) : Run unit :=
  _ ← guard (fun _ => MAX_INNER_SIZE <? length packet) PacketTooLarge;
  header ← lift (ok_or (parse_header packet) MalformedIpPacket);
  found ← on_routes (fun rc => let '(peer, rc) := rc_lookup rc (Ip.dst header) now in (Ok peer, rc));
  match found with
  | Some pidx => send_to_peer pidx packet now
  | None => queue_outbound_resolution (Ip.dst header) packet now
  end.

(** ** Held records *)

Definition apply_held_answer (now : Instant) (key : list Z) (outcome : ResolveOutcome) : Run unit :=
  found ← gets (fun c => find_peer (pool c) key);
  match found with
  | None => edit_resolver (fun r => forget_reconcile r key)
  | Some pidx =>
      entry ← gets (fun c => peer_at (pool c) pidx);
      let is_dynamic := match entry with
                        | Some peer => negb (is_pinned peer) && bool_decide (public_key peer = key)
                        | None => false
                        end in
      if negb is_dynamic then edit_resolver (fun r => forget_reconcile r key) else
      match outcome with
      | Found info =>
          checked ← gets (fun c => canonicalize_resolved_answer c (ByPublicKey key) info);
          match checked with
          | Failed _ => queue_reconcile key now
          | Ok info =>
              committed ← attempt (commit_held_update pidx info now);
              if negb (is_ok committed) then queue_reconcile key now else
              _ ← edit_resolver (fun r => forget_reconcile r key);
              edit_resolver (fun r => clear_negative r (ByPublicKey key))
          end
      | NotFound =>
          _ ← edit_resolver (fun r => forget_reconcile r key);
          _ ← evict_peer pidx;
          mark_negative (ByPublicKey key) now
      | ResolveFailed => queue_reconcile key now
      end
  end.

Definition peer_updated (now : Instant) (update : PeerUpdate) : Run unit :=
  apply_held_answer now (pu_public_key update) (pu_outcome update).

(** ** Installing the record of an answer *)

(** What became of it: the peer holding it and whether that peer is new; refused for
    want of a route; refused for want of a place. *)
Inductive Placed :=
| Held (pidx : PeerIdx) (installed_new : bool)
| NoRoute
| NoPlace.

Definition install_answer (info : ResolvedPeer) (now : Instant) (admission : PeerAdmission) (allow_peer_eviction : bool)
  : Run Placed :=
  found ← gets (fun c => find_peer (pool c) (rp_public_key info));
  match found with
  | Some pidx =>
      committed ← attempt (commit_existing_resolved_peer pidx info now admission allow_peer_eviction);
      match committed with
      | Ok _ => mret (Held pidx false)
      | Failed RouteCacheFull | Failed PeerAdmissionLimited => mret NoRoute
      | Failed error => throw error
      end
  | None =>
      placed ← attempt (upsert_peer_unchecked info now admission);
      match placed with
      | Ok (pidx, routes_changed, installed_new) =>
          routed ← (if routes_changed : bool
                    then attempt (replace_dynamic_route pidx (rp_address info) now allow_peer_eviction) else mret (Ok tt));
          if is_ok routed then mret (Held pidx installed_new) else
          _ ← (if installed_new : bool then evict_peer pidx else mret tt);
          mret NoRoute
      | Failed PeerTableFull | Failed PeerAdmissionLimited =>
          _ ← edit_resolver (fun r => discard_answer MAX_PEERS r (rp_public_key info));
          mret NoPlace
      | Failed error => throw error
      end
  end.

Definition resolved_install (now : Instant) (entry : InflightResolve) (source : InstallSource) (outcome : ResolveOutcome)
  : Run unit :=
  match ir_query entry with
  | ByDstAddress _ => mret tt
  | ByPublicKey expected_key =>
      parked ← match source with
               | AuthenticatedInitiatorInstall => on_resolver (fun r => take_pending_initiation r (ir_id entry))
               | RelayInstall => mret None
               end;
      match outcome with
      | Found info =>
          checked ← gets (fun c => canonicalize_resolved_answer c (ir_query entry) info);
          match checked with
          | Failed _ => edit_resolver (fun r => discard_answer MAX_PEERS r (rp_public_key info))
          | Ok info =>
              let admission := match source with
                               | AuthenticatedInitiatorInstall => AuthenticatedInitiator
                               | RelayInstall => LazyRelay
                               end in
              placed ← install_answer info now admission (negb (bool_decide (source = RelayInstall)));
              match placed with
              | NoRoute | NoPlace => mret tt
              | Held pidx _ =>
                  _ ← edit_resolver (fun r => clear_negative r (ir_query entry));
                  match parked with
                  | None => mret tt
                  | Some p =>
                      if negb (bool_decide (ci_s_pub_i (pi_consumed p) = expected_key)) ||
                         negb (bool_decide (rp_public_key info = expected_key))
                      then mret tt
                      else accept_authenticated_initiation pidx (pi_consumed p) (pi_src p) now
                  end
              end
          end
      | NotFound => mark_negative (ir_query entry) now
      | ResolveFailed => mret tt
      end
  end.

(** ** Answers by address *)

Definition awaits_resolve (id : ResolveId) (p : PendingPacket) : bool := bool_decide (pp_wait p = WaitResolve id).

(** The loop that sends what waited for the answer; every round empties one place of
    the parking pool, whose size is fuel enough. *)
Fixpoint flush_resolved (fuel : nat) (id : ResolveId) (now : Instant) : Run unit :=
  match fuel with
  | O => mret tt
  | S fuel =>
      taken ← gets (fun c => take_if (pending c) (awaits_resolve id));
      match taken with
      | (None, _) => mret tt
      | (Some p, rest) =>
          _ ← modify (fun c => with_pending c rest);
          _ ← ignore (outbound now (pp_packet p));
          flush_resolved fuel id now
      end
  end.

Definition resolved_outbound (now : Instant) (entry : InflightResolve) (outcome : ResolveOutcome) : Run unit :=
  match ir_query entry with
  | ByPublicKey _ => mret tt
  | ByDstAddress address =>
      let drop := drop_parked (ir_id entry) in
      match outcome with
      | Found info =>
          let discard := edit_resolver (fun r => discard_answer MAX_PEERS r (rp_public_key info)) in
          if negb (contains (rp_address info) address) then _ ← discard; drop else
          checked ← gets (fun c => canonicalize_resolved_answer c (ir_query entry) info);
          match checked with
          | Failed _ => _ ← discard; drop
          | Ok info =>
              placed ← install_answer info now LazyOutbound true;
              match placed with
              | NoPlace => drop
              | NoRoute => _ ← mark_negative (ir_query entry) now; drop
              | Held pidx installed_new =>
                  owner ← gets (fun c => lookup_readonly (routes c) address);
                  if bool_decide (owner = None) then
                    _ ← (if installed_new : bool then evict_peer pidx else mret tt);
                    _ ← mark_negative (ir_query entry) now;
                    drop
                  else
                    _ ← edit_resolver (fun r => clear_negative r (ir_query entry));
                    n ← gets (fun c => length (pending c));
                    flush_resolved (S n) (ir_id entry) now
              end
          end
      | NotFound => _ ← mark_negative (ir_query entry) now; drop
      | ResolveFailed => drop
      end
  end.

Definition resolved (now : Instant) (response : ResolveResponse) : Run unit :=
  found ← gets (fun c =>
    pos ← position (fun e => ir_id e =? rs_id response)%Z (resolves (resolver c));
    e ← resolves (resolver c) !! pos; Some (pos, e));
  match found with
  | None => mret tt
  | Some (pos, entry) =>
      _ ← edit_resolver (fun r => with_resolves r (swap_remove pos (resolves r)));
      match ir_kind entry with
      | OutboundResolve => resolved_outbound now entry (rs_outcome response)
      | Install source => resolved_install now entry source (rs_outcome response)
      | Reconcile =>
          match ir_query entry with
          | ByPublicKey key => apply_held_answer now key (rs_outcome response)
          | ByDstAddress _ => mret tt
          end
      | Negative => mret tt
      end
  end.

(** ** Entry points *)

Context (accepts : list Output -> ResolveRequest -> bool).

(** Runs a stimulus, then delivers the control output whatever it answered. *)
Definition then_flush {A} (m : Run A) : Run A :=
  result ← attempt m;
  _ ← flush_sink_output accepts;
  lift result.

Definition resolver_event_completed (now : Instant) (event : ResolverEvent) : Run unit :=
  then_flush (match event with
              | Resolved response => resolved now response
              | PeerUpdated update => peer_updated now update
              end).

Definition send_inner (now : Instant) (packet : list Z) : Run unit := then_flush (outbound now packet).

Definition receive_outer (now : Instant) (source : SocketAddr) (data : list Z) : Run unit :=
  let source := unmap_socket_addr source in
  then_flush (if MAX_UDP_SIZE <? length data then throw PacketTooLarge else datagram now source data).

(** ** What they keep *)

(** From [c], [m] keeps the invariant, covers the deadlines it adds and installs at
    most [n] routes. *)
Definition grows (n : Z) {A} (now : Instant) (m : Run A) (c : @Core CR PM R) : Prop :=
  moved now m c /\ (orders (snd (m c)) <= orders c + n)%Z.
Definition calm {A} (now : Instant) (m : Run A) : Prop := forall c, core_inv c -> grows 0 now m c.

#[local] Instance orders_aloof : Aloof (@orders CR PM R).
Proof. by split. Qed.

Lemma calm_of {A} now (m : Run A) : moves now m -> same orders m -> calm now m.
Proof. intros Hm Hs c Hc. split; [by apply Hm|]. rewrite (same_run _ _ c Hs). lia. Qed.

Lemma calm_then {A B} n now (m : Run A) (k : A -> Run B) c :
  calm now m -> core_inv c -> (0 <= n)%Z ->
  (forall a c', m c = (Ok a, c') -> core_inv c' -> (orders c' <= orders c)%Z -> grows n now (k a) c') ->
  grows n now (m ≫= k) c.
Proof.
  intros Hm Hc Hn Hk. destruct (Hm c Hc) as [[Hi Hl] Ho]. unfold grows, moved. rewrite bind_run.
  destruct (m c) as [[a|e] c']; cbn [snd] in *; [|by split; [|lia]].
  destruct (Hk a c' eq_refl Hi) as [[Hi' Hl'] Ho']; [lia|]. split; [|lia]. split; [exact Hi'|]. eapply core_le_trans; [exact Hl|exact Hl'].
Qed.

Lemma then_calm {A B} n now (m : Run A) (k : A -> Run B) c :
  grows n now m c -> (forall a, calm now (k a)) -> (0 <= n)%Z -> grows n now (m ≫= k) c.
Proof.
  intros [[Hi Hl] Ho] Hk Hn. unfold grows, moved. rewrite bind_run.
  destruct (m c) as [[a|e] c']; cbn [snd] in *; [|done].
  destruct (Hk a c' Hi) as [[Hi' Hl'] Ho']. split; [|lia]. split; [exact Hi'|]. eapply core_le_trans; [exact Hl|exact Hl'].
Qed.

Lemma calm_bind {A B} now (m : Run A) (k : A -> Run B) : calm now m -> (forall a, calm now (k a)) -> calm now (m ≫= k).
Proof. intros Hm Hk c Hc. apply then_calm; [by apply Hm|done|lia]. Qed.
Lemma calm_pure {A} now (f : @Core CR PM R -> Result A) : calm now (fun c => (f c, c)).
Proof. apply calm_of; [apply moves_pure|apply same_pure]. Qed.
Lemma calm_mret {A} now (a : A) : calm now (mret a).
Proof. apply (calm_pure now (fun _ => Ok a)). Qed.
Lemma calm_throw {A} now e : calm now (@throw _ A e).
Proof. apply (calm_pure now (fun _ => Failed e)). Qed.
Lemma calm_gets {A} now (f : @Core CR PM R -> A) : calm now (gets f).
Proof. apply (calm_pure now (fun c => Ok (f c))). Qed.
Lemma calm_if {A} now (b : bool) (m m' : Run A) : calm now m -> calm now m' -> calm now (if b then m else m').
Proof. by destruct b. Qed.
Lemma calm_ignore {A} now (m : Run A) : calm now m -> calm now (ignore m).
Proof. intros H c Hc. exact (H c Hc). Qed.
Lemma grows_attempt {A} n now (m : Run A) c : grows n now m c -> grows n now (attempt m) c.
Proof. intros H. unfold grows, moved, attempt in *. by destruct (m c). Qed.
Lemma calm_attempt {A} now (m : Run A) : calm now m -> calm now (attempt m).
Proof. intros H c Hc. by apply grows_attempt, H. Qed.
Lemma grows_calm {A} n now (m : Run A) c : calm now m -> core_inv c -> (0 <= n)%Z -> grows n now m c.
Proof. intros H Hc Hn. destruct (H c Hc) as [Hm Ho]. split; [done|lia]. Qed.

(** Edits of the resolver's share that only drop entries or note something. *)
Definition trims (f : Resolver -> Resolver) : Prop :=
  forall r n, resolver_inv n r -> resolver_inv n (f r) /\ core_config (f r) = core_config r /\ res_live (f r) ⊆+ res_live r.

Lemma trim_calm now f : trims f -> calm now (@edit_resolver CR PM R f).
Proof.
  intros Hf. apply calm_of; [|unfold edit_resolver; aloof_tac]. intros c Hc.
  destruct (Hf _ _ (co_resolver _ Hc)) as (H1 & H2 & H3). by apply (resolver_moved now c).
Qed.

Lemma forget_trims key : trims (fun r => forget_reconcile r key).
Proof.
  intros r n Hr. unfold forget_reconcile. set (ps := retain _ _).
  assert (Hs : ps ⊆+ pending_reconciles r) by (apply sublist_submseteq, retain_sublist). split_and!; [|done|].
  - apply resolver_inv_reconciles; [done| |].
    + apply submseteq_length in Hs. pose proof (ri_backlog _ _ Hr). lia.
    + eapply submseteq_NoDup; [by apply fmap_submseteq|apply Hr].
  - unfold res_live. cbn. by apply submseteq_skips_l, fmap_submseteq.
Qed.

Lemma clear_negative_trims query : trims (fun r => clear_negative r query).
Proof.
  intros r n Hr. assert (Hs : resolves (clear_negative r query) ⊆+ resolves r) by apply sublist_submseteq, retain_sublist.
  split_and!; [by apply resolver_inv_drop|done|by apply res_live_drop].
Qed.

Lemma discard_trims key : trims (fun r => discard_answer MAX_PEERS r key).
Proof.
  intros r n Hr. unfold discard_answer. destruct (queue_evicted_rest MAX_PEERS r key) as (E1 & E2 & E3).
  split_and!; [by apply queue_evicted_inv|done|]. unfold res_live. by rewrite E2, E3.
Qed.

Lemma forget_calm now key : calm now (@edit_resolver CR PM R (fun r => forget_reconcile r key)).
Proof. apply trim_calm, forget_trims. Qed.
Lemma clear_negative_calm now query : calm now (@edit_resolver CR PM R (fun r => clear_negative r query)).
Proof. apply trim_calm, clear_negative_trims. Qed.
Lemma discard_calm now key : calm now (@edit_resolver CR PM R (fun r => discard_answer MAX_PEERS r key)).
Proof. apply trim_calm, discard_trims. Qed.
Lemma queue_reconcile_calm now key : calm now (queue_reconcile key now).
Proof. apply calm_of; [apply queue_reconcile_moves|eauto with same typeclass_instances]. Qed.
Lemma mark_negative_calm now query : calm now (mark_negative query now).
Proof. apply calm_of; [apply mark_negative_moves|eauto with same typeclass_instances]. Qed.
Lemma drop_parked_calm now id : calm now (drop_parked id).
Proof. apply calm_of; [apply drop_parked_moves|unfold drop_parked; aloof_tac]. Qed.
Lemma accept_calm pidx consumed src now : calm now (accept_authenticated_initiation pidx consumed src now).
Proof. apply calm_of; [apply accept_authenticated_initiation_moves|eauto with same typeclass_instances]. Qed.
Lemma evict_peer_calm now pidx : calm now (evict_peer pidx).
Proof. intros c Hc. split; [by apply evict_peer_moved|]. rewrite evict_peer_orders by done. lia. Qed.

#[local] Hint Resolve calm_mret calm_throw calm_gets calm_if calm_ignore calm_attempt forget_calm clear_negative_calm
  discard_calm queue_reconcile_calm mark_negative_calm drop_parked_calm accept_calm evict_peer_calm : calm.

Ltac calm_step :=
  lazymatch goal with
  | |- forall _, _ => intro
  | |- calm _ (match ?x with _ => _ end) => destruct x
  | |- calm _ (@mbind _ _ _ _ _ _) => apply calm_bind
  | |- _ => solve [eauto 2 with calm]
  end.
Ltac calm_tac := repeat calm_step.

(** ** Answers *)

Lemma replace_dynamic_route_grows now pidx address allow (c : @Core CR PM R) :
  core_inv c -> (orders c < u64_max)%Z -> is_Some (peer_at (pool c) pidx) ->
  grows 1 now (replace_dynamic_route pidx address now allow) c.
Proof.
  intros Hc Ho Hp. split; [by apply replace_dynamic_route_moved|].
  destruct (reserve_route_spec now pidx allow c Hc) as (Hc1 & _ & Ho1 & _).
  unfold replace_dynamic_route. rewrite bind_run. destruct (reserve_route pidx now allow c) as [[[]|e] c1]; cbn [snd] in *; [|lia].
  destruct (remove_routes_run pidx c1 Hc1) as (rc & Er & Hc2 & Hn). rewrite (bind_ok _ _ _ _ _ Er).
  assert (Hlt : (rc_next rc < u64_max)%Z) by (unfold orders in *; lia).
  pose proof (rc_insert_spec MAX_ROUTES rc address pidx false now (co_routes _ Hc2) Hlt (co_orders _ Hc2)) as H.
  rewrite bind_run. unfold on_routes. cbn [routes with_routes]. destruct (rc_insert rc address pidx false now) as [r rc'].
  assert (Hle : (rc_next rc' <= rc_next rc + 1)%Z).
  { destruct H as [_ [(? & ? & _ & _ & _ & _ & ->)|[(_ & -> & _)|(_ & _ & ? & _ & _ & ->)]]]; cbn [rc_next set_slot]; lia. }
  unfold orders in *. destruct r as [[]|e]; cbn [snd routes with_routes]; [|lia].
  rewrite bind_the_peer. destruct (peer_at (pool (with_routes (with_routes c1 rc) rc')) pidx); unfold edit_peer, modify; cbn [snd routes with_routes with_pool]; lia.
Qed.

Lemma upsert_peer_calm now info admission : answer_wf info -> calm now (upsert_peer_unchecked info now admission).
Proof.
  intros Hwf c Hc. pose proof (upsert_peer_spec now info admission c Hc Hwf) as H. unfold grows, moved.
  destruct (upsert_peer_unchecked _ _ _ _) as [r c']. destruct H as (H1 & H2 & H3 & _). cbn [snd]. split; [done|lia].
Qed.

Lemma commit_existing_grows now pidx info admission allow (c : @Core CR PM R) :
  core_inv c -> answer_wf info -> (orders c < u64_max)%Z ->
  grows 1 now (commit_existing_resolved_peer pidx info now admission allow) c.
Proof.
  intros Hc Hwf Ho. unfold commit_existing_resolved_peer, grows, moved. rewrite bind_the_peer.
  destruct (peer_at (pool c) pidx) as [e|] eqn:He; [|by split; [split; [done|apply core_le_refl]|cbn; lia]].
  apply (then_calm 1 now); [| |lia].
  - destruct (bool_decide _); [by apply grows_calm; [apply calm_mret| |lia]|].
    apply replace_dynamic_route_grows; [done..|]. by rewrite He.
  - intros _. apply calm_bind; [by apply upsert_peer_calm|]. intros [[i ch] fresh]. destruct (negb _ || _); eauto with calm.
Qed.

Lemma canonicalize_wf (c : @Core CR PM R) query info info' :
  answer_wf info -> canonicalize_resolved_answer c query info = Ok info' -> answer_wf info'.
Proof.
  unfold canonicalize_resolved_answer. intros Hwf. destruct (check_resolved_answer _ _ _); cbn; [|done]. by intros [= <-].
Qed.

Definition outcome_wf (outcome : ResolveOutcome) : Prop := match outcome with Found info => answer_wf info | _ => True end.

Lemma apply_held_answer_grows now key outcome (c : @Core CR PM R) :
  core_inv c -> outcome_wf outcome -> (orders c < u64_max)%Z -> grows 1 now (apply_held_answer now key outcome) c.
Proof.
  intros Hc Hwf Ho. unfold apply_held_answer, grows, moved. rewrite bind_gets.
  destruct (find_peer (pool c) key) as [pidx|]; [|apply (grows_calm 1 now); [eauto with calm|done|lia]]. rewrite bind_gets.
  destruct (negb _); [apply (grows_calm 1 now); [eauto with calm|done|lia]|].
  destruct outcome as [info| |]; [|apply (grows_calm 1 now); [calm_tac|done|lia]..]. rewrite bind_gets.
  destruct (canonicalize_resolved_answer c (ByPublicKey key) info) as [info'|e] eqn:Ec;
    [|apply (grows_calm 1 now); [calm_tac|done|lia]].
  apply (then_calm 1 now); [|calm_tac|lia]. apply grows_attempt, commit_existing_grows; [done| |done].
  by eapply canonicalize_wf.
Qed.

Lemma install_answer_grows now info admission allow (c : @Core CR PM R) :
  core_inv c -> answer_wf info -> (orders c < u64_max)%Z -> grows 1 now (install_answer info now admission allow) c.
Proof.
  intros Hc Hwf Ho. unfold install_answer, grows, moved. rewrite bind_gets.
  destruct (find_peer (pool c) (rp_public_key info)) as [pidx|].
  - apply (then_calm 1 now); [by apply grows_attempt, commit_existing_grows|calm_tac|lia].
  - pose proof (upsert_peer_spec now info admission c Hc Hwf) as Hu.
    apply (calm_then 1 now); [by apply calm_attempt, upsert_peer_calm|done|lia|]. intros placed c1 E Hc1 Ho1.
    unfold attempt in E. destruct (upsert_peer_unchecked info now admission c) as [r c1']. injection E as -> ->.
    destruct Hu as (_ & _ & _ & Hp).
    destruct placed as [[[pidx ch] fresh]|[]]; try (apply grows_calm; [solve [calm_tac]|done|lia]).
    apply then_calm; [|calm_tac|lia]. destruct ch; [|apply grows_calm; [calm_tac|done|lia]].
    apply grows_attempt, replace_dynamic_route_grows; [done|lia|]. by eapply Hp.
Qed.

(** ** The outbound path *)

(** A lookup of the send path refreshes one stamp. *)
Lemma lookup_routes rc ip now :
  rc_next (snd (rc_lookup rc ip now)) = rc_next rc /\
  forall e, e ∈ Routing.routes (snd (rc_lookup rc ip now)) -> exists e', e' ∈ Routing.routes rc /\ re_peer e' = re_peer e.
Proof.
  unfold rc_lookup. destruct (best_match rc ip) as [i|]; [|split; [done|eauto]].
  destruct (rc_entries rc !! i) as [[e|]|] eqn:He; [|split; [done|eauto]..]. split; [done|].
  intros x. rewrite elem_of_routes. cbn [snd rc_entries set_slot]. intros [j Hj]%list_elem_of_lookup.
  apply list_lookup_insert_Some in Hj as [(_ & [= <-] & _)|[_ Hj]].
  - exists e. split; [|done]. apply elem_of_routes, list_elem_of_lookup. eauto.
  - exists x. split; [|done]. apply elem_of_routes, list_elem_of_lookup. eauto.
Qed.

Lemma lookup_calm now ip :
  calm now (on_routes (fun rc => let '(peer, rc) := rc_lookup rc ip now in (Ok peer, rc)) : Run (option PeerIdx)).
Proof.
  intros c Hc. pose proof (lookup_routes (routes c) ip now) as [Hn Hr].
  pose proof (rc_lookup_inv MAX_ROUTES (routes c) ip now (co_routes _ Hc)) as Hi. unfold grows, moved, on_routes.
  destruct (rc_lookup (routes c) ip now) as [peer rc]. cbn [snd] in *. unfold orders. cbn [routes with_routes].
  split; [|lia]. split; [|by apply core_le_same]. destruct Hc. split; try done; cbn [routes with_routes]; [by rewrite Hn|].
  intros e He. destruct (Hr e He) as (e' & He' & <-). by apply co_routed.
Qed.

Lemma outbound_calm now packet : calm now (outbound now packet).
Proof.
  apply calm_bind; [apply (calm_pure now (fun c => if MAX_INNER_SIZE <? length packet then Failed PacketTooLarge else Ok tt))|].
  intros _. apply calm_bind; [apply (calm_pure now (fun _ => ok_or (parse_header packet) MalformedIpPacket))|]. intros header.
  apply calm_bind; [apply lookup_calm|]. intros [pidx|].
  - apply calm_of; [apply send_to_peer_moves|eauto with same typeclass_instances].
  - apply calm_of; [apply queue_outbound_resolution_moves|eauto with same typeclass_instances].
Qed.

Lemma flush_resolved_calm fuel id now : calm now (flush_resolved fuel id now).
Proof.
  induction fuel as [|fuel IH]; [apply calm_mret|]. intros c Hc. cbn [flush_resolved]. unfold grows, moved. rewrite bind_gets.
  pose proof (take_if_shrinks (pending c) (awaits_resolve id)) as Hs.
  destruct (take_if (pending c) (awaits_resolve id)) as [[p|] rest]; [|by apply (calm_mret now tt)]. rewrite bind_modify.
  cbn [snd] in Hs. destruct (pending_shrinks now c rest Hc Hs) as [Hc1 Hl1]. set (c1 := with_pending c rest) in *.
  assert (H : calm now (_ ← ignore (outbound now (pp_packet p)); flush_resolved fuel id now)).
  { apply calm_bind; [apply calm_ignore, outbound_calm|done]. }
  destruct (H c1 Hc1) as [[Hi Hl] Ho]. split; [|exact Ho]. split; [exact Hi|]. eapply core_le_trans; [exact Hl1|exact Hl].
Qed.
#[local] Hint Resolve outbound_calm flush_resolved_calm : calm.

(** ** Completions *)

Lemma resolved_install_grows now entry source outcome (c : @Core CR PM R) :
  core_inv c -> outcome_wf outcome -> (orders c < u64_max)%Z -> grows 1 now (resolved_install now entry source outcome) c.
Proof.
  intros Hc Hwf Ho. unfold resolved_install. destruct (ir_query entry) as [key|]; [|apply grows_calm; [calm_tac|done|lia]].
  apply calm_then; [|done|lia|].
  { destruct source; [|eauto with calm]. apply calm_of; [|apply same_on_resolver; aloof_close]. intros c1 Hc1.
    destruct (drop_initiation_moves now (ir_id entry) c1 Hc1) as [Hi Hl]. unfold drop_pending_initiation, edit_resolver, modify in *.
    unfold on_resolver. by destruct (take_pending_initiation _ _). }
  intros parked c1 _ Hc1 Ho1. destruct outcome as [info| |]; [|apply grows_calm; [calm_tac|done|lia]..].
  unfold grows, moved. rewrite bind_gets.
  destruct (canonicalize_resolved_answer c1 _ info) as [info'|e] eqn:Ec; [|apply (grows_calm 1 now); [calm_tac|done|lia]].
  apply (then_calm 1 now); [|calm_tac|lia]. apply install_answer_grows; [done| |lia]. by eapply canonicalize_wf.
Qed.

Lemma resolved_outbound_grows now entry outcome (c : @Core CR PM R) :
  core_inv c -> outcome_wf outcome -> (orders c < u64_max)%Z -> grows 1 now (resolved_outbound now entry outcome) c.
Proof.
  intros Hc Hwf Ho. unfold resolved_outbound. destruct (ir_query entry) as [|address]; [apply grows_calm; [calm_tac|done|lia]|].
  cbv zeta. destruct outcome as [info| |]; [|apply grows_calm; [calm_tac|done|lia]..].
  destruct (negb (contains _ _)); [apply grows_calm; [calm_tac|done|lia]|].
  unfold grows, moved. rewrite bind_gets.
  destruct (canonicalize_resolved_answer c _ info) as [info'|e] eqn:Ec; [|apply (grows_calm 1 now); [calm_tac|done|lia]].
  apply (then_calm 1 now); [|calm_tac|lia]. apply install_answer_grows; [done| |lia]. by eapply canonicalize_wf.
Qed.

Definition event_wf (event : ResolverEvent) : Prop :=
  match event with Resolved response => outcome_wf (rs_outcome response) | PeerUpdated update => outcome_wf (pu_outcome update) end.

Lemma resolved_grows now response (c : @Core CR PM R) :
  core_inv c -> outcome_wf (rs_outcome response) -> (orders c < u64_max)%Z -> grows 1 now (resolved now response) c.
Proof.
  intros Hc Hwf Ho. unfold resolved, grows, moved. rewrite bind_gets.
  destruct (pos ← position _ _; _) as [[i e]|] eqn:Ef; [|apply (grows_calm 1 now); [calm_tac|done|lia]].
  apply found_some in Ef as [Hi _]. rewrite bind_edit_resolver.
  destruct (drop_entries_moved now c _ Hc (swap_remove_submseteq _ _ _ Hi)) as [Hc1 Hl1]. set (c1 := with_resolver c _) in *.
  assert (H : grows 1 now (match ir_kind e with
      | OutboundResolve => resolved_outbound now e (rs_outcome response)
      | Install source => resolved_install now e source (rs_outcome response)
      | Reconcile => match ir_query e with ByPublicKey key => apply_held_answer now key (rs_outcome response) | ByDstAddress _ => mret tt end
      | Negative => mret tt
      end) c1).
  { destruct (ir_kind e); [by apply resolved_outbound_grows|by apply resolved_install_grows|apply grows_calm; [calm_tac|done|lia]|].
    destruct (ir_query e); [by apply apply_held_answer_grows|apply grows_calm; [calm_tac|done|lia]]. }
  destruct H as [[Hi' Hl'] Ho']. split; [|exact Ho']. split; [exact Hi'|]. eapply core_le_trans; [exact Hl1|exact Hl'].
Qed.

(** ** Entry points *)

Lemma flush_sink_output_calm now : calm now (flush_sink_output accepts).
Proof.
  apply calm_of; [apply flush_sink_output_moves|].
  assert (H : forall n, same (@orders CR PM R) (flush_requests accepts n)).
  { induction n as [|n IH]; cbn [flush_requests]; unfold emit; same_tac; exact IH. }
  unfold flush_sink_output. same_tac.
Qed.

Lemma then_flush_grows {A} n now (m : Run A) (c : @Core CR PM R) :
  grows n now m c -> (0 <= n)%Z -> grows n now (then_flush m) c.
Proof.
  intros Hm Hn. apply then_calm; [by apply grows_attempt| |done]. intros result.
  apply calm_bind; [apply flush_sink_output_calm|]. intros _. apply (calm_pure now (fun _ => result)).
Qed.

Lemma resolver_event_grows now event (c : @Core CR PM R) :
  core_inv c -> event_wf event -> (orders c < u64_max)%Z -> grows 1 now (resolver_event_completed now event) c.
Proof.
  intros Hc Hwf Ho. apply then_flush_grows; [|lia]. destruct event; [by apply resolved_grows|by apply apply_held_answer_grows].
Qed.

Lemma send_inner_calm now packet : calm now (send_inner now packet).
Proof. intros c Hc. apply then_flush_grows; [by apply outbound_calm|lia]. Qed.

Lemma datagram_calm now src data : calm now (datagram now src data).
Proof.
  apply calm_of; [apply datagram_moves|]. unfold datagram. destruct (classify data) as [[]|]; aloof_tac.
  all: unfold rx_data, rx_deliver, admits; same_tac.
  all: try (eauto with same typeclass_instances).
  by apply same_modify.
Qed.

Lemma receive_outer_calm now src data : calm now (receive_outer now src data).
Proof.
  intros c Hc. apply then_flush_grows; [|lia]. destruct (_ <? _); [by apply calm_throw|by apply datagram_calm].
Qed.

End Answers.

#[export] Hint Resolve calm_mret calm_throw calm_gets calm_if calm_ignore calm_attempt forget_calm clear_negative_calm
  discard_calm queue_reconcile_calm mark_negative_calm drop_parked_calm accept_calm evict_peer_calm : calm.
