(* ===== verification/Timers.v ===== *)
(** * Timers ([poll_at], [scan_deadlines], [timeout] and [handle_timeout] of
    [microtun-core/src/lib.rs]) *)

From S2P Require Import Prelude Clock Constants Ip Messages Effect Cidr Rate.
From S2P Require Import Firewall Routing Crypto Noise Session SessionIndex Pending Peer.
From S2P Require Import Pool Deadlines Resolve Core Demo Handshake Transport Frame.
From S2P Require Import Resolver Respond Receive Aloof Evict Upsert Answers.
Local Open Scope nat_scope.

Section Timers.
Context {SZ : Sizes} {CR : Cidr} {PM : PrefixMap nat} {PRM : Prims} {R : Type} {RG : RngCore R}.
Context {CL : CidrLaws} {ML : PrefixMapLaws (V:=nat) MAX_ROUTES} {PL : PrimLaws}.
Notation Run := (Eff (@Core CR PM R)).

(** ** Deadlines *)

Definition poll_at (c : @Core CR PM R) : option Instant := tc_get (timers (pool c)).

Definition scan_peer (at' : option Instant) (entry : option PeerEntry) : option Instant :=
  match entry with
  | None => at'
  | Some p =>
      let at' := min_deadline at' (keepalive_due (sessions p)) in
      let at' := min_deadline at' (persistent_keepalive_due (sessions p)) in
      min_deadline at' (reply_due (sessions p))
  end.

Definition scan_slot (p : Pool) (at' : option Instant) (slot : Slot) : option Instant :=
  match slot with
  | InitiatingSlot hs =>
      let at' := min_deadline at' (Some (retry_at hs)) in
      match peer_at p (hs_peer hs) with
      | Some peer => min_deadline at' (attempt_deadline (sessions peer))
      | None => at'
      end
  | Established s => min_deadline at' (Some (instant_add (created s) REJECT_AFTER_TIME))
  | Free => at'
  end.

Definition scan_deadlines (c : @Core CR PM R) : option Instant :=
  let at' := fold_left scan_peer (peers (pool c)) None in
  let at' := fold_left (scan_slot (pool c)) (slots (pool c)) at' in
  let at' := min_deadline at' (next_deadline (pending c)) in
  let at' := fold_left (fun at' r => min_deadline at' (Some (ir_deadline r))) (resolves (resolver c)) at' in
  fold_left (fun at' p => min_deadline at' (Some (pr_due p))) (pending_reconciles (resolver c)) at'.

(** ** One timer action *)

(** [deadline.is_some_and(|deadline| deadline <= now)] *)
Definition is_due (now : Instant) (deadline : option Instant) : bool :=
  match deadline with Some d => (d <=? now)%Z | None => false end.

Definition expire_parked (now : Instant) : Run bool := fun c =>
  let '(expired, p) := expire_one (pending c) now in (Ok expired, with_pending c p).

(** The body of the loop over the slots: [Some] is its early return. *)
Definition slot_timer (now : Instant) (sidx : SlotIdx) : Run (option bool) :=
  slot ← gets (fun c => slots (pool c) !! sidx);
  match slot with
  | None => mret (Some false)
  | Some (InitiatingSlot hs) =>
      let pidx := hs_peer hs in
      attempt_due ← gets (fun c => peer_at (pool c) pidx ≫= fun peer => attempt_deadline (sessions peer));
      if is_due now attempt_due then
        _ ← ignore (on_pool (free_slot sidx));
        _ ← modify (fun c => with_pending c (drop_if (pending c) (awaits pidx)));
        mret (Some true)
      else if (retry_at hs <=? now)%Z then
        _ ← retransmit_initiation pidx sidx now;
        mret (Some true)
      else mret None
  | Some (Established session) =>
      if (REJECT_AFTER_TIME <=? saturating_since now (created session))%Z then
        _ ← ignore (on_pool (free_slot sidx));
        mret (Some true)
      else mret None
  | Some Free => mret None
  end.

Definition clear_keepalive (peer : PeerEntry) : PeerEntry :=
  with_sessions peer (set_due (sessions peer) None (persistent_keepalive_due (sessions peer)) (reply_due (sessions peer))).
Definition set_persistent (due : option Instant) (peer : PeerEntry) : PeerEntry :=
  with_sessions peer (set_due (sessions peer) (keepalive_due (sessions peer)) due (reply_due (sessions peer))).
Definition clear_reply (peer : PeerEntry) : PeerEntry :=
  with_sessions peer (set_due (sessions peer) (keepalive_due (sessions peer)) (persistent_keepalive_due (sessions peer)) None).

(** Sends a keepalive over the usable session, if there is one. *)
Definition send_keepalive (pidx : PeerIdx) (now : Instant) : Run bool :=
  usable ← gets (fun c => usable_session (pool c) pidx now);
  match usable with
  | Some sidx => _ ← ignore (encrypt_and_send pidx sidx [] now); mret true
  | None => mret false
  end.

(** The body of the loop over the peers. *)
Definition peer_timer (now : Instant) (pidx : PeerIdx) : Run (option bool) :=
  entry ← gets (fun c => peer_at (pool c) pidx);
  match entry with
  | None => mret None
  | Some peer =>
      if is_due now (keepalive_due (sessions peer)) then
        _ ← edit_peer pidx clear_keepalive;
        _ ← send_keepalive pidx now;
        mret (Some true)
      else if is_due now (persistent_keepalive_due (sessions peer)) then
        _ ← edit_peer pidx (set_persistent None);
        sent ← send_keepalive pidx now;
        _ ← (if sent : bool then mret tt else
               _ ← ignore (ensure_handshake pidx now);
               match persistent_keepalive peer with
               | Some interval =>
                   let deadline := instant_add now interval in
                   _ ← edit_peer pidx (set_persistent (Some deadline));
                   arm_timer deadline
               | None => mret tt
               end);
        mret (Some true)
      else if is_due now (reply_due (sessions peer)) then
        _ ← edit_peer pidx clear_reply;
        _ ← ignore (ensure_handshake pidx now);
        mret (Some true)
      else mret None
  end.

(** [for i in xs] with early return. *)
Fixpoint first_timer (f : nat -> Run (option bool)) (xs : list nat) : Run (option bool) :=
  match xs with
  | [] => mret None
  | x :: xs =>
      r ← f x;
      match r with Some b => mret (Some b) | None => first_timer f xs end
  end.

Definition timeout (now : Instant) : Run bool :=
  expired ← expire_parked now;
  if expired : bool then mret true else
  lapsed ← expire_one_resolve now;
  if lapsed : bool then mret true else
  promoted ← promote_due_reconcile now;
  if promoted : bool then mret true else
  slot ← first_timer (slot_timer now) (seq 0 MAX_SESSIONS);
  match slot with
  | Some b => mret b
  | None =>
      peer ← first_timer (peer_timer now) (seq 0 MAX_PEERS);
      mret (default false peer)
  end.

Context (accepts : list Output -> ResolveRequest -> bool).

Definition handle_timeout (now : Instant) : Run bool :=
  worked ← timeout now;
  _ ← (if worked : bool then arm_timer now else
         exact ← gets scan_deadlines;
         on_pool (modify (fun p => with_timers p (tc_set_exact (timers p) exact))));
  _ ← flush_sink_output accepts;
  mret worked.

End Timers.
