(* ===== verification/Attempts.v ===== *)
(** * Attempt deadlines belong to running handshakes

    No operation leaves a peer with an attempt deadline and no handshake, so the walk of
    [scan_deadlines], which reads attempt deadlines through the initiating slots, misses
    none. *)

From S2P Require Import Prelude Clock Constants Ip Messages Effect Cidr Rate.
From S2P Require Import Firewall Routing Crypto Noise Cookie Session Pending Peer.
From S2P Require Import Pool Deadlines WallClock Load Resolve Core Handshake Transport.
From S2P Require Import SessionIndex Frame Resolver Respond Receive Evict Upsert Answers.
From S2P Require Import Timers.
Local Open Scope nat_scope.

(** ** Generations *)

Definition attempt_ok (ps : PeerSessions) : Prop := is_Some (attempt_deadline ps) -> is_Some (handshake ps).

Lemma begin_attempt ps s d ps' : begin_handshake ps s d = Ok ps' -> attempt_ok ps'.
Proof. unfold begin_handshake. case_bool_decide; [done|]. intros [= <-] _. cbn. eauto. Qed.
Lemma install_attempt ps s old ps' : install_initiator ps s = Ok (old, ps') -> attempt_ok ps'.
Proof. unfold install_initiator. destruct (negb _); [done|]. intros [= _ <-] H. cbn in H. by destruct H. Qed.
Lemma confirm_attempt ps s old ps' : attempt_ok ps -> confirm_responder ps s = Ok (old, ps') -> attempt_ok ps'.
Proof. unfold confirm_responder. intros H. destruct (negb _); [done|]. intros [= _ <-]. exact H. Qed.
Lemma unlink_attempt ps s : attempt_ok ps -> attempt_ok (unlink ps s).
Proof.
  intros H. unfold unlink. cbn [handshake set_generations]. case_bool_decide; [|exact H]. intros Ha. cbn in Ha. by destruct Ha.
Qed.

(** ** The peer table *)

Section Attempts.
Context {SZ : Sizes} {CR : Cidr} {PM : PrefixMap nat} {PRM : Prims} {R : Type} {RG : RngCore R}.
Context {CL : CidrLaws} {ML : PrefixMapLaws (V:=nat) MAX_ROUTES} {PL : PrimLaws}.
Notation Run := (Eff (@Core CR PM R)).
Notation Core := (@Core CR PM R).

Definition attempts_in (p : Pool) : Prop := forall i e, peer_at p i = Some e -> attempt_ok (sessions e).
Definition attempts (c : Core) : Prop := attempts_in (pool c).

Lemma update_attempts i f p :
  (forall e, peer_at p i = Some e -> attempt_ok (sessions e) -> attempt_ok (sessions (f e))) ->
  attempts_in p -> attempts_in (update_peer i f p).
Proof.
  intros Hf H j e. rewrite peer_at_update. case_decide as E; [|apply H].
  subst. intros (e0 & He & ->)%fmap_Some. by apply Hf; [|eapply H].
Qed.

Lemma attempts_peers p p' : peers p' = peers p -> attempts_in p -> attempts_in p'.
Proof. intros E H i e. unfold peer_at. rewrite E. apply H. Qed.

Lemma keeps_on_pool {A} (m : Eff Pool A) : keeps attempts_in m -> keeps attempts (@on_pool CR PM R A m).
Proof. intros H c Hc. specialize (H (pool c) Hc). unfold on_pool, zoom. by destruct (m (pool c)). Qed.

Lemma edit_peer_attempts i f :
  (forall e, attempt_ok (sessions e) -> attempt_ok (sessions (f e))) -> keeps attempts (@edit_peer CR PM R i f).
Proof. intros H c Hc. apply update_attempts; [|exact Hc]. intros e _. apply H. Qed.

Lemma keeps_attempt {S A} (P : S -> Prop) (m : Eff S A) : keeps P m -> keeps P (attempt m).
Proof. intros H s Hs. specialize (H s Hs). unfold attempt. by destruct (m s). Qed.
Lemma keeps_draw {A} (P : Core -> Prop) (g : R -> A * R) : (forall c r, P c -> P (with_rng c r)) -> keeps P (draw g).
Proof. intros H c Hc. unfold draw. destruct (g (rng c)). by apply H. Qed.
Lemma keeps_try_draw {A} (P : Core -> Prop) (g : R -> Result A * R) : (forall c r, P c -> P (with_rng c r)) -> keeps P (try_draw g).
Proof. intros H c Hc. unfold try_draw. destruct (g (rng c)). by apply H. Qed.
Lemma keeps_on_resolver {A} (P : Core -> Prop) (g : Resolver -> A * Resolver) :
  (forall c r, P c -> P (with_resolver c r)) -> keeps P (on_resolver g).
Proof. intros H c Hc. unfold on_resolver. destruct (g (resolver c)). by apply H. Qed.
Lemma keeps_on_wall {A} (P : Core -> Prop) (m : Eff Wall A) : (forall c w, P c -> P (with_wallclock c w)) -> keeps P (on_wall m).
Proof. intros H c Hc. unfold on_wall, zoom. destruct (m (wallclock c)). by apply H. Qed.

End Attempts.

Ltac att_step :=
  lazymatch goal with
  | |- forall _, _ => intro
  | |- keeps _ (modify _) => intros ? ?; unfold modify; cbn [snd]; repeat case_match; first [assumption|eapply attempts_peers; [reflexivity|assumption]]
  | |- keeps _ (let _ := _ in _) => cbv zeta
  | |- keeps _ (draw _) => apply keeps_draw; intros; assumption
  | |- keeps _ (try_draw _) => apply keeps_try_draw; intros; assumption
  | |- keeps _ (on_resolver _) => apply keeps_on_resolver; intros; assumption
  | |- keeps _ (on_wall _) => apply keeps_on_wall; intros; assumption
  | |- keeps _ (the_peer _ _) => apply demand_keeps
  | |- keeps _ (emit _) => intros ? ?; assumption
  | |- keeps _ (edit_peer _ _) => apply edit_peer_attempts; let e := fresh in let H := fresh in intros e H; first [exact H|apply unlink_attempt, H|idtac]
  | |- keeps _ (put_slot _ _) => intros ? ?; assumption
  | |- keeps _ (edit_resolver _) => intros ? ?; assumption
  | |- keeps _ (arm_timer _) => intros ? ?; assumption
  | |- keeps _ (ignore _) => apply keeps_ignore
  | |- keeps _ (attempt _) => apply keeps_attempt
  | |- keeps _ (match ?x with _ => _ end) => destruct x eqn:?
  | |- keeps _ (@mbind _ _ _ _ _ _) => apply keeps_bind
  | |- _ => solve [eauto 1 with mt att]
  end.
Ltac att_tac := repeat att_step.

Create HintDb att.

Section Handlers.
Context {SZ : Sizes} {CR : Cidr} {PM : PrefixMap nat} {PRM : Prims} {R : Type} {RG : RngCore R}.
Context {CL : CidrLaws} {ML : PrefixMapLaws (V:=nat) MAX_ROUTES} {PL : PrimLaws}.
Notation Run := (Eff (@Core CR PM R)).
Notation Core := (@Core CR PM R).
Notation attempts := (@attempts CR PM R).

Lemma free_slot_attempts s : keeps (@attempts_in CR) (free_slot s).
Proof.
  unfold free_slot. att_tac. intros p Hp. apply update_attempts; [|exact Hp]. intros e _. apply unlink_attempt.
Qed.
Hint Resolve free_slot_attempts : att.

Lemma alloc_slot_attempts now : keeps (@attempts_in CR) (alloc_slot now).
Proof.
  intros p Hp. unfold alloc_slot.
  assert (H : forall i, attempts_in (snd ((_ ← free_slot i; mret (Some i)) p))).
  { intros i. exact (keeps_bind _ _ _ (free_slot_attempts i) (fun _ => mret_keeps _ _) p Hp). }
  repeat case_match; try exact Hp; apply H.
Qed.

Lemma free_attempts s : keeps attempts (on_pool (free_slot s)).
Proof. apply keeps_on_pool, free_slot_attempts. Qed.
Lemma alloc_attempts now : keeps attempts (on_pool (alloc_slot now)).
Proof. apply keeps_on_pool, alloc_slot_attempts. Qed.
Lemma set_pool_attempts f : (forall p, peers (f p) = peers p) -> keeps attempts (on_pool (modify f)).
Proof. intros H. apply keeps_on_pool. intros p Hp. exact (attempts_peers p (f p) (H p) Hp). Qed.
Hint Resolve free_attempts alloc_attempts : att.

Lemma commit_handshake_attempts i s now : keeps attempts (commit_handshake_start i s now).
Proof.
  intros c Hc. unfold commit_handshake_start. rewrite bind_gets.
  destruct (peer ← ok_or (peer_at (pool c) i) InternalInvariant; _) as [ps|e] eqn:E.
  - assert (Hps : attempt_ok ps).
    { destruct (peer_at (pool c) i) as [e|]; [|discriminate E]. cbn in E. by eapply begin_attempt. }
    rewrite bind_edit_peer. by apply update_attempts.
  - apply (keeps_bind attempts); [apply free_attempts|intros; apply throw_keeps|exact Hc].
Qed.
Hint Resolve commit_handshake_attempts : att.

Lemma build_initiation_attempts i s now : keeps attempts (build_initiation i s now).
Proof. unfold build_initiation. att_tac. by apply set_pool_attempts. Qed.
Hint Resolve build_initiation_attempts : att.

Lemma stage_initiation_attempts i now : keeps attempts (stage_initiation i now).
Proof. unfold stage_initiation, allocate_handshake_slot. att_tac. Qed.
Hint Resolve stage_initiation_attempts : att.

Lemma ensure_direct_attempts i now : keeps attempts (ensure_direct_handshake i now).
Proof. unfold ensure_direct_handshake. att_tac. Qed.
Hint Resolve ensure_direct_attempts : att.

Lemma seal_transport_attempts i s m n r now : keeps attempts (seal_transport i s m n r now).
Proof. unfold seal_transport, seal_commit, write_buffer. att_tac. Qed.
Hint Resolve seal_transport_attempts : att.

Lemma relay_path_attempts k now : keeps attempts (relay_path k now).
Proof. unfold relay_path. att_tac. Qed.
Hint Resolve relay_path_attempts : att.

Lemma transmit_wire_attempts i dst msg now : keeps attempts (transmit_wire i dst msg now).
Proof. unfold transmit_wire. att_tac. Qed.
Hint Resolve transmit_wire_attempts : att.

Lemma ensure_handshake_attempts i now : keeps attempts (ensure_handshake i now).
Proof. unfold ensure_handshake. att_tac. Qed.
Hint Resolve ensure_handshake_attempts : att.

Lemma encrypt_and_send_attempts i s packet now : keeps attempts (encrypt_and_send i s packet now).
Proof. unfold encrypt_and_send, encrypt_via_relay, wrap_and_seal, stage_packet, note_outbound_flow. att_tac. Qed.
Hint Resolve encrypt_and_send_attempts : att.

Lemma send_to_peer_attempts i packet now : keeps attempts (send_to_peer i packet now).
Proof. unfold send_to_peer. att_tac. Qed.
Hint Resolve send_to_peer_attempts : att.

Lemma retransmit_attempts i s now : keeps attempts (retransmit_initiation i s now).
Proof. unfold retransmit_initiation, send_initiation. att_tac. Qed.
Hint Resolve retransmit_attempts : att.

(** ** Receiving *)

Lemma take_unknown_attempts now : keeps attempts (take_unknown now).
Proof. intros c Hc. unfold take_unknown. by destruct (try_take _ _). Qed.
Lemma check_mac2_attempts now src data mac1 : keeps attempts (check_mac2_or_reply now src data mac1).
Proof. unfold check_mac2_or_reply. att_tac. Qed.
Lemma note_load_attempts now : keeps attempts (note_load now).
Proof. unfold note_load. att_tac. Qed.
Hint Resolve take_unknown_attempts check_mac2_attempts note_load_attempts : att.

Lemma observed_attempts p src now : sessions (snd (observe_direct_endpoint p src now)) = sessions p.
Proof. unfold observe_direct_endpoint. by case_bool_decide. Qed.

Lemma answered_attempts mac1 s src now e :
  attempt_ok (sessions e) -> attempt_ok (sessions (snd (answered_entry mac1 s src now e))).
Proof. unfold answered_entry, observe_direct_endpoint. cbn. intros H. by case_bool_decide. Qed.

Lemma respond_attempts i consumed src now : keeps attempts (respond_to_initiation i consumed src now).
Proof.
  unfold respond_to_initiation, responder_slot, or_release, build_response, commit_response_slot. att_tac.
  - intros c Hc. by destruct (sim_replace _ _ _ _ _).
  - by apply set_pool_attempts.
  - by apply answered_attempts.
Qed.
Hint Resolve respond_attempts : att.

Lemma accept_attempts i consumed src now : keeps attempts (accept_authenticated_initiation i consumed src now).
Proof. unfold accept_authenticated_initiation. att_tac. Qed.
Hint Resolve accept_attempts : att.

Lemma flush_handshake_attempts fuel i s b now : keeps attempts (flush_handshake fuel i s b now).
Proof. revert b. induction fuel as [|fuel IH]; intros b; cbn [flush_handshake]; att_tac. Qed.
Hint Resolve flush_handshake_attempts : att.

Lemma push_resolve_attempts e : keeps attempts (push_resolve e).
Proof. unfold push_resolve, try_push_resolve. att_tac. Qed.
Hint Resolve push_resolve_attempts : att.

Lemma queue_peer_install_attempts key source now : keeps attempts (queue_peer_install key source now).
Proof. unfold queue_peer_install, new_id. att_tac. Qed.
Hint Resolve queue_peer_install_attempts : att.

Lemma rx_initiation_attempts now src data : keeps attempts (rx_initiation now src data).
Proof. unfold rx_initiation, equalize_unknown_identity_cost, request_peer_install. att_tac. Qed.

Lemma install_response_attempts s hs tk ri src now : keeps attempts (install_response s hs tk ri src now).
Proof.
  unfold install_response. att_tac.
  all: cbn; unfold confirmed_entry, observe_direct_endpoint; cbn; case_bool_decide; cbn; by eapply install_attempt.
Qed.
Hint Resolve install_response_attempts : att.

Lemma rx_response_attempts now src data : keeps attempts (rx_response now src data).
Proof. unfold rx_response, start_speaking. att_tac. Qed.
Lemma rx_cookie_reply_attempts now data : keeps attempts (rx_cookie_reply now data).
Proof. unfold rx_cookie_reply. att_tac. Qed.

Lemma rx_relay_attempts i plaintext now : keeps attempts (rx_relay i plaintext now).
Proof. unfold rx_relay, request_relay_peer_install. att_tac. Qed.
Hint Resolve rx_relay_attempts : att.

Lemma rx_open_attempts now data is_relay : keeps attempts (rx_open now data is_relay).
Proof. unfold rx_open. att_tac. Qed.

Lemma confirm_next_attempts i s peer : attempt_ok (sessions peer) -> keeps attempts (confirm_next i s peer).
Proof.
  intros H. unfold confirm_next. att_tac.
  match goal with E : confirm_responder _ _ = Ok _ |- _ => exact (confirm_attempt _ _ _ _ H E) end.
Qed.

Lemma received_attempts src now len ka e :
  attempt_ok (sessions e) -> attempt_ok (sessions (snd (received_entry src now len ka e))).
Proof. unfold received_entry, observe_direct_endpoint. cbn. intros H. by case_bool_decide. Qed.

Lemma rx_account_attempts now src len o : keeps attempts (rx_account now src len o).
Proof.
  intros c Hc. unfold rx_account. rewrite bind_gets. destruct (peer_at (pool c) (s_peer (op_session o))) as [peer|] eqn:He; [|exact Hc].
  apply (keeps_bind attempts); [|intros freed|exact Hc].
  - apply confirm_next_attempts. by eapply Hc.
  - destruct freed; unfold free_superseded; att_tac. by apply received_attempts.
Qed.

Lemma rx_rekey_attempts now o : keeps attempts (rx_rekey now o).
Proof. unfold rx_rekey. att_tac. Qed.
Lemma rx_deliver_attempts i src inner now : keeps attempts (rx_deliver i src inner now).
Proof. unfold rx_deliver, admits. att_tac. Qed.
Hint Resolve rx_open_attempts rx_account_attempts rx_rekey_attempts rx_deliver_attempts : att.

Lemma datagram_attempts now src data : keeps attempts (datagram now src data).
Proof.
  unfold datagram. destruct (classify data) as [[]|]; att_tac;
    first [apply rx_initiation_attempts|apply rx_response_attempts|apply rx_cookie_reply_attempts|unfold rx_data; att_tac].
Qed.

(** ** Resolver work *)

Lemma mark_negative_attempts query now : keeps attempts (mark_negative query now).
Proof. unfold mark_negative, new_id, try_push_resolve. att_tac. Qed.
Lemma queue_outbound_attempts dst packet now : keeps attempts (queue_outbound_resolution dst packet now).
Proof. unfold queue_outbound_resolution, new_id. att_tac. Qed.
Lemma queue_reconcile_attempts key now : keeps attempts (queue_reconcile key now).
Proof. unfold queue_reconcile. att_tac. Qed.
Hint Resolve mark_negative_attempts queue_outbound_attempts queue_reconcile_attempts : att.
Lemma promote_attempts now : keeps attempts (promote_due_reconcile now).
Proof. unfold promote_due_reconcile, new_id, defer_reconcile. att_tac. Qed.
Lemma expire_resolve_attempts now : keeps attempts (expire_one_resolve now).
Proof. unfold expire_one_resolve, drop_parked. att_tac. Qed.
Lemma expire_parked_attempts now : keeps attempts (expire_parked now).
Proof. intros c Hc. unfold expire_parked. by destruct (expire_one _ _). Qed.
Hint Resolve promote_attempts expire_resolve_attempts expire_parked_attempts : att.

Lemma on_routes_attempts {A} (f : RouteCache -> Result A * RouteCache) : keeps attempts (on_routes f).
Proof. intros c Hc. unfold on_routes. by destruct (f _). Qed.
Hint Resolve on_routes_attempts : att.

Lemma outbound_attempts now packet : keeps attempts (outbound now packet).
Proof. unfold outbound. att_tac. Qed.
Hint Resolve outbound_attempts : att.

Lemma check_slots_attempts i xs : keeps (@attempts_in CR) (each (check_slot i) xs).
Proof. induction xs as [|x xs IH]; cbn [each]; unfold check_slot; att_tac; exact IH. Qed.
Lemma release_slots_attempts xs : keeps (@attempts_in CR) (each release_slot xs).
Proof. induction xs as [|x xs IH]; cbn [each]; unfold release_slot; att_tac; exact IH. Qed.

Lemma take_peer_attempts i : keeps (@attempts_in CR) (take_peer i).
Proof.
  unfold take_peer. att_tac. intros q Hq j e. unfold peer_at. cbn. destruct (decide (j = i)) as [->|Hne].
  - destruct (<[i:=None]> (peers q) !! i) as [[x|]|] eqn:E; [|done|done]. apply list_lookup_insert_Some in E as [(_ & ? & _)|[? _]]; done.
  - rewrite list_lookup_insert_ne by done. apply Hq.
Qed.

Lemma install_peer_attempts i e : attempt_ok (sessions e) -> keeps (@attempts_in CR) (install_peer MAX_PEERS i e).
Proof.
  intros He. unfold install_peer. att_tac; [|intros q Hq; exact Hq]. intros q Hq j x. unfold peer_at. cbn. destruct (decide (j = i)) as [->|Hne].
  - destruct (<[i:=Some e]> (peers q) !! i) as [[y|]|] eqn:E; [|done|done]. intros [= <-].
    apply list_lookup_insert_Some in E as [(_ & [= <-] & _)|[? _]]; done.
  - rewrite list_lookup_insert_ne by done. apply Hq.
Qed.

Lemma evict_peer_attempts i : keeps attempts (evict_peer i).
Proof.
  unfold evict_peer. att_tac; apply keeps_on_pool;
    first [apply check_slots_attempts|apply take_peer_attempts|apply release_slots_attempts].
Qed.
Hint Resolve evict_peer_attempts : att.

Lemma evict_and_remember_attempts i now : keeps attempts (evict_peer_and_remember i now).
Proof. unfold evict_peer_and_remember. att_tac. Qed.
Hint Resolve evict_and_remember_attempts : att.

Lemma evict_for_capacity_attempts i now : keeps attempts (evict_peer_for_capacity i now).
Proof. unfold evict_peer_for_capacity, take_evictions. att_tac. Qed.
Hint Resolve evict_for_capacity_attempts : att.

(** ** Installing a record *)

Lemma replaced_attempts info now e : attempt_ok (sessions e) -> attempt_ok (sessions (replaced_entry info now e)).
Proof. unfold replaced_entry. intros H. cbn. repeat case_bool_decide; exact H. Qed.

Lemma evict_capacity_attempts now : keeps attempts (take_evictions 1 now).
Proof. unfold take_evictions. att_tac. Qed.
Hint Resolve evict_capacity_attempts : att.

Lemma replace_route_attempts i a now b : keeps attempts (replace_dynamic_route i a now b).
Proof. unfold replace_dynamic_route, reserve_route. att_tac. Qed.
Hint Resolve replace_route_attempts : att.

Lemma refresh_peer_attempts i info now : keeps attempts (refresh_peer i info now).
Proof. unfold refresh_peer. att_tac. by apply replaced_attempts. Qed.
Hint Resolve refresh_peer_attempts : att.

Lemma new_entry_attempt info now shared : attempt_ok (sessions (new_entry info now shared)).
Proof. intros [d Hd]. done. Qed.

Lemma place_new_peer_attempts info now adm : keeps attempts (place_new_peer info now adm).
Proof.
  intros c Hc. unfold place_new_peer. rewrite !bind_gets.
  assert (H : forall (k : Run unit) i c, keeps attempts k -> attempts c ->
    attempts (snd ((peer ← new_dynamic_peer info now; _ ← k; _ ← on_pool (install_peer MAX_PEERS i peer); mret i) c))).
  { intros k i c' Hk Hc'. rewrite bind_run, new_dynamic_peer_run. destruct (dh _ _) as [shared|e]; cbn [fmap result_fmap]; [|exact Hc'].
    apply (keeps_bind attempts); [exact Hk| |exact Hc']. intros _. apply keeps_bind; [|intros; apply mret_keeps].
    apply keeps_on_pool, install_peer_attempts, new_entry_attempt. }
  destruct (if _ || _ then _ else None) as [i|].
  - exact (H (mret tt) i c (mret_keeps _ _) Hc).
  - destruct (bool_decide (adm = HeldUpdate)); [exact Hc|]. destruct (bool_decide (adm = LazyRelay)); [exact Hc|].
    rewrite bind_gets. destruct (capacity_victim_excluding _ _ _ _ _) as [i|]; [|exact Hc].
    apply (H (evict_peer_for_capacity i now) i c); [apply evict_for_capacity_attempts|exact Hc].
Qed.
Hint Resolve place_new_peer_attempts : att.

Lemma upsert_attempts info now adm : keeps attempts (upsert_peer_unchecked info now adm).
Proof. unfold upsert_peer_unchecked. att_tac. Qed.
Hint Resolve upsert_attempts : att.

Lemma commit_existing_attempts i info now adm b : keeps attempts (commit_existing_resolved_peer i info now adm b).
Proof. unfold commit_existing_resolved_peer. att_tac. Qed.
Hint Resolve commit_existing_attempts : att.

(** ** Answers *)

Lemma apply_held_attempts now key o : keeps attempts (apply_held_answer now key o).
Proof. unfold apply_held_answer, commit_held_update. att_tac. Qed.
Hint Resolve apply_held_attempts : att.

Lemma install_answer_attempts info now adm b : keeps attempts (install_answer info now adm b).
Proof. unfold install_answer. att_tac. Qed.
Hint Resolve install_answer_attempts : att.

Lemma resolved_install_attempts now e src o : keeps attempts (resolved_install now e src o).
Proof. unfold resolved_install. att_tac. Qed.
Hint Resolve resolved_install_attempts : att.

Lemma flush_resolved_attempts fuel id now : keeps attempts (flush_resolved fuel id now).
Proof. induction fuel as [|fuel IH]; cbn [flush_resolved]; att_tac; exact IH. Qed.
Hint Resolve flush_resolved_attempts : att.

Lemma resolved_outbound_attempts now e o : keeps attempts (resolved_outbound now e o).
Proof. unfold resolved_outbound, drop_parked. att_tac. Qed.
Hint Resolve resolved_outbound_attempts : att.

Lemma resolved_attempts now r : keeps attempts (resolved now r).
Proof. unfold resolved. att_tac. Qed.
Hint Resolve resolved_attempts : att.

(** ** Timers *)

Lemma slot_timer_attempts now s : keeps attempts (slot_timer now s).
Proof. unfold slot_timer. att_tac. Qed.
Hint Resolve slot_timer_attempts : att.

Lemma send_keepalive_attempts i now : keeps attempts (send_keepalive i now).
Proof. unfold send_keepalive. att_tac. Qed.
Hint Resolve send_keepalive_attempts : att.

Lemma peer_timer_attempts now i : keeps attempts (peer_timer now i).
Proof. unfold peer_timer. att_tac. Qed.
Hint Resolve peer_timer_attempts : att.

Lemma first_timer_attempts f xs : (forall i, keeps attempts (f i)) -> keeps attempts (@first_timer CR PM R f xs).
Proof. intros Hf. induction xs as [|x xs IH]; cbn [first_timer]; att_tac; first [apply Hf|exact IH]. Qed.

Lemma timeout_attempts now : keeps attempts (timeout now).
Proof. unfold timeout. att_tac; apply first_timer_attempts; eauto with att. Qed.
Hint Resolve timeout_attempts : att.

(** ** Entry points *)

Context (accepts : list Output -> ResolveRequest -> bool).

Lemma flush_requests_attempts fuel : keeps attempts (flush_requests accepts fuel).
Proof. induction fuel as [|fuel IH]; cbn [flush_requests]; att_tac; exact IH. Qed.
Hint Resolve flush_requests_attempts : att.

Lemma flush_sink_attempts : keeps attempts (flush_sink_output accepts).
Proof. unfold flush_sink_output. att_tac. Qed.

End Handlers.
