(* ===== verification/Drain.v ===== *)
(** * What a timer action achieves

    Every action of [timeout] keeps the engine consistent and its deadlines covered, and
    takes at least one due deadline away, so that a wave of due work ends. *)

From S2P Require Import Prelude Clock Constants Ip Messages Effect Cidr Rate.
From S2P Require Import Firewall Routing Crypto Noise Session SessionIndex Pending Peer.
From S2P Require Import Pool Deadlines Rotation Resolve Core Demo Handshake Transport.
From S2P Require Import Frame Resolver Respond Receive Aloof Evict Upsert Answers.
From S2P Require Import Timers.
Local Open Scope nat_scope.

Section Drain.
Context {SZ : Sizes} {CR : Cidr} {PM : PrefixMap nat} {PRM : Prims} {R : Type} {RG : RngCore R}.
Context {CL : CidrLaws} {ML : PrefixMapLaws (V:=nat) MAX_ROUTES} {PL : PrimLaws}.
Notation Run := (Eff (@Core CR PM R)).
Notation Core := (@Core CR PM R).

(** ** Progress *)

(** The deadlines due at [now]. *)
Definition backlog (now : Instant) (c : Core) : nat := length (due now (live c)).

(** A deadline added now is later than now: the clock has not reached its end and the
    negative lifetime is not zero. *)
Definition prompt (now : Instant) (c : Core) : Prop :=
  (0 <= now < u64_max)%Z /\ (1 <= negative_ttl (core_config (resolver c)))%Z.

(** From [c] to [c'] a due deadline went and none came. *)
Record advances (now : Instant) (c c' : Core) : Prop := {
  ad_inv : core_inv c';
  ad_le : core_le now c c';
  ad_orders : (orders c' <= orders c)%Z;
  ad_due : prompt now c -> backlog now c' < backlog now c;
}.

Lemma prompt_soon now (c : Core) : prompt now c -> (now < soon c now)%Z.
Proof. intros [? ?]. unfold soon, instant_add, saturating_add, sat_add. lia. Qed.

Lemma prompt_le now (c c' : Core) : core_le now c c' -> prompt now c -> prompt now c'.
Proof. intros [E _] []. split; [done|]. by rewrite E. Qed.

Lemma backlog_le now (c c' : Core) : core_le now c c' -> prompt now c -> backlog now c' <= backlog now c.
Proof. intros [_ H] Hp. by apply (adv_due _ _ _ _ _ _ H), prompt_soon. Qed.

Lemma advances_then {A} now (m : Run A) (c c1 : Core) :
  advances now c c1 -> calm now m -> advances now c (snd (m c1)).
Proof.
  intros [Hi Hl Ho Hd] Hm. destruct (Hm c1 Hi) as [[Hi' Hl'] Ho']. split; [done| |lia|].
  - eapply core_le_trans; [exact Hl|exact Hl'].
  - intros Hp. pose proof (backlog_le _ _ _ Hl' (prompt_le _ _ _ Hl Hp)). specialize (Hd Hp). lia.
Qed.

Lemma le_advances now (c c1 c' : Core) :
  core_le now c c1 -> (orders c1 <= orders c)%Z -> advances now c1 c' -> advances now c c'.
Proof.
  intros Hl Ho [Hi Hl' Ho' Hd]. split; [done| |lia|].
  - eapply core_le_trans; [exact Hl|exact Hl'].
  - intros Hp. pose proof (backlog_le _ _ _ Hl Hp). specialize (Hd (prompt_le _ _ _ Hl Hp)). lia.
Qed.

(** The due deadline [d] goes; [news] come later. *)
Lemma advances_by now d news (c c' : Core) :
  core_inv c' -> core_le now c c' -> (orders c' <= orders c)%Z -> (d <= now)%Z -> d :: live c' ⊆+ news ++ live c ->
  (prompt now c -> Forall (fun n => now < n)%Z news) -> advances now c c'.
Proof.
  intros Hi Hl Ho Hd Hs Hn. split; [done..|]. intros Hp. unfold backlog.
  apply (due_submseteq now) in Hs. rewrite due_app, (due_none now news) in Hs by auto.
  assert (E : due now (d :: live c') = d :: due now (live c')) by (unfold due; cbn; destruct (Z.leb_spec d now); [done|lia]).
  rewrite E in Hs. apply submseteq_length in Hs. cbn [length app] in Hs. lia.
Qed.

Lemma Permutation_middle_4 {A} (l1 l2 l3 l4 : list A) x :
  x :: l1 ++ l2 ++ l3 ++ l4 ≡ₚ l1 ++ l2 ++ l3 ++ (x :: l4).
Proof. solve_Permutation. Qed.

Lemma permutation_sub {A} (l l' : list A) : l ≡ₚ l' -> l ⊆+ l'.
Proof. by intros ->. Qed.

#[local] Instance orders_aloof' : Aloof (@orders CR PM R).
Proof. by split. Qed.

(** ** Parked packets and lookups *)

Lemma pool_deadlines_drop p i q :
  p !! i = Some (Some q) -> pp_deadline q :: pool_deadlines (<[i := None]> p) ⊆+ pool_deadlines p.
Proof.
  revert i. induction p as [|x p IH]; intros [|i] Hi; [done..| |]; unfold pool_deadlines in *; cbn in *.
  - by injection Hi as ->.
  - specialize (IH i Hi). destruct x as [x|]; cbn; [|done].
    etrans; [apply submseteq_swap|]. by apply submseteq_skip.
Qed.

Lemma expire_parked_advances now (c : Core) :
  core_inv c ->
  (expire_parked now c = (Ok false, c) /\ expire_one (pending c) now = (false, pending c)) \/
  exists c', expire_parked now c = (Ok true, c') /\ advances now c c'.
Proof.
  intros Hc. unfold expire_parked, expire_one. destruct (position _ (pending c)) as [i|] eqn:E.
  - right. apply position_Some in E as ([q|] & Hi & Hm & _); [|done]. cbn in Hm. bool_to_prop.
    eexists. split; [done|]. pose proof (pool_deadlines_drop _ _ _ Hi) as Hs.
    assert (Hle : pool_deadlines (<[i := None]> (pending c)) ⊆+ pool_deadlines (pending c))
      by (etrans; [|exact Hs]; by apply submseteq_cons).
    apply (advances_by now (pp_deadline q) []); [|split; [done|]| |done| |by constructor].
    + apply (core_inv_rest c); try done; apply Hc.
    + apply adv_drop. unfold live. cbn. apply submseteq_skips_l, submseteq_skips_r, Hle.
    + cbn. unfold orders. cbn. lia.
    + unfold live. cbn. etrans; [|apply submseteq_skips_l, submseteq_skips_r, Hs]. solve_submseteq.
  - left. split; [|done]. f_equal. by destruct c.
Qed.

Lemma queue_reconcile_ok key now (c : Core) : fst (queue_reconcile key now c) = Ok tt.
Proof.
  unfold queue_reconcile. rewrite !bind_gets. destruct (i ← position _ (pending_reconciles _); _) as [[i p]|]; [done|].
  rewrite bind_gets. by destruct (push_reconcile _ _ _).
Qed.

Lemma swap_remove_due {A} (f : A -> Instant) i (l : list A) x :
  l !! i = Some x -> f x :: (f <$> swap_remove i l) ≡ₚ f <$> l.
Proof. intros Hi. rewrite <- (swap_remove_perm i l x Hi) at 2. done. Qed.

Lemma expire_one_resolve_advances now (c : Core) :
  core_inv c ->
  (expire_one_resolve now c = (Ok false, c) /\ Forall (fun e => now < ir_deadline e)%Z (resolves (resolver c))) \/
  exists c', expire_one_resolve now c = (Ok true, c') /\ advances now c c'.
Proof.
  intros Hc. unfold expire_one_resolve. rewrite bind_gets.
  destruct (pos ← position _ _; _) as [[i e]|] eqn:Ef.
  - right. apply found_some in Ef as [Hi Hd]. cbn in Hd. bool_to_prop. rewrite bind_edit_resolver.
    destruct (drop_entries_moved now c _ Hc (swap_remove_submseteq _ _ _ Hi)) as [Hc1 Hl1]. set (c1 := with_resolver c _) in *.
    assert (H1 : advances now c c1).
    { apply (advances_by now (ir_deadline e) []); [done|done|unfold orders; cbn; lia|done| |by constructor].
      unfold live. cbn. rewrite <- (swap_remove_due ir_deadline _ _ _ Hi). solve_submseteq. }
    match goal with |- context [(?m ≫= _) c1] => assert (Hm : calm now m); [|pose proof (advances_then now m c c1 H1 Hm) as H2;
      assert (Hok : fst (m c1) = Ok tt)] end.
    + destruct (ir_kind e) as [|[]| |]; [apply drop_parked_calm| |apply calm_mret..|].
      * apply calm_of; [apply drop_initiation_moves|apply same_modify; aloof_close].
      * destruct (ir_query e); [|apply calm_mret]. apply calm_bind; [apply calm_gets|]. intros held.
        apply calm_if; [apply queue_reconcile_calm|apply calm_mret].
    + destruct (ir_kind e) as [|[]| |]; [done..|]. destruct (ir_query e) as [key|]; [|done]. rewrite bind_gets.
      case_bool_decide; [apply queue_reconcile_ok|done].
    + rewrite bind_run. match goal with |- context [match ?m ?s with _ => _ end] => destruct (m s) as [[[]|] c2] end; [|done].
      exists c2. by split.
  - left. split; [done|]. apply Forall_forall. intros e He. pose proof (found_none _ _ Ef e He). cbn in *. bool_lia.
Qed.

(** ** Reconciliations *)

Lemma remove_reconcile_advances now i p (c : Core) :
  core_inv c -> pending_reconciles (resolver c) !! i = Some p -> (pr_due p <= now)%Z ->
  advances now c (snd (edit_resolver (fun r => with_reconciles r (swap_remove i (pending_reconciles r))) c)).
Proof.
  intros Hc Hi Hd. destruct (remove_reconcile_moved now i c p Hc Hi) as [Hi1 Hl1].
  apply (advances_by now (pr_due p) []); [exact Hi1|exact Hl1|unfold orders; cbn; lia|done| |by constructor].
  unfold live. cbn. rewrite <- (swap_remove_due pr_due _ _ _ Hi). solve_submseteq.
Qed.

Lemma defer_reconcile_advances now i p (c : Core) :
  core_inv c -> pending_reconciles (resolver c) !! i = Some p -> (pr_due p <= now)%Z ->
  advances now c (snd (defer_reconcile i now c)).
Proof.
  intros Hc Hi Hd. destruct (defer_reconcile_moves i now c Hc) as [Hi1 Hl1].
  set (d := instant_add now (negative_ttl (core_config (resolver c)))).
  apply (advances_by now (pr_due p) [d]); [exact Hi1|exact Hl1| |done| |].
  - pose proof (same_run orders _ c (defer_reconcile_aloof orders i now)) as E. rewrite E. lia.
  - unfold defer_reconcile. rewrite bind_gets, bind_edit_resolver, alter_as_insert, Hi, run_arm_timer. fold (config_of c).
    cbn [snd]. unfold live. cbn. rewrite list_fmap_insert. cbn. fold d.
    change (pool_live (with_timers ?q _)) with (pool_live q).
    assert (E : pr_due p :: <[i := d]> (pr_due <$> pending_reconciles (resolver c)) ≡ₚ d :: (pr_due <$> pending_reconciles (resolver c))).
    { apply insert_perm. by rewrite list_lookup_fmap, Hi. }
    etrans; [rewrite Permutation_middle_4; do 3 apply submseteq_skips_l; exact (permutation_sub _ _ E)|]. solve_submseteq.
  - intros [? ?]. constructor; [|done]. unfold d, instant_add, saturating_add, sat_add. lia.
Qed.

Lemma promote_advances now (c : Core) :
  core_inv c ->
  (promote_due_reconcile now c = (Ok false, c) /\ Forall (fun p => now < pr_due p)%Z (pending_reconciles (resolver c))) \/
  exists c', promote_due_reconcile now c = (Ok true, c') /\ advances now c c'.
Proof.
  intros Hc. unfold promote_due_reconcile. rewrite bind_gets.
  destruct (i ← position _ _; _) as [[i p]|] eqn:Ef.
  2: { left. split; [done|]. apply Forall_forall. intros e He. pose proof (found_none _ _ Ef e He). cbn in *. bool_lia. }
  right. apply found_some in Ef as [Hi Hd]. cbn in Hd. bool_to_prop. cbv zeta. rewrite bind_gets.
  destruct (find_peer (pool c) (pr_public_key p)) as [pidx|].
  2: { eexists. split; [done|]. by eapply remove_reconcile_advances. }
  rewrite bind_gets. destruct (resolve_suppressed _ _ _) eqn:Es.
  { eexists. split; [done|]. by eapply defer_reconcile_advances. }
  destruct (co_config _ Hc) as (Hrt & _).
  destruct (new_id_run c Hc) as (id & next' & E1 & Hfresh & Hn).
  destruct (new_id_moved now c Hc) as [Hc1 Hl1]. rewrite E1 in Hc1, Hl1. cbn [snd] in *. rewrite (bind_ok _ _ _ _ _ E1), bind_gets.
  set (e := mkInflightResolve id (ByPublicKey (pr_public_key p)) Reconcile _ false). set (c1 := with_resolver c _) in *.
  assert (H : moved now (push_resolve e) c1).
  { apply push_resolve_moved; [done| |by apply later_of]. split; [done|].
    intros _ e' He' Hk Hq. cbn in He'.
    destruct (resolve_suppressed_false _ _ _ _ Es He' Hq) as [Hneg _].
    unfold keyed, is_negative, is_dst in Hk. rewrite Hneg, Hq in Hk. by rewrite bool_decide_eq_true_2 in Hk. }
  pose proof (push_keeps_reconciles e c1) as Hkeep. destruct H as [Hc2 Hl2]. rewrite bind_attempt.
  pose proof (same_run orders _ c1 (push_resolve_aloof orders e)) as Ho2. set (c2 := snd (push_resolve e c1)) in *.
  assert (Hi2 : pending_reconciles (resolver c2) !! i = Some p) by (rewrite Hkeep; exact Hi).
  destruct (is_ok _); (eexists; split; [done|]); (eapply le_advances;
    [eapply core_le_trans; [exact Hl1|exact Hl2]|rewrite Ho2; unfold orders; cbn; lia|]);
    [by eapply remove_reconcile_advances|by eapply defer_reconcile_advances].
Qed.

(** ** Slots *)

(** A step of the pool. *)
Lemma pool_advances now d news (c c' : Core) :
  core_inv c' -> core_le now c c' -> orders c' = orders c -> resolver c' = resolver c -> pending c' = pending c ->
  (d <= now)%Z -> d :: pool_live (pool c') ⊆+ news ++ pool_live (pool c) ->
  (prompt now c -> Forall (fun n => now < n)%Z news) -> advances now c c'.
Proof.
  intros Hi Hl Ho Er Eq Hd Hs Hn. apply (advances_by now d news); [done|done|lia|done| |done].
  unfold live. rewrite Er, Eq, app_comm_cons, (app_assoc news). by apply submseteq_skips_r.
Qed.

(** Rewriting an entry: [rest] goes and [news] come. *)
Lemma bind_insert_drop {A B} (f : A -> list B) l i x y rest news :
  l !! i = Some x -> rest ++ f y ⊆+ news ++ f x -> rest ++ (<[i := y]> l ≫= f) ⊆+ news ++ (l ≫= f).
Proof.
  intros Hi Hf. rewrite insert_take_drop by (by eapply lookup_lt_Some).
  assert (E : l = take i l ++ x :: drop (S i) l) by (symmetry; by apply take_drop_middle).
  rewrite E at 3. rewrite !bind_app, !bind_cons.
  transitivity ((take i l ≫= f) ++ (rest ++ f y) ++ (drop (S i) l ≫= f)); [apply permutation_sub; solve_Permutation|].
  transitivity ((take i l ≫= f) ++ (news ++ f x) ++ (drop (S i) l ≫= f)); [|apply permutation_sub; solve_Permutation].
  apply submseteq_skips_l, submseteq_skips_r, Hf.
Qed.

(** Freeing a slot takes its own deadline away, and a handshake's attempt deadline. *)
Lemma freed_slot_live s p x d :
  slots p !! s = Some x -> slot_deadlines x = [d] -> d :: pool_live (freed s p) ⊆+ pool_live p.
Proof.
  intros Hs Hd. unfold freed, pool_live. cbn. rewrite Permutation_middle. apply submseteq_app.
  - destruct (slot_owner p s) as [i|]; [|done]. apply (alter_peers_live _ _ _ []). intros e _. apply unlink_deadlines.
  - apply (bind_insert_drop slot_deadlines _ _ x Free [d] []); [done|]. by rewrite Hd.
Qed.

(** Rewriting a peer with fewer deadlines. *)
Lemma update_peer_drops i f p e a :
  peer_at p i = Some e -> a :: session_deadlines (sessions (f e)) ⊆+ session_deadlines (sessions e) ->
  a :: (peers (update_peer i f p) ≫= peer_deadlines) ⊆+ (peers p ≫= peer_deadlines).
Proof.
  intros He Hs. cbn. rewrite alter_as_insert. rewrite peer_at_lookup in He. rewrite He.
  by apply (bind_insert_drop peer_deadlines _ _ (Some e) (f <$> Some e) [a] []).
Qed.

Lemma aborted_attempt_live s p i e a :
  slot_owner p s = Some i -> peer_at p i = Some e -> handshake (sessions e) = Some s ->
  attempt_deadline (sessions e) = Some a -> a :: pool_live (freed s p) ⊆+ pool_live p.
Proof.
  intros Ho He Hh Ha. unfold freed, pool_live. rewrite Ho.
  cbn [peers slots with_slots with_indices]. rewrite app_comm_cons. apply submseteq_app.
  - eapply (update_peer_drops i _ p e a He). cbn [sessions with_sessions].
    unfold unlink. cbn [handshake set_generations]. rewrite Hh, bool_decide_eq_true_2 by done. unfold session_deadlines. cbn. rewrite Ha.
    destruct (keepalive_due _), (persistent_keepalive_due _), (reply_due _); cbn; solve_submseteq.
  - destruct (slots p !! s) as [x|] eqn:E.
    + apply (bind_insert slot_deadlines _ _ x Free []); [done|]. apply submseteq_nil_l.
    + by rewrite list_insert_ge by by apply lookup_ge_None.
Qed.

Lemma free_slot_core now s (c : Core) :
  core_inv c -> s < MAX_SESSIONS ->
  on_pool (free_slot s) c = (Ok tt, with_pool c (freed s (pool c))) /\
  core_inv (with_pool c (freed s (pool c))) /\ core_le now c (with_pool c (freed s (pool c))).
Proof.
  intros Hc Hs. assert (E : on_pool (free_slot s) c = (Ok tt, with_pool c (freed s (pool c)))).
  { unfold on_pool, zoom. by rewrite (free_slot_run _ _ None _ _ (co_pool _ Hc) Hs). }
  split; [done|]. pose proof (free_slot_moves now s c Hc) as H. by rewrite E in H.
Qed.

Lemma free_slot_advances now s x d (c : Core) :
  core_inv c -> slots (pool c) !! s = Some x -> slot_deadlines x = [d] -> (d <= now)%Z ->
  exists c', on_pool (free_slot s) c = (Ok tt, c') /\ advances now c c'.
Proof.
  intros Hc Hs Hx Hd. assert (s < MAX_SESSIONS).
  { rewrite <- (pi_slots _ _ _ _ (co_pool _ Hc)). by eapply lookup_lt_Some. }
  destruct (free_slot_core now s c Hc) as (E & Hi & Hl); [done|]. eexists. split; [exact E|].
  apply (pool_advances now d []); [done..| |by constructor]. by eapply freed_slot_live.
Qed.

(** The handshake a slot belongs to. *)
Lemma initiating_owner (c : Core) s hs :
  core_inv c -> slots (pool c) !! s = Some (InitiatingSlot hs) ->
  exists e, peer_at (pool c) (hs_peer hs) = Some e /\ handshake (sessions e) = Some s.
Proof.
  intros Hc Hs. pose proof (co_pool _ Hc) as Hp.
  destruct (pi_owned _ _ _ _ Hp s (hs_peer hs)) as (e & He & [Hl|]); [|exists e; split; [done|]|done].
  { unfold slot_owner. by rewrite Hs. }
  destruct (pi_links _ _ _ _ Hp _ _ He) as (_ & _ & H3). destruct (decide (handshake (sessions e) = Some s)) as [|Hne]; [done|].
  specialize (H3 s Hl Hne). unfold holds in H3. rewrite Hs in H3. by destruct H3.
Qed.

Lemma initiated_again_live i s h hs mac1 p :
  slots p !! s = Some (InitiatingSlot hs) ->
  retry_at hs :: pool_live (initiated i s h mac1 p) ⊆+ [retry_at h] ++ pool_live p.
Proof.
  intros Hs. unfold initiated, pool_live. cbn [peers slots with_timers update_peer with_peers with_slots with_indices].
  rewrite Permutation_middle, (app_assoc [_]), (Permutation_app_comm [_]), <- app_assoc. apply submseteq_app.
  - apply (alter_peers_live _ _ _ []). intros e _. done.
  - apply (bind_insert_drop slot_deadlines _ _ (InitiatingSlot hs) (InitiatingSlot h) [retry_at hs] [retry_at h]); [done|].
    cbn. apply permutation_sub, Permutation_swap.
Qed.

Lemma retransmit_advances now s hs (c : Core) :
  core_inv c -> slots (pool c) !! s = Some (InitiatingSlot hs) -> (retry_at hs <= now)%Z ->
  exists c', retransmit_initiation (hs_peer hs) s now c = (Ok tt, c') /\ advances now c c'.
Proof.
  intros Hc Hs Hd. pose proof (co_pool _ Hc) as Hp. unfold retransmit_initiation, send_initiation. rewrite bind_attempt, bind_run.
  pose proof (build_initiation_spec (hs_peer hs) s now c None Hp) as H.
  destruct (build_initiation (hs_peer hs) s now c) as [[msg|e] c1].
  - destruct H as (Hf & h & mac1 & e & Hh & Hr & He & Ep & Hi). { intros h. rewrite Hs. by intros [= <-]. }
    rewrite Hs in Hi. unfold ignore. cbn [fst is_ok negb snd].
    assert (Hp1 : pool_inv MAX_PEERS MAX_SESSIONS None (pool c1)).
    { rewrite Ep. pose proof (initiated_inv (hs_peer hs) s h mac1 (pool c) e Hh He) as H. rewrite Hs in H. by apply H. }
    assert (Hst : pool_step now (pool c) (pool c1)) by (rewrite Ep; by eapply initiated_step).
    destruct (stage_core_inv now c c1 Hc Hp1 Hf Hst) as [Hc1 Hl1].
    assert (H1 : advances now c c1).
    { apply (pool_advances now (retry_at hs) [retry_at h]); try done; [unfold orders; by rewrite (sf_routes _ _ Hf)|apply Hf|apply Hf| |].
      - rewrite Ep. by apply initiated_again_live.
      - intros [? ?]. constructor; [|done]. unfold instant_add, saturating_add, sat_add in Hr. lia. }
    eexists. split; [done|]. apply (advances_then now (transmit_wire (hs_peer hs) None msg now) c c1 H1).
    apply calm_of; [apply transmit_wire_moves|eauto with same typeclass_instances].
  - destruct H as [Ep Hf]. { intros h. rewrite Hs. by intros [= <-]. }
    cbn [fst is_ok negb snd].
    destruct (stage_core_inv now c c1 Hc) as [Hc1 Hl1]; [by rewrite Ep|done|rewrite Ep; apply pool_step_refl|].
    destruct (free_slot_advances now s (InitiatingSlot hs) (retry_at hs) c1 Hc1) as (c2 & E & Ha); [by rewrite Ep|done|done|].
    exists c2. split; [unfold ignore; by rewrite E|]. eapply le_advances; [exact Hl1| |exact Ha].
    unfold orders. rewrite (sf_routes _ _ Hf). lia.
Qed.

(** Nothing due in slot [s]. *)
Definition slot_quiet (now : Instant) (c : Core) (s : SlotIdx) : Prop :=
  match slots (pool c) !! s with
  | Some (InitiatingSlot hs) => (now < retry_at hs)%Z /\
      is_due now (peer_at (pool c) (hs_peer hs) ≫= fun peer => attempt_deadline (sessions peer)) = false
  | Some (Established sess) => (saturating_since now (created sess) < REJECT_AFTER_TIME)%Z
  | _ => True
  end.

Lemma is_due_true now o : is_due now o = true <-> exists d, o = Some d /\ (d <= now)%Z.
Proof.
  destruct o as [d|]; cbn; [|split; [done|by intros (? & ? & _)]]. rewrite Z.leb_le. split; [eauto|].
  by intros (? & [= <-] & ?).
Qed.

Lemma slot_timer_spec now s (c : Core) :
  core_inv c -> s < MAX_SESSIONS ->
  (slot_timer now s c = (Ok None, c) /\ slot_quiet now c s) \/
  exists c', slot_timer now s c = (Ok (Some true), c') /\ advances now c c'.
Proof.
  intros Hc Hs. assert (Hx : exists x, slots (pool c) !! s = Some x).
  { apply lookup_lt_is_Some_2. by rewrite (pi_slots _ _ _ _ (co_pool _ Hc)). }
  destruct Hx as [x Hx]. unfold slot_timer, slot_quiet. rewrite bind_gets, Hx. destruct x as [|hs|sess]; [by left| |].
  - rewrite bind_gets. destruct (is_due now _) eqn:Ed.
    + right. apply is_due_true in Ed as (a & Ha & Hd). destruct (initiating_owner c s hs Hc Hx) as (e & He & Hh).
      rewrite He in Ha. cbn in Ha. destruct (free_slot_core now s c Hc Hs) as (E & Hi & Hl).
      rewrite bind_ignore, E, bind_modify. cbn [snd]. eexists. split; [done|]. set (c1 := with_pool c _) in *.
      assert (H1 : advances now c c1).
      { apply (pool_advances now a []); [done..| |by constructor]. eapply (aborted_attempt_live s _ (hs_peer hs) e); [|done..].
        unfold slot_owner. by rewrite Hx. }
      apply (advances_then now (modify (fun c => with_pending c (drop_if (pending c) (awaits (hs_peer hs))))) c c1 H1).
      apply calm_of; [|apply same_modify; aloof_close]. intros c2 Hc2.
      split; [apply (core_inv_rest c2); try done; apply Hc2|]. split; [done|]. apply adv_drop.
      unfold live. cbn. apply submseteq_skips_l, submseteq_skips_r, drop_if_deadlines.
    + destruct (Z.leb_spec (retry_at hs) now) as [Hd|Hd].
      * right. destruct (retransmit_advances now s hs c Hc Hx Hd) as (c' & E & Ha). exists c'. split; [|done].
        by rewrite (bind_ok _ _ _ _ _ E).
      * left. done.
  - destruct (Z.leb_spec REJECT_AFTER_TIME (saturating_since now (created sess))) as [Hd|Hd]; [|by left].
    right. destruct (free_slot_advances now s _ (instant_add (created sess) REJECT_AFTER_TIME) c Hc Hx) as (c' & E & Ha); [done| |].
    { unfold instant_add, saturating_add, sat_add, saturating_since, sat_sub in *. change REJECT_AFTER_TIME with 180000%Z in *. lia. }
    exists c'. split; [|done]. unfold ignore. rewrite bind_run. by rewrite E.
Qed.

(** ** Peers *)

Definition peer_quiet (now : Instant) (entry : option PeerEntry) : Prop :=
  match entry with
  | Some e => is_due now (keepalive_due (sessions e)) = false /\ is_due now (persistent_keepalive_due (sessions e)) = false /\
              is_due now (reply_due (sessions e)) = false
  | None => True
  end.

Lemma edit_due_advances now i f e d (c : Core) :
  core_inv c -> link_preserving f -> (forall e, persistent_keepalive (f e) = persistent_keepalive e) ->
  (forall e, session_deadlines (sessions (f e)) ⊆+ session_deadlines (sessions e)) ->
  peer_at (pool c) i = Some e -> d :: session_deadlines (sessions (f e)) ⊆+ session_deadlines (sessions e) -> (d <= now)%Z ->
  advances now c (with_pool c (update_peer i f (pool c))).
Proof.
  intros Hc Hf Hk Hd He Hs Hle. apply (pool_advances now d []); try done.
  - apply edit_entry_inv; [done..|]. intros e0 iv He0. rewrite Hk. by apply (co_keepalive _ Hc i).
  - apply core_le_pool; [done..|]. apply adv_drop, (update_peer_live _ _ _ []). intros e0 _. apply Hd.
  - unfold pool_live. cbn [pool with_pool]. rewrite app_comm_cons, app_nil_l. apply submseteq_app; [|done].
    by eapply update_peer_drops.
Qed.

Lemma send_keepalive_calm pidx now : calm now (send_keepalive pidx now).
Proof.
  apply calm_bind; [apply calm_gets|]. intros [sidx|]; [|apply calm_mret].
  apply calm_bind; [|intros; apply calm_mret]. apply calm_ignore, calm_of; [apply encrypt_and_send_moves|].
  eauto with same typeclass_instances.
Qed.

Lemma ensure_handshake_calm pidx now : calm now (ensure_handshake pidx now).
Proof. apply calm_of; [apply ensure_handshake_moves|eauto with same typeclass_instances]. Qed.

Lemma rearm_persistent_calm pidx now iv :
  (1 <= iv)%Z ->
  calm now (_ ← edit_peer pidx (set_persistent (Some (instant_add now iv))); arm_timer (instant_add now iv) : Run unit).
Proof.
  intros Hiv. apply calm_of; [|aloof_tac]. intros c Hc. rewrite bind_edit_peer. set (c1 := with_pool c _).
  assert (Hc1 : core_inv c1).
  { apply edit_entry_inv; [done|done|]. intros e0 iv0 He0. apply (co_keepalive _ Hc pidx _ _ He0). }
  destruct (arm_timer_moves now (instant_add now iv) c1 Hc1) as [Hi _]. split; [exact Hi|].
  apply core_le_pool; [done..|]. rewrite run_arm_timer. cbn [snd pool with_pool]. apply adv_arm; [|by apply instant_add_mono].
  change (pool_live (with_timers ?q _)) with (pool_live q). apply (update_peer_live _ _ _ [_]). intros e _.
  unfold set_persistent, session_deadlines. cbn.
  destruct (keepalive_due _), (persistent_keepalive_due _), (reply_due _), (attempt_deadline _); cbn; solve_submseteq.
Qed.

(** A handler with no error. *)
Definition runs {A} (m : Run A) : Prop := forall c, exists a c', m c = (Ok a, c').

Lemma runs_bind {A B} (m : Run A) (k : A -> Run B) : runs m -> (forall a, runs (k a)) -> runs (m ≫= k).
Proof. intros Hm Hk c. destruct (Hm c) as (a & c' & E). rewrite (bind_ok _ _ _ _ _ E). apply Hk. Qed.
Lemma runs_mret {A} (a : A) : runs (mret a).
Proof. intros c. by exists a, c. Qed.
Lemma runs_ignore {A} (m : Run A) : runs (ignore m).
Proof. intros c. unfold ignore. eauto. Qed.
Lemma runs_modify f : runs (modify f).
Proof. intros c. unfold modify. eauto. Qed.

Lemma send_keepalive_runs pidx now : runs (send_keepalive pidx now).
Proof.
  intros c. unfold send_keepalive. rewrite bind_gets. destruct (usable_session _ _ _); [|by apply (runs_mret false)].
  rewrite bind_ignore. eauto.
Qed.

(** The first step takes a deadline away, the rest follows. *)
Lemma edit_then_advances now i f d e (k : unit -> Run (option bool)) (c : Core) :
  core_inv c -> link_preserving f -> (forall e, persistent_keepalive (f e) = persistent_keepalive e) ->
  (forall e, session_deadlines (sessions (f e)) ⊆+ session_deadlines (sessions e)) ->
  peer_at (pool c) i = Some e -> d :: session_deadlines (sessions (f e)) ⊆+ session_deadlines (sessions e) -> (d <= now)%Z ->
  calm now (k tt) -> runs (k tt) -> (forall c a c', k tt c = (Ok a, c') -> a = Some true) ->
  exists c', (edit_peer i f ≫= k) c = (Ok (Some true), c') /\ advances now c c'.
Proof.
  intros Hc Hf Hk Hd He Hs Hle Hcalm Hruns Htrue. rewrite bind_edit_peer. set (c1 := with_pool c _).
  assert (H1 : advances now c c1) by (by eapply edit_due_advances).
  destruct (Hruns c1) as (a & c2 & E). rewrite E. rewrite (Htrue _ _ _ E). exists c2. split; [done|].
  pose proof (advances_then now (k tt) c c1 H1 Hcalm) as H. by rewrite E in H.
Qed.

Lemma then_true {A} (m : Run A) c a c' : (_ ← m; mret (Some true) : Run (option bool)) c = (Ok a, c') -> a = Some true.
Proof. rewrite bind_run. destruct (m c) as [[x|e] c1]; [|done]. by intros [= <- _]. Qed.

Ltac drop_one := repeat first [done|apply submseteq_skip|by apply submseteq_cons].

Lemma peer_timer_spec now i (c : Core) :
  core_inv c ->
  (peer_timer now i c = (Ok None, c) /\ peer_quiet now (peer_at (pool c) i)) \/
  exists c', peer_timer now i c = (Ok (Some true), c') /\ advances now c c'.
Proof.
  intros Hc. unfold peer_timer. rewrite bind_gets. destruct (peer_at (pool c) i) as [e|] eqn:He; [|by left].
  destruct (is_due now (keepalive_due (sessions e))) eqn:E1.
  - right. apply is_due_true in E1 as (d & Hd & Hle). eapply (edit_then_advances now i clear_keepalive d e); try done.
    + intros x. unfold clear_keepalive, session_deadlines. cbn.
      destruct (keepalive_due (sessions x)); [by apply submseteq_cons|done].
    + unfold clear_keepalive, session_deadlines. cbn. by rewrite Hd.
    + apply calm_bind; [apply send_keepalive_calm|intros; apply calm_mret].
    + apply runs_bind; [apply send_keepalive_runs|intros; apply runs_mret].
    + intros ? ? ?. apply then_true.
  - destruct (is_due now (persistent_keepalive_due (sessions e))) eqn:E2.
    + right. apply is_due_true in E2 as (d & Hd & Hle). eapply (edit_then_advances now i (set_persistent None) d e); try done.
      * intros x. unfold set_persistent, session_deadlines. cbn.
        destruct (keepalive_due (sessions x)), (persistent_keepalive_due (sessions x)), (reply_due (sessions x)); cbn; drop_one.
      * unfold set_persistent, session_deadlines. cbn. rewrite Hd. destruct (keepalive_due _); cbn; [|done].
        apply permutation_sub, Permutation_swap.
      * apply calm_bind; [apply send_keepalive_calm|]. intros sent. apply calm_bind; [|intros; apply calm_mret].
        apply calm_if; [apply calm_mret|]. apply calm_bind; [apply calm_ignore, ensure_handshake_calm|]. intros _.
        destruct (persistent_keepalive e) as [iv|] eqn:Hiv; [|apply calm_mret].
        apply rearm_persistent_calm. by eapply (co_keepalive _ Hc).
      * apply runs_bind; [apply send_keepalive_runs|]. intros sent. apply runs_bind; [|intros; apply runs_mret].
        destruct sent; [apply runs_mret|]. apply runs_bind; [apply runs_ignore|]. intros _.
        destruct (persistent_keepalive e); [|apply runs_mret]. apply runs_bind; [apply runs_modify|]. intros _ c0.
        rewrite run_arm_timer. eauto.
      * intros c0 a c0' H. apply bind_inv_ok in H as (sent & c1 & _ & H). by apply then_true in H.
    + destruct (is_due now (reply_due (sessions e))) eqn:E3; [|by left]. right.
      apply is_due_true in E3 as (d & Hd & Hle). eapply (edit_then_advances now i clear_reply d e); try done.
      * intros x. unfold clear_reply, session_deadlines. cbn.
        destruct (keepalive_due (sessions x)), (persistent_keepalive_due (sessions x)), (reply_due (sessions x)); cbn; drop_one.
      * unfold clear_reply, session_deadlines. cbn. rewrite Hd.
        destruct (keepalive_due (sessions e)), (persistent_keepalive_due (sessions e)); cbn; apply permutation_sub;
          first [reflexivity|apply Permutation_swap|exact (Permutation_middle [_; _] _ _)].
      * apply calm_bind; [apply calm_ignore, ensure_handshake_calm|intros; apply calm_mret].
      * apply runs_bind; [apply runs_ignore|intros; apply runs_mret].
      * intros ? ? ?. apply then_true.
Qed.

(** ** The whole action *)

Lemma first_timer_spec now (f : nat -> Run (option bool)) (quiet : nat -> Prop) xs (c : Core) :
  (forall x, x ∈ xs -> (f x c = (Ok None, c) /\ quiet x) \/ exists c', f x c = (Ok (Some true), c') /\ advances now c c') ->
  (first_timer f xs c = (Ok None, c) /\ forall x, x ∈ xs -> quiet x) \/
  exists c', first_timer f xs c = (Ok (Some true), c') /\ advances now c c'.
Proof.
  induction xs as [|x xs IH]; intros H; [left; split; [done|]; intros x Hx; by apply elem_of_nil in Hx|]. cbn [first_timer].
  destruct (H x) as [[E Hq]|(c' & E & Ha)]; [set_solver| |].
  - rewrite (bind_ok _ _ _ _ _ E). destruct IH as [[E' Hq']|H']; [set_solver| |by right].
    left. split; [done|]. intros y [->|Hy]%elem_of_cons; auto.
  - right. exists c'. by rewrite (bind_ok _ _ _ _ _ E).
Qed.

(** Nothing of the engine is due. *)
Record quiescent (now : Instant) (c : Core) : Prop := {
  qu_parked : expire_one (pending c) now = (false, pending c);
  qu_resolves : Forall (fun e => now < ir_deadline e)%Z (resolves (resolver c));
  qu_owed : Forall (fun p => now < pr_due p)%Z (pending_reconciles (resolver c));
  qu_slots s : s < MAX_SESSIONS -> slot_quiet now c s;
  qu_peers i : i < MAX_PEERS -> peer_quiet now (peer_at (pool c) i);
}.

Lemma timeout_spec now (c : Core) :
  core_inv c ->
  (timeout now c = (Ok false, c) /\ quiescent now c) \/
  exists c', timeout now c = (Ok true, c') /\ advances now c c'.
Proof.
  intros Hc. unfold timeout.
  destruct (expire_parked_advances now c Hc) as [[E1 Q1]|(c' & E & Ha)]; [|right; exists c'; by rewrite (bind_ok _ _ _ _ _ E)].
  rewrite (bind_ok _ _ _ _ _ E1).
  destruct (expire_one_resolve_advances now c Hc) as [[E2 Q2]|(c' & E & Ha)]; [|right; exists c'; by rewrite (bind_ok _ _ _ _ _ E)].
  rewrite (bind_ok _ _ _ _ _ E2).
  destruct (promote_advances now c Hc) as [[E3 Q3]|(c' & E & Ha)]; [|right; exists c'; by rewrite (bind_ok _ _ _ _ _ E)].
  rewrite (bind_ok _ _ _ _ _ E3).
  destruct (first_timer_spec now (slot_timer now) (slot_quiet now c) (seq 0 MAX_SESSIONS) c) as [[E4 Q4]|(c' & E & Ha)].
  { intros s Hs%elem_of_seq. apply slot_timer_spec; [done|lia]. }
  2: { right. exists c'. by rewrite (bind_ok _ _ _ _ _ E). }
  rewrite (bind_ok _ _ _ _ _ E4).
  destruct (first_timer_spec now (peer_timer now) (fun i => peer_quiet now (peer_at (pool c) i)) (seq 0 MAX_PEERS) c) as [[E5 Q5]|(c' & E & Ha)].
  { intros i _. by apply peer_timer_spec. }
  2: { right. exists c'. by rewrite (bind_ok _ _ _ _ _ E). }
  left. rewrite (bind_ok _ _ _ _ _ E5). split; [done|]. split; [done..| |].
  - intros s Hs. apply Q4, elem_of_seq. lia.
  - intros i Hi. apply Q5, elem_of_seq. lia.
Qed.

End Drain.
