(* ===== verification/Engine.v ===== *)
(** * The engine as a state machine

    The stimuli the embedding feeds the engine, the states they lead to, and what holds
    in all of them: every table is well formed and [poll_at] is never later than a live
    deadline. Calling [handle_timeout] until it answers [false] ends, and leaves nothing
    due. *)

From S2P Require Import Prelude Clock Constants Ip Messages Effect Cidr Rate.
From S2P Require Import Firewall Routing Crypto Noise Session SessionIndex Pending Peer.
From S2P Require Import Pool Deadlines WallClock Resolve Core Demo Handshake Transport.
From S2P Require Import Frame Resolver Respond Receive Aloof Evict Upsert Answers.
From S2P Require Import Timers Attempts Drain.
Local Open Scope nat_scope.

Section Engine.
Context {SZ : Sizes} {CR : Cidr} {PM : PrefixMap nat} {PRM : Prims} {R : Type} {RG : RngCore R}.
Context {CL : CidrLaws} {ML : PrefixMapLaws (V:=nat) MAX_ROUTES} {PL : PrimLaws}.
Notation Run := (Eff (@Core CR PM R)).
Notation Core := (@Core CR PM R).
Context (accepts : list Output -> ResolveRequest -> bool).

(** ** The walk of [scan_deadlines] *)

(** Some deadline of [l] is at or before [d]. *)
Definition early (l : list Instant) (d : Instant) : Prop := exists x, x ∈ l /\ (x <= d)%Z.

Lemma early_app l l' d : early (l ++ l') d <-> early l d \/ early l' d.
Proof. unfold early. set_solver. Qed.
Lemma early_bind {A} (f : A -> list Instant) l d : early (l ≫= f) d <-> exists x, x ∈ l /\ early (f x) d.
Proof. unfold early. setoid_rewrite list_elem_of_bind. naive_solver. Qed.
Lemma early_map {A} (f : A -> Instant) l d : early (f <$> l) d <-> exists x, x ∈ l /\ (f x <= d)%Z.
Proof. unfold early. setoid_rewrite list_elem_of_fmap. naive_solver. Qed.

(** A walk that lowers its bound at every element. *)
Lemma fold_bound {A} (step : option Instant -> A -> option Instant) (P : A -> Prop) d xs b :
  (forall b x, at_or_before (step b x) d <-> at_or_before b d \/ P x) ->
  at_or_before (fold_left step xs b) d <-> at_or_before b d \/ exists x, x ∈ xs /\ P x.
Proof.
  intros Hs. revert b. induction xs as [|x xs IH]; intros b; cbn [fold_left].
  - split; [by left|]. intros [?|(x & Hx & _)]; [done|]. by apply elem_of_nil in Hx.
  - rewrite IH, Hs. set_solver.
Qed.

Lemma early_one d x : at_or_before (Some x) d <-> (x <= d)%Z.
Proof. done. Qed.

Lemma early_omap a b c e d :
  early (omap id [a; b; c; e]) d <-> at_or_before a d \/ at_or_before b d \/ at_or_before c d \/ at_or_before e d.
Proof.
  unfold early. setoid_rewrite list_elem_of_omap. unfold at_or_before. split.
  - intros (x & (o & Ho & E) & Hx). cbn in E. subst o.
    repeat (apply elem_of_cons in Ho as [<-|Ho]; [tauto|]). by apply elem_of_nil in Ho.
  - intros H. destruct H as [H|[H|[H|H]]];
      [destruct a as [x|]|destruct b as [x|]|destruct c as [x|]|destruct e as [x|]]; try done;
      exists x; (split; [|done]); exists (Some x); (split; [|done]); set_solver.
Qed.

Definition slot_early (p : Pool) (s : Slot) (d : Instant) : Prop :=
  early (slot_deadlines s) d \/
  match s with InitiatingSlot hs => exists e, peer_at p (hs_peer hs) = Some e /\ at_or_before (attempt_deadline (sessions e)) d | _ => False end.

Lemma scan_peer_bound b x d :
  at_or_before (@scan_peer CR b x) d <-> at_or_before b d \/
    match x with Some e => at_or_before (keepalive_due (sessions e)) d \/
      at_or_before (persistent_keepalive_due (sessions e)) d \/ at_or_before (reply_due (sessions e)) d | None => False end.
Proof. destruct x as [e|]; cbn; rewrite ?min_deadline_spec; tauto. Qed.

Lemma early_single x d : early [x] d <-> (x <= d)%Z.
Proof. unfold early. split; [intros (y & ->%list_elem_of_singleton & ?); done|]. exists x. set_solver. Qed.

Lemma scan_slot_bound p b s d : at_or_before (@scan_slot CR p b s) d <-> at_or_before b d \/ slot_early p s d.
Proof.
  unfold slot_early. destruct s as [|hs|sess]; cbn [scan_slot slot_deadlines].
  - split; [by left|]. intros [?|[(x & Hx & _)|[]]]; [done|]. by apply elem_of_nil in Hx.
  - rewrite early_single. destruct (peer_at p (hs_peer hs)) as [e|] eqn:He; rewrite !min_deadline_spec, early_one.
    + split; [intros [[?|?]|?]; eauto 6|]. intros [?|[?|(e' & [= <-] & ?)]]; auto.
    + split; [intros [?|?]; eauto|]. intros [?|[?|(e' & [=] & ?)]]; auto.
  - rewrite early_single, min_deadline_spec, early_one. tauto.
Qed.

Lemma scan_bound (c : Core) d :
  at_or_before (scan_deadlines c) d <->
  (exists e, Some e ∈ peers (pool c) /\ (at_or_before (keepalive_due (sessions e)) d \/
      at_or_before (persistent_keepalive_due (sessions e)) d \/ at_or_before (reply_due (sessions e)) d)) \/
  (exists s, s ∈ slots (pool c) /\ slot_early (pool c) s d) \/
  early (pool_deadlines (pending c)) d \/
  early (ir_deadline <$> resolves (resolver c)) d \/ early (pr_due <$> pending_reconciles (resolver c)) d.
Proof.
  unfold scan_deadlines. rewrite !early_map.
  rewrite (fold_bound _ (fun p => (pr_due p <= d)%Z)) by (intros; by rewrite min_deadline_spec).
  rewrite (fold_bound _ (fun r => (ir_deadline r <= d)%Z)) by (intros; by rewrite min_deadline_spec).
  rewrite min_deadline_spec, next_deadline_spec.
  rewrite (fold_bound _ (fun s => slot_early (pool c) s d)) by (intros; apply scan_slot_bound).
  rewrite (fold_bound scan_peer _ d _ _ (fun b x => scan_peer_bound b x d)).
  assert (Hp : early (pool_deadlines (pending c)) d <-> exists p, Some p ∈ pending c /\ (pp_deadline p <= d)%Z).
  { unfold early, pool_deadlines. setoid_rewrite list_elem_of_omap. split.
    - intros (x & ([p|] & Hp & E) & Hx); [|done]. injection E as <-. eauto.
    - intros (p & Hp & Hx). exists (pp_deadline p). split; [|done]. by exists (Some p). }
  rewrite Hp. split.
  - intros [[[[[[]|([e|] & He & H)]|H]|H]|H]|H]; try done; auto 6. left. by exists e.
  - intros [(e & He & H)|[H|[H|[H|H]]]]; auto. do 4 left. right. by exists (Some e).
Qed.

Lemma peer_in_table (c : Core) e : Some e ∈ peers (pool c) <-> exists i, peer_at (pool c) i = Some e.
Proof.
  rewrite list_elem_of_lookup. split; intros [i H]; exists i; by apply peer_at_lookup.
Qed.

(** The deadlines of a peer are its own and that of its attempt. *)
Lemma early_sessions ps d :
  early (session_deadlines ps) d <->
  (at_or_before (keepalive_due ps) d \/ at_or_before (persistent_keepalive_due ps) d \/ at_or_before (reply_due ps) d) \/
  at_or_before (attempt_deadline ps) d.
Proof. unfold session_deadlines. rewrite early_omap. tauto. Qed.

Lemma at_or_before_some o d : at_or_before o d -> is_Some o.
Proof. destruct o; [eauto|done]. Qed.

Lemma early_peers (c : Core) d :
  early (peers (pool c) ≫= peer_deadlines) d <-> exists e, Some e ∈ peers (pool c) /\ early (session_deadlines (sessions e)) d.
Proof.
  rewrite early_bind. split.
  - intros ([e|] & He & H); [eauto|]. destruct H as (x & Hx & _). by apply elem_of_nil in Hx.
  - intros (e & He & H). by exists (Some e).
Qed.

(** The walk reads every live deadline and nothing else. *)
Lemma scan_early (c : Core) d :
  core_inv c -> attempts c -> at_or_before (scan_deadlines c) d <-> early (live c) d.
Proof.
  intros Hc Ha. rewrite scan_bound. unfold live, pool_live. rewrite !early_app, early_peers, (early_bind slot_deadlines).
  setoid_rewrite early_sessions. split.
  - intros [(e & He & H)|[(s & Hs & [H|H])|H]]; [left; left; eauto|left; right; eauto| |by right].
    destruct s as [|hs|]; try done. destruct H as (e & He & H). left. left. exists e. split; [|by right].
    apply peer_in_table. eauto.
  - intros [[(e & He & [H|H])|(s & Hs & H)]|H]; [by left; eauto| | |by right; right].
    + right. left. apply peer_in_table in He as [i He]. destruct (Ha i e He) as [s Hh]; [by eapply at_or_before_some|].
      destruct (pi_links _ _ _ _ (co_pool _ Hc) i e He) as (_ & Hhs & _). specialize (Hhs s Hh). unfold holds in Hhs.
      destruct (slots (pool c) !! s) as [[|hs|]|] eqn:Es; try done; [|by destruct Hhs]. exists (InitiatingSlot hs). split; [by eapply list_elem_of_lookup_2|].
      right. exists e. split; [|done]. by destruct Hhs as [_ ->].
    + right. left. exists s. split; [done|]. by left.
Qed.

(** The least of a list of deadlines. *)
Definition earliest (l : list Instant) : option Instant := foldr (fun d acc => min_deadline (Some d) acc) None l.

Lemma earliest_early l d : at_or_before (earliest l) d <-> early l d.
Proof.
  induction l as [|x l IH]; cbn [earliest foldr].
  - split; [done|]. intros (x & Hx & _). by apply elem_of_nil in Hx.
  - fold (earliest l). rewrite min_deadline_spec, IH. unfold early. cbn [at_or_before]. set_solver.
Qed.

Lemma bound_ext a b : (forall d, at_or_before a d <-> at_or_before b d) -> a = b.
Proof.
  intros H. destruct a as [x|], b as [y|]; [| | |done].
  - pose proof (H x) as Hx. pose proof (H y) as Hy. cbn in *. f_equal. lia.
  - pose proof (H x) as Hx. cbn in Hx. lia.
  - pose proof (H y) as Hy. cbn in Hy. lia.
Qed.

(** ** One call *)

Record ready (c : Core) : Prop := {
  re_inv : core_inv c;
  re_attempts : attempts c;
  re_cover : tc_sound (timers (pool c)) (live c);
}.

Definition core_set_unix_time (unix_secs nanos : Z) (now : Instant) (c : Core) : Core :=
  with_wallclock c (WallClock.set_unix_time unix_secs nanos now (wallclock c)).

(** What the embedding may do to the engine. *)
Inductive Stimulus :=
| SendInner (packet : list Z)
| ReceiveOuter (source : SocketAddr) (datagram : list Z)
| ResolverEventCompleted (event : ResolverEvent)
| HandleTimeout
| SetUnixTime (unix_secs nanos : Z).

Definition stimulus_wf (s : Stimulus) : Prop := match s with ResolverEventCompleted event => event_wf event | _ => True end.

(** The state it leaves, whatever the call answered. *)
Definition feed (now : Instant) (s : Stimulus) (c : Core) : Core :=
  match s with
  | SendInner packet => snd (send_inner accepts now packet c)
  | ReceiveOuter source datagram => snd (receive_outer accepts now source datagram c)
  | ResolverEventCompleted event => snd (resolver_event_completed accepts now event c)
  | HandleTimeout => snd (handle_timeout accepts now c)
  | SetUnixTime unix_secs nanos => core_set_unix_time unix_secs nanos now c
  end.

Inductive reach (c0 : Core) : nat -> Core -> Prop :=
| ReachStart : reach c0 0 c0
| ReachFeed n c now s : reach c0 n c -> stimulus_wf s -> reach c0 (S n) (feed now s c).

Lemma moved_ready {A} n now (m : Run A) (c : Core) : ready c -> grows n now m c -> keeps attempts m -> ready (snd (m c)).
Proof.
  intros [Hc Ha Ht] [[Hi [_ Hl]] _] Hk. split; [done|by apply Hk|]. eapply adv_sound; [exact Hl|exact Ht].
Qed.

Lemma then_flush_attempts {A} (m : Run A) : keeps attempts m -> keeps attempts (then_flush accepts m).
Proof.
  intros Hm. apply keeps_bind; [by apply keeps_attempt|]. intros r. apply keeps_bind; [apply flush_sink_attempts|].
  intros _ c Hc. exact Hc.
Qed.

(** ** [handle_timeout] *)

Lemma flush_sink_timers : same (fun c : Core => timers (pool c)) (flush_sink_output accepts).
Proof.
  assert (H : forall n, same (fun c : Core => timers (pool c)) (flush_requests accepts n)).
  { induction n as [|n IH]; cbn [flush_requests]; unfold emit; same_tac; exact IH. }
  unfold flush_sink_output. same_tac.
Qed.

Lemma arm_ready d (c : Core) : ready c -> ready (snd (arm_timer d c)) /\ live (snd (arm_timer d c)) = live c.
Proof.
  intros [Hc Ha Ht]. destruct (arm_timer_moves 0%Z d c Hc) as [Hi [_ Hl]]. rewrite run_arm_timer in *. cbn [snd] in *.
  split; [|done]. split; [done|exact Ha|]. eapply adv_sound; [exact Hl|exact Ht].
Qed.

Lemma flush_requests_runs n : runs (@flush_requests CR PM R accepts n).
Proof.
  induction n as [|n IH]; cbn [flush_requests]; [apply runs_mret|].
  intros c. rewrite bind_gets. destruct (pos ← _; _) as [[i e]|]; [|by apply (runs_mret tt)]. rewrite bind_gets.
  destruct (negb _); [by apply (runs_mret tt)|]. apply (runs_bind (emit _)); [apply runs_modify|]. intros _.
  apply runs_bind; [apply runs_modify|]. by intros _.
Qed.

Lemma flush_sink_runs : runs (@flush_sink_output CR PM R accepts).
Proof.
  apply (runs_bind (modify _)); [apply runs_modify|]. intros _ c. rewrite bind_gets. apply flush_requests_runs.
Qed.

Lemma flush_sink_spec now (c : Core) :
  ready c -> exists c', flush_sink_output accepts c = (Ok tt, c') /\ ready c' /\ poll_at c' = poll_at c /\
    (orders c' <= orders c)%Z /\ core_le now c c'.
Proof.
  intros Hr. pose proof (flush_sink_output_calm accepts now c (re_inv _ Hr)) as Hg.
  pose proof (moved_ready 0 now _ _ Hr Hg (flush_sink_attempts accepts)) as Hr2.
  pose proof (same_run _ _ c flush_sink_timers) as Et. cbn beta in Et.
  destruct (flush_sink_runs c) as ([] & c' & E). rewrite E in *. cbn [snd] in *. exists c'. split; [done|].
  destruct Hg as [[_ Hl] Ho]. rewrite E in Hl, Ho. cbn [snd] in *. split_and!; [done|unfold poll_at; by rewrite Et|lia|done].
Qed.

Definition rescanned (c : Core) : Core :=
  with_pool c (with_timers (pool c) (tc_set_exact (timers (pool c)) (scan_deadlines c))).

Lemma rescanned_ready (c : Core) : ready c -> ready (rescanned c).
Proof.
  intros [Hc Ha Ht]. split.
  - destruct (arm_timer_moves 0%Z 0%Z c Hc) as [Hi _]. rewrite run_arm_timer in Hi. cbn [snd] in Hi.
    destruct Hi as [Hp Hs Hk Hka Hr Ho Hrt Hrs Hcf Hsc Hrl]. split; try done. destruct Hp. by split.
  - exact Ha.
  - unfold tc_sound, rescanned. cbn. change (live _) with (live c). apply Forall_forall. intros d Hd.
    apply (scan_early c d Hc Ha). by exists d.
Qed.

(** The two ways the call goes. *)
Lemma handle_timeout_cases now (c : Core) :
  ready c ->
  (exists c', handle_timeout accepts now c = (Ok false, c') /\ ready c' /\ poll_at c' = scan_deadlines c /\
     (orders c' <= orders c)%Z /\ core_le now (rescanned c) c' /\ quiescent now c) \/
  (exists c', handle_timeout accepts now c = (Ok true, c') /\ ready c' /\ (orders c' <= orders c)%Z /\
     core_le now c c' /\ at_or_before (poll_at c') now /\ (prompt now c -> backlog now c' < backlog now c)).
Proof.
  intros Hr. unfold handle_timeout. pose proof (timeout_attempts now c (re_attempts _ Hr)) as Hta.
  destruct (timeout_spec now c (re_inv _ Hr)) as [[E Hq]|(c1 & E & Ha)]; rewrite E in Hta; rewrite (bind_ok _ _ _ _ _ E).
  - left. rewrite bind_assoc, bind_gets, bind_on_pool. change (modify _ (pool c)) with (Ok tt : Result unit, pool (rescanned c)).
    cbv beta iota. change (with_pool c (pool (rescanned c))) with (rescanned c).
    destruct (flush_sink_spec now (rescanned c) (rescanned_ready c Hr)) as (c2 & E2 & Hr2 & Hp & Ho & Hl).
    rewrite (bind_ok _ _ _ _ _ E2). exists c2. split; [done|]. by split_and!.
  - right. destruct Ha as [Hi Hl Ho Hd].
    assert (Hr1 : ready c1). { split; [done|exact Hta|]. destruct Hl as [_ Hl]. eapply adv_sound; [exact Hl|apply Hr]. }
    destruct (arm_ready now c1 Hr1) as [Hr2 Elive]. destruct (arm_timer_moves now now c1 Hi) as [_ Hl2]. rewrite run_arm_timer in *. cbn [snd] in *.
    rewrite bind_run, run_arm_timer. set (c2 := with_pool c1 _) in *.
    destruct (flush_sink_spec now c2 Hr2) as (c3 & E3 & Hr3 & Hp & Ho3 & Hl3). rewrite (bind_ok _ _ _ _ _ E3).
    assert (Hle : core_le now c1 c3) by (eapply core_le_trans; [exact Hl2|exact Hl3]).
    exists c3. split; [done|]. split_and!; [done|change (orders c2) with (orders c1) in Ho3; lia| | |].
    + eapply core_le_trans; [exact Hl|exact Hle].
    + rewrite Hp. unfold poll_at, c2. cbn. rewrite tc_arm_get. apply min_deadline_spec. right. cbn. lia.
    + intros Hpr. specialize (Hd Hpr). pose proof (backlog_le now c1 c3 Hle (prompt_le _ _ _ Hl Hpr)). lia.
Qed.

(** ** Nothing due *)

Lemma not_early (l : list Instant) now : ~ early l now -> Forall (fun d => now < d)%Z l.
Proof. intros H. apply Forall_forall. intros d Hd. destruct (Z.lt_ge_cases now d); [done|]. destruct H. by exists d. Qed.

Lemma is_due_early now o : is_due now o = false -> ~ at_or_before o now.
Proof. destruct o as [d|]; cbn; [|tauto]. intros H. bool_lia. Qed.

Lemma Forall_not_early {A} (f : A -> Instant) l now : Forall (fun x => now < f x)%Z l -> ~ early (f <$> l) now.
Proof. rewrite early_map, Forall_forall. intros H (x & Hx & Hd). specialize (H x Hx). cbn in H. lia. Qed.

Lemma not_expired (p : PendingPool) now : expire_one p now = (false, p) -> ~ early (pool_deadlines p) now.
Proof.
  unfold expire_one. destruct (position _ p) eqn:E; [done|]. intros _ (d & Hd & Hle).
  apply list_elem_of_omap in Hd as ([q|] & Hq & Eq); [|done]. injection Eq as <-.
  rewrite position_None, Forall_forall in E. specialize (E _ Hq). cbn in E. bool_lia.
Qed.

Lemma quiescent_live now (c : Core) :
  (now < u64_max)%Z -> core_inv c -> attempts c -> quiescent now c -> Forall (fun d => now < d)%Z (live c).
Proof.
  intros Hnow Hc Ha [Q1 Q2 Q3 Q4 Q5]. apply not_early. rewrite <- (scan_early c now Hc Ha), scan_bound.
  pose proof (co_pool _ Hc) as Hp. intros [(e & He & H)|[(s & Hs & H)|[H|[H|H]]]].
  - apply peer_in_table in He as [i He]. assert (Hi : i < MAX_PEERS).
    { rewrite <- (pi_peers _ _ _ _ Hp). apply peer_at_lookup in He. by eapply lookup_lt_Some. }
    specialize (Q5 i Hi). rewrite He in Q5. destruct Q5 as (H1 & H2 & H3).
    by destruct H as [H|[H|H]]; [apply (is_due_early _ _ H1)|apply (is_due_early _ _ H2)|apply (is_due_early _ _ H3)].
  - apply list_elem_of_lookup in Hs as [i Hi]. assert (Hlt : i < MAX_SESSIONS).
    { rewrite <- (pi_slots _ _ _ _ Hp). by eapply lookup_lt_Some. }
    specialize (Q4 i Hlt). unfold slot_quiet in Q4. rewrite Hi in Q4. destruct s as [|hs|sess]; destruct H as [H|H]; try done.
    + destruct H as (x & Hx & _). by apply elem_of_nil in Hx.
    + cbn in H. rewrite early_single in H. lia.
    + destruct H as (e & He & H). rewrite He in Q4. destruct Q4 as [_ Q4]. exact (is_due_early _ _ Q4 H).
    + cbn in H. rewrite early_single in H. unfold instant_add, saturating_add, sat_add, saturating_since, sat_sub in *. lia.
  - by apply (not_expired _ _ Q1).
  - by apply (Forall_not_early ir_deadline _ _ Q2).
  - by apply (Forall_not_early pr_due _ _ Q3).
Qed.

Lemma backlog_zero now (c : Core) : backlog now c = 0 <-> Forall (fun d => now < d)%Z (live c).
Proof.
  unfold backlog. split; [|intros H; by rewrite due_none]. intros H. apply nil_length_inv in H. apply Forall_forall. intros d Hd.
  destruct (Z.lt_ge_cases now d) as [|Hle]; [done|]. assert (Hin : d ∈ due now (live c)); [|by rewrite H in Hin; apply elem_of_nil in Hin].
  unfold due. apply elem_of_retain. split; [by apply Z.leb_le|done].
Qed.

(** A call that found nothing to do. *)
Lemma idle_call now (c c' : Core) :
  ready c -> prompt now c -> poll_at c' = scan_deadlines c -> core_le now (rescanned c) c' -> quiescent now c ->
  Forall (fun d => now < d)%Z (live c') /\ forall t, poll_at c' = Some t -> (now < t)%Z.
Proof.
  intros Hr Hp Et Hl Hq. destruct Hp as [Hnow Hn].
  assert (Hlive : Forall (fun d => now < d)%Z (live c)) by (apply quiescent_live; [lia|apply Hr..|done]).
  split.
  - apply backlog_zero. pose proof (backlog_le now (rescanned c) c' Hl (conj Hnow Hn)) as H.
    assert (E : backlog now (rescanned c) = 0) by by apply (backlog_zero now (rescanned c)). lia.
  - intros t Ht. rewrite Et in Ht. assert (He : early (live c) t).
    { apply (scan_early c t (re_inv _ Hr) (re_attempts _ Hr)). rewrite Ht. cbn. lia. }
    destruct He as (d & Hd & Hle). rewrite Forall_forall in Hlive. specialize (Hlive d Hd). cbn in Hlive. lia.
Qed.

(** ** Draining *)

(** [handle_timeout] again and again until it answers [false], as its contract asks of
    the embedding; [false] here when the fuel runs out first. *)
Fixpoint drain (fuel : nat) (now : Instant) : Run bool :=
  match fuel with
  | O => mret false
  | S fuel => worked ← handle_timeout accepts now; if worked : bool then drain fuel now else mret true
  end.

(** The check [poll_at] makes in instrumented builds. *)
Definition poll_at_valid (c : Core) : bool :=
  match tc_get (timers (pool c)), scan_deadlines c with
  | Some cached, Some exact => (cached <=? exact)%Z
  | None, exact => negb (bool_decide (is_Some exact))
  | Some _, None => true
  end.

Lemma cover_bound (c : Core) d : ready c -> at_or_before (scan_deadlines c) d -> at_or_before (poll_at c) d.
Proof.
  intros Hr H. apply (scan_early c d (re_inv _ Hr) (re_attempts _ Hr)) in H as (x & Hx & Hle).
  pose proof (re_cover _ Hr) as Hc. unfold tc_sound in Hc. rewrite Forall_forall in Hc. specialize (Hc x Hx). unfold poll_at.
  destruct (tc_get _); [|done]. cbn in *. lia.
Qed.

Lemma ready_valid (c : Core) : ready c -> poll_at_valid c = true.
Proof.
  intros Hr. unfold poll_at_valid. pose proof (fun d => cover_bound c d Hr) as H. unfold poll_at in H.
  destruct (tc_get _) as [t|], (scan_deadlines c) as [x|]; try done; specialize (H x (Z.le_refl x)); cbn in H; [|done].
  by apply Z.leb_le.
Qed.

Lemma feed_ready now s (c : Core) :
  ready c -> stimulus_wf s -> (orders c < u64_max)%Z -> ready (feed now s c) /\ (orders (feed now s c) <= orders c + 1)%Z.
Proof.
  intros Hr Hs Ho. pose proof (re_inv _ Hr) as Hc. destruct s as [packet|source data|event| |secs nanos]; cbn [feed].
  - pose proof (send_inner_calm accepts now packet c Hc) as Hg. split; [|destruct Hg; lia].
    apply (moved_ready 0 now); [done|done|]. apply then_flush_attempts, outbound_attempts.
  - pose proof (receive_outer_calm accepts now source data c Hc) as Hg. split; [|destruct Hg; lia].
    apply (moved_ready 0 now); [done|done|]. apply then_flush_attempts. destruct (_ <? _); [apply throw_keeps|apply datagram_attempts].
  - pose proof (resolver_event_grows accepts now event c Hc Hs Ho) as Hg. split; [|by destruct Hg].
    apply (moved_ready 1 now); [done|done|]. apply then_flush_attempts. destruct event; [apply resolved_attempts|apply apply_held_attempts].
  - destruct (handle_timeout_cases now c Hr) as [(c' & E & Hr' & _ & Ho' & _)|(c' & E & Hr' & Ho' & _)]; rewrite E; (split; [done|]); cbn; lia.
  - split; [|unfold orders; cbn; lia]. unfold core_set_unix_time. split.
    + apply (core_inv_rest c); try done; apply Hc.
    + apply Hr.
    + apply Hr.
Qed.

Lemma reach_ready (c0 c : Core) (n : nat) :
  ready c0 -> reach c0 n c -> (orders c0 + Z.of_nat n <= u64_max)%Z ->
  ready c /\ (orders c <= orders c0 + Z.of_nat n)%Z.
Proof.
  intros H0 H. induction H as [|n c now s H IH Hs]; intros Hn; [split; [done|lia]|].
  destruct IH as [Hr Ho]; [lia|]. destruct (feed_ready now s c Hr Hs) as [Hr' Ho']; [lia|]. split; [done|lia].
Qed.

(** Every call of the embedding, in any order and at any instants, leaves the engine
    well formed: the peer, session and route tables, their indices and the resolver's
    queues satisfy their invariants, an attempt deadline belongs to a running handshake,
    and the timer cache is at or before every live deadline. A route is installed by at
    most one in each resolver event, so the insertion orders of the route cache last for
    2^64 events. *)
Theorem engine_stays_ready (c0 c : Core) (n : nat) :
  ready c0 -> reach c0 n c -> (orders c0 + Z.of_nat n <= u64_max)%Z ->
  ready c /\ poll_at_valid c = true /\ (orders c <= orders c0 + Z.of_nat n)%Z.
Proof.
  intros H0 H Hle. destruct (reach_ready c0 c n H0 H Hle) as [Hr Ho]. split; [done|]. split; [by apply ready_valid|done].
Qed.

(** C14: [scan_deadlines] computes the least of the live deadlines: those of every peer,
    its attempt's included, of every handshake and session, of every parked packet, of
    every lookup and of every owed reconciliation. *)
Theorem scan_deadlines_exact (c : Core) : ready c -> scan_deadlines c = earliest (live c).
Proof.
  intros Hr. apply bound_ext. intros d. rewrite (scan_early c d (re_inv _ Hr) (re_attempts _ Hr)). symmetry. apply earliest_early.
Qed.

(** C8: Where the clock has not reached its end and the configured negative lifetime is
    not zero ([prompt]), calling [handle_timeout] until it answers [false] ends: a call
    that answers [true] takes a due deadline away and adds none that is due, and keeps
    [poll_at] at or before [now]. After at most one call per due deadline and one more
    nothing is due and [poll_at] is later than [now]. With a lifetime of zero, which the
    engine accepts, it may go on forever ([zero_negative_ttl_spins]). *)
Theorem timers_drain (now : Instant) (c : Core) :
  ready c -> prompt now c ->
  exists c', drain (S (backlog now c)) now c = (Ok true, c') /\ ready c' /\
    Forall (fun d => now < d)%Z (live c') /\ (forall t, poll_at c' = Some t -> (now < t)%Z).
Proof.
  remember (backlog now c) as n eqn:En. assert (Hn : backlog now c <= n) by lia. clear En. revert c Hn.
  induction n as [|n IH]; intros c Hn Hr Hp; cbn [drain];
    destruct (handle_timeout_cases now c Hr) as [(c' & E & Hr' & Et & _ & Hl & Hq)|(c' & E & Hr' & _ & Hl & _ & Hd)];
    rewrite (bind_ok _ _ _ _ _ E).
  1, 3: exists c'; split; [done|]; split; [done|]; by apply (idle_call now c).
  - specialize (Hd Hp). lia.
  - specialize (Hd Hp). apply IH; [lia|done|]. by apply (prompt_le now c).
Qed.

End Engine.

(** ** Witnesses *)

(** Accepts every lookup. *)
Definition demo_accepts : list Output -> ResolveRequest -> bool := fun _ _ => true.

(** An engine with one session, whose expiry its cache covers. *)
Definition demo_ready : @Core CidrModel.ops MapModel.ops Z := snd (arm_timer REJECT_AFTER_TIME demo_sender).

Lemma demo_ready_ready : ready demo_ready.
Proof.
  pose proof (demo_connected_inv 1 2 51820 (demo_key 5) (demo_key 6) 70 80 eq_refl eq_refl) as Hc.
  destruct (arm_timer_moves 0 REJECT_AFTER_TIME demo_sender Hc) as [Hi _]. split; [exact Hi| |].
  - intros [|[|i]] e; [|done|done]. intros [= <-] [d Hd]. discriminate Hd.
  - assert (E : live demo_ready = [REJECT_AFTER_TIME]) by (vm_compute; reflexivity). unfold tc_sound. rewrite E.
    constructor; [|constructor]. vm_compute. discriminate.
Qed.

Lemma engine_stays_ready_witness :
  ready (feed demo_accepts 5000%Z (SendInner [1%Z]) demo_ready).
Proof.
  refine (proj1 (engine_stays_ready (PL := Toy.laws) demo_accepts demo_ready _ 1 demo_ready_ready _ _)).
  - apply ReachFeed; [constructor|exact I].
  - vm_compute. discriminate.
Defined.

Lemma scan_deadlines_exact_witness : scan_deadlines demo_ready = Some REJECT_AFTER_TIME.
Proof. rewrite (scan_deadlines_exact (PL := Toy.laws) demo_ready demo_ready_ready). vm_compute. reflexivity. Defined.

Lemma timers_drain_witness :
  exists c', drain demo_accepts 2 200000%Z demo_ready = (Ok true, c') /\ forall t, poll_at c' = Some t -> (200000 < t)%Z.
Proof.
  destruct (timers_drain (PL := Toy.laws) demo_accepts 200000%Z demo_ready demo_ready_ready) as (c' & E & _ & _ & Ht).
  - unfold prompt, u64_max. cbn. lia.
  - exists c'. split; [exact E|exact Ht].
Defined.

(** ** A negative lifetime of zero

    [CoreConfig] accepts it. A reconciliation deferred by that lifetime is due again at
    once: while the lookup table is full every call of [handle_timeout] does the same
    work and answers [true]. *)
Definition spinning : @Core CidrModel.ops MapModel.ops Z :=
  with_pool (with_resolver demo_ready
    (mkResolver (mkResolverConfig 10000 10000 0 2 0 30000 2 60000 5000)
       [mkInflightResolve 0%Z (ByDstAddress (V4 1)) OutboundResolve 9000%Z true;
        mkInflightResolve 1%Z (ByDstAddress (V4 2)) OutboundResolve 9000%Z true] 2%Z
       (replicate 2 None) [] [mkPendingReconcile (Crypto.public_key (replicate 32 2%Z)) 1000%Z] (replicate 2 None) (tb_new 1 4 0) (ib_new 10000 1 0)))
    (with_timers (pool demo_ready) (mkTimerCache (Some 1000%Z))).

(** One deadline is due and a thousand calls do not serve it. *)
Example zero_negative_ttl_spins :
  backlog 1000%Z spinning = 1 /\ fst (drain demo_accepts 1000 1000%Z spinning) = Ok false.
Proof. split; vm_compute; reflexivity. Qed.

(** ** A refused held record and a parked initiation

    [mark_negative] drops every entry of the query, a running lookup included: the
    initiation parked for that lookup is neither answered nor released, and no timer
    looks at it any more. *)
Definition held_core : @Core CidrModel.ops MapModel.ops Z :=
  let c := demo_core 1 2 51820 in
  let key := Crypto.public_key (replicate 32 2%Z) in
  with_resolver
    (with_pool c (installed 0 (peer_new key Dynamic (replicate 32 0%Z) None None AllowAll None demo_net 0%Z) (pool_init 2 4)))
    (mkResolver demo_config
       [mkInflightResolve 7%Z (ByPublicKey key) (Install AuthenticatedInitiatorInstall) 9000%Z true] 8%Z
       [Some (mkPendingInitiation 7%Z (demo_endpoint 5) (mkConsumed [] [] [] key [] 1%Z)); None] [] [] (replicate 2 None)
       (tb_new 1 4 0) (ib_new 10000 1 0)).

Example refused_record_orphans_initiation :
  let c := snd (resolver_event_completed demo_accepts 1000%Z
             (PeerUpdated (mkPeerUpdate (Crypto.public_key (replicate 32 2%Z)) NotFound)) held_core) in
  (ir_kind <$> resolves (resolver c)) = [Negative] /\ (pi_resolve_id <$> omap id (pending_initiations (resolver c))) = [7%Z].
Proof. split; vm_compute; reflexivity. Qed.
