(* ===== verification/Config.v ===== *)
(** * Settings of the engine ([microtun-core/src/config.rs])

    The tunables with their defaults and the check against the storage ceilings of
    [constants.rs] and [firewall.rs], which depend on the backend. *)

From S2P Require Import Prelude Clock Constants Ip Messages Cidr Firewall.
Local Open Scope Z_scope.

(** ** Ceilings and defaults; [alloc] is [cfg!(feature = "alloc")] *)

Section Ceilings.
Context (alloc : bool).

Definition MAX_PEER_EVICTION_GHOSTS : Z := if alloc then 256 else 16.
Definition MAX_RATE_LIMIT_ENTRIES : Z := if alloc then 4096 else 64.
Definition MAX_INFLIGHT_RESOLVES : Z := if alloc then 256 else 12.
Definition MAX_PENDING_INITIATIONS : Z := if alloc then 32 else 4.
Definition MAX_PENDING_PACKETS : Z := if alloc then 64 else 2.
Definition FIREWALL_FLOWS_CEILING : Z := if alloc then 16384 else 64.
Definition DEFAULT_RATE_LIMIT_ENTRIES : Z := if alloc then 1024 else MAX_RATE_LIMIT_ENTRIES.
Definition DEFAULT_FIREWALL_FLOWS : Z := if alloc then 4096 else FIREWALL_FLOWS_CEILING.
Definition DEFAULT_FIREWALL_FLOWS_PER_PEER : Z := if alloc then 128 else 8.

Definition DEFAULT_RESOLVE_TIMEOUT : Duration := from_secs 10.
Definition DEFAULT_RESOLVE_OUTBOUND_TIMEOUT : Duration := from_secs 10.
Definition DEFAULT_NEGATIVE_TTL : Duration := from_secs 60.
Definition DEFAULT_DYNAMIC_PEER_MIN_IDLE : Duration := from_secs 30.
Definition DEFAULT_PEER_EVICTION_INTERVAL : Duration := from_secs 10.
Definition DEFAULT_PEER_EVICTION_BURST : Z := 1.
Definition DEFAULT_PEER_EVICTION_GHOST_TTL : Duration := from_secs 60.
Definition DEFAULT_PEER_EVICTION_GHOSTS : Z := 8.
Definition DEFAULT_RELAY_RESOLVE_MIN_INTERVAL : Duration := from_secs 5.
Definition DEFAULT_LAZY_PEER_RESERVE : Z := 1.
Definition DEFAULT_FIREWALL_UDP_TIMEOUT : Duration := from_secs 60.
Definition DEFAULT_FIREWALL_ICMP_TIMEOUT : Duration := from_secs 30.
Definition DEFAULT_FIREWALL_TCP_TIMEOUT : Duration := from_secs (30 * 60).
Definition DEFAULT_FIREWALL_TCP_CLOSING_TIMEOUT : Duration := from_secs 30.
Definition DEFAULT_UNDER_LOAD_HANDSHAKES_PER_SEC : Z := 8.
Definition DEFAULT_UNDER_LOAD_FREE_SLOTS : Z := 1.
Definition DEFAULT_RATE_LIMIT_PER_SEC : Z := 20.
Definition DEFAULT_RATE_LIMIT_BURST : Z := 5.
Definition DEFAULT_REMOTE_RESOLVE_PER_SEC : Z := 1.
Definition DEFAULT_REMOTE_RESOLVE_BURST : Z := 4.
Definition DEFAULT_UNKNOWN_AUTH_PER_SEC : Z := 2.
Definition DEFAULT_UNKNOWN_AUTH_BURST : Z := 4.
Definition DEFAULT_INFLIGHT_RESOLVES : Z := 12.

Record CoreConfig := mkCoreConfig {
  cc_resolve_timeout : Duration;
  cc_resolve_outbound_timeout : Duration;
  cc_negative_ttl : Duration;
  cc_dynamic_peer_min_idle : Duration;
  cc_peer_eviction_interval : Duration;
  cc_peer_eviction_burst : Z;
  cc_peer_eviction_ghost_ttl : Duration;
  cc_peer_eviction_ghost_entries : Z;
  cc_relay_resolve_min_interval : Duration;
  cc_lazy_peer_reserve : Z;
  cc_firewall_udp_timeout : Duration;
  cc_firewall_icmp_timeout : Duration;
  cc_firewall_tcp_timeout : Duration;
  cc_firewall_tcp_closing_timeout : Duration;
  cc_firewall_flow_entries : Z;
  cc_firewall_flows_per_peer : Z;
  cc_under_load_handshakes_per_sec : Z;
  cc_under_load_free_slots : Z;
  cc_rate_limit_per_sec : Z;
  cc_rate_limit_burst : Z;
  cc_rate_limit_entries : Z;
  cc_remote_resolve_per_sec : Z;
  cc_remote_resolve_burst : Z;
  cc_unknown_auth_per_sec : Z;
  cc_unknown_auth_burst : Z;
  cc_max_inflight_resolves : Z;
}.

Definition core_config_default : CoreConfig := {|
  cc_resolve_timeout := DEFAULT_RESOLVE_TIMEOUT;
  cc_resolve_outbound_timeout := DEFAULT_RESOLVE_OUTBOUND_TIMEOUT;
  cc_negative_ttl := DEFAULT_NEGATIVE_TTL;
  cc_dynamic_peer_min_idle := DEFAULT_DYNAMIC_PEER_MIN_IDLE;
  cc_peer_eviction_interval := DEFAULT_PEER_EVICTION_INTERVAL;
  cc_peer_eviction_burst := DEFAULT_PEER_EVICTION_BURST;
  cc_peer_eviction_ghost_ttl := DEFAULT_PEER_EVICTION_GHOST_TTL;
  cc_peer_eviction_ghost_entries := DEFAULT_PEER_EVICTION_GHOSTS;
  cc_relay_resolve_min_interval := DEFAULT_RELAY_RESOLVE_MIN_INTERVAL;
  cc_lazy_peer_reserve := DEFAULT_LAZY_PEER_RESERVE;
  cc_firewall_udp_timeout := DEFAULT_FIREWALL_UDP_TIMEOUT;
  cc_firewall_icmp_timeout := DEFAULT_FIREWALL_ICMP_TIMEOUT;
  cc_firewall_tcp_timeout := DEFAULT_FIREWALL_TCP_TIMEOUT;
  cc_firewall_tcp_closing_timeout := DEFAULT_FIREWALL_TCP_CLOSING_TIMEOUT;
  cc_firewall_flow_entries := DEFAULT_FIREWALL_FLOWS;
  cc_firewall_flows_per_peer := DEFAULT_FIREWALL_FLOWS_PER_PEER;
  cc_under_load_handshakes_per_sec := DEFAULT_UNDER_LOAD_HANDSHAKES_PER_SEC;
  cc_under_load_free_slots := DEFAULT_UNDER_LOAD_FREE_SLOTS;
  cc_rate_limit_per_sec := DEFAULT_RATE_LIMIT_PER_SEC;
  cc_rate_limit_burst := DEFAULT_RATE_LIMIT_BURST;
  cc_rate_limit_entries := DEFAULT_RATE_LIMIT_ENTRIES;
  cc_remote_resolve_per_sec := DEFAULT_REMOTE_RESOLVE_PER_SEC;
  cc_remote_resolve_burst := DEFAULT_REMOTE_RESOLVE_BURST;
  cc_unknown_auth_per_sec := DEFAULT_UNKNOWN_AUTH_PER_SEC;
  cc_unknown_auth_burst := DEFAULT_UNKNOWN_AUTH_BURST;
  cc_max_inflight_resolves := DEFAULT_INFLIGHT_RESOLVES;
|}.

(** The first condition guards storage, the second keeps timers moving. *)
Definition validate_against_limits (cfg : CoreConfig) : Result unit :=
  if (MAX_RATE_LIMIT_ENTRIES <? cc_rate_limit_entries cfg)
     || (FIREWALL_FLOWS_CEILING <? cc_firewall_flow_entries cfg)
     || (cc_firewall_flow_entries cfg =? 0)
     || (cc_firewall_flows_per_peer cfg =? 0)
     || (cc_firewall_flow_entries cfg <? cc_firewall_flows_per_peer cfg)
     || (MAX_INFLIGHT_RESOLVES <? cc_max_inflight_resolves cfg)
     || (MAX_PEER_EVICTION_GHOSTS <? cc_peer_eviction_ghost_entries cfg)
  then Failed InvalidCapacity else
  if (cc_resolve_timeout cfg =? 0)
     || (cc_resolve_outbound_timeout cfg =? 0)
     || (cc_peer_eviction_interval cfg =? 0)
     || (cc_peer_eviction_burst cfg =? 0)
  then Failed InvalidCoreConfig else Ok tt.

(** ** Specification *)

(** The field types: durations are [u64], the rest [u32] or [usize]; only the fields
    the invariants of the engine read are listed. *)
Record config_typed (cfg : CoreConfig) : Prop := {
  ct_resolve : is_u64 (cc_resolve_timeout cfg);
  ct_outbound : is_u64 (cc_resolve_outbound_timeout cfg);
  ct_ttl : is_u64 (cc_negative_ttl cfg);
  ct_interval : is_u64 (cc_peer_eviction_interval cfg);
  ct_burst : is_u32 (cc_peer_eviction_burst cfg);
  ct_reserve : is_u64 (cc_lazy_peer_reserve cfg);
  ct_inflight : is_u64 (cc_max_inflight_resolves cfg);
  ct_flows : is_u64 (cc_firewall_flow_entries cfg);
  ct_per_peer : is_u64 (cc_firewall_flows_per_peer cfg);
}.

Record config_fits (cfg : CoreConfig) : Prop := {
  cf_rate : cc_rate_limit_entries cfg <= MAX_RATE_LIMIT_ENTRIES;
  cf_flows : 0 < cc_firewall_flow_entries cfg <= FIREWALL_FLOWS_CEILING;
  cf_per_peer : 0 < cc_firewall_flows_per_peer cfg <= cc_firewall_flow_entries cfg;
  cf_inflight : cc_max_inflight_resolves cfg <= MAX_INFLIGHT_RESOLVES;
  cf_ghosts : cc_peer_eviction_ghost_entries cfg <= MAX_PEER_EVICTION_GHOSTS;
  cf_resolve : 0 < cc_resolve_timeout cfg;
  cf_outbound : 0 < cc_resolve_outbound_timeout cfg;
  cf_interval : 0 < cc_peer_eviction_interval cfg;
  cf_burst : 0 < cc_peer_eviction_burst cfg;
}.

Lemma validate_iff cfg : config_typed cfg -> validate_against_limits cfg = Ok tt <-> config_fits cfg.
Proof.
  intros []. unfold is_u64, is_u32 in *. unfold validate_against_limits. split.
  - intros H. case_match; [done|]. case_match; [done|]. bool_to_prop. split; lia.
  - intros []. repeat (case_match; [exfalso; bool_to_prop; destruct_or?; bool_to_prop; lia|]). done.
Qed.

End Ceilings.

(** The shipped defaults are typed and fit the ceilings of their backend. *)
Lemma default_config_fits alloc :
  config_typed (core_config_default alloc) /\ config_fits alloc (core_config_default alloc).
Proof. destruct alloc; split; constructor; vm_compute; first [congruence|split; congruence]. Qed.

(** ** The configuration of an engine *)

Section Pinned.
Context {CR : Cidr}.

Record PinnedPeer := mkPinnedPeer {
  pin_public_key : list Z;
  pin_endpoint : option SocketAddr;
  pin_relay : option (list Z);
  pin_address : IpCidr;
  pin_inbound_policy : InboundPolicy;
  pin_persistent_keepalive : option Duration;
}.

Record Config := mkConfig {
  cfg_private_key : list Z;
  cfg_pinned : list PinnedPeer;
  cfg_core_config : CoreConfig;
}.

(** [Config::new] and [with_core_config] *)
Definition config_new (alloc : bool) (private_key : list Z) (pinned : list PinnedPeer) : Config :=
  mkConfig private_key pinned (core_config_default alloc).
Definition with_core_config (cfg : Config) (core : CoreConfig) : Config :=
  mkConfig (cfg_private_key cfg) (cfg_pinned cfg) core.

End Pinned.
