(* ===== verification/Construct.v ===== *)
(** * Construction of an engine ([Core::new] of [microtun-core/src/lib.rs])

    The checks of the sizes, the settings and the pinned peers, the empty engine, and
    the installation of the pinned peers. Every accepted configuration yields an engine
    that satisfies the invariant the other files start from. *)

From S2P Require Import Prelude Clock Constants Ip Messages Effect Cidr Rate.
From S2P Require Import Firewall Routing Crypto Noise Cookie Session Pending Peer.
From S2P Require Import Pool Deadlines WallClock Load Resolve Core Demo Evict.
From S2P Require Import Upsert Timers Attempts Drain Engine Config TrieMap.
Local Open Scope nat_scope.

Section Construct.
Context {CR : Cidr} {PM : PrefixMap nat} {R : Type} {PR : Prims} {RC : RngCore R} {SZ : Sizes}.
Context (alloc : bool).

Notation Run := (Eff (@Core CR PM R)).
Notation Core := (@Core CR PM R).

Definition is_power_of_two (n : nat) : bool :=
  (0 <? n) && (Z.land (Z.of_nat n) (Z.of_nat n - 1) =? 0)%Z.

Definition validate_pool_parameters : Result unit :=
  if (MAX_PEERS =? 0) || (MAX_SESSIONS =? 0) || (REPLAY_WORDS =? 0)
     || (u32_max <? Z.of_nat MAX_PEERS)%Z || (u32_max <? Z.of_nat MAX_SESSIONS)%Z
  then Failed InvalidCapacity else
  if negb alloc
     && ((MAX_PEERS <=? 1) || negb (is_power_of_two MAX_PEERS)
         || (MAX_SESSIONS <=? 1) || negb (is_power_of_two MAX_SESSIONS))
  then Failed InvalidCapacity else Ok tt.

(** ** The pinned peers *)

Definition check_relay (pinned : list PinnedPeer) (peer : PinnedPeer) : Result unit :=
  match pin_relay peer with
  | None => Ok tt
  | Some relay_key =>
      if bool_decide (relay_key = pin_public_key peer) then Failed InvalidPinnedConfiguration else
      match find (fun candidate => bool_decide (pin_public_key candidate = relay_key)) pinned with
      | None => Failed InvalidPinnedConfiguration
      | Some relay =>
          if bool_decide (pin_endpoint relay = None) || bool_decide (is_Some (pin_relay relay))
          then Failed InvalidPinnedConfiguration else Ok tt
      end
  end.

Definition check_pinned (s_pub : list Z) (pinned previous_peers : list PinnedPeer) (peer : PinnedPeer) : Result unit :=
  if bool_decide (pin_public_key peer = s_pub) then Failed InvalidPinnedConfiguration else
  if existsb (fun other => bool_decide (pin_public_key other = pin_public_key peer)) previous_peers
  then Failed InvalidPinnedConfiguration else
  _ ← check_relay pinned peer;
  if network_length (pin_address peer) =? 0 then Failed InvalidPinnedConfiguration else
  if existsb (fun previous => cidrs_overlap (pin_address previous) (pin_address peer)) previous_peers
  then Failed InvalidPinnedConfiguration else Ok tt.

(** [for (i, peer) in pinned.iter().enumerate()], with [previous_peers = &pinned[..i]] *)
Fixpoint check_from (s_pub : list Z) (pinned previous_peers rest : list PinnedPeer) : Result unit :=
  match rest with
  | [] => Ok tt
  | peer :: rest =>
      _ ← check_pinned s_pub pinned previous_peers peer;
      check_from s_pub pinned (previous_peers ++ [peer]) rest
  end.

(** ** The empty engine *)

Definition resolver_config (cfg : CoreConfig) : ResolverConfig :=
  mkResolverConfig (cc_resolve_timeout cfg) (cc_resolve_outbound_timeout cfg) (cc_negative_ttl cfg)
    (Z.to_nat (cc_max_inflight_resolves cfg)) (Z.to_nat (cc_lazy_peer_reserve cfg)) (cc_dynamic_peer_min_idle cfg)
    (Z.to_nat (cc_peer_eviction_ghost_entries cfg)) (cc_peer_eviction_ghost_ttl cfg) (cc_relay_resolve_min_interval cfg).

Definition empty_resolver (cfg : CoreConfig) (now : Instant) : Resolver :=
  mkResolver (resolver_config cfg) [] 1
    (replicate (Z.to_nat (MAX_PENDING_INITIATIONS alloc)) None) [] []
    (replicate (Z.to_nat (MAX_PEER_EVICTION_GHOSTS alloc)) None)
    (tb_new (cc_remote_resolve_per_sec cfg) (cc_remote_resolve_burst cfg) now)
    (ib_new (cc_peer_eviction_interval cfg) (cc_peer_eviction_burst cfg) now).

Definition empty_gate (cfg : CoreConfig) (secret : CookieSecret) (now : Instant) : Gate :=
  mkGate secret
    (rl_new (cc_rate_limit_per_sec cfg) (cc_rate_limit_burst cfg) (Z.to_nat (cc_rate_limit_entries cfg)))
    (tb_new (cc_unknown_auth_per_sec cfg) (cc_unknown_auth_burst cfg) now).

Definition empty_firewall (cfg : CoreConfig) : Firewall :=
  with_limits_and_timeouts MAX_FIREWALL_FLOWS MAX_PEERS
    (Z.to_nat (cc_firewall_flow_entries cfg)) (Z.to_nat (cc_firewall_flows_per_peer cfg))
    (mkTimeouts (cc_firewall_udp_timeout cfg) (cc_firewall_icmp_timeout cfg)
       (cc_firewall_tcp_timeout cfg) (cc_firewall_tcp_closing_timeout cfg)).

Definition empty_core (cfg : CoreConfig) (s_priv : list Z) (r : R) (policy : list Z -> list Z -> bool)
    (now : Instant) : Core :=
  let s_pub := Crypto.public_key s_priv in
  let '(secret, r) := cs_new r now in
  mkCore r
    (mkKeys s_priv s_pub (mac1_key s_pub) (cookie_key s_pub))
    (mkLoadConfig (Z.to_nat (cc_under_load_free_slots cfg)) (cc_under_load_handshakes_per_sec cfg))
    policy
    (pool_init MAX_PEERS MAX_SESSIONS)
    (rc_new MAX_ROUTES)
    (pool_new (Z.to_nat (MAX_PENDING_PACKETS alloc)))
    (empty_gate cfg secret now)
    (empty_firewall cfg)
    wall_init
    (mkLoad now 0 0)
    (empty_resolver cfg now)
    (replicate MAX_UDP_SIZE 0%Z) (replicate MAX_UDP_SIZE 0%Z) [].

(** ** Installing the pinned peers *)

Definition pinned_entry (p : PinnedPeer) (shared : list Z) (now : Instant) : PeerEntry :=
  peer_new (pin_public_key p) Pinned shared (pin_endpoint p) (pin_relay p) (pin_inbound_policy p)
    (pin_persistent_keepalive p) (pin_address p) now.

Definition install_pinned (now : Instant) (i : nat) (p : PinnedPeer) : Run unit :=
  k ← gets keys;
  shared ← lift (dh (s_priv k) (pin_public_key p));
  _ ← on_pool (install_peer MAX_PEERS i (pinned_entry p shared now));
  on_routes (fun rc => rc_insert rc (pin_address p) i true now).

Fixpoint install_from (now : Instant) (i : nat) (pinned : list PinnedPeer) : Run unit :=
  match pinned with
  | [] => mret tt
  | p :: rest => _ ← install_pinned now i p; install_from now (S i) rest
  end.

(** [Core::new] *)
Definition core_new (config : Config) (r : R) (policy : list Z -> list Z -> bool) (now : Instant) : Result Core :=
  _ ← validate_pool_parameters;
  let core_config := cfg_core_config config in
  let pinned := cfg_pinned config in
  let s_priv := cfg_private_key config in
  _ ← validate_against_limits alloc core_config;
  if (Z.of_nat MAX_PEERS <? cc_lazy_peer_reserve core_config)%Z then Failed InvalidCapacity else
  if forallb (fun byte => byte =? 0)%Z s_priv then Failed InvalidPrivateKey else
  let s_pub := Crypto.public_key s_priv in
  if MAX_PEERS <? length pinned then Failed PeerTableFull else
  _ ← check_from s_pub pinned [] pinned;
  let '(result, core) := install_from now 0 pinned (empty_core core_config s_priv r policy now) in
  _ ← result;
  mret core.

(** ** Reading it *)

Definition core_public_key (c : Core) : list Z := s_pub (keys c).

Inductive PeerOrigin := OriginPinned | OriginDynamic.
Inductive PeerConnectionState := Idle | Handshaking | AwaitingConfirmation | ConnEstablished | Rekeying.

Record PeerSnapshot := mkPeerSnapshot {
  sn_public_key : list Z;
  sn_origin : PeerOrigin;
  sn_endpoint : option SocketAddr;
  sn_endpoint_confirmed : bool;
  sn_relay : option (list Z);
  sn_address : IpCidr;
  sn_persistent_keepalive : option Duration;
  sn_connection : PeerConnectionState;
  sn_latest_handshake : option Instant;
  sn_last_activity : Instant;
  sn_rx_bytes : Z;
  sn_tx_bytes : Z;
}.

Definition established_at (p : Pool) (s : option SlotIdx) : bool :=
  match s ≫= fun sidx => slots p !! sidx with Some (Established _) => true | _ => false end.
Definition initiating_at (p : Pool) (s : option SlotIdx) : bool :=
  match s ≫= fun sidx => slots p !! sidx with Some (InitiatingSlot _) => true | _ => false end.

Definition connection_state (p : Pool) (ps : PeerSessions) : PeerConnectionState :=
  let has_current := established_at p (current ps) in
  let has_next := established_at p (next ps) in
  let has_handshake := initiating_at p (handshake ps) in
  if has_current && (has_handshake || has_next) then Rekeying else
  if has_current then ConnEstablished else
  if has_next then AwaitingConfirmation else
  if has_handshake then Handshaking else Idle.

Definition peer_snapshot (p : Pool) (e : PeerEntry) : PeerSnapshot :=
  mkPeerSnapshot (public_key e) (match kind e with Pinned => OriginPinned | Dynamic => OriginDynamic end)
    (endpoint e) (bool_decide (is_Some (endpoint_confirmed e))) (relay e) (address e) (persistent_keepalive e)
    (connection_state p (sessions e)) (latest_handshake e) (last_activity e) (rx_bytes e) (tx_bytes e).

Definition peer_snapshots (c : Core) : list PeerSnapshot :=
  peer_snapshot (pool c) <$> omap id (peers (pool c)).

End Construct.

(** ** Overlapping prefixes *)

Section Overlap.
Context {CR : Cidr} {CL : CidrLaws}.

Lemma contains_own (a : IpCidr) : contains a (first_address a) = true.
Proof. by apply contains_true. Qed.

Lemma contains_shorter (a b : IpCidr) ip :
  network_length a <= network_length b -> contains a ip = true -> contains b ip = true ->
  contains a (first_address b) = true.
Proof.
  rewrite !contains_true. unfold ckey. intros Hl Ha Hb. rewrite <- Ha. symmetry.
  by eapply prefix_key_take.
Qed.

(** Two prefixes overlap when some address is in both. *)
Lemma cidrs_overlap_spec (a b : IpCidr) :
  cidrs_overlap a b = true <-> exists ip, contains a ip = true /\ contains b ip = true.
Proof.
  unfold cidrs_overlap. rewrite orb_true_iff. split.
  - intros [H|H]; [exists (first_address b)|exists (first_address a)]; by rewrite contains_own.
  - intros (ip & Ha & Hb). destruct (le_ge_dec (network_length a) (network_length b)).
    + left. by eapply contains_shorter.
    + right. by eapply contains_shorter.
Qed.

End Overlap.

(** ** What the checks accept *)

Section Accepted.
Context {CR : Cidr} {CL : CidrLaws}.

Definition disjoint_from (p q : PinnedPeer) : Prop :=
  forall ip, contains (pin_address p) ip = true -> contains (pin_address q) ip = true -> False.

(** A relayed peer names another pinned peer that is reached directly. *)
Definition relay_ok (pinned : list PinnedPeer) (p : PinnedPeer) : Prop :=
  forall k, pin_relay p = Some k -> k <> pin_public_key p /\
    exists r, r ∈ pinned /\ pin_public_key r = k /\ is_Some (pin_endpoint r) /\ pin_relay r = None.

Record pinned_ok (s_pub : list Z) (pinned : list PinnedPeer) : Prop := {
  po_keys : NoDup (pin_public_key <$> pinned);
  po_not_us : s_pub ∉ pin_public_key <$> pinned;
  po_relays p : p ∈ pinned -> relay_ok pinned p;
  po_no_default p : p ∈ pinned -> network_length (pin_address p) <> 0;
  po_disjoint i j p q : i < j -> pinned !! i = Some p -> pinned !! j = Some q -> disjoint_from p q;
}.

Lemma existsb_false {A} (f : A -> bool) l : existsb f l = false <-> forall x, x ∈ l -> f x = false.
Proof.
  induction l as [|x l IH]; cbn; [split; [intros _ x []%elem_of_nil|done]|].
  rewrite orb_false_iff, IH. split; [intros [? ?] y [->|?]%elem_of_cons; auto|]. intros H. split; [|intros y Hy]; apply H; set_solver.
Qed.

Lemma check_relay_sound pinned p : check_relay pinned p = Ok tt -> relay_ok pinned p.
Proof.
  unfold check_relay. intros H k Hk. rewrite Hk in H. case_bool_decide as Hne; [done|].
  destruct (find _ pinned) as [r|] eqn:Ef; [|done]. apply find_some in Ef as [Hr Ek]. apply bool_decide_eq_true in Ek.
  destruct (_ || _) eqn:Eb; [done|]. apply orb_false_iff in Eb as [E1 E2]. apply bool_decide_eq_false in E1, E2.
  split; [done|]. exists r. split_and!; [by apply list_elem_of_In|done|by apply not_eq_None_Some|by apply eq_None_not_Some].
Qed.

Lemma check_relay_complete pinned p :
  NoDup (pin_public_key <$> pinned) -> relay_ok pinned p -> check_relay pinned p = Ok tt.
Proof.
  unfold check_relay. intros Hnd H. destruct (pin_relay p) as [k|] eqn:Ek; [|done].
  destruct (H k Ek) as (Hne & r & Hr & Hk & Hep & Hrl). rewrite bool_decide_eq_false_2 by done.
  destruct (find _ pinned) as [r'|] eqn:Ef.
  - apply find_some in Ef as [Hr' E']. apply bool_decide_eq_true in E'. apply list_elem_of_In in Hr'.
    assert (r' = r) as ->.
    { apply list_elem_of_lookup in Hr as [i Hi]. apply list_elem_of_lookup in Hr' as [j Hj].
      assert (i = j) as <-; [|congruence].
      apply (NoDup_lookup (pin_public_key <$> pinned) i j k Hnd); rewrite list_lookup_fmap, ?Hi, ?Hj; cbn; congruence. }
    rewrite Hrl. rewrite (bool_decide_eq_false_2 (pin_endpoint r = None)) by (destruct Hep; congruence).
    by rewrite bool_decide_eq_false_2 by (by intros []).
  - apply find_none with (x := r) in Ef; [|by apply list_elem_of_In]. by rewrite bool_decide_eq_false in Ef.
Qed.

Lemma check_pinned_iff s_pub pinned prev p :
  check_pinned s_pub pinned prev p = Ok tt <->
  pin_public_key p <> s_pub /\ (forall o, o ∈ prev -> pin_public_key o <> pin_public_key p) /\
  check_relay pinned p = Ok tt /\ network_length (pin_address p) <> 0 /\ (forall o, o ∈ prev -> disjoint_from o p).
Proof.
  assert (Hdis : existsb (fun previous => cidrs_overlap (pin_address previous) (pin_address p)) prev = false <->
                 forall o, o ∈ prev -> disjoint_from o p).
  { rewrite existsb_false. apply forall_proper. intros o. apply forall_proper. intros _. rewrite <- not_true_iff_false, cidrs_overlap_spec.
    unfold disjoint_from. split; [intros H ip ? ?; eauto|]. intros H (ip & ? & ?). eauto. }
  assert (Hkeys : existsb (fun other => bool_decide (pin_public_key other = pin_public_key p)) prev = false <->
                  forall o, o ∈ prev -> pin_public_key o <> pin_public_key p).
  { rewrite existsb_false. apply forall_proper. intros o. by rewrite bool_decide_eq_false. }
  rewrite <- Hdis, <- Hkeys. clear Hdis Hkeys. unfold check_pinned.
  set (b1 := existsb (fun other => _) prev). set (b2 := existsb (fun previous => _) prev). clearbody b1 b2.
  case_bool_decide; [split; [intros [=]|by intros (? & _)]|].
  destruct b1; [split; [intros [=]|by intros (_ & ? & _)]|].
  destruct (check_relay pinned p) as [[]|]; cbn [mbind result_bind]; [|split; [intros [=]|by intros (_ & _ & ? & _)]].
  destruct (Nat.eqb_spec (network_length (pin_address p)) 0); [split; [intros [=]|by intros (_ & _ & _ & ? & _)]|].
  destruct b2; [split; [intros [=]|by intros (_ & _ & _ & _ & ?)]|done].
Qed.

Lemma check_from_iff s_pub pinned prev rest :
  check_from s_pub pinned prev rest = Ok tt <->
  forall i p, rest !! i = Some p -> check_pinned s_pub pinned (prev ++ take i rest) p = Ok tt.
Proof.
  revert prev. induction rest as [|p rest IH]; intros prev; cbn [check_from]; [done|].
  rewrite bind_Ok. split.
  - intros ([] & Hp & Hr) i q. destruct i as [|i]; cbn; [intros [= <-]; by rewrite app_nil_r|]. intros Hq.
    rewrite IH in Hr. specialize (Hr i q Hq). by rewrite <- app_assoc in Hr.
  - intros H. exists tt. split; [specialize (H 0 p eq_refl); by rewrite app_nil_r in H|]. apply IH.
    intros i q Hq. specialize (H (S i) q Hq). cbn in H. by rewrite <- app_assoc.
Qed.

Lemma check_from_pinned_ok s_pub pinned : check_from s_pub pinned [] pinned = Ok tt <-> pinned_ok s_pub pinned.
Proof.
  rewrite check_from_iff. cbn [app]. split.
  - intros H. pose proof (fun i p Hp => proj1 (check_pinned_iff _ _ _ _) (H i p Hp)) as H'. clear H. cbv beta in H'.
    assert (Hin : forall p, p ∈ pinned -> exists i, pinned !! i = Some p) by (intros p Hp; by apply list_elem_of_lookup in Hp).
    split.
    + apply NoDup_alt. intros i j k (p & Hk & Hp)%list_lookup_fmap_Some (q & Hk' & Hq)%list_lookup_fmap_Some.
      destruct (lt_eq_lt_dec i j) as [[Hlt|]|Hlt]; [exfalso|done|exfalso].
      * destruct (H' j q Hq) as (_ & Hne & _). apply (Hne p); [|congruence]. apply elem_of_take. eauto.
      * destruct (H' i p Hp) as (_ & Hne & _). apply (Hne q); [|congruence]. apply elem_of_take. eauto.
    + intros (p & -> & Hp)%list_elem_of_fmap. destruct (Hin p Hp) as [i Hi]. by destruct (H' i p Hi) as [? _].
    + intros p [i Hi]%Hin. apply check_relay_sound, (H' i p Hi).
    + intros p [i Hi]%Hin. apply (H' i p Hi).
    + intros i j p q Hlt Hi Hj. destruct (H' j q Hj) as (_ & _ & _ & _ & Hd). apply Hd, elem_of_take. eauto.
  - intros [Hk Hu Hr Hd Ho] i p Hi. apply check_pinned_iff. pose proof (list_elem_of_lookup_2 _ _ _ Hi) as Hin. split_and!.
    + intros E. apply Hu, list_elem_of_fmap. eauto.
    + intros o (j & Ej & Hj)%elem_of_take E. assert (j = i) as ->; [|lia].
      apply (NoDup_lookup (pin_public_key <$> pinned) j i (pin_public_key p) Hk); rewrite list_lookup_fmap, ?Ej, ?Hi; cbn; congruence.
    + by apply check_relay_complete; [|apply Hr].
    + by apply Hd.
    + intros o (j & Ej & Hj)%elem_of_take. by eapply (Ho j i).
Qed.

End Accepted.

(** ** The installation *)

Section Installed.
Context {SZ : Sizes} {CR : Cidr} {PM : PrefixMap nat} {PRM : Prims} {R : Type} {RG : RngCore R}.
Context {CL : CidrLaws} {ML : PrefixMapLaws (V:=nat) MAX_ROUTES} {PL : PrimLaws}.
Notation Run := (Eff (@Core CR PM R)).
Notation Core := (@Core CR PM R).

Lemma omap_insert_perm {A} (l : list (option A)) i x :
  l !! i = Some None -> omap id (<[i := Some x]> l) ≡ₚ x :: omap id l.
Proof.
  revert i. induction l as [|y l IH]; intros [|i]; cbn; [done|done|by intros [= ->]|].
  intros Hi. destruct y as [y|]; cbn; rewrite (IH i Hi); [constructor|done].
Qed.

Lemma omap_full {A} (l : list (option A)) : None ∉ l -> length (omap id l) = length l.
Proof.
  induction l as [|[y|] l IH]; cbn; [done| |by rewrite elem_of_cons; intros []; left].
  rewrite not_elem_of_cons. intros [_ H]. by rewrite IH.
Qed.

Lemma length_omap_id {A} (l : list (option A)) : length (omap id l) <= length l.
Proof. induction l as [|[y|] l IH]; cbn; lia. Qed.

(** What the types of a pinned peer give. *)
Definition pinned_typed (p : PinnedPeer) : Prop :=
  length (pin_public_key p) = 32 /\ forall iv, pin_persistent_keepalive p = Some iv -> (0 <= iv)%Z.

Definition shared_of (k : list Z) (p : PinnedPeer) : list Z :=
  match dh k (pin_public_key p) with Ok s => s | Failed _ => [] end.

Definition pinned_route (now : Instant) (i : nat) (p : PinnedPeer) : RouteEntry :=
  mkRouteEntry (pin_address p) i true now (Z.of_nat i).

Context (s_private : list Z) (now : Instant) (pinned : list PinnedPeer).

(** The engine with the first [k] pinned peers installed. *)
Record staged (k : nat) (c : Core) : Prop := {
  st_inv : core_inv c;
  st_attempts : attempts c;
  st_cover : tc_sound (timers (pool c)) (live c);
  st_keys : s_priv (keys c) = s_private;
  st_peers j : peer_at (pool c) j = (fun p => pinned_entry p (shared_of s_private p) now) <$> (take k pinned !! j);
  st_routes : Routing.routes (routes c) ≡ₚ imap (pinned_route now) (take k pinned);
  st_orders : orders c = Z.of_nat k;
}.

Context (Htyped : forall p, p ∈ pinned -> pinned_typed p) (Hkeys : NoDup (pin_public_key <$> pinned)).
Context (Hfit : length pinned <= MAX_PEERS) (Hwidth : (Z.of_nat MAX_PEERS <= u32_max)%Z).

Lemma pinned_route_peer k e : e ∈ imap (pinned_route now) (take k pinned) -> re_peer e < k.
Proof.
  rewrite elem_of_lookup_imap. intros (i & p & -> & Hi). apply lookup_lt_Some in Hi. rewrite length_take in Hi. cbn. lia.
Qed.

Lemma install_entry_staged k p c shared :
  staged k c -> pinned !! k = Some p -> dh s_private (pin_public_key p) = Ok shared ->
  exists c1, on_pool (install_peer MAX_PEERS k (pinned_entry p shared now)) c = (Ok tt, c1) /\
    core_inv c1 /\ attempts c1 /\ tc_sound (timers (pool c1)) (live c1) /\ keys c1 = keys c /\ routes c1 = routes c /\
    forall j, peer_at (pool c1) j = (fun p => pinned_entry p (shared_of s_private p) now) <$> (take (S k) pinned !! j).
Proof.
  intros [Hi Ha Ht Hk Hp Hr Ho] Hpk Hdh. pose proof (list_elem_of_lookup_2 _ _ _ Hpk) as Hin.
  destruct (Htyped p Hin) as [Hlen Hka]. assert (Hlt : k < length pinned) by (by eapply lookup_lt_Some).
  assert (Hnone : peer_at (pool c) k = None).
  { rewrite Hp, lookup_ge_None_2; [done|]. rewrite length_take. lia. }
  assert (Hslot : peers (pool c) !! k = Some None).
  { destruct (lookup_lt_is_Some_2 (peers (pool c)) k) as [x Hx]; [rewrite (pi_peers _ _ _ _ (co_pool _ Hi)); lia|].
    unfold peer_at in Hnone. rewrite Hx in *. cbn in Hnone. by subst. }
  assert (Hfree : find_peer (pool c) (pin_public_key p) = None).
  { destruct (find_peer _ _) as [j|] eqn:Ej; [|done]. exfalso. unfold find_peer in Ej.
    apply (pi_keys _ _ _ _ (co_pool _ Hi)) in Ej as (e & He & Hek). rewrite Hp in He.
    apply fmap_Some in He as (q & Hq & ->). apply lookup_take_Some in Hq as [Hq Hjk]. cbn in Hek.
    assert (j = k) as ->; [|lia]. apply (NoDup_lookup _ j k (pin_public_key p) Hkeys); rewrite list_lookup_fmap, ?Hq, ?Hpk; cbn; congruence. }
  destruct (install_entry_spec now k _ Pinned shared (pin_endpoint p) (pin_relay p) (pin_inbound_policy p) _ (pin_address p)
              c Hi Hlen Hka) as [[_ Hno]|(E & _ & _ & Hi1 & Hl1 & Hat)]; [by destruct Hno|].
  fold (pinned_entry p shared now) in *. eexists. split; [exact E|]. split_and!; try done.
  - assert (Hat1 : attempts (snd (on_pool (install_peer MAX_PEERS k (pinned_entry p shared now)) c))); [|by rewrite E in Hat1].
    apply keeps_on_pool; [|done]. apply install_peer_attempts. intros [d Hd]. discriminate Hd.
  - eapply adv_sound; [apply Hl1|done].
  - intros j. cbn [pool with_pool]. rewrite Hat. case_decide as Ej.
    + subst j. rewrite lookup_take_lt, Hpk by lia. cbn. unfold shared_of. by rewrite Hdh.
    + rewrite Hp. destruct (decide (j < k)); [by rewrite !lookup_take_lt by lia|].
      rewrite !lookup_ge_None_2; [done|rewrite length_take; lia..].
Qed.

Lemma add_pinned_route k p (c c1 : Core) :
  staged k c -> pinned !! k = Some p -> core_inv c1 -> routes c1 = routes c -> is_Some (peer_at (pool c1) k) ->
  let '(r, c2) := on_routes (fun rc => rc_insert rc (pin_address p) k true now) c1 in
  core_inv c2 /\ core_le now c1 c2 /\ pool c2 = pool c1 /\ keys c2 = keys c1 /\
  ((r = Ok tt /\ k < MAX_ROUTES /\ orders c2 = Z.of_nat (S k) /\
    Routing.routes (routes c2) ≡ₚ imap (pinned_route now) (take (S k) pinned)) \/
   (r = Failed RouteCacheFull /\ MAX_ROUTES <= k)).
Proof.
  intros Hst Hpk Hi1 Er Hsome. assert (Hlt : k < length pinned) by (by eapply lookup_lt_Some).
  pose proof (st_orders _ _ Hst) as Ho. pose proof (st_routes _ _ Hst) as Hr. unfold orders in *.
  assert (Hmax : (rc_next (routes c1) < u64_max)%Z) by (rewrite Er, Ho; unfold u64_max, u32_max in *; lia).
  pose proof (add_route_moved now k (pin_address p) true c1 Hi1 Hmax Hsome) as [Hi2 Hl2].
  pose proof (rc_insert_spec MAX_ROUTES (routes c1) (pin_address p) k true now (co_routes _ Hi1) Hmax (co_orders _ Hi1)) as H.
  assert (Hlen : length (Routing.routes (routes c1)) = k).
  { rewrite Er, Hr, length_imap, length_take. lia. }
  unfold on_routes in *. destruct (rc_insert (routes c1) (pin_address p) k true now) as [r rc]. cbn [snd] in *.
  split; [done|]. split; [done|]. split; [done|]. split; [done|].
  destruct H as [Hrc [(i & e & Hie & _ & Hpe & _)|[(-> & _ & Hfull)|(-> & _ & i & Hie & He & Hn)]]].
  - exfalso. assert (Hin : e ∈ Routing.routes (routes c1)) by (apply elem_of_routes; by eapply list_elem_of_lookup_2).
    rewrite Er, Hr in Hin. apply pinned_route_peer in Hin. lia.
  - right. split; [done|]. apply omap_full in Hfull. unfold Routing.routes in Hlen.
    rewrite <- (rci_slots _ _ (co_routes _ Hi1)). lia.
  - left. cbn [routes with_routes]. assert (Hperm : Routing.routes rc ≡ₚ pinned_route now k p :: Routing.routes (routes c)).
    { unfold Routing.routes. rewrite He, (omap_insert_perm _ _ _ Hie), Er. unfold pinned_route. by rewrite Ho. }
    split; [done|]. split_and!.
    + pose proof (length_omap_id (rc_entries rc)) as Hle. rewrite (rci_slots _ _ Hrc) in Hle.
      apply Permutation_length in Hperm. unfold Routing.routes in *. rewrite Hperm in Hle. cbn in Hle. rewrite <- Er in Hle. lia.
    + rewrite Hn, Er, Ho. lia.
    + rewrite Hperm, Hr, (take_S_r _ _ _ Hpk), imap_app. cbn. rewrite length_take, Nat.min_l, Nat.add_0_r by lia.
      by rewrite Permutation_app_comm.
Qed.

Lemma install_pinned_step k p c :
  staged k c -> pinned !! k = Some p ->
  let '(r, c') := install_pinned now k p c in
  (r = Ok tt /\ k < MAX_ROUTES /\ is_ok (dh s_private (pin_public_key p)) = true /\ staged (S k) c') \/
  (r = Failed CryptoErr /\ is_ok (dh s_private (pin_public_key p)) = false) \/
  (r = Failed RouteCacheFull /\ MAX_ROUTES <= k).
Proof.
  intros Hst Hpk. unfold install_pinned. rewrite bind_gets, (st_keys _ _ Hst), bind_lift.
  destruct (dh s_private (pin_public_key p)) as [shared|e] eqn:Hdh.
  2: { right. left. split; [|done]. unfold dh in Hdh. destruct (forallb _ _); [by injection Hdh as <-|done]. }
  destruct (install_entry_staged k p c shared Hst Hpk Hdh) as (c1 & E & Hi & Ha & Ht & Hk & Hr & Hp).
  rewrite (bind_ok _ _ _ _ _ E). pose proof (add_pinned_route k p c c1 Hst Hpk Hi Hr) as H.
  specialize (H ltac:(rewrite Hp, lookup_take_lt, Hpk by lia; eauto)).
  destruct (on_routes _ c1) as [r c2]. destruct H as (Hi2 & Hl2 & Ep & Ek & [(-> & Hlt & Ho & Hrt)|[-> Hge]]); [|by right; right].
  left. split_and!; [done..|]. split; [done| | |by rewrite Ek, Hk; apply Hst|by intros j; rewrite Ep|done|done].
  - intros i e. rewrite Ep. apply Ha.
  - destruct Hl2 as [_ Hl2]. by eapply adv_sound.
Qed.

Lemma install_from_spec rest k c :
  staged k c -> k <= length pinned -> drop k pinned = rest ->
  let '(r, c') := install_from now k rest c in
  (r = Ok tt /\ (rest = [] \/ length pinned <= MAX_ROUTES) /\
     (forall p, p ∈ rest -> is_ok (dh s_private (pin_public_key p)) = true) /\ staged (length pinned) c') \/
  (r = Failed CryptoErr /\ exists p, p ∈ rest /\ is_ok (dh s_private (pin_public_key p)) = false) \/
  (r = Failed RouteCacheFull /\ MAX_ROUTES < length pinned).
Proof.
  revert k c. induction rest as [|p rest IH]; intros k c Hst Hk Hd; cbn [install_from];
    pose proof (f_equal length Hd) as Hl; rewrite length_drop in Hl; cbn in Hl.
  - left. split_and!; [done|by left|by intros p []%elem_of_nil|]. by replace (length pinned) with k by lia.
  - assert (Hpk : pinned !! k = Some p).
    { rewrite <- (Nat.add_0_r k), <- lookup_drop, Hd. done. }
    assert (Hd' : drop (S k) pinned = rest) by (rewrite <- Nat.add_1_r, <- drop_drop, Hd; done).
    pose proof (install_pinned_step k p c Hst Hpk) as H. rewrite bind_run.
    destruct (install_pinned now k p c) as [r c']. destruct H as [(-> & Hlt & Hdh & Hst')|[(-> & Hdh)|(-> & Hge)]].
    + specialize (IH (S k) c' Hst' ltac:(lia) Hd'). destruct (install_from now (S k) rest c') as [r c2].
      destruct IH as [(-> & Hor & Hall & Hend)|[(-> & q & Hq & Hqd)|(-> & Hgt)]].
      * left. split_and!; [done| | |done].
        -- right. destruct Hor as [->|]; [cbn in Hl; lia|done].
        -- intros q [->|Hq]%elem_of_cons; auto.
      * right. left. split; [done|]. exists q. by rewrite elem_of_cons; auto.
      * by right; right.
    + right. left. split; [done|]. exists p. rewrite elem_of_cons. auto.
    + right. right. split; [done|lia].
Qed.

End Installed.

(** ** Sizes *)

Lemma land_double_succ a b : Z.land (2 * a) (2 * b + 1) = (2 * Z.land a b)%Z.
Proof.
  apply Z.bits_inj'. intros n Hn. rewrite Z.land_spec. destruct (Z.eq_dec n 0) as [->|Hne].
  - by rewrite !Z.testbit_even_0.
  - replace n with (Z.succ (n - 1)) by lia. rewrite !Z.testbit_even_succ, Z.testbit_odd_succ, Z.land_spec by lia. done.
Qed.

Lemma land_pred_zero p : Z.land (Zpos p) (Zpos p - 1) = 0%Z <-> exists k, (0 <= k)%Z /\ Zpos p = (2 ^ k)%Z.
Proof.
  induction p as [p _|p IH|].
  - replace (Zpos p~1 - 1)%Z with (2 * Zpos p)%Z by lia. replace (Zpos p~1) with (2 * Zpos p + 1)%Z by lia.
    rewrite Z.land_comm, land_double_succ, Z.land_diag. split; [lia|].
    intros (k & Hk & E). destruct (Z.eq_dec k 0) as [->|]; [done|]. replace k with (Z.succ (k - 1)) in E by lia.
    rewrite Z.pow_succ_r in E by lia. lia.
  - replace (Zpos p~0 - 1)%Z with (2 * (Zpos p - 1) + 1)%Z by lia. change (Zpos p~0) with (2 * Zpos p)%Z.
    rewrite land_double_succ. split.
    + intros H. destruct (proj1 IH) as (k & Hk & ->); [lia|]. exists (Z.succ k). split; [lia|]. by rewrite Z.pow_succ_r.
    + intros (k & Hk & E). destruct (Z.eq_dec k 0) as [->|]; [lia|]. replace k with (Z.succ (k - 1)) in E by lia.
      rewrite Z.pow_succ_r in E by lia. rewrite (proj2 IH); [done|]. exists (k - 1)%Z. split; lia.
  - split; [intros _; by exists 0%Z|done].
Qed.

Lemma is_power_of_two_spec n : is_power_of_two n = true <-> exists k, n = 2 ^ k.
Proof.
  unfold is_power_of_two. rewrite andb_true_iff, Nat.ltb_lt, Z.eqb_eq. split.
  - intros [Hn H]. destruct (Z.of_nat n) as [|p|] eqn:E; [lia| |lia]. apply land_pred_zero in H as (k & Hk & H).
    exists (Z.to_nat k). apply Nat2Z.inj. rewrite Nat2Z.inj_pow, Z2Nat.id by done. by rewrite E, H.
  - intros [k ->]. pose proof (Nat.pow_nonzero 2 k). split; [lia|].
    destruct (Z.of_nat (2 ^ k)) as [|p|] eqn:E; [lia| |lia]. apply land_pred_zero. exists (Z.of_nat k). split; [lia|].
    rewrite <- E, Nat2Z.inj_pow. done.
Qed.

(** A size that handles address; the fixed tables need a power of two from 2 on. *)
Definition size_ok (alloc : bool) (n : nat) : Prop :=
  0 < n /\ (Z.of_nat n <= u32_max)%Z /\ (alloc = false -> exists k, n = 2 ^ S k).

Definition sizes_ok `{Sizes} (alloc : bool) : Prop :=
  size_ok alloc MAX_PEERS /\ size_ok alloc MAX_SESSIONS /\ 0 < REPLAY_WORDS.

Lemma fixed_size_ok n : (n <=? 1) || negb (is_power_of_two n) = false <-> exists k, n = 2 ^ S k.
Proof.
  rewrite orb_false_iff, negb_false_iff, is_power_of_two_spec, Nat.leb_gt. split.
  - intros [Hn [[|k] ->]]; [cbn in Hn; lia|]. by exists k.
  - intros [k ->]. pose proof (Nat.pow_nonzero 2 k). rewrite Nat.pow_succ_r'. split; [lia|]. by exists (S k).
Qed.

Lemma validate_pool_iff `{Sizes} alloc : validate_pool_parameters alloc = Ok tt <-> sizes_ok alloc.
Proof.
  assert (Hfix : forall a b, negb alloc && (a || b || (MAX_SESSIONS <=? 1) || negb (is_power_of_two MAX_SESSIONS)) = false <->
                 (alloc = false -> a || b = false /\ exists k, MAX_SESSIONS = 2 ^ S k)).
  { intros a b. rewrite <- orb_assoc. destruct alloc; cbn [negb andb]; [split; [done|done]|].
    rewrite orb_false_iff, fixed_size_ok. naive_solver. }
  unfold validate_pool_parameters, sizes_ok, size_ok. split.
  - intros E. destruct (_ || _) eqn:E1 in E; [done|]. destruct (_ && _) eqn:E2 in E; [done|]. rewrite Hfix in E2.
    bool_to_prop. split_and!; try lia; [|by intros ?; apply E2]. intros Ha. apply fixed_size_ok. by apply E2.
  - intros ((Hp & Hpw & Hpf) & (Hs & Hsw & Hsf) & Hr).
    rewrite !(proj2 (Nat.eqb_neq _ _)), !(proj2 (Z.ltb_ge _ _)) by lia. cbn [orb].
    rewrite (proj2 (Hfix _ _)); [done|]. intros Ha. split; [apply fixed_size_ok|]; auto.
Qed.

(** ** Construction *)

Section New.
Context {SZ : Sizes} {CR : Cidr} {PM : PrefixMap nat} {PRM : Prims} {R : Type} {RG : RngCore R}.
Context {CL : CidrLaws} {ML : PrefixMapLaws (V:=nat) MAX_ROUTES} {PL : PrimLaws}.
Context (alloc : bool).
Notation Core := (@Core CR PM R).

Lemma bind_replicate {A B} (f : A -> list B) n x : f x = [] -> replicate n x ≫= f = [].
Proof. intros H. induction n as [|n IH]; cbn; [done|]. by rewrite H, IH. Qed.

Lemma omap_replicate_None {A B} (f : A -> option B) n x : f x = None -> omap f (replicate n x) = [].
Proof. intros H. induction n as [|n IH]; cbn; [done|]. by rewrite H. Qed.

Lemma vacant_live n m k (c : Core) :
  peers (pool c) = replicate n None -> slots (pool c) = replicate m Free -> pending c = pool_new k ->
  resolves (resolver c) = [] -> pending_reconciles (resolver c) = [] -> live c = [].
Proof.
  intros Ep Es Epk Er Eq. unfold live, pool_live, pool_deadlines. rewrite Ep, Es, Epk, Er, Eq, !bind_replicate by done.
  unfold pool_new. by rewrite omap_replicate_None.
Qed.

Lemma vacant_routes n (rc : RouteCache) : rc_entries rc = replicate n None -> Routing.routes rc = [].
Proof. intros E. unfold Routing.routes. by rewrite E, omap_replicate_None. Qed.

Lemma empty_core_staged cfg s_priv r policy now pinned :
  config_typed cfg -> config_fits alloc cfg ->
  staged s_priv now pinned 0 (empty_core (PM := PM) alloc cfg s_priv r policy now).
Proof.
  intros Ht Hf. unfold empty_core. destruct (cs_new r now) as [secret r'].
  assert (Hp : forall i, peer_at (pool_init MAX_PEERS MAX_SESSIONS) i = None).
  { intros i. unfold peer_at. cbn. destruct (replicate MAX_PEERS None !! i) as [x|] eqn:E; [|done].
    by apply lookup_replicate in E as [-> _]. }
  split; [split|..]; cbn [pool routes resolver scratch relay_scratch keys].
  - apply pool_init_inv.
  - intros s sess. rewrite established_Some. cbn. by intros [E _]%lookup_replicate.
  - done.
  - intros i e iv. by rewrite Hp.
  - apply rc_new_inv.
  - done.
  - intros e He. apply elem_of_routes in He. cbn in He. apply elem_of_replicate in He as [E _]. done.
  - split; cbn; try constructor; unfold is_u64, u64_max; lia.
  - destruct Ht, Hf. unfold config_wf, is_u64 in *. cbn.
    assert (cc_max_inflight_resolves cfg <= 256)%Z by (unfold MAX_INFLIGHT_RESOLVES in *; destruct alloc; lia).
    unfold u64_max in *. lia.
  - apply length_replicate.
  - apply length_replicate.
  - intros i e. cbn [pool]. by rewrite Hp.
  - unfold tc_sound. by rewrite (vacant_live MAX_PEERS MAX_SESSIONS (Z.to_nat (MAX_PENDING_PACKETS alloc))).
  - done.
  - intros j. by rewrite Hp.
  - by rewrite (vacant_routes MAX_ROUTES).
  - done.
Qed.

(** What [Core::new] accepts. *)
Record config_ok (config : Config) : Prop := {
  ok_sizes : sizes_ok alloc;
  ok_limits : config_fits alloc (cfg_core_config config);
  ok_reserve : (cc_lazy_peer_reserve (cfg_core_config config) <= Z.of_nat MAX_PEERS)%Z;
  ok_private : exists b, b ∈ cfg_private_key config /\ b <> 0%Z;
  ok_room : length (cfg_pinned config) <= MAX_PEERS /\ length (cfg_pinned config) <= MAX_ROUTES;
  ok_pinned : pinned_ok (Crypto.public_key (cfg_private_key config)) (cfg_pinned config);
  ok_shared p : p ∈ cfg_pinned config -> is_ok (dh (cfg_private_key config) (pin_public_key p)) = true;
}.

(** The types of the fields. *)
Record config_shape (config : Config) : Prop := {
  sh_core : config_typed (cfg_core_config config);
  sh_pinned p : p ∈ cfg_pinned config -> pinned_typed p;
}.

Lemma all_zero_iff l : forallb (fun byte => byte =? 0)%Z l = false <-> exists b, b ∈ l /\ b <> 0%Z.
Proof.
  induction l as [|x l IH]; cbn; [split; [done|by intros (b & []%elem_of_nil & _)]|].
  rewrite andb_false_iff, IH, Z.eqb_neq. setoid_rewrite elem_of_cons. naive_solver.
Qed.

Lemma core_new_spec config r policy now :
  config_shape config ->
  match core_new (PM := PM) alloc config r policy now with
  | Ok c => config_ok config /\ staged (cfg_private_key config) now (cfg_pinned config) (length (cfg_pinned config)) c
  | Failed _ => ~ config_ok config
  end.
Proof.
  intros [Ht Htp]. unfold core_new.
  destruct (validate_pool_parameters alloc) as [[]|e] eqn:Ev; cbn [mbind result_bind].
  2: { intros [Hs]. apply validate_pool_iff in Hs. congruence. }
  apply validate_pool_iff in Ev.
  destruct (validate_against_limits alloc (cfg_core_config config)) as [[]|e] eqn:El.
  2: { intros [_ Hl]. apply validate_iff in Hl; [congruence|done]. }
  apply validate_iff in El; [|done].
  destruct (Z.ltb_spec (Z.of_nat MAX_PEERS) (cc_lazy_peer_reserve (cfg_core_config config))) as [|Hres]; [intros []; lia|].
  destruct (forallb _ _) eqn:Ez.
  { intros [_ _ _ Hz]. apply all_zero_iff in Hz. congruence. }
  apply all_zero_iff in Ez.
  destruct (Nat.ltb_spec MAX_PEERS (length (cfg_pinned config))) as [|Hroom]; [intros []; lia|].
  destruct (check_from _ _ _ _) as [[]|e] eqn:Ec; cbn [mbind result_bind].
  2: { intros [_ _ _ _ _ Hp]. apply check_from_pinned_ok in Hp. congruence. }
  apply check_from_pinned_ok in Ec.
  pose proof (install_from_spec (cfg_private_key config) now (cfg_pinned config) Htp (po_keys _ _ Ec) Hroom
    (proj1 (proj2 (proj1 Ev))) (cfg_pinned config) 0 _ (empty_core_staged (cfg_core_config config) _ r policy now _ Ht El)
    ltac:(lia) eq_refl) as H.
  destruct (install_from _ _ _ _) as [res c]. destruct H as [(-> & Hor & Hall & Hst)|[(-> & p & Hp & Hd)|(-> & Hgt)]];
    cbn [mbind result_bind mret result_ret].
  - split; [|done]. split; try done. split; [done|]. destruct Hor as [->|]; [cbn; lia|done].
  - intros [_ _ _ _ _ _ Hs]. rewrite (Hs p Hp) in Hd. done.
  - intros [_ _ _ _ [_ ?] _ _]. lia.
Qed.

Lemma staged_decides s_private now pinned (c : Core) i p ip :
  staged s_private now pinned (length pinned) c -> pinned_ok (Crypto.public_key s_private) pinned ->
  pinned !! i = Some p -> contains (pin_address p) ip = true ->
  decides (routes c) ip (pinned_route now i p).
Proof.
  intros Hst Hok Hi Hc. assert (Hrt : forall e, e ∈ Routing.routes (routes c) <-> exists j q, pinned !! j = Some q /\ e = pinned_route now j q).
  { intros e. rewrite (st_routes _ _ _ _ _ Hst), take_ge, elem_of_lookup_imap by done. naive_solver. }
  split; [|split; [done|]].
  - apply Hrt. eauto.
  - intros e' (j & q & Hj & ->)%Hrt Hcq. cbn in Hcq. right. assert (j = i) as ->.
    { destruct (lt_eq_lt_dec i j) as [[Hlt|]|Hlt]; [exfalso|done|exfalso].
      - by eapply (po_disjoint _ _ Hok i j p q Hlt).
      - by eapply (po_disjoint _ _ Hok j i q p Hlt). }
    assert (q = p) as -> by congruence. split; [done|]. lia.
Qed.

(** C3: [Core::new] succeeds exactly for the valid configurations: sizes that handles address
    (powers of two from 2 on without the heap), settings within the backend's ceilings
    and with nonzero timeouts, a private key that is not zero, pinned peers that fit the
    peer table and the route cache, with distinct keys other than our own, relays that
    are pinned and reached directly, pairwise disjoint prefixes none of which is a
    default route, and keys that give a shared secret. *)
Theorem core_new_accepts (config : Config) (r : R) (policy : list Z -> list Z -> bool) (now : Instant) :
  config_shape config ->
  is_ok (core_new (PM := PM) alloc config r policy now) = true <-> config_ok config.
Proof.
  intros Hs. pose proof (core_new_spec config r policy now Hs) as H.
  destruct (core_new _ _ _ _ _) as [c|e]; cbn [is_ok]; [split; [intros _; apply H|done]|split; [done|by intros ?%H]].
Qed.

(** C2: The engine a configuration yields is well formed, and holds exactly the pinned
    peers: peer [i] at place [i], under its key, with the secret shared with it, and
    every address of its prefix routed to it; other addresses have no route. *)
Theorem core_new_ready (config : Config) (r : R) (policy : list Z -> list Z -> bool) (now : Instant) (c : Core) :
  config_shape config -> core_new alloc config r policy now = Ok c ->
  ready c /\
  (forall i, peer_at (pool c) i = (fun p => pinned_entry p (shared_of (cfg_private_key config) p) now) <$> cfg_pinned config !! i) /\
  (forall i p, cfg_pinned config !! i = Some p ->
     find_peer (pool c) (pin_public_key p) = Some i /\
     forall ip, contains (pin_address p) ip = true -> lookup_readonly (routes c) ip = Some i) /\
  (forall ip, lookup_readonly (routes c) ip = None <-> forall p, p ∈ cfg_pinned config -> contains (pin_address p) ip = false).
Proof.
  intros Hs E. pose proof (core_new_spec config r policy now Hs) as H. rewrite E in H. destruct H as [Hok Hst].
  pose proof (st_inv _ _ _ _ _ Hst) as Hi.   pose proof (co_routes _ Hi) as Hrc. assert (Hpeers := st_peers _ _ _ _ _ Hst). setoid_rewrite take_ge in Hpeers; [|done].
  split_and!.
  - split; apply Hst.
  - exact Hpeers.
  - intros i p Hp. split.
    + apply (pi_keys _ _ _ _ (co_pool _ Hi)). exists (pinned_entry p (shared_of (cfg_private_key config) p) now). by rewrite Hpeers, Hp.
    + intros ip Hc. apply (lookup_readonly_spec MAX_ROUTES (routes c) ip Hrc). exists (pinned_route now i p). split; [|done].
      eapply staged_decides; [done|apply Hok|done|done].
  - intros ip. rewrite (proj2 (lookup_readonly_spec MAX_ROUTES (routes c) ip Hrc)).
    setoid_rewrite (st_routes _ _ _ _ _ Hst). rewrite take_ge by done. split.
    + intros H p [i Hp]%list_elem_of_lookup. apply (H (pinned_route now i p)). apply elem_of_lookup_imap. eauto.
    + intros H e (i & p & -> & Hp)%elem_of_lookup_imap. cbn. apply H. by eapply list_elem_of_lookup_2.
Qed.

(** C1: From construction on, every call of the embedding, in any order and at any instants,
    leaves the engine well formed: the peer, session and route tables, their indices and
    the resolver's queues satisfy their invariants, an attempt deadline belongs to a
    running handshake, and [poll_at] is at or before every live deadline. A route is
    installed by at most one in each resolver event, so the 64-bit insertion orders of
    the route cache last for [2^64 - length pinned] calls. *)
Theorem constructed_engine_stays_ready (accepts : list Output -> ResolveRequest -> bool) (config : Config) (r : R)
    (policy : list Z -> list Z -> bool) (now : Instant) (c0 c : Core) (n : nat) :
  config_shape config -> core_new alloc config r policy now = Ok c0 -> reach accepts c0 n c ->
  (Z.of_nat (length (cfg_pinned config) + n) <= u64_max)%Z ->
  ready c /\ Forall (at_or_before (poll_at c)) (live c).
Proof.
  intros Hs E Hr Hn. pose proof (core_new_spec config r policy now Hs) as H. rewrite E in H. destruct H as [Hok Hst].
  assert (H0 : ready c0) by (split; apply Hst). pose proof (st_orders _ _ _ _ _ Hst) as Ho.
  destruct (reach_ready accepts c0 c n H0 Hr) as [Hc _]; [lia|]. split; [done|]. apply Hc.
Qed.

End New.

(** ** Witnesses: an engine over the prefix trie itself *)

Definition demo_net11 : IpCidr := CidrModel.mk (V4 184549376) 8 eq_refl.
Definition demo_trie_ops : @PrefixMap CidrModel.ops nat := trie_ops (CR := CidrModel.ops) 4.
Definition demo_trie_laws : PrefixMapLaws (H0 := demo_trie_ops) MAX_ROUTES := trie_laws (CR := CidrModel.ops) (CL := CidrModel.laws) 4.

(** A direct peer and one it relays for. *)
Definition demo_pinned : list (@PinnedPeer CidrModel.ops) :=
  let hub := Crypto.public_key (replicate 32 2%Z) in
  [mkPinnedPeer hub (Some (demo_endpoint 51820)) None demo_net AllowAll (Some 25000%Z);
   mkPinnedPeer (Crypto.public_key (replicate 32 3%Z)) None (Some hub) demo_net11 AllowAll None].

Definition demo_new_config : @Config CidrModel.ops := config_new false (replicate 32 1%Z) demo_pinned.
Definition demo_new : Result (@Core CidrModel.ops demo_trie_ops Z) :=
  core_new false demo_new_config 7%Z (fun _ _ => true) 0%Z.

Lemma demo_new_shape : config_shape demo_new_config.
Proof.
  split; [apply default_config_fits|]. intros p Hp.
  repeat (apply elem_of_cons in Hp as [->|Hp]; [split; [done|cbn; intros iv [= <-]; lia]|]). by apply elem_of_nil in Hp.
Qed.

Lemma demo_new_ok : is_ok demo_new = true.
Proof. vm_compute. reflexivity. Qed.

Lemma core_new_accepts_witness : config_ok false demo_new_config.
Proof.
  pose proof (core_new_accepts (ML := demo_trie_laws) false demo_new_config 7%Z (fun _ _ => true) 0%Z demo_new_shape) as H.
  pose proof demo_new_ok as Hok. unfold demo_new in Hok. by apply H.
Defined.

Lemma core_new_ready_witness :
  match demo_new with
  | Ok c => lookup_readonly (routes c) (V4 167772161) = Some 0 /\ lookup_readonly (routes c) (V4 184549377) = Some 1 /\
            live c = [25000%Z]
  | Failed _ => False
  end.
Proof.
  pose proof (core_new_ready (ML := demo_trie_laws) false demo_new_config 7%Z (fun _ _ => true) 0%Z) as H.
  assert (Hl : match demo_new with Ok c => live c = [25000%Z] | _ => False end) by (vm_compute; reflexivity).
  unfold demo_new in *. destruct (core_new _ _ _ _ _) as [c|]; [|done].
  destruct (H c demo_new_shape eq_refl) as (_ & _ & Hp & _).
  split; [|split; [|done]].
  - by apply (proj2 (Hp 0 _ eq_refl)).
  - by apply (proj2 (Hp 1 _ eq_refl)).
Defined.

Lemma constructed_engine_stays_ready_witness :
  match demo_new with
  | Ok c => ready (ML := demo_trie_laws) (feed demo_accepts 30000%Z HandleTimeout c)
  | Failed _ => False
  end.
Proof.
  pose proof (constructed_engine_stays_ready (ML := demo_trie_laws) (PL := Toy.laws) false demo_accepts demo_new_config 7%Z (fun _ _ => true) 0%Z) as H.
  assert (Hok := demo_new_ok). unfold demo_new in *. destruct (core_new _ _ _ _ _) as [c|]; [|done].
  refine (proj1 (H c _ 1 demo_new_shape eq_refl _ _)).
  - apply ReachFeed; [constructor|exact I].
  - vm_compute. discriminate.
Defined.
