(* ===== verification/Utf8.v ===== *)
(** Strings of the standard library, as the code uses them: a [str] is the
    list of its Unicode scalar values, [core::str::from_utf8] decodes and
    checks bytes, [char_utf8] is [char::encode_utf8]. The two are inverse of
    each other, and the first byte of a character is never a continuation
    byte while the others always are, which is what byte-wise code that looks
    for character boundaries relies on. *)

From Stdlib Require Import ZArith Lia String Ascii.
From stdpp Require Import base list option.
From S2P Require Import Prelude.
Open Scope Z_scope.

(** A string literal of the source. *)
Fixpoint str (s : string) : list Z :=
  match s with
  | EmptyString => []
  | String c s => Z.of_nat (nat_of_ascii c) :: str s
  end.

(** [byte & 0b1100_0000 == 0b1000_0000]. *)
Definition is_continuation (b : Z) : bool := Z.land b 192 =? 128.

(** A Unicode scalar value. *)
Definition is_char (c : Z) : bool :=
  (0 <=? c) && (c <=? 1114111) && negb ((55296 <=? c) && (c <=? 57343)).

(** [char::encode_utf8]. *)
Definition char_utf8 (c : Z) : list Z :=
  if c <? 128 then [c]
  else if c <? 2048 then [192 + c / 64; 128 + c mod 64]
  else if c <? 65536 then [224 + c / 4096; 128 + c / 64 mod 64; 128 + c mod 64]
  else [240 + c / 262144; 128 + c / 4096 mod 64; 128 + c / 64 mod 64; 128 + c mod 64].

(** [char::len_utf8]. *)
Definition len_utf8 (c : Z) : nat := length (char_utf8 c).

(** [str::as_bytes]. *)
Definition str_bytes (s : list Z) : list Z := concat (char_utf8 <$> s).

(** [str::len], in bytes. *)
Definition str_len (s : list Z) : nat := length (str_bytes s).

(** A continuation byte in a decoder: 128 to 191. *)
Definition is_cont (b : Z) : bool := (128 <=? b) && (b <=? 191).

(** [core::str::from_utf8]: shortest forms of scalar values only. *)
Fixpoint from_utf8 (bs : list Z) : option (list Z) :=
  match bs with
  | [] => Some []
  | b0 :: r0 =>
    if (0 <=? b0) && (b0 <=? 127) then (cons b0) <$> from_utf8 r0
    else match r0 with
    | [] => None
    | b1 :: r1 =>
      if (194 <=? b0) && (b0 <=? 223) then
        if is_cont b1 then (cons ((b0 - 192) * 64 + (b1 - 128))) <$> from_utf8 r1
        else None
      else match r1 with
      | [] => None
      | b2 :: r2 =>
        if (224 <=? b0) && (b0 <=? 239) then
          let c := (b0 - 224) * 4096 + (b1 - 128) * 64 + (b2 - 128) in
          if is_cont b1 && is_cont b2 && (2048 <=? c) && is_char c
          then (cons c) <$> from_utf8 r2 else None
        else match r2 with
        | [] => None
        | b3 :: r3 =>
          let c := (b0 - 240) * 262144 + (b1 - 128) * 4096 + (b2 - 128) * 64 + (b3 - 128) in
          if (240 <=? b0) && (b0 <=? 244) && is_cont b1 && is_cont b2 && is_cont b3
             && (65536 <=? c) && is_char c
          then (cons c) <$> from_utf8 r3 else None
        end
      end
    end
  end.

(** [char::is_whitespace]: the White_Space property. *)
Definition is_whitespace (c : Z) : bool :=
  ((9 <=? c) && (c <=? 13)) || (c =? 32) || (c =? 133) || (c =? 160) || (c =? 5760)
  || ((8192 <=? c) && (c <=? 8202)) || (c =? 8232) || (c =? 8233) || (c =? 8239)
  || (c =? 8287) || (c =? 12288).

(** [u8::is_ascii_whitespace]. *)
Definition is_ascii_whitespace (b : Z) : bool :=
  (b =? 32) || (b =? 9) || (b =? 10) || (b =? 12) || (b =? 13).

(** [u8::is_ascii_alphabetic]. *)
Definition is_ascii_alphabetic (b : Z) : bool :=
  ((65 <=? b) && (b <=? 90)) || ((97 <=? b) && (b <=? 122)).

(** [char::is_ascii_digit]. *)
Definition is_ascii_digit (c : Z) : bool := (48 <=? c) && (c <=? 57).

(** [str::trim]. *)
Fixpoint trim_start (s : list Z) : list Z :=
  match s with
  | [] => []
  | c :: s' => if is_whitespace c then trim_start s' else s
  end.
Definition trim (s : list Z) : list Z := reverse (trim_start (reverse (trim_start s))).

(** [str::strip_prefix] and [str::starts_with]. *)
Fixpoint strip_prefix (p s : list Z) : option (list Z) :=
  match p, s with
  | [], _ => Some s
  | a :: p', b :: s' => if a =? b then strip_prefix p' s' else None
  | _ :: _, [] => None
  end.
Definition starts_with (p s : list Z) : bool :=
  match strip_prefix p s with Some _ => true | None => false end.

(** [str::split_once] at a character. *)
Fixpoint split_once (sep : Z) (s : list Z) : option (list Z * list Z) :=
  match s with
  | [] => None
  | c :: s' => if c =? sep then Some ([], s')
               else prod_map (cons c) id <$> split_once sep s'
  end.

(** [str::split_ascii_whitespace]. *)
Fixpoint split_ascii_whitespace_from (w : list Z) (s : list Z) : list (list Z) :=
  let flush (rest : list (list Z)) := if bool_decide (w = []) then rest else reverse w :: rest in
  match s with
  | [] => flush []
  | c :: s' => if is_ascii_whitespace c then flush (split_ascii_whitespace_from [] s')
               else split_ascii_whitespace_from (c :: w) s'
  end.
Definition split_ascii_whitespace (s : list Z) : list (list Z) := split_ascii_whitespace_from [] s.

(** ** Facts *)

(** Split on the encoded length of [c]. *)
Ltac utf8_cases c :=
  destruct (Z.ltb_spec c 128);
  [|destruct (Z.ltb_spec c 2048); [|destruct (Z.ltb_spec c 65536)]].

Lemma is_char_spec c :
  is_char c = true <-> 0 <= c <= 1114111 /\ ~ (55296 <= c <= 57343).
Proof. unfold is_char. rewrite !andb_true_iff, negb_true_iff, andb_false_iff, !Z.leb_le, !Z.leb_gt. lia. Qed.

Lemma is_cont_spec b : is_cont b = true <-> 128 <= b <= 191.
Proof. unfold is_cont. rewrite andb_true_iff, !Z.leb_le. lia. Qed.

Lemma is_continuation_spec b : is_u8 b -> is_continuation b = is_cont b.
Proof.
  unfold is_u8, u8_max, is_continuation, is_cont. intros H.
  assert (Hall : forallb (fun n => Bool.eqb (Z.land (Z.of_nat n) 192 =? 128)
                   ((128 <=? Z.of_nat n) && (Z.of_nat n <=? 191))) (seq 0 256) = true)
    by (vm_compute; reflexivity).
  rewrite forallb_forall in Hall. specialize (Hall (Z.to_nat b)).
  rewrite Z2Nat.id in Hall by lia. apply eqb_prop, Hall, List.in_seq. lia.
Qed.

(** The bytes of a character: a byte that starts it, then continuations. *)
Lemma char_utf8_shape c : is_char c = true ->
  exists b0 rest, char_utf8 c = b0 :: rest /\ is_u8 b0 /\ is_cont b0 = false
    /\ Forall (fun b => is_cont b = true) rest /\ (length rest <= 3)%nat
    /\ (b0 < 128 -> rest = [] /\ b0 = c).
Proof.
  rewrite is_char_spec. intros Hc. unfold char_utf8, is_cont, is_u8, u8_max.
  utf8_cases c; (eexists _, _; split; [reflexivity|]);
    (split; [dlia|]); (split; [apply andb_false_iff; rewrite !Z.leb_gt; dlia|]);
    (split; [repeat constructor; apply andb_true_iff; rewrite !Z.leb_le; dlia|]);
    (split; [simpl; lia|]); intros Hb; try (split; reflexivity); exfalso; dlia.
Qed.

Lemma char_utf8_u8 c : is_char c = true -> Forall is_u8 (char_utf8 c).
Proof.
  intros Hc. destruct (char_utf8_shape c Hc) as (b0 & rest & -> & H0 & _ & Hr & _).
  constructor; [exact H0|]. eapply Forall_impl; [exact Hr|].
  intros b Hb%is_cont_spec. unfold is_u8, u8_max. lia.
Qed.

Lemma from_utf8_char c bs : is_char c = true ->
  from_utf8 (char_utf8 c ++ bs) = cons c <$> from_utf8 bs.
Proof.
  intros Hc. pose proof Hc as Hc'. rewrite is_char_spec in Hc'. unfold char_utf8.
  assert (Hcont : forall z, 0 <= z < 64 -> is_cont (128 + z) = true)
    by (intros z Hz; apply is_cont_spec; lia).
  utf8_cases c; cbn [app from_utf8].
  - rewrite (proj2 (andb_true_iff _ _)) by (rewrite !Z.leb_le; lia). reflexivity.
  - rewrite (proj2 (andb_false_iff _ _)) by (rewrite !Z.leb_gt; dlia).
    rewrite (proj2 (andb_true_iff _ _)) by (rewrite !Z.leb_le; dlia).
    rewrite Hcont by dlia. f_equal. f_equal. dlia.
  - rewrite (proj2 (andb_false_iff _ _)) by (rewrite !Z.leb_gt; dlia).
    rewrite (proj2 (andb_false_iff _ _)) by (rewrite !Z.leb_gt; dlia).
    rewrite (proj2 (andb_true_iff _ _)) by (rewrite !Z.leb_le; dlia).
    rewrite !Hcont by dlia.
    assert (224 + c / 4096 - 224 = c / 4096) as -> by lia.
    assert (c / 4096 * 4096 + (128 + c / 64 mod 64 - 128) * 64 + (128 + c mod 64 - 128) = c) as -> by dlia.
    rewrite Hc, (proj2 (Z.leb_le 2048 c)) by lia. reflexivity.
  - rewrite (proj2 (andb_false_iff _ _)) by (rewrite !Z.leb_gt; dlia).
    rewrite (proj2 (andb_false_iff _ _)) by (rewrite !Z.leb_gt; dlia).
    rewrite (proj2 (andb_false_iff _ _)) by (rewrite !Z.leb_gt; dlia).
    rewrite !Hcont by dlia. rewrite (proj2 (Z.leb_le 240 _)) by dlia.
    rewrite (proj2 (Z.leb_le (240 + c / 262144) 244)) by dlia.
    assert ((240 + c / 262144 - 240) * 262144 + (128 + c / 4096 mod 64 - 128) * 4096
      + (128 + c / 64 mod 64 - 128) * 64 + (128 + c mod 64 - 128) = c) as -> by dlia.
    rewrite Hc, (proj2 (Z.leb_le 65536 c)) by lia. reflexivity.
Qed.

Lemma from_utf8_str_bytes s : Forall (fun c => is_char c = true) s ->
  from_utf8 (str_bytes s) = Some s.
Proof.
  induction 1 as [|c s Hc Hs IH]; [reflexivity|].
  change (str_bytes (c :: s)) with (char_utf8 c ++ str_bytes s).
  rewrite from_utf8_char, IH by exact Hc. reflexivity.
Qed.

(** One decoded character: what each length of encoding yields. *)
Lemma char_utf8_two b0 b1 : 194 <= b0 <= 223 -> is_cont b1 = true ->
  let c := (b0 - 192) * 64 + (b1 - 128) in char_utf8 c = [b0; b1] /\ is_char c = true.
Proof.
  intros H0 H1%is_cont_spec c. subst c. split; [|apply is_char_spec; lia].
  unfold char_utf8. rewrite (proj2 (Z.ltb_ge _ 128)), (proj2 (Z.ltb_lt _ 2048)) by lia.
  repeat f_equal; dlia.
Qed.

Lemma char_utf8_three b0 b1 b2 c :
  c = (b0 - 224) * 4096 + (b1 - 128) * 64 + (b2 - 128) ->
  224 <= b0 <= 239 -> is_cont b1 = true -> is_cont b2 = true -> 2048 <= c ->
  char_utf8 c = [b0; b1; b2].
Proof.
  intros Hc H0 H1%is_cont_spec H2%is_cont_spec H. unfold char_utf8.
  rewrite (proj2 (Z.ltb_ge _ 128)), (proj2 (Z.ltb_ge _ 2048)), (proj2 (Z.ltb_lt _ 65536)) by lia.
  assert (c / 4096 = b0 - 224) as -> by dlia.
  assert (c / 64 mod 64 = b1 - 128) as -> by dlia.
  assert (c mod 64 = b2 - 128) as -> by dlia. repeat f_equal; lia.
Qed.

Lemma char_utf8_four b0 b1 b2 b3 c :
  c = (b0 - 240) * 262144 + (b1 - 128) * 4096 + (b2 - 128) * 64 + (b3 - 128) ->
  240 <= b0 <= 244 -> is_cont b1 = true -> is_cont b2 = true -> is_cont b3 = true ->
  65536 <= c -> char_utf8 c = [b0; b1; b2; b3].
Proof.
  intros Hc H0 H1%is_cont_spec H2%is_cont_spec H3%is_cont_spec H. unfold char_utf8.
  rewrite (proj2 (Z.ltb_ge _ 128)), (proj2 (Z.ltb_ge _ 2048)), (proj2 (Z.ltb_ge _ 65536)) by lia.
  assert (c / 262144 = b0 - 240) as -> by dlia.
  assert (c / 4096 mod 64 = b1 - 128) as -> by dlia.
  assert (c / 64 mod 64 = b2 - 128) as -> by dlia.
  assert (c mod 64 = b3 - 128) as -> by dlia. repeat f_equal; lia.
Qed.

Ltac leb_bools :=
  repeat match goal with
  | H : (_ && _)%bool = true |- _ => apply andb_true_iff in H as [? ?]
  | H : (_ <=? _) = true |- _ => apply Z.leb_le in H
  end.

(** Decoding is exact: the text has the bytes it was read from. *)
Lemma from_utf8_Some bs s : from_utf8 bs = Some s ->
  str_bytes s = bs /\ Forall (fun c => is_char c = true) s.
Proof.
  remember (length bs) as n eqn:Hn. assert (length bs <= n)%nat as Hle by lia. clear Hn.
  revert bs s Hle. induction n as [|n IH]; intros bs s Hle H.
  { destruct bs; [|simpl in Hle; lia]. injection H as <-. split; [reflexivity|constructor]. }
  assert (Hgo : forall c r, (length r <= n)%nat -> is_char c = true ->
     cons c <$> from_utf8 r = Some s -> str_bytes s = char_utf8 c ++ r
     /\ Forall (fun c => is_char c = true) s).
  { intros c r Hr Hc Hs. destruct (from_utf8 r) as [s'|] eqn:E; [|discriminate].
    injection Hs as <-. destruct (IH r s' Hr E) as [Hb Hf].
    split; [|constructor; assumption].
    change (str_bytes (c :: s')) with (char_utf8 c ++ str_bytes s'). now rewrite Hb. }
  destruct bs as [|b0 r0]; cbn [from_utf8] in H.
  { injection H as <-. split; [reflexivity|constructor]. }
  simpl in Hle.
  destruct ((0 <=? b0) && (b0 <=? 127)) eqn:E0.
  { leb_bools. destruct (Hgo b0 r0) as [Hb Hf]; [lia|apply is_char_spec; lia|exact H|].
    split; [|exact Hf]. rewrite Hb. unfold char_utf8.
    now rewrite (proj2 (Z.ltb_lt b0 128)) by lia. }
  destruct r0 as [|b1 r1]; [discriminate|]. simpl in Hle.
  destruct ((194 <=? b0) && (b0 <=? 223)) eqn:E1.
  { destruct (is_cont b1) eqn:C1; [|discriminate]. leb_bools.
    destruct (char_utf8_two b0 b1) as [Hu Hc]; [lia|exact C1|].
    destruct (Hgo _ r1 ltac:(lia) Hc H) as [Hb Hf]. rewrite Hu in Hb. split; assumption. }
  destruct r1 as [|b2 r2]; [discriminate|]. simpl in Hle.
  destruct ((224 <=? b0) && (b0 <=? 239)) eqn:E2.
  { cbv zeta in H. destruct (is_cont b1 && is_cont b2 && _ && _) eqn:C; [|discriminate].
    leb_bools. match type of H with cons ?c <$> _ = _ => destruct (Hgo c r2) as [Hb Hf]; [lia|assumption|exact H|] end.
    rewrite (char_utf8_three b0 b1 b2 _ eq_refl) in Hb by (assumption || lia). split; assumption. }
  destruct r2 as [|b3 r3]; [discriminate|]. simpl in Hle. cbv zeta in H.
  match type of H with (if ?b then _ else _) = _ => destruct b eqn:C; [|discriminate] end.
  leb_bools. match type of H with cons ?c <$> _ = _ => destruct (Hgo c r3) as [Hb Hf]; [lia|assumption|exact H|] end.
  rewrite (char_utf8_four b0 b1 b2 b3 _ eq_refl) in Hb by (assumption || lia). split; assumption.
Qed.

Lemma str_bytes_app s t : str_bytes (s ++ t) = str_bytes s ++ str_bytes t.
Proof. unfold str_bytes. rewrite fmap_app, concat_app. reflexivity. Qed.

Lemma str_bytes_cons c s : str_bytes (c :: s) = char_utf8 c ++ str_bytes s.
Proof. reflexivity. Qed.

Lemma str_bytes_inj s t : Forall (fun c => is_char c = true) s ->
  Forall (fun c => is_char c = true) t -> str_bytes s = str_bytes t -> s = t.
Proof.
  intros Hs Ht H. apply from_utf8_str_bytes in Hs, Ht. rewrite H, Ht in Hs. congruence.
Qed.

Lemma strip_prefix_spec p s r : strip_prefix p s = Some r <-> s = p ++ r.
Proof.
  revert s. induction p as [|a p IH]; intros [|b s]; cbn [strip_prefix app].
  - split; [intros [= <-]|intros ->]; reflexivity.
  - split; [intros [= <-]|intros ->]; reflexivity.
  - split; discriminate.
  - destruct (Z.eqb_spec a b) as [->|Hne].
    + rewrite IH. split; [intros ->; reflexivity|intros [= ->]; reflexivity].
    + split; [discriminate|]. intros [= -> _]. contradiction.
Qed.

Lemma starts_with_spec p s : starts_with p s = true <-> exists r, s = p ++ r.
Proof.
  unfold starts_with. destruct (strip_prefix p s) as [r|] eqn:E.
  - apply strip_prefix_spec in E. split; [eauto|reflexivity].
  - split; [discriminate|]. intros [r Hr%strip_prefix_spec]. congruence.
Qed.

Lemma split_once_spec sep s a b : split_once sep s = Some (a, b) <->
  s = a ++ sep :: b /\ sep ∉ a.
Proof.
  revert a. induction s as [|c s IH]; intros a; cbn [split_once].
  - split; [discriminate|]. intros [H _]. destruct a; discriminate.
  - destruct (Z.eqb_spec c sep) as [->|Hne].
    + split.
      * intros [= <- <-]. split; [reflexivity|]. apply not_elem_of_nil.
      * intros [H Hn]. destruct a as [|x a]; [injection H as ->; reflexivity|].
        injection H as -> _. exfalso. apply Hn. left.
    + split.
      * destruct (split_once sep s) as [[a' b']|] eqn:E; [|discriminate].
        intros [= <- <-]. destruct (proj1 (IH a') eq_refl) as [-> Hn].
        split; [reflexivity|]. rewrite not_elem_of_cons. auto.
      * intros [H Hn]. destruct a as [|x a]; [injection H as ->; contradiction|].
        injection H as -> ->. apply not_elem_of_cons in Hn as [_ Hn].
        rewrite (proj2 (IH a)) by auto. reflexivity.
Qed.
