(* ===== verification/CliLexer.v ===== *)
(** The lexer of the command line, [microtun-cli/src/lexer.rs], and the error
    type of the crate, [error.rs]. The lexer compacts the line in place: it
    writes the unquoted text of each token over the front of the buffer it is
    still reading. [lex] is that loop, with every index checked ([None] is a
    panic or exhausted fuel); [tokenize] is the reference it refines, which
    never overwrites anything. *)

From Stdlib Require Import ZArith Lia String.
From stdpp Require Import base list option.
From S2P Require Import Prelude Utf8.
Open Scope Z_scope.

(** ** error.rs *)

Inductive ParseErrorKind :=
| Empty | TooManyTokens | LineTooLong | InvalidUtf8 | UnterminatedQuote | TrailingEscape
| UnknownCommand | UnknownOption | UnexpectedArgument | MissingArgument | MissingValue
| InvalidValue | TooManyValues.

Record ParseError := mkParseError {
  pe_kind : ParseErrorKind;
  pe_argument : option (list Z);
  pe_expected : option (list Z) }.

Definition parse_error (kind : ParseErrorKind) : ParseError := mkParseError kind None None.

Definition for_argument (kind : ParseErrorKind) (argument : list Z) : ParseError :=
  mkParseError kind (Some argument) None.

Definition invalid_value (argument expected : list Z) : ParseError :=
  mkParseError InvalidValue (Some argument) (Some expected).

(** ** Tokens *)

Definition MAX_TOKENS : nat := 32.

(** [Token]: offsets kept in sixteen bits. *)
Record Token := mkToken { t_start : Z; t_end : Z }.

Definition as_u16 (n : nat) : Z := Z.of_nat n mod 65536.

Record Lexed := mkLexed { lx_bytes : list Z; lx_tokens : list Token }.

Definition lexed_len (l : Lexed) : nat := length (lx_tokens l).
Definition lexed_is_empty (l : Lexed) : bool := Nat.eqb (length (lx_tokens l)) 0.

(** The slice [&bytes[start..end]] of a token. *)
Definition token_bytes (l : Lexed) (t : Token) : option (list Z) :=
  slice (lx_bytes l) (Z.to_nat (t_start t)) (Z.to_nat (t_end t) - Z.to_nat (t_start t)).

(** [Lexed::arg]. The outer [None] is a slice out of range. *)
Definition arg (l : Lexed) (index : nat) : option (ParseError + list Z) :=
  match lx_tokens l !! index with
  | None => Some (inl (parse_error UnexpectedArgument))
  | Some token =>
    bytes ← token_bytes l token;
    Some (match from_utf8 bytes with
          | Some text => inr text
          | None => inl (parse_error InvalidUtf8)
          end)
  end.

Definition is_space (byte : Z) : bool :=
  (byte =? 32) || (byte =? 9) || (byte =? 13) || (byte =? 10).

Definition is_quote (byte : Z) : bool := (byte =? 39) || (byte =? 34).

(** ** The loop *)

(** [buffer[write] = byte]. *)
Definition put (buffer : list Z) (write : nat) (byte : Z) : option (list Z) :=
  if (write <? length buffer)%nat then Some (<[write := byte]> buffer) else None.

Fixpoint skip_spaces (fuel : nat) (buffer : list Z) (len read : nat) : option nat :=
  if (read <? len)%nat then
    b ← buffer !! read;
    if is_space b then
      match fuel with O => None | S fuel => skip_spaces fuel buffer len (S read) end
    else Some read
  else Some read.

(** The inner loop: one token. *)
Fixpoint lex_token (fuel : nat) (buffer : list Z) (len read write : nat) (quote : option Z)
  : option (ParseErrorKind + (list Z * nat * nat)) :=
  let finish := Some (match quote with
                      | Some _ => inl UnterminatedQuote
                      | None => inr (buffer, read, write) end) in
  let escaped fuel :=
    if Nat.eqb (S read) len then Some (inl TrailingEscape) else
    b' ← buffer !! S read;
    buffer' ← put buffer write b';
    lex_token fuel buffer' len (S (S read)) (S write) quote in
  let plain fuel b :=
    buffer' ← put buffer write b;
    lex_token fuel buffer' len (S read) (S write) quote in
  if (read <? len)%nat then
    b ← buffer !! read;
    match fuel with
    | O => None
    | S fuel =>
      match quote with
      | Some q =>
        if b =? q then lex_token fuel buffer len (S read) write None
        else if b =? 92 then escaped fuel
        else plain fuel b
      | None =>
        if is_quote b then lex_token fuel buffer len (S read) write (Some b)
        else if b =? 92 then escaped fuel
        else if is_space b then finish
        else plain fuel b
      end
    end
  else finish.

(** The outer loop: skip blanks, lex a token, push it. *)
Fixpoint lex_from (fuel : nat) (buffer : list Z) (len read write : nat) (tokens : list Token)
  : option (ParseErrorKind + Lexed) :=
  let done buffer write tokens := Some (inr (mkLexed (take write buffer) tokens)) in
  if (read <? len)%nat then
    match fuel with
    | O => None
    | S fuel =>
      read ← skip_spaces len buffer len read;
      if Nat.eqb read len then done buffer write tokens else
      r ← lex_token len buffer len read write None;
      match r with
      | inl e => Some (inl e)
      | inr (buffer', read', write') =>
        if (length tokens <? MAX_TOKENS)%nat then
          read'' ← skip_spaces len buffer' len read';
          lex_from fuel buffer' len read'' write'
            (tokens ++ [mkToken (as_u16 write) (as_u16 write')])
        else Some (inl TooManyTokens)
      end
    end
  else done buffer write tokens.

Definition lex (buffer : list Z) (len : nat) : option (ParseErrorKind + Lexed) :=
  if (length buffer <? len)%nat || (Z.of_nat len >? u16_max) then Some (inl LineTooLong)
  else lex_from len buffer len 0 0 [].

(** ** The reference: words of a line *)

(** One token of [l]: its text and what follows. *)
Fixpoint word (quote : option Z) (l : list Z) : ParseErrorKind + (list Z * list Z) :=
  let add b (r : ParseErrorKind + (list Z * list Z)) :=
    match r with inl e => inl e | inr (w, rest) => inr (b :: w, rest) end in
  match l with
  | [] => match quote with Some _ => inl UnterminatedQuote | None => inr ([], []) end
  | b :: l' =>
    match quote with
    | Some q =>
      if b =? q then word None l'
      else if b =? 92 then
        match l' with [] => inl TrailingEscape | b' :: l'' => add b' (word quote l'') end
      else add b (word quote l')
    | None =>
      if is_quote b then word (Some b) l'
      else if b =? 92 then
        match l' with [] => inl TrailingEscape | b' :: l'' => add b' (word quote l'') end
      else if is_space b then inr ([], l)
      else add b (word quote l')
    end
  end.

Fixpoint drop_spaces (l : list Z) : list Z :=
  match l with
  | b :: l' => if is_space b then drop_spaces l' else l
  | [] => []
  end.

(** The words of [l], at most [room] of them. *)
Fixpoint tokenize_from (fuel room : nat) (l : list Z) : ParseErrorKind + list (list Z) :=
  match drop_spaces l with
  | [] => inr []
  | l =>
    match fuel with
    | O => inr []
    | S fuel =>
      match word None l with
      | inl e => inl e
      | inr (w, rest) =>
        match room with
        | O => inl TooManyTokens
        | S room => match tokenize_from fuel room rest with
                    | inl e => inl e
                    | inr ws => inr (w :: ws)
                    end
        end
      end
    end
  end.

Definition tokenize (l : list Z) : ParseErrorKind + list (list Z) :=
  tokenize_from (length l) MAX_TOKENS l.

(** The lexer refines its reference: compacting in place never overwrites a
    byte that is still to be read, no index leaves the buffer, and token
    offsets fit their sixteen bits ([lex_refines]). Words that are quoted, or
    that need no quotes, are read back as they were ([quoted_line_lexes]). *)

(** ** What is left to read *)

Definition unread (buffer : list Z) (len read : nat) : list Z := drop read (take len buffer).

Section Unread.
Local Open Scope nat_scope.
Context (buffer : list Z) (len : nat) (Hlen : len <= length buffer).

Lemma unread_length read : read <= len -> length (unread buffer len read) = len - read.
Proof. intros H. unfold unread. rewrite length_drop, length_take. lia. Qed.

Lemma unread_end : unread buffer len len = [].
Proof. apply nil_length_inv. rewrite unread_length; lia. Qed.

Lemma unread_cons read : read < len ->
  exists b, buffer !! read = Some b /\ unread buffer len read = b :: unread buffer len (S read).
Proof.
  intros H. destruct (lookup_lt_is_Some_2 buffer read ltac:(lia)) as [b Hb].
  exists b. split; [exact Hb|]. unfold unread. apply drop_S.
  now rewrite lookup_take_lt.
Qed.

(** Writing behind the reading position changes nothing that is read. *)
Lemma unread_insert read write x : write < read ->
  unread (<[write := x]> buffer) len read = unread buffer len read.
Proof.
  intros H. unfold unread. apply list_eq. intros i. rewrite !lookup_drop.
  destruct (decide (read + i < len)).
  - rewrite !lookup_take_lt by lia. now rewrite list_lookup_insert_ne by lia.
  - now rewrite !lookup_take_ge by lia.
Qed.
End Unread.

Lemma take_S_insert (buffer : list Z) write x : (write < length buffer)%nat ->
  take (S write) (<[write := x]> buffer) = take write buffer ++ [x].
Proof.
  intros H. rewrite (take_S_r _ _ x) by (apply list_lookup_insert_eq; lia).
  now rewrite take_insert_ge.
Qed.

Lemma put_ok buffer write x : (write < length buffer)%nat ->
  put buffer write x = Some (<[write := x]> buffer).
Proof. intros H. unfold put. now rewrite (proj2 (Nat.ltb_lt _ _) H). Qed.

(** ** One token *)

(** What [lex_token] leaves when the reference reads [w] and leaves [rest]. *)
Definition token_post (buffer : list Z) (len read write : nat)
    (o : option (ParseErrorKind + (list Z * nat * nat))) (r : ParseErrorKind + (list Z * list Z)) : Prop :=
  match r with
  | inl e => o = Some (inl e)
  | inr (w, rest) =>
    exists buffer', o = Some (inr (buffer', (len - length rest)%nat, (write + length w)%nat))
      /\ length buffer' = length buffer
      /\ take (write + length w) buffer' = take write buffer ++ w
      /\ unread buffer' len (len - length rest) = rest
      /\ (write + length w <= len - length rest)%nat /\ (length rest <= len - read)%nat
  end.

(** The byte [x], written at [write] while [read] moves past [n] bytes. *)
Lemma token_post_write buffer len read write x n o r :
  (write < read + n <= len)%nat -> (len <= length buffer)%nat ->
  token_post (<[write := x]> buffer) len (read + n) (S write) o r ->
  token_post buffer len read write o
    (match r with inl e => inl e | inr (w, rest) => inr (x :: w, rest) end).
Proof.
  intros H Hlen. destruct r as [e|[w rest]]; [exact id|].
  intros (b' & -> & Hl & Ht & Hu & Hw & Hr). exists b'.
  rewrite length_insert in Hl. cbn [length].
  replace (write + S (length w))%nat with (S write + length w)%nat by lia.
  split_and!; [reflexivity|exact Hl| |exact Hu|lia|lia].
  rewrite Ht, take_S_insert, <- app_assoc by lia. reflexivity.
Qed.

Lemma lex_token_spec fuel : forall buffer len read write quote,
  (write <= read <= len)%nat -> (len <= length buffer)%nat -> (len - read <= fuel)%nat ->
  token_post buffer len read write (lex_token fuel buffer len read write quote)
    (word quote (unread buffer len read)).
Proof.
  induction fuel as [|fuel IH]; intros buffer len read write quote Hw Hl Hf;
    (destruct (decide (read = len)) as [->|Hne];
     [rewrite unread_end by lia; cbn [lex_token]; try rewrite Nat.ltb_irrefl;
      (destruct quote; cbn [word token_post]; [reflexivity|]);
      exists buffer; cbn [length]; rewrite Nat.sub_0_r, Nat.add_0_r, app_nil_r, unread_end by lia;
      split_and!; auto; lia|]); [lia|].
  destruct (unread_cons buffer len Hl read ltac:(lia)) as (b & Hb & Hu).
  rewrite Hu. cbn [lex_token]. rewrite (proj2 (Nat.ltb_lt read len)), Hb by lia.
  cbn [mbind option_bind word].
  assert (Hplain : forall x n o q, (n = 1 \/ n = 2)%nat -> (read + n <= len)%nat ->
    o = lex_token fuel (<[write := x]> buffer) len (read + n) (S write) q ->
    token_post buffer len read write o
      (match word q (unread buffer len (read + n)) with
       | inl e => inl e | inr (w, rest) => inr (x :: w, rest) end)).
  { intros x n o q Hn Hr ->. eapply (token_post_write _ _ _ _ _ n); [|exact Hl|]; [lia|].
    rewrite <- (unread_insert buffer len Hl (read + n)%nat write x) by lia.
    apply IH; rewrite ?length_insert; lia. }
  assert (Hskip : forall q, token_post buffer len read write
     (lex_token fuel buffer len (S read) write q) (word q (unread buffer len (S read)))).
  { intros q. specialize (IH buffer len (S read) write q ltac:(lia) Hl ltac:(lia)).
    destruct (word q _) as [e|[w rest]]; [exact IH|].
    destruct IH as (b' & H1 & H2 & H3 & H4 & H5 & H6). exists b'. split_and!; auto; lia. }
  assert (Hesc : forall q, token_post buffer len read write
     (if Nat.eqb (S read) len then Some (inl TrailingEscape) else
      b' ← buffer !! S read; buffer' ← put buffer write b';
      lex_token fuel buffer' len (S (S read)) (S write) q)
     (match unread buffer len (S read) with
      | [] => inl TrailingEscape
      | b' :: l'' => match word q l'' with inl e => inl e | inr (w, rest) => inr (b' :: w, rest) end
      end)).
  { intros q. destruct (Nat.eqb_spec (S read) len) as [<-|Hne'].
    - now rewrite unread_end by lia.
    - destruct (unread_cons buffer len Hl (S read) ltac:(lia)) as (b2 & Hb2 & ->).
      rewrite Hb2. cbn [mbind option_bind]. rewrite put_ok by lia. cbn [mbind option_bind].
      specialize (Hplain b2 2%nat _ q ltac:(auto) ltac:(lia) eq_refl).
      replace (read + 2)%nat with (S (S read)) in Hplain by lia. exact Hplain. }
  specialize (fun q => Hplain b 1%nat _ q ltac:(auto) ltac:(lia) eq_refl).
  replace (read + 1)%nat with (S read) in Hplain by lia.
  rewrite put_ok by lia. cbn [mbind option_bind].
  destruct quote as [q|].
  - destruct (b =? q); [apply Hskip|]. destruct (b =? 92); [apply Hesc|apply Hplain].
  - destruct (is_quote b); [apply Hskip|]. destruct (b =? 92); [apply Hesc|].
    destruct (is_space b); [|apply Hplain].
    exists buffer. cbn [length]. rewrite Nat.add_0_r, app_nil_r, unread_length by lia.
    replace (len - S (len - S read))%nat with read by lia.
    split_and!; auto; lia.
Qed.

(** ** Blanks *)

Lemma skip_spaces_spec fuel buffer len : (len <= length buffer)%nat -> forall read,
  (read <= len)%nat -> (len - read <= fuel)%nat ->
  exists read', skip_spaces fuel buffer len read = Some read' /\ (read <= read' <= len)%nat
    /\ unread buffer len read' = drop_spaces (unread buffer len read).
Proof.
  intros Hl. induction fuel as [|fuel IH]; intros read Hr Hf;
    (destruct (decide (read = len)) as [->|Hne];
     [exists len; cbn [skip_spaces]; rewrite Nat.ltb_irrefl, unread_end by lia;
      split_and!; auto; lia|]); [lia|].
  destruct (unread_cons buffer len Hl read ltac:(lia)) as (b & Hb & Hu).
  cbn [skip_spaces]. rewrite (proj2 (Nat.ltb_lt read len)), Hb, Hu by lia.
  cbn [mbind option_bind drop_spaces]. destruct (is_space b).
  - destruct (IH (S read) ltac:(lia) ltac:(lia)) as (r & H1 & H2 & H3).
    exists r. split_and!; auto; lia.
  - exists read. split_and!; auto; lia.
Qed.

Lemma drop_spaces_idem l : drop_spaces (drop_spaces l) = drop_spaces l.
Proof.
  induction l as [|b l IH]; [reflexivity|]. cbn. destruct (is_space b) eqn:E; [exact IH|].
  cbn. now rewrite E.
Qed.

Lemma drop_spaces_length l : (length (drop_spaces l) <= length l)%nat.
Proof. induction l as [|b l IH]; [reflexivity|]. cbn. destruct (is_space b); cbn; lia. Qed.

Lemma drop_spaces_head l b l' : drop_spaces l = b :: l' -> is_space b = false.
Proof.
  induction l as [|c l IH]; [discriminate|]. cbn. destruct (is_space c) eqn:E; [exact IH|].
  intros [= -> _]. exact E.
Qed.

(** A token that starts at a byte that is no blank consumes it. *)
Lemma word_shrinks : forall n l q w rest, (length l <= n)%nat -> word q l = inr (w, rest) ->
  (length rest <= length l)%nat.
Proof.
  induction n as [|n IH]; intros l q w rest Hn H.
  { destruct l; [|simpl in Hn; lia]. destruct q; [discriminate|]. injection H as <- <-. lia. }
  destruct l as [|b l]; [destruct q; [discriminate|]; injection H as <- <-; lia|].
  cbn [word] in H. cbn [length] in Hn |- *.
  assert (Hadd : forall (c : Z) r, match r with inl e => inl e | inr (w, rest) => inr (c :: w, rest) end
     = (inr (w, rest) : ParseErrorKind + (list Z * list Z)) -> exists w', r = inr (w', rest)).
  { intros c [e|[w' r']]; [discriminate|]. intros [= _ ->]. eauto. }
  assert (Hesc : match l with [] => inl TrailingEscape | b' :: l'' =>
      match word q l'' with inl e => inl e | inr (w, rest) => inr (b' :: w, rest) end end
      = inr (w, rest) -> (length rest <= S (length l))%nat).
  { destruct l as [|b' l'']; [discriminate|]. intros [w' Hw']%Hadd.
    apply IH in Hw'; simpl in *; lia. }
  assert (Hrec : forall q' w', word q' l = inr (w', rest) -> (length rest <= S (length l))%nat).
  { intros q' w' Hw'. apply IH in Hw'; lia. }
  destruct q as [q|].
  - destruct (b =? q); [exact (Hrec _ _ H)|]. destruct (b =? 92); [now apply Hesc|].
    apply Hadd in H as [w' H]. exact (Hrec _ _ H).
  - destruct (is_quote b); [exact (Hrec _ _ H)|]. destruct (b =? 92); [now apply Hesc|].
    destruct (is_space b); [injection H as <- <-; reflexivity|].
    apply Hadd in H as [w' H]. exact (Hrec _ _ H).
Qed.

Lemma word_length q l w rest : word q l = inr (w, rest) -> (length rest <= length l)%nat.
Proof. exact (word_shrinks _ l q w rest (le_n _)). Qed.

Lemma word_progress b l w rest : is_space b = false -> word None (b :: l) = inr (w, rest) ->
  (length rest <= length l)%nat.
Proof.
  intros Hs H. cbn [word] in H. destruct (is_quote b); [exact (word_length _ _ _ _ H)|].
  destruct (b =? 92).
  - destruct l as [|b' l']; [discriminate|]. destruct (word None l') as [e|[w' r']] eqn:E; [discriminate|].
    injection H as <- <-. apply word_length in E. simpl. lia.
  - rewrite Hs in H. destruct (word None l) as [e|[w' r']] eqn:E; [discriminate|].
    injection H as <- <-. exact (word_length _ _ _ _ E).
Qed.

(** ** The whole line *)

(** The tokens of the words [ws] written from offset [off] on. *)
Fixpoint tokens_at (off : nat) (ws : list (list Z)) : list Token :=
  match ws with
  | [] => []
  | w :: ws => mkToken (Z.of_nat off) (Z.of_nat (off + length w)) :: tokens_at (off + length w) ws
  end.

Lemma tokens_at_app off ws1 ws2 :
  tokens_at off (ws1 ++ ws2) = tokens_at off ws1 ++ tokens_at (off + length (concat ws1)) ws2.
Proof.
  revert off. induction ws1 as [|w ws1 IH]; intros off; cbn; [now rewrite Nat.add_0_r|].
  rewrite IH, length_app. do 3 f_equal. lia.
Qed.

Lemma length_tokens_at off ws : length (tokens_at off ws) = length ws.
Proof. revert off. induction ws; intros; cbn; auto. Qed.

Lemma tokens_at_lookup off ws i : tokens_at off ws !! i =
  (fun w => let o := (off + length (concat (take i ws)))%nat in
            mkToken (Z.of_nat o) (Z.of_nat (o + length w))) <$> ws !! i.
Proof.
  revert off i. induction ws as [|w ws IH]; intros off [|i]; cbn; auto.
  - now rewrite Nat.add_0_r.
  - rewrite IH. destruct (ws !! i); cbn; [|reflexivity]. rewrite length_app. do 3 f_equal; lia.
Qed.

Lemma as_u16_small n : (Z.of_nat n <= u16_max)%Z -> as_u16 n = Z.of_nat n.
Proof. unfold as_u16, u16_max. intros H. apply Z.mod_small. lia. Qed.

(** The words lexed so far fill the front of the buffer. *)
Definition lexed_words (ws : list (list Z)) : Lexed := mkLexed (concat ws) (tokens_at 0 ws).

Definition prefixed (ws : list (list Z)) (r : ParseErrorKind + list (list Z)) : ParseErrorKind + Lexed :=
  match r with inl e => inl e | inr ws' => inr (lexed_words (ws ++ ws')) end.

Lemma lex_from_spec fuel : forall buffer len read ws tfuel,
  (len <= length buffer)%nat -> Z.of_nat len <= u16_max ->
  (length (concat ws) <= read <= len)%nat -> take (length (concat ws)) buffer = concat ws ->
  (length ws <= MAX_TOKENS)%nat -> (len - read <= fuel)%nat -> (len - read <= tfuel)%nat ->
  lex_from fuel buffer len read (length (concat ws)) (tokens_at 0 ws)
  = Some (prefixed ws (tokenize_from tfuel (MAX_TOKENS - length ws) (unread buffer len read))).
Proof.
  induction fuel as [|fuel IH]; intros buffer len read ws tfuel Hl Hu16 Hr Ht Hws Hf Htf.
  { assert (read = len) as -> by lia. cbn [lex_from].
    rewrite Nat.ltb_irrefl, unread_end by lia. destruct tfuel; cbn;
      rewrite app_nil_r, Ht; reflexivity. }
  cbn [lex_from]. destruct (Nat.ltb_spec read len) as [Hlt|Hge].
  2:{ assert (read = len) as -> by lia. rewrite unread_end by lia.
      destruct tfuel; cbn; rewrite app_nil_r, Ht; reflexivity. }
  destruct (skip_spaces_spec len buffer len Hl read ltac:(lia) ltac:(lia)) as (r1 & -> & Hr1 & Hu1).
  cbn [mbind option_bind]. destruct tfuel as [|tfuel]; [lia|]. cbn [tokenize_from].
  destruct (Nat.eqb_spec r1 len) as [->|Hne].
  { rewrite <- Hu1, unread_end by lia. cbn. rewrite app_nil_r, Ht. reflexivity. }
  pose proof (lex_token_spec len buffer len r1 (length (concat ws)) None ltac:(lia) Hl ltac:(lia)) as HT.
  destruct (unread_cons buffer len Hl r1 ltac:(lia)) as (b & Hb & Hub).
  rewrite Hu1 in Hub, HT. rewrite Hub in HT |- *.
  destruct (word None (b :: _)) as [e|[w rest]] eqn:Ew; cbn [token_post] in HT.
  { rewrite HT. reflexivity. }
  destruct HT as (b' & -> & Hbl & Hbt & Hbu & Hbw & Hbr). cbn [mbind option_bind].
  rewrite length_tokens_at. destruct (Nat.ltb_spec (length ws) MAX_TOKENS) as [Hroom|Hfull].
  2:{ replace (MAX_TOKENS - length ws)%nat with 0%nat by lia. reflexivity. }
  pose proof (word_progress _ _ _ _ (drop_spaces_head _ _ _ Hub) Ew) as Hprog.
  rewrite unread_length in Hprog by lia.
  destruct (skip_spaces_spec len b' len ltac:(lia) (len - length rest)%nat ltac:(lia) ltac:(lia))
    as (r2 & -> & Hr2 & Hu2). cbn [mbind option_bind].
  replace (MAX_TOKENS - length ws)%nat with (S (MAX_TOKENS - S (length ws))) by lia.
  rewrite !as_u16_small by lia.
  assert (Hc : length (concat (ws ++ [w])) = (length (concat ws) + length w)%nat)
    by (rewrite concat_app, length_app; cbn; now rewrite app_nil_r).
  specialize (IH b' len r2 (ws ++ [w]) tfuel ltac:(lia) Hu16).
  rewrite Hc, tokens_at_app, length_app in IH. cbn [tokens_at Nat.add length] in IH.
  rewrite IH; clear IH; [|lia| |lia|lia|lia].
  - f_equal. rewrite Hu2, Hbu. replace (length ws + 1)%nat with (S (length ws)) by lia.
    assert (Htok : tokenize_from tfuel (MAX_TOKENS - S (length ws)) (drop_spaces rest)
                 = tokenize_from tfuel (MAX_TOKENS - S (length ws)) rest)
      by (destruct tfuel; cbn [tokenize_from]; now rewrite drop_spaces_idem).
    rewrite Htok. destruct (tokenize_from _ _ rest) as [e|ws']; cbn; [reflexivity|].
    now rewrite <- app_assoc.
  - rewrite Hbt, Ht, concat_app. cbn. now rewrite app_nil_r.
Qed.

(** C31: the in-place lexer computes exactly the reference tokenizer of the
    line it was given, or its error, with every index in range and no offset
    truncated; a line it refuses for its length is longer than the buffer or
    than sixteen bits can index. *)
Theorem lex_refines buffer len :
  lex buffer len = Some (
    if (length buffer <? len)%nat || (Z.of_nat len >? u16_max) then inl LineTooLong
    else match tokenize (take len buffer) with
         | inl e => inl e
         | inr ws => inr (lexed_words ws)
         end).
Proof.
  unfold lex. destruct (Nat.ltb_spec (length buffer) len) as [|Hl]; [reflexivity|].
  destruct (Z.of_nat len >? u16_max) eqn:E; [reflexivity|].
  assert (Z.of_nat len <= u16_max) by (unfold u16_max in *; lia).
  change (lex_from len buffer len 0 0 []) with
    (lex_from len buffer len 0 (length (concat ([] : list (list Z)))) (tokens_at 0 [])).
  rewrite (lex_from_spec len buffer len 0 [] len); cbn; auto; try lia.
  unfold tokenize, unread. rewrite length_take_le, drop_0 by lia.
  destruct (tokenize_from _ _ _); reflexivity.
Qed.

(** [arg] reads the words back, and slices nothing out of range. *)
Lemma arg_words ws i : arg (lexed_words ws) i = Some
  (match ws !! i with
   | None => inl (parse_error UnexpectedArgument)
   | Some w => match from_utf8 w with
               | Some text => inr text
               | None => inl (parse_error InvalidUtf8) end
   end).
Proof.
  unfold arg, lexed_words. cbn [lx_tokens lx_bytes]. rewrite tokens_at_lookup.
  destruct (ws !! i) as [w|] eqn:E; cbn [fmap option_fmap option_map]; [|reflexivity].
  unfold token_bytes. cbn [t_start t_end lx_bytes Nat.add]. rewrite !Nat2Z.id.
  assert (concat ws = concat (take i ws) ++ w ++ concat (drop (S i) ws)) as Hc.
  { rewrite <- (take_drop_middle ws i w E) at 1. now rewrite concat_app. }
  assert (slice (concat ws) (length (concat (take i ws)))
           (length (concat (take i ws)) + length w - length (concat (take i ws))) = Some w) as ->.
  { apply slice_Some. rewrite Hc, !length_app. split; [lia|].
    rewrite drop_app_length. replace (_ + _ - _)%nat with (length w) by lia.
    now rewrite take_app_length. }
  reflexivity.
Qed.

(** ** Spelling words so that they lex back *)

(** What may follow a token: nothing, or a blank. *)
Definition at_boundary (rest : list Z) : bool :=
  match rest with [] => true | b :: _ => is_space b end.

(** [s] is a spelling of [w]: a token that reads as [w]. *)
Definition spells (s w : list Z) : Prop :=
  (exists b s', s = b :: s' /\ is_space b = false) /\
  forall rest, at_boundary rest = true -> word None (s ++ rest) = inr (w, rest).

(** A byte that needs an escape inside double quotes. *)
Definition escapes (b : Z) : bool := (b =? 34) || (b =? 92).

Definition escape (w : list Z) : list Z := w ≫= (fun b => if escapes b then [92; b] else [b]).
Definition quote_word (w : list Z) : list Z := 34 :: escape w ++ [34].

(** A byte that only means itself outside quotes. *)
Definition ordinary (b : Z) : bool := negb (is_space b || is_quote b || (b =? 92)).

Lemma word_boundary rest : at_boundary rest = true -> word None rest = inr ([], rest).
Proof.
  destruct rest as [|b rest]; [reflexivity|]. cbn [at_boundary word]. intros Hs.
  assert (b = 32 \/ b = 9 \/ b = 13 \/ b = 10) as Hb
    by (unfold is_space in Hs; rewrite !orb_true_iff, !Z.eqb_eq in Hs; tauto).
  destruct Hb as [-> |[-> |[-> | ->]]]; reflexivity.
Qed.

Lemma word_escaped w rest : word (Some 34) (escape w ++ 34 :: rest) =
  match word None rest with inl e => inl e | inr (w', r) => inr (w ++ w', r) end.
Proof.
  induction w as [|b w IH]; cbn.
  - destruct (word None rest) as [e|[w' r]]; reflexivity.
  - unfold escape, escapes in *. cbn [list_bind mbind] in *. cbn.
    destruct (Z.eqb_spec b 34) as [->|H34]; [cbn; rewrite IH; now destruct (word None rest) as [e|[w' r]]|].
    destruct (Z.eqb_spec b 92) as [->|H92]; [cbn; rewrite IH; now destruct (word None rest) as [e|[w' r]]|].
    cbn. rewrite (proj2 (Z.eqb_neq _ _) H34), (proj2 (Z.eqb_neq _ _) H92), IH.
    now destruct (word None rest) as [e|[w' r]].
Qed.

Lemma quote_word_spells w : spells (quote_word w) w.
Proof.
  split; [now eexists 34, _|]. intros rest Hrest.
  change (quote_word w ++ rest) with (34 :: (escape w ++ [34]) ++ rest).
  rewrite <- app_assoc. cbn. rewrite word_escaped, word_boundary by exact Hrest.
  now rewrite app_nil_r.
Qed.

Lemma escape_plain w : forallb (fun b => negb (escapes b)) w = true -> escape w = w.
Proof.
  induction w as [|b w IH]; [reflexivity|]. cbn [forallb]. intros [Hb Hw]%andb_true_iff.
  apply negb_true_iff in Hb. unfold escape. cbn. rewrite Hb. cbn. f_equal. now apply IH.
Qed.

Lemma ordinary_spells w : w <> [] -> forallb ordinary w = true -> spells w w.
Proof.
  intros Hne Hw. split.
  - destruct w as [|b w]; [done|]. cbn in Hw. apply andb_true_iff in Hw as [Hb _].
    exists b, w. split; [reflexivity|]. unfold ordinary in Hb.
    now destruct (is_space b).
  - intros rest Hrest. clear Hne. induction w as [|b w IH]; [now apply word_boundary|].
    cbn in Hw. apply andb_true_iff in Hw as [Hb Hw]. unfold ordinary in Hb.
    apply negb_true_iff, orb_false_iff in Hb as [[Hs Hq]%orb_false_iff He].
    cbn. now rewrite Hq, He, Hs, IH.
Qed.

(** A line: spellings separated by one blank each. *)
Fixpoint join_words (ss : list (list Z)) : list Z :=
  match ss with
  | [] => []
  | [s] => s
  | s :: ss => s ++ 32 :: join_words ss
  end.

Lemma tokenize_join ss ws : Forall2 spells ss ws -> forall fuel room,
  (length ss <= fuel)%nat -> (length ss <= room)%nat ->
  tokenize_from fuel room (join_words ss) = inr ws.
Proof.
  induction 1 as [|s w ss ws [(b & s' & -> & Hb) Hs] Hss IH]; intros fuel room Hf Hr.
  { destruct fuel; reflexivity. }
  destruct fuel as [|fuel], room as [|room]; cbn [length] in Hf, Hr; try lia.
  destruct ss as [|s2 ss].
  - inversion Hss; subst. cbn [join_words tokenize_from]. cbn [drop_spaces]. rewrite Hb.
    specialize (Hs [] eq_refl). rewrite app_nil_r in Hs. rewrite Hs.
    destruct fuel; reflexivity.
  - change (join_words ((b :: s') :: s2 :: ss)) with ((b :: s') ++ 32 :: join_words (s2 :: ss)).
    cbn [tokenize_from]. cbn [app drop_spaces]. rewrite Hb.
    specialize (Hs (32 :: join_words (s2 :: ss)) eq_refl). cbn [app] in Hs. rewrite Hs.
    replace (tokenize_from fuel room (32 :: join_words (s2 :: ss)))
      with (tokenize_from fuel room (join_words (s2 :: ss)))
      by (destruct fuel; reflexivity).
    rewrite IH by lia. reflexivity.
Qed.

Lemma join_words_length ss ws : Forall2 spells ss ws -> (length ss <= length (join_words ss))%nat.
Proof.
  induction 1 as [|s w ss ws [(b & s' & -> & Hb) Hs] Hss IH]; [reflexivity|].
  destruct ss as [|s2 ss]; [cbn; lia|].
  change (join_words ((b :: s') :: s2 :: ss)) with ((b :: s') ++ 32 :: join_words (s2 :: ss)).
  rewrite length_app. cbn [length] in *. lia.
Qed.

(** Any line of spellings lexes to the words they spell. *)
Lemma spelled_line_lexes ss ws :
  Forall2 spells ss ws -> (length ss <= MAX_TOKENS)%nat ->
  Z.of_nat (length (join_words ss)) <= u16_max ->
  lex (join_words ss) (length (join_words ss)) = Some (inr (lexed_words ws)).
Proof.
  intros Hs Hn Hlen. rewrite lex_refines, Nat.ltb_irrefl, firstn_all.
  rewrite Z.gtb_ltb, (proj2 (Z.ltb_ge _ _)) by lia. cbn [orb].
  unfold tokenize. rewrite (tokenize_join _ ws Hs); [reflexivity| |exact Hn].
  exact (join_words_length _ _ Hs).
Qed.

(** a line of at most thirty-two words, each quoted with its quotes and
    backslashes escaped, or left plain where it holds no blank, quote or
    backslash, lexes back to exactly those words. *)
Theorem quoted_line_lexes (words : list (bool * list Z)) :
  (length words <= MAX_TOKENS)%nat ->
  Forall (fun '(quoted, w) => quoted = true \/ (w <> [] /\ forallb ordinary w = true)) words ->
  let line := join_words ((fun '(quoted, w) => if quoted : bool then quote_word w else w) <$> words) in
  Z.of_nat (length line) <= u16_max ->
  lex line (length line) = Some (inr (lexed_words (words.*2))).
Proof.
  intros Hn Hw line Hlen. apply spelled_line_lexes; [|now rewrite length_fmap|exact Hlen].
  subst line. clear Hn Hlen. induction Hw as [|[q w] words Hq _ IH]; constructor; [|exact IH].
  destruct q; [apply quote_word_spells|]. destruct Hq as [|[]]; [done|]. now apply ordinary_spells.
Qed.

Lemma quoted_line_lexes_witness :
  lex (str "set " ++ [34] ++ str "a b\\" ++ [34] ++ str " end") 15
  = Some (inr (lexed_words [str "set"; str "a b\"; str "end"])).
Proof.
  refine (quoted_line_lexes [(false, str "set"); (true, str "a b\"); (false, str "end")] _ _ _).
  - vm_compute. lia.
  - apply Forall_cons_2; [right; split; [discriminate|reflexivity]|].
    apply Forall_cons_2; [left; reflexivity|].
    apply Forall_cons_2; [right; split; [discriminate|reflexivity]|apply Forall_nil_2].
  - vm_compute. discriminate.
Defined.
