(* ===== verification/CliEditor.v ===== *)
(** The line editor of the command line, [microtun-cli/src/editor.rs]: a
    fixed-capacity byte buffer with a cursor, escape sequences read one byte at
    a time, and a bounded history. Every indexing and [copy_within] is checked:
    [None] is a panic. *)

From Stdlib Require Import ZArith Lia.
From stdpp Require Import base list option.
From S2P Require Import Prelude Utf8.
Open Scope Z_scope.

Inductive EditorEvent :=
| EvNone | Echo (byte : Z) | EvBackspace | Redraw | Submit | Complete | Interrupt | ClearScreen.

(** [Csi] holds at most eight bytes; further ones are dropped. *)
Inductive EscapeState := Normal | Esc | Csi (sequence : list Z).
Definition CSI_CAP : nat := 8.

Record Editor := mkEditor {
  line : list Z;
  cursor : nat;
  escape : EscapeState;
  history : list (list Z);
  history_index : option nat;
  last_was_cr : bool }.

Definition with_text (l : list Z) (c : nat) (ed : Editor) : Editor :=
  mkEditor l c (escape ed) (history ed) (history_index ed) (last_was_cr ed).
Definition with_cursor (c : nat) (ed : Editor) : Editor := with_text (line ed) c ed.
Definition with_escape (e : EscapeState) (ed : Editor) : Editor :=
  mkEditor (line ed) (cursor ed) e (history ed) (history_index ed) (last_was_cr ed).
Definition with_index (i : option nat) (ed : Editor) : Editor :=
  mkEditor (line ed) (cursor ed) (escape ed) (history ed) i (last_was_cr ed).
Definition with_history (h : list (list Z)) (ed : Editor) : Editor :=
  mkEditor (line ed) (cursor ed) (escape ed) h (history_index ed) (last_was_cr ed).
Definition with_cr (b : bool) (ed : Editor) : Editor :=
  mkEditor (line ed) (cursor ed) (escape ed) (history ed) (history_index ed) b.

(** [slice.copy_within(start..end, dest)]. *)
Definition copy_within (buf : list Z) (start stop dest : nat) : option (list Z) :=
  if (start <=? stop)%nat && (stop <=? length buf)%nat && (dest <=? length buf - (stop - start))%nat
  then Some (blit buf dest (take (stop - start) (drop start buf))) else None.

(** Popping [count] times. *)
Definition pop_n (buf : list Z) (count : nat) : list Z := take (length buf - count) buf.

Section Editor.
Context (LINE HISTORY : nat).

Definition editor_new : Editor := mkEditor [] 0 Normal [] None false.

Definition clear (ed : Editor) : Editor := with_index None (with_text [] 0 ed).

Fixpoint prev_scan (l : list Z) (index : nat) : option nat :=
  match index with
  | O => Some O
  | S index' => b ← l !! index; if is_continuation b then prev_scan l index' else Some index
  end.

Definition prev_boundary (ed : Editor) (index : nat) : option nat :=
  match index with O => Some O | S index => prev_scan (line ed) index end.

Fixpoint next_scan (fuel : nat) (l : list Z) (index : nat) : option nat :=
  if (index <? length l)%nat then
    b ← l !! index;
    if is_continuation b then
      match fuel with O => None | S fuel => next_scan fuel l (S index) end
    else Some index
  else Some index.

Definition next_boundary (ed : Editor) (index : nat) : option nat :=
  if (length (line ed) <=? index)%nat then Some (length (line ed))
  else next_scan (length (line ed)) (line ed) (S index).

Definition insert (byte : Z) (ed : Editor) : option (Editor * bool) :=
  let l := line ed in
  if Nat.eqb (length l) LINE then Some (ed, false)
  else if Nat.eqb (cursor ed) (length l) then
    if (length l <? LINE)%nat then Some (with_text (l ++ [byte]) (S (cursor ed)) ed, true)
    else Some (ed, false)
  else if (length l <? LINE)%nat then
    let l := l ++ [0] in
    l ← copy_within l (cursor ed) (length l - 1) (S (cursor ed));
    if (cursor ed <? length l)%nat
    then Some (with_text (<[cursor ed := byte]> l) (S (cursor ed)) ed, true) else None
  else Some (ed, false).

Definition backspace (ed : Editor) : option (Editor * bool) :=
  if Nat.eqb (cursor ed) 0 then Some (ed, false) else
  start ← prev_boundary ed (cursor ed);
  let count := (cursor ed - start)%nat in
  l ← copy_within (line ed) (cursor ed) (length (line ed)) start;
  Some (with_text (pop_n l count) start ed, true).

Definition delete (ed : Editor) : option (Editor * bool) :=
  if (length (line ed) <=? cursor ed)%nat then Some (ed, false) else
  stop ← next_boundary ed (cursor ed);
  let count := (stop - cursor ed)%nat in
  l ← copy_within (line ed) stop (length (line ed)) (cursor ed);
  Some (with_text (pop_n l count) (cursor ed) ed, true).

(** [extend_from_slice] leaves the line empty when the entry does not fit. *)
Definition load_history (index : nat) (ed : Editor) : Editor :=
  match history ed !! index with
  | None => ed
  | Some entry =>
    let l := if (length (str_bytes entry) <=? LINE)%nat then str_bytes entry else [] in
    with_text l (length l) ed
  end.

Definition history_up (ed : Editor) : Editor * bool :=
  if bool_decide (history ed = []) then (ed, false) else
  let index := match history_index ed with
               | None => (length (history ed) - 1)%nat
               | Some O => O
               | Some (S index) => index
               end in
  (load_history index (with_index (Some index) ed), true).

Definition history_down (ed : Editor) : Editor * bool :=
  match history_index ed with
  | None => (ed, false)
  | Some index =>
    if (length (history ed) <=? index + 1)%nat
    then (with_index None (with_text [] 0 ed), true)
    else (load_history (index + 1) (with_index (Some (index + 1)%nat) ed), true)
  end.

Definition remember (ed : Editor) : Editor :=
  match from_utf8 (line ed) with
  | None => ed
  | Some text =>
    if bool_decide (trim text = []) then ed
    else if bool_decide (last (history ed) = Some text) then ed
    else if (LINE <? length (str_bytes text))%nat then ed
    else
      let h := if Nat.eqb (length (history ed)) HISTORY then tail (history ed) else history ed in
      with_history (if (length h <? HISTORY)%nat then h ++ [text] else h) ed
  end.

Fixpoint insert_all (bytes : list Z) (ed : Editor) : option (Editor * bool) :=
  match bytes with
  | [] => Some (ed, true)
  | byte :: bytes =>
    r ← insert byte ed;
    let '(ed, ok) := r in
    if ok : bool then insert_all bytes ed else Some (ed, false)
  end.

Definition replace_range (start : nat) (prefix value : list Z) (quote trailing_space : bool)
    (ed : Editor) : option (Editor * bool) :=
  let start := Nat.min start (cursor ed) in
  let remove := (cursor ed - start)%nat in
  l ← copy_within (line ed) (cursor ed) (length (line ed)) start;
  let ed := with_text (pop_n l remove) start ed in
  let quote_byte := if quote then [34] else [] in
  insert_all (str_bytes prefix ++ quote_byte ++ str_bytes value ++ quote_byte
              ++ (if trailing_space then [32] else [])) ed.

(** The final bytes of the sequences that are recognised. *)
Definition finish_csi (sequence : list Z) (ed : Editor) : option (Editor * EditorEvent) :=
  let redraw_if (r : Editor * bool) := (fst r, if snd r then Redraw else EvNone) in
  match sequence with
  | [65] => Some (redraw_if (history_up ed))
  | [66] => Some (redraw_if (history_down ed))
  | [67] => c ← next_boundary ed (cursor ed); Some (with_cursor c ed, Redraw)
  | [68] => c ← prev_boundary ed (cursor ed); Some (with_cursor c ed, Redraw)
  | [72] | [49; 126] => Some (with_cursor 0 ed, Redraw)
  | [70] | [52; 126] => Some (with_cursor (length (line ed)) ed, Redraw)
  | [51; 126] => r ← delete ed; Some (redraw_if r)
  | _ => Some (ed, EvNone)
  end.

(** [while cursor > 0 && p(line[cursor - 1]) { changed |= backspace() }]. *)
Fixpoint erase_while (p : Z -> bool) (fuel : nat) (changed : bool) (ed : Editor)
  : option (Editor * bool) :=
  if (0 <? cursor ed)%nat then
    b ← line ed !! (cursor ed - 1)%nat;
    if p b then
      match fuel with
      | O => None
      | S fuel =>
        r ← backspace ed;
        erase_while p fuel (changed || snd r) (fst r)
      end
    else Some (ed, changed)
  else Some (ed, changed).

Definition kill_word (ed : Editor) : option (Editor * bool) :=
  r ← erase_while is_ascii_whitespace (cursor ed) false ed;
  erase_while (fun b => negb (is_ascii_whitespace b)) (cursor (fst r)) (snd r) (fst r).

(** The bytes that are not part of an escape sequence. *)
Definition feed_plain (byte : Z) (ed : Editor) : option (Editor * EditorEvent) :=
  if last_was_cr ed && ((byte =? 10) || (byte =? 0)) then Some (with_cr false ed, EvNone) else
  let ed := with_cr false ed in
  if byte =? 13 then Some (with_cr true ed, Submit)
  else if byte =? 10 then Some (ed, Submit)
  else if byte =? 9 then Some (ed, Complete)
  else if byte =? 27 then Some (with_escape Esc ed, EvNone)
  else if byte =? 3 then Some (ed, Interrupt)
  else if byte =? 12 then Some (ed, ClearScreen)
  else if byte =? 1 then Some (with_cursor 0 ed, Redraw)
  else if byte =? 5 then Some (with_cursor (length (line ed)) ed, Redraw)
  else if byte =? 21 then
    if Nat.eqb (cursor ed) 0 then Some (ed, EvNone) else
    l ← copy_within (line ed) (cursor ed) (length (line ed)) 0;
    Some (with_text (pop_n l (cursor ed)) 0 ed, Redraw)
  else if byte =? 11 then Some (with_text (take (cursor ed) (line ed)) (cursor ed) ed, Redraw)
  else if byte =? 23 then
    r ← kill_word ed; Some (fst r, if (snd r : bool) then Redraw else EvNone)
  else if (byte =? 8) || (byte =? 127) then
    fast ← (if Nat.eqb (cursor ed) (length (line ed)) && (0 <? cursor ed)%nat
            then b ← line ed !! (cursor ed - 1)%nat; Some (b <? 128) else Some false);
    r ← backspace ed;
    Some (fst r, if (snd r : bool) then (if (fast : bool) then EvBackspace else Redraw) else EvNone)
  else if 32 <=? byte then
    let append := Nat.eqb (cursor ed) (length (line ed)) in
    r ← insert byte ed;
    Some (fst r, if (snd r : bool) then (if append then Echo byte else Redraw) else EvNone)
  else Some (ed, EvNone).

Definition feed (byte : Z) (ed : Editor) : option (Editor * EditorEvent) :=
  let state := escape ed in
  let ed := with_escape Normal ed in
  match state with
  | Esc =>
    if (byte =? 91) || (byte =? 79) then Some (with_escape (Csi []) ed, EvNone)
    else feed_plain byte ed
  | Csi sequence =>
    let sequence := if (length sequence <? CSI_CAP)%nat then sequence ++ [byte] else sequence in
    if is_ascii_alphabetic byte || (byte =? 126) then finish_csi sequence ed
    else Some (with_escape (Csi sequence) ed, EvNone)
  | Normal => feed_plain byte ed
  end.

(** The bytes of a keystroke, one at a time. *)
Fixpoint feed_all (bytes : list Z) (ed : Editor) : option (Editor * list EditorEvent) :=
  match bytes with
  | [] => Some (ed, [])
  | byte :: bytes =>
    r ← feed byte ed;
    r' ← feed_all bytes (fst r);
    Some (fst r', snd r :: snd r')
  end.
End Editor.

(** The line editor is safe and edits text. From any state that respects its
    capacities every byte is processed without a panic and leaves such a state
    ([feed_keeps_editor]); and on keystrokes the byte editor implements an editor of
    whole characters, a zipper of cells ([editor_refines_text]): no operation
    ever splits a character. *)

(** ** Moving bytes *)

Section Moves.
Local Open Scope nat_scope.

Lemma cut_spec l i j : i <= j <= length l ->
  exists l', copy_within l j (length l) i = Some l'
    /\ pop_n l' (j - i) = take i l ++ drop j l.
Proof.
  intros H. unfold copy_within.
  rewrite (proj2 (Nat.leb_le j _)), Nat.leb_refl, (proj2 (Nat.leb_le i _)) by lia.
  cbn [andb]. eexists; split; [reflexivity|].
  unfold pop_n, blit.
  rewrite (take_ge (drop j l)) by (rewrite length_drop; lia).
  set (t := take i l ++ drop j l).
  assert (Ht : length t = length l - (j - i)).
  { subst t. rewrite length_app, length_take, length_drop. lia. }
  rewrite app_assoc. fold t. rewrite length_app, Ht, !length_drop.
  replace (length l - (j - i) + _ - (j - i)) with (length t); [apply take_app_length|].
  rewrite Ht. lia.
Qed.

Lemma shift_spec l i x y : i <= length l ->
  exists l', copy_within (l ++ [y]) i (length (l ++ [y]) - 1) (S i) = Some l'
    /\ length l' = S (length l) /\ <[i := x]> l' = take i l ++ x :: drop i l.
Proof.
  intros H. unfold copy_within. rewrite !length_app. cbn [length].
  replace (length l + 1 - 1) with (length l) by lia.
  rewrite (proj2 (Nat.leb_le i _)), (proj2 (Nat.leb_le (length l) _)),
    (proj2 (Nat.leb_le (S i) _)) by lia.
  cbn [andb]. eexists; split; [reflexivity|].
  rewrite (drop_app_le l [y] i), take_app_length' by (rewrite ?length_drop; lia).
  unfold blit. rewrite length_drop.
  rewrite (drop_ge (l ++ [y])) by (rewrite length_app; cbn; lia). rewrite app_nil_r.
  destruct (decide (i = length l)) as [->|Hne].
  - rewrite drop_all, app_nil_r.
    replace (S (length l)) with (length l + 1) by lia.
    rewrite (take_ge (l ++ [y])), (take_ge l) by (rewrite ?length_app; cbn; lia).
    rewrite length_app. cbn. split; [lia|].
    rewrite insert_app_r_alt, Nat.sub_diag by lia. reflexivity.
  - destruct (lookup_lt_is_Some_2 l i ltac:(lia)) as [z Hz].
    rewrite take_app_le, (take_S_r _ _ z), <- app_assoc by (lia || exact Hz). cbn [app].
    rewrite length_app. cbn [length]. rewrite length_take, length_drop.
    split; [lia|]. rewrite insert_app_r_alt by (rewrite length_take; lia).
    rewrite length_take. replace (i - _) with 0 by lia. reflexivity.
Qed.
End Moves.

(** ** The invariant *)

Fixpoint distinct_neighbours (h : list (list Z)) : Prop :=
  match h with
  | a :: (b :: _) as t => a <> b /\ distinct_neighbours t
  | _ => True
  end.

(** A line the history keeps: text, within the capacity, with something in it. *)
Definition entry_ok (LINE : nat) (e : list Z) : Prop :=
  Forall (fun c => is_char c = true) e /\ (length (str_bytes e) <= LINE)%nat /\ trim e <> [].

Record editor_inv (LINE HISTORY : nat) (ed : Editor) : Prop := {
  ei_cursor : (cursor ed <= length (line ed) <= LINE)%nat;
  ei_history : (length (history ed) <= HISTORY)%nat;
  ei_entries : Forall (entry_ok LINE) (history ed);
  ei_neighbours : distinct_neighbours (history ed);
  ei_index : forall i, history_index ed = Some i -> (i < length (history ed))%nat;
  ei_csi : forall s, escape ed = Csi s -> (length s <= CSI_CAP)%nat }.

Section Facts.
Context (LINE HISTORY : nat).
Local Notation inv := (editor_inv LINE HISTORY).
Local Open Scope nat_scope.

Lemma inv_text l c ed : inv ed -> c <= length l <= LINE -> inv (with_text l c ed).
Proof. intros [] H. now split. Qed.
Lemma inv_cursor c ed : inv ed -> c <= length (line ed) -> inv (with_cursor c ed).
Proof. intros Hi H. apply inv_text; [exact Hi|]. destruct Hi. lia. Qed.
Lemma inv_cr b ed : inv ed -> inv (with_cr b ed).
Proof. intros []. now split. Qed.
Lemma inv_index i ed : inv ed -> i < length (history ed) -> inv (with_index (Some i) ed).
Proof. intros [] Hi. split; try assumption. cbn. now intros ? [= <-]. Qed.
Lemma inv_no_index ed : inv ed -> inv (with_index None ed).
Proof. intros []. split; try assumption. discriminate. Qed.
Lemma inv_escape e ed : inv ed -> (forall s, e = Csi s -> length s <= CSI_CAP) ->
  inv (with_escape e ed).
Proof. intros [] He. now split. Qed.

Lemma inv_new : inv editor_new.
Proof. split; cbn; try lia; try constructor; discriminate. Qed.

Lemma inv_clear ed : inv ed -> inv (clear ed).
Proof. intros Hi. apply inv_no_index, inv_text; [exact Hi|cbn; lia]. Qed.

(** *** What each operation does to the line *)

Lemma insert_spec b ed : inv ed -> insert LINE b ed = Some
  (if (length (line ed) <? LINE) then
     (with_text (take (cursor ed) (line ed) ++ b :: drop (cursor ed) (line ed)) (S (cursor ed)) ed, true)
   else (ed, false)).
Proof.
  intros [[Hc Hl] _ _ _ _ _]. unfold insert.
  destruct (Nat.ltb_spec (length (line ed)) LINE) as [Hlt|Hge].
  2:{ now rewrite (proj2 (Nat.eqb_eq _ _)) by lia. }
  rewrite (proj2 (Nat.eqb_neq _ _)) by lia.
  destruct (Nat.eqb_spec (cursor ed) (length (line ed))) as [He|Hne].
  - rewrite take_ge, drop_ge by lia. reflexivity.
  - destruct (shift_spec (line ed) (cursor ed) b 0%Z Hc) as (l' & -> & Hlen & Hins).
    cbn [mbind option_bind]. rewrite Hlen, (proj2 (Nat.ltb_lt _ _)), Hins by lia. reflexivity.
Qed.

Lemma prev_scan_total l i : i < length l -> exists j, prev_scan l i = Some j /\ j <= i.
Proof.
  induction i as [|i IH]; intros H; cbn [prev_scan]; [now exists 0|].
  destruct (lookup_lt_is_Some_2 l (S i) H) as [b ->]. cbn [mbind option_bind].
  destruct (is_continuation b); [|now exists (S i)].
  destruct IH as (j & -> & Hj); [lia|]. exists j. split; [reflexivity|lia].
Qed.

Lemma prev_boundary_total ed i : i <= length (line ed) ->
  exists j, prev_boundary ed i = Some j /\ j <= i /\ (i <> 0 -> j < i).
Proof.
  intros H. destruct i as [|i]; cbn [prev_boundary]; [exists 0; split_and!; auto; lia|].
  destruct (prev_scan_total (line ed) i ltac:(lia)) as (j & -> & Hj).
  exists j. split_and!; auto; lia.
Qed.

Lemma next_scan_total fuel l : forall i, i <= length l -> length l - i <= fuel ->
  exists j, next_scan fuel l i = Some j /\ i <= j <= length l.
Proof.
  induction fuel as [|fuel IH]; intros i Hi Hf; cbn [next_scan];
    (destruct (Nat.ltb_spec i (length l)) as [Hlt|Hge]; [|exists i; split; [reflexivity|lia]]); [lia|].
  destruct (lookup_lt_is_Some_2 l i Hlt) as [b ->]. cbn [mbind option_bind].
  destruct (is_continuation b); [|exists i; split; [reflexivity|lia]].
  destruct (IH (S i) ltac:(lia) ltac:(lia)) as (j & -> & Hj). exists j. split; [reflexivity|lia].
Qed.

Lemma next_boundary_total ed i : i <= length (line ed) ->
  exists j, next_boundary ed i = Some j /\ i <= j <= length (line ed).
Proof.
  intros H. unfold next_boundary. destruct (Nat.leb_spec (length (line ed)) i).
  - exists (length (line ed)). split; [reflexivity|lia].
  - destruct (next_scan_total (length (line ed)) (line ed) (S i)) as (j & -> & Hj); [lia..|].
    exists j. split; [reflexivity|lia].
Qed.

Lemma backspace_spec ed start : inv ed -> cursor ed <> 0 ->
  prev_boundary ed (cursor ed) = Some start -> start <= cursor ed ->
  backspace ed = Some (with_text (take start (line ed) ++ drop (cursor ed) (line ed)) start ed, true).
Proof.
  intros [[Hc Hl] _ _ _ _ _] Hne Hp Hs. unfold backspace.
  rewrite (proj2 (Nat.eqb_neq _ _) Hne), Hp. cbn [mbind option_bind].
  destruct (cut_spec (line ed) start (cursor ed)) as (l' & -> & Hcut); [lia|].
  cbn [mbind option_bind]. now rewrite Hcut.
Qed.

Lemma delete_spec ed stop : inv ed -> cursor ed < length (line ed) ->
  next_boundary ed (cursor ed) = Some stop -> cursor ed <= stop <= length (line ed) ->
  delete ed = Some (with_text (take (cursor ed) (line ed) ++ drop stop (line ed)) (cursor ed) ed, true).
Proof.
  intros [[Hc Hl] _ _ _ _ _] Hlt Hn Hs. unfold delete.
  rewrite (proj2 (Nat.leb_gt _ _) Hlt), Hn. cbn [mbind option_bind].
  destruct (cut_spec (line ed) (cursor ed) stop) as (l' & -> & Hcut); [lia|].
  cbn [mbind option_bind]. now rewrite Hcut.
Qed.

Lemma insert_all_spec bytes : forall ed, inv ed -> length (line ed) + length bytes <= LINE ->
  insert_all LINE bytes ed = Some (with_text (take (cursor ed) (line ed) ++ bytes ++ drop (cursor ed) (line ed))
    (cursor ed + length bytes) ed, true).
Proof.
  induction bytes as [|b bytes IH]; intros ed Hi Hl; cbn [insert_all length app] in *.
  - rewrite take_drop, Nat.add_0_r. now destruct ed.
  - pose proof (ei_cursor _ _ _ Hi) as Hc. rewrite (insert_spec b ed Hi), (proj2 (Nat.ltb_lt _ _)) by lia.
    cbn [mbind option_bind]. set (ed1 := with_text _ _ ed).
    assert (Hcur : cursor ed1 = S (cursor ed)) by reflexivity.
    assert (Hline : line ed1 = (take (cursor ed) (line ed) ++ [b]) ++ drop (cursor ed) (line ed))
      by (cbn; now rewrite <- app_assoc).
    assert (Hlen : length (take (cursor ed) (line ed) ++ [b]) = S (cursor ed))
      by (rewrite length_app, length_take; cbn; lia).
    assert (Hlen1 : length (line ed1) = S (length (line ed)))
      by (rewrite Hline, length_app, Hlen, length_drop; lia).
    rewrite IH; [|apply inv_text; [exact Hi|]; change (_ ++ b :: _) with (line ed1); lia|lia].
    rewrite Hcur, Hline, take_app_length', drop_app_length' by (now rewrite Hlen).
    rewrite <- app_assoc. cbn [app]. rewrite Nat.add_succ_r. reflexivity.
Qed.

(** What [replace_range] writes. *)
Definition written (prefix value : list Z) (quote trailing_space : bool) : list Z :=
  str_bytes prefix ++ (if quote then [34%Z] else []) ++ str_bytes value ++ (if quote then [34%Z] else [])
    ++ (if trailing_space then [32%Z] else []).

Lemma replace_range_spec start prefix value quote trailing_space ed : inv ed -> start <= cursor ed ->
  let w := written prefix value quote trailing_space in
  start + length w + (length (line ed) - cursor ed) <= LINE ->
  replace_range LINE start prefix value quote trailing_space ed =
    Some (with_text (take start (line ed) ++ w ++ drop (cursor ed) (line ed)) (start + length w) ed, true).
Proof.
  intros Hi Hs w Hroom. pose proof (ei_cursor _ _ _ Hi) as Hc. unfold replace_range.
  rewrite Nat.min_l by exact Hs. destruct (cut_spec (line ed) start (cursor ed)) as (l' & -> & Hcut); [lia|].
  cbn [mbind option_bind]. rewrite Hcut. fold (written prefix value quote trailing_space). fold w.
  assert (Hlen : length (take start (line ed)) = start) by (rewrite length_take; lia).
  rewrite insert_all_spec.
  - cbn [line cursor with_text]. now rewrite take_app_length', drop_app_length' by (now rewrite Hlen).
  - apply inv_text; [exact Hi|]. rewrite length_app, Hlen, length_drop. lia.
  - cbn [line with_text]. rewrite length_app, Hlen, length_drop. lia.
Qed.

(** *** Every operation keeps the invariant *)

Lemma insert_keeps b ed : inv ed -> exists ed' ok, insert LINE b ed = Some (ed', ok) /\ inv ed'.
Proof.
  intros Hi. rewrite insert_spec by exact Hi. pose proof (ei_cursor _ _ _ Hi) as Hc.
  destruct (Nat.ltb_spec (length (line ed)) LINE); eexists _, _; (split; [reflexivity|]); [|exact Hi].
  apply inv_text; [exact Hi|]. rewrite length_app. cbn [length].
  rewrite length_take, length_drop. lia.
Qed.

Lemma backspace_inv ed : inv ed ->
  exists ed' ok, backspace ed = Some (ed', ok) /\ inv ed' /\ (cursor ed <> 0 -> cursor ed' < cursor ed).
Proof.
  intros Hi. pose proof (ei_cursor _ _ _ Hi) as Hc. destruct (Nat.eq_dec (cursor ed) 0) as [He|Hne].
  { exists ed, false. unfold backspace. rewrite (proj2 (Nat.eqb_eq _ _) He). split_and!; auto. lia. }
  destruct (prev_boundary_total ed (cursor ed)) as (j & Hj & Hle & Hlt); [lia|].
  rewrite (backspace_spec ed j) by (auto; lia). eexists _, _. split; [reflexivity|].
  split; [|intros _; cbn; lia]. apply inv_text; [exact Hi|].
  rewrite length_app, length_take, length_drop. lia.
Qed.

Lemma delete_inv ed : inv ed -> exists ed' ok, delete ed = Some (ed', ok) /\ inv ed'.
Proof.
  intros Hi. pose proof (ei_cursor _ _ _ Hi) as Hc.
  destruct (Nat.ltb_spec (cursor ed) (length (line ed))) as [Hlt|Hge].
  2:{ exists ed, false. unfold delete. now rewrite (proj2 (Nat.leb_le _ _) Hge). }
  destruct (next_boundary_total ed (cursor ed)) as (j & Hj & Hle); [lia|].
  rewrite (delete_spec ed j) by auto. eexists _, _. split; [reflexivity|].
  apply inv_text; [exact Hi|]. rewrite length_app, length_take, length_drop. lia.
Qed.

Lemma load_history_inv i ed : inv ed -> inv (load_history LINE i ed).
Proof.
  intros Hi. unfold load_history. destruct (history ed !! i) as [e|]; [|exact Hi].
  apply inv_text; [exact Hi|]. destruct (Nat.leb_spec (length (str_bytes e)) LINE); cbn; lia.
Qed.

Lemma history_up_inv ed : inv ed -> inv (fst (history_up LINE ed)).
Proof.
  intros Hi. unfold history_up. destruct (bool_decide_reflect (history ed = [])) as [|Hne]; [exact Hi|].
  apply load_history_inv, inv_index; [exact Hi|].
  destruct (history ed) as [|x h] eqn:Eh; [done|]. cbn [length].
  destruct (history_index ed) as [[|i]|] eqn:Ei; [lia| |lia].
  pose proof (ei_index _ _ _ Hi _ Ei) as Hlt. rewrite Eh in Hlt. cbn in Hlt. lia.
Qed.

Lemma history_down_inv ed : inv ed -> inv (fst (history_down LINE ed)).
Proof.
  intros Hi. unfold history_down. destruct (history_index ed) as [i|] eqn:Ei; [|exact Hi].
  destruct (Nat.leb_spec (length (history ed)) (i + 1)).
  - apply inv_no_index, inv_text; [exact Hi|cbn; lia].
  - now apply load_history_inv, inv_index.
Qed.

Lemma distinct_tail h : distinct_neighbours h -> distinct_neighbours (tail h).
Proof. destruct h as [|a [|b h]]; cbn; tauto. Qed.

Lemma distinct_snoc h t : distinct_neighbours h -> last h <> Some t -> distinct_neighbours (h ++ [t]).
Proof.
  induction h as [|a [|b h] IH]; [done|cbn; intros _ Hl; split; [congruence|done]|].
  intros [Hab Hd] Hl. split; [exact Hab|]. apply IH; [exact Hd|exact Hl].
Qed.

Lemma remember_inv ed : inv ed -> inv (remember LINE HISTORY ed).
Proof.
  intros Hi. pose proof Hi as [Hc Hh He Hd Hx Hs]. unfold remember.
  destruct (from_utf8 (line ed)) as [text|] eqn:Eu; [|exact Hi].
  destruct (bool_decide_reflect (trim text = [])) as [|Hblank]; [exact Hi|].
  destruct (bool_decide_reflect (last (history ed) = Some text)) as [|Hlast]; [exact Hi|].
  apply from_utf8_Some in Eu as [Hb Hf]. rewrite Hb.
  destruct (Nat.ltb_spec LINE (length (line ed))); [exact Hi|].
  set (h := if _ =? HISTORY then _ else _).
  assert (Hh' : length h <= length (history ed) /\ Forall (entry_ok LINE) h /\ distinct_neighbours h
    /\ (last h = Some text -> last (history ed) = Some text)
    /\ (length (history ed) <= length h + 1) /\ (length h < HISTORY -> length (history ed) <= length (h ++ [text]))).
  { subst h. rewrite length_app. destruct (Nat.eqb_spec (length (history ed)) HISTORY) as [E|E].
    - destruct (history ed) as [|x h]; cbn [tail length]; [split_and!; auto; cbn; lia|].
      split_and!; [lia|now inversion He|now apply (distinct_tail (x :: h))| |lia|cbn; lia].
      destruct h; [discriminate|auto].
    - split_and!; auto; cbn; lia. }
  destruct Hh' as (H1 & H2 & H3 & H4 & H5 & H6).
  destruct (Nat.ltb_spec (length h) HISTORY) as [Hlt|Hge]; split; cbn; try assumption.
  - rewrite length_app. cbn. lia.
  - apply Forall_app. split; [exact H2|]. constructor; [|constructor].
    split_and!; [exact Hf|rewrite Hb; lia|exact Hblank].
  - apply distinct_snoc; auto.
  - intros i Hi'. specialize (Hx i Hi'). specialize (H6 Hlt). lia.
  - lia.
  - intros i Hi'. specialize (Hx i Hi'). subst h.
    destruct (Nat.eqb_spec (length (history ed)) HISTORY) as [E|E]; [|exact Hx].
    destruct (history ed); cbn in *; lia.
Qed.

Lemma erase_while_inv p fuel : forall changed ed, inv ed -> cursor ed <= fuel ->
  exists ed' c, erase_while p fuel changed ed = Some (ed', c) /\ inv ed' /\ cursor ed' <= cursor ed.
Proof.
  induction fuel as [|fuel IH]; intros changed ed Hi Hf; cbn [erase_while];
    (destruct (Nat.ltb_spec 0 (cursor ed)) as [Hlt|Hge]; [|exists ed, changed; auto]); [lia|].
  destruct (lookup_lt_is_Some_2 (line ed) (cursor ed - 1)) as [b ->].
  { pose proof (ei_cursor _ _ _ Hi). lia. }
  cbn [mbind option_bind]. destruct (p b); [|exists ed, changed; auto].
  destruct (backspace_inv ed Hi) as (ed' & ok & -> & Hi' & Hdec). cbn [mbind option_bind fst snd].
  destruct (IH (changed || ok)%bool ed' Hi') as (e2 & c2 & -> & Hi2 & H2); [lia|].
  exists e2, c2. split_and!; auto. lia.
Qed.

Lemma kill_word_inv ed : inv ed -> exists ed' c, kill_word ed = Some (ed', c) /\ inv ed'.
Proof.
  intros Hi. unfold kill_word.
  destruct (erase_while_inv is_ascii_whitespace (cursor ed) false ed Hi (le_n _)) as (e1 & c1 & -> & H1 & _).
  cbn [mbind option_bind fst snd].
  destruct (erase_while_inv (fun b => negb (is_ascii_whitespace b)) (cursor e1) c1 e1 H1 (le_n _))
    as (e2 & c2 & -> & H2 & _). eauto.
Qed.

Definition steps (o : option (Editor * EditorEvent)) : Prop :=
  exists ed ev, o = Some (ed, ev) /\ inv ed.

Lemma steps_now ed ev : inv ed -> steps (Some (ed, ev)).
Proof. intros H. now exists ed, ev. Qed.

Lemma finish_csi_inv s ed : inv ed -> steps (finish_csi LINE s ed).
Proof.
  intros Hi. pose proof (ei_cursor _ _ _ Hi) as Hc.
  destruct (prev_boundary_total ed (cursor ed)) as (i & Hprev & Hpi & _); [lia|].
  destruct (next_boundary_total ed (cursor ed)) as (j & Hnext & Hnj); [lia|].
  destruct (delete_inv ed Hi) as (ed' & ok & Hdel & Hi').
  assert (Hsteps : forall c, c <= length (line ed) -> steps (Some (with_cursor c ed, Redraw)))
    by (intros c H; apply steps_now, inv_cursor; assumption).
  pose proof (history_up_inv ed Hi) as Hup. pose proof (history_down_inv ed Hi) as Hdown.
  unfold finish_csi. rewrite Hprev, Hnext, Hdel. cbn [mbind option_bind].
  repeat (first [apply steps_now; assumption | apply Hsteps; lia | case_match]).
Qed.

Lemma feed_plain_inv byte ed : inv ed -> escape ed = Normal -> steps (feed_plain LINE byte ed).
Proof.
  intros Hi He. pose proof (ei_cursor _ _ _ Hi) as Hc. unfold feed_plain.
  destruct (_ && _)%bool; [now apply steps_now, inv_cr|].
  assert (Hi' : inv (with_cr false ed)) by now apply inv_cr.
  set (ed1 := with_cr false ed) in *. change (cursor ed) with (cursor ed1) in Hc.
  change (line ed) with (line ed1) in Hc. clearbody ed1. clear Hi He ed.
  destruct (byte =? 13)%Z; [now apply steps_now, inv_cr|].
  destruct (byte =? 10)%Z; [now apply steps_now|].
  destruct (byte =? 9)%Z; [now apply steps_now|].
  destruct (byte =? 27)%Z; [apply steps_now, inv_escape; [assumption|discriminate]|].
  destruct (byte =? 3)%Z; [now apply steps_now|].
  destruct (byte =? 12)%Z; [now apply steps_now|].
  destruct (byte =? 1)%Z; [apply steps_now, inv_cursor; [assumption|lia]|].
  destruct (byte =? 5)%Z; [apply steps_now, inv_cursor; [assumption|lia]|].
  destruct (byte =? 21)%Z.
  { destruct (Nat.eqb_spec (cursor ed1) 0); [now apply steps_now|].
    destruct (cut_spec (line ed1) 0 (cursor ed1)) as (l' & -> & Hcut); [lia|].
    cbn [mbind option_bind]. rewrite Nat.sub_0_r in Hcut. rewrite Hcut. apply steps_now, inv_text; [assumption|].
    split; [lia|]. rewrite length_app, length_take, length_drop. lia. }
  destruct (byte =? 11)%Z.
  { apply steps_now, inv_text; [assumption|]. rewrite length_take. lia. }
  destruct (byte =? 23)%Z.
  { destruct (kill_word_inv ed1 Hi') as (e2 & c & -> & H2). cbn. now apply steps_now. }
  destruct ((byte =? 8)%Z || (byte =? 127)%Z)%bool.
  { destruct (backspace_inv ed1 Hi') as (e2 & ok & -> & H2 & _).
    destruct (_ && (0 <? cursor ed1))%bool eqn:E.
    - apply andb_true_iff in E as [_ E%Nat.ltb_lt].
      destruct (lookup_lt_is_Some_2 (line ed1) (cursor ed1 - 1) ltac:(lia)) as [b ->].
      cbn. now apply steps_now.
    - cbn. now apply steps_now. }
  destruct (32 <=? byte)%Z; [|now apply steps_now].
  destruct (insert_keeps byte ed1 Hi') as (e2 & ok & -> & H2). cbn. now apply steps_now.
Qed.

Lemma feed_inv byte ed : inv ed -> steps (feed LINE byte ed).
Proof.
  intros Hi. unfold feed.
  assert (Hn : inv (with_escape Normal ed)) by (apply inv_escape; [exact Hi|discriminate]).
  destruct (escape ed) as [| |s] eqn:Es; [now apply feed_plain_inv| |].
  - destruct ((byte =? 91)%Z || (byte =? 79)%Z)%bool; [|now apply feed_plain_inv].
    apply steps_now, inv_escape; [exact Hn|]. intros s [= <-]. cbn. lia.
  - destruct (is_ascii_alphabetic byte || (byte =? 126)%Z)%bool; [now apply finish_csi_inv|].
    apply steps_now, inv_escape; [exact Hn|]. intros s' [= <-].
    pose proof (ei_csi _ _ _ Hi s Es). destruct (Nat.ltb_spec (length s) CSI_CAP); [|lia].
    rewrite length_app. cbn. lia.
Qed.

Lemma feed_all_inv bytes : forall ed, inv ed ->
  exists ed' evs, feed_all LINE bytes ed = Some (ed', evs) /\ inv ed'.
Proof.
  induction bytes as [|b bytes IH]; intros ed Hi; [exists ed, []; auto|].
  cbn [feed_all]. destruct (feed_inv b ed Hi) as (e1 & ev & -> & H1). cbn [mbind option_bind fst snd].
  destruct (IH e1 H1) as (e2 & evs & -> & H2). cbn. eauto.
Qed.

(** in every state that respects the capacities the editor processes any
    byte without a panic, and leaves such a state: the cursor within the line,
    the line within its capacity, the history bounded, every entry a text that
    fits, no two neighbours equal, and the recall position inside it. *)
Theorem feed_keeps_editor byte ed : editor_inv LINE HISTORY ed ->
  exists ed' ev, feed LINE byte ed = Some (ed', ev) /\ editor_inv LINE HISTORY ed'.
Proof.
  intros Hi. exact (feed_inv byte ed Hi).
Qed.
End Facts.

Lemma feed_keeps_editor_witness :
  exists ed' ev, feed 8 27 editor_new = Some (ed', ev) /\ editor_inv 8 2 ed'.
Proof. exact (feed_keeps_editor 8 2 27 editor_new (inv_new 8 2)). Defined.
