(* ===== verification/CliText.v ===== *)
(** What the line editor is for: editing text. The specification is a zipper of
    characters ([Text]) with one operation per keystroke ([press]); the byte
    editor of CliEditor.v, fed the bytes a terminal sends for the keystroke,
    implements it and asks for exactly the redraws it needs
    ([editor_refines_text]). No operation splits a character; a character that
    does not fit is cut to the room left. *)

From Stdlib Require Import ZArith Lia.
From stdpp Require Import base list option.
From S2P Require Import Prelude Utf8 CliEditor.
Open Scope Z_scope.

(** ** The specification *)

(** The bytes of one character: one that starts it, then continuations. *)
Definition is_cell (c : list Z) : Prop :=
  match c with
  | b :: rest => is_continuation b = false /\ Forall (fun b => is_u8 b /\ is_continuation b = true) rest
  | [] => False
  end.

(** Whether a character is a blank: blanks are single bytes. *)
Definition cell_blank (c : list Z) : bool :=
  match c with [b] => is_ascii_whitespace b | _ => false end.
Definition cell_ascii (c : list Z) : bool :=
  match c with [b] => b <? 128 | _ => false end.

(** The characters before the cursor, nearest first, and those after it. *)
Record Text := mkText {
  before : list (list Z);
  after : list (list Z);
  t_history : list (list Z);
  t_index : option nat;
  t_cr : bool }.

Definition text_bytes (t : Text) : list Z := concat (reverse (before t) ++ after t).

Inductive Key :=
| KChar (c : list Z) | KLeft | KRight | KUp | KDown | KHome | KEnd | KDelete | KBackspace
| KKillHead | KKillTail | KKillWord | KEnter | KReturn | KTab | KInterrupt | KClearScreen.

(** The bytes a terminal sends: arrows and Home, End as CSI or SS3 sequences. *)
Inductive sends : bool -> Key -> list Z -> Prop :=
| s_char cr b rest : is_cell (b :: rest) -> 32 <= b -> b <> 127 ->
    Forall (fun b => 32 <= b /\ b <> 127) rest -> sends cr (KChar (b :: rest)) (b :: rest)
| s_arrow cr intro k b : (intro = 91 \/ intro = 79) ->
    (k, b) ∈ [(KUp, 65); (KDown, 66); (KRight, 67); (KLeft, 68); (KHome, 72); (KEnd, 70)] ->
    sends cr k [27; intro; b]
| s_tilde cr intro k b : (intro = 91 \/ intro = 79) ->
    (k, b) ∈ [(KHome, 49); (KDelete, 51); (KEnd, 52)] -> sends cr k [27; intro; b; 126]
| s_control cr k b :
    (k, b) ∈ [(KHome, 1); (KEnd, 5); (KBackspace, 8); (KBackspace, 127); (KKillHead, 21);
              (KKillTail, 11); (KKillWord, 23); (KTab, 9); (KInterrupt, 3); (KClearScreen, 12);
              (KReturn, 13)] -> sends cr k [b]
| s_enter k : k = KEnter -> sends false k [10]
| s_crlf cr b : (b = 10 \/ b = 0) -> sends cr KEnter [13; b].

Section Spec.
Context (LINE : nat).

Definition at_text (b a : list (list Z)) (t : Text) : Text :=
  mkText b a (t_history t) (t_index t) false.
Definition recall (i : nat) (t : Text) : Text :=
  match t_history t !! i with
  | None => mkText (before t) (after t) (t_history t) (Some i) false
  | Some entry => mkText (reverse (char_utf8 <$> entry)) [] (t_history t) (Some i) false
  end.

Fixpoint drop_cells (p : list Z -> bool) (l : list (list Z)) : list (list Z) :=
  match l with c :: l' => if p c then drop_cells p l' else l | [] => [] end.

Definition room (t : Text) : nat := LINE - length (text_bytes t).

(** The state after a keystroke. *)
Definition press (k : Key) (t : Text) : Text :=
  match k with
  | KChar c => at_text (match take (room t) c with [] => before t | c' => c' :: before t end) (after t) t
  | KLeft => match before t with
             | c :: b => at_text b (c :: after t) t
             | [] => at_text [] (after t) t end
  | KRight => match after t with
              | c :: a => at_text (c :: before t) a t
              | [] => at_text (before t) [] t end
  | KUp => match t_history t with
           | [] => at_text (before t) (after t) t
           | _ => recall (match t_index t with
                          | None => length (t_history t) - 1 | Some i => Nat.pred i end) t
           end
  | KDown => match t_index t with
             | None => at_text (before t) (after t) t
             | Some i => if (length (t_history t) <=? i + 1)%nat
                         then mkText [] [] (t_history t) None false
                         else recall (i + 1) t
             end
  | KHome => at_text [] (reverse (before t) ++ after t) t
  | KEnd => at_text (reverse (after t) ++ before t) [] t
  | KDelete => at_text (before t) (tail (after t)) t
  | KBackspace => at_text (tail (before t)) (after t) t
  | KKillHead => at_text [] (after t) t
  | KKillTail => at_text (before t) [] t
  | KKillWord => at_text (drop_cells (fun c => negb (cell_blank c)) (drop_cells cell_blank (before t))) (after t) t
  | KEnter | KTab | KInterrupt | KClearScreen => at_text (before t) (after t) t
  | KReturn => mkText (before t) (after t) (t_history t) (t_index t) true
  end.

(** What the session is told, apart from "nothing". *)
Definition told (k : Key) (t : Text) : list EditorEvent :=
  match k with
  | KChar c => (if bool_decide (after t = []) then Echo else fun _ => Redraw) <$> take (room t) c
  | KUp => if bool_decide (t_history t = []) then [] else [Redraw]
  | KDown => match t_index t with None => [] | Some _ => [Redraw] end
  | KLeft | KRight | KHome | KEnd | KKillTail => [Redraw]
  | KDelete => if bool_decide (after t = []) then [] else [Redraw]
  | KBackspace => match before t with
                  | [] => []
                  | c :: _ => if bool_decide (after t = []) && cell_ascii c then [EvBackspace] else [Redraw]
                  end
  | KKillHead | KKillWord => if bool_decide (before t = []) then [] else [Redraw]
  | KEnter | KReturn => [Submit]
  | KTab => [Complete]
  | KInterrupt => [Interrupt]
  | KClearScreen => [ClearScreen]
  end.

(** The editor shows the text. *)
Record displays (t : Text) (ed : Editor) : Prop := {
  sh_line : line ed = text_bytes t;
  sh_cursor : cursor ed = length (concat (reverse (before t)));
  sh_cells : Forall is_cell (before t) /\ Forall is_cell (after t);
  sh_normal : escape ed = Normal;
  sh_history : history ed = t_history t;
  sh_index : history_index ed = t_index t;
  sh_cr : last_was_cr ed = t_cr t }.
End Spec.

(** ** Boundaries are where the characters end *)

Lemma concat_rev_cons (c : list Z) b : concat (reverse (c :: b)) = concat (reverse b) ++ c.
Proof. rewrite reverse_cons, concat_app. cbn. now rewrite app_nil_r. Qed.

Lemma cell_nonempty c : is_cell c -> (0 < length c)%nat.
Proof. destruct c; cbn; [done|lia]. Qed.

Lemma cell_tail c k b : is_cell c -> c !! S k = Some b -> is_continuation b = true.
Proof. destruct c as [|x c]; [done|]. intros [_ Hf] Hb. exact (proj2 (Forall_lookup_1 _ _ _ _ Hf Hb)). Qed.

Lemma prev_scan_cell pre c rest : is_cell c -> forall k, (k < length c)%nat ->
  prev_scan (pre ++ c ++ rest) (length pre + k) = Some (length pre).
Proof.
  intros Hc. induction k as [|k IH]; intros Hk.
  - rewrite Nat.add_0_r. destruct (length pre) as [|n] eqn:En; [reflexivity|].
    cbn [prev_scan]. rewrite <- En, lookup_app_r, Nat.sub_diag by lia.
    destruct c as [|x c]; [done|]. destruct Hc as [Hx _]. cbn. now rewrite Hx.
  - rewrite Nat.add_succ_r. cbn [prev_scan].
    rewrite lookup_app_r by lia. replace (S (length pre + k) - length pre)%nat with (S k) by lia.
    rewrite lookup_app_l by exact Hk.
    destruct (lookup_lt_is_Some_2 c (S k) Hk) as [b Hb]. rewrite Hb. cbn [mbind option_bind].
    rewrite (cell_tail c k b Hc Hb). apply IH. lia.
Qed.

Definition starts_cell (rest : list Z) : Prop :=
  match rest with [] => True | b :: _ => is_continuation b = false end.

Lemma starts_concat cs : Forall is_cell cs -> starts_cell (concat cs).
Proof. intros [|c cs' Hc _]; [exact I|]. destruct c; [done|]. apply Hc. Qed.

Lemma next_scan_cell pre c rest : is_cell c -> starts_cell rest -> forall fuel k,
  (1 <= k <= length c)%nat -> (length c - k <= fuel)%nat ->
  next_scan fuel (pre ++ c ++ rest) (length pre + k) = Some (length pre + length c)%nat.
Proof.
  intros Hc Hr. induction fuel as [|fuel IH]; intros k Hk Hf; cbn [next_scan].
  - assert (k = length c) as -> by lia. destruct (Nat.ltb_spec (length pre + length c) (length (pre ++ c ++ rest))); [|reflexivity].
    rewrite !lookup_app_r by lia. replace (_ - _ - _)%nat with 0%nat by lia.
    rewrite !length_app in *. destruct rest as [|b rest]; [cbn in *; lia|]. cbn. cbn in Hr. now rewrite Hr.
  - destruct (Nat.ltb_spec (length pre + k) (length (pre ++ c ++ rest))) as [Hlt|Hge].
    2:{ f_equal. rewrite !length_app in Hge. lia. }
    rewrite lookup_app_r by lia. replace (length pre + k - length pre)%nat with k by lia.
    destruct (decide (k = length c)) as [->|Hne].
    + rewrite lookup_app_r, Nat.sub_diag by lia. rewrite !length_app in Hlt.
      destruct rest as [|b rest]; [cbn in *; lia|]. cbn. cbn in Hr. now rewrite Hr.
    + rewrite lookup_app_l by lia. destruct k as [|k]; [lia|].
      destruct (lookup_lt_is_Some_2 c (S k)) as [b Hb]; [lia|]. rewrite Hb. cbn [mbind option_bind].
      rewrite (cell_tail c k b Hc Hb). rewrite <- Nat.add_succ_r. apply IH; lia.
Qed.

(** Encoded characters are cells. *)
Lemma char_cell c : is_char c = true -> is_cell (char_utf8 c).
Proof.
  intros Hc. destruct (char_utf8_shape c Hc) as (b0 & rest & -> & Hu & Hs & Hr & _).
  split; [now rewrite is_continuation_spec|].
  eapply Forall_impl; [exact Hr|]. intros b Hb. cbn in Hb. pose proof Hb as Hr'%is_cont_spec.
  assert (is_u8 b) by (unfold is_u8, u8_max; lia). split; [assumption|].
  now rewrite is_continuation_spec.
Qed.

(** ** One operation *)

Definition audible (evs : list EditorEvent) : list EditorEvent :=
  omap (fun e => match e with EvNone => None | e => Some e end) evs.

Section Refinement.
Context (LINE HISTORY : nat).
Local Notation inv := (editor_inv LINE HISTORY).
Local Open Scope nat_scope.

(** The text after the carriage return of an earlier line is forgotten. *)
Definition calm (t : Text) : Text := at_text (before t) (after t) t.

Lemma displays_calm t ed : displays t ed -> displays (calm t) (with_cr false ed).
Proof. intros []. now split. Qed.

Lemma displays_same t ed : displays t ed -> last_was_cr ed = false -> displays (calm t) ed.
Proof. intros [] Hcr. now split. Qed.

Lemma displays_split t ed : displays t ed ->
  take (cursor ed) (line ed) = concat (reverse (before t))
  /\ drop (cursor ed) (line ed) = concat (after t)
  /\ line ed = concat (reverse (before t)) ++ concat (after t).
Proof.
  intros [Hl Hc _ _ _ _ _]. unfold text_bytes in Hl. rewrite concat_app in Hl.
  rewrite Hl, Hc, take_app_length, drop_app_length. auto.
Qed.

Lemma displays_text t ed b a l c :
  displays t ed -> last_was_cr ed = false -> l = concat (reverse b) ++ concat a ->
  c = length (concat (reverse b)) -> Forall is_cell b -> Forall is_cell a ->
  displays (at_text b a t) (with_text l c ed).
Proof.
  intros [] Hcr -> -> Hb Ha. split; cbn; auto. unfold text_bytes. cbn. now rewrite concat_app.
Qed.

Lemma at_end t ed : displays t ed ->
  (cursor ed =? length (line ed)) = bool_decide (after t = []).
Proof.
  intros Hd. destruct (displays_split t ed Hd) as (_ & _ & Hl).
  pose proof (sh_cursor _ _ Hd) as Hc. destruct (sh_cells _ _ Hd) as [_ Ha].
  destruct (bool_decide_reflect (after t = [])) as [Ea|Ea].
  - apply Nat.eqb_eq. rewrite Hc, Hl, Ea. cbn. now rewrite app_nil_r.
  - apply Nat.eqb_neq. rewrite Hc, Hl, length_app. destruct (after t) as [|y a]; [done|].
    inversion Ha as [|? ? Hy _]; subst. pose proof (cell_nonempty y Hy).
    cbn [concat]. rewrite length_app. lia.
Qed.

(** What an operation of the byte editor does for key [k]. *)
Definition does (k : Key) (t : Text) (r : Editor * EditorEvent) : Prop :=
  displays (press LINE k t) (fst r) /\ audible [snd r] = told LINE k t.

Lemma left_does t ed : inv ed -> displays t ed -> last_was_cr ed = false ->
  exists r, finish_csi LINE [68]%Z ed = Some r /\ does KLeft t r.
Proof.
  intros Hi Hd Hcr. destruct (displays_split t ed Hd) as (_ & _ & Hl).
  pose proof (sh_cursor _ _ Hd) as Hc. destruct (sh_cells _ _ Hd) as [Hb Ha].
  unfold finish_csi, does, press, told. destruct (before t) as [|c b] eqn:Eb.
  - cbn in Hc. rewrite Hc. cbn. eexists; split; [reflexivity|]. split; [|reflexivity].
    cbn [fst]. apply displays_text; cbn; auto.
  - rewrite concat_rev_cons in Hl, Hc. rewrite length_app in Hc.
    inversion Hb as [|? ? Hcell Hb']; subst. pose proof (cell_nonempty c Hcell) as Hpos.
    unfold prev_boundary. rewrite Hc. destruct (length (concat (reverse b)) + length c) as [|n] eqn:En; [lia|].
    replace n with (length (concat (reverse b)) + (length c - 1)) by lia.
    rewrite Hl, <- app_assoc, prev_scan_cell by (auto; lia).
    eexists; split; [reflexivity|]. split; [|reflexivity]. cbn [fst].
    unfold with_cursor. apply displays_text; auto.
    rewrite Hl, <- app_assoc. reflexivity.
Qed.

Lemma right_does t ed : inv ed -> displays t ed -> last_was_cr ed = false ->
  exists r, finish_csi LINE [67]%Z ed = Some r /\ does KRight t r.
Proof.
  intros Hi Hd Hcr. destruct (displays_split t ed Hd) as (_ & _ & Hl).
  pose proof (sh_cursor _ _ Hd) as Hc. destruct (sh_cells _ _ Hd) as [Hb Ha].
  unfold finish_csi, does, press, told, next_boundary.
  destruct (after t) as [|c a] eqn:Ea.
  - cbn in Hl. rewrite app_nil_r in Hl. rewrite Hl, Hc, Nat.leb_refl.
    eexists; split; [reflexivity|]. split; [|reflexivity].
    cbn [fst]. apply displays_text; cbn; auto. now rewrite Hl, app_nil_r.
  - cbn [concat] in Hl. inversion Ha as [|? ? Hcell Ha']; subst.
    pose proof (cell_nonempty c Hcell) as Hpos.
    rewrite (proj2 (Nat.leb_gt _ _)) by (rewrite Hl, Hc, !length_app; lia).
    rewrite Hl, Hc, <- Nat.add_1_r, (next_scan_cell _ c (concat a)); [| |now apply starts_concat|lia|].
    2:{ exact Hcell. } 2:{ rewrite !length_app. lia. }
    eexists; split; [reflexivity|]. split; [|reflexivity]. cbn [fst].
    apply displays_text; rewrite ?concat_rev_cons; auto.
    + rewrite Hl, <- app_assoc. reflexivity.
    + now rewrite length_app.
Qed.

Lemma home_does t ed : displays t ed -> last_was_cr ed = false ->
  does KHome t (with_cursor 0 ed, Redraw).
Proof.
  intros Hd Hcr. destruct (sh_cells _ _ Hd) as [Hb Ha]. split; [|reflexivity].
  cbn [fst press]. apply displays_text; auto.
  - rewrite concat_app. exact (proj2 (proj2 (displays_split t ed Hd))).
  - apply Forall_app. split; [now apply Forall_reverse|exact Ha].
Qed.

Lemma end_does t ed : displays t ed -> last_was_cr ed = false ->
  does KEnd t (with_cursor (length (line ed)) ed, Redraw).
Proof.
  intros Hd Hcr. destruct (sh_cells _ _ Hd) as [Hb Ha]. split; [|reflexivity].
  pose proof (proj2 (proj2 (displays_split t ed Hd))) as Hl.
  cbn [fst press]. apply displays_text; auto.
  - rewrite reverse_app, reverse_involutive, concat_app, app_nil_r. exact Hl.
  - now rewrite reverse_app, reverse_involutive, concat_app, Hl.
  - apply Forall_app. split; [now apply Forall_reverse|exact Hb].
Qed.

Lemma recall_displays t ed i : inv ed -> displays t ed -> last_was_cr ed = false ->
  displays (recall i t) (load_history LINE i (with_index (Some i) ed)).
Proof.
  intros Hi Hd Hcr. unfold recall, load_history. cbn [history with_index].
  rewrite (sh_history _ _ Hd). destruct (t_history t !! i) as [e|] eqn:Ee.
  - pose proof (ei_entries _ _ _ Hi) as He. rewrite (sh_history _ _ Hd) in He.
    destruct (Forall_lookup_1 _ _ _ _ He Ee) as (Hchars & Hlen & _).
    rewrite (proj2 (Nat.leb_le _ _) Hlen). destruct Hd.
    split; unfold text_bytes;
      cbn [line cursor escape history history_index last_was_cr with_text with_index
           before after t_history t_index t_cr];
      rewrite ?reverse_involutive, ?app_nil_r; auto.
    split; [|constructor]. apply Forall_reverse, Forall_fmap.
    eapply Forall_impl; [exact Hchars|]. exact char_cell.
  - destruct Hd. split; cbn; auto.
Qed.

Lemma up_does t ed : inv ed -> displays t ed -> last_was_cr ed = false ->
  exists r, finish_csi LINE [65]%Z ed = Some r /\ does KUp t r.
Proof.
  intros Hi Hd Hcr. cbn [finish_csi]. eexists; split; [reflexivity|].
  unfold does, history_up, press, told. rewrite (sh_history _ _ Hd), (sh_index _ _ Hd).
  destruct (t_history t) as [|x h] eqn:Eh.
  - cbn. split; [|reflexivity]. pose proof Hd as Hd'. destruct Hd'. split; cbn; congruence || auto.
  - rewrite bool_decide_false by discriminate. cbn [fst snd]. split; [|reflexivity].
    rewrite <- Eh.
    replace (match t_index t with None => length (t_history t) - 1 | Some 0 => 0 | Some (S index) => index end)
      with (match t_index t with None => length (t_history t) - 1 | Some i => Nat.pred i end)
      by (destruct (t_index t) as [[|]|]; reflexivity).
    now apply recall_displays.
Qed.

Lemma down_does t ed : inv ed -> displays t ed -> last_was_cr ed = false ->
  exists r, finish_csi LINE [66]%Z ed = Some r /\ does KDown t r.
Proof.
  intros Hi Hd Hcr. cbn [finish_csi]. eexists; split; [reflexivity|].
  unfold does, history_down, press, told. rewrite (sh_history _ _ Hd), (sh_index _ _ Hd).
  destruct (t_index t) as [i|] eqn:Ei.
  - destruct (length (t_history t) <=? i + 1); cbn [fst snd]; (split; [|reflexivity]).
    + destruct Hd. split; cbn; auto.
    + now apply recall_displays.
  - cbn. split; [|reflexivity]. destruct Hd. split; cbn; congruence || auto.
Qed.

Lemma delete_does t ed : inv ed -> displays t ed -> last_was_cr ed = false ->
  exists r, finish_csi LINE [51; 126]%Z ed = Some r /\ does KDelete t r.
Proof.
  intros Hi Hd Hcr. destruct (displays_split t ed Hd) as (Ht & Hdr & Hl).
  pose proof (sh_cursor _ _ Hd) as Hc. destruct (sh_cells _ _ Hd) as [Hb Ha].
  cbn [finish_csi]. unfold does, press, told.
  destruct (after t) as [|c a] eqn:Ea.
  - cbn in Hl. rewrite app_nil_r in Hl. unfold delete. rewrite Hl, Hc, Nat.leb_refl.
    eexists; split; [reflexivity|]. split; [|reflexivity].
    cbn [fst tail]. pose proof Hd as Hd'. destruct Hd'. split; cbn; try congruence || auto.
    unfold text_bytes. cbn. now rewrite app_nil_r.
  - cbn [concat] in Hl, Hdr. inversion Ha as [|? ? Hcell Ha']; subst.
    pose proof (cell_nonempty c Hcell) as Hpos.
    assert (Hlen : length (line ed) = cursor ed + length c + length (concat a))
      by (rewrite Hl, Hc, !length_app; lia).
    rewrite (delete_spec LINE HISTORY ed (cursor ed + length c)); [|exact Hi|lia| |lia].
    2:{ unfold next_boundary. rewrite (proj2 (Nat.leb_gt _ _)) by lia.
        rewrite Hl, Hc, <- Nat.add_1_r, (next_scan_cell _ c (concat a));
          [reflexivity|exact Hcell|now apply starts_concat|lia|rewrite !length_app; lia]. }
    eexists; split; [reflexivity|]. split; [|now rewrite bool_decide_false].
    cbn [fst tail]. apply displays_text; auto.
    now rewrite Ht, <- drop_drop, Hdr, drop_app_length.
Qed.

Lemma backspace_cell t ed c b : inv ed -> displays t ed -> last_was_cr ed = false ->
  before t = c :: b -> exists ed', backspace ed = Some (ed', true)
    /\ displays (at_text b (after t) t) ed' /\ last_was_cr ed' = false.
Proof.
  intros Hi Hd Hcr Eb. destruct (displays_split t ed Hd) as (Ht & Hdr & Hl).
  pose proof (sh_cursor _ _ Hd) as Hc. destruct (sh_cells _ _ Hd) as [Hb Ha].
  rewrite Eb in *. rewrite concat_rev_cons in Hl, Hc, Ht. rewrite length_app in Hc.
  inversion Hb as [|? ? Hcell Hb']; subst. pose proof (cell_nonempty c Hcell) as Hpos.
  rewrite (backspace_spec LINE HISTORY ed (length (concat (reverse b)))); [|exact Hi|lia| |lia].
  - eexists; split; [reflexivity|]. split; [|exact Hcr]. apply displays_text; auto.
    rewrite Hdr. f_equal. rewrite Hl, <- app_assoc. apply take_app_length.
  - unfold prev_boundary. destruct (cursor ed) as [|n] eqn:En; [lia|].
    replace n with (length (concat (reverse b)) + (length c - 1)) by lia.
    rewrite Hl, <- app_assoc, prev_scan_cell by (auto; lia). reflexivity.
Qed.

(** *** Erasing words *)

Lemma cell_last c : is_cell c -> exists b, last c = Some b
  /\ is_ascii_whitespace b = cell_blank c /\ (b <? 128)%Z = cell_ascii c.
Proof.
  destruct c as [|b [|b' r]]; [done|intros _; now exists b|]. intros [_ Hf].
  destruct (last (b' :: r)) as [z|] eqn:Ez; [|now apply last_None in Ez].
  assert (Hz : (is_u8 z /\ is_continuation z = true)).
  { rewrite last_lookup in Ez. exact (Forall_lookup_1 _ _ _ _ Hf Ez). }
  exists z. split; [exact Ez|]. cbn [cell_blank cell_ascii].
  destruct Hz as [Hu Hc]. rewrite is_continuation_spec in Hc by exact Hu.
  apply is_cont_spec in Hc. unfold is_ascii_whitespace.
  rewrite !(proj2 (Z.eqb_neq _ _)), (proj2 (Z.ltb_ge _ _)) by lia. auto.
Qed.

Lemma byte_before t ed c b : displays t ed -> before t = c :: b ->
  line ed !! (cursor ed - 1) = last c /\ 0 < cursor ed.
Proof.
  intros Hd Eb. destruct (displays_split t ed Hd) as (_ & _ & Hl).
  pose proof (sh_cursor _ _ Hd) as Hc. destruct (sh_cells _ _ Hd) as [Hcells _].
  rewrite Eb in *. rewrite concat_rev_cons in Hl, Hc. rewrite length_app in Hc.
  inversion Hcells as [|? ? Hcell _]; subst. pose proof (cell_nonempty c Hcell).
  split; [|lia]. rewrite Hl, <- app_assoc, lookup_app_r, lookup_app_l by lia.
  rewrite last_lookup. f_equal. lia.
Qed.

Lemma erase_cells p P fuel :
  (forall c b, is_cell c -> last c = Some b -> p b = P c) ->
  forall t ed changed, inv ed -> displays t ed -> last_was_cr ed = false -> cursor ed <= fuel ->
  exists ed', erase_while p fuel changed ed
      = Some (ed', changed || match before t with c :: _ => P c | [] => false end)%bool
    /\ inv ed' /\ displays (at_text (drop_cells P (before t)) (after t) t) ed'
    /\ last_was_cr ed' = false.
Proof.
  intros Hp. induction fuel as [|fuel IH]; intros t ed changed Hi Hd Hcr Hf; cbn [erase_while];
    (destruct (before t) as [|c b] eqn:Eb;
     [pose proof (sh_cursor _ _ Hd) as Hc; rewrite Eb in Hc; cbn in Hc; rewrite Hc; cbn;
      exists ed; rewrite orb_false_r; split_and!; auto;
      rewrite <- Eb; now apply displays_same|]);
    destruct (byte_before t ed c b Hd Eb) as [Hlk Hpos]; [lia|].
  rewrite (proj2 (Nat.ltb_lt _ _) Hpos), Hlk.
  destruct (sh_cells _ _ Hd) as [Hcells _]. rewrite Eb in Hcells. inversion Hcells as [|? ? Hcell _]; subst.
  destruct (cell_last c Hcell) as (x & Hx & _). rewrite Hx. cbn [mbind option_bind drop_cells].
  rewrite (Hp c x Hcell Hx). destruct (P c) eqn:EP.
  - destruct (backspace_cell t ed c b Hi Hd Hcr Eb) as (e1 & Hbs & Hd1 & Hcr1).
    destruct (backspace_inv LINE HISTORY ed Hi) as (e1' & ok & Hbs' & Hi1 & Hlt).
    rewrite Hbs in Hbs'. injection Hbs' as <- <-. rewrite Hbs. cbn [mbind option_bind fst snd].
    destruct (IH (at_text b (after t) t) e1 (changed || true)%bool Hi1 Hd1 Hcr1) as (e2 & -> & H2 & H3 & H4); [lia|].
    exists e2. rewrite !orb_true_r. split_and!; auto.
  - exists ed. rewrite orb_false_r. split_and!; auto. rewrite <- Eb. now apply displays_same.
Qed.

(** *** Control bytes *)

Lemma press_calm k t : press LINE k (calm t) = press LINE k t.
Proof. destruct k; reflexivity. Qed.
Lemma told_calm k t : told LINE k (calm t) = told LINE k t.
Proof. destruct k; reflexivity. Qed.

Lemma head_does t ed : inv ed -> displays t ed -> last_was_cr ed = false ->
  exists r, feed_plain LINE 21 ed = Some r /\ does KKillHead t r.
Proof.
  intros Hi Hd Hcr. destruct (displays_split t ed Hd) as (_ & Hdr & _).
  destruct (sh_cells _ _ Hd) as [Hb Ha]. pose proof (sh_cursor _ _ Hd) as Hc.
  unfold feed_plain. rewrite Hcr. cbn -[Nat.eqb with_text with_cr copy_within pop_n].
  assert (Hz : with_cr false ed = ed) by (destruct ed; cbn in *; now rewrite Hcr). rewrite Hz.
  unfold does, press, told. destruct (Nat.eqb_spec (cursor ed) 0) as [E|E].
  - destruct (before t) as [|c b] eqn:Eb.
    + eexists; split; [reflexivity|]. split; [|reflexivity]. cbn [fst].
      rewrite <- Eb. now apply displays_same.
    + exfalso. rewrite concat_rev_cons, length_app in Hc.
      inversion Hb as [|? ? Hcell _]; subst. pose proof (cell_nonempty c Hcell). lia.
  - rewrite bool_decide_false by (intros Eb; rewrite Eb in Hc; cbn in Hc; lia).
    pose proof (ei_cursor _ _ _ Hi).
    destruct (cut_spec (line ed) 0 (cursor ed)) as (l' & -> & Hcut); [lia|].
    rewrite Nat.sub_0_r in Hcut. cbn [mbind option_bind]. rewrite Hcut.
    eexists; split; [reflexivity|]. split; [|reflexivity].
    cbn [fst]. apply displays_text; auto.
Qed.

Lemma tail_does t ed : displays t ed -> last_was_cr ed = false ->
  does KKillTail t (with_text (take (cursor ed) (line ed)) (cursor ed) ed, Redraw).
Proof.
  intros Hd Hcr. destruct (displays_split t ed Hd) as (Ht & _ & _).
  destruct (sh_cells _ _ Hd) as [Hb Ha]. split; [|reflexivity]. cbn [fst press].
  apply displays_text; auto; [|exact (sh_cursor _ _ Hd)]. cbn. now rewrite app_nil_r.
Qed.

Lemma word_does t ed : inv ed -> displays t ed -> last_was_cr ed = false ->
  exists ed' c, kill_word ed = Some (ed', c) /\ does KKillWord t (ed', if c : bool then Redraw else EvNone).
Proof.
  intros Hi Hd Hcr. unfold kill_word.
  destruct (erase_cells is_ascii_whitespace cell_blank (cursor ed)
    ltac:(intros c b Hc Hb; destruct (cell_last c Hc) as (x & Hx & H & _); congruence)
    t ed false Hi Hd Hcr (le_n _)) as (e1 & -> & H1 & D1 & C1).
  cbn [mbind option_bind fst snd].
  destruct (erase_cells (fun b => negb (is_ascii_whitespace b)) (fun c => negb (cell_blank c)) (cursor e1)
    ltac:(intros c b Hc Hb; destruct (cell_last c Hc) as (x & Hx & H & _); congruence)
    _ e1 (false || match before t with c :: _ => cell_blank c | [] => false end)%bool H1 D1 C1 (le_n _))
    as (e2 & -> & H2 & D2 & C2).
  eexists _, _. split; [reflexivity|]. split; [exact D2|]. cbn [told snd before at_text orb].
  destruct (before t) as [|c b]; [reflexivity|]. rewrite bool_decide_false by discriminate.
  cbn [drop_cells]. destruct (cell_blank c) eqn:E; cbn [orb]; [reflexivity|]. rewrite E. reflexivity.
Qed.

Lemma rubout_does t ed : inv ed -> displays t ed -> last_was_cr ed = false ->
  exists r, (fast ← (if Nat.eqb (cursor ed) (length (line ed)) && (0 <? cursor ed)
                     then b ← line ed !! (cursor ed - 1); Some (b <? 128)%Z else Some false);
             r ← backspace ed;
             Some (fst r, if (snd r : bool) then (if (fast : bool) then EvBackspace else Redraw) else EvNone))
            = Some r /\ does KBackspace t r.
Proof.
  intros Hi Hd Hcr. unfold does, press, told.
  destruct (displays_split t ed Hd) as (Ht & Hdr & Hl). destruct (sh_cells _ _ Hd) as [Hb Ha].
  pose proof (sh_cursor _ _ Hd) as Hc.
  destruct (before t) as [|c b] eqn:Eb.
  - cbn in Hc. unfold backspace. rewrite Hc, andb_false_r. cbn. eexists; split; [reflexivity|].
    split; [|reflexivity]. cbn [fst tail]. rewrite <- Eb. now apply displays_same.
  - destruct (byte_before t ed c b Hd Eb) as [Hlk Hpos].
    inversion Hb as [|? ? Hcell _]; subst. destruct (cell_last c Hcell) as (x & Hx & _ & Hascii).
    destruct (backspace_cell t ed c b Hi Hd Hcr Eb) as (e1 & Hbs & Hd1 & _). rewrite Hbs, Hlk, Hx.
    rewrite (proj2 (Nat.ltb_lt _ _) Hpos), andb_true_r.
    rewrite (at_end t ed Hd). destruct (bool_decide _); cbn [mbind option_bind fst snd andb];
      (eexists; split; [reflexivity|]); (split; [exact Hd1|]); cbn [audible omap list_omap snd];
      rewrite ?Hascii; [destruct (cell_ascii c)|]; reflexivity.
Qed.

Lemma control_does t ed k b : inv ed -> displays t ed ->
  (k, b) ∈ [(KHome, 1); (KEnd, 5); (KBackspace, 8); (KBackspace, 127); (KKillHead, 21);
            (KKillTail, 11); (KKillWord, 23); (KTab, 9); (KInterrupt, 3); (KClearScreen, 12);
            (KReturn, 13)]%Z ->
  exists r, feed_plain LINE b ed = Some r /\ does k t r.
Proof.
  intros Hi0 Hd0 Hin. assert (Hi : inv (with_cr false ed)) by now apply inv_cr.
  apply displays_calm in Hd0.
  assert (Hcalm : forall r, does k (calm t) r -> does k t r)
    by (intros r; unfold does; now rewrite press_calm, told_calm).
  assert (Hfeed : (b <> 10 /\ b <> 0)%Z -> feed_plain LINE b ed = feed_plain LINE b (with_cr false ed)).
  { intros [H1 H2]. unfold feed_plain.
    rewrite (proj2 (Z.eqb_neq b 10) H1), (proj2 (Z.eqb_neq b 0) H2). cbn [orb].
    rewrite !andb_false_r. reflexivity. }
  set (e := with_cr false ed) in *. assert (Hcr : last_was_cr e = false) by reflexivity.
  assert (He : with_cr false e = e) by reflexivity.
  clearbody e. rename Hd0 into Hd. clear Hi0.
  assert (Hgo : forall r, feed_plain LINE b e = Some r -> does k (calm t) r ->
    (b <> 10 /\ b <> 0)%Z -> exists r, feed_plain LINE b ed = Some r /\ does k t r).
  { intros r H1 H2 H3. exists r. rewrite Hfeed by exact H3. auto. }
  assert (Hquiet : displays (calm t) e) by exact Hd.
  rewrite !elem_of_cons in Hin. destruct_or! Hin; try (now apply elem_of_nil in Hin);
    injection Hin as -> ->.
  - eapply Hgo; [|exact (home_does _ e Hd Hcr)|lia]. unfold feed_plain. rewrite Hcr, He. reflexivity.
  - eapply Hgo; [|exact (end_does _ e Hd Hcr)|lia]. unfold feed_plain. rewrite Hcr, He. reflexivity.
  - destruct (rubout_does _ e Hi Hd Hcr) as (r & Hr & Hdo).
    eapply Hgo; [|exact Hdo|lia]. unfold feed_plain. rewrite Hcr, He. exact Hr.
  - destruct (rubout_does _ e Hi Hd Hcr) as (r & Hr & Hdo).
    eapply Hgo; [|exact Hdo|lia]. unfold feed_plain. rewrite Hcr, He. exact Hr.
  - destruct (head_does _ e Hi Hd Hcr) as (r & Hr & Hdo). eapply Hgo; [exact Hr|exact Hdo|lia].
  - eapply Hgo; [|exact (tail_does _ e Hd Hcr)|lia]. unfold feed_plain. rewrite Hcr, He. reflexivity.
  - destruct (word_does _ e Hi Hd Hcr) as (e' & c & Hr & Hdo).
    eapply Hgo; [|exact Hdo|lia]. unfold feed_plain. rewrite Hcr, He.
    change (23 =? 13)%Z with false. cbn -[kill_word]. rewrite Hr. reflexivity.
  - eapply Hgo; [unfold feed_plain; rewrite Hcr, He; reflexivity| |lia]. split; [|reflexivity]. exact (displays_same _ _ Hd Hcr).
  - eapply Hgo; [unfold feed_plain; rewrite Hcr, He; reflexivity| |lia]. split; [|reflexivity]. exact (displays_same _ _ Hd Hcr).
  - eapply Hgo; [unfold feed_plain; rewrite Hcr, He; reflexivity| |lia]. split; [|reflexivity]. exact (displays_same _ _ Hd Hcr).
  - eapply Hgo; [unfold feed_plain; rewrite Hcr, He; reflexivity| |lia]. split; [|reflexivity].
    destruct Hd. now split.
Qed.

(** *** Characters *)

Definition printable (b : Z) : Prop := (32 <= b /\ b <> 127)%Z.

Lemma feed_plain_printable b ed : inv ed -> printable b ->
  feed_plain LINE b ed = Some
    (if (length (line ed) <? LINE) then
       (with_text (take (cursor ed) (line ed) ++ b :: drop (cursor ed) (line ed)) (S (cursor ed)) (with_cr false ed),
        if cursor ed =? length (line ed) then Echo b else Redraw)
     else (with_cr false ed, EvNone)).
Proof.
  intros Hi [H32 H127]. unfold feed_plain.
  assert (Hne : forall n, (0 <= n < 32 -> (b =? n) = false)%Z) by (intros n Hn; apply Z.eqb_neq; lia).
  rewrite !Hne by lia. rewrite (proj2 (Z.eqb_neq b 127) H127), (proj2 (Z.leb_le 32 b) H32).
  cbn [orb]. rewrite andb_false_r.
  rewrite (insert_spec LINE HISTORY) by now apply inv_cr. cbn [mbind option_bind].
  change (line (with_cr false ed)) with (line ed). change (cursor (with_cr false ed)) with (cursor ed).
  destruct (length (line ed) <? LINE); reflexivity.
Qed.

Lemma feed_printable bs : Forall printable bs -> forall ed, inv ed -> escape ed = Normal -> bs <> [] ->
  exists ed' evs, feed_all LINE bs ed = Some (ed', evs)
    /\ ed' = with_text (take (cursor ed) (line ed) ++ take (LINE - length (line ed)) bs
                        ++ drop (cursor ed) (line ed))
               (cursor ed + length (take (LINE - length (line ed)) bs)) (with_cr false ed)
    /\ audible evs = (if cursor ed =? length (line ed) then Echo else fun _ => Redraw)
                     <$> take (LINE - length (line ed)) bs.
Proof.
  induction 1 as [|b bs Hb Hbs IH]; intros ed Hi He Hne; [done|]. clear Hne.
  pose proof (ei_cursor _ _ _ Hi) as Hc. cbn [feed_all]. unfold feed. rewrite He.
  assert (with_escape Normal ed = ed) as -> by (destruct ed; cbn in *; now rewrite He).
  rewrite feed_plain_printable by assumption. destruct (Nat.ltb_spec (length (line ed)) LINE) as [Hlt|Hge].
  2:{ cbn [mbind option_bind fst snd]. replace (LINE - length (line ed)) with 0 by lia.
      destruct bs as [|b2 bs].
      - eexists _, _. split; [reflexivity|]. cbn [feed_all take app fst snd length].
        rewrite take_drop, Nat.add_0_r. split; [|reflexivity]. destruct ed; reflexivity.
      - destruct (IH (with_cr false ed)) as (ed' & evs & -> & -> & Hev); [now apply inv_cr|exact He|done|].
        eexists _, _. split; [reflexivity|]. cbn [fst snd].
        change (line (with_cr false ed)) with (line ed) in *.
        change (cursor (with_cr false ed)) with (cursor ed) in *.
        replace (LINE - length (line ed)) with 0 in Hev |- * by lia. cbn [take] in *.
        split; [reflexivity|]. cbn. exact Hev. }
  cbn [mbind option_bind fst snd].
  set (l1 := take (cursor ed) (line ed) ++ b :: drop (cursor ed) (line ed)).
  assert (Hlen : length l1 = S (length (line ed))).
  { subst l1. rewrite length_app. cbn [length]. rewrite length_take, length_drop. lia. }
  set (e1 := with_text l1 (S (cursor ed)) (with_cr false ed)).
  assert (Hfull : LINE - length (line ed) = S (LINE - length l1)) by lia.
  assert (Hto : take (S (cursor ed)) l1 = take (cursor ed) (line ed) ++ [b]).
  { subst l1. rewrite (cons_middle b), app_assoc. rewrite take_app_length'; [reflexivity|].
    rewrite length_app, length_take. cbn. lia. }
  assert (Hdr : drop (S (cursor ed)) l1 = drop (cursor ed) (line ed)).
  { subst l1. rewrite (cons_middle b), app_assoc. rewrite drop_app_length'; [reflexivity|].
    rewrite length_app, length_take. cbn. lia. }
  rewrite Hfull. cbn [take]. destruct bs as [|b2 bs].
  { eexists _, _. split; [reflexivity|]. cbn [fst snd length]. rewrite take_nil. cbn [app length].
    rewrite Nat.add_1_r. split; [reflexivity|].
    destruct (cursor ed =? length (line ed)); reflexivity. }
  destruct (IH e1) as (ed' & evs & -> & -> & Hev); [|exact He|done|].
  { apply inv_text; [now apply inv_cr|]. lia. }
  eexists _, _. split; [reflexivity|]. cbn [fst snd].
  change (line e1) with l1 in *. change (cursor e1) with (S (cursor ed)) in *.
  rewrite Hto, Hdr, <- app_assoc. cbn [app length].
  split; [unfold e1, with_text, with_cr; cbn; f_equal; lia|].
  cbn [audible omap list_omap]. rewrite Hlen in Hev. cbn [Nat.eqb] in Hev. fold (audible evs).
  rewrite <- Hlen in Hev.
  destruct (cursor ed =? length (line ed)); cbn [list_fmap fmap]; f_equal; exact Hev.
Qed.

Lemma take_cell n c : is_cell c -> 0 < n -> is_cell (take n c).
Proof. destruct c as [|b c], n as [|n]; try done; [lia|]. intros [Hb Hf] _. split; [exact Hb|]. now apply Forall_take. Qed.

Lemma char_does t ed c : inv ed -> displays t ed -> is_cell c -> Forall printable c ->
  exists ed' evs, feed_all LINE c ed = Some (ed', evs)
    /\ displays (press LINE (KChar c) t) ed' /\ audible evs = told LINE (KChar c) t.
Proof.
  intros Hi Hd Hcell Hp. destruct (displays_split t ed Hd) as (Ht & Hdr & Hl).
  destruct (sh_cells _ _ Hd) as [Hb Ha]. pose proof (sh_cursor _ _ Hd) as Hc.
  destruct (feed_printable c Hp ed Hi (sh_normal _ _ Hd)) as (ed' & evs & Hf & -> & Hev);
    [now destruct c|].
  exists (with_text (take (cursor ed) (line ed) ++ take (LINE - length (line ed)) c
            ++ drop (cursor ed) (line ed))
            (cursor ed + length (take (LINE - length (line ed)) c)) (with_cr false ed)), evs.
  split; [exact Hf|]. assert (Hroom : LINE - length (line ed) = room LINE t)
    by (unfold room; now rewrite (sh_line _ _ Hd)).
  rewrite Hroom in *. cbn [press told]. pose proof Hd as Hd0. split.
  - apply displays_calm in Hd.
    apply (displays_text _ _ _ (after t) _ _ Hd); [reflexivity| | | |exact Ha].
    + rewrite Ht, Hdr. destruct (take (room LINE t) c) as [|x c'] eqn:Ec; [reflexivity|].
      rewrite concat_rev_cons. now rewrite <- app_assoc.
    + rewrite Hc. destruct (take (room LINE t) c) as [|x c'] eqn:Ec; [cbn; lia|].
      now rewrite concat_rev_cons, length_app.
    + destruct (take (room LINE t) c) as [|x c'] eqn:Ec; [exact Hb|]. constructor; [|exact Hb].
      rewrite <- Ec. apply take_cell; [exact Hcell|]. destruct (room LINE t); [discriminate|lia].
  - rewrite Hev. f_equal.
    now rewrite (at_end t ed Hd0).
Qed.

(** *** Keystrokes *)

Lemma with_normal ed : escape ed = Normal -> with_escape Normal ed = ed.
Proof. intros He. destruct ed; cbn in *. now rewrite He. Qed.

Lemma feed_normal b ed : escape ed = Normal -> feed LINE b ed = feed_plain LINE b ed.
Proof. intros He. unfold feed. now rewrite He, with_normal. Qed.

Lemma feed_escape ed : escape ed = Normal ->
  feed LINE 27 ed = Some (with_escape Esc (with_cr false ed), EvNone).
Proof.
  intros He. rewrite feed_normal by exact He. unfold feed_plain.
  cbn [Z.eqb Pos.eqb orb]. rewrite andb_false_r. reflexivity.
Qed.

Lemma feed_intro intro e : (intro = 91 \/ intro = 79)%Z ->
  feed LINE intro (with_escape Esc e) = Some (with_escape (Csi []) e, EvNone).
Proof. intros [-> | ->]; reflexivity. Qed.

Lemma feed_csi s b e : length s < CSI_CAP -> feed LINE b (with_escape (Csi s) e) =
  if is_ascii_alphabetic b || (b =? 126)%Z then finish_csi LINE (s ++ [b]) (with_escape Normal e)
  else Some (with_escape (Csi (s ++ [b])) e, EvNone).
Proof. intros Hs. unfold feed. cbn [escape with_escape]. now rewrite (proj2 (Nat.ltb_lt _ _) Hs). Qed.

(** An introduced sequence runs [finish_csi] on what follows the introducer. *)
Lemma feed_arrow intro b ed : escape ed = Normal -> (intro = 91 \/ intro = 79)%Z ->
  is_ascii_alphabetic b = true ->
  feed_all LINE [27; intro; b]%Z ed
  = r ← finish_csi LINE [b] (with_cr false ed); Some (fst r, [EvNone; EvNone; snd r]).
Proof.
  intros He Hi Hb. cbn [feed_all]. rewrite feed_escape by exact He. cbn [mbind option_bind fst snd].
  rewrite feed_intro by exact Hi. cbn [mbind option_bind fst snd].
  rewrite feed_csi by (cbn; unfold CSI_CAP; lia). rewrite Hb. cbn [orb app].
  rewrite with_normal by exact He. destruct (finish_csi _ _ _) as [[e ev]|]; reflexivity.
Qed.

Lemma feed_tilde intro b ed : escape ed = Normal -> (intro = 91 \/ intro = 79)%Z ->
  (48 <= b <= 57)%Z ->
  feed_all LINE [27; intro; b; 126]%Z ed
  = r ← finish_csi LINE [b; 126]%Z (with_cr false ed); Some (fst r, [EvNone; EvNone; EvNone; snd r]).
Proof.
  intros He Hi Hb. cbn [feed_all]. rewrite feed_escape by exact He. cbn [mbind option_bind fst snd].
  rewrite feed_intro by exact Hi. cbn [mbind option_bind fst snd].
  rewrite feed_csi by (cbn; unfold CSI_CAP; lia).
  replace (is_ascii_alphabetic b) with false
    by (unfold is_ascii_alphabetic; now rewrite !(proj2 (Z.leb_gt _ b)) by lia).
  rewrite (proj2 (Z.eqb_neq b 126)) by lia. cbn [orb app mbind option_bind fst snd].
  rewrite feed_csi by (cbn; unfold CSI_CAP; lia). cbn [is_ascii_alphabetic].
  rewrite Z.eqb_refl, orb_true_r. cbn [app].
  rewrite with_normal by exact He. destruct (finish_csi _ _ _) as [[e ev]|]; reflexivity.
Qed.

Definition typed (k : Key) (t : Text) (o : option (Editor * list EditorEvent)) : Prop :=
  exists ed' evs, o = Some (ed', evs) /\ displays (press LINE k t) ed' /\ audible evs = told LINE k t.

Lemma typed_csi k t (f : EditorEvent -> list EditorEvent) o :
  (forall ev, audible (f ev) = audible [ev]) ->
  (exists r, o = Some r /\ does k (calm t) r) ->
  typed k t (r ← o; Some (fst r, f (snd r))).
Proof.
  intros Hf ([e ev] & -> & Hd & Ha). cbn. exists e, (f ev). rewrite Hf.
  rewrite press_calm in Hd. rewrite told_calm in Ha. auto.
Qed.

Lemma typed_key t ed k bytes : inv ed -> displays t ed -> sends (t_cr t) k bytes ->
  typed k t (feed_all LINE bytes ed).
Proof.
  intros Hi Hd Hs. pose proof (sh_normal _ _ Hd) as He. pose proof (sh_cr _ _ Hd) as Hcr.
  assert (Hi' : inv (with_cr false ed)) by now apply inv_cr.
  pose proof (displays_calm _ _ Hd) as Hd'.
  assert (Hcr' : last_was_cr (with_cr false ed) = false) by reflexivity.
  destruct Hs as [cr b rest Hc H32 H127 Hr|cr intro k b Hin Hk|cr intro k b Hin Hk|cr k b Hk|k Hk|cr b Hb].
  - destruct (char_does t ed (b :: rest) Hi Hd Hc) as (e & evs & H); [|exists e, evs; exact H].
    constructor; [split; assumption|]. exact Hr.
  - rewrite !elem_of_cons in Hk. destruct_or! Hk; try (now apply elem_of_nil in Hk);
      injection Hk as -> ->; rewrite feed_arrow by (assumption || reflexivity);
      apply (typed_csi _ _ (fun ev => [EvNone; EvNone; ev])); try (intros []; reflexivity).
    + now apply up_does.
    + now apply down_does.
    + now apply right_does.
    + now apply left_does.
    + eexists; split; [reflexivity|]. now apply home_does.
    + eexists; split; [reflexivity|]. now apply end_does.
  - rewrite !elem_of_cons in Hk. destruct_or! Hk; try (now apply elem_of_nil in Hk);
      injection Hk as -> ->; rewrite feed_tilde by (assumption || lia);
      apply (typed_csi _ _ (fun ev => [EvNone; EvNone; EvNone; ev])); try (intros []; reflexivity).
    + eexists; split; [reflexivity|]. now apply home_does.
    + now apply delete_does.
    + eexists; split; [reflexivity|]. now apply end_does.
  - destruct (control_does t ed k b Hi Hd Hk) as ([e ev] & Hf & Hdis & Hev).
    cbn [feed_all]. rewrite feed_normal, Hf by exact He. cbn.
    exists e, [ev]. auto.
  - subst k. cbn [feed_all]. rewrite feed_normal by exact He.
    unfold feed_plain. rewrite Hcr. cbn. eexists _, _. split; [reflexivity|].
    split; [exact Hd'|reflexivity].
  - cbn [feed_all]. rewrite (feed_normal 13 ed He). unfold feed_plain at 1.
    cbn [Z.eqb Pos.eqb orb]. rewrite andb_false_r. cbn [mbind option_bind fst snd].
    rewrite (feed_normal b (with_cr true (with_cr false ed)) He). unfold feed_plain.
    cbn [last_was_cr with_cr]. eexists _, _.
    split; [destruct Hb as [-> | ->]; reflexivity|].
    split; [|reflexivity]. destruct Hd'. split; cbn; auto.
Qed.

(** C32: typing. An editor that shows a text, fed the bytes of any keystroke,
    shows the text after that keystroke and reports exactly what has to be
    redrawn: characters are inserted, crossed and removed whole, words and
    recalled lines too, whatever their encoding; a character too long for the
    room left is cut to that room. *)
Theorem editor_refines_text t ed k bytes :
  editor_inv LINE HISTORY ed -> displays t ed -> sends (t_cr t) k bytes ->
  exists ed' evs, feed_all LINE bytes ed = Some (ed', evs)
    /\ editor_inv LINE HISTORY ed' /\ displays (press LINE k t) ed'
    /\ audible evs = told LINE k t.
Proof.
  intros Hi Hd Hs. destruct (typed_key t ed k bytes Hi Hd Hs) as (ed' & evs & Hf & H1 & H2).
  destruct (feed_all_inv LINE HISTORY bytes ed Hi) as (e2 & evs2 & Hf2 & Hi2).
  rewrite Hf in Hf2. injection Hf2 as <- <-. exists ed', evs. auto.
Qed.
End Refinement.

(** An e with an acute accent, typed into an empty line of four bytes. *)
Lemma editor_refines_text_witness :
  exists ed' evs, feed_all 4 [195; 169] editor_new = Some (ed', evs)
    /\ editor_inv 4 1 ed' /\ displays (mkText [[195; 169]] [] [] None false) ed'
    /\ audible evs = [Echo 195; Echo 169].
Proof.
  refine (editor_refines_text 4 1 (mkText [] [] [] None false) editor_new (KChar [195; 169]) [195; 169] _ _ _).
  - exact (inv_new 4 1).
  - split; try reflexivity. split; constructor.
  - apply s_char; [|lia|lia|].
    + split; [reflexivity|]. constructor; [split; [unfold is_u8, u8_max; lia|reflexivity]|constructor].
    + constructor; [lia|constructor].
Defined.
