(* ===== verification/CliSchema.v ===== *)
(** The command schema, [microtun-cli/src/schema.rs], and the walk that
    flattens groups, [CommandIter], which help rendering repeats for arguments
    ([ArgIter] of help.rs). The walk keeps a stack of at most eight positions;
    it is modelled over any tree, and yields exactly the leaves that no more
    than seven groups enclose, in order ([walk_is_flattening]). *)

From Stdlib Require Import ZArith Lia.
From stdpp Require Import base list option.
From S2P Require Import Prelude Utf8.
Open Scope Z_scope.

Record ValueSpec := mkValueSpec {
  v_name : list Z;
  v_help : list Z;
  v_aliases : list (list Z);
  v_visible_aliases : list (list Z) }.

Inductive ArgAction := Set_ | SetTrue | SetFalse | Count | Append.
Inductive ArgKind := Positional | Option_ | Flag | Flatten.
#[export] Instance ArgAction_eq_dec : EqDecision ArgAction.
Proof. solve_decision. Defined.
#[export] Instance ArgKind_eq_dec : EqDecision ArgKind.
Proof. solve_decision. Defined.

Inductive ArgSpec := mkArgSpec {
  a_name : list Z;
  a_help : list Z;
  a_short : option Z;
  a_long : option (list Z);
  a_aliases : list (list Z);
  a_visible_aliases : list (list Z);
  a_value_name : list Z;
  a_required : bool;
  a_global : bool;
  a_default : option (list Z);
  a_kind : ArgKind;
  a_action : ArgAction;
  a_allow_hyphen_values : bool;
  a_values : list ValueSpec;
  a_children : list ArgSpec }.

(** [ArgSpec::DEFAULT]. *)
Definition arg_default : ArgSpec :=
  mkArgSpec [] [] None None [] [] [] false false None Positional Set_ false [] [].

Definition takes_value (a : ArgSpec) : bool := bool_decide (a_kind a = Option_).

Inductive CommandSpec := mkCommandSpec {
  c_name : list Z;
  c_about : list Z;
  c_aliases : list (list Z);
  c_visible_aliases : list (list Z);
  c_args : list ArgSpec;
  c_subcommands : list CommandSpec;
  c_flatten : bool }.

(** [CommandSpec::matches]. *)
Definition matches (c : CommandSpec) (name : list Z) : bool :=
  negb (c_flatten c) && (bool_decide (c_name c = name)
    || bool_decide (name ∈ c_aliases c) || bool_decide (name ∈ c_visible_aliases c)).

Record RootSpec := mkRootSpec {
  r_name : list Z;
  r_about : list Z;
  r_version : option (list Z);
  r_args : list ArgSpec;
  r_commands : list CommandSpec }.

Definition MAX_COMMAND_FLATTEN_DEPTH : nat := 8.

(** ** The walk *)

Section Walk.
Context {T : Type} (group : T -> option (list T)) (DEPTH : nat).

(** The stack, top first. *)
Definition Iter : Type := list (list T * nat).
Definition iter_new (items : list T) : Iter := [(items, O)].

(** [Iterator::next]: the outer [None] is exhausted fuel. *)
Fixpoint next (fuel : nat) (it : Iter) : option (option (T * Iter)) :=
  match it with
  | [] => Some None
  | (items, index) :: stack =>
    match fuel with
    | O => None
    | S fuel =>
      match items !! index with
      | None => next fuel stack
      | Some item =>
        let stack' := (items, S index) :: stack in
        match group item with
        | Some sub => next fuel (if (length stack' <? DEPTH)%nat then (sub, O) :: stack' else stack')
        | None => Some (Some (item, stack'))
        end
      end
    end
  end.

(** A [for] loop over the iterator. *)
Fixpoint collect (fuel : nat) (it : Iter) : option (list T) :=
  match fuel with
  | O => None
  | S fuel' =>
    r ← next fuel it;
    match r with
    | None => Some []
    | Some (item, it') => cons item <$> collect fuel' it'
    end
  end.

(** The leaves below at most [d] further groups. *)
Fixpoint leaves (d : nat) (items : list T) : list T :=
  flat_map (fun item => match group item with
                        | None => [item]
                        | Some sub => match d with O => [] | S d => leaves d sub end
                        end) items.

(** Steps the walk makes over [items]. *)
Fixpoint walk_cost (d : nat) (items : list T) : nat :=
  S (list_sum (map (fun item => match group item with
                        | None => 1%nat
                        | Some sub => S (match d with O => O | S d => walk_cost d sub end)
                        end) items)).

(** All the items of a walk, in order. *)
Definition walk (items : list T) : list T :=
  default [] (collect (S (walk_cost (DEPTH - 1) items)) (iter_new items)).

(** *** The walk is the flattening *)

Local Open Scope nat_scope.

(** What a stack still has to yield, and its cost: the bottom frame may open
    [DEPTH - 1] more groups. *)
Fixpoint stack_leaves (it : Iter) : list T :=
  match it with
  | [] => []
  | (items, index) :: stack => leaves (DEPTH - S (length stack)) (drop index items) ++ stack_leaves stack
  end.

Fixpoint stack_cost (it : Iter) : nat :=
  match it with
  | [] => 0
  | (items, index) :: stack => walk_cost (DEPTH - S (length stack)) (drop index items) + stack_cost stack
  end.

Lemma leaves_cons d item items : leaves d (item :: items) =
  match group item with
  | None => [item]
  | Some sub => match d with O => [] | S d => leaves d sub end
  end ++ leaves d items.
Proof. destruct d; reflexivity. Qed.

Lemma walk_cost_cons d item items : walk_cost d (item :: items) =
  match group item with
  | None => 1
  | Some sub => S (match d with O => 0 | S d => walk_cost d sub end)
  end + walk_cost d items.
Proof. destruct d; cbn; unfold list_sum; destruct (group item); lia. Qed.

Lemma leaves_nil d : leaves d [] = [].
Proof. destruct d; reflexivity. Qed.
Lemma walk_cost_nil d : walk_cost d [] = 1.
Proof. destruct d; reflexivity. Qed.

Lemma next_spec : DEPTH <> 0 -> forall fuel it, length it <= DEPTH -> stack_cost it <= fuel ->
  match stack_leaves it with
  | [] => next fuel it = Some None
  | item :: rest => exists it', next fuel it = Some (Some (item, it'))
      /\ length it' <= DEPTH /\ stack_leaves it' = rest /\ S (stack_cost it') <= stack_cost it
  end.
Proof.
  intros Hd. induction fuel as [|fuel IH]; intros it Hlen Hcost.
  - destruct it as [|[items index] stack]; [reflexivity|]. cbn in Hcost.
    destruct (DEPTH - S (length stack)); cbn in Hcost; lia.
  - destruct it as [|[items index] stack]; [reflexivity|]. cbn [stack_leaves next].
    destruct (items !! index) as [item|] eqn:Ei.
    2:{ apply lookup_ge_None_1 in Ei. cbn [stack_cost] in Hcost.
        rewrite drop_ge, leaves_nil in * by exact Ei. rewrite walk_cost_nil in Hcost. cbn [app].
        specialize (IH stack ltac:(cbn in Hlen; lia) ltac:(lia)).
        destruct (stack_leaves stack) as [|x rest]; [exact IH|].
        destruct IH as (it' & H1 & H2 & H3 & H4). exists it'. split_and!; auto.
        cbn [stack_cost]. lia. }
    cbn [stack_cost] in Hcost |- *. rewrite (drop_S _ _ _ Ei) in *.
    rewrite leaves_cons. rewrite walk_cost_cons in Hcost |- *.
    destruct (group item) as [sub|] eqn:Eg.
    2:{ exists ((items, S index) :: stack). cbn [app length stack_leaves stack_cost] in *. split_and!; auto; lia. }
    cbn [length] in *. destruct (Nat.ltb_spec (S (length stack)) DEPTH) as [Hroom|Hfull].
    + set (it1 := (sub, 0) :: (items, S index) :: stack).
      assert (Hd1 : DEPTH - S (length stack) = S (DEPTH - S (S (length stack)))) by lia.
      assert (Hl1 : stack_leaves it1 = (match DEPTH - S (length stack) with O => [] | S d => leaves d sub end
          ++ leaves (DEPTH - S (length stack)) (drop (S index) items)) ++ stack_leaves stack).
      { subst it1. cbn [stack_leaves length]. rewrite drop_0, !Hd1. now rewrite <- app_assoc. }
      assert (Hc1 : stack_cost it1 = match DEPTH - S (length stack) with O => 0 | S d => walk_cost d sub end
          + (walk_cost (DEPTH - S (length stack)) (drop (S index) items) + stack_cost stack)).
      { subst it1. cbn [stack_cost length]. now rewrite drop_0, !Hd1. }
      rewrite <- Hl1. specialize (IH it1 ltac:(cbn; lia) ltac:(lia)).
      destruct (stack_leaves it1) as [|x rest]; [exact IH|].
      destruct IH as (it' & H1 & H2 & H3 & H4). exists it'. split_and!; auto. lia.
    + replace (DEPTH - S (length stack)) with 0 in * by lia. cbn [app].
      specialize (IH ((items, S index) :: stack) ltac:(cbn; lia)).
      cbn [stack_cost stack_leaves] in IH. replace (DEPTH - S (length stack)) with 0 in IH by lia.
      specialize (IH ltac:(lia)). destruct (leaves 0 (drop (S index) items) ++ stack_leaves stack) as [|x rest]; [exact IH|].
      destruct IH as (it' & H1 & H2 & H3 & H4). exists it'. split_and!; auto. lia.
Qed.

Lemma collect_walk : DEPTH <> 0 -> forall fuel it, length it <= DEPTH -> stack_cost it < fuel ->
  collect fuel it = Some (stack_leaves it).
Proof.
  intros Hd. induction fuel as [|fuel IH]; intros it Hlen Hcost; [lia|]. cbn [collect].
  pose proof (next_spec Hd (S fuel) it Hlen ltac:(lia)) as Hn.
  destruct (stack_leaves it) as [|x rest]; [rewrite Hn; reflexivity|].
  destruct Hn as (it' & -> & H2 & H3 & H4). cbn [mbind option_bind].
  rewrite IH by lia. now rewrite H3.
Qed.

Lemma walk_leaves items : DEPTH <> 0 -> walk items = leaves (DEPTH - 1) items.
Proof.
  intros Hd. unfold walk. rewrite collect_walk; [| exact Hd|cbn; lia|].
  - unfold iter_new. cbn [stack_leaves length]. now rewrite drop_0, app_nil_r.
  - unfold iter_new. cbn [stack_cost length]. rewrite drop_0. lia.
Qed.
End Walk.

(** ** Commands and arguments *)

Definition command_group (c : CommandSpec) : option (list CommandSpec) :=
  if c_flatten c then Some (c_subcommands c) else None.

(** All that [CommandIter] yields. *)
Definition command_iter (commands : list CommandSpec) : list CommandSpec :=
  walk command_group MAX_COMMAND_FLATTEN_DEPTH commands.

(** [find_command]: the first of them that answers to the name. *)
Definition find_command (commands : list CommandSpec) (name : list Z) : option CommandSpec :=
  List.find (fun c => matches c name) (command_iter commands).

(** looking up a command finds the first, in declaration order, that has
    the name or an alias among those not nested in more than seven flattened
    groups, and nothing else; a group itself is never found. *)
Theorem find_command_first commands name :
  match find_command commands name with
  | Some c => exists l1 l2, leaves command_group 7 commands = l1 ++ c :: l2
      /\ c_flatten c = false /\ matches c name = true
      /\ Forall (fun c' => matches c' name = false) l1
  | None => Forall (fun c' => matches c' name = false) (leaves command_group 7 commands)
  end.
Proof.
  unfold find_command, command_iter. rewrite walk_leaves by discriminate. cbn [MAX_COMMAND_FLATTEN_DEPTH Nat.sub].
  induction (leaves command_group 7 commands) as [|c l IH]; [constructor|].
  cbn [List.find]. destruct (matches c name) eqn:Em.
  - exists [], l. split_and!; auto. unfold matches in Em. now destruct (c_flatten c).
  - destruct (List.find _ l) as [c'|].
    + destruct IH as (l1 & l2 & -> & Hf & Hm & Hn). exists (c :: l1), l2. split_and!; auto.
    + constructor; assumption.
Qed.
