(* ===== verification/CliParse.v ===== *)
(** The argument cursor, [microtun-cli/src/parse.rs]: options, flags and
    positionals are claimed from the tokens of a lexed line. Which tokens are
    taken is a bit mask of sixty-four bits, which letters of a cluster are
    taken a mask of a hundred and twenty-eight per token. A [str] is the list
    of its characters. *)

From Stdlib Require Import ZArith Lia String.
From stdpp Require Import base list option.
From S2P Require Import Prelude Utf8 CliLexer CliSchema.
Open Scope Z_scope.

Definition TERMINATOR : list Z := str "--".

Definition short_mask (ch : Z) : option Z := if ch <? 128 then Some (Z.shiftl 1 ch) else None.

(** [is_negative_number]: [-5], [-.5]. *)
Definition is_negative_number (token : list Z) : bool :=
  match strip_prefix [45] token with
  | None => false
  | Some rest =>
    match rest with
    | ch :: rest' =>
      if is_ascii_digit ch then true
      else if ch =? 46 then match rest' with ch :: _ => is_ascii_digit ch | [] => false end
      else false
    | [] => false
    end
  end.

Definition is_option_like (token : list Z) : bool :=
  starts_with [45] token && negb (bool_decide (token = [45])) && negb (is_negative_number token).

(** The letters of a cluster [-abc]. *)
Definition short_cluster (token : list Z) : option (list Z) :=
  if negb (starts_with [45] token) || starts_with (str "--") token || bool_decide (token = [45]) then None
  else if is_negative_number token then None
  else Some (tail token).

Record ShortUse := mkShortUse { su_index : nat; su_used : Z; su_value_taken : bool }.

Record ArgCursor := mkArgCursor {
  ac_line : Lexed;
  consumed : Z;
  short_use : list ShortUse;
  value_shorts : Z;
  terminator : option nat }.

Definition with_consumed (m : Z) (c : ArgCursor) : ArgCursor :=
  mkArgCursor (ac_line c) m (short_use c) (value_shorts c) (terminator c).
Definition with_short_use (u : list ShortUse) (c : ArgCursor) : ArgCursor :=
  mkArgCursor (ac_line c) (consumed c) u (value_shorts c) (terminator c).
Definition with_value_shorts (m : Z) (c : ArgCursor) : ArgCursor :=
  mkArgCursor (ac_line c) (consumed c) (short_use c) m (terminator c).

Definition count_tokens (c : ArgCursor) : nat := lexed_len (ac_line c).

(** [self.line.arg(index)]; the line was lexed, so its slices are in range. *)
Definition token (c : ArgCursor) (index : nat) : ParseError + list Z :=
  match arg (ac_line c) index with
  | Some r => r
  | None => inl (parse_error InvalidUtf8)
  end.

Definition is_consumed (c : ArgCursor) (index : nat) : bool :=
  negb (Z.land (consumed c) (Z.shiftl 1 (Z.of_nat index)) =? 0).
Definition consume (index : nat) (c : ArgCursor) : ArgCursor :=
  with_consumed (Z.lor (consumed c) (Z.shiftl 1 (Z.of_nat index))) c.

(** [ArgCursor::new]: find the terminator and take it. *)
Fixpoint find_terminator (l : Lexed) (indices : list nat) : option nat :=
  match indices with
  | [] => None
  | index :: indices =>
    match arg l index with
    | Some (inr t) => if bool_decide (t = TERMINATOR) then Some index else find_terminator l indices
    | _ => find_terminator l indices
    end
  end.

Definition cursor_new (l : Lexed) : ArgCursor :=
  let terminator := find_terminator l (seq 0 (lexed_len l)) in
  let c := mkArgCursor l 0 [] 0 terminator in
  match terminator with Some index => consume index c | None => c end.

(** [declare_value_shorts]: the letters of all options, flattened groups included. *)
Fixpoint walk_shorts (a : ArgSpec) (mask : Z) : Z :=
  match a_kind a with
  | Flatten => fold_left (fun m child => walk_shorts child m) (a_children a) mask
  | Option_ =>
    match a_short a ≫= short_mask with Some bit => Z.lor mask bit | None => mask end
  | _ => mask
  end.

Definition declare_value_shorts (args : list ArgSpec) (c : ArgCursor) : ArgCursor :=
  with_value_shorts (fold_left (fun m a => walk_shorts a m) args (value_shorts c)) c.

Definition declare_command_shorts (commands : list CommandSpec) (name : list Z) (c : ArgCursor) : ArgCursor :=
  match find_command commands name with
  | Some command => declare_value_shorts (c_args command) c
  | None => c
  end.

Definition cursor_is_empty (c : ArgCursor) : bool := forallb (is_consumed c) (seq 0 (count_tokens c)).

Definition options_end (c : ArgCursor) : nat := default (count_tokens c) (terminator c).

Definition is_value_short (c : ArgCursor) (ch : Z) : bool :=
  match short_mask ch with
  | Some mask => negb (Z.land (value_shorts c) mask =? 0)
  | None => false
  end.

(** [slot_mut], applied to an update: [None] when there is no room for an entry. *)
Definition update_slot (index : nat) (f : ShortUse -> ShortUse) (c : ArgCursor) : ArgCursor :=
  match position (fun entry => Nat.eqb (su_index entry) index) (short_use c) with
  | Some p => with_short_use (alter f p (short_use c)) c
  | None =>
    if (length (short_use c) <? MAX_TOKENS)%nat
    then with_short_use (short_use c ++ [f (mkShortUse index 0 false)]) c
    else c
  end.

Definition record_short_use (index : nat) (ch : Z) (c : ArgCursor) : ArgCursor :=
  match short_mask ch with
  | None => c
  | Some mask =>
    update_slot index (fun e => mkShortUse (su_index e) (Z.lor (su_used e) mask) (su_value_taken e)) c
  end.

Definition record_value_taken (index : nat) (c : ArgCursor) : ArgCursor :=
  update_slot index (fun e => mkShortUse (su_index e) (su_used e) true) c.

Definition find_use (index : nat) (c : ArgCursor) : option ShortUse :=
  List.find (fun entry => Nat.eqb (su_index entry) index) (short_use c).

Definition short_used (c : ArgCursor) (index : nat) (ch : Z) : bool :=
  match short_mask ch with
  | None => false
  | Some mask =>
    match find_use index c with
    | Some entry => negb (Z.land (su_used entry) mask =? 0)
    | None => false
    end
  end.

Definition value_taken (c : ArgCursor) (index : nat) : bool :=
  match find_use index c with Some entry => su_value_taken entry | None => false end.

(** [locate_short]: the text after the letter. *)
Fixpoint locate_short (c : ArgCursor) (rest : list Z) (short : Z) : option (list Z) :=
  match rest with
  | [] => None
  | ch :: after =>
    if ch =? short then Some after
    else if is_value_short c ch then None
    else locate_short c after short
  end.

Fixpoint count_short (c : ArgCursor) (rest : list Z) (short : Z) : nat :=
  match rest with
  | [] => O
  | ch :: after =>
    if ch =? short then S (count_short c after short)
    else if is_value_short c ch then O
    else count_short c after short
  end.

Fixpoint settled_letters (c : ArgCursor) (index : nat) (rest : list Z) : bool :=
  match rest with
  | [] => true
  | ch :: after =>
    if short_used c index ch then
      if is_value_short c ch then value_taken c index else settled_letters c index after
    else false
  end.

Definition cluster_settled (c : ArgCursor) (index : nat) (t : list Z) : bool :=
  match short_cluster t with
  | None => false
  | Some [] => false
  | Some body => settled_letters c index body
  end.

Definition long_matches (t long : list Z) : bool :=
  match strip_prefix (str "--") t with
  | Some rest => bool_decide (rest = long)
  | None => false
  end.

(** ** Flags *)

Fixpoint take_flag_in (long : option (list Z)) (short : option Z) (indices : list nat) (c : ArgCursor)
  : bool * ArgCursor :=
  match indices with
  | [] => (false, c)
  | index :: indices =>
    if is_consumed c index then take_flag_in long short indices c else
    match token c index with
    | inl _ => take_flag_in long short indices c
    | inr t =>
      if match long with Some long => long_matches t long | None => false end
      then (true, consume index c)
      else
        match short with
        | Some short' =>
          match short_cluster t with
          | Some body =>
            if bool_decide (locate_short c body short' <> None) && negb (short_used c index short')
            then (true, record_short_use index short' c)
            else take_flag_in long short indices c
          | None => take_flag_in long short indices c
          end
        | None => take_flag_in long short indices c
        end
    end
  end.

Definition take_flag (long : option (list Z)) (short : option Z) (c : ArgCursor) : bool * ArgCursor :=
  take_flag_in long short (seq 0 (options_end c)) c.

(** [aliases.iter().any(|alias| take_flag(Some(alias), None))]. *)
Fixpoint any_flag (aliases : list (list Z)) (c : ArgCursor) : bool * ArgCursor :=
  match aliases with
  | [] => (false, c)
  | alias :: aliases =>
    let '(taken, c) := take_flag (Some alias) None c in
    if taken then (true, c) else any_flag aliases c
  end.

Definition take_flag_aliases (long : option (list Z)) (short : option Z) (aliases : list (list Z))
    (c : ArgCursor) : bool * ArgCursor :=
  let '(taken, c) := take_flag long short c in
  if taken then (true, c) else any_flag aliases c.

Definition take_flag_aliases_with_visible (long : option (list Z)) (short : option Z)
    (aliases visible_aliases : list (list Z)) (c : ArgCursor) : bool * ArgCursor :=
  let '(taken, c) := take_flag_aliases long short aliases c in
  if taken then (true, c) else any_flag visible_aliases c.

(** [saturating_add] on [u8]. *)
Definition u8_add (a b : Z) : Z := sat_add u8_max a b.

Fixpoint take_flag_count_in (long : option (list Z)) (short : option Z) (indices : list nat)
    (count : Z) (c : ArgCursor) : Z * ArgCursor :=
  match indices with
  | [] => (count, c)
  | index :: indices =>
    if is_consumed c index then take_flag_count_in long short indices count c else
    match token c index with
    | inl _ => take_flag_count_in long short indices count c
    | inr t =>
      if match long with Some long => long_matches t long | None => false end
      then take_flag_count_in long short indices (u8_add count 1) (consume index c)
      else
        match short with
        | Some short' =>
          match short_cluster t with
          | Some body =>
            let hits := count_short c body short' in
            if (0 <? hits)%nat && negb (short_used c index short')
            then take_flag_count_in long short indices (u8_add count (Z.min (Z.of_nat hits) u8_max))
                   (record_short_use index short' c)
            else take_flag_count_in long short indices count c
          | None => take_flag_count_in long short indices count c
          end
        | None => take_flag_count_in long short indices count c
        end
    end
  end.

Definition take_flag_count (long : option (list Z)) (short : option Z) (c : ArgCursor) : Z * ArgCursor :=
  take_flag_count_in long short (seq 0 (options_end c)) 0 c.

Fixpoint count_aliases (aliases : list (list Z)) (count : Z) (c : ArgCursor) : Z * ArgCursor :=
  match aliases with
  | [] => (count, c)
  | alias :: aliases =>
    let '(n, c) := take_flag_count (Some alias) None c in
    count_aliases aliases (u8_add count n) c
  end.

Definition take_flag_count_aliases (long : option (list Z)) (short : option Z) (aliases : list (list Z))
    (c : ArgCursor) : Z * ArgCursor :=
  let '(count, c) := take_flag_count long short c in count_aliases aliases count c.

Definition take_flag_count_aliases_with_visible (long : option (list Z)) (short : option Z)
    (aliases visible_aliases : list (list Z)) (c : ArgCursor) : Z * ArgCursor :=
  let '(count, c) := take_flag_count_aliases long short aliases c in
  count_aliases visible_aliases count c.

(** ** Options *)

Definition take_detached_value (index : nat) (argument : list Z) (allow_hyphen : bool) (c : ArgCursor)
  : (ParseError + list Z) * ArgCursor :=
  let value_index := S index in
  if (count_tokens c <=? value_index)%nat || is_consumed c value_index
  then (inl (for_argument MissingValue argument), c)
  else match token c value_index with
       | inl e => (inl e, c)
       | inr t => if negb allow_hyphen && is_option_like t
                  then (inl (for_argument MissingValue argument), c)
                  else (inr t, consume value_index c)
       end.

(** [.map(Some)]. *)
Definition some_value (r : (ParseError + list Z) * ArgCursor) : (ParseError + option (list Z)) * ArgCursor :=
  (match fst r with inl e => inl e | inr v => inr (Some v) end, snd r).

Fixpoint take_option_in (long : option (list Z)) (short : option Z) (argument : list Z)
    (allow_hyphen : bool) (indices : list nat) (c : ArgCursor)
  : (ParseError + option (list Z)) * ArgCursor :=
  match indices with
  | [] => (inr None, c)
  | index :: indices =>
    let continue_ := take_option_in long short argument allow_hyphen indices c in
    if is_consumed c index then continue_ else
    match token c index with
    | inl e => (inl e, c)
    | inr t =>
      let try_short :=
        match short with
        | None => continue_
        | Some short' =>
          if short_used c index short' then continue_ else
          match short_cluster t with
          | None => continue_
          | Some body =>
            match locate_short c body short' with
            | None => continue_
            | Some after =>
              let c := record_value_taken index (record_short_use index short' c) in
              match strip_prefix [61] after with
              | Some value => (inr (Some value), c)
              | None =>
                if negb (bool_decide (after = [])) then (inr (Some after), c)
                else some_value (take_detached_value index argument allow_hyphen c)
              end
            end
          end
        end in
      match long with
      | Some long' =>
        match strip_prefix (str "--") t with
        | Some rest =>
          if bool_decide (rest = long')
          then some_value (take_detached_value index argument allow_hyphen (consume index c))
          else match strip_prefix long' rest ≫= strip_prefix [61] with
               | Some value => (inr (Some value), consume index c)
               | None => try_short
               end
        | None => try_short
        end
      | None => try_short
      end
    end
  end.

Definition take_option_named (long : option (list Z)) (short : option Z) (argument : list Z)
    (allow_hyphen : bool) (c : ArgCursor) : (ParseError + option (list Z)) * ArgCursor :=
  take_option_in long short argument allow_hyphen (seq 0 (options_end c)) c.

Definition take_option (long : option (list Z)) (short : option Z) (c : ArgCursor)
  : (ParseError + option (list Z)) * ArgCursor :=
  take_option_named long short (str "option") false c.

Fixpoint option_aliases (aliases : list (list Z)) (argument : list Z) (allow_hyphen : bool)
    (c : ArgCursor) : (ParseError + option (list Z)) * ArgCursor :=
  match aliases with
  | [] => (inr None, c)
  | alias :: aliases =>
    match take_option_named (Some alias) None argument allow_hyphen c with
    | (inr None, c) => option_aliases aliases argument allow_hyphen c
    | r => r
    end
  end.

Definition take_option_aliases (long : option (list Z)) (short : option Z) (aliases : list (list Z))
    (c : ArgCursor) : (ParseError + option (list Z)) * ArgCursor :=
  match take_option long short c with
  | (inr None, c) => option_aliases aliases (str "option") false c
  | r => r
  end.

Definition take_option_aliases_with_visible (long : option (list Z)) (short : option Z)
    (aliases visible_aliases : list (list Z)) (argument : list Z) (allow_hyphen : bool)
    (c : ArgCursor) : (ParseError + option (list Z)) * ArgCursor :=
  match take_option_named long short argument allow_hyphen c with
  | (inr None, c) => option_aliases (aliases ++ visible_aliases) argument allow_hyphen c
  | r => r
  end.

(** ** Positionals and the end *)

Definition after_terminator (c : ArgCursor) (index : nat) : bool :=
  match terminator c with Some p => (p <? index)%nat | None => false end.

Fixpoint take_positional_in (indices : list nat) (c : ArgCursor)
  : (ParseError + option (list Z)) * ArgCursor :=
  match indices with
  | [] => (inr None, c)
  | index :: indices =>
    if is_consumed c index then take_positional_in indices c else
    match token c index with
    | inl e => (inl e, c)
    | inr t =>
      if negb (after_terminator c index) && cluster_settled c index t
      then take_positional_in indices (consume index c)
      else if negb (after_terminator c index) && is_option_like t
      then (inl (parse_error UnknownOption), c)
      else (inr (Some t), consume index c)
    end
  end.

Definition take_positional (c : ArgCursor) : (ParseError + option (list Z)) * ArgCursor :=
  take_positional_in (seq 0 (count_tokens c)) c.

Fixpoint finish_in (indices : list nat) (c : ArgCursor) : (ParseError + unit) * ArgCursor :=
  match indices with
  | [] => (inr tt, c)
  | index :: indices =>
    if is_consumed c index then finish_in indices c else
    match token c index with
    | inl e => (inl e, c)
    | inr t =>
      if negb (after_terminator c index) && cluster_settled c index t
      then finish_in indices (consume index c)
      else if negb (after_terminator c index) && is_option_like t
      then (inl (parse_error UnknownOption), c)
      else (inl (parse_error UnexpectedArgument), c)
    end
  end.

Definition finish (c : ArgCursor) : (ParseError + unit) * ArgCursor :=
  finish_in (seq 0 (count_tokens c)) c.
