(* ===== verification/CliDerive.v ===== *)
(** The derived parsers, [microtun-cli-macros/src/lib.rs]: what the code that
    the [Args], [Subcommand], [Parser] and [ValueEnum] macros generate does, for any struct or
    enum. A field is what its attributes and type say; its type's [Args] or
    [Subcommand] implementation is a record, as the trait is; [FromArg] is a
    function of the field. With it the traits' default methods and
    [parse_with] of [microtun-cli/src/parse.rs]. *)

From Stdlib Require Import ZArith Lia String.
From stdpp Require Import base list option.
From S2P Require Import Prelude Utf8 CliLexer CliSchema CliParse.
Open Scope Z_scope.

(** ** Parsers over the cursor *)

Definition P (A : Type) : Type := ArgCursor -> (ParseError + A) * ArgCursor.

Definition p_ret {A} (a : A) : P A := fun c => (inr a, c).
Definition p_err {A} (e : ParseError) : P A := fun c => (inl e, c).
Definition p_bind {A B} (p : P A) (f : A -> P B) : P B := fun c =>
  match p c with
  | (inl e, c) => (inl e, c)
  | (inr a, c) => f a c
  end.
Definition p_do (f : ArgCursor -> ArgCursor) : P unit := fun c => (inr tt, f c).
(** An operation that cannot fail. *)
Definition p_get {A} (f : ArgCursor -> A * ArgCursor) : P A := fun c => let '(a, c) := f c in (inr a, c).

Declare Scope parser_scope.
Delimit Scope parser_scope with parser.
Notation "'let*' x := p 'in' k" := (p_bind p (fun x => k))
  (at level 200, x name, p at level 100, k at level 200, right associativity) : parser_scope.
Open Scope parser_scope.

Section Derive.
Context {V : Type}.

(** What a field holds. *)
Inductive Value :=
| VCount (n : Z) | VBool (b : bool) | VOptional (o : option V) | VRepeated (l : list V) | VOne (v : V)
| VGroup (fields : list Value) | VVariant (name : list Z) (payload : option Value).

(** [trait Args]. *)
Record Args := mkArgs { ARGS : list ArgSpec; parse_args : P Value }.
(** [trait Subcommand]. *)
Record Subcommand := mkSubcommand {
  COMMANDS : list CommandSpec;
  parse_named : list Z -> P (option Value) }.

(** [Subcommand::parse_subcommand]. *)
Definition parse_subcommand (s : Subcommand) : P Value :=
  let* taken := take_positional in
  match taken with
  | None => p_err (parse_error MissingArgument)
  | Some command =>
    let* _ := p_do (declare_command_shorts (COMMANDS s) command) in
    let* parsed := parse_named s command in
    match parsed with
    | None => p_err (parse_error UnknownCommand)
    | Some v => p_ret v
    end
  end.

(** [FromArg::from_arg]; the error is what was expected. *)
Definition FromArg : Type := list Z -> list Z + V.

(** The type of a field that is an argument of its own, as far as the macros
    tell types apart: [bool], [Option<..>], a vector, any other. *)
Inductive FieldType :=
| FBool
| FOptional
| FRepeated (capacity : option nat)
| FPlain.
#[global] Instance ft_inhabited : Inhabited FieldType := populate FPlain.

(** The attributes of an argument, and its type; [f_count] and [f_set_false]
    are its [action], [f_default] its [default_value_t]. *)
Record Argument := mkArgument {
  f_label : list Z;
  f_help : list Z;
  f_long : option (list Z);
  f_short : option Z;
  f_aliases : list (list Z);
  f_visible : list (list Z);
  f_value_name : list Z;
  f_global : bool;
  f_required : option bool;
  f_allow_hyphen : bool;
  f_default_text : option (list Z);
  f_values : list ValueSpec;
  f_count : bool;
  f_set_false : bool;
  f_default : option V;
  f_type : FieldType;
  f_from_arg : FromArg }.

Inductive Field :=
| FSubcommand (s : Subcommand)
| FFlatten (label help : list Z) (a : Args)
| FArgument (a : Argument).

(** [attrs.long_set || attrs.short_set]. *)
Definition is_option (a : Argument) : bool :=
  bool_decide (f_long a <> None) || bool_decide (f_short a <> None).

(** [field_schema]. *)
Definition is_flag (a : Argument) : bool :=
  is_option a && (match f_type a with FBool => true | _ => false end || f_count a || f_set_false a).

Definition argument_schema (a : Argument) : ArgSpec :=
  let optional := match f_type a with FOptional => true | _ => false end in
  let repeated := match f_type a with FRepeated _ => true | _ => false end in
  mkArgSpec (f_label a) (f_help a) (f_short a) (f_long a) (f_aliases a) (f_visible a) (f_value_name a)
    (default (negb (is_flag a) && negb optional && negb repeated && bool_decide (f_default a = None))
       (f_required a))
    (f_global a) (f_default_text a)
    (if is_flag a then Flag else if is_option a then Option_ else Positional)
    (if f_count a then Count else if f_set_false a then SetFalse else if is_flag a then SetTrue
     else if repeated then Append else Set_)
    (f_allow_hyphen a) (f_values a) [].

Definition field_schema (f : Field) : list ArgSpec :=
  match f with
  | FSubcommand _ => []
  | FFlatten label help a =>
    [mkArgSpec label help None None [] [] [] false false None Flatten Set_ false [] (ARGS a)]
  | FArgument a => [argument_schema a]
  end.

(** [parse_field_expr]: [from_arg] with its error labelled. *)
Definition convert (a : Argument) (raw : list Z) : P V :=
  match f_from_arg a raw with
  | inr v => p_ret v
  | inl expected => p_err (invalid_value (f_label a) expected)
  end.

Definition required_option (a : Argument) : bool := default false (f_required a).
Definition missing {A} (a : Argument) : P A := p_err (for_argument MissingArgument (f_label a)).

(** One value of the field: an option's or the next positional. *)
Definition take_raw (a : Argument) : P (option (list Z)) :=
  if is_option a
  then take_option_aliases_with_visible (f_long a) (f_short a) (f_aliases a) (f_visible a)
         (f_label a) (f_allow_hyphen a)
  else take_positional.

(** [while let Some(raw) = ... { push }]; the bound is never reached. *)
Fixpoint take_all (fuel : nat) (a : Argument) (capacity : option nat) (values : list V) : P (list V) :=
  let* raw := take_raw a in
  match raw with
  | None => p_ret values
  | Some raw =>
    let* v := convert a raw in
    if match capacity with Some n => (length values <? n)%nat | None => true end
    then match fuel with
         | O => p_ret values
         | S fuel => take_all fuel a capacity (values ++ [v])
         end
    else p_err (for_argument TooManyValues (f_label a))
  end.

Definition take_present (a : Argument) : P bool :=
  p_get (take_flag_aliases_with_visible (f_long a) (f_short a) (f_aliases a) (f_visible a)).

(** Which code [parse_field_expr] generates for the field. *)
Inductive Form := AsCount | AsBool (set_false : bool) | AsOptional | AsRepeated (capacity : option nat) | AsPlain.

Definition form (a : Argument) : Form :=
  if is_option a && f_count a then AsCount else
  match f_type a with
  | FBool => if is_option a then AsBool (f_set_false a) else AsPlain
  | FOptional => AsOptional
  | FRepeated capacity => AsRepeated capacity
  | FPlain => AsPlain
  end.

Definition parse_argument (a : Argument) : P Value :=
  match form a with
  | AsCount =>
    let* value := p_get (take_flag_count_aliases_with_visible (f_long a) (f_short a)
                          (f_aliases a) (f_visible a)) in
    if required_option a && (value =? 0) then missing a else p_ret (VCount value)
  | AsBool set_false =>
    let* present := take_present a in
    if required_option a && negb present then missing a
    else p_ret (VBool (if set_false then negb present else present))
  | AsOptional =>
    let* raw := take_raw a in
    match raw with
    | Some raw => let* v := convert a raw in p_ret (VOptional (Some v))
    | None => if required_option a then missing a else p_ret (VOptional None)
    end
  | AsRepeated capacity => fun c =>
    (let* values := take_all (count_tokens c) a capacity [] in
     if required_option a && bool_decide (length values = O) then missing a
     else p_ret (VRepeated values)) c
  | AsPlain =>
    let* raw := take_raw a in
    match raw with
    | Some raw => let* v := convert a raw in p_ret (VOne v)
    | None => match f_default a with Some v => p_ret (VOne v) | None => missing a end
    end
  end.

Definition parse_field (f : Field) : P Value :=
  match f with
  | FSubcommand s => parse_subcommand s
  | FFlatten _ _ a => parse_args a
  | FArgument a => parse_argument a
  end.

(** [named_field_parts]: options first, then groups, positionals, the
    subcommand; a stable sort, so declaration order within a rank. *)
Definition rank (f : Field) : nat :=
  match f with
  | FSubcommand _ => 3
  | FFlatten _ _ _ => 1
  | FArgument a => if is_option a then 0 else 2
  end.

Definition of_rank (r : nat) (fields : list (nat * Field)) : list (nat * Field) :=
  filter (fun p => bool_decide (rank p.2 = r)) fields.
Definition ordered (fields : list Field) : list (nat * Field) :=
  let numbered := imap pair fields in
  of_rank 0 numbered ++ of_rank 1 numbered ++ of_rank 2 numbered ++ of_rank 3 numbered.

Fixpoint parse_fields (fields : list (nat * Field)) (parsed : list (nat * Value)) : P (list (nat * Value)) :=
  match fields with
  | [] => p_ret parsed
  | (i, f) :: fields =>
    let* v := parse_field f in
    parse_fields fields ((i, v) :: parsed)
  end.

(** [Self { #(#idents),* }]: the fields in declaration order. *)
Definition assemble (n : nat) (parsed : list (nat * Value)) : Value :=
  VGroup (omap (fun i => snd <$> List.find (fun p => Nat.eqb (fst p) i) parsed) (seq 0 n)).

Definition parse_struct (fields : list Field) : P Value :=
  let* parsed := parse_fields (ordered fields) [] in
  p_ret (assemble (length fields) parsed).

Definition struct_schema (fields : list Field) : list ArgSpec :=
  flat_map (fun p => field_schema p.2) (ordered fields).

(** [args_impl]. *)
Definition derive_args (fields : list Field) : Args :=
  mkArgs (struct_schema fields)
    (let* _ := p_do (declare_value_shorts (struct_schema fields)) in parse_struct fields).

(** Variants of a derived [Subcommand]. *)
Inductive Variant :=
| VUnit (name about : list Z) (aliases visible : list (list Z))
| VNamed (name about : list Z) (aliases visible : list (list Z)) (fields : list Field)
| VTuple (name about : list Z) (aliases visible : list (list Z)) (a : Args)
| VFlatten (name : list Z) (s : Subcommand).

Definition answers (name : list Z) (aliases visible : list (list Z)) (command : list Z) : bool :=
  bool_decide (command = name) || bool_decide (command ∈ aliases ++ visible).

(** [subcommand_impl], the literal arms. *)
Fixpoint parse_arms (variants : list Variant) (command : list Z) : P (option Value) :=
  match variants with
  | [] => p_ret None
  | VUnit name _ aliases visible :: variants =>
    if answers name aliases visible command then p_ret (Some (VVariant name None))
    else parse_arms variants command
  | VNamed name _ aliases visible fields :: variants =>
    if answers name aliases visible command
    then let* v := parse_struct fields in p_ret (Some (VVariant name (Some v)))
    else parse_arms variants command
  | VTuple name _ aliases visible a :: variants =>
    if answers name aliases visible command
    then let* v := parse_args a in p_ret (Some (VVariant name (Some v)))
    else parse_arms variants command
  | VFlatten _ _ :: variants => parse_arms variants command
  end.

(** The flattened groups, tried after every literal name. *)
Fixpoint flatten_arms (variants : list Variant) (command : list Z) : P (option Value) :=
  match variants with
  | [] => p_ret None
  | VFlatten name s :: variants =>
    let* inner := parse_named s command in
    match inner with
    | Some v => p_ret (Some (VVariant name (Some v)))
    | None => flatten_arms variants command
    end
  | _ :: variants => flatten_arms variants command
  end.

Definition subcommands_of (fields : list Field) : list CommandSpec :=
  default [] (last (omap (fun f => match f with FSubcommand s => Some (COMMANDS s) | _ => None end) fields)).

Definition variant_schema (v : Variant) : CommandSpec :=
  match v with
  | VUnit name about aliases visible => mkCommandSpec name about aliases visible [] [] false
  | VNamed name about aliases visible fields =>
    mkCommandSpec name about aliases visible (struct_schema fields) (subcommands_of fields) false
  | VTuple name about aliases visible a => mkCommandSpec name about aliases visible (ARGS a) [] false
  | VFlatten _ s => mkCommandSpec [] [] [] [] [] (COMMANDS s) true
  end.

Definition derive_subcommand (variants : list Variant) : Subcommand :=
  mkSubcommand (variant_schema <$> variants)
    (fun command =>
       let* arm := parse_arms variants command in
       match arm with
       | Some v => p_ret (Some v)
       | None => flatten_arms variants command
       end).

(** [parse] of the derived [ParserFamily], for an enum and for a struct, and
    [parse_with]. The outer [None] is a panic of the lexer. *)
Definition parse_line (p : P Value) (line : list Z) (len : nat) : option (ParseError + Value) :=
  r ← lex line len;
  Some (match r with
  | inl kind => inl (parse_error kind)
  | inr lexed =>
    if lexed_is_empty lexed then inl (parse_error Empty)
    else fst ((let* parsed := p in let* _ := finish in p_ret parsed) (cursor_new lexed))
  end).

Definition parse_enum (s : Subcommand) := parse_line (parse_subcommand s).
Definition parse_root (a : Args) := parse_line (parse_args a).
Definition parse_with (a : Args) :=
  parse_line (let* _ := p_do (declare_value_shorts (ARGS a)) in parse_args a).

(** [expand_value_enum]: the variant whose name or alias the value is. *)
Fixpoint value_enum (variants : list (ValueSpec * V)) (value : list Z) : option V :=
  match variants with
  | [] => None
  | (spec, v) :: variants =>
    if answers (v_name spec) (v_aliases spec) (v_visible_aliases spec) value then Some v
    else value_enum variants value
  end.
End Derive.
Arguments Value : clear implicits.
Arguments Args : clear implicits.
Arguments Subcommand : clear implicits.
Arguments Argument : clear implicits.
Arguments Field : clear implicits.
Arguments FieldType : clear implicits.
Arguments Variant : clear implicits.
