(* ===== verification/CliRoundTrip.v ===== *)
(** Claiming arguments: what each operation of the cursor does to the mask of
    taken tokens, when a line is finished ([finish_iff]), and the round trip of the
    command line ([canonical_line_parses]): a struct's values, written one
    [--name=value] or [--name] per occurrence of an option, the terminator,
    then the positionals, each word quoted, are parsed back to exactly those
    values. *)

From Stdlib Require Import ZArith Lia String.
From stdpp Require Import base list option sorting functions.
From S2P Require Import Prelude Utf8 CliLexer CliSchema CliParse CliDerive.
Open Scope Z_scope.

(** ** The mask *)

Lemma mask_bit m i : negb (Z.land m (Z.shiftl 1 (Z.of_nat i)) =? 0) = Z.testbit m (Z.of_nat i).
Proof.
  assert (H : Z.land m (Z.shiftl 1 (Z.of_nat i)) = if Z.testbit m (Z.of_nat i) then 2 ^ Z.of_nat i else 0).
  { apply Z.bits_inj'. intros n Hn. rewrite Z.land_spec, Z.shiftl_1_l.
    destruct (Z.eq_dec n (Z.of_nat i)) as [->|Hne].
    - rewrite Z.pow2_bits_true, andb_true_r by lia.
      destruct (Z.testbit m (Z.of_nat i)); [now rewrite Z.pow2_bits_true by lia|now rewrite Z.bits_0].
    - rewrite Z.pow2_bits_false, andb_false_r by lia.
      destruct (Z.testbit m (Z.of_nat i)); [now rewrite Z.pow2_bits_false by lia|now rewrite Z.bits_0]. }
  rewrite H. destruct (Z.testbit m (Z.of_nat i)); [|reflexivity].
  apply negb_true_iff, Z.eqb_neq. pose proof (Z.pow_pos_nonneg 2 (Z.of_nat i)). lia.
Qed.

Lemma is_consumed_bit c i : is_consumed c i = Z.testbit (consumed c) (Z.of_nat i).
Proof. apply mask_bit. Qed.

Lemma is_consumed_consume i c j : is_consumed (consume i c) j = Nat.eqb i j || is_consumed c j.
Proof.
  rewrite !is_consumed_bit. unfold consume. cbn [consumed with_consumed].
  rewrite Z.lor_spec, Z.shiftl_1_l, orb_comm. f_equal.
  destruct (Nat.eqb_spec i j) as [->|Hne].
  - apply Z.pow2_bits_true. lia.
  - apply Z.pow2_bits_false. lia.
Qed.

(** ** Finishing *)

(** Finishing changes only the mask, so whether a cluster is settled stays. *)
Lemma settled_letters_consume j c i body : settled_letters (consume j c) i body = settled_letters c i body.
Proof.
  induction body as [|ch body IH]; [reflexivity|]. cbn [settled_letters]. rewrite IH. reflexivity.
Qed.

Lemma cluster_settled_consume j c i t : cluster_settled (consume j c) i t = cluster_settled c i t.
Proof. unfold cluster_settled. destruct (short_cluster t) as [[|b l]|]; auto. apply settled_letters_consume. Qed.

(** A token is accounted for: taken, or a cluster whose letters all are. *)
Definition accounted (c : ArgCursor) (i : nat) : bool :=
  is_consumed c i || match token c i with
                     | inr t => negb (after_terminator c i) && cluster_settled c i t
                     | inl _ => false
                     end.

Lemma accounted_consume j c i : i <> j -> accounted (consume j c) i = accounted c i.
Proof.
  intros Hne. unfold accounted. rewrite is_consumed_consume, (proj2 (Nat.eqb_neq _ _)) by auto.
  cbn [orb]. change (token (consume j c) i) with (token c i).
  destruct (token c i); [reflexivity|]. now rewrite cluster_settled_consume.
Qed.

Lemma forallb_accounted_consume j c indices : j ∉ indices ->
  forallb (accounted (consume j c)) indices = forallb (accounted c) indices.
Proof.
  induction indices as [|k ks IH]; [done|]. intros [H1 H2]%not_elem_of_cons.
  cbn. rewrite IH by exact H2. now rewrite accounted_consume by auto.
Qed.

Lemma finish_in_iff indices : NoDup indices -> forall c,
  fst (finish_in indices c) = inr tt <-> forallb (accounted c) indices = true.
Proof.
  induction 1 as [|i indices Hi _ IH]; intros c; [done|]. cbn [finish_in forallb].
  unfold accounted at 1. destruct (is_consumed c i) eqn:Ec; cbn [orb andb]; [apply IH|].
  destruct (token c i) as [e|t]; cbn [fst]; [split; discriminate|].
  destruct (negb (after_terminator c i) && cluster_settled c i t) eqn:Es; cbn [andb].
  - rewrite IH. now rewrite forallb_accounted_consume.
  - destruct (_ && is_option_like t)%bool; cbn; split; discriminate.
Qed.

(** a parse is finished exactly when every token of the line is accounted
    for: taken by some argument, or a cluster of short options before the
    terminator all of whose letters, and its value, were taken. Nothing on a
    line is ever ignored. *)
Theorem finish_iff c :
  fst (finish c) = inr tt <-> forall i, (i < count_tokens c)%nat -> accounted c i = true.
Proof.
  unfold finish. rewrite finish_in_iff by apply NoDup_seq. rewrite forallb_forall.
  setoid_rewrite List.in_seq. split; intros H i Hi; apply H; lia.
Qed.

(** ** Lines of long options *)

(** An option as it is written: [--name] or [--name=value]. *)
Definition item_token (it : list Z * option (list Z)) : list Z :=
  str "--" ++ fst it ++ match snd it with Some v => 61 :: v | None => [] end.

(** A name an option can have. *)
Definition name_ok (n : list Z) : Prop := n <> [] /\ 61 ∉ n.

Lemma item_strip it : strip_prefix (str "--") (item_token it)
  = Some (fst it ++ match snd it with Some v => 61 :: v | None => [] end).
Proof. reflexivity. Qed.

Lemma item_long it n : name_ok (fst it) -> name_ok n ->
  bool_decide (fst it ++ match snd it with Some v => 61 :: v | None => [] end = n)
  = bool_decide (fst it = n /\ snd it = None).
Proof.
  intros [_ Hi] [_ Hn]. apply bool_decide_ext. destruct it as [m [v|]]; cbn [fst snd].
  - split; [|intros [_ [=]]]. intros <-. exfalso. apply Hn, elem_of_app. right. left.
  - rewrite app_nil_r. tauto.
Qed.

Lemma item_value it n : name_ok (fst it) -> name_ok n ->
  strip_prefix n (fst it ++ match snd it with Some v => 61 :: v | None => [] end) ≫= strip_prefix [61]
  = if bool_decide (fst it = n) then snd it else None.
Proof.
  intros [_ Hi] [_ Hn]. destruct (strip_prefix n _) as [r|] eqn:Es; cbn [mbind option_bind].
  - apply strip_prefix_spec in Es. destruct (strip_prefix [61] r) as [v|] eqn:Ev.
    + apply strip_prefix_spec in Ev. subst r. cbn [app] in Es.
      destruct it as [m [w|]]; cbn [fst snd] in *.
      * assert (split_once 61 (m ++ 61 :: w) = Some (m, w)) as H1 by now apply split_once_spec.
        rewrite Es in H1. rewrite (proj2 (split_once_spec _ _ n v)) in H1 by auto.
        injection H1 as -> ->. now rewrite bool_decide_true.
      * rewrite app_nil_r in Es. subst m. exfalso. apply Hi, elem_of_app. right. left.
    + destruct (bool_decide_reflect (fst it = n)) as [<-|]; [|reflexivity].
      destruct it as [m [w|]]; cbn [fst snd] in *; [|reflexivity].
      apply app_inv_head in Es. subst r. discriminate.
  - destruct (bool_decide_reflect (fst it = n)) as [<-|]; [|reflexivity].
    rewrite (proj2 (strip_prefix_spec _ _ _) eq_refl) in Es. discriminate.
Qed.

Lemma item_no_cluster it : short_cluster (item_token it) = None.
Proof. reflexivity. Qed.

Section Canonical.
Context (items : list (list Z * option (list Z))) (positionals : list (list Z)).
Context (Hnames : Forall (fun it => name_ok (fst it)) items).

Definition canonical_tokens : list (list Z) :=
  (item_token <$> items) ++ TERMINATOR :: positionals.

(** A cursor over the line, with the tokens of [taken] claimed. *)
Record over (taken : nat -> bool) (c : ArgCursor) : Prop := {
  ov_tokens : forall i, token c i = match canonical_tokens !! i with
                | Some t => inr t | None => inl (parse_error UnexpectedArgument) end;
  ov_count : count_tokens c = length canonical_tokens;
  ov_terminator : terminator c = Some (length items);
  ov_shorts : short_use c = [];
  ov_taken : forall i, is_consumed c i = taken i }.

Lemma over_consume taken c i : over taken c ->
  over (fun j => Nat.eqb i j || taken j) (consume i c).
Proof.
  intros [H1 H2 H3 H4 H5]. split; auto. intros j. rewrite is_consumed_consume. now rewrite H5.
Qed.

Lemma item_lookup i it : items !! i = Some it -> canonical_tokens !! i = Some (item_token it).
Proof.
  intros H. unfold canonical_tokens. rewrite lookup_app_l.
  - now rewrite list_lookup_fmap, H.
  - rewrite length_fmap. eapply lookup_lt_Some, H.
Qed.

Lemma over_short taken c i short : over taken c -> short_used c i short = false.
Proof.
  intros Ho. unfold short_used, find_use. rewrite (ov_shorts _ _ Ho).
  destruct (short_mask short); reflexivity.
Qed.

(** Looking for an option by a name: the item of that name, if it is there. *)
Lemma take_option_in_items name short argument hyphen taken c : name_ok name -> over taken c ->
  forall indices, (forall i, i ∈ indices -> (i < length items)%nat) ->
  take_option_in (Some name) short argument hyphen indices c =
  match List.find (fun i => negb (taken i) && match items !! i with
                    | Some it => bool_decide (fst it = name) | None => false end) indices with
  | None => (inr None, c)
  | Some i =>
    match items !! i ≫= snd with
    | Some v => (inr (Some v), consume i c)
    | None => some_value (take_detached_value i argument hyphen (consume i c))
    end
  end.
Proof.
  intros Hname Ho. induction indices as [|i indices IH]; intros Hin; [reflexivity|].
  cbn [take_option_in List.find]. rewrite (ov_taken _ _ Ho).
  specialize (IH ltac:(intros j Hj; apply Hin; now right)).
  destruct (taken i) eqn:Et; cbn [negb andb]; [exact IH|].
  destruct (lookup_lt_is_Some_2 items i (Hin i ltac:(left))) as [it Hit].
  rewrite (ov_tokens _ _ Ho), (item_lookup i it Hit), Hit.
  pose proof (Forall_lookup_1 _ _ _ _ Hnames Hit) as Hok. cbn in Hok.
  rewrite item_strip, item_long, item_value by assumption.
  destruct (bool_decide_reflect (fst it = name)) as [<-|Hne]; cbn [mbind option_bind].
  - assert (bool_decide (fst it = fst it /\ snd it = None) = bool_decide (snd it = None)) as ->
      by (apply bool_decide_ext; tauto).
    rewrite ?(bool_decide_true (fst it = fst it)) by reflexivity.
    cbn [negb andb]. rewrite Hit. cbn [mbind option_bind]. destruct (snd it) as [v|]; reflexivity.
  - rewrite bool_decide_false by tauto. destruct short as [s|]; [|exact IH].
    rewrite (over_short taken) by exact Ho. rewrite item_no_cluster. exact IH.
Qed.

Lemma take_flag_in_items name short taken c : name_ok name -> over taken c ->
  forall indices, (forall i, i ∈ indices -> (i < length items)%nat) ->
  take_flag_in (Some name) short indices c =
  match List.find (fun i => negb (taken i) && match items !! i with
                    | Some it => bool_decide (fst it = name /\ snd it = None) | None => false end) indices with
  | None => (false, c)
  | Some i => (true, consume i c)
  end.
Proof.
  intros Hname Ho. induction indices as [|i indices IH]; intros Hin; [reflexivity|].
  cbn [take_flag_in List.find]. rewrite (ov_taken _ _ Ho).
  specialize (IH ltac:(intros j Hj; apply Hin; now right)).
  destruct (taken i) eqn:Et; cbn [negb andb]; [exact IH|].
  destruct (lookup_lt_is_Some_2 items i (Hin i ltac:(left))) as [it Hit].
  rewrite (ov_tokens _ _ Ho), (item_lookup i it Hit), Hit. unfold long_matches.
  pose proof (Forall_lookup_1 _ _ _ _ Hnames Hit) as Hok. cbn in Hok.
  rewrite item_strip, item_long by assumption.
  destruct (bool_decide _); [reflexivity|]. destruct short as [s|]; [|exact IH].
  rewrite item_no_cluster. exact IH.
Qed.

Lemma over_ext t1 t2 c : (forall i, t1 i = t2 i) -> over t1 c -> over t2 c.
Proof. intros He [H1 H2 H3 H4 H5]. split; auto. intros i. now rewrite <- He. Qed.

(** *** What is owed

    The items of a name that are not taken yet, by their places, and what they
    hold; of an option that is given several times, in the order of the line. *)

Definition is_named (name : list Z) (i : nat) : bool :=
  match items !! i with Some it => bool_decide (fst it = name) | None => false end.
Definition awaiting (taken : nat -> bool) (name : list Z) : list nat :=
  List.filter (fun i => negb (taken i) && is_named name i) (seq 0 (length items)).
Definition owed (taken : nat -> bool) (name : list Z) : list (option (list Z)) :=
  omap (fun i => snd <$> items !! i) (awaiting taken name).

Lemma find_filter {A} (p : A -> bool) l : List.find p l = head (List.filter p l).
Proof. induction l as [|x l IH]; [reflexivity|]. cbn. now destruct (p x). Qed.

Lemma filter_and {A} (p q : A -> bool) l :
  List.filter (fun x => p x && q x) l = List.filter p (List.filter q l).
Proof.
  induction l as [|x l IH]; [reflexivity|]. cbn. destruct (q x); cbn; rewrite ?andb_true_r, ?andb_false_r;
    [destruct (p x); [now f_equal|exact IH]|exact IH].
Qed.

Lemma filter_all {A} (p : A -> bool) l : (forall x, In x l -> p x = true) -> List.filter p l = l.
Proof.
  induction l as [|x l IH]; intros H; [reflexivity|]. cbn. rewrite H by now left.
  f_equal. apply IH. intros y Hy. apply H. now right.
Qed.

Lemma awaiting_in taken n i : In i (awaiting taken n) <->
  taken i = false /\ exists v, items !! i = Some (n, v).
Proof.
  unfold awaiting, is_named. rewrite filter_In, List.in_seq, andb_true_iff, negb_true_iff. split.
  - intros (_ & Ht & Hi). split; [exact Ht|]. destruct (items !! i) as [[m v]|]; [|discriminate].
    apply bool_decide_eq_true in Hi as <-. eauto.
  - intros (Ht & v & Hi). rewrite Hi. cbn. rewrite bool_decide_true by reflexivity.
    apply lookup_lt_Some in Hi. split_and!; auto; lia.
Qed.

Lemma awaiting_nodup taken n : List.NoDup (awaiting taken n).
Proof. apply List.NoDup_filter, List.seq_NoDup. Qed.

Lemma awaiting_take taken i n :
  awaiting (fun j => Nat.eqb i j || taken j) n = List.filter (fun j => negb (Nat.eqb i j)) (awaiting taken n).
Proof.
  unfold awaiting. rewrite <- filter_and. apply filter_ext. intros j. now rewrite negb_orb, andb_assoc.
Qed.

Lemma awaiting_other taken i n : ~ In i (awaiting taken n) ->
  awaiting (fun j => Nat.eqb i j || taken j) n = awaiting taken n.
Proof.
  intros Hi. rewrite awaiting_take. apply filter_all. intros j Hj.
  apply negb_true_iff, Nat.eqb_neq. now intros ->.
Qed.

Lemma awaiting_next taken i n rest : awaiting taken n = i :: rest ->
  awaiting (fun j => Nat.eqb i j || taken j) n = rest.
Proof.
  intros H. rewrite awaiting_take, H. pose proof (awaiting_nodup taken n) as Hnd. rewrite H in Hnd.
  inversion Hnd as [|? ? Hi Hnd']; subst. cbn. rewrite Nat.eqb_refl. cbn. apply filter_all.
  intros j Hj. apply negb_true_iff, Nat.eqb_neq. now intros ->.
Qed.

Lemma owed_nil taken n : owed taken n = [] <-> awaiting taken n = [].
Proof.
  unfold owed. destruct (awaiting taken n) as [|i rest] eqn:Ea; [done|].
  destruct (proj1 (awaiting_in taken n i)) as (_ & v & Hi); [rewrite Ea; now left|].
  cbn. rewrite Hi. done.
Qed.

Lemma owed_cons taken n v rest : owed taken n = v :: rest ->
  exists i ix, awaiting taken n = i :: ix /\ items !! i = Some (n, v) /\ taken i = false
    /\ omap (fun i => snd <$> items !! i) ix = rest.
Proof.
  unfold owed. destruct (awaiting taken n) as [|i ix] eqn:Ea; [done|].
  destruct (proj1 (awaiting_in taken n i)) as (Ht & w & Hi); [rewrite Ea; now left|].
  cbn. rewrite Hi. cbn. intros [= -> <-]. eauto 6.
Qed.

(** The cursor after some of the items and the first [k] positionals were claimed. *)
Definition claims (owing : list Z -> list (option (list Z))) (k : nat) (c : ArgCursor) : Prop :=
  exists taken, over taken c /\ (forall n, owed taken n = owing n)
    /\ forall i, (length items <= i)%nat -> taken i = (i <? length items + 1 + k)%nat.

Lemma claims_ext o1 o2 k c : (forall n, o1 n = o2 n) -> claims o1 k c -> claims o2 k c.
Proof. intros He (taken & H1 & H2 & H3). exists taken. split_and!; auto. intros n. now rewrite H2. Qed.

(** Nothing owed to a name: it may as well be struck off. *)
Lemma claims_none owing k c n : owing n = [] -> claims owing k c -> claims (<[n:=[]]> owing) k c.
Proof.
  intros Hn. apply claims_ext. intros m. destruct (decide (n = m)) as [<-|Hne];
    [now rewrite fn_lookup_insert|now rewrite fn_lookup_insert_ne].
Qed.

Lemma claims_take taken owing k c n i v ix : over taken c -> (forall n, owed taken n = owing n) ->
  (forall i, (length items <= i)%nat -> taken i = (i <? length items + 1 + k)%nat) ->
  awaiting taken n = i :: ix -> items !! i = Some (n, v) ->
  claims (<[n:=omap (fun i => snd <$> items !! i) ix]> owing) k (consume i c).
Proof.
  intros Ho Howed Hpos Ha Hi. exists (fun j => Nat.eqb i j || taken j).
  split; [now apply over_consume|]. split.
  - intros m. destruct (decide (n = m)) as [<-|Hne].
    + rewrite fn_lookup_insert. unfold owed. now rewrite (awaiting_next _ _ _ _ Ha).
    + rewrite fn_lookup_insert_ne, <- Howed by exact Hne. unfold owed. rewrite awaiting_other; [reflexivity|].
      rewrite awaiting_in. intros (_ & w & Hw). congruence.
  - intros j Hj. rewrite (proj2 (Nat.eqb_neq i j)); [now apply Hpos|]. apply lookup_lt_Some in Hi. lia.
Qed.

Lemma over_end taken c : over taken c -> options_end c = length items.
Proof. intros Ho. unfold options_end. now rewrite (ov_terminator _ _ Ho). Qed.

(** *** Options *)

Lemma claim_value owing k c n v rest short argument hyphen : name_ok n -> owing n = Some v :: rest ->
  claims owing k c -> exists c', take_option_named (Some n) short argument hyphen c = (inr (Some v), c')
    /\ claims (<[n:=rest]> owing) k c'.
Proof.
  intros Hn Hv (taken & Ho & Howed & Hpos). rewrite <- Howed in Hv.
  apply owed_cons in Hv as (i & ix & Ha & Hi & Ht & <-).
  exists (consume i c). split; [|now apply (claims_take taken _ _ _ _ i (Some v))].
  unfold take_option_named. rewrite (over_end _ _ Ho), (take_option_in_items n _ _ _ taken) by
    (try assumption; intros j Hj%elem_of_seq; lia).
  rewrite find_filter. fold (is_named n). change (List.filter _ _) with (awaiting taken n).
  rewrite Ha. cbn [head]. rewrite Hi. reflexivity.
Qed.

Lemma claim_no_value owing k c n short argument hyphen : name_ok n -> owing n = [] ->
  claims owing k c -> take_option_named (Some n) short argument hyphen c = (inr None, c).
Proof.
  intros Hn Hv (taken & Ho & Howed & Hpos). rewrite <- Howed in Hv. apply owed_nil in Hv.
  unfold take_option_named. rewrite (over_end _ _ Ho), (take_option_in_items n _ _ _ taken) by
    (try assumption; intros j Hj%elem_of_seq; lia).
  rewrite find_filter. fold (is_named n). change (List.filter _ _) with (awaiting taken n).
  now rewrite Hv.
Qed.

Lemma claim_no_alias owing k c aliases argument hyphen : Forall name_ok aliases ->
  (forall n, n ∈ aliases -> owing n = []) -> claims owing k c ->
  option_aliases aliases argument hyphen c = (inr None, c).
Proof.
  intros Hok Ha Hc. induction Hok as [|n aliases Hn Hok IH]; [reflexivity|]. cbn [option_aliases].
  rewrite (claim_no_value owing k) by (try assumption; apply Ha; left).
  apply IH. intros m Hm. apply Ha. now right.
Qed.

(** *** Flags *)

Lemma awaiting_flags taken n :
  List.filter (fun i => negb (taken i) && match items !! i with
      | Some it => bool_decide (fst it = n /\ snd it = None) | None => false end) (seq 0 (length items))
  = List.filter (fun i => match items !! i with Some it => bool_decide (snd it = None) | None => false end)
      (awaiting taken n).
Proof.
  unfold awaiting. rewrite <- filter_and. apply filter_ext. intros i. unfold is_named.
  destruct (items !! i) as [it|]; [|now rewrite andb_false_r].
  rewrite bool_decide_and. now destruct (negb _), (bool_decide _), (bool_decide _).
Qed.

Lemma claim_flag owing k c n rest short : name_ok n -> owing n = None :: rest -> claims owing k c ->
  exists c', take_flag (Some n) short c = (true, c') /\ claims (<[n:=rest]> owing) k c'.
Proof.
  intros Hn Hv (taken & Ho & Howed & Hpos). rewrite <- Howed in Hv.
  apply owed_cons in Hv as (i & ix & Ha & Hi & Ht & <-).
  exists (consume i c). split; [|now apply (claims_take taken _ _ _ _ i None)].
  unfold take_flag. rewrite (over_end _ _ Ho), (take_flag_in_items n _ taken) by
    (try assumption; intros j Hj%elem_of_seq; lia).
  rewrite find_filter, awaiting_flags, Ha. cbn. now rewrite Hi.
Qed.

Lemma claim_no_flag owing k c n short : name_ok n -> owing n = [] -> claims owing k c ->
  take_flag (Some n) short c = (false, c).
Proof.
  intros Hn Hv (taken & Ho & Howed & Hpos). rewrite <- Howed in Hv. apply owed_nil in Hv.
  unfold take_flag. rewrite (over_end _ _ Ho), (take_flag_in_items n _ taken) by
    (try assumption; intros j Hj%elem_of_seq; lia).
  now rewrite find_filter, awaiting_flags, Hv.
Qed.

Lemma claim_no_flags owing k c aliases : Forall name_ok aliases ->
  (forall n, n ∈ aliases -> owing n = []) -> claims owing k c -> any_flag aliases c = (false, c).
Proof.
  intros Hok Ha Hc. induction Hok as [|n aliases Hn Hok IH]; [reflexivity|]. cbn [any_flag].
  rewrite (claim_no_flag owing k) by (try assumption; apply Ha; left).
  apply IH. intros m Hm. apply Ha. now right.
Qed.

(** *** Counters *)

Fixpoint counted (m : nat) (count : Z) : Z :=
  match m with O => count | S m => counted m (u8_add count 1) end.

Lemma counted_sum m : forall count, 0 <= count <= u8_max -> counted m count = Z.min (count + Z.of_nat m) u8_max.
Proof.
  induction m as [|m IH]; intros count Hc; [cbn; lia|]. cbn [counted].
  assert (u8_add count 1 = Z.min (count + 1) u8_max) as -> by (unfold u8_add, sat_add; lia).
  rewrite IH by lia. lia.
Qed.

Lemma count_in_items n short : name_ok n -> forall indices taken count c, over taken c ->
  List.NoDup indices -> (forall i, In i indices -> (i < length items)%nat) ->
  (forall i v, taken i = false -> items !! i = Some (n, v) -> v = None) ->
  let found := List.filter (fun i => negb (taken i) && is_named n i) indices in
  exists c', take_flag_count_in (Some n) short indices count c = (counted (length found) count, c')
    /\ over (fun j => taken j || existsb (Nat.eqb j) found) c' /\ (found = [] -> c' = c).
Proof.
  intros Hn. induction indices as [|i indices IH]; intros taken count c Ho Hnd Hin Hnone.
  { exists c. split_and!; auto. apply (over_ext taken); [|exact Ho]. intros j. cbn. now rewrite orb_false_r. }
  inversion Hnd as [|? ? Hi Hnd']; subst. cbn [take_flag_count_in List.filter]. rewrite (ov_taken _ _ Ho).
  assert (Hskip := IH taken count c Ho Hnd' (fun j Hj => Hin j (or_intror Hj)) Hnone).
  destruct (taken i) eqn:Et; cbn [negb andb]; [exact Hskip|].
  destruct (lookup_lt_is_Some_2 items i (Hin i (or_introl eq_refl))) as [[m v] Hit].
  rewrite (ov_tokens _ _ Ho), (item_lookup i _ Hit). unfold long_matches.
  assert (Hnm : is_named n i = bool_decide (m = n)) by (unfold is_named; now rewrite Hit). rewrite Hnm.
  pose proof (Forall_lookup_1 _ _ _ _ Hnames Hit) as Hok. cbn [fst] in Hok.
  rewrite item_strip, item_long by assumption. cbn [fst snd].
  destruct (bool_decide_reflect (m = n)) as [->|Hne].
  - rewrite (Hnone i v Et Hit), bool_decide_true by auto.
    destruct (IH (fun j => Nat.eqb i j || taken j) (u8_add count 1) (consume i c)) as (c' & Hc' & Ho' & _).
    + now apply over_consume.
    + exact Hnd'.
    + intros j Hj. apply Hin. now right.
    + intros j w [_ Hj]%orb_false_iff Hw. now apply (Hnone j).
    + assert (Hf : List.filter (fun j => negb (Nat.eqb i j || taken j) && is_named n j) indices
          = List.filter (fun j => negb (taken j) && is_named n j) indices).
      { apply filter_ext_in. intros j Hj. now rewrite (proj2 (Nat.eqb_neq i j)) by (intros ->; contradiction). }
      rewrite Hf in Hc', Ho'. exists c'. cbn [length]. cbn [counted]. split; [exact Hc'|]. split; [|discriminate].
      eapply over_ext; [|exact Ho']. intros j. cbn [existsb].
      rewrite (Nat.eqb_sym j i). now destruct (Nat.eqb i j), (taken j).
  - rewrite bool_decide_false by tauto. destruct short as [s|]; [|exact Hskip].
    rewrite item_no_cluster. exact Hskip.
Qed.

Lemma claim_count owing k c n m short : name_ok n -> owing n = replicate m None -> claims owing k c ->
  exists c', take_flag_count (Some n) short c = (Z.min (Z.of_nat m) u8_max, c')
    /\ claims (<[n:=[]]> owing) k c' /\ (m = O -> c' = c).
Proof.
  intros Hn Hv (taken & Ho & Howed & Hpos). rewrite <- Howed in Hv.
  assert (Hnone : forall i, In i (awaiting taken n) -> items !! i = Some (n, None)).
  { intros i Hi. pose proof Hi as (Ht & v & Hit)%awaiting_in. rewrite Hit. do 2 f_equal.
    assert (Hin : v ∈ owed taken n).
    { unfold owed. apply list_elem_of_omap. exists i. split; [now apply list_elem_of_In|]. now rewrite Hit. }
    rewrite Hv in Hin. now apply elem_of_replicate in Hin as [-> _]. }
  assert (Hlen : length (awaiting taken n) = m).
  { rewrite <- (length_replicate m (@None (list Z))), <- Hv. unfold owed. revert Hnone.
    induction (awaiting taken n) as [|i l IH]; intros Hnone; [reflexivity|]. cbn.
    rewrite (Hnone i) by now left. cbn. f_equal. apply IH. intros j Hj. apply Hnone. now right. }
  unfold take_flag_count. rewrite (over_end _ _ Ho).
  destruct (count_in_items n short Hn (seq 0 (length items)) taken 0 c Ho) as (c' & Hc & Ho' & Hsame).
  - apply List.seq_NoDup.
  - intros i Hi%List.in_seq. lia.
  - intros i v Ht Hi. assert (Hin : In i (awaiting taken n)) by (apply awaiting_in; eauto).
    apply Hnone in Hin. congruence.
  - change (List.filter _ _) with (awaiting taken n) in *. rewrite Hlen, counted_sum in Hc by (unfold u8_max; lia).
    exists c'. split; [exact Hc|]. split.
    + exists (fun j => taken j || existsb (Nat.eqb j) (awaiting taken n)). split; [exact Ho'|]. split.
      * intros p. destruct (decide (n = p)) as [<-|Hne].
        -- rewrite fn_lookup_insert. apply owed_nil.
           destruct (awaiting (fun j => taken j || _) n) as [|i l] eqn:Ea; [reflexivity|]. exfalso. destruct (proj1 (awaiting_in _ n i) ltac:(rewrite Ea; now left)) as (Ht & v & Hi).
           apply orb_false_iff in Ht as [Ht Hx].
           assert (Hin : In i (awaiting taken n)) by (apply awaiting_in; eauto).
           assert (existsb (Nat.eqb i) (awaiting taken n) = true); [|congruence].
           apply existsb_exists. exists i. split; [exact Hin|apply Nat.eqb_refl].
        -- rewrite fn_lookup_insert_ne, <- Howed by exact Hne. revert Hnone.
           generalize (awaiting taken n). intros l Hnone. unfold owed, awaiting. f_equal.
           apply filter_ext. intros j. destruct (is_named p j) eqn:Ep; [|now rewrite !andb_false_r].
           assert (existsb (Nat.eqb j) l = false) as ->; [|now rewrite orb_false_r].
           apply not_true_is_false. intros (j' & Hj' & He)%existsb_exists. apply Nat.eqb_eq in He as <-.
           apply Hnone in Hj'. unfold is_named in Ep. rewrite Hj' in Ep. now apply bool_decide_eq_true in Ep.
      * intros i Hi. rewrite <- Hpos by exact Hi.
        assert (existsb (Nat.eqb i) (awaiting taken n) = false) as ->; [|apply orb_false_r].
        apply not_true_is_false. intros (j & Hj & He)%existsb_exists. apply Nat.eqb_eq in He as <-.
        apply Hnone, lookup_lt_Some in Hj. lia.
    + intros ->. apply Hsame. now apply nil_length_inv.
Qed.

Lemma claim_no_counts owing k c aliases count : Forall name_ok aliases -> 0 <= count <= u8_max ->
  (forall n, n ∈ aliases -> owing n = []) -> claims owing k c -> count_aliases aliases count c = (count, c).
Proof.
  intros Hok Hcount Ha Hc. induction Hok as [|n aliases Hn Hok IH]; [reflexivity|]. cbn [count_aliases].
  destruct (claim_count owing k c n 0 None Hn (Ha n ltac:(left)) Hc) as (c' & -> & _ & ->); [|reflexivity].
  replace (u8_add count (Z.min (Z.of_nat 0) u8_max)) with count by (unfold u8_add, sat_add, u8_max in *; lia).
  apply IH. intros m Hm. apply Ha. now right.
Qed.

(** *** Positionals *)

Lemma all_claimed owing k c : (forall n, owing n = []) -> claims owing k c ->
  over (fun i => (i <? length items + 1 + k)%nat) c.
Proof.
  intros Hall (taken & Ho & Howed & Hpos). apply (over_ext taken); [|exact Ho]. intros i.
  destruct (items !! i) as [[n v]|] eqn:Ei; [|apply Hpos; now apply lookup_ge_None_1].
  pose proof (lookup_lt_Some _ _ _ Ei). rewrite (proj2 (Nat.ltb_lt _ _)) by lia.
  destruct (taken i) eqn:Et; [reflexivity|]. exfalso.
  assert (Hin : In i (awaiting taken n)) by (apply awaiting_in; eauto).
  assert (Hn : awaiting taken n = []) by (apply owed_nil; now rewrite Howed, Hall).
  rewrite Hn in Hin. contradiction.
Qed.

Lemma taken_prefix_skipped l2 c : forall l1, (forall i, i ∈ l1 -> is_consumed c i = true) ->
  take_positional_in (l1 ++ l2) c = take_positional_in l2 c.
Proof.
  induction l1 as [|i l1 IH]; intros Hc; [reflexivity|]. cbn [app take_positional_in].
  rewrite Hc by left. apply IH. intros j Hj. apply Hc. now right.
Qed.

Lemma claim_positional owing k c t : (forall n, owing n = []) -> positionals !! k = Some t -> claims owing k c ->
  exists c', take_positional c = (inr (Some t), c') /\ claims owing (S k) c'.
Proof.
  intros Hall Hk Hc. pose proof (all_claimed _ _ _ Hall Hc) as Ho.
  exists (consume (length items + 1 + k) c). split.
  - unfold take_positional. rewrite (ov_count _ _ Ho).
    assert (Ht : canonical_tokens !! (length items + 1 + k)%nat = Some t).
    { unfold canonical_tokens. rewrite lookup_app_r by (rewrite length_fmap; lia).
      rewrite length_fmap. replace (length items + 1 + k - length items)%nat with (S k) by lia. exact Hk. }
    pose proof (lookup_lt_Some _ _ _ Ht) as Hlt.
    replace (length canonical_tokens) with
      ((length items + 1 + k) + S (length canonical_tokens - (length items + 1 + k) - 1))%nat by lia.
    rewrite seq_app, taken_prefix_skipped.
    + cbn [seq Nat.add take_positional_in]. rewrite (ov_taken _ _ Ho), Nat.ltb_irrefl.
      rewrite (ov_tokens _ _ Ho), Ht. unfold after_terminator. rewrite (ov_terminator _ _ Ho).
      rewrite (proj2 (Nat.ltb_lt _ _)) by lia. reflexivity.
    + intros i Hi%elem_of_seq. rewrite (ov_taken _ _ Ho). apply Nat.ltb_lt. lia.
  - exists (fun i => (i <? length items + 1 + S k)%nat). split_and!; [| |auto].
    + apply (over_ext (fun j => Nat.eqb (length items + 1 + k) j || (j <? length items + 1 + k)%nat));
        [|now apply over_consume].
      intros j. destruct (Nat.eqb_spec (length items + 1 + k) j), (Nat.ltb_spec j (length items + 1 + k)),
        (Nat.ltb_spec j (length items + 1 + S k)); cbn; auto; lia.
    + intros n. rewrite Hall. apply owed_nil. destruct (awaiting _ n) as [|i l] eqn:Ea; [reflexivity|].
      destruct (proj1 (awaiting_in _ n i) ltac:(rewrite Ea; now left)) as (Ht & v & Hi).
      apply lookup_lt_Some in Hi. apply Nat.ltb_ge in Ht. lia.
Qed.

Lemma claim_no_positional owing c : (forall n, owing n = []) -> claims owing (length positionals) c ->
  take_positional c = (inr None, c).
Proof.
  intros Hall Hc. pose proof (all_claimed _ _ _ Hall Hc) as Ho.
  unfold take_positional. rewrite (ov_count _ _ Ho), <- (app_nil_r (seq _ _)), taken_prefix_skipped; [reflexivity|].
  intros i Hi%elem_of_seq. rewrite (ov_taken _ _ Ho). apply Nat.ltb_lt.
  unfold canonical_tokens in Hi. rewrite length_app, length_fmap in Hi. cbn in Hi. lia.
Qed.

Lemma claims_finish owing c : (forall n, owing n = []) -> claims owing (length positionals) c ->
  fst (finish c) = inr tt.
Proof.
  intros Hall Hc. pose proof (all_claimed _ _ _ Hall Hc) as Ho.
  unfold finish. rewrite finish_in_iff by apply NoDup_seq.
  apply forallb_forall. intros i Hi%List.in_seq. rewrite (ov_count _ _ Ho) in Hi.
  unfold accounted. rewrite (ov_taken _ _ Ho). rewrite (proj2 (Nat.ltb_lt _ _)); [reflexivity|].
  unfold canonical_tokens in Hi. rewrite length_app, length_fmap in Hi. cbn in Hi. lia.
Qed.

(** At first everything on the line is owed. *)
Lemma named_indices n : forall l off, (forall j, items !! (off + j)%nat = l !! j) ->
  omap (fun i => snd <$> items !! i) (List.filter (is_named n) (seq off (length l)))
  = snd <$> filter (fun it => fst it = n) l.
Proof.
  induction l as [|it l IH]; intros off H; [reflexivity|]. cbn [length seq List.filter].
  pose proof (H O) as H0. rewrite Nat.add_0_r in H0. cbn in H0.
  specialize (IH (S off) ltac:(intros j; etransitivity; [|exact (H (S j))]; f_equal; lia)).
  rewrite filter_cons. unfold is_named at 1. rewrite H0. destruct (decide (fst it = n)) as [He|He].
  - rewrite bool_decide_true by exact He. cbn. rewrite H0. cbn. f_equal. exact IH.
  - rewrite bool_decide_false by exact He. exact IH.
Qed.

Lemma owed_start taken n : (forall i, (i < length items)%nat -> taken i = false) ->
  owed taken n = snd <$> filter (fun it => fst it = n) items.
Proof.
  intros Ht. unfold owed. rewrite <- (named_indices n items 0) by reflexivity. f_equal. unfold awaiting.
  apply filter_ext_in. intros i Hi%List.in_seq. now rewrite Ht by lia.
Qed.

(** The loops that take one value after the other need no more steps than there are tokens. *)
Lemma claims_count owing k c : claims owing k c ->
  count_tokens c = (length items + 1 + length positionals)%nat
  /\ forall n, (length (owing n) <= length items)%nat.
Proof.
  intros (taken & Ho & Howed & _). split.
  - rewrite (ov_count _ _ Ho). unfold canonical_tokens. rewrite length_app, length_fmap. cbn. lia.
  - intros n. rewrite <- Howed. unfold owed.
    assert (Hom : forall l : list nat, (length (omap (fun i => snd <$> items !! i) l) <= length l)%nat).
    { induction l as [|i l IH]; cbn; [lia|]. destruct (snd <$> items !! i); cbn; lia. }
    etransitivity; [apply Hom|]. unfold awaiting. etransitivity; [apply List.filter_length_le|].
    rewrite length_seq. lia.
Qed.
End Canonical.

(** The round trip of a command line. The values of a derived struct, written
    as one word per option, flag or occurrence that is given, in any order that
    keeps the words of one option in theirs, the terminator and the positionals,
    every word quoted, are parsed back to exactly those values
    ([canonical_line_parses]). *)

Section RoundTrip.
Context {V : Type}.
Local Notation Argument := (Argument V).
Local Notation Value := (Value V).

(** What is given for an argument: a flag or not, a flag any number of times, or words. *)
Inductive Given := GFlag (present : bool) | GCount (n : nat) | GWords (raws : list (list Z)).

(** The value a field gets from what is given. *)
Inductive meaning (a : Argument) : Given -> Value -> Prop :=
| m_flag sf b : form a = AsBool sf -> (required_option a = true -> b = true) ->
    meaning a (GFlag b) (VBool (if sf then negb b else b))
| m_count n : form a = AsCount -> (required_option a = true -> n <> O) ->
    meaning a (GCount n) (VCount (Z.min (Z.of_nat n) u8_max))
| m_some raw v : form a = AsOptional -> f_from_arg a raw = inr v ->
    meaning a (GWords [raw]) (VOptional (Some v))
| m_none : form a = AsOptional -> required_option a = false ->
    meaning a (GWords []) (VOptional None)
| m_repeated raws vs capacity : form a = AsRepeated capacity ->
    Forall2 (fun raw v => f_from_arg a raw = inr v) raws vs ->
    (forall n, capacity = Some n -> (length vs <= n)%nat) ->
    (required_option a = true -> vs <> []) ->
    meaning a (GWords raws) (VRepeated vs)
| m_plain raw v : form a = AsPlain -> f_from_arg a raw = inr v ->
    meaning a (GWords [raw]) (VOne v)
| m_default v : form a = AsPlain -> f_default a = Some v ->
    meaning a (GWords []) (VOne v).

(** The occurrences of an option; the words of a positional. *)
Definition occurrences (g : Given) : list (option (list Z)) :=
  match g with
  | GFlag b => if b then [None] else []
  | GCount n => replicate n None
  | GWords raws => Some <$> raws
  end.
Definition words_of (p : Argument * Given) : list (list Z) :=
  match p.2 with GWords raws => raws | _ => [] end.

Definition items_for (p : Argument * Given) : list (list Z * option (list Z)) :=
  match f_long p.1 with Some l => pair l <$> occurrences p.2 | None => [] end.
Definition items_of (gs : list (Argument * Given)) : list (list Z * option (list Z)) :=
  filter (fun p => is_option p.1 = true) gs ≫= items_for.
Definition positionals_of (gs : list (Argument * Given)) : list (list Z) :=
  filter (fun p => is_option p.1 = false) gs ≫= words_of.

(** What the items of a name hold, in the order of the line. *)
Definition named (name : list Z) (items : list (list Z * option (list Z))) : list (option (list Z)) :=
  snd <$> filter (fun it => fst it = name) items.

(** A positional that takes what is left, or that got nothing: nothing may
    follow it, or it would take that. *)
Definition hungry (p : Argument * Given) : bool :=
  match form p.1 with AsRepeated _ => true | _ => bool_decide (words_of p = []) end.
Fixpoint in_turn (ps : list (Argument * Given)) : Prop :=
  match ps with
  | [] => True
  | p :: ps => (hungry p = true -> ps ≫= words_of = []) /\ in_turn ps
  end.

(** All the names an option answers to. *)
Definition names (a : Argument) : list (list Z) :=
  option_list (f_long a) ++ f_aliases a ++ f_visible a.
Definition all_names (gs : list (Argument * Given)) : list (list Z) :=
  gs ≫= (fun p => names p.1).

Definition argument_ok (a : Argument) : Prop :=
  Forall name_ok (names a) /\ (is_option a = true -> f_long a <> None).

(** *** Items and names *)

Lemma named_app n l1 l2 : named n (l1 ++ l2) = named n l1 ++ named n l2.
Proof. unfold named. now rewrite filter_app, fmap_app. Qed.

Lemma named_pairs n l xs : named n (pair l <$> xs) = if bool_decide (l = n) then xs else [].
Proof.
  unfold named. induction xs as [|x xs IH]; [now destruct (bool_decide _)|].
  cbn [fmap list_fmap]. rewrite filter_cons. cbn [fst].
  change (list_fmap _ _ (pair l) xs) with (pair l <$> xs).
  destruct (decide (l = n)) as [He|He]; cbn [fmap list_fmap].
  - change (list_fmap _ _ snd ?z) with (snd <$> z). rewrite IH. now rewrite bool_decide_true.
  - rewrite IH. now rewrite bool_decide_false.
Qed.

Lemma long_in_names a l : f_long a = Some l -> l ∈ names a.
Proof. intros H. unfold names. rewrite H. left. Qed.

Lemma items_of_cons p gs : items_of (p :: gs) = (if is_option p.1 then items_for p else []) ++ items_of gs.
Proof.
  unfold items_of. rewrite filter_cons. destruct (is_option p.1); [|rewrite decide_False by done]; reflexivity.
Qed.

Lemma named_foreign n gs : (forall p, p ∈ gs -> f_long p.1 <> Some n) -> named n (items_of gs) = [].
Proof.
  induction gs as [|p gs IH]; intros H; [reflexivity|]. rewrite items_of_cons, named_app, IH.
  2: { intros q Hq. apply H. now right. }
  rewrite app_nil_r. destruct (is_option p.1); [|reflexivity]. unfold items_for.
  specialize (H p ltac:(left)). destruct (f_long p.1) as [l|]; [|reflexivity].
  rewrite named_pairs, bool_decide_false; [reflexivity|]. congruence.
Qed.

Lemma all_names_cons p gs : all_names (p :: gs) = names p.1 ++ all_names gs.
Proof. reflexivity. Qed.

Lemma names_in gs p n : p ∈ gs -> n ∈ names p.1 -> n ∈ all_names gs.
Proof. intros Hp Hn. unfold all_names. apply list_elem_of_bind. eauto. Qed.

Lemma named_own gs p l : NoDup (all_names gs) -> p ∈ gs -> is_option p.1 = true -> f_long p.1 = Some l ->
  named l (items_of gs) = occurrences p.2.
Proof.
  intros Hnd Hp Ho Hl. induction gs as [|q gs IH]; [now apply elem_of_nil in Hp|].
  rewrite all_names_cons in Hnd. apply NoDup_app in Hnd as (_ & H2 & H3).
  rewrite items_of_cons, named_app. apply elem_of_cons in Hp as [->|Hp].
  - rewrite Ho. unfold items_for. rewrite Hl, named_pairs, bool_decide_true by reflexivity.
    rewrite named_foreign; [apply app_nil_r|]. intros r Hr Hlr.
    apply (H2 l); [now apply long_in_names|]. eapply names_in; [exact Hr|now apply long_in_names].
  - rewrite IH by assumption. destruct (is_option q.1); [|reflexivity]. unfold items_for.
    destruct (f_long q.1) as [m|] eqn:Em; [|reflexivity]. rewrite named_pairs, bool_decide_false; [reflexivity|].
    intros ->. apply (H2 l); [now apply long_in_names|]. eapply names_in; [exact Hp|now apply long_in_names].
Qed.

Lemma named_alias gs p n : NoDup (all_names gs) -> p ∈ gs -> n ∈ f_aliases p.1 ++ f_visible p.1 ->
  named n (items_of gs) = [].
Proof.
  intros Hnd Hp Hn. apply named_foreign. intros q Hq Hl.
  induction gs as [|g gs IH]; [now apply elem_of_nil in Hp|].
  rewrite all_names_cons in Hnd. apply NoDup_app in Hnd as (H1 & H2 & H3).
  assert (Hn' : n ∈ names p.1) by (unfold names; apply elem_of_app; now right).
  apply elem_of_cons in Hp as [->|Hp], Hq as [->|Hq]; auto.
  - unfold names in H1. rewrite Hl in H1. cbn in H1. inversion H1; contradiction.
  - apply (H2 n Hn'). eapply names_in; [exact Hq|now apply long_in_names].
  - apply (H2 n); [now apply long_in_names|]. now apply (names_in gs p).
Qed.

(** The items of a line come with names of its options only. *)
Lemma items_from gs items it : (forall n, named n items = named n (items_of gs)) -> it ∈ items ->
  exists p, p ∈ gs /\ is_option p.1 = true /\ f_long p.1 = Some (fst it).
Proof.
  intros Hn Hit.
  assert (Hin : it.2 ∈ named (fst it) items).
  { unfold named. apply list_elem_of_fmap. exists it. split; [reflexivity|]. now apply list_elem_of_filter. }
  rewrite Hn in Hin. unfold named in Hin. apply list_elem_of_fmap in Hin as (it' & _ & Hin).
  apply list_elem_of_filter in Hin as [He Hin]. unfold items_of in Hin.
  apply list_elem_of_bind in Hin as (p & Hi & Hp). apply list_elem_of_filter in Hp as [Ho Hp].
  exists p. do 2 (split; [assumption|]). unfold items_for in Hi. destruct (f_long p.1) as [l|]; [|now apply elem_of_nil in Hi].
  apply list_elem_of_fmap in Hi as (x & -> & _). cbn in He. now rewrite He.
Qed.

(** *** One field *)

Section Fields.
Context (items : list (list Z * option (list Z))) (positionals : list (list Z)).
Context (Hnames : Forall (fun it => name_ok (fst it)) items).
Local Notation claims := (claims items positionals).

(** An option that finds nothing on the line but under its long name. *)
Record asks (owing : list Z -> list (option (list Z))) (a : Argument) (l : list Z) : Prop := {
  as_option : is_option a = true;
  as_long : f_long a = Some l;
  as_name : name_ok l;
  as_names : Forall name_ok (f_aliases a ++ f_visible a);
  as_aliases : forall n, n ∈ f_aliases a ++ f_visible a -> owing n = [] }.

Local Lemma option_asks_next owing a l xs : asks owing a l -> l ∉ f_aliases a ++ f_visible a -> asks (<[l:=xs]> owing) a l.
Proof.
  intros [H1 H2 H3 H4 H5] Hl. split; auto. intros n Hn. rewrite fn_lookup_insert_ne by (intros ->; contradiction). auto.
Qed.

Local Lemma raw_present owing a l k c raw rest : asks owing a l -> owing l = Some raw :: rest ->
  claims owing k c -> exists c', take_raw a c = (inr (Some raw), c') /\ claims (<[l:=rest]> owing) k c'.
Proof.
  intros [Ho Hl Hn _ _] Hw Hc. unfold take_raw, take_option_aliases_with_visible. rewrite Ho, Hl.
  destruct (claim_value items positionals Hnames owing k c l raw rest (f_short a) (f_label a) (f_allow_hyphen a) Hn Hw Hc)
    as (c' & -> & Hc'). eauto.
Qed.

Local Lemma raw_absent owing a l k c : asks owing a l -> owing l = [] -> claims owing k c ->
  take_raw a c = (inr None, c).
Proof.
  intros [Ho Hl Hn Hns Has] Hw Hc. unfold take_raw, take_option_aliases_with_visible. rewrite Ho, Hl.
  rewrite (claim_no_value items positionals Hnames owing k) by assumption.
  now apply (claim_no_alias items positionals Hnames owing k).
Qed.

Local Lemma flag_found owing a l k c (b : bool) : asks owing a l -> owing l = (if b then [None] else []) ->
  claims owing k c -> exists c', take_present a c = (inr b, c') /\ claims (<[l:=[]]> owing) k c'.
Proof.
  intros [Ho Hl Hn Hns Has] Hw Hc.
  unfold take_present, p_get, take_flag_aliases_with_visible, take_flag_aliases. rewrite Hl. destruct b.
  - destruct (claim_flag items positionals Hnames owing k c l [] (f_short a) Hn Hw Hc) as (c' & -> & Hc'). eauto.
  - apply Forall_app in Hns as [Hn1 Hn2].
    rewrite (claim_no_flag items positionals Hnames owing k), !(claim_no_flags items positionals Hnames owing k)
      by (try assumption; intros n Hx; apply Has, elem_of_app; auto).
    exists c. split; [reflexivity|]. now apply claims_none.
Qed.

Local Lemma count_found owing a l k c n : asks owing a l -> owing l = replicate n None -> claims owing k c ->
  exists c', take_flag_count_aliases_with_visible (f_long a) (f_short a) (f_aliases a) (f_visible a) c
      = (Z.min (Z.of_nat n) u8_max, c') /\ claims (<[l:=[]]> owing) k c'.
Proof.
  intros [Ho Hl Hn Hns Has] Hw Hc. unfold take_flag_count_aliases_with_visible, take_flag_count_aliases. rewrite Hl.
  destruct (claim_count items positionals Hnames owing k c l n (f_short a) Hn Hw Hc) as (c' & -> & Hc' & _).
  assert (Hz : forall m, m ∈ f_aliases a ++ f_visible a -> (<[l:=[]]> owing : list Z -> _) m = []).
  { intros m Hm. destruct (decide (l = m)) as [<-|Hne]; [apply fn_lookup_insert|].
    rewrite fn_lookup_insert_ne by exact Hne. auto. }
  apply Forall_app in Hns as [Hn1 Hn2]. exists c'. split; [|exact Hc'].
  assert (Hb : 0 <= Z.min (Z.of_nat n) u8_max <= u8_max) by (unfold u8_max; lia).
  rewrite !(claim_no_counts items positionals Hnames (<[l:=[]]> owing) k); try assumption; auto;
    intros m Hm; apply Hz, elem_of_app; auto.
Qed.

Local Lemma all_found a l capacity k : l ∉ f_aliases a ++ f_visible a -> forall raws vs values fuel owing c,
  asks owing a l -> owing l = Some <$> raws -> claims owing k c ->
  Forall2 (fun raw v => f_from_arg a raw = inr v) raws vs ->
  (forall n, capacity = Some n -> (length values + length vs <= n)%nat) -> (length raws <= fuel)%nat ->
  exists c', take_all fuel a capacity values c = (inr (values ++ vs), c') /\ claims (<[l:=[]]> owing) k c'.
Proof.
  intros Hal. induction raws as [|raw raws IH]; intros vs values fuel owing c Ha Hw Hc Hvs Hcap Hf;
    inversion Hvs as [|? v ? vs' Hv Hvs']; subst.
  - exists c. assert (Hr : take_raw a c = (inr None, c)) by (eapply raw_absent; eassumption).
    rewrite app_nil_r. split; [|now apply claims_none]. destruct fuel; cbn [take_all]; unfold p_bind; now rewrite Hr.
  - destruct fuel as [|fuel]; [cbn in Hf; lia|].
    destruct (raw_present owing a l k c raw (fmap (M := list) Some raws) Ha Hw Hc) as (c1 & Hr & Hc1).
    destruct (IH vs' (values ++ [v]) fuel (<[l:=(fmap (M := list) Some raws)]> owing) c1) as (c2 & Hr2 & Hc2).
    + now apply option_asks_next.
    + apply fn_lookup_insert.
    + exact Hc1.
    + exact Hvs'.
    + intros n Hn. specialize (Hcap n Hn). rewrite length_app. cbn in *. lia.
    + cbn in Hf. lia.
    + exists c2. split.
      * cbn [take_all]. unfold p_bind at 1. rewrite Hr. unfold convert. rewrite Hv. unfold p_bind, p_ret.
        assert ((match capacity with Some n => (length values <? n)%nat | None => true end) = true) as ->.
        { destruct capacity as [n|]; [|reflexivity]. specialize (Hcap n eq_refl). cbn in Hcap. apply Nat.ltb_lt. lia. }
        rewrite Hr2, <- app_assoc. reflexivity.
      * revert Hc2. apply claims_ext. intros m. destruct (decide (l = m)) as [<-|Hne];
          [now rewrite !fn_lookup_insert|now rewrite !fn_lookup_insert_ne].
Qed.

Local Lemma field_option p v owing k c l : asks owing p.1 l -> l ∉ f_aliases p.1 ++ f_visible p.1 ->
  meaning p.1 p.2 v -> owing l = occurrences p.2 -> claims owing k c ->
  exists c', parse_field (FArgument p.1) c = (inr v, c') /\ claims (<[l:=[]]> owing) k c'.
Proof.
  intros Ha Hal Hm Hw Hc. destruct p as [a g]. cbn [fst snd parse_field] in *. unfold parse_argument.
  destruct Hm as [sf b Hf Hreq|n Hf Hreq|raw v Hf Hv|Hf Hreq|raws vs capacity Hf Hvs Hcap Hreq|raw v Hf Hv|v Hf Hd];
    rewrite Hf; cbn [occurrences fmap list_fmap] in Hw; unfold p_bind, p_get.
  - destruct (flag_found owing a l k c b Ha Hw Hc) as (c' & -> & Hc'). exists c'. split; [|exact Hc'].
    destruct (required_option a); [rewrite Hreq by reflexivity|]; reflexivity.
  - destruct (count_found owing a l k c n Ha Hw Hc) as (c' & -> & Hc'). exists c'. split; [|exact Hc'].
    destruct (required_option a); cbn [andb]; [|reflexivity].
    assert ((Z.min (Z.of_nat n) u8_max =? 0) = false) as ->; [|reflexivity].
    specialize (Hreq eq_refl). apply Z.eqb_neq. unfold u8_max. lia.
  - destruct (raw_present owing a l k c raw [] Ha Hw Hc) as (c' & -> & Hc'). exists c'. unfold convert. now rewrite Hv.
  - rewrite (raw_absent owing a l k c Ha Hw Hc), Hreq. exists c. split; [reflexivity|]. now apply claims_none.
  - pose proof (claims_count _ _ _ _ _ Hc) as [Hcount Hlen]. specialize (Hlen l). rewrite Hw, length_fmap in Hlen.
    destruct (all_found a l capacity k Hal raws vs [] (count_tokens c) owing c Ha Hw Hc Hvs Hcap) as (c' & -> & Hc'); [lia|].
    exists c'. split; [|exact Hc']. cbn [app]. destruct (required_option a); cbn [andb]; [|reflexivity].
    destruct vs; [now destruct (Hreq eq_refl)|reflexivity].
  - destruct (raw_present owing a l k c raw [] Ha Hw Hc) as (c' & -> & Hc'). exists c'. unfold convert. now rewrite Hv.
  - rewrite (raw_absent owing a l k c Ha Hw Hc), Hd. exists c. split; [reflexivity|]. now apply claims_none.
Qed.

(** *** Positional fields *)

Local Lemma raw_positional (a : Argument) owing k c raw : is_option a = false -> (forall n, owing n = []) ->
  positionals !! k = Some raw -> claims owing k c ->
  exists c', take_raw a c = (inr (Some raw), c') /\ claims owing (S k) c'.
Proof. intros Ho Hall Hk Hc. unfold take_raw. rewrite Ho. exact (claim_positional _ _ _ _ _ _ Hall Hk Hc). Qed.

Local Lemma raw_no_positional (a : Argument) owing c : is_option a = false -> (forall n, owing n = []) ->
  claims owing (length positionals) c -> take_raw a c = (inr None, c).
Proof. intros Ho Hall Hc. unfold take_raw. rewrite Ho. exact (claim_no_positional _ _ _ _ Hall Hc). Qed.

Local Lemma drop_next {A} k (x : A) xs l : drop k l = x :: xs -> l !! k = Some x /\ drop (S k) l = xs.
Proof.
  intros H. split.
  - rewrite <- (Nat.add_0_r k), <- lookup_drop, H. reflexivity.
  - replace (S k) with (k + 1)%nat by lia. rewrite <- drop_drop, H. reflexivity.
Qed.

Local Lemma drop_end {A} k (l : list A) : (k <= length l)%nat -> drop k l = [] -> k = length l.
Proof. intros Hk H. apply (f_equal length) in H. rewrite length_drop in H. cbn in H. lia. Qed.

Local Lemma all_positional (a : Argument) capacity owing : is_option a = false -> (forall n, owing n = []) ->
  forall raws vs values fuel k c, drop k positionals = raws -> (k <= length positionals)%nat -> claims owing k c ->
  Forall2 (fun raw v => f_from_arg a raw = inr v) raws vs ->
  (forall n, capacity = Some n -> (length values + length vs <= n)%nat) -> (length raws <= fuel)%nat ->
  exists c', take_all fuel a capacity values c = (inr (values ++ vs), c') /\ claims owing (length positionals) c'.
Proof.
  intros Ho Hall. induction raws as [|raw raws IH]; intros vs values fuel k c Hk Hle Hc Hvs Hcap Hf;
    inversion Hvs as [|? v ? vs' Hv Hvs']; subst.
  - apply drop_end in Hk as ->; [|exact Hle]. exists c.
    assert (Hr : take_raw a c = (inr None, c)) by (eapply raw_no_positional; eassumption).
    rewrite app_nil_r. split; [|exact Hc]. destruct fuel; cbn [take_all]; unfold p_bind; now rewrite Hr.
  - destruct fuel as [|fuel]; [cbn in Hf; lia|]. apply drop_next in Hk as [Hk Hdrop].
    pose proof (lookup_lt_Some _ _ _ Hk) as Hlt.
    destruct (raw_positional a owing k c raw Ho Hall Hk Hc) as (c1 & Hr & Hc1).
    destruct (IH vs' (values ++ [v]) fuel (S k) c1) as (c2 & Hr2 & Hc2).
    + exact Hdrop.
    + lia.
    + exact Hc1.
    + exact Hvs'.
    + intros n Hn. specialize (Hcap n Hn). rewrite length_app. cbn in *. lia.
    + cbn in Hf. lia.
    + exists c2. split; [|exact Hc2].
      cbn [take_all]. unfold p_bind at 1. rewrite Hr. unfold convert. rewrite Hv. unfold p_bind, p_ret.
      assert ((match capacity with Some n => (length values <? n)%nat | None => true end) = true) as ->.
      { destruct capacity as [n|]; [|reflexivity]. specialize (Hcap n eq_refl). cbn in Hcap. apply Nat.ltb_lt. lia. }
      rewrite Hr2, <- app_assoc. reflexivity.
Qed.

(** The next positional field of a line whose options are all taken. *)
Local Lemma field_positional p v owing k c rest : is_option p.1 = false -> (forall n, owing n = []) ->
  meaning p.1 p.2 v -> drop k positionals = words_of p ++ rest -> (hungry p = true -> rest = []) ->
  (k <= length positionals)%nat -> claims owing k c ->
  exists c', parse_field (FArgument p.1) c = (inr v, c')
    /\ claims owing (k + length (words_of p)) c' /\ drop (k + length (words_of p)) positionals = rest
    /\ (k + length (words_of p) <= length positionals)%nat.
Proof.
  intros Ho Hall Hm Hd Hh Hle Hc. destruct p as [a g]. unfold hungry, words_of in *. cbn [fst snd parse_field] in *.
  unfold parse_argument.
  assert (Hopt : forall sf, form a <> AsBool sf /\ form a <> AsCount).
  { intros sf. unfold form. rewrite Ho. cbn [andb]. now destruct (f_type a). }
  destruct Hm as [sf b Hf Hreq|n Hf Hreq|raw v Hf Hv|Hf Hreq|raws vs capacity Hf Hvs Hcap Hreq|raw v Hf Hv|v Hf Hdef];
    try (destruct (Hopt true); congruence); [now destruct (Hopt sf)|..]; rewrite Hf in *; unfold p_bind;
    cbn [app length] in *.
  - apply drop_next in Hd as [Hk Hdrop]. pose proof (lookup_lt_Some _ _ _ Hk).
    destruct (raw_positional a owing k c raw Ho Hall Hk Hc) as (c' & -> & Hc').
    exists c'. unfold convert. rewrite Hv, Nat.add_1_r. split_and!; auto; lia.
  - rewrite (Hh eq_refl) in *. apply drop_end in Hd as ->; [|exact Hle].
    rewrite (raw_no_positional a owing c Ho Hall Hc), Hreq. exists c. rewrite Nat.add_0_r, drop_all. auto.
  - rewrite (Hh eq_refl), app_nil_r in *. pose proof (claims_count _ _ _ _ _ Hc) as [Hcount _].
    assert (Hlr : length raws = (length positionals - k)%nat) by (rewrite <- Hd; apply length_drop).
    destruct (all_positional a capacity owing Ho Hall raws vs [] (count_tokens c) k c Hd Hle Hc Hvs Hcap)
      as (c' & -> & Hc'); [lia|].
    exists c'. replace (k + length raws)%nat with (length positionals) by lia. rewrite drop_all.
    split_and!; auto. cbn [app]. destruct (required_option a); cbn [andb]; [|reflexivity].
    destruct vs; [now destruct (Hreq eq_refl)|reflexivity].
  - apply drop_next in Hd as [Hk Hdrop]. pose proof (lookup_lt_Some _ _ _ Hk).
    destruct (raw_positional a owing k c raw Ho Hall Hk Hc) as (c' & -> & Hc').
    exists c'. unfold convert. rewrite Hv, Nat.add_1_r. split_and!; auto; lia.
  - rewrite (Hh eq_refl) in *. apply drop_end in Hd as ->; [|exact Hle].
    rewrite (raw_no_positional a owing c Ho Hall Hc), Hdef. exists c. rewrite Nat.add_0_r, drop_all. auto.
Qed.

(** *** All fields *)

(** A field with its place, what is given and its value. *)
Local Notation Triple := (nat * (Argument * Given) * Value)%type.
Definition labelled (t : Triple) : nat * Field V := (t.1.1, FArgument (t.1.2).1).
Definition result (t : Triple) : nat * Value := (t.1.1, t.2).
Definition long_of (t : Triple) : list (list Z) := option_list (f_long (t.1.2).1).

(** What the options of [ts] find on the line: an option its own occurrences. *)
Definition ready (owing : list Z -> list (option (list Z))) (ts : list Triple) : Prop :=
  Forall (fun t : Triple => is_option (t.1.2).1 = true /\ argument_ok (t.1.2).1 /\ meaning (t.1.2).1 (t.1.2).2 t.2
    /\ (forall l, f_long (t.1.2).1 = Some l -> owing l = occurrences (t.1.2).2)
    /\ forall n, n ∈ f_aliases (t.1.2).1 ++ f_visible (t.1.2).1 -> owing n = []) ts.

Local Lemma ready_next owing l ts : l ∉ ts ≫= long_of -> ready owing ts -> ready (<[l:=[]]> owing) ts.
Proof.
  intros Hl. unfold ready. rewrite !Forall_forall. intros H t Ht. destruct (H t Ht) as (H1 & H2 & H3 & H4 & H5).
  do 3 (split; [assumption|]). split.
  - intros m Hm. rewrite fn_lookup_insert_ne; [auto|]. intros ->. apply Hl. apply list_elem_of_bind.
    exists t. split; [|exact Ht]. unfold long_of. rewrite Hm. left.
  - intros n Hn. destruct (decide (l = n)) as [->|Hne]; [apply fn_lookup_insert|]. rewrite fn_lookup_insert_ne; auto.
Qed.

Local Lemma options_parse ts : forall parsed owing k c, ready owing ts ->
  NoDup (ts ≫= (fun t => names (t.1.2).1)) -> claims owing k c ->
  forall rest, exists owing' c', parse_fields ((labelled <$> ts) ++ rest) parsed c
      = parse_fields rest (reverse (result <$> ts) ++ parsed) c'
    /\ claims owing' k c' /\ forall n, owing' n = if bool_decide (n ∈ ts ≫= long_of) then [] else owing n.
Proof.
  induction ts as [|t ts IH]; intros parsed owing k c Hr Hnd Hc rest; [now exists owing, c|].
  inversion Hr as [|? ? (Ho & [Hns Hlong] & Hm & Hown & Hal) Hr']; subst.
  cbn [mbind list_bind] in Hnd. apply NoDup_app in Hnd as (H1 & H2 & H3).
  destruct (f_long (t.1.2).1) as [l|] eqn:El; [|now destruct (Hlong Ho)].
  assert (Hlo : long_of t = [l]) by (unfold long_of; now rewrite El).
  assert (Hnames' : names (t.1.2).1 = l :: f_aliases (t.1.2).1 ++ f_visible (t.1.2).1) by (unfold names; now rewrite El).
  rewrite Hnames' in H1, H2, Hns. inversion H1 as [|? ? Hl1 _]; subst. inversion Hns as [|? ? Hl2 Hl3]; subst.
  destruct (field_option (t.1.2) t.2 owing k c l) as (c1 & Hf & Hc1);
    [now split|exact Hl1|exact Hm|now apply Hown|exact Hc|].
  assert (Hsub : l ∉ ts ≫= long_of).
  { intros (t' & Hx & Ht')%list_elem_of_bind. apply (H2 l ltac:(left)). apply list_elem_of_bind. exists t'.
    split; [|exact Ht']. unfold long_of in Hx. unfold names. apply elem_of_app. now left. }
  destruct (IH (result t :: parsed) (<[l:=[]]> owing) k c1 (ready_next _ _ _ Hsub Hr') H3 Hc1 rest)
    as (owing' & c2 & Hp2 & Hc2 & Hfin).
  exists owing', c2. split; [|split; [exact Hc2|]].
  - cbn [fmap list_fmap app parse_fields labelled fst]. unfold p_bind at 1. rewrite Hf.
    change (list_fmap _ _ result ts) with (result <$> ts). rewrite reverse_cons, <- app_assoc. exact Hp2.
  - intros n. rewrite Hfin. cbn [mbind list_bind]. rewrite Hlo. change (list_bind _ _ long_of ts) with (ts ≫= long_of).
    destruct (decide (l = n)) as [<-|Hne].
    + rewrite fn_lookup_insert, (bool_decide_true (l ∈ [l] ++ _)) by left. now destruct (bool_decide _).
    + rewrite fn_lookup_insert_ne by exact Hne.
      assert (bool_decide (n ∈ [l] ++ (ts ≫= long_of)) = bool_decide (n ∈ ts ≫= long_of)) as ->; [|reflexivity].
      apply bool_decide_ext. cbn. rewrite elem_of_cons. split; [intros [He|H]; [congruence|exact H]|auto].
Qed.

Local Lemma positionals_parse ts owing : (forall n, owing n = []) -> forall parsed k c,
  Forall (fun t : Triple => is_option (t.1.2).1 = false /\ meaning (t.1.2).1 (t.1.2).2 t.2) ts ->
  in_turn ((fun t : Triple => t.1.2) <$> ts) ->
  drop k positionals = ((fun t : Triple => t.1.2) <$> ts) ≫= words_of -> (k <= length positionals)%nat ->
  claims owing k c ->
  exists c', parse_fields (labelled <$> ts) parsed c = (inr (reverse (result <$> ts) ++ parsed), c')
    /\ claims owing (length positionals) c'.
Proof.
  intros Hall. induction ts as [|t ts IH]; intros parsed k c Hts Hturn Hd Hle Hc.
  - apply drop_end in Hd as ->; [|exact Hle]. now exists c.
  - inversion Hts as [|? ? (Ho & Hm) Hts']; subst. destruct Hturn as [Hh Hturn]. cbn in Hd.
    destruct (field_positional (t.1.2) t.2 owing k c _ Ho Hall Hm Hd Hh Hle Hc) as (c1 & Hf & Hc1 & Hd1 & Hle1).
    destruct (IH (result t :: parsed) _ c1 Hts' Hturn Hd1 Hle1 Hc1) as (c2 & Hp2 & Hc2).
    exists c2. split; [|exact Hc2]. cbn [fmap list_fmap parse_fields labelled fst]. unfold p_bind at 1. rewrite Hf.
    change (list_fmap _ _ result ts) with (result <$> ts). rewrite reverse_cons, <- app_assoc. exact Hp2.
Qed.
End Fields.

(** ** From fields to lines *)

Local Notation Triple := (nat * (Argument * Given) * Value)%type.

Lemma of_rank_labelled r (ts : list Triple) :
  of_rank r (labelled <$> ts) = labelled <$> filter (fun t => rank (labelled t).2 = r) ts.
Proof.
  unfold of_rank. induction ts as [|t ts IH]; [reflexivity|]. cbn [fmap list_fmap].
  rewrite !filter_cons. change (list_fmap _ _ labelled ts) with (labelled <$> ts).
  destruct (decide (rank (labelled t).2 = r)) as [H|H].
  - rewrite decide_True by (rewrite bool_decide_eq_true_2 by exact H; exact I). cbn. now f_equal.
  - rewrite decide_False by (rewrite bool_decide_eq_false_2 by exact H; exact (fun f => f)). exact IH.
Qed.

Lemma rank_labelled (t : Triple) :
  rank (labelled t).2 = if is_option (t.1.2).1 then 0%nat else 2%nat.
Proof. reflexivity. Qed.

Lemma filter_none {A} (Q : A -> Prop) `{!forall x, Decision (Q x)} (l : list A) :
  Forall (fun x => ~ Q x) l -> filter Q l = [].
Proof. induction 1 as [|x l Hx _ IH]; [reflexivity|]. now rewrite filter_cons_False. Qed.

Lemma ordered_labelled (ts : list Triple) :
  of_rank 0 (labelled <$> ts) ++ of_rank 1 (labelled <$> ts)
    ++ of_rank 2 (labelled <$> ts) ++ of_rank 3 (labelled <$> ts)
  = (labelled <$> filter (fun t : Triple => is_option (t.1.2).1 = true) ts)
    ++ (labelled <$> filter (fun t : Triple => is_option (t.1.2).1 = false) ts).
Proof.
  rewrite !of_rank_labelled.
  rewrite (filter_none (fun t => rank (labelled t).2 = 1%nat)), (filter_none (fun t => rank (labelled t).2 = 3%nat)).
  2, 3: apply Forall_forall; intros t _; rewrite rank_labelled; destruct (is_option _); discriminate.
  cbn [fmap list_fmap app]. rewrite app_nil_r. f_equal; f_equal; apply list_filter_iff;
    intros t; rewrite rank_labelled; destruct (is_option _); split; congruence.
Qed.

(** The fields in declaration order, with their places. *)
Definition triples (gs : list (Argument * Given)) (vs : list Value) : list Triple :=
  imap (fun i p => (i, p.1, p.2)) (zip gs vs).

Lemma triples_lookup gs vs i t : triples gs vs !! i = Some t <->
  exists p v, gs !! i = Some p /\ vs !! i = Some v /\ t = (i, p, v).
Proof.
  unfold triples. rewrite list_lookup_imap. rewrite fmap_Some. split.
  - intros ([p v] & Hz & ->). apply lookup_zip_Some in Hz as [Hp Hv]. eauto.
  - intros (p & v & Hp & Hv & ->). exists (p, v). split; [|reflexivity].
    now apply lookup_zip_Some.
Qed.

Lemma numbered_triples gs vs : length gs = length vs ->
  imap pair ((fun p => FArgument p.1) <$> gs) = labelled <$> triples gs vs.
Proof.
  intros Hl. apply list_eq. intros i. rewrite list_lookup_imap, !list_lookup_fmap.
  destruct (gs !! i) as [p|] eqn:Ep; cbn.
  - destruct (lookup_lt_is_Some_2 vs i) as [v Hv]; [rewrite <- Hl; eapply lookup_lt_Some, Ep|].
    rewrite (proj2 (triples_lookup gs vs i (i, p, v))) by eauto. reflexivity.
  - destruct (triples gs vs !! i) as [t|] eqn:Et; [|reflexivity].
    apply triples_lookup in Et as (q & v & Hq & _). congruence.
Qed.

(** *** Putting the struct together *)

Lemma omap_lookup_seq {A} (l : list A) (f : nat -> option A) off :
  (forall i, (i < length l)%nat -> f (off + i)%nat = l !! i) -> omap f (seq off (length l)) = l.
Proof.
  revert off. induction l as [|x l IH]; intros off Hf; [reflexivity|]. cbn [length seq omap list_omap].
  pose proof (Hf 0%nat ltac:(cbn; lia)) as H0. rewrite Nat.add_0_r in H0. rewrite H0. cbn.
  f_equal. apply (IH (S off)). intros i Hi. change (l !! i) with ((x :: l) !! S i).
  rewrite <- Hf by (cbn; lia). f_equal. lia.
Qed.

Lemma assemble_all (vs : list Value) parsed :
  (forall i v, (i, v) ∈ parsed -> vs !! i = Some v) ->
  (forall i, (i < length vs)%nat -> exists v, (i, v) ∈ parsed) ->
  assemble (length vs) parsed = VGroup vs.
Proof.
  intros Hv Hi. unfold assemble. f_equal. apply omap_lookup_seq. intros i Hlt. cbn [Nat.add].
  destruct (List.find (fun p => fst p =? i)%nat parsed) as [[j v]|] eqn:Ef.
  - apply find_some in Ef as [Hin Hj]. apply Nat.eqb_eq in Hj. cbn in Hj. subst j.
    cbn. symmetry. apply Hv. now apply list_elem_of_In.
  - destruct (Hi i Hlt) as [v Hin]. apply list_elem_of_In in Hin.
    pose proof (find_none _ _ Ef _ Hin) as Hn. cbn in Hn. now rewrite Nat.eqb_refl in Hn.
Qed.

(** ** The line *)

Context (gs : list (Argument * Given)) (vs : list Value).

(** The fields of the struct. *)
Definition fields_of : list (Field V) := (fun p => FArgument p.1) <$> gs.

(** What can be written on one line. *)
Record writable (items : list (list Z * option (list Z))) : Prop := {
  wr_arguments : Forall (fun p => argument_ok p.1) gs;
  wr_names : NoDup (all_names gs);
  wr_meaning : Forall2 (fun p v => meaning p.1 p.2 v) gs vs;
  wr_in_turn : in_turn (filter (fun p => is_option p.1 = false) gs);
  wr_items : forall name, named name items = named name (items_of gs);
  wr_chars : Forall (Forall (fun c => is_char c = true)) (canonical_tokens items (positionals_of gs));
  wr_count : (length (canonical_tokens items (positionals_of gs)) <= MAX_TOKENS)%nat }.

Definition written_line (items : list (list Z * option (list Z))) : list Z :=
  join_words ((fun t => quote_word (str_bytes t)) <$> canonical_tokens items (positionals_of gs)).

Section Line.
Context (items : list (list Z * option (list Z))) (W : writable items).
Let tokens := canonical_tokens items (positionals_of gs).

Local Lemma items_names : Forall (fun it => name_ok (fst it)) items.
Proof.
  apply Forall_forall. intros it Hit. destruct (items_from gs items it (wr_items _ W) Hit) as (p & Hp & _ & Hl).
  pose proof (wr_arguments _ W) as Hok. rewrite Forall_forall in Hok. destruct (Hok p Hp) as [Hn _].
  rewrite Forall_forall in Hn. now apply Hn, long_in_names.
Qed.

Local Lemma word_token i : arg (lexed_words (str_bytes <$> tokens)) i =
  Some (match tokens !! i with Some t => inr t | None => inl (parse_error UnexpectedArgument) end).
Proof.
  rewrite arg_words, list_lookup_fmap. destruct (tokens !! i) as [t|] eqn:Et; [|reflexivity].
  cbn. pose proof (Forall_lookup_1 _ _ _ _ (wr_chars _ W) Et) as Hc.
  now rewrite from_utf8_str_bytes.
Qed.

Local Lemma terminator_found rest : forall off indices,
  (forall i it, (off <= i)%nat -> items !! i = Some it -> item_token it <> TERMINATOR) ->
  indices = seq off (length items - off) ++ length items :: rest -> (off <= length items)%nat ->
  find_terminator (lexed_words (str_bytes <$> tokens)) indices = Some (length items).
Proof.
  intros off. remember (length items - off)%nat as n eqn:En. revert off En.
  induction n as [|n IH]; intros off En indices Hne -> Hle.
  - assert (off = length items) as -> by lia. cbn [seq app find_terminator]. rewrite word_token.
    unfold tokens, canonical_tokens. rewrite lookup_app_r by (rewrite length_fmap; lia).
    rewrite length_fmap, Nat.sub_diag. reflexivity.
  - cbn [seq app find_terminator]. rewrite word_token.
    destruct (lookup_lt_is_Some_2 items off ltac:(lia)) as [it Hit].
    unfold tokens. rewrite (item_lookup items _ off it Hit), bool_decide_false by exact (Hne off it (le_n _) Hit).
    apply (IH (S off)); [lia| |reflexivity|lia]. intros i it' Hi. apply Hne. lia.
Qed.

Local Lemma item_not_terminator i it : items !! i = Some it -> item_token it <> TERMINATOR.
Proof.
  intros Hit He. destruct (Forall_lookup_1 _ _ _ _ items_names Hit) as [Hne _].
  unfold item_token, TERMINATOR in He. cbn in He. injection He as He.
  apply app_eq_nil in He as [He _]. contradiction.
Qed.

Local Lemma claims_start : claims items (positionals_of gs) (fun n => named n (items_of gs)) 0
  (cursor_new (lexed_words (str_bytes <$> tokens))).
Proof.
  assert (Hlen : lexed_len (lexed_words (str_bytes <$> tokens)) = length tokens).
  { unfold lexed_len, lexed_words. cbn. now rewrite length_tokens_at, length_fmap. }
  assert (Ht : find_terminator (lexed_words (str_bytes <$> tokens)) (seq 0 (length tokens)) = Some (length items)).
  { eapply (terminator_found _ 0); [intros i it _; apply item_not_terminator| |lia].
    unfold tokens, canonical_tokens. rewrite length_app, length_fmap, seq_app, Nat.sub_0_r.
    cbn [length seq Nat.add]. reflexivity. }
  unfold cursor_new. rewrite Hlen, Ht. exists (Nat.eqb (length items)). split; [split|split].
  - intros i. unfold token. cbn [ac_line consume with_consumed]. now rewrite word_token.
  - exact Hlen.
  - reflexivity.
  - reflexivity.
  - intros i. rewrite is_consumed_consume, is_consumed_bit. cbn [consumed]. now rewrite Z.bits_0, orb_false_r.
  - intros n. rewrite <- (wr_items _ W). apply owed_start. intros i Hi. apply Nat.eqb_neq. lia.
  - intros i Hi. destruct (Nat.eqb_spec (length items) i), (Nat.ltb_spec i (length items + 1 + 0)); auto; lia.
Qed.

Local Lemma lengths : length gs = length vs.
Proof. exact (Forall2_length _ _ _ (wr_meaning _ W)). Qed.

Local Lemma triples_given : (fun t : Triple => t.1.2) <$> triples gs vs = gs.
Proof.
  apply list_eq. intros i. rewrite list_lookup_fmap.
  destruct (gs !! i) as [p|] eqn:Ep.
  - destruct (lookup_lt_is_Some_2 vs i) as [v Hv]; [rewrite <- lengths; eapply lookup_lt_Some, Ep|].
    rewrite (proj2 (triples_lookup gs vs i (i, p, v))) by eauto. reflexivity.
  - destruct (triples gs vs !! i) as [t|] eqn:Et; [|reflexivity].
    apply triples_lookup in Et as (q & v & Hq & _). congruence.
Qed.

Local Lemma triple_in t : t ∈ triples gs vs ->
  t.1.2 ∈ gs /\ meaning (t.1.2).1 (t.1.2).2 t.2 /\ vs !! t.1.1 = Some t.2.
Proof.
  intros [i Hi]%list_elem_of_lookup. apply triples_lookup in Hi as (p & v & Hp & Hv & ->). cbn.
  split_and!; [eapply list_elem_of_lookup_2, Hp| |exact Hv].
  exact (Forall2_lookup_lr _ _ _ _ _ _ (wr_meaning _ W) Hp Hv).
Qed.

Local Lemma nodup_options (ts : list Triple) Q `{!forall t, Decision (Q t)} :
  NoDup (ts ≫= (fun t => names (t.1.2).1)) -> NoDup (filter Q ts ≫= (fun t => names (t.1.2).1)).
Proof.
  induction ts as [|t ts IH]; intros Hnd; [constructor|]. cbn [mbind list_bind] in Hnd.
  apply NoDup_app in Hnd as (H1 & H2 & H3). specialize (IH H3). rewrite filter_cons.
  destruct (decide (Q t)) as [HQ|]; [|exact IH]. cbn [mbind list_bind].
  apply NoDup_app. split_and!; [exact H1|intros n Hn Hin|exact IH].
  apply (H2 n Hn). apply list_elem_of_bind in Hin as (t' & Hn' & Ht').
  apply list_elem_of_filter in Ht' as [_ Ht']. apply list_elem_of_bind. eauto.
Qed.

Local Lemma all_names_given (ts : list Triple) :
  all_names ((fun t : Triple => t.1.2) <$> ts) = ts ≫= (fun t => names (t.1.2).1).
Proof. induction ts as [|t ts IH]; [reflexivity|]. unfold all_names in *. cbn. now f_equal. Qed.

Local Lemma filter_given (Q : Argument * Given -> Prop) `{!forall p, Decision (Q p)}
    (QT : Triple -> Prop) `{!forall t, Decision (QT t)} (ts : list Triple) :
  (forall t, QT t <-> Q t.1.2) ->
  filter Q ((fun t : Triple => t.1.2) <$> ts) = (fun t : Triple => t.1.2) <$> filter QT ts.
Proof.
  intros Hiff. induction ts as [|t ts IH]; [reflexivity|]. cbn [fmap list_fmap]. rewrite !filter_cons.
  destruct (decide (Q t.1.2)) as [HQ|HQ], (decide (QT t)) as [HT|HT]; try (exfalso; now apply HQ, Hiff);
    try (exfalso; now apply HT, Hiff); [cbn; now f_equal|exact IH].
Qed.

Local Notation ts0 := (filter (fun t : Triple => is_option (t.1.2).1 = true) (triples gs vs)).
Local Notation ts2 := (filter (fun t : Triple => is_option (t.1.2).1 = false) (triples gs vs)).

Local Lemma positionals_given : positionals_of gs = ((fun t : Triple => t.1.2) <$> ts2) ≫= words_of
  /\ in_turn ((fun t : Triple => t.1.2) <$> ts2).
Proof.
  assert (He : filter (fun p => is_option p.1 = false) gs = (fun t : Triple => t.1.2) <$> ts2).
  { transitivity (filter (fun p => is_option p.1 = false) ((fun t : Triple => t.1.2) <$> triples gs vs));
      [now rewrite triples_given|]. now apply filter_given. }
  split; [unfold positionals_of; now rewrite He|]. rewrite <- He. exact (wr_in_turn _ W).
Qed.

Local Lemma options_ready : ready (fun n => named n (items_of gs)) ts0.
Proof.
  apply Forall_forall. intros t Ht. apply list_elem_of_filter in Ht as [Ho Ht].
  apply triple_in in Ht as (Hp & Hm & _). pose proof (wr_arguments _ W) as Hok. rewrite Forall_forall in Hok.
  split_and!; auto.
  - intros l Hl. now apply (named_own gs _ l (wr_names _ W)).
  - intros n Hn. now apply (named_alias gs (t.1.2) n (wr_names _ W)).
Qed.

Local Lemma options_all n : n ∉ ts0 ≫= long_of -> named n (items_of gs) = [].
Proof.
  intros Hn. destruct (named n (items_of gs)) as [|x l] eqn:E; [reflexivity|]. exfalso.
  assert (Hx : x ∈ named n (items_of gs)) by (rewrite E; left).
  unfold named in Hx. apply list_elem_of_fmap in Hx as (it & -> & Hit). apply list_elem_of_filter in Hit as [Hf Hit].
  destruct (items_from gs (items_of gs) it (fun _ => eq_refl) Hit) as (p & Hp & Ho & Hl). subst n. apply Hn.
  rewrite <- triples_given in Hp. apply list_elem_of_fmap in Hp as (t & -> & Ht).
  apply list_elem_of_bind. exists t. split; [unfold long_of; rewrite Hl; left|]. now apply list_elem_of_filter.
Qed.

Local Lemma parsed_all i v : (i, v) ∈ reverse (result <$> ts2) ++ reverse (result <$> ts0) ++ [] ->
  vs !! i = Some v.
Proof.
  rewrite app_nil_r, elem_of_app, !elem_of_reverse, !list_elem_of_fmap.
  intros [(t & He & Ht)|(t & He & Ht)]; apply list_elem_of_filter in Ht as [_ Ht];
    apply triple_in in Ht as (_ & _ & Hv); injection He as -> ->; exact Hv.
Qed.

Local Lemma parsed_every i : (i < length vs)%nat ->
  exists v, (i, v) ∈ reverse (result <$> ts2) ++ reverse (result <$> ts0) ++ [].
Proof.
  intros Hi. destruct (lookup_lt_is_Some_2 vs i Hi) as [v Hv].
  destruct (lookup_lt_is_Some_2 gs i) as [p Hp]; [rewrite lengths; exact Hi|].
  assert (Ht : (i, p, v) ∈ triples gs vs).
  { apply (list_elem_of_lookup_2 _ i), triples_lookup. eauto. }
  exists v. rewrite app_nil_r, elem_of_app, !elem_of_reverse, !list_elem_of_fmap.
  destruct (is_option p.1) eqn:Eo; [right|left]; exists (i, p, v);
    (split; [reflexivity|apply list_elem_of_filter; auto]).
Qed.

Local Lemma claims_value_shorts owing k m c : claims items (positionals_of gs) owing k c ->
  claims items (positionals_of gs) owing k (with_value_shorts m c).
Proof. intros (taken & [H1 H2 H3 H4 H5] & H6 & H7). exists taken. split; [now split|auto]. Qed.

Local Lemma struct_parses c : claims items (positionals_of gs) (fun n => named n (items_of gs)) 0 c ->
  exists c', parse_args (derive_args fields_of) c = (inr (VGroup vs), c') /\ fst (finish c') = inr tt.
Proof.
  intros Hc. unfold derive_args. cbn [parse_args]. unfold p_bind at 1, p_do.
  apply (claims_value_shorts _ _ (fold_left (fun m a => walk_shorts a m) (struct_schema fields_of) (value_shorts c))) in Hc.
  fold (declare_value_shorts (struct_schema fields_of) c) in Hc.
  set (c0 := declare_value_shorts _ c) in *. clearbody c0. unfold parse_struct, p_bind.
  unfold ordered, fields_of. rewrite (numbered_triples gs vs lengths), ordered_labelled.
  destruct (options_parse items (positionals_of gs) items_names ts0 [] _ 0 c0 options_ready)
    with (rest := labelled <$> ts2) as (owing & c1 & -> & Hc1 & Hfin).
  - apply nodup_options. pose proof (wr_names _ W) as Hnd. now rewrite <- triples_given, all_names_given in Hnd.
  - exact Hc.
  - assert (Hall : forall n, owing n = []).
    { intros n. rewrite Hfin. destruct (bool_decide_reflect (n ∈ ts0 ≫= long_of)); [reflexivity|]. now apply options_all. }
    destruct (positionals_parse items (positionals_of gs) ts2 owing Hall (reverse (result <$> ts0) ++ []) 0 c1)
      as (c2 & -> & Hc2).
    + apply Forall_forall. intros t Ht. apply list_elem_of_filter in Ht as [Ho Ht].
      apply triple_in in Ht as (_ & H2 & _). auto.
    + apply positionals_given.
    + apply positionals_given.
    + lia.
    + exact Hc1.
    + exists c2. split; [|exact (claims_finish _ _ _ c2 Hall Hc2)].
      unfold p_ret. rewrite length_fmap, lengths. f_equal. f_equal.
      apply assemble_all; [apply parsed_all|apply parsed_every].
Qed.

Local Lemma line_parses : Z.of_nat (length (written_line items)) <= u16_max ->
  parse_root (derive_args fields_of) (written_line items) (length (written_line items))
  = Some (inr (VGroup vs)).
Proof.
  intros Hlen. unfold parse_root, parse_line, written_line in *.
  rewrite (spelled_line_lexes _ (str_bytes <$> tokens)); [| | |exact Hlen].
  - cbn [mbind option_bind].
    assert (lexed_is_empty (lexed_words (str_bytes <$> tokens)) = false) as ->.
    { unfold lexed_is_empty, lexed_words. cbn [lx_tokens].
      rewrite length_tokens_at, length_fmap. unfold tokens, canonical_tokens.
      rewrite length_app. cbn [length]. apply Nat.eqb_neq. lia. }
    destruct (struct_parses _ claims_start) as (c' & Hp & Hf). unfold p_bind. rewrite Hp.
    destruct (finish c') as [[e|[]] c2]; cbn in Hf; [discriminate|]. reflexivity.
  - fold tokens. clear. induction tokens as [|t ts IH]; constructor; [apply quote_word_spells|exact IH].
  - rewrite length_fmap. exact (wr_count _ W).
Qed.
End Line.
End RoundTrip.


(** C30: what is written is what is parsed, for a derived struct whose fields
    are arguments of their own: flags, counters, single, optional and repeated
    options, each with a long name, no name twice, and positionals, plain,
    optional, repeated or with a default. Take what is given for each field and
    any order of the words for options that keeps the occurrences of one option
    in theirs: the line that spells them, quoted, with a terminator before the
    positionals, parses to exactly the values meant. A value may be empty, hold
    blanks or quotes, or begin with a hyphen; a counter stops at its greatest
    value. Nothing may be given after a positional that is absent or takes all
    that is left ([absent_then_present] shows why). Groups, subcommands and
    options with nothing but a letter are not spelled here. *)
Theorem canonical_line_parses {V} (gs : list (Argument V * Given)) vs items :
  writable gs vs items -> Z.of_nat (length (written_line gs items)) <= u16_max ->
  parse_root (derive_args (fields_of gs)) (written_line gs items) (length (written_line gs items))
  = Some (inr (VGroup vs)).
Proof. intros W. exact (line_parses gs vs items W). Qed.

Lemma chars_checked (ts : list (list Z)) : forallb (forallb is_char) ts = true ->
  Forall (Forall (fun c => is_char c = true)) ts.
Proof.
  rewrite forallb_forall. intros H. apply Forall_forall. intros t Ht%list_elem_of_In.
  specialize (H t Ht). rewrite forallb_forall in H. apply Forall_forall.
  intros c Hc%list_elem_of_In. auto.
Qed.

(** A flag, a counter, an option given twice, an optional one, and two positionals, one of them absent. *)
Definition demo_arg (label : list Z) (long : option (list Z)) (count : bool) (ty : FieldType) : Argument (list Z) :=
  mkArgument label [] long None [] [] [] false None false None [] count false None ty inr.

Definition demo_gs : list (Argument (list Z) * Given) :=
  [(demo_arg (str "verbose") (Some (str "verbose")) false FBool, GFlag true);
   (demo_arg (str "target") None false FPlain, GWords [str "-x y"]);
   (demo_arg (str "level") (Some (str "level")) true FPlain, GCount 2);
   (demo_arg (str "tag") (Some (str "tag")) false (FRepeated (Some 2%nat)), GWords [str "a"; str "b"]);
   (demo_arg (str "extra") None false FOptional, GWords []);
   (demo_arg (str "name") (Some (str "name")) false FOptional, GWords [[]])].

Definition demo_items : list (list Z * option (list Z)) :=
  [(str "tag", Some (str "a")); (str "level", None); (str "name", Some []); (str "tag", Some (str "b"));
   (str "verbose", None); (str "level", None)].

Definition demo_values : list (Value (list Z)) :=
  [VBool true; VOne (str "-x y"); VCount 2; VRepeated [str "a"; str "b"]; VOptional None; VOptional (Some [])].

Lemma demo_items_named n : named n demo_items = named n (items_of demo_gs).
Proof.
  destruct (decide (n ∈ demo_items.*1)) as [Hn|Hn].
  - assert (H : Forall (fun m => named m demo_items = named m (items_of demo_gs)) (demo_items.*1))
      by (repeat (constructor; [vm_compute; reflexivity|]); constructor).
    rewrite Forall_forall in H. now apply H.
  - assert (H : forall l, (forall m, m ∈ l.*1 -> m ∈ demo_items.*1) -> named n l = []).
    { intros l Hl. unfold named. rewrite filter_none; [reflexivity|]. apply Forall_forall. intros it Hit He.
      apply Hn, Hl. subst n. apply list_elem_of_fmap. eauto. }
    rewrite !H; [reflexivity| |auto].
    assert (Hb : forallb (fun m => bool_decide (m ∈ demo_items.*1)) ((items_of demo_gs).*1) = true) by reflexivity.
    rewrite forallb_forall in Hb. intros m Hm%list_elem_of_In. exact (bool_decide_eq_true_1 _ (Hb _ Hm)).
Qed.

Lemma canonical_line_parses_witness :
  parse_root (derive_args (fields_of demo_gs)) (written_line demo_gs demo_items)
    (length (written_line demo_gs demo_items))
  = Some (inr (VGroup demo_values)).
Proof.
  refine (canonical_line_parses demo_gs demo_values demo_items _ _); [|vm_compute; discriminate].
  assert (Hok : forall n, n <> [] -> bool_decide (61 ∉ n) = true -> name_ok n)
    by (intros n H1 H2; split; [exact H1|now apply bool_decide_eq_true_1 in H2]).
  constructor.
  - repeat apply Forall_cons_2; try apply Forall_nil_2; split; try discriminate;
      repeat apply Forall_cons_2; try apply Forall_nil_2; apply Hok; (discriminate || reflexivity).
  - vm_compute. repeat constructor; set_solver.
  - constructor; [apply (m_flag _ false true); reflexivity|].
    constructor; [apply m_plain; reflexivity|].
    constructor; [apply (m_count _ 2); [reflexivity|discriminate]|].
    constructor; [apply (m_repeated _ _ _ (Some 2%nat)); [reflexivity|repeat constructor|
      intros n [= <-]; vm_compute; lia|discriminate]|].
    constructor; [apply m_none; reflexivity|].
    constructor; [apply m_some; reflexivity|constructor].
  - vm_compute. repeat split; discriminate.
  - exact demo_items_named.
  - apply chars_checked. vm_compute. reflexivity.
  - vm_compute. lia.
Defined.

(** Two optional positionals cannot hold nothing and then something. *)
Definition two_optionals : list (Argument (list Z) * Given) :=
  [(demo_arg (str "first") None false FOptional, GWords []);
   (demo_arg (str "second") None false FOptional, GWords [str "x"])].

Example absent_then_present :
  parse_root (derive_args (fields_of two_optionals)) (written_line two_optionals [])
    (length (written_line two_optionals []))
  = Some (inr (VGroup [VOptional (Some (str "x")); VOptional None])).
Proof. vm_compute. reflexivity. Qed.

(** A parent's flag is looked for on the whole line before the command's own
    options are known, so a letter inside the attached value of one of them is
    taken for the flag: [sub -ov] sets the parent's [-v] as well as [-o] to [v]. *)
Definition demo_flag : Argument (list Z) :=
  mkArgument (str "verbose") [] (Some (str "verbose")) (Some 118) [] [] [] false None false None [] false false None FBool inr.
Definition demo_option : Argument (list Z) :=
  mkArgument (str "out") [] None (Some 111) [] [] [] false None false None [] false false None FOptional inr.
Definition demo_root : Args (list Z) :=
  derive_args [FArgument demo_flag;
               FSubcommand (derive_subcommand [VNamed (str "sub") [] [] [] [FArgument demo_option]])].

Example parent_flag_reads_attached_value :
  parse_root demo_root (str "sub -ov") 7
  = Some (inr (VGroup [VBool true; VVariant (str "sub") (Some (VGroup [VOptional (Some (str "v"))]))])).
Proof. vm_compute. reflexivity. Qed.
