(* ===== verification/CliComplete.v ===== *)
(** Tab completion, [microtun-cli/src/completion.rs]. The line is split by a
    tokenizer of its own that keeps offsets and never fails; candidates come
    from the schema of the command the words before the cursor lead to. A
    [str] is the list of its characters, offsets count bytes. *)

From Stdlib Require Import ZArith Lia String.
From stdpp Require Import base list option.
From S2P Require Import Prelude Utf8 CliLexer CliSchema CliParse CliEditor.
Open Scope Z_scope.

Inductive CandidateKind := KCommand | KOption | KValue.

Record Candidate := mkCandidate {
  cd_prefix : list Z;
  cd_value : list Z;
  cd_kind : CandidateKind;
  cd_replace_at : nat;
  cd_quote : bool }.

Definition needs_quoting (value : list Z) : bool :=
  bool_decide (value = [])
  || existsb (fun byte => is_space byte || (is_quote byte || (byte =? 92))) (str_bytes value).

Section Complete.
Context (N : nat).

Definition push_unique (out : list Candidate) (candidate : Candidate) : list Candidate :=
  if existsb (fun item => bool_decide (cd_prefix item = cd_prefix candidate)
                && bool_decide (cd_value item = cd_value candidate)
                && Nat.eqb (cd_replace_at item) (cd_replace_at candidate)) out then out
  else if (length out <? N)%nat then out ++ [candidate] else out.

(** [Logical]: the bytes of a raw token with quotes and escapes resolved. *)
Fixpoint logical (quote : option Z) (bytes : list Z) : list Z :=
  match bytes with
  | [] => []
  | byte :: bytes' =>
    if match quote with Some q => byte =? q | None => false end then logical None bytes'
    else if byte =? 92 then
      match bytes' with
      | escaped :: bytes'' => escaped :: logical quote bytes''
      | [] => []
      end
    else if match quote with None => is_quote byte | Some _ => false end then logical (Some byte) bytes'
    else byte :: logical quote bytes'
  end.

Definition logical_is_prefix_of (raw candidate : list Z) : bool :=
  starts_with (logical None (str_bytes raw)) (str_bytes candidate).

Definition is_plain (raw : list Z) : bool :=
  negb (existsb (fun byte => is_quote byte || (byte =? 92)) (str_bytes raw)).

(** [visit_args]: the arguments, groups opened. *)
Fixpoint flat_arg (a : ArgSpec) : list ArgSpec :=
  if bool_decide (a_kind a = Flatten) then flat_map flat_arg (a_children a) else [a].
Definition visit_args (args : list ArgSpec) : list ArgSpec := flat_map flat_arg args.

Definition arg_long_matches (a : ArgSpec) (name : list Z) : bool :=
  bool_decide (a_long a = Some name) || bool_decide (name ∈ a_aliases a)
  || bool_decide (name ∈ a_visible_aliases a).

Definition short_token (t : list Z) (short : Z) : bool := bool_decide (t = [45; short]).

Definition add_value_candidates (a : ArgSpec) (current : list Z) (replace_at : nat)
    (out : list Candidate) : list Candidate :=
  let add out value :=
    if logical_is_prefix_of current value
    then push_unique out (mkCandidate [] value KValue replace_at (needs_quoting value)) else out in
  fold_left (fun out v => fold_left add (v_visible_aliases v) (add out (v_name v))) (a_values a) out.

Definition option_value_candidates (args : list ArgSpec) (previous current : list Z) (replace_at : nat)
    (globals_only : bool) (out : list Candidate) : bool * list Candidate :=
  fold_left (fun '(found, out) a =>
    if globals_only && negb (a_global a) then (found, out)
    else if negb (bool_decide (a_kind a = Option_)) then (found, out)
    else
      let previous_long := default previous (strip_prefix (str "--") previous) in
      let is_match := arg_long_matches a previous_long
        || match a_short a with Some short => short_token previous short | None => false end in
      if negb is_match || bool_decide (length (a_values a) = O) then (found, out)
      else (true, add_value_candidates a current replace_at out)) (visit_args args) (false, out).

Definition attached_option_value_candidates (args : list ArgSpec) (current : list Z) (token_at : nat)
    (globals_only : bool) (out : list Candidate) : bool * list Candidate :=
  if negb (is_plain current) then (false, out) else
  fold_left (fun '(found, out) a =>
    if found || (globals_only && negb (a_global a)) || negb (bool_decide (a_kind a = Option_))
       || bool_decide (length (a_values a) = O) then (found, out)
    else
      match strip_prefix (str "--") current ≫= split_once 61 with
      | Some (name, value) =>
        if arg_long_matches a name then
          let offset := (str_len current - str_len value)%nat in
          (true, add_value_candidates a value (token_at + offset) out)
        else (found, out)
      | None =>
        if starts_with [45] current && negb (starts_with (str "--") current) then
          match tail current with
          | [] => (found, out)
          | token_short :: value =>
            if negb (bool_decide (a_short a = Some token_short)) then (found, out)
            else if bool_decide (value = []) then (found, out)
            else
              let base := (1 + len_utf8 token_short)%nat in
              match strip_prefix [61] value with
              | Some rest => (true, add_value_candidates a rest (token_at + (base + 1)) out)
              | None => (true, add_value_candidates a value (token_at + base) out)
              end
          end
        else (found, out)
      end) (visit_args args) (false, out).

(** [option_consumes_next]: whether the token is a known option, and takes the next one. *)
Definition option_consumes_next (args : list ArgSpec) (t : list Z) (globals_only : bool) : option bool :=
  fold_left (fun answer a =>
    if bool_decide (answer <> None) || (globals_only && negb (a_global a)) then answer
    else if negb (bool_decide (a_kind a = Option_) || bool_decide (a_kind a = Flag)) then answer
    else
      let long_answer :=
        match strip_prefix (str "--") t with
        | None => None
        | Some rest =>
          let '(name, attached) := match split_once 61 rest with
                                   | Some (name, _) => (name, true) | None => (rest, false) end in
          if arg_long_matches a name
          then Some (bool_decide (a_kind a = Option_) && negb attached) else None
        end in
      match long_answer with
      | Some _ => long_answer
      | None =>
        match a_short a with
        | None => answer
        | Some short =>
          if short_token t short then Some (bool_decide (a_kind a = Option_))
          else if bool_decide (a_kind a = Option_) && starts_with [45] t
                  && negb (starts_with (str "--") t) then
            match tail t with
            | c :: rest => if (c =? short) && negb (bool_decide (rest = [])) then Some false else answer
            | [] => answer
            end
          else answer
        end
      end) (visit_args args) None.

Definition positional_at (args : list ArgSpec) (index : nat) : option ArgSpec :=
  let '(position, last_repeated, answer) :=
    fold_left (fun '(position, last_repeated, answer) a =>
      if bool_decide (answer <> None) || negb (bool_decide (a_kind a = Positional))
      then (position, last_repeated, answer)
      else if Nat.eqb position index then (position, last_repeated, Some a)
      else (S position, if bool_decide (a_action a = Append) then Some a else last_repeated, answer))
      (visit_args args) (O, None, None) in
  match answer with
  | Some a => Some a
  | None => if (position <=? index)%nat then last_repeated else None
  end.

(** ** Words of the line *)

Record Word := mkWord { w_raw : list Z; w_start : nat }.

(** The inner loop of [completion_words]: where the token ends. *)
Fixpoint word_end (quote : option Z) (bytes : list Z) (read : nat) : nat :=
  match bytes with
  | [] => read
  | byte :: bytes' =>
    match quote with
    | Some q =>
      if byte =? q then word_end None bytes' (S read)
      else if byte =? 92 then
        match bytes' with _ :: bytes'' => word_end quote bytes'' (S (S read)) | [] => S read end
      else word_end quote bytes' (S read)
    | None =>
      if is_quote byte then word_end (Some byte) bytes' (S read)
      else if byte =? 92 then
        match bytes' with _ :: bytes'' => word_end quote bytes'' (S (S read)) | [] => S read end
      else if is_space byte then read
      else word_end quote bytes' (S read)
    end
  end.

(** The outer loop over what is left, which begins at offset [read]; [fuel]
    bounds the number of words. *)
Fixpoint words_from (fuel : nat) (rest : list Z) (read : nat) (words : list Word)
    (trailing_space : bool) : list Word * bool :=
  match rest, fuel with
  | [], _ | _, O => (words, trailing_space)
  | _, S fuel =>
    let rest1 := drop_spaces rest in
    let start := (read + (length rest - length rest1))%nat in
    match rest1 with
    | [] => (words, trailing_space || (read <? start)%nat)
    | _ =>
      let stop := word_end None rest1 start in
      let raw := default [] (from_utf8 (take (stop - start) rest1)) in
      if (length words <? MAX_TOKENS)%nat
      then words_from fuel (drop (stop - start) rest1) stop (words ++ [mkWord raw start]) false
      else (words, false)
    end
  end.

Definition completion_words (text : list Z) : list Word * bool :=
  words_from (length text) text 0 [] false.

(** ** The command the words lead to *)

Record Walk := mkWalk {
  wk_commands : list CommandSpec;
  wk_args : list ArgSpec;
  wk_at_root : bool;
  wk_positional_seen : nat;
  wk_skip_value : bool;
  wk_terminated : bool }.

(** One word before the cursor. *)
Definition walk_word (root : RootSpec) (w : Walk) (word : list Z) : Walk :=
  let '(mkWalk commands args at_root seen skip_value terminated) := w in
  if skip_value then mkWalk commands args at_root seen false terminated
  else if terminated then mkWalk commands args at_root (S seen) false true
  else if bool_decide (word = TERMINATOR) then mkWalk commands args at_root seen false true
  else if starts_with [45] word && negb (bool_decide (word = [45])) then
    let consumes := match option_consumes_next args word false with
                    | Some b => Some b
                    | None => option_consumes_next (r_args root) word true
                    end in
    mkWalk commands args at_root seen (default false consumes) terminated
  else match find_command commands word with
       | Some command => mkWalk (c_subcommands command) (c_args command) false 0 false terminated
       | None => mkWalk commands args at_root (S seen) false terminated
       end.

Definition walk_words (root : RootSpec) (words : list (list Z)) : Walk :=
  fold_left (walk_word root) words (mkWalk (r_commands root) (r_args root) true 0 false false).

(** [trim_start_matches('-')]. *)
Fixpoint trim_hyphens (s : list Z) : list Z :=
  match s with c :: s' => if c =? 45 then trim_hyphens s' else s | [] => [] end.

Definition add_arg (needle : list Z) (replace_at : nat) (out : list Candidate) (a : ArgSpec) : list Candidate :=
  let add out value :=
    if starts_with needle value
    then push_unique out (mkCandidate (str "--") value KOption replace_at false) else out in
  fold_left add (a_visible_aliases a) (match a_long a with Some long => add out long | None => out end).

Definition add_command (current : list Z) (replace_at : nat) (out : list Candidate) (c : CommandSpec) : list Candidate :=
  let add out value :=
    if logical_is_prefix_of current value
    then push_unique out (mkCandidate [] value KCommand replace_at false) else out in
  fold_left add (c_visible_aliases c) (add out (c_name c)).

(** [complete]. That the arguments are the root's own is known by not having
    entered a command, where the code compares the slices' addresses. *)
Definition complete_word (root : RootSpec) (w : Walk) (previous : list Z) (current : Word)
  : list Candidate :=
  let raw := w_raw current in
  let replace_at := w_start current in
  let args := wk_args w in
  let plain out :=
    let out := match positional_at args (wk_positional_seen w) with
               | Some a => add_value_candidates a raw replace_at out
               | None => out
               end in
    if wk_terminated w then out
    else fold_left (add_command raw replace_at) (command_iter (wk_commands w)) out in
  if wk_terminated w then plain [] else
  let '(local_attached, out) := attached_option_value_candidates args raw replace_at false [] in
  let '(global_attached, out) :=
    if wk_at_root w then (false, out)
    else attached_option_value_candidates (r_args root) raw replace_at true out in
  if local_attached || global_attached then out else
  let '(local_value, out) := option_value_candidates args previous raw replace_at false out in
  let '(global_value, out) :=
    if wk_at_root w then (false, out)
    else option_value_candidates (r_args root) previous raw replace_at true out in
  if local_value || global_value then out else
  if starts_with [45] raw && negb (bool_decide (raw = [45])) then
    let needle := trim_hyphens raw in
    let out := fold_left (add_arg needle replace_at) (visit_args args) out in
    if wk_at_root w then out
    else fold_left (fun out a => if a_global a then add_arg needle replace_at out a else out)
           (visit_args (r_args root)) out
  else plain out.

Definition complete (root : RootSpec) (line : list Z) (cursor : nat) : list Candidate :=
  let cursor := Nat.min cursor (length line) in
  match from_utf8 (take cursor line) with
  | None => []
  | Some _ =>
    let '(words, trailing_space) := completion_words (take cursor line) in
    let nothing := mkWord [] cursor in
    let '(words, current) :=
      if trailing_space then (words, nothing)
      else (take (length words - 1) words, default nothing (last words)) in
    let previous := match last words with Some w => w_raw w | None => [] end in
    complete_word root (walk_words root (w_raw <$> words)) previous current
  end.
End Complete.

(** Completion, the editor and the lexer agree. The completion's tokenizer,
    which accepts unfinished tokens, splits the words before the cursor as the
    lexer does ([words_from_spec]); every candidate continues what was typed
    and is declared in scope ([complete_word_offers]); and a candidate put into
    the line by the editor is read back by the lexer as one token, after the
    same words ([completion_lexes_back]). *)

(** ** Words before the cursor *)





(** ** Cutting text at character boundaries *)





(** ** The completion's words *)





(** ** Putting a word after the words of a line *)








(** ** What is offered *)

(** The command the words before the cursor lead to, as a grammar: a word that
    begins with a hyphen is an option, which takes the next word when it is known,
    is no flag, and has no value attached; a command's name enters it; anything
    else is a positional; after the terminator every word is. *)

(** How an argument can be named by a word, with the value attached or not. *)
Inductive spelled (a : ArgSpec) : list Z -> bool -> Prop :=
| sp_long name : arg_long_matches a name = true -> 61 ∉ name -> spelled a (str "--" ++ name) false
| sp_long_value name v : arg_long_matches a name = true -> 61 ∉ name -> spelled a (str "--" ++ name ++ 61 :: v) true
| sp_short s : a_short a = Some s -> spelled a [45; s] false
| sp_short_value s v : a_kind a = Option_ -> a_short a = Some s -> s <> 45 -> v <> [] -> spelled a (45 :: s :: v) true.

Definition answers_to (a : ArgSpec) (w : list Z) (attached : bool) : Prop :=
  (a_kind a = Option_ \/ a_kind a = Flag) /\ spelled a w attached.
Definition unknown (w : list Z) (a : ArgSpec) : Prop := forall attached, ~ answers_to a w attached.

(** The first argument that answers to the word says whether the next word is its value. *)
Inductive recognised (w : list Z) : list ArgSpec -> bool -> Prop :=
| rec_here a l attached : answers_to a w attached ->
    recognised w (a :: l) (bool_decide (a_kind a = Option_) && negb attached)
| rec_later a l b : unknown w a -> recognised w l b -> recognised w (a :: l) b.

Definition globals (root : RootSpec) : list ArgSpec := filter (fun a => a_global a = true) (visit_args (r_args root)).

(** The arguments in scope come before the root's global ones; an unknown option takes nothing. *)
Inductive takes_next (root : RootSpec) (args : list ArgSpec) (w : list Z) : bool -> Prop :=
| tn_local b : recognised w (visit_args args) b -> takes_next root args w b
| tn_global b : Forall (unknown w) (visit_args args) -> recognised w (globals root) b -> takes_next root args w b
| tn_unknown : Forall (unknown w) (visit_args args) -> Forall (unknown w) (globals root) -> takes_next root args w false.

Record Scope := mkScope {
  sc_commands : list CommandSpec;
  sc_args : list ArgSpec;
  sc_seen : nat;
  sc_terminated : bool }.

Definition option_word (w : list Z) : Prop := starts_with [45] w = true /\ w <> [45] /\ w <> TERMINATOR.

Inductive leads (root : RootSpec) : list CommandSpec -> list ArgSpec -> nat -> list (list Z) -> Scope -> Prop :=
| leads_end commands args seen : leads root commands args seen [] (mkScope commands args seen false)
| leads_value commands args seen w v words sc : option_word w -> takes_next root args w true ->
    leads root commands args seen words sc -> leads root commands args seen (w :: v :: words) sc
| leads_value_next commands args seen w : option_word w -> takes_next root args w true ->
    leads root commands args seen [w] (mkScope commands args seen false)
| leads_option commands args seen w words sc : option_word w -> takes_next root args w false ->
    leads root commands args seen words sc -> leads root commands args seen (w :: words) sc
| leads_command commands args seen w words k sc : ~ option_word w -> w <> TERMINATOR ->
    find_command commands w = Some k ->
    leads root (c_subcommands k) (c_args k) 0 words sc -> leads root commands args seen (w :: words) sc
| leads_positional commands args seen w words sc : ~ option_word w -> w <> TERMINATOR ->
    find_command commands w = None ->
    leads root commands args (S seen) words sc -> leads root commands args seen (w :: words) sc
| leads_terminator commands args seen words :
    leads root commands args seen (TERMINATOR :: words) (mkScope commands args (seen + length words) true).

(** *** The walk follows the grammar *)





(** What a word that begins with two hyphens, or with one, can spell. *)
Lemma spelled_long a rest attached : rest <> [] -> spelled a (str "--" ++ rest) attached ->
  exists name, arg_long_matches a name = true /\ 61 ∉ name
    /\ ((rest = name /\ attached = false) \/ exists v, rest = name ++ 61 :: v /\ attached = true).
Proof.
  intros Hr H. remember (str "--" ++ rest) as w eqn:Ew.
  destruct H as [name Hn Hs|name v Hn Hs|s Hs|s v Hk Hs Hne Hv]; cbn in Ew.
  - injection Ew as <-. exists name. auto.
  - injection Ew as <-. exists name. split_and!; eauto.
  - injection Ew as _ <-. contradiction.
  - injection Ew as -> _. contradiction.
Qed.

Lemma spelled_short a c rest attached : c <> 45 -> spelled a (45 :: c :: rest) attached ->
  a_short a = Some c /\ (if attached then a_kind a = Option_ /\ rest <> [] else rest = []).
Proof.
  intros Hc H. remember (45 :: c :: rest) as w eqn:Ew.
  destruct H as [name Hn Hs|name v Hn Hs|s Hs|s v Hk Hs Hne Hv]; cbn in Ew; injection Ew as;
    subst; try contradiction; auto.
Qed.







(** The grammar leaves no choice: words lead to one scope. *)
Lemma spelled_once a w x y : option_word w -> spelled a w x -> spelled a w y -> x = y.
Proof.
  intros (Hs & Hne & Hw) Hx Hy. apply starts_with_spec in Hs as [[|c rest] ->]; [done|]. cbn [app] in *.
  destruct (decide (c = 45)) as [->|Hc].
  - assert (Hr : rest <> []) by (intros ->; now apply Hw).
    apply (spelled_long a rest) in Hx as (n1 & _ & H1 & [[-> ->]|(v1 & -> & ->)]); [| |exact Hr];
      apply (spelled_long a) in Hy as (n2 & _ & H2 & [[He ->]|(v2 & He & ->)]); try assumption; try reflexivity; exfalso.
    + apply H1. rewrite He. apply elem_of_app. right. left.
    + apply H2. rewrite <- He. apply elem_of_app. right. left.
  - apply spelled_short in Hx as [_ Hx], Hy as [_ Hy]; [|assumption..].
    destruct x, y; try reflexivity; [destruct Hx as [_ Hx]|destruct Hy as [_ Hy]]; contradiction.
Qed.

Lemma recognised_once w l : option_word w -> forall x y, recognised w l x -> recognised w l y -> x = y.
Proof.
  intros Hw x y Hx. revert y. induction Hx as [a l att Ha|a l b Hu Hx IH]; intros y Hy; inversion Hy; subst.
  - do 2 f_equal. destruct Ha as [_ Ha]. match goal with H : answers_to _ _ _ |- _ => destruct H as [_ H] end.
    eapply spelled_once; eassumption.
  - exfalso. match goal with H : unknown _ _ |- _ => exact (H att Ha) end.
  - exfalso. match goal with H : answers_to _ _ _ |- _ => exact (Hu _ H) end.
  - auto.
Qed.

Lemma recognised_known w l x : recognised w l x -> ~ Forall (unknown w) l.
Proof.
  induction 1 as [a l att Ha|a l b Hu _ IH]; intros H; inversion H as [|? ? H1 H2]; subst; [exact (H1 att Ha)|auto].
Qed.

Lemma takes_next_once root args w x y : option_word w -> takes_next root args w x -> takes_next root args w y -> x = y.
Proof.
  intros Hw Hx Hy. destruct Hx as [x Hx|x Hn Hx|Hn Hg], Hy as [y Hy|y Hn' Hy|Hn' Hg']; try reflexivity;
    try (match goal with H1 : recognised _ ?l _, H2 : Forall (unknown _) ?l |- _ =>
      destruct (recognised_known _ _ _ H1 H2) end); eapply recognised_once; eassumption.
Qed.

Lemma leads_once root commands args seen words s1 s2 :
  leads root commands args seen words s1 -> leads root commands args seen words s2 -> s1 = s2.
Proof.
  assert (Hterm : ~ option_word TERMINATOR) by (intros (_ & _ & H); now apply H).
  intros H. revert s2. induction H; intros s2 Hs2; inversion Hs2; subst; auto; try contradiction; try congruence;
    try (exfalso; match goal with H1 : takes_next _ _ ?w true, H3 : takes_next _ _ ?w false |- _ =>
      assert (true = false) by (eapply (takes_next_once _ _ w); eassumption); discriminate end).
  match goal with H1 : find_command _ _ = Some ?a, H3 : find_command _ _ = Some ?b |- _ =>
    assert (a = b) as <- by congruence end. auto.
Qed.

(** *** Candidates *)






Section Offers.
Context (N : nat) (root : RootSpec) (sc : Scope) (raw : list Z) (start : nat).
Local Notation args := (sc_args sc).











End Offers.

(** ** The candidate in the line *)











(** A root with one option whose values are [fast lane], which needs quotes, and [slow]. *)
Definition lane_option : ArgSpec :=
  mkArgSpec (str "mode") [] None (Some (str "mode")) [] [] [] false false None Option_ Set_ false
    [mkValueSpec (str "fast lane") [] [] []; mkValueSpec (str "slow") [] [] []] [].
Definition lane_root : RootSpec := mkRootSpec (str "demo") [] None [lane_option] [].
Definition lane_editor : Editor := mkEditor (str "go --mode=f") 11 Normal [] None false.


Example lane_completes :
  complete 4 lane_root (line lane_editor) 11 = [mkCandidate [] (str "fast lane") KValue 10 true].
Proof. vm_compute. reflexivity. Qed.

Example lane_completed :
  exists ed', replace_range 64 10 [] (str "fast lane") true true lane_editor = Some (ed', true)
    /\ tokenize (line ed') = inr [str "go"; str "--mode=fast lane"].
Proof. eexists. split; vm_compute; reflexivity. Qed.


(** A value with a quote of its own is put between quotes as it is, and does
    not read back: [a"b] becomes ["a"b"], which the lexer refuses. *)
Definition quoting_root : RootSpec :=
  mkRootSpec (str "demo") [] None [mkArgSpec (str "mode") [] None (Some (str "mode")) [] [] [] false false None Option_ Set_
    false [mkValueSpec [97; 34; 98] [] [] []] []] [].

Example quoted_value_breaks : exists ed',
  complete 4 quoting_root (str "--mode=a") 8 = [mkCandidate [] [97; 34; 98] KValue 7 true]
  /\ replace_range 64 7 [] [97; 34; 98] true true (mkEditor (str "--mode=a") 8 Normal [] None false) = Some (ed', true)
  /\ tokenize (line ed') = inl UnterminatedQuote.
Proof. eexists. split_and!; vm_compute; reflexivity. Qed.
