(* ===== verification/Telnet.v ===== *)
(** * The Telnet codec ([microtun-telnet/src/lib.rs])

    RFC 854 framing and RFC 1143 option negotiation. A [heapless::Vec<u8, N>] is a list
    with its capacity [N] at the operation that extends it. *)

From S2P Require Import Prelude.
Local Open Scope Z_scope.

Definition IAC : Z := 255.
Definition DONT : Z := 254.
Definition DO : Z := 253.
Definition WONT : Z := 252.
Definition WILL : Z := 251.
Definition SB : Z := 250.
Definition SE : Z := 240.
Definition NOP : Z := 241.
Definition BRK : Z := 243.
Definition IP : Z := 244.
Definition AYT : Z := 246.
Definition EC : Z := 247.
Definition EL : Z := 248.

Definition OPT_BINARY : Z := 0.
Definition OPT_ECHO : Z := 1.
Definition OPT_SUPPRESS_GO_AHEAD : Z := 3.
Definition OPT_TERMINAL_TYPE : Z := 24.
Definition OPT_NAWS : Z := 31.
Definition OPT_COM_PORT : Z := 44.

Inductive Side := Us | Him.
#[export] Instance Side_eq_dec : EqDecision Side.
Proof. solve_decision. Defined.

(** The trait [Policy]: what an endpoint is able to do and what it lets the peer do. *)
Class Policy (P : Type) := {
  support_us : P -> Z -> bool;
  support_him : P -> Z -> bool;
}.

Inductive RejectAll := reject_all.
#[export] Instance reject_all_policy : Policy RejectAll := {|
  support_us _ _ := false;
  support_him _ _ := false;
|}.

Inductive TelnetEvent :=
| Data (byte : Z)
| Interrupt
| Break
| AreYouThere
| EraseCharacter
| EraseLine
| OptionEnabled (side : Side) (opt : Z)
| OptionDisabled (side : Side) (opt : Z)
| OptionRefused (side : Side) (opt : Z)
| Subnegotiation (opt : Z).

Inductive RxState :=
| RxData
| RxIac
| RxVerb (verb : Z)
| RxSubnegOption
| RxSubneg
| RxSubnegIac.

Inductive QState := No | Yes | WantNo | WantNoOpposite | WantYes | WantYesOpposite.
#[export] Instance QState_eq_dec : EqDecision QState.
Proof. solve_decision. Defined.

Record OptionSlot := mkOptionSlot { os_option : Z; os_us : QState; os_him : QState }.
Definition slot_new (opt : Z) : OptionSlot := mkOptionSlot opt No No.
Definition with_us (s : OptionSlot) (q : QState) : OptionSlot := mkOptionSlot (os_option s) q (os_him s).
Definition with_him (s : OptionSlot) (q : QState) : OptionSlot := mkOptionSlot (os_option s) (os_us s) q.

Definition is_yes (q : QState) : bool := match q with Yes => true | _ => false end.
Definition is_no (q : QState) : bool := match q with No => true | _ => false end.
Definition is_want_yes (q : QState) : bool := match q with WantYes => true | _ => false end.
Definition is_pending (q : QState) : bool :=
  match q with WantYes | WantYesOpposite | WantNo | WantNoOpposite => true | _ => false end.

(** ** Bounded vectors *)

(** [let _ = v.push(x)] *)
Definition push {A} (cap : nat) (v : list A) (x : A) : list A := if (length v <? cap)%nat then v ++ [x] else v.
(** [v.extend_from_slice(xs)]: all or nothing. *)
Definition extend {A} (cap : nat) (v xs : list A) : bool * list A :=
  if (length v + length xs <=? cap)%nat then (true, v ++ xs) else (false, v).

(** ** Option states (the Q method) *)

Definition push_cmd (N : nat) (out : list Z) (verb opt : Z) : bool * list Z := extend N out [IAC; verb; opt].

(** The next state once a command is out; the state stays when it does not fit. *)
Definition commanded (N : nat) (state : QState) (out : list Z) (verb opt : Z) (next : QState) : QState * list Z :=
  let '(fits, out) := push_cmd N out verb opt in (if fits then next else state, out).

Definition request_state (N : nat) (state : QState) (enable : bool) (positive_verb negative_verb opt : Z)
    (out : list Z) : QState * list Z :=
  match state, enable with
  | No, true => commanded N state out positive_verb opt WantYes
  | Yes, false => commanded N state out negative_verb opt WantNo
  | WantNo, true => (WantNoOpposite, out)
  | WantNoOpposite, false => (WantNo, out)
  | WantYes, false => (WantYesOpposite, out)
  | WantYesOpposite, true => (WantYes, out)
  | state, _ => (state, out)
  end.

Definition receive_positive (N : nat) (state : QState) (supported : bool) (positive_verb negative_verb opt : Z)
    (out : list Z) : QState * list Z :=
  match state with
  | No => commanded N state out (if supported then positive_verb else negative_verb) opt
            (if supported then Yes else No)
  | Yes => (Yes, out)
  | WantNo => (No, out)
  | WantNoOpposite => (Yes, out)
  | WantYes => (Yes, out)
  | WantYesOpposite => commanded N state out negative_verb opt WantNo
  end.

Definition receive_negative (N : nat) (state : QState) (positive_verb negative_verb opt : Z)
    (out : list Z) : QState * list Z :=
  match state with
  | No => (No, out)
  | Yes => commanded N state out negative_verb opt No
  | WantNo => (No, out)
  | WantNoOpposite => commanded N state out positive_verb opt WantYes
  | WantYes => (No, out)
  | WantYesOpposite => (No, out)
  end.

Definition transition_event (side : Side) (opt : Z) (was_enabled enabled : bool) : option TelnetEvent :=
  match was_enabled, enabled with
  | false, true => Some (OptionEnabled side opt)
  | true, false => Some (OptionDisabled side opt)
  | _, _ => None
  end.

(** ** The codec *)

Section Codec.
Context {P : Type} {PO : Policy P} (SB_CAP OPTION_CAP : nat).

Record Telnet := mkTelnet {
  policy : P;
  rx : RxState;
  subneg_option : Z;
  subneg : list Z;
  options : list OptionSlot;
}.

Definition telnet_new (policy : P) : Telnet := mkTelnet policy RxData 0 [] [].

Definition with_rx (t : Telnet) (r : RxState) : Telnet :=
  mkTelnet (policy t) r (subneg_option t) (subneg t) (options t).
Definition with_subneg (t : Telnet) (o : Z) (body : list Z) : Telnet :=
  mkTelnet (policy t) (rx t) o body (options t).
Definition with_options (t : Telnet) (os : list OptionSlot) : Telnet :=
  mkTelnet (policy t) (rx t) (subneg_option t) (subneg t) os.
(** [policy_mut] *)
Definition with_policy (t : Telnet) (p : P) : Telnet :=
  mkTelnet p (rx t) (subneg_option t) (subneg t) (options t).

Definition slot (t : Telnet) (opt : Z) : option OptionSlot :=
  find (fun s => os_option s =? opt) (options t).

(** The place of the option's slot in the table, made if need be: a full table recycles
    a slot without state, or else its last one. (With [OPTION_CAP = 0] the code panics;
    no place is found then.) *)
Definition slot_mut (os : list OptionSlot) (opt : Z) : nat * list OptionSlot :=
  match position (fun s => os_option s =? opt) os with
  | Some index => (index, os)
  | None =>
      match extend OPTION_CAP os [slot_new opt] with
      | (true, os) => ((length os - 1)%nat, os)
      | (false, os) =>
          let index := default (length os - 1)%nat (position (fun s => is_no (os_us s) && is_no (os_him s)) os) in
          (index, <[index := slot_new opt]> os)
      end
  end.

(** Runs an operation on the slot [slot_mut] finds. *)
Definition at_slot {A} (t : Telnet) (opt : Z) (none : A) (f : OptionSlot -> A * OptionSlot) : A * Telnet :=
  let '(index, os) := slot_mut (options t) opt in
  match os !! index with
  | Some s => let '(a, s') := f s in (a, with_options t (<[index := s']> os))
  | None => (none, with_options t os)
  end.

Definition us_enabled (t : Telnet) (opt : Z) : bool :=
  match slot t opt with Some s => is_yes (os_us s) | None => false end.
Definition him_enabled (t : Telnet) (opt : Z) : bool :=
  match slot t opt with Some s => is_yes (os_him s) | None => false end.
Definition us_pending (t : Telnet) (opt : Z) : bool :=
  match slot t opt with Some s => is_pending (os_us s) | None => false end.
Definition him_pending (t : Telnet) (opt : Z) : bool :=
  match slot t opt with Some s => is_pending (os_him s) | None => false end.

(** The operations that queue bytes answer the extended [out]. *)
Definition on_us (N : nat) (enable : bool) (t : Telnet) (opt : Z) (out : list Z) : list Z * Telnet :=
  at_slot t opt out (fun s =>
    let '(q, out) := request_state N (os_us s) enable WILL WONT opt out in (out, with_us s q)).
Definition on_him (N : nat) (enable : bool) (t : Telnet) (opt : Z) (out : list Z) : list Z * Telnet :=
  at_slot t opt out (fun s =>
    let '(q, out) := request_state N (os_him s) enable DO DONT opt out in (out, with_him s q)).

Definition request_us (N : nat) := on_us N true.
Definition disable_us (N : nat) := on_us N false.
Definition request_him (N : nat) := on_him N true.
Definition disable_him (N : nat) := on_him N false.

Definition binary_mode_enabled (t : Telnet) : bool := us_enabled t OPT_BINARY && him_enabled t OPT_BINARY.
Definition binary_mode_refused (t : Telnet) : bool :=
  (negb (us_enabled t OPT_BINARY) && negb (us_pending t OPT_BINARY))
  || (negb (him_enabled t OPT_BINARY) && negb (him_pending t OPT_BINARY)).
Definition request_binary_mode (N : nat) (t : Telnet) (out : list Z) : list Z * Telnet :=
  let '(out, t) := request_us N t OPT_BINARY out in request_him N t OPT_BINARY out.
Definition disable_binary_mode (N : nat) (t : Telnet) (out : list Z) : list Z * Telnet :=
  let '(out, t) := disable_us N t OPT_BINARY out in disable_him N t OPT_BINARY out.

Definition subnegotiation (t : Telnet) : Z * list Z := (subneg_option t, subneg t).

(** [transition_event(..).or_else(|| (was_requested && refused).then_some(..))] *)
Definition refusal_event (side : Side) (opt : Z) (before after : QState) : option TelnetEvent :=
  match transition_event side opt (is_yes before) (is_yes after) with
  | Some event => Some event
  | None => if is_want_yes before && is_no after then Some (OptionRefused side opt) else None
  end.

Definition negotiate (N : nat) (t : Telnet) (verb opt : Z) (out : list Z) : (option TelnetEvent * list Z) * Telnet :=
  if verb =? DO then
    at_slot t opt (None, out) (fun s =>
      let '(q, out) := receive_positive N (os_us s) (support_us (policy t) opt) WILL WONT opt out in
      ((transition_event Us opt (is_yes (os_us s)) (is_yes q), out), with_us s q))
  else if verb =? DONT then
    at_slot t opt (None, out) (fun s =>
      let '(q, out) := receive_negative N (os_us s) WILL WONT opt out in
      ((refusal_event Us opt (os_us s) q, out), with_us s q))
  else if verb =? WILL then
    at_slot t opt (None, out) (fun s =>
      let '(q, out) := receive_positive N (os_him s) (support_him (policy t) opt) DO DONT opt out in
      ((transition_event Him opt (is_yes (os_him s)) (is_yes q), out), with_him s q))
  else if verb =? WONT then
    at_slot t opt (None, out) (fun s =>
      let '(q, out) := receive_negative N (os_him s) DO DONT opt out in
      ((refusal_event Him opt (os_him s) q, out), with_him s q))
  else ((None, out), t).

Definition is_verb (byte : Z) : bool := (byte =? DO) || (byte =? DONT) || (byte =? WILL) || (byte =? WONT).

(** The byte after [IAC], outside a subnegotiation. *)
Definition feed_iac (byte : Z) (t : Telnet) : option TelnetEvent * Telnet :=
  let t := with_rx t RxData in
  if byte =? IAC then (Some (Data IAC), t) else
  if is_verb byte then (None, with_rx t (RxVerb byte)) else
  if byte =? SB then (None, with_rx t RxSubnegOption) else
  if byte =? IP then (Some Interrupt, t) else
  if byte =? BRK then (Some Break, t) else
  if byte =? AYT then (Some AreYouThere, t) else
  if byte =? EC then (Some EraseCharacter, t) else
  if byte =? EL then (Some EraseLine, t) else (None, t).

Definition feed (N : nat) (byte : Z) (t : Telnet) (reply : list Z) : (option TelnetEvent * list Z) * Telnet :=
  match rx t with
  | RxData =>
      if byte =? IAC then ((None, reply), with_rx t RxIac) else ((Some (Data byte), reply), t)
  | RxIac => let '(event, t) := feed_iac byte t in ((event, reply), t)
  | RxVerb verb => negotiate N (with_rx t RxData) verb byte reply
  | RxSubnegOption => ((None, reply), with_rx (with_subneg t byte []) RxSubneg)
  | RxSubneg =>
      if byte =? IAC then ((None, reply), with_rx t RxSubnegIac)
      else ((None, reply), with_subneg t (subneg_option t) (push SB_CAP (subneg t) byte))
  | RxSubnegIac =>
      if byte =? SE then ((Some (Subnegotiation (subneg_option t)), reply), with_rx t RxData) else
      if byte =? IAC then
        ((None, reply), with_rx (with_subneg t (subneg_option t) (push SB_CAP (subneg t) IAC)) RxSubneg)
      else ((None, reply), with_rx t RxData)
  end.

(** ** Streams *)

(** Every byte with a reply buffer of its own, as the adapters do: the events, the
    bytes sent back and the state reached. *)
Fixpoint feed_all (N : nat) (bytes : list Z) (t : Telnet) : list TelnetEvent * list Z * Telnet :=
  match bytes with
  | [] => ([], [], t)
  | byte :: bytes =>
      let '((event, reply), t) := feed N byte t [] in
      let '(events, replies, t) := feed_all N bytes t in
      (match event with Some e => e :: events | None => events end, reply ++ replies, t)
  end.

End Codec.
Arguments Telnet : clear implicits.

(** [write_data_unflushed] and [push_subnegotiation] double every [IAC]. *)
Fixpoint escape (bytes : list Z) : list Z :=
  match bytes with
  | [] => []
  | byte :: bytes => if byte =? IAC then IAC :: IAC :: escape bytes else byte :: escape bytes
  end.

Definition push_subnegotiation (N : nat) (out : list Z) (opt : Z) (payload : list Z) : bool * list Z :=
  let escaped := length (filter (fun byte => byte = IAC) payload) in
  let required := (5 + length payload + escaped)%nat in
  if (N - length out <? required)%nat then (false, out)
  else (true, out ++ [IAC; SB; opt] ++ escape payload ++ [IAC; SE]).

(** ** Lemmas *)

Lemma length_escape bytes : length (escape bytes) = (length bytes + length (filter (fun byte => byte = IAC) bytes))%nat.
Proof.
  induction bytes as [|b bytes IH]; [done|]. cbn [escape]. rewrite filter_cons.
  destruct (Z.eqb_spec b IAC); [rewrite decide_True by done|rewrite decide_False by done]; cbn; lia.
Qed.

Lemma escape_app a b : escape (a ++ b) = escape a ++ escape b.
Proof. induction a as [|x a IH]; [done|]. cbn. rewrite IH. by destruct (x =? IAC). Qed.

Lemma extend_length {A} cap (v xs : list A) : (length (snd (extend cap v xs)) <= length v + length xs)%nat.
Proof. unfold extend. destruct (_ <=? _)%nat; cbn; rewrite ?length_app; lia. Qed.

Lemma commanded_length N q out verb opt next : (length (snd (commanded N q out verb opt next)) <= length out + 3)%nat.
Proof.
  unfold commanded, push_cmd. pose proof (extend_length N out [IAC; verb; opt]) as H. cbn [length] in H.
  destruct (extend N out _) as [fits out']. exact H.
Qed.

Lemma receive_positive_length N q ok pv nv opt out :
  (length (snd (receive_positive N q ok pv nv opt out)) <= length out + 3)%nat.
Proof. destruct q; cbn [receive_positive snd]; first [apply commanded_length|lia]. Qed.
Lemma receive_negative_length N q pv nv opt out :
  (length (snd (receive_negative N q pv nv opt out)) <= length out + 3)%nat.
Proof. destruct q; cbn [receive_negative snd]; first [apply commanded_length|lia]. Qed.

Section CodecFacts.
Context {P : Type} {PO : Policy P} (SB_CAP OPTION_CAP : nat).
Notation Telnet := (Telnet P).
Notation feed := (feed SB_CAP OPTION_CAP).
Notation feed_all := (feed_all SB_CAP OPTION_CAP).

Lemma with_rx_id (t : Telnet) r : rx t = r -> with_rx t r = t.
Proof. destruct t. cbn. by intros ->. Qed.

Lemma feed_all_app N a b t :
  feed_all N (a ++ b) t =
    let '(ea, ra, t) := feed_all N a t in let '(eb, rb, t) := feed_all N b t in (ea ++ eb, ra ++ rb, t).
Proof.
  revert t. induction a as [|x a IH]; intros t; cbn [app Telnet.feed_all].
  - by destruct (feed_all N b t) as [[eb rb] t'].
  - destruct (feed N x t []) as [[ev r] t1]. rewrite IH. destruct (feed_all N a t1) as [[ea ra] t2].
    destruct (feed_all N b t2) as [[eb rb] t3]. rewrite app_assoc. by destruct ev.
Qed.

(** Escaped data is read back as it was, and changes nothing. *)
Lemma feed_all_data N bytes t : rx t = RxData -> feed_all N (escape bytes) t = (Data <$> bytes, [], t).
Proof.
  intros Ht. induction bytes as [|b bytes IH]; [done|]. cbn [escape]. destruct (Z.eqb_spec b IAC) as [->|Hb].
  - cbn [Telnet.feed_all]. unfold Telnet.feed at 1. rewrite Ht. rewrite Z.eqb_refl. cbn [fst snd].
    unfold Telnet.feed at 1. cbn [rx with_rx]. unfold feed_iac. rewrite Z.eqb_refl.
    replace (with_rx (with_rx t RxIac) RxData) with t by (by destruct t; cbn in *; subst). by rewrite IH.
  - cbn [Telnet.feed_all]. unfold Telnet.feed at 1. rewrite Ht. rewrite (proj2 (Z.eqb_neq _ _) Hb). by rewrite IH.
Qed.

Lemma foldl_push {A} (v xs : list A) :
  (length v <= SB_CAP)%nat -> foldl (push SB_CAP) v xs = take SB_CAP (v ++ xs).
Proof.
  revert v. induction xs as [|x xs IH]; intros v Hv; cbn [foldl].
  - by rewrite app_nil_r, take_ge.
  - unfold push at 2. destruct (Nat.ltb_spec (length v) SB_CAP).
    + rewrite IH by (rewrite length_app; cbn; lia). by rewrite <- app_assoc.
    + rewrite IH by done. rewrite !take_app_le by lia. done.
Qed.

Lemma feed_all_body N body t :
  rx t = RxSubneg ->
  feed_all N (escape body) t = ([], [], with_subneg t (subneg_option t) (foldl (push SB_CAP) (subneg t) body)).
Proof.
  revert t. induction body as [|b body IH]; intros t Ht; cbn [escape]; [by destruct t|].
  destruct (Z.eqb_spec b IAC) as [->|Hb]; cbn [Telnet.feed_all]; unfold Telnet.feed at 1; rewrite Ht.
  - rewrite Z.eqb_refl. unfold Telnet.feed at 1. cbn [rx with_rx].
    change (IAC =? SE) with false. change (IAC =? IAC) with true. cbn match. rewrite IH by done.
    destruct t. cbn in *. by subst.
  - rewrite (proj2 (Z.eqb_neq _ _) Hb). rewrite IH by done. done.
Qed.

(** A command outside data acts on the slot of its option. *)
Lemma feed_command N verb opt t :
  rx t = RxData -> is_verb verb = true ->
  feed_all N [IAC; verb; opt] t =
    let '((event, out), t) := negotiate OPTION_CAP N t verb opt [] in
    (match event with Some e => [e] | None => [] end, out, t).
Proof.
  intros Ht Hv. cbn [Telnet.feed_all]. unfold Telnet.feed at 1. rewrite Ht, Z.eqb_refl.
  unfold Telnet.feed at 1. cbn [rx with_rx]. unfold feed_iac.
  assert (Hne : verb =? IAC = false).
  { unfold is_verb in Hv. apply Z.eqb_neq. intros ->. discriminate Hv. }
  rewrite Hne, Hv. unfold Telnet.feed at 1. cbn [rx with_rx].
  replace (with_rx _ RxData) with t by (by destruct t; cbn in *; subst).
  destruct (negotiate _ _ _ _ _ _) as [[event out] t']. rewrite app_nil_r. by destruct event.
Qed.

(** A subnegotiation is read up to its last byte without a trace but its body. *)
Definition subneg_head (opt : Z) (payload : list Z) : list Z := [IAC; SB; opt] ++ escape payload ++ [IAC].

Lemma subneg_head_read N opt payload t :
  rx t = RxData ->
  feed_all N (subneg_head opt payload) t = ([], [], with_rx (with_subneg t opt (take SB_CAP payload)) RxSubnegIac).
Proof.
  intros Ht. unfold subneg_head. rewrite (feed_all_app N [IAC; SB; opt]). cbn [Telnet.feed_all].
  unfold Telnet.feed at 1. rewrite Ht, Z.eqb_refl. unfold Telnet.feed at 1. cbn [rx with_rx]. unfold feed_iac.
  change (SB =? IAC) with false. change (is_verb SB) with false.
  rewrite Z.eqb_refl. unfold Telnet.feed at 1. cbn [rx with_rx].
  rewrite (feed_all_app N (escape payload)), feed_all_body by done. rewrite foldl_push by (cbn; lia).
  cbn [Telnet.feed_all subneg subneg_option with_subneg with_rx app]. unfold Telnet.feed at 1. cbn [rx with_subneg with_rx].
  rewrite Z.eqb_refl. done.
Qed.

Lemma subneg_end_read N t :
  rx t = RxSubnegIac -> feed N SE t [] = ((Some (Subnegotiation (subneg_option t)), []), with_rx t RxData).
Proof. intros Ht. unfold Telnet.feed. rewrite Ht, Z.eqb_refl. done. Qed.

(** A queued subnegotiation is read back as one event. *)
Lemma push_subnegotiation_frame M out opt payload :
  push_subnegotiation M out opt payload =
    if (M - length out <? length (subneg_head opt payload ++ [SE]))%nat then (false, out)
    else (true, out ++ subneg_head opt payload ++ [SE]).
Proof.
  unfold push_subnegotiation, subneg_head. rewrite !length_app, length_escape. cbn [length].
  replace (3 + (length payload + length (filter (fun byte => byte = IAC) payload) + 1) + 1)%nat with
    (5 + length payload + length (filter (fun byte => byte = IAC) payload))%nat by lia.
  destruct (_ <? _)%nat; [done|]. by rewrite <- !app_assoc.
Qed.

Lemma push_subnegotiation_read N M out opt payload t :
  rx t = RxData ->
  match push_subnegotiation M out opt payload with
  | (true, out') => (length out' <= Nat.max M (length out))%nat /\ exists frame, out' = out ++ frame /\
      feed_all N frame t = ([Subnegotiation opt], [], with_subneg t opt (take SB_CAP payload))
  | (false, out') => out' = out /\ (M < length out + 5 + length (escape payload))%nat
  end.
Proof.
  intros Ht. rewrite push_subnegotiation_frame.
  destruct (Nat.ltb_spec (M - length out) (length (subneg_head opt payload ++ [SE]))) as [Hl|Hl]; revert Hl;
    unfold subneg_head; rewrite !length_app; cbn [length]; intros Hl; [split; [done|lia]|].
  split; [lia|]. eexists. split; [reflexivity|]. change ([IAC; SB; opt] ++ escape payload ++ [IAC]) with (subneg_head opt payload).
  rewrite feed_all_app, subneg_head_read by done. cbn [Telnet.feed_all]. rewrite subneg_end_read by done. cbn. destruct t. cbn in *. by subst.
Qed.

(** ** Invariant and bounds *)

Record telnet_wf (t : Telnet) : Prop := {
  tw_subneg : (length (subneg t) <= SB_CAP)%nat;
  tw_options : (length (options t) <= OPTION_CAP)%nat;
  tw_distinct : NoDup (os_option <$> options t);
}.

Lemma telnet_new_wf p : telnet_wf (telnet_new p).
Proof. split; cbn; [lia|lia|constructor]. Qed.

Lemma NoDup_insert_fresh {A} (l : list A) i x : NoDup l -> x ∉ l -> NoDup (<[i := x]> l).
Proof.
  rewrite !NoDup_alt. intros Hnd Hx j k y Hj Hk.
  assert (Hl : forall m, <[i := x]> l !! m = Some y -> (m = i /\ y = x) \/ l !! m = Some y).
  { intros m [(<- & <- & _)|[_ Hm]]%list_lookup_insert_Some; auto. }
  apply Hl in Hj as [[-> ->]|Hj], Hk as [[-> E]|Hk]; [done| | |by eapply Hnd].
  - destruct Hx. by eapply list_elem_of_lookup_2.
  - subst. destruct Hx. by eapply list_elem_of_lookup_2.
Qed.

Lemma position_distinct (os : list OptionSlot) opt :
  position (fun s => os_option s =? opt) os = None -> opt ∉ os_option <$> os.
Proof.
  intros H%position_None. rewrite list_elem_of_fmap. intros (s & -> & Hs).
  rewrite Forall_forall in H. specialize (H s Hs). by rewrite Z.eqb_refl in H.
Qed.

(** The place found holds the option's slot: the one it had, or a new one. *)
Lemma slot_mut_spec os opt :
  (0 < OPTION_CAP)%nat -> (length os <= OPTION_CAP)%nat -> NoDup (os_option <$> os) ->
  let '(i, os') := slot_mut OPTION_CAP os opt in
  (length os' <= OPTION_CAP)%nat /\ NoDup (os_option <$> os') /\
  exists s, os' !! i = Some s /\ os_option s = opt /\ ((os' = os) \/ s = slot_new opt) /\
    forall s', s' ∈ os' -> s' ∈ os \/ s' = slot_new opt.
Proof.
  intros Hcap Hlen Hnd. unfold slot_mut. destruct (position _ os) as [i|] eqn:Ep.
  - apply position_Some in Ep as (s & Hs & Ho & _). apply Z.eqb_eq in Ho.
    split; [done|]. split; [done|]. exists s. split_and!; auto.
  - apply position_distinct in Ep. unfold extend. cbn [length].
    destruct (Nat.leb_spec (length os + 1) OPTION_CAP) as [Hle|Hgt].
    + split; [rewrite length_app; cbn; lia|]. split.
      * rewrite fmap_app. apply NoDup_app. split; [done|]. split; [|apply NoDup_singleton].
        cbn. intros x Hx ->%list_elem_of_singleton. done.
      * exists (slot_new opt). rewrite length_app. cbn [length]. replace (length os + 1 - 1)%nat with (length os + 0)%nat by lia.
        rewrite lookup_app_r, Nat.add_comm, Nat.add_sub by lia. split_and!; [done|done|by right|].
        intros s' [Hs'|Hs'%list_elem_of_singleton]%elem_of_app; auto.
    + set (i := default _ _). assert (Hi : (i < length os)%nat).
      { unfold i. destruct (position _ os) as [j|] eqn:Ej; cbn; [|lia]. apply position_Some in Ej as (s & Hs & _). by eapply lookup_lt_Some. }
      split; [by rewrite length_insert|]. split.
      * rewrite list_fmap_insert. cbn. by apply NoDup_insert_fresh.
      * exists (slot_new opt). rewrite list_lookup_insert_eq by done. split_and!; [done|done|by right|].
        intros s' [j Hj]%list_elem_of_lookup. apply list_lookup_insert_Some in Hj as [(_ & <- & _)|[_ Hj]]; [by right|].
        left. by eapply list_elem_of_lookup_2.
Qed.

Context (Hcap : (0 < OPTION_CAP)%nat).

(** What an operation on one slot keeps of the table. *)
Lemma at_slot_keeps {A} (Q : OptionSlot -> Prop) (B : A -> Prop) (t : Telnet) opt (none : A) f :
  telnet_wf t -> (forall s, s ∈ options t -> Q s) -> Q (slot_new opt) ->
  (forall s, os_option s = opt -> Q s -> Q (snd (f s)) /\ os_option (snd (f s)) = opt /\ B (fst (f s))) ->
  let '(a, t') := at_slot OPTION_CAP t opt none f in
  telnet_wf t' /\ (forall s, s ∈ options t' -> Q s) /\ B a /\
  policy t' = policy t /\ rx t' = rx t /\ subnegotiation t' = subnegotiation t.
Proof.
  intros [Hsub Hlen Hnd] HQ Hnew Hf. unfold at_slot. pose proof (slot_mut_spec (options t) opt Hcap Hlen Hnd) as H.
  destruct (slot_mut OPTION_CAP (options t) opt) as [i os]. destruct H as (Hlen' & Hnd' & s & Hi & Ho & _ & Hin).
  rewrite Hi. assert (Hs : Q s).
  { destruct (Hin s) as [Hs| ->]; [by eapply list_elem_of_lookup_2|by apply HQ|done]. }
  destruct (Hf s Ho Hs) as (HQ' & Ho' & HB). destruct (f s) as [a s']. cbn [fst snd] in *.
  split_and!; try done.
  - split; cbn [subneg options with_options]; [done|by rewrite length_insert|].
    rewrite list_fmap_insert, Ho', list_insert_id; [done|]. rewrite list_lookup_fmap, Hi. cbn. by rewrite Ho.
  - cbn [options with_options]. intros x [j Hj]%list_elem_of_lookup.
    apply list_lookup_insert_Some in Hj as [(_ & <- & _)|[_ Hj]]; [done|].
    apply list_elem_of_lookup_2, Hin in Hj as [Hx| ->]; [by apply HQ|done].
Qed.

(** What the policy rules out is off. *)
Definition refuses (p : P) (s : OptionSlot) : Prop :=
  (support_us p (os_option s) = false -> os_us s = No) /\ (support_him p (os_option s) = false -> os_him s = No).

Lemma receive_positive_no N q ok pv nv opt out : (ok = false -> q = No) ->
  ok = false -> fst (receive_positive N q ok pv nv opt out) = No.
Proof. intros Hq ->. rewrite Hq by done. cbn. unfold commanded. destruct (push_cmd _ _ _ _) as [fits ?]. by destruct fits. Qed.
Lemma receive_negative_no N pv nv opt out : fst (receive_negative N No pv nv opt out) = No.
Proof. done. Qed.

Lemma negotiate_keeps N t verb opt :
  telnet_wf t -> (forall s, s ∈ options t -> refuses (policy t) s) ->
  let '((event, out), t') := negotiate OPTION_CAP N t verb opt [] in
  telnet_wf t' /\ (forall s, s ∈ options t' -> refuses (policy t) s) /\ (length out <= 3)%nat /\
  policy t' = policy t /\ rx t' = rx t /\ subnegotiation t' = subnegotiation t.
Proof.
  intros Hw HQ. assert (Hnew : refuses (policy t) (slot_new opt)) by done.
  pose proof (at_slot_keeps (refuses (policy t)) (fun a : option TelnetEvent * list Z => (length (snd a) <= 3)%nat) t opt (None, [])) as Hk.
  assert (Hrun : forall f : OptionSlot -> (option TelnetEvent * list Z) * OptionSlot, (forall s, os_option s = opt -> refuses (policy t) s -> refuses (policy t) (snd (f s)) /\
     os_option (snd (f s)) = opt /\ (length (snd (fst (f s))) <= 3)%nat) ->
     let '((event, out), t') := at_slot OPTION_CAP t opt (None, []) f in
     telnet_wf t' /\ (forall s, s ∈ options t' -> refuses (policy t) s) /\ (length out <= 3)%nat /\
     policy t' = policy t /\ rx t' = rx t /\ subnegotiation t' = subnegotiation t).
  { intros f Hf. specialize (Hk f Hw HQ Hnew Hf). by destruct (at_slot _ _ _ _ _) as [[event out] t']. }
  clear Hk. unfold negotiate.
  destruct (verb =? DO); [|destruct (verb =? DONT); [|destruct (verb =? WILL); [|destruct (verb =? WONT)]]]; [apply Hrun..|].
  - intros s Ho [Hu Hh]. pose proof (receive_positive_length N (os_us s) (support_us (policy t) opt) WILL WONT opt []) as Hl.
    pose proof (receive_positive_no N (os_us s) (support_us (policy t) opt) WILL WONT opt []) as Hn.
    destruct (receive_positive _ _ _ _ _ _ _) as [q out]. cbn [fst snd] in *. rewrite Ho in *. split_and!; [|done|exact Hl].
    split; cbn; rewrite ?Ho; [|exact Hh]. by apply Hn.
  - intros s Ho [Hu Hh]. pose proof (receive_negative_length N (os_us s) WILL WONT opt []) as Hl.
    pose proof (receive_negative_no N WILL WONT opt []) as Hn. rewrite Ho in *.
    destruct (receive_negative N (os_us s) _ _ _ _) as [q out] eqn:E. cbn [fst snd] in *. split_and!; [|done|exact Hl].
    split; cbn; rewrite ?Ho; [|exact Hh]. intros Hs. rewrite (Hu Hs) in E. by rewrite E in Hn.
  - intros s Ho [Hu Hh]. pose proof (receive_positive_length N (os_him s) (support_him (policy t) opt) DO DONT opt []) as Hl.
    pose proof (receive_positive_no N (os_him s) (support_him (policy t) opt) DO DONT opt []) as Hn.
    destruct (receive_positive _ _ _ _ _ _ _) as [q out]. cbn [fst snd] in *. rewrite Ho in *. split_and!; [|done|exact Hl].
    split; cbn; rewrite ?Ho; [exact Hu|]. by apply Hn.
  - intros s Ho [Hu Hh]. pose proof (receive_negative_length N (os_him s) DO DONT opt []) as Hl.
    pose proof (receive_negative_no N DO DONT opt []) as Hn. rewrite Ho in *.
    destruct (receive_negative N (os_him s) _ _ _ _) as [q out] eqn:E. cbn [fst snd] in *. split_and!; [|done|exact Hl].
    split; cbn; rewrite ?Ho; [exact Hu|]. intros Hs. rewrite (Hh Hs) in E. by rewrite E in Hn.
  - split_and!; cbn; auto with lia.
Qed.

(** Bytes of a command under way. *)
Definition credit (r : RxState) : nat := match r with RxIac => 1 | RxVerb _ => 2 | _ => 0 end.

Lemma push_length {A} cap (v : list A) x : (length v <= cap -> length (push cap v x) <= cap)%nat.
Proof. unfold push. destruct (Nat.ltb_spec (length v) cap); rewrite ?length_app; cbn; lia. Qed.

Lemma feed_keeps N byte t :
  telnet_wf t -> (forall s, s ∈ options t -> refuses (policy t) s) ->
  let '((event, out), t') := feed N byte t [] in
  telnet_wf t' /\ (forall s, s ∈ options t' -> refuses (policy t) s) /\ policy t' = policy t /\
  (length out + credit (rx t') <= 1 + credit (rx t))%nat.
Proof.
  intros Hw HQ. unfold Telnet.feed. destruct Hw as [Hs Ho Hd].
  destruct (rx t) eqn:Er.
  - destruct (byte =? IAC); cbn; rewrite ?Er; split_and!; auto; cbn; try lia; by split.
  - unfold feed_iac. repeat case_match; simplify_eq/=; split_and!; auto; cbn; try lia; by split.
  - pose proof (negotiate_keeps N (with_rx t RxData) verb byte ltac:(by split) HQ) as H.
    destruct (negotiate _ _ _ _ _ _) as [[event out] t']. destruct H as (H1 & H2 & H3 & H4 & H5 & _).
    split_and!; auto. rewrite H5. cbn. lia.
  - cbn. split_and!; auto; try lia. split; cbn; [lia|done|done].
  - destruct (byte =? IAC); cbn; rewrite ?Er; split_and!; auto; cbn; try lia; [by split|].
    split; cbn; [by apply push_length|done|done].
  - destruct (byte =? SE); [cbn; split_and!; auto; cbn; try lia; by split|].
    destruct (byte =? IAC); cbn; split_and!; auto; cbn; try lia; [|by split].
    split; cbn; [by apply push_length|done|done].
Qed.

Lemma feed_all_keeps N bytes t :
  telnet_wf t -> (forall s, s ∈ options t -> refuses (policy t) s) ->
  let '(events, replies, t') := feed_all N bytes t in
  telnet_wf t' /\ (forall s, s ∈ options t' -> refuses (policy t) s) /\ policy t' = policy t /\
  (length events <= length bytes)%nat /\ (length replies + credit (rx t') <= length bytes + credit (rx t))%nat.
Proof.
  revert t. induction bytes as [|b bytes IH]; intros t Hw HQ; cbn [Telnet.feed_all].
  - split_and!; auto.
  - pose proof (feed_keeps N b t Hw HQ) as H. destruct (feed N b t []) as [[event out] t1].
    destruct H as (H1 & H2 & H3 & H4). specialize (IH t1 H1). rewrite H3 in IH. specialize (IH H2).
    destruct (feed_all N bytes t1) as [[events replies] t2]. destruct IH as (I1 & I2 & I3 & I4 & I5).
    split_and!; auto; [destruct event; cbn [length]; lia|]. rewrite length_app. cbn [length]. lia.
Qed.

Lemma slot_off (t : Telnet) opt : (forall s, s ∈ options t -> refuses (policy t) s) ->
  (support_us (policy t) opt = false -> us_enabled t opt = false /\ us_pending t opt = false) /\
  (support_him (policy t) opt = false -> him_enabled t opt = false /\ him_pending t opt = false).
Proof.
  intros HQ. unfold us_enabled, us_pending, him_enabled, him_pending, slot.
  destruct (find _ (options t)) as [s|] eqn:E; [|done]. apply find_some in E as [Hs Ho]. apply Z.eqb_eq in Ho.
  apply list_elem_of_In, HQ in Hs as [Hu Hh]. rewrite Ho in *. split; intros H; [by rewrite Hu|by rewrite Hh].
Qed.
End CodecFacts.

Section Theorems.
Context {P : Type} {PO : Policy P} (SB_CAP OPTION_CAP : nat).
Notation feed_all := (feed_all SB_CAP OPTION_CAP).

(** Both kinds of payload pass through unchanged: escaped data is read back byte by byte,
    answered by nothing and leaving no trace, and a queued subnegotiation is read back as
    one event whose body is the payload, up to the capacity of the reader; an encoder
    without room for all of the frame queues nothing of it. *)
Theorem framing_round_trip (N M : nat) (bytes out payload : list Z) (opt : Z) (t : Telnet P) :
  rx t = RxData ->
  feed_all N (escape bytes) t = (Data <$> bytes, [], t) /\
  match push_subnegotiation M out opt payload with
  | (true, out') => (length out' <= Nat.max M (length out))%nat /\ exists frame, out' = out ++ frame /\
      feed_all N frame t = ([Subnegotiation opt], [], with_subneg t opt (take SB_CAP payload))
  | (false, out') => out' = out /\ (M < length out + 5 + length (escape payload))%nat
  end.
Proof.
  intros Ht. split; [by apply feed_all_data|by apply push_subnegotiation_read].
Qed.

(** Whatever bytes a peer sends, to a session whose user has asked for nothing the policy
    rules out: the tables stay within their capacities, no more bytes are sent back than
    were received, there is at most one event per byte, and an option the policy rules
    out is neither enabled nor under negotiation on its side. *)
Theorem peer_input_bounded (N : nat) (bytes : list Z) (p : P) (opt : Z) :
  (0 < OPTION_CAP)%nat ->
  let '(events, replies, t) := feed_all N bytes (telnet_new p) in
  (length (options t) <= OPTION_CAP)%nat /\ (length (subneg t) <= SB_CAP)%nat /\
  (length replies <= length bytes)%nat /\ (length events <= length bytes)%nat /\
  (support_us p opt = false -> us_enabled t opt = false /\ us_pending t opt = false) /\
  (support_him p opt = false -> him_enabled t opt = false /\ him_pending t opt = false).
Proof.
  intros Hcap. pose proof (feed_all_keeps SB_CAP OPTION_CAP Hcap N bytes (telnet_new p) (telnet_new_wf _ _ p)) as H.
  specialize (H ltac:(cbn; by intros s []%elem_of_nil)). destruct (feed_all N bytes (telnet_new p)) as [[events replies] t].
  destruct H as (Hw & HQ & Hp & He & Hr). cbn [credit telnet_new rx] in Hr.
  split_and!; [apply Hw|apply Hw|lia|lia|..]; cbn in Hp; subst p; by apply slot_off.
Qed.

End Theorems.

(** ** Witnesses *)

Lemma framing_round_trip_witness :
  feed_all 8 4 16 [104; 255; 255; 105] (telnet_new reject_all) = ([Data 104; Data 255; Data 105], [], telnet_new reject_all).
Proof. exact (proj1 (framing_round_trip 8 4 16 64 [104; 255; 105] [] [] 0 (telnet_new reject_all) eq_refl)). Defined.

Lemma peer_input_bounded_witness :
  let '(events, replies, t) := feed_all 8 4 16 [IAC; DO; OPT_ECHO; IAC; WILL; OPT_NAWS] (telnet_new reject_all) in
  replies = [IAC; WONT; OPT_ECHO; IAC; DONT; OPT_NAWS] /\ us_enabled t OPT_ECHO = false.
Proof.
  pose proof (peer_input_bounded 8 4 16 [IAC; DO; OPT_ECHO; IAC; WILL; OPT_NAWS] reject_all OPT_ECHO ltac:(lia)) as H.
  assert (E : snd (fst (feed_all 8 4 16 [IAC; DO; OPT_ECHO; IAC; WILL; OPT_NAWS] (telnet_new reject_all))) =
              [IAC; WONT; OPT_ECHO; IAC; DONT; OPT_NAWS]) by (vm_compute; reflexivity).
  destruct (feed_all _ _ _ _ _) as [[events replies] t]. split; [exact E|].
  destruct H as (_ & _ & _ & _ & H & _). by apply H.
Defined.
