(* ===== verification/TelnetPair.v ===== *)
(** * Option negotiation between two endpoints

    One direction of one option: the endpoint that performs it ([os_us] of its slot)
    and the one it is performed for ([os_him] of its slot), joined by two queues of
    commands. The users of both may ask for the option or against it at any time. *)

From S2P Require Import Prelude Telnet.
Local Open Scope nat_scope.

(** ** The joint state machine *)

Record Ends := mkEnds {
  performer : QState;
  observer : QState;
  to_observer : list Z;      (* WILL and WONT under way *)
  to_performer : list Z;     (* DO and DONT under way *)
}.

#[export] Instance Ends_eq_dec : EqDecision Ends.
Proof. solve_decision. Defined.

Section Pair.
(** The option, and what the policies of the two endpoints support. *)
Context (opt : Z) (perform_ok observe_ok : bool).

(** The verb of the command an operation left in an empty buffer. *)
Definition sent_verb (out : list Z) : list Z := match out with [_; verb; _] => [verb] | _ => [] end.

Definition ask_performer (enable : bool) (s : Ends) : Ends :=
  let '(q, out) := request_state 3 (performer s) enable WILL WONT opt [] in
  mkEnds q (observer s) (to_observer s ++ sent_verb out) (to_performer s).
Definition ask_observer (enable : bool) (s : Ends) : Ends :=
  let '(q, out) := request_state 3 (observer s) enable DO DONT opt [] in
  mkEnds (performer s) q (to_observer s) (to_performer s ++ sent_verb out).

(** The reception of the next command, if there is one. *)
Definition at_performer (s : Ends) : option Ends :=
  match to_performer s with
  | [] => None
  | verb :: rest =>
      let '(q, out) :=
        if (verb =? DO)%Z then receive_positive 3 (performer s) perform_ok WILL WONT opt []
        else receive_negative 3 (performer s) WILL WONT opt [] in
      Some (mkEnds q (observer s) (to_observer s ++ sent_verb out) rest)
  end.
Definition at_observer (s : Ends) : option Ends :=
  match to_observer s with
  | [] => None
  | verb :: rest =>
      let '(q, out) :=
        if (verb =? WILL)%Z then receive_positive 3 (observer s) observe_ok DO DONT opt []
        else receive_negative 3 (observer s) DO DONT opt [] in
      Some (mkEnds (performer s) q rest (to_performer s ++ sent_verb out))
  end.

Inductive delivers : Ends -> Ends -> Prop :=
| AtPerformer s s' : at_performer s = Some s' -> delivers s s'
| AtObserver s s' : at_observer s = Some s' -> delivers s s'.

Inductive steps : Ends -> Ends -> Prop :=
| StepDelivers s s' : delivers s s' -> steps s s'
| StepAskPerformer enable s : steps s (ask_performer enable s)
| StepAskObserver enable s : steps s (ask_observer enable s).

Definition fresh : Ends := mkEnds No No [] [].

Inductive reached : Ends -> Prop :=
| ReachedFresh : reached fresh
| ReachedStep s s' : reached s -> steps s s' -> reached s'.

(** [k] commands delivered, in any order. *)
Inductive delivered : nat -> Ends -> Ends -> Prop :=
| DeliveredNone s : delivered 0 s s
| DeliveredOne k s s' s'' : delivers s s' -> delivered k s' s'' -> delivered (S k) s s''.

Definition quiet (s : Ends) : Prop := to_observer s = [] /\ to_performer s = [].
Definition agree (s : Ends) : Prop :=
  (performer s = Yes /\ observer s = Yes) \/ (performer s = No /\ observer s = No).

(** ** The reachable states are few *)

Definition moves_of (s : Ends) : list Ends := omap id [at_performer s; at_observer s].
Definition successors (s : Ends) : list Ends :=
  moves_of s ++ [ask_performer true s; ask_performer false s; ask_observer true s; ask_observer false s].

Fixpoint explore (fuel : nat) (seen todo : list Ends) : list Ends :=
  match fuel, todo with
  | S fuel, s :: todo =>
      if bool_decide (s ∈ seen) then explore fuel seen todo else explore fuel (s :: seen) (successors s ++ todo)
  | _, _ => seen
  end.

Definition closed (l : list Ends) : bool := forallb (fun s => forallb (fun s' => bool_decide (s' ∈ l)) (successors s)) l.

Definition agreeb (s : Ends) : bool :=
  match performer s, observer s with Yes, Yes | No, No => true | _, _ => false end.

(** Every order of delivery ends within [k] commands, in a state that is [ok]. *)
Fixpoint settles (ok : Ends -> bool) (k : nat) (s : Ends) : bool :=
  match moves_of s with
  | [] => ok s
  | l => match k with O => false | S k => forallb (settles ok k) l end
  end.

Definition in_flight (s : Ends) : nat := length (to_observer s) + length (to_performer s).

End Pair.

(** The table of reachable states, for each pair of policies. *)
Definition table (perform_ok observe_ok : bool) : list Ends := explore OPT_BINARY perform_ok observe_ok 400 [] [fresh].

(** ** Lemmas *)

(** The option only labels the commands. *)
Definition sent (r : QState * list Z) : QState * list Z := (fst r, sent_verb (snd r)).

Lemma sent_request q enable pv nv opt :
  sent (request_state 3 q enable pv nv opt []) = sent (request_state 3 q enable pv nv OPT_BINARY []).
Proof. by destruct q, enable. Qed.
Lemma sent_positive q ok pv nv opt :
  sent (receive_positive 3 q ok pv nv opt []) = sent (receive_positive 3 q ok pv nv OPT_BINARY []).
Proof. by destruct q, ok. Qed.
Lemma sent_negative q pv nv opt :
  sent (receive_negative 3 q pv nv opt []) = sent (receive_negative 3 q pv nv OPT_BINARY []).
Proof. by destruct q. Qed.

Lemma sent_congr {A} (r r' : QState * list Z) (f : QState -> list Z -> A) :
  sent r = sent r' -> (let '(q, out) := r in f q (sent_verb out)) = (let '(q, out) := r' in f q (sent_verb out)).
Proof. destruct r, r'. unfold sent. cbn. by intros [= -> ->]. Qed.

Lemma at_performer_opt opt p s : at_performer opt p s = at_performer OPT_BINARY p s.
Proof.
  unfold at_performer. destruct (to_performer s) as [|v l]; [done|].
  apply (sent_congr _ _ (fun q sv => Some (mkEnds q (observer s) (to_observer s ++ sv) l))).
  destruct (v =? DO)%Z; [apply sent_positive|apply sent_negative].
Qed.
Lemma at_observer_opt opt o s : at_observer opt o s = at_observer OPT_BINARY o s.
Proof.
  unfold at_observer. destruct (to_observer s) as [|v l]; [done|].
  apply (sent_congr _ _ (fun q sv => Some (mkEnds (performer s) q l (to_performer s ++ sv)))).
  destruct (v =? WILL)%Z; [apply sent_positive|apply sent_negative].
Qed.
Lemma ask_performer_opt opt enable s : ask_performer opt enable s = ask_performer OPT_BINARY enable s.
Proof. apply (sent_congr _ _ (fun q sv => mkEnds q (observer s) (to_observer s ++ sv) (to_performer s))), sent_request. Qed.
Lemma ask_observer_opt opt enable s : ask_observer opt enable s = ask_observer OPT_BINARY enable s.
Proof. apply (sent_congr _ _ (fun q sv => mkEnds (performer s) q (to_observer s) (to_performer s ++ sv))), sent_request. Qed.

Lemma moves_opt opt p o s : moves_of opt p o s = moves_of OPT_BINARY p o s.
Proof. unfold moves_of. by rewrite at_performer_opt, at_observer_opt. Qed.

Lemma successors_opt opt p o s : successors opt p o s = successors OPT_BINARY p o s.
Proof.
  unfold successors. rewrite moves_opt, !(ask_performer_opt opt), !(ask_observer_opt opt). done.
Qed.

Lemma table_is_closed p o : closed OPT_BINARY p o (table p o) = true.
Proof. destruct p, o; vm_compute; reflexivity. Qed.
Lemma table_fresh p o : fresh ∈ table p o.
Proof. destruct p, o; refine (bool_decide_eq_true_1 _ _); vm_compute; reflexivity. Qed.
Lemma table_settles p o :
  forallb (fun s => (in_flight s <=? 2) && settles OPT_BINARY p o agreeb 5 s) (table p o) = true.
Proof. destruct p, o; vm_compute; reflexivity. Qed.

(** From here on the table is only known by these facts. *)
#[local] Opaque table.

Lemma table_closed p o s s' : s ∈ table p o -> s' ∈ successors OPT_BINARY p o s -> s' ∈ table p o.
Proof.
  intros Hs Hs'. pose proof (table_is_closed p o) as H. unfold closed in H. rewrite forallb_forall in H. specialize (H s ltac:(by apply list_elem_of_In)).
  rewrite forallb_forall in H. specialize (H s' ltac:(by apply list_elem_of_In)). by apply bool_decide_eq_true in H.
Qed.

Lemma delivers_moves opt p o s s' : delivers opt p o s s' <-> s' ∈ moves_of opt p o s.
Proof.
  unfold moves_of. rewrite list_elem_of_omap. split.
  - intros [s0 s1 E|s0 s1 E]; exists (Some s1); rewrite !elem_of_cons; auto.
  - intros (x & Hx & E). cbn in E. subst x. apply elem_of_cons in Hx as [Hx|Hx]; [by apply AtPerformer|].
    apply elem_of_cons in Hx as [Hx|Hx]; [by apply AtObserver|by apply elem_of_nil in Hx].
Qed.

Lemma steps_successors opt p o s s' : steps opt p o s s' -> s' ∈ successors OPT_BINARY p o s.
Proof.
  rewrite <- (successors_opt opt). unfold successors. rewrite elem_of_app. intros [s0 s1 H|en s0|en s0].
  - left. by apply delivers_moves.
  - right. destruct en; rewrite !elem_of_cons; auto.
  - right. destruct en; rewrite !elem_of_cons; auto 6.
Qed.

Lemma reached_table opt p o s : reached opt p o s -> s ∈ table p o.
Proof.
  induction 1 as [|s s' _ IH Hs].
  - apply table_fresh.
  - eapply table_closed; [exact IH|]. by eapply steps_successors.
Qed.

Lemma agreeb_iff s : agreeb s = true <-> agree s.
Proof. unfold agreeb, agree. destruct (performer s), (observer s); naive_solver. Qed.

Lemma stuck_quiet opt p o s : moves_of opt p o s = [] <-> quiet s.
Proof.
  destruct s as [q1 q2 l1 l2]. unfold moves_of, quiet, at_performer, at_observer. cbn [to_observer to_performer].
  destruct l1 as [|v1 l1], l2 as [|v2 l2]; cbn; repeat case_match; naive_solver.
Qed.

Lemma settles_delivered opt p o ok n s :
  settles opt p o ok n s = true -> forall k s', delivered opt p o k s s' ->
  k <= n /\ (quiet s' -> ok s' = true).
Proof.
  revert s. induction n as [|n IH]; intros s Hs k s' Hd; cbn [settles] in Hs.
  - destruct (moves_of opt p o s) as [|x l] eqn:El; [|done].
    destruct Hd as [s|k s s1 s' H _]; [done|].
    apply delivers_moves in H. rewrite El in H. by apply elem_of_nil in H.
  - destruct Hd as [s|k s s1 s' H Hd].
    + split; [lia|]. intros Hq. apply (stuck_quiet opt p o) in Hq. by rewrite Hq in Hs.
    + apply delivers_moves in H. destruct (moves_of opt p o s) as [|x l] eqn:El; [by apply elem_of_nil in H|].
      rewrite forallb_forall in Hs. specialize (Hs s1 ltac:(by apply list_elem_of_In)).
      destruct (IH s1 Hs k s' Hd). split; [lia|done].
Qed.

Lemma settles_opt opt p o ok n s : settles opt p o ok n s = settles OPT_BINARY p o ok n s.
Proof.
  revert s. induction n as [|n IH]; intros s; cbn [settles]; rewrite moves_opt; [done|].
  destruct (moves_of OPT_BINARY p o s) as [|x l]; [done|]. generalize (x :: l). intros l0.
  induction l0 as [|y l0 IHl]; cbn; [done|]. by rewrite IH, IHl.
Qed.

(** Both ends at rest in the same state. *)
Definition rest (q : QState) : Ends := mkEnds q q [] [].

Lemma outcome_settles p o :
  let ends q s := bool_decide (s = rest q) in
  settles OPT_BINARY p o (ends (if o then Yes else No)) 5 (ask_performer OPT_BINARY true (rest No)) = true /\
  settles OPT_BINARY p o (ends (if p then Yes else No)) 5 (ask_observer OPT_BINARY true (rest No)) = true /\
  settles OPT_BINARY p o (ends No) 5 (ask_performer OPT_BINARY false (rest Yes)) = true /\
  settles OPT_BINARY p o (ends No) 5 (ask_observer OPT_BINARY false (rest Yes)) = true.
Proof. destruct p, o; vm_compute; repeat split. Qed.

(** ** Theorems *)

(** C21: Negotiation of an option terminates in agreement. Whatever the two users ask for and
    whatever the endpoints support, at most two commands are under way, at most five more
    are delivered before the line falls silent unless a user asks again, and then both
    endpoints hold the option enabled or both hold it disabled. *)
Theorem negotiation_converges (opt : Z) (perform_ok observe_ok : bool) (s : Ends) :
  reached opt perform_ok observe_ok s ->
  in_flight s <= 2 /\
  forall k s', delivered opt perform_ok observe_ok k s s' -> k <= 5 /\ (quiet s' -> agree s').
Proof.
  intros Hr%reached_table. pose proof (table_settles perform_ok observe_ok) as H.
  rewrite forallb_forall in H. specialize (H s ltac:(by apply list_elem_of_In)).
  apply andb_true_iff in H as [Hf Hs]. apply Nat.leb_le in Hf. split; [done|].
  intros k s' Hd. rewrite <- (settles_opt opt) in Hs.
  destruct (settles_delivered opt _ _ _ _ _ Hs k s' Hd) as [Hk Hq]. split; [done|]. intros H. by apply agreeb_iff, Hq.
Qed.

(** What a request comes to, from a line at rest: an option asked for is enabled at both
    ends exactly when the other endpoint supports it, whichever end asks, and an option
    asked against is disabled at both. *)
Theorem negotiation_outcome (opt : Z) (perform_ok observe_ok : bool) (k : nat) (s' : Ends) :
  quiet s' ->
  (delivered opt perform_ok observe_ok k (ask_performer opt true (rest No)) s' -> s' = rest (if observe_ok then Yes else No)) /\
  (delivered opt perform_ok observe_ok k (ask_observer opt true (rest No)) s' -> s' = rest (if perform_ok then Yes else No)) /\
  (delivered opt perform_ok observe_ok k (ask_performer opt false (rest Yes)) s' -> s' = rest No) /\
  (delivered opt perform_ok observe_ok k (ask_observer opt false (rest Yes)) s' -> s' = rest No).
Proof.
  intros Hq. destruct (outcome_settles perform_ok observe_ok) as (H1 & H2 & H3 & H4).
  rewrite <- (settles_opt opt), <- (ask_performer_opt opt) in H1, H3. rewrite <- (settles_opt opt), <- (ask_observer_opt opt) in H2, H4.
  split_and!; intros Hd; eapply bool_decide_eq_true_1;
    [eapply (settles_delivered _ _ _ _ _ _ H1)|eapply (settles_delivered _ _ _ _ _ _ H2)
    |eapply (settles_delivered _ _ _ _ _ _ H3)|eapply (settles_delivered _ _ _ _ _ _ H4)]; done.
Qed.

(** ** Witnesses *)

(** Both users ask for the option at once. *)
Definition crossed : Ends := ask_observer OPT_BINARY true (ask_performer OPT_BINARY true fresh).

Lemma crossed_reached : reached OPT_BINARY true true crossed.
Proof. eapply ReachedStep; [eapply ReachedStep; [constructor|apply StepAskPerformer]|apply StepAskObserver]. Qed.

Lemma negotiation_converges_witness : agree (rest Yes).
Proof.
  destruct (negotiation_converges OPT_BINARY true true crossed crossed_reached) as [_ H].
  refine (proj2 (H 2 (rest Yes) _) _); [|done].
  eapply DeliveredOne; [apply AtPerformer; reflexivity|].
  eapply DeliveredOne; [apply AtObserver; reflexivity|]. constructor.
Defined.

Lemma negotiation_outcome_witness : rest Yes = rest (if true then Yes else No).
Proof.
  refine (proj1 (negotiation_outcome OPT_BINARY true true 2 (rest Yes) _) _); [done|].
  eapply DeliveredOne; [apply AtObserver; reflexivity|].
  eapply DeliveredOne; [apply AtPerformer; reflexivity|]. constructor.
Defined.
