(* ===== verification/TelnetTable.v ===== *)
(** * The option table of the codec as a map

    [slot_mut] recycles slots of a full table. As long as fewer options than slots can have
    state, none of that is visible: the table is a total map from options to states. *)

From S2P Require Import Prelude Telnet.
Local Open Scope Z_scope.

Section Table.
Context {P : Type} {PO : Policy P} (OPTION_CAP : nat) (keep : list Z).
Notation Telnet := (Telnet P).
Implicit Types (os : list OptionSlot) (s : OptionSlot) (t : Telnet).

(** The state of an option that has no slot is that of a new one. *)
Definition view (t : Telnet) (opt : Z) : OptionSlot := default (slot_new opt) (slot t opt).

Definition stateless (s : OptionSlot) : Prop := os_us s = No /\ os_him s = No.

(** Only the options of [keep] have state. *)
Record table_ok (t : Telnet) : Prop := {
  to_length : (length (options t) <= OPTION_CAP)%nat;
  to_distinct : NoDup (os_option <$> options t);
  to_keep : forall s, s ∈ options t -> os_option s ∈ keep \/ stateless s;
}.

Lemma table_ok_new p : table_ok (telnet_new p).
Proof. split; cbn; [lia|constructor|]. by intros s []%elem_of_nil. Qed.

(** [s] is what a map with these slots has for [opt]. *)
Definition holds_at os (opt : Z) s : Prop :=
  os_option s = opt /\ (s ∈ os \/ (opt ∉ os_option <$> os /\ s = slot_new opt)).

Lemma view_spec t opt : holds_at (options t) opt (view t opt).
Proof.
  unfold view, slot, holds_at. destruct (find _ (options t)) as [s|] eqn:E; cbn.
  - apply find_some in E as [Hs Ho%Z.eqb_eq]. split; [done|]. left. by apply list_elem_of_In.
  - split; [done|]. right. split; [|done]. intros (s & -> & Hs)%list_elem_of_fmap.
    apply list_elem_of_In in Hs. apply (find_none _ _ E) in Hs. by rewrite Z.eqb_refl in Hs.
Qed.

Lemma holds_at_unique os opt s s' : NoDup (os_option <$> os) -> holds_at os opt s -> holds_at os opt s' -> s = s'.
Proof.
  intros Hnd [Ho [Hs|[Hn ->]]] [Ho' [Hs'|[Hn' ->]]]; [|destruct Hn'|destruct Hn|done].
  - apply list_elem_of_lookup in Hs as [i Hi], Hs' as [j Hj].
    assert (i = j) as <-; [|congruence]. apply (NoDup_lookup _ _ _ opt Hnd); rewrite list_lookup_fmap, ?Hi, ?Hj; cbn; congruence.
  - rewrite <- Ho. by apply list_elem_of_fmap_2.
  - rewrite <- Ho'. by apply list_elem_of_fmap_2.
Qed.

Lemma view_is t opt s : NoDup (os_option <$> options t) -> holds_at (options t) opt s -> view t opt = s.
Proof. intros Hnd Hs. eapply holds_at_unique; [exact Hnd|apply view_spec|exact Hs]. Qed.

Context (Hcap : (length keep < OPTION_CAP)%nat).

(** A full table has a slot without state. *)
Lemma full_has_stateless t :
  table_ok t -> (OPTION_CAP <= length (options t))%nat ->
  exists s, s ∈ options t /\ is_no (os_us s) && is_no (os_him s) = true.
Proof.
  intros [Hl Hd Hk] Hfull.
  destruct (decide (Exists (fun s => is_no (os_us s) && is_no (os_him s) = true) (options t))) as [H|H].
  - by apply Exists_exists in H.
  - apply not_Exists_Forall in H; [|intros ?; apply _]. exfalso.
    enough (length (os_option <$> options t) <= length keep)%nat by (rewrite length_fmap in *; lia).
    apply submseteq_length, NoDup_submseteq; [done|]. intros o (s & -> & Hs)%list_elem_of_fmap.
    destruct (Hk s Hs) as [|[Hu Hh]]; [done|]. rewrite Forall_forall in H. destruct (H s Hs). by rewrite Hu, Hh.
Qed.

Lemma elem_of_insert_iff {A} (l : list A) i x y :
  (i < length l)%nat -> x ∈ <[i := y]> l <-> x = y \/ exists j, j <> i /\ l !! j = Some x.
Proof.
  intros Hi. rewrite list_elem_of_lookup. split.
  - intros [j [(-> & -> & _)|[Hj H]]%list_lookup_insert_Some]; [by left|right; exists j; auto].
  - intros [->|(j & Hj & H)]; [exists i; by apply list_lookup_insert_eq|].
    exists j. by rewrite list_lookup_insert_ne.
Qed.

(** The table [slot_mut] leaves has the same contents, with a slot for [opt]. *)
Lemma slot_mut_view t opt :
  table_ok t ->
  let '(i, os) := slot_mut OPTION_CAP (options t) opt in
  table_ok (with_options t os) /\ os !! i = Some (view t opt) /\ forall o, view (with_options t os) o = view t o.
Proof.
  intros Hok. pose proof (slot_mut_spec OPTION_CAP (options t) opt ltac:(lia) (to_length t Hok) (to_distinct t Hok)) as Hspec.
  unfold slot_mut in *. destruct (position _ (options t)) as [i|] eqn:Ep.
  { destruct Hspec as (_ & _ & s & Hi & Ho & _). destruct t. split; [done|]. split; [|done].
    rewrite Hi. f_equal. symmetry. apply view_is; [apply Hok|]. split; [done|left]. by eapply list_elem_of_lookup_2. }
  apply position_distinct in Ep. unfold extend in *.
  destruct (Nat.leb_spec (length (options t) + length [slot_new opt]) OPTION_CAP) as [Hle|Hgt]; cbn [length] in *.
  - destruct Hspec as (Hl & Hd & s & Hi & Ho & _ & Hin). split.
    { split; cbn [options with_options]; [done|done|]. intros x [Hx| ->]%Hin; [by apply Hok|by right]. }
    assert (Hs : view t opt = slot_new opt) by (apply view_is; [apply Hok|]; split; auto). split.
    { rewrite Hs, Hi. rewrite length_app in Hi. cbn [length] in Hi. rewrite lookup_app_r in Hi by lia.
      replace (length (options t) + 1 - 1 - length (options t))%nat with 0%nat in Hi by lia. by injection Hi as <-. }
    intros o. apply view_is; [done|]. cbn [options with_options]. destruct (view_spec t o) as [Hv Hc]. split; [done|].
    rewrite fmap_app, !elem_of_app, list_elem_of_singleton. destruct Hc as [Hc|[Hc ->]]; [auto|]. cbn [os_option slot_new] in *.
    destruct (decide (o = opt)) as [->|Hne]; [auto|right; split; [|done]]. intros [|H%list_elem_of_singleton]; [done|]. by apply Hne.
  - destruct Hspec as (Hl & Hd & s & Hi & Ho & _ & Hin).
    destruct (full_has_stateless t Hok ltac:(lia)) as (z & Hz & Hzb).
    destruct (position (fun s => is_no (os_us s) && is_no (os_him s)) (options t)) as [i|] eqn:Ej.
    2: { apply position_None in Ej. rewrite Forall_forall in Ej. specialize (Ej z Hz). congruence. }
    apply position_Some in Ej as (old & Hold & Hno & _). cbn [default from_option id] in *.
    assert (Hlt : (i < length (options t))%nat) by by eapply lookup_lt_Some.
    assert (Hs : view t opt = slot_new opt) by (apply view_is; [apply Hok|]; split; auto).
    rewrite list_lookup_insert_eq in Hi by done. split.
    { split; cbn [options with_options]; [done|done|]. intros x [Hx| ->]%Hin; [by apply Hok|by right]. }
    split; [by rewrite list_lookup_insert_eq, Hs by done|].
    intros o. apply view_is; [done|]. cbn [options with_options]. destruct (view_spec t o) as [Hv Hc]. split; [done|].
    rewrite elem_of_insert_iff by done. destruct (decide (o = opt)) as [->|Hne]; [rewrite Hs; auto|].
    destruct Hc as [[j Hj]%list_elem_of_lookup|[Hc ->]].
    + destruct (decide (j = i)) as [->|Hji]; [|left; right; eauto]. right. replace old with (view t o) in * by congruence.
      destruct (view t o) as [vo vu vh]. destruct vu, vh; try discriminate Hno. cbn in Hv. subst vo. split; [|done].
      rewrite list_fmap_insert. cbn [os_option slot_new]. rewrite elem_of_insert_iff by by rewrite length_fmap.
      intros [|(k & Hk & H)]; [done|]. destruct Hk. eapply NoDup_lookup; [apply Hok|exact H|].
      by rewrite list_lookup_fmap, Hold.
    + right. split; [|done]. rewrite list_fmap_insert. cbn [os_option slot_new]. rewrite elem_of_insert_iff by by rewrite length_fmap.
      intros [|(k & Hk & H)]; [done|]. destruct Hc. by eapply list_elem_of_lookup_2.
Qed.

Lemma at_slot_view {A} t opt (none : A) f :
  table_ok t ->
  (forall s, os_option s = opt -> os_option (snd (f s)) = opt) ->
  (opt ∈ keep \/ stateless (snd (f (view t opt)))) ->
  let '(a, t') := at_slot OPTION_CAP t opt none f in
  a = fst (f (view t opt)) /\ table_ok t' /\ policy t' = policy t /\ rx t' = rx t /\
  subnegotiation t' = subnegotiation t /\
  forall o, view t' o = if decide (o = opt) then snd (f (view t opt)) else view t o.
Proof.
  intros Hok Hf Hkeep. unfold at_slot. pose proof (slot_mut_view t opt Hok) as H.
  destruct (slot_mut OPTION_CAP (options t) opt) as [i os]. destruct H as (Hok' & Hi & Hview). rewrite Hi.
  pose proof (proj1 (view_spec t opt)) as Ho. specialize (Hf _ Ho).
  destruct (f (view t opt)) as [a s'] eqn:Ef. cbn [fst snd] in *.
  assert (Hlt : (i < length os)%nat) by by eapply lookup_lt_Some.
  destruct Hok' as [Hl Hd Hk]. cbn [options with_options] in *.
  assert (Hopts : os_option <$> <[i := s']> os = os_option <$> os).
  { rewrite list_fmap_insert, Hf, list_insert_id; [done|]. rewrite list_lookup_fmap, Hi. cbn. by rewrite Ho. }
  split; [done|]. split.
  { split; cbn [options with_options]; [by rewrite length_insert|by rewrite Hopts|].
    intros x [->|(j & _ & Hj)]%elem_of_insert_iff; [rewrite Hf; by destruct Hkeep; auto| |done].
    apply Hk. by eapply list_elem_of_lookup_2. }
  split; [done|]. split; [done|]. split; [done|]. intros o. apply view_is; cbn [options with_options]; [by rewrite Hopts|].
  destruct (decide (o = opt)) as [->|Hne].
  - split; [done|]. left. rewrite elem_of_insert_iff by done. by left.
  - pose proof (view_spec (with_options t os) o) as Hc. rewrite Hview in Hc. destruct Hc as [Hv Hc]. split; [done|].
    rewrite Hopts. destruct Hc as [Hc|Hc]; [left|by right]. apply elem_of_insert_iff; [done|]. right.
    cbn [options with_options] in Hc. apply list_elem_of_lookup in Hc as [j Hj]. exists j. split; [|done]. congruence.
Qed.

(** ** The operations on the map *)

(** The map's own version of an operation: the state of one option. *)
Definition receive_at (N : nat) (p : P) (verb opt : Z) (s : OptionSlot) : (option TelnetEvent * list Z) * OptionSlot :=
  if verb =? DO then
    let '(q, out) := receive_positive N (os_us s) (support_us p opt) WILL WONT opt [] in
    ((transition_event Us opt (is_yes (os_us s)) (is_yes q), out), with_us s q)
  else if verb =? DONT then
    let '(q, out) := receive_negative N (os_us s) WILL WONT opt [] in
    ((refusal_event Us opt (os_us s) q, out), with_us s q)
  else if verb =? WILL then
    let '(q, out) := receive_positive N (os_him s) (support_him p opt) DO DONT opt [] in
    ((transition_event Him opt (is_yes (os_him s)) (is_yes q), out), with_him s q)
  else if verb =? WONT then
    let '(q, out) := receive_negative N (os_him s) DO DONT opt [] in
    ((refusal_event Him opt (os_him s) q, out), with_him s q)
  else ((None, []), s).

Lemma receive_at_option N p verb opt s : os_option (snd (receive_at N p verb opt s)) = os_option s.
Proof.
  unfold receive_at. destruct (verb =? DO); [by destruct receive_positive|]. destruct (verb =? DONT); [by destruct receive_negative|].
  destruct (verb =? WILL); [by destruct receive_positive|]. destruct (verb =? WONT); [by destruct receive_negative|done].
Qed.

(** Only an option the policy supports gains state. *)
Lemma receive_at_stateless N p verb opt s :
  support_us p opt = false -> support_him p opt = false -> stateless s -> stateless (snd (receive_at N p verb opt s)).
Proof.
  intros Hu Hh [Hsu Hsh]. unfold receive_at. rewrite Hu, Hh, Hsu, Hsh. cbn [receive_positive receive_negative].
  unfold commanded. destruct (push_cmd N [] WONT opt) as [b1 o1], (push_cmd N [] DONT opt) as [b2 o2].
  destruct (verb =? DO); [by destruct b1|]. destruct (verb =? DONT); [done|].
  destruct (verb =? WILL); [by destruct b2|]. by destruct (verb =? WONT).
Qed.

Definition keeps (p : P) : Prop := forall opt, opt ∈ keep \/ (support_us p opt = false /\ support_him p opt = false).

Lemma view_stateless t opt : table_ok t -> opt ∈ keep \/ stateless (view t opt).
Proof.
  intros Hok. destruct (view_spec t opt) as [Ho [Hs|[_ ->]]]; [|by right].
  apply (to_keep t Hok) in Hs. by rewrite Ho in Hs.
Qed.

Lemma at_slot_ext {A} t opt (none : A) f g :
  (forall s, f s = g s) -> at_slot OPTION_CAP t opt none f = at_slot OPTION_CAP t opt none g.
Proof. intros E. unfold at_slot. destruct (slot_mut _ _ _) as [i os]. destruct (os !! i); [by rewrite E|done]. Qed.

(** What [negotiate] does to a table is what [receive_at] does to the map. *)
Definition moves_at (t t' : Telnet) (opt : Z) (s' : OptionSlot) : Prop :=
  table_ok t' /\ policy t' = policy t /\ rx t' = rx t /\ subnegotiation t' = subnegotiation t /\
  forall o, view t' o = if decide (o = opt) then s' else view t o.

Lemma negotiate_view N t verb opt :
  table_ok t -> keeps (policy t) -> is_verb verb = true ->
  let '(r, t') := negotiate OPTION_CAP N t verb opt [] in
  r = fst (receive_at N (policy t) verb opt (view t opt)) /\
  moves_at t t' opt (snd (receive_at N (policy t) verb opt (view t opt))).
Proof.
  intros Hok Hkeep Hv.
  assert (E : negotiate OPTION_CAP N t verb opt [] = at_slot OPTION_CAP t opt (None, []) (receive_at N (policy t) verb opt)).
  { unfold negotiate. unfold is_verb in Hv.
    destruct (verb =? DO) eqn:E1; [apply at_slot_ext; intros s; unfold receive_at; by rewrite E1|].
    destruct (verb =? DONT) eqn:E2; [apply at_slot_ext; intros s; unfold receive_at; by rewrite E1, E2|].
    destruct (verb =? WILL) eqn:E3; [apply at_slot_ext; intros s; unfold receive_at; by rewrite E1, E2, E3|].
    destruct (verb =? WONT) eqn:E4; [|done]. apply at_slot_ext; intros s; unfold receive_at; by rewrite E1, E2, E3, E4. }
  rewrite E.
  pose proof (at_slot_view t opt (None, []) (receive_at N (policy t) verb opt) Hok) as H.
  specialize (H ltac:(intros s <-; apply receive_at_option)).
  assert (Hs : opt ∈ keep \/ stateless (snd (receive_at N (policy t) verb opt (view t opt)))).
  { destruct (Hkeep opt) as [|[Hu Hh]]; [by left|]. destruct (view_stateless t opt Hok) as [|Hst]; [by left|].
    right. by apply receive_at_stateless. }
  specialize (H Hs). destruct (at_slot _ _ _ _ _) as [r t']. destruct H as (H1 & H2 & H3 & H4 & H5 & H6).
  by split_and!.
Qed.

Definition ask_at (enable : bool) (side : Side) (N : nat) (opt : Z) (out : list Z) (s : OptionSlot) : list Z * OptionSlot :=
  match side with
  | Us => let '(q, out) := request_state N (os_us s) enable WILL WONT opt out in (out, with_us s q)
  | Him => let '(q, out) := request_state N (os_him s) enable DO DONT opt out in (out, with_him s q)
  end.

Definition on_side (side : Side) := match side with Us => on_us (P := P) OPTION_CAP | Him => on_him OPTION_CAP end.

Lemma on_side_view side N enable t opt out :
  table_ok t -> opt ∈ keep ->
  let '(out', t') := on_side side N enable t opt out in
  out' = fst (ask_at enable side N opt out (view t opt)) /\
  moves_at t t' opt (snd (ask_at enable side N opt out (view t opt))).
Proof.
  intros Hok Hopt.
  assert (E : on_side side N enable t opt out = at_slot OPTION_CAP t opt out (ask_at enable side N opt out)) by by destruct side.
  rewrite E. pose proof (at_slot_view t opt out (ask_at enable side N opt out) Hok) as H.
  specialize (H ltac:(intros s <-; destruct side; cbn; by destruct request_state) ltac:(by left)).
  destruct (at_slot _ _ _ _ _) as [r t']. destruct H as (H1 & H2 & H3 & H4 & H5 & H6). by split_and!.
Qed.

Lemma us_enabled_view t opt : us_enabled t opt = is_yes (os_us (view t opt)).
Proof. unfold us_enabled, view. by destruct (slot t opt). Qed.
Lemma him_enabled_view t opt : him_enabled t opt = is_yes (os_him (view t opt)).
Proof. unfold him_enabled, view. by destruct (slot t opt). Qed.
Lemma us_pending_view t opt : us_pending t opt = is_pending (os_us (view t opt)).
Proof. unfold us_pending, view. by destruct (slot t opt). Qed.
Lemma him_pending_view t opt : him_pending t opt = is_pending (os_him (view t opt)).
Proof. unfold him_pending, view. by destruct (slot t opt). Qed.

End Table.

(** ** The size of the table *)

(** What a codec is given: a byte of the peer, or a wish of its user. *)
Inductive Input := Received (byte : Z) | Asked (side : Side) (enable : bool) (opt : Z).

Section Run.
Context {P : Type} {PO : Policy P} (SB_CAP N : nat).

Definition run_input (OPTION_CAP : nat) (i : Input) (t : Telnet P) : (option TelnetEvent * list Z) * Telnet P :=
  match i with
  | Received byte => feed SB_CAP OPTION_CAP N byte t []
  | Asked side enable opt => let '(out, t) := on_side OPTION_CAP side N enable t opt [] in ((None, out), t)
  end.

(** The events and the bytes sent, input by input. *)
Fixpoint run_inputs (OPTION_CAP : nat) (ins : list Input) (t : Telnet P) : list (option TelnetEvent * list Z) * Telnet P :=
  match ins with
  | [] => ([], t)
  | i :: ins =>
      let '(r, t) := run_input OPTION_CAP i t in
      let '(rs, t) := run_inputs OPTION_CAP ins t in (r :: rs, t)
  end.

Context (keep : list Z) (C1 C2 : nat) (H1 : (length keep < C1)%nat) (H2 : (length keep < C2)%nat).

Record same (t1 t2 : Telnet P) : Prop := {
  sm_left : table_ok C1 keep t1;
  sm_right : table_ok C2 keep t2;
  sm_policy : policy t1 = policy t2;
  sm_rx : rx t1 = rx t2;
  sm_subneg : subnegotiation t1 = subnegotiation t2;
  sm_view : forall opt, view t1 opt = view t2 opt;
}.

Definition verb_ok (t : Telnet P) : Prop := match rx t with RxVerb verb => is_verb verb = true | _ => True end.

(** Changes of the parser's state alone. *)
Lemma same_parser t1 t2 r o body :
  same t1 t2 -> same (with_rx (with_subneg t1 o body) r) (with_rx (with_subneg t2 o body) r).
Proof. intros [[? ? ?] [? ? ?] ? ? ? ?]. by split. Qed.
Lemma same_rx t1 t2 r : same t1 t2 -> same (with_rx t1 r) (with_rx t2 r).
Proof. intros [[? ? ?] [? ? ?] ? ? ? ?]. by split. Qed.

Lemma same_moved t1 t2 t1' t2' opt s :
  same t1 t2 -> moves_at C1 keep t1 t1' opt s -> moves_at C2 keep t2 t2' opt s -> same t1' t2'.
Proof.
  intros [? ? Hp Hr Hs Hv] (Ha1 & Hp1 & Hr1 & Hs1 & Hv1) (Ha2 & Hp2 & Hr2 & Hs2 & Hv2).
  split; [done|done|congruence|congruence|congruence|]. intros o. rewrite Hv1, Hv2. case_decide; auto.
Qed.

Lemma same_feed byte t1 t2 :
  same t1 t2 -> keeps keep (policy t1) -> verb_ok t1 ->
  fst (feed SB_CAP C1 N byte t1 []) = fst (feed SB_CAP C2 N byte t2 []) /\
  same (snd (feed SB_CAP C1 N byte t1 [])) (snd (feed SB_CAP C2 N byte t2 [])) /\
  policy (snd (feed SB_CAP C1 N byte t1 [])) = policy t1 /\ verb_ok (snd (feed SB_CAP C1 N byte t1 [])).
Proof.
  intros Hs Hk Hv. pose proof (sm_rx _ _ Hs) as Hr. pose proof (sm_subneg _ _ Hs) as Hb. injection Hb as Hso Hsb.
  unfold feed, verb_ok in *. rewrite <- Hr. destruct (rx t1) as [| |verb| | |] eqn:E.
  - destruct (byte =? IAC); cbn [fst snd rx with_rx policy]; rewrite ?E; split_and!; auto using same_rx.
  - unfold feed_iac. destruct (byte =? IAC); [cbn; split_and!; auto using same_rx|].
    destruct (is_verb byte) eqn:Ev; [cbn; split_and!; auto using same_rx|].
    repeat case_match; simplify_eq/=; split_and!; auto using same_rx.
  - assert (Hs' : same (with_rx t1 RxData) (with_rx t2 RxData)) by by apply same_rx.
    pose proof (negotiate_view C1 keep H1 N (with_rx t1 RxData) verb byte (sm_left _ _ Hs') Hk Hv) as V1.
    pose proof (negotiate_view C2 keep H2 N (with_rx t2 RxData) verb byte (sm_right _ _ Hs')) as V2.
    specialize (V2 ltac:(cbn; rewrite <- (sm_policy _ _ Hs); exact Hk) Hv).
    rewrite <- (sm_policy _ _ Hs'), <- (sm_view _ _ Hs') in V2.
    destruct (negotiate C1 _ _ _ _ _) as [r1 t1'], (negotiate C2 _ _ _ _ _) as [r2 t2'].
    destruct V1 as [-> M1], V2 as [-> M2]. cbn [fst snd]. split; [done|]. split; [by eapply same_moved|].
    destruct M1 as (_ & Hp1 & Hr1 & _). rewrite Hr1. done.
  - cbn. split_and!; auto using same_parser.
  - destruct (byte =? IAC); cbn [fst snd]; [split_and!; auto using same_rx|].
    rewrite <- Hso, <- Hsb. cbn. rewrite E. split_and!; auto.
    pose proof (same_parser _ _ RxSubneg (subneg_option t1) (push SB_CAP (subneg t1) byte) Hs) as Hs'.
    rewrite !with_rx_id in Hs' by (cbn; congruence). exact Hs'.
  - rewrite <- Hso, <- Hsb. destruct (byte =? SE); [|destruct (byte =? IAC)]; cbn; split_and!; auto using same_rx, same_parser.
Qed.

Lemma same_inputs_run ins t1 t2 :
  same t1 t2 -> keeps keep (policy t1) -> verb_ok t1 ->
  Forall (fun i => match i with Asked _ _ opt => opt ∈ keep | _ => True end) ins ->
  fst (run_inputs C1 ins t1) = fst (run_inputs C2 ins t2) /\
  same (snd (run_inputs C1 ins t1)) (snd (run_inputs C2 ins t2)).
Proof.
  intros Hs Hk Hv His. revert t1 t2 Hs Hk Hv. induction His as [|i ins Hi _ IH]; intros t1 t2 Hs Hk Hv; cbn [run_inputs]; [done|].
  assert (Hstep : fst (run_input C1 i t1) = fst (run_input C2 i t2) /\ same (snd (run_input C1 i t1)) (snd (run_input C2 i t2)) /\
    policy (snd (run_input C1 i t1)) = policy t1 /\ verb_ok (snd (run_input C1 i t1))).
  { destruct i as [byte|side enable o]; cbn [run_input]; [by apply same_feed|].
    pose proof (on_side_view C1 keep H1 side N enable t1 o [] (sm_left _ _ Hs) Hi) as V1.
    pose proof (on_side_view C2 keep H2 side N enable t2 o [] (sm_right _ _ Hs) Hi) as V2.
    rewrite <- (sm_view _ _ Hs) in V2.
    destruct (on_side C1 _ _ _ _ _ _) as [r1 t1'], (on_side C2 _ _ _ _ _ _) as [r2 t2'].
    destruct V1 as [-> M1], V2 as [-> M2]. pose proof (same_moved _ _ _ _ _ _ Hs M1 M2) as Hs'.
    destruct M1 as (_ & Hp1 & Hr1 & _). cbn [fst snd]. split_and!; [done|done|done|]. unfold verb_ok in *. by rewrite Hr1. }
  destruct Hstep as (Er & Hs' & Hp & Hv'). destruct (run_input C1 i t1) as [r1 t1'], (run_input C2 i t2) as [r2 t2'].
  cbn [fst snd] in *. subst r2. rewrite <- Hp in Hk. specialize (IH t1' t2' Hs' Hk Hv').
  destruct (run_inputs C1 ins t1') as [rs1 t1''], (run_inputs C2 ins t2') as [rs2 t2'']. cbn [fst snd] in *.
  destruct IH as [-> ?]. done.
Qed.
End Run.

(** C22: The bounded option table is invisible: two codecs with tables of different sizes, both
    larger than the number of options their policy or their user can give state to, answer
    any sequence of peer bytes and user wishes with the same events and the same bytes,
    and then agree on every option; a table that never fills is one of them, so recycling
    slots loses nothing. *)
Theorem table_size_invisible {P} {PO : Policy P} (SB_CAP N C1 C2 : nat) (keep : list Z) (p : P) (ins : list Input) (opt : Z) :
  (length keep < C1)%nat -> (length keep < C2)%nat -> keeps keep p ->
  Forall (fun i => match i with Asked _ _ opt => opt ∈ keep | _ => True end) ins ->
  let '(rs1, t1) := run_inputs SB_CAP N C1 ins (telnet_new p) in
  let '(rs2, t2) := run_inputs SB_CAP N C2 ins (telnet_new p) in
  rs1 = rs2 /\ us_enabled t1 opt = us_enabled t2 opt /\ him_enabled t1 opt = him_enabled t2 opt /\
  us_pending t1 opt = us_pending t2 opt /\ him_pending t1 opt = him_pending t2 opt.
Proof.
  intros H1 H2 Hk His.
  assert (Hnew : same keep C1 C2 (telnet_new p) (telnet_new p)) by (split; auto using table_ok_new).
  pose proof (same_inputs_run SB_CAP N keep C1 C2 H1 H2 ins _ _ Hnew Hk I His) as [E Hs].
  destruct (run_inputs _ _ C1 ins _) as [rs1 t1], (run_inputs _ _ C2 ins _) as [rs2 t2]. cbn [fst snd] in *.
  rewrite !us_enabled_view, !him_enabled_view, !us_pending_view, !him_pending_view. by rewrite (sm_view _ _ _ _ _ Hs).
Qed.

Lemma table_size_invisible_witness :
  let ins := [Asked Us true OPT_BINARY; Received IAC; Received DO; Received OPT_ECHO; Received IAC; Received WILL;
              Received OPT_NAWS; Received IAC; Received DO; Received OPT_BINARY] in
  fst (run_inputs 4 16 2 ins (telnet_new reject_all)) = fst (run_inputs 4 16 7 ins (telnet_new reject_all)) /\
  us_enabled (snd (run_inputs 4 16 2 ins (telnet_new reject_all))) OPT_BINARY = true.
Proof.
  intros ins.
  pose proof (table_size_invisible 4 16 2 7 [OPT_BINARY] reject_all ins OPT_BINARY ltac:(cbn; lia) ltac:(cbn; lia)
    ltac:(intros o; by right) ltac:(repeat constructor)) as H.
  split; [|vm_compute; reflexivity].
  destruct (run_inputs 4 16 2 ins _) as [rs1 t1], (run_inputs 4 16 7 ins _) as [rs2 t2]. apply H.
Defined.

(** ** Room for the commands *)

Section Room.
Context {P : Type} {PO : Policy P} (OPTION_CAP : nat).

(** An operation that appends at most [k] bytes, and loses none where they have room. *)
Definition appends (k : nat) (op : nat -> Telnet P -> list Z -> list Z * Telnet P) : Prop :=
  forall t, exists cmd t', (length cmd <= k)%nat /\
    forall N out, (length out + k <= N)%nat -> op N t out = (out ++ cmd, t').

Lemma extend_room {A} N (out cmd : list A) : (length out + length cmd <= N)%nat -> extend N out cmd = (true, out ++ cmd).
Proof. intros H. unfold extend. by rewrite (proj2 (Nat.leb_le _ _) H). Qed.

Lemma request_state_room q enable pv nv opt :
  exists q' cmd, (length cmd <= 3)%nat /\
    forall N out, (length out + 3 <= N)%nat -> request_state N q enable pv nv opt out = (q', out ++ cmd).
Proof.
  destruct q, enable; cbn [request_state]; unfold commanded, push_cmd;
    (eexists _, []; split; [cbn; lia|intros N out H; by rewrite app_nil_r])
    || (eexists _, [_; _; _]; split; [reflexivity|intros N out H; by rewrite extend_room by done]).
Qed.

Lemma on_side_appends side enable opt : appends 3 (fun N t => on_side OPTION_CAP side N enable t opt).
Proof.
  intros t. destruct (slot_mut OPTION_CAP (options t) opt) as [i os] eqn:Es. destruct (os !! i) as [s|] eqn:Eo.
  - destruct side.
    + destruct (request_state_room (os_us s) enable WILL WONT opt) as (q & cmd & Hl & Hr).
      eexists cmd, _. split; [exact Hl|]. intros N out H. unfold on_side, on_us, at_slot. by rewrite Es, Eo, (Hr N out H).
    + destruct (request_state_room (os_him s) enable DO DONT opt) as (q & cmd & Hl & Hr).
      eexists cmd, _. split; [exact Hl|]. intros N out H. unfold on_side, on_him, at_slot. by rewrite Es, Eo, (Hr N out H).
  - exists [], (with_options t os). split; [cbn; lia|]. intros N out H. rewrite app_nil_r.
    destruct side; unfold on_side, on_us, on_him, at_slot; by rewrite Es, Eo.
Qed.

Lemma appends_seq k1 k2 op1 op2 :
  appends k1 op1 -> appends k2 op2 ->
  appends (k1 + k2) (fun N t out => let '(out, t) := op1 N t out in op2 N t out).
Proof.
  intros H1 H2 t. destruct (H1 t) as (c1 & t1 & Hl1 & E1). destruct (H2 t1) as (c2 & t2 & Hl2 & E2).
  exists (c1 ++ c2), t2. split; [rewrite length_app; lia|]. intros N out H. rewrite E1 by lia. rewrite E2 by (rewrite length_app; lia).
  by rewrite app_assoc.
Qed.

Lemma appends_none : appends 0 (fun _ t out => (out, t)).
Proof. intros t. exists [], t. split; [done|]. intros N out _. by rewrite app_nil_r. Qed.

Lemma request_us_appends opt : appends 3 (fun N t => request_us OPTION_CAP N t opt).
Proof. apply (on_side_appends Us true opt). Qed.
Lemma request_him_appends opt : appends 3 (fun N t => request_him OPTION_CAP N t opt).
Proof. apply (on_side_appends Him true opt). Qed.
Lemma disable_us_appends opt : appends 3 (fun N t => disable_us OPTION_CAP N t opt).
Proof. apply (on_side_appends Us false opt). Qed.
Lemma disable_him_appends opt : appends 3 (fun N t => disable_him OPTION_CAP N t opt).
Proof. apply (on_side_appends Him false opt). Qed.
Lemma request_binary_appends : appends 6 (request_binary_mode OPTION_CAP).
Proof. apply (appends_seq 3 3 _ _ (request_us_appends OPT_BINARY) (request_him_appends OPT_BINARY)). Qed.
Lemma disable_binary_appends : appends 6 (disable_binary_mode OPTION_CAP).
Proof. apply (appends_seq 3 3 _ _ (disable_us_appends OPT_BINARY) (disable_him_appends OPT_BINARY)). Qed.
End Room.

(** Whether a command changes what is enabled is told by its event. *)
Lemma receive_at_enabled {P} {PO : Policy P} N p verb opt s :
  let '(r, s') := receive_at N p verb opt s in
  match fst r with
  | None => is_yes (os_us s') = is_yes (os_us s) /\ is_yes (os_him s') = is_yes (os_him s)
  | Some (OptionEnabled Us o) => o = opt /\ is_yes (os_us s) = false /\ is_yes (os_us s') = true /\ os_him s' = os_him s
  | Some (OptionEnabled Him o) => o = opt /\ is_yes (os_him s) = false /\ is_yes (os_him s') = true /\ os_us s' = os_us s
  | Some (OptionDisabled Us o) => o = opt /\ is_yes (os_us s) = true /\ is_yes (os_us s') = false /\ os_him s' = os_him s
  | Some (OptionDisabled Him o) => o = opt /\ is_yes (os_him s) = true /\ is_yes (os_him s') = false /\ os_us s' = os_us s
  | Some (OptionRefused Us o) => o = opt /\ is_yes (os_us s) = false /\ is_yes (os_us s') = false /\ os_him s' = os_him s
  | Some (OptionRefused Him o) => o = opt /\ is_yes (os_him s) = false /\ is_yes (os_him s') = false /\ os_us s' = os_us s
  | Some _ => False
  end.
Proof.
  unfold receive_at, refusal_event. destruct (verb =? DO); [|destruct (verb =? DONT); [|destruct (verb =? WILL); [|destruct (verb =? WONT); [|done]]]].
  - destruct (receive_positive _ _ _ _ _ _ _) as [q out]. cbn [fst snd]. destruct (os_us s) eqn:E, q; cbn; rewrite ?E; done.
  - destruct (receive_negative _ _ _ _ _ _) as [q out]. cbn [fst snd]. destruct (os_us s) eqn:E, q; cbn; rewrite ?E; done.
  - destruct (receive_positive _ _ _ _ _ _ _) as [q out]. cbn [fst snd]. destruct (os_him s) eqn:E, q; cbn; rewrite ?E; done.
  - destruct (receive_negative _ _ _ _ _ _) as [q out]. cbn [fst snd]. destruct (os_him s) eqn:E, q; cbn; rewrite ?E; done.
Qed.

Lemma feed_iac_spec {P} byte (t : Telnet P) :
  exists r event, feed_iac byte t = (event, with_rx t r) /\
    match r with RxVerb verb => is_verb verb = true | _ => True end /\
    match event with Some (OptionEnabled _ _) | Some (OptionDisabled _ _) | Some (OptionRefused _ _) => False | _ => True end.
Proof.
  unfold feed_iac. destruct (byte =? IAC); [by eexists _, _|]. destruct (is_verb byte) eqn:Ev; [by eexists (RxVerb byte), _|].
  destruct (byte =? SB); [by eexists RxSubnegOption, _|].
  repeat (destruct (byte =? _); [by eexists RxData, _|]). by eexists RxData, _.
Qed.

(** What a received byte does to the table: nothing, or what one command does. *)
Lemma feed_view {P} {PO : Policy P} SB_CAP OPTION_CAP keep (Hcap : (length keep < OPTION_CAP)%nat) N byte (t : Telnet P) :
  table_ok OPTION_CAP keep t -> keeps keep (policy t) -> verb_ok t ->
  let '((event, out), t') := feed SB_CAP OPTION_CAP N byte t [] in
  table_ok OPTION_CAP keep t' /\ policy t' = policy t /\ verb_ok t' /\
  ((options t' = options t /\
    match event with Some (OptionEnabled _ _) | Some (OptionDisabled _ _) | Some (OptionRefused _ _) => False | _ => True end)
   \/ exists verb, (event, out) = fst (receive_at N (policy t) verb byte (view t byte)) /\
        forall o, view t' o = if decide (o = byte) then snd (receive_at N (policy t) verb byte (view t byte)) else view t o).
Proof.
  intros Hok Hk Hv. assert (Hrx : forall o b r, table_ok OPTION_CAP keep (with_rx (with_subneg t o b) r)) by (destruct Hok; by split).
  assert (Hrx' : forall r, table_ok OPTION_CAP keep (with_rx t r)) by (destruct Hok; by split).
  unfold feed, verb_ok in *. destruct (rx t) as [| |verb| | |] eqn:E.
  - destruct (byte =? IAC); cbn; rewrite ?E; split_and!; auto.
  - destruct (feed_iac_spec byte t) as (r & event & -> & Hr & He). cbn. split_and!; auto.
  - pose proof (negotiate_view OPTION_CAP keep Hcap N (with_rx t RxData) verb byte (Hrx' _) Hk Hv) as H.
    destruct (negotiate _ _ _ _ _ _) as [[event out] t']. destruct H as (Hr & Hok' & Hp & Hrx'' & _ & Hview).
    split_and!; [done|done|by rewrite Hrx''|]. right. exists verb. split; [exact Hr|exact Hview].
  - cbn. split_and!; auto.
  - destruct (byte =? IAC); cbn; rewrite ?E; split_and!; auto. destruct Hok. by split.
  - destruct (byte =? SE); [|destruct (byte =? IAC)]; cbn; split_and!; auto.
Qed.
