(* ===== verification/ComPort.v ===== *)
(** * The COM-PORT-OPTION codec ([microtun-telnet/src/serial.rs])

    The messages of RFC 2217 with their wire codes. A message holds its value; the text of
    a signature is a list of bytes. *)

From S2P Require Import Prelude Messages Telnet.
Local Open Scope Z_scope.

Definition SIGNATURE : Z := 0.
Definition SET_BAUDRATE : Z := 1.
Definition SET_DATASIZE : Z := 2.
Definition SET_PARITY : Z := 3.
Definition SET_STOPSIZE : Z := 4.
Definition SET_CONTROL : Z := 5.
Definition NOTIFY_LINESTATE : Z := 6.
Definition NOTIFY_MODEMSTATE : Z := 7.
Definition FLOWCONTROL_SUSPEND : Z := 8.
Definition FLOWCONTROL_RESUME : Z := 9.
Definition SET_LINESTATE_MASK : Z := 10.
Definition SET_MODEMSTATE_MASK : Z := 11.
Definition PURGE_DATA : Z := 12.
Definition SERVER_OFFSET : Z := 100.

(** The modules [data_size], [parity], [stop_size], [control], [purge] and [modem_state] *)
Definition DATA_SIZE_REQUEST : Z := 0.
Definition DATA_SIZE_FIVE : Z := 5.
Definition DATA_SIZE_SIX : Z := 6.
Definition DATA_SIZE_SEVEN : Z := 7.
Definition DATA_SIZE_EIGHT : Z := 8.
Definition PARITY_REQUEST : Z := 0.
Definition PARITY_NONE : Z := 1.
Definition PARITY_ODD : Z := 2.
Definition PARITY_EVEN : Z := 3.
Definition PARITY_MARK : Z := 4.
Definition PARITY_SPACE : Z := 5.
Definition STOP_REQUEST : Z := 0.
Definition STOP_ONE : Z := 1.
Definition STOP_TWO : Z := 2.
Definition STOP_ONE_AND_A_HALF : Z := 3.
Definition REQUEST_OUTBOUND_FLOW : Z := 0.
Definition NO_OUTBOUND_FLOW : Z := 1.
Definition XON_XOFF_OUTBOUND : Z := 2.
Definition HARDWARE_OUTBOUND : Z := 3.
Definition REQUEST_BREAK : Z := 4.
Definition BREAK_ON : Z := 5.
Definition BREAK_OFF : Z := 6.
Definition REQUEST_DTR : Z := 7.
Definition DTR_ON : Z := 8.
Definition DTR_OFF : Z := 9.
Definition REQUEST_RTS : Z := 10.
Definition RTS_ON : Z := 11.
Definition RTS_OFF : Z := 12.
Definition REQUEST_INBOUND_FLOW : Z := 13.
Definition NO_INBOUND_FLOW : Z := 14.
Definition XON_XOFF_INBOUND : Z := 15.
Definition HARDWARE_INBOUND : Z := 16.
Definition DCD_OUTBOUND : Z := 17.
Definition DTR_INBOUND : Z := 18.
Definition DSR_OUTBOUND : Z := 19.
Definition PURGE_RECEIVE : Z := 1.
Definition PURGE_TRANSMIT : Z := 2.
Definition PURGE_BOTH : Z := 3.
Definition DELTA_CTS : Z := 1.
Definition DELTA_DSR : Z := 2.
Definition TRAILING_EDGE_RING : Z := 4.
Definition DELTA_CARRIER_DETECT : Z := 8.
Definition CTS : Z := 16.
Definition DSR : Z := 32.
Definition RING_INDICATOR : Z := 64.
Definition CARRIER_DETECT : Z := 128.

Inductive Origin := OriginClient | OriginServer.
#[export] Instance Origin_eq_dec : EqDecision Origin.
Proof. solve_decision. Defined.

Inductive Command :=
| Signature
| SetBaudRate
| SetDataSize
| SetParity
| SetStopSize
| SetControl
| NotifyLineState
| NotifyModemState
| FlowControlSuspend
| FlowControlResume
| SetLineStateMask
| SetModemStateMask
| PurgeData.

Definition client_code (c : Command) : Z :=
  match c with
  | Signature => SIGNATURE
  | SetBaudRate => SET_BAUDRATE
  | SetDataSize => SET_DATASIZE
  | SetParity => SET_PARITY
  | SetStopSize => SET_STOPSIZE
  | SetControl => SET_CONTROL
  | NotifyLineState => NOTIFY_LINESTATE
  | NotifyModemState => NOTIFY_MODEMSTATE
  | FlowControlSuspend => FLOWCONTROL_SUSPEND
  | FlowControlResume => FLOWCONTROL_RESUME
  | SetLineStateMask => SET_LINESTATE_MASK
  | SetModemStateMask => SET_MODEMSTATE_MASK
  | PurgeData => PURGE_DATA
  end.

Definition wire_code (c : Command) (origin : Origin) : Z :=
  match c, origin with
  | Signature, OriginClient => SIGNATURE
  | Signature, OriginServer => SIGNATURE + SERVER_OFFSET
  | _, OriginClient => client_code c
  | _, OriginServer => client_code c + SERVER_OFFSET
  end.

Inductive DecodeError := Empty | UnknownCommand (code : Z) | InvalidLength.

(** The messages of the source's [Message], in its order: a [u32] in [MsgSetBaudRate], a [u8] elsewhere. *)
Inductive Message :=
| MsgSignature (origin : Origin) (text : list Z)
| MsgSetBaudRate (origin : Origin) (value : Z)
| MsgSetDataSize (origin : Origin) (value : Z)
| MsgSetParity (origin : Origin) (value : Z)
| MsgSetStopSize (origin : Origin) (value : Z)
| MsgSetControl (origin : Origin) (value : Z)
| MsgNotifyLineState (origin : Origin) (value : Z)
| MsgNotifyModemState (origin : Origin) (value : Z)
| MsgFlowControlSuspend (origin : Origin)
| MsgFlowControlResume (origin : Origin)
| MsgSetLineStateMask (origin : Origin) (value : Z)
| MsgSetModemStateMask (origin : Origin) (value : Z)
| MsgPurgeData (origin : Origin) (value : Z).

Definition message_origin (m : Message) : Origin :=
  match m with
  | MsgSignature origin _ | MsgSetBaudRate origin _ | MsgSetDataSize origin _ | MsgSetParity origin _
  | MsgSetStopSize origin _ | MsgSetControl origin _ | MsgNotifyLineState origin _
  | MsgNotifyModemState origin _ | MsgFlowControlSuspend origin | MsgFlowControlResume origin
  | MsgSetLineStateMask origin _ | MsgSetModemStateMask origin _ | MsgPurgeData origin _ => origin
  end.

Definition message_command (m : Message) : Command :=
  match m with
  | MsgSignature _ _ => Signature
  | MsgSetBaudRate _ _ => SetBaudRate
  | MsgSetDataSize _ _ => SetDataSize
  | MsgSetParity _ _ => SetParity
  | MsgSetStopSize _ _ => SetStopSize
  | MsgSetControl _ _ => SetControl
  | MsgNotifyLineState _ _ => NotifyLineState
  | MsgNotifyModemState _ _ => NotifyModemState
  | MsgFlowControlSuspend _ => FlowControlSuspend
  | MsgFlowControlResume _ => FlowControlResume
  | MsgSetLineStateMask _ _ => SetLineStateMask
  | MsgSetModemStateMask _ _ => SetModemStateMask
  | MsgPurgeData _ _ => PurgeData
  end.

Definition command_from_code (code : Z) : option Command :=
  if code =? SIGNATURE then Some Signature else
  if code =? SET_BAUDRATE then Some SetBaudRate else
  if code =? SET_DATASIZE then Some SetDataSize else
  if code =? SET_PARITY then Some SetParity else
  if code =? SET_STOPSIZE then Some SetStopSize else
  if code =? SET_CONTROL then Some SetControl else
  if code =? NOTIFY_LINESTATE then Some NotifyLineState else
  if code =? NOTIFY_MODEMSTATE then Some NotifyModemState else
  if code =? FLOWCONTROL_SUSPEND then Some FlowControlSuspend else
  if code =? FLOWCONTROL_RESUME then Some FlowControlResume else
  if code =? SET_LINESTATE_MASK then Some SetLineStateMask else
  if code =? SET_MODEMSTATE_MASK then Some SetModemStateMask else
  if code =? PURGE_DATA then Some PurgeData else None.

(** [inl]: the message; [inr]: the error. *)
Definition require_empty (value : list Z) (m : Message) : Message + DecodeError :=
  match value with [] => inl m | _ => inr InvalidLength end.

Definition require_one (value : list Z) (m : Z -> Message) : Message + DecodeError :=
  match value with [v] => inl (m v) | _ => inr InvalidLength end.

(** The message of a command once its code is known. *)
Definition decode_value (origin : Origin) (c : Command) (value : list Z) : Message + DecodeError :=
  match c with
  | Signature => inl (MsgSignature origin value)
  | SetBaudRate => if (length value =? 4)%nat then inl (MsgSetBaudRate origin (be_value value)) else inr InvalidLength
  | FlowControlSuspend => require_empty value (MsgFlowControlSuspend origin)
  | FlowControlResume => require_empty value (MsgFlowControlResume origin)
  | SetDataSize => require_one value (MsgSetDataSize origin)
  | SetParity => require_one value (MsgSetParity origin)
  | SetStopSize => require_one value (MsgSetStopSize origin)
  | SetControl => require_one value (MsgSetControl origin)
  | NotifyLineState => require_one value (MsgNotifyLineState origin)
  | NotifyModemState => require_one value (MsgNotifyModemState origin)
  | SetLineStateMask => require_one value (MsgSetLineStateMask origin)
  | SetModemStateMask => require_one value (MsgSetModemStateMask origin)
  | PurgeData => require_one value (MsgPurgeData origin)
  end.

Definition decode (payload : list Z) : Message + DecodeError :=
  match payload with
  | [] => inr Empty
  | code :: value =>
      let '(origin, base) :=
        if code =? SIGNATURE then (OriginClient, SIGNATURE)
        else if (100 <=? code) && (code <=? 112) then (OriginServer, code - SERVER_OFFSET)
        else (OriginClient, code) in
      match command_from_code base with
      | Some c => decode_value origin c value
      | None => inr (UnknownCommand code)
      end
  end.

Definition decode_from (origin : Origin) (payload : list Z) : Message + DecodeError :=
  match decode payload with
  | inl (MsgSignature _ text) => inl (MsgSignature origin text)
  | r => r
  end.

(** The bytes after the code. *)
Definition message_value (m : Message) : list Z :=
  match m with
  | MsgSignature _ text => text
  | MsgSetBaudRate _ value => be_bytes 4 value
  | MsgFlowControlSuspend _ | MsgFlowControlResume _ => []
  | MsgSetDataSize _ value | MsgSetParity _ value | MsgSetStopSize _ value | MsgSetControl _ value
  | MsgNotifyLineState _ value | MsgNotifyModemState _ value | MsgSetLineStateMask _ value
  | MsgSetModemStateMask _ value | MsgPurgeData _ value => [value]
  end.

Definition encode_value (N : nat) (out : list Z) (code : Z) (value : list Z) : bool * list Z :=
  let escaped := length (filter (fun byte => byte = IAC) value) in
  let required := (6 + length value + escaped)%nat in
  if (N - length out <? required)%nat then (false, out)
  else (true, out ++ [IAC; SB; OPT_COM_PORT; code] ++ escape value ++ [IAC; SE]).

Definition encode (N : nat) (m : Message) (out : list Z) : bool * list Z :=
  encode_value N out (wire_code (message_command m) (message_origin m)) (message_value m).

(** ** Lemmas *)

(** The values fit their types. *)
Definition message_wf (m : Message) : Prop :=
  match m with MsgSetBaudRate _ value => is_u32 value | _ => True end.
Definition payload_of (m : Message) : list Z :=
  wire_code (message_command m) (message_origin m) :: message_value m.

Lemma wire_code_range c o : 0 <= wire_code c o <= 112.
Proof. destruct c, o; split; discriminate. Qed.

Lemma encode_push N m out : encode N m out = push_subnegotiation N out OPT_COM_PORT (payload_of m).
Proof.
  unfold encode, encode_value, push_subnegotiation, payload_of. set (code := wire_code _ _).
  pose proof (wire_code_range (message_command m) (message_origin m)) as H.
  assert (code <> IAC) by ( fold code in H; unfold IAC; lia).
  rewrite filter_cons, decide_False by done. cbn [escape length]. rewrite (proj2 (Z.eqb_neq _ _)) by done.
  replace (5 + S (length (message_value m)) + length (filter (fun byte => byte = IAC) (message_value m)))%nat with
    (6 + length (message_value m) + length (filter (fun byte => byte = IAC) (message_value m)))%nat by lia.
  destruct (_ <? _)%nat; [done|]. by cbn [app].
Qed.

Lemma decode_payload m : message_wf m -> decode (payload_of m) = inl m.
Proof.
  intros Hm. destruct m as [o t|o v|o v|o v|o v|o v|o v|o v|o|o|o v|o v|o v], o; try reflexivity.
  all: assert (Hv : be_value (be_bytes 4 v) = v)
    by (rewrite be_value_bytes; apply Z.mod_small; cbn in Hm; unfold is_u32, u32_max in Hm; lia);
    rewrite <- Hv at 2; reflexivity.
Qed.

Lemma command_from_code_inv code c : command_from_code code = Some c -> code = client_code c.
Proof. unfold command_from_code. repeat case_match; intros [= <-]; by apply Z.eqb_eq. Qed.

Lemma wire_code_base c o : wire_code c o = client_code c + match o with OriginClient => 0 | OriginServer => SERVER_OFFSET end.
Proof. by destruct c, o. Qed.

(** Only the payload of a message is decoded to it. *)
Lemma be_bytes_value bs : Forall is_u8 bs -> be_bytes (length bs) (be_value bs) = bs.
Proof.
  intros H. unfold be_bytes, be_value. rewrite <- (length_reverse bs), le_bytes_value by by apply Forall_reverse.
  apply reverse_involutive.
Qed.

Lemma decode_value_inv o c value m :
  Forall is_u8 value -> decode_value o c value = inl m ->
  message_origin m = o /\ message_command m = c /\ message_value m = value /\ message_wf m.
Proof.
  intros Hv. destruct c; cbn [decode_value]; unfold require_empty, require_one.
  - intros [= <-]. done.
  - destruct (Nat.eqb_spec (length value) 4) as [Hl|]; [|done]. intros [= <-]. cbn.
    pose proof (be_value_bound _ Hv) as Hb. pose proof (be_bytes_value _ Hv) as E. rewrite Hl in Hb, E.
    split_and!; try done. unfold is_u32, u32_max. change (256 ^ Z.of_nat 4) with 4294967296 in Hb. lia.
  - destruct value as [|v [|]]; [done| |done]; intros [= <-]; done.
  - destruct value as [|v [|]]; [done| |done]; intros [= <-]; done.
  - destruct value as [|v [|]]; [done| |done]; intros [= <-]; done.
  - destruct value as [|v [|]]; [done| |done]; intros [= <-]; done.
  - destruct value as [|v [|]]; [done| |done]; intros [= <-]; done.
  - destruct value as [|v [|]]; [done| |done]; intros [= <-]; done.
  - destruct value; [|done]; intros [= <-]; done.
  - destruct value; [|done]; intros [= <-]; done.
  - destruct value as [|v [|]]; [done| |done]; intros [= <-]; done.
  - destruct value as [|v [|]]; [done| |done]; intros [= <-]; done.
  - destruct value as [|v [|]]; [done| |done]; intros [= <-]; done.
Qed.

Lemma decode_inv payload m :
  Forall is_u8 payload -> decode payload = inl m -> payload = payload_of m /\ message_wf m.
Proof.
  intros Hp. destruct payload as [|code value]; [done|]. apply Forall_cons in Hp as [_ Hv]. unfold decode.
  destruct (Z.eqb_spec code SIGNATURE) as [->|Hne].
  - intros H%decode_value_inv; [|done]. destruct H as (Ho & Hc & Hval & Hw). unfold payload_of. by rewrite Ho, Hc, Hval.
  - destruct ((100 <=? code) && (code <=? 112)) eqn:Er; destruct (command_from_code _) as [c|] eqn:Ec; try done;
      intros H%decode_value_inv; try done; destruct H as (Ho & Hc & Hval & Hw); split; try done;
      unfold payload_of; rewrite Ho, Hc, Hval, wire_code_base; apply command_from_code_inv in Ec; f_equal; lia.
Qed.

(** The wire form of a message is unique and read back as it was: a payload is decoded to a
    message exactly if it is that message's code and value, and a message that [encode]
    queues is seen by a reader whose buffer holds it as one COM-PORT-OPTION event that is
    decoded to the message; without room for all of it, nothing is queued. *)
Theorem message_round_trip {P} {PO : Policy P} (SB_CAP OPTION_CAP N M : nat) (m : Message) (payload out : list Z)
    (t : Telnet P) :
  Forall is_u8 payload -> message_wf m -> rx t = RxData -> (length (message_value m) < SB_CAP)%nat ->
  (decode payload = inl m <-> payload = payload_of m) /\
  match encode M m out with
  | (true, out') => (length out' <= Nat.max M (length out))%nat /\ exists frame t', out' = out ++ frame /\
      feed_all SB_CAP OPTION_CAP N frame t = ([Subnegotiation OPT_COM_PORT], [], t') /\
      decode (snd (subnegotiation t')) = inl m /\ rx t' = RxData /\ options t' = options t
  | (false, out') => out' = out
  end.
Proof.
  intros Hp Hm Ht Hl. split.
  - split; [intros [H _]%decode_inv; done|]. intros ->. by apply decode_payload.
  - rewrite encode_push. pose proof (push_subnegotiation_read SB_CAP OPTION_CAP N M out OPT_COM_PORT (payload_of m) t Ht) as H.
    destruct (push_subnegotiation _ _ _ _) as [[|] out']; [|by destruct H].
    destruct H as (Hlen & frame & -> & Hf). split; [done|]. eexists frame, _. split; [done|]. split; [exact Hf|].
    cbn [subnegotiation with_subneg subneg snd rx options]. rewrite take_ge by (cbn; lia). by rewrite decode_payload.
Qed.

Lemma message_round_trip_witness :
  exists t', feed_all 8 4 16 [255; 250; 44; 101; 0; 1; 194; 0; 255; 240] (telnet_new reject_all) =
               ([Subnegotiation OPT_COM_PORT], [], t') /\
    decode (snd (subnegotiation t')) = inl (MsgSetBaudRate OriginServer 115200).
Proof.
  pose proof (proj2 (message_round_trip 8 4 16 16 (MsgSetBaudRate OriginServer 115200) [] [] (telnet_new reject_all)
    ltac:(constructor) ltac:(cbn; unfold is_u32, u32_max; lia) eq_refl ltac:(cbn; lia))) as H.
  destruct H as (_ & frame & t' & Hframe & Hf & Hd & _).
  assert (frame = [255; 250; 44; 101; 0; 1; 194; 0; 255; 240]) as -> by (rewrite <- (app_nil_l frame), <- Hframe; vm_compute; reflexivity).
  exists t'. done.
Defined.
