(* ===== verification/TelnetClient.v ===== *)
(** * The telnet client session ([microtun-telnet/src/client.rs])

    Terminal and serial mode of a client, and the state of the remote serial port it tracks.
    Operations that answer a [Result] give [inl] for [Ok] and [inr] for [Err]. *)

From S2P Require Import Prelude Messages Telnet ComPort TelnetTable.
Local Open Scope Z_scope.

Definition SERIAL_MODE_NEGOTIATION_MAX : nat := 18.
Definition SERIAL_INITIAL_QUERY_MAX : nat := 88.

Record ClientPolicy := mkClientPolicy { serial_mode_policy : bool }.

#[export] Instance client_policy : Policy ClientPolicy := {|
  support_us p opt :=
    (opt =? OPT_BINARY) || (opt =? OPT_SUPPRESS_GO_AHEAD) || (serial_mode_policy p && (opt =? OPT_COM_PORT));
  support_him p opt :=
    (opt =? OPT_BINARY) || (opt =? OPT_SUPPRESS_GO_AHEAD) || (negb (serial_mode_policy p) && (opt =? OPT_ECHO));
|}.

Record TelnetModeSnapshot := mkSnapshot {
  us_binary : bool;
  him_binary : bool;
  us_sga : bool;
  him_sga : bool;
  him_echo : bool;
}.

Inductive SerialStatus := Negotiating | Active | Refused.
#[export] Instance SerialStatus_eq_dec : EqDecision SerialStatus.
Proof. solve_decision. Defined.

Inductive SerialEvent :=
| EvSignature (text : list Z)
| EvBaudRate (value : Z)
| EvDataSize (value : Z)
| EvParity (value : Z)
| EvStopSize (value : Z)
| EvControl (value : Z)
| EvLineState (value : Z)
| EvModemState (value : Z)
| EvFlowControlSuspend
| EvFlowControlResume
| EvLineStateMask (value : Z)
| EvModemStateMask (value : Z)
| EvPurgeData (value : Z).

Record SerialConsoleState := mkConsole {
  status : SerialStatus;
  signature : option (list Z);
  baud : option Z;
  data_bits : option Z;
  parity : option Z;
  stop_bits : option Z;
  flow_out : option Z;
  flow_in : option Z;
  dtr : option bool;
  rts : option bool;
  break_state : option bool;
  line_state : Z;
  modem_state : Z;
  tx_suspended : bool;
}.

Definition console_default : SerialConsoleState :=
  mkConsole Negotiating None None None None None None None None None None 0 0 false.

Definition with_status (s : SerialConsoleState) (st : SerialStatus) : SerialConsoleState :=
  let '(mkConsole _ a b c d e f g h i j k l m) := s in mkConsole st a b c d e f g h i j k l m.

Definition update_control (s : SerialConsoleState) (v : Z) : SerialConsoleState :=
  let '(mkConsole st si ba db pa sb fo fi dt rt br ls ms tx) := s in
  if (v =? NO_OUTBOUND_FLOW) || (v =? XON_XOFF_OUTBOUND) || (v =? HARDWARE_OUTBOUND) || (v =? DCD_OUTBOUND) || (v =? DSR_OUTBOUND)
  then mkConsole st si ba db pa sb (Some v) fi dt rt br ls ms tx else
  if (v =? NO_INBOUND_FLOW) || (v =? XON_XOFF_INBOUND) || (v =? HARDWARE_INBOUND) || (v =? DTR_INBOUND)
  then mkConsole st si ba db pa sb fo (Some v) dt rt br ls ms tx else
  if v =? BREAK_ON then mkConsole st si ba db pa sb fo fi dt rt (Some true) ls ms tx else
  if v =? BREAK_OFF then mkConsole st si ba db pa sb fo fi dt rt (Some false) ls ms tx else
  if v =? DTR_ON then mkConsole st si ba db pa sb fo fi (Some true) rt br ls ms tx else
  if v =? DTR_OFF then mkConsole st si ba db pa sb fo fi (Some false) rt br ls ms tx else
  if v =? RTS_ON then mkConsole st si ba db pa sb fo fi dt (Some true) br ls ms tx else
  if v =? RTS_OFF then mkConsole st si ba db pa sb fo fi dt (Some false) br ls ms tx else s.

Definition is_parity (v : Z) : bool :=
  (v =? PARITY_NONE) || (v =? PARITY_ODD) || (v =? PARITY_EVEN) || (v =? PARITY_MARK) || (v =? PARITY_SPACE).
Definition is_stop_size (v : Z) : bool := (v =? STOP_ONE) || (v =? STOP_TWO) || (v =? STOP_ONE_AND_A_HALF).

Definition update (s : SerialConsoleState) (e : SerialEvent) : SerialConsoleState :=
  let '(mkConsole st si ba db pa sb fo fi dt rt br ls ms tx) := s in
  match e with
  | EvSignature text => mkConsole st (Some text) ba db pa sb fo fi dt rt br ls ms tx
  | EvBaudRate v => if negb (v =? 0) then mkConsole st si (Some v) db pa sb fo fi dt rt br ls ms tx else s
  | EvDataSize v => if (5 <=? v) && (v <=? 8) then mkConsole st si ba (Some v) pa sb fo fi dt rt br ls ms tx else s
  | EvParity v => if is_parity v then mkConsole st si ba db (Some v) sb fo fi dt rt br ls ms tx else s
  | EvStopSize v => if is_stop_size v then mkConsole st si ba db pa (Some v) fo fi dt rt br ls ms tx else s
  | EvControl v => update_control s v
  | EvLineState v => mkConsole st si ba db pa sb fo fi dt rt br v ms tx
  | EvModemState v => mkConsole st si ba db pa sb fo fi dt rt br ls v tx
  | EvFlowControlSuspend => mkConsole st si ba db pa sb fo fi dt rt br ls ms true
  | EvFlowControlResume => mkConsole st si ba db pa sb fo fi dt rt br ls ms false
  | EvLineStateMask _ | EvModemStateMask _ | EvPurgeData _ => s
  end.

Inductive ClientEvent :=
| ClientData (byte : Z)
| ClientSerialModeActive
| ClientSerialModeRefused
| ClientTelnet (e : TelnetEvent)
| ClientSerial (e : SerialEvent)
| ClientMalformedSerial (e : DecodeError).

Inductive ClientEncodeError := BufferFull | SerialInactive | InvalidOrigin.

Section Client.
Context (SB_CAP OPTION_CAP SIGNATURE_CAP : nat).

Definition is_signature (m : Message) : bool := match m with MsgSignature _ _ => true | _ => false end.

Definition from_server_message (m : Message) : option SerialEvent :=
  if negb (is_signature m) && negb (bool_decide (message_origin m = OriginServer)) then None else
  Some match m with
  | MsgSignature _ text => EvSignature (take SIGNATURE_CAP text)
  | MsgSetBaudRate _ v => EvBaudRate v
  | MsgSetDataSize _ v => EvDataSize v
  | MsgSetParity _ v => EvParity v
  | MsgSetStopSize _ v => EvStopSize v
  | MsgSetControl _ v => EvControl v
  | MsgNotifyLineState _ v => EvLineState v
  | MsgNotifyModemState _ v => EvModemState v
  | MsgFlowControlSuspend _ => EvFlowControlSuspend
  | MsgFlowControlResume _ => EvFlowControlResume
  | MsgSetLineStateMask _ v => EvLineStateMask v
  | MsgSetModemStateMask _ v => EvModemStateMask v
  | MsgPurgeData _ v => EvPurgeData v
  end.

Record ClientSession := mkClient {
  protocol : Telnet ClientPolicy;
  serial : option SerialConsoleState;
  serial_queried : bool;
  telnet_snapshot : option TelnetModeSnapshot;
}.

Definition client_new : ClientSession := mkClient (telnet_new (mkClientPolicy false)) None false None.

Definition serial_active (c : ClientSession) : bool :=
  match serial c with Some s => bool_decide (status s = Active) | None => false end.
Definition serial_mode (c : ClientSession) : bool := match serial c with Some _ => true | None => false end.

(** A sequence of option operations on one output. *)
Definition run_ops {P} (ops : list (Telnet P -> list Z -> list Z * Telnet P)) (t : Telnet P) (out : list Z) :
    list Z * Telnet P :=
  foldl (fun '(out, t) op => op t out) (out, t) ops.

Definition enter_ops (N : nat) : list (Telnet ClientPolicy -> list Z -> list Z * Telnet ClientPolicy) := [
  request_binary_mode OPTION_CAP N;
  fun p => request_us OPTION_CAP N p OPT_SUPPRESS_GO_AHEAD;
  fun p => request_him OPTION_CAP N p OPT_SUPPRESS_GO_AHEAD;
  fun p => disable_him OPTION_CAP N p OPT_ECHO;
  fun p => request_us OPTION_CAP N p OPT_COM_PORT].

Definition enter_serial_mode (N : nat) (c : ClientSession) (out : list Z) :
    (bool + ClientEncodeError) * list Z * ClientSession :=
  match serial c with
  | Some _ => (inl false, out, c)
  | None =>
      if (N - length out <? SERIAL_MODE_NEGOTIATION_MAX)%nat then (inr BufferFull, out, c) else
      let p := protocol c in
      let snapshot := mkSnapshot (us_enabled p OPT_BINARY) (him_enabled p OPT_BINARY)
        (us_enabled p OPT_SUPPRESS_GO_AHEAD) (him_enabled p OPT_SUPPRESS_GO_AHEAD) (him_enabled p OPT_ECHO) in
      let p := with_policy p (mkClientPolicy true) in
      let '(out, p) := run_ops (enter_ops N) p out in
      (inl true, out, mkClient p (Some console_default) false (Some snapshot))
  end.

Definition restore_us_option {P} (N : nat) (opt : Z) (enabled : bool) (p : Telnet P) (out : list Z) :=
  if enabled then request_us OPTION_CAP N p opt out else disable_us OPTION_CAP N p opt out.
Definition restore_him_option {P} (N : nat) (opt : Z) (enabled : bool) (p : Telnet P) (out : list Z) :=
  if enabled then request_him OPTION_CAP N p opt out else disable_him OPTION_CAP N p opt out.

Definition leave_ops (N : nat) (snapshot : TelnetModeSnapshot) :
    list (Telnet ClientPolicy -> list Z -> list Z * Telnet ClientPolicy) := [
  restore_us_option N OPT_BINARY (us_binary snapshot);
  restore_him_option N OPT_BINARY (him_binary snapshot);
  restore_us_option N OPT_SUPPRESS_GO_AHEAD (us_sga snapshot);
  restore_him_option N OPT_SUPPRESS_GO_AHEAD (him_sga snapshot);
  restore_him_option N OPT_ECHO (him_echo snapshot)].

Definition leave_serial_mode (N : nat) (c : ClientSession) (out : list Z) :
    (bool + ClientEncodeError) * list Z * ClientSession :=
  match serial c with
  | None => (inl false, out, c)
  | Some _ =>
      if (N - length out <? SERIAL_MODE_NEGOTIATION_MAX)%nat then (inr BufferFull, out, c) else
      let p := with_policy (protocol c) (mkClientPolicy false) in
      let '(out, p) := disable_us OPTION_CAP N p OPT_COM_PORT out in
      let '(out, p) :=
        match telnet_snapshot c with
        | Some snapshot => run_ops (leave_ops N snapshot) p out
        | None => (out, p)
        end in
      (inl true, out, mkClient p None false None)
  end.

Definition set_status (st : SerialStatus) (c : ClientSession) : ClientSession :=
  mkClient (protocol c) ((fun s => with_status s st) <$> serial c) (serial_queried c) (telnet_snapshot c).
Definition with_queried (q : bool) (c : ClientSession) : ClientSession :=
  mkClient (protocol c) (serial c) q (telnet_snapshot c).

(** What an event of the codec means to the session. *)
Definition client_event (event : TelnetEvent) (c : ClientSession) : option ClientEvent * ClientSession :=
  match event with
  | Data byte => (Some (ClientData byte), c)
  | OptionEnabled Us opt =>
      if opt =? OPT_COM_PORT then (Some ClientSerialModeActive, set_status Active c)
      else (Some (ClientTelnet event), c)
  | OptionDisabled Us opt | OptionRefused Us opt =>
      if opt =? OPT_COM_PORT then (Some ClientSerialModeRefused, with_queried false (set_status Refused c))
      else (Some (ClientTelnet event), c)
  | Subnegotiation opt =>
      if opt =? OPT_COM_PORT then
        match decode_from OriginServer (snd (subnegotiation (protocol c))) with
        | inl m =>
            match from_server_message m with
            | Some e =>
                (Some (ClientSerial e),
                 mkClient (protocol c) ((fun s => update s e) <$> serial c) (serial_queried c) (telnet_snapshot c))
            | None => (None, c)
            end
        | inr error => (Some (ClientMalformedSerial error), c)
        end
      else (Some (ClientTelnet event), c)
  | _ => (Some (ClientTelnet event), c)
  end.

Definition client_feed (N : nat) (byte : Z) (c : ClientSession) (reply : list Z) :
    (option ClientEvent * list Z) * ClientSession :=
  let '((event, reply), p) := feed SB_CAP OPTION_CAP N byte (protocol c) reply in
  let c := mkClient p (serial c) (serial_queried c) (telnet_snapshot c) in
  match event with
  | None => ((None, reply), c)
  | Some event => let '(event, c) := client_event event c in ((event, reply), c)
  end.

Definition initial_query : list Message := [
  MsgSignature OriginClient [];
  MsgSetBaudRate OriginClient 0;
  MsgSetDataSize OriginClient 0;
  MsgSetParity OriginClient PARITY_REQUEST;
  MsgSetStopSize OriginClient STOP_REQUEST;
  MsgSetControl OriginClient REQUEST_OUTBOUND_FLOW;
  MsgSetControl OriginClient REQUEST_INBOUND_FLOW;
  MsgSetControl OriginClient REQUEST_BREAK;
  MsgSetControl OriginClient REQUEST_DTR;
  MsgSetControl OriginClient REQUEST_RTS;
  MsgSetLineStateMask OriginClient u8_max;
  MsgSetModemStateMask OriginClient u8_max].

(** The loop over the messages; [start] is where a failure truncates to. *)
Fixpoint encode_each (N : nat) (start : nat) (ms : list Message) (out : list Z) : bool * list Z :=
  match ms with
  | [] => (true, out)
  | m :: ms =>
      match encode N m out with
      | (true, out) => encode_each N start ms out
      | (false, out) => (false, take start out)
      end
  end.

Definition append_initial_serial_query (N : nat) (out : list Z) : bool * list Z :=
  if (N - length out <? SERIAL_INITIAL_QUERY_MAX)%nat then (false, out)
  else encode_each N (length out) initial_query out.

Definition queue_initial_serial_query (N : nat) (c : ClientSession) (out : list Z) :
    (bool + ClientEncodeError) * list Z * ClientSession :=
  if negb (serial_active c) then (inr SerialInactive, out, c) else
  if serial_queried c then (inl false, out, c) else
  match append_initial_serial_query N out with
  | (false, out) => (inr BufferFull, out, c)
  | (true, out) => (inl true, out, with_queried true c)
  end.

Definition queue_serial (N : nat) (c : ClientSession) (m : Message) (out : list Z) :
    (unit + ClientEncodeError) * list Z :=
  if negb (serial_active c) then (inr SerialInactive, out) else
  if negb (bool_decide (message_origin m = OriginClient)) then (inr InvalidOrigin, out) else
  match encode N m out with
  | (true, out) => (inl tt, out)
  | (false, out) => (inr BufferFull, out)
  end.

Definition set_baud (N : nat) (c : ClientSession) (v : Z) := queue_serial N c (MsgSetBaudRate OriginClient v).
Definition set_data_bits (N : nat) (c : ClientSession) (v : Z) := queue_serial N c (MsgSetDataSize OriginClient v).
Definition set_parity (N : nat) (c : ClientSession) (v : Z) := queue_serial N c (MsgSetParity OriginClient v).
Definition set_stop_bits (N : nat) (c : ClientSession) (v : Z) := queue_serial N c (MsgSetStopSize OriginClient v).
Definition set_control (N : nat) (c : ClientSession) (v : Z) := queue_serial N c (MsgSetControl OriginClient v).
Definition set_flow (N : nat) (c : ClientSession) (outbound inbound : Z) (out : list Z) :
    (unit + ClientEncodeError) * list Z :=
  let start := length out in
  let '(r, out) := set_control N c outbound out in
  let '(r, out) := match r with inl _ => set_control N c inbound out | inr e => (inr e, out) end in
  match r with
  | inr e => (inr e, take start out)
  | inl _ => (inl tt, out)
  end.
Definition set_dtr (N : nat) (c : ClientSession) (on : bool) := set_control N c (if on then DTR_ON else DTR_OFF).
Definition set_rts (N : nat) (c : ClientSession) (on : bool) := set_control N c (if on then RTS_ON else RTS_OFF).
Definition set_break (N : nat) (c : ClientSession) (on : bool) := set_control N c (if on then BREAK_ON else BREAK_OFF).
End Client.

(** ** Lemmas *)

Definition client_keep : list Z := [OPT_BINARY; OPT_SUPPRESS_GO_AHEAD; OPT_ECHO; OPT_COM_PORT].

Lemma client_keeps (p : ClientPolicy) : keeps client_keep p.
Proof.
  intros opt. unfold client_keep. cbn [support_us support_him client_policy].
  destruct (Z.eqb_spec opt OPT_BINARY) as [->|H1]; [left; set_solver|].
  destruct (Z.eqb_spec opt OPT_SUPPRESS_GO_AHEAD) as [->|H2]; [left; set_solver|].
  destruct (Z.eqb_spec opt OPT_COM_PORT) as [->|H3]; [left; set_solver|].
  destruct (Z.eqb_spec opt OPT_ECHO) as [->|H4]; [left; set_solver|right]. by rewrite !andb_false_r.
Qed.

Section ClientFacts.
Context (SB_CAP OPTION_CAP SIGNATURE_CAP : nat).

(** *** Room *)

Lemma restore_us_appends {P} {PO : Policy P} opt b : appends (P := P) 3 (fun N => restore_us_option OPTION_CAP N opt b).
Proof. destruct b; [apply request_us_appends|apply disable_us_appends]. Qed.
Lemma restore_him_appends {P} {PO : Policy P} opt b : appends (P := P) 3 (fun N => restore_him_option OPTION_CAP N opt b).
Proof. destruct b; [apply request_him_appends|apply disable_him_appends]. Qed.

Lemma appends_run {P} {PO : Policy P} k1 k2 (op : nat -> Telnet P -> list Z -> list Z * Telnet P) ops :
  appends k1 op -> appends k2 (fun N => run_ops (ops N)) -> appends (k1 + k2) (fun N => run_ops (op N :: ops N)).
Proof.
  intros H1 H2 t. destruct (appends_seq _ _ _ _ H1 H2 t) as (cmd & t' & Hl & E). exists cmd, t'. split; [done|].
  intros N out H. rewrite <- (E N out H). unfold run_ops. cbn [foldl]. by destruct (op N t out).
Qed.

Lemma enter_appends : appends (P := ClientPolicy) 18 (fun N => run_ops (enter_ops OPTION_CAP N)).
Proof.
  apply (appends_run 6 12 (request_binary_mode OPTION_CAP)); [apply request_binary_appends|].
  apply (appends_run 3 9 (fun N p => request_us OPTION_CAP N p _)); [apply request_us_appends|].
  apply (appends_run 3 6 (fun N p => request_him OPTION_CAP N p _)); [apply request_him_appends|].
  apply (appends_run 3 3 (fun N p => disable_him OPTION_CAP N p _)); [apply disable_him_appends|].
  apply (appends_run 3 0 (fun N p => request_us OPTION_CAP N p _) (fun _ => [])); [apply request_us_appends|apply appends_none].
Qed.

Lemma leave_appends snapshot : appends (P := ClientPolicy) 15 (fun N => run_ops (leave_ops OPTION_CAP N snapshot)).
Proof.
  apply (appends_run 3 12 (fun N => restore_us_option OPTION_CAP N _ _)); [apply restore_us_appends|].
  apply (appends_run 3 9 (fun N => restore_him_option OPTION_CAP N _ _)); [apply restore_him_appends|].
  apply (appends_run 3 6 (fun N => restore_us_option OPTION_CAP N _ _)); [apply restore_us_appends|].
  apply (appends_run 3 3 (fun N => restore_him_option OPTION_CAP N _ _)); [apply restore_him_appends|].
  apply (appends_run 3 0 (fun N => restore_him_option OPTION_CAP N _ _) (fun _ => [])); [apply restore_him_appends|apply appends_none].
Qed.

(** The query takes what its constant says. *)
Lemma encode_frame N m out :
  encode N m out = if (N - length out <? length (subneg_head OPT_COM_PORT (payload_of m) ++ [SE]))%nat then (false, out)
                   else (true, out ++ subneg_head OPT_COM_PORT (payload_of m) ++ [SE]).
Proof. rewrite encode_push. apply push_subnegotiation_frame. Qed.

Definition frames (ms : list Message) : list Z := concat ((fun m => subneg_head OPT_COM_PORT (payload_of m) ++ [SE]) <$> ms).

Lemma encode_each_room N start ms out :
  (length out + length (frames ms) <= N)%nat -> encode_each N start ms out = (true, out ++ frames ms).
Proof.
  revert out. induction ms as [|m ms IH]; intros out H; cbn [encode_each]; [by rewrite app_nil_r|].
  unfold frames in *. rewrite fmap_cons in *. cbn [concat] in *. rewrite length_app in H. rewrite encode_frame.
  destruct (Nat.ltb_spec (N - length out) (length (subneg_head OPT_COM_PORT (payload_of m) ++ [SE]))) as [|Hroom]; [lia|].
  rewrite IH by (rewrite length_app; lia). by rewrite <- app_assoc.
Qed.

Lemma length_initial_query : length (frames initial_query) = SERIAL_INITIAL_QUERY_MAX.
Proof. vm_compute. reflexivity. Qed.

Lemma enter_fits c :
  serial c = None ->
  exists cmd c', (length cmd <= SERIAL_MODE_NEGOTIATION_MAX)%nat /\ forall N out,
    enter_serial_mode OPTION_CAP N c out =
      if (N - length out <? SERIAL_MODE_NEGOTIATION_MAX)%nat then (inr BufferFull, out, c) else (inl true, out ++ cmd, c').
Proof.
  intros Hs. destruct (enter_appends (with_policy (protocol c) (mkClientPolicy true))) as (cmd & p & Hl & E).
  eexists cmd, _. split; [exact Hl|]. intros N out. unfold enter_serial_mode. rewrite Hs.
  destruct (Nat.ltb_spec (N - length out) SERIAL_MODE_NEGOTIATION_MAX) as [|Hr]; [done|].
  rewrite E by (unfold SERIAL_MODE_NEGOTIATION_MAX in Hr; lia). reflexivity.
Qed.

Lemma leave_fits c :
  is_Some (serial c) ->
  exists cmd c', (length cmd <= SERIAL_MODE_NEGOTIATION_MAX)%nat /\ forall N out,
    leave_serial_mode OPTION_CAP N c out =
      if (N - length out <? SERIAL_MODE_NEGOTIATION_MAX)%nat then (inr BufferFull, out, c) else (inl true, out ++ cmd, c').
Proof.
  intros [st Hs]. pose proof (disable_us_appends (P := ClientPolicy) OPTION_CAP OPT_COM_PORT) as H1.
  assert (H2 : appends (P := ClientPolicy) 15 (fun N p out =>
    match telnet_snapshot c with Some snapshot => run_ops (leave_ops OPTION_CAP N snapshot) p out | None => (out, p) end)).
  { destruct (telnet_snapshot c) as [sn|]; [apply leave_appends|]. intros t. exists [], t. split; [cbn; lia|]. intros. by rewrite app_nil_r. }
  destruct (appends_seq 3 15 _ _ H1 H2 (with_policy (protocol c) (mkClientPolicy false))) as (cmd & p & Hl & E).
  eexists cmd, _. split; [exact Hl|]. intros N out. unfold leave_serial_mode. rewrite Hs.
  destruct (Nat.ltb_spec (N - length out) SERIAL_MODE_NEGOTIATION_MAX) as [|Hr]; [done|].
  specialize (E N out ltac:(unfold SERIAL_MODE_NEGOTIATION_MAX in Hr; lia)).
  destruct (disable_us _ _ _ _ _) as [o1 p1]. cbv beta in E. rewrite E. reflexivity.
Qed.
End ClientFacts.

(** The sizes the client announces for its outputs are enough: entering or leaving serial
    mode, and the initial query, either queue all of their bytes, the same whatever the
    buffer, or, exactly when less than the announced size is free, nothing at all and leave
    the session as it was; the query takes exactly its announced size. *)
Theorem announced_sizes_suffice (OPTION_CAP : nat) (c : ClientSession) :
  exists enter leave c1 c2, (length enter <= SERIAL_MODE_NEGOTIATION_MAX)%nat /\ (length leave <= SERIAL_MODE_NEGOTIATION_MAX)%nat /\
  forall N out,
  let room k := (k <=? N - length out)%nat in
  enter_serial_mode OPTION_CAP N c out =
    (if serial_mode c then (inl false, out, c)
     else if room SERIAL_MODE_NEGOTIATION_MAX then (inl true, out ++ enter, c1) else (inr BufferFull, out, c)) /\
  leave_serial_mode OPTION_CAP N c out =
    (if serial_mode c
     then if room SERIAL_MODE_NEGOTIATION_MAX then (inl true, out ++ leave, c2) else (inr BufferFull, out, c)
     else (inl false, out, c)) /\
  queue_initial_serial_query N c out =
    (if serial_active c then
       if serial_queried c then (inl false, out, c)
       else if room SERIAL_INITIAL_QUERY_MAX then (inl true, out ++ frames initial_query, with_queried true c)
       else (inr BufferFull, out, c)
     else (inr SerialInactive, out, c)) /\
  length (frames initial_query) = SERIAL_INITIAL_QUERY_MAX.
Proof.
  assert (Hq : forall N out, queue_initial_serial_query N c out =
    (if serial_active c then
       if serial_queried c then (inl false, out, c)
       else if (SERIAL_INITIAL_QUERY_MAX <=? N - length out)%nat then (inl true, out ++ frames initial_query, with_queried true c)
       else (inr BufferFull, out, c)
     else (inr SerialInactive, out, c))).
  { intros N out. unfold queue_initial_serial_query, append_initial_serial_query.
    destruct (serial_active c); [|done]. destruct (serial_queried c); [done|]. cbn [negb].
    destruct (Nat.ltb_spec (N - length out) SERIAL_INITIAL_QUERY_MAX), (Nat.leb_spec SERIAL_INITIAL_QUERY_MAX (N - length out)); try lia; [done|].
    rewrite encode_each_room; [done|]. rewrite length_initial_query. unfold SERIAL_INITIAL_QUERY_MAX in *. lia. }
  assert (Hroom : forall A k N (out : list Z) (x y : A), (if (N - length out <? k)%nat then x else y) = if (k <=? N - length out)%nat then y else x).
  { intros A k N out x y. destruct (Nat.ltb_spec (N - length out) k), (Nat.leb_spec k (N - length out)); done || lia. }
  destruct (serial c) as [st|] eqn:Es.
  - destruct (leave_fits OPTION_CAP c ltac:(rewrite Es; eauto)) as (leave & c2 & Hl & E).
    exists [], leave, c, c2. split; [cbn; lia|]. split; [exact Hl|]. intros N out room.
    unfold serial_mode. rewrite Es. split; [unfold enter_serial_mode; by rewrite Es|]. split; [by rewrite E, Hroom|].
    split; [apply Hq|apply length_initial_query].
  - destruct (enter_fits OPTION_CAP c Es) as (enter & c1 & Hl & E).
    exists enter, [], c1, c. split; [exact Hl|]. split; [cbn; lia|]. intros N out room.
    unfold serial_mode. rewrite Es. split; [by rewrite E, Hroom|]. split; [unfold leave_serial_mode; by rewrite Es|].
    split; [apply Hq|apply length_initial_query].
Qed.

(** *** The mode and the option *)

Section ClientMode.
Context (SB_CAP OPTION_CAP SIGNATURE_CAP : nat) (Hcap : (length client_keep < OPTION_CAP)%nat).

(** Outside serial mode the option is off, or going off; in serial mode the status tells
    whether it is on. *)
Record client_ok (c : ClientSession) : Prop := {
  co_table : table_ok OPTION_CAP client_keep (protocol c);
  co_verb : verb_ok (protocol c);
  co_mode : match serial c with
    | None => serial_mode_policy (policy (protocol c)) = false /\
        (os_us (view (protocol c) OPT_COM_PORT) = No \/ os_us (view (protocol c) OPT_COM_PORT) = WantNo \/
         os_us (view (protocol c) OPT_COM_PORT) = WantYesOpposite)
    | Some st => serial_mode_policy (policy (protocol c)) = true /\
        (status st = Active <-> us_enabled (protocol c) OPT_COM_PORT = true)
    end;
}.

Lemma client_new_ok : client_ok client_new.
Proof. split; [apply table_ok_new|done|]. cbn. auto. Qed.

Lemma update_status s e : status (update s e) = status s.
Proof.
  destruct s. destruct e; cbn [update]; try done; try (by repeat case_match).
  unfold update_control. repeat case_match; done.
Qed.

(** What an event does to the parts the invariant speaks of. *)
Lemma client_event_keeps event c :
  protocol (snd (client_event SIGNATURE_CAP event c)) = protocol c /\
  (status <$> serial (snd (client_event SIGNATURE_CAP event c))) =
    match event with
    | OptionEnabled Us opt => if opt =? OPT_COM_PORT then (fun _ => Active) <$> serial c else status <$> serial c
    | OptionDisabled Us opt | OptionRefused Us opt =>
        if opt =? OPT_COM_PORT then (fun _ => Refused) <$> serial c else status <$> serial c
    | _ => status <$> serial c
    end.
Proof.
  destruct event as [| | | | | |[] o|[] o|[] o|o]; cbn [client_event]; try done.
  - destruct (o =? OPT_COM_PORT); [|done]. cbn. split; [done|]. by destruct (serial c) as [[]|].
  - destruct (o =? OPT_COM_PORT); [|done]. cbn. split; [done|]. by destruct (serial c) as [[]|].
  - destruct (o =? OPT_COM_PORT); [|done]. cbn. split; [done|]. by destruct (serial c) as [[]|].
  - destruct (o =? OPT_COM_PORT); [|done]. destruct (decode_from _ _) as [m|e]; [|done].
    destruct (from_server_message _ m); [|done]. cbn. split; [done|]. destruct (serial c); [|done]. cbn. by rewrite update_status.
Qed.

Lemma same_options_view {P} (t t' : Telnet P) o : options t' = options t -> view t' o = view t o.
Proof. intros E. unfold view, slot. by rewrite E. Qed.

(** A command for the option while the policy refuses it. *)
Lemma refused_stays_off N p verb s :
  support_us p OPT_COM_PORT = false -> (os_us s = No \/ os_us s = WantNo \/ os_us s = WantYesOpposite) ->
  let q := os_us (snd (receive_at N p verb OPT_COM_PORT s)) in q = No \/ q = WantNo \/ q = WantYesOpposite.
Proof.
  intros Hp Hq. unfold receive_at. rewrite Hp.
  destruct (verb =? DO); [|destruct (verb =? DONT); [|destruct (verb =? WILL); [by destruct receive_positive|
    destruct (verb =? WONT); [by destruct receive_negative|done]]]];
    (destruct Hq as [E|[E|E]]; rewrite E; cbn; unfold commanded; try destruct (push_cmd _ _ _ _) as [[|] ?]; cbn; auto).
Qed.

Lemma client_feed_ok N byte c : client_ok c -> client_ok (snd (client_feed SB_CAP OPTION_CAP SIGNATURE_CAP N byte c [])).
Proof.
  intros [Ht Hv Hm]. unfold client_feed.
  pose proof (feed_view SB_CAP OPTION_CAP client_keep Hcap N byte (protocol c) Ht (client_keeps _) Hv) as H.
  destruct (feed _ _ _ _ _ _) as [[event reply] p]. destruct H as (Ht' & Hp & Hv' & Hcase).
  assert (Hgoal : forall c', protocol c' = p ->
    (status <$> serial c') = match event with
      | Some (OptionEnabled Us opt) => if opt =? OPT_COM_PORT then (fun _ => Active) <$> serial c else status <$> serial c
      | Some (OptionDisabled Us opt) | Some (OptionRefused Us opt) =>
          if opt =? OPT_COM_PORT then (fun _ => Refused) <$> serial c else status <$> serial c
      | _ => status <$> serial c
      end -> client_ok c').
  { intros c' Hc' Hs'. split; rewrite ?Hc'; try done. rewrite Hp.
    destruct (serial c) as [st|] eqn:Es.
    - destruct Hm as [Hpol Hst]. assert (Hsome : exists st', serial c' = Some st') by (destruct (serial c'); [eauto|repeat case_match; done]).
      destruct Hsome as [st' Es']. rewrite Es' in *. split; [done|]. cbn [fmap option_fmap option_map] in Hs'.
      rewrite us_enabled_view in *. destruct Hcase as [[Ho He]|(verb & He & Hview)].
      + rewrite (same_options_view _ _ _ Ho). destruct event as [[| | | | | |[] o|[] o|[] o|o]|]; try done; injection Hs' as ->; done.
      + pose proof (receive_at_enabled N (policy (protocol c)) verb byte (view (protocol c) byte)) as Hr. rewrite Hview.
        destruct (receive_at _ _ _ _ _) as [[ev out] s']. cbn [fst snd] in *. injection He as -> ->.
        destruct ev as [[| | | | | |[] o|[] o|[] o|o]|]; try done.
        * destruct Hr as (-> & H0 & H1 & _). destruct (Z.eqb_spec byte OPT_COM_PORT) as [->|Hne]; injection Hs' as ->.
          -- rewrite decide_True by done. by rewrite H1.
          -- by rewrite decide_False by done.
        * destruct Hr as (-> & _ & _ & Hr). injection Hs' as ->. case_decide; subst; [by rewrite Hr|done].
        * destruct Hr as (-> & H0 & H1 & _). destruct (Z.eqb_spec byte OPT_COM_PORT) as [->|Hne]; injection Hs' as ->.
          -- rewrite decide_True by done. by rewrite H1.
          -- by rewrite decide_False by done.
        * destruct Hr as (-> & _ & _ & Hr). injection Hs' as ->. case_decide; subst; [by rewrite Hr|done].
        * destruct Hr as (-> & H0 & H1 & _). destruct (Z.eqb_spec byte OPT_COM_PORT) as [->|Hne]; injection Hs' as ->.
          -- rewrite decide_True by done. by rewrite H1.
          -- by rewrite decide_False by done.
        * destruct Hr as (-> & _ & _ & Hr). injection Hs' as ->. case_decide; subst; [by rewrite Hr|done].
        * destruct Hr as [Hu _]. injection Hs' as ->. case_decide; subst; [by rewrite Hu|done].
    - destruct Hm as [Hpol Hoff]. assert (Hnone : serial c' = None) by (destruct (serial c'); [repeat case_match; done|done]).
      rewrite Hnone. split; [done|]. destruct Hcase as [[Ho _]|(verb & _ & Hview)].
      + by rewrite (same_options_view _ _ _ Ho).
      + rewrite Hview. case_decide as Hd; [|done]. subst byte. apply refused_stays_off; [|done]. cbn. by rewrite Hpol. }
  destruct event as [event|]; [|by apply Hgoal].
  pose proof (client_event_keeps event (mkClient p (serial c) (serial_queried c) (telnet_snapshot c))) as [Hpe Hse].
  destruct (client_event _ _ _) as [ev c']. cbn [fst snd protocol serial] in *. by apply Hgoal.
Qed.

(** Operations that leave the option alone. *)
Definition com_us (p : Telnet ClientPolicy) : QState := os_us (view p OPT_COM_PORT).
Definition quiet_op (op : Telnet ClientPolicy -> list Z -> list Z * Telnet ClientPolicy) : Prop :=
  forall p out, table_ok OPTION_CAP client_keep p ->
    table_ok OPTION_CAP client_keep (snd (op p out)) /\ rx (snd (op p out)) = rx p /\ policy (snd (op p out)) = policy p /\
    com_us (snd (op p out)) = com_us p.

Lemma on_side_quiet side N enable opt :
  opt ∈ client_keep -> (opt <> OPT_COM_PORT \/ side = Him) -> quiet_op (fun p => on_side OPTION_CAP side N enable p opt).
Proof.
  intros Ho Hq p out Ht. pose proof (on_side_view OPTION_CAP client_keep Hcap side N enable p opt out Ht Ho) as H.
  destruct (on_side _ _ _ _ _ _ _) as [out' p']. destruct H as (_ & Ht' & Hp & Hr & _ & Hv). cbn [snd]. split_and!; [done..|].
  unfold com_us. rewrite Hv. case_decide as Hd; [|done]. subst opt. destruct Hq as [| ->]; [done|]. cbn. by destruct request_state.
Qed.

Lemma quiet_seq op1 op2 : quiet_op op1 -> quiet_op op2 -> quiet_op (fun p out => let '(out, p) := op1 p out in op2 p out).
Proof.
  intros H1 H2 p out Ht. destruct (H1 p out Ht) as (Ht1 & Hr1 & Hp1 & Hc1). destruct (op1 p out) as [o1 p1]. cbn [snd] in *.
  destruct (H2 p1 o1 Ht1) as (Ht2 & Hr2 & Hp2 & Hc2). destruct (op2 p1 o1) as [o2 p2]. cbn [snd] in *. split_and!; congruence.
Qed.

Lemma run_ops_quiet ops : Forall quiet_op ops -> quiet_op (run_ops ops).
Proof.
  induction 1 as [|op ops Hop _ IH]; [by intros p out Ht|]. intros p out Ht.
  pose proof (quiet_seq op (run_ops ops) Hop IH p out Ht) as H. unfold run_ops in *. cbn [foldl] in *. by destruct (op p out).
Qed.

Lemma run_ops_app {P} (a b : list (Telnet P -> list Z -> list Z * Telnet P)) p out :
  run_ops (a ++ b) p out = let '(out, p) := run_ops a p out in run_ops b p out.
Proof. unfold run_ops. rewrite foldl_app. by destruct (foldl _ (out, p) a). Qed.

Lemma request_quiet side N opt : opt ∈ client_keep -> (opt <> OPT_COM_PORT \/ side = Him) ->
  quiet_op (match side with Us => fun p => request_us OPTION_CAP N p opt | Him => fun p => request_him OPTION_CAP N p opt end).
Proof. intros Ho Hq. destruct side; [exact (on_side_quiet Us N true opt Ho Hq)|exact (on_side_quiet Him N true opt Ho Hq)]. Qed.
Lemma disable_quiet side N opt : opt ∈ client_keep -> (opt <> OPT_COM_PORT \/ side = Him) ->
  quiet_op (match side with Us => fun p => disable_us OPTION_CAP N p opt | Him => fun p => disable_him OPTION_CAP N p opt end).
Proof. intros Ho Hq. destruct side; [exact (on_side_quiet Us N false opt Ho Hq)|exact (on_side_quiet Him N false opt Ho Hq)]. Qed.

(** The option is asked for or against by one operation. *)
Lemma on_us_com N enable p out :
  table_ok OPTION_CAP client_keep p ->
  let '(_, p') := on_us OPTION_CAP N enable p OPT_COM_PORT out in
  table_ok OPTION_CAP client_keep p' /\ rx p' = rx p /\ policy p' = policy p /\
  com_us p' = fst (request_state N (com_us p) enable WILL WONT OPT_COM_PORT out).
Proof.
  intros Ht. pose proof (on_side_view OPTION_CAP client_keep Hcap Us N enable p OPT_COM_PORT out Ht ltac:(set_solver)) as H.
  change (on_side OPTION_CAP Us) with (@on_us ClientPolicy OPTION_CAP) in H.
  destruct (on_us _ _ _ _ _ _) as [out' p']. destruct H as (_ & Ht' & Hp & Hr & _ & Hv). split_and!; [done..|].
  unfold com_us. rewrite Hv, decide_True by done. cbn. by destruct request_state.
Qed.

Lemma table_ok_policy (p : Telnet ClientPolicy) x : table_ok OPTION_CAP client_keep p -> table_ok OPTION_CAP client_keep (with_policy p x).
Proof. intros [? ? ?]. by split. Qed.

Lemma enter_ok N c out : client_ok c -> client_ok (snd (enter_serial_mode OPTION_CAP N c out)).
Proof.
  intros Hok. unfold enter_serial_mode. destruct (serial c) eqn:Es; [done|]. destruct (_ <? _)%nat; [done|].
  destruct Hok as [Ht Hv Hm]. rewrite Es in Hm. destruct Hm as [_ Hoff]. apply (table_ok_policy _ (mkClientPolicy true)) in Ht.
  set (p := with_policy (protocol c) (mkClientPolicy true)) in *.
  change (enter_ops OPTION_CAP N) with (take 4 (enter_ops OPTION_CAP N) ++ [fun p => on_us OPTION_CAP N true p OPT_COM_PORT]).
  rewrite run_ops_app. pose proof (run_ops_quiet (take 4 (enter_ops OPTION_CAP N))) as Hq.
  specialize (Hq ltac:(cbn [take enter_ops]; rewrite !Forall_cons; split_and!;
    [apply quiet_seq; [apply (request_quiet Us)|apply (request_quiet Him)]; set_solver|apply (request_quiet Us); set_solver|
     apply (request_quiet Him); set_solver|apply (disable_quiet Him); set_solver|constructor])).
  destruct (Hq p out Ht) as (Ht1 & Hr1 & Hp1 & Hc1). destruct (run_ops (take 4 _) p out) as [o1 p1]. cbn [snd] in *.
  change (run_ops [fun p => on_us OPTION_CAP N true p OPT_COM_PORT] p1 o1) with (on_us OPTION_CAP N true p1 OPT_COM_PORT o1).
  pose proof (on_us_com N true p1 o1 Ht1) as H. destruct (on_us _ _ _ _ _ _) as [o2 p2]. destruct H as (Ht2 & Hr2 & Hp2 & Hc2).
  cbn [snd]. split; cbn [protocol serial]; [done|unfold verb_ok in *; by rewrite Hr2, Hr1|]. rewrite Hp2, Hp1. split; [done|]. cbn [status console_default].
  rewrite us_enabled_view. change (os_us (view p2 OPT_COM_PORT)) with (com_us p2). rewrite Hc2, Hc1.
  change (com_us p) with (com_us (protocol c)). unfold com_us.
  destruct Hoff as [E|[E|E]]; rewrite E; cbn [request_state]; unfold commanded; try destruct (push_cmd _ _ _ _) as [[|] ?]; done.
Qed.

Lemma leave_ok N c out :
  client_ok c -> client_ok (snd (leave_serial_mode OPTION_CAP N c out)).
Proof.
  intros Hok. unfold leave_serial_mode. destruct (serial c) eqn:Es; [|done].
  destruct (Nat.ltb_spec (N - length out) SERIAL_MODE_NEGOTIATION_MAX) as [|HN]; [done|].
  assert (Hroom : (length out + 3 <= N)%nat) by (unfold SERIAL_MODE_NEGOTIATION_MAX in HN; lia).
  destruct Hok as [Ht Hv _]. apply (table_ok_policy _ (mkClientPolicy false)) in Ht.
  set (p := with_policy (protocol c) (mkClientPolicy false)) in *.
  change (disable_us OPTION_CAP N p) with (on_us OPTION_CAP N false p).
  pose proof (on_us_com N false p out Ht) as H. destruct (on_us _ _ _ _ _ _) as [o1 p1]. destruct H as (Ht1 & Hr1 & Hp1 & Hc1).
  assert (Hq : quiet_op (fun p out =>
    match telnet_snapshot c with Some snapshot => run_ops (leave_ops OPTION_CAP N snapshot) p out | None => (out, p) end)).
  { destruct (telnet_snapshot c) as [sn|]; [|by intros ? ? ?]. apply run_ops_quiet. unfold leave_ops, restore_us_option, restore_him_option.
    rewrite !Forall_cons. split_and!; [..|constructor];
      match goal with |- context [if ?b then _ else _] => destruct b end;
      first [apply (request_quiet Us); set_solver | apply (request_quiet Him); set_solver |
             apply (disable_quiet Us); set_solver | apply (disable_quiet Him); set_solver]. }
  destruct (Hq p1 o1 Ht1) as (Ht2 & Hr2 & Hp2 & Hc2). cbv beta in *. destruct (match telnet_snapshot c with Some _ => _ | None => _ end) as [o2 p2].
  cbn [snd] in *. cbn [snd]. split; cbn [protocol serial]; [done|unfold verb_ok in *; by rewrite Hr2, Hr1|]. rewrite Hp2, Hp1. split; [done|].
  change (os_us (view p2 OPT_COM_PORT)) with (com_us p2). rewrite Hc2, Hc1.
  destruct (com_us p); cbn [request_state]; unfold commanded, push_cmd; rewrite ?extend_room by done; cbn; auto.
Qed.

(** The sessions the operations lead to. *)
Inductive client_reached : ClientSession -> Prop :=
| ClientFresh : client_reached client_new
| ClientEntered c N out : client_reached c -> client_reached (snd (enter_serial_mode OPTION_CAP N c out))
| ClientLeft c N out : client_reached c -> client_reached (snd (leave_serial_mode OPTION_CAP N c out))
| ClientQueried c N out : client_reached c -> client_reached (snd (queue_initial_serial_query N c out))
| ClientFed c N byte : client_reached c -> client_reached (snd (client_feed SB_CAP OPTION_CAP SIGNATURE_CAP N byte c [])).

Lemma client_reached_ok c : client_reached c -> client_ok c.
Proof.
  induction 1 as [|c N out _ IH|c N out _ IH|c N out _ IH|c N byte _ IH].
  - apply client_new_ok.
  - by apply enter_ok.
  - by apply leave_ok.
  - unfold queue_initial_serial_query. destruct (negb _); [done|]. destruct (serial_queried c); [done|].
    destruct (append_initial_serial_query _ _) as [[|] ?]; [|done]. destruct IH as [? ? ?]. by split.
  - by apply client_feed_ok.
Qed.
End ClientMode.

(** The mode of a client session and the option agree: in every session the operations lead
    to, whatever the peer sends, the serial commands are enabled exactly while the session
    is in serial mode and COM-PORT-OPTION is on, and outside serial mode the option is off
    and neither being asked for nor about to come back. *)
Theorem client_mode_tracks (SB_CAP OPTION_CAP SIGNATURE_CAP : nat) (c : ClientSession) :
  (4 < OPTION_CAP)%nat -> client_reached SB_CAP OPTION_CAP SIGNATURE_CAP c ->
  serial_active c = serial_mode c && us_enabled (protocol c) OPT_COM_PORT /\
  (serial_mode c = false -> us_enabled (protocol c) OPT_COM_PORT = false /\
    com_us (protocol c) <> WantYes /\ com_us (protocol c) <> WantNoOpposite).
Proof.
  intros Hcap Hc. destruct (client_reached_ok SB_CAP OPTION_CAP SIGNATURE_CAP Hcap c Hc) as [_ _ Hm].
  unfold serial_active, serial_mode. destruct (serial c) as [st|].
  - destruct Hm as [_ Hst]. split; [|done]. cbn [andb]. apply eq_true_iff_eq. by rewrite bool_decide_eq_true.
  - destruct Hm as [_ Hoff]. split; [done|]. intros _. rewrite us_enabled_view. unfold com_us. by destruct Hoff as [E|[E|E]]; rewrite E.
Qed.

(** The server agrees to the option and then withdraws it. *)
Lemma client_mode_tracks_witness :
  let c := snd (enter_serial_mode 12 18 client_new []) in
  let on := snd (client_feed 8 12 8 16 OPT_COM_PORT (snd (client_feed 8 12 8 16 DO (snd (client_feed 8 12 8 16 IAC c []))  [])) []) in
  serial_active on = true /\ us_enabled (protocol on) OPT_COM_PORT = true.
Proof.
  intros c on. assert (Hr : client_reached 8 12 8 on) by (repeat apply ClientFed; apply ClientEntered, ClientFresh).
  assert (Ha : serial_active on = true) by (vm_compute; reflexivity). clearbody on.
  pose proof (proj1 (client_mode_tracks 8 12 8 on ltac:(lia) Hr)) as H. split; [exact Ha|].
  rewrite Ha in H. symmetry in H. by apply andb_true_iff in H as [_ H].
Defined.

(** ** Messages of the server *)

Fixpoint client_feed_all (SB_CAP OPTION_CAP SIGNATURE_CAP N : nat) (bytes : list Z) (c : ClientSession) :
    list ClientEvent * list Z * ClientSession :=
  match bytes with
  | [] => ([], [], c)
  | byte :: bytes =>
      let '((event, reply), c) := client_feed SB_CAP OPTION_CAP SIGNATURE_CAP N byte c [] in
      let '(events, replies, c) := client_feed_all SB_CAP OPTION_CAP SIGNATURE_CAP N bytes c in
      (match event with Some e => e :: events | None => events end, reply ++ replies, c)
  end.

Lemma client_quiet SB_CAP OPTION_CAP SIGNATURE_CAP N bytes c r p rest :
  feed_all SB_CAP OPTION_CAP N bytes (protocol c) = ([], r, p) ->
  client_feed_all SB_CAP OPTION_CAP SIGNATURE_CAP N (bytes ++ rest) c =
    let '(e, r', c') := client_feed_all SB_CAP OPTION_CAP SIGNATURE_CAP N rest
                          (mkClient p (serial c) (serial_queried c) (telnet_snapshot c)) in (e, r ++ r', c').
Proof.
  revert c r. induction bytes as [|b bytes IH]; intros c r; cbn [feed_all client_feed_all app].
  - intros [= <- <-]. destruct c. cbn. by destruct (client_feed_all _ _ _ _ rest _) as [[e r'] c'].
  - unfold client_feed. destruct (feed _ _ _ b _ _) as [[event reply] p1].
    destruct (feed_all _ _ _ bytes p1) as [[events replies] p2] eqn:E.
    destruct event; [done|]. intros [= -> <- <-].
    rewrite (IH (mkClient p1 (serial c) (serial_queried c) (telnet_snapshot c)) replies E).
    cbn [protocol serial serial_queried telnet_snapshot].
    destruct (client_feed_all _ _ _ _ rest _) as [[e r'] c']. by rewrite app_assoc.
Qed.

(** What a server confirms arrives: the bytes [encode] queues for a message of the server
    make a client in serial mode answer nothing, report exactly the event of the message,
    and track it in the state of its console. *)
Theorem server_message_arrives (SB_CAP OPTION_CAP SIGNATURE_CAP N M : nat) (m : Message) (out out' : list Z)
    (c : ClientSession) (st : SerialConsoleState) :
  message_wf m -> message_origin m = OriginServer -> (length (message_value m) < SB_CAP)%nat ->
  rx (protocol c) = RxData -> serial c = Some st -> encode M m out = (true, out') ->
  exists frame c' event, out' = out ++ frame /\ from_server_message SIGNATURE_CAP m = Some event /\
    client_feed_all SB_CAP OPTION_CAP SIGNATURE_CAP N frame c = ([ClientSerial event], [], c') /\
    serial c' = Some (update st event) /\ rx (protocol c') = RxData /\
    us_enabled (protocol c') OPT_COM_PORT = us_enabled (protocol c) OPT_COM_PORT.
Proof.
  intros Hm Ho Hl Hrx Hs He. rewrite encode_frame in He. destruct (_ <? _)%nat; [done|]. injection He as <-.
  set (payload := payload_of m) in *.
  pose proof (subneg_head_read SB_CAP OPTION_CAP N OPT_COM_PORT payload (protocol c) Hrx) as Hhead.
  rewrite take_ge in Hhead by (cbn; lia).
  assert (Hev : exists event, from_server_message SIGNATURE_CAP m = Some event).
  { unfold from_server_message. rewrite Ho, bool_decide_eq_true_2, andb_false_r by done. eauto. }
  destruct Hev as [event Hev].
  assert (Hdec : decode_from OriginServer payload = inl m).
  { unfold decode_from, payload. rewrite decode_payload by done. destruct m; try done. cbn in Ho. by subst. }
  set (p1 := with_rx _ RxSubnegIac) in Hhead.
  exists (subneg_head OPT_COM_PORT payload ++ [SE]),
    (mkClient (with_rx p1 RxData) (Some (update st event)) (serial_queried c) (telnet_snapshot c)), event.
  split; [done|]. split; [done|]. split; [|done].
  rewrite (client_quiet _ _ _ _ _ _ _ _ [SE] Hhead). cbn [client_feed_all]. unfold client_feed. cbn [protocol].
  rewrite subneg_end_read by done. replace (subneg_option p1) with OPT_COM_PORT by done. cbn [client_event].
  rewrite Z.eqb_refl. cbn [protocol]. change (snd (subnegotiation (with_rx p1 RxData))) with payload. rewrite Hdec, Hev.
  cbn. by rewrite Hs.
Qed.

Lemma server_message_arrives_witness :
  let c := snd (enter_serial_mode 12 18 client_new []) in
  exists c', client_feed_all 8 12 8 16 [255; 250; 44; 105; 8; 255; 240] c = ([ClientSerial (EvControl DTR_ON)], [], c') /\
    (dtr <$> serial c') = Some (Some true).
Proof.
  intros c. pose proof (server_message_arrives 8 12 8 16 16 (MsgSetControl OriginServer DTR_ON) []
    [255; 250; 44; 105; 8; 255; 240] c console_default I eq_refl ltac:(cbn; lia)) as H.
  destruct H as (frame & c' & event & Hfr & Hev & Hf & Hs & _); [vm_compute; reflexivity..|].
  cbn in Hfr, Hev. subst frame. injection Hev as <-. exists c'. split; [exact Hf|]. by rewrite Hs.
Defined.
