(* ===== verification/TelnetServer.v ===== *)
(** * The telnet access server session ([microtun-telnet/src/server.rs])

    Typed requests of a client, the protocol-only serial state with its modem-state deltas,
    and the session that joins them to the codec. *)

From S2P Require Import Prelude Messages Telnet ComPort TelnetTable.
Local Open Scope Z_scope.

Definition SERIAL_SERVER_NEGOTIATION_MAX : nat := 15.

Inductive ServerPolicy := server_policy.
#[export] Instance server_policy_policy : Policy ServerPolicy := {|
  support_us _ opt := (opt =? OPT_BINARY) || (opt =? OPT_SUPPRESS_GO_AHEAD);
  support_him _ opt := (opt =? OPT_BINARY) || (opt =? OPT_SUPPRESS_GO_AHEAD) || (opt =? OPT_COM_PORT);
|}.

Inductive SerialStatus := Negotiating | Active | Refused.
#[export] Instance SerialStatus_eq_dec : EqDecision SerialStatus.
Proof. solve_decision. Defined.

Inductive QueryOrSet (T : Type) := Query | Set_ (value : T).
Arguments Query {T}.
Arguments Set_ {T} value.

Inductive DataBits := DataFive | DataSix | DataSeven | DataEight.
Inductive Parity := ParityNone | ParityOdd | ParityEven | ParityMark | ParitySpace.
Inductive StopBits := StopOne | StopTwo | StopOneAndAHalf.
Inductive OutboundFlow := OutNone | OutXonXoff | OutRtsCts | OutDcd | OutDsr.
Inductive InboundFlow := InNone | InXonXoff | InRtsCts | InDtr.
Inductive Purge := PurgeReceive | PurgeTransmit | PurgeBoth.

Definition data_bits_wire (v : DataBits) : Z :=
  match v with DataFive => DATA_SIZE_FIVE | DataSix => DATA_SIZE_SIX | DataSeven => DATA_SIZE_SEVEN | DataEight => DATA_SIZE_EIGHT end.
Definition parity_wire (v : Parity) : Z :=
  match v with
  | ParityNone => PARITY_NONE | ParityOdd => PARITY_ODD | ParityEven => PARITY_EVEN
  | ParityMark => PARITY_MARK | ParitySpace => PARITY_SPACE
  end.
Definition stop_bits_wire (v : StopBits) : Z :=
  match v with StopOne => STOP_ONE | StopTwo => STOP_TWO | StopOneAndAHalf => STOP_ONE_AND_A_HALF end.
Definition outbound_wire (v : OutboundFlow) : Z :=
  match v with
  | OutNone => NO_OUTBOUND_FLOW | OutXonXoff => XON_XOFF_OUTBOUND | OutRtsCts => HARDWARE_OUTBOUND
  | OutDcd => DCD_OUTBOUND | OutDsr => DSR_OUTBOUND
  end.
Definition inbound_wire (v : InboundFlow) : Z :=
  match v with
  | InNone => NO_INBOUND_FLOW | InXonXoff => XON_XOFF_INBOUND | InRtsCts => HARDWARE_INBOUND | InDtr => DTR_INBOUND
  end.
Definition purge_wire (v : Purge) : Z :=
  match v with PurgeReceive => PURGE_RECEIVE | PurgeTransmit => PURGE_TRANSMIT | PurgeBoth => PURGE_BOTH end.

Inductive SerialRequest :=
| ReqSignature (text : list Z)
| ReqBaud (v : QueryOrSet Z)
| ReqDataBits (v : QueryOrSet DataBits)
| ReqParity (v : QueryOrSet Parity)
| ReqStopBits (v : QueryOrSet StopBits)
| ReqOutboundFlow (v : QueryOrSet OutboundFlow)
| ReqInboundFlow (v : QueryOrSet InboundFlow)
| ReqRts (v : QueryOrSet bool)
| ReqDtr (v : QueryOrSet bool)
| ReqBreak (v : QueryOrSet bool)
| ReqLineStateMask (mask : Z)
| ReqModemStateMask (mask : Z)
| ReqPurge (v : Purge)
| ReqSuspend
| ReqResume.

Inductive SerialRequestError :=
| InvalidRequestOrigin (origin : Origin)
| InvalidCommand (c : Command)
| InvalidValue (c : Command) (value : Z).

Definition data_bits_request (v : Z) : SerialRequest + SerialRequestError :=
  if v =? DATA_SIZE_REQUEST then inl (ReqDataBits Query) else
  if v =? DATA_SIZE_FIVE then inl (ReqDataBits (Set_ DataFive)) else
  if v =? DATA_SIZE_SIX then inl (ReqDataBits (Set_ DataSix)) else
  if v =? DATA_SIZE_SEVEN then inl (ReqDataBits (Set_ DataSeven)) else
  if v =? DATA_SIZE_EIGHT then inl (ReqDataBits (Set_ DataEight)) else inr (InvalidValue SetDataSize v).

Definition parity_request (v : Z) : SerialRequest + SerialRequestError :=
  if v =? PARITY_REQUEST then inl (ReqParity Query) else
  if v =? PARITY_NONE then inl (ReqParity (Set_ ParityNone)) else
  if v =? PARITY_ODD then inl (ReqParity (Set_ ParityOdd)) else
  if v =? PARITY_EVEN then inl (ReqParity (Set_ ParityEven)) else
  if v =? PARITY_MARK then inl (ReqParity (Set_ ParityMark)) else
  if v =? PARITY_SPACE then inl (ReqParity (Set_ ParitySpace)) else inr (InvalidValue SetParity v).

Definition stop_bits_request (v : Z) : SerialRequest + SerialRequestError :=
  if v =? STOP_REQUEST then inl (ReqStopBits Query) else
  if v =? STOP_ONE then inl (ReqStopBits (Set_ StopOne)) else
  if v =? STOP_TWO then inl (ReqStopBits (Set_ StopTwo)) else
  if v =? STOP_ONE_AND_A_HALF then inl (ReqStopBits (Set_ StopOneAndAHalf)) else inr (InvalidValue SetStopSize v).

Definition control_request (v : Z) : SerialRequest + SerialRequestError :=
  if v =? REQUEST_OUTBOUND_FLOW then inl (ReqOutboundFlow Query) else
  if v =? NO_OUTBOUND_FLOW then inl (ReqOutboundFlow (Set_ OutNone)) else
  if v =? XON_XOFF_OUTBOUND then inl (ReqOutboundFlow (Set_ OutXonXoff)) else
  if v =? HARDWARE_OUTBOUND then inl (ReqOutboundFlow (Set_ OutRtsCts)) else
  if v =? DCD_OUTBOUND then inl (ReqOutboundFlow (Set_ OutDcd)) else
  if v =? DSR_OUTBOUND then inl (ReqOutboundFlow (Set_ OutDsr)) else
  if v =? REQUEST_INBOUND_FLOW then inl (ReqInboundFlow Query) else
  if v =? NO_INBOUND_FLOW then inl (ReqInboundFlow (Set_ InNone)) else
  if v =? XON_XOFF_INBOUND then inl (ReqInboundFlow (Set_ InXonXoff)) else
  if v =? HARDWARE_INBOUND then inl (ReqInboundFlow (Set_ InRtsCts)) else
  if v =? DTR_INBOUND then inl (ReqInboundFlow (Set_ InDtr)) else
  if v =? REQUEST_BREAK then inl (ReqBreak Query) else
  if v =? BREAK_ON then inl (ReqBreak (Set_ true)) else
  if v =? BREAK_OFF then inl (ReqBreak (Set_ false)) else
  if v =? REQUEST_DTR then inl (ReqDtr Query) else
  if v =? DTR_ON then inl (ReqDtr (Set_ true)) else
  if v =? DTR_OFF then inl (ReqDtr (Set_ false)) else
  if v =? REQUEST_RTS then inl (ReqRts Query) else
  if v =? RTS_ON then inl (ReqRts (Set_ true)) else
  if v =? RTS_OFF then inl (ReqRts (Set_ false)) else inr (InvalidValue SetControl v).

Definition purge_request (v : Z) : SerialRequest + SerialRequestError :=
  if v =? PURGE_RECEIVE then inl (ReqPurge PurgeReceive) else
  if v =? PURGE_TRANSMIT then inl (ReqPurge PurgeTransmit) else
  if v =? PURGE_BOTH then inl (ReqPurge PurgeBoth) else inr (InvalidValue PurgeData v).

Definition from_message (m : Message) : SerialRequest + SerialRequestError :=
  if negb (bool_decide (message_origin m = OriginClient)) then inr (InvalidRequestOrigin (message_origin m)) else
  match m with
  | MsgSignature _ text => inl (ReqSignature text)
  | MsgSetBaudRate _ v => inl (ReqBaud (if v =? 0 then Query else Set_ v))
  | MsgSetDataSize _ v => data_bits_request v
  | MsgSetParity _ v => parity_request v
  | MsgSetStopSize _ v => stop_bits_request v
  | MsgSetControl _ v => control_request v
  | MsgFlowControlSuspend _ => inl ReqSuspend
  | MsgFlowControlResume _ => inl ReqResume
  | MsgSetLineStateMask _ v => inl (ReqLineStateMask v)
  | MsgSetModemStateMask _ v => inl (ReqModemStateMask v)
  | MsgPurgeData _ v => purge_request v
  | MsgNotifyLineState _ _ | MsgNotifyModemState _ _ => inr (InvalidCommand (message_command m))
  end.

(** ** The serial state *)

Record ServerSerialState := mkServerSerial {
  status : SerialStatus;
  line_state_mask : Z;
  modem_state_mask : Z;
  tx_suspended : bool;
  previous_modem_state : option Z;
}.

Definition server_serial_new : ServerSerialState := mkServerSerial Negotiating 0 u8_max false None.

Definition with_status (s : ServerSerialState) (st : SerialStatus) : ServerSerialState :=
  mkServerSerial st (line_state_mask s) (modem_state_mask s) (tx_suspended s) (previous_modem_state s).
Definition with_previous (s : ServerSerialState) (p : option Z) : ServerSerialState :=
  mkServerSerial (status s) (line_state_mask s) (modem_state_mask s) (tx_suspended s) p.
Definition set_line_state_mask (s : ServerSerialState) (mask : Z) : ServerSerialState :=
  mkServerSerial (status s) mask (modem_state_mask s) (tx_suspended s) (previous_modem_state s).
Definition set_modem_state_mask (s : ServerSerialState) (mask : Z) : ServerSerialState :=
  mkServerSerial (status s) (line_state_mask s) mask (tx_suspended s) (previous_modem_state s).
Definition set_suspended (s : ServerSerialState) (b : bool) : ServerSerialState :=
  mkServerSerial (status s) (line_state_mask s) (modem_state_mask s) b (previous_modem_state s).

Definition apply_request (s : ServerSerialState) (r : SerialRequest) : ServerSerialState :=
  match r with
  | ReqLineStateMask mask => set_line_state_mask s mask
  | ReqModemStateMask mask => set_modem_state_mask s mask
  | ReqSuspend => set_suspended s true
  | ReqResume => set_suspended s false
  | _ => s
  end.

Definition line_state (s : ServerSerialState) (raw_state : Z) : option Message :=
  let value := Z.land raw_state (line_state_mask s) in
  if negb (value =? 0) then Some (MsgNotifyLineState OriginServer value) else None.

Definition CURRENT_MASK : Z := Z.lor (Z.lor (Z.lor CTS DSR) RING_INDICATOR) CARRIER_DETECT.

Definition modem_delta (previous : option Z) (current : Z) : Z :=
  let changed := match previous with None => 0 | Some previous => Z.lxor previous current end in
  let delta := if negb (Z.land changed CTS =? 0) then DELTA_CTS else 0 in
  let delta := if negb (Z.land changed DSR =? 0) then Z.lor delta DELTA_DSR else delta in
  let delta :=
    if match previous with
       | None => false
       | Some previous => negb (Z.land previous RING_INDICATOR =? 0) && (Z.land current RING_INDICATOR =? 0)
       end then Z.lor delta TRAILING_EDGE_RING else delta in
  if negb (Z.land changed CARRIER_DETECT =? 0) then Z.lor delta DELTA_CARRIER_DETECT else delta.

Definition modem_state_changed (s : ServerSerialState) (raw_state : Z) : option Message * ServerSerialState :=
  let current := Z.land raw_state CURRENT_MASK in
  let previous := previous_modem_state s in
  let s := with_previous s (Some current) in
  let delta := modem_delta previous current in
  match previous with
  | None => (None, s)
  | Some _ =>
      let value := Z.land (Z.lor current delta) (modem_state_mask s) in
      (if negb (value =? 0) then Some (MsgNotifyModemState OriginServer value) else None, s)
  end.

Definition reset_modem_state (s : ServerSerialState) : ServerSerialState := with_previous s None.

(** ** The session *)

Inductive ServerEvent :=
| ServerData (byte : Z)
| ServerSerialModeActive
| ServerSerialModeRefused
| ServerTelnet (e : TelnetEvent)
| ServerSerial (r : SerialRequest)
| ServerMalformedSerial (e : DecodeError)
| ServerInvalidSerialRequest (e : SerialRequestError).

Inductive ServerEncodeError := BufferFull | SerialInactive | InvalidOrigin.

Definition required_option_refused (event : TelnetEvent) : bool :=
  match event with
  | OptionRefused Him opt | OptionDisabled Him opt => (opt =? OPT_COM_PORT) || (opt =? OPT_BINARY)
  | OptionRefused Us opt | OptionDisabled Us opt => opt =? OPT_BINARY
  | _ => false
  end.

Section Server.
Context (SB_CAP OPTION_CAP : nat).

Record ServerSession := mkServer {
  protocol : Telnet ServerPolicy;
  serial : ServerSerialState;
  started : bool;
}.

Definition server_new : ServerSession := mkServer (telnet_new server_policy) server_serial_new false.

Definition codec_active (t : Telnet ServerPolicy) : bool := binary_mode_enabled t && him_enabled t OPT_COM_PORT.
Definition serial_active (s : ServerSession) : bool := codec_active (protocol s).

Definition start (N : nat) (s : ServerSession) (out : list Z) : (bool + ServerEncodeError) * list Z * ServerSession :=
  if started s then (inl false, out, s) else
  if (N - length out <? SERIAL_SERVER_NEGOTIATION_MAX)%nat then (inr BufferFull, out, s) else
  let '(out, p) := request_binary_mode OPTION_CAP N (protocol s) out in
  let '(out, p) := request_us OPTION_CAP N p OPT_SUPPRESS_GO_AHEAD out in
  let '(out, p) := request_him OPTION_CAP N p OPT_SUPPRESS_GO_AHEAD out in
  let '(out, p) := request_him OPTION_CAP N p OPT_COM_PORT out in
  (inl true, out, mkServer p (with_status (serial s) Negotiating) true).

(** The event of a codec event that does not change the mode. *)
Definition server_event (event : TelnetEvent) (s : ServerSession) : ServerEvent * ServerSession :=
  match event with
  | Data byte => (ServerData byte, s)
  | Subnegotiation opt =>
      if opt =? OPT_COM_PORT then
        match decode_from OriginClient (snd (subnegotiation (protocol s))) with
        | inl m =>
            match from_message m with
            | inl request => (ServerSerial request, mkServer (protocol s) (apply_request (serial s) request) (started s))
            | inr error => (ServerInvalidSerialRequest error, s)
            end
        | inr error => (ServerMalformedSerial error, s)
        end
      else (ServerTelnet event, s)
  | _ => (ServerTelnet event, s)
  end.

Definition server_feed (N : nat) (byte : Z) (s : ServerSession) (reply : list Z) :
    (option ServerEvent * list Z) * ServerSession :=
  let was_active := serial_active s in
  let '((event, reply), p) := feed SB_CAP OPTION_CAP N byte (protocol s) reply in
  let s := mkServer p (serial s) (started s) in
  match event with
  | None => ((None, reply), s)
  | Some event =>
      let active := serial_active s in
      if negb was_active && active then
        ((Some ServerSerialModeActive, reply), mkServer p (with_status (serial s) Active) (started s))
      else if (was_active && negb active) || required_option_refused event then
        ((Some ServerSerialModeRefused, reply), mkServer p (with_status (serial s) Refused) (started s))
      else let '(event, s) := server_event event s in ((Some event, reply), s)
  end.

Definition queue_serial (N : nat) (s : ServerSession) (m : Message) (out : list Z) :
    (unit + ServerEncodeError) * list Z :=
  if negb (serial_active s) then (inr SerialInactive, out) else
  if negb (bool_decide (message_origin m = OriginServer)) then (inr InvalidOrigin, out) else
  match encode N m out with
  | (true, out) => (inl tt, out)
  | (false, out) => (inr BufferFull, out)
  end.

Definition confirm_signature (N : nat) (s : ServerSession) (text : list Z) := queue_serial N s (MsgSignature OriginServer text).
Definition confirm_baud (N : nat) (s : ServerSession) (v : Z) := queue_serial N s (MsgSetBaudRate OriginServer v).
Definition confirm_data_bits_raw (N : nat) (s : ServerSession) (v : Z) := queue_serial N s (MsgSetDataSize OriginServer v).
Definition confirm_data_bits (N : nat) (s : ServerSession) (v : DataBits) := confirm_data_bits_raw N s (data_bits_wire v).
Definition confirm_parity_raw (N : nat) (s : ServerSession) (v : Z) := queue_serial N s (MsgSetParity OriginServer v).
Definition confirm_parity (N : nat) (s : ServerSession) (v : Parity) := confirm_parity_raw N s (parity_wire v).
Definition confirm_stop_bits_raw (N : nat) (s : ServerSession) (v : Z) := queue_serial N s (MsgSetStopSize OriginServer v).
Definition confirm_stop_bits (N : nat) (s : ServerSession) (v : StopBits) := confirm_stop_bits_raw N s (stop_bits_wire v).
Definition confirm_control (N : nat) (s : ServerSession) (v : Z) := queue_serial N s (MsgSetControl OriginServer v).
Definition confirm_outbound_flow (N : nat) (s : ServerSession) (v : OutboundFlow) := confirm_control N s (outbound_wire v).
Definition confirm_inbound_flow (N : nat) (s : ServerSession) (v : InboundFlow) := confirm_control N s (inbound_wire v).
Definition confirm_rts (N : nat) (s : ServerSession) (on : bool) := confirm_control N s (if on then RTS_ON else RTS_OFF).
Definition confirm_dtr (N : nat) (s : ServerSession) (on : bool) := confirm_control N s (if on then DTR_ON else DTR_OFF).
Definition confirm_break (N : nat) (s : ServerSession) (on : bool) := confirm_control N s (if on then BREAK_ON else BREAK_OFF).
Definition confirm_line_state_mask (N : nat) (s : ServerSession) (v : Z) := queue_serial N s (MsgSetLineStateMask OriginServer v).
Definition confirm_modem_state_mask (N : nat) (s : ServerSession) (v : Z) := queue_serial N s (MsgSetModemStateMask OriginServer v).
Definition confirm_purge (N : nat) (s : ServerSession) (v : Purge) := queue_serial N s (MsgPurgeData OriginServer (purge_wire v)).
Definition notify_line_state (N : nat) (s : ServerSession) (v : Z) := queue_serial N s (MsgNotifyLineState OriginServer v).
Definition notify_modem_state (N : nat) (s : ServerSession) (v : Z) := queue_serial N s (MsgNotifyModemState OriginServer v).
End Server.

(** ** Lemmas *)

Definition server_keep : list Z := [OPT_BINARY; OPT_SUPPRESS_GO_AHEAD; OPT_COM_PORT].

Lemma server_keeps (p : ServerPolicy) : keeps server_keep p.
Proof.
  intros opt. unfold server_keep. cbn [support_us support_him server_policy_policy].
  destruct (Z.eqb_spec opt OPT_BINARY) as [->|H1]; [left; set_solver|].
  destruct (Z.eqb_spec opt OPT_SUPPRESS_GO_AHEAD) as [->|H2]; [left; set_solver|].
  destruct (Z.eqb_spec opt OPT_COM_PORT) as [->|H3]; [left; set_solver|by right].
Qed.

Lemma codec_active_view t :
  codec_active t = is_yes (os_us (view t OPT_BINARY)) && is_yes (os_him (view t OPT_BINARY)) && is_yes (os_him (view t OPT_COM_PORT)).
Proof. unfold codec_active, binary_mode_enabled. by rewrite us_enabled_view, !him_enabled_view. Qed.

Lemma codec_active_options t t' : options t' = options t -> codec_active t' = codec_active t.
Proof. intros E. unfold codec_active, binary_mode_enabled, us_enabled, him_enabled, slot. by rewrite E. Qed.

Lemma apply_request_status s r : status (apply_request s r) = status s.
Proof. by destruct r. Qed.

Lemma server_event_keeps event s :
  protocol (snd (server_event event s)) = protocol s /\ status (serial (snd (server_event event s))) = status (serial s) /\
  started (snd (server_event event s)) = started s.
Proof.
  destruct event; try done. cbn [server_event]. destruct (opt =? OPT_COM_PORT); [|done].
  destruct (decode_from _ _) as [m|e]; [|done]. destruct (from_message m) as [r|e]; [|done]. cbn. by rewrite apply_request_status.
Qed.

(** A received command changes the activity as its event says. *)
Lemma receive_activity N (t t' : Telnet ServerPolicy) verb byte :
  (forall o, view t' o = if decide (o = byte) then snd (receive_at N (policy t) verb byte (view t byte)) else view t o) ->
  match fst (fst (receive_at N (policy t) verb byte (view t byte))) with
  | None => codec_active t' = codec_active t
  | Some event => required_option_refused event = true -> codec_active t' = false
  end.
Proof.
  intros Hv. pose proof (receive_at_enabled N (policy t) verb byte (view t byte)) as H. rewrite !codec_active_view, !Hv.
  destruct (receive_at N (policy t) verb byte (view t byte)) as [[event out] s']. cbn [fst snd] in *.
  assert (Hrefused : forall side, match side with
      | Us => is_yes (os_us s') = false -> byte =? OPT_BINARY = true
      | Him => is_yes (os_him s') = false -> (byte =? OPT_COM_PORT) || (byte =? OPT_BINARY) = true end ->
    match side with Us => is_yes (os_us s') | Him => is_yes (os_him s') end = false ->
    is_yes (os_us (if decide (OPT_BINARY = byte) then s' else view t OPT_BINARY)) &&
    is_yes (os_him (if decide (OPT_BINARY = byte) then s' else view t OPT_BINARY)) &&
    is_yes (os_him (if decide (OPT_COM_PORT = byte) then s' else view t OPT_COM_PORT)) = false).
  { intros [] Hb Hn; specialize (Hb Hn).
    - apply Z.eqb_eq in Hb as ->. rewrite decide_True by done. by rewrite Hn.
    - apply orb_true_iff in Hb as [Hb|Hb]; apply Z.eqb_eq in Hb as ->.
      + rewrite (decide_True (P := OPT_COM_PORT = OPT_COM_PORT)) by done. rewrite Hn. by rewrite andb_false_r.
      + rewrite decide_True by done. by rewrite Hn, andb_false_r. }
  destruct event as [[| | | | | |[] o|[] o|[] o|]|]; try done.
  - destruct H as (-> & _ & Hn & _). intros Hr. by apply (Hrefused Us).
  - destruct H as (-> & _ & Hn & _). intros Hr. by apply (Hrefused Him).
  - destruct H as (-> & _ & Hn & _). intros Hr. by apply (Hrefused Us).
  - destruct H as (-> & _ & Hn & _). intros Hr. by apply (Hrefused Him).
  - destruct H as [Hu Hh]. repeat case_decide; subst; rewrite ?Hu, ?Hh; done.
Qed.

Section ServerFacts.
Context (SB_CAP OPTION_CAP : nat) (Hcap : (length server_keep < OPTION_CAP)%nat).

Record server_ok (s : ServerSession) : Prop := {
  so_table : table_ok OPTION_CAP server_keep (protocol s);
  so_verb : verb_ok (protocol s);
  so_status : status (serial s) = Active <-> serial_active s = true;
}.

Lemma server_new_ok : server_ok server_new.
Proof. split; [apply table_ok_new|done|]. cbn. done. Qed.

(** The event tells a change of activity. *)
Definition activity_told (before after : bool) (event : option ServerEvent) : Prop :=
  (event = Some ServerSerialModeActive <-> before = false /\ after = true) /\
  (before = true /\ after = false -> event = Some ServerSerialModeRefused).

Lemma server_event_mode event s :
  fst (server_event event s) <> ServerSerialModeActive /\ fst (server_event event s) <> ServerSerialModeRefused.
Proof.
  destruct event; try done. cbn [server_event]. destruct (opt =? OPT_COM_PORT); [|done].
  destruct (decode_from _ _) as [m|e]; [|done]. by destruct (from_message m) as [r|e].
Qed.

Lemma server_feed_ok N byte s :
  server_ok s ->
  let '((event, reply), s') := server_feed SB_CAP OPTION_CAP N byte s [] in
  server_ok s' /\ activity_told (serial_active s) (serial_active s') event.
Proof.
  intros [Ht Hv Hst]. unfold server_feed.
  pose proof (feed_view SB_CAP OPTION_CAP server_keep Hcap N byte (protocol s) Ht (server_keeps _) Hv) as H.
  destruct (feed _ _ _ _ _ _) as [[event reply] p]. destruct H as (Ht' & _ & Hv' & Hcase). unfold serial_active in *.
  assert (Hact : match event with
                 | None => codec_active p = codec_active (protocol s)
                 | Some event => required_option_refused event = true -> codec_active p = false
                 end).
  { destruct Hcase as [[Ho He]|(verb & He & Hview)].
    - destruct event as [event|]; [by destruct event|by apply codec_active_options].
    - pose proof (receive_activity N (protocol s) p verb byte Hview) as Hr. by rewrite <- He in Hr. }
  destruct event as [event|]; cbn [protocol].
  2: { split; [split; cbn [protocol serial]; [done|done|unfold serial_active; cbn [protocol]; by rewrite Hact]|].
       rewrite Hact. unfold activity_told. destruct (codec_active (protocol s)); naive_solver. }
  destruct (codec_active (protocol s)) eqn:Ew, (codec_active p) eqn:Ea; cbn [negb andb orb].
  - destruct (required_option_refused event); [by discriminate Hact|].
    pose proof (server_event_keeps event (mkServer p (serial s) (started s))) as (Hp & Hs & _).
    pose proof (server_event_mode event (mkServer p (serial s) (started s))) as [Hm1 Hm2].
    destruct (server_event event _) as [ev s']. cbn [fst snd protocol serial] in *. rewrite Hp. split.
    + split; rewrite ?Hp, ?Hs; try done. unfold serial_active. rewrite Hp, Ea. naive_solver.
    + rewrite Ea. unfold activity_told. naive_solver.
  - split; [split; cbn; try done; unfold serial_active; cbn; rewrite Ea; naive_solver|].
    cbn. rewrite Ea. unfold activity_told. naive_solver.
  - split; [split; cbn; try done; unfold serial_active; cbn; rewrite Ea; naive_solver|].
    cbn. rewrite Ea. unfold activity_told. naive_solver.
  - destruct (required_option_refused event).
    + split; [split; cbn; try done; unfold serial_active; cbn; rewrite Ea; naive_solver|].
      cbn. rewrite Ea. unfold activity_told. naive_solver.
    + pose proof (server_event_keeps event (mkServer p (serial s) (started s))) as (Hp & Hs & _).
      pose proof (server_event_mode event (mkServer p (serial s) (started s))) as [Hm1 Hm2].
      destruct (server_event event _) as [ev s']. cbn [fst snd protocol serial] in *. rewrite Hp. split.
      * split; rewrite ?Hp, ?Hs; try done. unfold serial_active. rewrite Hp, Ea. naive_solver.
      * rewrite Ea. unfold activity_told. naive_solver.
Qed.

(** A wish enables nothing by itself. *)
Lemma ask_true_enabled side N opt out s :
  is_yes (os_us (snd (ask_at true side N opt out s))) = is_yes (os_us s) /\
  is_yes (os_him (snd (ask_at true side N opt out s))) = is_yes (os_him s).
Proof.
  destruct side; cbn [ask_at].
  - destruct (os_us s) eqn:E; cbn [request_state]; unfold commanded; try destruct (push_cmd _ _ _ _) as [[|] ?]; cbn; rewrite ?E; done.
  - destruct (os_him s) eqn:E; cbn [request_state]; unfold commanded; try destruct (push_cmd _ _ _ _) as [[|] ?]; cbn; rewrite ?E; done.
Qed.

Lemma on_true_ok side N p opt out :
  table_ok OPTION_CAP server_keep p -> opt ∈ server_keep ->
  let '(_, p') := on_side OPTION_CAP side N true p opt out in
  table_ok OPTION_CAP server_keep p' /\ rx p' = rx p /\ codec_active p' = codec_active p.
Proof.
  intros Ht Ho. pose proof (on_side_view OPTION_CAP server_keep Hcap side N true p opt out Ht Ho) as H.
  destruct (on_side _ _ _ _ _ _ _) as [out' p']. destruct H as (_ & Ht' & _ & Hr & _ & Hv). split_and!; [done|done|].
  rewrite !codec_active_view, !Hv. destruct (ask_true_enabled side N opt out (view p opt)) as [Hu Hh].
  repeat case_decide; subst; rewrite ?Hu, ?Hh; done.
Qed.

Lemma start_ok N s out :
  server_ok s -> serial_active s = false -> server_ok (snd (start OPTION_CAP N s out)).
Proof.
  intros Hok Ha. unfold start. destruct (started s); [done|]. destruct (_ <? _)%nat; [done|]. destruct Hok as [Ht Hv Hst].
  unfold request_binary_mode.
  change (@request_us) with (fun (P : Type) C N => @on_side P C Us N true). change (@request_him) with (fun (P : Type) C N => @on_side P C Him N true).
  cbv beta.
  pose proof (on_true_ok Us N (protocol s) OPT_BINARY out Ht ltac:(set_solver)) as H1.
  destruct (on_side _ Us _ _ _ OPT_BINARY _) as [o1 p1]. destruct H1 as (Ht1 & Hr1 & Ha1).
  pose proof (on_true_ok Him N p1 OPT_BINARY o1 Ht1 ltac:(set_solver)) as H2.
  destruct (on_side _ Him _ _ _ OPT_BINARY _) as [o2 p2]. destruct H2 as (Ht2 & Hr2 & Ha2).
  pose proof (on_true_ok Us N p2 OPT_SUPPRESS_GO_AHEAD o2 Ht2 ltac:(set_solver)) as H3.
  destruct (on_side _ Us _ _ _ OPT_SUPPRESS_GO_AHEAD _) as [o3 p3]. destruct H3 as (Ht3 & Hr3 & Ha3).
  pose proof (on_true_ok Him N p3 OPT_SUPPRESS_GO_AHEAD o3 Ht3 ltac:(set_solver)) as H4.
  destruct (on_side _ Him _ _ _ OPT_SUPPRESS_GO_AHEAD _) as [o4 p4]. destruct H4 as (Ht4 & Hr4 & Ha4).
  pose proof (on_true_ok Him N p4 OPT_COM_PORT o4 Ht4 ltac:(set_solver)) as H5.
  destruct (on_side _ Him _ _ _ OPT_COM_PORT _) as [o5 p5]. destruct H5 as (Ht5 & Hr5 & Ha5).
  cbn [snd]. split; cbn [protocol serial]; [done|unfold verb_ok in *; by rewrite Hr5, Hr4, Hr3, Hr2, Hr1|].
  unfold serial_active in *. cbn [protocol]. rewrite Ha5, Ha4, Ha3, Ha2, Ha1, Ha. done.
Qed.

(** The sessions the operations lead to; [serial_state_mut] may change all of the serial
    state but its private status. *)
Inductive server_reached : ServerSession -> Prop :=
| ServerFresh : server_reached server_new
| ServerStarted s N out : server_reached s -> serial_active s = false -> server_reached (snd (start OPTION_CAP N s out))
| ServerFed s N byte : server_reached s -> server_reached (snd (server_feed SB_CAP OPTION_CAP N byte s []))
| ServerChanged s x : server_reached s -> status x = status (serial s) -> server_reached (mkServer (protocol s) x (started s)).

Lemma server_reached_ok s : server_reached s -> server_ok s.
Proof.
  induction 1 as [|s N out _ IH Ha|s N byte _ IH|s x _ IH Hx].
  - apply server_new_ok.
  - by apply start_ok.
  - pose proof (server_feed_ok N byte s IH) as H. destruct (server_feed _ _ _ _ _ _) as [[event reply] s']. apply H.
  - destruct IH as [Ht Hv Hst]. split; [done|done|]. cbn [serial]. by rewrite Hx.
Qed.

End ServerFacts.

(** The status a server session keeps is the truth about its negotiation: in every session
    the operations lead to, it is [Active] exactly while BINARY is enabled both ways and the
    client performs COM-PORT-OPTION, and a received byte reports the mode as active exactly
    when it makes it so, and as refused whenever it ends it. *)
Theorem server_status_tracks (SB_CAP OPTION_CAP N : nat) (s : ServerSession) (byte : Z) :
  (3 < OPTION_CAP)%nat -> server_reached SB_CAP OPTION_CAP s ->
  (status (serial s) = Active <-> serial_active s = true) /\
  let '((event, reply), s') := server_feed SB_CAP OPTION_CAP N byte s [] in
  activity_told (serial_active s) (serial_active s') event.
Proof.
  intros Hcap Hs. pose proof (server_reached_ok SB_CAP OPTION_CAP Hcap s Hs) as Hok. split; [apply Hok|].
  pose proof (server_feed_ok SB_CAP OPTION_CAP Hcap N byte s Hok) as H.
  destruct (server_feed _ _ _ _ _ _) as [[event reply] s']. apply H.
Qed.

(** A received byte at a time. *)
Fixpoint server_feed_all (SB_CAP OPTION_CAP N : nat) (bytes : list Z) (s : ServerSession) :
    list ServerEvent * list Z * ServerSession :=
  match bytes with
  | [] => ([], [], s)
  | byte :: bytes =>
      let '((event, reply), s) := server_feed SB_CAP OPTION_CAP N byte s [] in
      let '(events, replies, s) := server_feed_all SB_CAP OPTION_CAP N bytes s in
      (match event with Some e => e :: events | None => events end, reply ++ replies, s)
  end.

Lemma server_feed_all_reached SB_CAP OPTION_CAP N bytes s :
  server_reached SB_CAP OPTION_CAP s -> server_reached SB_CAP OPTION_CAP (snd (server_feed_all SB_CAP OPTION_CAP N bytes s)).
Proof.
  revert s. induction bytes as [|b bytes IH]; intros s Hs; [done|]. cbn [server_feed_all].
  apply ServerFed with (N := N) (byte := b) in Hs. destruct (server_feed _ _ _ _ _ _) as [[event reply] s1].
  specialize (IH s1 Hs). by destruct (server_feed_all _ _ _ bytes s1) as [[events replies] s2].
Qed.

(** The client accepts everything the server asks for. *)
Definition client_opening : list Z :=
  [IAC; DO; OPT_BINARY; IAC; WILL; OPT_BINARY; IAC; DO; OPT_SUPPRESS_GO_AHEAD; IAC; WILL; OPT_SUPPRESS_GO_AHEAD; IAC; WILL; OPT_COM_PORT].

Lemma server_status_tracks_witness :
  let s := snd (server_feed_all 8 12 16 client_opening (snd (start 12 15 server_new []))) in
  status (serial s) = Active /\ serial_active s = true.
Proof.
  intros s. assert (Hr : server_reached 8 12 s).
  { apply server_feed_all_reached, ServerStarted; [apply ServerFresh|reflexivity]. }
  assert (Ha : serial_active s = true) by (vm_compute; reflexivity). clearbody s.
  pose proof (proj1 (server_status_tracks 8 12 16 s 0 ltac:(lia) Hr)) as H. split; [by apply H|exact Ha].
Defined.

(** [start] of a session whose client has opened the negotiation itself: the mode is active,
    and the status says that it is being negotiated. *)
Example start_forgets_active :
  let s := snd (server_feed_all 8 12 16 client_opening server_new) in
  let s' := snd (start 12 15 s []) in
  status (serial s) = Active /\ serial_active s' = true /\ status (serial s') = Negotiating.
Proof. vm_compute. done. Qed.

(** ** Requests of the client *)

Section Requests.
Context (SB_CAP OPTION_CAP : nat).

Lemma server_quiet N bytes s r p :
  feed_all SB_CAP OPTION_CAP N bytes (protocol s) = ([], r, p) ->
  server_feed_all SB_CAP OPTION_CAP N bytes s = ([], r, mkServer p (serial s) (started s)).
Proof.
  revert s r. induction bytes as [|b bytes IH]; intros s r; cbn [feed_all server_feed_all].
  - intros [= <- <-]. by destruct s.
  - unfold server_feed. destruct (feed _ _ _ b _ _) as [[event reply] p1].
    destruct (feed_all _ _ _ bytes p1) as [[events replies] p2] eqn:E.
    destruct event; [done|]. intros [= -> <- <-]. specialize (IH (mkServer p1 (serial s) (started s)) replies E).
    rewrite IH. done.
Qed.

Lemma server_feed_all_app N a b s :
  server_feed_all SB_CAP OPTION_CAP N (a ++ b) s =
    let '(ea, ra, s) := server_feed_all SB_CAP OPTION_CAP N a s in
    let '(eb, rb, s) := server_feed_all SB_CAP OPTION_CAP N b s in (ea ++ eb, ra ++ rb, s).
Proof.
  revert s. induction a as [|x a IH]; intros s; cbn [app server_feed_all].
  - by destruct (server_feed_all _ _ _ b s) as [[eb rb] s'].
  - destruct (server_feed _ _ _ x s []) as [[ev r] s1]. rewrite IH. destruct (server_feed_all _ _ _ a s1) as [[ea ra] s2].
    destruct (server_feed_all _ _ _ b s2) as [[eb rb] s3]. rewrite app_assoc. by destruct ev.
Qed.
End Requests.

(** A request that a client encodes arrives: the bytes [encode] queues for a message of the
    client make an active server answer nothing, report exactly the typed request of the
    message (or its exact fault: an unknown value, or a notification sent the wrong way),
    apply it to the serial state, and stay active and ready for the next byte. *)
Theorem client_request_arrives (SB_CAP OPTION_CAP N M : nat) (m : Message) (out out' : list Z) (s : ServerSession) :
  message_wf m -> message_origin m = OriginClient -> (length (message_value m) < SB_CAP)%nat ->
  rx (protocol s) = RxData -> serial_active s = true -> encode M m out = (true, out') ->
  exists frame s', out' = out ++ frame /\ serial_active s' = true /\ rx (protocol s') = RxData /\
    match from_message m with
    | inl r => server_feed_all SB_CAP OPTION_CAP N frame s = ([ServerSerial r], [], s') /\
        serial s' = apply_request (serial s) r
    | inr e => server_feed_all SB_CAP OPTION_CAP N frame s = ([ServerInvalidSerialRequest e], [], s') /\ serial s' = serial s
    end.
Proof.
  intros Hm Ho Hl Hrx Ha He. rewrite encode_push, push_subnegotiation_frame in He. destruct (_ <? _)%nat; [done|].
  injection He as <-. set (payload := payload_of m) in *.
  pose proof (subneg_head_read SB_CAP OPTION_CAP N OPT_COM_PORT payload (protocol s) Hrx) as Hhead.
  rewrite take_ge in Hhead by (cbn; lia).
  apply server_quiet in Hhead. set (p1 := with_rx _ RxSubnegIac) in Hhead.
  assert (Hact : forall r, codec_active (with_rx p1 r) = true) by (intros r; rewrite (codec_active_options (protocol s)); done).
  assert (Hdec : decode_from OriginClient payload = inl m).
  { unfold decode_from, payload. rewrite decode_payload by done. destruct m; try done. cbn in Ho. by subst. }
  assert (Hend : exists s', serial_active s' = true /\ rx (protocol s') = RxData /\
    server_feed SB_CAP OPTION_CAP N SE (mkServer p1 (serial s) (started s)) [] =
      ((Some (match from_message m with inl r => ServerSerial r | inr e => ServerInvalidSerialRequest e end), []), s') /\
    serial s' = match from_message m with inl r => apply_request (serial s) r | inr _ => serial s end).
  { unfold server_feed. cbn [protocol]. rewrite subneg_end_read by done. cbn [serial started].
    unfold serial_active. cbn [protocol]. rewrite (Hact RxData). replace (codec_active p1) with true by (symmetry; apply (Hact RxSubnegIac)).
    cbn [negb andb orb required_option_refused server_event].
    replace (subneg_option p1) with OPT_COM_PORT by done. rewrite Z.eqb_refl. cbn [protocol].
    change (snd (subnegotiation (with_rx p1 RxData))) with payload. rewrite Hdec.
    destruct (from_message m); eexists; (split_and!; [| |reflexivity|reflexivity]); done || apply (Hact RxData). }
  destruct Hend as (s' & Ha' & Hrx' & Hf & Hs'). exists (subneg_head OPT_COM_PORT payload ++ [SE]), s'.
  split; [done|]. split; [done|]. split; [done|].
  destruct (from_message m); (split; [|done]);
    rewrite server_feed_all_app, Hhead; cbn [server_feed_all]; by rewrite Hf.
Qed.

Lemma client_request_arrives_witness :
  let s := snd (server_feed_all 8 12 16 client_opening (snd (start 12 15 server_new []))) in
  exists s', server_feed_all 8 12 16 [255; 250; 44; 11; 255; 255; 255; 240] s = ([ServerSerial (ReqModemStateMask 255)], [], s') /\
    modem_state_mask (serial s') = 255.
Proof.
  intros s. pose proof (client_request_arrives 8 12 16 16 (MsgSetModemStateMask OriginClient 255) []
    [255; 250; 44; 11; 255; 255; 255; 240] s I eq_refl ltac:(cbn; lia)) as H.
  destruct H as (frame & s' & Hfr & _ & _ & Hf & Hs); [vm_compute; reflexivity..|].
  cbn in Hfr. subst frame. exists s'. split; [exact Hf|]. by rewrite Hs.
Defined.
