(* ===== verification/TelnetBinary.v ===== *)
(** * The binary byte stream over telnet ([microtun-telnet/src/binary.rs])

    The transport is a script: what its reads answer, one by one, and which of its writes
    and flushes fail; it records the bytes sent. A read past the end of the script never
    completes. *)

From S2P Require Import Prelude Telnet.
Local Open Scope Z_scope.

Section Binary.
Context {E : Type}.

Inductive ReadResult := ReadByte (byte : Z) | ReadEof | ReadErr (e : E).

Record Io := mkIo {
  reads : list ReadResult;
  faults : list (option E);
  sent : list Z;
}.

Inductive BinaryModeError := Io_ (e : E) | Disconnected | Refused | UnexpectedData.

(** A future that completes, or waits for ever. *)
Inductive Outcome (A : Type) := Done (a : A) | Err (e : BinaryModeError) | Waits.
Arguments Done {A} a.
Arguments Err {A} e.
Arguments Waits {A}.

(** [io.write_all]: nothing of a write that fails is sent. *)
Definition io_write (bytes : list Z) (io : Io) : option E * Io :=
  match faults io with
  | [] => (None, mkIo (reads io) [] (sent io ++ bytes))
  | None :: fs => (None, mkIo (reads io) fs (sent io ++ bytes))
  | Some e :: fs => (Some e, mkIo (reads io) fs (sent io))
  end.
Definition io_flush (io : Io) : option E * Io := io_write [] io.

(** The trait [BinaryTelnet] *)
Class BinaryTelnet (C : Type) := {
  bt_enabled : C -> bool;
  bt_refused : C -> bool;
  bt_request : C -> list Z * C;
  bt_disable : C -> list Z * C;
  bt_feed : Z -> C -> option Z * list Z * C;
}.

Definition event_data (event : option TelnetEvent) : option Z := match event with Some (Data byte) => Some byte | _ => None end.

(** Its implementation by the codec, for any policy. *)
#[export] Instance telnet_binary {P} {PO : Policy P} (SB_CAP OPTION_CAP : nat) : BinaryTelnet (Telnet P) := {|
  bt_enabled := binary_mode_enabled;
  bt_refused := binary_mode_refused;
  bt_request t := request_binary_mode OPTION_CAP 6 t [];
  bt_disable t := disable_binary_mode OPTION_CAP 6 t [];
  bt_feed byte t := let '((event, reply), t) := feed SB_CAP OPTION_CAP 16 byte t [] in (event_data event, reply, t);
|}.

(** The policy and the codec of [BinaryMode::new] *)
Inductive BinaryPolicy := binary_policy.
#[export] Instance binary_policy_policy : Policy BinaryPolicy := {|
  support_us _ opt := opt =? OPT_BINARY;
  support_him _ opt := opt =? OPT_BINARY;
|}.
Definition standalone_binary : BinaryTelnet (Telnet BinaryPolicy) := telnet_binary 1 4.
Definition standalone_new : Telnet BinaryPolicy := telnet_new binary_policy.

(** [chunk] is the slice from [start] to the byte at hand. *)
Fixpoint write_chunks (chunk bytes : list Z) (io : Io) : option E * Io :=
  match bytes with
  | [] => match chunk with [] => (None, io) | _ => io_write chunk io end
  | byte :: bytes =>
      if negb (byte =? IAC) then write_chunks (chunk ++ [byte]) bytes io else
      match (match chunk with [] => (None, io) | _ => io_write chunk io end) with
      | (Some e, io) => (Some e, io)
      | (None, io) =>
          match io_write [IAC; IAC] io with
          | (Some e, io) => (Some e, io)
          | (None, io) => write_chunks [] bytes io
          end
      end
  end.

Definition write_data_unflushed (bytes : list Z) (io : Io) : option E * Io := write_chunks [] bytes io.
Definition write_data (bytes : list Z) (io : Io) : option E * Io :=
  match write_data_unflushed bytes io with
  | (Some e, io) => (Some e, io)
  | (None, io) => io_flush io
  end.

Definition PENDING_CAP : nat := 64.

Section Mode.
Context {C : Type} {BT : BinaryTelnet C}.

Record BinaryMode := mkBinary {
  io : Io;
  telnet : C;
  pending : list Z;
}.

Definition with_telnet (io : Io) (t : C) : BinaryMode := mkBinary io t [].

(** An operation on the transport, its failure as [BinaryModeError::Io]. *)
Definition on_io (f : Io -> option E * Io) (m : BinaryMode) : Outcome unit * BinaryMode :=
  let '(e, i) := f (io m) in
  (match e with Some e => Err (Io_ e) | None => Done tt end, mkBinary i (telnet m) (pending m)).

Definition raw_write (bytes : list Z) (m : BinaryMode) : Outcome unit * BinaryMode :=
  match on_io (io_write bytes) m with
  | (Done tt, m) => on_io io_flush m
  | r => r
  end.

Definition raw_write_unless_empty (bytes : list Z) (m : BinaryMode) : Outcome unit * BinaryMode :=
  match bytes with [] => (Done tt, m) | _ => raw_write bytes m end.

Definition wire_byte (m : BinaryMode) : Outcome Z * BinaryMode :=
  match reads (io m) with
  | [] => (Waits, m)
  | r :: rs =>
      let m := mkBinary (mkIo rs (faults (io m)) (sent (io m))) (telnet m) (pending m) in
      match r with
      | ReadByte byte => (Done byte, m)
      | ReadEof => (Err Disconnected, m)
      | ReadErr e => (Err (Io_ e), m)
      end
  end.

Definition feed_wire_byte (byte : Z) (m : BinaryMode) : Outcome (option Z) * BinaryMode :=
  let '(data, reply, t) := bt_feed byte (telnet m) in
  let m := mkBinary (io m) t (pending m) in
  match raw_write_unless_empty reply m with
  | (Done _, m) => (Done data, m)
  | (Err e, m) => (Err e, m)
  | (Waits, m) => (Waits, m)
  end.

Definition step (m : BinaryMode) : Outcome (option Z) * BinaryMode :=
  match wire_byte m with
  | (Done byte, m) => feed_wire_byte byte m
  | (Err e, m) => (Err e, m)
  | (Waits, m) => (Waits, m)
  end.

(** The loops read a byte a turn: the length of the script is fuel enough. *)
Fixpoint negotiate_loop (fuel : nat) (m : BinaryMode) : Outcome unit * BinaryMode :=
  if bt_enabled (telnet m) then (Done tt, m) else
  if bt_refused (telnet m) then (Err Refused, m) else
  match fuel with
  | O => (Waits, m)
  | S fuel =>
      match step m with
      | (Done (Some data), m) =>
          if (length (pending m) <? PENDING_CAP)%nat
          then negotiate_loop fuel (mkBinary (io m) (telnet m) (pending m ++ [data]))
          else (Err UnexpectedData, m)
      | (Done None, m) => negotiate_loop fuel m
      | (Err e, m) => (Err e, m)
      | (Waits, m) => (Waits, m)
      end
  end.

Definition negotiate (m : BinaryMode) : Outcome unit * BinaryMode :=
  let '(request, t) := bt_request (telnet m) in
  match raw_write_unless_empty request (mkBinary (io m) t (pending m)) with
  | (Done _, m) => negotiate_loop (length (reads (io m))) m
  | r => r
  end.

Fixpoint read_loop (fuel : nat) (m : BinaryMode) : Outcome Z * BinaryMode :=
  match fuel with
  | O => (Waits, m)
  | S fuel =>
      match step m with
      | (Done (Some byte), m) => (Done byte, m)
      | (Done None, m) => read_loop fuel m
      | (Err e, m) => (Err e, m)
      | (Waits, m) => (Waits, m)
      end
  end.

Definition read_byte (m : BinaryMode) : Outcome Z * BinaryMode :=
  match pending m with
  | byte :: rest => (Done byte, mkBinary (io m) (telnet m) rest)
  | [] => read_loop (length (reads (io m)) + 1) m
  end.

Definition write_all (bytes : list Z) (m : BinaryMode) : Outcome unit * BinaryMode := on_io (write_data bytes) m.

Definition request_nvt_mode (m : BinaryMode) : Outcome unit * BinaryMode :=
  let '(request, t) := bt_disable (telnet m) in
  raw_write_unless_empty request (mkBinary (io m) t (pending m)).
Definition finish := request_nvt_mode.
Definition abort := request_nvt_mode.

(** [Read::read] of a buffer of [n] bytes, and [Write::write]. *)
Definition bm_read (n : nat) (m : BinaryMode) : Outcome (list Z) * BinaryMode :=
  match n with
  | O => (Done [], m)
  | S _ =>
      match read_byte m with
      | (Done byte, m) => (Done [byte], m)
      | (Err e, m) => (Err e, m)
      | (Waits, m) => (Waits, m)
      end
  end.
Definition bm_write (bytes : list Z) (m : BinaryMode) : Outcome nat * BinaryMode :=
  match write_all bytes m with
  | (Done _, m) => (Done (length bytes), m)
  | (Err e, m) => (Err e, m)
  | (Waits, m) => (Waits, m)
  end.

(** Bytes read until the script ends. *)
Fixpoint read_all (fuel : nat) (m : BinaryMode) : list Z * BinaryMode :=
  match fuel with
  | O => ([], m)
  | S fuel =>
      match read_byte m with
      | (Done byte, m) => let '(bytes, m) := read_all fuel m in (byte :: bytes, m)
      | (_, m) => ([], m)
      end
  end.

End Mode.
End Binary.
Arguments ReadResult : clear implicits.
Arguments Io : clear implicits.
Arguments BinaryModeError : clear implicits.
Arguments Outcome : clear implicits.
Arguments BinaryMode : clear implicits.
Arguments Done {E A} a.
Arguments Err {E A} e.
Arguments Waits {E A}.

(** ** Lemmas *)

Definition data_of (events : list TelnetEvent) : list Z := omap (fun e => event_data (Some e)) events.

Lemma data_of_app a b : data_of (a ++ b) = data_of a ++ data_of b.
Proof. apply omap_app. Qed.

Lemma data_of_data bytes : data_of (Data <$> bytes) = bytes.
Proof. induction bytes as [|b bytes IH]; [done|]. change (b :: data_of (Data <$> bytes) = b :: bytes). by rewrite IH. Qed.

Section Facts.
Context {E : Type} {P : Type} {PO : Policy P} (SB_CAP OPTION_CAP : nat).
Let BT : BinaryTelnet (Telnet P) := telnet_binary SB_CAP OPTION_CAP.
#[local] Existing Instance BT.
Notation feed_all := (feed_all SB_CAP OPTION_CAP 16).
Implicit Types (m : BinaryMode E (Telnet P)) (t : Telnet P) (bs : list Z).

(** A transport whose reads answer [bs], and whose writes succeed. *)
Record delivers m bs : Prop := { dl_reads : reads (io m) = ReadByte <$> bs; dl_faults : faults (io m) = [] }.

Lemma raw_write_sent bytes m :
  faults (io m) = [] ->
  raw_write_unless_empty bytes m = (Done tt, mkBinary (mkIo (reads (io m)) [] (sent (io m) ++ bytes)) (telnet m) (pending m)).
Proof.
  intros Hf. destruct bytes as [|b bytes]; cbn [raw_write_unless_empty].
  - rewrite app_nil_r. destruct m as [[] ? ?]. cbn in *. by subst.
  - unfold raw_write, on_io, io_flush, io_write. rewrite Hf. cbn. by rewrite app_nil_r.
Qed.

(** What a state is after some of its bytes. *)
Definition after m bs (r : list TelnetEvent * list Z * Telnet P) (m' : BinaryMode E (Telnet P)) : Prop :=
  delivers m' bs /\ telnet m' = snd r /\ sent (io m') = sent (io m) ++ snd (fst r).

Lemma step_byte m b bs :
  delivers m (b :: bs) ->
  exists event reply t m', feed SB_CAP OPTION_CAP 16 b (telnet m) [] = ((event, reply), t) /\
    step m = (Done (event_data event), m') /\ delivers m' bs /\ telnet m' = t /\
    sent (io m') = sent (io m) ++ reply /\ pending m' = pending m.
Proof.
  intros [Hr Hf]. unfold step, wire_byte. rewrite Hr. cbn [fmap list_fmap]. unfold feed_wire_byte. cbn [bt_feed BT telnet_binary telnet].
  destruct (feed _ _ _ _ _ _) as [[event reply] t]. rewrite raw_write_sent by done. cbn.
  eexists event, reply, t, _. split; [done|]. split; [reflexivity|]. done.
Qed.

Lemma step_waits m : delivers m [] -> step m = (Waits, m).
Proof. intros [Hr Hf]. unfold step, wire_byte. by rewrite Hr. Qed.

Lemma feed_all_cons b bs t event reply t' events replies t'' :
  feed SB_CAP OPTION_CAP 16 b t [] = ((event, reply), t') -> feed_all bs t' = (events, replies, t'') ->
  exists events', feed_all (b :: bs) t = (events', reply ++ replies, t'') /\
    data_of events' = option_list (event_data event) ++ data_of events.
Proof.
  intros H1 H2. cbn [Telnet.feed_all]. rewrite H1, H2. eexists. split; [reflexivity|]. destruct event as [e|]; [|done].
  unfold data_of. cbn [omap list_omap]. by destruct e.
Qed.

Definition negotiated m used (r : Outcome E unit * BinaryMode E (Telnet P)) rest : Prop :=
  let '(events, replies, t) := feed_all used (telnet m) in
  delivers (snd r) rest /\ telnet (snd r) = t /\ sent (io (snd r)) = sent (io m) ++ replies /\
  match fst r with
  | Done _ => binary_mode_enabled t = true /\ pending (snd r) = pending m ++ data_of events
  | Err Refused => binary_mode_refused t = true /\ binary_mode_enabled t = false
  | Err UnexpectedData => (PENDING_CAP < length (pending m ++ data_of events))%nat
  | Waits => rest = [] /\ binary_mode_refused t = false /\ binary_mode_enabled t = false
  | Err _ => False
  end.

Lemma negotiate_loop_spec fuel m bs :
  delivers m bs -> (length bs <= fuel)%nat ->
  exists used rest, bs = used ++ rest /\ negotiated m used (negotiate_loop fuel m) rest.
Proof.
  revert m bs. induction fuel as [|fuel IH]; intros m bs Hd Hl; cbn [negotiate_loop]; unfold negotiated;
    cbn [bt_enabled bt_refused BT telnet_binary].
  all: destruct (binary_mode_enabled (telnet m)) eqn:Ee;
    [exists [], bs; cbn; rewrite !app_nil_r; by split_and!|].
  all: destruct (binary_mode_refused (telnet m)) eqn:Er;
    [exists [], bs; cbn; rewrite !app_nil_r; by split_and!|].
  - destruct bs; [|cbn in Hl; lia]. exists [], []. cbn. rewrite !app_nil_r. by split_and!.
  - destruct bs as [|b bs].
    + rewrite step_waits by done. exists [], []. cbn. rewrite !app_nil_r. by split_and!.
    + destruct (step_byte m b bs Hd) as (event & reply & t & m' & Hf & -> & Hd' & Ht & Hs & Hp). cbn [length] in Hl.
      destruct (event_data event) as [data|] eqn:Ed.
      * destruct (Nat.ltb_spec (length (pending m')) PENDING_CAP) as [Hroom|Hfull].
        -- destruct (IH (mkBinary (io m') (telnet m') (pending m' ++ [data])) bs) as (used & rest & -> & Hn); [by destruct Hd'|lia|].
           exists (b :: used), rest. split; [done|]. unfold negotiated in Hn. cbn [telnet io pending] in Hn. rewrite Ht in Hn |- *.
           destruct (feed_all used t) as [[events replies] t2] eqn:E2.
           destruct (feed_all_cons b used (telnet m) event reply t events replies t2 Hf E2) as (events' & -> & Hdata).
           rewrite Hdata, Ed. destruct Hn as (H1 & H2 & H3 & H4). split; [done|]. split; [done|].
           split; [by rewrite H3, Hs, app_assoc|]. cbn [option_list]. by rewrite <- Hp, (app_assoc _ [data]).
        -- exists [b], bs. split; [done|]. destruct (feed_all_cons b [] (telnet m) event reply t [] [] t Hf eq_refl) as (events' & -> & Hdata).
           rewrite app_nil_r. cbn [fst snd]. split_and!; [done..|]. rewrite Hdata, Ed, <- Hp, length_app. cbn. lia.
      * destruct (IH m' bs Hd') as (used & rest & -> & Hn); [lia|]. exists (b :: used), rest. split; [done|].
        unfold negotiated in Hn. rewrite Ht in Hn. destruct (feed_all used t) as [[events replies] t2] eqn:E2.
        destruct (feed_all_cons b used (telnet m) event reply t events replies t2 Hf E2) as (events' & -> & Hdata).
        rewrite Hdata, Ed. destruct Hn as (H1 & H2 & H3 & H4). split; [done|]. split; [done|].
        split; [by rewrite H3, Hs, app_assoc|]. cbn [option_list app]. by rewrite <- Hp.
Qed.

Lemma read_loop_spec fuel m bs :
  delivers m bs -> (length bs < fuel)%nat ->
  exists used rest m', bs = used ++ rest /\ let '(events, replies, t) := feed_all used (telnet m) in
    delivers m' rest /\ telnet m' = t /\ sent (io m') = sent (io m) ++ replies /\ pending m' = pending m /\
    ((exists byte, read_loop fuel m = (Done byte, m') /\ data_of events = [byte] /\ used <> []) \/
     (read_loop fuel m = (Waits, m') /\ data_of events = [] /\ rest = [])).
Proof.
  revert m bs. induction fuel as [|fuel IH]; intros m bs Hd Hl; [lia|]. cbn [read_loop]. destruct bs as [|b bs].
  - rewrite step_waits by done. exists [], [], m. cbn. rewrite app_nil_r. split_and!; auto.
  - destruct (step_byte m b bs Hd) as (event & reply & t & m' & Hf & -> & Hd' & Ht & Hs & Hp). cbn [length] in Hl.
    destruct (event_data event) as [data|] eqn:Ed.
    + exists [b], bs, m'. split; [done|]. destruct (feed_all_cons b [] (telnet m) event reply t [] [] t Hf eq_refl) as (events' & -> & Hdata).
      rewrite app_nil_r. split_and!; [done..|]. left. exists data. rewrite Hdata, Ed. done.
    + destruct (IH m' bs Hd') as (used & rest & m2 & -> & Hn); [lia|]. exists (b :: used), rest, m2. split; [done|].
      rewrite Ht in Hn. destruct (feed_all used t) as [[events replies] t2] eqn:E2.
      destruct (feed_all_cons b used (telnet m) event reply t events replies t2 Hf E2) as (events' & -> & Hdata).
      rewrite Hdata, Ed. destruct Hn as (H1 & H2 & H3 & H4 & H5). split_and!; [done|done|by rewrite H3, Hs, app_assoc|congruence|].
      cbn [option_list app]. destruct H5 as [(byte & -> & Hb & _)|(-> & Hb & Hr)]; [left; eauto|right; auto].
Qed.

(** Reading to the end gives what is pending and then the data of the stream. *)
Lemma read_all_spec fuel m bs :
  delivers m bs -> (length (pending m) + length bs < fuel)%nat ->
  let '(events, replies, t) := feed_all bs (telnet m) in
  fst (read_all fuel m) = pending m ++ data_of events /\ telnet (snd (read_all fuel m)) = t /\
  sent (io (snd (read_all fuel m))) = sent (io m) ++ replies.
Proof.
  revert m bs. induction fuel as [|fuel IH]; intros m bs Hd Hl; [lia|]. cbn [read_all]. unfold read_byte.
  destruct (pending m) as [|p ps] eqn:Ep.
  - cbn [length] in Hl. destruct (read_loop_spec (length (reads (io m)) + 1) m bs Hd) as (used & rest & m' & -> & Hn).
    { rewrite (dl_reads _ _ Hd), length_fmap. lia. }
    rewrite feed_all_app. destruct (feed_all used (telnet m)) as [[events replies] t] eqn:E1.
    destruct Hn as (H1 & H2 & H3 & H4 & [(byte & -> & Hb & Hne)|(-> & Hb & ->)]).
    + specialize (IH m' rest H1). rewrite H2, H4, Ep in IH. rewrite length_app in Hl.
      specialize (IH ltac:(destruct used; [done|cbn in *; lia])).
      destruct (feed_all rest t) as [[events2 replies2] t2]. destruct (read_all fuel m') as [bytes m2]. cbn [fst snd] in *.
      destruct IH as (-> & Ht2 & ->). rewrite data_of_app, Hb. split; [done|]. split; [done|]. by rewrite H3, app_assoc.
    + cbn [Telnet.feed_all fst snd app]. rewrite data_of_app, Hb, !app_nil_r. done.
  - assert (Hd' : delivers (mkBinary (io m) (telnet m) ps) bs) by (by destruct Hd).
    specialize (IH _ bs Hd'). cbn [pending telnet io length] in *. specialize (IH ltac:(lia)).
    destruct (feed_all bs (telnet m)) as [[events replies] t]. destruct (read_all fuel _) as [bytes m2]. cbn [fst snd] in *.
    destruct IH as (-> & Ht2 & ->). done.
Qed.

Lemma write_chunks_sent chunk bytes (i : Io E) :
  faults i = [] ->
  write_chunks chunk bytes i = (None, mkIo (reads i) [] (sent i ++ chunk ++ escape bytes)).
Proof.
  revert chunk i. induction bytes as [|b bytes IH]; intros chunk i Hf; cbn [write_chunks escape].
  - destruct chunk; [rewrite !app_nil_r; destruct i; cbn in *; by subst|]. unfold io_write. by rewrite Hf, app_nil_r.
  - destruct (Z.eqb_spec b IAC) as [->|Hne]; cbn [negb].
    + assert (E1 : (match chunk with [] => (None, i) | _ => io_write chunk i end) = (None, mkIo (reads i) [] (sent i ++ chunk))).
      { destruct chunk; [rewrite app_nil_r; destruct i; cbn in *; by subst|]. unfold io_write. by rewrite Hf. }
      rewrite E1. unfold io_write. cbn [faults reads sent]. rewrite IH by done. cbn [reads sent app]. by rewrite <- !app_assoc.
    + rewrite IH by done. by rewrite <- app_assoc.
Qed.
End Facts.

Section Theorems.
Context {E : Type} {P : Type} {PO : Policy P} (SB_CAP OPTION_CAP : nat).
Let BT : BinaryTelnet (Telnet P) := telnet_binary SB_CAP OPTION_CAP.
#[local] Existing Instance BT.

(** Entering binary mode loses no application byte. Over a transport that delivers [bs] and
    takes every write: the negotiation ends, with BINARY enabled both ways if it answers
    success; then the reads give, in order, exactly the data bytes of all of [bs], those
    that arrived while negotiating included, and the bytes sent are the request and the
    codec's replies; the one way to lose data is the reported overflow of the hand-over
    queue by more than 64 early bytes. *)
Theorem binary_negotiation_lossless (i : Io E) (t : Telnet P) (bs : list Z) :
  reads i = ReadByte <$> bs -> faults i = [] ->
  let '(request, t1) := request_binary_mode OPTION_CAP 6 t [] in
  let '(events, replies, t2) := feed_all SB_CAP OPTION_CAP 16 bs t1 in
  let '(result, m) := negotiate (with_telnet i t) in
  match result with
  | Done _ => binary_mode_enabled (telnet m) = true /\
      let '(bytes, m') := read_all (65 + length bs + length (data_of events)) m in
      bytes = data_of events /\ sent (io m') = sent i ++ request ++ replies /\ telnet m' = t2
  | Err UnexpectedData => (PENDING_CAP < length (data_of events))%nat
  | Err Refused => binary_mode_refused (telnet m) = true
  | Err _ => False
  | Waits => binary_mode_enabled t2 = false /\ sent (io m) = sent i ++ request ++ replies
  end.
Proof.
  intros Hr Hf. subst BT. unfold negotiate. cbn [bt_request telnet_binary telnet with_telnet].
  destruct (request_binary_mode OPTION_CAP 6 t []) as [request t1].
  rewrite raw_write_sent by done. cbn [io pending reads sent faults telnet with_telnet].
  set (m1 := mkBinary _ _ _). assert (Hd : delivers m1 bs) by (split; [exact Hr|done]).
  rewrite Hr, length_fmap. destruct (negotiate_loop_spec SB_CAP OPTION_CAP (length bs) m1 bs Hd ltac:(done)) as (used & rest & -> & Hn).
  unfold negotiated in Hn. change (telnet m1) with t1 in Hn. rewrite feed_all_app.
  destruct (feed_all SB_CAP OPTION_CAP 16 used t1) as [[ev1 rep1] u1].
  pose proof (read_all_spec SB_CAP OPTION_CAP (65 + length (used ++ rest) + length (data_of (ev1 ++ (feed_all SB_CAP OPTION_CAP 16 rest u1).1.1)))
    (snd (negotiate_loop (BT := telnet_binary SB_CAP OPTION_CAP) (length (used ++ rest)) m1)) rest) as Hread.
  destruct (negotiate_loop (BT := telnet_binary SB_CAP OPTION_CAP) _ m1) as [result m]. cbn [fst snd] in *. destruct Hn as (H1 & H2 & H3 & H4). rewrite H2 in Hread.
  destruct (feed_all SB_CAP OPTION_CAP 16 rest u1) as [[ev2 rep2] u2] eqn:E2. cbn [fst snd] in *.
  destruct result as [[]|[| | |]|]; try done.
  - destruct H4 as [He Hp]. rewrite H2. split; [done|]. cbn [pending m1 with_telnet app] in Hp. rewrite Hp in Hread.
    specialize (Hread H1 ltac:(rewrite length_app, data_of_app, length_app; lia)).
    destruct (read_all (BT := telnet_binary SB_CAP OPTION_CAP) _ m) as [bytes m']. cbn [fst snd] in Hread. destruct Hread as (-> & -> & ->).
    rewrite data_of_app, H3. cbn. by rewrite <- !app_assoc.
  - destruct H4 as [H4 _]. by rewrite H2.
  - cbn [pending m1 app] in H4. rewrite data_of_app, length_app. lia.
  - destruct H4 as (-> & _ & He). cbn [feed_all] in E2.
    injection E2 as <- <- <-. split; [done|]. rewrite H3. cbn. by rewrite <- !app_assoc, app_nil_r.
Qed.

(** The stream is transparent: what one end writes, every [IAC] in it doubled on the wire, is
    what the other end reads, byte by byte, and answers with nothing. *)
Theorem binary_transfer (i j : Io E) (t u : Telnet P) (bytes : list Z) :
  faults i = [] -> faults j = [] -> rx u = RxData -> reads j = ReadByte <$> escape bytes ->
  let '(result, m) := write_all bytes (with_telnet i t) in
  result = Done tt /\ sent (io m) = sent i ++ escape bytes /\
  let '(got, m') := read_all (1 + length (escape bytes)) (with_telnet j u) in
  got = bytes /\ telnet m' = u /\ sent (io m') = sent j.
Proof.
  intros Hi Hj Hu Hr. subst BT. pose proof (read_all_spec SB_CAP OPTION_CAP (1 + length (escape bytes)) (with_telnet j u) (escape bytes)) as H.
  specialize (H ltac:(by split) ltac:(cbn [pending with_telnet length]; lia)). cbn [telnet with_telnet] in H.
  rewrite feed_all_data in H by done. destruct (read_all (BT := telnet_binary SB_CAP OPTION_CAP) _ _) as [got m'].
  cbn [fst snd pending io] in H. destruct H as (-> & -> & ->). rewrite data_of_data, app_nil_r.
  unfold write_all, on_io, write_data, write_data_unflushed. cbn [io with_telnet].
  rewrite write_chunks_sent by done. unfold io_flush, io_write. cbn. by rewrite app_nil_r.
Qed.
End Theorems.

(** ** Witnesses *)

(** A peer that sends [65] early, accepts, and then sends a doubled [IAC]. *)
Definition demo_io : Io unit :=
  mkIo (ReadByte <$> [65; IAC; DO; OPT_BINARY; IAC; WILL; OPT_BINARY; IAC; IAC]) [] [].

Lemma binary_negotiation_lossless_witness :
  let '(result, m) := negotiate (BT := standalone_binary) (with_telnet demo_io standalone_new) in
  result = Done tt /\ fst (read_all (BT := standalone_binary) 76 m) = [65; 255].
Proof.
  pose proof (binary_negotiation_lossless 1 4 demo_io standalone_new
    [65; IAC; DO; OPT_BINARY; IAC; WILL; OPT_BINARY; IAC; IAC] eq_refl eq_refl) as H.
  assert (Er : fst (negotiate (BT := standalone_binary) (with_telnet demo_io standalone_new)) = Done tt) by (vm_compute; reflexivity).
  assert (Ev : data_of (fst (fst (feed_all 1 4 16 [65; IAC; DO; OPT_BINARY; IAC; WILL; OPT_BINARY; IAC; IAC]
     (snd (request_binary_mode 4 6 standalone_new []))))) = [65; 255]) by (vm_compute; reflexivity).
  unfold standalone_binary in *. destruct (request_binary_mode 4 6 standalone_new []) as [request t1]. cbn [snd] in *.
  destruct (feed_all _ _ _ _ t1) as [[events replies] t2]. cbn [fst] in *.
  destruct (negotiate _) as [result m]. cbn [fst] in Er. subst result. split; [done|]. destruct H as [_ H]. rewrite Ev in H.
  cbn [length Nat.add] in H. destruct (read_all 76 m) as [bytes m']. apply H.
Defined.

Lemma binary_transfer_witness :
  let '(got, m') := read_all (BT := standalone_binary) 4 (with_telnet (mkIo (E := unit) (ReadByte <$> [1; 255; 255]) [] []) standalone_new) in
  got = [1; 255].
Proof.
  pose proof (binary_transfer 1 4 (mkIo (E := unit) [] [] []) (mkIo (ReadByte <$> [1; 255; 255]) [] [])
    standalone_new standalone_new [1; 255] eq_refl eq_refl eq_refl eq_refl) as H.
  unfold standalone_binary. destruct (write_all _ _) as [r m]. destruct H as (_ & _ & H).
  change (1 + length (escape [1%Z; 255%Z]))%nat with 4%nat in H. destruct (read_all 4 _) as [got m']. apply H.
Defined.
