(* ===== verification/Proc.v ===== *)
(** * Programs that wait for their environment

    A free monad: a program asks its environment a query and goes on with the answer. It
    models an asynchronous function as the sequence of its awaits; the environment is a
    handler, which may leave a query unanswered. *)

From S2P Require Import Prelude.

Section Proc.
Context {Q : Type} {R : Q -> Type} {X : Type}.

(** A program that fails has [X] for its error; [Stuck] is a loop out of fuel. *)
Inductive Proc (A : Type) :=
| Ret (a : A)
| Fail_ (x : X)
| Stuck
| Ask (q : Q) (k : R q -> Proc A).
Arguments Ret {A} a.
Arguments Fail_ {A} x.
Arguments Stuck {A}.
Arguments Ask {A} q k.

Fixpoint proc_bind {A B} (k : A -> Proc B) (p : Proc A) : Proc B :=
  match p with
  | Ret a => k a
  | Fail_ x => Fail_ x
  | Stuck => Stuck
  | Ask q next => Ask q (fun r => proc_bind k (next r))
  end.

#[export] Instance proc_mbind : MBind Proc := @proc_bind.
#[export] Instance proc_mret : MRet Proc := @Ret.

Definition ask (q : Q) : Proc (R q) := Ask q Ret.

(** An environment has a state and answers queries, or lets the program wait. *)
Section Exec.
Context {S : Type} (handle : forall q, S -> option (R q * S)).

(** Runs to the end, or to the first query without an answer; gives what is left to do. *)
Fixpoint exec {A} (p : Proc A) (s : S) : Proc A * S :=
  match p with
  | Ask q k => match handle q s with Some (r, s) => exec (k r) s | None => (Ask q k, s) end
  | p => (p, s)
  end.

Lemma exec_bind {A B} (p : Proc A) (k : A -> Proc B) s :
  exec (p ≫= k) s =
    match exec p s with
    | (Ret a, s) => exec (k a) s
    | (p, s) => (p ≫= k, s)
    end.
Proof.
  revert s. induction p as [a|x| |q next IH]; intros s; cbn.
  - by destruct (exec (k a) s).
  - done.
  - done.
  - destruct (handle q s) as [[r s']|]; [apply IH|done].
Qed.

Lemma exec_bind_ret {A B} (p : Proc A) (k : A -> Proc B) s a s' :
  exec p s = (Ret a, s') -> exec (p ≫= k) s = exec (k a) s'.
Proof. intros H. by rewrite exec_bind, H. Qed.
Lemma exec_ask q s : exec (ask q) s = match handle q s with Some (r, s) => (Ret r, s) | None => (ask q, s) end.
Proof. cbn. by destruct (handle q s) as [[r s']|]. Qed.
End Exec.

(** ** What holds in every environment *)

Section Always.
Context {G : Type} (observe : forall q, R q -> G -> G).

(** [G] collects what is asked and answered; [post] speaks of it when the program returns. *)
Fixpoint always {A} (post : A -> G -> Prop) (p : Proc A) (g : G) : Prop :=
  match p with
  | Ret a => post a g
  | Fail_ _ | Stuck => True
  | Ask q k => forall r, always post (k r) (observe q r g)
  end.

Lemma always_bind {A B} (post : B -> G -> Prop) (p : Proc A) (k : A -> Proc B) g :
  always (fun a => always post (k a)) p g -> always post (p ≫= k) g.
Proof. revert g. induction p as [a|x| |q next IH]; intros g; cbn; auto. Qed.

Lemma always_mono {A} (post post' : A -> G -> Prop) (p : Proc A) g :
  (forall a g, post a g -> post' a g) -> always post p g -> always post' p g.
Proof. intros Hp. revert g. induction p as [a|x| |q next IH]; intros g; cbn; auto. Qed.

(** It does hold in a run, with what the run has collected. *)
Lemma always_exec {A S} (handle : forall q, S -> option (R q * S)) (post : A -> G -> Prop) (p : Proc A) (g : G) (s : S) a s' g' :
  always post p g ->
  exec (fun q '(s, g) => '(r, s) ← handle q s; Some (r, (s, observe q r g))) p (s, g) = (Ret a, (s', g')) -> post a g'.
Proof.
  revert g s. induction p as [b|x| |q next IH]; intros g s; cbn [always exec]; try done.
  - intros H [= <- <- <-]. done.
  - intros H. destruct (handle q s) as [[r s1]|]; cbn; [|done]. by apply IH.
Qed.
End Always.

(** ** What never fails *)

Section Safe.
(** [X] is what must not happen; [allowed] is what the environment expects of the queries. *)
Context (allowed : Q -> Prop).

Fixpoint safe {A} (post : A -> Prop) (p : Proc A) : Prop :=
  match p with
  | Ret a => post a
  | Fail_ _ => False
  | Stuck => True
  | Ask q k => allowed q /\ forall r, safe post (k r)
  end.

Lemma safe_bind {A B} (post : B -> Prop) (p : Proc A) (k : A -> Proc B) :
  safe (fun a => safe post (k a)) p -> safe post (p ≫= k).
Proof. induction p as [a|x| |q next IH]; cbn; [done..|]. intros [H1 H2]. eauto. Qed.

Lemma safe_mono {A} (post post' : A -> Prop) (p : Proc A) :
  (forall a, post a -> post' a) -> safe post p -> safe post' p.
Proof. intros Hp. induction p as [a|x| |q next IH]; cbn; [auto|done|done|]. intros [H1 H2]. eauto. Qed.
End Safe.

(** ** Fuel *)

Section Unstuck.
(** The queries that a loop makes one of at each turn. *)
Context (counts : Q -> bool).

(** No loop runs out of fuel within [n] such queries. *)
Fixpoint unstuck {A} (n : nat) (p : Proc A) : Prop :=
  match p with
  | Ret _ | Fail_ _ => True
  | Stuck => False
  | Ask q k =>
      if counts q then match n with O => True | S n => forall r, unstuck n (k r) end
      else forall r, unstuck n (k r)
  end.

Lemma unstuck_le {A} n m (p : Proc A) : unstuck n p -> (m <= n)%nat -> unstuck m p.
Proof.
  revert n m. induction p as [a|x| |q next IH]; intros n m; cbn; auto. destruct (counts q); [|eauto].
  destruct m; [done|]. destruct n; [lia|]. intros H Hm r. eapply IH; [apply H|lia].
Qed.

Lemma unstuck_bind {A B} n (p : Proc A) (k : A -> Proc B) :
  unstuck n p -> (forall a m, (m <= n)%nat -> unstuck m (k a)) -> unstuck n (p ≫= k).
Proof.
  revert n. induction p as [a|x| |q next IH]; intros n; cbn; auto. intros H Hk. destruct (counts q).
  - destruct n; [done|]. intros r. apply IH; [apply H|]. intros a m Hm. apply Hk. lia.
  - intros r. apply IH; [apply H|done].
Qed.

(** Programs that make at least one such query before they return. *)
Fixpoint asks {A} (p : Proc A) : Prop :=
  match p with
  | Ret _ => False
  | Fail_ _ | Stuck => True
  | Ask q k => if counts q then True else forall r, asks (k r)
  end.

(** After one of them, a turn less of fuel is enough. *)
Lemma unstuck_turn {A B} n (p : Proc A) (k : A -> Proc B) :
  unstuck n p -> asks p -> (forall a m, (m < n)%nat -> unstuck m (k a)) -> unstuck n (p ≫= k).
Proof.
  revert n. induction p as [a|x| |q next IH]; intros n; cbn; auto; [done|]. intros H Ha Hk. destruct (counts q).
  - destruct n; [done|]. intros r. apply unstuck_bind; [apply H|]. intros a m Hm. apply Hk. lia.
  - intros r. apply IH; auto.
Qed.

(** An environment that has only [n] answers to them never sees a loop out of fuel. *)
Lemma unstuck_exec {A S} (handle : forall q, S -> option (R q * S)) (left : S -> nat) (p : Proc A) (s : S) :
  (forall q s r s', handle q s = Some (r, s') -> (left s' + (if counts q then 1 else 0) <= left s)%nat) ->
  unstuck (left s) p -> fst (exec handle p s) <> Stuck.
Proof.
  intros Hh. revert s. induction p as [a|x| |q next IH]; intros s; cbn; try done.
  destruct (handle q s) as [[r s']|] eqn:E; [|done]. apply Hh in E. intros H. apply IH.
  destruct (counts q); [destruct (left s) as [|n]; [lia|]|]; (eapply unstuck_le; [apply H|lia]).
Qed.
End Unstuck.

End Proc.

Arguments Proc {Q} R X A.
Arguments Ret {Q R X A} a.
Arguments Fail_ {Q R X A} x.
Arguments Stuck {Q R X A}.
Arguments Ask {Q R X A} q k.
Arguments ask {Q R X} q.
