(* ===== verification/Ymodem.v ===== *)
(** * The YMODEM protocol ([microtun-ymodem/src])

    The sender and the receiver as programs over a transport, a source, a sink and the
    caller's callbacks. The checksum of the [crc] crate is a parameter; the error types of
    the environment are one type [Er]. *)

From S2P Require Import Prelude Proc.
Local Open Scope Z_scope.

(** ** [lib.rs] *)

Definition BLOCK_SIZE : nat := 1024.
Definition HEADER_BLOCK_SIZE : nat := 128.
Definition SOH : Z := 1.
Definition STX : Z := 2.
Definition EOT : Z := 4.
Definition ACK : Z := 6.
Definition NAK : Z := 21.
Definition CAN : Z := 24.
Definition CRC_REQUEST : Z := 67.
Definition PAD : Z := 26.

Record Config := mkConfig { start_retries : nat; max_retries : Z }.
Definition config_default : Config := mkConfig 60 16.

Record Metadata := mkMetadata { filename : list Z; file_size : Z }.

Definition block_size (control : Z) : option nat :=
  if control =? SOH then Some HEADER_BLOCK_SIZE else if control =? STX then Some BLOCK_SIZE else None.

(** ** The environment *)

Inductive ReadEvent (Er : Type) := EvByte (byte : Z) | EvEof | EvInterrupted | EvTimedOut | EvError (e : Er).
Inductive SourceEvent (Er : Type) := SourceRead (count : nat) (bytes : list Z) | SourceError (e : Er).
Arguments EvByte {Er} byte.
Arguments EvEof {Er}.
Arguments EvInterrupted {Er}.
Arguments EvTimedOut {Er}.
Arguments EvError {Er} e.
Arguments SourceRead {Er} count bytes.
Arguments SourceError {Er} e.

Inductive SendEvent := EvOutput (byte : Z) | EvProgress (sent total : Z).

(** What the programs await: the transport ([QRead] of one byte, [QWrite] for [write_all],
    [QFlush]), the receiver's sink and metadata callback, the sender's source (a read into
    a buffer of [n] bytes) and observer. *)
Inductive Query :=
| QRead
| QWrite (bytes : list Z)
| QFlush
| QSink (bytes : list Z)
| QSinkFlush
| QMeta (m : Metadata)
| QSource (n : nat)
| QNotify (e : SendEvent).

Section Ymodem.
Context {Er : Type} (crc16 : list Z -> Z) (usize_max : Z).

Definition Answer (q : Query) : Type :=
  match q with
  | QRead => ReadEvent Er
  | QSource _ => SourceEvent Er
  | _ => option Er
  end.

Notation Proc := (Proc Answer).

Inductive ReadByteError := ReadIo (e : Er) | ReadTimeout | ReadEof.

(** [read_byte]: its loop only turns on interrupted reads. *)
Fixpoint read_byte {X} (fuel : nat) : Proc X (Z + ReadByteError) :=
  match fuel with
  | O => Stuck
  | S fuel =>
      r ← ask QRead;
      match r with
      | EvEof => Ret (inr ReadEof)
      | EvByte byte => Ret (inl byte)
      | EvInterrupted => read_byte fuel
      | EvTimedOut => Ret (inr ReadTimeout)
      | EvError e => Ret (inr (ReadIo e))
      end
  end.

(** [f(..).await.map_err(err)?] *)
Definition try_ {X} (q : Query) (err : Er -> X) : Proc X () :=
  match q return Proc X () with
  | QRead | QSource _ => Ret ()
  | QWrite bytes => r ← ask (QWrite bytes); match r with None => Ret () | Some e => Fail_ (err e) end
  | QFlush => r ← ask QFlush; match r with None => Ret () | Some e => Fail_ (err e) end
  | QSink bytes => r ← ask (QSink bytes); match r with None => Ret () | Some e => Fail_ (err e) end
  | QSinkFlush => r ← ask QSinkFlush; match r with None => Ret () | Some e => Fail_ (err e) end
  | QMeta m => r ← ask (QMeta m); match r with None => Ret () | Some e => Fail_ (err e) end
  | QNotify ev => r ← ask (QNotify ev); match r with None => Ret () | Some e => Fail_ (err e) end
  end.

(** ** [receive.rs] *)

Inductive Error := Io (e : Er) | Timeout | EndOfStream | Cancelled | Protocol | Output (e : Er) | MetadataError (e : Er).

Definition send_control (bytes : list Z) : Proc Error () :=
  try_ (QWrite bytes) Io ;; try_ QFlush Io.

Definition cancel : Proc Error () := send_control [CAN; CAN].

(** [read_block]: the bytes of a block, its number and complement before and its checksum after. *)
Fixpoint read_bytes {X} (fuel n : nat) : Proc X (list Z + ReadByteError) :=
  match n with
  | O => Ret (inl [])
  | S n =>
      b ← read_byte fuel;
      match b with
      | inr e => Ret (inr e)
      | inl b => bs ← read_bytes fuel n; Ret (match bs with inl bs => inl (b :: bs) | inr e => inr e end)
      end
  end.
Definition read_block {X} (fuel : nat) (block_size : nat) : Proc X (list Z + ReadByteError) := read_bytes fuel (block_size + 4).

Definition frame_block (frame : list Z) : Z := nth 0 frame 0.
Definition frame_data (frame : list Z) (block_size : nat) : list Z := take block_size (drop 2 frame).

Definition valid_frame (frame : list Z) (block_size : nat) : bool :=
  let block := nth 0 frame 0 in
  let inverse := nth 1 frame 0 in
  let received_crc := nth (2 + block_size) frame 0 * 256 + nth (3 + block_size) frame 0 in
  (inverse =? 255 - block) && (received_crc =? crc16 (frame_data frame block_size)).

Definition is_ascii_digit (byte : Z) : bool := (48 <=? byte) && (byte <=? 57).

Fixpoint decimal_from (value : Z) (bytes : list Z) : option Z :=
  match bytes with
  | [] => Some value
  | byte :: bytes =>
      if negb (is_ascii_digit byte) then None else
      if usize_max <? value * 10 then None else
      if usize_max <? value * 10 + (byte - 48) then None else decimal_from (value * 10 + (byte - 48)) bytes
  end.
Definition decimal_usize (bytes : list Z) : option Z := match bytes with [] => None | _ => decimal_from 0 bytes end.

Definition parse_metadata (data : list Z) : option Metadata :=
  name_end ← position (fun byte => byte =? 0) data;
  if (name_end =? 0)%nat then None else
  let filename := take name_end data in
  let rest := drop (name_end + 1) data in
  let field_end := default (length rest) (position (fun byte => (byte =? 0) || (byte =? 32)) rest) in
  file_size ← decimal_usize (take field_end rest);
  Some (mkMetadata filename file_size).

Definition is_empty_header (data : list Z) : bool := match data with 0 :: _ => true | _ => false end.

(** [BufferSink]: the bytes written are at the front of [output]. *)
Record BufferSink := mkBufferSink { sink_output : list Z; sink_written : nat }.
Definition buffer_sink_new (output : list Z) : BufferSink := mkBufferSink output 0.
Definition sink_remaining (s : BufferSink) : nat := (length (sink_output s) - sink_written s)%nat.
(** [None] is the error [Overflow]. *)
Definition buffer_sink_write (bytes : list Z) (s : BufferSink) : option nat * BufferSink :=
  match bytes with
  | [] => (Some 0%nat, s)
  | _ =>
      let count := Nat.min (length bytes) (sink_remaining s) in
      if (count =? 0)%nat then (None, s)
      else (Some count, mkBufferSink (blit (sink_output s) (sink_written s) (take count bytes)) (sink_written s + count))
  end.

Section Receive.
Context (config : Config) (fuel : nat).

Fixpoint first_control (n : nat) : Proc Error Z :=
  match n with
  | O => Fail_ Timeout
  | S n =>
      send_control [CRC_REQUEST] ;;
      b ← read_byte fuel;
      match b with
      | inl byte => Ret byte
      | inr ReadTimeout => first_control n
      | inr ReadEof => Fail_ EndOfStream
      | inr (ReadIo e) => Fail_ (Io e)
      end
  end.

Definition lift_read {A} (r : A + ReadByteError) : Proc Error A :=
  match r with
  | inl a => Ret a
  | inr ReadTimeout => Fail_ Timeout
  | inr ReadEof => Fail_ EndOfStream
  | inr (ReadIo e) => Fail_ (Io e)
  end.

Definition next_byte : Proc Error Z := b ← read_byte fuel; lift_read b.

(** A retry: [NAK], unless there were too many. *)
Definition reject (retries : Z) : Proc Error Z :=
  let retries := sat_add u8_max retries 1 in
  if max_retries config <? retries then cancel ;; Fail_ Protocol
  else send_control [NAK] ;; Ret retries.

(** The first loop: block 0 with the metadata. *)
Fixpoint header_loop (n : nat) (control retries : Z) : Proc Error Z :=
  match n with
  | O => Stuck
  | S n =>
      if control =? CAN then Fail_ Cancelled else
      match block_size control with
      | None => retries ← reject retries; control ← next_byte; header_loop n control retries
      | Some size =>
          r ← read_block fuel size;
          frame ← lift_read r;
          if negb (valid_frame frame size) || negb (frame_block frame =? 0) then
            retries ← reject retries; control ← next_byte; header_loop n control retries
          else
            match parse_metadata (frame_data frame size) with
            | None => cancel ;; Fail_ Protocol
            | Some metadata =>
                r ← ask (QMeta metadata);
                match r with
                | Some e => cancel ;; Fail_ (MetadataError e)
                | None =>
                    try_ (QWrite [ACK]) Io ;; try_ (QWrite [CRC_REQUEST]) Io ;; try_ QFlush Io ;;
                    Ret (file_size metadata)
                end
            end
      end
  end.

(** The [EOT] branch of the second loop. *)
Definition end_of_file (metadata written : Z) : Proc Error () :=
  if negb (written =? metadata) then cancel ;; Fail_ Protocol else
  r ← ask QSinkFlush;
  match r with
  | Some e => cancel ;; Fail_ (Output e)
  | None =>
      send_control [NAK] ;;
      second ← next_byte;
      if negb (second =? EOT) then cancel ;; Fail_ Protocol else
      try_ (QWrite [ACK]) Io ;; try_ (QWrite [CRC_REQUEST]) Io ;; try_ QFlush Io
  end.

(** What the second loop does with a block: the state of the next turn. *)
Definition data_block (metadata : Z) (frame : list Z) (size : nat) (expected_block written retries : Z) :
    Proc Error (Z * Z * Z) :=
  let block := frame_block frame in
  if negb (valid_frame frame size) then retries ← reject retries; Ret (expected_block, written, retries)
  else if block =? expected_block then
    if metadata <=? written then cancel ;; Fail_ Protocol else
    let remaining := metadata - written in
    let count := Z.min remaining (Z.of_nat size) in
    r ← ask (QSink (take (Z.to_nat count) (drop 2 frame)));
    match r with
    | Some e => cancel ;; Fail_ (Output e)
    | None => send_control [ACK] ;; Ret (wrap_add u8_max expected_block 1, written + count, 0)
    end
  else if block =? (expected_block - 1) mod 256 then send_control [ACK] ;; Ret (expected_block, written, retries)
  else retries ← reject retries; Ret (expected_block, written, retries).

(** The second loop: the data blocks. *)
Fixpoint data_loop (n : nat) (metadata control expected_block written retries : Z) : Proc Error () :=
  match n with
  | O => Stuck
  | S n =>
      if control =? CAN then Fail_ Cancelled else
      if control =? EOT then end_of_file metadata written else
      match block_size control with
      | None =>
          retries ← reject retries; control ← next_byte; data_loop n metadata control expected_block written retries
      | Some size =>
          r ← read_block fuel size;
          frame ← lift_read r;
          s ← data_block metadata frame size expected_block written retries;
          let '(expected_block, written, retries) := s in
          control ← next_byte;
          data_loop n metadata control expected_block written retries
      end
  end.

(** The third loop: the empty block 0 that ends the batch. *)
Fixpoint final_loop (n : nat) (control retries : Z) : Proc Error () :=
  match n with
  | O => Stuck
  | S n =>
      if control =? CAN then Fail_ Cancelled else
      match block_size control with
      | None => retries ← reject retries; control ← next_byte; final_loop n control retries
      | Some size =>
          r ← read_block fuel size;
          frame ← lift_read r;
          if valid_frame frame size && (frame_block frame =? 0) && is_empty_header (frame_data frame size) then
            send_control [ACK]
          else retries ← reject retries; control ← next_byte; final_loop n control retries
      end
  end.

(** [receive_with]; the answer is [Transfer::file_size]. *)
Definition receive_with : Proc Error Z :=
  control ← first_control (start_retries config);
  metadata ← header_loop fuel control 0;
  control ← next_byte;
  data_loop fuel metadata control 1 0 0 ;;
  control ← next_byte;
  final_loop fuel control 0 ;;
  Ret metadata.
End Receive.

(** ** [send.rs] *)

Inductive SendError :=
| SIo (e : Er) | STimeout | SEndOfStream | SCancelled | SProtocol | InvalidFilename | HeaderTooLong
| UnexpectedEof | InvalidSourceRead | SSource (e : Er) | SObserver (e : Er).

(** Digits of [value] before those of [acc]; [fuel] is the scratch buffer of 20 bytes. *)
Fixpoint decimal_digits (fuel : nat) (value : Z) (acc : list Z) : list Z :=
  match fuel with
  | O => acc
  | S fuel =>
      let acc := (48 + value mod 10) :: acc in
      if value / 10 =? 0 then acc else decimal_digits fuel (value / 10) acc
  end.
Definition decimal_bytes (value : Z) : list Z := decimal_digits 20 value [].

Definition metadata_block (m : Metadata) : list Z + SendError :=
  if (length (filename m) =? 0)%nat || existsb (fun byte => byte =? 0) (filename m) then inr InvalidFilename else
  let size := decimal_bytes (file_size m) in
  let needed := (length (filename m) + 1 + length size + 1)%nat in
  if (HEADER_BLOCK_SIZE <? needed)%nat then inr HeaderTooLong else
  let block := replicate HEADER_BLOCK_SIZE 0 in
  let block := blit block 0 (filename m) in
  inl (blit block (length (filename m) + 1) size).

Section Send.
Context (config : Config) (fuel : nat).

Fixpoint wait_loop (n : nat) (timeouts : nat) : Proc SendError () :=
  match n with
  | O => Stuck
  | S n =>
      b ← read_byte fuel;
      match b with
      | inl byte =>
          if byte =? CRC_REQUEST then Ret () else
          if byte =? CAN then Fail_ SCancelled else
          try_ (QNotify (EvOutput byte)) SObserver ;; wait_loop n timeouts
      | inr (ReadIo e) => Fail_ (SIo e)
      | inr ReadEof => Fail_ SEndOfStream
      | inr ReadTimeout =>
          let timeouts := Nat.min 255 (timeouts + 1) in
          if (start_retries config <=? timeouts)%nat then Fail_ STimeout else wait_loop n timeouts
      end
  end.
Definition wait_for_crc_request : Proc SendError () :=
  if (start_retries config =? 0)%nat then Fail_ STimeout else wait_loop fuel 0.

Definition write_control (byte : Z) : Proc SendError () := try_ (QWrite [byte]) SIo ;; try_ QFlush SIo.

Fixpoint packet_loop (n : nat) (prefix data crc : list Z) (retries : Z) : Proc SendError () :=
  match n with
  | O => Stuck
  | S n =>
      try_ (QWrite prefix) SIo ;; try_ (QWrite data) SIo ;; try_ (QWrite crc) SIo ;; try_ QFlush SIo ;;
      b ← read_byte fuel;
      match b with
      | inl byte =>
          if byte =? ACK then Ret () else
          if byte =? NAK then
            if max_retries config <=? retries then Fail_ SProtocol
            else packet_loop n prefix data crc (sat_add u8_max retries 1)
          else if byte =? CAN then Fail_ SCancelled else Fail_ SProtocol
      | inr (ReadIo e) => Fail_ (SIo e)
      | inr ReadEof => Fail_ SEndOfStream
      | inr ReadTimeout =>
          if max_retries config <=? retries then Fail_ STimeout
          else packet_loop n prefix data crc (sat_add u8_max retries 1)
      end
  end.
Definition packet_prefix (control block_number : Z) : list Z := [control; block_number; 255 - block_number].
Definition send_packet (control block_number : Z) (data : list Z) : Proc SendError () :=
  packet_loop fuel (packet_prefix control block_number) data (be_bytes 2 (crc16 data)) 0.

Definition expect_control (expected : Z) : Proc SendError () :=
  b ← read_byte fuel;
  match b with
  | inl byte =>
      if byte =? expected then Ret () else if byte =? CAN then Fail_ SCancelled else Fail_ SProtocol
  | inr ReadTimeout => Fail_ STimeout
  | inr ReadEof => Fail_ SEndOfStream
  | inr (ReadIo e) => Fail_ (SIo e)
  end.

(** The inner loop: fills the buffer up to [wanted]. Each turn reads at least a byte. *)
Fixpoint fill (n : nat) (wanted used : nat) (data : list Z) : Proc SendError (list Z) :=
  if (used <? wanted)%nat then
    match n with
    | O => Stuck
    | S n =>
        r ← ask (QSource (wanted - used));
        match r with
        | SourceError e => Fail_ (SSource e)
        | SourceRead count bytes =>
            let data := blit data used (take (wanted - used) bytes) in
            if (count =? 0)%nat then Fail_ UnexpectedEof else
            if (wanted - used <? count)%nat then Fail_ InvalidSourceRead
            else fill n wanted (used + count) data
        end
    end
  else Ret data.

(** The loop over the blocks. *)
Fixpoint blocks_loop (n : nat) (size sent block_number : Z) : Proc SendError () :=
  if sent <? size then
    match n with
    | O => Stuck
    | S n =>
        let wanted := Z.to_nat (Z.min (size - sent) (Z.of_nat BLOCK_SIZE)) in
        data ← fill BLOCK_SIZE wanted 0 (replicate BLOCK_SIZE PAD);
        send_packet STX block_number data ;;
        let sent := sent + Z.of_nat wanted in
        try_ (QNotify (EvProgress sent size)) SObserver ;;
        blocks_loop n size sent (wrap_add u8_max block_number 1)
    end
  else Ret ().

Definition send_with (m : Metadata) : Proc SendError Z :=
  match metadata_block m with
  | inr e => Fail_ e
  | inl header =>
      try_ (QNotify (EvProgress 0 (file_size m))) SObserver ;;
      wait_for_crc_request ;;
      send_packet SOH 0 header ;;
      wait_for_crc_request ;;
      blocks_loop fuel (file_size m) 0 1 ;;
      write_control EOT ;; expect_control NAK ;; write_control EOT ;; expect_control ACK ;;
      wait_for_crc_request ;;
      send_packet SOH 0 (replicate HEADER_BLOCK_SIZE 0) ;;
      try_ (QNotify (EvProgress (file_size m) (file_size m))) SObserver ;;
      Ret (file_size m)
  end.
End Send.
End Ymodem.

(** * YMODEM: the header block, and what holds against any peer

    The codec of the metadata block, the receiver's promise about its output in every
    environment, and the loops' termination. *)

Local Open Scope Z_scope.

(** ** The metadata block *)

Section Decimal.
Context (usize_max : Z).

Lemma decimal_from_app v a b :
  decimal_from usize_max v (a ++ b) = v' ← decimal_from usize_max v a; decimal_from usize_max v' b.
Proof. revert v. induction a as [|x a IH]; intros v; [done|]. cbn. repeat case_match; cbn; auto. Qed.

Lemma decimal_digits_acc fuel v acc : decimal_digits fuel v acc = decimal_digits fuel v [] ++ acc.
Proof.
  revert v acc. induction fuel as [|fuel IH]; intros v acc; [done|]. cbn [decimal_digits].
  destruct (v / 10 =? 0); [done|]. rewrite IH, (IH _ [_]). by rewrite <- app_assoc.
Qed.

Lemma decimal_digits_S fuel v :
  decimal_digits (S fuel) v [] = (if v / 10 =? 0 then [] else decimal_digits fuel (v / 10) []) ++ [48 + v mod 10].
Proof. cbn [decimal_digits]. destruct (v / 10 =? 0); [done|]. apply decimal_digits_acc. Qed.

Lemma decimal_one v d : 0 <= v -> 0 <= d < 10 -> v * 10 + d <= usize_max -> decimal_from usize_max v [48 + d] = Some (v * 10 + d).
Proof.
  intros Hv Hd Hm. cbn [decimal_from]. unfold is_ascii_digit.
  replace ((48 <=? 48 + d) && (48 + d <=? 57)) with true by (symmetry; apply andb_true_iff; lia). cbn [negb].
  replace (48 + d - 48) with d by lia. rewrite !(proj2 (Z.ltb_ge _ _)) by lia. done.
Qed.

Lemma decimal_round_trip fuel v :
  0 <= v <= usize_max -> v < 10 ^ Z.of_nat fuel -> (0 < fuel)%nat ->
  decimal_from usize_max 0 (decimal_digits fuel v []) = Some v.
Proof.
  revert v. induction fuel as [|fuel IH]; intros v Hv Hf Hp; [lia|]. rewrite decimal_digits_S.
  rewrite Nat2Z.inj_succ, Z.pow_succ_r in Hf by lia.
  destruct (Z.eqb_spec (v / 10) 0) as [E|E].
  - cbn [app]. rewrite decimal_one; [f_equal; dlia|lia|dlia|dlia].
  - rewrite decimal_from_app, IH; [|dlia|dlia|].
    + cbn. change (decimal_from usize_max (v / 10) [48 + v mod 10] = Some v). rewrite decimal_one; [f_equal; dlia|dlia|dlia|dlia].
    + destruct fuel; [|lia]. change (10 ^ Z.of_nat 0) with 1 in Hf. dlia.
Qed.

Lemma decimal_digits_spec fuel v :
  0 <= v -> Forall (fun b => 48 <= b <= 57) (decimal_digits fuel v []) /\ (length (decimal_digits fuel v []) <= fuel)%nat.
Proof.
  revert v. induction fuel as [|fuel IH]; intros v Hv; [split; [constructor|done]|]. rewrite decimal_digits_S.
  destruct (IH (v / 10) ltac:(dlia)) as [IH1 IH2]. rewrite Forall_app, length_app. cbn [length].
  split; [split; [by destruct (v / 10 =? 0); [constructor|]|repeat constructor; dlia]|].
  destruct (v / 10 =? 0); cbn [length]; lia.
Qed.

Lemma decimal_digits_not_nil fuel v : decimal_digits (S fuel) v [] <> [].
Proof. rewrite decimal_digits_S. intros [_ H]%app_nil. done. Qed.

Lemma position_app_end {A} (p : A -> bool) a x b :
  Forall (fun y => p y = false) a -> p x = true -> position p (a ++ x :: b) = Some (length a).
Proof.
  induction 1 as [|y a Hy _ IH]; intros Hx; cbn; [by rewrite Hx|]. rewrite Hy, IH by done. done.
Qed.

Lemma metadata_block_shape {Er} m block :
  metadata_block (Er := Er) m = inl block ->
  let size := decimal_bytes (file_size m) in
  (length (filename m) + 1 + length size + 1 <= HEADER_BLOCK_SIZE)%nat /\ filename m <> [] /\
  Forall (fun byte => byte =? 0 = false) (filename m) /\
  exists n, block = filename m ++ 0 :: size ++ 0 :: replicate n 0 /\ (length (filename m) + 1 + length size + 1 + n = HEADER_BLOCK_SIZE)%nat.
Proof.
  unfold metadata_block. destruct (length (filename m) =? 0)%nat eqn:E0; [done|]. destruct (existsb _ _) eqn:E1; [done|]. cbn [orb].
  set (size := decimal_bytes (file_size m)).
  destruct (Nat.ltb_spec HEADER_BLOCK_SIZE (length (filename m) + 1 + length size + 1)) as [|Hle]; [done|]. intros Hb.
  assert (block = blit (blit (replicate HEADER_BLOCK_SIZE 0) 0 (filename m)) (length (filename m) + 1) size) as -> by congruence. clear Hb.
  split; [done|]. split; [intros Hn; by rewrite Hn in E0|].
  split.
  { apply Forall_forall. intros x Hx. apply not_true_iff_false. intros Hz.
    apply not_true_iff_false in E1. apply E1, existsb_exists. exists x. split; [by apply list_elem_of_In|done]. }
  exists (HEADER_BLOCK_SIZE - (length (filename m) + 1 + length size + 1))%nat. split; [|lia].
  assert (H1 : blit (replicate HEADER_BLOCK_SIZE 0) 0 (filename m) =
    filename m ++ 0 :: replicate (length size) 0 ++ 0 :: replicate (HEADER_BLOCK_SIZE - (length (filename m) + 1 + length size + 1)) 0).
  { set (r := (HEADER_BLOCK_SIZE - (length (filename m) + 1 + length size + 1))%nat).
    replace HEADER_BLOCK_SIZE with (length (filename m) + S (length size + S r))%nat by lia.
    rewrite replicate_add. cbn [replicate]. rewrite replicate_add. cbn [replicate]. apply blit_front. by rewrite length_replicate. }
  rewrite H1. rewrite (cons_middle 0), app_assoc.
  rewrite (blit_piece (filename m ++ [0]) (replicate (length size) 0)); [by rewrite <- app_assoc| |].
  - rewrite length_app. cbn. done.
  - by rewrite length_replicate.
Qed.
End Decimal.

Lemma metadata_block_reads {Er} (usize_max : Z) (m : Metadata) block :
  0 <= file_size m <= usize_max -> usize_max <= u64_max -> metadata_block (Er := Er) m = inl block ->
  length block = HEADER_BLOCK_SIZE /\ parse_metadata usize_max block = Some m.
Proof.
  intros Hs Hm E.
  destruct (metadata_block_shape m block E) as (Hle & Hne & Hz & n & -> & Hn). split.
  { rewrite length_app. cbn [length]. rewrite length_app. cbn [length]. rewrite length_replicate. lia. }
  unfold parse_metadata. rewrite position_app_end by done. cbn [mbind option_bind].
  destruct (filename m) as [|f fs] eqn:Ef; [done|]. rewrite <- Ef. cbn [length Nat.eqb].
  rewrite take_app_length. rewrite (cons_middle 0), app_assoc, drop_app_length' by (rewrite length_app; cbn; lia).
  destruct (decimal_digits_spec 20 (file_size m) ltac:(lia)) as [Hd _].
  rewrite position_app_end; [|eapply Forall_impl; [exact Hd|]; cbn beta; intros x Hx; apply orb_false_iff; lia|done].
  cbn [default from_option id]. rewrite take_app_length. unfold decimal_usize.
  destruct (decimal_bytes (file_size m)) as [|d ds] eqn:Eb; [by apply decimal_digits_not_nil in Eb|]. rewrite <- Eb.
  unfold decimal_bytes. rewrite decimal_round_trip; [|lia|change (Z.of_nat 20) with 20; unfold u64_max in *; lia|lia]. cbn. rewrite Ef at 1. by destruct m.
Qed.

(** The header block carries its metadata: it is made exactly for a name that is not empty,
    has no zero byte and leaves room for the size, and a receiver whose sizes are as wide
    reads the same name and size back from it. *)
Theorem metadata_round_trip {Er} (usize_max : Z) (m : Metadata) :
  0 <= file_size m <= usize_max -> usize_max <= u64_max ->
  match metadata_block (Er := Er) m with
  | inl block => length block = HEADER_BLOCK_SIZE /\ parse_metadata usize_max block = Some m
  | inr InvalidFilename => filename m = [] \/ 0 ∈ filename m
  | inr e => e = HeaderTooLong /\ (HEADER_BLOCK_SIZE < length (filename m) + 1 + length (decimal_bytes (file_size m)) + 1)%nat
  end.
Proof.
  intros Hs Hm. destruct (metadata_block m) as [block|e] eqn:E; [by apply (metadata_block_reads (Er := Er))|].
  unfold metadata_block in E. destruct (length (filename m) =? 0)%nat eqn:E0.
    { injection E as <-. left. by apply Nat.eqb_eq, length_zero_iff_nil in E0. }
    destruct (existsb _ _) eqn:E1.
    { injection E as <-. right. apply existsb_exists in E1 as (x & Hx & ->%Z.eqb_eq). by apply list_elem_of_In. }
    cbn [orb] in E. destruct (Nat.ltb_spec HEADER_BLOCK_SIZE (length (filename m) + 1 + length (decimal_bytes (file_size m)) + 1)); [|done].
    injection E as <-. done.
Qed.

(** ** What the receiver hears and writes *)

Record Ghost := mkGhost { heard : list Z; sunk : list Z; agreed : option Metadata }.

Section Receiver.
Context {Er : Type} (crc16 : list Z -> Z) (usize_max : Z) (config : Config) (fuel : nat).

Definition observe (q : Query) : Answer (Er := Er) q -> Ghost -> Ghost :=
  match q with
  | QRead => fun r g => match r with EvByte b => mkGhost (heard g ++ [b]) (sunk g) (agreed g) | _ => g end
  | QSink bytes => fun r g => match r with None => mkGhost (heard g) (sunk g ++ bytes) (agreed g) | _ => g end
  | QMeta m => fun r g => match r with None => mkGhost (heard g) (sunk g) (Some m) | _ => g end
  | _ => fun _ g => g
  end.

Notation Proc := (Proc (Answer (Er := Er))).
Notation always := (always observe).

(** Blocks 1, 2, ... of verified frames heard in order, with their data. *)
Inductive blocks_in : list Z -> Z -> list Z -> Prop :=
| NoBlocks : blocks_in [] 0 []
| Later h gap n data : blocks_in h n data -> blocks_in (h ++ gap) n data
| Block h n data control size frame :
    blocks_in h n data -> block_size control = Some size -> length frame = (size + 4)%nat ->
    valid_frame crc16 frame size = true -> frame_block frame = (n + 1) mod 256 ->
    blocks_in (h ++ control :: frame) (n + 1) (data ++ frame_data frame size).

Definition hear (g : Ghost) (bs : list Z) : Ghost := mkGhost (heard g ++ bs) (sunk g) (agreed g).

Lemma hear_nil g : hear g [] = g.
Proof. unfold hear. rewrite app_nil_r. by destruct g. Qed.
Lemma hear_app g a b : hear (hear g a) b = hear g (a ++ b).
Proof. unfold hear. cbn. by rewrite app_assoc. Qed.

Lemma always_read_byte {X} f (post : Z + ReadByteError -> Ghost -> Prop) g :
  (forall b, post (inl b) (hear g [b])) -> (forall e, post (inr e) g) -> always post (read_byte (X := X) f) g.
Proof. intros Hb He. induction f as [|f IH]; [done|]. intros [b| | | |e]; cbn [observe]; [apply Hb|apply He|exact IH|apply He|apply He]. Qed.

Lemma always_read_bytes {X} n (post : list Z + ReadByteError -> Ghost -> Prop) g :
  (forall bs, length bs = n -> post (inl bs) (hear g bs)) -> (forall e bs, post (inr e) (hear g bs)) ->
  always post (read_bytes (X := X) fuel n) g.
Proof.
  revert post g. induction n as [|n IH]; intros post g Hb He; [cbn; rewrite <- (hear_nil g); by apply Hb|].
  cbn [read_bytes]. apply always_bind, always_read_byte.
  - intros b. apply always_bind, IH.
    + intros bs Hl. cbn. rewrite hear_app. apply Hb. cbn. by rewrite Hl.
    + intros e bs. cbn. rewrite hear_app. apply He.
  - intros e. cbn. rewrite <- (hear_nil g). apply He.
Qed.

Lemma always_lift {A} (post : A -> Ghost -> Prop) r g : (forall a, r = inl a -> post a g) -> always post (lift_read r) g.
Proof. intros H. destruct r as [a|[]]; [by apply H|done..]. Qed.

Lemma always_next_byte (post : Z -> Ghost -> Prop) g : (forall b, post b (hear g [b])) -> always post (next_byte fuel) g.
Proof.
  intros H. unfold next_byte. apply always_bind, always_read_byte; [|intros []; exact I].
  intros b. apply H.
Qed.

(** The queries about which nothing is recorded. *)
Lemma always_send_control (post : () -> Ghost -> Prop) bs g : post () g -> always post (send_control bs) g.
Proof. intros H [e|]; [exact I|]. intros [e'|]; [exact I|exact H]. Qed.

Lemma always_cancel {B} (post : B -> Ghost -> Prop) (x : Error) g :
  always post (cancel ;; Fail_ x) g.
Proof. intros [e|]; [exact I|]. by intros [e'|]. Qed.

Lemma always_reject (post : Z -> Ghost -> Prop) retries g : (forall r, post r g) -> always post (reject config retries) g.
Proof.
  intros H. unfold reject. destruct (_ <? _); [by apply always_cancel|]. apply always_bind, always_send_control, H.
Qed.

Lemma always_accept (post : () -> Ghost -> Prop) a b g :
  post () g -> always post (try_ (QWrite a) Io ;; try_ (QWrite b) Io ;; try_ QFlush Io) g.
Proof. intros H [e|]; [exact I|]. intros [e'|]; [exact I|]. intros [e''|]; [exact I|exact H]. Qed.

Lemma decimal_from_bound v bytes size :
  0 <= v -> v <= usize_max -> decimal_from usize_max v bytes = Some size -> 0 <= size <= usize_max.
Proof.
  revert v. induction bytes as [|b bytes IH]; intros v Hv Hm; cbn [decimal_from]; [intros [= <-]; lia|].
  destruct (is_ascii_digit b) eqn:Ed; [|done]. cbn [negb]. unfold is_ascii_digit in Ed.
  destruct (Z.ltb_spec usize_max (v * 10)); [done|]. destruct (Z.ltb_spec usize_max (v * 10 + (b - 48))); [done|].
  apply IH; lia.
Qed.

Lemma parse_metadata_bound data m : 0 <= usize_max -> parse_metadata usize_max data = Some m -> 0 <= file_size m <= usize_max.
Proof.
  intros Hm. unfold parse_metadata. destruct (position _ data) as [e|]; [|done]. cbn [mbind option_bind].
  destruct (e =? 0)%nat; [done|]. destruct (decimal_usize _ _) as [size|] eqn:E; [|done]. intros [= <-]. cbn.
  unfold decimal_usize in E. destruct (take _ _); [done|]. by apply decimal_from_bound in E.
Qed.

Lemma always_header_loop n control retries g :
  0 <= usize_max -> sunk g = [] ->
  always (fun size g' => 0 <= size <= usize_max /\ sunk g' = [] /\ exists m, agreed g' = Some m /\ file_size m = size)
    (header_loop crc16 usize_max config fuel n control retries) g.
Proof.
  intros Hm. revert control retries g. induction n as [|n IH]; intros control retries g Hs; [done|]. cbn [header_loop].
  destruct (control =? CAN); [done|].
  assert (Hagain : always (fun size g' => 0 <= size <= usize_max /\ sunk g' = [] /\ exists m, agreed g' = Some m /\ file_size m = size)
    (retries ← reject config retries; control ← next_byte fuel; header_loop crc16 usize_max config fuel n control retries) g).
  { apply always_bind, always_reject. intros r. apply always_bind, always_next_byte. intros b. by apply IH. }
  destruct (block_size control) as [size|]; [|exact Hagain]. clear Hagain.
  apply always_bind, always_read_bytes; [|intros [] bs; exact I]. intros frame Hl. apply always_bind, always_lift. intros ? [= <-].
  destruct (negb _ || _).
  { apply always_bind, always_reject. intros r. apply always_bind, always_next_byte. intros b. by apply IH. }
  destruct (parse_metadata usize_max _) as [m|] eqn:E; [|apply always_cancel].
  intros [e|]; [apply always_cancel|]. apply parse_metadata_bound in E; [|done].
  change (always (fun size g' => 0 <= size <= usize_max /\ sunk g' = [] /\ exists m, agreed g' = Some m /\ file_size m = size)
    ((try_ (QWrite [ACK]) Io ;; try_ (QWrite [CRC_REQUEST]) Io ;; try_ QFlush Io ;; Ret (file_size m)) : Proc Error Z) (mkGhost (heard (hear g frame)) (sunk (hear g frame)) (Some m))).
  intros [e|]; [exact I|]. intros [e|]; [exact I|]. intros [e|]; [exact I|]. cbn. split; [done|]. split; [done|]. eauto.
Qed.

(** The output so far: the data of the blocks heard, up to the size. *)
Definition progress (size : Z) (h : list Z) (expected_block written : Z) (g : Ghost) : Prop :=
  exists n data, blocks_in h n data /\ expected_block = (n + 1) mod 256 /\
    sunk g = take (Z.to_nat size) data /\ written = Z.of_nat (length (sunk g)).

Lemma progress_later size h gap e w g g' :
  progress size h e w g -> sunk g' = sunk g -> progress size (h ++ gap) e w g'.
Proof. intros (n & data & Hb & He & Hs & Hw) Hg. exists n, data. rewrite Hg. split_and!; auto. by apply Later. Qed.

Lemma always_data_block size h control frame len e w r g :
  0 <= size -> progress size h e w g -> block_size control = Some len -> length frame = (len + 4)%nat ->
  always (fun s g' => heard g' = heard g /\ agreed g' = agreed g /\ let '(e, w, r) := s in progress size (h ++ control :: frame) e w g')
    (data_block crc16 config size frame len e w r) g.
Proof.
  intros Hsz Hp Hc Hl. assert (Hlater : progress size (h ++ control :: frame) e w g) by by eapply progress_later.
  unfold data_block. destruct (valid_frame crc16 frame len) eqn:Ev; cbn [negb].
  2: { apply always_bind, always_reject. intros r'. cbn. auto. }
  destruct (Z.eqb_spec (frame_block frame) e) as [Eb|_].
  2: { destruct (_ =? _); [apply always_bind, always_send_control; cbn; auto|apply always_bind, always_reject; intros r'; cbn; auto]. }
  destruct (Z.leb_spec size w) as [|Hlt]; [apply always_cancel|].
  intros [x|]; [apply always_cancel|]. apply always_bind, always_send_control. cbn.
  split; [done|]. split; [done|]. destruct Hp as (n & data & Hb & -> & Hs & Hw).
  assert (Hfull : take (Z.to_nat size) data = data).
  { apply take_ge. rewrite Hs in Hw. rewrite length_take in Hw. lia. }
  assert (Hdata : take (Z.to_nat (Z.min (size - w) (Z.of_nat len))) (drop 2 frame) = take (Z.to_nat (size - w)) (frame_data frame len)).
  { unfold frame_data. rewrite take_take. f_equal. lia. }
  assert (Hflen : length (frame_data frame len) = len).
  { unfold frame_data. rewrite length_take, length_drop. lia. }
  exists (n + 1), (data ++ frame_data frame len). split; [by apply Block|]. split.
  { unfold wrap_add, u8_max. change (255 + 1) with 256. rewrite Z.add_mod_idemp_l by lia. done. }
  cbn [sunk]. rewrite Hs, Hfull, Hdata. rewrite Hs, Hfull in Hw. subst w. split.
  - rewrite take_app_ge by lia. f_equal. f_equal. lia.
  - rewrite length_app, length_take, Hflen. lia.
Qed.

Lemma always_end_of_file size w g h e :
  progress size h e w g ->
  always (fun _ g' => agreed g' = agreed g /\ (exists gap, heard g' = heard g ++ gap) /\ sunk g' = sunk g /\ w = size)
    (end_of_file fuel size w) g.
Proof.
  intros Hp. unfold end_of_file. destruct (Z.eqb_spec w size) as [->|]; cbn [negb]; [|apply always_cancel].
  intros [x|]; [apply always_cancel|]. cbn [observe]. apply always_bind, always_send_control. apply always_bind, always_next_byte.
  intros b. destruct (negb _); [apply always_cancel|].
  change (always (fun _ g' => agreed g' = agreed g /\ (exists gap, heard g' = heard g ++ gap) /\ sunk g' = sunk g /\ size = size)
    ((try_ (QWrite [ACK]) Io ;; try_ (QWrite [CRC_REQUEST]) Io ;; try_ QFlush Io) : Proc Error ()) (hear g [b])).
  apply always_accept. cbn. split_and!; eauto.
Qed.

Lemma always_data_loop n size control h e w r g :
  0 <= size -> heard g = h ++ [control] -> progress size h e w g ->
  always (fun _ g' => agreed g' = agreed g /\ exists k data, blocks_in (heard g') k data /\
      sunk g' = take (Z.to_nat size) data /\ Z.of_nat (length (sunk g')) = size)
    (data_loop crc16 config fuel n size control e w r) g.
Proof.
  intros Hsz. revert control h e w r g. induction n as [|n IH]; intros control h e w r g Hh Hp; [done|]. cbn [data_loop].
  destruct (control =? CAN); [done|]. destruct (control =? EOT).
  { eapply always_mono; [|by eapply always_end_of_file]. cbn. intros _ g' (Ha & [gap Hg] & Hs & ->). split; [done|].
    destruct Hp as (k & data & Hb & _ & Hd & Hw). exists k, data. rewrite Hg, Hs, Hh. split_and!; [|done|done].
    rewrite <- app_assoc. by apply Later. }
  destruct (block_size control) as [len|] eqn:Ec.
  - apply always_bind, always_read_bytes; [|intros [] bs; exact I]. intros frame Hl. apply always_bind, always_lift. intros ? [= <-].
    apply always_bind. eapply always_mono; [|eapply (always_data_block size h control frame len e w r (hear g frame)); try done].
    intros [[e' w'] r'] g' (Hhe & Ha & Hp'). apply always_bind, always_next_byte. intros b.
    eapply always_mono; [|apply (IH b (h ++ control :: frame))].
    + cbn. rewrite Ha. done.
    + cbn. rewrite Hhe. cbn. rewrite Hh. by rewrite <- !app_assoc.
    + destruct Hp' as (k & data & ? & ? & ? & ?). by exists k, data.
  - apply always_bind, always_reject. intros r'. apply always_bind, always_next_byte. intros b.
    eapply always_mono; [|apply (IH b (h ++ [control]))]; [done| |].
    + cbn. by rewrite Hh.
    + by eapply progress_later.
Qed.

Lemma always_final_loop n control r g :
  always (fun _ g' => agreed g' = agreed g /\ (exists gap, heard g' = heard g ++ gap) /\ sunk g' = sunk g)
    (final_loop crc16 config fuel n control r) g.
Proof.
  revert control r g. induction n as [|n IH]; intros control r g; [done|]. cbn [final_loop].
  destruct (control =? CAN); [done|].
  assert (Hagain : forall g', agreed g' = agreed g -> (exists gap, heard g' = heard g ++ gap) -> sunk g' = sunk g ->
    always (fun _ g' => agreed g' = agreed g /\ (exists gap, heard g' = heard g ++ gap) /\ sunk g' = sunk g)
      (retries ← reject config r; control ← next_byte fuel; final_loop crc16 config fuel n control retries) g').
  { intros g' Ha [gap Hg] Hs. apply always_bind, always_reject. intros r'. apply always_bind, always_next_byte. intros b.
    eapply always_mono; [|apply IH]. cbn. intros _ g2 (-> & [gap2 ->] & ->). split; [done|]. split; [|done].
    exists (gap ++ [b] ++ gap2). by rewrite Hg, <- !app_assoc. }
  destruct (block_size control) as [len|].
  - apply always_bind, always_read_bytes; [|intros [] bs; exact I]. intros frame Hl. apply always_bind, always_lift. intros ? [= <-].
    destruct (_ && _ && _); [apply always_send_control; cbn; eauto|apply Hagain; cbn; eauto].
  - apply Hagain; [done| |done]. exists []. by rewrite app_nil_r.
Qed.

Lemma always_first_control n (post : Z -> Ghost -> Prop) g :
  (forall b, post b (hear g [b])) -> always post (first_control fuel n) g.
Proof.
  intros H. induction n as [|n IH]; [done|]. cbn [first_control]. apply always_bind, always_send_control.
  apply always_bind, always_read_byte; [apply H|]. intros []; [exact I|exact IH|exact I].
Qed.

Lemma always_receive :
  0 <= usize_max ->
  always (fun size g => 0 <= size <= usize_max /\ (exists m, agreed g = Some m /\ file_size m = size) /\
      Z.of_nat (length (sunk g)) = size /\ exists k data, blocks_in (heard g) k data /\ sunk g = take (Z.to_nat size) data)
    (receive_with crc16 usize_max config fuel) (mkGhost [] [] None).
Proof.
  intros Hm. unfold receive_with. apply always_bind, always_first_control. intros b. apply always_bind.
  eapply always_mono; [|by apply always_header_loop]. intros size g (Hsz & Hs & m & Ha & Hf).
  apply always_bind, always_next_byte. intros c. apply always_bind.
  eapply always_mono; [|apply (always_data_loop fuel size c (heard g) 1 0 0)]; [| lia|done|].
  2: { exists 0, []. split; [|by rewrite take_nil; cbn; rewrite Hs]. rewrite <- (app_nil_l (heard g)). apply Later, NoBlocks. }
  intros _ g1 (Ha1 & k & data & Hb & Hd & Hl). apply always_bind, always_next_byte. intros c2. apply always_bind.
  eapply always_mono; [|apply always_final_loop]. intros _ g2 (Ha2 & [gap Hg2] & Hs2). cbn in *. split; [done|].
  split; [exists m; split; [congruence|done]|]. rewrite Hs2. split; [done|]. exists k, data. split; [|done].
  rewrite Hg2, <- app_assoc. by apply Later.
Qed.
End Receiver.

(** C24: Only verified data reaches the output. Whatever the transport delivers, the sink does and
    the caller decides: a receive that succeeds has agreed on metadata with the size it
    answers and has written exactly that many bytes, and they are the beginning of the data
    of blocks 1, 2, 3, ... (numbered modulo 256), each heard complete, in that order, with
    its number, its complement and its checksum in agreement. *)
Theorem receiver_output_verified {Er S} (crc16 : list Z -> Z) (usize_max : Z) (config : Config) (fuel : nat)
    (handle : forall q, S -> option (Answer (Er := Er) q * S)) (s s' : S) (size : Z) (g : Ghost) :
  0 <= usize_max ->
  exec (fun q '(s, g) => '(r, s) ← handle q s; Some (r, (s, observe q r g)))
    (receive_with crc16 usize_max config fuel) (s, mkGhost [] [] None) = (Ret size, (s', g)) ->
  (exists m, agreed g = Some m /\ file_size m = size) /\ Z.of_nat (length (sunk g)) = size /\
  exists n data, blocks_in crc16 (heard g) n data /\ sunk g = take (Z.to_nat size) data.
Proof.
  intros Hm He. pose proof (always_receive (Er := Er) crc16 usize_max config fuel Hm) as H.
  by pose proof (always_exec observe handle _ _ _ s _ s' g H He) as (_ & Ha & Hl & Hb).
Qed.

(** ** Fuel *)

Section Fuel.
Context {Er : Type} (crc16 : list Z -> Z) (usize_max : Z) (config : Config) (fuel : nat).

Definition is_read (q : Query) : bool := match q with QRead => true | _ => false end.
Notation Proc := (Proc (Answer (Er := Er))).
Notation unstuck := (unstuck (R := Answer (Er := Er)) is_read).
Notation asks := (asks (R := Answer (Er := Er)) is_read).

Lemma unstuck_read {X} f m : (m < f)%nat -> unstuck m (read_byte (X := X) f).
Proof.
  revert m. induction f as [|f IH]; intros m Hm; [lia|]. destruct m as [|m]; [done|]. intros [b| | | |e]; try done. apply IH. lia.
Qed.
Lemma asks_read {X} f : asks (read_byte (X := X) f).
Proof. by destruct f. Qed.

Lemma asks_bind {X A B} (p : Proc X A) (k : A -> Proc X B) : asks p -> asks (p ≫= k).
Proof. induction p as [a|x| |q next IH]; cbn; try done. intros H. destruct (is_read q); [done|]. intros r. by apply IH. Qed.
Lemma asks_bind_r {X A B} (p : Proc X A) (k : A -> Proc X B) : (forall a, asks (k a)) -> asks (p ≫= k).
Proof. intros H. induction p as [a|x| |q next IH]; cbn; try done. by destruct (is_read q). Qed.

Lemma unstuck_try {X} m q (err : Er -> X) : unstuck m (try_ q err).
Proof. destruct q; try done; intros [x|]; done. Qed.
Lemma unstuck_lift {A} m (r : A + ReadByteError) : unstuck m (lift_read r).
Proof. by destruct r as [a|[]]. Qed.
Lemma unstuck_control m bs : unstuck m (send_control bs).
Proof. apply unstuck_bind; [apply unstuck_try|intros; apply unstuck_try]. Qed.
Lemma unstuck_next m : (m < fuel)%nat -> unstuck m (next_byte fuel).
Proof. intros H. apply unstuck_bind; [by apply unstuck_read|intros; apply unstuck_lift]. Qed.
Lemma asks_next : asks (next_byte fuel).
Proof. apply asks_bind, asks_read. Qed.
Lemma unstuck_give_up {A} m (x : Error) : unstuck m (cancel ;; Fail_ x : Proc Error A).
Proof. apply unstuck_bind; [apply unstuck_control|done]. Qed.
Lemma unstuck_reject m r : unstuck m (reject config r).
Proof. unfold reject. destruct (_ <? _); [apply unstuck_give_up|]. apply unstuck_bind; [apply unstuck_control|done]. Qed.
Lemma unstuck_block {X} m n : (m < fuel)%nat -> unstuck m (read_bytes (X := X) fuel n).
Proof.
  revert m. induction n as [|n IH]; intros m Hm; [done|]. apply unstuck_bind; [by apply unstuck_read|].
  intros [b|e] m' Hm'; [|done]. apply unstuck_bind; [apply IH; lia|]. by intros [bs|e] m2 _.
Qed.

(** A turn that ends with the next byte. *)
Lemma unstuck_again {A} m (p : Proc Error A) (k : A -> Z -> Proc Error ()) :
  (m < fuel)%nat -> unstuck m p -> (forall a c m', (m' < m)%nat -> unstuck m' (k a c)) ->
  unstuck m (a ← p; c ← next_byte fuel; k a c).
Proof.
  intros Hm Hp Hk. apply unstuck_bind; [done|]. intros a m' Hm'. apply unstuck_turn; [apply unstuck_next; lia|apply asks_next|].
  intros c m2 Hm2. apply Hk. lia.
Qed.
Lemma unstuck_again_Z {A} m (p : Proc Error A) (k : A -> Z -> Proc Error Z) :
  (m < fuel)%nat -> unstuck m p -> (forall a c m', (m' < m)%nat -> unstuck m' (k a c)) ->
  unstuck m (a ← p; c ← next_byte fuel; k a c).
Proof.
  intros Hm Hp Hk. apply unstuck_bind; [done|]. intros a m' Hm'. apply unstuck_turn; [apply unstuck_next; lia|apply asks_next|].
  intros c m2 Hm2. apply Hk. lia.
Qed.

Lemma unstuck_first m n : (m < fuel)%nat -> unstuck m (first_control fuel n).
Proof.
  revert m. induction n as [|n IH]; intros m Hm; [done|]. apply unstuck_bind; [apply unstuck_control|]. intros _ m1 H1.
  apply unstuck_bind; [apply unstuck_read; lia|]. intros [b|[]] m2 H2; try done. apply IH. lia.
Qed.

Lemma unstuck_header n m control r : (m < n)%nat -> (m < fuel)%nat -> unstuck m (header_loop crc16 usize_max config fuel n control r).
Proof.
  revert m control r. induction n as [|n IH]; intros m control r Hn Hm; [lia|]. cbn [header_loop].
  destruct (control =? CAN); [done|].
  destruct (block_size control) as [size|]; [|apply unstuck_again_Z; [done|apply unstuck_reject|intros; apply IH; lia]].
  apply unstuck_bind; [by apply unstuck_block|]. intros b m1 H1. apply unstuck_bind; [apply unstuck_lift|]. intros frame m2 H2.
  destruct (negb _ || _); [apply unstuck_again_Z; [lia|apply unstuck_reject|intros; apply IH; lia]|].
  destruct (parse_metadata _ _) as [md|]; [|apply unstuck_give_up]. intros [e|]; [apply unstuck_give_up|].
  intros [e|]; [done|]. intros [e|]; [done|]. by intros [e|].
Qed.

Lemma unstuck_data_block m metadata frame size e w r : unstuck m (data_block crc16 config metadata frame size e w r).
Proof.
  unfold data_block. destruct (negb _); [apply unstuck_bind; [apply unstuck_reject|done]|].
  destruct (_ =? e).
  - destruct (_ <=? _); [apply unstuck_give_up|]. intros [x|]; [apply unstuck_give_up|]. apply unstuck_bind; [apply unstuck_control|done].
  - destruct (_ =? _); [apply unstuck_bind; [apply unstuck_control|done]|apply unstuck_bind; [apply unstuck_reject|done]].
Qed.

Lemma unstuck_end m metadata w : (m < fuel)%nat -> unstuck m (end_of_file fuel metadata w).
Proof.
  intros Hm. unfold end_of_file. destruct (negb _); [apply unstuck_give_up|]. intros [x|]; [apply unstuck_give_up|].
  apply unstuck_bind; [apply unstuck_control|]. intros _ m1 H1. apply unstuck_bind; [apply unstuck_next; lia|]. intros c m2 H2.
  destruct (negb _); [apply unstuck_give_up|]. intros [e|]; [done|]. intros [e|]; [done|]. by intros [e|].
Qed.

Lemma unstuck_data n m metadata control e w r :
  (m < n)%nat -> (m < fuel)%nat -> unstuck m (data_loop crc16 config fuel n metadata control e w r).
Proof.
  revert m control e w r. induction n as [|n IH]; intros m control e w r Hn Hm; [lia|]. cbn [data_loop].
  destruct (control =? CAN); [done|]. destruct (control =? EOT); [by apply unstuck_end|].
  destruct (block_size control) as [size|]; [|apply unstuck_again; [done|apply unstuck_reject|intros; apply IH; lia]].
  apply unstuck_bind; [by apply unstuck_block|]. intros b m1 H1. apply unstuck_bind; [apply unstuck_lift|]. intros frame m2 H2.
  apply unstuck_bind; [apply unstuck_data_block|]. intros [[e' w'] r'] m3 H3.
  apply unstuck_turn; [apply unstuck_next; lia|apply asks_next|]. intros c m4 H4. apply IH; lia.
Qed.

Lemma unstuck_final n m control r : (m < n)%nat -> (m < fuel)%nat -> unstuck m (final_loop crc16 config fuel n control r).
Proof.
  revert m control r. induction n as [|n IH]; intros m control r Hn Hm; [lia|]. cbn [final_loop].
  destruct (control =? CAN); [done|].
  destruct (block_size control) as [size|]; [|apply unstuck_again; [done|apply unstuck_reject|intros; apply IH; lia]].
  apply unstuck_bind; [by apply unstuck_block|]. intros b m1 H1. apply unstuck_bind; [apply unstuck_lift|]. intros frame m2 H2.
  destruct (_ && _ && _); [apply unstuck_control|]. apply unstuck_again; [lia|apply unstuck_reject|intros; apply IH; lia].
Qed.

Lemma unstuck_receive m : (m < fuel)%nat -> unstuck m (receive_with crc16 usize_max config fuel).
Proof.
  intros Hm. apply unstuck_bind; [by apply unstuck_first|]. intros c m1 H1. apply unstuck_bind; [apply unstuck_header; lia|].
  intros size m2 H2. apply unstuck_bind; [apply unstuck_next; lia|]. intros c2 m3 H3.
  apply unstuck_bind; [apply unstuck_data; lia|]. intros _ m4 H4. apply unstuck_bind; [apply unstuck_next; lia|]. intros c3 m5 H5.
  apply unstuck_bind; [apply unstuck_final; lia|done].
Qed.

(** *** The sender *)

Lemma unstuck_wait n m t : (m < n)%nat -> (m < fuel)%nat -> unstuck m (wait_loop config fuel n t).
Proof.
  revert m t. induction n as [|n IH]; intros m t Hn Hm; [lia|]. cbn [wait_loop].
  apply unstuck_turn; [by apply unstuck_read|apply asks_read|]. intros [b|[]] m' Hm'; try done.
  - destruct (b =? CRC_REQUEST); [done|]. destruct (b =? CAN); [done|].
    apply unstuck_bind; [apply unstuck_try|]. intros _ m2 H2. apply IH; lia.
  - destruct (_ <=? _)%nat; [done|]. apply IH; lia.
Qed.
Lemma unstuck_wait_crc m : (m < fuel)%nat -> unstuck m (wait_for_crc_request config fuel).
Proof. intros Hm. unfold wait_for_crc_request. destruct (_ =? _)%nat; [done|]. by apply unstuck_wait. Qed.

Lemma packet_writes {A} m (prefix data crc : list Z) (k : () -> Proc SendError A) :
  (forall m', (m' <= m)%nat -> unstuck m' (k ())) ->
  unstuck m (try_ (QWrite prefix) SIo ;; try_ (QWrite data) SIo ;; try_ (QWrite crc) SIo ;; (try_ QFlush SIo ≫= k)).
Proof.
  intros Hk. apply unstuck_bind; [apply unstuck_try|]. intros _ m1 H1. apply unstuck_bind; [apply unstuck_try|]. intros _ m2 H2.
  apply unstuck_bind; [apply unstuck_try|]. intros _ m3 H3. apply unstuck_bind; [apply unstuck_try|]. intros [] m4 H4. apply Hk. lia.
Qed.

Lemma unstuck_packet n m prefix data crc r : (m < n)%nat -> (m < fuel)%nat -> unstuck m (packet_loop config fuel n prefix data crc r).
Proof.
  revert m r. induction n as [|n IH]; intros m r Hn Hm; [lia|]. cbn [packet_loop].
  apply (packet_writes m prefix data crc (fun _ => _)). intros m' Hm'.
  apply unstuck_turn; [apply unstuck_read; lia|apply asks_read|]. intros [b|[]] m2 H2; try done.
  - destruct (b =? ACK); [done|]. destruct (b =? NAK); [|by destruct (b =? CAN)]. destruct (_ <=? _); [done|]. apply IH; lia.
  - destruct (_ <=? _); [done|]. apply IH; lia.
Qed.

Lemma asks_packet n prefix data crc r : asks (packet_loop config fuel n prefix data crc r).
Proof.
  destruct n; [done|]. cbn [packet_loop]. do 4 (apply asks_bind_r; intros _). apply asks_bind, asks_read.
Qed.

Lemma unstuck_fill m n wanted used data : (wanted <= n + used)%nat -> unstuck m (fill n wanted used data).
Proof.
  revert m used data. induction n as [|n IH]; intros m used data Hn; cbn [fill].
  - destruct (Nat.ltb_spec used wanted); [lia|done].
  - destruct (Nat.ltb_spec used wanted) as [Hlt|]; [|done]. apply (unstuck_bind _ _ (ask (QSource (wanted - used)))); [done|].
    intros [count bytes|e] m' _; [|done].
    destruct (Nat.eqb_spec count 0); [done|]. destruct (Nat.ltb_spec (wanted - used) count); [done|]. apply IH. lia.
Qed.

Lemma unstuck_blocks n m size sent b : (m < n)%nat -> (m < fuel)%nat -> unstuck m (blocks_loop crc16 config fuel n size sent b).
Proof.
  revert m sent b. induction n as [|n IH]; intros m sent b Hn Hm; [lia|]. cbn [blocks_loop]. destruct (sent <? size); [|done].
  apply unstuck_bind; [apply unstuck_fill; unfold BLOCK_SIZE; lia|]. intros data m1 H1.
  apply unstuck_turn; [apply unstuck_packet; lia|apply asks_packet|]. intros _ m2 H2.
  apply unstuck_bind; [apply unstuck_try|]. intros _ m3 H3. apply IH; lia.
Qed.

Lemma unstuck_expect m c : (m < fuel)%nat -> unstuck m (expect_control fuel c).
Proof.
  intros Hm. apply unstuck_bind; [by apply unstuck_read|]. intros [b|[]] m1 H1; try done.
  destruct (b =? c); [done|]. by destruct (b =? CAN).
Qed.
Lemma unstuck_write_control m b : unstuck m (write_control b).
Proof. apply unstuck_bind; [apply unstuck_try|intros; apply unstuck_try]. Qed.

Lemma unstuck_send m md : (m < fuel)%nat -> unstuck m (send_with crc16 config fuel md).
Proof.
  intros Hm. unfold send_with. destruct (metadata_block md) as [header|e]; [|done].
  apply unstuck_bind; [apply unstuck_try|]. intros _ m1 H1. apply unstuck_bind; [apply unstuck_wait_crc; lia|]. intros _ m2 H2.
  apply unstuck_bind; [apply unstuck_packet; lia|]. intros _ m3 H3. apply unstuck_bind; [apply unstuck_wait_crc; lia|]. intros _ m4 H4.
  apply unstuck_bind; [apply unstuck_blocks; lia|]. intros _ m5 H5. apply unstuck_bind; [apply unstuck_write_control|]. intros _ m6 H6.
  apply unstuck_bind; [apply unstuck_expect; lia|]. intros _ m7 H7. apply unstuck_bind; [apply unstuck_write_control|]. intros _ m8 H8.
  apply unstuck_bind; [apply unstuck_expect; lia|]. intros _ m9 H9. apply unstuck_bind; [apply unstuck_wait_crc; lia|]. intros _ m10 H10.
  apply unstuck_bind; [apply unstuck_packet; lia|]. intros _ m11 H11. apply unstuck_bind; [apply unstuck_try|done].
Qed.
End Fuel.

(** Both protocols end with their input. Every loop of the sender and of the receiver reads
    from the transport at each turn: in an environment with a finite number of answers to
    reads, whatever they are, a run with more fuel than that never runs out of it; it
    returns, fails with an error of the protocol, or waits for the next byte. *)
Theorem ymodem_ends_with_input {Er S} (crc16 : list Z -> Z) (usize_max : Z) (config : Config) (fuel : nat)
    (handle : forall q, S -> option (Answer (Er := Er) q * S)) (left : S -> nat) (s : S) (m : Metadata) :
  (forall q s r s', handle q s = Some (r, s') -> (left s' + (if is_read q then 1 else 0) <= left s)%nat) ->
  (left s < fuel)%nat ->
  fst (exec handle (receive_with crc16 usize_max config fuel) s) <> Stuck /\
  fst (exec handle (send_with crc16 config fuel m) s) <> Stuck.
Proof.
  intros Hh Hl. split; apply (unstuck_exec is_read handle left); try done; [by apply unstuck_receive|by apply unstuck_send].
Qed.

(** ** Witnesses *)

Lemma metadata_round_trip_witness :
  match metadata_block (Er := Empty_set) (mkMetadata [98; 46; 98; 105; 110] 1025) with
  | inl block => parse_metadata u64_max block = Some (mkMetadata [98; 46; 98; 105; 110] 1025)
  | inr _ => False
  end.
Proof.
  pose proof (metadata_round_trip (Er := Empty_set) u64_max (mkMetadata [98; 46; 98; 105; 110] 1025)
    ltac:(cbn; unfold u64_max; lia) ltac:(done)) as H.
  assert (E : match metadata_block (Er := Empty_set) (mkMetadata [98; 46; 98; 105; 110] 1025) with inl _ => True | inr _ => False end)
    by (vm_compute; exact I).
  destruct (metadata_block _) as [block|e]; [apply H|destruct E].
Defined.

(** CRC-16/XMODEM, bit by bit. *)
Definition crc_bit (crc : Z) : Z := if Z.testbit crc 15 then Z.lxor (Z.shiftl crc 1 mod 65536) 4129 else Z.shiftl crc 1 mod 65536.
Definition crc_byte (crc byte : Z) : Z := Nat.iter 8 crc_bit (Z.lxor crc (Z.shiftl byte 8)).
Definition crc_xmodem (bytes : list Z) : Z := foldl crc_byte 0 bytes mod 65536.

(** A cheaper checksum. *)
Definition byte_sum (bytes : list Z) : Z := foldl Z.add 0 bytes mod 65536.

(** A transport that delivers a list of bytes and takes everything else. *)
Definition scripted (q : Query) (s : list Z) : option (Answer (Er := Empty_set) q * list Z) :=
  match q return option (Answer q * list Z) with
  | QRead => match s with [] => None | b :: s => Some (EvByte b, s) end
  | QSource _ => Some (SourceRead 0 [], s)
  | QWrite _ | QFlush | QSink _ | QSinkFlush | QMeta _ | QNotify _ => Some (None, s)
  end.

Definition demo_packet (control n : Z) (data : list Z) : list Z :=
  [control; n; 255 - n] ++ data ++ be_bytes 2 (byte_sum data).
Definition pad_to (n : nat) (l : list Z) : list Z := l ++ replicate (n - length l) 26.

(** The header of [a], two bytes long, a first block spoiled and sent again, and the end. *)
Definition demo_input : list Z :=
  demo_packet 1 0 (97 :: 0 :: 50 :: replicate 125 0) ++
  demo_packet 1 1 (pad_to 128 [104; 106]) ++
  demo_packet 1 7 (pad_to 128 [104; 105]) ++ demo_packet 1 1 (pad_to 128 [104; 105]) ++ [4; 4] ++ demo_packet 1 0 (replicate 128 0).
Definition demo_spoiled : list Z := <[5%nat := 3]> (drop 133 demo_input).

Definition demo_run := exec (fun q '(s, g) => '(r, s) ← scripted q s; Some (r, (s, observe q r g)))
  (receive_with byte_sum u64_max config_default 40) (take 133 demo_input ++ demo_spoiled, mkGhost [] [] None).

Lemma receiver_output_verified_witness :
  fst demo_run = Ret 2 /\ sunk (snd (snd demo_run)) = [104; 105] /\
  exists n data, blocks_in byte_sum (heard (snd (snd demo_run))) n data /\ [104; 105] = take 2 data.
Proof.
  assert (E : fst demo_run = Ret 2) by (vm_compute; reflexivity).
  assert (Es : sunk (snd (snd demo_run)) = [104; 105]) by (vm_compute; reflexivity).
  destruct demo_run as [p [s g]] eqn:Er. cbn [fst snd] in *. subst p. unfold demo_run in Er.
  pose proof (receiver_output_verified byte_sum u64_max config_default 40 scripted (take 133 demo_input ++ demo_spoiled) s 2 g
    ltac:(done) Er) as (_ & _ & H).
  split; [done|]. split; [exact Es|]. by rewrite <- Es.
Defined.

Lemma ymodem_ends_with_input_witness :
  fst (exec scripted (receive_with byte_sum u64_max config_default 7) [1; 2; 3; 21; 4; 24]) <> Stuck.
Proof.
  apply (ymodem_ends_with_input byte_sum u64_max config_default 7 scripted length [1; 2; 3; 21; 4; 24] (mkMetadata [97] 0)); [|cbn; lia].
  intros q s r s'. destruct q; cbn; intros H; try (injection H as <- <-; lia). destruct s; [done|]. injection H as <- <-. cbn. lia.
Defined.
