(* ===== verification/YmodemPair.v ===== *)
(** * A YMODEM transfer from end to end

    The sender and the receiver joined by two reliable queues of bytes, each run to its next
    wait in turn. *)

From S2P Require Import Prelude Proc Ymodem.
Local Open Scope Z_scope.

(** What an endpoint has of its environment; [serve] is how many bytes the source gives for
    a buffer. *)
Record World := mkWorld { inbox : list Z; outbox : list Z; sink : list Z; source : list Z }.

Section Pair.
Context {Er : Type} (crc16 : list Z -> Z) (usize_max : Z) (config : Config) (serve : nat -> nat).
Notation Proc := (Proc (Answer (Er := Er))).
Notation SendError := (SendError (Er := Er)).
Notation Error := (Error (Er := Er)).

Definition handle (q : Query) (w : World) : option (Answer (Er := Er) q * World) :=
  match q return option (Answer q * World) with
  | QRead =>
      match inbox w with
      | [] => None
      | b :: rest => Some (EvByte b, mkWorld rest (outbox w) (sink w) (source w))
      end
  | QWrite bytes => Some (None, mkWorld (inbox w) (outbox w ++ bytes) (sink w) (source w))
  | QSink bytes => Some (None, mkWorld (inbox w) (outbox w) (sink w ++ bytes) (source w))
  | QSource n =>
      let count := Nat.min (serve n) (length (source w)) in
      Some (SourceRead count (take count (source w)), mkWorld (inbox w) (outbox w) (sink w) (drop count (source w)))
  | QFlush | QSinkFlush | QMeta _ | QNotify _ => Some (None, w)
  end.
Notation run := (exec handle).

Definition give (bytes : list Z) (w : World) : World := mkWorld (inbox w ++ bytes) [] (sink w) (source w).

Record Exchange := mkExchange {
  sender : Proc SendError Z;
  at_sender : World;
  receiver : Proc Error Z;
  at_receiver : World;
}.

(** The sender runs until it waits, then the receiver, each on what the other has sent. *)
Definition round (st : Exchange) : Exchange :=
  let '(s, ws) := run (sender st) (at_sender st) in
  let '(r, wr) := run (receiver st) (give (outbox ws) (at_receiver st)) in
  mkExchange s (give (outbox wr) (mkWorld (inbox ws) [] (sink ws) (source ws))) r (mkWorld (inbox wr) [] (sink wr) (source wr)).

Definition transfer_start (fuel : nat) (m : Metadata) (file : list Z) : Exchange :=
  mkExchange (send_with crc16 config fuel m) (mkWorld [] [] [] file)
    (receive_with crc16 usize_max config fuel) (mkWorld [] [] [] []).
Definition transfer (rounds fuel : nat) (m : Metadata) (file : list Z) : Exchange :=
  Nat.iter rounds round (transfer_start fuel m file).

(** ** Runs of the parts *)

Lemma run_read {X} f b rest w :
  inbox w = b :: rest -> run (read_byte (X := X) (S f)) w = (Ret (inl b), mkWorld rest (outbox w) (sink w) (source w)).
Proof. intros E. cbn. by rewrite E. Qed.
Lemma run_wait {X} f w : inbox w = [] -> run (read_byte (X := X) (S f)) w = (read_byte (S f), w).
Proof. intros E. cbn. by rewrite E. Qed.

Lemma run_bind_wait {X A B} (p : Proc X A) (k : A -> Proc X B) w w' p' :
  run p w = (p', w') -> (forall a, p' <> Ret a) -> run (p ≫= k) w = (p' ≫= k, w').
Proof. intros H Hn. rewrite exec_bind, H. destruct p'; try done. by destruct (Hn a). Qed.

Lemma run_write {X} bytes (err : Er -> X) w :
  run (try_ (QWrite bytes) err) w = (Ret (), mkWorld (inbox w) (outbox w ++ bytes) (sink w) (source w)).
Proof. done. Qed.
Lemma run_flush {X} (err : Er -> X) w : run (try_ QFlush err) w = (Ret (), w).
Proof. done. Qed.
Lemma run_notify {X} e (err : Er -> X) w : run (try_ (QNotify e) err) w = (Ret (), w).
Proof. done. Qed.
Lemma run_control bytes w : run (send_control bytes) w = (Ret (), mkWorld (inbox w) (outbox w ++ bytes) (sink w) (source w)).
Proof. done. Qed.
Lemma run_next f b rest w :
  inbox w = b :: rest -> run (next_byte (S f)) w = (Ret b, mkWorld rest (outbox w) (sink w) (source w)).
Proof. intros E. unfold next_byte. by rewrite (exec_bind_ret _ _ _ _ _ _ (run_read f b rest w E)). Qed.

Lemma run_read_bytes {X} f bs rest w :
  inbox w = bs ++ rest ->
  run (read_bytes (X := X) (S f) (length bs)) w = (Ret (inl bs), mkWorld rest (outbox w) (sink w) (source w)).
Proof.
  revert w. induction bs as [|b bs IH]; intros w E; cbn [length read_bytes].
  - cbn. destruct w. cbn in *. by subst.
  - rewrite (exec_bind_ret _ _ _ _ _ _ (run_read f b (bs ++ rest) w E)).
    by rewrite (exec_bind_ret _ _ _ _ _ _ (IH (mkWorld (bs ++ rest) (outbox w) (sink w) (source w)) eq_refl)).
Qed.

(** ** Packets *)

(** Two writes one after the other. *)
Lemma blit_blit (buf a b : list Z) start :
  (start + length a <= length buf)%nat -> blit (blit buf start a) (start + length a) b = blit buf start (a ++ b).
Proof.
  intros H. unfold blit. set (X := take start buf ++ a).
  assert (Hl : length X = (start + length a)%nat) by (unfold X; rewrite length_app, length_take; lia).
  replace (take start buf ++ a ++ drop (start + length a) buf) with (X ++ drop (start + length a) buf)
    by (unfold X; by rewrite <- app_assoc).
  rewrite take_app_le, take_ge by lia. rewrite drop_app_ge by lia. rewrite drop_drop, Hl, length_app.
  unfold X. rewrite <- !app_assoc. do 4 f_equal. lia.
Qed.

Context (Hcrc : forall bytes, 0 <= crc16 bytes < 65536).

(** A packet after its control byte. *)
Definition frame_of (block_number : Z) (data : list Z) : list Z :=
  [block_number; 255 - block_number] ++ data ++ be_bytes 2 (crc16 data).

Lemma frame_data_of n data : frame_data (frame_of n data) (length data) = data.
Proof. unfold frame_data. change (drop 2 (frame_of n data)) with (data ++ be_bytes 2 (crc16 data)). by rewrite take_app_length. Qed.

Lemma be_bytes_2 v : be_bytes 2 v = [v / 256 mod 256; v mod 256].
Proof. done. Qed.

Lemma valid_frame_of n data : valid_frame crc16 (frame_of n data) (length data) = true.
Proof.
  unfold valid_frame. rewrite frame_data_of. unfold frame_of. cbn [app nth Nat.add].
  rewrite !app_nth2 by lia. rewrite Nat.sub_diag. replace (S (length data) - length data)%nat with 1%nat by lia.
  rewrite be_bytes_2. cbn [nth]. rewrite Z.eqb_refl. cbn [andb]. apply Z.eqb_eq. specialize (Hcrc data). dlia.
Qed.

Lemma length_frame_of n data : length (frame_of n data) = (length data + 4)%nat.
Proof. unfold frame_of. rewrite !length_app, length_be_bytes. cbn. lia. Qed.

(** What [send_packet] writes before it waits for the answer. *)
Definition packet_tail (fuel n : nat) (prefix data crc : list Z) (retries : Z) (b : Z + ReadByteError) : Proc SendError () :=
  match b with
  | inl byte =>
      if byte =? ACK then Ret () else
      if byte =? NAK then
        if max_retries config <=? retries then Fail_ SProtocol
        else packet_loop config fuel n prefix data crc (sat_add u8_max retries 1)
      else if byte =? CAN then Fail_ SCancelled else Fail_ SProtocol
  | inr (ReadIo e) => Fail_ (SIo e)
  | inr ReadEof => Fail_ SEndOfStream
  | inr ReadTimeout =>
      if max_retries config <=? retries then Fail_ STimeout
      else packet_loop config fuel n prefix data crc (sat_add u8_max retries 1)
  end.

Lemma run_packet f control n data w :
  run (send_packet crc16 config (S f) control n data) w =
    run (read_byte (S f) ≫= packet_tail (S f) f (packet_prefix control n) data (be_bytes 2 (crc16 data)) 0)
      (mkWorld (inbox w) (outbox w ++ control :: frame_of n data) (sink w) (source w)).
Proof.
  unfold send_packet. cbn [packet_loop]. unfold packet_prefix.
  rewrite (exec_bind_ret _ _ _ _ _ _ (run_write _ _ w)). rewrite (exec_bind_ret _ _ _ _ _ _ (run_write _ _ _)).
  rewrite (exec_bind_ret _ _ _ _ _ _ (run_write _ _ _)). rewrite (exec_bind_ret _ _ _ _ _ _ (run_flush _ _)).
  cbn [inbox outbox sink source]. rewrite <- !app_assoc. done.
Qed.

Lemma run_acked f n prefix data crc r i w :
  inbox w = ACK :: i -> run (read_byte (S f) ≫= packet_tail (S f) n prefix data crc r) w = (Ret (), mkWorld i (outbox w) (sink w) (source w)).
Proof. intros E. rewrite (exec_bind_ret _ _ _ _ _ _ (run_read f ACK i w E)). done. Qed.

Lemma run_bind_eq {X A B} (p p' : Proc X A) (k : A -> Proc X B) w w' :
  run p w = run p' w' -> run (p ≫= k) w = run (p' ≫= k) w'.
Proof.
  intros E. rewrite !exec_bind, E. done.
Qed.

(** *** The receiver *)

Section Sides.
Context (f : nat).
Notation fuel := (S f).

Lemma run_next_wait {A} (k : Z -> Proc Error A) w :
  inbox w = [] -> run (next_byte fuel ≫= k) w = (next_byte fuel ≫= k, w).
Proof.
  intros E. apply run_bind_wait; [|done]. unfold next_byte. apply run_bind_wait; [|done]. by apply run_wait.
Qed.
Lemma run_next_bind {A} b i (k : Z -> Proc Error A) w :
  inbox w = b :: i -> run (next_byte fuel ≫= k) w = run (k b) (mkWorld i (outbox w) (sink w) (source w)).
Proof. intros E. by rewrite (exec_bind_ret _ _ _ _ _ _ (run_next f b i w E)). Qed.

Definition final_wait : Proc Error () := control ← next_byte fuel; final_loop crc16 config fuel fuel control 0.
Definition receiver_tail (size : Z) : () -> Proc Error Z :=
  fun _ => control ← next_byte fuel; final_loop crc16 config fuel fuel control 0 ;; Ret size.
Definition data_wait (n : nat) (size expected written : Z) : Proc Error () :=
  control ← next_byte fuel; data_loop crc16 config fuel n size control expected written 0.
Definition end_wait : Proc Error () :=
  second ← next_byte fuel;
  if negb (second =? EOT) then cancel ;; Fail_ Protocol else
  try_ (QWrite [ACK]) Io ;; try_ (QWrite [CRC_REQUEST]) Io ;; try_ QFlush Io.

(** A block arrives complete. *)
Lemma run_block {A} size frame (k : list Z -> Proc Error A) out sk :
  length frame = (size + 4)%nat ->
  run (r ← read_block fuel size; frame ← lift_read r; k frame) (mkWorld frame out sk []) = run (k frame) (mkWorld [] out sk []).
Proof.
  intros Hl. unfold read_block. rewrite <- Hl.
  rewrite (exec_bind_ret _ _ _ _ (inl frame) (mkWorld [] out sk [])); [done|].
  by rewrite (run_read_bytes f frame []) by (by rewrite app_nil_r).
Qed.

Lemma run_data_block n size e written data sk :
  length data = BLOCK_SIZE -> 0 <= e <= 255 -> written < size ->
  run (data_wait (S n) size e written) (mkWorld (STX :: frame_of e data) [] sk []) =
    run (data_wait n size (wrap_add u8_max e 1) (written + Z.min (size - written) 1024))
      (mkWorld [] [ACK] (sk ++ take (Z.to_nat (Z.min (size - written) 1024)) data) []).
Proof.
  intros Hl He Hw. unfold data_wait at 1. rewrite (run_next_bind STX (frame_of e data)) by done.
  cbn [data_loop outbox sink source]. change (STX =? CAN) with false. change (STX =? EOT) with false.
  change (block_size STX) with (Some BLOCK_SIZE). cbv iota beta.
  rewrite run_block by (by rewrite length_frame_of, Hl).
  unfold data_block. rewrite <- Hl, valid_frame_of, Hl. cbn [negb]. change (frame_block (frame_of e data)) with e. rewrite Z.eqb_refl.
  rewrite (proj2 (Z.leb_gt _ _)) by lia. change (Z.of_nat BLOCK_SIZE) with 1024.
  set (count := Z.min (size - written) 1024).
  assert (Htake : take (Z.to_nat count) (drop 2 (frame_of e data)) = take (Z.to_nat count) data).
  { change (drop 2 (frame_of e data)) with (data ++ be_bytes 2 (crc16 data)). apply take_app_le. rewrite Hl. unfold count, BLOCK_SIZE. lia. }
  rewrite Htake. reflexivity.
Qed.

Lemma run_eot n size e sk :
  run (data_wait (S n) size e size) (mkWorld [EOT] [] sk []) = run end_wait (mkWorld [] [NAK] sk []).
Proof.
  unfold data_wait. rewrite (run_next_bind EOT []) by done. cbn [data_loop outbox sink source].
  change (EOT =? CAN) with false. change (EOT =? EOT) with true. cbv iota. unfold end_of_file. rewrite Z.eqb_refl. reflexivity.
Qed.

Lemma run_eot_again sk : run end_wait (mkWorld [EOT] [] sk []) = (Ret (), mkWorld [] [ACK; CRC_REQUEST] sk []).
Proof. unfold end_wait. by rewrite (run_next_bind EOT []) by done. Qed.

Lemma run_final size sk :
  run (receiver_tail size ()) (mkWorld (SOH :: frame_of 0 (replicate HEADER_BLOCK_SIZE 0)) [] sk []) = (Ret size, mkWorld [] [ACK] sk []).
Proof.
  unfold receiver_tail. rewrite (run_next_bind SOH (frame_of 0 (replicate HEADER_BLOCK_SIZE 0))) by done.
  rewrite (exec_bind_ret _ _ _ _ () (mkWorld [] [ACK] sk [])); [done|]. cbn [final_loop outbox sink source].
  change (SOH =? CAN) with false. change (block_size SOH) with (Some HEADER_BLOCK_SIZE). cbv iota beta.
  rewrite run_block by by rewrite length_frame_of, length_replicate.
  pose proof (valid_frame_of 0 (replicate HEADER_BLOCK_SIZE 0)) as Hv. rewrite length_replicate in Hv. rewrite Hv.
  pose proof (frame_data_of 0 (replicate HEADER_BLOCK_SIZE 0)) as Hd. rewrite length_replicate in Hd. rewrite Hd.
  reflexivity.
Qed.

(** The receiver, waiting for the first byte. *)
Definition first_wait (r : nat) : Proc Error Z :=
  b ← read_byte fuel;
  match b with
  | inl byte => Ret byte
  | inr ReadTimeout => first_control fuel r
  | inr ReadEof => Fail_ EndOfStream
  | inr (ReadIo e) => Fail_ (Io e)
  end.
Definition data_start (size : Z) : Proc Error Z :=
  control ← next_byte fuel; (data_loop crc16 config fuel fuel size control 1 0 0 ≫= receiver_tail size).
Definition header_start (control : Z) : Proc Error Z :=
  metadata ← header_loop crc16 usize_max config fuel fuel control 0; data_start metadata.

Lemma run_receive_start r :
  start_retries config = S r ->
  run (receive_with crc16 usize_max config fuel) (mkWorld [] [] [] []) = (first_wait r ≫= header_start, mkWorld [] [CRC_REQUEST] [] []).
Proof. intros E. unfold receive_with. rewrite E. reflexivity. Qed.

Lemma run_header r header m :
  length header = HEADER_BLOCK_SIZE -> parse_metadata usize_max header = Some m ->
  run (first_wait r ≫= header_start) (mkWorld (SOH :: frame_of 0 header) [] [] []) =
    run (data_start (file_size m)) (mkWorld [] [ACK; CRC_REQUEST] [] []).
Proof.
  intros Hl Hm. unfold first_wait.
  rewrite (exec_bind_ret _ _ _ _ SOH (mkWorld (frame_of 0 header) [] [] [])) by done. unfold header_start.
  rewrite (exec_bind_ret _ _ _ _ (file_size m) (mkWorld [] [ACK; CRC_REQUEST] [] [])); [done|]. cbn [header_loop].
  change (SOH =? CAN) with false. change (block_size SOH) with (Some HEADER_BLOCK_SIZE). cbv iota beta.
  rewrite run_block by by rewrite length_frame_of, Hl.
  pose proof (valid_frame_of 0 header) as Hv. rewrite Hl in Hv. rewrite Hv.
  pose proof (frame_data_of 0 header) as Hd. rewrite Hl in Hd. rewrite Hd, Hm. reflexivity.
Qed.

(** *** The sender *)

Lemma run_crc_request i out sk src :
  start_retries config <> 0%nat ->
  run (wait_for_crc_request config fuel) (mkWorld (CRC_REQUEST :: i) out sk src) = (Ret (), mkWorld i out sk src).
Proof. intros Hs. unfold wait_for_crc_request. rewrite (proj2 (Nat.eqb_neq _ _) Hs). reflexivity. Qed.

Lemma run_expect c i out sk src :
  run (expect_control fuel c) (mkWorld (c :: i) out sk src) = (Ret (), mkWorld i out sk src).
Proof.
  unfold expect_control. rewrite (exec_bind_ret _ _ _ _ (inl c) (mkWorld i out sk src)) by done. by rewrite Z.eqb_refl.
Qed.

Context (Hserve : forall n, (0 < n)%nat -> (1 <= serve n <= n)%nat).

Lemma run_source {A} n (k : SourceEvent Er -> Proc SendError A) w :
  run ((ask (QSource n) : Proc SendError (SourceEvent Er)) ≫= k) w =
    let count := Nat.min (serve n) (length (source w)) in
    run (k (SourceRead count (take count (source w)))) (mkWorld (inbox w) (outbox w) (sink w) (drop count (source w))).
Proof. done. Qed.

(** The source fills the buffer. *)
Lemma run_fill n wanted used data chunk rest out :
  length chunk = (wanted - used)%nat -> (used <= wanted)%nat -> (wanted <= n + used)%nat -> length data = BLOCK_SIZE -> (wanted <= BLOCK_SIZE)%nat ->
  run (fill n wanted used data) (mkWorld [] out [] (chunk ++ rest)) = (Ret (blit data used chunk), mkWorld [] out [] rest).
Proof.
  revert used data chunk. induction n as [|n IH]; intros used data chunk Hc Hu Hn Hd Hw; cbn [fill].
  - destruct (Nat.ltb_spec used wanted); [lia|]. destruct chunk; [|cbn in Hc; lia]. cbn.
    unfold blit. cbn. by rewrite Nat.add_0_r, take_drop.
  - destruct (Nat.ltb_spec used wanted) as [Hlt|].
    2: { destruct chunk; [|cbn in Hc; lia]. cbn. unfold blit. cbn. by rewrite Nat.add_0_r, take_drop. }
    specialize (Hserve (wanted - used) ltac:(lia)).
    set (count := Nat.min (serve (wanted - used)) (length (chunk ++ rest))).
    assert (Hcount : count = serve (wanted - used)) by (unfold count; rewrite length_app; lia).
    rewrite run_source. cbn [source inbox outbox sink]. fold count.
    rewrite (proj2 (Nat.eqb_neq count 0)) by lia. rewrite (proj2 (Nat.ltb_ge (wanted - used) count)) by lia.
    rewrite take_app_le, drop_app_le by lia. rewrite (take_ge (take count chunk)) by (rewrite length_take; lia).
    rewrite IH; [|rewrite length_drop; lia|lia|lia|by rewrite length_blit by (rewrite length_take; lia)|done].
    pose proof (blit_blit data (take count chunk) (drop count chunk) used) as Hb. rewrite take_drop, length_take, Nat.min_l in Hb by lia.
    by rewrite Hb by lia.
Qed.

(** The sender, waiting for the answer to a packet. *)
Definition packet_wait (control n : Z) (data : list Z) : Proc SendError () :=
  read_byte fuel ≫= packet_tail fuel f (packet_prefix control n) data (be_bytes 2 (crc16 data)) 0.

Lemma run_packet_wait {A} control n data (k : () -> Proc SendError A) out src :
  run (send_packet crc16 config fuel control n data ≫= k) (mkWorld [] out [] src) =
    (packet_wait control n data ≫= k, mkWorld [] (out ++ control :: frame_of n data) [] src).
Proof.
  apply run_bind_wait; [|done]. rewrite run_packet. cbn [inbox outbox sink source]. apply run_bind_wait; [by apply run_wait|done].
Qed.

Lemma run_packet_acked {A} control n data (k : () -> Proc SendError A) i src :
  run (packet_wait control n data ≫= k) (mkWorld (ACK :: i) [] [] src) = run (k ()) (mkWorld i [] [] src).
Proof. unfold packet_wait. rewrite (exec_bind_ret _ _ _ _ () (mkWorld i [] [] src)); [done|]. by rewrite (run_acked _ _ _ _ _ _ i). Qed.

(** One block of the file. *)
Definition padded (chunk : list Z) : list Z := chunk ++ replicate (BLOCK_SIZE - length chunk) PAD.

Lemma length_padded chunk : (length chunk <= BLOCK_SIZE)%nat -> length (padded chunk) = BLOCK_SIZE.
Proof. intros H. unfold padded. rewrite length_app, length_replicate. lia. Qed.

Definition after_block (n : nat) (size sent b : Z) : () -> Proc SendError () :=
  fun _ => try_ (QNotify (EvProgress sent size)) SObserver ;; blocks_loop crc16 config fuel n size sent b.

Lemma run_blocks {A} n size sent b chunk rest (k : () -> Proc SendError A) :
  sent < size -> Z.of_nat (length chunk) = Z.min (size - sent) 1024 ->
  run (blocks_loop crc16 config fuel (S n) size sent b ≫= k) (mkWorld [] [] [] (chunk ++ rest)) =
    ((packet_wait STX b (padded chunk) ≫= after_block n size (sent + Z.of_nat (length chunk)) (wrap_add u8_max b 1)) ≫= k,
     mkWorld [] (STX :: frame_of b (padded chunk)) [] rest).
Proof.
  intros Hs Hc. apply run_bind_wait; [|done]. cbn [blocks_loop]. rewrite (proj2 (Z.ltb_lt _ _) Hs).
  replace (Z.to_nat (Z.min (size - sent) (Z.of_nat BLOCK_SIZE))) with (length chunk) by (change (Z.of_nat BLOCK_SIZE) with 1024; lia).
  assert (Hle : (length chunk <= BLOCK_SIZE)%nat) by (unfold BLOCK_SIZE; lia).
  rewrite (exec_bind_ret _ _ _ _ (padded chunk) (mkWorld [] [] [] rest)).
  - apply (run_packet_wait STX b (padded chunk) (after_block n size (sent + Z.of_nat (length chunk)) (wrap_add u8_max b 1)) [] rest).
  - rewrite run_fill; [|lia|lia|lia|apply length_replicate|done]. do 2 f_equal. unfold blit, padded. cbn [take app Nat.add].
    by rewrite drop_replicate.
Qed.

(** *** Rounds *)

Lemma round_is s ws r sk s' o src' r' o' sk' :
  run s ws = (s', mkWorld [] o [] src') -> run r (mkWorld o [] sk []) = (r', mkWorld [] o' sk' []) ->
  round (mkExchange s ws r (mkWorld [] [] sk [])) = mkExchange s' (mkWorld o' [] [] src') r' (mkWorld [] [] sk' []).
Proof.
  intros Hs Hr. unfold round. cbn [sender at_sender receiver at_receiver]. rewrite Hs. cbn [outbox]. unfold give at 1. cbn [inbox sink source app].
  by rewrite Hr.
Qed.

Definition sender_end (size : Z) : () -> Proc SendError Z :=
  fun _ =>
    write_control EOT ;; expect_control fuel NAK ;; write_control EOT ;; expect_control fuel ACK ;;
    wait_for_crc_request config fuel ;;
    send_packet crc16 config fuel SOH 0 (replicate HEADER_BLOCK_SIZE 0) ;;
    try_ (QNotify (EvProgress size size)) SObserver ;;
    Ret size.

(** The sender is about to send the rest of the file, and the receiver waits for it. *)
Definition sending (st : Exchange) (n nr : nat) (size sent b : Z) (rest sk : list Z) : Prop :=
  at_receiver st = mkWorld [] [] sk [] /\
  run (sender st) (at_sender st) = run (blocks_loop crc16 config fuel n size sent b ≫= sender_end size) (mkWorld [] [] [] rest) /\
  forall c i, run (receiver st) (mkWorld (c :: i) [] sk []) =
    run (data_wait nr size b sent ≫= receiver_tail size) (mkWorld (c :: i) [] sk []).

Lemma data_round st n nr size sent b chunk rest sk :
  sending st (S n) (S nr) size sent b (chunk ++ rest) sk -> 0 <= b <= 255 -> sent < size ->
  Z.of_nat (length chunk) = Z.min (size - sent) 1024 ->
  sending (round st) n nr size (sent + Z.of_nat (length chunk)) (wrap_add u8_max b 1) rest (sk ++ chunk).
Proof.
  intros (Hwr & Hs & Hr) Hb Hlt Hc. destruct st as [s ws r wr]. cbn [sender at_sender receiver at_receiver] in *. subst wr.
  rewrite run_blocks in Hs by done. assert (Hle : (length chunk <= BLOCK_SIZE)%nat) by (unfold BLOCK_SIZE; lia).
  set (size' := sent + Z.of_nat (length chunk)) in *. set (b' := wrap_add u8_max b 1) in *.
  assert (Hrun : run r (mkWorld (STX :: frame_of b (padded chunk)) [] sk []) =
    (data_wait nr size b' size' ≫= receiver_tail size, mkWorld [] [ACK] (sk ++ chunk) [])).
  { rewrite Hr. rewrite (run_bind_eq _ _ _ _ _ (run_data_block nr size b sent (padded chunk) sk (length_padded chunk Hle) Hb Hlt)).
    replace (take (Z.to_nat (Z.min (size - sent) 1024)) (padded chunk)) with chunk.
    2: { unfold padded. rewrite take_app_le by lia. rewrite take_ge by lia. done. }
    rewrite <- Hc. fold size' b'. apply run_bind_wait; [|done]. unfold data_wait at 1. by apply run_next_wait. }
  rewrite (round_is _ _ _ _ _ _ _ _ _ _ Hs Hrun). split; [done|]. cbn [sender at_sender receiver at_receiver]. split; [|done].
  apply run_bind_eq. rewrite run_packet_acked. done.
Qed.

(** All of the file. *)
Lemma data_rounds q n nr st size sent b rest sk :
  sending st n nr size sent b rest sk -> 0 <= b <= 255 -> Z.of_nat (length rest) = size - sent ->
  (length rest <= BLOCK_SIZE * q)%nat -> (q <= n)%nat -> (q < nr)%nat ->
  exists k n' nr' b', sending (Nat.iter k round st) n' (S nr') size size b' [] (sk ++ rest).
Proof.
  revert n nr st sent b rest sk. induction q as [|q IH]; intros n nr st sent b rest sk Hst Hb Hl Hq Hn Hnr.
  all: destruct nr as [|nr]; [lia|]; destruct (decide (rest = [])) as [->|Hne].
  1, 3: rewrite app_nil_r; exists 0%nat, n, nr, b; cbn in Hl; by replace size with sent at 2 by lia.
  - destruct rest; [done|cbn in *; lia].
  - destruct n as [|n]; [lia|].
    set (wanted := Nat.min (length rest) BLOCK_SIZE). assert (Hpos : (0 < length rest)%nat) by (destruct rest; [done|cbn; lia]).
    assert (Hchunk : length (take wanted rest) = wanted) by (rewrite length_take; unfold wanted; lia).
    rewrite <- (take_drop wanted rest) in Hst.
    apply data_round in Hst; [|done|lia|rewrite Hchunk; unfold wanted, BLOCK_SIZE; lia]. rewrite Hchunk in Hst.
    destruct (IH n nr (round st) (sent + Z.of_nat wanted) (wrap_add u8_max b 1) (drop wanted rest) (sk ++ take wanted rest) Hst)
      as (k & n' & nr' & b' & Hend).
    + unfold wrap_add, u8_max. pose proof (Z.mod_pos_bound (b + 1) (255 + 1)). lia.
    + rewrite length_drop. unfold wanted, BLOCK_SIZE in *. lia.
    + rewrite length_drop. unfold wanted, BLOCK_SIZE in *. lia.
    + lia.
    + lia.
    + exists (S k), n', nr', b'. rewrite Nat.iter_succ_r. by rewrite <- app_assoc, take_drop in Hend.
Qed.

(** *** The ends of the transfer *)

Lemma run_expect_wait {A} c (k : () -> Proc SendError A) out src :
  run (expect_control fuel c ≫= k) (mkWorld [] out [] src) = (expect_control fuel c ≫= k, mkWorld [] out [] src).
Proof. apply run_bind_wait; [|done]. unfold expect_control. apply run_bind_wait; [by apply run_wait|done]. Qed.
Lemma run_expect_bind {A} c (k : () -> Proc SendError A) i src :
  run (expect_control fuel c ≫= k) (mkWorld (c :: i) [] [] src) = run (k ()) (mkWorld i [] [] src).
Proof. by rewrite (exec_bind_ret _ _ _ _ _ _ (run_expect c i [] [] src)). Qed.

Context (Hstart : start_retries config <> 0%nat).

Definition batch_end (size : Z) : () -> Proc SendError Z :=
  fun _ => wait_for_crc_request config fuel ;;
    send_packet crc16 config fuel SOH 0 (replicate HEADER_BLOCK_SIZE 0) ;;
    try_ (QNotify (EvProgress size size)) SObserver ;; Ret size.
Definition second_eot (size : Z) : () -> Proc SendError Z :=
  fun _ => write_control EOT ;; expect_control fuel ACK ;; batch_end size ().

Lemma end_rounds st n nr size b sk :
  sending st n (S nr) size size b [] sk ->
  exists w, Nat.iter 4 round st = mkExchange (Ret size) w (Ret size) (mkWorld [] [] sk []).
Proof.
  intros (Hwr & Hs & Hr). destruct st as [s ws r wr]. cbn [sender at_sender receiver at_receiver] in *. subst wr.
  (* the first EOT *)
  assert (Hs1 : run s ws = (expect_control fuel NAK ≫= second_eot size, mkWorld [] [EOT] [] [])).
  { rewrite Hs. rewrite (exec_bind_ret _ _ _ _ () (mkWorld [] [] [] [])).
    - unfold sender_end. rewrite (exec_bind_ret _ (write_control EOT) _ _ () (mkWorld [] [EOT] [] [])) by done. apply run_expect_wait.
    - destruct n; cbn [blocks_loop]; by rewrite Z.ltb_irrefl. }
  assert (Hr1 : run r (mkWorld [EOT] [] sk []) = (end_wait ≫= receiver_tail size, mkWorld [] [NAK] sk [])).
  { rewrite Hr, (run_bind_eq _ _ _ _ _ (run_eot nr size b sk)). apply run_bind_wait; [by apply run_next_wait|done]. }
  rewrite !Nat.iter_succ_r. rewrite (round_is _ _ _ _ _ _ _ _ _ _ Hs1 Hr1).
  (* the second *)
  assert (Hs2 : run (expect_control fuel NAK ≫= second_eot size) (mkWorld [NAK] [] [] []) = (expect_control fuel ACK ≫= batch_end size, mkWorld [] [EOT] [] [])).
  { rewrite run_expect_bind. unfold second_eot. rewrite (exec_bind_ret _ (write_control EOT) _ _ () (mkWorld [] [EOT] [] [])) by done.
    apply (run_expect_wait ACK (batch_end size)). }
  assert (Hr2 : run (end_wait ≫= receiver_tail size) (mkWorld [EOT] [] sk []) = (receiver_tail size (), mkWorld [] [ACK; CRC_REQUEST] sk [])).
  { rewrite (exec_bind_ret _ _ _ _ _ _ (run_eot_again sk)). by apply run_next_wait. }
  rewrite (round_is _ _ _ _ _ _ _ _ _ _ Hs2 Hr2).
  (* the end of the batch *)
  set (zeros := replicate HEADER_BLOCK_SIZE 0).
  assert (Hs3 : run (expect_control fuel ACK ≫= batch_end size) (mkWorld [ACK; CRC_REQUEST] [] [] []) =
    (packet_wait SOH 0 zeros ≫= (fun _ => try_ (QNotify (EvProgress size size)) SObserver ;; Ret size), mkWorld [] (SOH :: frame_of 0 zeros) [] [])).
  { rewrite run_expect_bind. unfold batch_end. rewrite (exec_bind_ret _ _ _ _ _ _ (run_crc_request [] [] [] [] Hstart)).
    apply (run_packet_wait SOH 0 zeros _ []). }
  rewrite (round_is _ _ _ _ _ _ _ _ _ _ Hs3 (run_final size sk)).
  exists (mkWorld [] [] [] []). rewrite (round_is _ _ _ _ (Ret size) [] [] (Ret size) [] sk); [done| |done].
  by rewrite run_packet_acked.
Qed.

Lemma start_rounds m file header :
  metadata_block m = inl (B := SendError) header -> length header = HEADER_BLOCK_SIZE -> parse_metadata usize_max header = Some m ->
  sending (Nat.iter 2 round (transfer_start fuel m file)) fuel fuel (file_size m) 0 1 file [].
Proof.
  intros Hb Hl Hm. unfold transfer_start. rewrite !Nat.iter_succ_r. pose proof Hstart as Hpos. destruct (start_retries config) as [|r] eqn:Hretries; [done|]. clear Hpos. rewrite <- Hretries in Hstart.
  set (K := fun _ : () => blocks_loop crc16 config fuel fuel (file_size m) 0 1 ≫= sender_end (file_size m)).
  assert (Hs1 : run (send_with crc16 config fuel m) (mkWorld [] [] [] file) =
    (wait_loop config fuel fuel 0 ≫= (fun _ => send_packet crc16 config fuel SOH 0 header ;; wait_for_crc_request config fuel ≫= K), mkWorld [] [] [] file)).
  { unfold send_with. rewrite Hb. rewrite (exec_bind_ret _ _ _ _ _ _ (run_notify _ _ _)).
    apply run_bind_wait; [|done]. unfold wait_for_crc_request. by rewrite Hretries. }
  rewrite (round_is _ _ _ _ _ _ _ _ _ _ Hs1 (run_receive_start r Hretries)).
  assert (Hs2 : run (wait_loop config fuel fuel 0 ≫= (fun _ => send_packet crc16 config fuel SOH 0 header ;; wait_for_crc_request config fuel ≫= K))
      (mkWorld [CRC_REQUEST] [] [] file) =
    (packet_wait SOH 0 header ≫= (fun _ => wait_for_crc_request config fuel ≫= K), mkWorld [] (SOH :: frame_of 0 header) [] file)).
  { rewrite (exec_bind_ret _ _ _ _ () (mkWorld [] [] [] file)) by done. apply (run_packet_wait SOH 0 header _ []). }
  assert (Hr2 : run (first_wait r ≫= header_start) (mkWorld (SOH :: frame_of 0 header) [] [] []) =
    (data_start (file_size m), mkWorld [] [ACK; CRC_REQUEST] [] [])).
  { rewrite (run_header r header m Hl Hm). by apply run_next_wait. }
  rewrite (round_is _ _ _ _ _ _ _ _ _ _ Hs2 Hr2). cbn [Nat.iter nat_rect]. split; [done|]. cbn [sender at_sender receiver at_receiver]. split.
  - rewrite run_packet_acked. rewrite (exec_bind_ret _ _ _ _ _ _ (run_crc_request [] [] [] file Hstart)). done.
  - intros c i. unfold data_start. rewrite (run_next_bind c i) by done. unfold data_wait.
    symmetry. rewrite !exec_bind. rewrite (run_next f c i) by done. done.
Qed.
End Sides.
End Pair.

(** C23: A YMODEM transfer delivers the file. For every file, valid header and configuration, and
    whatever chunks the source reads in: the two endpoints, joined by reliable queues and
    with fuel for one turn more than there are blocks, both finish with success after
    finitely many turns, and the receiver has written exactly the file. *)
Theorem transfer_delivers {Er} (crc16 : list Z -> Z) (usize_max : Z) (config : Config) (serve : nat -> nat)
    (m : Metadata) (file : list Z) (header : list Z) (fuel : nat) :
  (forall bytes, 0 <= crc16 bytes < 65536) -> (forall n, (0 < n)%nat -> (1 <= serve n <= n)%nat) ->
  start_retries config <> 0%nat -> usize_max <= u64_max -> 0 <= file_size m <= usize_max ->
  metadata_block (Er := Er) m = inl header -> Z.of_nat (length file) = file_size m ->
  (length file < BLOCK_SIZE * fuel)%nat ->
  exists k w, transfer (Er := Er) crc16 usize_max config serve k (S fuel) m file =
    mkExchange (Ret (file_size m)) w (Ret (file_size m)) (mkWorld [] [] file []).
Proof.
  intros Hcrc Hserve Hstart Hmax Hsize Hb Hl Hf.
  destruct (metadata_block_reads usize_max m header Hsize Hmax Hb) as [Hhl Hm].
  pose proof (start_rounds crc16 usize_max config serve Hcrc fuel Hstart m file header Hb Hhl Hm) as H1.
  destruct (data_rounds crc16 config serve Hcrc fuel Hserve fuel (S fuel) (S fuel) _ _ _ _ _ _ H1) as (k & n & nr & b & H2); [lia..|].
  destruct (end_rounds crc16 config serve Hcrc fuel Hstart _ n nr _ b _ H2) as [w Hend]. cbn [app] in Hend.
  exists (4 + (k + 2))%nat, w. unfold transfer. by rewrite !Nat.iter_add.
Qed.

(** ** A transfer *)

Lemma crc_xmodem_range bytes : 0 <= crc_xmodem bytes < 65536.
Proof. unfold crc_xmodem. apply Z.mod_pos_bound. lia. Qed.

(** Two blocks, the second of one byte, from a source that reads 100 bytes at a time. *)
Example transfer_example :
  let st := transfer (Er := Empty_set) crc_xmodem u64_max config_default (Nat.min 100) 8 4
              (mkMetadata [97] 1025) (replicate 1025 7) in
  sink (at_receiver st) = replicate 1025 7.
Proof. vm_compute. reflexivity. Qed.

Lemma transfer_delivers_witness :
  exists k w, transfer (Er := Empty_set) crc_xmodem u64_max config_default (Nat.min 100) k 2 (mkMetadata [97] 2) [104; 105] =
    mkExchange (Ret 2) w (Ret 2) (mkWorld [] [] [104; 105] []).
Proof.
  apply (transfer_delivers crc_xmodem u64_max config_default (Nat.min 100) (mkMetadata [97] 2) [104; 105]
    (97 :: 0 :: 50 :: replicate 125 0) 1).
  - exact crc_xmodem_range.
  - intros n Hn. lia.
  - done.
  - done.
  - cbn. unfold u64_max. lia.
  - reflexivity.
  - reflexivity.
  - unfold BLOCK_SIZE. cbn. lia.
Defined.
