(* ===== verification/Ws.v ===== *)
(** * WebSocket frames ([microtun-ws/src/lib.rs], [mask.rs], [frame.rs], [error.rs])

    Masking, the frame header and its decoder, and the errors. A header written by
    [encode_header] reads back; masking undoes itself however the payload is cut. *)

From S2P Require Import Prelude Proc.
Local Open Scope Z_scope.

(** ** [lib.rs], [error.rs] *)

Inductive Role := Client | Server.
Definition masks_output (r : Role) : bool := match r with Client => true | Server => false end.
Definition requires_masked_input (r : Role) : bool := match r with Server => true | Client => false end.

(** A [CloseCode] is its number. *)
Definition NORMAL : Z := 1000.
Definition GOING_AWAY : Z := 1001.
Definition PROTOCOL_ERROR : Z := 1002.
Definition UNSUPPORTED_DATA : Z := 1003.
Definition POLICY_VIOLATION : Z := 1008.
Definition MESSAGE_TOO_BIG : Z := 1009.
Definition INTERNAL_ERROR : Z := 1011.

Inductive Error (IoErrorKind : Type) :=
| Io (kind : IoErrorKind)
| Eof
| Closed (code : option Z)
| AlreadyClosed
| Protocol
| UnsupportedData
| TooLarge
| Handshake.
Arguments Io {IoErrorKind} kind.
Arguments Eof {IoErrorKind}.
Arguments Closed {IoErrorKind} code.
Arguments AlreadyClosed {IoErrorKind}.
Arguments Protocol {IoErrorKind}.
Arguments UnsupportedData {IoErrorKind}.
Arguments TooLarge {IoErrorKind}.
Arguments Handshake {IoErrorKind}.

Definition close_code {K} (e : Error K) : Z :=
  match e with
  | UnsupportedData => UNSUPPORTED_DATA
  | TooLarge => MESSAGE_TOO_BIG
  | Protocol | Handshake => PROTOCOL_ERROR
  | _ => INTERNAL_ERROR
  end.

(** ** [mask.rs] *)

(** The masked data and the offset to go on from. *)
Definition mask_bytes (key : list Z) (offset : nat) (data : list Z) : list Z :=
  imap (fun index byte => Z.lxor byte (nth ((offset + index) mod 4) key 0)) data.
Definition apply (key : list Z) (offset : nat) (data : list Z) : list Z * nat :=
  let offset := (offset mod 4)%nat in
  (mask_bytes key offset data, ((offset + length data) mod 4)%nat).

(** ** [frame.rs] *)

Definition MAX_CONTROL_PAYLOAD_LEN : nat := 125.
Definition MAX_HEADER_LEN : nat := 14.

Definition CONTINUATION : Z := 0.
Definition TEXT : Z := 1.
Definition BINARY : Z := 2.
Definition CLOSE : Z := 8.
Definition PING : Z := 9.
Definition PONG : Z := 10.

Definition is_control (opcode : Z) : bool := negb (Z.land opcode 8 =? 0).

Record FramePrefix := mkFramePrefix { fin : bool; opcode : Z; masked : bool; len7 : Z }.

Definition known (opcode : Z) : bool :=
  (opcode =? CONTINUATION) || (opcode =? TEXT) || (opcode =? BINARY) ||
  (opcode =? CLOSE) || (opcode =? PING) || (opcode =? PONG).

Section Codec.
(** [usize] of the target; the errors of its transport. *)
Context {K : Type} (usize_max : Z).

Definition decode_prefix (b0 b1 : Z) : FramePrefix + Error K :=
  if negb (Z.land b0 112 =? 0) then inr Protocol else
  let opcode := Z.land b0 15 in
  if negb (known opcode) then inr Protocol else
  inl (mkFramePrefix (negb (Z.land b0 128 =? 0)) opcode (negb (Z.land b1 128 =? 0)) (Z.land b1 127)).

Definition extended_len_bytes (len7 : Z) : nat :=
  if len7 =? 126 then 2%nat else if len7 =? 127 then 8%nat else 0%nat.

(** [usize::try_from] *)
Definition to_usize (len : Z) : nat + Error K := if len <=? usize_max then inl (Z.to_nat len) else inr TooLarge.

Definition decode_len (len7 : Z) (extended : list Z) : nat + Error K :=
  if len7 =? 126 then
    if (length extended =? 2)%nat then to_usize (be_value extended) else inr Protocol
  else if len7 =? 127 then
    if (length extended =? 8)%nat then
      let len := be_value extended in
      if negb (Z.land len 9223372036854775808 =? 0) then inr Protocol else to_usize len
    else inr Protocol
  else to_usize len7.
End Codec.

(** The bytes written to the front of [out]. *)
Definition encode_header (fin : bool) (opcode : Z) (len : nat) (mask : option (list Z)) : list Z :=
  let b0 := if fin then Z.lor 128 opcode else opcode in
  let mask_bit := match mask with Some _ => 128 | None => 0 end in
  let len := Z.of_nat len in
  b0 :: (if len <? 126 then [Z.lor mask_bit len]
         else if len <=? u16_max then Z.lor mask_bit 126 :: be_bytes 2 (len mod 65536)
         else Z.lor mask_bit 127 :: be_bytes 8 (len mod (u64_max + 1)))
     ++ (match mask with Some key => key | None => [] end).

(** ** Masking *)

Lemma length_mask_bytes key offset data : length (mask_bytes key offset data) = length data.
Proof. apply length_imap. Qed.

Lemma mask_bytes_mod key offset data : mask_bytes key (offset mod 4) data = mask_bytes key offset data.
Proof. apply imap_ext. intros i x _. do 2 f_equal. by rewrite Nat.Div0.add_mod_idemp_l. Qed.

Lemma mask_bytes_app key offset a b :
  mask_bytes key offset (a ++ b) = mask_bytes key offset a ++ mask_bytes key (offset + length a) b.
Proof.
  unfold mask_bytes. rewrite imap_app. f_equal. apply imap_ext. intros i x _. cbn. by rewrite Nat.add_assoc.
Qed.

Lemma mask_bytes_inv key offset data : mask_bytes key offset (mask_bytes key offset data) = data.
Proof.
  apply list_eq. intros i. unfold mask_bytes. rewrite !list_lookup_imap. destruct (data !! i); cbn; [|done].
  by rewrite Z.lxor_assoc, Z.lxor_nilpotent, Z.lxor_0_r.
Qed.

Lemma apply_mask key offset data : apply key offset data = (mask_bytes key offset data, ((offset + length data) mod 4)%nat).
Proof. unfold apply. rewrite mask_bytes_mod. by rewrite Nat.Div0.add_mod_idemp_l. Qed.

(** ** The header *)

Definition ext_len (len : nat) : nat :=
  if Z.of_nat len <? 126 then 0%nat else if Z.of_nat len <=? u16_max then 2%nat else 8%nat.

Lemma length_encode_header fin opcode len mask :
  length (encode_header fin opcode len mask) =
    (2 + ext_len len + match mask with Some key => length key | None => 0 end)%nat.
Proof.
  unfold encode_header, ext_len. repeat case_match; cbn [length app]; rewrite ?length_app, ?length_be_bytes; cbn [length]; lia.
Qed.

Lemma first_byte fin op :
  known op = true ->
  let b0 := if fin : bool then Z.lor 128 op else op in
  Z.land b0 112 = 0 /\ Z.land b0 15 = op /\ negb (Z.land b0 128 =? 0) = fin.
Proof.
  unfold known, CONTINUATION, TEXT, BINARY, CLOSE, PING, PONG. intros H.
  assert (op = 0 \/ op = 1 \/ op = 2 \/ op = 8 \/ op = 9 \/ op = 10) as Hop by bool_lia.
  destruct_or! Hop; subst op; by destruct fin.
Qed.

Lemma second_byte (m : bool) l :
  0 <= l < 128 ->
  let b1 := Z.lor (if m then 128 else 0) l in negb (Z.land b1 128 =? 0) = m /\ Z.land b1 127 = l.
Proof.
  intros Hl.
  assert (forallb (fun l => let l := Z.of_nat l in let b1 := Z.lor (if m then 128 else 0) l in
      eqb (negb (Z.land b1 128 =? 0)) m && (Z.land b1 127 =? l)) (seq 0 128) = true) as H by (by destruct m; vm_compute).
  rewrite forallb_forall in H. specialize (H (Z.to_nat l)). rewrite in_seq, Z2Nat.id in H by lia.
  apply andb_true_iff in H as [H1 H2]; [|lia]. apply eqb_prop in H1. apply Z.eqb_eq in H2. by split.
Qed.

Definition len7_of (len : nat) : Z :=
  if Z.of_nat len <? 126 then Z.of_nat len else if Z.of_nat len <=? u16_max then 126 else 127.

Lemma extended_len7 len : extended_len_bytes (len7_of len) = ext_len len.
Proof. unfold extended_len_bytes, len7_of, ext_len. bool_to_prop. repeat case_match; bool_to_prop; try lia; done. Qed.

Lemma high_bit_clear z : 0 <= z < 9223372036854775808 -> Z.land z 9223372036854775808 = 0.
Proof.
  intros Hz. apply Z.bits_inj'. intros i Hi. rewrite Z.land_spec, Z.bits_0.
  change 9223372036854775808 with (2 ^ 63). rewrite (Z.pow2_bits_eqb 63 i) by lia.
  destruct (Z.eqb_spec 63 i) as [<-|]; [|apply andb_false_r]. rewrite andb_true_r.
  apply Z.testbit_false; [lia|]. rewrite Z.div_small by lia. done.
Qed.

Section Reading.
Context {K : Type} (usize_max : Z).
Notation decode_prefix := (decode_prefix (K := K)).
Notation decode_len := (decode_len (K := K) usize_max).

Lemma encode_header_prefix fin op len mask :
  known op = true ->
  let h := encode_header fin op len mask in
  decode_prefix (nth 0 h 0) (nth 1 h 0) =
    inl (mkFramePrefix fin op (bool_decide (is_Some mask)) (len7_of len)).
Proof.
  intros Hop. destruct (first_byte fin op Hop) as (H1 & H2 & H3).
  set (m := bool_decide (is_Some mask)).
  assert (match mask with Some _ => 128 | None => 0 end = if m then 128 else 0) as Hm by (by destruct mask).
  assert (forall l, 0 <= l < 128 -> negb (Z.land (Z.lor (if m then 128 else 0) l) 128 =? 0) = m /\ Z.land (Z.lor (if m then 128 else 0) l) 127 = l)
    as Hb by (intros l Hl; by apply second_byte).
  unfold encode_header, len7_of, decode_prefix. cbn [nth]. rewrite Hm, H1, H2, H3, Hop. cbn [negb Z.eqb].
  destruct (Z.ltb_spec (Z.of_nat len) 126); [|destruct (Z.of_nat len <=? u16_max)]; cbn [nth app].
  all: match goal with |- context [Z.lor _ ?l] => destruct (Hb l) as [-> ->]; [lia|done] end.
Qed.

(** What the receiver finds after the prefix: the length, then the key. *)
Lemma encode_header_len fin op len mask :
  Z.of_nat len < 9223372036854775808 -> Z.of_nat len <= usize_max ->
  let h := encode_header fin op len mask in
  decode_len (len7_of len) (take (ext_len len) (drop 2 h)) = inl len.
Proof.
  intros Hlen Hmax. unfold encode_header, len7_of, ext_len, decode_len.
  assert (to_usize (K := K) usize_max (Z.of_nat len) = inl len) as Hu.
  { unfold to_usize. rewrite (proj2 (Z.leb_le _ _) Hmax), Nat2Z.id. done. }
  destruct (Z.ltb_spec (Z.of_nat len) 126) as [Hs|Hs].
  - rewrite (proj2 (Z.eqb_neq _ 126)), (proj2 (Z.eqb_neq _ 127)) by lia. done.
  - destruct (Z.leb_spec (Z.of_nat len) u16_max) as [Hw|Hw]; cbn [Z.eqb Pos.eqb app drop]; unfold u16_max in *.
    + rewrite drop_0, take_app_length' by (by rewrite length_be_bytes). rewrite length_be_bytes, be_value_bytes. cbn [Nat.eqb].
      change (256 ^ Z.of_nat 2) with 65536. rewrite Z.mod_mod, Z.mod_small by lia. done.
    + rewrite drop_0, take_app_length' by (by rewrite length_be_bytes). rewrite length_be_bytes, be_value_bytes. cbn [Nat.eqb].
      change (256 ^ Z.of_nat 8) with (u64_max + 1). rewrite Z.mod_mod, Z.mod_small by (unfold u64_max; lia).
      rewrite high_bit_clear by lia. done.
Qed.

Lemma encode_header_key fin op len mask :
  drop (2 + ext_len len) (encode_header fin op len mask) = default [] mask.
Proof.
  unfold encode_header, ext_len. cbn [Nat.add drop].
  destruct (Z.of_nat len <? 126); [|destruct (Z.of_nat len <=? u16_max)]; cbn [app drop]; [by destruct mask|..].
  all: rewrite drop_app_length' by (by rewrite length_be_bytes); by destruct mask.
Qed.
End Reading.

(** * WebSocket connections ([microtun-ws/src/connection.rs], [io.rs])

    The sender and the resumable receiver as programs over a transport. A query may be
    answered by dropping the future: the program ends there, and what it has stored in the
    connection stays. A slice out of bounds is the failure [OutOfBounds]. *)

Local Open Scope Z_scope.

(** ** The transport *)

Inductive Query := QRead (n : nat) | QWrite (bytes : list Z) | QFlush.
Inductive ReadAnswer (K : Type) := RRead (bytes : list Z) | RError (k : K) | RDropped.
Arguments RRead {K} bytes.
Arguments RError {K} k.
Arguments RDropped {K}.
Inductive Panic := OutOfBounds.

(** What a future comes to: its value, its error, or nothing since it was dropped. *)
Inductive Outcome (K A : Type) := Ready (a : A) | Erred (e : Error K) | Dropped.
Arguments Ready {K A} a.
Arguments Erred {K A} e.
Arguments Dropped {K A}.

Definition MASK_CHUNK_LEN : nat := 64.

Fixpoint chunks_from (fuel size : nat) (l : list Z) : list (list Z) :=
  match fuel, l with
  | O, _ | _, [] => []
  | S fuel, _ => take size l :: chunks_from fuel size (drop size l)
  end.
Definition chunks (size : nat) (l : list Z) : list (list Z) := chunks_from (length l) size l.

Section Connection.
Context {K : Type} (usize_max : Z).
(** The masking keys come from a ChaCha20 generator. *)
Context {Masker : Type} (masker_key : Masker -> list Z * Masker).

Definition Answer (q : Query) : Type := match q with QRead _ => ReadAnswer K | _ => option K end.
Notation Proc := (Proc Answer Panic).
Notation Outcome := (Outcome K).
Notation Error := (Error K).

(** ** [io.rs] *)

Definition write_all (bytes : list Z) : Proc (Outcome ()) :=
  r ← ask (QWrite bytes); Ret (match r with None => Ready () | Some k => Erred (Io k) end).
Definition flush : Proc (Outcome ()) :=
  r ← ask QFlush; Ret (match r with None => Ready () | Some k => Erred (Io k) end).

(** [m?; k] *)
Definition and_then {A B} (m : Proc (Outcome A)) (k : A -> Proc (Outcome B)) : Proc (Outcome B) :=
  r ← m; match r with Ready a => k a | Erred e => Ret (Erred e) | Dropped => Ret Dropped end.

(** ** The sender *)

Record Sender := mkSender { role : Role; mask : option Masker; closed : bool }.
Definition sender_server : Sender := mkSender Server None false.
Definition sender_client (m : Masker) : Sender := mkSender Client (Some m) false.

Fixpoint write_masked (key : list Z) (offset : nat) (parts : list (list Z)) : Proc (Outcome ()) :=
  match parts with
  | [] => Ret (Ready ())
  | part :: parts =>
      let '(masked, offset) := apply key offset part in
      and_then (write_all masked) (fun _ => write_masked key offset parts)
  end.

Definition next_key (s : Sender) : option (list Z) * Sender :=
  match mask s with
  | None => (None, s)
  | Some m => let '(key, m) := masker_key m in (Some key, mkSender (role s) (Some m) (closed s))
  end.

Definition send_frame (opcode : Z) (payload : list Z) (s : Sender) : Proc (Outcome () * Sender) :=
  let '(key, s) := next_key s in
  r ← and_then (write_all (encode_header true opcode (length payload) key)) (fun _ =>
      and_then (match key with
                | None => write_all payload
                | Some key => write_masked key 0 (chunks MASK_CHUNK_LEN payload)
                end) (fun _ => flush));
  Ret (r, s).

Definition send_text (payload : list Z) (s : Sender) : Proc (Outcome () * Sender) :=
  if closed s then Ret (Erred AlreadyClosed, s) else send_frame TEXT payload s.

Definition send_ping (payload : list Z) (s : Sender) : Proc (Outcome () * Sender) :=
  if (MAX_CONTROL_PAYLOAD_LEN <? length payload)%nat then Ret (Erred TooLarge, s) else
  if closed s then Ret (Erred AlreadyClosed, s) else send_frame PING payload s.

Definition close_payload (code : Z) (reason : list Z) : list Z :=
  be_bytes 2 code ++ take (MAX_CONTROL_PAYLOAD_LEN - 2) reason.

Definition close (code : Z) (reason : list Z) (s : Sender) : Proc (Outcome () * Sender) :=
  if closed s then Ret (Ready (), s) else
  '(r, s) ← send_frame CLOSE (close_payload code reason) s;
  Ret (r, mkSender (role s) (mask s) true).

Definition send_pong (payload : list Z) (s : Sender) : Proc (Outcome () * Sender) :=
  if closed s then Ret (Ready (), s) else send_frame PONG payload s.

(** ** The receiver *)

Inductive Phase :=
| Header (have need : nat)
| Payload (remaining : nat) (key : option (list Z)) (offset : nat) (last : bool)
| Control (opcode : Z) (have remaining : nat) (key : option (list Z)).

Definition phase_header : Phase := Header 0 2.

Record Connection := mkConnection {
  sender : Sender;
  header : list Z;
  control : list Z;
  phase : Phase;
  filled : nat;
  continuing : bool;
}.

Definition set_phase (p : Phase) (c : Connection) : Connection :=
  mkConnection (sender c) (header c) (control c) p (filled c) (continuing c).
Definition set_sender (s : Sender) (c : Connection) : Connection :=
  mkConnection s (header c) (control c) (phase c) (filled c) (continuing c).
Definition set_header (h : list Z) (c : Connection) : Connection :=
  mkConnection (sender c) h (control c) (phase c) (filled c) (continuing c).
Definition set_control (b : list Z) (c : Connection) : Connection :=
  mkConnection (sender c) (header c) b (phase c) (filled c) (continuing c).
Definition set_message (filled : nat) (continuing : bool) (c : Connection) : Connection :=
  mkConnection (sender c) (header c) (control c) (phase c) filled continuing.

Definition wrap (s : Sender) : Connection :=
  mkConnection s (replicate MAX_HEADER_LEN 0) (replicate MAX_CONTROL_PAYLOAD_LEN 0) phase_header 0 false.

(** One read into [buf[start..stop]]; the transport returns at most what fits. *)
Definition fill (buf : list Z) (start stop : nat) : Proc (Outcome (list Z)) :=
  if negb ((start <=? stop)%nat && (stop <=? length buf)%nat) then Fail_ OutOfBounds else
  r ← ask (QRead (stop - start));
  Ret (match r with
       | RRead bytes => match take (stop - start) bytes with [] => Erred Eof | bytes => Ready bytes end
       | RError k => Erred (Io k)
       | RDropped => Dropped
       end).

(** The masking key at the end of the header; [None] is a slice out of bounds. *)
Definition key_at (header : list Z) (header_len : nat) : option (list Z) :=
  if (header_len <? 4)%nat then None else slice header (header_len - 4) 4.

Definition admit_frame (c : Connection) (capacity : nat) (prefix : FramePrefix) (len : nat) (key : option (list Z)) :
    Phase + Error :=
  if is_control (opcode prefix) then
    if negb (fin prefix) || (MAX_CONTROL_PAYLOAD_LEN <? len)%nat then inr Protocol
    else inl (Control (opcode prefix) 0 len key)
  else if (opcode prefix =? TEXT) && continuing c then inr Protocol
  else if (opcode prefix =? CONTINUATION) && negb (continuing c) then inr Protocol
  else if negb ((opcode prefix =? TEXT) || (opcode prefix =? CONTINUATION)) then inr UnsupportedData
  else if (capacity - filled c <? len)%nat then inr TooLarge
  else inl (Payload len key 0 (fin prefix)).

Definition begin_frame (c : Connection) (header_len capacity : nat) : option (Phase + Error) :=
  match decode_prefix (nth 0 (header c) 0) (nth 1 (header c) 0) with
  | inr e => Some (inr e)
  | inl prefix =>
      extended ← slice (header c) 2 (extended_len_bytes (len7 prefix));
      match decode_len usize_max (len7 prefix) extended with
      | inr e => Some (inr e)
      | inl len =>
          if negb (Bool.eqb (masked prefix) (requires_masked_input (role (sender c)))) then Some (inr Protocol) else
          if masked prefix then key ← key_at (header c) header_len; Some (admit_frame c capacity prefix len (Some key))
          else Some (admit_frame c capacity prefix len None)
      end
  end.

(** The receiver works on the connection and the caller's buffer. *)
Definition State : Type := Connection * list Z.
Inductive Step := More | Complete (len : nat).

(** The end of a complete header. *)
Definition header_done (need : nat) (st : State) : Proc (Outcome Step * State) :=
  let '(c, buf) := st in
  match begin_frame c need (length buf) with
  | None => Fail_ OutOfBounds
  | Some (inr e) => Ret (Erred e, (c, buf))
  | Some (inl p) => Ret (Ready More, (set_phase p c, buf))
  end.

(** Header bytes have been read. *)
Definition header_read (have need : nat) (bytes : list Z) (st : State) : Proc (Outcome Step * State) :=
  let '(c, buf) := st in
  let c := set_header (blit (header c) have bytes) c in
  let have := (have + length bytes)%nat in
  if (have <? need)%nat then Ret (Ready More, (set_phase (Header have need) c, buf)) else
  if (need =? 2)%nat then
    match decode_prefix (nth 0 (header c) 0) (nth 1 (header c) 0) with
    | inr e => Ret (Erred e, (c, buf))
    | inl prefix =>
        let full := (2 + extended_len_bytes (len7 prefix) + if masked prefix then 4 else 0)%nat in
        if (2 <? full)%nat then Ret (Ready More, (set_phase (Header have full) c, buf)) else header_done need (c, buf)
    end
  else header_done need (c, buf).

Definition header_turn (have need : nat) (st : State) : Proc (Outcome Step * State) :=
  r ← fill (header (fst st)) have need;
  match r with
  | Erred e => Ret (Erred e, st)
  | Dropped => Ret (Dropped, st)
  | Ready bytes => header_read have need bytes st
  end.

Definition payload_turn (remaining : nat) (key : option (list Z)) (offset : nat) (last : bool) (st : State) :
    Proc (Outcome Step * State) :=
  let '(c, buf) := st in
  if (remaining =? 0)%nat then
    let c := set_phase phase_header c in
    if last then Ret (Ready (Complete (filled c)), (set_message 0 false c, buf))
    else Ret (Ready More, (set_message (filled c) true c, buf))
  else
    r ← fill buf (filled c) (filled c + remaining);
    match r with
    | Erred e => Ret (Erred e, (c, buf))
    | Dropped => Ret (Dropped, (c, buf))
    | Ready bytes =>
        let '(bytes, offset) := match key with Some key => apply key offset bytes | None => (bytes, 0%nat) end in
        let buf := blit buf (filled c) bytes in
        let c := set_message (filled c + length bytes) (continuing c) c in
        Ret (Ready More, (set_phase (Payload (remaining - length bytes) key offset last) c, buf))
    end.

(** A complete control frame. *)
Definition control_done (opcode : Z) (have : nat) (st : State) : Proc (Outcome Step * State) :=
  let '(c, buf) := st in
  let payload := take have (control c) in
  if opcode =? PING then
    '(r, s) ← send_pong payload (sender c);
    Ret (match r with Ready _ => Ready More | Erred e => Erred e | Dropped => Dropped end, (set_sender s c, buf))
  else if opcode =? PONG then Ret (Ready More, (c, buf))
  else
    let code := if (2 <=? have)%nat then Some (be_value (take 2 (control c))) else None in
    '(_, s) ← close (default NORMAL code) [] (sender c);
    Ret (Erred (Closed code), (set_sender s c, buf)).

Definition control_turn (opcode : Z) (have remaining : nat) (key : option (list Z)) (st : State) :
    Proc (Outcome Step * State) :=
  let '(c, buf) := st in
  if (0 <? remaining)%nat then
    r ← fill (control c) have (have + remaining);
    match r with
    | Erred e => Ret (Erred e, (c, buf))
    | Dropped => Ret (Dropped, (c, buf))
    | Ready bytes =>
        let c := set_control (blit (control c) have bytes) c in
        Ret (Ready More, (set_phase (Control opcode (have + length bytes) (remaining - length bytes) key) c, buf))
    end
  else
    let c := match key with
             | Some key => set_control (blit (control c) 0 (fst (apply key 0 (take have (control c))))) c
             | None => c
             end in
    control_done opcode have (set_phase phase_header c, buf).

(** A turn of the loop of [receive]. *)
Definition turn (st : State) : Proc (Outcome Step * State) :=
  match phase (fst st) with
  | Header have need => header_turn have need st
  | Payload remaining key offset last => payload_turn remaining key offset last st
  | Control opcode have remaining key => control_turn opcode have remaining key st
  end.

Fixpoint receive (fuel : nat) (st : State) : Proc (Outcome nat * State) :=
  match fuel with
  | O => Stuck
  | S fuel =>
      '(r, st) ← turn st;
      match r with
      | Ready More => receive fuel st
      | Ready (Complete len) => Ret (Ready len, st)
      | Erred e => Ret (Erred e, st)
      | Dropped => Ret (Dropped, st)
      end
  end.

(** The errors that the peer is not told of. *)
Definition beyond_telling (e : Error) : bool :=
  match e with Eof | Io _ | Closed _ | AlreadyClosed => true | _ => false end.

Definition recv_text (fuel : nat) (st : State) : Proc (Outcome nat * State) :=
  '(r, (c, buf)) ← receive fuel st;
  match r with
  | Erred e =>
      if beyond_telling e then Ret (Erred e, (c, buf)) else
      '(_, s) ← close (close_code e) [] (sender c);
      Ret (Erred e, (set_sender s c, buf))
  | r => Ret (r, (c, buf))
  end.

(** A caller that drops the future and receives again, with the same buffer. *)
Fixpoint await_text (calls fuel : nat) (st : State) : Proc (Outcome nat * State) :=
  match calls with
  | O => Stuck
  | S calls =>
      '(r, st) ← recv_text fuel st;
      match r with Dropped => await_text calls fuel st | r => Ret (r, st) end
  end.
End Connection.

(** * The WebSocket receiver in every environment

    Whatever the transport answers, [recv_text] never slices out of bounds, never reads into
    an empty slice, and leaves a connection that it can be called on again. *)

Local Open Scope nat_scope.

Section Safety.
Context {K : Type} (usize_max : Z) {Masker : Type} (masker_key : Masker -> list Z * Masker).
Notation Connection := (Connection (Masker := Masker)).
Notation State := (State (Masker := Masker)).
Notation turn := (turn (K := K) usize_max masker_key).
Notation receive := (receive (K := K) usize_max masker_key).
Notation recv_text := (recv_text (K := K) usize_max masker_key).

(** How long a header with these first two bytes is. *)
Definition full_header (header : list Z) : option nat :=
  match decode_prefix (K := K) (nth 0 header 0%Z) (nth 1 header 0%Z) with
  | inr _ => None
  | inl p => Some (2 + extended_len_bytes (len7 p) + if masked p then 4 else 0)
  end.

Definition phase_ok (c : Connection) (capacity : nat) : Prop :=
  match phase c with
  | Header have need => have < need /\ (need = 2 \/ 2 <= have /\ full_header (header c) = Some need)
  | Payload remaining _ _ _ => filled c + remaining <= capacity
  | Control _ have remaining _ => have + remaining <= MAX_CONTROL_PAYLOAD_LEN
  end.

(** The invariant of a connection that receives into a buffer of [capacity] bytes. *)
Record receiver_ok (capacity : nat) (st : State) : Prop := {
  rok_buf : length st.2 = capacity;
  rok_header : length (header st.1) = MAX_HEADER_LEN;
  rok_control : length (control st.1) = MAX_CONTROL_PAYLOAD_LEN;
  rok_filled : filled st.1 <= capacity;
  rok_phase : phase_ok st.1 capacity;
}.

Definition reads_something (q : Query) : Prop := match q with QRead n => 0 < n | _ => True end.
Notation safely := (safe (R := Answer (K := K)) (X := Panic) reads_something).

Lemma full_header_bound h n : full_header h = Some n -> 2 <= n <= MAX_HEADER_LEN.
Proof.
  unfold full_header, extended_len_bytes, MAX_HEADER_LEN. repeat case_match; intros [= <-]; lia.
Qed.

Lemma wrap_ok s capacity buf : length buf = capacity -> receiver_ok capacity (wrap s, buf).
Proof. intros H. split; cbn; try done; lia. Qed.

Lemma fill_safe buf start stop (post : Outcome K (list Z) -> Prop) :
  start < stop -> stop <= length buf ->
  (forall bytes, bytes <> [] -> length bytes <= stop - start -> post (Ready bytes)) ->
  (forall e, post (Erred e)) -> post Dropped ->
  safely post (fill buf start stop).
Proof.
  intros H1 H2 Hr He Hd. unfold fill.
  rewrite (proj2 (Nat.leb_le start stop)), (proj2 (Nat.leb_le stop (length buf))) by lia. cbn [negb andb].
  split; [cbn; lia|]. intros [bytes|k|]; [|apply He|apply Hd]. cbn.
  destruct (take (stop - start) bytes) as [|b bs] eqn:E; [apply He|]. apply Hr; [done|].
  rewrite <- E, length_take. lia.
Qed.

(** Outgoing frames write and flush, never read. *)
Lemma and_then_safe {A B} (m : Proc Answer Panic (Outcome K A)) (k : A -> Proc Answer Panic (Outcome K B)) :
  safely (fun _ => True) m -> (forall a, safely (fun _ => True) (k a)) -> safely (fun _ => True) (and_then m k).
Proof.
  intros Hm Hk. unfold and_then. apply safe_bind. eapply safe_mono; [|apply Hm]. intros [a|e|] _; [apply Hk|done..].
Qed.

Lemma write_all_safe bytes : safely (fun _ => True) (write_all (K := K) bytes).
Proof. split; [done|]. by intros []. Qed.
Lemma flush_safe : safely (fun _ => True) (flush (K := K)).
Proof. split; [done|]. by intros []. Qed.

Lemma write_masked_safe key offset parts : safely (fun _ => True) (write_masked (K := K) key offset parts).
Proof.
  revert offset. induction parts as [|part parts IH]; intros offset; cbn [write_masked]; [done|].
  destruct (apply key offset part). apply and_then_safe; [apply write_all_safe|intros; apply IH].
Qed.

Lemma send_frame_safe op payload s : safely (fun _ => True) (send_frame masker_key op payload s).
Proof.
  unfold send_frame. destruct (next_key masker_key s) as [key s']. apply safe_bind.
  eapply safe_mono; [intros; exact I|]. apply and_then_safe; [apply write_all_safe|].
  intros _. apply and_then_safe; [|intros; apply flush_safe]. destruct key; [apply write_masked_safe|apply write_all_safe].
Qed.

Lemma send_pong_safe payload s : safely (fun _ => True) (send_pong masker_key payload s).
Proof. unfold send_pong. case_match; [done|apply send_frame_safe]. Qed.

Lemma close_safe code reason s : safely (fun _ => True) (close masker_key code reason s).
Proof.
  unfold close. case_match; [done|]. apply safe_bind. eapply safe_mono; [|apply send_frame_safe].
  by intros [r s'] _.
Qed.

(** A turn of the loop keeps the invariant, and a message fits the buffer. *)
Definition turn_post (capacity : nat) (o : Outcome K Step * State) : Prop :=
  receiver_ok capacity o.2 /\ match o.1 with Ready (Complete len) => len <= capacity | _ => True end.

Lemma begin_frame_safe (c : Connection) need capacity :
  length (header c) = MAX_HEADER_LEN -> full_header (header c) = Some need -> filled c <= capacity ->
  exists r : Phase + Error K, begin_frame usize_max c need capacity = Some r /\
    match r with inl p => phase_ok (set_phase p c) capacity | inr _ => True end.
Proof.
  intros Hh Hf Hfill. pose proof (full_header_bound _ _ Hf) as Hb. unfold begin_frame, full_header in *.
  destruct (decode_prefix _ _) as [p|e]; [|done]. injection Hf as Hf.
  assert (is_Some (slice (header c) 2 (extended_len_bytes (len7 p)))) as [ext ->].
  { unfold slice. rewrite decide_True; [done|]. rewrite Hh. destruct (masked p); lia. }
  cbn [mbind option_bind]. destruct (decode_len _ _ _) as [len|e]; [|by eexists].
  destruct (negb _); [by eexists|].
  assert (forall key, exists r : Phase + Error K, admit_frame c capacity p len key = r /\
    match r with inl p => phase_ok (set_phase p c) capacity | inr _ => True end) as Had.
  { intros key. eexists. split; [done|]. unfold admit_frame.
    repeat (case_match; try done); subst; bool_to_prop; unfold phase_ok; cbn [phase set_phase filled]; try lia.
    all: match goal with H : inl _ = inl _ |- _ => injection H as <- end; unfold phase_ok; cbn; bool_to_prop; lia. }
  destruct (masked p) eqn:Em.
  - unfold key_at. destruct (Nat.ltb_spec need 4); [lia|]. unfold slice. rewrite decide_True by lia. cbn.
    destruct (Had (Some (take 4 (drop (need - 4) (header c))))) as (r & <- & Hr). eauto.
  - destruct (Had None) as (r & <- & Hr). eauto.
Qed.

Lemma nth_blit_before l start bytes i : i < start -> start <= length l -> nth i (blit l start bytes) 0%Z = nth i l 0%Z.
Proof.
  intros Hi Hs. unfold blit. rewrite app_nth1 by (rewrite length_take; lia).
  rewrite <- (take_drop start l) at 2. by rewrite app_nth1 by (rewrite length_take; lia).
Qed.

Lemma header_turn_safe have need c buf capacity :
  receiver_ok capacity (c, buf) -> phase c = Header have need ->
  safely (turn_post capacity) (header_turn (K := K) usize_max have need (c, buf)).
Proof.
  intros [Hbuf Hh Hctl Hfill Hp] Ephase; cbn [fst snd] in *. unfold phase_ok in Hp. rewrite Ephase in Hp.
  destruct Hp as [Hlt Hneed].
  assert (need <= MAX_HEADER_LEN) as Hmax.
  { destruct Hneed as [->|[_ Hf]]; [unfold MAX_HEADER_LEN; lia|]. apply full_header_bound in Hf. lia. }
  assert (receiver_ok capacity (c, buf)) as Hsame.
  { split; cbn; try done. unfold phase_ok. rewrite Ephase. done. }
  unfold header_turn. cbn [fst]. apply safe_bind, fill_safe; [lia|lia| |done|done].
  intros bytes Hne Hlen. unfold header_read, header_done; cbv beta iota zeta. cbn [header set_header]. set (h := blit (header c) have bytes).
  assert (length h = MAX_HEADER_LEN) as Hlh by (unfold h; rewrite length_blit; lia).
  assert (forall p, phase_ok (set_phase p (set_header h c)) capacity ->
    receiver_ok capacity (set_phase p (set_header h c), buf)) as Hok by (intros p Hp; by split).
  destruct (Nat.ltb_spec (have + length bytes) need) as [Hmore|Hfull].
  { hnf; split; [|done]. apply Hok. split; [lia|]. destruct Hneed as [->|[H2 Hf]]; [by left|right].
    split; [lia|]. cbn [header set_phase set_header]. rewrite <- Hf. unfold full_header, h.
    by rewrite !nth_blit_before by (unfold MAX_HEADER_LEN in *; lia). }
  assert (full_header h = Some need -> safely (turn_post capacity)
    match begin_frame usize_max (set_header h c) need (length buf) with
    | Some (inl p) => Ret (Ready More, (set_phase p (set_header h c), buf))
    | Some (inr e) => Ret (Erred e, (set_header h c, buf))
    | None => Fail_ OutOfBounds
    end) as Hbegin.
  { intros Hf. destruct (begin_frame_safe (set_header h c) need (length buf)) as (r & -> & Hr); cbn [header set_header filled]; [done..|lia|].
    destruct r as [p|e]; cbn.
    - hnf; split; [|done]. apply Hok. by rewrite Hbuf in Hr.
    - hnf; split; [|done]. split; cbn; try done. unfold phase_ok. cbn [phase set_header]. rewrite Ephase. split; [done|].
      cbn [header set_header]. destruct Hneed as [->|[H2 _]]; [by left|right]. split; [lia|done]. }
  destruct (Nat.eqb_spec need 2) as [->|Hn].
  - unfold full_header in Hbegin. destruct (decode_prefix _ _) as [p|e] eqn:Ed.
    + destruct (Nat.ltb_spec 2 (2 + extended_len_bytes (len7 p) + (if masked p then 4 else 0))) as [H2|H2].
      * hnf; split; [|done]. apply Hok. split; [lia|]. right. split; [lia|]. unfold full_header. cbn [header set_phase set_header].
        by rewrite Ed.
      * apply Hbegin. f_equal. destruct (masked p); lia.
    + hnf; split; [|done]. split; cbn; try done. unfold phase_ok. cbn [phase set_header]. rewrite Ephase. auto.
  - apply Hbegin. destruct Hneed as [->|[H2 Hf]]; [done|]. rewrite <- Hf. unfold full_header, h.
    by rewrite !nth_blit_before by (unfold MAX_HEADER_LEN in *; lia).
Qed.

Lemma payload_turn_safe remaining key offset last c buf capacity :
  receiver_ok capacity (c, buf) -> phase c = Payload remaining key offset last ->
  safely (turn_post capacity) (payload_turn (K := K) remaining key offset last (c, buf)).
Proof.
  intros [Hbuf Hh Hctl Hfill Hp] Ephase; cbn [fst snd] in *.
  assert (receiver_ok capacity (c, buf)) as Hsame by (by split).
  unfold phase_ok in Hp. rewrite Ephase in Hp. unfold payload_turn.
  destruct (Nat.eqb_spec remaining 0) as [->|Hr].
  - destruct last; (hnf; split; [|done || exact Hfill]); split; cbn; try done; lia.
  - apply safe_bind, fill_safe; [lia|lia| |done|done]. intros bytes Hne Hlen.
    assert (forall bs o, length bs = length bytes -> safely (turn_post capacity)
      (let buf := blit buf (filled c) bs in
       let c := set_message (filled c + length bs) (continuing c) c in
       Ret (Ready More, (set_phase (Payload (remaining - length bs) key o last) c, buf)))) as H.
    { intros bs o Hbs. hnf; split; [|done]. split; cbn; try done; rewrite ?length_blit; lia. }
    destruct key as [key|]; [|by apply H]. rewrite apply_mask. apply H. apply length_mask_bytes.
Qed.

Lemma control_turn_safe op have remaining key c buf capacity :
  receiver_ok capacity (c, buf) -> phase c = Control op have remaining key ->
  safely (turn_post capacity) (control_turn (K := K) masker_key op have remaining key (c, buf)).
Proof.
  intros [Hbuf Hh Hctl Hfill Hp] Ephase; cbn [fst snd] in *.
  assert (receiver_ok capacity (c, buf)) as Hsame by (by split).
  unfold phase_ok in Hp. rewrite Ephase in Hp. unfold control_turn.
  destruct (Nat.ltb_spec 0 remaining) as [Hr|Hr].
  - apply safe_bind, fill_safe; [lia|lia| |done|done]. intros bytes Hne Hlen.
    hnf; split; [|done]. split; cbn; try done; rewrite ?length_blit; lia.
  - set (c1 := match key with Some _ => _ | None => _ end).
    assert (receiver_ok capacity (set_phase phase_header c1, buf)) as Hok1.
    { unfold c1. destruct key as [key|]; split; cbn -[apply]; try done; try lia.
      rewrite length_blit; [done|]. rewrite apply_mask; cbn [fst]. rewrite length_mask_bytes, length_take. lia. }
    clearbody c1. assert (forall s, receiver_ok capacity (set_sender s (set_phase phase_header c1), buf)) as Hoks.
    { intros s. destruct Hok1. by split. }
    unfold control_done. case_match.
    { apply safe_bind. eapply safe_mono; [|apply send_pong_safe]. intros [r s] _. hnf; split; [apply Hoks|]. by destruct r. }
    case_match; [hnf; by split|]. apply safe_bind. eapply safe_mono; [|apply close_safe]. intros [r s] _. hnf; split; [apply Hoks|done].
Qed.

Lemma turn_safe st capacity : receiver_ok capacity st -> safely (turn_post capacity) (turn st).
Proof.
  destruct st as [c buf]. intros H. unfold turn; cbn [fst].
  destruct (phase c) eqn:E; eauto using header_turn_safe, payload_turn_safe, control_turn_safe.
Qed.

(** The result of a receive: the invariant, and a message that fits. *)
Definition text_post (capacity : nat) (o : Outcome K nat * State) : Prop :=
  receiver_ok capacity o.2 /\ match o.1 with Ready len => len <= capacity | _ => True end.

Lemma receive_safe fuel st capacity : receiver_ok capacity st -> safely (text_post capacity) (receive fuel st).
Proof.
  revert st. induction fuel as [|fuel IH]; intros st H; cbn [receive]; [done|].
  apply safe_bind. eapply safe_mono; [|by apply turn_safe]. intros [[[|len]|e|] st'] [H1 H2]; [by apply IH|by split..].
Qed.

(** Receiving never goes wrong, whatever the peer and the transport do. In every environment (any bytes, short reads, read and write errors, futures dropped at any read), [recv_text] on a connection that satisfies the invariant never slices out of bounds and never asks the transport to read into an empty slice; when it ends, by a message, an error or a drop, the invariant holds again for the same buffer, and a message's length is at most the buffer's. *)
Theorem recv_text_in_bounds fuel st capacity :
  receiver_ok capacity st -> safely (text_post capacity) (recv_text fuel st).
Proof.
  intros H. unfold recv_text. apply safe_bind. eapply safe_mono; [|by apply receive_safe].
  intros [r [c buf]] [H1 H2]. destruct r as [len|e|]; [by split| |by split].
  destruct (beyond_telling e); [by split|]. apply safe_bind. eapply safe_mono; [|apply close_safe].
  intros [r s] _. split; [|done]. destruct H1. by split.
Qed.
End Safety.

Lemma recv_text_in_bounds_witness :
  receiver_ok (K := unit) 4 (wrap (Masker := unit) (mkSender Server None false), replicate 4 0%Z) /\
  safe (R := Answer (K := unit)) (X := Panic) reads_something (text_post (K := unit) (Masker := unit) 4)
    (recv_text (K := unit) u32_max (fun m => ([1; 2; 3; 4]%Z, m)) 5 (wrap (mkSender Server None false), replicate 4 0%Z)).
Proof. split; [by apply wrap_ok|]. apply recv_text_in_bounds. by apply wrap_ok. Defined.
