(* ===== verification/WsSession.v ===== *)
(** * The WebSocket receiver against a specification by frames

    A frame list has a meaning, [assemble], that knows neither reads nor phases: the next
    message or the reason to refuse, and what is answered meanwhile. The receiver computes
    it from the bytes of the frames, however the transport cuts them and wherever the
    caller drops the future and receives again. *)

From S2P Require Import Prelude Proc Ws.
Local Open Scope nat_scope.

(** ** A transport *)

(** What reaches the reader: bytes, or a drop of the future that waits for them. *)
Inductive Event := Chunk (bytes : list Z) | Gap.
Record Net := mkNet { inbox : list Event; outbox : list Z }.

Fixpoint bytes_of (es : list Event) : list Z :=
  match es with [] => [] | Chunk bs :: es => bs ++ bytes_of es | Gap :: es => bytes_of es end.
Fixpoint gaps (es : list Event) : nat :=
  match es with [] => 0 | Chunk _ :: es => gaps es | Gap :: es => S (gaps es) end.
Definition event_ok (e : Event) : Prop := match e with Chunk bs => bs <> [] | Gap => True end.

Section Session.
Context {K : Type} (usize_max : Z) {Masker : Type} (masker_key : Masker -> list Z * Masker).
Notation Connection := (Connection (Masker := Masker)).
Notation Sender := (Sender (Masker := Masker)).
Notation State := (State (Masker := Masker)).
Notation turn := (turn (K := K) usize_max masker_key).
Notation receive := (receive (K := K) usize_max masker_key).
Notation recv_text := (recv_text (K := K) usize_max masker_key).
Notation await_text := (await_text (K := K) usize_max masker_key).
Notation Error := (Error K).

(** Writes succeed; a read takes from the first chunk what fits. *)
Definition handle (q : Query) (n : Net) : option (Answer (K := K) q * Net) :=
  match q return option (Answer q * Net) with
  | QRead size =>
      match inbox n with
      | [] => None
      | Gap :: es => Some (RDropped, mkNet es (outbox n))
      | Chunk bs :: es =>
          Some (RRead (take size bs),
                mkNet (match drop size bs with [] => es | bs => Chunk bs :: es end) (outbox n))
      end
  | QWrite bs => Some (None, mkNet (inbox n) (outbox n ++ bs))
  | QFlush => Some (None, n)
  end.
Notation run := (exec handle).

(** ** The specification *)

Record WireFrame := mkWireFrame { w_fin : bool; w_op : Z; w_key : option (list Z); w_payload : list Z }.

Definition masked_payload (key : option (list Z)) (payload : list Z) : list Z :=
  match key with Some key => mask_bytes key 0 payload | None => payload end.
Definition wire (f : WireFrame) : list Z :=
  encode_header (w_fin f) (w_op f) (length (w_payload f)) (w_key f) ++ masked_payload (w_key f) (w_payload f).

Definition frame_ok (f : WireFrame) : Prop :=
  known (w_op f) = true /\ (Z.of_nat (length (w_payload f)) < 9223372036854775808)%Z /\
  (Z.of_nat (length (w_payload f)) <= usize_max)%Z /\
  match w_key f with Some key => length key = 4 | None => True end.

(** What a sender puts on the wire, unless it has closed. *)
Definition say (op : Z) (payload : list Z) (s : Sender) : list Z * Sender :=
  if closed s then ([], s) else
  let '(key, s) := next_key masker_key s in (wire (mkWireFrame true op key payload), s).
Definition say_close (code : Z) (s : Sender) : list Z * Sender :=
  let '(bs, s) := say CLOSE (close_payload code []) s in (bs, mkSender (role s) (mask s) true).

(** The next message: [acc] of it is here, [cont] tells that a fragment was. *)
Record Verdict := mkVerdict { v_result : list Z + Error; v_sender : Sender; v_out : list Z; v_rest : list WireFrame }.
Definition prepend (bs : list Z) (v : Verdict) : Verdict := mkVerdict (v_result v) (v_sender v) (bs ++ v_out v) (v_rest v).

Definition refuse (e : Error) (s : Sender) (fs : list WireFrame) : Verdict :=
  let '(bs, s) := say_close (close_code e) s in mkVerdict (inr e) s bs fs.

Definition close_received (payload : list Z) : option Z := if 2 <=? length payload then Some (be_value (take 2 payload)) else None.

Fixpoint assemble (capacity : nat) (s : Sender) (acc : list Z) (cont : bool) (fs : list WireFrame) : option Verdict :=
  match fs with
  | [] => None
  | f :: fs =>
      if negb (Bool.eqb (bool_decide (is_Some (w_key f))) (requires_masked_input (role s))) then Some (refuse Protocol s fs)
      else if is_control (w_op f) then
        if negb (w_fin f) || (MAX_CONTROL_PAYLOAD_LEN <? length (w_payload f)) then Some (refuse Protocol s fs)
        else if (w_op f =? PING)%Z then
          let '(bs, s) := say PONG (w_payload f) s in prepend bs <$> assemble capacity s acc cont fs
        else if (w_op f =? PONG)%Z then assemble capacity s acc cont fs
        else
          let code := close_received (w_payload f) in
          let '(bs, s) := say_close (default NORMAL code) s in Some (mkVerdict (inr (Closed code)) s bs fs)
      else if (w_op f =? TEXT)%Z && cont then Some (refuse Protocol s fs)
      else if (w_op f =? CONTINUATION)%Z && negb cont then Some (refuse Protocol s fs)
      else if negb ((w_op f =? TEXT)%Z || (w_op f =? CONTINUATION)%Z) then Some (refuse UnsupportedData s fs)
      else if capacity - length acc <? length (w_payload f) then Some (refuse TooLarge s fs)
      else if w_fin f then Some (mkVerdict (inl (acc ++ w_payload f)) s [] fs)
      else assemble capacity s (acc ++ w_payload f) true fs
  end.

(** ** Sending *)

Lemma run_write_all bs n : run (write_all bs) n = (Ret (Ready ()), mkNet (inbox n) (outbox n ++ bs)).
Proof. done. Qed.

Lemma run_and_then {A B} (m : Proc Answer Panic (Outcome K A)) (k : A -> Proc Answer Panic (Outcome K B)) n a n' :
  run m n = (Ret (Ready a), n') -> run (and_then m k) n = run (k a) n'.
Proof. intros H. unfold and_then. by rewrite (exec_bind_ret _ _ _ _ _ _ H). Qed.

Lemma chunks_concat fuel size l : 0 < size -> length l <= fuel -> concat (chunks_from fuel size l) = l.
Proof.
  intros Hs. revert l. induction fuel as [|fuel IH]; intros [|x l] Hl; cbn [length chunks_from] in *; try done; [lia|].
  cbn [concat]. rewrite IH; [apply take_drop|]. rewrite length_drop. cbn [length]. lia.
Qed.

Lemma run_write_masked key offset parts n :
  run (write_masked key offset parts) n =
    (Ret (Ready ()), mkNet (inbox n) (outbox n ++ mask_bytes key offset (concat parts))).
Proof.
  revert offset n. induction parts as [|part parts IH]; intros offset n; cbn [write_masked concat].
  { cbn. by rewrite app_nil_r; destruct n. }
  rewrite apply_mask. erewrite run_and_then by apply run_write_all. rewrite IH. cbn [inbox outbox].
  by rewrite mask_bytes_app, <- (mask_bytes_mod key (offset + length part)), app_assoc.
Qed.

Lemma run_send_frame op payload s n :
  run (send_frame masker_key op payload s) n =
    let '(key, s) := next_key masker_key s in
    (Ret (Ready (), s), mkNet (inbox n) (outbox n ++ wire (mkWireFrame true op key payload))).
Proof.
  unfold send_frame. destruct (next_key masker_key s) as [key s']. erewrite exec_bind_ret; [done|].
  erewrite run_and_then by apply run_write_all.
  assert (run (match key with None => write_all payload | Some key => write_masked key 0 (chunks MASK_CHUNK_LEN payload) end)
      (mkNet (inbox n) (outbox n ++ encode_header true op (length payload) key)) =
    (Ret (Ready ()), mkNet (inbox n) (outbox n ++ wire (mkWireFrame true op key payload)))) as H.
  { unfold wire. cbn [w_fin w_op w_key w_payload]. rewrite app_assoc. destruct key as [key|]; [|done].
    rewrite run_write_masked. unfold chunks. rewrite chunks_concat by (unfold MASK_CHUNK_LEN; lia). done. }
  erewrite run_and_then by apply H. done.
Qed.

Lemma run_send_pong payload s n :
  run (send_pong masker_key payload s) n =
    let '(bs, s) := say PONG payload s in (Ret (Ready (), s), mkNet (inbox n) (outbox n ++ bs)).
Proof.
  unfold send_pong, say. destruct (closed s); [cbn; rewrite app_nil_r; by destruct n|].
  rewrite run_send_frame. by destruct (next_key masker_key s).
Qed.

Lemma run_close code s n :
  run (close masker_key code [] s) n =
    let '(bs, s) := say_close code s in (Ret (Ready (), s), mkNet (inbox n) (outbox n ++ bs)).
Proof.
  unfold close, say_close, say. destruct (closed s) eqn:E; [cbn; rewrite app_nil_r; destruct n, s; cbn in *; by subst|].
  rewrite exec_bind, run_send_frame. by destruct (next_key masker_key s).
Qed.

(** ** Turns *)

(** A loop of [t] turns and [d] drops; the last turn ends in [o]. *)
Inductive path : nat -> nat -> State * Net -> (Outcome K Step * State) * Net -> Prop :=
| path_last st n o n' : run (turn st) n = (Ret o, n') -> path 1 0 (st, n) (o, n')
| path_more t d st n st1 n1 o :
    run (turn st) n = (Ret (Ready More, st1), n1) -> path t d (st1, n1) o -> path (S t) d (st, n) o
| path_drop t d st n st1 n1 o :
    run (turn st) n = (Ret (Dropped, st1), n1) -> path t d (st1, n1) o -> path t (S d) (st, n) o.

Lemma path_app t d t' d' st n st1 n1 o :
  path t d (st, n) ((Ready More, st1), n1) -> path t' d' (st1, n1) o -> path (t + t') (d + d') (st, n) o.
Proof.
  intros H H'. remember (st, n) as a eqn:Ea. remember ((Ready More : Outcome K Step, st1), n1) as b eqn:Eb.
  revert st n Ea. induction H as [s0 m0 o0 m' Hr|t d s0 m0 s1 m1 o0 Hr Hp IH|t d s0 m0 s1 m1 o0 Hr Hp IH]; intros st n Ea.
  - injection Ea as -> ->. subst. injection Eb as -> ->. eapply path_more; eauto.
  - injection Ea as -> ->. eapply path_more; eauto.
  - injection Ea as -> ->. eapply path_drop; eauto.
Qed.

Lemma path_pos t d a o : path t d a o -> 0 < t.
Proof. induction 1; lia. Qed.

(** What [recv_text] does with the outcome of [receive]. *)
Definition report (o : Outcome K nat * State) : Proc Answer Panic (Outcome K nat * State) :=
  let '(r, (c, buf)) := o in
  match r with
  | Erred e =>
      if beyond_telling e then Ret (Erred e, (c, buf)) else
      '(_, s) ← close (K := K) masker_key (close_code e) [] (sender c);
      Ret (Erred e, (set_sender s c, buf))
  | r => Ret (r, (c, buf))
  end.

(** The end of a loop, as [receive] returns it. *)
Definition ended (o : Outcome K Step * State) : option (Outcome K nat * State) :=
  match o with
  | (Ready (Complete len), st) => Some (Ready len, st)
  | (Erred e, st) => Some (Erred e, st)
  | _ => None
  end.

Definition again (calls fuel : nat) (o : Outcome K nat * State) : Proc Answer Panic (Outcome K nat * State) :=
  let '(r, st) := o in match r with Dropped => await_text calls fuel st | r => Ret (r, st) end.

Lemma report_again calls fuel o n :
  fst o <> Dropped -> run (report o ≫= again calls fuel) n = run (report o) n.
Proof.
  destruct o as [[len|e|] [c buf]]; intros H; [done| |done]. cbn [report].
  destruct (beyond_telling e); [done|]. rewrite !exec_bind, run_close.
  by destruct (say_close (close_code e) (sender c)).
Qed.

(** A path is what a caller sees that receives again after each drop. *)
Lemma path_attempt t d st n o n' calls fuel f e :
  path t d (st, n) (o, n') -> ended o = Some e -> t <= f -> t <= fuel -> d <= calls ->
  run (recv_text f st ≫= again calls fuel) n = run (report e) n'.
Proof.
  intros H He. remember (st, n) as a eqn:Ea. remember (o, n') as b eqn:Eb. revert st n f calls Ea.
  induction H as [s0 m0 o0 m' Hr|t d s0 m0 s1 m1 o0 Hr Hp IH|t d s0 m0 s1 m1 o0 Hr Hp IH]; intros st n f calls Ea Hf Hfuel Hd;
    injection Ea as -> ->; subst.
  - injection Eb as -> ->. destruct f as [|f]; [lia|]. rewrite <- (report_again calls fuel e n').
    2: { by destruct o as [[[|len]|err|] s]; cbn in He; simplify_eq. }
    rewrite !(exec_bind _ _ (again calls fuel)). do 2 f_equal. unfold recv_text at 1. cbn [receive].
    rewrite !exec_bind, Hr. destruct o as [[[|len]|err|] [c buf]]; cbn in He; simplify_eq; done.
  - destruct f as [|f]; [lia|]. rewrite <- (IH eq_refl s1 m1 f calls) by (done || lia).
    rewrite !(exec_bind _ _ (again calls fuel)). do 2 f_equal. unfold recv_text at 1. cbn [receive]. unfold recv_text.
    by rewrite !exec_bind, Hr.
  - pose proof (path_pos _ _ _ _ Hp). destruct f as [|f]; [lia|]. destruct calls as [|calls]; [lia|].
    rewrite <- (IH eq_refl s1 m1 fuel calls) by (done || lia).
    rewrite (exec_bind _ (recv_text (S f) st)). unfold recv_text at 1. cbn [receive]. rewrite !exec_bind, Hr. destruct s1 as [c1 b1].
    transitivity (run (await_text (S calls) fuel (c1, b1)) m1); [done|]. cbn [await_text]. by rewrite exec_bind.
Qed.

Lemma path_await t d st n o n' calls fuel e :
  path t d (st, n) (o, n') -> ended o = Some e -> t <= fuel -> d < calls ->
  run (await_text calls fuel st) n = run (report e) n'.
Proof. intros H He Hf Hd. destruct calls as [|calls]; [lia|]. eapply path_attempt; [done|done|lia|lia|lia]. Qed.

(** ** Reading *)

Lemma fill_ask {B} b start stop (k : Outcome K (list Z) -> Proc Answer Panic B) :
  start <= stop -> stop <= length b ->
  fill b start stop ≫= k =
    Ask (QRead (stop - start)) (fun r => k (match r with
       | RRead bytes => match take (stop - start) bytes with [] => Erred Eof | bytes => Ready bytes end
       | RError e => Erred (Io e)
       | RDropped => Dropped
       end)).
Proof. intros H1 H2. unfold fill. rewrite (proj2 (Nat.leb_le _ _) H1), (proj2 (Nat.leb_le _ _) H2). done. Qed.

(** The bytes that a phase wants arrive, in pieces and with drops in between. [P got] is
    the state that has got some of them; the turn that gets the last ends as [G] says. *)
Lemma feed (P : list Z -> State) (want tl : list Z) (G : Outcome K Step * State -> Prop) got rest n :
  (forall got rest, want = got ++ rest -> rest <> [] -> exists b start stop k,
    turn (P got) = fill b start stop ≫= k /\ stop = start + length rest /\ stop <= length b /\
    k Dropped = Ret (Dropped, P got) /\
    (exists o, G o /\ k (Ready rest) = Ret o) /\
    (forall bs rest', rest = bs ++ rest' -> bs <> [] -> rest' <> [] -> k (Ready bs) = Ret (Ready More, P (got ++ bs)))) ->
  want = got ++ rest -> rest <> [] ->
  Forall event_ok (inbox n) -> bytes_of (inbox n) = rest ++ tl ->
  exists o t d es, G o /\ path t d (P got, n) (o, mkNet es (outbox n)) /\ t <= length rest /\ d + gaps es = gaps (inbox n) /\
    Forall event_ok es /\ bytes_of es = tl.
Proof.
  intros Hturn. destruct n as [es out]. cbn [inbox outbox]. revert got rest.
  induction es as [|e es IH]; intros got rest Hw Hne Hok Hb; [by destruct rest|].
  destruct (Hturn got rest Hw Hne) as (b & start & stop & k & Ht & -> & Hlen & Hd & (o & Ho & Hlast) & Hk).
  rewrite fill_ask in Ht by lia. replace (start + length rest - start) with (length rest) in Ht by lia.
  apply Forall_cons in Hok as [He Hok]. destruct e as [bs|].
  - cbn [bytes_of] in Hb. destruct (Nat.lt_ge_cases (length bs) (length rest)) as [Hl|Hl].
    + assert (rest = bs ++ drop (length bs) rest) as Hr.
      { rewrite <- (take_drop (length bs) rest) at 1. f_equal. rewrite <- (take_app_le rest tl) by lia.
        by rewrite <- Hb, take_app_length. }
      set (rest' := drop (length bs) rest) in *.
      assert (rest' <> []) as Hne' by (intros E; apply (f_equal length) in Hr; rewrite E, length_app in Hr; cbn in Hr; lia).
      destruct (IH (got ++ bs) rest') as (o' & t & d & es' & Ho' & Hp & Htb & Hg & Hok' & Hb').
      { by rewrite <- app_assoc, <- Hr. }
      { done. }
      { done. }
      { rewrite Hr, <- app_assoc in Hb. by apply app_inv_head in Hb. }
      exists o', (S t), d, es'. split_and!; [done| |rewrite Hr, length_app; destruct bs; [done|cbn [length]; lia]|done..].
      eapply path_more; [|apply Hp]. rewrite Ht. cbn [exec handle inbox outbox].
      rewrite (take_ge bs (length rest)), (drop_ge bs (length rest)) by lia.
      rewrite ?(take_ge bs (length rest)) by lia. destruct bs as [|x bs]; [done|]. by rewrite (Hk (x :: bs) rest' Hr).
    + assert (take (length rest) bs = rest) as Hr.
      { rewrite <- (take_app_le bs (bytes_of es)) by lia. by rewrite Hb, take_app_length. }
      eexists o, 1, 0, _. split_and!; [done|apply path_last|..].
      * rewrite Ht. cbn [exec handle inbox outbox]. rewrite Hr, firstn_all.
        destruct rest as [|x rest]; [done|]. by rewrite Hlast.
      * destruct rest; [done|]. cbn [length]. lia.
      * by destruct (drop (length rest) bs).
      * destruct (drop (length rest) bs) eqn:E; [done|]. by constructor.
      * rewrite <- (take_drop (length rest) bs), Hr, <- app_assoc in Hb. apply app_inv_head in Hb.
        by destruct (drop (length rest) bs).
  - destruct (IH got rest Hw Hne Hok Hb) as (o' & t & d & es' & Ho' & Hp & Htb & Hg & Hok' & Hb').
    exists o', t, (S d), es'. split_and!; [done| |done|cbn [gaps]; lia|done..].
    eapply path_drop; [|apply Hp]. rewrite Ht. cbn [exec handle inbox outbox]. by rewrite Hd.
Qed.

(** ** The header *)

Definition frame_prefix (f : WireFrame) : FramePrefix :=
  mkFramePrefix (w_fin f) (w_op f) (bool_decide (is_Some (w_key f))) (len7_of (length (w_payload f))).

(** What a connection makes of a frame once its header is complete. *)
Definition judge (c : Connection) (capacity : nat) (f : WireFrame) : Phase + Error :=
  if negb (Bool.eqb (bool_decide (is_Some (w_key f))) (requires_masked_input (role (sender c)))) then inr Protocol
  else admit_frame c capacity (frame_prefix f) (length (w_payload f)) (w_key f).

Notation hdr f := (encode_header (w_fin f) (w_op f) (length (w_payload f)) (w_key f)).

Lemma length_hdr f :
  frame_ok f ->
  length (hdr f) = 2 + extended_len_bytes (len7 (frame_prefix f)) + (if masked (frame_prefix f) then 4 else 0).
Proof.
  intros (_ & _ & _ & Hk). rewrite length_encode_header. cbn [frame_prefix len7 masked]. rewrite extended_len7.
  destruct (w_key f); cbn; [by rewrite Hk|done].
Qed.

Lemma hdr_prefix f tl :
  frame_ok f ->
  decode_prefix (K := K) (nth 0 (hdr f ++ tl) 0%Z) (nth 1 (hdr f ++ tl) 0%Z) = inl (frame_prefix f).
Proof.
  intros Hok. pose proof (length_hdr f Hok). rewrite !app_nth1 by lia. apply encode_header_prefix, Hok.
Qed.

Lemma begin_frame_hdr c capacity f tl :
  frame_ok f -> header c = hdr f ++ tl ->
  begin_frame usize_max c (length (hdr f)) capacity = Some (judge c capacity f).
Proof.
  intros Hok Hh. pose proof (length_hdr f Hok) as Hl. pose proof Hok as (Hop & H63 & Hmax & Hkey).
  unfold begin_frame, judge. rewrite Hh, hdr_prefix by done.
  unfold slice at 1. rewrite decide_True by (rewrite length_app; lia). cbn [mbind option_bind].
  rewrite drop_app_le, take_app_le by (rewrite ?length_drop; lia).
  change (len7 (frame_prefix f)) with (len7_of (length (w_payload f))) in *. rewrite extended_len7, encode_header_len by done.
  change (masked (frame_prefix f)) with (bool_decide (is_Some (w_key f))) in *. rewrite extended_len7 in Hl.
  destruct (negb _); [done|]. destruct (w_key f) as [key|] eqn:Ek; cbn [bool_decide is_Some_dec decide] in *; [|done].
  change (bool_decide (is_Some (Some key))) with true in *. cbn iota in *.
  unfold key_at. destruct (Nat.ltb_spec (length (encode_header (w_fin f) (w_op f) (length (w_payload f)) (Some key))) 4); [lia|].
  unfold slice. rewrite decide_True by (rewrite length_app; lia). cbn [mbind option_bind].
  rewrite drop_app_le, take_app_le by (rewrite ?length_drop; lia).
  rewrite Hl. replace (2 + ext_len (length (w_payload f)) + 4 - 4) with (2 + ext_len (length (w_payload f))) by lia.
  rewrite encode_header_key. cbn [default from_option id]. by rewrite take_ge by lia.
Qed.

Definition header_state (c : Connection) (buf : list Z) (need : nat) (got : list Z) : State :=
  (set_phase (Header (length got) need) (set_header (got ++ drop (length got) (header c)) c), buf).

Lemma blit_more got h bs :
  length got + length bs <= length h ->
  blit (got ++ drop (length got) h) (length got) bs = (got ++ bs) ++ drop (length (got ++ bs)) h.
Proof.
  intros Hl. unfold blit. rewrite take_app_length, <- app_assoc. do 2 f_equal.
  rewrite drop_app_add, drop_drop, length_app. done.
Qed.

(** The header's last turn: the frame is judged. *)
Definition judged (c : Connection) (buf : list Z) (f : WireFrame) (h : list Z) (o : Outcome K Step * State) : Prop :=
  match judge c (length buf) f with
  | inl p => o = (Ready More, (set_phase p (set_header h c), buf))
  | inr e => exists p, o = (Erred e, (set_phase p (set_header h c), buf))
  end.

Lemma header_done_judged c c1 buf f tl need h :
  frame_ok f -> need = length (hdr f) -> h = hdr f ++ tl -> (exists p, c1 = set_phase p (set_header h c)) ->
  exists o, judged c buf f h o /\ header_done usize_max need (c1, buf) = Ret o.
Proof.
  intros Hok -> Hh [p ->]. unfold header_done. rewrite (begin_frame_hdr _ _ f tl) by done.
  assert (judge (set_phase p (set_header h c)) (length buf) f = judge c (length buf) f) as -> by done.
  unfold judged. destruct (judge c (length buf) f) as [p'|e]; eexists; (split; [|done]); [done|by exists p].
Qed.

(** What [feed] asks of the header phase: its last turn is the one to look at. *)
Lemma header_feeds c buf need hd (G : Outcome K Step * State -> Prop) :
  length (header c) = MAX_HEADER_LEN -> length hd = need -> need <= MAX_HEADER_LEN ->
  (forall p, exists o, G o /\
    (let c := set_phase p (set_header (hd ++ drop (length hd) (header c)) c) in
     if need =? 2 then
       match decode_prefix (nth 0 (header c) 0%Z) (nth 1 (header c) 0%Z) with
       | inr e => Ret (Erred e, (c, buf))
       | inl prefix =>
           let full := 2 + extended_len_bytes (len7 prefix) + if masked prefix then 4 else 0 in
           if 2 <? full then Ret (Ready More, (set_phase (Header need full) c, buf)) else header_done usize_max need (c, buf)
       end
     else header_done usize_max need (c, buf)) = Ret (Q := Query) (R := Answer (K := K)) (X := Panic) o) ->
  forall got rest, hd = got ++ rest -> rest <> [] -> exists b start stop k,
    turn (header_state c buf need got) = fill b start stop ≫= k /\ stop = start + length rest /\ stop <= length b /\
    k Dropped = Ret (Dropped, header_state c buf need got) /\
    (exists o, G o /\ k (Ready rest) = Ret o) /\
    (forall bs rest', rest = bs ++ rest' -> bs <> [] -> rest' <> [] ->
       k (Ready bs) = Ret (Ready More, header_state c buf need (got ++ bs))).
Proof.
  intros Hlh Hhd Hneed Hend got rest -> Hne. rewrite length_app in Hhd.
  eexists _, _, _, _. split; [reflexivity|].
  split; [by rewrite Hhd|]. split; [cbn [header set_header set_phase header_state fst]; rewrite length_app, length_drop; lia|].
  split; [done|]. unfold header_read, header_state at 1 2; cbn [header set_header set_phase header_state fst].
  split.
  - destruct (Hend (Header (length got) need)) as (o & Ho & E). exists o. split; [done|].
    rewrite <- E, blit_more by lia. rewrite Hhd, Nat.ltb_irrefl. done.
  - intros bs rest' -> Hbs Hr'. rewrite blit_more by (rewrite length_app in Hhd; lia).
    destruct (Nat.ltb_spec (length got + length bs) need) as [_|H].
    + unfold header_state. by rewrite (length_app got bs).
    + destruct rest'; [done|]. rewrite length_app in Hhd; cbn [length] in Hhd. lia.
Qed.

Lemma hdr_first f x :
  frame_ok f -> decode_prefix (K := K) (nth 0 (take 2 (hdr f) ++ x) 0%Z) (nth 1 (take 2 (hdr f) ++ x) 0%Z) = inl (frame_prefix f).
Proof.
  intros Hok. rewrite <- (hdr_prefix f [] Hok). pose proof (length_hdr f Hok) as Hl.
  destruct (hdr f) as [|a [|b h]]; cbn [length] in Hl; [lia|lia|done].
Qed.

(** The bytes of a header arrive, and the frame is judged. *)
Lemma header_path c buf f tl n :
  frame_ok f -> phase c = phase_header -> length (header c) = MAX_HEADER_LEN ->
  Forall event_ok (inbox n) -> bytes_of (inbox n) = hdr f ++ tl ->
  exists o t d es, judged c buf f (hdr f ++ drop (length (hdr f)) (header c)) o /\
    path t d ((c, buf), n) (o, mkNet es (outbox n)) /\ t <= length (hdr f) /\ d + gaps es = gaps (inbox n) /\
    Forall event_ok es /\ bytes_of es = tl.
Proof.
  intros Hok Hp Hlh Hev Hb. pose proof (length_hdr f Hok) as Hl.
  assert (length (hdr f) <= MAX_HEADER_LEN) as Hmax.
  { rewrite Hl. unfold MAX_HEADER_LEN, extended_len_bytes. repeat case_match; lia. }
  assert (header_state c buf 2 [] = (c, buf)) as H0.
  { unfold header_state. cbn [length app drop]. rewrite drop_0. destruct c; cbn in *. by subst. }
  assert (length (take 2 (hdr f)) = 2) as H2 by (rewrite length_take; lia).
  rewrite <- H0. destruct (Nat.eq_dec (length (hdr f)) 2) as [E2|E2].
  - apply (feed (header_state c buf 2) (hdr f)); [|done|by intros E; rewrite E in E2|done..].
    apply header_feeds; [done|done|unfold MAX_HEADER_LEN; lia|]. intros p. cbn [header set_header set_phase Nat.eqb].
    rewrite (hdr_prefix f) by done. rewrite <- Hl, E2. cbn [Nat.ltb Nat.leb].
    eapply header_done_judged; [done|by rewrite E2|done|]. by exists p.
  - destruct (feed (header_state c buf 2) (take 2 (hdr f)) (drop 2 (hdr f) ++ tl)
      (fun o => o = (Ready More, header_state c buf (length (hdr f)) (take 2 (hdr f)))) [] (take 2 (hdr f)) n)
      as (o & t & d & es & -> & Hpath & Ht & Hg & Hev' & Hb'); [|done|by intros E; rewrite E in H2|done|by rewrite app_assoc, take_drop|].
    { apply header_feeds; [done|done|unfold MAX_HEADER_LEN; lia|]. intros p. eexists. split; [reflexivity|].
      cbn [header set_header set_phase Nat.eqb]. rewrite (hdr_first f) by done. rewrite <- Hl.
      destruct (Nat.ltb_spec 2 (length (hdr f))); [|lia]. unfold header_state. by rewrite H2. }
    destruct (feed (header_state c buf (length (hdr f))) (hdr f) tl
      (judged c buf f (hdr f ++ drop (length (hdr f)) (header c))) (take 2 (hdr f)) (drop 2 (hdr f)) (mkNet es (outbox n)))
      as (o & t' & d' & es' & Ho & Hpath' & Ht' & Hg' & Hev'' & Hb''); [|by rewrite take_drop| |done|done|].
    { apply header_feeds; [done|done|done|]. intros p. rewrite (proj2 (Nat.eqb_neq _ _) E2).
      eapply header_done_judged; [done|done|done|]. by exists p. }
    { intros E. apply (f_equal length) in E. rewrite length_drop in E. cbn [length] in E. lia. }
    exists o, (t + t'), (d + d'), es'. split_and!; [done|by eapply path_app| |cbn [inbox] in *; lia|done..].
    rewrite length_drop in Ht'. rewrite H2 in Ht. lia.
Qed.

(** ** The payload *)

Lemma blit_nil b start : blit b start [] = b.
Proof. unfold blit. cbn [length app]. rewrite Nat.add_0_r. apply take_drop. Qed.

Lemma blit_app b start u v :
  start + length u + length v <= length b -> blit (blit b start u) (start + length u) v = blit b start (u ++ v).
Proof.
  intros Hl. unfold blit. assert (length (take start b ++ u) = start + length u) as Ha by (rewrite length_app, length_take; lia).
  rewrite (app_assoc (take start b) u (drop _ b)), take_app_length', drop_app_ge, Ha, drop_drop, <- !app_assoc, length_app by lia.
  do 4 f_equal. lia.
Qed.

Lemma length_masked key bs : length (masked_payload key bs) = length bs.
Proof. destruct key; [apply length_mask_bytes|done]. Qed.
Lemma masked_inv key bs : masked_payload key (masked_payload key bs) = bs.
Proof. destruct key; [apply mask_bytes_inv|done]. Qed.

Definition offset_after (key : option (list Z)) (n : nat) : nat := match key with Some _ => n mod 4 | None => 0 end.

Definition payload_state (c : Connection) (buf : list Z) (key : option (list Z)) (last : bool) (len : nat) (got : list Z) : State :=
  (set_message (filled c + length got) (continuing c)
     (set_phase (Payload (len - length got) key (offset_after key (length got)) last) c),
   blit buf (filled c) (masked_payload key got)).

Lemma apply_after key got bs :
  match key with Some k => apply k (offset_after key (length got)) bs | None => (bs, 0) end =
    (drop (length got) (masked_payload key (got ++ bs)), offset_after key (length (got ++ bs))).
Proof.
  destruct key as [k|]; cbn [masked_payload offset_after]; [|by rewrite drop_app_length].
  rewrite apply_mask, mask_bytes_mod, mask_bytes_app, length_app, Nat.Div0.add_mod_idemp_l. f_equal.
  rewrite drop_app_length' by (by rewrite length_mask_bytes). done.
Qed.

Lemma masked_app key got bs :
  masked_payload key (got ++ bs) = masked_payload key got ++ drop (length got) (masked_payload key (got ++ bs)).
Proof.
  destruct key as [k|]; cbn [masked_payload]; [|by rewrite drop_app_length].
  rewrite mask_bytes_app, drop_app_length' by (by rewrite length_mask_bytes). done.
Qed.

Lemma payload_more c buf key last len got bs :
  filled c + length got + length bs <= length buf ->
  (let '(bytes, offset) := match key with Some k => apply k (offset_after key (length got)) bs | None => (bs, 0) end in
   let st := payload_state c buf key last len got in
   let buf := blit st.2 (filled st.1) bytes in
   let c := set_message (filled st.1 + length bytes) (continuing st.1) st.1 in
   (set_phase (Payload (len - length got - length bytes) key offset last) c, buf)) =
  payload_state c buf key last len (got ++ bs).
Proof.
  intros Hl. rewrite apply_after. set (bytes := drop _ _). assert (length bytes = length bs) as Hb.
  { unfold bytes. rewrite length_drop, length_masked, length_app. lia. }
  cbv zeta. unfold payload_state. cbn [fst snd filled continuing set_message set_phase sender header control phase]. f_equal.
  - unfold set_message, set_phase. cbn. rewrite !Hb, length_app. f_equal; [f_equal; lia|lia].
  - rewrite (masked_app key got bs). fold bytes. rewrite <- blit_app by (rewrite length_masked; lia). by rewrite length_masked.
Qed.

Lemma data_path c buf key last payload tl n :
  phase c = Payload (length payload) key 0 last -> filled c + length payload <= length buf ->
  Forall event_ok (inbox n) -> bytes_of (inbox n) = masked_payload key payload ++ tl ->
  exists t d es,
    path t d ((c, buf), n)
      ((Ready (if last then Complete (filled c + length payload) else More),
        (set_message (if last then 0 else filled c + length payload) (negb last) (set_phase phase_header c),
         blit buf (filled c) payload)), mkNet es (outbox n)) /\
    t <= length payload + 1 /\ d + gaps es = gaps (inbox n) /\ Forall event_ok es /\ bytes_of es = tl.
Proof.
  intros Hp Hroom Hev Hb. set (want := masked_payload key payload) in *.
  assert (length want = length payload) as Hw by apply length_masked.
  set (P := payload_state c buf key last (length payload)).
  assert (P [] = (c, buf)) as H0.
  { unfold P, payload_state. replace (masked_payload key []) with (@nil Z) by (by destruct key). rewrite blit_nil. cbn [length].
    rewrite Nat.add_0_r, Nat.sub_0_r. destruct c; cbn in *. subst. by destruct key. }
  assert (forall es, path 1 0 (P want, mkNet es (outbox n))
      ((Ready (if last then Complete (filled c + length payload) else More),
        (set_message (if last then 0 else filled c + length payload) (negb last) (set_phase phase_header c),
         blit buf (filled c) payload)), mkNet es (outbox n))) as Hlast.
  { intros es. apply path_last. unfold P, payload_state, turn; cbn [fst phase set_message set_phase]. unfold payload_turn.
    rewrite Hw, Nat.sub_diag. cbn [Nat.eqb]. unfold want. rewrite masked_inv. by destruct last. }
  destruct (decide (want = [])) as [E|E].
  - exists 1, 0, (inbox n). split_and!; [|lia|done|done|by rewrite Hb, E]. rewrite <- H0, <- E. destruct n. apply Hlast.
  - destruct (feed P want tl (fun o => o = (Ready More, P want)) [] want n) as (o & t & d & es & -> & Hpath & Ht & Hg & Hev' & Hb');
      [|done|done|done|done|].
    + intros got rest Hgr Hne. assert (length got + length rest = length payload) as Hlen by (by rewrite <- Hw, Hgr, length_app).
      assert (0 < length rest) as Hpos by (destruct rest; [done|cbn [length]; lia]).
      eexists _, _, _, _. split.
      { unfold P at 1, payload_state, turn; cbn [fst phase set_message set_phase]. unfold payload_turn.
        rewrite (proj2 (Nat.eqb_neq (length payload - length got) 0)) by lia. reflexivity. }
      cbn [filled set_message set_phase].
      split; [lia|]. split; [rewrite length_blit; rewrite ?length_masked; lia|]. split; [done|].
      split.
      * eexists. split; [reflexivity|]. rewrite Hgr. unfold P. rewrite <- payload_more by lia. by destruct (match key with Some _ => _ | None => _ end).
      * intros bs rest' -> Hbs Hr. rewrite length_app in Hlen. unfold P. rewrite <- payload_more by lia.
        by destruct (match key with Some _ => _ | None => _ end).
    + rewrite H0 in Hpath. exists (t + 1), (d + 0), es. split_and!; [eapply path_app; [apply Hpath|apply Hlast]|lia|lia|done|done].
Qed.

(** ** Control frames *)

Definition control_state (c : Connection) (buf : list Z) (op : Z) (key : option (list Z)) (len : nat) (got : list Z) : State :=
  (set_control (blit (control c) 0 got) (set_phase (Control op (length got) (len - length got) key) c), buf).

Lemma take_blit_front b src : length src <= length b -> take (length src) (blit b 0 src) = src.
Proof. intros. unfold blit. rewrite take_0, app_nil_l. by rewrite take_app_length. Qed.

(** The payload of a control frame arrives, is unmasked and handled. *)
Lemma control_path c buf op key payload tl n :
  phase c = Control op 0 (length payload) key -> length (control c) = MAX_CONTROL_PAYLOAD_LEN ->
  length payload <= MAX_CONTROL_PAYLOAD_LEN ->
  Forall event_ok (inbox n) -> bytes_of (inbox n) = masked_payload key payload ++ tl ->
  exists b t d es, length b = MAX_CONTROL_PAYLOAD_LEN /\ take (length payload) b = payload /\
    (forall o n', run (control_done masker_key op (length payload) (set_phase phase_header (set_control b c), buf)) (mkNet es (outbox n))
       = (Ret o, n') -> path t d ((c, buf), n) (o, n')) /\
    t <= length payload + 1 /\ d + gaps es = gaps (inbox n) /\ Forall event_ok es /\ bytes_of es = tl.
Proof.
  intros Hp Hlc Hlp Hev Hb. set (want := masked_payload key payload) in *.
  assert (length want = length payload) as Hw by apply length_masked.
  set (P := control_state c buf op key (length payload)).
  assert (P [] = (c, buf)) as H0.
  { unfold P, control_state. rewrite blit_nil. cbn [length]. rewrite Nat.sub_0_r. destruct c; cbn in *. by subst. }
  set (b1 := blit (control c) 0 want).
  set (b := match key with Some k => blit b1 0 (fst (apply k 0 (take (length payload) b1))) | None => b1 end).
  assert (length b1 = MAX_CONTROL_PAYLOAD_LEN) as Hb1 by (unfold b1; rewrite length_blit; lia).
  assert (take (length payload) b1 = want) as Ht1 by (unfold b1; rewrite <- Hw; apply take_blit_front; lia).
  assert (length b = MAX_CONTROL_PAYLOAD_LEN /\ take (length payload) b = payload) as [Hlb Htb].
  { unfold b. destruct key as [k|]; [|done]. rewrite Ht1, apply_mask. cbn [fst]. unfold want. cbn [masked_payload].
    rewrite mask_bytes_inv. split; [rewrite length_blit; lia|]. apply take_blit_front. lia. }
  assert (forall n0 o n', run (control_done masker_key op (length payload) (set_phase phase_header (set_control b c), buf)) n0 = (Ret o, n') ->
    path 1 0 (P want, n0) (o, n')) as Hlast.
  { intros n0 o n' H. apply path_last. unfold P, control_state, turn; cbn [fst phase set_control set_phase]. unfold control_turn.
    rewrite Hw, Nat.sub_diag. cbn [Nat.ltb Nat.leb control set_control set_phase]. rewrite <- H. unfold b, b1. by destruct key. }
  exists b. destruct (decide (want = [])) as [E|E].
  - exists 1, 0, (inbox n). split_and!; [done|done| |lia|done|done|by rewrite Hb, E]. intros o n' H. rewrite <- H0, <- E. apply Hlast.
    by destruct n.
  - destruct (feed P want tl (fun o => o = (Ready More, P want)) [] want n) as (o & t & d & es & -> & Hpath & Ht & Hg & Hev' & Hb');
      [|done|done|done|done|].
    + intros got rest Hgr Hne. assert (length got + length rest = length payload) as Hlen by (by rewrite <- Hw, Hgr, length_app).
      assert (0 < length rest) as Hpos by (destruct rest; [done|cbn [length]; lia]).
      assert (forall bs, length got + length bs <= length payload ->
        (set_phase (Control op (length got + length bs) (length payload - length got - length bs) key)
          (set_control (blit (blit (control c) 0 got) (length got) bs) (set_phase (Control op (length got) (length payload - length got) key) c)), buf)
        = P (got ++ bs)) as Hmore.
      { intros bs Hbs. unfold P, control_state. rewrite length_app, <- blit_app by lia. cbn [Nat.add]. unfold set_phase, set_control; cbn.
        do 3 f_equal; lia. }
      eexists _, _, _, _. split.
      { unfold P at 1, control_state, turn; cbn [fst phase set_control set_phase]. unfold control_turn.
        rewrite (proj2 (Nat.ltb_lt 0 (length payload - length got))) by lia. reflexivity. }
      cbn [control set_control set_phase].
      split; [lia|]. split; [rewrite length_blit; lia|]. split; [done|]. split.
      * eexists. split; [reflexivity|]. rewrite Hgr, <- Hmore by lia. done.
      * intros bs rest' -> Hbs Hr. rewrite length_app in Hlen. rewrite <- Hmore by lia. done.
    + rewrite H0 in Hpath. exists (t + 1), (d + 0), es. split_and!; [done|done| |lia|lia|done|done].
      intros o n' H. eapply path_app; [apply Hpath|by apply Hlast].
Qed.

(** ** The refinement *)

(** Between two frames: [acc] is the part of a message that is here. *)
Record at_boundary (capacity : nat) (s : Sender) (acc : list Z) (cont : bool) (st : State) : Prop := {
  ab_phase : phase st.1 = phase_header;
  ab_sender : sender st.1 = s;
  ab_header : length (header st.1) = MAX_HEADER_LEN;
  ab_control : length (control st.1) = MAX_CONTROL_PAYLOAD_LEN;
  ab_filled : filled st.1 = length acc;
  ab_acc : take (length acc) st.2 = acc;
  ab_buf : length st.2 = capacity;
  ab_cont : continuing st.1 = cont;
}.

Lemma wrap_boundary s capacity buf : length buf = capacity -> at_boundary capacity s [] false (wrap s, buf).
Proof. by split. Qed.

Definition outcome_of (v : Verdict) : Outcome K nat :=
  match v_result v with inl msg => Ready (length msg) | inr e => Erred e end.

(** The receiver in [st] comes to the verdict [v], and leaves [tl] unread behind the frames
    that [v] leaves. *)
Definition comes_to (capacity : nat) (v : Verdict) (tl : list Z) (st : State) (n : Net) : Prop :=
  exists t d o n1 e st' es,
    path t d (st, n) (o, n1) /\ t <= 2 * length (bytes_of (inbox n)) /\ d <= gaps (inbox n) /\ ended o = Some e /\
    run (report e) n1 = (Ret (outcome_of v, st'), mkNet es (outbox n ++ v_out v)) /\
    sender st'.1 = v_sender v /\
    match v_result v with
    | inl msg => at_boundary capacity (v_sender v) [] false st' /\ take (length msg) st'.2 = msg /\
        bytes_of es = concat (wire <$> v_rest v) ++ tl /\ Forall event_ok es /\ gaps es <= gaps (inbox n)
    | inr _ => True
    end.

Lemma comes_to_after capacity v tl t d st n st1 es bs f rest :
  path t d (st, n) ((Ready More, st1), mkNet es (outbox n ++ bs)) ->
  bytes_of (inbox n) = wire f ++ rest -> bytes_of es = rest -> 2 <= length (wire f) -> t <= length (wire f) + 2 ->
  d + gaps es = gaps (inbox n) ->
  comes_to capacity v tl st1 (mkNet es (outbox n ++ bs)) -> comes_to capacity (prepend bs v) tl st n.
Proof.
  intros Hp Hb He H2 Ht Hd (t' & d' & o & n1 & e & st' & es' & Hp' & Ht' & Hd' & Hen & Hr & Hs & Hv).
  exists (t + t'), (d + d'), o, n1, e, st', es'. cbn [inbox outbox prepend v_out v_sender v_result v_rest] in *.
  split_and!; [by eapply path_app|rewrite Hb, length_app; rewrite He in Ht'; lia|lia|done| |done|].
  - rewrite Hr. by rewrite app_assoc.
  - destruct (v_result v); [|done]. destruct Hv as (H1 & H3 & H4 & H5 & H6). split_and!; [done..|lia].
Qed.

Lemma length_wire f : frame_ok f -> length (wire f) = length (hdr f) + length (w_payload f) /\ 2 <= length (hdr f).
Proof. intros Hok. unfold wire. rewrite length_app, length_masked. pose proof (length_hdr f Hok). lia. Qed.

(** An error of the frame itself ends the connection with the code that tells it. *)
Lemma refused_comes_to capacity e s fs tl t d st n c buf es f rest :
  beyond_telling e = false -> sender c = s ->
  path t d (st, n) ((Erred e, (c, buf)), mkNet es (outbox n)) ->
  bytes_of (inbox n) = wire f ++ rest -> t <= length (wire f) + 2 -> 2 <= length (wire f) -> d <= gaps (inbox n) ->
  comes_to capacity (refuse e s fs) tl st n.
Proof.
  intros He Hs Hp Hb Ht H2 Hd. unfold refuse. destruct (say_close (close_code e) s) as [bs s'] eqn:Es.
  eexists t, d, _, _, _, _, es. split_and!; [apply Hp|rewrite Hb, length_app; lia|done|reflexivity| |..].
  - cbn [report]. rewrite He, exec_bind, run_close, Hs, Es. reflexivity.
  - done.
  - done.
Qed.

Lemma judged_inl c buf f h o p : judge c (length buf) f = inl p -> judged c buf f h o -> o = (Ready More, (set_phase p (set_header h c), buf)).
Proof. unfold judged. by intros ->. Qed.
Lemma judged_inr c buf f h o e :
  judge c (length buf) f = inr e -> judged c buf f h o -> exists p, o = (Erred e, (set_phase p (set_header h c), buf)).
Proof. unfold judged. by intros ->. Qed.

Lemma header_refused capacity e s fs tl c buf f rest n :
  frame_ok f -> phase c = phase_header -> length (header c) = MAX_HEADER_LEN -> sender c = s ->
  Forall event_ok (inbox n) -> bytes_of (inbox n) = wire f ++ rest ->
  judge c (length buf) f = inr e -> beyond_telling e = false ->
  comes_to capacity (refuse e s fs) tl (c, buf) n.
Proof.
  intros Hok Hp Hh Hs Hev Hb Hj He. pose proof (length_wire f Hok) as [Hlw H2].
  unfold wire in Hb. rewrite <- app_assoc in Hb.
  destruct (header_path c buf f _ n Hok Hp Hh Hev Hb) as (o & t & d & es & Ho & Hpath & Ht & Hg & _ & _).
  destruct (judged_inr _ _ _ _ _ _ Hj Ho) as [p ->].
  eapply (refused_comes_to capacity e s fs tl t d (c, buf) n _ buf es f rest He); [|apply Hpath|..]; [done| |lia|lia|lia].
  rewrite Hb. unfold wire. by rewrite app_assoc.
Qed.

Lemma header_accepted c buf f rest n p :
  frame_ok f -> phase c = phase_header -> length (header c) = MAX_HEADER_LEN ->
  Forall event_ok (inbox n) -> bytes_of (inbox n) = wire f ++ rest -> judge c (length buf) f = inl p ->
  exists t d es h,
    path t d ((c, buf), n) ((Ready More, (set_phase p (set_header h c), buf)), mkNet es (outbox n)) /\
    length h = MAX_HEADER_LEN /\ t <= length (hdr f) /\ d + gaps es = gaps (inbox n) /\
    Forall event_ok es /\ bytes_of es = masked_payload (w_key f) (w_payload f) ++ rest.
Proof.
  intros Hok Hp Hh Hev Hb Hj. unfold wire in Hb. rewrite <- app_assoc in Hb.
  destruct (header_path c buf f _ n Hok Hp Hh Hev Hb) as (o & t & d & es & Ho & Hpath & Ht & Hg & Hev' & Hb').
  rewrite (judged_inl _ _ _ _ _ _ Hj Ho) in Hpath. eexists t, d, es, _. split_and!; [apply Hpath| |done..].
  assert (length (hdr f) <= MAX_HEADER_LEN) as Hmax.
  { rewrite length_hdr by done. unfold MAX_HEADER_LEN, extended_len_bytes. repeat case_match; lia. }
  rewrite length_app, length_drop. lia.
Qed.

(** A fragment or the whole of a message. *)
Lemma data_frame capacity s acc cont c buf f rest n :
  frame_ok f -> at_boundary capacity s acc cont (c, buf) ->
  Forall event_ok (inbox n) -> bytes_of (inbox n) = wire f ++ rest ->
  judge c (length buf) f = inl (Payload (length (w_payload f)) (w_key f) 0 (w_fin f)) ->
  length acc + length (w_payload f) <= capacity ->
  exists t d es st1,
    path t d ((c, buf), n) ((Ready (if w_fin f then Complete (length (acc ++ w_payload f)) else More), st1), mkNet es (outbox n)) /\
    at_boundary capacity s (if w_fin f then [] else acc ++ w_payload f) (negb (w_fin f)) st1 /\
    take (length (acc ++ w_payload f)) st1.2 = acc ++ w_payload f /\
    t <= length (wire f) + 2 /\ d + gaps es = gaps (inbox n) /\ Forall event_ok es /\ bytes_of es = rest.
Proof.
  intros Hok [Hp Hs Hh Hctl Hfill Hacc Hbuf Hcont] Hev Hb Hj Hroom; cbn [fst snd] in *.
  destruct (header_accepted c buf f rest n _ Hok Hp Hh Hev Hb Hj) as (t & d & es & h & Hpath & Hlh & Ht & Hg & Hev' & Hb').
  set (c1 := set_phase _ (set_header h c)) in *.
  destruct (data_path c1 buf (w_key f) (w_fin f) (w_payload f) rest (mkNet es (outbox n)))
    as (t' & d' & es' & Hpath' & Ht' & Hg' & Hev'' & Hb''); [done|cbn; lia|done|done|].
  cbn [filled c1 set_phase set_header inbox outbox] in *. rewrite Hfill in Hpath'. rewrite <- length_app in Hpath'.
  eexists (t + t'), (d + d'), es', _. pose proof (length_wire f Hok) as [Hlw _].
  split_and!; [by eapply path_app| | |lia|lia|done|done].
  - assert (take (length acc + length (w_payload f)) (blit buf (length acc) (w_payload f)) = acc ++ w_payload f) as Htake.
    { unfold blit. rewrite Hacc, app_assoc, take_app_length' by (by rewrite length_app). done. }
    split; cbn; try done.
    + by destruct (w_fin f).
    + destruct (w_fin f); [done|]. by rewrite length_app.
    + rewrite length_blit; [done|lia].
  - cbn [snd]. unfold blit. rewrite Hacc, app_assoc, take_app_length. done.
Qed.

(** A control frame leaves the message alone. *)
Lemma control_frame capacity s acc cont c buf f rest n :
  frame_ok f -> at_boundary capacity s acc cont (c, buf) ->
  Forall event_ok (inbox n) -> bytes_of (inbox n) = wire f ++ rest ->
  judge c (length buf) f = inl (Control (w_op f) 0 (length (w_payload f)) (w_key f)) ->
  length (w_payload f) <= MAX_CONTROL_PAYLOAD_LEN ->
  exists t d es c1,
    (forall s', at_boundary capacity s' acc cont (set_sender s' c1, buf)) /\ sender c1 = s /\
    take (length (w_payload f)) (control c1) = w_payload f /\
    (forall o n', run (control_done masker_key (w_op f) (length (w_payload f)) (c1, buf)) (mkNet es (outbox n)) = (Ret o, n') ->
      path t d ((c, buf), n) (o, n')) /\
    t <= length (wire f) + 2 /\ d + gaps es = gaps (inbox n) /\ Forall event_ok es /\ bytes_of es = rest.
Proof.
  intros Hok [Hp Hs Hh Hctl Hfill Hacc Hbuf Hcont] Hev Hb Hj Hlen; cbn [fst snd] in *.
  destruct (header_accepted c buf f rest n _ Hok Hp Hh Hev Hb Hj) as (t & d & es & h & Hpath & Hlh & Ht & Hg & Hev' & Hb').
  set (c1 := set_phase _ (set_header h c)) in *.
  destruct (control_path c1 buf (w_op f) (w_key f) (w_payload f) rest (mkNet es (outbox n)))
    as (b & t' & d' & es' & Hlb & Htb & Hpath' & Ht' & Hg' & Hev'' & Hb''); [done|done|done|done|done|].
  pose proof (length_wire f Hok) as [Hlw _]. cbn [inbox outbox] in *.
  exists (t + t'), (d + d'), es', (set_phase phase_header (set_control b c1)).
  split_and!; [by split|done|done| |lia|lia|done|done].
  intros o n' H. eapply path_app; [apply Hpath|]. by apply Hpath'.
Qed.

Lemma comes_to_same capacity v tl c buf st n : st = (c, buf) -> comes_to capacity v tl (c, buf) n -> comes_to capacity v tl st n.
Proof. by intros ->. Qed.

(** The message is complete. *)
Lemma message_comes_to capacity s msg fs tl t d st n st1 es f rest :
  path t d (st, n) ((Ready (Complete (length msg)), st1), mkNet es (outbox n)) ->
  at_boundary capacity s [] false st1 -> take (length msg) st1.2 = msg ->
  bytes_of (inbox n) = wire f ++ rest -> t <= length (wire f) + 2 -> 2 <= length (wire f) -> d + gaps es = gaps (inbox n) ->
  Forall event_ok es -> bytes_of es = concat (wire <$> fs) ++ tl ->
  comes_to capacity (mkVerdict (inl msg) s [] fs) tl st n.
Proof.
  intros Hp Hab Hmsg Hb Ht H2 Hg Hev He. destruct st1 as [c1 b1].
  eexists t, d, _, _, _, (c1, b1), es. split_and!; [apply Hp|rewrite Hb, length_app; lia|lia|reflexivity| |by destruct Hab|].
  - cbn. by rewrite app_nil_r.
  - cbn [v_result v_sender v_rest]. split_and!; [done..|lia].
Qed.

(** The peer has closed. *)
Lemma closed_comes_to capacity code s fs tl t d st n c buf es f rest :
  sender c = s ->
  (forall o n', run (let '(c, buf) := (c, buf) in
      '(_, s) ← close (K := K) masker_key (default NORMAL code) [] (sender c);
      Ret (Erred (Closed code) : Outcome K Step, (set_sender s c, buf))) (mkNet es (outbox n)) = (Ret o, n') -> path t d (st, n) (o, n')) ->
  bytes_of (inbox n) = wire f ++ rest -> t <= length (wire f) + 2 -> 2 <= length (wire f) -> d <= gaps (inbox n) ->
  comes_to capacity (let '(bs, s) := say_close (default NORMAL code) s in mkVerdict (inr (Closed code)) s bs fs) tl st n.
Proof.
  intros Hs Hp Hb Ht H2 Hd. destruct (say_close (default NORMAL code) s) as [bs s'] eqn:Es.
  eexists t, d, _, _, _, (set_sender s' c, buf), es. split_and!; [|rewrite Hb, length_app; lia|done| | |done|done].
  - apply Hp. rewrite exec_bind, run_close, Hs, Es. reflexivity.
  - reflexivity.
  - reflexivity.
Qed.

Lemma frames_come_to fs capacity s acc cont c buf n tl v :
  Forall frame_ok fs -> at_boundary capacity s acc cont (c, buf) ->
  Forall event_ok (inbox n) -> bytes_of (inbox n) = concat (wire <$> fs) ++ tl ->
  assemble capacity s acc cont fs = Some v -> comes_to capacity v tl (c, buf) n.
Proof.
  revert s acc cont c buf n v. induction fs as [|f fs IH]; intros s acc cont c buf n v Hfs Hab Hev Hb; [done|].
  apply Forall_cons in Hfs as [Hf Hfs]. cbn [fmap list_fmap concat] in Hb. rewrite <- app_assoc in Hb.
  pose proof (length_wire f Hf) as [Hlw H2]. assert (2 <= length (wire f)) as Hw2 by lia.
  pose proof Hab as [Hp Hs Hh _ Hfill _ Hbuf Hcont]; cbn [fst snd] in *.
  cbn [assemble].
  assert (forall e, judge c (length buf) f = inr e -> beyond_telling e = false -> comes_to capacity (refuse e s fs) tl (c, buf) n) as Hrefuse
    by (intros e Hj He; by eapply header_refused).
  unfold judge, admit_frame in Hrefuse. rewrite Hs, Hcont, Hfill, Hbuf in Hrefuse. cbn [opcode fin frame_prefix] in Hrefuse.
  assert (forall p, judge c (length buf) f = inl p -> judge c (length buf) f = inl p) as Hjudge by done.
  unfold judge at 1 in Hjudge. unfold admit_frame in Hjudge. rewrite Hs, Hcont, Hfill, Hbuf in Hjudge. cbn [opcode fin frame_prefix] in Hjudge.
  destruct (negb _); [intros [= <-]; by apply Hrefuse|].
  destruct (is_control (w_op f)).
  - destruct (negb (w_fin f)); [intros [= <-]; by apply Hrefuse|]. cbn [orb] in *.
    destruct (Nat.ltb_spec MAX_CONTROL_PAYLOAD_LEN (length (w_payload f))) as [Hl|Hl]; [intros [= <-]; by apply Hrefuse|].
    destruct (control_frame capacity s acc cont c buf f _ n Hf Hab Hev Hb ltac:(rewrite Hbuf; by apply Hjudge) Hl)
      as (t & d & es & c1 & Hab1 & Hs1 & Htake & Hpath & Ht & Hg & Hev' & Hb').
    unfold control_done in Hpath. rewrite Htake in Hpath.
    destruct (w_op f =? PING)%Z.
    { destruct (say PONG (w_payload f) s) as [bs s'] eqn:Es. destruct (assemble capacity s' acc cont fs) as [v'|] eqn:Ea; intros [= <-].
      eapply (comes_to_after capacity v' tl t d _ n (set_sender s' c1, buf) es bs f);
        [apply Hpath|exact Hb|exact Hb'|done|done|done|].
      - rewrite exec_bind, run_send_pong, Hs1, Es. reflexivity.
      - by eapply IH. }
    destruct (w_op f =? PONG)%Z.
    { intros Ha. replace v with (prepend [] v) by (by destruct v).
      eapply (comes_to_after capacity v tl t d _ n (c1, buf) es [] f); [apply Hpath|exact Hb|exact Hb'|done|done|done|].
      - by rewrite app_nil_r.
      - eapply (IH s acc cont); [done| |done|done|done]. destruct c1; cbn in Hs1; rewrite <- Hs1. exact (Hab1 _). }
    assert ((if 2 <=? length (w_payload f) then Some (be_value (take 2 (control c1))) else None) = close_received (w_payload f)) as Hcode.
    { unfold close_received. destruct (Nat.leb_spec 2 (length (w_payload f))) as [H|]; [|done]. do 2 f_equal.
      rewrite <- Htake, take_take. f_equal. lia. }
    rewrite Hcode in Hpath. destruct (say_close _ s) eqn:Es. intros [= <-].
    pose proof (closed_comes_to capacity (close_received (w_payload f)) s fs tl t d (c, buf) n c1 buf es f _ Hs1 Hpath Hb Ht Hw2) as H.
    rewrite Es in H. apply H. lia.
  - destruct ((w_op f =? TEXT)%Z && cont) eqn:E1; [intros [= <-]; by apply Hrefuse|].
    destruct ((w_op f =? CONTINUATION)%Z && negb cont) eqn:E2; [intros [= <-]; by apply Hrefuse|].
    destruct (negb ((w_op f =? TEXT)%Z || (w_op f =? CONTINUATION)%Z)) eqn:E3; [intros [= <-]; by apply Hrefuse|].
    destruct (Nat.ltb_spec (capacity - length acc) (length (w_payload f))) as [Hl|Hl]; [intros [= <-]; by apply Hrefuse|].
    assert (length acc <= capacity) as Hac.
    { destruct Hab as [_ _ _ _ _ Hacc _ _]; cbn [snd] in Hacc. apply (f_equal length) in Hacc. rewrite length_take in Hacc. lia. }
    destruct (data_frame capacity s acc cont c buf f _ n Hf Hab Hev Hb ltac:(rewrite Hbuf; by apply Hjudge) ltac:(lia))
      as (t & d & es & st1 & Hpath & Hab1 & Htake & Ht & Hg & Hev' & Hb').
    destruct (w_fin f).
    + intros [= <-]. by eapply message_comes_to.
    + intros Ha. replace v with (prepend [] v) by (by destruct v). destruct st1 as [c1 b1].
      rewrite <- (app_nil_r (outbox n)) in Hpath.
      eapply (comes_to_after capacity v tl t d _ n (c1, b1) es [] f); [exact Hpath|exact Hb|exact Hb'|done|done|done|].
      by eapply IH.
Qed.

Lemma await_comes_to capacity v tl st n calls fuel :
  comes_to capacity v tl st n -> gaps (inbox n) < calls -> 2 * length (bytes_of (inbox n)) <= fuel ->
  exists st' es, run (await_text calls fuel st) n = (Ret (outcome_of v, st'), mkNet es (outbox n ++ v_out v)) /\
    sender st'.1 = v_sender v /\
    match v_result v with
    | inl msg => at_boundary capacity (v_sender v) [] false st' /\ take (length msg) st'.2 = msg /\
        bytes_of es = concat (wire <$> v_rest v) ++ tl /\ Forall event_ok es /\ gaps es <= gaps (inbox n)
    | inr _ => True
    end.
Proof.
  intros (t & d & o & n1 & e & st' & es & Hp & Ht & Hd & He & Hr & Hs & Hv) Hc Hf.
  exists st', es. split; [|by split]. rewrite <- Hr. eapply path_await; [done|done|lia|lia].
Qed.

(** C25: The receiver computes the meaning of the frames. A stream of frames (any opcodes, fragments, control frames between fragments, either masking) arrives in any pieces, and the caller drops the receiving future at any reads and receives again with the same buffer. Whenever the frame-by-frame specification [assemble], which knows neither reads nor phases, comes to a message or an error, so does [recv_text]: the message is at the front of the buffer, a ping has been answered with its payload, an error has been answered with the close frame of its code, nothing else is written, and after a message exactly the frames behind it are left to read. The fuel and the calls needed are bounded by the bytes and the drops. *)
Theorem recv_text_refines fs capacity s acc cont st n tl v calls fuel :
  Forall frame_ok fs -> at_boundary capacity s acc cont st ->
  Forall event_ok (inbox n) -> bytes_of (inbox n) = concat (wire <$> fs) ++ tl ->
  assemble capacity s acc cont fs = Some v ->
  gaps (inbox n) < calls -> 2 * length (bytes_of (inbox n)) <= fuel ->
  exists st' es, run (await_text calls fuel st) n = (Ret (outcome_of v, st'), mkNet es (outbox n ++ v_out v)) /\
    sender st'.1 = v_sender v /\
    match v_result v with
    | inl msg => at_boundary capacity (v_sender v) [] false st' /\ take (length msg) st'.2 = msg /\
        bytes_of es = concat (wire <$> v_rest v) ++ tl /\ Forall event_ok es /\ gaps es <= gaps (inbox n)
    | inr _ => True
    end.
Proof.
  intros Hfs Hab Hev Hb Ha. destruct st as [c buf]. apply await_comes_to. by eapply frames_come_to.
Qed.

(** ** A sender and a receiver *)

Fixpoint send_all (msgs : list (list Z)) (s : Sender) : Proc Answer Panic (Outcome K () * Sender) :=
  match msgs with
  | [] => Ret (Ready (), s)
  | msg :: msgs =>
      '(r, s) ← send_text (K := K) masker_key msg s;
      match r with Ready _ => send_all msgs s | r => Ret (r, s) end
  end.

(** Receives [count] messages. *)
Fixpoint recv_all (count calls fuel : nat) (st : State) : Proc Answer Panic (Outcome K (list (list Z)) * State) :=
  match count with
  | O => Ret (Ready [], st)
  | S count =>
      '(r, st) ← await_text calls fuel st;
      match r with
      | Ready len =>
          let msg := take len st.2 in
          '(r, st) ← recv_all count calls fuel st;
          Ret (match r with Ready msgs => Ready (msg :: msgs) | r => r end, st)
      | Erred e => Ret (Erred e, st)
      | Dropped => Ret (Dropped, st)
      end
  end.

(** A sender as its role makes it. *)
Definition sender_ok (s : Sender) : Prop :=
  closed s = false /\ match mask s with Some _ => role s = Client | None => role s = Server end.

Definition text_frame (key : option (list Z)) (msg : list Z) : WireFrame := mkWireFrame true TEXT key msg.

Lemma send_all_frames (msgs : list (list Z)) s es out :
  (forall m, length (fst (masker_key m)) = 4) -> sender_ok s ->
  exists keys s', run (send_all msgs s) (mkNet es out) =
      (Ret (Ready (), s'), mkNet es (out ++ concat (wire <$> zip_with text_frame keys msgs))) /\
    length keys = length msgs /\
    Forall (fun key => match key with Some k => role s = Client /\ length k = 4 | None => role s = Server end) keys.
Proof.
  intros Hkey. revert s out. induction msgs as [|msg msgs IH]; intros s out Hs.
  - exists [], s. cbn. by rewrite app_nil_r.
  - destruct Hs as [Hcl Hm]. destruct (next_key masker_key s) as [key s1] eqn:En.
    assert (sender_ok s1 /\ role s1 = role s /\ match key with Some k => role s = Client /\ length k = 4 | None => role s = Server end) as (Hs1 & Hr & Hk).
    { unfold next_key in En. unfold sender_ok. destruct (mask s) as [m|] eqn:Em.
      - pose proof (Hkey m) as H4. destruct (masker_key m) as [k m']. injection En as <- <-. done.
      - injection En as <- <-. by rewrite Em. }
    destruct (IH s1 (out ++ wire (text_frame key msg)) Hs1) as (keys & s' & Hrun & Hlen & Hall).
    exists (key :: keys), s'. split; [|split; [cbn; by rewrite Hlen|constructor; [done|by rewrite <- Hr]]].
    cbn [send_all]. unfold send_text. rewrite Hcl, exec_bind, run_send_frame, En. cbn [inbox outbox].
    change (mkWireFrame true TEXT key msg) with (text_frame key msg). rewrite Hrun. cbn [zip_with fmap list_fmap concat].
    by rewrite <- app_assoc.
Qed.

Lemma recv_all_frames (msgs : list (list Z)) (keys : list (option (list Z))) capacity s st n calls fuel :
  length keys = length msgs -> at_boundary capacity s [] false st ->
  Forall (fun key => bool_decide (is_Some key) = requires_masked_input (role s)) keys ->
  Forall frame_ok (zip_with text_frame keys msgs) -> Forall (fun msg => length msg <= capacity) msgs ->
  Forall event_ok (inbox n) -> bytes_of (inbox n) = concat (wire <$> zip_with text_frame keys msgs) ->
  gaps (inbox n) < calls -> 2 * length (bytes_of (inbox n)) <= fuel ->
  exists st' es, run (recv_all (length msgs) calls fuel st) n = (Ret (Ready msgs, st'), mkNet es (outbox n)) /\
    bytes_of es = [] /\ at_boundary capacity s [] false st'.
Proof.
  revert keys st n. induction msgs as [|msg msgs IH]; intros keys st n Hlen Hab Hk Hok Hcap Hev Hb Hg Hf.
  { destruct keys; [|done]. exists st, (inbox n). by destruct n. }
  destruct keys as [|key keys]; [done|]. injection Hlen as Hlen. cbn [zip_with] in Hok, Hb.
  apply Forall_cons in Hk as [Hkey Hk]. apply Forall_cons in Hok as [Hokf Hok]. apply Forall_cons in Hcap as [Hm Hcap].
  set (fs := zip_with text_frame keys msgs) in *. destruct st as [c buf].
  assert (assemble capacity s [] false (text_frame key msg :: fs) = Some (mkVerdict (inl msg) s [] fs)) as Ha.
  { cbn [assemble w_key w_op w_fin w_payload text_frame]. rewrite Hkey, eqb_reflx. cbn -[Nat.ltb].
    rewrite Nat.sub_0_r. destruct (Nat.ltb_spec capacity (length msg)); [lia|done]. }
  rewrite <- (app_nil_r (concat _)) in Hb.
  destruct (await_comes_to capacity _ [] (c, buf) n calls fuel (frames_come_to _ _ _ _ _ _ _ _ _ _ (Forall_cons_2 _ _ _ Hokf Hok) Hab Hev Hb Ha) Hg Hf)
    as (st1 & es & Hrun & Hs1 & Hab1 & Htake & Hes & Hev1 & Hg1). cbn [v_out v_sender v_rest v_result] in *.
  rewrite app_nil_r in Hrun, Hes.
  destruct (IH keys st1 (mkNet es (outbox n)) Hlen Hab1 Hk Hok Hcap Hev1 Hes) as (st2 & es2 & Hrun2 & Hes2 & Hab2); cbn [inbox] in *.
  { lia. }
  { rewrite Hb, app_nil_r in Hf. rewrite Hes. cbn [fmap list_fmap concat] in Hf. rewrite length_app in Hf. fold fs in Hf |- *. lia. }
  exists st2, es2. split_and!; [|done|done]. cbn [length recv_all]. erewrite exec_bind_ret by exact Hrun. cbn [outcome_of v_result].
  erewrite exec_bind_ret by exact Hrun2. by rewrite Htake.
Qed.

(** C26: Messages arrive, in order and whole. A client and a server (either may send), the sender's generator giving keys of four bytes: every list of texts that fit the receiver's buffer is sent without error, and from the bytes written, cut into any pieces and received with any number of dropped and repeated calls, the receiver gets exactly that list and is at a frame boundary with nothing left. *)
Theorem messages_arrive (msgs : list (list Z)) a b capacity buf es out calls fuel :
  (forall m, length (fst (masker_key m)) = 4) -> sender_ok a -> role b <> role a -> length buf = capacity ->
  Forall (fun msg => length msg <= capacity /\ (Z.of_nat (length msg) <= usize_max)%Z /\
    (Z.of_nat (length msg) < 9223372036854775808)%Z) msgs ->
  exists a' w, run (send_all msgs a) (mkNet [] []) = (Ret (Ready (), a'), mkNet [] w) /\
    (Forall event_ok es -> bytes_of es = w -> gaps es < calls -> 2 * length w <= fuel ->
     exists st' es', run (recv_all (length msgs) calls fuel (wrap b, buf)) (mkNet es out) = (Ret (Ready msgs, st'), mkNet es' out) /\
       bytes_of es' = [] /\ at_boundary capacity b [] false st').
Proof.
  intros Hkey Ha Hroles Hbuf Hmsgs.
  destruct (send_all_frames msgs a [] [] Hkey Ha) as (keys & a' & Hrun & Hlen & Hkeys).
  exists a', (concat (wire <$> zip_with text_frame keys msgs)). split; [exact Hrun|]. intros Hev Hb Hg Hf.
  apply (recv_all_frames msgs keys capacity b); cbn [inbox]; [done|by apply wrap_boundary| | | |done|done|done|by rewrite Hb].
  - eapply Forall_impl; [exact Hkeys|]. intros [k|] H; destruct (role b), (role a); naive_solver.
  - apply Forall_forall. intros f (key & msg & -> & Hk & Hm)%elem_of_zip_with.
    pose proof (proj1 (Forall_forall _ _) Hkeys key Hk) as Hk4.
    destruct (proj1 (Forall_forall _ _) Hmsgs msg Hm) as (H1 & H2 & H3).
    split_and!; [done..|]. cbn. destruct key; [apply Hk4|done].
  - eapply Forall_impl; [exact Hmsgs|]. by intros msg (H & _ & _).
Qed.
End Session.

(** A client sends three texts, one of them empty; the stream is cut inside headers and
    payloads, and the server's receive is dropped three times. *)
Definition demo_key (m : unit) : list Z * unit := ([55; 250; 33; 61]%Z, m).

Lemma messages_arrive_witness :
  let send := exec (handle (K := unit)) (send_all demo_key [[72; 105]%Z; []; [33]%Z] (mkSender Client (Some tt) false)) (mkNet [] []) in
  (exists w, send.2 = mkNet [] w) /\
  exists st' es',
    exec (handle (K := unit)) (recv_all (K := unit) u32_max demo_key 3 5 200 (wrap (mkSender Server None false), replicate 4 0%Z))
      (mkNet [Chunk (take 3 (outbox send.2)); Gap; Gap; Chunk (take 7 (drop 3 (outbox send.2))); Gap; Chunk (drop 10 (outbox send.2))] []) =
      (Ret (Ready [[72; 105]%Z; []; [33]%Z], st'), mkNet es' []).
Proof.
  split; [vm_compute; eauto|].
  destruct (messages_arrive (K := unit) u32_max demo_key [[72; 105]%Z; []; [33]%Z] (mkSender Client (Some tt) false) (mkSender Server None false)
    4 (replicate 4 0%Z)
    [Chunk [129; 130; 55]%Z; Gap; Gap; Chunk [250; 33; 61; 127; 147; 129; 128]%Z; Gap; Chunk [55; 250; 33; 61; 129; 129; 55; 250; 33; 61; 22]%Z] [] 5 200)
    as (a' & w & Hw & Harr).
  - done.
  - done.
  - done.
  - done.
  - repeat constructor; cbn; unfold u32_max; lia.
  - vm_compute in Hw. injection Hw as _ <-.
    destruct Harr as (st' & es' & Hrun & _).
    + repeat constructor; done.
    + done.
    + cbn; lia.
    + cbn; lia.
    + exists st', es'. exact Hrun.
Defined.

(** A fragmented message with a ping between its fragments, to a server. *)
Definition demo_frames : list WireFrame :=
  let key := Some [1; 2; 3; 4]%Z in
  [mkWireFrame false TEXT key [72; 105]%Z; mkWireFrame true PING key [7]%Z; mkWireFrame true CONTINUATION key [33]%Z].
Definition demo_net : Net := mkNet [Gap; Chunk (take 9 (concat (wire <$> demo_frames))); Gap; Chunk (drop 9 (concat (wire <$> demo_frames)))] [].

Lemma recv_text_refines_witness :
  exists st' es,
    exec (handle (K := unit)) (await_text (K := unit) u32_max demo_key 3 100 (wrap (mkSender Server None false), replicate 4 0%Z)) demo_net =
      (Ret (Ready 3, st'), mkNet es [138; 1; 7]%Z) /\ take 3 st'.2 = [72; 105; 33]%Z.
Proof.
  destruct (recv_text_refines (K := unit) u32_max demo_key demo_frames 4 (mkSender Server None false) [] false
    (wrap (mkSender Server None false), replicate 4 0%Z) demo_net []
    (mkVerdict (inl [72; 105; 33]%Z) (mkSender Server None false) [138; 1; 7]%Z []) 3 100)
    as (st' & es & Hrun & _ & _ & Htake & _).
  - repeat constructor; cbn; unfold u32_max; lia.
  - by apply wrap_boundary.
  - repeat constructor; done.
  - vm_compute. reflexivity.
  - vm_compute. reflexivity.
  - cbn; lia.
  - vm_compute. repeat constructor.
  - exists st', es. split; [exact Hrun|exact Htake].
Defined.
