(* ===== verification/Registry.v ===== *)
(** * The tracker's peer records ([microtun/src/commands/tracker/registry.rs],
      [microtun-core/src/key.rs])

    A registry owns the configured records and two indexes into them, by public key and by
    tunnel prefix. The base64 crate is a parameter; the prefix index is the interface
    [PrefixMap]. *)

From S2P Require Import Prelude Clock Ip Cidr Firewall Resolve.
Local Open Scope nat_scope.

(** ** [key.rs] *)

Notation KeyBytes := (list Z) (only parsing).
Definition KEY_TEXT_LEN : nat := 44.

Section Keys.
(** The standard engine of the base64 crate; [None] is its error. *)
Context (b64_encode : list Z -> list Z) (b64_decode : list Z -> option (list Z)).

Definition encode_key (key : KeyBytes) : list Z := b64_encode key.

Definition decode_into (text : list Z) : option KeyBytes :=
  bytes ← b64_decode text; if length bytes =? 32 then Some bytes else None.
Definition decode_key (text : list Z) : option KeyBytes :=
  if negb (length text =? KEY_TEXT_LEN) then None else decode_into text.

Lemma decode_key_length text key : decode_key text = Some key -> length text = KEY_TEXT_LEN /\ length key = 32.
Proof.
  unfold decode_key, decode_into. destruct (Nat.eqb_spec (length text) KEY_TEXT_LEN); [|done]. cbn [negb].
  destruct (b64_decode text) as [bytes|]; cbn; [|done]. destruct (Nat.eqb_spec (length bytes) 32); [|done]. by intros [= <-].
Qed.
End Keys.

(** ** Records *)

Definition KEY_PREFIX_LEN : nat := 12.

Section Registry.
Context {CR : Cidr} {PM : PrefixMap nat} (b64_encode : list Z -> list Z).

Record PeerRecord := mkPeerRecord {
  rec_public_key : KeyBytes;
  rec_public_key_text : list Z;
  rec_endpoint : option SocketAddr;
  rec_relay : option KeyBytes;
  rec_persistent_keepalive : option Z;
  rec_address : IpCidr;
}.

Definition record_new (public_key : KeyBytes) (endpoint : option SocketAddr) (relay : option KeyBytes)
    (address : IpCidr) (persistent_keepalive : option Z) : PeerRecord :=
  mkPeerRecord public_key (encode_key b64_encode public_key) endpoint relay persistent_keepalive address.

(** The wire shape of a record; its texts are the values that they spell. *)
Record PeerInfo := mkPeerInfo {
  info_public_key : KeyBytes;
  info_endpoint : option SocketAddr;
  info_relay : option KeyBytes;
  info_address : IpCidr;
  info_persistent_keepalive : option Z;
}.

Definition info_with_endpoint (r : PeerRecord) (endpoint : option SocketAddr) : PeerInfo :=
  mkPeerInfo (rec_public_key r) endpoint (rec_relay r) (rec_address r) (rec_persistent_keepalive r).

Definition resolved_with_endpoint (r : PeerRecord) (endpoint : option SocketAddr) : ResolvedPeer :=
  mkResolvedPeer (rec_public_key r) endpoint (rec_relay r) (rec_address r) AllowAll (from_secs <$> rec_persistent_keepalive r).

Definition key_prefix (r : PeerRecord) : list Z := take KEY_PREFIX_LEN (rec_public_key_text r).

(** ** The registry *)

Record Registry := mkRegistry {
  reg_peers : list PeerRecord;
  reg_by_key : gmap KeyBytes nat;
  reg_routes : pm nat;
  reg_route_count : nat;
}.

Inductive BuildError :=
| SharedKey (text : list Z)
| SharedPrefix (owner other : list Z) (cidr : IpCidr)
| TrieFull.  (* [expect]: the trie grows on demand *)

Definition registry_empty : Registry := mkRegistry [] ∅ pm_new 0.

(** One turn of the loop of [build]. *)
Definition build_step (reg : Registry) (r : PeerRecord) : Registry + BuildError :=
  let index := length (reg_peers reg) in
  match reg_by_key reg !! rec_public_key r with
  | Some _ => inr (SharedKey (rec_public_key_text r))
  | None =>
      let cidr := rec_address r in
      match pm_get (reg_routes reg) cidr with
      | Some owner => inr (SharedPrefix (default [] (key_prefix <$> reg_peers reg !! owner)) (key_prefix r) cidr)
      | None =>
          match pm_insert (reg_routes reg) cidr index with
          | (None, _) => inr TrieFull
          | (Some _, routes) =>
              inl (mkRegistry (reg_peers reg ++ [r]) (<[rec_public_key r := index]> (reg_by_key reg)) routes
                     (S (reg_route_count reg)))
          end
      end
  end.

Fixpoint build_from (reg : Registry) (records : list PeerRecord) : Registry + BuildError :=
  match records with
  | [] => inl reg
  | r :: records => match build_step reg r with inl reg => build_from reg records | inr e => inr e end
  end.
Definition build (records : list PeerRecord) : Registry + BuildError := build_from registry_empty records.

Definition lookup_key (reg : Registry) (public_key : KeyBytes) : option PeerRecord :=
  index ← reg_by_key reg !! public_key; reg_peers reg !! index.
Definition lookup_address (reg : Registry) (address : IpAddr) : option PeerRecord :=
  index ← pm_lookup (reg_routes reg) address; reg_peers reg !! index.
Definition peer_count (reg : Registry) : nat := length (reg_peers reg).
Definition route_count (reg : Registry) : nat := reg_route_count reg.

(** ** Correctness *)

Context {CL : CidrLaws} (CAPACITY : nat) {PL : PrefixMapLaws (V := nat) CAPACITY}.

(** Both indexes find exactly the records. *)
Record registry_ok (reg : Registry) : Prop := {
  ro_trie : pm_ok (reg_routes reg);
  ro_keys k i : reg_by_key reg !! k = Some i <-> exists r, reg_peers reg !! i = Some r /\ rec_public_key r = k;
  ro_routes c i : pm_map (reg_routes reg) !! c = Some i <-> exists r, reg_peers reg !! i = Some r /\ ckey (rec_address r) = c;
  ro_size : size (pm_map (reg_routes reg)) = length (reg_peers reg);
  ro_count : reg_route_count reg = length (reg_peers reg);
}.

Lemma registry_empty_ok : registry_ok registry_empty.
Proof.
  destruct pm_new_ok as [Hok Hm]. split; cbn; [done| | | |done].
  - intros k i. split; [by rewrite lookup_empty|]. by intros (r & H & _).
  - intros c i. rewrite Hm. split; [by rewrite lookup_empty|]. by intros (r & H & _).
  - by rewrite Hm, map_size_empty.
Qed.

(** The records of a registry differ in key and in prefix. *)
Definition distinct (rs : list PeerRecord) : Prop :=
  NoDup (rec_public_key <$> rs) /\ NoDup (rec_address <$> rs).

Lemma registry_distinct reg : registry_ok reg -> distinct (reg_peers reg).
Proof.
  intros [_ Hk Hr _ _]. split; apply NoDup_alt; intros i j x;
    rewrite !list_lookup_fmap, !fmap_Some; intros (r & Hi & ->) (r' & Hj & E).
  - assert (reg_by_key reg !! rec_public_key r = Some i) as H1 by (apply Hk; eauto).
    assert (reg_by_key reg !! rec_public_key r = Some j) as H2 by (apply Hk; eauto). congruence.
  - assert (pm_map (reg_routes reg) !! ckey (rec_address r) = Some i) as H1 by (apply Hr; eauto).
    assert (pm_map (reg_routes reg) !! ckey (rec_address r) = Some j) as H2 by (apply Hr; exists r'; rewrite E; eauto). congruence.
Qed.

Lemma build_step_spec reg r :
  registry_ok reg -> length (reg_peers reg) < CAPACITY ->
  match build_step reg r with
  | inl reg' => registry_ok reg' /\ reg_peers reg' = reg_peers reg ++ [r]
  | inr e => ~ distinct (reg_peers reg ++ [r]) /\ e <> TrieFull
  end.
Proof.
  intros [Ht Hk Hr Hs Hc] Hcap. unfold build_step.
  assert (forall i r', (reg_peers reg ++ [r]) !! i = Some r' <->
    reg_peers reg !! i = Some r' \/ (i = length (reg_peers reg) /\ r' = r)) as Hsnoc.
  { intros i r'. destruct (decide (i < length (reg_peers reg))) as [Hi|Hi].
    - rewrite lookup_app_l by done. split; [auto|]. intros [H|[-> _]]; [done|lia].
    - rewrite lookup_app_r by lia. rewrite list_lookup_singleton_Some. rewrite (lookup_ge_None_2 _ i) by lia.
      split; [intros [Hi' ->]; right; split; [lia|done]|]. intros [H|[-> ->]]; [done|]. split; [lia|done]. }
  destruct (reg_by_key reg !! rec_public_key r) as [i|] eqn:Ek.
  { apply Hk in Ek as (r' & Hi & Er). split; [|done]. intros [Hd _]. rewrite NoDup_alt in Hd.
    assert (i = length (reg_peers reg)) as ->; [|by apply lookup_lt_Some in Hi; lia].
    apply (Hd i (length (reg_peers reg)) (rec_public_key r)); rewrite list_lookup_fmap, fmap_Some.
    - exists r'. split; [|done]. apply Hsnoc. by left.
    - exists r. split; [|done]. apply Hsnoc. by right. }
  rewrite (pm_get_spec _ _ Ht). destruct (pm_map (reg_routes reg) !! ckey (rec_address r)) as [i|] eqn:Er.
  { apply Hr in Er as (r' & Hi & Er). split; [|done]. intros [_ Hd]. rewrite NoDup_alt in Hd. apply cidr_ext in Er.
    assert (i = length (reg_peers reg)) as ->; [|by apply lookup_lt_Some in Hi; lia].
    apply (Hd i (length (reg_peers reg)) (rec_address r)); rewrite list_lookup_fmap, fmap_Some.
    - exists r'. split; [|done]. apply Hsnoc. by left.
    - exists r. split; [|done]. apply Hsnoc. by right. }
  pose proof (pm_insert_spec (reg_routes reg) (rec_address r) (length (reg_peers reg)) Ht ltac:(right; lia)) as Hins.
  destruct (pm_insert (reg_routes reg) (rec_address r) (length (reg_peers reg))) as [o routes].
  destruct Hins as (-> & Hok' & Hm'). split; [|done]. split; cbn [reg_peers reg_by_key reg_routes reg_route_count]; [done| | | |].
  - intros k i. rewrite lookup_insert_Some, Hk. setoid_rewrite Hsnoc. split.
    + intros [[<- <-]|[Hne (r' & Hi & <-)]]; eauto 6.
    + intros (r' & [Hi|[-> ->]] & <-); [|auto]. right. split; [|eauto]. intros E.
      assert (reg_by_key reg !! rec_public_key r' = Some i) as H by (apply Hk; eauto). congruence.
  - intros c i. rewrite Hm', lookup_insert_Some, Hr. setoid_rewrite Hsnoc. split.
    + intros [[<- <-]|[Hne (r' & Hi & <-)]]; eauto 6.
    + intros (r' & [Hi|[-> ->]] & <-); [|auto]. right. split; [|eauto]. intros E.
      assert (pm_map (reg_routes reg) !! ckey (rec_address r') = Some i) as H by (apply Hr; eauto). congruence.
  - rewrite Hm', map_size_insert_None by done. rewrite length_app. cbn. lia.
  - rewrite length_app. cbn. lia.
Qed.

Lemma build_from_spec records reg :
  registry_ok reg -> length (reg_peers reg) + length records <= CAPACITY ->
  match build_from reg records with
  | inl reg' => registry_ok reg' /\ reg_peers reg' = reg_peers reg ++ records
  | inr e => ~ distinct (reg_peers reg ++ records) /\ e <> TrieFull
  end.
Proof.
  revert reg. induction records as [|r records IH]; intros reg Hok Hcap; cbn [build_from length] in *.
  { by rewrite app_nil_r. }
  pose proof (build_step_spec reg r Hok ltac:(lia)) as Hstep. destruct (build_step reg r) as [reg1|e].
  - destruct Hstep as [Hok1 E1]. specialize (IH reg1 Hok1). rewrite E1, length_app in IH. cbn [length] in IH.
    rewrite <- app_assoc in IH. apply IH. lia.
  - destruct Hstep as [Hd Hf]. split; [|done]. intros [H1 H2]. apply Hd.
    change (r :: records) with ([r] ++ records) in *. rewrite app_assoc, fmap_app in H1. rewrite app_assoc, fmap_app in H2.
    by apply NoDup_app in H1 as [H1 _]; apply NoDup_app in H2 as [H2 _].
Qed.

(** A registry is built exactly when no two records share a key or a prefix, and then finds what it was given: a lookup by key returns the record with that key and only it, and a lookup by address returns the record whose prefix is the longest that contains the address, none only when no prefix does. The collision of two keys or prefixes is an error, never a silent choice, and the prefix trie never runs out. *)
Theorem build_finds (records : list PeerRecord) :
  length records <= CAPACITY ->
  match build records with
  | inl reg =>
      distinct records /\ peer_count reg = length records /\ route_count reg = length records /\
      (forall k r, lookup_key reg k = Some r <-> r ∈ records /\ rec_public_key r = k) /\
      (forall ip r, lookup_address reg ip = Some r -> r ∈ records /\ contains (rec_address r) ip = true /\
         forall r', r' ∈ records -> contains (rec_address r') ip = true ->
           network_length (rec_address r') <= network_length (rec_address r)) /\
      (forall ip, lookup_address reg ip = None -> forall r, r ∈ records -> contains (rec_address r) ip = false)
  | inr e => ~ distinct records /\ e <> TrieFull
  end.
Proof.
  intros Hcap. pose proof (build_from_spec records registry_empty registry_empty_ok Hcap) as H. unfold build.
  destruct (build_from registry_empty records) as [reg|e]; [|done]. destruct H as [Hok Ep]. cbn [reg_peers registry_empty app] in Ep.
  pose proof (registry_distinct reg Hok) as Hd. destruct Hok as [Ht Hk Hr Hs Hc]. rewrite Ep in *.
  split_and!; [done|unfold peer_count; by rewrite Ep|done|..].
  - intros k r. unfold lookup_key. rewrite bind_Some. setoid_rewrite Hk. rewrite Ep. split.
    + intros (i & (r' & Hi & <-) & Hi'). assert (r = r') as -> by congruence. split; [|done]. by apply list_elem_of_lookup_2 in Hi.
    + intros [[i Hi]%list_elem_of_lookup_1 <-]. eauto.
  - intros ip r. unfold lookup_address. rewrite bind_Some. intros (i & Hl & Hi). rewrite Ep in Hi.
    pose proof (pm_lookup_spec (reg_routes reg) ip Ht) as Hlpm. rewrite Hl in Hlpm. destruct Hlpm as (l & Hl1 & Hm & Hlong).
    apply Hr in Hm as (r' & Hi' & Ec). assert (r = r') as <- by congruence.
    destruct (ckey_contains (rec_address r) ip l Hl1 Ec) as [Hin Hlen]. split_and!; [by apply list_elem_of_lookup_2 in Hi|done|].
    intros r' [j Hj]%list_elem_of_lookup_1 Hin'. apply Nat.nlt_ge. intros Hlt.
    pose proof (contains_width _ _ Hin') as Hw. apply contains_true in Hin'.
    assert (pm_map (reg_routes reg) !! prefix_key ip (network_length (rec_address r')) = Some j) as Hj'
      by (rewrite Hin'; apply Hr; eauto).
    rewrite (Hlong (network_length (rec_address r'))) in Hj'; [done|lia].
  - intros ip Hnone r [j Hj]%list_elem_of_lookup_1. destruct (contains (rec_address r) ip) eqn:Hin; [|done]. exfalso.
    pose proof (contains_width _ _ Hin) as Hw. apply contains_true in Hin.
    assert (pm_map (reg_routes reg) !! prefix_key ip (network_length (rec_address r)) = Some j) as Hj' by (rewrite Hin; apply Hr; eauto).
    pose proof (pm_lookup_spec (reg_routes reg) ip Ht) as Hlpm. unfold lookup_address in Hnone.
    destruct (pm_lookup (reg_routes reg) ip) as [i|].
    + destruct Hlpm as (l & _ & Hm & _). apply Hr in Hm as (r' & Hi & _). cbn in Hnone. rewrite Ep in Hnone. congruence.
    + by rewrite Hlpm in Hj'.
Qed.
End Registry.

Section RegistryWitness.
#[local] Existing Instance CidrModel.ops.
#[local] Existing Instance CidrModel.laws.
#[local] Existing Instance MapModel.ops.
#[local] Existing Instance MapModel.laws.

(** 10.0.0.0/8 and 10.1.0.0/16. *)
Definition demo_records : list PeerRecord :=
  [record_new (fun bs => bs) (replicate 32 1%Z) None None (CidrModel.mk (V4 167772160) 8 eq_refl) None;
   record_new (fun bs => bs) (replicate 32 2%Z) None (Some (replicate 32 1%Z)) (CidrModel.mk (V4 167837696) 16 eq_refl) (Some 25%Z)].

Lemma build_finds_witness :
  exists reg, build demo_records = inl reg /\
    rec_public_key <$> lookup_address reg (V4 167837700) = Some (replicate 32 2%Z) /\
    distinct demo_records.
Proof.
  assert (match build demo_records with
    | inl reg => bool_decide (rec_public_key <$> lookup_address reg (V4 167837700) = Some (replicate 32 2%Z))
    | inr _ => false end = true) as Hb by (vm_compute; reflexivity).
  pose proof (build_finds 4 demo_records ltac:(cbn; lia)) as H.
  destruct (build demo_records) as [reg|e]; [|discriminate Hb].
  exists reg. split; [reflexivity|]. split; [by apply bool_decide_eq_true in Hb|]. apply H.
Defined.
End RegistryWitness.
