(* ===== verification/Watch.v ===== *)
(** * Publication and keyed invalidation ([microtun/src/commands/tracker/registry.rs])

    The published registry with its overlay of observed endpoints, and the dispatcher that
    tells each connection which of the keys it watches to look up again. A queue is shared
    between the dispatcher and its subscription: both reach it by the connection's id. The
    locks make every operation atomic; wake-ups are not modelled. *)

From S2P Require Import Prelude Clock Ip Cidr Firewall Resolve Registry.
Local Open Scope nat_scope.

Notation KeyBytes := (list Z) (only parsing).

(** ** Changes and queues *)

Inductive RegistryChangeKind := Changed | Removed.
#[export] Instance RegistryChangeKind_eq_dec : EqDecision RegistryChangeKind.
Proof. solve_decision. Defined.

Record RegistryChange := mkChange { ch_public_key : KeyBytes; ch_kind : RegistryChangeKind }.
#[export] Instance RegistryChange_eq_dec : EqDecision RegistryChange.
Proof. solve_decision. Defined.

Record KeyedDispatchQueue := mkQueue { q_pending : gmap KeyBytes RegistryChangeKind; q_closed : bool }.

Definition queue_new : KeyedDispatchQueue := mkQueue ∅ false.
Definition queue_push (change : RegistryChange) (q : KeyedDispatchQueue) : KeyedDispatchQueue :=
  if q_closed q then q else mkQueue (<[ch_public_key change := ch_kind change]> (q_pending q)) (q_closed q).
Definition queue_remove (public_key : KeyBytes) (q : KeyedDispatchQueue) : KeyedDispatchQueue :=
  mkQueue (delete public_key (q_pending q)) (q_closed q).
Definition queue_close (q : KeyedDispatchQueue) : KeyedDispatchQueue := mkQueue (q_pending q) true.

(** What [recv] comes to; [Waits] until it is notified. *)
Inductive Received := Closed | Waits | Change (change : RegistryChange).

Section QueueRecv.
(** [pending.keys().next()]: some key of a map that has one. *)
Context (first_key : gmap KeyBytes RegistryChangeKind -> option KeyBytes).

Definition queue_recv (q : KeyedDispatchQueue) : Received * KeyedDispatchQueue :=
  if q_closed q then (Closed, q) else
  match first_key (q_pending q) with
  | None => (Waits, q)
  | Some public_key =>
      match q_pending q !! public_key with
      | Some kind => (Change (mkChange public_key kind), mkQueue (delete public_key (q_pending q)) (q_closed q))
      | None => (Waits, q)
      end
  end.
End QueueRecv.

(** ** The dispatcher *)

Record DispatchConnection := mkDispatch {
  dc_caller : KeyBytes;
  dc_watched : gset KeyBytes;
  dc_queue : KeyedDispatchQueue;
}.

Record KeyedDispatchState := mkState {
  next_id : Z;
  connections : gmap Z DispatchConnection;
  by_key : gmap KeyBytes (gset Z);
  by_caller : gmap KeyBytes (gset Z);
}.

Definition dispatcher_new : KeyedDispatchState := mkState 0 ∅ ∅ ∅.

(** An index from keys to sets of ids that never holds an empty set. *)
Definition index_add (k : KeyBytes) (id : Z) (m : gmap KeyBytes (gset Z)) : gmap KeyBytes (gset Z) :=
  <[k := {[id]} ∪ default ∅ (m !! k)]> m.
Definition index_remove (k : KeyBytes) (id : Z) (m : gmap KeyBytes (gset Z)) : gmap KeyBytes (gset Z) :=
  match m !! k with
  | Some ids => let ids := ids ∖ {[id]} in if decide (ids = ∅) then delete k m else <[k := ids]> m
  | None => m
  end.

Definition subscribe (caller : KeyBytes) (st : KeyedDispatchState) : Z * KeyedDispatchState :=
  let id := next_id st in
  (id, mkState (wrap_add u64_max id 1) (<[id := mkDispatch caller ∅ queue_new]> (connections st)) (by_key st)
         (index_add caller id (by_caller st))).

Definition watch (id : Z) (public_key : KeyBytes) (st : KeyedDispatchState) : KeyedDispatchState :=
  match connections st !! id with
  | None => st
  | Some c =>
      if q_closed (dc_queue c) || bool_decide (public_key ∈ dc_watched c) then st else
      mkState (next_id st) (<[id := mkDispatch (dc_caller c) ({[public_key]} ∪ dc_watched c) (dc_queue c)]> (connections st))
        (index_add public_key id (by_key st)) (by_caller st)
  end.

Definition unwatch (id : Z) (public_key : KeyBytes) (st : KeyedDispatchState) : KeyedDispatchState :=
  match connections st !! id with
  | None => st
  | Some c =>
      if bool_decide (public_key ∉ dc_watched c) then st else
      mkState (next_id st)
        (<[id := mkDispatch (dc_caller c) (dc_watched c ∖ {[public_key]}) (queue_remove public_key (dc_queue c))]> (connections st))
        (index_remove public_key id (by_key st)) (by_caller st)
  end.

(** The loops over the keys that a connection watched. *)
Definition unindex (id : Z) (watched : gset KeyBytes) (m : gmap KeyBytes (gset Z)) : gmap KeyBytes (gset Z) :=
  foldr (fun k => index_remove k id) m (elements watched).

(** [KeyedDispatcher::remove], when the last handle of a subscription is dropped. *)
Definition remove (id : Z) (st : KeyedDispatchState) : KeyedDispatchState :=
  match connections st !! id with
  | None => st
  | Some c =>
      mkState (next_id st) (delete id (connections st)) (unindex id (dc_watched c) (by_key st))
        (index_remove (dc_caller c) id (by_caller st))
  end.

(** The connections of a removed caller: closed, and their watches unindexed. *)
Definition close_connection (id : Z) (st : KeyedDispatchState) : KeyedDispatchState :=
  match connections st !! id with
  | None => st
  | Some c =>
      mkState (next_id st) (<[id := mkDispatch (dc_caller c) ∅ (queue_close (dc_queue c))]> (connections st))
        (unindex id (dc_watched c) (by_key st)) (by_caller st)
  end.
Definition close_caller (caller : KeyBytes) (st : KeyedDispatchState) : KeyedDispatchState :=
  foldr close_connection st (elements (default ∅ (by_caller st !! caller))).

Definition push_to (change : RegistryChange) (id : Z) (cs : gmap Z DispatchConnection) : gmap Z DispatchConnection :=
  match cs !! id with
  | None => cs
  | Some c =>
      if bool_decide (ch_kind change = Removed) && bool_decide (dc_caller c = ch_public_key change) then cs else
      <[id := mkDispatch (dc_caller c) (dc_watched c) (queue_push change (dc_queue c))]> cs
  end.

Definition dispatch_peer (change : RegistryChange) (st : KeyedDispatchState) : KeyedDispatchState :=
  let st := match ch_kind change with Removed => close_caller (ch_public_key change) st | Changed => st end in
  match by_key st !! ch_public_key change with
  | None => st
  | Some subscribers =>
      mkState (next_id st) (foldr (push_to change) (connections st) (elements subscribers)) (by_key st) (by_caller st)
  end.

(** A subscription's [recv]. *)
Definition recv first_key (id : Z) (st : KeyedDispatchState) : Received * KeyedDispatchState :=
  match connections st !! id with
  | None => (Closed, st)
  | Some c =>
      let '(r, q) := queue_recv first_key (dc_queue c) in
      (r, mkState (next_id st) (<[id := mkDispatch (dc_caller c) (dc_watched c) q]> (connections st)) (by_key st) (by_caller st))
  end.

(** ** The published registry *)

Section Published.
Context {CR : Cidr} {PM : PrefixMap nat}.
(** The order in which a set of keys is visited. *)
Context (visit : gset KeyBytes -> list KeyBytes).

Record SharedRegistry := mkShared {
  registry : Registry;
  observed_endpoints : gmap KeyBytes SocketAddr;
  broadcast : list RegistryChange;     (* what was sent to the local resolver *)
  keyed : KeyedDispatchState;
}.

Definition shared_new (reg : Registry) : SharedRegistry := mkShared reg ∅ [] dispatcher_new.

(** [observed.get(key).copied().or(record.endpoint)] *)
Definition overlay (observed : gmap KeyBytes SocketAddr) (r : PeerRecord) : option SocketAddr :=
  match observed !! rec_public_key r with Some e => Some e | None => rec_endpoint r end.

Definition effective_endpoint (s : SharedRegistry) (r : PeerRecord) : option SocketAddr := overlay (observed_endpoints s) r.
Definition info (s : SharedRegistry) (r : PeerRecord) : PeerInfo := info_with_endpoint r (effective_endpoint s r).
Definition config_snapshot (s : SharedRegistry) : Registry := registry s.

Definition publish (s : SharedRegistry) (change : RegistryChange) : SharedRegistry :=
  mkShared (registry s) (observed_endpoints s) (broadcast s ++ [change]) (dispatch_peer change (keyed s)).

Definition observe_endpoint (public_key : KeyBytes) (endpoint : SocketAddr) (s : SharedRegistry) : SharedRegistry :=
  match lookup_key (registry s) public_key with
  | None => s
  | Some record =>
      let before := match observed_endpoints s !! public_key with Some e => Some e | None => rec_endpoint record end in
      if bool_decide (observed_endpoints s !! public_key = Some endpoint) then s else
      let s := mkShared (registry s) (<[public_key := endpoint]> (observed_endpoints s)) (broadcast s) (keyed s) in
      if bool_decide (before <> Some endpoint) then publish s (mkChange public_key Changed) else s
  end.

Definition subscribe_keyed (caller : KeyBytes) (s : SharedRegistry) : Z * SharedRegistry :=
  let '(id, k) := subscribe caller (keyed s) in (id, mkShared (registry s) (observed_endpoints s) (broadcast s) k).

(** What a replacement means for one key. *)
Definition change_of (old new : Registry) (old_observed new_observed : gmap KeyBytes SocketAddr) (public_key : KeyBytes) :
    option RegistryChangeKind :=
  match lookup_key old public_key, lookup_key new public_key with
  | None, Some _ => Some Changed
  | Some _, None => Some Removed
  | Some before, Some after =>
      let before_endpoint := match old_observed !! public_key with Some e => Some e | None => rec_endpoint before end in
      let after_endpoint := match new_observed !! public_key with Some e => Some e | None => rec_endpoint after end in
      if bool_decide (rec_public_key before <> rec_public_key after) || bool_decide (before_endpoint <> after_endpoint) ||
         bool_decide (rec_relay before <> rec_relay after) ||
         bool_decide (rec_persistent_keepalive before <> rec_persistent_keepalive after) ||
         bool_decide (rec_address before <> rec_address after)
      then Some Changed else None
  | None, None => None
  end.

Definition replace (reg : Registry) (s : SharedRegistry) : SharedRegistry :=
  let observed := filter (fun p => is_Some (lookup_key reg p.1)) (observed_endpoints s) in
  let keys := visit (dom (reg_by_key (registry s)) ∪ dom (reg_by_key reg)) in
  let changes := omap (fun k => mkChange k <$> change_of (registry s) reg (observed_endpoints s) observed k) keys in
  foldl publish (mkShared reg observed (broadcast s) (keyed s)) changes.
End Published.

(** * No watcher is stale without being told

    The dispatcher's indexes agree with its connections, a publication invalidates exactly
    the watched keys whose served record changed, and a client that looks a key up again
    after each invalidation never holds an old record unknowingly. *)

Local Open Scope nat_scope.

(** ** Indexes *)

Definition indexed (m : gmap KeyBytes (gset Z)) (k : KeyBytes) (id : Z) : Prop := id ∈ default ∅ (m !! k).
Definition no_empty (m : gmap KeyBytes (gset Z)) : Prop := forall k ids, m !! k = Some ids -> ids <> ∅.

Lemma indexed_add k id m k' id' : indexed (index_add k id m) k' id' <-> (k' = k /\ id' = id) \/ indexed m k' id'.
Proof.
  unfold indexed, index_add. destruct (decide (k' = k)) as [->|Hk].
  - rewrite lookup_insert_eq. cbn. set_solver.
  - rewrite lookup_insert_ne by done. naive_solver.
Qed.
Lemma no_empty_add k id m : no_empty m -> no_empty (index_add k id m).
Proof.
  intros H k' ids. unfold index_add. rewrite lookup_insert_Some. intros [[_ <-]|[_ E]]; [set_solver|by eapply H].
Qed.

Lemma indexed_remove k id m k' id' : indexed (index_remove k id m) k' id' <-> indexed m k' id' /\ ~ (k' = k /\ id' = id).
Proof.
  unfold indexed, index_remove. destruct (m !! k) as [ids|] eqn:E.
  - destruct (decide (ids ∖ {[id]} = ∅)) as [He|He]; destruct (decide (k' = k)) as [->|Hk].
    + rewrite lookup_delete_eq, E. cbn. set_solver.
    + rewrite lookup_delete_ne by done. naive_solver.
    + rewrite lookup_insert_eq, E. cbn. set_solver.
    + rewrite lookup_insert_ne by done. naive_solver.
  - split; [|by intros [? _]]. intros H. split; [done|]. intros [-> ->]. by rewrite E in H.
Qed.
Lemma no_empty_remove k id m : no_empty m -> no_empty (index_remove k id m).
Proof.
  intros H k' ids. unfold index_remove. destruct (m !! k) as [ids0|]; [|apply H].
  destruct (decide (ids0 ∖ {[id]} = ∅)); [rewrite lookup_delete_Some; intros [_ E]; by eapply H|].
  rewrite lookup_insert_Some. intros [[_ <-]|[_ E]]; [done|by eapply H].
Qed.

Lemma indexed_unindex id ks m k' id' : indexed (unindex id ks m) k' id' <-> indexed m k' id' /\ ~ (k' ∈ ks /\ id' = id).
Proof.
  unfold unindex. setoid_rewrite <- (elem_of_elements ks). induction (elements ks) as [|k l IH]; cbn [foldr].
  - set_solver.
  - rewrite indexed_remove, IH. set_solver.
Qed.
Lemma no_empty_unindex id ks m : no_empty m -> no_empty (unindex id ks m).
Proof. intros H. unfold unindex. induction (elements ks); [done|]. by apply no_empty_remove. Qed.

(** ** The dispatcher's invariant *)

Record dispatch_ok (st : KeyedDispatchState) : Prop := {
  do_key k id : indexed (by_key st) k id <-> exists c, connections st !! id = Some c /\ k ∈ dc_watched c;
  do_caller k id : indexed (by_caller st) k id <-> exists c, connections st !! id = Some c /\ dc_caller c = k;
  do_key_nonempty : no_empty (by_key st);
  do_caller_nonempty : no_empty (by_caller st);
  do_closed id c : connections st !! id = Some c -> q_closed (dc_queue c) = true -> dc_watched c = ∅;
}.

Lemma dispatcher_new_ok : dispatch_ok dispatcher_new.
Proof.
  split; try done; intros k id; unfold indexed; cbn [by_key by_caller connections dispatcher_new]; rewrite !lookup_empty;
    (split; [set_solver|]; by intros (c & H & _)).
Qed.

(** An update of one connection, its caller kept. *)
Ltac lookups := repeat match goal with
  | H : <[_ := _]> _ !! _ = Some _ |- _ => apply lookup_insert_Some in H as [[? ?]|[? ?]]; subst
  | H : delete _ _ !! _ = Some _ |- _ => apply lookup_delete_Some in H as [? ?]
  end; cbn [dc_caller dc_watched dc_queue] in *.

Lemma update_kept (P : DispatchConnection -> Prop) (cs : gmap Z DispatchConnection) id c0 c1 id' :
  cs !! id = Some c0 -> (P c1 <-> P c0) ->
  (exists c, <[id := c1]> cs !! id' = Some c /\ P c) <-> (exists c, cs !! id' = Some c /\ P c).
Proof.
  intros E0 HP. split; intros (c & E & Hc); destruct (decide (id' = id)) as [->|Hid].
  - rewrite lookup_insert_eq in E. simplify_eq. exists c0. tauto.
  - rewrite lookup_insert_ne in E by done. eauto.
  - rewrite lookup_insert_eq. simplify_eq. exists c1. tauto.
  - rewrite lookup_insert_ne by done. eauto.
Qed.

(** A queue is changed; a closed one has no watches. *)
Lemma queue_update_ok id c0 q st :
  dispatch_ok st -> connections st !! id = Some c0 -> (q_closed q = true -> dc_watched c0 = ∅) ->
  dispatch_ok (mkState (next_id st) (<[id := mkDispatch (dc_caller c0) (dc_watched c0) q]> (connections st)) (by_key st) (by_caller st)).
Proof.
  intros [Hk Hc H1 H2 Hcl] E0 Hq. split; cbn; [| |done|done|].
  - intros k id'. rewrite Hk. symmetry. by apply (update_kept _ _ id c0).
  - intros k id'. rewrite Hc. symmetry. by apply (update_kept _ _ id c0).
  - intros id' c E Hcl'. lookups; eauto.
Qed.

Lemma subscribe_ok caller st :
  dispatch_ok st -> connections st !! next_id st = None -> dispatch_ok (snd (subscribe caller st)).
Proof.
  intros [Hk Hc H1 H2 Hcl] Hfresh. split; cbn.
  - intros k id. rewrite Hk. split.
    + intros (c & E & Hin). exists c. rewrite lookup_insert_ne; [done|]. intros <-. congruence.
    + intros (c & E & Hin). lookups; [set_solver|eauto].
  - intros k id. rewrite indexed_add, Hc. split.
    + intros [[-> ->]|(c & E & Hin)]; [eexists; split; [apply lookup_insert_eq|done]|].
      exists c. rewrite lookup_insert_ne; [done|]. intros <-. congruence.
    + intros (c & E & <-). lookups; eauto.
  - done.
  - by apply no_empty_add.
  - intros id c E. lookups; [done|eauto].
Qed.

Lemma watch_ok id k st : dispatch_ok st -> dispatch_ok (watch id k st).
Proof.
  intros Hst. pose proof Hst as [Hk Hc H1 H2 Hcl]. unfold watch. destruct (connections st !! id) as [c0|] eqn:E0; [|done].
  destruct (q_closed (dc_queue c0) || bool_decide (k ∈ dc_watched c0)) eqn:Eb; [done|].
  apply orb_false_iff in Eb as [Ecl Ew]. split; cbn.
  - intros k' id'. rewrite indexed_add, Hk. split.
    + intros [[-> ->]|(c & E & Hin)].
      * eexists. split; [apply lookup_insert_eq|]. set_solver.
      * destruct (decide (id' = id)) as [->|Hne]; [|exists c; by rewrite lookup_insert_ne].
        eexists. split; [apply lookup_insert_eq|]. cbn. replace c with c0 in * by congruence. set_solver.
    + intros (c & E & Hin). lookups; [|eauto]. apply elem_of_union in Hin as [Hin|Hin]; [left; set_solver|eauto].
  - intros k' id'. rewrite Hc. symmetry. by apply (update_kept _ _ id c0).
  - by apply no_empty_add.
  - done.
  - intros id' c E. lookups; [by rewrite Ecl|eauto].
Qed.

Lemma unwatch_ok id k st : dispatch_ok st -> dispatch_ok (unwatch id k st).
Proof.
  intros Hst. pose proof Hst as [Hk Hc H1 H2 Hcl]. unfold unwatch. destruct (connections st !! id) as [c0|] eqn:E0; [|done].
  case_bool_decide as Ew; [done|]. split; cbn.
  - intros k' id'. rewrite indexed_remove, Hk. split.
    + intros [(c & E & Hin) Hne]. destruct (decide (id' = id)) as [->|Hid]; [|exists c; by rewrite lookup_insert_ne].
      eexists. split; [apply lookup_insert_eq|]. cbn. replace c with c0 in * by congruence. set_solver.
    + intros (c & E & Hin). lookups; [|naive_solver]. split; [|set_solver]. exists c0. set_solver.
  - intros k' id'. rewrite Hc. symmetry. by apply (update_kept _ _ id c0).
  - by apply no_empty_remove.
  - done.
  - intros id' c E Hcl'. lookups; [|eauto]. rewrite (Hcl _ _ E0 Hcl'). set_solver.
Qed.

Lemma remove_ok id st : dispatch_ok st -> dispatch_ok (remove id st).
Proof.
  intros Hst. pose proof Hst as [Hk Hc H1 H2 Hcl]. unfold remove. destruct (connections st !! id) as [c0|] eqn:E0; [|done].
  split; cbn.
  - intros k' id'. rewrite indexed_unindex, Hk. split.
    + intros [(c & E & Hin) Hne]. exists c. rewrite lookup_delete_ne; [done|]. intros <-. naive_solver.
    + intros (c & E & Hin). lookups. naive_solver.
  - intros k' id'. rewrite indexed_remove, Hc. split.
    + intros [(c & E & <-) Hne]. exists c. rewrite lookup_delete_ne; [done|]. intros <-. naive_solver.
    + intros (c & E & <-). lookups. naive_solver.
  - by apply no_empty_unindex.
  - by apply no_empty_remove.
  - intros id' c E. lookups. eauto.
Qed.

Lemma recv_ok first_key id st : dispatch_ok st -> dispatch_ok (snd (recv first_key id st)).
Proof.
  intros Hst. pose proof Hst as [_ _ _ _ Hcl]. unfold recv. destruct (connections st !! id) as [c0|] eqn:E0; [|done].
  destruct (queue_recv first_key (dc_queue c0)) as [r q] eqn:Er.
  assert (q_closed q = q_closed (dc_queue c0)) as Eq by (unfold queue_recv in Er; repeat case_match; by simplify_eq).
  apply queue_update_ok; [done..|]. rewrite Eq. eauto.
Qed.

Lemma close_connection_ok id st : dispatch_ok st -> dispatch_ok (close_connection id st).
Proof.
  intros Hst. pose proof Hst as [Hk Hc H1 H2 Hcl]. unfold close_connection. destruct (connections st !! id) as [c0|] eqn:E0; [|done].
  split; cbn.
  - intros k' id'. rewrite indexed_unindex, Hk. split.
    + intros [(c & E & Hin) Hne]. exists c. rewrite lookup_insert_ne; [done|]. intros <-. naive_solver.
    + intros (c & E & Hin). lookups; [set_solver|]. naive_solver.
  - intros k' id'. rewrite Hc. symmetry. by apply (update_kept _ _ id c0).
  - by apply no_empty_unindex.
  - done.
  - intros id' c E Hcl'. lookups; eauto.
Qed.

(** What closing does to each connection. *)
Lemma close_all_lookup ids st id :
  connections (foldr close_connection st ids) !! id =
    (fun c => if bool_decide (id ∈ ids) then mkDispatch (dc_caller c) ∅ (queue_close (dc_queue c)) else c) <$> connections st !! id.
Proof.
  revert id. induction ids as [|i ids IH]; intros id; cbn [foldr].
  { rewrite bool_decide_false by set_solver. by destruct (connections st !! id). }
  unfold close_connection at 1. destruct (connections (foldr close_connection st ids) !! i) as [c|] eqn:E; cbn [connections].
  - destruct (decide (id = i)) as [->|Hne].
    + rewrite lookup_insert_eq. rewrite IH in E. destruct (connections st !! i) as [c1|]; [|done]. cbn in *. rewrite (bool_decide_true (i ∈ i :: ids)) by set_solver.
      simplify_eq. by destruct (bool_decide (i ∈ ids)).
    + rewrite lookup_insert_ne by done. rewrite IH. destruct (connections st !! id); [|done]. cbn. f_equal.
      rewrite (bool_decide_ext (id ∈ i :: ids) (id ∈ ids)) by set_solver. done.
  - rewrite IH. rewrite IH in E. destruct (decide (id = i)) as [->|Hne]; [by destruct (connections st !! i)|].
    rewrite (bool_decide_ext (id ∈ i :: ids) (id ∈ ids)) by set_solver. done.
Qed.

Lemma close_all_ok ids st : dispatch_ok st -> dispatch_ok (foldr close_connection st ids).
Proof. intros H. induction ids; [done|]. by apply close_connection_ok. Qed.
Lemma close_all_next ids st : next_id (foldr close_connection st ids) = next_id st.
Proof. induction ids as [|i ids IH]; [done|]. cbn [foldr]. unfold close_connection at 1. by case_match. Qed.

Lemma push_all_lookup change ids cs id :
  NoDup ids ->
  foldr (push_to change) cs ids !! id =
    (fun c => if bool_decide (id ∈ ids) && negb (bool_decide (ch_kind change = Removed) && bool_decide (dc_caller c = ch_public_key change))
              then mkDispatch (dc_caller c) (dc_watched c) (queue_push change (dc_queue c)) else c) <$> cs !! id.
Proof.
  revert id. induction ids as [|i ids IH]; intros id; cbn [foldr].
  { rewrite bool_decide_false by set_solver. by destruct (cs !! id). }
  intros [Hi Hnd]%NoDup_cons. specialize (fun id => IH id Hnd) as IH0; clear IH; rename IH0 into IH. unfold push_to at 1.
  destruct (decide (id = i)) as [->|Hne].
  - rewrite IH, (bool_decide_true (i ∈ i :: ids)), (bool_decide_false (i ∈ ids)) by set_solver.
    cbn [andb]. destruct (foldr (push_to change) cs ids !! i) as [c1|] eqn:E1; rewrite IH, (bool_decide_false (i ∈ ids)) in E1 by done; cbn [andb] in E1;
      destruct (cs !! i) as [c|] eqn:Ec; cbn in E1; simplify_eq; cbn.
    + destruct (_ && _) eqn:Eb; cbn [negb]; [rewrite IH, Ec; cbn; by rewrite (bool_decide_false (i ∈ ids))|]. by rewrite lookup_insert_eq.
    + rewrite IH, Ec. done.
  - assert (bool_decide (id ∈ i :: ids) = bool_decide (id ∈ ids)) as -> by (apply bool_decide_ext; set_solver). rewrite <- IH.
    destruct (foldr (push_to change) cs ids !! i) as [c1|]; [|done]. destruct (_ && _); [done|]. by rewrite lookup_insert_ne.
Qed.

(** Only queues change, and none is closed or opened. *)
Lemma queues_update_ok f st cs :
  (forall id, cs !! id = f id <$> connections st !! id) ->
  (forall id c, dc_caller (f id c) = dc_caller c /\ dc_watched (f id c) = dc_watched c /\
     q_closed (dc_queue (f id c)) = q_closed (dc_queue c)) ->
  dispatch_ok st -> dispatch_ok (mkState (next_id st) cs (by_key st) (by_caller st)).
Proof.
  intros Hcs Hf [Hk Hc H1 H2 Hcl].
  assert (forall (P : DispatchConnection -> Prop) id, (forall c, P (f id c) <-> P c) ->
    (exists c, cs !! id = Some c /\ P c) <-> (exists c, connections st !! id = Some c /\ P c)) as Hex.
  { intros P id HP. rewrite Hcs. split.
    - intros (c & (c0 & E & ->)%fmap_Some & Hpc). exists c0. split; [done|]. by apply HP.
    - intros (c & E & Hpc). exists (f id c). rewrite E. split; [done|]. by apply HP. }
  split; cbn; [| |done|done|].
  - intros k id. rewrite Hk. symmetry. apply Hex. intros c. by destruct (Hf id c) as (_ & -> & _).
  - intros k id. rewrite Hc. symmetry. apply Hex. intros c. by destruct (Hf id c) as (-> & _).
  - intros id c. rewrite Hcs. intros (c0 & E & ->)%fmap_Some. destruct (Hf id c0) as (_ & -> & ->). eauto.
Qed.

(** What a change does to a connection. *)
Definition told (change : RegistryChange) (c : DispatchConnection) : DispatchConnection :=
  if bool_decide (ch_kind change = Removed) && bool_decide (dc_caller c = ch_public_key change)
  then mkDispatch (dc_caller c) ∅ (queue_close (dc_queue c))
  else if bool_decide (ch_public_key change ∈ dc_watched c)
  then mkDispatch (dc_caller c) (dc_watched c) (queue_push change (dc_queue c))
  else c.

Lemma queue_push_closed change q : q_closed (queue_push change q) = q_closed q.
Proof. unfold queue_push. by destruct (q_closed q) eqn:E. Qed.

(** The pushes of a change, when a removed caller has no watches left. *)
Lemma queue_push_spec change st :
  dispatch_ok st ->
  (forall id c, connections st !! id = Some c -> ch_kind change = Removed -> dc_caller c = ch_public_key change -> dc_watched c = ∅) ->
  let st' := match by_key st !! ch_public_key change with
             | None => st
             | Some subscribers =>
                 mkState (next_id st) (foldr (push_to change) (connections st) (elements subscribers)) (by_key st) (by_caller st)
             end in
  dispatch_ok st' /\ next_id st' = next_id st /\
  forall id, connections st' !! id =
    (fun c => if bool_decide (ch_public_key change ∈ dc_watched c)
              then mkDispatch (dc_caller c) (dc_watched c) (queue_push change (dc_queue c)) else c) <$> connections st !! id.
Proof.
  intros Hst Hcaller. pose proof Hst as [Hk _ _ _ _].
  assert (forall id c, connections st !! id = Some c ->
    (ch_public_key change ∈ dc_watched c <-> indexed (by_key st) (ch_public_key change) id)) as Hw.
  { intros id c E. rewrite Hk. split; [eauto|]. intros (c' & E' & Hin). congruence. }
  unfold indexed in Hw. destruct (by_key st !! ch_public_key change) as [subs|] eqn:Es; cbn [default] in *.
  - set (f := fun id c => if bool_decide (id ∈ elements subs) && negb (bool_decide (ch_kind change = Removed) && bool_decide (dc_caller c = ch_public_key change))
      then mkDispatch (dc_caller c) (dc_watched c) (queue_push change (dc_queue c)) else c).
    assert (forall id, foldr (push_to change) (connections st) (elements subs) !! id = f id <$> connections st !! id) as Hf
      by (intros id; apply push_all_lookup, NoDup_elements).
    split; [|split; [done|]].
    + apply (queues_update_ok f); [done| |done]. intros id c. unfold f. destruct (_ && _); cbn; [|done]. by rewrite queue_push_closed.
    + intros id. cbn [connections]. rewrite Hf. destruct (connections st !! id) as [c|] eqn:E; [|done]. cbn. f_equal. unfold f.
      specialize (Hw id c E). rewrite (bool_decide_ext (id ∈ elements subs) (ch_public_key change ∈ dc_watched c)) by (rewrite elem_of_elements; symmetry; exact Hw).
      case_bool_decide as Hin; cbn [andb]; [|done]. case_bool_decide as Hrem; cbn [andb negb]; [|done].
      case_bool_decide as Hc; cbn [negb]; [|done]. rewrite (Hcaller id c E Hrem Hc) in Hin. set_solver.
  - split; [done|split; [done|]]. intros id. destruct (connections st !! id) as [c|] eqn:E; [|done]. cbn. f_equal.
    specialize (Hw id c E). rewrite bool_decide_false; [done|]. rewrite Hw. set_solver.
Qed.

Lemma dispatch_peer_spec change st :
  dispatch_ok st ->
  dispatch_ok (dispatch_peer change st) /\ next_id (dispatch_peer change st) = next_id st /\
  forall id, connections (dispatch_peer change st) !! id = told change <$> connections st !! id.
Proof.
  intros Hst. unfold dispatch_peer. destruct (ch_kind change) eqn:Ek.
  - destruct (queue_push_spec change st Hst ltac:(congruence)) as (H1 & H2 & H3). split_and!; [done..|].
    intros id. rewrite H3. unfold told. by rewrite Ek.
  - set (st1 := close_caller (ch_public_key change) st).
    assert (dispatch_ok st1) as Hst1 by (by apply close_all_ok).
    assert (forall id, connections st1 !! id =
      (fun c => if bool_decide (dc_caller c = ch_public_key change) then mkDispatch (dc_caller c) ∅ (queue_close (dc_queue c)) else c)
        <$> connections st !! id) as Hlk.
    { intros id. unfold st1, close_caller. rewrite close_all_lookup. destruct (connections st !! id) as [c|] eqn:E; [|done]. cbn. f_equal.
      erewrite bool_decide_ext; [reflexivity|]. rewrite elem_of_elements.
      pose proof (do_caller st Hst (ch_public_key change) id) as H. unfold indexed in H. rewrite H. split; [intros (c' & E' & <-); congruence|eauto]. }
    destruct (queue_push_spec change st1 Hst1) as (H1 & H2 & H3).
    { intros id c. rewrite Hlk. intros (c0 & E & ->)%fmap_Some _. case_bool_decide; [done|]. done. }
    split_and!; [done|rewrite H2; apply close_all_next|]. intros id. rewrite H3, Hlk. destruct (connections st !! id) as [c|]; [|done]. cbn. f_equal.
    unfold told. rewrite Ek, (bool_decide_true (Removed = Removed)) by done. cbn [andb].
    destruct (decide (dc_caller c = ch_public_key change)) as [Hc|Hc];
      [rewrite !(bool_decide_true (dc_caller c = _)) by done|by rewrite !(bool_decide_false (dc_caller c = _)) by done].
    rewrite bool_decide_false by set_solver. done.
Qed.

(** ** Publication *)

Section Publication.
Context {CR : Cidr} {PM : PrefixMap nat} (visit : gset KeyBytes -> list KeyBytes).
Notation SharedRegistry := (SharedRegistry (CR := CR) (PM := PM)).
Notation Registry := (Registry (CR := CR) (PM := PM)).

#[export] Instance PeerInfo_eq_dec : EqDecision PeerInfo.
Proof. solve_decision. Defined.

(** What a lookup by key is answered. *)
Definition answer (s : SharedRegistry) (k : KeyBytes) : option PeerInfo := info s <$> lookup_key (registry s) k.

Definition keys_ok (reg : Registry) : Prop := forall k r, lookup_key reg k = Some r -> rec_public_key r = k.
Definition shared_ok (s : SharedRegistry) : Prop := keys_ok (registry s) /\ dispatch_ok (keyed s).

(** What a client has to be told when its answer changes. *)
Definition transition (before after : option PeerInfo) : option RegistryChangeKind :=
  match before, after with
  | None, Some _ => Some Changed
  | Some _, None => Some Removed
  | Some a, Some b => if bool_decide (a = b) then None else Some Changed
  | None, None => None
  end.

Lemma transition_None a b : transition a b = None <-> a = b.
Proof.
  destruct a as [a|], b as [b|]; cbn; try naive_solver. case_bool_decide; naive_solver.
Qed.

Lemma overlay_key observed (r : PeerRecord) k :
  rec_public_key r = k -> overlay observed r = match observed !! k with Some e => Some e | None => rec_endpoint r end.
Proof. by intros <-. Qed.

(** The code's comparison of fields is the comparison of the answers. *)
Lemma change_of_transition (s : SharedRegistry) (reg : Registry) observed k :
  keys_ok (registry s) -> keys_ok reg ->
  change_of (registry s) reg (observed_endpoints s) observed k =
    transition (answer s k) ((fun r => info_with_endpoint r (overlay observed r)) <$> lookup_key reg k).
Proof.
  intros H1 H2. unfold change_of, answer, info, effective_endpoint.
  destruct (lookup_key (registry s) k) as [a|] eqn:Ea, (lookup_key reg k) as [b|] eqn:Eb; try done. cbn [fmap option_fmap option_map transition].
  rewrite (overlay_key _ a k), (overlay_key _ b k) by eauto.
  set (ea := match observed_endpoints s !! k with Some e => Some e | None => rec_endpoint a end).
  set (eb := match observed !! k with Some e => Some e | None => rec_endpoint b end). unfold info_with_endpoint.
  set (ia := mkPeerInfo (rec_public_key a) ea _ _ _). set (ib := mkPeerInfo (rec_public_key b) eb _ _ _).
  destruct (decide (ia = ib)) as [Heq|Heq].
  - rewrite (bool_decide_true (ia = ib)) by done. injection Heq as E1 E2 E3 E4 E5.
    rewrite !bool_decide_false by (intros H; by apply H). done.
  - rewrite (bool_decide_false (ia = ib)) by done.
    match goal with |- (if ?b then _ else _) = _ => destruct b eqn:E; [done|] end.
    rewrite !orb_false_iff, !bool_decide_eq_false in E. destruct E as ((((E1 & E2) & E3) & E4) & E5).
    apply dec_stable in E1, E2, E3, E4, E5. exfalso. apply Heq. unfold ia, ib. congruence.
Qed.

Lemma publish_all_spec changes (s : SharedRegistry) :
  dispatch_ok (keyed s) ->
  let s' := foldl publish s changes in
  registry s' = registry s /\ observed_endpoints s' = observed_endpoints s /\ broadcast s' = broadcast s ++ changes /\
  dispatch_ok (keyed s') /\ next_id (keyed s') = next_id (keyed s) /\
  forall id, connections (keyed s') !! id = (fun c => foldl (fun c ch => told ch c) c changes) <$> connections (keyed s) !! id.
Proof.
  revert s. induction changes as [|ch changes IH]; intros s Hs; cbn [foldl].
  { split_and!; [done|done|by rewrite app_nil_r|done|done|]. intros id. by destruct (connections (keyed s) !! id). }
  destruct (dispatch_peer_spec ch (keyed s) Hs) as (H1 & H2 & H3).
  destruct (IH (publish s ch) H1) as (E1 & E2 & E3 & E4 & E5 & E6). split_and!; [done|done| |done|by rewrite E5|].
  - rewrite E3. cbn. by rewrite <- app_assoc.
  - intros id. rewrite E6. cbn [keyed publish]. rewrite H3. by destruct (connections (keyed s) !! id).
Qed.

Definition caller_removed (changes : list RegistryChange) (c : DispatchConnection) : Prop := mkChange (dc_caller c) Removed ∈ changes.

Lemma told_closed changes c :
  dc_watched c = ∅ -> q_closed (dc_queue c) = true ->
  let c' := foldl (fun c ch => told ch c) c changes in
  dc_caller c' = dc_caller c /\ dc_watched c' = ∅ /\ q_closed (dc_queue c') = true.
Proof.
  revert c. induction changes as [|ch changes IH]; intros c Hw Hc; cbn [foldl]; [done|].
  assert (dc_caller (told ch c) = dc_caller c /\ dc_watched (told ch c) = ∅ /\ q_closed (dc_queue (told ch c)) = true) as (E1 & E2 & E3).
  { unfold told. destruct (_ && _); [done|]. rewrite bool_decide_false by set_solver. done. }
  destruct (IH _ E2 E3) as (H1 & H2 & H3). by rewrite H1.
Qed.

(** What a list of changes with distinct keys does to a connection. *)
Lemma told_all changes c :
  NoDup (ch_public_key <$> changes) ->
  let c' := foldl (fun c ch => told ch c) c changes in
  dc_caller c' = dc_caller c /\
  (caller_removed changes c -> dc_watched c' = ∅ /\ q_closed (dc_queue c') = true) /\
  (~ caller_removed changes c -> dc_watched c' = dc_watched c /\ q_closed (dc_queue c') = q_closed (dc_queue c) /\
    (q_closed (dc_queue c) = false -> forall k,
      (forall kind, mkChange k kind ∈ changes -> k ∈ dc_watched c -> q_pending (dc_queue c') !! k = Some kind) /\
      (k ∉ dc_watched c \/ k ∉ ch_public_key <$> changes -> q_pending (dc_queue c') !! k = q_pending (dc_queue c) !! k))).
Proof.
  revert c. induction changes as [|[k0 kind0] changes IH]; intros c Hnd; cbn [foldl].
  { split; [done|]. split; [by intros H%elem_of_nil|]. intros _. split_and!; [done..|]. intros _ k. split; [by intros kind H%elem_of_nil|done]. }
  apply NoDup_cons in Hnd as [Hk0 Hnd]. cbn [ch_public_key] in Hk0. unfold caller_removed. unfold told at 2 4 6 8 10 12 14. cbn [ch_kind ch_public_key].
  destruct (decide (kind0 = Removed /\ dc_caller c = k0)) as [[-> Ec]|Hn].
  - rewrite !bool_decide_true by done. cbn [andb].
    destruct (told_closed changes (mkDispatch (dc_caller c) ∅ (queue_close (dc_queue c))) eq_refl eq_refl) as (H1 & H2 & H3).
    split; [done|]. split; [done|]. intros H. exfalso. apply H. rewrite Ec. left.
  - assert (bool_decide (kind0 = Removed) && bool_decide (dc_caller c = k0) = false) as ->
      by (apply andb_false_iff; rewrite !bool_decide_eq_false; destruct (decide (kind0 = Removed)); [right|left]; naive_solver).
    assert (mkChange (dc_caller c) Removed ∈ mkChange k0 kind0 :: changes <-> mkChange (dc_caller c) Removed ∈ changes) as Hrem.
    { rewrite elem_of_cons. split; [|auto]. intros [[= E1 E2]|?]; [|done]. by destruct Hn. }
    set (c1 := if bool_decide (k0 ∈ dc_watched c) then _ else c).
    assert (dc_caller c1 = dc_caller c /\ dc_watched c1 = dc_watched c /\ q_closed (dc_queue c1) = q_closed (dc_queue c)) as (Ec & Ew & Eq).
    { unfold c1. case_bool_decide; [|done]. cbn. by rewrite queue_push_closed. }
    destruct (IH c1 Hnd) as (H1 & H2 & H3). unfold caller_removed in H2, H3. rewrite Ec in *. rewrite Hrem.
    split; [done|]. split; [done|]. intros Hnr. destruct (H3 Hnr) as (H4 & H5 & H6). rewrite Ew in *. rewrite Eq in *.
    split_and!; [done..|]. intros Hop k. destruct (H6 Hop k) as [H7 H8].
    assert (q_pending (dc_queue c1) = if bool_decide (k0 ∈ dc_watched c) then <[k0 := kind0]> (q_pending (dc_queue c)) else q_pending (dc_queue c)) as Ep.
    { unfold c1. case_bool_decide; [|done]. cbn. unfold queue_push. by rewrite Hop. }
    split.
    + intros kind [[= -> ->]|Hin]%elem_of_cons Hw; [|by apply H7].
      rewrite H8 by (right; exact Hk0). rewrite Ep, bool_decide_true by done. apply lookup_insert_eq.
    + intros Hk. rewrite H8 by (destruct Hk as [?|Hk]; [by left|right; intros Hin; apply Hk; right; done]).
      rewrite Ep. case_bool_decide; [|done]. apply lookup_insert_ne. intros <-. destruct Hk as [Hk|Hk]; [done|]. apply Hk. left.
Qed.

Context (visit_all : forall ks, visit ks ≡ₚ elements ks).

Lemma answer_in_registry (s : SharedRegistry) k : is_Some (answer s k) -> k ∈ dom (reg_by_key (registry s)).
Proof.
  unfold answer. rewrite fmap_is_Some. intros [r H]. unfold lookup_key in H. apply bind_Some in H as (i & H & _).
  by apply elem_of_dom_2 in H.
Qed.

(** A replacement publishes each key whose answer changed once, and nothing else. *)
Lemma replace_changes (s : SharedRegistry) (reg : Registry) :
  keys_ok (registry s) -> keys_ok reg -> dispatch_ok (keyed s) ->
  exists changes,
    let s' := replace visit reg s in
    registry s' = reg /\
    observed_endpoints s' = filter (fun p => is_Some (lookup_key reg p.1)) (observed_endpoints s) /\
    broadcast s' = broadcast s ++ changes /\ dispatch_ok (keyed s') /\ next_id (keyed s') = next_id (keyed s) /\
    NoDup (ch_public_key <$> changes) /\
    (forall k kind, mkChange k kind ∈ changes <-> transition (answer s k) (answer s' k) = Some kind) /\
    forall id, connections (keyed s') !! id = (fun c => foldl (fun c ch => told ch c) c changes) <$> connections (keyed s) !! id.
Proof.
  intros Hold Hnew Hd. unfold replace. set (observed := filter _ (observed_endpoints s)). set (keys := visit _).
  set (changes := omap _ keys). exists changes.
  destruct (publish_all_spec changes (mkShared reg observed (broadcast s) (keyed s)) Hd) as (E1 & E2 & E3 & E4 & E5 & E6).
  cbn [registry observed_endpoints broadcast keyed] in *. cbv zeta.
  assert (NoDup keys) as Hnd by (unfold keys; rewrite visit_all; apply NoDup_elements).
  assert (forall k, answer (foldl publish (mkShared reg observed (broadcast s) (keyed s)) changes) k =
    (fun r => info_with_endpoint r (overlay observed r)) <$> lookup_key reg k) as Hans.
  { intros k. unfold answer, info, effective_endpoint. by rewrite E1, E2. }
  split_and!; [done..| | |done].
  - unfold changes. clear -Hnd. induction keys as [|k ks IH]; [constructor|]. apply NoDup_cons in Hnd as [Hk Hnd].
    cbn [omap list_omap]. destruct (change_of _ _ _ _ k) as [kind|]; cbn [fmap option_fmap option_map]; [|by apply IH].
    cbn [list_fmap fmap]. constructor; [|by apply IH]. rewrite list_elem_of_fmap. intros (ch & E & Hin).
    apply list_elem_of_omap in Hin as (k' & Hin & Hk'). apply fmap_Some in Hk' as (kind' & _ & ->). cbn in E. by subst.
  - intros k kind. rewrite Hans, <- change_of_transition by done. unfold changes. rewrite list_elem_of_omap. split.
    + intros (k' & _ & (kind' & E & [= -> ->])%fmap_Some). done.
    + intros E. exists k. rewrite E. split; [|done]. unfold keys. rewrite visit_all, elem_of_elements, elem_of_union.
      unfold change_of, lookup_key in E. rewrite !elem_of_dom.
      destruct (reg_by_key (registry s) !! k), (reg_by_key reg !! k); cbn in E; eauto.
      exfalso. done.
Qed.
End Publication.
