(* ===== verification/Rpc.v ===== *)
(** * The tracker's Peers API ([microtun/src/commands/tracker/rpc.rs], [microtun-api/src/lib.rs])

    Admission, accounting and the handlers of a connection. The times are nanoseconds. The
    JSON of the parameters, the base64 crate and the parser of addresses are parameters. *)

From Stdlib Require Import String.
From S2P Require Import Prelude Clock Ip Cidr Firewall Resolve Registry Watch.
Local Open Scope Z_scope.

Definition METHOD_BY_KEY : string := "peer.by_key".
Definition METHOD_BY_ADDRESS : string := "peer.by_address".
Definition METHOD_WATCH : string := "peer.watch".
Definition METHOD_UNWATCH : string := "peer.unwatch".
Definition METHOD_CHANGED : string := "peer.changed".
Definition METHOD_REMOVED : string := "peer.removed".

Definition UNKNOWN_METHOD : Z := 2.
Definition INVALID_PARAMS : Z := 3.
Definition NOT_ADMITTED : Z := 5.
Definition RATE_LIMITED : Z := 6.

Definition unmap_address (address : IpAddr) : IpAddr :=
  match address with
  | V6 v6 => match to_ipv4_mapped v6 with Some v4 => V4 v4 | None => address end
  | V4 _ => address
  end.

(** ** Accounting *)

Definition MAX_CONNECTIONS_PER_PEER : nat := 4.
Definition REQUESTS_PER_SEC : Z := 20.
Definition REQUEST_BURST : Z := 40.
Definition REQUEST_COST_MT : Z := 1000.

Record PeerUsage := mkUsage { pu_connections : nat; pu_request_tokens_mt : Z; pu_last_refill : Z }.

Definition usage_new (now : Z) : PeerUsage := mkUsage 0 (sat_mul u32_max REQUEST_BURST REQUEST_COST_MT) now.

Definition usage_allow_request (now : Z) (u : PeerUsage) : bool * PeerUsage :=
  let elapsed_ms := sat_sub now (pu_last_refill u) / 1000000 in
  let gained := Z.min (elapsed_ms * REQUESTS_PER_SEC) u32_max in
  let tokens := Z.min (sat_add u32_max (pu_request_tokens_mt u) gained) (sat_mul u32_max REQUEST_BURST REQUEST_COST_MT) in
  if tokens <? REQUEST_COST_MT then (false, mkUsage (pu_connections u) tokens now)
  else (true, mkUsage (pu_connections u) (tokens - REQUEST_COST_MT) now).

(** ** The shared state *)

Section Rpc.
Context {CR : Cidr} {PM : PrefixMap nat}.
Context (b64_decode : list Z -> option (list Z)) (parse_ip : list Z -> option IpAddr).

Record AppState := mkApp {
  app_registry : SharedRegistry;
  app_seen : gset KeyBytes;
  app_refused : Z;
  app_usage : gmap KeyBytes PeerUsage;
  app_rate_limited : Z;
  app_connection_limited : Z;
}.

Definition app_new (reg : Registry) : AppState := mkApp (shared_new reg) ∅ 0 ∅ 0 0.

Definition set_registry (s : SharedRegistry) (a : AppState) : AppState :=
  mkApp s (app_seen a) (app_refused a) (app_usage a) (app_rate_limited a) (app_connection_limited a).
Definition set_usage (u : gmap KeyBytes PeerUsage) (a : AppState) : AppState :=
  mkApp (app_registry a) (app_seen a) (app_refused a) u (app_rate_limited a) (app_connection_limited a).

Definition configured (a : AppState) (key : KeyBytes) : option PeerRecord := lookup_key (config_snapshot (app_registry a)) key.

(** [usage.retain(..)] *)
Definition usage_retain (a : AppState) : gmap KeyBytes PeerUsage :=
  filter (fun p => pu_connections p.2 <> 0%nat \/ is_Some (configured a p.1)) (app_usage a).

(** [true] for a permit. *)
Definition open_connection (key : KeyBytes) (now : Z) (a : AppState) : bool * AppState :=
  match configured a key with
  | None => (true, a)
  | Some _ =>
      let usage := usage_retain a in
      let peer := default (usage_new now) (usage !! key) in
      if (MAX_CONNECTIONS_PER_PEER <=? pu_connections peer)%nat then
        (false, mkApp (app_registry a) (app_seen a) (app_refused a) (<[key := peer]> usage) (app_rate_limited a)
                  (wrap_add u64_max (app_connection_limited a) 1))
      else
        (true, set_usage (<[key := mkUsage (S (pu_connections peer)) (pu_request_tokens_mt peer) (pu_last_refill peer)]> usage) a)
  end.

(** The permit is dropped. *)
Definition permit_drop (key : KeyBytes) (a : AppState) : AppState :=
  match app_usage a !! key with
  | None => a
  | Some peer =>
      let peer := mkUsage (pu_connections peer - 1) (pu_request_tokens_mt peer) (pu_last_refill peer) in
      if (pu_connections peer =? 0)%nat && bool_decide (configured a key = None)
      then set_usage (delete key (app_usage a)) a
      else set_usage (<[key := peer]> (app_usage a)) a
  end.

Definition allow_request (key : KeyBytes) (now : Z) (a : AppState) : bool * AppState :=
  match configured a key with
  | None => (true, a)
  | Some _ =>
      let usage := usage_retain a in
      let '(allowed, peer) := usage_allow_request now (default (usage_new now) (usage !! key)) in
      let a := set_usage (<[key := peer]> usage) a in
      if allowed then (true, a)
      else (false, mkApp (app_registry a) (app_seen a) (app_refused a) (app_usage a) (wrap_add u64_max (app_rate_limited a) 1)
                     (app_connection_limited a))
  end.

Definition note (record : PeerRecord) (a : AppState) : AppState :=
  mkApp (app_registry a) ({[rec_public_key record]} ∪ app_seen a) (app_refused a) (app_usage a) (app_rate_limited a) (app_connection_limited a).
Definition refuse (a : AppState) : AppState :=
  mkApp (app_registry a) (app_seen a) (wrap_add u64_max (app_refused a) 1) (app_usage a) (app_rate_limited a) (app_connection_limited a).

Definition admit_caller (source : KeyBytes) (a : AppState) : option PeerRecord * AppState :=
  match configured a source with
  | Some caller => (Some caller, note caller a)
  | None => (None, refuse a)
  end.

(** ** The handler of a connection *)

Inductive Lookup := LookupKey (text : list Z) | LookupAddress (text : list Z).
Inductive Answer := ARecord (record : PeerInfo) | AMiss | ANotAdmitted | ABadArgument.

Record PeersApiHandler := mkHandler { ph_peer_key : KeyBytes; ph_subscription : Z }.

Definition answer_record (s : SharedRegistry) (r : option PeerRecord) : Answer :=
  match r with Some r => ARecord (info s r) | None => AMiss end.

Definition lookup (h : PeersApiHandler) (query : Lookup) (a : AppState) : Answer * AppState :=
  let '(caller, a) := admit_caller (ph_peer_key h) a in
  match caller with
  | None => (ANotAdmitted, a)
  | Some _ =>
      let s := app_registry a in
      (match query with
       | LookupKey text =>
           match decode_key b64_decode text with
           | None => ABadArgument
           | Some key => answer_record s (lookup_key (registry s) key)
           end
       | LookupAddress text =>
           match parse_ip text with
           | None => ABadArgument
           | Some address => answer_record s (lookup_address (registry s) (unmap_address address))
           end
       end, a)
  end.

Definition set_keyed (k : KeyedDispatchState) (s : SharedRegistry) : SharedRegistry :=
  mkShared (registry s) (observed_endpoints s) (broadcast s) k.

Definition watch_key (h : PeersApiHandler) (text : list Z) (a : AppState) : Answer * AppState :=
  let '(caller, a) := admit_caller (ph_peer_key h) a in
  match caller with
  | None => (ANotAdmitted, a)
  | Some _ =>
      let s := app_registry a in
      match decode_key b64_decode text with
      | None => (ABadArgument, a)
      | Some public_key =>
          match lookup_key (registry s) public_key with
          | None => (AMiss, set_registry (set_keyed (unwatch (ph_subscription h) public_key (keyed s)) s) a)
          | Some record => (ARecord (info s record), set_registry (set_keyed (watch (ph_subscription h) public_key (keyed s)) s) a)
          end
      end
  end.

(** The result member or the code of an error. *)
Inductive Reply := Found (record : PeerInfo) | NotFound | ErrorReply (code : Z).

Definition respond (answer : Answer) : Reply :=
  match answer with
  | ARecord record => Found record
  | AMiss => NotFound
  | ANotAdmitted => ErrorReply NOT_ADMITTED
  | ABadArgument => ErrorReply INVALID_PARAMS
  end.

Section Handler.
Context {Params : Type} (key_params address_params : Params -> option (list Z)).

(** A request from admission to its reply, in one step. The code takes the lock of the
    buckets and the registry's one after the other; a reload that comes between the two
    is not modelled here, the caller is looked up again under the second. *)
Definition handle_request (h : PeersApiHandler) (method : string) (params : Params) (now : Z) (a : AppState) : Reply * AppState :=
  let '(allowed, a) := allow_request (ph_peer_key h) now a in
  if negb allowed then (ErrorReply RATE_LIMITED, a) else
  if String.eqb method METHOD_BY_KEY then
    match key_params params with
    | None => (ErrorReply INVALID_PARAMS, a)
    | Some text => let '(r, a) := lookup h (LookupKey text) a in (respond r, a)
    end
  else if String.eqb method METHOD_BY_ADDRESS then
    match address_params params with
    | None => (ErrorReply INVALID_PARAMS, a)
    | Some text => let '(r, a) := lookup h (LookupAddress text) a in (respond r, a)
    end
  else if String.eqb method METHOD_WATCH then
    match key_params params with
    | None => (ErrorReply INVALID_PARAMS, a)
    | Some text => let '(r, a) := watch_key h text a in (respond r, a)
    end
  else (ErrorReply UNKNOWN_METHOD, a).

Definition handle_notification (h : PeersApiHandler) (method : string) (params : Params) (a : AppState) : AppState :=
  if negb (String.eqb method METHOD_UNWATCH) then a else
  match key_params params with
  | None => a
  | Some text =>
      let '(caller, a) := admit_caller (ph_peer_key h) a in
      match caller with
      | None => a
      | Some _ =>
          match decode_key b64_decode text with
          | None => a
          | Some public_key =>
              let s := app_registry a in set_registry (set_keyed (unwatch (ph_subscription h) public_key (keyed s)) s) a
          end
      end
  end.
End Handler.

(** ** [serve_connection] *)

Inductive Accepted := Forbidden | ServiceUnavailable | Serving (h : PeersApiHandler).

(** After the upgrade request has been read; the response is written between the permit and
    the subscription. *)
Definition accept_connection (peer_key : KeyBytes) (now : Z) (a : AppState) : Accepted * AppState :=
  match configured a peer_key with
  | None => (Forbidden, refuse a)
  | Some _ =>
      let '(permit, a) := open_connection peer_key now a in
      if negb permit then (ServiceUnavailable, a) else
      let '(id, s) := subscribe_keyed peer_key (app_registry a) in
      (Serving (mkHandler peer_key id), set_registry s a)
  end.

Definition invalidation_method (kind : RegistryChangeKind) : string :=
  match kind with Changed => METHOD_CHANGED | Removed => METHOD_REMOVED end.

Inductive Notifier := NotifyNothing | SendInvalidation (method : string) (public_key : KeyBytes) | PolicyClose.

(** What the notifier does with what [recv] came to. *)
Definition notify (h : PeersApiHandler) (r : Received) (a : AppState) : Notifier :=
  match r with
  | Waits => NotifyNothing
  | Change change =>
      match configured a (ph_peer_key h) with
      | None => PolicyClose
      | Some _ => SendInvalidation (invalidation_method (ch_kind change)) (ch_public_key change)
      end
  | Closed => PolicyClose
  end.
End Rpc.
