(* ===== verification/RpcFacts.v ===== *)
(** * The Peers API: coherence, authoritative answers, limits

    A client that watches keys and looks up again what it is told of never holds an old
    record unknowingly; "not found" is only ever said of a key that is not in the registry;
    a peer stays within its request budget and its connections, also by reconnecting. *)

From Stdlib Require Import String.
From S2P Require Import Prelude Clock Ip Cidr Firewall Resolve Registry Watch.
From S2P Require Import Rpc.
Local Open Scope nat_scope.

Section RpcFacts.
Context {CR : Cidr} {PM : PrefixMap nat} (visit : gset KeyBytes -> list KeyBytes).
Context (visit_all : forall ks, visit ks ≡ₚ elements ks).
Context (first_key : gmap KeyBytes RegistryChangeKind -> option KeyBytes).
Context (b64_decode : list Z -> option (list Z)) (parse_ip : list Z -> option IpAddr).
Context {Params : Type} (key_params address_params : Params -> option (list Z)).
Notation AppState := (AppState (CR := CR) (PM := PM)).
Notation handle_request := (handle_request b64_decode parse_ip key_params address_params).
Notation handle_notification := (handle_notification b64_decode key_params).

(** ** What the handlers do to the registry *)

Lemma admit_registry source (a : AppState) : app_registry (snd (admit_caller source a)) = app_registry a.
Proof. unfold admit_caller. by destruct (configured a source). Qed.
Lemma admit_configured source (a : AppState) : fst (admit_caller source a) = configured a source.
Proof. unfold admit_caller. by destruct (configured a source). Qed.
Lemma allow_registry key now (a : AppState) : app_registry (snd (allow_request key now a)) = app_registry a.
Proof. unfold allow_request. destruct (configured a key); [|done]. by destruct (usage_allow_request _ _) as [[] ?]. Qed.

Definition reply_of (r : option PeerInfo) : Reply := match r with Some i => Found i | None => NotFound end.

Lemma by_key_spec h params text k now (a : AppState) reply a' :
  key_params params = Some text -> decode_key b64_decode text = Some k ->
  handle_request h METHOD_BY_KEY params now a = (reply, a') ->
  app_registry a' = app_registry a /\
  (reply = reply_of (answer (app_registry a) k) \/ exists code, reply = ErrorReply code).
Proof.
  intros Hp Hk. unfold handle_request. pose proof (allow_registry (ph_peer_key h) now a) as Hr.
  destruct (allow_request (ph_peer_key h) now a) as [[] a1]; cbn [snd] in Hr; cbn [negb]; [|intros [= <- <-]; eauto].
  rewrite String.eqb_refl, Hp. unfold lookup. pose proof (admit_registry (ph_peer_key h) a1) as Ha.
  destruct (admit_caller (ph_peer_key h) a1) as [[caller|] a2]; cbn [snd] in Ha; [|intros [= <- <-]; split; [congruence|eauto]].
  rewrite Hk. intros [= <- <-]. split; [congruence|left]. rewrite Ha, Hr. unfold answer, answer_record.
  by destruct (lookup_key (registry (app_registry a)) k).
Qed.

(** A watch that is answered by a record is there, one answered by a miss is gone. *)
Lemma watch_spec h params text k now (a : AppState) reply a' :
  key_params params = Some text -> decode_key b64_decode text = Some k ->
  handle_request h METHOD_WATCH params now a = (reply, a') ->
  let s := app_registry a in
  (app_registry a' = s /\ exists code, reply = ErrorReply code) \/
  (exists i, answer s k = Some i /\ reply = Found i /\ app_registry a' = set_keyed (watch (ph_subscription h) k (keyed s)) s) \/
  (answer s k = None /\ reply = NotFound /\ app_registry a' = set_keyed (unwatch (ph_subscription h) k (keyed s)) s).
Proof.
  intros Hp Hk. unfold handle_request. pose proof (allow_registry (ph_peer_key h) now a) as Hr.
  destruct (allow_request (ph_peer_key h) now a) as [[] a1]; cbn [snd] in Hr; cbn [negb]; [|intros [= <- <-]; eauto].
  change (String.eqb METHOD_WATCH METHOD_BY_KEY) with false. change (String.eqb METHOD_WATCH METHOD_BY_ADDRESS) with false.
  rewrite String.eqb_refl, Hp. unfold watch_key. pose proof (admit_registry (ph_peer_key h) a1) as Ha.
  destruct (admit_caller (ph_peer_key h) a1) as [[caller|] a2]; cbn [snd] in Ha; [|intros [= <- <-]; left; split; [congruence|eauto]].
  rewrite Hk, Ha, Hr. unfold answer. destruct (lookup_key (registry (app_registry a)) k) as [r|]; intros [= <- <-]; right; [left|right]; eauto.
Qed.

Lemma notification_spec h method params (a : AppState) :
  app_registry (handle_notification h method params a) = app_registry a \/
  exists k, app_registry (handle_notification h method params a) =
    set_keyed (unwatch (ph_subscription h) k (keyed (app_registry a))) (app_registry a).
Proof.
  unfold handle_notification. destruct (negb _); [by left|]. destruct (key_params params) as [text|]; [|by left].
  pose proof (admit_registry (ph_peer_key h) a) as Ha. destruct (admit_caller (ph_peer_key h) a) as [[caller|] a1]; cbn [snd] in Ha; [|by left].
  destruct (decode_key b64_decode text) as [k|]; [|by left]. right. exists k. by rewrite <- Ha.
Qed.

(** ** The tracker and its clients *)

(** What a client holds of the keys it asked for, what it was told to look up again, and the
    reply that is under way to its only outstanding call. *)
Record Client := mkClient {
  cl_key : KeyBytes;
  cl_view : gmap KeyBytes (option PeerInfo);
  cl_refresh : gset KeyBytes;
  cl_inflight : option (KeyBytes * Reply);
}.
Definition client_new (key : KeyBytes) : Client := mkClient key ∅ ∅ None.

Definition client_handler (id : Z) (cl : Client) : PeersApiHandler := mkHandler (cl_key cl) id.

(** A call clears the wish to make it; a notification renews it, also while the reply is
    under way. *)
Definition client_sent (k : KeyBytes) (r : Reply) (cl : Client) : Client :=
  mkClient (cl_key cl) (cl_view cl) (cl_refresh cl ∖ {[k]}) (Some (k, r)).
Definition client_told (k : KeyBytes) (cl : Client) : Client :=
  mkClient (cl_key cl) (cl_view cl) ({[k]} ∪ cl_refresh cl) (cl_inflight cl).
(** The two answers are authoritative; an error leaves what the client has, to ask again. *)
Definition client_reply (cl : Client) : Client :=
  match cl_inflight cl with
  | Some (k, Found i) => mkClient (cl_key cl) (<[k := Some i]> (cl_view cl)) (cl_refresh cl) None
  | Some (k, NotFound) => mkClient (cl_key cl) (<[k := None]> (cl_view cl)) (cl_refresh cl) None
  | Some (k, ErrorReply _) => mkClient (cl_key cl) (cl_view cl) ({[k]} ∪ cl_refresh cl) None
  | None => cl
  end.

Record Tracker := mkTracker { tk_app : AppState; tk_clients : gmap Z Client }.

Definition conns (tk : Tracker) : gmap Z DispatchConnection := connections (keyed (app_registry (tk_app tk))).

Inductive tracker_step (tk : Tracker) : Tracker -> Prop :=
| step_accept key now h a :
    accept_connection key now (tk_app tk) = (Serving h, a) ->
    conns tk !! next_id (keyed (app_registry (tk_app tk))) = None ->
    tracker_step tk (mkTracker a (<[ph_subscription h := client_new key]> (tk_clients tk)))
| step_request id cl method params text k now reply a :
    tk_clients tk !! id = Some cl -> cl_inflight cl = None -> method = METHOD_BY_KEY \/ method = METHOD_WATCH ->
    key_params params = Some text -> decode_key b64_decode text = Some k ->
    handle_request (client_handler id cl) method params now (tk_app tk) = (reply, a) ->
    tracker_step tk (mkTracker a (<[id := client_sent k reply cl]> (tk_clients tk)))
| step_reply id cl :
    tk_clients tk !! id = Some cl ->
    tracker_step tk (mkTracker (tk_app tk) (<[id := client_reply cl]> (tk_clients tk)))
| step_notification id cl method params :
    tk_clients tk !! id = Some cl ->
    tracker_step tk (mkTracker (handle_notification (client_handler id cl) method params (tk_app tk)) (tk_clients tk))
| step_notify id cl change st method k :
    tk_clients tk !! id = Some cl ->
    recv first_key id (keyed (app_registry (tk_app tk))) = (Change change, st) ->
    notify (client_handler id cl) (Change change) (tk_app tk) = SendInvalidation method k ->
    tracker_step tk (mkTracker (set_registry (set_keyed st (app_registry (tk_app tk))) (tk_app tk)) (<[id := client_told k cl]> (tk_clients tk)))
| step_end id cl :
    tk_clients tk !! id = Some cl ->
    tracker_step tk (mkTracker (permit_drop (cl_key cl)
      (set_registry (set_keyed (remove id (keyed (app_registry (tk_app tk)))) (app_registry (tk_app tk))) (tk_app tk))) (delete id (tk_clients tk)))
| step_observe key endpoint :
    tracker_step tk (mkTracker (set_registry (observe_endpoint key endpoint (app_registry (tk_app tk))) (tk_app tk)) (tk_clients tk))
| step_replace reg :
    keys_ok reg ->
    tracker_step tk (mkTracker (set_registry (replace visit reg (app_registry (tk_app tk))) (tk_app tk)) (tk_clients tk)).

(** Once the reply under way is there, the client holds [v] for [k], or asks again. *)
Definition will_know (cl : Client) (k : KeyBytes) (v : option PeerInfo) : Prop :=
  match cl_inflight cl with
  | Some (k', r) =>
      if decide (k' = k) then match r with Found i => v = Some i | NotFound => v = None | ErrorReply _ => True end
      else cl_view cl !! k = Some v
  | None => cl_view cl !! k = Some v
  end.

(** A watched key is current, or about to be looked up, or about to be told of. *)
Definition current (s : SharedRegistry) (cl : Client) (c : DispatchConnection) : Prop :=
  forall k, k ∈ dc_watched c ->
    is_Some (q_pending (dc_queue c) !! k) \/ k ∈ cl_refresh cl \/ will_know cl k (answer s k).

Record coherent (tk : Tracker) : Prop := {
  co_shared : shared_ok (app_registry (tk_app tk));
  co_current id cl c : tk_clients tk !! id = Some cl -> conns tk !! id = Some c -> current (app_registry (tk_app tk)) cl c;
}.

Lemma tracker_new_coherent reg : keys_ok reg -> coherent (mkTracker (app_new reg) ∅).
Proof. intros H. split; [split; [done|apply dispatcher_new_ok]|]. done. Qed.

(** ** Every step keeps the clients coherent *)


Lemma current_told changes (s s' : SharedRegistry) cl c :
  NoDup (ch_public_key <$> changes) -> (q_closed (dc_queue c) = true -> dc_watched c = ∅) ->
  (forall k, answer s k <> answer s' k -> exists kind, mkChange k kind ∈ changes) ->
  current s cl c -> current s' cl (foldl (fun c ch => told ch c) c changes).
Proof.
  intros Hnd Hcl Hch Hcur k Hk. destruct (told_all changes c Hnd) as (_ & H1 & H2).
  destruct (decide (mkChange (dc_caller c) Removed ∈ changes)) as [Hr|Hr].
  { destruct (H1 Hr) as [E _]. rewrite E in Hk. set_solver. }
  destruct (H2 Hr) as (E & _ & H3). rewrite E in Hk.
  destruct (q_closed (dc_queue c)) eqn:Ecl; [rewrite (Hcl eq_refl) in Hk; set_solver|].
  destruct (H3 eq_refl k) as [H4 H5]. destruct (decide (answer s k = answer s' k)) as [Ea|Ea].
  - destruct (decide (k ∈ ch_public_key <$> changes)) as [Hin|Hin].
    + apply list_elem_of_fmap in Hin as ([k' kind] & -> & Hin). left. cbn [ch_public_key] in *. rewrite (H4 kind); [eauto|done|done].
    + rewrite H5 by (by right). rewrite <- Ea. by apply Hcur.
  - destruct (Hch k Ea) as [kind Hin]. left. rewrite (H4 kind); [eauto|done|done].
Qed.

Lemma published_coherent (tk : Tracker) s' changes :
  coherent tk -> NoDup (ch_public_key <$> changes) -> keys_ok (registry s') -> dispatch_ok (keyed s') ->
  (forall k, answer (app_registry (tk_app tk)) k <> answer s' k -> exists kind, mkChange k kind ∈ changes) ->
  (forall id, connections (keyed s') !! id = (fun c => foldl (fun c ch => told ch c) c changes) <$> conns tk !! id) ->
  coherent (mkTracker (set_registry s' (tk_app tk)) (tk_clients tk)).
Proof.
  intros [[_ Hd] Hcur] Hnd Hkeys Hd' Hch Hcs. split; [by split|]. intros id cl c Hcl. unfold conns. cbn [tk_app app_registry set_registry tk_clients] in *.
  rewrite Hcs. intros (c0 & E & ->)%fmap_Some. eapply current_told; [done| |exact Hch|by eapply Hcur].
  eapply do_closed; [exact Hd|exact E].
Qed.

Lemma observe_coherent key endpoint (tk : Tracker) :
  coherent tk -> coherent (mkTracker (set_registry (observe_endpoint key endpoint (app_registry (tk_app tk))) (tk_app tk)) (tk_clients tk)).
Proof.
  intros Hco. pose proof Hco as [[Hk Hd] Hcur]. set (s := app_registry (tk_app tk)) in *. unfold observe_endpoint.
  assert (coherent (mkTracker (set_registry s (tk_app tk)) (tk_clients tk))) as Hsame by (by split).
  destruct (lookup_key (registry s) key) as [r|] eqn:Er; [|done]. case_bool_decide as Hobs; [done|].
  set (s1 := mkShared (registry s) (<[key := endpoint]> (observed_endpoints s)) (broadcast s) (keyed s)).
  assert (forall k, k <> key -> answer s k = answer s1 k) as Hother.
  { intros k Hne. unfold answer, info, effective_endpoint, s1. cbn [registry observed_endpoints].
    destruct (lookup_key (registry s) k) as [r'|] eqn:E; [|done]. cbn. rewrite !(overlay_key _ r' k) by eauto.
    by rewrite lookup_insert_ne. }
  case_bool_decide as Hb.
  - destruct (publish_all_spec [mkChange key Changed] s1 Hd) as (E1 & E2 & E3 & E4 & E5 & E6). cbn [foldl] in *.
    apply (published_coherent tk _ [mkChange key Changed]); [done| |by rewrite E1|done| |done].
    + cbn. apply NoDup_singleton.
    + intros k Hne. exists Changed. destruct (decide (k = key)) as [->|Hk']; [left|]. exfalso. apply Hne. transitivity (answer s1 k); [by apply Hother|].
      unfold answer, info, effective_endpoint. by rewrite E1, E2.
  - apply (published_coherent tk s1 []); [done|by apply NoDup_nil_2|done|done| |by intros id; unfold conns; fold s; cbn; destruct (connections (keyed s) !! id)].
    intros k Hne. exfalso. apply Hne. destruct (decide (k = key)) as [->|Hk']; [|by apply Hother].
    unfold answer, info, effective_endpoint, s1. cbn [registry observed_endpoints]. fold s. rewrite Er. cbn.
    rewrite !(overlay_key _ r key) by eauto. by rewrite lookup_insert_eq, Hb.
Qed.

(** The connection of one client changes, the answers do not. *)
Lemma keyed_coherent (tk : Tracker) st (a : AppState) clients id :
  coherent tk -> app_registry a = set_keyed st (app_registry (tk_app tk)) -> dispatch_ok st ->
  (forall id', id' <> id -> clients !! id' = tk_clients tk !! id' /\ connections st !! id' = conns tk !! id') ->
  (forall cl c, clients !! id = Some cl -> connections st !! id = Some c -> current (app_registry (tk_app tk)) cl c) ->
  coherent (mkTracker a clients).
Proof.
  intros [[Hk Hd] Hcur] Ha Hst Hother Hid. split; cbn [tk_app tk_clients]; rewrite ?Ha; [by split|].
  intros id' cl c Hcl. unfold conns. cbn [tk_app]. rewrite Ha. cbn [keyed set_keyed]. intros Hc.
  destruct (decide (id' = id)) as [->|Hne]; [by apply Hid|]. destruct (Hother id' Hne) as [E1 E2]. rewrite E1 in Hcl. rewrite E2 in Hc. by eapply Hcur.
Qed.

(** A subscription's own operations leave the other connections alone. *)
Lemma watch_other id k st id' : id' <> id -> connections (watch id k st) !! id' = connections st !! id'.
Proof. intros H. unfold watch. destruct (connections st !! id); [|done]. destruct (_ || _); [done|]. by apply lookup_insert_ne. Qed.
Lemma unwatch_other id k st id' : id' <> id -> connections (unwatch id k st) !! id' = connections st !! id'.
Proof. intros H. unfold unwatch. destruct (connections st !! id); [|done]. case_bool_decide; [done|]. by apply lookup_insert_ne. Qed.

(** A connection after [watch] and [unwatch]: every other key is as it was. *)
Lemma watch_own id k st c' :
  connections (watch id k st) !! id = Some c' ->
  exists c, connections st !! id = Some c /\ dc_queue c' = dc_queue c /\ forall k', k' ∈ dc_watched c' -> k' = k \/ k' ∈ dc_watched c.
Proof.
  unfold watch. destruct (connections st !! id) as [c|] eqn:E; [|congruence].
  destruct (_ || _); [intros Hc; exists c; split_and!; try congruence; intros; right; congruence|].
  cbn [connections]. rewrite lookup_insert_eq. intros [= <-]. exists c. set_solver.
Qed.
Lemma unwatch_own id k st c' :
  connections (unwatch id k st) !! id = Some c' ->
  exists c, connections st !! id = Some c /\ forall k', k' ∈ dc_watched c' -> k' ∈ dc_watched c /\ k' <> k /\
    q_pending (dc_queue c') !! k' = q_pending (dc_queue c) !! k'.
Proof.
  unfold unwatch. destruct (connections st !! id) as [c|] eqn:E; [|congruence].
  case_bool_decide as Hw.
  - intros Hc. exists c. split; [done|]. intros k' Hk'. replace c' with c in * by congruence. set_solver.
  - cbn [connections]. rewrite lookup_insert_eq. intros [= <-]. exists c. split; [done|]. cbn. intros k' Hk'. split_and!; [set_solver..|].
    apply lookup_delete_ne. set_solver.
Qed.

Lemma unwatch_current s cl c c' :
  (forall k', k' ∈ dc_watched c' -> k' ∈ dc_watched c /\ q_pending (dc_queue c') !! k' = q_pending (dc_queue c) !! k') ->
  current s cl c -> current s cl c'.
Proof. intros H Hcur k' Hk'. destruct (H k' Hk') as [Hw ->]. by apply Hcur. Qed.

(** A reply about [k] leaves the client's other keys as they were. *)
Lemma client_sent_other k r cl k' v :
  cl_inflight cl = None -> k' <> k ->
  (k' ∈ cl_refresh (client_sent k r cl) <-> k' ∈ cl_refresh cl) /\ (will_know (client_sent k r cl) k' v <-> will_know cl k' v).
Proof. intros Hn H. unfold will_know. rewrite Hn. cbn. split; [set_solver|]. by rewrite decide_False by congruence. Qed.

Lemma current_sent s k r cl c c' :
  cl_inflight cl = None ->
  (forall k', k' ∈ dc_watched c' -> k' <> k -> k' ∈ dc_watched c /\ q_pending (dc_queue c') !! k' = q_pending (dc_queue c) !! k') ->
  (k ∈ dc_watched c' -> r = reply_of (answer s k) \/ exists code, r = ErrorReply code) ->
  current s cl c -> current s (client_sent k r cl) c'.
Proof.
  intros Hn Hc Hk Hcur k' Hk'. destruct (decide (k' = k)) as [->|Hne].
  - right. right. unfold will_know, client_sent. cbn [cl_inflight]. rewrite decide_True by done.
    destruct (Hk Hk') as [-> | [code ->]]; [|done]. by destruct (answer s k).
  - destruct (Hc k' Hk' Hne) as [Hw ->]. destruct (client_sent_other k r cl k' (answer s k') Hn Hne) as [-> ->]. by apply Hcur.
Qed.

Lemma set_keyed_same (s : SharedRegistry) : set_keyed (keyed s) s = s.
Proof. by destruct s. Qed.

Lemma accept_coherent tk key now h a :
  coherent tk -> accept_connection key now (tk_app tk) = (Serving h, a) ->
  conns tk !! next_id (keyed (app_registry (tk_app tk))) = None ->
  coherent (mkTracker a (<[ph_subscription h := client_new key]> (tk_clients tk))).
Proof.
  intros Hco Hacc Hfresh. pose proof Hco as [[Hk Hd] Hcur]. set (s := app_registry (tk_app tk)) in *.
  unfold accept_connection in Hacc. destruct (configured (tk_app tk) key) as [r|] eqn:Er; [|done].
  assert (app_registry (snd (open_connection key now (tk_app tk))) = s) as Ho
    by (unfold open_connection; rewrite Er; by destruct (MAX_CONNECTIONS_PER_PEER <=? _)).
  destruct (open_connection key now (tk_app tk)) as [[] a1]; cbn [snd negb] in *; [|done].
  unfold subscribe_keyed in Hacc. rewrite Ho in Hacc. destruct (subscribe key (keyed s)) as [id st] eqn:Es. injection Hacc as <- <-.
  pose proof (subscribe_ok key (keyed s) Hd Hfresh) as Hd'. rewrite Es in Hd'. unfold subscribe in Es. injection Es as <- <-. cbn [ph_subscription].
  eapply (keyed_coherent tk _ _ _ (next_id (keyed s))); [done|reflexivity|exact Hd'| |].
  - intros id' Hne. split; by apply lookup_insert_ne.
  - intros cl c. cbn [connections]. rewrite !lookup_insert_eq. intros [= <-] [= <-] k Hin. set_solver.
Qed.

Lemma by_key_coherent tk id cl params text k now reply a :
  coherent tk -> tk_clients tk !! id = Some cl -> cl_inflight cl = None ->
  key_params params = Some text -> decode_key b64_decode text = Some k ->
  handle_request (client_handler id cl) METHOD_BY_KEY params now (tk_app tk) = (reply, a) ->
  coherent (mkTracker a (<[id := client_sent k reply cl]> (tk_clients tk))).
Proof.
  intros Hco Hcl Hn Hp Hdec Hreq. pose proof Hco as [[Hk Hd] Hcur].
  destruct (by_key_spec _ _ _ _ _ _ _ _ Hp Hdec Hreq) as [Ha Hr].
  eapply (keyed_coherent tk _ _ _ id); [done|by rewrite Ha; symmetry; apply set_keyed_same|done|by intros; rewrite lookup_insert_ne|].
  intros cl' c. rewrite lookup_insert_eq. intros [= <-] Hc. pose proof (Hcur id cl c Hcl Hc) as Hcc.
  by apply (current_sent _ k reply cl c c).
Qed.

Lemma watch_coherent tk id cl params text k now reply a :
  coherent tk -> tk_clients tk !! id = Some cl -> cl_inflight cl = None ->
  key_params params = Some text -> decode_key b64_decode text = Some k ->
  handle_request (client_handler id cl) METHOD_WATCH params now (tk_app tk) = (reply, a) ->
  coherent (mkTracker a (<[id := client_sent k reply cl]> (tk_clients tk))).
Proof.
  intros Hco Hcl Hn Hp Hdec Hreq. pose proof Hco as [[Hk Hd] Hcur].
  destruct (watch_spec _ _ _ _ _ _ _ _ Hp Hdec Hreq) as [[Ha [code ->]]|[(i & Hi & -> & Ha)|(Hi & -> & Ha)]].
  - eapply (keyed_coherent tk _ _ _ id); [done|by rewrite Ha; symmetry; apply set_keyed_same|done|by intros; rewrite lookup_insert_ne|].
    intros cl' c. rewrite lookup_insert_eq. intros [= <-] Hc. apply (current_sent _ k _ cl c c); [done|done|eauto|by eapply Hcur].
  - eapply (keyed_coherent tk _ _ _ id); [done|exact Ha|by apply watch_ok| |].
    + intros id' Hne. split; [by apply lookup_insert_ne|by apply watch_other].
    + intros cl' c'. rewrite lookup_insert_eq. intros [= <-] (c & Hc & Hq & Hw)%watch_own.
      apply (current_sent _ k (Found i) cl c c'); [done| |by rewrite Hi; left|by eapply (Hcur id cl c)].
      intros k' Hk' Hne. rewrite Hq. split; [|done]. by destruct (Hw k' Hk').
  - eapply (keyed_coherent tk _ _ _ id); [done|exact Ha|by apply unwatch_ok| |].
    + intros id' Hne. split; [by apply lookup_insert_ne|by apply unwatch_other].
    + intros cl' c'. rewrite lookup_insert_eq. intros [= <-] (c & Hc & Hw)%unwatch_own.
      apply (current_sent _ k NotFound cl c c'); [done| |by intros Hin; destruct (Hw k Hin) as (_ & ? & _)|by eapply (Hcur id cl c)].
      intros k' Hk' Hne. by destruct (Hw k' Hk') as (? & _ & ?).
Qed.

Lemma notification_coherent tk id cl method params :
  coherent tk -> coherent (mkTracker (handle_notification (client_handler id cl) method params (tk_app tk)) (tk_clients tk)).
Proof.
  intros Hco. pose proof Hco as [[Hk Hd] Hcur].
  destruct (notification_spec (client_handler id cl) method params (tk_app tk)) as [Ha|[k Ha]].
  - eapply (keyed_coherent tk _ _ _ id); [done|by rewrite Ha; symmetry; apply set_keyed_same|done|done|]. intros cl' c. by apply Hcur.
  - eapply (keyed_coherent tk _ _ _ id); [done|exact Ha|by apply unwatch_ok|by intros; rewrite unwatch_other|].
    intros cl' c' Hcl' (c & Hc & Hw)%unwatch_own. eapply unwatch_current; [|by eapply (Hcur id cl' c)].
    intros k' Hk'. by destruct (Hw k' Hk') as (? & _ & ?).
Qed.

Lemma reply_coherent tk id cl :
  coherent tk -> tk_clients tk !! id = Some cl -> coherent (mkTracker (tk_app tk) (<[id := client_reply cl]> (tk_clients tk))).
Proof.
  intros [Hs Hcur] Hcl. split; [done|]. intros id' cl' c. cbn [tk_clients tk_app].
  destruct (decide (id' = id)) as [->|Hne]; [|rewrite lookup_insert_ne by done; apply Hcur].
  rewrite lookup_insert_eq. intros [= <-] Hc k Hk. destruct (Hcur id cl c Hcl Hc k Hk) as [?|H]; [by left|right].
  unfold client_reply, will_know in *. destruct (cl_inflight cl) as [[k' r]|] eqn:Ei; [|by rewrite Ei].
  destruct r as [i| |code]; cbn [cl_refresh cl_inflight cl_view]; (destruct H as [H|H]; [left; first [exact H|by apply elem_of_union_r]|]);
    (destruct (decide (k' = k)) as [->|Hkk]; [|right; by rewrite ?lookup_insert_ne by done]).
  - right. by rewrite lookup_insert_eq, H.
  - right. by rewrite lookup_insert_eq, H.
  - left. by apply elem_of_union_l, elem_of_singleton.
Qed.

Lemma notify_coherent tk id cl ch st method k :
  coherent tk -> tk_clients tk !! id = Some cl ->
  recv first_key id (keyed (app_registry (tk_app tk))) = (Change ch, st) ->
  notify (client_handler id cl) (Change ch) (tk_app tk) = SendInvalidation method k ->
  coherent (mkTracker (set_registry (set_keyed st (app_registry (tk_app tk))) (tk_app tk)) (<[id := client_told k cl]> (tk_clients tk))).
Proof.
  intros Hco Hcl Hrecv Hnot. pose proof Hco as [[Hk Hd] Hcur]. set (s := app_registry (tk_app tk)) in *.
  pose proof (recv_ok first_key id (keyed s) Hd) as Hd'. rewrite Hrecv in Hd'. cbn [snd] in Hd'.
  unfold notify in Hnot. destruct (configured _ _); [|done]. injection Hnot as _ <-.
  unfold recv in Hrecv. destruct (connections (keyed s) !! id) as [c|] eqn:Ec; [|done].
  destruct (queue_recv first_key (dc_queue c)) as [r q] eqn:Eq. injection Hrecv as -> <-.
  eapply (keyed_coherent tk _ _ _ id); [done|reflexivity|exact Hd'| |].
  - intros id' Hne. split; by apply lookup_insert_ne.
  - intros cl' c'. cbn [connections]. rewrite !lookup_insert_eq. intros [= <-] [= <-] k Hin. cbn [dc_watched dc_queue] in *.
    destruct (decide (k = ch_public_key ch)) as [->|Hne]; [right; left; cbn; set_solver|].
    assert (q_pending q !! k = q_pending (dc_queue c) !! k) as ->.
    { unfold queue_recv in Eq. destruct (q_closed (dc_queue c)); [done|]. destruct (first_key _) as [k0|]; [|done].
      destruct (q_pending (dc_queue c) !! k0) as [kind|]; [|done]. injection Eq as <- <-. cbn. by apply lookup_delete_ne. }
    destruct (Hcur id cl c Hcl Ec k Hin) as [?|[?|?]]; [by left|right; left; cbn; set_solver|by right; right].
Qed.

Lemma end_coherent tk id cl :
  coherent tk ->
  coherent (mkTracker (permit_drop (cl_key cl)
    (set_registry (set_keyed (remove id (keyed (app_registry (tk_app tk)))) (app_registry (tk_app tk))) (tk_app tk))) (delete id (tk_clients tk))).
Proof.
  intros Hco. pose proof Hco as [[Hk Hd] Hcur].
  eapply (keyed_coherent tk (remove id (keyed (app_registry (tk_app tk)))) _ _ id); [done| |by apply remove_ok| |].
  - unfold permit_drop. repeat case_match; done.
  - intros id' Hne. split; [by apply lookup_delete_ne|]. unfold remove, conns. case_match; [by apply lookup_delete_ne|done].
  - intros cl' c. by rewrite lookup_delete_eq.
Qed.

Lemma replace_coherent tk reg :
  coherent tk -> keys_ok reg ->
  coherent (mkTracker (set_registry (replace visit reg (app_registry (tk_app tk))) (tk_app tk)) (tk_clients tk)).
Proof.
  intros Hco Hreg. pose proof Hco as [[Hk Hd] Hcur].
  destruct (replace_changes visit visit_all _ reg Hk Hreg Hd) as (changes & E1 & E2 & E3 & E4 & E5 & E6 & E7 & E8).
  apply (published_coherent tk _ changes); [done|done|by rewrite E1|done| |done].
  intros k Hne. destruct (transition (answer (app_registry (tk_app tk)) k) (answer (replace visit reg (app_registry (tk_app tk))) k)) as [kind|] eqn:Et.
  - exists kind. by apply E7.
  - by apply transition_None in Et.
Qed.

Lemma step_coherent tk tk' : coherent tk -> tracker_step tk tk' -> coherent tk'.
Proof.
  intros Hco Hstep. destruct Hstep as [key now h a Hacc Hfresh|id cl method params text k now reply a Hcl Hn Hm Hp Hdec Hreq|id cl Hcl|id cl method params Hcl
    |id cl ch st method k Hcl Hrecv Hnot|id cl Hcl|key endpoint|reg Hreg].
  - by eapply accept_coherent.
  - destruct Hm as [-> | ->]; [by eapply by_key_coherent|by eapply watch_coherent].
  - by apply reply_coherent.
  - by apply notification_coherent.
  - by eapply notify_coherent.
  - by apply end_coherent.
  - by apply observe_coherent.
  - by apply replace_coherent.
Qed.

(** C27: No watcher is stale without knowing. From any registry, through any interleaving of accepted and ended connections, lookups, watches and unwatches of any clients, notifications (also between a call and its reply), observed endpoints and configuration reloads, and whatever order maps are visited in: whenever nothing is queued for a key a connection watches, its client has nothing to look up again and no reply is under way, the client holds exactly what the registry would answer now, an absent record included. *)
Theorem watchers_never_stale reg tk id cl c k :
  keys_ok reg -> rtc tracker_step (mkTracker (app_new reg) ∅) tk ->
  tk_clients tk !! id = Some cl -> conns tk !! id = Some c -> k ∈ dc_watched c ->
  q_pending (dc_queue c) !! k = None -> k ∉ cl_refresh cl -> cl_inflight cl = None ->
  cl_view cl !! k = Some (answer (app_registry (tk_app tk)) k).
Proof.
  intros Hreg Hsteps Hcl Hc Hk Hp Hr Hi.
  assert (coherent tk) as [_ Hcur].
  { remember (mkTracker (app_new reg) ∅) as tk0 eqn:E0. assert (coherent tk0) as H by (subst; by apply tracker_new_coherent).
    clear E0. induction Hsteps as [tk|tk tk1 tk2 Hstep _ IH]; [done|]. apply IH; [done..|]. by eapply step_coherent. }
  destruct (Hcur id cl c Hcl Hc k Hk) as [H|[H|H]]; [rewrite Hp in H; by destruct H|done|].
  unfold will_know in H. by rewrite Hi in H.
Qed.

(** One outcome of a request against the claims about it. *)
Ltac honest := cbn [respond]; split_and!; [by (intros; split; eauto)|done|by (intros; (left + right); eauto 6)|by (intros ? [= <-]; (left + right); eauto 8)].

(** C28: "Not found" is authoritative. A request is answered "not found" only when the caller is configured and within its budget, its argument decodes, and the registry has no record for exactly that key or address; a record is answered only with what the registry serves for it now; a caller that is not configured or has no budget gets an error, and its request changes nothing in the registry and its watches. (A comment of [open_connection] has unconfigured keys answered "not found"; the handler answers that they are not admitted.) *)
Theorem not_found_authoritative h method params now (a : AppState) :
  let s := app_registry a in
  let '(reply, a') := handle_request h method params now a in
  (configured a (ph_peer_key h) = None -> app_registry a' = s /\ exists code, reply = ErrorReply code) /\
  (fst (allow_request (ph_peer_key h) now a) = false -> reply = ErrorReply RATE_LIMITED /\ app_registry a' = s) /\
  (reply = NotFound ->
    (exists text k, key_params params = Some text /\ decode_key b64_decode text = Some k /\ lookup_key (registry s) k = None) \/
    (exists text ip, address_params params = Some text /\ parse_ip text = Some ip /\ lookup_address (registry s) (unmap_address ip) = None)) /\
  (forall i, reply = Found i ->
    (exists text k r, key_params params = Some text /\ decode_key b64_decode text = Some k /\ lookup_key (registry s) k = Some r /\ i = info s r) \/
    (exists text ip r, address_params params = Some text /\ parse_ip text = Some ip /\ lookup_address (registry s) (unmap_address ip) = Some r /\ i = info s r)).
Proof.
  cbv zeta. unfold handle_request. pose proof (allow_registry (ph_peer_key h) now a) as Hr.
  destruct (allow_request (ph_peer_key h) now a) as [[] a1]; cbn [fst snd negb] in *; [|split_and!; [split; [done|eauto]|done|done|done]].
  assert (configured a1 (ph_peer_key h) = configured a (ph_peer_key h)) as Hcfg by (unfold configured, config_snapshot; by rewrite Hr).
  pose proof (admit_registry (ph_peer_key h) a1) as Ha. pose proof (admit_configured (ph_peer_key h) a1) as Hadm.
  unfold lookup, watch_key. destruct (admit_caller (ph_peer_key h) a1) as [caller a2]. cbn [fst snd] in *. subst caller. rewrite Hcfg, Ha, Hr in *.
  assert (app_registry a2 = app_registry a) as Ha2 by congruence.
  destruct (String.eqb method METHOD_BY_KEY); [|destruct (String.eqb method METHOD_BY_ADDRESS); [|destruct (String.eqb method METHOD_WATCH)]].
  - destruct (key_params params) as [text|] eqn:Ep; [|honest]. destruct (configured a (ph_peer_key h)) as [caller|]; [|honest].
    destruct (decode_key b64_decode text) as [k|] eqn:Ek; [|honest]. unfold answer_record. destruct (lookup_key _ k) as [r|] eqn:El; honest.
  - destruct (address_params params) as [text|] eqn:Ep; [|honest]. destruct (configured a (ph_peer_key h)) as [caller|]; [|honest].
    destruct (parse_ip text) as [ip|] eqn:Ek; [|honest]. unfold answer_record. destruct (lookup_address _ _) as [r|] eqn:El; honest.
  - destruct (key_params params) as [text|] eqn:Ep; [|honest]. destruct (configured a (ph_peer_key h)) as [caller|]; [|honest].
    destruct (decode_key b64_decode text) as [k|] eqn:Ek; [|honest]. destruct (lookup_key _ k) as [r|] eqn:El; honest.
  - honest.
Qed.
End RpcFacts.

Section RpcWitness.
#[local] Existing Instance CidrModel.ops.
#[local] Existing Instance CidrModel.laws.
#[local] Existing Instance MapModel.ops.
#[local] Existing Instance MapModel.laws.

Definition demo_key (b : Z) : list Z := replicate 32 b.
Definition demo_text (b : Z) : list Z := replicate 44 b.
Definition demo_decode (text : list Z) : option (list Z) := Some (take 32 text).
Definition demo_first (m : gmap KeyBytes RegistryChangeKind) : option KeyBytes := fst <$> head (map_to_list m).
Definition demo_registry : Registry := match build demo_records with inl reg => reg | inr _ => registry_empty end.
Definition demo_handle := handle_request demo_decode (fun _ : list Z => None) (Params := list Z) Some Some.
Notation step := (tracker_step elements demo_first demo_decode (fun _ => None) (Params := list Z) Some Some).

(** Peer 1 connects and watches peer 2; an endpoint of peer 2 is observed, peer 1 is told
    and looks peer 2 up again. *)
Definition demo0 : Tracker := mkTracker (app_new demo_registry) ∅.
Definition demo1 : Tracker := mkTracker (snd (accept_connection (demo_key 1) 0 (tk_app demo0))) (<[0%Z := client_new (demo_key 1)]> ∅).
Definition demo_request (method : string) (tk : Tracker) : Tracker :=
  match tk_clients tk !! 0%Z with
  | Some cl => let '(reply, a) := demo_handle (client_handler 0 cl) method (demo_text 2) 0%Z (tk_app tk) in
               mkTracker a (<[0%Z := client_sent (demo_key 2) reply cl]> (tk_clients tk))
  | None => tk
  end.
Definition demo_reply (tk : Tracker) : Tracker :=
  match tk_clients tk !! 0%Z with Some cl => mkTracker (tk_app tk) (<[0%Z := client_reply cl]> (tk_clients tk)) | None => tk end.
Definition demo_notify (tk : Tracker) : Tracker :=
  match tk_clients tk !! 0%Z with
  | Some cl => mkTracker (set_registry (set_keyed (snd (recv demo_first 0 (keyed (app_registry (tk_app tk))))) (app_registry (tk_app tk))) (tk_app tk))
                 (<[0%Z := client_told (demo_key 2) cl]> (tk_clients tk))
  | None => tk
  end.
Definition demo2 := demo_reply (demo_request METHOD_WATCH demo1).
Definition demo3 := mkTracker (set_registry (observe_endpoint (demo_key 2) (SockV4 7 8) (app_registry (tk_app demo2))) (tk_app demo2)) (tk_clients demo2).
Definition demo4 := demo_notify demo3.
Definition demo5 := demo_reply (demo_request METHOD_BY_KEY demo4).

Lemma demo_request_step method tk :
  (exists cl, tk_clients tk !! 0%Z = Some cl /\ cl_inflight cl = None) -> method = METHOD_BY_KEY \/ method = METHOD_WATCH ->
  step tk (demo_request method tk).
Proof.
  intros (cl & Hcl & Hn) Hm. unfold demo_request. rewrite Hcl.
  destruct (demo_handle (client_handler 0 cl) method (demo_text 2) 0%Z (tk_app tk)) as [reply a] eqn:E.
  by eapply (step_request _ _ _ _ _ _ _ 0%Z cl method (demo_text 2) (demo_text 2) (demo_key 2) 0%Z reply a).
Qed.
Definition present (tk : Tracker) : bool := match tk_clients tk !! 0%Z with Some _ => true | None => false end.
Lemma demo_reply_step tk : present tk = true -> step tk (demo_reply tk).
Proof. unfold present, demo_reply. destruct (tk_clients tk !! 0%Z) as [cl|] eqn:Hcl; [|done]. intros _. by apply step_reply. Qed.

Lemma demo_registry_keys : keys_ok demo_registry.
Proof.
  pose proof (build_from_spec 4 demo_records registry_empty (registry_empty_ok 4) ltac:(cbn; lia)) as H.
  unfold demo_registry, build. destruct (build_from registry_empty demo_records) as [reg|e].
  - destruct H as [[_ Hk _ _ _] _]. intros k r (i & Hi & Hr)%bind_Some. apply Hk in Hi as (r' & Hi & <-). congruence.
  - intros k r (i & Hi & Hr)%bind_Some. done.
Qed.

(** Client 0 has no call under way. *)
Definition free (tk : Tracker) : bool := match tk_clients tk !! 0%Z with Some cl => bool_decide (cl_inflight cl = None) | None => false end.
Lemma free_client tk : free tk = true -> exists cl, tk_clients tk !! 0%Z = Some cl /\ cl_inflight cl = None.
Proof. unfold free. destruct (tk_clients tk !! 0%Z) as [cl|]; [|done]. intros H%bool_decide_eq_true. eauto. Qed.

Lemma demo_steps : rtc step demo0 demo5.
Proof.
  eapply (rtc_l _ _ demo1).
  { apply (step_accept _ _ _ _ _ _ demo0 (demo_key 1) 0%Z (mkHandler (demo_key 1) 0)); [|vm_compute; reflexivity].
    rewrite (surjective_pairing (accept_connection _ _ _)). f_equal; vm_compute; reflexivity. }
  eapply rtc_l; [apply (demo_request_step METHOD_WATCH); [apply free_client; vm_compute; reflexivity|by right]|].
  eapply (rtc_l _ _ demo2); [apply demo_reply_step; vm_compute; reflexivity|].
  eapply (rtc_l _ _ demo3); [apply step_observe|].
  eapply (rtc_l _ _ demo4).
  { unfold demo4, demo_notify. assert (present demo3 = true) as Hp by (vm_compute; reflexivity). unfold present in Hp.
    destruct (tk_clients demo3 !! 0%Z) as [cl|] eqn:E; [|discriminate Hp].
    apply (step_notify _ _ _ _ _ _ demo3 0%Z cl (mkChange (demo_key 2) Changed) _ METHOD_CHANGED (demo_key 2) E).
    - rewrite (surjective_pairing (recv _ _ _)). f_equal; vm_compute; reflexivity.
    - assert (cl_key cl = demo_key 1) as Hk.
      { assert (match tk_clients demo3 !! 0%Z with Some cl => bool_decide (cl_key cl = demo_key 1) | None => false end = true) as H
          by (vm_compute; reflexivity). rewrite E in H. by apply bool_decide_eq_true in H. }
      unfold notify, client_handler. rewrite Hk. vm_compute. reflexivity. }
  eapply rtc_l; [apply (demo_request_step METHOD_BY_KEY); [apply free_client; vm_compute; reflexivity|by left]|].
  eapply (rtc_l _ _ demo5); [apply demo_reply_step; vm_compute; reflexivity|]. apply rtc_refl.
Qed.

Lemma watchers_never_stale_witness :
  exists cl, tk_clients demo5 !! 0%Z = Some cl /\
    cl_view cl !! demo_key 2 = Some (answer (app_registry (tk_app demo5)) (demo_key 2)) /\
    bool_decide ((info_endpoint <$> answer (app_registry (tk_app demo5)) (demo_key 2)) = Some (Some (SockV4 7 8))) = true.
Proof.
  assert (match tk_clients demo5 !! 0%Z, conns demo5 !! 0%Z with
    | Some cl, Some c => bool_decide (demo_key 2 ∈ dc_watched c) && bool_decide (q_pending (dc_queue c) !! demo_key 2 = None) &&
        bool_decide (demo_key 2 ∉ cl_refresh cl) && bool_decide (cl_inflight cl = None)
    | _, _ => false end = true) as H by (vm_compute; reflexivity).
  destruct (tk_clients demo5 !! 0%Z) as [cl|] eqn:Ecl; [|discriminate H]. destruct (conns demo5 !! 0%Z) as [c|] eqn:Ec; [|discriminate H].
  rewrite !andb_true_iff, !bool_decide_eq_true in H. destruct H as (((H1 & H2) & H3) & H4).
  exists cl. split; [reflexivity|]. split; [|vm_compute; reflexivity].
  refine (watchers_never_stale elements _ demo_first demo_decode (fun _ => None) (Params := list Z) Some Some
    demo_registry demo5 0%Z cl c (demo_key 2) _ demo_steps Ecl Ec H1 H2 H3 H4).
  - done.
  - apply demo_registry_keys.
Defined.
End RpcWitness.

(** * Limits of the Peers API

    While the configuration stands, a configured peer has at most its connections and its
    request budget, however it connects, disconnects and asks; across a reload the first of
    the two can fail. *)

Local Open Scope Z_scope.

Section Limits.
Context {CR : Cidr} {PM : PrefixMap nat}.
Notation AppState := (AppState (CR := CR) (PM := PM)).

Inductive UsageOp := UOpen (key : KeyBytes) | UDrop (key : KeyBytes) | UAllow (key : KeyBytes).

Definition usage_op (now : Z) (op : UsageOp) (a : AppState) : bool * AppState :=
  match op with
  | UOpen key => open_connection key now a
  | UDrop key => (true, permit_drop key a)
  | UAllow key => allow_request key now a
  end.

Definition op_key (op : UsageOp) : KeyBytes := match op with UOpen k | UDrop k | UAllow k => k end.

(** The state with the permits that [key] holds and the requests it was allowed. *)
Record Usage := mkCount { u_app : AppState; u_live : nat; u_allowed : Z }.

Definition count_op (key : KeyBytes) (now : Z) (op : UsageOp) (u : Usage) : Usage :=
  let '(granted, a) := usage_op now op (u_app u) in
  if bool_decide (op_key op = key) && granted then
    match op with
    | UOpen _ => mkCount a (S (u_live u)) (u_allowed u)
    | UDrop _ => mkCount a (u_live u - 1) (u_allowed u)
    | UAllow _ => mkCount a (u_live u) (u_allowed u + 1)
    end
  else mkCount a (u_live u) (u_allowed u).

(** Operations of all peers at times that do not decrease; [key] drops only permits it has. *)
Inductive runs (key : KeyBytes) : Z -> Usage -> Z -> Usage -> Prop :=
| runs_nil now u : runs key now u now u
| runs_op now u t op t' u' :
    now <= t -> (op = UDrop key -> (0 < u_live u)%nat) ->
    runs key t (count_op key t op u) t' u' -> runs key now u t' u'.

Definition TOKENS_MAX : Z := 40000.

(** What the accounting of [key] says since [t0]. *)
Definition accounted (key : KeyBytes) (t0 now : Z) (u : Usage) : Prop :=
  is_Some (configured (u_app u) key) /\
  match app_usage (u_app u) !! key with
  | None => u_live u = 0%nat /\ u_allowed u = 0
  | Some p =>
      pu_connections p = u_live u /\ (u_live u <= MAX_CONNECTIONS_PER_PEER)%nat /\
      0 <= pu_request_tokens_mt p <= TOKENS_MAX /\ t0 <= pu_last_refill p <= now /\
      1000000 * (1000 * u_allowed u + pu_request_tokens_mt p) <= 1000000 * TOKENS_MAX + 20 * (pu_last_refill p - t0)
  end.

Lemma usage_retain_lookup (a : AppState) key :
  is_Some (configured a key) -> usage_retain a !! key = app_usage a !! key.
Proof.
  intros Hc. unfold usage_retain. destruct (app_usage a !! key) as [p|] eqn:E.
  - apply map_lookup_filter_Some_2; [done|]. by right.
  - by apply map_lookup_filter_None_2; left.
Qed.

(** The operations of other peers do not touch the account. *)
Lemma usage_op_other key now op (a : AppState) :
  op_key op <> key -> is_Some (configured a key) -> app_usage (snd (usage_op now op a)) !! key = app_usage a !! key.
Proof.
  intros Hk Hc. destruct op as [k|k|k]; cbn [op_key usage_op] in *.
  - unfold open_connection. destruct (configured a k); [|done]. destruct (_ <=? _)%nat; cbn;
      (rewrite lookup_insert_ne by done); by apply usage_retain_lookup.
  - unfold permit_drop. destruct (app_usage a !! k); [|done]. cbn zeta. destruct (_ && _); cbn; [by rewrite lookup_delete_ne|by rewrite lookup_insert_ne].
  - unfold allow_request. destruct (configured a k); [|done].
    destruct (usage_allow_request _ _) as [[] p']; cbn; (rewrite lookup_insert_ne by done); by apply usage_retain_lookup.
Qed.

Lemma usage_op_registry now op (a : AppState) : app_registry (snd (usage_op now op a)) = app_registry a.
Proof.
  destruct op as [k|k|k]; cbn [usage_op].
  - unfold open_connection. destruct (configured a k); [|done]. by destruct (_ <=? _)%nat.
  - unfold permit_drop. destruct (app_usage a !! k); [|done]. cbn zeta. by destruct (_ && _).
  - apply allow_registry.
Qed.

Lemma usage_op_configured now op (a : AppState) key : configured (snd (usage_op now op a)) key = configured a key.
Proof. unfold configured, config_snapshot. by rewrite usage_op_registry. Qed.

Definition fresh_or (now : Z) (o : option PeerUsage) : PeerUsage := default (usage_new now) o.

(** The bucket of one request. *)
Lemma allow_tokens now p b p' t0 n :
  usage_allow_request now p = (b, p') -> t0 <= pu_last_refill p <= now -> 0 <= pu_request_tokens_mt p <= TOKENS_MAX ->
  1000000 * (1000 * n + pu_request_tokens_mt p) <= 1000000 * TOKENS_MAX + 20 * (pu_last_refill p - t0) ->
  pu_connections p' = pu_connections p /\ 0 <= pu_request_tokens_mt p' <= TOKENS_MAX /\ pu_last_refill p' = now /\
  1000000 * (1000 * (n + if b then 1 else 0) + pu_request_tokens_mt p') <= 1000000 * TOKENS_MAX + 20 * (now - t0).
Proof.
  intros H Ht Htok Hsum. unfold usage_allow_request in H.
  assert (0 <= sat_sub now (pu_last_refill p) / 1000000) as Hms by (unfold sat_sub; dlia).
  assert (1000000 * (sat_sub now (pu_last_refill p) / 1000000) <= now - pu_last_refill p) as Hms' by (unfold sat_sub; dlia).
  set (ms := sat_sub now (pu_last_refill p) / 1000000) in *.
  change (sat_mul u32_max REQUEST_BURST REQUEST_COST_MT) with 40000 in H. unfold REQUESTS_PER_SEC, REQUEST_COST_MT, TOKENS_MAX, sat_add, u32_max in *.
  destruct (Z.ltb_spec (Z.min (Z.min 4294967295 (pu_request_tokens_mt p + Z.min (ms * 20) 4294967295)) 40000) 1000);
    injection H as <- <-; cbn [pu_connections pu_request_tokens_mt pu_last_refill]; lia.
Qed.

Lemma accounted_op key t0 now op u :
  t0 <= now -> accounted key t0 now u -> (op = UDrop key -> (0 < u_live u)%nat) -> accounted key t0 now (count_op key now op u).
Proof.
  intros Ht0 [Hcfg Hacc] Hdrop. unfold count_op. assert (is_Some (configured (snd (usage_op now op (u_app u))) key)) as Hc' by (by rewrite usage_op_configured).
  pose proof (usage_op_other key now op (u_app u)) as Hother.
  destruct (decide (op_key op = key)) as [Hk|Hk].
  2: { rewrite (bool_decide_false (op_key op = key)) by done. destruct (usage_op now op (u_app u)) as [g a]. cbn [andb snd] in *.
       split; cbn [u_app u_live u_allowed]; [exact Hc'|]. by rewrite Hother. }
  rewrite (bool_decide_true (op_key op = key)) by done. cbn [andb]. clear Hother.
  pose proof (usage_retain_lookup (u_app u) key Hcfg) as Hret.
  destruct op as [k|k|k]; cbn [op_key usage_op] in *; subst k.
  - unfold open_connection in *. destruct Hcfg as [r Hr]. rewrite Hr in *. rewrite Hret in *.
    destruct (Nat.leb_spec MAX_CONNECTIONS_PER_PEER (pu_connections (default (usage_new now) (app_usage (u_app u) !! key)))) as [Hm|Hm];
      cbn [snd] in *; (split; cbn [u_app u_live u_allowed]; [exact Hc'|]); cbn [app_usage set_usage];
      rewrite lookup_insert_eq; destruct (app_usage (u_app u) !! key) as [p|]; cbn [default from_option id pu_connections pu_request_tokens_mt pu_last_refill] in *.
    + done.
    + unfold MAX_CONNECTIONS_PER_PEER in Hm. cbn in Hm. lia.
    + destruct Hacc as (H1 & H2 & H3 & H4 & H5). split_and!; lia.
    + destruct Hacc as [-> ->]. unfold usage_new, MAX_CONNECTIONS_PER_PEER, TOKENS_MAX; change (sat_mul u32_max REQUEST_BURST REQUEST_COST_MT) with 40000;
        cbn [pu_connections pu_request_tokens_mt pu_last_refill]; split_and!; lia.
  - specialize (Hdrop eq_refl). unfold permit_drop in *. destruct (app_usage (u_app u) !! key) as [p|] eqn:E; [|destruct Hacc; lia].
    destruct Hcfg as [r Hr]. cbn zeta in *. rewrite Hr in *. rewrite bool_decide_false, andb_false_r in * by done. cbn [snd] in *.
    split; cbn [u_app u_live u_allowed]; [exact Hc'|]. cbn [app_usage set_usage]. rewrite lookup_insert_eq.
    cbn [pu_connections pu_request_tokens_mt pu_last_refill]. destruct Hacc as (H1 & H2 & H3 & H4 & H5). split_and!; lia.
  - unfold allow_request in *. destruct Hcfg as [r Hr]. rewrite Hr in *. rewrite Hret in *.
    set (p := default (usage_new now) (app_usage (u_app u) !! key)) in *.
    assert (pu_connections p = u_live u /\ (u_live u <= MAX_CONNECTIONS_PER_PEER)%nat /\ t0 <= pu_last_refill p <= now /\
      0 <= pu_request_tokens_mt p <= TOKENS_MAX /\
      1000000 * (1000 * u_allowed u + pu_request_tokens_mt p) <= 1000000 * TOKENS_MAX + 20 * (pu_last_refill p - t0)) as (H1 & H2 & H3 & H4 & H5).
    { unfold p. destruct (app_usage (u_app u) !! key) as [p0|]; cbn [default from_option id].
      - destruct Hacc as (H1 & H2 & H3 & H4 & H5). done.
      - destruct Hacc as [-> ->]. unfold usage_new, MAX_CONNECTIONS_PER_PEER, TOKENS_MAX; change (sat_mul u32_max REQUEST_BURST REQUEST_COST_MT) with 40000;
        cbn [pu_connections pu_request_tokens_mt pu_last_refill]; split_and!; lia. }
    destruct (usage_allow_request now p) as [b p'] eqn:Ea.
    destruct (allow_tokens now p b p' t0 (u_allowed u) Ea H3 H4 H5) as (E1 & E2 & E3 & E4).
    destruct b; cbn [snd] in *; (split; cbn [u_app u_live u_allowed]; [exact Hc'|]); cbn [app_usage set_usage]; rewrite lookup_insert_eq;
      split_and!; lia.
Qed.

Lemma accounted_later key t0 now t u : now <= t -> accounted key t0 now u -> accounted key t0 t u.
Proof.
  intros Ht [Hc H]. split; [done|]. destruct (app_usage (u_app u) !! key); [|done]. destruct H as (H1 & H2 & H3 & H4 & H5). split_and!; lia.
Qed.

Lemma accounted_runs key t0 now u t u' : t0 <= now -> accounted key t0 now u -> runs key now u t u' -> now <= t /\ accounted key t0 t u'.
Proof.
  intros Ht0 Ha H. induction H as [now u|now u t op t' u' Ht Hd _ IH]; [done|]. destruct IH as [H1 H2]; [lia| |split; [lia|done]].
  apply accounted_op; [lia|by eapply accounted_later|done].
Qed.

(** A peer stays within its limits. While its record is configured, and whatever the other peers do, a peer holds at most four connections at any time, and of the requests it makes since any start the server allows at most forty and twenty for each second that has passed, however it spreads them over connections: closing connections and opening others gives no new budget. *)
Theorem peer_limits key (a : AppState) t0 t u :
  is_Some (configured a key) -> app_usage a !! key = None -> runs key t0 (mkCount a 0 0) t u ->
  (u_live u <= 4)%nat /\ 1000000 * (1000 * u_allowed u) <= 1000000 * TOKENS_MAX + 20 * (t - t0).
Proof.
  intros Hc Hu Hr. destruct (accounted_runs key t0 t0 (mkCount a 0 0) t u) as [Ht [_ H]]; [lia|split; [done|cbn [u_app]; by rewrite Hu]|done|].
  destruct (app_usage (u_app u) !! key) as [p|].
  - destruct H as (H1 & H2 & H3 & H4 & H5). unfold MAX_CONNECTIONS_PER_PEER in H2. split; [done|lia].
  - destruct H as [-> ->]. unfold TOKENS_MAX. lia.
Qed.
End Limits.

Section LimitsWitness.
#[local] Existing Instance CidrModel.ops.
#[local] Existing Instance MapModel.ops.

(** Peer 1 opens a connection, is allowed a request a second later and leaves. *)
Lemma peer_limits_witness :
  let u := count_op (demo_key 1) 1000000000 (UDrop (demo_key 1)) (count_op (demo_key 1) 1000000000 (UAllow (demo_key 1))
    (count_op (demo_key 1) 0 (UOpen (demo_key 1)) (mkCount (app_new demo_registry) 0 0))) in
  u_allowed u = 1 /\ (u_live u <= 4)%nat /\ 1000000 * (1000 * u_allowed u) <= 1000000 * TOKENS_MAX + 20 * (1000000000 - 0).
Proof.
  split; [vm_compute; reflexivity|]. apply (peer_limits (demo_key 1) (app_new demo_registry) 0 1000000000).
  - assert (match configured (app_new demo_registry) (demo_key 1) with Some _ => true | None => false end = true) as H by (vm_compute; reflexivity).
    by destruct (configured (app_new demo_registry) (demo_key 1)).
  - done.
  - eapply (runs_op _ 0 _ 0 (UOpen (demo_key 1))); [lia|discriminate|].
    eapply (runs_op _ 0 _ 1000000000 (UAllow (demo_key 1))); [lia|discriminate|].
    eapply (runs_op _ 1000000000 _ 1000000000 (UDrop (demo_key 1))); [lia|intros _; vm_compute; lia|]. apply runs_nil.
Defined.

(** Across a reload the count of connections can be too low: a permit that was given while
    the key was not configured is not counted, but counts down when it is dropped. *)
Definition demo_reload (a : AppState) : AppState := set_registry (replace elements demo_registry (app_registry a)) a.
Definition demo_open (a : AppState) : bool * AppState := open_connection (demo_key 1) 0 a.

Example untracked_permit :
  let '(p1, a) := demo_open (app_new registry_empty) in
  let a := demo_reload a in
  let '(p2, a) := demo_open a in
  let '(p3, a) := demo_open a in
  let '(p4, a) := demo_open a in
  let '(p5, a) := demo_open a in
  let '(full, a) := demo_open a in
  let a := permit_drop (demo_key 1) a in
  let '(p6, a) := demo_open a in
  (p1, [p2; p3; p4; p5; p6], full) = (true, [true; true; true; true; true], false).
Proof. vm_compute. reflexivity. Qed.

(** Requests that come faster than one a millisecond are credited nothing for the time
    between them. *)
Example fast_requests_starve :
  let p := mkUsage 1 0 0 in
  let '(b1, p) := usage_allow_request 999999 p in
  let '(b2, p) := usage_allow_request 1999998 p in
  let '(b3, p) := usage_allow_request 2999997 p in
  (b1, b2, b3, pu_request_tokens_mt p) = (false, false, false, 0).
Proof. reflexivity. Qed.
End LimitsWitness.
