(* ===== verification/Mcuboot.v ===== *)
(** Firmware images, [microtun-mcuboot/src/lib.rs]: the streaming verifier of
    MCUboot containers and the check of what was stored. Lengths and offsets
    into buffers are [nat], fields of the image are [Z]; [None] is a panic (a
    slice out of range, a subtraction below zero). SHA-256, the Ed25519 check,
    UUIDv5, the payload sink and the flash are parameters: a hasher is the
    bytes it was given. *)

From Stdlib Require Import ZArith Lia.
From stdpp Require Import base list option.
From S2P Require Import Prelude.
Open Scope Z_scope.

Definition IMAGE_MAGIC : Z := 2532554813.
Definition IMAGE_HEADER_SIZE : nat := 32.
Definition MAX_PROTECTED_TLV_SIZE : nat := 64.
Definition READ_BACK_CHUNK : nat := 256.
Definition TLV_INFO_MAGIC : Z := 26887.
Definition TLV_PROTECTED_INFO_MAGIC : Z := 26888.
Definition TLV_KEYHASH : Z := 1.
Definition TLV_SHA256 : Z := 16.
Definition TLV_ED25519 : Z := 36.
Definition TLV_SIG_PURE : Z := 37.
Definition TLV_UUID_VID : Z := 116.
Definition TLV_UUID_CID : Z := 117.
Definition ED25519_SPKI_PREFIX : list Z := [48; 42; 48; 5; 6; 3; 43; 101; 112; 3; 33; 0].

Inductive Error :=
| InvalidPublicKey | InvalidMagic | UnsupportedHeaderSize | UnsupportedLoadAddress | UnsupportedImageFlags
| EmptyImage | ImageTooLarge | InvalidProtectedTlvSize | InvalidTlvInfoMagic | InvalidTlvAreaSize
| TruncatedTlv | DuplicateTlv | InvalidTlvLength | MissingSha256 | MissingKeyHash | MissingSignature
| MissingVid | MissingCid | VersionTooLow | ProtectedTlvAreaTooLarge | UnsupportedReadGranularity
| WrongVid | WrongCid | UnsupportedPureSignature | HashMismatch | KeyHashMismatch | SignatureInvalid
| IncompleteImage | InvalidPadding | StoredImageInvalid.

Inductive FeedError (E : Type) := FeedImage (e : Error) | FeedSink (e : E).
Arguments FeedImage {E}.
Arguments FeedSink {E}.
Inductive StoredImageError (E : Type) := StoredImage (e : Error) | StoredRead (e : E).
Arguments StoredImage {E}.
Arguments StoredRead {E}.

(** ** The header *)

Record ImageVersion := mkVersion { major : Z; minor : Z; revision : Z; build : Z }.

(** [semver_is_older_than]: the order of tuples; the build does not count. *)
Definition semver_is_older_than (v w : ImageVersion) : bool :=
  (major v <? major w) || ((major v =? major w) &&
    ((minor v <? minor w) || ((minor v =? minor w) && (revision v <? revision w)))).

Record ImageHeader := mkHeader {
  load_address : Z;
  header_size : Z;
  protected_tlv_size : Z;
  image_size : Z;
  flags : Z;
  version : ImageVersion }.

(** [le_u16] and [le_u32] of [bytes[at..at + n]]. *)
Definition le_at (n : nat) (bytes : list Z) (at_ : nat) : Z := le_value (take n (drop at_ bytes)).

(** [ImageHeader::parse], of thirty-two bytes. *)
Definition header_parse (bytes : list Z) : Error + ImageHeader :=
  if negb (le_at 4 bytes 0 =? IMAGE_MAGIC) then inl InvalidMagic else
  let header := mkHeader (le_at 4 bytes 4) (le_at 2 bytes 8) (le_at 2 bytes 10) (le_at 4 bytes 12) (le_at 4 bytes 16)
    (mkVersion (le_at 1 bytes 20) (le_at 1 bytes 21) (le_at 2 bytes 22) (le_at 4 bytes 24)) in
  if negb (header_size header =? Z.of_nat IMAGE_HEADER_SIZE) then inl UnsupportedHeaderSize
  else if negb (load_address header =? 0) then inl UnsupportedLoadAddress
  else if negb (flags header =? 0) then inl UnsupportedImageFlags
  else if image_size header =? 0 then inl EmptyImage
  else if negb (protected_tlv_size header =? 0) && (protected_tlv_size header <? 4) then inl InvalidProtectedTlvSize
  else inr header.

(** ** The areas of tagged values *)

Record FoundTlvs := mkFound {
  key_hash : option (list Z);
  found_sha256 : option (list Z);
  signature : option (list Z);
  found_vid : option (list Z);
  found_cid : option (list Z);
  pure_signature : bool }.
Definition found_default : FoundTlvs := mkFound None None None None None false.

Inductive TlvAreaKind := Protected | Regular.
#[export] Instance TlvAreaKind_eq_dec : EqDecision TlvAreaKind.
Proof. solve_decision. Defined.

Record TlvArea := mkArea {
  kind : TlvAreaKind;
  expected_magic : Z;
  expected_total : option nat;
  total : option nat;
  consumed : nat;
  info : list Z;
  info_fill : nat;
  entry_header : list Z;
  entry_header_fill : nat;
  entry_type : Z;
  entry_len : nat;
  entry_fill : nat;
  entry_value : list Z;
  entry_collect : bool }.

(** [TlvArea::new]. *)
Definition area_new (k : TlvAreaKind) (magic : Z) (expected : option nat) : TlvArea :=
  mkArea k magic expected None 0 (replicate 4 0) 0 (replicate 4 0) 0 0 0 0 (replicate 64 0) false.

Definition with_info (i : list Z) (fill n : nat) (a : TlvArea) : TlvArea :=
  mkArea (kind a) (expected_magic a) (expected_total a) (total a) n i fill (entry_header a) (entry_header_fill a)
    (entry_type a) (entry_len a) (entry_fill a) (entry_value a) (entry_collect a).
Definition with_total (t : nat) (a : TlvArea) : TlvArea :=
  mkArea (kind a) (expected_magic a) (expected_total a) (Some t) (consumed a) (info a) (info_fill a) (entry_header a)
    (entry_header_fill a) (entry_type a) (entry_len a) (entry_fill a) (entry_value a) (entry_collect a).
Definition with_header (h : list Z) (fill n : nat) (a : TlvArea) : TlvArea :=
  mkArea (kind a) (expected_magic a) (expected_total a) (total a) n (info a) (info_fill a) h fill
    (entry_type a) (entry_len a) (entry_fill a) (entry_value a) (entry_collect a).
Definition with_entry (ty : Z) (len : nat) (collect : bool) (a : TlvArea) : TlvArea :=
  mkArea (kind a) (expected_magic a) (expected_total a) (total a) (consumed a) (info a) (info_fill a) (entry_header a)
    (entry_header_fill a) ty len 0 (entry_value a) collect.
Definition with_value (v : list Z) (fill n : nat) (a : TlvArea) : TlvArea :=
  mkArea (kind a) (expected_magic a) (expected_total a) (total a) n (info a) (info_fill a) (entry_header a)
    (entry_header_fill a) (entry_type a) (entry_len a) fill v (entry_collect a).

Definition area_is_complete (a : TlvArea) : bool := bool_decide (total a = Some (consumed a)).

(** [buf[at..at + bytes.len()].copy_from_slice(bytes)]. *)
Definition copy_at (buf : list Z) (at_ : nat) (bytes : list Z) : option (list Z) :=
  if (at_ + length bytes <=? length buf)%nat then Some (blit buf at_ bytes) else None.

Definition usize_sub (a b : nat) : option nat := if (b <=? a)%nat then Some (a - b)%nat else None.

(** [set_once_array::<N>]. *)
Definition set_once_array (N : nat) (slot : option (list Z)) (value : list Z) : Error + option (list Z) :=
  if negb (Nat.eqb (length value) N) then inl InvalidTlvLength
  else match slot with Some _ => inl DuplicateTlv | None => inr (Some value) end.

(** The [match] of [finish_entry]: what an entry adds. *)
Definition record (k : TlvAreaKind) (f : FoundTlvs) (ty : Z) (value : list Z) : Error + FoundTlvs :=
  let '(mkFound kh sha sig vid cid pure) := f in
  let set (r : Error + option (list Z)) (g : option (list Z) -> FoundTlvs) :=
    match r with inl e => inl e | inr o => inr (g o) end in
  match k with
  | Regular =>
    if ty =? TLV_KEYHASH then set (set_once_array 32 kh value) (fun o => mkFound o sha sig vid cid pure)
    else if ty =? TLV_SHA256 then set (set_once_array 32 sha value) (fun o => mkFound kh o sig vid cid pure)
    else if ty =? TLV_ED25519 then set (set_once_array 64 sig value) (fun o => mkFound kh sha o vid cid pure)
    else if ty =? TLV_SIG_PURE then inr (mkFound kh sha sig vid cid true)
    else inr f
  | Protected =>
    if ty =? TLV_UUID_VID then set (set_once_array 16 vid value) (fun o => mkFound kh sha sig o cid pure)
    else if ty =? TLV_UUID_CID then set (set_once_array 16 cid value) (fun o => mkFound kh sha sig vid o pure)
    else inr f
  end.

Definition finish_entry (a : TlvArea) (f : FoundTlvs) : TlvArea * FoundTlvs * (Error + unit) :=
  let value := take (Nat.min (entry_len a) (length (entry_value a))) (entry_value a) in
  match record (kind a) f (entry_type a) value with
  | inl e => (a, f, inl e)
  | inr f =>
    let a := with_header (entry_header a) 0 (consumed a) (with_entry 0 0 false a) in
    (with_value (replicate 64 0) 0 (consumed a) a, f, inr tt)
  end.

Definition is_collected (ty : Z) : bool :=
  (ty =? TLV_KEYHASH) || (ty =? TLV_SHA256) || (ty =? TLV_ED25519) || (ty =? TLV_SIG_PURE)
  || (ty =? TLV_UUID_VID) || (ty =? TLV_UUID_CID).

(** The outcome of a pass: the state, what was found, and an error or how many bytes were taken. *)
Definition AreaResult : Type := TlvArea * FoundTlvs * (Error + nat).

Definition after_entry (r : TlvArea * FoundTlvs * (Error + unit)) (n : nat) : AreaResult :=
  let '(a, f, r) := r in (a, f, match r with inl e => inl e | inr _ => inr n end).

(** The checks once the four bytes in front of an area are there. *)
Definition check_info (a : TlvArea) : Error + nat :=
  let t := Z.to_nat (le_at 2 (info a) 2) in
  if negb (le_at 2 (info a) 0 =? expected_magic a) then inl InvalidTlvInfoMagic
  else if (t <? 4)%nat then inl InvalidTlvAreaSize
  else if match expected_total a with Some e => negb (Nat.eqb t e) | None => false end then inl InvalidTlvAreaSize
  else inr t.

Definition feed_info (a : TlvArea) (f : FoundTlvs) (input : list Z) : option AreaResult :=
  let n := Nat.min (4 - info_fill a) (length input) in
  i ← copy_at (info a) (info_fill a) (take n input);
  let a := with_info i (info_fill a + n) (consumed a + n) a in
  Some (if Nat.eqb (info_fill a) 4 then
          match check_info a with
          | inl e => (a, f, inl e)
          | inr t => (with_total t a, f, inr n)
          end
        else (a, f, inr n)).

Definition feed_header (a : TlvArea) (f : FoundTlvs) (t : nat) (input : list Z) : option AreaResult :=
  remaining_area ← usize_sub t (consumed a);
  if (remaining_area <? 4 - entry_header_fill a)%nat then Some (a, f, inl TruncatedTlv) else
  let n := Nat.min (4 - entry_header_fill a) (length input) in
  h ← copy_at (entry_header a) (entry_header_fill a) (take n input);
  let a := with_header h (entry_header_fill a + n) (consumed a + n) a in
  if Nat.eqb (entry_header_fill a) 4 then
    let ty := le_at 2 h 0 in
    let a := with_entry ty (Z.to_nat (le_at 2 h 2)) (is_collected ty) a in
    left_ ← usize_sub t (consumed a);
    Some (if (left_ <? entry_len a)%nat then (a, f, inl TruncatedTlv)
          else if entry_collect a && (length (entry_value a) <? entry_len a)%nat then (a, f, inl InvalidTlvLength)
          else if Nat.eqb (entry_len a) 0 then after_entry (finish_entry a f) n
          else (a, f, inr n))
  else Some (a, f, inr n).

Definition feed_value (a : TlvArea) (f : FoundTlvs) (input : list Z) : option AreaResult :=
  remaining_entry ← usize_sub (entry_len a) (entry_fill a);
  let n := Nat.min remaining_entry (length input) in
  v ← (if entry_collect a then copy_at (entry_value a) (entry_fill a) (take n input) else Some (entry_value a));
  let a := with_value v (entry_fill a + n) (consumed a + n) a in
  Some (if Nat.eqb (entry_fill a) (entry_len a) then after_entry (finish_entry a f) n else (a, f, inr n)).

(** One pass of the loop of [TlvArea::feed]. *)
Definition area_step (a : TlvArea) (f : FoundTlvs) (input : list Z) : option AreaResult :=
  if (info_fill a <? 4)%nat then feed_info a f input else
  match total a with
  | None => Some (a, f, inl InvalidTlvAreaSize)
  | Some t => if (entry_header_fill a <? 4)%nat then feed_header a f t input else feed_value a f input
  end.

(** [TlvArea::feed]; every pass takes a byte, so the length of the input is fuel enough. *)
Fixpoint area_loop (fuel : nat) (a : TlvArea) (f : FoundTlvs) (input : list Z) (input_offset : nat) : option AreaResult :=
  if bool_decide (input = []) || area_is_complete a then Some (a, f, inr input_offset) else
  match fuel with
  | O => None
  | S fuel =>
    r ← area_step a f input;
    let '(a, f, r) := r in
    match r with
    | inl e => Some (a, f, inl e)
    | inr n => area_loop fuel a f (drop n input) (input_offset + n)
    end
  end.
Definition area_feed (a : TlvArea) (f : FoundTlvs) (input : list Z) : option AreaResult :=
  area_loop (length input) a f input 0.

(** ** Policies *)

Record ImageIdentity := mkIdentity { vid : list Z; cid : list Z }.

Record Policy := mkPolicy {
  expected_vid : option (list Z);
  expected_cid : list Z;
  max_image_size : Z;
  min_version : ImageVersion }.

Section Names.
Context (new_v5 : list Z -> list Z -> list Z) (NAMESPACE_DNS : list Z).

Definition identity_from_names (vid_name cid_name : list Z) : ImageIdentity :=
  let v := new_v5 NAMESPACE_DNS vid_name in
  mkIdentity v (new_v5 v cid_name).

Definition policy_from_names (vid_name cid_name : list Z) (max_size : Z) (min : ImageVersion) : Policy :=
  let identity := identity_from_names vid_name cid_name in
  mkPolicy (Some (vid identity)) (cid identity) max_size min.
End Names.

Definition policy_from_raw_ids (v c : list Z) (max_size : Z) (min : ImageVersion) : Policy :=
  mkPolicy (Some v) c max_size min.
Definition policy_from_raw_cid (c : list Z) (max_size : Z) (min : ImageVersion) : Policy :=
  mkPolicy None c max_size min.

Record VerifiedImage := mkVerified {
  vi_header : ImageHeader;
  vi_digest : list Z;
  vi_vid : option (list Z);
  vi_cid : list Z;
  container_size : Z;
  vi_header_bytes : list Z;
  vi_protected_tlv : list Z;
  vi_protected_tlv_size : Z }.

(** [VerifiedImage::protected_tlv]. *)
Definition protected_tlv (i : VerifiedImage) : option (list Z) :=
  slice (vi_protected_tlv i) 0 (Z.to_nat (vi_protected_tlv_size i)).

(** ** The verifier *)

Record StreamingVerifier := mkVerifier {
  public_key : list Z;
  expected_key_hash : list Z;
  policy : Policy;
  header_bytes : list Z;
  header_fill : nat;
  header : option ImageHeader;
  payload_offset : Z;
  protected : option TlvArea;
  regular : TlvArea;
  found : FoundTlvs;
  hasher : list Z;
  protected_bytes : list Z;
  protected_fill : nat;
  container_position : Z;
  complete : bool }.

Definition advance (n : nat) (v : StreamingVerifier) : StreamingVerifier :=
  mkVerifier (public_key v) (expected_key_hash v) (policy v) (header_bytes v) (header_fill v) (header v)
    (payload_offset v) (protected v) (regular v) (found v) (hasher v) (protected_bytes v) (protected_fill v)
    (sat_add u32_max (container_position v) (Z.of_nat n)) (complete v).
Definition with_header_bytes (b : list Z) (fill : nat) (absorbed : list Z) (v : StreamingVerifier) : StreamingVerifier :=
  mkVerifier (public_key v) (expected_key_hash v) (policy v) b fill (header v)
    (payload_offset v) (protected v) (regular v) (found v) (hasher v ++ absorbed) (protected_bytes v) (protected_fill v)
    (container_position v) (complete v).
Definition with_parsed (h : ImageHeader) (p : option TlvArea) (v : StreamingVerifier) : StreamingVerifier :=
  mkVerifier (public_key v) (expected_key_hash v) (policy v) (header_bytes v) (header_fill v) (Some h)
    (payload_offset v) p (regular v) (found v) (hasher v) (protected_bytes v) (protected_fill v)
    (container_position v) (complete v).
Definition with_payload (offset : Z) (absorbed : list Z) (v : StreamingVerifier) : StreamingVerifier :=
  mkVerifier (public_key v) (expected_key_hash v) (policy v) (header_bytes v) (header_fill v) (header v)
    offset (protected v) (regular v) (found v) (hasher v ++ absorbed) (protected_bytes v) (protected_fill v)
    (container_position v) (complete v).
Definition with_protected_bytes (b : list Z) (fill : nat) (absorbed : list Z) (v : StreamingVerifier) : StreamingVerifier :=
  mkVerifier (public_key v) (expected_key_hash v) (policy v) (header_bytes v) (header_fill v) (header v)
    (payload_offset v) (protected v) (regular v) (found v) (hasher v ++ absorbed) b fill
    (container_position v) (complete v).
Definition with_protected (a : TlvArea) (f : FoundTlvs) (v : StreamingVerifier) : StreamingVerifier :=
  mkVerifier (public_key v) (expected_key_hash v) (policy v) (header_bytes v) (header_fill v) (header v)
    (payload_offset v) (Some a) (regular v) f (hasher v) (protected_bytes v) (protected_fill v)
    (container_position v) (complete v).
Definition with_regular (a : TlvArea) (f : FoundTlvs) (v : StreamingVerifier) : StreamingVerifier :=
  mkVerifier (public_key v) (expected_key_hash v) (policy v) (header_bytes v) (header_fill v) (header v)
    (payload_offset v) (protected v) a f (hasher v) (protected_bytes v) (protected_fill v)
    (container_position v) (complete v).
Definition with_complete (v : StreamingVerifier) : StreamingVerifier :=
  mkVerifier (public_key v) (expected_key_hash v) (policy v) (header_bytes v) (header_fill v) (header v)
    (payload_offset v) (protected v) (regular v) (found v) (hasher v) (protected_bytes v) (protected_fill v)
    (container_position v) true.

Section Verifier.
(** [VerifyingKey::from_bytes], [verify_strict], [Sha256]. *)
Context (valid_key : list Z -> bool) (verify_strict : list Z -> list Z -> list Z -> bool) (sha256 : list Z -> list Z).

Definition verifier_new (key : list Z) (p : Policy) : Error + StreamingVerifier :=
  if negb (valid_key key) then inl InvalidPublicKey else
  inr (mkVerifier key (sha256 (ED25519_SPKI_PREFIX ++ key)) p (replicate IMAGE_HEADER_SIZE 0) 0 None 0 None
         (area_new Regular TLV_INFO_MAGIC None) found_default [] (replicate MAX_PROTECTED_TLV_SIZE 0) 0 0 false).

Definition verifier_container_size (v : StreamingVerifier) : option Z :=
  if complete v then Some (container_position v) else None.

(** [PayloadSink::write]. *)
Context {S E : Type} (write : S -> Z -> list Z -> S * option E).

(** The state, the sink, and an error or the rest of the input. *)
Definition FeedResult : Type := StreamingVerifier * S * (FeedError E + list Z).

(** The header is complete. *)
Definition header_done (v : StreamingVerifier) : Error + StreamingVerifier :=
  match header_parse (header_bytes v) with
  | inl e => inl e
  | inr h =>
    if image_size h >? max_image_size (policy v) then inl ImageTooLarge
    else if (MAX_PROTECTED_TLV_SIZE <? Z.to_nat (protected_tlv_size h))%nat then inl ProtectedTlvAreaTooLarge
    else inr (with_parsed h
      (if protected_tlv_size h =? 0 then None
       else Some (area_new Protected TLV_PROTECTED_INFO_MAGIC (Some (Z.to_nat (protected_tlv_size h))))) v)
  end.

Definition verifier_header (v : StreamingVerifier) (s : S) (input : list Z) : option FeedResult :=
  let n := Nat.min (IMAGE_HEADER_SIZE - header_fill v) (length input) in
  b ← copy_at (header_bytes v) (header_fill v) (take n input);
  let v := advance n (with_header_bytes b (header_fill v + n) (take n input) v) in
  Some (if Nat.eqb (header_fill v) IMAGE_HEADER_SIZE then
          match header_done v with
          | inl e => (v, s, inl (FeedImage e))
          | inr v => (v, s, inr (drop n input))
          end
        else (v, s, inr (drop n input))).

Definition verifier_payload (v : StreamingVerifier) (h : ImageHeader) (s : S) (input : list Z) : FeedResult :=
  let remaining := image_size h - payload_offset v in
  let n := Z.to_nat (Z.min remaining (Z.of_nat (length input))) in
  let bytes := take n input in
  match write s (payload_offset v) bytes with
  | (s, Some e) => (v, s, inl (FeedSink e))
  | (s, None) => (advance n (with_payload (payload_offset v + Z.of_nat n) bytes v), s, inr (drop n input))
  end.

Definition verifier_protected (v : StreamingVerifier) (h : ImageHeader) (a : TlvArea) (s : S) (input : list Z)
  : option FeedResult :=
  remaining ← usize_sub (Z.to_nat (protected_tlv_size h)) (consumed a);
  let n := Nat.min remaining (length input) in
  b ← copy_at (protected_bytes v) (protected_fill v) (take n input);
  let v := with_protected_bytes b (protected_fill v + n) (take n input) v in
  r ← area_feed a (found v) (take n input);
  let '(a, f, r) := r in
  let v := with_protected a f v in
  match r with
  | inl e => Some (v, s, inl (FeedImage e))
  | inr taken =>
    (* [debug_assert_eq!(consumed, take)] *)
    if Nat.eqb taken n then Some (advance n v, s, inr (drop n input)) else None
  end.

Definition verifier_regular (v : StreamingVerifier) (s : S) (input : list Z) : option FeedResult :=
  r ← area_feed (regular v) (found v) input;
  let '(a, f, r) := r in
  let v := with_regular a f v in
  Some (match r with
        | inl e => (v, s, inl (FeedImage e))
        | inr O => (v, s, inl (FeedImage InvalidTlvAreaSize))
        | inr taken =>
          let v := advance taken v in
          (if area_is_complete a then with_complete v else v, s, inr (drop taken input))
        end).

(** One pass of the loop of [feed]; after the end only padding may come, in one pass. *)
Definition verifier_step (v : StreamingVerifier) (s : S) (input : list Z) : option FeedResult :=
  if complete v then
    Some (v, s, if existsb (fun byte => negb (byte =? 26)) input then inl (FeedImage InvalidPadding) else inr [])
  else if (header_fill v <? IMAGE_HEADER_SIZE)%nat then verifier_header v s input
  else match header v with
  | None => Some (v, s, inl (FeedImage IncompleteImage))
  | Some h =>
    if payload_offset v <? image_size h then Some (verifier_payload v h s input)
    else match protected v with
    | Some a => if area_is_complete a then verifier_regular v s input else verifier_protected v h a s input
    | None => verifier_regular v s input
    end
  end.

Fixpoint verifier_loop (fuel : nat) (v : StreamingVerifier) (s : S) (input : list Z)
  : option (StreamingVerifier * S * option (FeedError E)) :=
  match input, fuel with
  | [], _ => Some (v, s, None)
  | _, O => None
  | _, Datatypes.S fuel =>
    r ← verifier_step v s input;
    let '(v, s, r) := r in
    match r with
    | inl e => Some (v, s, Some e)
    | inr input => verifier_loop fuel v s input
    end
  end.
Definition feed (v : StreamingVerifier) (s : S) (input : list Z) := verifier_loop (length input) v s input.

(** The pieces of an image, as they arrive, up to the first error. *)
Fixpoint feed_all (chunks : list (list Z)) (v : StreamingVerifier) (s : S)
  : option (StreamingVerifier * S * option (FeedError E)) :=
  match chunks with
  | [] => Some (v, s, None)
  | chunk :: chunks =>
    r ← feed v s chunk;
    let '(v, s, e) := r in
    match e with
    | Some _ => Some (v, s, e)
    | None => feed_all chunks v s
    end
  end.

(** [ok_or]. *)
Definition need {A B} (o : option A) (e : Error) (k : A -> Error + B) : Error + B :=
  match o with None => inl e | Some a => k a end.

Definition finish (v : StreamingVerifier) : Error + VerifiedImage :=
  if negb (complete v) then inl IncompleteImage
  else if pure_signature (found v) then inl UnsupportedPureSignature else
  need (header v) IncompleteImage (fun h =>
  need (found_sha256 (found v)) MissingSha256 (fun expected_digest =>
  need (key_hash (found v)) MissingKeyHash (fun kh =>
  need (signature (found v)) MissingSignature (fun signature_bytes =>
  if negb (bool_decide (kh = expected_key_hash v)) then inl KeyHashMismatch else
  let digest := sha256 (hasher v) in
  if negb (bool_decide (digest = expected_digest)) then inl HashMismatch
  else if negb (verify_strict (public_key v) digest signature_bytes) then inl SignatureInvalid else
  let checked := match expected_vid (policy v) with
    | None => None
    | Some expected => match found_vid (found v) with
                       | None => Some MissingVid
                       | Some vid => if negb (bool_decide (vid = expected)) then Some WrongVid else None
                       end
    end in
  match checked with
  | Some e => inl e
  | None =>
    need (found_cid (found v)) MissingCid (fun cid =>
    if negb (bool_decide (cid = expected_cid (policy v))) then inl WrongCid
    else if semver_is_older_than (version h) (min_version (policy v)) then inl VersionTooLow
    else inr (mkVerified h digest (found_vid (found v)) cid (container_position v) (header_bytes v)
                (protected_bytes v) (protected_tlv_size h)))
  end)))).

(** ** Reading back *)

(** [ReadNorFlash]: its granularity, and reading into a buffer of a length. *)
Context {F R : Type} (READ_SIZE : nat) (read : F -> Z -> nat -> F * (R + list Z)).

(** The loop of [verify_stored_image]; [None] is a slice past the buffer. *)
Fixpoint read_back (fuel : nat) (read_size chunk : nat) (size offset : Z) (source : F) (absorbed : list Z)
  : option (F * (R + list Z)) :=
  if offset <? size then
    match fuel with
    | O => None
    | Datatypes.S fuel =>
      let n := Z.to_nat (Z.min (size - offset) (Z.of_nat chunk)) in
      let read_len := ((n + read_size - 1) / read_size * read_size)%nat in
      if (READ_BACK_CHUNK <? read_len)%nat then None else
      match read source offset read_len with
      | (source, inl e) => Some (source, inl e)
      | (source, inr buffer) =>
        read_back fuel read_size chunk size (offset + Z.of_nat n) source (absorbed ++ take n buffer)
      end
    end
  else Some (source, inr absorbed).

Definition verify_stored_image (source : F) (image : VerifiedImage) : option (F * option (StoredImageError R)) :=
  let read_size := Nat.max READ_SIZE 1 in
  if (READ_BACK_CHUNK <? read_size)%nat then Some (source, Some (StoredImage UnsupportedReadGranularity)) else
  let chunk := (READ_BACK_CHUNK / read_size * read_size)%nat in
  let size := image_size (vi_header image) in
  r ← read_back (Z.to_nat size) read_size chunk size 0 source (vi_header_bytes image);
  match r with
  | (source, inl e) => Some (source, Some (StoredRead e))
  | (source, inr absorbed) =>
    p ← protected_tlv image;
    Some (source, if bool_decide (sha256 (absorbed ++ p) = vi_digest image) then None
                  else Some (StoredImage StoredImageInvalid))
  end.
End Verifier.

(** The areas of tagged values of an image, declared ([area_bytes]), and the
    streaming reader of one area against that grammar: whatever pieces the
    area arrives in, the reader takes it apart as the grammar does
    ([area_feed_spec]). *)

(** ** The grammar *)

Record Tlv := mkTlv { t_type : Z; t_value : list Z }.

Definition entry_bytes (e : Tlv) : list Z :=
  le_bytes 2 (t_type e) ++ le_bytes 2 (Z.of_nat (length (t_value e))) ++ t_value e.
Definition entries_bytes (es : list Tlv) : list Z := concat (entry_bytes <$> es).

(** The size of an area counts the four bytes in front. *)
Definition area_size (es : list Tlv) : nat := 4 + length (entries_bytes es).
Definition area_bytes (magic : Z) (es : list Tlv) : list Z :=
  le_bytes 2 magic ++ le_bytes 2 (Z.of_nat (area_size es)) ++ entries_bytes es.

(** Types and lengths are sixteen bits wide; a value that is looked at has at most 64 bytes. *)
Definition entry_ok (e : Tlv) : Prop :=
  is_u16 (t_type e) /\ Z.of_nat (length (t_value e)) <= u16_max
  /\ (is_collected (t_type e) = true -> (length (t_value e) <= 64)%nat).
Definition area_ok (expected : option nat) (es : list Tlv) : Prop :=
  Forall entry_ok es /\ Z.of_nat (area_size es) <= u16_max
  /\ match expected with Some n => area_size es = n | None => True end.

(** What the entries of an area add, in order. *)
Fixpoint record_all (k : TlvAreaKind) (f : FoundTlvs) (es : list Tlv) : option FoundTlvs :=
  match es with
  | [] => Some f
  | e :: es => match record k f (t_type e) (t_value e) with
               | inl _ => None
               | inr f => record_all k f es
               end
  end.

Lemma record_all_app k f es es' : record_all k f (es ++ es') = record_all k f es ≫= (fun f => record_all k f es').
Proof.
  revert f. induction es as [|e es IH]; intros f; [reflexivity|]. cbn.
  destruct (record k f (t_type e) (t_value e)); [reflexivity|apply IH].
Qed.

Lemma record_uncollected k f ty v : is_collected ty = false -> record k f ty v = inr f.
Proof.
  unfold is_collected. rewrite !orb_false_iff. intros [[[[[H1 H2] H3] H4] H5] H6].
  unfold record. rewrite H1, H2, H3, H4, H5, H6. now destruct f, k.
Qed.

(** ** Its codes *)

Lemma le_bytes_inj n x y : 0 <= x < 256 ^ Z.of_nat n -> 0 <= y < 256 ^ Z.of_nat n ->
  le_bytes n x = le_bytes n y -> x = y.
Proof.
  intros Hx Hy H. apply (f_equal le_value) in H. rewrite !le_value_bytes, !Z.mod_small in H by assumption. exact H.
Qed.

Lemma le_bytes_2_inj x y : is_u16 x -> is_u16 y -> le_bytes 2 x = le_bytes 2 y -> x = y.
Proof. unfold is_u16, u16_max. intros. apply (le_bytes_inj 2); [change (256 ^ Z.of_nat 2) with 65536; lia..|assumption]. Qed.

Lemma le_value_2 x : is_u16 x -> le_value (le_bytes 2 x) = x.
Proof. unfold is_u16, u16_max. intros. rewrite le_value_bytes. change (256 ^ Z.of_nat 2) with 65536. apply Z.mod_small. lia. Qed.

Lemma le_at_2_value bytes i : Forall is_u8 bytes -> (i + 2 <= length bytes)%nat -> is_u16 (le_at 2 bytes i).
Proof.
  intros Hb Hi. unfold le_at. pose proof (le_value_bound (take 2 (drop i bytes))) as H.
  rewrite length_take, length_drop in H. replace (Nat.min 2 _) with 2%nat in H by lia.
  change (256 ^ Z.of_nat 2) with 65536 in H. unfold is_u16, u16_max.
  enough (0 <= le_value (take 2 (drop i bytes)) < 65536) by lia. apply H. now apply Forall_take, Forall_drop.
Qed.

(** Four bytes are two numbers. *)
Lemma two_words h : length h = 4%nat -> Forall is_u8 h -> h = le_bytes 2 (le_at 2 h 0) ++ le_bytes 2 (le_at 2 h 2).
Proof.
  intros Hl Hu. destruct h as [|a [|b [|c [|d [|]]]]]; try discriminate. unfold le_at. cbn [take drop].
  pose proof (le_bytes_value [a; b]) as H1. pose proof (le_bytes_value [c; d]) as H2. cbn [length] in H1, H2.
  rewrite H1, H2; [reflexivity|now apply (Forall_drop _ 2) in Hu|now apply (Forall_take _ 2) in Hu].
Qed.

Lemma le_at_words x y rest : is_u16 x -> is_u16 y ->
  le_at 2 (le_bytes 2 x ++ le_bytes 2 y ++ rest) 0 = x /\ le_at 2 (le_bytes 2 x ++ le_bytes 2 y ++ rest) 2 = y.
Proof. intros Hx Hy. split; [rewrite <- (le_value_2 x Hx) at 2|rewrite <- (le_value_2 y Hy) at 2]; reflexivity. Qed.

Lemma entry_bytes_inj e e' r r' : entry_ok e -> entry_ok e' -> entry_bytes e ++ r = entry_bytes e' ++ r' -> e = e' /\ r = r'.
Proof.
  intros (Ht & Hl & _) (Ht' & Hl' & _). unfold entry_bytes. rewrite <- !app_assoc. intros H.
  apply app_inj_1 in H as [H1 H]; [|reflexivity]. apply app_inj_1 in H as [H2 H]; [|reflexivity].
  apply le_bytes_2_inj in H1, H2; try assumption; try (split; [lia|assumption]).
  apply app_inj_1 in H as [H3 H]; [|lia]. destruct e, e'. cbn in *. now subst.
Qed.

Lemma length_entry_bytes e : length (entry_bytes e) = (4 + length (t_value e))%nat.
Proof. unfold entry_bytes. rewrite !length_app, !length_le_bytes. lia. Qed.

Lemma entries_bytes_app es es' : entries_bytes (es ++ es') = entries_bytes es ++ entries_bytes es'.
Proof. unfold entries_bytes. now rewrite fmap_app, concat_app. Qed.

Lemma entries_cons e es : entries_bytes (e :: es) = entry_bytes e ++ entries_bytes es.
Proof. reflexivity. Qed.

(** Entries are read one way only. *)
Lemma entries_prefix es : forall all tail rest, Forall entry_ok es -> Forall entry_ok all ->
  entries_bytes all ++ tail = entries_bytes es ++ rest -> (length (entries_bytes es) <= length (entries_bytes all))%nat ->
  exists more, all = es ++ more /\ entries_bytes more ++ tail = rest.
Proof.
  induction es as [|e es IH]; intros all tail rest Hes Hall H Hl; [exists all; auto|].
  inversion Hes as [|? ? He Hes']; subst. destruct all as [|e' all].
  { rewrite entries_cons, length_app, length_entry_bytes in Hl. cbn in Hl. lia. }
  inversion Hall as [|? ? He' Hall']; subst. rewrite !entries_cons, <- !app_assoc in H.
  apply entry_bytes_inj in H as [-> H]; [|assumption..]. rewrite !entries_cons, !length_app in Hl.
  destruct (IH all tail rest Hes' Hall' H) as (more & -> & Hm); [lia|]. now exists more.
Qed.

Lemma usize_sub_ok a b : (b <= a)%nat -> usize_sub a b = Some (a - b)%nat.
Proof. intros H. unfold usize_sub. now rewrite (proj2 (Nat.leb_le _ _)). Qed.

(** Projections of a concrete state. *)
Ltac area_cbn := cbn [kind expected_magic expected_total total consumed info info_fill entry_header entry_header_fill
  entry_type entry_len entry_fill entry_value entry_collect].

(** ** The reader against the grammar *)

(** The bytes [q] of an area, and the entries that are complete in them. *)
Definition opening (magic : Z) (T : nat) (es : list Tlv) : list Z :=
  le_bytes 2 magic ++ le_bytes 2 (Z.of_nat T) ++ entries_bytes es.

Definition size_ok (expected : option nat) (T : nat) : Prop :=
  (4 <= T)%nat /\ Z.of_nat T <= u16_max /\ match expected with Some n => T = n | None => True end.

Section Reader.
Context (k : TlvAreaKind) (magic : Z) (expected : option nat) (Hmagic : is_u16 magic).

(** The state in front of, inside the header of, and inside an entry. *)
Inductive area_at : TlvArea -> list Z -> list Tlv -> Prop :=
| at_info q i h ty n m v col : (length q < 4)%nat -> length i = 4%nat -> take (length q) i = q ->
    length h = 4%nat -> length v = 64%nat ->
    area_at (mkArea k magic expected None (length q) i (length q) h 0 ty n m v col) q []
| at_header q es T hd i h ty n m v col : (length hd < 4)%nat -> q = opening magic T es ++ hd ->
    Forall entry_ok es -> size_ok expected T -> (length q <= T)%nat ->
    (hd = [] \/ (length q + (4 - length hd) <= T)%nat) ->
    length h = 4%nat -> take (length hd) h = hd -> length v = 64%nat ->
    area_at (mkArea k magic expected (Some T) (length q) i 4 h (length hd) ty n m v col) q es
| at_value q es T ty n x i h v : (length x < n)%nat ->
    q = opening magic T es ++ le_bytes 2 ty ++ le_bytes 2 (Z.of_nat n) ++ x ->
    Forall entry_ok es -> size_ok expected T -> (length q + (n - length x) <= T)%nat ->
    is_u16 ty -> Z.of_nat n <= u16_max -> length h = 4%nat -> length v = 64%nat ->
    (is_collected ty = true -> (n <= 64)%nat /\ take (length x) v = x) ->
    area_at (mkArea k magic expected (Some T) (length q) i 4 h 4 ty n (length x) v (is_collected ty)) q es.

Lemma area_at_new : area_at (area_new k magic expected) [] [].
Proof. apply (at_info []); cbn; try lia; reflexivity. Qed.

Lemma area_at_consumed a q es : area_at a q es -> consumed a = length q.
Proof. destruct 1; reflexivity. Qed.

Lemma area_at_nothing a es : area_at a [] es -> es = [].
Proof.
  intros H. inversion H as [|q es' T hd i h ty n m v col Hhd Hq|q es' T ty n x i h v Hx Hq]; [reflexivity|..];
    apply (f_equal length) in Hq; unfold opening in Hq; rewrite !length_app, !length_le_bytes in Hq; discriminate.
Qed.

Lemma length_opening T es : length (opening magic T es) = area_size es.
Proof. unfold opening, area_size. rewrite !length_app, !length_le_bytes. lia. Qed.

Lemma area_at_complete a q es : area_at a q es -> area_is_complete a = true ->
  q = area_bytes magic es /\ area_ok expected es.
Proof.
  intros H Hc. unfold area_is_complete in Hc. apply bool_decide_eq_true in Hc. destruct H as
    [q i h ty n m v col Hq Hi Ht Hh Hv|q es T hd i h ty n m v col Hhd Hq Hes HT Hle Hroom Hh Ht Hv
    |q es T ty n x i h v Hx Hq Hes HT Hle Hty Hn Hh Hv Hcol]; cbn [total consumed] in Hc; try discriminate; injection Hc as Hc.
  - assert (hd = []) as -> by (destruct Hroom; [assumption|lia]). rewrite app_nil_r in Hq.
    pose proof (length_opening T es) as Hlen. rewrite <- Hq, <- Hc in Hlen. subst T.
    rewrite Hq. unfold area_bytes, area_ok. rewrite <- Hlen. unfold size_ok in HT. split; [reflexivity|tauto].
  - lia.
Qed.

Lemma area_at_full a q es es' r : area_at a q es -> q = area_bytes magic es' ++ r -> area_ok expected es' ->
  area_is_complete a = true.
Proof.
  intros H Hq (_ & Hsize & _). unfold area_is_complete. apply bool_decide_eq_true.
  assert (Hlen : length q = (area_size es' + length r)%nat).
  { rewrite Hq, length_app. f_equal. }
  assert (HT : forall T rest, q = opening magic T es ++ rest -> size_ok expected T -> T = area_size es').
  { intros T rest Hq2 (H4 & HT & _). rewrite Hq in Hq2. unfold area_bytes, opening in Hq2. rewrite <- !app_assoc in Hq2.
    apply app_inj_1 in Hq2 as [_ Hq2]; [|reflexivity]. apply app_inj_1 in Hq2 as [HT' _]; [|reflexivity].
    apply le_bytes_2_inj in HT'; [lia|unfold is_u16; lia..]. }
  destruct H as [q i h ty n m v col Hl|q es T hd i h ty n m v col Hhd Hq2 Hes Hok Hle
    |q es T ty n x i h v Hx Hq2 Hes Hok Hle]; cbn [total consumed].
  - unfold area_size in Hlen. lia.
  - specialize (HT T hd Hq2 Hok). f_equal. lia.
  - specialize (HT T _ Hq2 Hok). f_equal. lia.
Qed.

(** No area with acceptable entries continues so, whatever follows it. *)
Definition fails (q input : list Z) (f0 : FoundTlvs) : Prop := forall all tail more,
  area_ok expected all -> area_bytes magic all ++ tail = q ++ input ++ more -> record_all k f0 all = None.

(** What a pass must do in a state: keep it, having taken some of the input,
    or fail where no area with acceptable entries continues so. *)
Definition pass_ok (q input : list Z) (f0 : FoundTlvs) (r : AreaResult) : Prop :=
  let '(a, f, r) := r in
  match r with
  | inl _ => fails q input f0
  | inr n => (0 < n <= length input)%nat /\ exists es, area_at a (q ++ take n input) es /\ record_all k f0 es = Some f
  end.

Lemma take_extend (x buf : list Z) bytes : take (length x) buf = x -> (length x + length bytes <= length buf)%nat ->
  exists buf', copy_at buf (length x) bytes = Some buf' /\ length buf' = length buf
    /\ take (length (x ++ bytes)) buf' = x ++ bytes.
Proof.
  intros Hx Hl. unfold copy_at. rewrite (proj2 (Nat.leb_le _ _)) by exact Hl. eexists. split; [reflexivity|].
  split; [apply length_blit; exact Hl|]. unfold blit. rewrite Hx, app_assoc. apply take_app_length.
Qed.

Lemma length_take_min (input : list Z) n m : n = Nat.min m (length input) -> length (take n input) = n.
Proof. intros ->. rewrite length_take. lia. Qed.

Lemma area_front all tail q r : area_ok expected all -> area_bytes magic all ++ tail = q ++ r -> length q = 4%nat ->
  le_at 2 q 0 = magic /\ Z.to_nat (le_at 2 q 2) = area_size all.
Proof.
  intros (_ & Hs & _) H Hq. unfold area_bytes in H. rewrite app_assoc, <- app_assoc in H.
  apply app_inj_1 in H as [<- _]; [|rewrite Hq; reflexivity].
  destruct (le_at_words magic (Z.of_nat (area_size all)) []) as [H1 H2]; [exact Hmagic|unfold is_u16; lia|].
  rewrite app_nil_r in *. rewrite H1, H2. split; [reflexivity|lia].
Qed.

Lemma feed_info_ok a q input f0 : area_at a q [] -> (info_fill a < 4)%nat -> input <> [] ->
  Forall is_u8 q -> Forall is_u8 input -> exists r, feed_info a f0 input = Some r /\ pass_ok q input f0 r.
Proof.
  intros Ha Hfill Hne Hq8 Hi8. inversion Ha as [q' i h ty m w v col Hq Hi Ht Hh Hv Ea Eq| |]; subst; cbn in Hfill; try lia.
  unfold feed_info. cbn [info_fill info consumed]. remember (Nat.min (4 - length q) (length input)) as n eqn:En.
  assert (Hn : length (take n input) = n) by now apply (length_take_min _ _ (4 - length q)).
  assert (Hpos : (0 < n <= length input)%nat) by (destruct input; [done|]; cbn in *; lia).
  destruct (take_extend q i (take n input)) as (i' & -> & Hi' & Ht'); [exact Ht|lia|]. cbn [mbind option_bind].
  eexists. split; [reflexivity|]. cbn [info_fill with_info].
  assert (Hlen : length (q ++ take n input) = (length q + n)%nat) by (rewrite length_app; lia).
  destruct (Nat.eqb_spec (length q + n) 4) as [E4|N4].
  - assert (i' = q ++ take n input) as -> by (rewrite <- Ht'; symmetry; apply take_ge; lia).
    set (q1 := q ++ take n input) in *.
    assert (Hq1 : length q1 = 4%nat) by lia.
    assert (Hq18 : Forall is_u8 q1) by (apply Forall_app; split; [exact Hq8|now apply Forall_take]).
    assert (Hfront : forall all tail more, area_ok expected all -> area_bytes magic all ++ tail = q ++ input ++ more ->
      le_at 2 q1 0 = magic /\ Z.to_nat (le_at 2 q1 2) = area_size all).
    { intros all tail more Hok H. apply (area_front all tail q1 (drop n input ++ more) Hok); [|exact Hq1].
      unfold q1. rewrite H, <- app_assoc. f_equal. now rewrite app_assoc, take_drop. }
    unfold check_info. cbn [info with_info expected_magic expected_total].
    destruct (Z.eqb_spec (le_at 2 q1 0) magic) as [Em|Nm]; cbn [negb].
    2:{ intros all tail more Hok H. now destruct (Hfront all tail more Hok H). }
    destruct (Nat.ltb_spec (Z.to_nat (le_at 2 q1 2)) 4) as [Hlt|Hge].
    { intros all tail more Hok H. destruct (Hfront all tail more Hok H) as [_ Hs]. unfold area_size in Hs. lia. }
    destruct (match expected with Some e => negb (Nat.eqb (Z.to_nat (le_at 2 q1 2)) e) | None => false end) eqn:Ee.
    { intros all tail more Hok H. destruct (Hfront all tail more Hok H) as [_ Hs]. destruct Hok as (_ & _ & He).
      destruct expected as [e|]; [|discriminate]. rewrite Hs, He, Nat.eqb_refl in Ee. discriminate. }
    split; [exact Hpos|]. exists []. split; [|reflexivity]. rewrite E4.
    unfold with_total, with_info. cbn. change (q ++ take n input) with q1.
    refine (eq_rect _ (fun c => area_at (mkArea k magic expected _ c q1 4 _ _ _ _ _ _ _) q1 []) _ 4%nat Hq1).
    pose proof (le_at_2_value q1 2 Hq18 ltac:(lia)) as Hr. unfold is_u16 in Hr.
    apply (at_header q1 [] _ []); cbn [length]; try assumption; try lia; try (constructor; auto; fail).
    + unfold opening. change (entries_bytes []) with (@nil Z). rewrite !app_nil_r, Z2Nat.id, <- Em by lia.
      exact (two_words q1 Hq1 Hq18).
    + split; [lia|]. split; [lia|]. destruct expected as [e|]; [|exact I].
      apply negb_false_iff, Nat.eqb_eq in Ee. exact Ee.
  - split; [exact Hpos|]. exists []. split; [|reflexivity]. unfold with_info. cbn. rewrite <- Hlen.
    apply at_info; try assumption; lia.
Qed.

(** What is known of an area that begins with complete entries. *)
Lemma area_continues all tail T es rest : area_ok expected all ->
  area_bytes magic all ++ tail = opening magic T es ++ rest ->
  Forall entry_ok es -> size_ok expected T -> (area_size es <= T)%nat ->
  T = area_size all /\ exists more, all = es ++ more /\ entries_bytes more ++ tail = rest
    /\ area_size all = (area_size es + length (entries_bytes more))%nat.
Proof.
  intros (Hall & Hs & _) H Hes (H4 & HT & _) Hle. unfold area_bytes, opening in H. rewrite <- !app_assoc in H.
  apply app_inj_1 in H as [_ H]; [|reflexivity]. apply app_inj_1 in H as [HT' H]; [|reflexivity].
  apply le_bytes_2_inj in HT'; [|unfold is_u16; lia..].
  split; [lia|]. destruct (entries_prefix es all tail rest Hes Hall H) as (more & -> & Hm); [unfold area_size in *; lia|].
  exists more. split; [reflexivity|]. split; [exact Hm|]. unfold area_size. rewrite entries_bytes_app, length_app. lia.
Qed.

Lemma area_next all tail T es h rest : area_ok expected all ->
  area_bytes magic all ++ tail = opening magic T es ++ h ++ rest ->
  Forall entry_ok es -> size_ok expected T -> length h = 4%nat -> (area_size es + 4 <= T)%nat ->
  exists e more, all = es ++ e :: more /\ le_at 2 h 0 = t_type e
    /\ Z.to_nat (le_at 2 h 2) = length (t_value e) /\ entry_ok e /\ (area_size es + 4 + length (t_value e) <= T)%nat.
Proof.
  intros Hall H Hes HT Hh Hroom.
  destruct (area_continues all tail T es (h ++ rest) Hall H Hes HT) as (-> & more & -> & Hm & Hs); [lia|].
  destruct Hall as (Hok & _ & _). apply Forall_app in Hok as [_ Hok].
  destruct more as [|e more].
  { change (length (entries_bytes [])) with O in Hs. lia. }
  inversion Hok as [|? ? He Hmore]; subst. rewrite entries_cons in Hm. unfold entry_bytes in Hm. rewrite <- !app_assoc in Hm.
  rewrite app_assoc in Hm. apply app_inj_1 in Hm as [Hh' _]; [|now rewrite Hh].
  exists e, more. pose proof He as (Ht & Hl & _).
  destruct (le_at_words (t_type e) (Z.of_nat (length (t_value e))) []) as [H0 H2];
    [exact Ht|split; [lia|exact Hl]|]. rewrite app_nil_r in *. rewrite <- Hh', H0, H2, Nat2Z.id.
  split_and!; auto. rewrite Hs, entries_cons, length_app, length_entry_bytes. lia.
Qed.

Lemma opening_snoc T es e : opening magic T (es ++ [e]) = opening magic T es ++ entry_bytes e.
Proof. unfold opening. rewrite entries_bytes_app, <- !app_assoc, entries_cons. change (entries_bytes []) with (@nil Z). now rewrite app_nil_r. Qed.

(** The end of an entry. *)
Lemma finish_entry_ok q es T ty x c i h v f0 f m : q = opening magic T es ++ entry_bytes (mkTlv ty x) ->
  Forall entry_ok es -> entry_ok (mkTlv ty x) -> size_ok expected T -> (length q <= T)%nat -> c = length q ->
  length h = 4%nat -> length v = 64%nat -> (is_collected ty = true -> take (length x) v = x) ->
  record_all k f0 es = Some f ->
  let '(a, f', r) := after_entry (finish_entry
    (mkArea k magic expected (Some T) c i 4 h 4 ty (length x) (length x) v (is_collected ty)) f) m in
  match r with
  | inl _ => forall all tail more, area_ok expected all -> area_bytes magic all ++ tail = q ++ more -> record_all k f0 all = None
  | inr n => n = m /\ exists es, area_at a q es /\ record_all k f0 es = Some f'
  end.
Proof.
  intros Hq Hes He HT Hle -> Hh Hv Hx Hf. unfold finish_entry, after_entry.
  cbn [entry_len entry_value kind entry_type entry_header consumed].
  assert (record k f ty (take (Nat.min (length x) (length v)) v) = record k f ty x) as ->.
  { destruct (is_collected ty) eqn:Ec; [|now rewrite !record_uncollected by exact Ec].
    destruct He as (_ & _ & He). specialize (He Ec). cbn in He. rewrite Nat.min_l, Hx by (auto; lia). reflexivity. }
  destruct (record k f ty x) as [e|f'] eqn:Er.
  - intros all tail more Hok H. rewrite Hq, <- app_assoc in H.
    assert (Hlen : (area_size es + length (entry_bytes (mkTlv ty x)) <= T)%nat)
      by (rewrite <- (length_opening T), <- length_app, <- Hq; exact Hle).
    destruct (area_continues all tail T es _ Hok H Hes HT) as (-> & rest & -> & Hrest & Hs); [lia|].
    destruct Hok as (Hok & _). apply Forall_app in Hok as [_ Hok].
    assert (Hone : entries_bytes [mkTlv ty x] = entry_bytes (mkTlv ty x)) by apply app_nil_r.
    destruct (entries_prefix [mkTlv ty x] rest tail more) as (rest' & -> & _);
      [now constructor|exact Hok|now rewrite Hrest, Hone|rewrite Hone; lia|].
    rewrite record_all_app, Hf. cbn. now rewrite Er.
  - split; [reflexivity|]. exists (es ++ [mkTlv ty x]). split.
    + unfold with_value, with_header, with_entry. cbn.
      apply (at_header q (es ++ [mkTlv ty x]) T []); cbn [length]; try assumption; try lia; try reflexivity.
      * now rewrite opening_snoc, app_nil_r.
      * apply Forall_app. split; [exact Hes|now constructor].
      * now left.
    + rewrite record_all_app, Hf. cbn. now rewrite Er.
Qed.

Lemma feed_header_ok a q es T input f0 f : area_at a q es -> total a = Some T -> entry_header_fill a <> 4%nat ->
  area_is_complete a = false -> input <> [] -> Forall is_u8 q -> Forall is_u8 input -> record_all k f0 es = Some f ->
  exists r, feed_header a f T input = Some r /\ pass_ok q input f0 r.
Proof.
  intros Ha HT' Hfill Hinc Hne Hq8 Hi8 Hf. inversion Ha as
    [|q' es' T' hd i h ty m w v col Hhd Hq Hes HT Hle Hroom Hh Ht Hv Ea Eq|]; subst; cbn in HT'; try discriminate;
    [|cbn in Hfill; lia]. injection HT' as ->. set (q := opening magic T es ++ hd) in *.
  unfold area_is_complete in Hinc. apply bool_decide_eq_false in Hinc. cbn in Hinc.
  assert (Hlt : (length q < T)%nat) by (destruct (decide (T = length q)); [exfalso; apply Hinc; now f_equal|lia]). clear Hinc Hle.
  assert (Hlenq : length q = (area_size es + length hd)%nat) by (unfold q; now rewrite length_app, length_opening).
  unfold feed_header. cbn [consumed entry_header_fill entry_header]. 
  rewrite (usize_sub_ok T (length q)) by lia. cbn [mbind option_bind].
  destruct (Nat.ltb_spec (T - length q) (4 - length hd)) as [Hshort|Hlong].
  { eexists. split; [reflexivity|]. intros all tail more Hok H. exfalso.
    assert (hd = []) as -> by (destruct Hroom; [assumption|lia]). unfold q in H. rewrite app_nil_r in H.
    cbn [length] in *.
    destruct (area_continues all tail T es (input ++ more) Hok H Hes HT) as (-> & rest & -> & Hrest & Hs); [lia|].
    destruct rest as [|e rest]; [change (length (entries_bytes [])) with O in Hs; lia|]. rewrite entries_cons, length_app, length_entry_bytes in Hs. lia. }
  remember (Nat.min (4 - length hd) (length input)) as n eqn:En.
  assert (Hn : length (take n input) = n) by now apply (length_take_min _ _ (4 - length hd)).
  assert (Hpos : (0 < n <= length input)%nat) by (destruct input; [done|]; cbn in *; lia).
  destruct (take_extend hd h (take n input)) as (h' & -> & Hh' & Ht'); [exact Ht|lia|]. cbn [mbind option_bind].
  assert (Hlen : length (hd ++ take n input) = (length hd + n)%nat) by (rewrite length_app; lia).
  assert (Hlen' : length (q ++ take n input) = (length q + n)%nat) by (rewrite length_app; lia).
  assert (Hq1 : q ++ take n input = opening magic T es ++ (hd ++ take n input)) by (unfold q; now rewrite <- app_assoc).
  cbn [entry_header_fill with_header].
  destruct (Nat.eqb_spec (length hd + n) 4) as [E4|N4].
  2:{ eexists. split; [reflexivity|]. split; [exact Hpos|]. exists es. split; [|exact Hf].
      unfold with_header. area_cbn. rewrite <- Hlen, <- Hlen'.
      apply at_header; try assumption; try lia. }
  assert (h' = hd ++ take n input) as -> by (rewrite <- Ht'; symmetry; apply take_ge; lia).
  rewrite Hlen in *. set (h1 := hd ++ take n input) in *. rewrite E4 in *.
  assert (Hh18 : Forall is_u8 h1).
  { apply Forall_app. split; [unfold q in Hq8; now apply Forall_app in Hq8|now apply Forall_take]. }
  pose proof (le_at_2_value h1 0 Hh18 ltac:(lia)) as Hty. pose proof (le_at_2_value h1 2 Hh18 ltac:(lia)) as Hsz.
  set (ty' := le_at 2 h1 0) in *. set (len := Z.to_nat (le_at 2 h1 2)) in *.
  assert (Hsz' : Z.of_nat len = le_at 2 h1 2) by (unfold is_u16 in Hsz; subst len; lia).
  assert (Hnext : forall all tail more, area_ok expected all -> area_bytes magic all ++ tail = q ++ input ++ more ->
    exists e more', all = es ++ e :: more' /\ ty' = t_type e /\ len = length (t_value e)
      /\ entry_ok e /\ (area_size es + 4 + len <= T)%nat).
  { intros all tail more Hok H. rewrite <- (take_drop n input), <- (app_assoc (take n input)), (app_assoc q), Hq1, <- app_assoc in H.
    destruct (area_next all tail T es h1 _ Hok H Hes HT Hlen) as (e & more' & -> & H0 & H2 & He & Hr); [lia|].
    exists e, more'. subst ty' len. rewrite H0, H2. auto. }
  cbn [consumed with_entry with_header]. rewrite (usize_sub_ok T (length q + n)) by lia. cbn [mbind option_bind].
  cbn [entry_len entry_collect entry_value with_entry with_header].
  destruct (Nat.ltb_spec (T - (length q + n)) len) as [Hshort'|Hfit].
  { eexists. split; [reflexivity|]. intros all tail more Hok H. exfalso.
    destruct (Hnext all tail more Hok H) as (e & more' & _ & _ & _ & _ & Hr). lia. }
  destruct (is_collected ty' && (length v <? len)%nat) eqn:Ec.
  { eexists. split; [reflexivity|]. intros all tail more Hok H. exfalso.
    destruct (Hnext all tail more Hok H) as (e & more' & _ & H0 & H2 & (_ & _ & He) & _).
    apply andb_true_iff in Ec as [Ec Hl%Nat.ltb_lt]. rewrite H0 in Ec. specialize (He Ec). lia. }
  assert (Hcol : is_collected ty' = true -> (len <= 64)%nat).
  { intros E. rewrite E in Ec. cbn in Ec. apply Nat.ltb_ge in Ec. lia. }
  assert (Hwords : h1 = le_bytes 2 ty' ++ le_bytes 2 (Z.of_nat len)) by (rewrite Hsz'; now apply two_words).
  destruct (Nat.eqb_spec len 0) as [E0|N0].
  - eexists. split; [reflexivity|].
    assert (Hfin : q ++ take n input = opening magic T es ++ entry_bytes (mkTlv ty' [])).
    { rewrite Hq1, Hwords, E0. reflexivity. }
    pose proof (finish_entry_ok (q ++ take n input) es T ty' [] (length q + n) i h1 v f0 f n Hfin Hes
      ltac:(split; [exact Hty|split; [unfold u16_max; cbn; lia|cbn; lia]]) HT ltac:(lia) (eq_sym Hlen') Hlen Hv
      ltac:(intros _; reflexivity) Hf) as Hfinish.
    unfold with_entry, with_header. area_cbn. cbn [length] in Hfinish. rewrite E0.
    destruct (after_entry _ n) as [[a' f'] [e|m']]; cbn [pass_ok] in *.
    + intros all tail more Hok H. apply (Hfinish all tail (drop n input ++ more) Hok).
      rewrite H, <- app_assoc. f_equal. now rewrite app_assoc, take_drop.
    + destruct Hfinish as (-> & es' & Ha' & Hf'). split; [exact Hpos|]. eauto.
  - eexists. split; [reflexivity|]. split; [exact Hpos|]. exists es. split; [|exact Hf].
    unfold with_entry, with_header. area_cbn. rewrite <- Hlen'.
    apply (at_value (q ++ take n input) es T ty' len [] i h1 v); cbn [length]; try assumption; try lia.
    + rewrite app_nil_r, Hq1, Hwords. now rewrite !app_assoc.
    + unfold is_u16 in Hsz. lia.
    + intros E. split; [auto|reflexivity].
Qed.

Lemma feed_value_ok a q es T input f0 f : area_at a q es -> total a = Some T -> entry_header_fill a = 4%nat ->
  input <> [] -> record_all k f0 es = Some f -> exists r, feed_value a f input = Some r /\ pass_ok q input f0 r.
Proof.
  intros Ha HT' Hfill Hne Hf. inversion Ha as
    [| |q' es' T' ty n x i h v Hx Hq Hes HT Hle Hty Hn Hh Hv Hcol Ea Eq]; subst; cbn in HT', Hfill; try discriminate; [lia|].
  injection HT' as ->. set (q := opening magic T es ++ _) in *.
  unfold feed_value. cbn [entry_len entry_fill entry_collect entry_value consumed].
  rewrite (usize_sub_ok n (length x)) by lia. cbn [mbind option_bind].
  remember (Nat.min (n - length x) (length input)) as j eqn:Ej.
  assert (Hj : length (take j input) = j) by now apply (length_take_min _ _ (n - length x)).
  assert (Hpos : (0 < j <= length input)%nat) by (destruct input; [done|]; cbn in *; lia).
  assert (Hlen : length (x ++ take j input) = (length x + j)%nat) by (rewrite length_app; lia).
  assert (Hlen' : length (q ++ take j input) = (length q + j)%nat) by (rewrite length_app; lia).
  assert (exists v', (if is_collected ty then copy_at v (length x) (take j input) else Some v) = Some v'
    /\ length v' = 64%nat /\ (is_collected ty = true -> take (length (x ++ take j input)) v' = x ++ take j input))
    as (v' & -> & Hv' & Ht').
  { destruct (is_collected ty) eqn:Ec; [|exists v; split_and!; auto; discriminate].
    destruct (Hcol eq_refl) as [Hn64 Htx].
    destruct (take_extend x v (take j input) Htx) as (v' & -> & Hv' & Ht'); [lia|]. exists v'. split_and!; auto; lia. }
  cbn [mbind option_bind]. eexists. split; [reflexivity|].
  unfold with_value. area_cbn.
  destruct (Nat.eqb_spec (length x + j) n) as [E|N].
  - assert (Hfin : q ++ take j input = opening magic T es ++ entry_bytes (mkTlv ty (x ++ take j input))).
    { unfold q, entry_bytes. cbn [t_type t_value]. rewrite Hlen, E, <- !app_assoc. reflexivity. }
    pose proof (finish_entry_ok (q ++ take j input) es T ty (x ++ take j input) (length q + j) i h v' f0 f j Hfin Hes
      ltac:(split; [exact Hty|cbn [t_value t_type]; rewrite Hlen, E; split; [exact Hn|intros Ec; now destruct (Hcol Ec)]])
      HT ltac:(lia) (eq_sym Hlen') Hh Hv' Ht' Hf) as Hfinish.
    rewrite Hlen, E in Hfinish. rewrite E. destruct (after_entry _ j) as [[a' f'] [e|m']]; cbn [pass_ok] in *.
    + intros all tail more Hok H. apply (Hfinish all tail (drop j input ++ more) Hok).
      rewrite H, <- app_assoc. f_equal. now rewrite app_assoc, take_drop.
    + destruct Hfinish as (-> & es' & Ha' & Hf'). split; [exact Hpos|]. eauto.
  - split; [exact Hpos|]. exists es. split; [|exact Hf]. rewrite <- Hlen, <- Hlen'.
    apply at_value; try assumption; try lia.
    + unfold q. now rewrite <- !app_assoc.
    + intros Ec. split; [now destruct (Hcol Ec)|auto].
Qed.

Lemma area_step_ok a q es input f0 f : area_at a q es -> area_is_complete a = false -> input <> [] ->
  Forall is_u8 q -> Forall is_u8 input -> record_all k f0 es = Some f ->
  exists r, area_step a f input = Some r /\ pass_ok q input f0 r.
Proof.
  intros Ha Hinc Hne Hq8 Hi8 Hf. unfold area_step.
  destruct (Nat.ltb_spec (info_fill a) 4) as [Hlt|Hge].
  - assert (es = []) as -> by (destruct Ha; [reflexivity|cbn in Hlt; lia..]).
    injection Hf as <-. now apply feed_info_ok.
  - destruct (total a) as [T|] eqn:ET.
    2:{ destruct Ha as [q i h ty n m v col Hq _ _ _ _| |]; [|discriminate..]. cbn in Hge. lia. }
    destruct (Nat.ltb_spec (entry_header_fill a) 4) as [Hh|Hh].
    + eapply feed_header_ok; try eassumption. lia.
    + eapply feed_value_ok; try eassumption. destruct Ha; cbn in *; lia.
Qed.

(** The whole of an input: the area ends in it, or all of it is taken. *)
Lemma area_loop_ok fuel : forall a q es input f0 f off, area_at a q es -> (length input <= fuel)%nat ->
  Forall is_u8 q -> Forall is_u8 input -> record_all k f0 es = Some f ->
  exists a' f' r, area_loop fuel a f input off = Some (a', f', r) /\
    match r with
    | inl _ => fails q input f0
    | inr n => exists m es', n = (off + m)%nat /\ (m <= length input)%nat /\ area_at a' (q ++ take m input) es'
        /\ record_all k f0 es' = Some f' /\ (m = length input \/ area_is_complete a' = true)
        /\ (area_is_complete a = false -> input <> [] -> (0 < m)%nat)
    end.
Proof.
  induction fuel as [|fuel IH]; intros a q es input f0 f off Ha Hl Hq8 Hi8 Hf; cbn [area_loop].
  all: destruct (bool_decide (input = []) || area_is_complete a) eqn:Estop.
  1, 3: eexists _, _, _; split; [reflexivity|]; exists O, es;
    rewrite take_0, app_nil_r; split_and!; auto; try lia;
    apply orb_true_iff in Estop as [->%bool_decide_eq_true|Hc];
    first [left; reflexivity|right; exact Hc|intros; congruence].
  - destruct input; [discriminate|cbn in Hl; lia].
  - apply orb_false_iff in Estop as [Hne%bool_decide_eq_false Hinc].
    destruct (area_step_ok a q es input f0 f Ha Hinc Hne Hq8 Hi8 Hf) as ([[a1 f1] r] & -> & Hpass).
    cbn [mbind option_bind]. destruct r as [e|n]; [eexists _, _, _; split; [reflexivity|exact Hpass]|].
    destruct Hpass as (Hn & es1 & Ha1 & Hf1).
    destruct (IH a1 (q ++ take n input) es1 (drop n input) f0 f1 (off + n)%nat Ha1) as (a' & f' & r & -> & Hr); auto.
    { rewrite length_drop. lia. } { apply Forall_app. split; [exact Hq8|now apply Forall_take]. } { now apply Forall_drop. }
    eexists _, _, _. split; [reflexivity|]. destruct r as [e|n'].
    + intros all tail more Hok H. apply (Hr all tail more Hok). rewrite H, <- app_assoc. f_equal. now rewrite app_assoc, take_drop.
    + destruct Hr as (m & es' & -> & Hm & Ha' & Hf' & Hend & _). exists (n + m)%nat, es'. rewrite length_drop in Hm.
      split; [lia|]. split; [lia|]. rewrite <- take_take_drop, app_assoc. split; [exact Ha'|]. split; [exact Hf'|].
      split; [|lia]. rewrite length_drop in Hend. destruct Hend as [->|Hc]; [left; lia|now right].
Qed.

(** The reader takes an area apart as the grammar does, whatever pieces it
    comes in; it fails only where no acceptable area continues. *)
Lemma area_feed_spec a q es input f0 f : area_at a q es -> Forall is_u8 q -> Forall is_u8 input ->
  record_all k f0 es = Some f ->
  exists a' f' r, area_feed a f input = Some (a', f', r) /\
    match r with
    | inl _ => fails q input f0
    | inr n => exists es', (n <= length input)%nat /\ area_at a' (q ++ take n input) es'
        /\ record_all k f0 es' = Some f' /\ (n = length input \/ area_is_complete a' = true)
        /\ (area_is_complete a = false -> input <> [] -> (0 < n)%nat)
    end.
Proof.
  intros Ha Hq8 Hi8 Hf. unfold area_feed.
  destruct (area_loop_ok (length input) a q es input f0 f 0 Ha (le_n _) Hq8 Hi8 Hf) as (a' & f' & r & -> & Hr).
  exists a', f', r. split; [reflexivity|]. destruct r as [e|n]; [exact Hr|].
  destruct Hr as (m & es' & -> & H). exists es'. exact H.
Qed.
End Reader.

(** Areas are read one way only. *)
Lemma area_bytes_inj magic n n' es es' r r' : is_u16 magic -> area_ok n es -> area_ok n' es' ->
  area_bytes magic es ++ r = area_bytes magic es' ++ r' -> es = es' /\ r = r'.
Proof.
  intros Hm (Hes & Hs & _) (Hes' & Hs' & _) H. unfold area_bytes in H. rewrite <- !app_assoc in H.
  apply app_inj_1 in H as [_ H]; [|reflexivity]. apply app_inj_1 in H as [Hsize H]; [|reflexivity].
  apply le_bytes_2_inj in Hsize; [|unfold is_u16; lia..]. unfold area_size in Hsize.
  apply app_inj_1 in H as [Hb Hr]; [|lia]. split; [|exact Hr].
  destruct (entries_prefix es' es [] []) as (more & -> & Hmore); [assumption..|now rewrite !app_nil_r|now rewrite Hb|].
  rewrite app_nil_r in Hmore. destruct more as [|e more]; [now rewrite app_nil_r|].
  apply (f_equal length) in Hmore. rewrite entries_cons, length_app, length_entry_bytes in Hmore. discriminate.
Qed.
