(* ===== verification/McubootFacts.v ===== *)
(** What the image verifier accepts. A container is declared as a grammar
    ([container_bytes]) with the conditions of acceptance ([accepts]); the
    streaming verifier accepts exactly the containers that meet them, in
    whatever pieces they arrive, and the sink has received exactly the payload
    ([verifier_accepts_iff]). What was stored passes the check of the read-back
    when it is the payload, and passing it means that its digest is the signed
    one ([stored_image_verified]). *)

From Stdlib Require Import ZArith Lia.
From stdpp Require Import base list option.
From S2P Require Import Prelude Mcuboot.
Open Scope Z_scope.

(** ** Containers *)

Record Container := mkContainer {
  c_header : list Z;
  c_payload : list Z;
  c_protected : option (list Tlv);
  c_regular : list Tlv;
  c_padding : nat }.

Definition protected_area (c : Container) : list Z :=
  match c_protected c with None => [] | Some es => area_bytes TLV_PROTECTED_INFO_MAGIC es end.

(** The bytes the digest covers. *)
Definition signed (c : Container) : list Z := c_header c ++ c_payload c ++ protected_area c.

(** YMODEM pads the last block. *)
Definition container_bytes (c : Container) : list Z :=
  signed c ++ area_bytes TLV_INFO_MAGIC (c_regular c) ++ replicate (c_padding c) 26.

(** The parts fit together, and what the policy limits. *)
Definition well_formed (p : Policy) (c : Container) (h : ImageHeader) : Prop :=
  length (c_header c) = IMAGE_HEADER_SIZE /\ header_parse (c_header c) = inr h
  /\ Z.of_nat (length (c_payload c)) = image_size h /\ image_size h <= max_image_size p
  /\ (Z.to_nat (protected_tlv_size h) <= MAX_PROTECTED_TLV_SIZE)%nat
  /\ match c_protected c with
     | None => protected_tlv_size h = 0
     | Some es => protected_tlv_size h <> 0 /\ area_ok (Some (Z.to_nat (protected_tlv_size h))) es
     end
  /\ area_ok None (c_regular c).

(** ** What the entries say *)

Definition values_of (ty : Z) (es : list Tlv) : list (list Z) := t_value <$> List.filter (fun e => t_type e =? ty) es.

(** An entry that may come once, of a fixed length. *)
Definition slot (n : nat) (values : list (list Z)) (o : option (list Z)) : Prop :=
  match values with
  | [] => o = None
  | [v] => length v = n /\ o = Some v
  | _ => False
  end.

Definition found_in (prot reg : list Tlv) (f : FoundTlvs) : Prop :=
  slot 32 (values_of TLV_KEYHASH reg) (key_hash f) /\ slot 32 (values_of TLV_SHA256 reg) (found_sha256 f)
  /\ slot 64 (values_of TLV_ED25519 reg) (signature f)
  /\ slot 16 (values_of TLV_UUID_VID prot) (found_vid f) /\ slot 16 (values_of TLV_UUID_CID prot) (found_cid f)
  /\ pure_signature f = existsb (fun e => t_type e =? TLV_SIG_PURE) reg.

(** The same, going on from what a slot already holds. *)
Definition slot_after (n : nat) (o : option (list Z)) (values : list (list Z)) (o' : option (list Z)) : Prop :=
  match o, values with
  | _, [] => o' = o
  | None, [v] => length v = n /\ o' = Some v
  | _, _ => False
  end.

Lemma slot_after_cons n o v values o' : slot_after n o (v :: values) o' <->
  exists o1, set_once_array n o v = inr o1 /\ slot_after n o1 values o'.
Proof.
  unfold set_once_array. destruct (Nat.eqb_spec (length v) n) as [E|N]; cbn [negb].
  - destruct o as [w|]; cbn; [split; [done|intros (? & [=] & _)]|]. split.
    + destruct values as [|w values]; [|done]. intros [_ ->]. exists (Some v). split; reflexivity.
    + intros (? & [= <-] & H). destruct values; [|done]. auto.
  - split; [|intros (? & [=] & _)]. destruct o, values; try done. intros [H _]. contradiction.
Qed.

Lemma values_cons ty e es : values_of ty (e :: es) =
  if t_type e =? ty then t_value e :: values_of ty es else values_of ty es.
Proof. unfold values_of. cbn. destruct (t_type e =? ty); reflexivity. Qed.

Lemma record_regular es : forall f f', record_all Regular f es = Some f' <->
  slot_after 32 (key_hash f) (values_of TLV_KEYHASH es) (key_hash f')
  /\ slot_after 32 (found_sha256 f) (values_of TLV_SHA256 es) (found_sha256 f')
  /\ slot_after 64 (signature f) (values_of TLV_ED25519 es) (signature f')
  /\ found_vid f' = found_vid f /\ found_cid f' = found_cid f
  /\ pure_signature f' = pure_signature f || existsb (fun e => t_type e =? TLV_SIG_PURE) es.
Proof.
  induction es as [|e es IH]; intros [kh sha sig v c pure] [kh' sha' sig' v' c' pure'].
  - cbn. rewrite orb_false_r. split; [intros [=]; subst; destruct kh', sha', sig'; cbn; auto 10|].
    intros (H1 & H2 & H3 & -> & -> & ->). destruct kh, sha, sig; cbn in *; subst; reflexivity.
  - cbn [record_all]. rewrite !values_cons. unfold record. cbn [existsb].
    destruct (t_type e =? TLV_KEYHASH) eqn:E1.
    { apply Z.eqb_eq in E1. rewrite !E1. cbn [Z.eqb TLV_KEYHASH TLV_SHA256 TLV_ED25519 TLV_SIG_PURE Pos.eqb orb].
      cbn [key_hash found_sha256 signature found_vid found_cid pure_signature]. rewrite slot_after_cons.
      destruct (set_once_array 32 kh (t_value e)) as [x|o]; [split; [discriminate|intros [(? & [=] & _) _]]|].
      rewrite IH. cbn. split; [intros (H & Hr); split; [eauto|exact Hr]|intros ((? & [= <-] & H) & Hr); auto]. }
    destruct (t_type e =? TLV_SHA256) eqn:E2.
    { apply Z.eqb_eq in E2. rewrite !E2. cbn [Z.eqb TLV_SHA256 TLV_ED25519 TLV_SIG_PURE Pos.eqb orb].
      cbn [key_hash found_sha256 signature found_vid found_cid pure_signature]. rewrite slot_after_cons.
      destruct (set_once_array 32 sha (t_value e)) as [x|o]; [split; [discriminate|intros (_ & (? & [=] & _) & _)]|].
      rewrite IH. cbn. split; [intros (H0 & H & Hr); split_and!; eauto; apply Hr|intros (H0 & (? & [= <-] & H) & Hr); auto]. }
    destruct (t_type e =? TLV_ED25519) eqn:E3.
    { apply Z.eqb_eq in E3. rewrite !E3. cbn [Z.eqb TLV_ED25519 TLV_SIG_PURE Pos.eqb orb].
      cbn [key_hash found_sha256 signature found_vid found_cid pure_signature]. rewrite slot_after_cons.
      destruct (set_once_array 64 sig (t_value e)) as [x|o]; [split; [discriminate|intros (_ & _ & (? & [=] & _) & _)]|].
      rewrite IH. cbn. split; [intros (H0 & H1 & H & Hr); split_and!; eauto; apply Hr|
        intros (H0 & H1 & (? & [= <-] & H) & Hr); auto]. }
    destruct (t_type e =? TLV_SIG_PURE) eqn:E4.
    { rewrite IH. cbn. rewrite orb_true_r. reflexivity. }
    rewrite IH. cbn. reflexivity.
Qed.

Lemma record_protected es : forall f f', record_all Protected f es = Some f' <->
  slot_after 16 (found_vid f) (values_of TLV_UUID_VID es) (found_vid f')
  /\ slot_after 16 (found_cid f) (values_of TLV_UUID_CID es) (found_cid f')
  /\ key_hash f' = key_hash f /\ found_sha256 f' = found_sha256 f /\ signature f' = signature f
  /\ pure_signature f' = pure_signature f.
Proof.
  induction es as [|e es IH]; intros [kh sha sig v c pure] [kh' sha' sig' v' c' pure'].
  - cbn. split; [intros [=]; subst; destruct v', c'; cbn; auto 10|].
    intros (H1 & H2 & -> & -> & -> & ->). destruct v, c; cbn in *; subst; reflexivity.
  - cbn [record_all]. rewrite !values_cons. unfold record.
    destruct (t_type e =? TLV_UUID_VID) eqn:E1.
    { apply Z.eqb_eq in E1. rewrite !E1. cbn [Z.eqb TLV_UUID_VID TLV_UUID_CID Pos.eqb].
      cbn [key_hash found_sha256 signature found_vid found_cid pure_signature]. rewrite slot_after_cons.
      destruct (set_once_array 16 v (t_value e)) as [x|o]; [split; [discriminate|intros [(? & [=] & _) _]]|].
      rewrite IH. cbn. split; [intros (H & Hr); split; [eauto|exact Hr]|intros ((? & [= <-] & H) & Hr); auto]. }
    destruct (t_type e =? TLV_UUID_CID) eqn:E2.
    { cbn [key_hash found_sha256 signature found_vid found_cid pure_signature]. rewrite slot_after_cons.
      destruct (set_once_array 16 c (t_value e)) as [x|o]; [split; [discriminate|intros (_ & (? & [=] & _) & _)]|].
      rewrite IH. cbn. split; [intros (H0 & H & Hr); split_and!; eauto; apply Hr|intros (H0 & (? & [= <-] & H) & Hr); auto]. }
    rewrite IH. cbn. reflexivity.
Qed.

Lemma record_found prot reg f : record_all Protected found_default prot ≫= (fun f => record_all Regular f reg) = Some f
  <-> found_in prot reg f.
Proof.
  unfold found_in. split.
  - destruct (record_all Protected found_default prot) as [f1|] eqn:E1; [|discriminate]. cbn. intros E2.
    apply record_protected in E1 as (H1 & H2 & H3 & H4 & H5 & H6). apply record_regular in E2 as (R1 & R2 & R3 & R4 & R5 & R6).
    rewrite H3 in R1. rewrite H4 in R2. rewrite H5 in R3. rewrite H6 in R6. rewrite <- R4 in H1. rewrite <- R5 in H2.
    unfold slot_after in *. cbn [found_default key_hash found_sha256 signature found_vid found_cid pure_signature] in *.
    unfold slot. auto 10.
  - intros (H1 & H2 & H3 & H4 & H5 & H6).
    assert (E1 : record_all Protected found_default prot = Some (mkFound None None None (found_vid f) (found_cid f) false))
      by (apply record_protected; cbn [found_default key_hash found_sha256 signature found_vid found_cid pure_signature]; split_and!; auto).
    rewrite E1. cbn [mbind option_bind]. apply record_regular.
    cbn [found_default key_hash found_sha256 signature found_vid found_cid pure_signature orb]. split_and!; auto.
Qed.

(** ** The verifier against the grammar *)

Lemma header_sizes hb h : header_parse hb = inr h -> Forall is_u8 hb ->
  0 < image_size h /\ (protected_tlv_size h = 0 \/ 4 <= protected_tlv_size h) /\ 0 <= protected_tlv_size h <= u16_max.
Proof.
  unfold header_parse. intros H Hu. destruct (negb _); [discriminate|]. cbv zeta in H.
  set (h0 := mkHeader _ _ _ _ _ _) in H.
  assert (H1 : 0 <= image_size h0 < 256 ^ Z.of_nat 4) by now apply le_value_slice_bound.
  assert (H2 : 0 <= protected_tlv_size h0 < 256 ^ Z.of_nat 2) by now apply le_value_slice_bound.
  change (256 ^ Z.of_nat 2) with 65536 in H2.
  destruct (negb _); [discriminate|]. destruct (negb _); [discriminate|]. destruct (negb _); [discriminate|].
  destruct (Z.eqb_spec (image_size h0) 0); [discriminate|].
  destruct (negb (protected_tlv_size h0 =? 0) && _) eqn:E; [discriminate|]. injection H as <-.
  unfold u16_max. split; [lia|]. split; [|lia].
  apply andb_false_iff in E as [E|E]; [left|right].
  - apply negb_false_iff, Z.eqb_eq in E. exact E.
  - apply Z.ltb_ge in E. exact E.
Qed.

Lemma all_same (z : Z) l : Forall (fun b => b = z) l -> l = replicate (length l) z.
Proof. induction 1 as [|b l -> _ IH]; [reflexivity|]. cbn. now rewrite <- IH. Qed.

Section Verifier.
Context (verify_strict : list Z -> list Z -> list Z -> bool) (sha256 : list Z -> list Z).
Context {S E : Type} (write : S -> Z -> list Z -> S * option E).
Context (key : list Z) (p : Policy) (s0 : S).

(** The sink after writes of consecutive pieces, all of them successful. *)
Fixpoint writes (s : S) (offset : Z) (pieces : list (list Z)) : option S :=
  match pieces with
  | [] => Some s
  | piece :: pieces => match write s offset piece with
                       | (s, None) => writes s (offset + Z.of_nat (length piece)) pieces
                       | (_, Some _) => None
                       end
  end.

(** [pl] has been written from the start, in some pieces. *)
Definition stored (pl : list Z) (s : S) : Prop := exists pieces, concat pieces = pl /\ writes s0 0 pieces = Some s.

Lemma writes_app pieces1 : forall s offset pieces2, writes s offset (pieces1 ++ pieces2) =
  writes s offset pieces1 ≫= fun s => writes s (offset + Z.of_nat (length (concat pieces1))) pieces2.
Proof.
  induction pieces1 as [|x pieces1 IH]; intros s offset pieces2; cbn; [now rewrite Z.add_0_r|].
  destruct (write s offset x) as [s1 [e|]]; [reflexivity|]. rewrite IH. destruct (writes _ _ pieces1); [|reflexivity].
  cbn. rewrite length_app, Nat2Z.inj_add, Z.add_assoc. reflexivity.
Qed.

Lemma stored_more pl s bytes s' : stored pl s -> write s (Z.of_nat (length pl)) bytes = (s', None) ->
  stored (pl ++ bytes) s'.
Proof.
  intros (pieces & <- & Hw) H. exists (pieces ++ [bytes]). rewrite concat_app. cbn [concat]. rewrite app_nil_r.
  split; [reflexivity|]. rewrite writes_app, Hw. cbn [mbind option_bind writes]. now rewrite Z.add_0_l, H.
Qed.

Definition header_ok (hb : list Z) (h : ImageHeader) : Prop :=
  header_parse hb = inr h /\ image_size h <= max_image_size p
  /\ (Z.to_nat (protected_tlv_size h) <= MAX_PROTECTED_TLV_SIZE)%nat.

(** The parts of a container that have been read. *)
Record Parts := mkParts {
  p_header : list Z; p_payload : list Z;
  p_prot : list Z; p_prot_entries : list Tlv; p_prot_found : FoundTlvs;
  p_reg : list Z; p_reg_entries : list Tlv; p_pad : list Z }.
Definition bytes_of (x : Parts) : list Z := p_header x ++ p_payload x ++ p_prot x ++ p_reg x ++ p_pad x.

(** The header and what may follow it. *)
Definition phase (v : StreamingVerifier) (x : Parts) : Prop :=
  (length (p_header x) < IMAGE_HEADER_SIZE)%nat /\ header v = None /\ protected v = None
    /\ p_payload x = [] /\ p_prot x = [] /\ p_prot_entries x = [] /\ p_reg x = [] /\ p_pad x = []
  \/ length (p_header x) = IMAGE_HEADER_SIZE /\ exists h, header v = Some h /\ header_ok (p_header x) h
    /\ Z.of_nat (length (p_payload x)) <= image_size h
    /\ (Z.of_nat (length (p_payload x)) < image_size h -> p_prot x = [] /\ p_reg x = [] /\ p_pad x = [])
    /\ match protected v with
       | None => protected_tlv_size h = 0 /\ p_prot x = [] /\ p_prot_entries x = []
       | Some a => protected_tlv_size h <> 0
           /\ area_at Protected TLV_PROTECTED_INFO_MAGIC (Some (Z.to_nat (protected_tlv_size h))) a (p_prot x) (p_prot_entries x)
           /\ (area_is_complete a = false -> p_reg x = [] /\ p_pad x = [])
       end.

Record reads (v : StreamingVerifier) (s : S) (x : Parts) : Prop := {
  rd_key : public_key v = key;
  rd_hash : expected_key_hash v = sha256 (ED25519_SPKI_PREFIX ++ key);
  rd_policy : policy v = p;
  rd_fill : header_fill v = length (p_header x);
  rd_bytes : length (header_bytes v) = IMAGE_HEADER_SIZE /\ take (length (p_header x)) (header_bytes v) = p_header x;
  rd_phase : phase v x;
  rd_offset : payload_offset v = Z.of_nat (length (p_payload x));
  rd_regular : area_at Regular TLV_INFO_MAGIC None (regular v) (p_reg x) (p_reg_entries x);
  rd_complete : complete v = area_is_complete (regular v);
  rd_pad : Forall (fun b => b = 26) (p_pad x) /\ (complete v = false -> p_pad x = []);
  rd_found1 : record_all Protected found_default (p_prot_entries x) = Some (p_prot_found x);
  rd_found2 : record_all Regular (p_prot_found x) (p_reg_entries x) = Some (found v);
  rd_hasher : hasher v = p_header x ++ p_payload x ++ p_prot x;
  rd_protected : protected_bytes v = p_prot x ++ replicate (MAX_PROTECTED_TLV_SIZE - length (p_prot x)) 0;
  rd_protected_fill : protected_fill v = length (p_prot x);
  rd_position : container_position v
    = Z.min u32_max (Z.of_nat (length (p_header x ++ p_payload x ++ p_prot x ++ p_reg x)));
  rd_stored : stored (p_payload x) s }.

Lemma reads_new valid_key v : verifier_new valid_key sha256 key p = inr v ->
  reads v s0 (mkParts [] [] [] [] found_default [] [] []).
Proof.
  unfold verifier_new. destruct (negb _); [discriminate|]. intros [= <-].
  constructor; cbn [p_header p_payload p_prot p_prot_entries p_prot_found p_reg p_reg_entries p_pad]; try reflexivity.
  - split; reflexivity.
  - left. cbn. split_and!; try reflexivity. unfold IMAGE_HEADER_SIZE. lia.
  - apply area_at_new.
  - split; [constructor|reflexivity].
  - exists []. split; reflexivity.
Qed.

(** Some acceptable container begins with [b]. *)
Definition continues (b : list Z) : Prop := exists c h f more, well_formed p c h
  /\ found_in (default [] (c_protected c)) (c_regular c) f /\ container_bytes c = b ++ more.

Definition outcome (b input : list Z) (r : FeedResult (S:=S) (E:=E)) : Prop :=
  let '(v, s, r) := r in
  match r with
  | inl (FeedImage _) => ~ continues (b ++ input)
  | inl (FeedSink e) => exists s offset bytes s', write s offset bytes = (s', Some e)
  | inr rest => (length rest < length input)%nat /\ exists x, reads v s x /\ bytes_of x ++ rest = b ++ input
  end.

Lemma continues_header b hb rest : continues b -> b = hb ++ rest -> length hb = IMAGE_HEADER_SIZE ->
  exists c h f more, well_formed p c h /\ found_in (default [] (c_protected c)) (c_regular c) f /\ c_header c = hb
    /\ c_payload c ++ protected_area c ++ area_bytes TLV_INFO_MAGIC (c_regular c) ++ replicate (c_padding c) 26 = rest ++ more.
Proof.
  intros (c & h & f & more & Hwf & Hf & H) -> Hlen. exists c, h, f, more. split; [exact Hwf|]. split; [exact Hf|].
  unfold container_bytes, signed in H. rewrite <- !app_assoc in H. pose proof Hwf as (Hc & _).
  apply app_inj_1 in H as [H1 H2]; [auto|congruence].
Qed.

Lemma header_done_ok v hb : header_bytes v = hb -> policy v = p ->
  match header_done v with
  | inl _ => forall c h, well_formed p c h -> c_header c <> hb
  | inr v' => exists h, header_ok hb h /\ v' = with_parsed h
      (if protected_tlv_size h =? 0 then None
       else Some (area_new Protected TLV_PROTECTED_INFO_MAGIC (Some (Z.to_nat (protected_tlv_size h))))) v
  end.
Proof.
  intros Hb Hp. unfold header_done, header_ok. rewrite Hb, Hp.
  assert (Hwf : forall c h, well_formed p c h -> c_header c = hb -> header_parse hb = inr h /\ image_size h <= max_image_size p
    /\ (Z.to_nat (protected_tlv_size h) <= MAX_PROTECTED_TLV_SIZE)%nat) by (intros c h H <-; unfold well_formed in H; tauto).
  destruct (header_parse hb) as [e|h] eqn:Eh.
  { intros c h H Hc. destruct (Hwf c h H Hc) as (? & _). discriminate. }
  rewrite Z.gtb_ltb. destruct (Z.ltb_spec (max_image_size p) (image_size h)) as [Hbig|Hfit].
  { intros c h' H Hc. destruct (Hwf c h' H Hc) as ([= <-] & ? & _). lia. }
  destruct (Nat.ltb_spec MAX_PROTECTED_TLV_SIZE (Z.to_nat (protected_tlv_size h))) as [Hbig'|Hfit'].
  { intros c h' H Hc. destruct (Hwf c h' H Hc) as ([= <-] & _ & ?). lia. }
  exists h. auto.
Qed.

Lemma position_more v x n : container_position v = Z.min u32_max (Z.of_nat x) ->
  container_position (advance n v) = Z.min u32_max (Z.of_nat (x + n)).
Proof. intros H. cbn. unfold sat_add. rewrite H. lia. Qed.

Lemma image_size_pos hb h : header_ok hb h -> Forall is_u8 hb -> Z.of_nat (length (@nil Z)) <= image_size h.
Proof. intros (H & _) Hu. destruct (header_sizes hb h H Hu). cbn. lia. Qed.

Lemma header_step v s x input : reads v s x -> (header_fill v < IMAGE_HEADER_SIZE)%nat -> input <> [] ->
  Forall is_u8 (bytes_of x ++ input) ->
  exists r, verifier_header v s input = Some r /\ outcome (bytes_of x) input r.
Proof.
  intros H Hfill Hne Hu8. pose proof (rd_phase _ _ _ H) as Hph. pose proof (rd_fill _ _ _ H) as Hf. rewrite Hf in Hfill.
  destruct Hph as [(_ & Hhead & Hprot & Hpl & Hpr & Hpe & Hre & Hpad)|[Hlen _]]; [|lia].
  destruct x as [hb pl q1 es1 f1 q2 es2 pad]. cbn in Hpl, Hpr, Hpe, Hre, Hpad, Hfill, Hf. subst pl q1 es1 q2 pad.
  destruct (rd_bytes _ _ _ H) as [Hbl Hbt]. cbn in Hbl, Hbt.
  unfold verifier_header. rewrite Hf. remember (Nat.min (IMAGE_HEADER_SIZE - length hb) (length input)) as n eqn:En.
  assert (Hn : length (take n input) = n) by now apply (length_take_min _ _ (IMAGE_HEADER_SIZE - length hb)).
  assert (Hpos : (0 < n <= length input)%nat) by (destruct input; [done|]; cbn [length] in *; lia).
  destruct (take_extend hb (header_bytes v) (take n input) Hbt) as (b' & -> & Hb' & Ht'); [lia|]. cbn [mbind option_bind].
  assert (Hlen : length (hb ++ take n input) = (length hb + n)%nat) by (rewrite length_app; lia).
  eexists. split; [reflexivity|].
  set (v1 := advance n (with_header_bytes b' (length hb + n) (take n input) v)).
  assert (Hcommon : forall v2, (v2 = v1 \/ exists h a, v2 = with_parsed h a v1) ->
    phase v2 (mkParts (hb ++ take n input) [] [] [] f1 [] es2 []) ->
    reads v2 s (mkParts (hb ++ take n input) [] [] [] f1 [] es2 [])).
  { intros v2 Hv2 Hph2. destruct H. cbn [p_header p_payload p_prot p_prot_entries p_prot_found p_reg p_reg_entries p_pad] in *.
    assert (Hpos2 : container_position v1 = Z.min u32_max (Z.of_nat (length (hb ++ take n input)))).
    { unfold v1. rewrite Hlen. apply position_more. cbn. rewrite app_nil_r in rd_position0. exact rd_position0. }
    assert (Hhs : hasher v1 = hb ++ take n input) by (cbn; rewrite rd_hasher0, app_nil_r; reflexivity).
    destruct Hv2 as [->|(h & a & ->)]; constructor; cbn [p_header p_payload p_prot p_prot_entries p_prot_found p_reg p_reg_entries p_pad];
      rewrite ?app_nil_r; try assumption; try (split; [cbn; lia|exact Ht']); try exact Hpos2; try exact Hhs; cbn; auto; now rewrite Hlen. }
  assert (Hu : Forall is_u8 (hb ++ take n input)).
  { apply Forall_app in Hu8 as [Hu1 Hu2]. apply Forall_app in Hu1 as [Hu1 _]. apply Forall_app. split; [exact Hu1|now apply Forall_take]. }
  change (header_fill v1) with (length hb + n)%nat.
  destruct (Nat.eqb_spec (length hb + n) IMAGE_HEADER_SIZE) as [E32|N32].
  - assert (Hb1 : header_bytes v1 = hb ++ take n input).
    { change (header_bytes v1) with b'. rewrite <- Ht'. symmetry. apply take_ge. lia. }
    pose proof (header_done_ok v1 _ Hb1 (rd_policy _ _ _ H)) as Hdone.
    destruct (header_done v1) as [e|v2].
    + intros Hc. apply (continues_header _ (hb ++ take n input) (drop n input)) in Hc as (c & h & f & more & Hwf & _ & Hh & _);
        [exact (Hdone c h Hwf Hh)| |lia].
      cbn. now rewrite app_nil_r, <- app_assoc, take_drop.
    + destruct Hdone as (h & Hok & ->). split; [rewrite length_drop; lia|].
      eexists. split; [apply Hcommon; [right; eauto|]|].
      * right. cbn [p_header]. split; [lia|]. exists h. split; [reflexivity|]. split; [exact Hok|].
        cbn [p_payload p_prot p_prot_entries p_reg p_pad protected with_parsed]. split; [apply (image_size_pos _ h Hok Hu)|].
        split; [auto|]. destruct (Z.eqb_spec (protected_tlv_size h) 0) as [E0|N0]; [auto|].
        split; [exact N0|]. split; [apply area_at_new|auto].
      * cbn. now rewrite !app_nil_r, <- app_assoc, take_drop.
  - split; [rewrite length_drop; lia|]. eexists. split; [apply Hcommon; [now left|]|].
    + left. cbn. split_and!; auto; lia.
    + cbn. now rewrite !app_nil_r, <- app_assoc, take_drop.
Qed.

Ltac parts_cbn := cbn [p_header p_payload p_prot p_prot_entries p_prot_found p_reg p_reg_entries p_pad] in *.

Lemma payload_step v s x h input : reads v s x -> length (p_header x) = IMAGE_HEADER_SIZE -> header v = Some h ->
  payload_offset v < image_size h -> input <> [] -> outcome (bytes_of x) input (verifier_payload write v h s input).
Proof.
  intros H Hlen Hh Hoff Hne. pose proof (rd_phase _ _ _ H) as [[Hlt _]|(_ & h' & Hh' & Hok & Hle & Hnone & Hprot)]; [lia|].
  rewrite Hh in Hh'. injection Hh' as <-. rewrite (rd_offset _ _ _ H) in Hoff. destruct (Hnone Hoff) as (Hq1 & Hq2 & Hpad).
  destruct x as [hb pl q1 es1 f1 q2 es2 pad]. parts_cbn. subst q1 q2 pad.
  unfold verifier_payload. rewrite (rd_offset _ _ _ H). parts_cbn.
  remember (Z.to_nat (Z.min (image_size h - Z.of_nat (length pl)) (Z.of_nat (length input)))) as n eqn:En.
  assert (Hpos : (0 < n <= length input)%nat) by (destruct input; [done|]; cbn [length] in *; lia).
  assert (Hn : length (take n input) = n) by (rewrite length_take; lia).
  assert (Hlenpl : length (pl ++ take n input) = (length pl + n)%nat) by (rewrite length_app; lia).
  pose proof (stored_more pl s (take n input)) as Hst.
  destruct (write s (Z.of_nat (length pl)) (take n input)) as [s' [e|]] eqn:Ew; [do 4 eexists; exact Ew|].
  split; [rewrite length_drop; lia|]. exists (mkParts hb (pl ++ take n input) [] es1 f1 [] es2 []).
  split; [|unfold bytes_of; cbn; now rewrite !app_nil_r, <- !app_assoc, take_drop].
  destruct H. constructor; parts_cbn; try assumption.
  - right. split; [exact Hlen|]. exists h. split; [exact Hh|]. split; [exact Hok|]. parts_cbn. split; [lia|]. split; [auto|].
    exact Hprot.
  - cbn. lia.
  - cbn. rewrite rd_hasher0, !app_nil_r, <- app_assoc. reflexivity.
  - apply (position_more (with_payload (Z.of_nat (length pl) + Z.of_nat n) (take n input) v) (length (hb ++ pl ++ [] ++ [])) n) in rd_position0.
    rewrite rd_position0. do 2 f_equal. rewrite !app_nil_r, !length_app. lia.
  - exact (Hst s' rd_stored0 eq_refl).
Qed.

(** The areas of a container that goes on. *)
Lemma continues_areas x rest h : length (p_header x) = IMAGE_HEADER_SIZE -> header_ok (p_header x) h ->
  Z.of_nat (length (p_payload x)) = image_size h -> continues (bytes_of x ++ rest) ->
  exists c f more, well_formed p c h /\ found_in (default [] (c_protected c)) (c_regular c) f
    /\ protected_area c ++ area_bytes TLV_INFO_MAGIC (c_regular c) ++ replicate (c_padding c) 26
       = p_prot x ++ p_reg x ++ p_pad x ++ rest ++ more.
Proof.
  intros Hlen (Hok & _) Hpl H.
  apply (continues_header _ (p_header x) (p_payload x ++ p_prot x ++ p_reg x ++ p_pad x ++ rest)) in H
    as (c & h' & f & more & Hwf & Hf & Hc & H); [|unfold bytes_of; now rewrite <- !app_assoc|exact Hlen].
  pose proof Hwf as (_ & Hh & Hpl' & _). rewrite Hc, Hok in Hh. injection Hh as <-.
  rewrite <- !app_assoc in H. apply app_inj_1 in H as [_ H]; [|lia]. exists c, f, more. auto.
Qed.

Lemma area_bound a q es T : area_at Protected TLV_PROTECTED_INFO_MAGIC (Some T) a q es -> (4 <= T)%nat ->
  area_is_complete a = false -> (length q < T)%nat.
Proof.
  intros H HT Hinc. unfold area_is_complete in Hinc. apply bool_decide_eq_false in Hinc.
  destruct H; cbn [total consumed] in Hinc; try lia; match goal with Hs : size_ok _ _ |- _ => destruct Hs as (_ & _ & Hs) end; [|lia].
  destruct (decide (length q = T)) as [He|]; [|lia]. exfalso. apply Hinc. f_equal. lia.
Qed.

Lemma magic_u16 : is_u16 TLV_PROTECTED_INFO_MAGIC /\ is_u16 TLV_INFO_MAGIC.
Proof. unfold is_u16, u16_max, TLV_PROTECTED_INFO_MAGIC, TLV_INFO_MAGIC. lia. Qed.

Lemma protected_step v s x h a input : reads v s x -> length (p_header x) = IMAGE_HEADER_SIZE -> header v = Some h ->
  image_size h <= payload_offset v -> protected v = Some a -> area_is_complete a = false -> input <> [] ->
  Forall is_u8 (bytes_of x ++ input) ->
  exists r, verifier_protected (E:=E) v h a s input = Some r /\ outcome (bytes_of x) input r.
Proof.
  intros H Hlen Hh Hoff Hpa Hinc Hne Hu8. rewrite (rd_offset _ _ _ H) in Hoff.
  pose proof (rd_phase _ _ _ H) as [[Hlt _]|(_ & h' & Hh' & Hok & Hle & _ & Hprot)]; [lia|].
  rewrite Hh in Hh'. injection Hh' as <-. rewrite Hpa in Hprot. destruct Hprot as (Hnz & Ha & Hnone).
  destruct (Hnone Hinc) as [Hq2 Hpad]. assert (Hpl : Z.of_nat (length (p_payload x)) = image_size h) by lia.
  assert (Hsize : (4 <= Z.to_nat (protected_tlv_size h) <= 64)%nat).
  { destruct Hok as (Hparse & _ & H64). unfold bytes_of in Hu8. apply Forall_app in Hu8 as [Hu8 _].
    apply Forall_app in Hu8 as [Hu8 _]. destruct (header_sizes _ h Hparse Hu8) as (_ & H4 & _).
    unfold MAX_PROTECTED_TLV_SIZE in H64. lia. }
  set (T := Z.to_nat (protected_tlv_size h)) in *. pose proof (area_bound a _ _ T Ha ltac:(lia) Hinc) as Hbound.
  unfold verifier_protected. fold T. rewrite (area_at_consumed _ _ _ _ _ _ Ha), usize_sub_ok by lia.
  cbn [mbind option_bind]. remember (Nat.min (T - length (p_prot x)) (length input)) as n eqn:En.
  assert (Hn : length (take n input) = n) by now apply (length_take_min _ _ (T - length (p_prot x))).
  assert (Hbuf : exists b, copy_at (protected_bytes v) (protected_fill v) (take n input) = Some b
    /\ b = (p_prot x ++ take n input) ++ replicate (MAX_PROTECTED_TLV_SIZE - length (p_prot x ++ take n input)) 0).
  { unfold copy_at. rewrite (rd_protected _ _ _ H), (rd_protected_fill _ _ _ H), length_app, length_replicate, Hn.
    unfold MAX_PROTECTED_TLV_SIZE. rewrite (proj2 (Nat.leb_le _ _)) by lia. eexists. split; [reflexivity|].
    rewrite length_app, Hn. replace (64 - length (p_prot x))%nat with (n + (64 - (length (p_prot x) + n)))%nat by lia.
    rewrite replicate_add, <- app_assoc. apply blit_piece; [reflexivity|]. now rewrite length_replicate, Hn. }
  destruct Hbuf as (b & -> & Hb). cbn [mbind option_bind].
  assert (Hu1 : Forall is_u8 (p_prot x)) by (unfold bytes_of in Hu8; rewrite !Forall_app in Hu8; tauto).
  assert (Hu2 : Forall is_u8 (take n input)) by (apply Forall_take; rewrite !Forall_app in Hu8; tauto).
  assert (Hx : p_reg_entries x = [] /\ p_prot_found x = found v).
  { pose proof (rd_regular _ _ _ H) as Hr. rewrite Hq2 in Hr.
    assert (p_reg_entries x = []) as He by exact (area_at_nothing _ _ _ _ _ Hr).
    split; [exact He|]. pose proof (rd_found2 _ _ _ H) as Hf. rewrite He in Hf. now injection Hf. }
  destruct Hx as [Hes2 Hf1].
  destruct (area_feed_spec Protected TLV_PROTECTED_INFO_MAGIC (Some T) (proj1 magic_u16) a (p_prot x) (p_prot_entries x)
    (take n input) found_default (found v) Ha Hu1 Hu2) as (a' & f' & r & Hfeed & Hr).
  { rewrite <- Hf1. exact (rd_found1 _ _ _ H). }
  cbn [found with_protected_bytes]. rewrite Hfeed. cbn [mbind option_bind]. destruct r as [e|taken].
  - eexists. split; [reflexivity|]. intros Hc.
    apply (continues_areas x input h Hlen Hok Hpl) in Hc as (c & f & more & Hwf & Hf & Heq).
    rewrite Hq2, Hpad in Heq. cbn [app] in Heq.
    destruct Hwf as (_ & _ & _ & _ & _ & Hcp & _). unfold protected_area in Heq.
    destruct (c_protected c) as [es|]; [|contradiction]. destruct Hcp as [_ Hcp].
    apply record_found in Hf. cbn [default from_option id] in Hf.
    rewrite (Hr es (area_bytes TLV_INFO_MAGIC (c_regular c) ++ replicate (c_padding c) 26) (drop n input ++ more) Hcp) in Hf;
      [discriminate|]. rewrite Heq. f_equal. now rewrite (app_assoc (take n input)), take_drop.
  - destruct Hr as (es' & Htaken & Ha' & Hf' & Hend & _).
    assert (taken = n) as ->.
    { destruct Hend as [->|Hcomp]; [exact Hn|].
      destruct (area_at_complete _ _ _ _ _ _ Ha' Hcomp) as [Hq (_ & _ & HT)].
      apply (f_equal length) in Hq. rewrite length_app, length_take in Hq.
      assert (length (area_bytes TLV_PROTECTED_INFO_MAGIC es') = area_size es') as Hl
        by apply length_opening.
      clear - Hq Hl HT Htaken Hn En Hbound. lia. }
    rewrite Nat.eqb_refl. eexists. split; [reflexivity|].
    split; [rewrite length_drop; destruct input; [done|]; cbn [length] in *; lia|].
    exists (mkParts (p_header x) (p_payload x) (p_prot x ++ take n input) es' f' [] [] []).
    split; [|unfold bytes_of; cbn; rewrite Hq2, Hpad, !app_nil_r, <- !app_assoc, take_drop; reflexivity].
    rewrite firstn_all2 in Ha' by lia.
    destruct H. parts_cbn. constructor; parts_cbn; try assumption.
    + right. split; [exact Hlen|]. exists h. split; [exact Hh|]. split; [exact Hok|]. parts_cbn. split; [lia|].
      split; [lia|]. cbn. split; [exact Hnz|]. split; [exact Ha'|auto].
    + cbn. rewrite Hq2 in rd_regular0. rewrite Hes2 in rd_regular0. exact rd_regular0.
    + split; [constructor|reflexivity].
    + reflexivity.
    + cbn. rewrite rd_hasher0, <- !app_assoc. reflexivity.
    + cbn. rewrite rd_protected_fill0, length_app, Hn. reflexivity.
    + apply (position_more (with_protected a' f' (with_protected_bytes b (protected_fill v + n) (take n input) v))) with (n := n)
        in rd_position0. rewrite rd_position0. do 2 f_equal. rewrite Hq2, !app_nil_r, !length_app. lia.
Qed.

(** The protected area has been read to its end. *)
Definition protected_done (v : StreamingVerifier) : Prop :=
  match protected v with None => True | Some a => area_is_complete a = true end.

Lemma continues_regular v s x h rest : reads v s x -> length (p_header x) = IMAGE_HEADER_SIZE -> header v = Some h ->
  image_size h <= payload_offset v -> protected_done v -> continues (bytes_of x ++ rest) ->
  exists c f more, well_formed p c h /\ area_ok None (c_regular c) /\ default [] (c_protected c) = p_prot_entries x
    /\ record_all Regular (p_prot_found x) (c_regular c) = Some f /\ protected_area c = p_prot x
    /\ area_bytes TLV_INFO_MAGIC (c_regular c) ++ replicate (c_padding c) 26 = p_reg x ++ p_pad x ++ rest ++ more.
Proof.
  intros H Hlen Hh Hoff Hdone Hc. rewrite (rd_offset _ _ _ H) in Hoff.
  pose proof (rd_phase _ _ _ H) as [[Hlt _]|(_ & h' & Hh' & Hok & Hle & _ & Hprot)]; [lia|].
  rewrite Hh in Hh'. injection Hh' as <-.
  apply (continues_areas x rest h Hlen Hok ltac:(lia)) in Hc as (c & f & more & Hwf & Hf & Heq).
  assert (Hpa : default [] (c_protected c) = p_prot_entries x /\ protected_area c = p_prot x
    /\ area_bytes TLV_INFO_MAGIC (c_regular c) ++ replicate (c_padding c) 26 = p_reg x ++ p_pad x ++ rest ++ more).
  { pose proof Hwf as (_ & _ & _ & _ & _ & Hcp & _). unfold protected_area in *. unfold protected_done in Hdone.
    destruct (protected v) as [a|].
    - destruct Hprot as (Hnz & Ha & _). destruct (area_at_complete _ _ _ _ _ _ Ha Hdone) as [Hq Hes].
      destruct (c_protected c) as [es|]; [|contradiction]. destruct Hcp as [_ Hcp].
      rewrite Hq in Heq. apply (area_bytes_inj _ _ _ _ _ _ _ (proj1 magic_u16) Hcp Hes) in Heq as [-> Heq].
      split_and!; auto.
    - destruct Hprot as (Hz & Hq & He). destruct (c_protected c) as [es|]; [destruct Hcp; contradiction|].
      rewrite Hq in *. rewrite He. split_and!; auto. }
  destruct Hpa as (Hpe & Hpa & Hrest). exists c, f, more. split_and!; try assumption; [now destruct Hwf as (_ & _ & _ & _ & _ & _ & ?)|].
  apply record_found in Hf. rewrite Hpe, (rd_found1 _ _ _ H) in Hf. exact Hf.
Qed.

Lemma regular_step v s x h input : reads v s x -> length (p_header x) = IMAGE_HEADER_SIZE -> header v = Some h ->
  image_size h <= payload_offset v -> protected_done v -> complete v = false -> input <> [] ->
  Forall is_u8 (bytes_of x ++ input) ->
  exists r, verifier_regular (E:=E) v s input = Some r /\ outcome (bytes_of x) input r.
Proof.
  intros H Hlen Hh Hoff Hdone Hinc Hne Hu8.
  assert (Hpad : p_pad x = []) by (apply (rd_pad _ _ _ H); exact Hinc).
  pose proof (rd_complete _ _ _ H) as Hcomp. rewrite Hinc in Hcomp. symmetry in Hcomp.
  assert (Hu1 : Forall is_u8 (p_reg x)) by (unfold bytes_of in Hu8; rewrite !Forall_app in Hu8; tauto).
  assert (Hu2 : Forall is_u8 input) by (rewrite !Forall_app in Hu8; tauto).
  destruct (area_feed_spec Regular TLV_INFO_MAGIC None (proj2 magic_u16) (regular v) (p_reg x) (p_reg_entries x)
    input (p_prot_found x) (found v) (rd_regular _ _ _ H) Hu1 Hu2 (rd_found2 _ _ _ H)) as (a' & f' & r & Hfeed & Hr).
  unfold verifier_regular. rewrite Hfeed. cbn [mbind option_bind]. eexists. split; [reflexivity|]. destruct r as [e|taken].
  - intros Hc. apply (continues_regular v s x h input H Hlen Hh Hoff Hdone) in Hc
      as (c & f & more & _ & Hreg & _ & Hrec & _ & Heq).
    rewrite Hpad in Heq. cbn [app] in Heq. rewrite (Hr (c_regular c) _ more Hreg Heq) in Hrec. discriminate.
  - destruct Hr as (es' & Htaken & Ha' & Hf' & _ & Hpos). specialize (Hpos Hcomp Hne).
    destruct taken as [|t]; [lia|]. remember (Datatypes.S t) as taken.
    set (v1 := advance taken (with_regular a' f' v)).
    assert (Hreads : forall v2, (v2 = v1 /\ area_is_complete a' = false) \/ (v2 = with_complete v1 /\ area_is_complete a' = true) ->
      reads v2 s (mkParts (p_header x) (p_payload x) (p_prot x) (p_prot_entries x) (p_prot_found x)
        (p_reg x ++ take taken input) es' [])).
    { intros v2 Hv2. assert (Hposn : container_position v1
        = Z.min u32_max (Z.of_nat (length (p_header x ++ p_payload x ++ p_prot x ++ p_reg x ++ take taken input)))).
      { unfold v1. rewrite (position_more (with_regular a' f' v) _ taken (rd_position _ _ _ H)).
        do 2 f_equal. rewrite !length_app, length_take. lia. }
      assert (Hphase : phase v1 (mkParts (p_header x) (p_payload x) (p_prot x) (p_prot_entries x) (p_prot_found x)
        (p_reg x ++ take taken input) es' [])).
      { rewrite (rd_offset _ _ _ H) in Hoff.
        pose proof (rd_phase _ _ _ H) as [[Hlt _]|(_ & h' & Hh' & Hok & Hle & Hshort & Hprot)]; [lia|].
        rewrite Hh in Hh'. injection Hh' as <-. right. split; [exact Hlen|]. exists h. split; [exact Hh|]. split; [exact Hok|].
        parts_cbn. split; [exact Hle|]. split; [lia|]. cbn. unfold protected_done in Hdone. destruct (protected v); [|exact Hprot].
        destruct Hprot as (? & ? & _). split_and!; auto; congruence. }
      destruct H. parts_cbn. destruct Hv2 as [[-> Hca]|[-> Hca]]; constructor; parts_cbn; try assumption;
        try (split; [constructor|reflexivity]); try (cbn; congruence); auto. }
    destruct (area_is_complete a') eqn:Eca.
    + split; [rewrite length_drop; lia|]. eexists. split; [apply Hreads; right; auto|].
      unfold bytes_of. parts_cbn. rewrite Hpad, !app_nil_r, <- !app_assoc, take_drop. reflexivity.
    + split; [rewrite length_drop; lia|]. eexists. split; [apply Hreads; left; auto|].
      unfold bytes_of. parts_cbn. rewrite Hpad, !app_nil_r, <- !app_assoc, take_drop. reflexivity.
Qed.

Lemma complete_done v s x : reads v s x -> complete v = true -> length (p_header x) = IMAGE_HEADER_SIZE
  /\ exists h, header v = Some h /\ header_ok (p_header x) h /\ image_size h <= payload_offset v
    /\ Z.of_nat (length (p_payload x)) = image_size h /\ protected_done v
    /\ p_reg x = area_bytes TLV_INFO_MAGIC (p_reg_entries x) /\ area_ok None (p_reg_entries x).
Proof.
  intros H Hc. rewrite (rd_complete _ _ _ H) in Hc. destruct (area_at_complete _ _ _ _ _ _ (rd_regular _ _ _ H) Hc) as [Hq Hok].
  assert (Hne : p_reg x <> []) by (rewrite Hq; discriminate).
  pose proof (rd_phase _ _ _ H) as [(_ & _ & _ & _ & _ & _ & Hr & _)|(Hlen & h & Hh & Hhok & Hle & Hshort & Hprot)]; [contradiction|].
  split; [exact Hlen|]. exists h. rewrite (rd_offset _ _ _ H).
  destruct (Z.lt_ge_cases (Z.of_nat (length (p_payload x))) (image_size h)) as [Hlt|Hge];
    [now destruct (Hshort Hlt) as (_ & ? & _)|].
  split_and!; auto; [lia|]. unfold protected_done. destruct (protected v) as [a|]; [|exact I].
  destruct Hprot as (_ & _ & Hinc). destruct (area_is_complete a); [reflexivity|]. now destruct (Hinc eq_refl).
Qed.

Lemma padding_step v s x input : reads v s x -> complete v = true -> input <> [] ->
  outcome (bytes_of x) input
    (v, s, if existsb (fun byte => negb (byte =? 26)) input then inl (FeedImage InvalidPadding) else inr []).
Proof.
  intros H Hc Hne. destruct (complete_done v s x H Hc) as (Hlen & h & Hh & Hok & Hoff & Hpl & Hdone & Hq & Hreg).
  assert (Hpadding : existsb (fun byte => negb (byte =? 26)) input = false <-> Forall (fun b => b = 26) input).
  { rewrite Forall_forall. split.
    - intros He b Hb. destruct (Z.eqb_spec b 26) as [Hb'|Hb']; [exact Hb'|]. exfalso.
      apply Bool.not_true_iff_false in He. apply He, existsb_exists. exists b.
      split; [now apply list_elem_of_In|]. now rewrite (proj2 (Z.eqb_neq _ _) Hb').
    - intros Hall. apply Bool.not_true_iff_false. intros He. apply existsb_exists in He as (b & Hb & Hn).
      rewrite (Hall b) in Hn by now apply list_elem_of_In. discriminate. }
  destruct (existsb _ input) eqn:Ee.
  - intros Hcont. apply (continues_regular v s x h input H Hlen Hh Hoff Hdone) in Hcont
      as (c & f & more & _ & Hreg' & _ & _ & _ & Heq).
    rewrite Hq in Heq. apply (area_bytes_inj _ _ _ _ _ _ _ (proj2 magic_u16) Hreg' Hreg) in Heq as [_ Heq].
    enough (Forall (fun b => b = 26) input) as Hall by (apply Hpadding in Hall; congruence).
    assert (Hrep : Forall (fun b => b = 26) (replicate (c_padding c) 26)) by (apply Forall_forall; intros b Hb; now apply elem_of_replicate in Hb).
    rewrite Heq, !Forall_app in Hrep. tauto.
  - split; [destruct input; [done|cbn; lia]|].
    exists (mkParts (p_header x) (p_payload x) (p_prot x) (p_prot_entries x) (p_prot_found x) (p_reg x) (p_reg_entries x) (p_pad x ++ input)).
    split; [|unfold bytes_of; parts_cbn; now rewrite app_nil_r, <- !app_assoc].
    destruct H. constructor; parts_cbn; try assumption.
    + destruct rd_phase0 as [(Hlt & _)|(_ & h' & Hh' & Hok' & Hle & Hshort & Hprot)]; [lia|]. right. split; [exact Hlen|].
      exists h'. split; [exact Hh'|]. split; [exact Hok'|]. parts_cbn. rewrite Hh in Hh'. injection Hh' as <-. split; [exact Hle|].
      split; [lia|]. unfold protected_done in Hdone. destruct (protected v); [|exact Hprot].
      destruct Hprot as (? & ? & _). split_and!; auto; congruence.
    + split; [apply Forall_app; split; [tauto|now apply Hpadding]|congruence].
Qed.

(** Every pass keeps track of the parts read, or no acceptable container goes on so. *)
Lemma step_ok v s x input : reads v s x -> input <> [] -> Forall is_u8 (bytes_of x ++ input) ->
  exists r, verifier_step write v s input = Some r /\ outcome (bytes_of x) input r.
Proof.
  intros H Hne Hu8. unfold verifier_step. destruct (complete v) eqn:Ec.
  { eexists. split; [reflexivity|]. now apply padding_step. }
  destruct (Nat.ltb_spec (header_fill v) IMAGE_HEADER_SIZE) as [Hlt|Hge]; [now apply header_step|].
  rewrite (rd_fill _ _ _ H) in Hge.
  pose proof (rd_phase _ _ _ H) as [[Hlt _]|(Hlen & h & Hh & _)]; [lia|]. rewrite Hh.
  destruct (Z.ltb_spec (payload_offset v) (image_size h)) as [Hlt|Hdone].
  { eexists. split; [reflexivity|]. now apply payload_step. }
  destruct (protected v) as [a|] eqn:Ep.
  - destruct (area_is_complete a) eqn:Ea.
    + apply (regular_step v s x h); try assumption. unfold protected_done. now rewrite Ep.
    + now apply protected_step.
  - apply (regular_step v s x h); try assumption. unfold protected_done. now rewrite Ep.
Qed.

(** The pieces: all of them are read, or an error is final. *)
Definition pieces_outcome (b input : list Z) (r : StreamingVerifier * S * option (FeedError E)) : Prop :=
  let '(v, s, e) := r in
  match e with
  | Some (FeedImage _) => ~ continues (b ++ input)
  | Some (FeedSink e) => exists s offset bytes s', write s offset bytes = (s', Some e)
  | None => exists x, reads v s x /\ bytes_of x = b ++ input
  end.

Lemma continues_less b more : continues (b ++ more) -> continues b.
Proof. intros (c & h & f & rest & H1 & H2 & H3). exists c, h, f, (more ++ rest). rewrite app_assoc. auto. Qed.

Lemma loop_ok fuel : forall v s x input, reads v s x -> (length input <= fuel)%nat -> Forall is_u8 (bytes_of x ++ input) ->
  exists r, verifier_loop write fuel v s input = Some r /\ pieces_outcome (bytes_of x) input r.
Proof.
  induction fuel as [|fuel IH]; intros v s x input H Hl Hu8.
  all: destruct input as [|b input]; [eexists; split; [reflexivity|]; exists x; now rewrite app_nil_r|].
  - cbn in Hl. lia.
  - cbn [verifier_loop]. destruct (step_ok v s x (b :: input) H ltac:(discriminate) Hu8) as ([[v1 s1] r] & -> & Hout).
    cbn [mbind option_bind]. destruct r as [e|rest]; [eexists; split; [reflexivity|]; destruct e; exact Hout|].
    destruct Hout as (Hless & x1 & H1 & Hb). rewrite <- Hb in Hu8.
    destruct (IH v1 s1 x1 rest H1 ltac:(lia) Hu8) as (r & -> & Hr). exists r. split; [reflexivity|].
    destruct r as [[v2 s2] [[e|e]|]]; cbn [pieces_outcome] in *; [now rewrite <- Hb|exact Hr|].
    destruct Hr as (x2 & H2 & Hb2). exists x2. split; [exact H2|]. now rewrite Hb2.
Qed.

Lemma feed_all_ok chunks : forall v s x, reads v s x -> Forall is_u8 (bytes_of x ++ concat chunks) ->
  exists r, feed_all write chunks v s = Some r /\ pieces_outcome (bytes_of x) (concat chunks) r.
Proof.
  induction chunks as [|chunk chunks IH]; intros v s x H Hu8; cbn [feed_all concat] in *.
  - eexists. split; [reflexivity|]. exists x. now rewrite app_nil_r.
  - unfold feed. rewrite app_assoc in Hu8. pose proof Hu8 as Hu1. apply Forall_app in Hu1 as [Hu1 _].
    destruct (loop_ok (length chunk) v s x chunk H (le_n _) Hu1) as ([[v1 s1] e] & -> & Hr). cbn [mbind option_bind].
    destruct e as [[e|e]|].
    + eexists. split; [reflexivity|]. cbn. intros Hc. rewrite app_assoc in Hc. exact (Hr (continues_less _ _ Hc)).
    + eexists. split; [reflexivity|]. exact Hr.
    + destruct Hr as (x1 & H1 & Hb). rewrite <- Hb in Hu8. destruct (IH v1 s1 x1 H1 Hu8) as (r & -> & Hr). exists r.
      split; [reflexivity|]. rewrite Hb in Hr. unfold pieces_outcome in *. destruct r as [[v2 s2] [[e|e]|]];
        [now rewrite app_assoc|exact Hr|now rewrite app_assoc].
Qed.

(** ** Acceptance *)

(** The image is authentic, for this product, and not older than allowed. *)
Definition accepts (c : Container) (h : ImageHeader) (f : FoundTlvs) : Prop :=
  well_formed p c h /\ found_in (default [] (c_protected c)) (c_regular c) f
  /\ pure_signature f = false /\ key_hash f = Some (sha256 (ED25519_SPKI_PREFIX ++ key))
  /\ found_sha256 f = Some (sha256 (signed c))
  /\ (exists sig, signature f = Some sig /\ verify_strict key (sha256 (signed c)) sig = true)
  /\ match expected_vid p with None => True | Some v => found_vid f = Some v end
  /\ found_cid f = Some (expected_cid p)
  /\ semver_is_older_than (version h) (min_version p) = false.

(** What the verifier reports of it. *)
Definition image_of (c : Container) (h : ImageHeader) (f : FoundTlvs) : VerifiedImage :=
  mkVerified h (sha256 (signed c)) (found_vid f) (expected_cid p)
    (Z.min u32_max (Z.of_nat (length (signed c ++ area_bytes TLV_INFO_MAGIC (c_regular c)))))
    (c_header c) (protected_area c ++ replicate (MAX_PROTECTED_TLV_SIZE - length (protected_area c)) 0)
    (protected_tlv_size h).

Lemma finish_inr v img : expected_key_hash v = sha256 (ED25519_SPKI_PREFIX ++ key) -> public_key v = key -> policy v = p ->
  (finish verify_strict sha256 v = inr img <-> complete v = true /\ exists h, header v = Some h
    /\ pure_signature (found v) = false /\ key_hash (found v) = Some (sha256 (ED25519_SPKI_PREFIX ++ key))
    /\ found_sha256 (found v) = Some (sha256 (hasher v))
    /\ (exists sig, signature (found v) = Some sig /\ verify_strict key (sha256 (hasher v)) sig = true)
    /\ match expected_vid p with None => True | Some w => found_vid (found v) = Some w end
    /\ found_cid (found v) = Some (expected_cid p)
    /\ semver_is_older_than (version h) (min_version p) = false
    /\ img = mkVerified h (sha256 (hasher v)) (found_vid (found v)) (expected_cid p) (container_position v) (header_bytes v)
               (protected_bytes v) (protected_tlv_size h)).
Proof.
  intros Hk Hkey Hp. unfold finish. rewrite Hk, Hkey, Hp. split.
  - destruct (complete v); [|discriminate]. cbn [negb]. destruct (pure_signature (found v)); [discriminate|].
    destruct (header v) as [h|]; [|discriminate]. cbn [need]. destruct (found_sha256 (found v)) as [d|]; [|discriminate]. cbn [need].
    destruct (key_hash (found v)) as [kh|]; [|discriminate]. cbn [need].
    destruct (signature (found v)) as [sig|]; [|discriminate]. cbn [need].
    case_bool_decide as E1; [|discriminate]. cbn [negb]. case_bool_decide as E2; [|discriminate]. cbn [negb].
    destruct (verify_strict key (sha256 (hasher v)) sig) eqn:E3; [|discriminate]. cbn [negb]. subst kh d.
    destruct (match expected_vid p with None => None | _ => _ end) as [e|] eqn:E4; [discriminate|].
    destruct (found_cid (found v)) as [cid|]; [|discriminate]. cbn [need].
    case_bool_decide as E5; [|discriminate]. cbn [negb]. destruct (semver_is_older_than _ _) eqn:E6; [discriminate|].
    intros [= <-]. subst cid. split; [reflexivity|]. exists h. split_and!; eauto.
    destruct (expected_vid p) as [w|]; [|exact I]. destruct (found_vid (found v)); [|discriminate].
    case_bool_decide; [congruence|discriminate].
  - intros (-> & h & -> & -> & -> & -> & (sig & -> & Hv) & Hvid & -> & Hver & ->). cbn [negb need].
    rewrite !bool_decide_eq_true_2 by reflexivity. rewrite Hv. cbn [negb].
    destruct (expected_vid p) as [w|]; [rewrite Hvid|]; rewrite ?bool_decide_eq_true_2 by reflexivity; cbn [negb]; now rewrite Hver.
Qed.

(** A verifier that is complete has read a container. *)
Lemma complete_container v s x : reads v s x -> complete v = true -> exists c h, header v = Some h
  /\ bytes_of x = container_bytes c /\ well_formed p c h
  /\ found_in (default [] (c_protected c)) (c_regular c) (found v) /\ hasher v = signed c /\ c_payload c = p_payload x
  /\ header_bytes v = c_header c
  /\ protected_bytes v = protected_area c ++ replicate (MAX_PROTECTED_TLV_SIZE - length (protected_area c)) 0
  /\ container_position v = Z.min u32_max (Z.of_nat (length (signed c ++ area_bytes TLV_INFO_MAGIC (c_regular c)))).
Proof.
  intros H Hc. destruct (complete_done v s x H Hc) as (Hlen & h & Hh & (Hok & Hmax & H64) & Hoff & Hpl & Hdone & Hq & Hreg).
  set (c := mkContainer (p_header x) (p_payload x) ((fun _ => p_prot_entries x) <$> protected v) (p_reg_entries x) (length (p_pad x))).
  assert (Hprot : protected_area c = p_prot x /\ default [] (c_protected c) = p_prot_entries x
    /\ match c_protected c with None => protected_tlv_size h = 0
       | Some es => protected_tlv_size h <> 0 /\ area_ok (Some (Z.to_nat (protected_tlv_size h))) es end).
  { pose proof (rd_phase _ _ _ H) as [[Hlt _]|(_ & h' & Hh' & _ & _ & _ & Hprot)]; [lia|].
    rewrite Hh in Hh'. injection Hh' as <-. unfold protected_area, c, protected_done in *. cbn [c_protected].
    destruct (protected v) as [a|]; cbn.
    - destruct Hprot as (Hnz & Ha & _). destruct (area_at_complete _ _ _ _ _ _ Ha Hdone) as [Hqa Hes]. auto.
    - destruct Hprot as (Hz & Hqa & He). auto. }
  destruct Hprot as (Hpa & Hpe & Hcp). destruct (rd_bytes _ _ _ H) as [Hbl Hbt].
  assert (Hsigned : signed c = p_header x ++ p_payload x ++ p_prot x) by (change (signed c) with (p_header x ++ p_payload x ++ protected_area c); now rewrite Hpa).
  assert (Hpad : p_pad x = replicate (c_padding c) 26).
  { apply all_same. exact (proj1 (rd_pad _ _ _ H)). }
  exists c, h. split_and!; try assumption; try reflexivity.
  - unfold container_bytes, bytes_of. rewrite Hsigned, <- Hpad. change (c_regular c) with (p_reg_entries x).
    rewrite <- Hq, <- !app_assoc. reflexivity.
  - unfold well_formed. split_and!; auto.
  - apply record_found. rewrite Hpe, (rd_found1 _ _ _ H). exact (rd_found2 _ _ _ H).
  - rewrite Hsigned. exact (rd_hasher _ _ _ H).
  - cbn. rewrite <- Hbt. symmetry. apply take_ge. lia.
  - rewrite Hpa. exact (rd_protected _ _ _ H).
  - rewrite (rd_position _ _ _ H), Hsigned. change (c_regular c) with (p_reg_entries x). rewrite <- Hq, <- !app_assoc. reflexivity.
Qed.

(** A container is read one way only. *)
Lemma container_inj c c' h h' : well_formed p c h -> well_formed p c' h' -> container_bytes c = container_bytes c' -> c = c' /\ h = h'.
Proof.
  intros (Hl & Hh & Hp & _ & _ & Hcp & Hr) (Hl' & Hh' & Hp' & _ & _ & Hcp' & Hr') H.
  unfold container_bytes, signed in H. rewrite <- !app_assoc in H.
  apply app_inj_1 in H as [Hc H]; [|lia]. rewrite Hc, Hh' in Hh. injection Hh as <-.
  apply app_inj_1 in H as [Hpl H]; [|lia]. split; [|reflexivity].
  assert (Heq : c_protected c = c_protected c' /\ area_bytes TLV_INFO_MAGIC (c_regular c) ++ replicate (c_padding c) 26
    = area_bytes TLV_INFO_MAGIC (c_regular c') ++ replicate (c_padding c') 26).
  { unfold protected_area in H. destruct (c_protected c) as [es|], (c_protected c') as [es'|]; try (destruct Hcp, Hcp'; contradiction);
      try (destruct Hcp'; congruence); try (destruct Hcp; congruence).
    - destruct Hcp as [_ He], Hcp' as [_ He'].
      apply (area_bytes_inj _ _ _ _ _ _ _ (proj1 magic_u16) He He') in H as [-> H]. auto.
    - auto. }
  destruct Heq as [Hpr Hrest]. apply (area_bytes_inj _ _ _ _ _ _ _ (proj2 magic_u16) Hr Hr') in Hrest as [Hreg Hpad].
  apply (f_equal length) in Hpad. rewrite !length_replicate in Hpad. destruct c, c'. cbn in *. now subst.
Qed.

Lemma found_in_unique prot reg f f' : found_in prot reg f -> found_in prot reg f' -> f = f'.
Proof. intros H H'. apply record_found in H, H'. congruence. Qed.

(** All of an acceptable container makes the verifier complete. *)
Lemma container_completes v s x c h : reads v s x -> well_formed p c h -> bytes_of x = container_bytes c -> complete v = true.
Proof.
  intros H Hwf Hb. pose proof Hwf as (Hlen & Hh & Hpl & _ & _ & Hcp & Hreg).
  destruct (complete v) eqn:Ec; [reflexivity|]. exfalso.
  pose proof (proj2 (rd_pad _ _ _ H) Ec) as Hpad. pose proof (rd_complete _ _ _ H) as Hinc. rewrite Ec in Hinc. symmetry in Hinc.
  unfold bytes_of, container_bytes, signed in Hb. rewrite Hpad, app_nil_r, <- !app_assoc in Hb.
  pose proof (rd_phase _ _ _ H) as [(Hlt & _ & _ & E1 & E2 & _ & E3 & _)|(Hl & h' & Hh' & (Hok & _) & Hle & Hshort & Hprot)].
  { rewrite E1, E2, E3, !app_nil_r in Hb. apply (f_equal length) in Hb. rewrite length_app, Hlen in Hb. lia. }
  apply app_inj_1 in Hb as [Hhb Hb]; [|lia]. rewrite Hhb, Hh in Hok. injection Hok as <-.
  destruct (Z.lt_ge_cases (Z.of_nat (length (p_payload x))) (image_size h)) as [Hlt|Hge].
  { destruct (Hshort Hlt) as (Hq1 & Hq2 & _). rewrite Hq1, Hq2, !app_nil_r in Hb. apply (f_equal length) in Hb.
    rewrite length_app in Hb. lia. }
  apply app_inj_1 in Hb as [_ Hb]; [|lia].
  assert (Hrest : p_reg x = area_bytes TLV_INFO_MAGIC (c_regular c) ++ replicate (c_padding c) 26).
  { unfold protected_area in Hb. destruct (protected v) as [a|].
    - destruct Hprot as (Hnz & Ha & Hnone). destruct (c_protected c) as [es|]; [|contradiction]. destruct Hcp as [_ Hes].
      assert (Hdone : area_is_complete a = true).
      { destruct (area_is_complete a) eqn:Ea; [reflexivity|]. destruct (Hnone eq_refl) as [Hq2 _]. rewrite Hq2, app_nil_r in Hb.
        rewrite <- Ea. exact (area_at_full _ _ _ _ _ _ _ _ Ha Hb Hes). }
      destruct (area_at_complete _ _ _ _ _ _ Ha Hdone) as [Hq Hes1]. rewrite Hq in Hb.
      now apply (area_bytes_inj _ _ _ _ _ _ _ (proj1 magic_u16) Hes1 Hes) in Hb.
    - destruct Hprot as (Hz & Hq & _). destruct (c_protected c) as [es|]; [destruct Hcp; contradiction|]. now rewrite Hq in Hb. }
  rewrite (area_at_full _ _ _ _ _ _ _ _ (rd_regular _ _ _ H) Hrest Hreg) in Hinc. discriminate.
Qed.

Lemma reads_container v s x c h f : reads v s x -> complete v = true -> bytes_of x = container_bytes c ->
  well_formed p c h -> found_in (default [] (c_protected c)) (c_regular c) f ->
  header v = Some h /\ found v = f /\ hasher v = signed c /\ p_payload x = c_payload c /\ header_bytes v = c_header c
  /\ protected_bytes v = protected_area c ++ replicate (MAX_PROTECTED_TLV_SIZE - length (protected_area c)) 0
  /\ container_position v = Z.min u32_max (Z.of_nat (length (signed c ++ area_bytes TLV_INFO_MAGIC (c_regular c)))).
Proof.
  intros H Hc Hb Hwf Hf. destruct (complete_container v s x H Hc) as (c' & h' & Hh & Hb' & Hwf' & Hf' & Hr).
  rewrite Hb in Hb'. destruct (container_inj c c' h h' Hwf Hwf' Hb') as [<- <-].
  rewrite (found_in_unique _ _ _ _ Hf Hf'). destruct Hr as (? & ? & ? & ? & ?). auto 10.
Qed.

(** C34: the streaming verifier of firmware images neither panics nor depends on
    how the bytes are cut: when all pieces are taken and [finish] succeeds they
    were a well-formed container (header, payload, protected and other entries,
    padding) that is authentic under the key (its digest recorded and signed),
    names this vendor and component and is not older than the policy allows,
    the result describes it, and the sink holds exactly its payload; and every
    such container is accepted with that result, unless the sink itself fails. *)
Theorem verifier_accepts_exactly valid_key v0 chunks :
  verifier_new valid_key sha256 key p = inr v0 -> Forall is_u8 (concat chunks) ->
  exists v s e, feed_all write chunks v0 s0 = Some (v, s, e)
  /\ (forall img, e = None -> finish verify_strict sha256 v = inr img -> exists c h f,
        concat chunks = container_bytes c /\ accepts c h f /\ img = image_of c h f /\ stored (c_payload c) s)
  /\ (forall c h f, concat chunks = container_bytes c -> accepts c h f ->
        (e = None /\ finish verify_strict sha256 v = inr (image_of c h f)) \/ exists x, e = Some (FeedSink x)).
Proof.
  intros Hnew Hu8. pose proof (reads_new valid_key v0 Hnew) as H0.
  destruct (feed_all_ok chunks v0 s0 _ H0) as ([[v s] e] & Hfeed & Hout); [exact Hu8|].
  exists v, s, e. split; [exact Hfeed|]. cbn [bytes_of p_header p_payload p_prot p_reg p_pad app] in Hout. split.
  - intros img -> Hfin. destruct Hout as (x & H & Hb).
    apply finish_inr in Hfin; [|apply H..]. destruct Hfin as (Hc & h & Hh & Hfin).
    destruct (complete_container v s x H Hc) as (c & h' & Hh' & Hb' & Hwf & Hf & Hhs & Hpl & Hhb & Hpb & Hpos).
    rewrite Hh in Hh'. injection Hh' as <-. exists c, h, (found v). rewrite Hhs in Hfin.
    destruct Hfin as (F1 & F2 & F3 & F4 & F5 & F6 & F7 & ->).
    split; [rewrite <- Hb'; symmetry; exact Hb|]. split; [split_and!; assumption|]. split.
    + unfold image_of. now rewrite Hpos, Hhb, Hpb.
    + rewrite Hpl. exact (rd_stored _ _ _ H).
  - intros c h f Hb (Hwf & Hf & F1 & F2 & F3 & F4 & F5 & F6 & F7). destruct e as [[e|e]|]; [|right; eauto|left].
    + destruct Hout. exists c, h, f, []. rewrite app_nil_r. auto.
    + destruct Hout as (x & H & Hx). rewrite Hb in Hx. pose proof (container_completes v s x c h H Hwf Hx) as Hc.
      destruct (reads_container v s x c h f H Hc Hx Hwf Hf) as (Hh & Hfv & Hhs & _ & Hhb & Hpb & Hpos).
      split; [reflexivity|]. apply finish_inr; [apply H..|]. split; [exact Hc|]. exists h. rewrite Hfv, Hhs.
      split_and!; auto. unfold image_of. now rewrite Hpos, Hhb, Hpb.
Qed.
End Verifier.

(** ** Reading back *)

Lemma round_up n r : (0 < r)%nat -> (n <= (n + r - 1) / r * r < n + r)%nat.
Proof.
  intros Hr. pose proof (Nat.div_mod_eq (n + r - 1) r) as H. pose proof (Nat.mod_upper_bound (n + r - 1) r ltac:(lia)). lia.
Qed.

Lemma round_up_add m n r : (0 < r)%nat -> ((m * r + n + r - 1) / r * r = m * r + (n + r - 1) / r * r)%nat.
Proof. intros Hr. replace (m * r + n + r - 1)%nat with (m * r + (n + r - 1))%nat by lia. rewrite Nat.div_add_l; lia. Qed.

Section ReadBack.
Context {F R : Type} (read : F -> Z -> nat -> F * (R + list Z)) (source : F) (mem : list Z).
(** A flash slot with the contents [mem]: reads inside it fill the buffer, if
    their offset and length are multiples of the read granularity [r]. *)
Definition reads_aligned (r : nat) : Prop :=
  forall i n, ((i + n) * r <= length mem)%nat ->
    read source (Z.of_nat (i * r)) (n * r) = (source, inr (take (n * r) (drop (i * r) mem))).

Lemma read_back_ok r size : reads_aligned r -> (0 < r <= READ_BACK_CHUNK)%nat -> 0 <= size ->
  ((Z.to_nat size + r - 1) / r * r <= length mem)%nat ->
  forall fuel m absorbed offset, (Z.to_nat (size - offset) <= fuel)%nat -> 0 <= offset <= size ->
  (offset < size -> offset = Z.of_nat (m * r)) ->
  read_back read fuel r (READ_BACK_CHUNK / r * r) size offset source absorbed
  = Some (source, inr (absorbed ++ take (Z.to_nat (size - offset)) (drop (Z.to_nat offset) mem))).
Proof.
  intros Hread Hr Hsize Hmem. assert (Hchunk : (1 <= READ_BACK_CHUNK / r)%nat) by (apply Nat.div_le_lower_bound; lia).
  pose proof (Nat.Div0.mul_div_le READ_BACK_CHUNK r) as Hchunk'. rewrite Nat.mul_comm in Hchunk'.
  remember (READ_BACK_CHUNK / r)%nat as g eqn:Eg.
  induction fuel as [|fuel IH]; intros m absorbed offset Hf Ho Hm; cbn [read_back].
  { rewrite (proj2 (Z.ltb_ge _ _)) by lia. replace (size - offset) with 0 by lia. cbn. now rewrite app_nil_r. }
  destruct (Z.ltb_spec offset size) as [Hlt|Hge].
  2:{ replace (size - offset) with 0 by lia. cbn. now rewrite app_nil_r. }
  specialize (Hm Hlt). remember (Z.to_nat (Z.min (size - offset) (Z.of_nat (g * r)))) as n eqn:En.
  assert (Hn : (0 < n <= g * r)%nat) by nia.
  assert (Hlen : ((n + r - 1) / r * r <= g * r)%nat).
  { apply Nat.mul_le_mono_r. apply Nat.lt_succ_r, Nat.Div0.div_lt_upper_bound. nia. }
  rewrite (proj2 (Nat.ltb_ge _ _)) by lia.
  assert (Hup : (m * r + (n + r - 1) / r * r <= length mem)%nat).
  { rewrite <- round_up_add by lia. etransitivity; [|exact Hmem]. apply Nat.mul_le_mono_r, Nat.Div0.div_le_mono. lia. }
  pose proof (round_up n r ltac:(lia)) as Hround.
  rewrite Hm at 1. rewrite Hread by (rewrite Nat.mul_add_distr_r; lia). rewrite take_take, Nat.min_l by lia.
  replace (m * r)%nat with (Z.to_nat offset) by lia.
  rewrite (IH (m + g)%nat); [|lia|lia|lia].
  rewrite <- app_assoc. do 4 f_equal. replace (Z.to_nat (offset + Z.of_nat n)) with (Z.to_nat offset + n)%nat by lia.
  rewrite <- drop_drop, take_take_drop. f_equal. lia.
Qed.
End ReadBack.

(** C35: the check of a stored image reads the slot to the end of the image and
    passes exactly when the digest of the header, what the slot holds and the
    protected entries is the digest that was signed; with the payload in the
    slot it passes. The flash is asked only for aligned reads: an offset and a
    length that are multiples of the read granularity, inside the slot. *)
Theorem stored_image_verified verify_strict sha256 key p c h f {F R} (read : F -> Z -> nat -> F * (R + list Z))
    (READ_SIZE : nat) source mem :
  accepts verify_strict sha256 key p c h f ->
  let r := Nat.max READ_SIZE 1 in
  reads_aligned read source mem r ->
  (r <= READ_BACK_CHUNK)%nat -> ((length (c_payload c) + r - 1) / r * r <= length mem)%nat ->
  let stored := take (length (c_payload c)) mem in
  verify_stored_image sha256 READ_SIZE read source (image_of sha256 p c h f) =
    Some (source, if bool_decide (sha256 (c_header c ++ stored ++ protected_area c) = sha256 (signed c))
                  then None else Some (StoredImage StoredImageInvalid))
  /\ (stored = c_payload c ->
      verify_stored_image sha256 READ_SIZE read source (image_of sha256 p c h f) = Some (source, None)).
Proof.
  intros (Hwf & _) r Hread Hr Hmem stored. pose proof Hwf as (_ & _ & Hpl & _ & H64 & Hcp & _).
  assert (Hsize : Z.to_nat (image_size h) = length (c_payload c)) by lia.
  assert (Hprot : protected_tlv (image_of sha256 p c h f) = Some (protected_area c)).
  { unfold protected_tlv, image_of. cbn [vi_protected_tlv vi_protected_tlv_size]. apply slice_app_here.
    unfold protected_area. destruct (c_protected c) as [es|]; [|now rewrite Hcp].
    destruct Hcp as (_ & _ & _ & Hes). rewrite <- Hes. exact (length_opening TLV_PROTECTED_INFO_MAGIC (area_size es) es). }
  assert (Hmain : verify_stored_image sha256 READ_SIZE read source (image_of sha256 p c h f) =
    Some (source, if bool_decide (sha256 (c_header c ++ stored ++ protected_area c) = sha256 (signed c))
                  then None else Some (StoredImage StoredImageInvalid))).
  { unfold verify_stored_image. fold r. rewrite (proj2 (Nat.ltb_ge _ _)) by exact Hr. rewrite Hprot.
    cbn [image_of vi_header vi_header_bytes vi_digest]. cbv zeta.
    rewrite (read_back_ok read source mem r (image_size h) Hread ltac:(lia) ltac:(lia) ltac:(rewrite Hsize; exact Hmem) _ 0%nat)
      by (rewrite ?Z.sub_0_r; lia).
    cbn [mbind option_bind]. rewrite Z.sub_0_r, Hsize. cbn [Z.to_nat]. rewrite drop_0. fold stored. now rewrite <- app_assoc. }
  split; [exact Hmain|]. intros Hst. rewrite Hmain, Hst. now rewrite bool_decide_eq_true_2.
Qed.

(** ** An image *)

Definition demo_sha (l : list Z) : list Z := replicate 32 (fold_right Z.add 0 l mod 256).
Definition demo_verify (key digest sig : list Z) : bool := bool_decide (sig = digest ++ digest).
Definition demo_key : list Z := replicate 32 7.
Definition demo_policy : Policy := policy_from_raw_cid (replicate 16 9) 1000 (mkVersion 1 2 0 0).
Definition demo_header_bytes : list Z :=
  le_bytes 4 IMAGE_MAGIC ++ replicate 4 0 ++ le_bytes 2 32 ++ le_bytes 2 24 ++ le_bytes 4 3 ++ replicate 4 0
  ++ [1; 2] ++ le_bytes 2 3 ++ replicate 8 0.
Definition demo_header : ImageHeader := mkHeader 0 32 24 3 0 (mkVersion 1 2 3 0).
Definition demo_container : Container :=
  let c := mkContainer demo_header_bytes [1; 2; 3] (Some [mkTlv TLV_UUID_CID (replicate 16 9)]) [] 2 in
  let digest := demo_sha (signed c) in
  mkContainer demo_header_bytes [1; 2; 3] (Some [mkTlv TLV_UUID_CID (replicate 16 9)])
    [mkTlv TLV_KEYHASH (demo_sha (ED25519_SPKI_PREFIX ++ demo_key)); mkTlv TLV_SHA256 digest;
     mkTlv TLV_ED25519 (digest ++ digest)] 2.
Definition demo_found : FoundTlvs :=
  let digest := demo_sha (signed demo_container) in
  mkFound (Some (demo_sha (ED25519_SPKI_PREFIX ++ demo_key))) (Some digest) (Some (digest ++ digest)) None
    (Some (replicate 16 9)) false.

Lemma demo_accepts : accepts demo_verify demo_sha demo_key demo_policy demo_container demo_header demo_found.
Proof.
  assert (Hok : forall e, bool_decide (0 <= t_type e <= 65535) && bool_decide (Z.of_nat (length (t_value e)) <= 65535)
    && (length (t_value e) <=? 64)%nat = true -> entry_ok e).
  { intros e [[H1 H2]%andb_true_iff H3]%andb_true_iff. apply bool_decide_eq_true in H1, H2. apply Nat.leb_le in H3.
    split; [exact H1|]. split; [exact H2|auto]. }
  unfold accepts. split; [|split_and!; try reflexivity; try exact I].
  - unfold well_formed. split_and!; try reflexivity; try (vm_compute; congruence); try (vm_compute; lia).
    + split; [discriminate|]. split; [repeat constructor; apply Hok; reflexivity|]. split; [vm_compute; congruence|reflexivity].
    + split; [repeat constructor; apply Hok; reflexivity|]. split; [vm_compute; congruence|exact I].
  - vm_compute. split_and!; reflexivity.
  - eexists. split; reflexivity.
Qed.

(** A sink that keeps what it is given. *)
Definition demo_write (s : list (Z * list Z)) (offset : Z) (bytes : list Z) : list (Z * list Z) * option Empty_set :=
  (s ++ [(offset, bytes)], None).
Definition demo_chunks : list (list Z) :=
  let l := container_bytes demo_container in [take 10 l; take 24 (drop 10 l); drop 34 l].
Definition demo_verifier : StreamingVerifier :=
  mkVerifier demo_key (demo_sha (ED25519_SPKI_PREFIX ++ demo_key)) demo_policy (replicate IMAGE_HEADER_SIZE 0) 0 None 0 None
    (area_new Regular TLV_INFO_MAGIC None) found_default [] (replicate MAX_PROTECTED_TLV_SIZE 0) 0 0 false.

Lemma verifier_accepts_exactly_witness : exists v s,
  feed_all demo_write demo_chunks demo_verifier [] = Some (v, s, None)
  /\ finish demo_verify demo_sha v = inr (image_of demo_sha demo_policy demo_container demo_header demo_found).
Proof.
  assert (Hu8 : Forall is_u8 (concat demo_chunks)).
  { apply Forall_forall. intros b Hb. apply list_elem_of_In in Hb.
    assert (forallb (fun b => (0 <=? b) && (b <=? 255)) (concat demo_chunks) = true) as Hall by (vm_compute; reflexivity).
    rewrite forallb_forall in Hall. apply Hall, andb_true_iff in Hb as [H1%Z.leb_le H2%Z.leb_le]. now split. }
  destruct (verifier_accepts_exactly demo_verify demo_sha demo_write demo_key demo_policy [] (fun _ => true)
    demo_verifier demo_chunks eq_refl Hu8) as (v & s & e & Hfeed & _ & Hacc).
  destruct (Hacc demo_container demo_header demo_found) as [[-> Hfin]|[[] _]]; [vm_compute; reflexivity|exact demo_accepts|].
  exists v, s. split; [exact Hfeed|exact Hfin].
Defined.

(** A slot of erased flash with the payload at its start, which refuses reads
    that are not of whole words. *)
Definition demo_slot : list Z := [1; 2; 3] ++ replicate 29 255.
Definition demo_read (s : unit) (offset : Z) (len : nat) : unit * (unit + list Z) :=
  (s, if (offset mod 4 =? 0) && Nat.eqb (len mod 4) 0 then inr (take len (drop (Z.to_nat offset) demo_slot)) else inl tt).

Lemma stored_image_verified_witness :
  verify_stored_image demo_sha 4 demo_read tt (image_of demo_sha demo_policy demo_container demo_header demo_found)
  = Some (tt, None).
Proof.
  refine (proj2 (stored_image_verified demo_verify demo_sha demo_key demo_policy demo_container demo_header demo_found
    demo_read 4 tt demo_slot demo_accepts _ _ _) _).
  - intros i n _. unfold demo_read. cbn [Nat.max].
    rewrite Nat2Z.inj_mul, Z.mod_mul, Nat.Div0.mod_mul, <- Nat2Z.inj_mul, Nat2Z.id by lia. reflexivity.
  - vm_compute. lia.
  - vm_compute. lia.
  - reflexivity.
Defined.
