(* ===== verification/Dhcp.v ===== *)
(** * The DHCP server of the fallback link ([microtun-net-util/src/dhcp.rs])

    The lease table is a list of nineteen leases; a slot is an address. One
    round of the loop of [run] is [serve]: a datagram and the leases give the
    leases after it and the reply, if one is sent. The socket and the static
    cells are not modelled. Indices below 240 are read behind the length test
    of [parse_request]; the packet buffer is longer than every reply
    ([reply_shape]), so no slice of [build_reply] leaves it. *)

From S2P Require Import Prelude.
Local Open Scope nat_scope.

Definition FALLBACK_DEVICE_IPV4 : list Z := [192; 168; 7; 1]%Z.
Definition FALLBACK_DHCP_RANGE_START : list Z := [192; 168; 7; 2]%Z.
Definition FALLBACK_DHCP_RANGE_END : list Z := [192; 168; 7; 20]%Z.
Definition FALLBACK_IPV4_PREFIX_LEN : Z := 24.

Definition DHCP_CLIENT_PORT : Z := 68.
Definition DHCP_PACKET_BUFFER : nat := 600.
Definition DHCP_FIXED_HEADER_LEN : nat := 240.
Definition DHCP_MIN_REPLY_LEN : nat := 300.
Definition DHCP_LEASE_SECONDS : Z := 3600.
Definition DHCP_LEASE_CAPACITY : nat := 19.

Definition BOOTREQUEST : Z := 1.
Definition BOOTREPLY : Z := 2.
Definition ETHERNET_HTYPE : Z := 1.
Definition DHCP_MAGIC_COOKIE : list Z := [99; 130; 83; 99]%Z.
Definition OPTION_PAD : Z := 0.
Definition OPTION_SUBNET_MASK : Z := 1.
Definition OPTION_BROADCAST_ADDRESS : Z := 28.
Definition OPTION_REQUESTED_IP : Z := 50.
Definition OPTION_LEASE_TIME : Z := 51.
Definition OPTION_MESSAGE_TYPE : Z := 53.
Definition OPTION_SERVER_IDENTIFIER : Z := 54.
Definition OPTION_CLIENT_IDENTIFIER : Z := 61.
Definition OPTION_END : Z := 255.
Definition DHCP_DISCOVER : Z := 1.
Definition DHCP_OFFER : Z := 2.
Definition DHCP_REQUEST : Z := 3.
Definition DHCP_DECLINE : Z := 4.
Definition DHCP_ACK : Z := 5.
Definition DHCP_NAK : Z := 6.
Definition DHCP_RELEASE : Z := 7.

(** ** Clients and leases *)

Record ClientKey := mkKey { key_bytes : list Z; key_len : nat }.
Definition EMPTY_KEY : ClientKey := mkKey (replicate 16 0%Z) 0.

Definition from_slice (value : list Z) : ClientKey :=
  let len := length value `min` 16 in
  mkKey (blit (key_bytes EMPTY_KEY) 0 (take len value)) len.

Definition key_matches (a b : ClientKey) : bool :=
  (key_len a =? key_len b) &&
  bool_decide (take (key_len a) (key_bytes a) = take (key_len b) (key_bytes b)).

Record Lease := mkLease { in_use : bool; lease_client : ClientKey }.
Definition EMPTY_LEASE : Lease := mkLease false EMPTY_KEY.

Definition held_by (client : ClientKey) (l : Lease) : bool :=
  in_use l && key_matches (lease_client l) client.

Definition find_client_lease (leases : list Lease) (client : ClientKey) : option nat :=
  position (held_by client) leases.

Definition existing_or_allocate_lease (leases : list Lease) (client : ClientKey)
    : list Lease * option nat :=
  match find_client_lease leases client with
  | Some slot => (leases, Some slot)
  | None =>
      match position (fun l => negb (in_use l)) leases with
      | Some slot => (<[slot := mkLease true client]> leases, Some slot)
      | None => (leases, None)
      end
  end.

Definition assign_lease (leases : list Lease) (slot : nat) (client : ClientKey) : list Lease :=
  <[slot := mkLease true client]>
    ((fun l => if held_by client l then EMPTY_LEASE else l) <$> leases).

Definition release_lease (leases : list Lease) (client : ClientKey) : list Lease :=
  match find_client_lease leases client with
  | Some slot => <[slot := EMPTY_LEASE]> leases
  | None => leases
  end.

Definition decline_lease (leases : list Lease) (client : ClientKey) : list Lease :=
  match find_client_lease leases client with
  | Some slot => <[slot := mkLease true EMPTY_KEY]> leases
  | None => leases
  end.

(** The sum is an [u8]: a slot is below nineteen. *)
Definition lease_ip (slot : nat) : list Z := [192; 168; 7; 2 + Z.of_nat slot]%Z.

Definition octet (ip : list Z) (i : nat) : Z := nth i ip 0%Z.

Definition lease_slot (ip : list Z) : option nat :=
  if negb (bool_decide (take 3 ip = take 3 FALLBACK_DHCP_RANGE_START))
     || (octet ip 3 <? octet FALLBACK_DHCP_RANGE_START 3)%Z
     || (octet FALLBACK_DHCP_RANGE_END 3 <? octet ip 3)%Z
  then None
  else Some (Z.to_nat (octet ip 3 - octet FALLBACK_DHCP_RANGE_START 3)).

Definition nonzero_ipv4 (ip : list Z) : option (list Z) :=
  if decide (ip = replicate 4 0%Z) then None else Some ip.

Definition prefix_mask (prefix_len : Z) : list Z :=
  be_bytes 4 (if (prefix_len =? 0)%Z then 0 else Z.shiftl u32_max (32 - prefix_len) mod (u32_max + 1)).

(** ** Requests *)

Record Request := mkRequest {
  message_type : Z;
  req_client : ClientKey;
  requested_ip : option (list Z);
  server_identifier : option (list Z);
  ciaddr : list Z;
  htype : Z;
  hlen : Z;
  xid : list Z;
  req_flags : list Z;
  giaddr : list Z;
  chaddr : list Z }.

(** The variables the option loop sets. *)
Record Options := mkOptions {
  o_message_type : option Z;
  o_client : ClientKey;
  o_requested_ip : option (list Z);
  o_server_identifier : option (list Z) }.

(** The second [match code]. *)
Definition set_option (code : Z) (value : list Z) (o : Options) : Options :=
  let '(mkOptions ty cl ip srv) := o in
  if (code =? OPTION_MESSAGE_TYPE)%Z && (length value =? 1) then mkOptions (head value) cl ip srv
  else if (code =? OPTION_REQUESTED_IP)%Z && (length value =? 4) then mkOptions ty cl (Some value) srv
  else if (code =? OPTION_SERVER_IDENTIFIER)%Z && (length value =? 4) then mkOptions ty cl ip (Some value)
  else if (code =? OPTION_CLIENT_IDENTIFIER)%Z && negb (length value =? 0)
    then mkOptions ty (from_slice value) ip srv
  else o.

(** [while offset < packet.len()]: every round advances the offset. *)
Fixpoint option_loop (fuel : nat) (packet : list Z) (offset : nat) (o : Options) : Options :=
  match fuel with
  | 0 => o
  | S fuel =>
      match packet !! offset with
      | None => o
      | Some code =>
          if (code =? OPTION_PAD)%Z then option_loop fuel packet (offset + 1) o
          else if (code =? OPTION_END)%Z then o
          else match packet !! (offset + 1) with
               | None => o
               | Some option_len =>
                   match slice packet (offset + 2) (Z.to_nat option_len) with
                   | None => o
                   | Some value =>
                       option_loop fuel packet (offset + 2 + Z.to_nat option_len) (set_option code value o)
                   end
               end
      end
  end.

(** [packet[i]] and [packet[i..i + n]] below the fixed header's length. *)
Definition byte_at (packet : list Z) (i : nat) : Z := nth i packet 0%Z.
Definition bytes_at (packet : list Z) (i n : nat) : list Z := take n (drop i packet).

Definition parse_request (packet : list Z) : option Request :=
  if (length packet <? DHCP_FIXED_HEADER_LEN)
     || negb (byte_at packet 0 =? BOOTREQUEST)%Z
     || negb (byte_at packet 1 =? ETHERNET_HTYPE)%Z
     || (byte_at packet 2 =? 0)%Z
     || (16 <? byte_at packet 2)%Z
     || negb (bool_decide (bytes_at packet 236 4 = DHCP_MAGIC_COOKIE))
  then None
  else
    let client := from_slice (bytes_at packet 28 (Z.to_nat (byte_at packet 2))) in
    let o := option_loop (length packet) packet DHCP_FIXED_HEADER_LEN (mkOptions None client None None) in
    ty ← o_message_type o;
    Some (mkRequest ty (o_client o) (o_requested_ip o) (o_server_identifier o)
      (bytes_at packet 12 4) (byte_at packet 1) (byte_at packet 2) (bytes_at packet 4 4)
      (bytes_at packet 10 2) (bytes_at packet 24 4) (bytes_at packet 28 16)).

(** ** Replies *)

(** The packet and the offset after the option. *)
Definition push_option (packet : list Z) (offset : nat) (code : Z) (value : list Z) : list Z * nat :=
  (blit packet offset (code :: Z.of_nat (length value) :: value), offset + (length value + 2)).

Definition header_of_reply (request : Request) (size : nat) (ty : Z) (yiaddr : list Z) : list Z :=
  let reply := blit (replicate size 0%Z) 0 [BOOTREPLY; htype request; hlen request] in
  let reply := blit reply 4 (xid request) in
  let reply := blit reply 10 (req_flags request) in
  let reply := if (ty =? DHCP_ACK)%Z then blit reply 12 (ciaddr request) else reply in
  let reply := blit reply 16 yiaddr in
  let reply := blit reply 24 (giaddr request) in
  let reply := blit reply 28 (chaddr request) in
  blit reply 236 DHCP_MAGIC_COOKIE.

(** The filled buffer and the reply's length. *)
Definition build_reply (request : Request) (size : nat) (ty : Z) (yiaddr : list Z) : list Z * nat :=
  let reply := header_of_reply request size ty yiaddr in
  let '(reply, offset) := push_option reply DHCP_FIXED_HEADER_LEN OPTION_MESSAGE_TYPE [ty] in
  let '(reply, offset) := push_option reply offset OPTION_SERVER_IDENTIFIER FALLBACK_DEVICE_IPV4 in
  let '(reply, offset) :=
    if (ty =? DHCP_OFFER)%Z || (ty =? DHCP_ACK)%Z then
      let '(reply, offset) := push_option reply offset OPTION_LEASE_TIME (be_bytes 4 DHCP_LEASE_SECONDS) in
      let '(reply, offset) := push_option reply offset OPTION_SUBNET_MASK (prefix_mask FALLBACK_IPV4_PREFIX_LEN) in
      push_option reply offset OPTION_BROADCAST_ADDRESS (take 3 FALLBACK_DEVICE_IPV4 ++ [255%Z])
    else (reply, offset) in
  (blit reply offset [OPTION_END], (offset + 1) `max` DHCP_MIN_REPLY_LEN).

(** The address and port a reply goes to. *)
Definition reply_destination (request : Request) (ty : Z) : list Z * Z :=
  let ip :=
    if negb (ty =? DHCP_NAK)%Z then default (replicate 4 255%Z) (nonzero_ipv4 (ciaddr request))
    else replicate 4 255%Z in
  (ip, DHCP_CLIENT_PORT).

(** ** One datagram *)

(** The address a REQUEST asks for. *)
Definition wanted (leases : list Lease) (request : Request) : option (list Z) :=
  match requested_ip request with
  | Some ip => Some ip
  | None =>
      match nonzero_ipv4 (ciaddr request) with
      | Some ip => Some ip
      | None => lease_ip <$> find_client_lease leases (req_client request)
      end
  end.

(** The [match request.message_type]: the reply's type and address. *)
Definition answer (leases : list Lease) (request : Request) : list Lease * option (Z * list Z) :=
  let client := req_client request in
  let ty := message_type request in
  if (ty =? DHCP_DISCOVER)%Z then
    let '(leases, slot) := existing_or_allocate_lease leases client in
    (leases, (fun slot => (DHCP_OFFER, lease_ip slot)) <$> slot)
  else if (ty =? DHCP_REQUEST)%Z then
    match wanted leases request with
    | None => (leases, None)
    | Some ip =>
        match lease_slot ip with
        | Some slot =>
            let l := nth slot leases EMPTY_LEASE in
            if negb (in_use l) || key_matches (lease_client l) client
            then (assign_lease leases slot client, Some (DHCP_ACK, ip))
            else (leases, Some (DHCP_NAK, replicate 4 0%Z))
        | None => (leases, Some (DHCP_NAK, replicate 4 0%Z))
        end
    end
  else if (ty =? DHCP_RELEASE)%Z then (release_lease leases client, None)
  else if (ty =? DHCP_DECLINE)%Z then (decline_lease leases client, None)
  else (leases, None).

(** The guards of [run] before it: a relayed request and one that chose
    another server are dropped. *)
Definition accepts (request : Request) : bool :=
  bool_decide (giaddr request = replicate 4 0%Z) &&
  match server_identifier request with
  | Some server => bool_decide (server = FALLBACK_DEVICE_IPV4)
  | None => true
  end.

(** What a datagram leads to: a reply has a type and an address. *)
Record Exchange := mkExchange { ex_request : Request; ex_reply : option (Z * list Z) }.

Definition receive (leases : list Lease) (packet : list Z) : list Lease * option Exchange :=
  match parse_request packet with
  | None => (leases, None)
  | Some request =>
      if accepts request then
        let '(leases, reply) := answer leases request in
        (leases, Some (mkExchange request reply))
      else (leases, None)
  end.

(** The datagram sent for it, and where to. *)
Definition sent (x : Exchange) : option (list Z * (list Z * Z)) :=
  '(ty, yiaddr) ← ex_reply x;
  let '(buffer, len) := build_reply (ex_request x) DHCP_PACKET_BUFFER ty yiaddr in
  Some (take len buffer, reply_destination (ex_request x) ty).

(** A round of the loop. *)
Definition serve (leases : list Lease) (packet : list Z) : list Lease * option (list Z * (list Z * Z)) :=
  let '(leases, x) := receive leases packet in (leases, x ≫= sent).

Definition new_leases : list Lease := replicate DHCP_LEASE_CAPACITY EMPTY_LEASE.

(** The exchanges of a run. *)
Fixpoint receive_all (leases : list Lease) (packets : list (list Z)) : list Lease * list (option Exchange) :=
  match packets with
  | [] => (leases, [])
  | p :: packets =>
      let '(leases, x) := receive leases p in
      let '(leases, xs) := receive_all leases packets in
      (leases, x :: xs)
  end.

(** * What the DHCP server promises

    Client keys made from packets are equal when they match. The lease table
    holds a client at most once ([table_ok]). An address given to one client is
    given to another only after the first gave it up, and an offer is honoured.
    Replies have the layout [reply_layout] and parse back. *)

Local Open Scope nat_scope.

#[export] Instance ClientKey_eq_dec : EqDecision ClientKey.
Proof. solve_decision. Defined.
#[export] Instance Lease_eq_dec : EqDecision Lease.
Proof. solve_decision. Defined.

(** ** Definitions *)

Definition key_wf (k : ClientKey) : Prop :=
  length (key_bytes k) = 16 /\ key_len k <= 16 /\
  drop (key_len k) (key_bytes k) = replicate (16 - key_len k) 0%Z.

(** A client a packet names: its key is not the empty one of a free or
    declined lease. *)
Definition client_ok (k : ClientKey) : Prop := key_wf k /\ key_len k <> 0.

Definition table_ok (leases : list Lease) : Prop :=
  length leases = DHCP_LEASE_CAPACITY /\
  (forall i l, leases !! i = Some l -> key_wf (lease_client l)) /\
  (forall i j l m, leases !! i = Some l -> leases !! j = Some m ->
     in_use l = true -> in_use m = true -> lease_client l = lease_client m ->
     key_len (lease_client l) <> 0 -> i = j).

Definition packet_bytes (p : list Z) : Prop := Forall is_u8 p.

(** The exchange gave the address to its client. *)
Definition gives (x : Exchange) (ip : list Z) : Prop :=
  ex_reply x = Some (DHCP_OFFER, ip) \/ ex_reply x = Some (DHCP_ACK, ip).

(** The client gave the address up: it released its lease or was acknowledged
    another address. *)
Definition gives_up (c : ClientKey) (ip : list Z) (x : Exchange) : bool :=
  bool_decide (req_client (ex_request x) = c) &&
  ((message_type (ex_request x) =? DHCP_RELEASE)%Z ||
   match ex_reply x with
   | Some (ty, ip') => (ty =? DHCP_ACK)%Z && negb (bool_decide (ip' = ip))
   | None => false
   end).
Definition given_up_in (c : ClientKey) (ip : list Z) (x : option Exchange) : bool :=
  match x with Some x => gives_up c ip x | None => false end.

(** The slot is the client's, or was declined. *)
Definition reserved (leases : list Lease) (s : nat) (c : ClientKey) : Prop :=
  exists l, leases !! s = Some l /\ in_use l = true /\ (lease_client l = c \/ lease_client l = EMPTY_KEY).

(** The three hundred bytes of a reply. *)
Definition reply_layout (r : Request) (ty : Z) (yiaddr : list Z) : list Z :=
  let body := [53; 1; ty; 54; 4; 192; 168; 7; 1]%Z ++
    (if (ty =? DHCP_OFFER)%Z || (ty =? DHCP_ACK)%Z
     then [51; 4; 0; 0; 14; 16; 1; 4; 255; 255; 255; 0; 28; 4; 192; 168; 7; 255]%Z else []) ++ [255%Z] in
  [2%Z; htype r; hlen r; 0%Z] ++ xid r ++ [0; 0]%Z ++ req_flags r ++
  (if (ty =? DHCP_ACK)%Z then ciaddr r else replicate 4 0%Z) ++ yiaddr ++ replicate 4 0%Z ++
  giaddr r ++ chaddr r ++ replicate 192 0%Z ++ DHCP_MAGIC_COOKIE ++ body ++
  replicate (60 - length body) 0%Z.

(** ** Client keys *)

Lemma from_slice_wf v : key_wf (from_slice v).
Proof.
  unfold from_slice, key_wf. cbn [key_bytes key_len EMPTY_KEY].
  assert (Hl : length (take (length v `min` 16) v) = length v `min` 16) by (rewrite length_take; lia).
  split; [|split; [lia|]].
  - rewrite length_blit; rewrite ?length_replicate; lia.
  - unfold blit. rewrite Hl, take_0. cbn [app]. rewrite drop_app_length' by done.
    by rewrite Nat.add_0_l, drop_replicate.
Qed.

Lemma from_slice_len v : key_len (from_slice v) = length v `min` 16.
Proof. done. Qed.

Lemma empty_key_wf : key_wf EMPTY_KEY.
Proof. split; [done|]. split; [cbn; lia|done]. Qed.

Lemma key_matches_eq a b : key_wf a -> key_wf b -> key_matches a b = true <-> a = b.
Proof.
  destruct a as [ab al], b as [bb bl]. intros (Ha & Hal & Hat) (Hb & Hbl & Hbt).
  unfold key_matches. cbn [key_bytes key_len] in *. split.
  - intros [E1%Nat.eqb_eq E2%bool_decide_eq_true]%andb_true_iff. subst bl. f_equal.
    by rewrite <- (take_drop al ab), <- (take_drop al bb), E2, Hat, Hbt.
  - intros [= -> ->]. rewrite Nat.eqb_refl. cbn. by apply bool_decide_eq_true.
Qed.

Lemma held_by_iff c l :
  key_wf c -> key_wf (lease_client l) ->
  held_by c l = true <-> in_use l = true /\ lease_client l = c.
Proof. intros H1 H2. unfold held_by. rewrite andb_true_iff, key_matches_eq; done. Qed.

(** ** Requests *)

Lemma set_option_client code v o : client_ok (o_client o) -> client_ok (o_client (set_option code v o)).
Proof.
  destruct o as [ty cl ip srv]. unfold set_option. intros H. repeat case_match; try done.
  bool_to_prop. cbn [o_client]. split; [apply from_slice_wf|]. rewrite from_slice_len. lia.
Qed.

Lemma option_loop_client fuel p off o :
  client_ok (o_client o) -> client_ok (o_client (option_loop fuel p off o)).
Proof.
  revert off o. induction fuel as [|fuel IH]; intros off o Ho; cbn [option_loop]; [done|].
  repeat case_match; auto using set_option_client.
Qed.

(** Any fuel from the length of the packet on gives the same options. *)
Lemma option_loop_fuel fuel fuel' p off o :
  length p - off <= fuel -> length p - off <= fuel' ->
  option_loop fuel p off o = option_loop fuel' p off o.
Proof.
  revert fuel' off o. induction fuel as [|fuel IH]; intros [|fuel'] off o H1 H2; cbn [option_loop]; try done.
  1, 2: rewrite lookup_ge_None_2 by lia; done.
  destruct (p !! off) as [code|] eqn:E; [|done]. apply lookup_lt_Some in E.
  repeat case_match; try done; apply IH; lia.
Qed.

Definition ip_ok (o : option (list Z)) : Prop := forall v, o = Some v -> length v = 4.

Lemma option_loop_ip fuel p off o :
  ip_ok (o_requested_ip o) -> ip_ok (o_requested_ip (option_loop fuel p off o)).
Proof.
  revert off o. induction fuel as [|fuel IH]; intros off o Ho; cbn [option_loop]; [done|].
  repeat case_match; auto. apply IH. destruct o. unfold set_option.
  repeat case_match; try done. bool_to_prop. by intros ? [= <-].
Qed.

Record request_ok (r : Request) : Prop := {
  rk_client : client_ok (req_client r);
  rk_ip : ip_ok (requested_ip r);
  rk_ciaddr : length (ciaddr r) = 4;
  rk_xid : length (xid r) = 4;
  rk_flags : length (req_flags r) = 2;
  rk_giaddr : length (giaddr r) = 4;
  rk_chaddr : length (chaddr r) = 16;
  rk_htype : htype r = 1%Z;
  rk_hlen : (1 <= hlen r <= 16)%Z }.

Lemma length_bytes_at p i n : i + n <= length p -> length (bytes_at p i n) = n.
Proof. intros H. unfold bytes_at. rewrite length_take, length_drop. lia. Qed.

Lemma parse_request_ok p r : packet_bytes p -> parse_request p = Some r -> request_ok r.
Proof.
  intros Hp. unfold parse_request. case_match eqn:G; [done|].
  apply orb_false_iff in G as [G _]. bool_to_prop. unfold DHCP_FIXED_HEADER_LEN, ETHERNET_HTYPE in *.
  intros (ty & _ & [= <-])%bind_Some.
  assert (Hh : is_u8 (byte_at p 2)).
  { unfold byte_at. destruct (nth_in_or_default 2 p 0%Z) as [Hin | ->]; [|done].
    apply (proj1 (Forall_forall _ _) Hp). by apply list_elem_of_In. }
  unfold is_u8 in Hh. split; cbn; rewrite ?length_bytes_at; try lia.
  - apply option_loop_client. cbn. split; [apply from_slice_wf|].
    rewrite from_slice_len, length_bytes_at; lia.
  - by apply option_loop_ip.
Qed.

(** ** Slots and addresses *)

Lemma lease_slot_ip s : s < DHCP_LEASE_CAPACITY -> lease_slot (lease_ip s) = Some s.
Proof.
  unfold DHCP_LEASE_CAPACITY. intros H. unfold lease_slot, lease_ip, octet. cbn [nth take FALLBACK_DHCP_RANGE_START FALLBACK_DHCP_RANGE_END].
  rewrite bool_decide_eq_true_2 by done. cbn [negb orb].
  destruct (Z.ltb_spec (2 + Z.of_nat s) 2); [lia|]. destruct (Z.ltb_spec 20 (2 + Z.of_nat s)); [lia|].
  cbn [orb]. f_equal. lia.
Qed.

Lemma lease_ip_slot ip s :
  length ip = 4 -> lease_slot ip = Some s -> ip = lease_ip s /\ s < DHCP_LEASE_CAPACITY.
Proof.
  destruct ip as [|a [|b [|c [|d [|? ?]]]]]; try done. intros _. unfold lease_slot, octet.
  cbn [nth take FALLBACK_DHCP_RANGE_START FALLBACK_DHCP_RANGE_END]. case_match eqn:G; [done|]. bool_to_prop.
  intros [= <-]. simplify_eq. unfold lease_ip, DHCP_LEASE_CAPACITY. split; [|lia].
  repeat f_equal. lia.
Qed.

Lemma lease_ip_inj s t : lease_ip s = lease_ip t -> s = t.
Proof. unfold lease_ip. intros [= ?]. lia. Qed.

(** ** The table *)

Lemma find_Some leases c s :
  table_ok leases -> client_ok c -> find_client_lease leases c = Some s ->
  leases !! s = Some (mkLease true c).
Proof.
  intros (_ & Hwf & _) [Hc _] (l & Hl & Hh & _)%position_Some.
  apply held_by_iff in Hh as [Hu <-]; eauto. by destruct l; cbn in *; subst.
Qed.

Lemma find_None leases c s l :
  table_ok leases -> client_ok c -> find_client_lease leases c = None ->
  leases !! s = Some l -> in_use l = true -> lease_client l <> c.
Proof.
  intros (_ & Hwf & _) [Hc _] Hn%position_None Hs Hu E.
  rewrite Forall_lookup in Hn. specialize (Hn _ _ Hs).
  enough (held_by c l = true) by congruence. apply held_by_iff; eauto.
Qed.

(** The slots a client holds. *)
Definition holds (leases : list Lease) (s : nat) (c : ClientKey) : Prop :=
  leases !! s = Some (mkLease true c).

Lemma find_holds leases c s :
  table_ok leases -> client_ok c -> holds leases s c -> find_client_lease leases c = Some s.
Proof.
  intros Ht Hc Hs. destruct (find_client_lease leases c) as [t|] eqn:E.
  - apply find_Some in E; [|done..]. f_equal. destruct Ht as (_ & _ & Hu).
    eapply Hu; eauto; cbn; auto. apply Hc.
  - exfalso. by eapply find_None in E; [|done..].
Qed.

(** Setting a slot to a free lease, or to a client no other slot holds. *)
Lemma table_ok_insert leases s l :
  table_ok leases -> key_wf (lease_client l) ->
  (in_use l = true -> key_len (lease_client l) <> 0 ->
   forall t m, t <> s -> leases !! t = Some m -> in_use m = true -> lease_client m <> lease_client l) ->
  table_ok (<[s := l]> leases).
Proof.
  intros (Hlen & Hwf & Hu) Hk Hnew. split; [by rewrite length_insert|]. split.
  - intros i m Hm. apply list_lookup_insert_Some in Hm as [(<- & <- & _)|[_ Hm]]; eauto.
  - intros i j a b Ha Hb Hia Hib E Hne.
    apply list_lookup_insert_Some in Ha as [(<- & <- & _)|[Hi Ha]], Hb as [(Hj & <- & _)|[Hj Hb]]; try done.
    + exfalso. rewrite E in Hne. eapply (Hnew Hia); [congruence| |exact Hb|done|done]. congruence.
    + subst j. exfalso. eapply (Hnew Hib); [congruence| |exact Ha|done|done]. congruence.
    + eauto.
Qed.

Lemma lookup_clear (leases : list Lease) c s l :
  ((fun l => if held_by c l then EMPTY_LEASE else l) <$> leases) !! s = Some l ->
  in_use l = true -> leases !! s = Some l /\ held_by c l = false.
Proof.
  rewrite list_lookup_fmap. intros (m & Hm & ->)%fmap_Some Hu. by destruct (held_by c m) eqn:E.
Qed.

Lemma table_ok_clear leases c :
  table_ok leases -> table_ok ((fun l => if held_by c l then EMPTY_LEASE else l) <$> leases).
Proof.
  intros (Hlen & Hwf & Hu). split; [by rewrite length_fmap|]. split.
  - intros i l. rewrite list_lookup_fmap. intros (m & Hm & ->)%fmap_Some.
    case_match; [apply empty_key_wf|eauto].
  - intros i j a b Ha Hb Hia Hib. apply lookup_clear in Ha as [Ha _], Hb as [Hb _]; eauto.
Qed.

Lemma table_ok_assign leases s c :
  table_ok leases -> client_ok c -> table_ok (assign_lease leases s c).
Proof.
  intros Ht Hc. unfold assign_lease. apply table_ok_insert; [by apply table_ok_clear|apply Hc|].
  intros _ _ t m _ Hm Hu E. apply lookup_clear in Hm as [Hm Hh]; [|done].
  cbn in E. destruct Ht as (_ & Hwf & _).
  enough (held_by c m = true) by congruence. apply held_by_iff; [apply Hc|eauto|done].
Qed.

Lemma table_ok_answer leases r :
  table_ok leases -> client_ok (req_client r) -> table_ok (answer leases r).1.
Proof.
  intros Ht Hc. unfold answer, existing_or_allocate_lease, release_lease, decline_lease.
  repeat case_match; simplify_eq; cbn [fst]; auto using table_ok_assign.
  - apply table_ok_insert; [done|apply Hc|]. intros _ _ t m _ Hm Hu. by eapply find_None.
  - apply table_ok_insert; [done|apply empty_key_wf|done].
  - apply table_ok_insert; [done|apply empty_key_wf|]. cbn. lia.
Qed.

Lemma new_table_ok : table_ok new_leases.
Proof.
  split; [done|]. split.
  - intros i l [-> _]%lookup_replicate. apply empty_key_wf.
  - by intros i j l m [-> _]%lookup_replicate.
Qed.

Lemma receive_inv leases p leases' x :
  receive leases p = (leases', x) ->
  match x with
  | None => leases' = leases
  | Some x => parse_request p = Some (ex_request x) /\ accepts (ex_request x) = true /\
      answer leases (ex_request x) = (leases', ex_reply x)
  end.
Proof.
  unfold receive. destruct (parse_request p) as [r|]; [|by intros [= <- <-]].
  destruct (accepts r) eqn:Ha; [|by intros [= <- <-]].
  destruct (answer leases r) as [l' y] eqn:E. by intros [= <- <-].
Qed.

Lemma table_ok_receive leases p :
  table_ok leases -> packet_bytes p -> table_ok (receive leases p).1.
Proof.
  intros Ht Hp. destruct (receive leases p) as [l' x] eqn:E. apply receive_inv in E.
  destruct x as [x|]; [|by subst]. destruct E as (Hr & _ & E). cbn [fst].
  replace l' with (answer leases (ex_request x)).1 by by rewrite E.
  apply table_ok_answer; [done|]. by eapply parse_request_ok.
Qed.

Lemma table_ok_run ps : forall leases, table_ok leases -> Forall packet_bytes ps ->
  table_ok (receive_all leases ps).1.
Proof.
  induction ps as [|p ps IH]; intros leases Ht Hps; cbn [receive_all]; [done|].
  inversion_clear Hps as [|? ? Hp Hps']. pose proof (table_ok_receive leases p Ht Hp) as H1.
  destruct (receive leases p) as [l1 x]. specialize (IH l1 H1 Hps').
  by destruct (receive_all l1 ps).
Qed.

(** ** What an answer gives and takes *)

Lemma lookup_assign leases s t c :
  t <> s -> assign_lease leases s c !! t =
  (fun l => if held_by c l then EMPTY_LEASE else l) <$> leases !! t.
Proof. intros H. unfold assign_lease. by rewrite list_lookup_insert_ne, list_lookup_fmap. Qed.

Lemma answer_gives leases r leases' ty ip :
  table_ok leases -> request_ok r -> answer leases r = (leases', Some (ty, ip)) ->
  ty = DHCP_OFFER \/ ty = DHCP_ACK ->
  exists s, ip = lease_ip s /\ s < DHCP_LEASE_CAPACITY /\ holds leases' s (req_client r) /\
    (forall l, leases !! s = Some l -> in_use l = true -> lease_client l = req_client r).
Proof.
  intros Ht Hr E Hty. pose proof (rk_client _ Hr) as Hc. unfold answer in E.
  destruct (message_type r =? DHCP_DISCOVER)%Z.
  { unfold existing_or_allocate_lease in E. destruct (find_client_lease leases _) as [s|] eqn:F.
    - simplify_eq/=. apply find_Some in F; [|done..]. exists s. repeat split; auto.
      + apply lookup_lt_Some in F. by rewrite (proj1 Ht) in F.
      + intros l Hl. rewrite F in Hl. by simplify_eq.
    - destruct (position _ leases) as [s|] eqn:P; simplify_eq/=.
      apply position_Some in P as (l & Hl & Hu%negb_true_iff & _). pose proof (lookup_lt_Some _ _ _ Hl) as Hlt.
      exists s. repeat split; [by rewrite (proj1 Ht) in Hlt|by apply list_lookup_insert_eq|].
      intros m Hm. rewrite Hl in Hm. simplify_eq. congruence. }
  destruct (message_type r =? DHCP_REQUEST)%Z; [|repeat case_match; done].
  destruct (wanted leases r) as [l|] eqn:W; [|done]. unfold wanted in W.
  destruct (lease_slot l) as [s|] eqn:S; [|by destruct Hty; simplify_eq].
  case_match eqn:G; [|by destruct Hty; simplify_eq]. simplify_eq/=.
  assert (Hip : length ip = 4).
  { destruct (requested_ip r) eqn:R; [simplify_eq; by apply (rk_ip _ Hr)|].
    unfold nonzero_ipv4 in W. case_decide; [|simplify_eq; by apply rk_ciaddr].
    apply fmap_Some in W as (? & _ & ->). done. }
  apply lease_ip_slot in S as [-> Hs]; [|done]. rewrite <- (proj1 Ht) in Hs.
  exists s. repeat split; [by rewrite <- (proj1 Ht)| |].
  - apply list_lookup_insert_eq. by rewrite length_fmap.
  - intros m Hm Hu. rewrite (nth_lookup_Some _ _ _ _ Hm), Hu in G. cbn in G.
    apply key_matches_eq in G; [done| |apply Hc]. destruct Ht as (_ & Hwf & _). eauto.
Qed.

(** An answer leaves a slot in use alone unless it is the client's own. *)
Lemma answer_other leases r s l :
  table_ok leases -> request_ok r -> leases !! s = Some l -> in_use l = true ->
  lease_client l <> req_client r -> (answer leases r).1 !! s = Some l.
Proof.
  intros Ht Hr Hl Hu Hne. pose proof (rk_client _ Hr) as Hc.
  assert (Hh : held_by (req_client r) l = false).
  { destruct (held_by (req_client r) l) eqn:E; [|done].
    apply held_by_iff in E; [tauto|apply Hc|]. destruct Ht as (_ & Hwf & _). eauto. }
  assert (Hf : forall t, find_client_lease leases (req_client r) = Some t -> t <> s).
  { intros t F -> . apply find_Some in F; [|done..]. by simplify_eq. }
  unfold answer, existing_or_allocate_lease, release_lease, decline_lease.
  destruct (message_type r =? DHCP_DISCOVER)%Z.
  { destruct (find_client_lease leases _) as [t|]; [done|].
    destruct (position _ leases) as [t|] eqn:P; [|done]. cbn [fst].
    apply position_Some in P as (m & Hm & Hum%negb_true_iff & _).
    rewrite list_lookup_insert_ne; [done|]. intros ->. rewrite Hl in Hm. simplify_eq. congruence. }
  destruct (message_type r =? DHCP_REQUEST)%Z.
  { destruct (wanted leases r); [|done]. destruct (lease_slot _) as [t|]; [|done]. case_match eqn:G; [|done]. cbn [fst].
    destruct (decide (s = t)) as [->|].
    2: { rewrite lookup_assign, Hl by done. cbv [fmap option_fmap option_map]. by rewrite Hh. }
    exfalso. rewrite (nth_lookup_Some _ _ _ _ Hl), Hu in G. cbn in G.
    unfold held_by in Hh. rewrite Hu in Hh. cbn in Hh. congruence. }
  destruct (find_client_lease leases _) as [t|]; repeat case_match; try done; cbn [fst];
    rewrite list_lookup_insert_ne; eauto.
Qed.

(** A reserved slot stays reserved unless its client gives it up. *)
Lemma answer_reserved leases r leases' reply s c :
  table_ok leases -> request_ok r -> client_ok c -> s < DHCP_LEASE_CAPACITY -> reserved leases s c ->
  answer leases r = (leases', reply) -> gives_up c (lease_ip s) (mkExchange r reply) = false ->
  reserved leases' s c.
Proof.
  intros Ht Hr Hc Hs (l & Hl & Hu & Hk) E Hn. pose proof (rk_client _ Hr) as Hrc.
  assert (Hlt : s < length leases) by (by apply lookup_lt_Some in Hl).
  destruct (decide (lease_client l = req_client r)) as [Heq|Hne].
  2: { exists l. split; [|done]. replace leases' with (answer leases r).1 by by rewrite E.
       by apply answer_other. }
  assert (Hcr : req_client r = c).
  { destruct Hk as [Hk|Hk]; [congruence|]. destruct Hrc as [_ Hrc]. rewrite <- Heq, Hk in Hrc. done. }
  assert (Hold : holds leases s (req_client r)) by (destruct l; cbn in *; by subst).
  apply find_holds in Hold; [|done..].
  assert (Hsame : reserved leases s c) by (exists l; auto).
  unfold answer, existing_or_allocate_lease, release_lease, decline_lease in E. rewrite Hold in E.
  destruct (message_type r =? DHCP_DISCOVER)%Z; [by simplify_eq|].
  destruct (message_type r =? DHCP_REQUEST)%Z.
  { destruct (wanted leases r); [|by simplify_eq]. destruct (lease_slot _) as [t|] eqn:S; [|by simplify_eq].
    case_match; [|by simplify_eq]. simplify_eq.
    destruct (decide (t = s)) as [->|Hts].
    { exists (mkLease true (req_client r)). split; [|by auto].
      apply list_lookup_insert_eq. by rewrite length_fmap. }
    unfold gives_up in Hn. cbn in Hn. rewrite bool_decide_eq_true_2 in Hn by done. cbn in Hn.
    apply orb_false_iff in Hn as [_ Hn%negb_false_iff%bool_decide_eq_true]. subst.
    rewrite lease_slot_ip in S by done. congruence. }
  destruct (message_type r =? DHCP_RELEASE)%Z eqn:R.
  { unfold gives_up in Hn. cbn in Hn. rewrite bool_decide_eq_true_2, R in Hn by done. done. }
  destruct (message_type r =? DHCP_DECLINE)%Z; simplify_eq; [|done].
  exists (mkLease true EMPTY_KEY). split; [by apply list_lookup_insert_eq|auto].
Qed.

Lemma receive_reserved leases p s c :
  table_ok leases -> packet_bytes p -> client_ok c -> s < DHCP_LEASE_CAPACITY -> reserved leases s c ->
  given_up_in c (lease_ip s) (receive leases p).2 = false ->
  reserved (receive leases p).1 s c.
Proof.
  intros Ht Hp Hc Hs Hres Hn. destruct (receive leases p) as [l' x] eqn:E. apply receive_inv in E.
  cbn [fst snd] in *. destruct x as [x|]; [|by subst]. destruct E as (Hr & _ & E).
  apply (answer_reserved leases (ex_request x) l' (ex_reply x)); [done|by eapply parse_request_ok|done..|].
  by destruct x.
Qed.

Lemma run_reserved ps : forall leases s c,
  table_ok leases -> Forall packet_bytes ps -> client_ok c -> s < DHCP_LEASE_CAPACITY ->
  reserved leases s c ->
  Forall (fun x => given_up_in c (lease_ip s) x = false) (receive_all leases ps).2 ->
  reserved (receive_all leases ps).1 s c.
Proof.
  induction ps as [|p ps IH]; intros leases s c Ht Hps Hc Hs Hres Hn; cbn [receive_all] in *; [done|].
  inversion_clear Hps as [|? ? Hp Hps'].
  pose proof (table_ok_receive leases p Ht Hp) as H1.
  pose proof (receive_reserved leases p s c Ht Hp Hc Hs Hres) as H2.
  destruct (receive leases p) as [l1 x] eqn:E1. cbn [fst snd] in *.
  specialize (IH l1 s c H1 Hps' Hc Hs). destruct (receive_all l1 ps) as [l2 xs] eqn:E2. cbn [fst snd] in *.
  inversion_clear Hn. auto.
Qed.

Lemma receive_all_app ps qs : forall leases,
  receive_all leases (ps ++ qs) =
  let '(l, xs) := receive_all leases ps in
  let '(l', ys) := receive_all l qs in (l', xs ++ ys).
Proof.
  induction ps as [|p ps IH]; intros leases; cbn [receive_all app].
  - by destruct (receive_all leases qs).
  - destruct (receive leases p) as [l1 x]. rewrite IH.
    destruct (receive_all l1 ps) as [l2 xs]. by destruct (receive_all l2 qs).
Qed.

Lemma length_receive_all ps : forall leases, length (receive_all leases ps).2 = length ps.
Proof.
  induction ps as [|p ps IH]; intros leases; cbn [receive_all]; [done|].
  destruct (receive leases p) as [l1 x]. specialize (IH l1).
  destruct (receive_all l1 ps). cbn in *. by rewrite IH.
Qed.

(** An exchange that gives an address reserves its slot, which was free or the
    client's. *)
Lemma receive_gives leases p leases' x ip :
  table_ok leases -> packet_bytes p -> receive leases p = (leases', Some x) -> gives x ip ->
  client_ok (req_client (ex_request x)) /\
  exists s, ip = lease_ip s /\ s < DHCP_LEASE_CAPACITY /\ holds leases' s (req_client (ex_request x)) /\
    (forall c, client_ok c -> reserved leases s c -> req_client (ex_request x) = c).
Proof.
  intros Ht Hp (Hr & _ & E)%receive_inv Hg. apply parse_request_ok in Hr; [|done].
  split; [apply Hr|].
  assert (exists ty, ex_reply x = Some (ty, ip) /\ (ty = DHCP_OFFER \/ ty = DHCP_ACK)) as (ty & Ey & Hty).
  { destruct Hg as [-> | ->]; eauto. }
  rewrite Ey in E. destruct (answer_gives _ _ _ _ _ Ht Hr E Hty) as (s & -> & Hs & Hh & Hfree).
  exists s. repeat split; auto. intros c [_ Hc] (l & Hl & Hu & Hk).
  rewrite <- (Hfree _ Hl Hu). destruct Hk as [-> | Hk]; [done|].
  exfalso. destruct (rk_client _ Hr) as [_ Hne]. by rewrite <- (Hfree _ Hl Hu), Hk in Hne.
Qed.

(** A lease in use survives the packets of other clients unchanged. *)
Lemma run_other ps : forall leases s l,
  table_ok leases -> Forall packet_bytes ps -> leases !! s = Some l -> in_use l = true ->
  Forall (fun x => forall z, x = Some z -> req_client (ex_request z) <> lease_client l) (receive_all leases ps).2 ->
  (receive_all leases ps).1 !! s = Some l.
Proof.
  induction ps as [|p ps IH]; intros leases s l Ht Hps Hl Hu Hn; cbn [receive_all] in *; [done|].
  inversion_clear Hps as [|? ? Hp Hps'].
  pose proof (table_ok_receive leases p Ht Hp) as H1.
  destruct (receive leases p) as [l1 x] eqn:E1. cbn [fst snd] in *.
  specialize (IH l1 s l H1 Hps'). destruct (receive_all l1 ps) as [l2 xs] eqn:E2. cbn [fst snd] in *.
  inversion_clear Hn as [|? ? Hx Hxs]. apply IH; [|done..]. apply receive_inv in E1.
  destruct x as [x|]; [|by subst]. destruct E1 as (Hr & _ & E).
  replace l1 with (answer leases (ex_request x)).1 by by rewrite E.
  apply answer_other; [done|by eapply parse_request_ok|done..|]. intros E'. by eapply Hx.
Qed.

(** A declined address is given to nobody while the server runs: no client's
    key is the empty one. *)
Lemma declined_never_given leases s ps x ip :
  table_ok leases -> Forall packet_bytes ps -> leases !! s = Some (mkLease true EMPTY_KEY) ->
  Some x ∈ (receive_all leases ps).2 -> gives x ip -> ip <> lease_ip s.
Proof.
  revert leases. induction ps as [|p ps IH]; intros leases Ht Hps Hs Hx Hg; cbn [receive_all] in *.
  { by apply elem_of_nil in Hx. }
  inversion_clear Hps as [|? ? Hp Hps'].
  pose proof (table_ok_receive leases p Ht Hp) as H1.
  destruct (receive leases p) as [l1 y] eqn:E1. cbn [fst snd] in *.
  assert (Hs1 : l1 !! s = Some (mkLease true EMPTY_KEY)).
  { pose proof E1 as E. apply receive_inv in E. destruct y as [y|]; [|by subst]. destruct E as (Hr & _ & E).
    replace l1 with (answer leases (ex_request y)).1 by by rewrite E.
    apply parse_request_ok in Hr; [|done]. apply answer_other; [done..|].
    intros E'. destruct (rk_client _ Hr) as [_ Hne]. by rewrite <- E' in Hne. }
  specialize (IH l1 H1 Hps' Hs1). destruct (receive_all l1 ps) as [l2 xs] eqn:E2. cbn [fst snd] in *.
  apply elem_of_cons in Hx as [<-|Hx]; [|auto]. intros ->.
  destruct (receive_gives _ _ _ _ _ Ht Hp E1 Hg) as ([_ Hc] & t & E%lease_ip_inj & _ & Hh & _). subst t.
  unfold holds in Hh. rewrite Hs1 in Hh. injection Hh as Hh. by rewrite <- Hh in Hc.
Qed.

(** ** The layout of replies *)

Ltac explode l :=
  repeat (destruct l as [|? l]; try discriminate); try clear l.

Lemma reply_shape r ty yiaddr :
  request_ok r -> length yiaddr = 4 ->
  build_reply r DHCP_PACKET_BUFFER ty yiaddr =
  (reply_layout r ty yiaddr ++ replicate 300 0%Z, 300).
Proof.
  intros [_ _ Hci Hx Hf Hg Hch _ _] Hy. unfold build_reply, reply_layout, header_of_reply, push_option.
  destruct (ciaddr r) as [|c1 [|c2 [|c3 [|c4 [|? ?]]]]]; try discriminate Hci.
  destruct (xid r) as [|x1 [|x2 [|x3 [|x4 [|? ?]]]]]; try discriminate Hx.
  destruct (req_flags r) as [|f1 [|f2 [|? ?]]]; try discriminate Hf.
  destruct (giaddr r) as [|g1 [|g2 [|g3 [|g4 [|? ?]]]]]; try discriminate Hg.
  destruct yiaddr as [|y1 [|y2 [|y3 [|y4 [|? ?]]]]]; try discriminate Hy.
  generalize dependent (chaddr r). intros ch Hch. explode ch. generalize (hlen r) (htype r). clear. intros hl ht.
  destruct (ty =? DHCP_OFFER)%Z, (ty =? DHCP_ACK)%Z; cbn [orb]; vm_compute; reflexivity.
Qed.

Lemma bytes_at_within pre ch post n :
  n <= length ch -> bytes_at (pre ++ ch ++ post) (length pre) n = take n ch.
Proof. intros H. unfold bytes_at. rewrite drop_app_length. by apply take_app_le. Qed.

Lemma parse_reply r ty yiaddr :
  request_ok r -> length yiaddr = 4 -> ty = DHCP_OFFER \/ ty = DHCP_ACK \/ ty = DHCP_NAK ->
  parse_request (<[0 := BOOTREQUEST]> (reply_layout r ty yiaddr)) =
  Some (mkRequest ty (from_slice (take (Z.to_nat (hlen r)) (chaddr r))) None (Some FALLBACK_DEVICE_IPV4)
    (if (ty =? DHCP_ACK)%Z then ciaddr r else replicate 4 0%Z)
    (htype r) (hlen r) (xid r) (req_flags r) (giaddr r) (chaddr r)).
Proof.
  intros [_ _ Hci Hx Hf Hg Hch Hht Hh] Hy Hty. unfold reply_layout. rewrite Hht.
  generalize dependent (chaddr r). intros ch Hch. generalize dependent (hlen r). intros hl Hh.
  destruct (ciaddr r) as [|c1 [|c2 [|c3 [|c4 [|? ?]]]]]; try discriminate Hci.
  destruct (xid r) as [|x1 [|x2 [|x3 [|x4 [|? ?]]]]]; try discriminate Hx.
  destruct (req_flags r) as [|f1 [|f2 [|? ?]]]; try discriminate Hf.
  destruct (giaddr r) as [|g1 [|g2 [|g3 [|g4 [|? ?]]]]]; try discriminate Hg.
  destruct yiaddr as [|y1 [|y2 [|y3 [|y4 [|? ?]]]]]; try discriminate Hy.
  match goal with |- parse_request (<[0 := _]> ?p) = _ => set (packet := p) end.
  assert (Hk : bytes_at (<[0 := BOOTREQUEST]> packet) 28 (Z.to_nat hl) = take (Z.to_nat hl) ch).
  { unfold packet. destruct (ty =? DHCP_ACK)%Z; cbn [app replicate insert list_insert];
    match goal with |- bytes_at ?p _ _ = _ =>
      match p with context L [ch ++ ?post] =>
        let pre := context L [@nil Z] in exact (bytes_at_within pre ch post (Z.to_nat hl) ltac:(lia))
      end end. }
  unfold parse_request. change (byte_at (<[0 := BOOTREQUEST]> packet) 2) with hl. rewrite Hk.
  destruct (Z.eqb_spec hl 0); [lia|]. destruct (Z.ltb_spec 16 hl); [lia|].
  generalize (from_slice (take (Z.to_nat hl) ch)). intros key.
  unfold packet. clear Hk packet. explode ch.
  destruct Hty as [-> | [-> | ->]]; vm_compute; reflexivity.
Qed.

(** ** Properties *)

Section Run.
  Context (before packets : list (list Z)).
  Hypothesis Hbefore : Forall packet_bytes before.
  Hypothesis Hpackets : Forall packet_bytes packets.

Lemma reached_ok : table_ok (receive_all new_leases before).1.
Proof. apply table_ok_run; [apply new_table_ok|done]. Qed.

(** What a client was given stays reserved through packets in which it does not
    give it up. *)
Lemma given_reserved p x ip l :
  packet_bytes p -> receive (receive_all new_leases before).1 p = (l, Some x) -> gives x ip ->
  Forall (fun z => given_up_in (req_client (ex_request x)) ip z = false) (receive_all l packets).2 ->
  table_ok l /\ table_ok (receive_all l packets).1 /\ client_ok (req_client (ex_request x)) /\
  exists s, ip = lease_ip s /\ s < DHCP_LEASE_CAPACITY /\ holds l s (req_client (ex_request x)) /\
    reserved (receive_all l packets).1 s (req_client (ex_request x)).
Proof.
  intros Hp E Hg Hn. pose proof (table_ok_receive _ _ reached_ok Hp) as Hl. rewrite E in Hl. cbn [fst] in Hl.
  destruct (receive_gives _ _ _ _ _ reached_ok Hp E Hg) as (Hc & s & -> & Hs & Hh & _).
  split; [done|]. split; [by apply table_ok_run|]. split; [done|]. exists s. repeat split; auto.
  apply run_reserved; auto. eexists. split; [exact Hh|]. auto.
Qed.
End Run.

(** The step a run takes at an index. *)
Lemma run_at ps : forall l l' xs i x,
  receive_all l ps = (l', xs) -> xs !! i = Some x ->
  exists before p after l1, ps = before ++ p :: after /\ length before = i /\
    receive (receive_all l before).1 p = (l1, x) /\ receive_all l1 after = (l', drop (S i) xs).
Proof.
  induction ps as [|p ps IH]; intros l l' xs i x; cbn [receive_all].
  { intros [= <- <-]. by rewrite lookup_nil. }
  destruct (receive l p) as [l1 y] eqn:E. destruct (receive_all l1 ps) as [l2 ys] eqn:E2.
  intros [= -> <-] Hx. destruct i as [|i]; cbn in Hx.
  - simplify_eq. exists [], p, ps, l1. done.
  - destruct (IH _ _ _ _ _ E2 Hx) as (before & q & after & l3 & -> & <- & Hq & Ha).
    exists (p :: before), q, after, l3. repeat split; [|done].
    cbn [receive_all]. rewrite E. by destruct (receive_all l1 before).
Qed.

(** a reply to a request is three hundred bytes, goes to port 68, and its
    option list and fixed fields parse back: the type, this server's address,
    the transaction, the hardware address, and for an ACK the client's address. *)
Theorem reply_parses p r ty yiaddr
    (Hp : packet_bytes p) (Hr : parse_request p = Some r) (Hy : length yiaddr = 4)
    (Hty : ty = DHCP_OFFER \/ ty = DHCP_ACK \/ ty = DHCP_NAK) :
  exists reply ip, sent (mkExchange r (Some (ty, yiaddr))) = Some (reply, (ip, DHCP_CLIENT_PORT)) /\
    length reply = 300 /\ byte_at reply 0 = BOOTREPLY /\ bytes_at reply 16 4 = yiaddr /\
    (ty = DHCP_NAK -> ip = replicate 4 255%Z) /\
    parse_request (<[0 := BOOTREQUEST]> reply) =
    Some (mkRequest ty (from_slice (take (Z.to_nat (hlen r)) (chaddr r))) None (Some FALLBACK_DEVICE_IPV4)
      (if (ty =? DHCP_ACK)%Z then ciaddr r else replicate 4 0%Z)
      (htype r) (hlen r) (xid r) (req_flags r) (giaddr r) (chaddr r)).
Proof.
  pose proof (parse_request_ok _ _ Hp Hr) as Hok. exists (reply_layout r ty yiaddr).
  assert (Hlen : length (reply_layout r ty yiaddr) = 300).
  { destruct Hok as [_ _ Hci Hx Hf Hg Hch _ _]. unfold reply_layout.
    rewrite !length_app, !length_replicate. cbn [length].
    rewrite Hx, Hf, Hg, Hch, Hy. destruct Hty as [-> | [-> | ->]]; cbn; lia. }
  eexists. split; [|split; [done|split; [done|split; [|split]]]].
  - unfold sent. cbn [ex_reply ex_request mbind option_bind].
    rewrite reply_shape by done. rewrite take_app_length' by done. done.
  - destruct Hok as [_ _ Hci Hx Hf Hg Hch _ _]. unfold reply_layout, bytes_at.
    destruct (ciaddr r) as [|c1 [|c2 [|c3 [|c4 [|? ?]]]]]; try discriminate Hci.
    destruct (xid r) as [|x1 [|x2 [|x3 [|x4 [|? ?]]]]]; try discriminate Hx.
    destruct (req_flags r) as [|f1 [|f2 [|? ?]]]; try discriminate Hf.
    destruct yiaddr as [|y1 [|y2 [|y3 [|y4 [|? ?]]]]]; try discriminate Hy.
    by destruct (ty =? DHCP_ACK)%Z.
  - by intros ->.
  - by apply parse_reply.
Qed.

(** C36: an address is exclusive. In any run of the server, if one exchange
    offers or acknowledges an address to a client and a later one to another
    client, then in between the first client released its lease or was
    acknowledged another address. *)
Theorem address_exclusive packets leases xs i j x y ip
    (Hp : Forall packet_bytes packets) (Hrun : receive_all new_leases packets = (leases, xs))
    (Hij : i < j) (Hx : xs !! i = Some (Some x)) (Hy : xs !! j = Some (Some y))
    (Hgx : gives x ip) (Hgy : gives y ip) (Hne : req_client (ex_request x) <> req_client (ex_request y)) :
  exists k z, i < k < j /\ xs !! k = Some (Some z) /\ gives_up (req_client (ex_request x)) ip z = true.
Proof.
  set (c := req_client (ex_request x)) in *.
  destruct (run_at _ _ _ _ _ _ Hrun Hx) as (before & p & after & l1 & -> & _ & E1 & Hrest).
  apply Forall_app in Hp as [Hb Hp]. inversion_clear Hp as [|? ? Hpp Hafter].
  assert (Hy' : drop (S i) xs !! (j - S i) = Some (Some y)) by (rewrite lookup_drop, <- Hy; f_equal; lia).
  destruct (run_at _ _ _ _ _ _ Hrest Hy') as (mid & q & rest & l3 & -> & Hlm & E3 & _).
  apply Forall_app in Hafter as [Hm Hq]. inversion_clear Hq as [|? ? Hqq _].
  assert (Hmid : (receive_all l1 mid).2 = take (j - S i) (drop (S i) xs)).
  { rewrite receive_all_app in Hrest. destruct (receive_all l1 mid) as [l2 xm] eqn:E2.
    pose proof (length_receive_all mid l1) as L. rewrite E2 in L. cbn [snd] in L.
    destruct (receive_all l2 (q :: rest)) as [? ?]. injection Hrest as _ <-.
    rewrite take_app_length' by lia. done. }
  destruct (decide (Forall (fun z => given_up_in c ip z = false) (receive_all l1 mid).2)) as [H|H].
  - exfalso. destruct (given_reserved before mid Hb Hm p x ip l1 Hpp E1 Hgx H) as (_ & Ht & Hc & s & -> & Hs & _ & Hr).
    destruct (receive_gives _ _ _ _ _ Ht Hqq E3 Hgy) as (_ & s' & E%lease_ip_inj & _ & _ & Hown).
    subst s'. apply Hne. symmetry. by apply Hown.
  - apply not_Forall_Exists in H; [|intros ?; apply _]. rewrite Hmid in H.
    apply Exists_exists in H as (z & (k & Hk)%list_elem_of_lookup & Hz).
    apply lookup_take_Some in Hk as [Hk Hkl]. rewrite lookup_drop in Hk.
    destruct z as [z|]; [|by destruct Hz]. exists (S i + k), z. repeat split; [lia|lia|done|].
    cbn in Hz. by destruct (gives_up c ip z).
Qed.

(** C37: an offer is honoured. When the server has offered a client an address,
    then after any packets of other clients, a REQUEST of that client for that
    address (or one that names none) is acknowledged with it. *)
Theorem offer_honoured before p mid q l1 x ip r
    (Hb : Forall packet_bytes before) (Hp : packet_bytes p) (Hm : Forall packet_bytes mid) (Hq : packet_bytes q)
    (Hx : receive (receive_all new_leases before).1 p = (l1, Some x)) (Hoffer : ex_reply x = Some (DHCP_OFFER, ip))
    (Hothers : Forall (fun y => forall z, y = Some z -> req_client (ex_request z) <> req_client (ex_request x))
      (receive_all l1 mid).2)
    (Hr : parse_request q = Some r) (Ha : accepts r = true) (Hty : message_type r = DHCP_REQUEST)
    (Hc : req_client r = req_client (ex_request x))
    (Hip : requested_ip r = Some ip \/ requested_ip r = None /\ ciaddr r = replicate 4 0%Z) :
  exists l3 s, ip = lease_ip s /\ s < DHCP_LEASE_CAPACITY /\
    receive (receive_all l1 mid).1 q = (l3, Some (mkExchange r (Some (DHCP_ACK, ip)))) /\
    l3 !! s = Some (mkLease true (req_client r)).
Proof.
  pose proof (table_ok_receive _ _ (reached_ok before Hb) Hp) as Ht1. rewrite Hx in Ht1. cbn [fst] in Ht1.
  destruct (receive_gives _ _ _ _ _ (reached_ok before Hb) Hp Hx (or_introl Hoffer)) as (Hok & s & -> & Hs & Hh & _).
  apply (run_other mid) in Hh; [|done..]. rewrite <- Hc in Hh, Hok.
  pose proof (table_ok_run mid l1 Ht1 Hm) as Ht2. set (l2 := (receive_all l1 mid).1) in *.
  exists (assign_lease l2 s (req_client r)), s. split; [done|]. split; [done|]. split.
  - unfold receive. rewrite Hr, Ha. unfold answer. rewrite Hty. cbn [Z.eqb DHCP_REQUEST DHCP_DISCOVER Pos.eqb].
    assert (Hw : wanted l2 r = Some (lease_ip s)).
    { unfold wanted. destruct Hip as [-> |[-> E]]; [done|]. unfold nonzero_ipv4. rewrite decide_True by done.
      by rewrite (find_holds l2 (req_client r) s). }
    rewrite Hw, lease_slot_ip by done. rewrite (nth_lookup_Some _ _ _ _ Hh). cbn [in_use lease_client negb orb].
    replace (key_matches (req_client r) (req_client r)) with true; [done|].
    symmetry. by apply key_matches_eq; [apply Hok..|].
  - apply list_lookup_insert_eq. rewrite length_fmap, (proj1 Ht2). done.
Qed.

(** ** Concrete runs *)

Definition demo_packet (mac ty : Z) (options : list Z) : list Z :=
  [1; 1; 6; 0; 222; 173; 190; 239]%Z ++ replicate 20 0%Z ++ [2; 0; 0; 0; 0; mac]%Z ++ replicate 202 0%Z ++
  DHCP_MAGIC_COOKIE ++ [53; 1; ty]%Z ++ options ++ [255%Z].

Definition demo_moves : list (list Z) :=
  [demo_packet 1 DHCP_DISCOVER []; demo_packet 1 DHCP_RELEASE []; demo_packet 2 DHCP_DISCOVER []].
Definition demo_exchanges : list (option Exchange) := (receive_all new_leases demo_moves).2.
Definition demo_exchange (i : nat) : Exchange :=
  default (mkExchange (mkRequest 0 EMPTY_KEY None None [] 0 0 [] [] [] []) None) (demo_exchanges !! i ≫= id).

Lemma demo_packet_bytes mac ty options :
  is_u8 mac -> is_u8 ty -> Forall is_u8 options -> packet_bytes (demo_packet mac ty options).
Proof.
  intros H1 H2 H3. unfold packet_bytes, demo_packet, DHCP_MAGIC_COOKIE.
  repeat first [apply Forall_app; split | apply Forall_replicate | apply Forall_cons; split | apply Forall_nil];
    try done; unfold is_u8, u8_max; lia.
Qed.

Lemma reply_parses_witness : exists reply ip,
  sent (mkExchange (ex_request (demo_exchange 0)) (Some (DHCP_OFFER, lease_ip 0))) = Some (reply, (ip, DHCP_CLIENT_PORT)) /\
  length reply = 300.
Proof.
  destruct (reply_parses (demo_packet 1 DHCP_DISCOVER []) (ex_request (demo_exchange 0)) DHCP_OFFER (lease_ip 0))
    as (reply & ip & Hs & Hl & _).
  - apply demo_packet_bytes; [done..|constructor].
  - vm_compute. reflexivity.
  - reflexivity.
  - left. reflexivity.
  - exists reply, ip. split; [exact Hs|exact Hl].
Defined.

Lemma address_exclusive_witness : exists k z, 0 < k < 2 /\
  demo_exchanges !! k = Some (Some z) /\ gives_up (req_client (ex_request (demo_exchange 0))) (lease_ip 0) z = true.
Proof.
  apply (address_exclusive demo_moves (receive_all new_leases demo_moves).1 demo_exchanges 0 2
    (demo_exchange 0) (demo_exchange 2) (lease_ip 0)).
  - do 3 (apply Forall_cons; split; [apply demo_packet_bytes; [done..|constructor]|]). constructor.
  - unfold demo_exchanges. destruct (receive_all new_leases demo_moves). reflexivity.
  - lia.
  - vm_compute. reflexivity.
  - vm_compute. reflexivity.
  - left. vm_compute. reflexivity.
  - left. vm_compute. reflexivity.
  - vm_compute. intros E. discriminate E.
Defined.

Lemma offer_honoured_witness : exists l3 s, lease_ip 0 = lease_ip s /\ s < DHCP_LEASE_CAPACITY /\
  receive (receive_all (receive new_leases (demo_packet 1 DHCP_DISCOVER [])).1 [demo_packet 2 DHCP_DISCOVER []]).1
    (demo_packet 1 DHCP_REQUEST [50; 4; 192; 168; 7; 2]%Z) =
  (l3, Some (mkExchange (default (ex_request (demo_exchange 0)) (parse_request (demo_packet 1 DHCP_REQUEST [50; 4; 192; 168; 7; 2]%Z)))
    (Some (DHCP_ACK, lease_ip 0)))) /\
  l3 !! s = Some (mkLease true (from_slice [2; 0; 0; 0; 0; 1]%Z)).
Proof.
  apply (offer_honoured [] (demo_packet 1 DHCP_DISCOVER []) [demo_packet 2 DHCP_DISCOVER []]
    (demo_packet 1 DHCP_REQUEST [50; 4; 192; 168; 7; 2]%Z)
    (receive new_leases (demo_packet 1 DHCP_DISCOVER [])).1 (demo_exchange 0) (lease_ip 0)).
  - constructor.
  - apply demo_packet_bytes; [done..|constructor].
  - apply Forall_cons. split; [|constructor]. apply demo_packet_bytes; [done..|constructor].
  - apply demo_packet_bytes; [done..|]. repeat constructor; done.
  - vm_compute. reflexivity.
  - vm_compute. reflexivity.
  - vm_compute. apply Forall_cons. split; [|constructor]. intros z [= <-] E. discriminate E.
  - vm_compute. reflexivity.
  - vm_compute. reflexivity.
  - vm_compute. reflexivity.
  - vm_compute. reflexivity.
  - left. vm_compute. reflexivity.
Defined.

(** Two clients whose identifiers agree in sixteen bytes are one client to the
    server: both are offered the same address. *)
Example long_identifiers_collide :
  let id := fun last : Z => [61; 17]%Z ++ replicate 16 7%Z ++ [last] in
  List.map (option_map ex_reply)
    (receive_all new_leases [demo_packet 1 DHCP_DISCOVER (id 1%Z); demo_packet 2 DHCP_DISCOVER (id 2%Z)]).2 =
  replicate 2 (Some (Some (DHCP_OFFER, lease_ip 0))).
Proof. vm_compute. reflexivity. Qed.

(** A client that chose another server keeps its reservation: its REQUEST is
    dropped before the table is looked at. *)
Example declined_offer_keeps_lease :
  let p := demo_packet 1 DHCP_REQUEST [54; 4; 10; 0; 0; 1]%Z in
  let l := (receive new_leases (demo_packet 1 DHCP_DISCOVER [])).1 in
  receive l p = (l, None) /\ in_use <$> l !! 0 = Some true.
Proof. vm_compute. split; reflexivity. Qed.
