(* ===== verification/DeviceConfig.v ===== *)
(** * The device configuration ([microtun-core/src/device_config.rs])

    The receiver of the TOML parser's events, the builder it fills, and what a
    finished configuration must satisfy. Texts are lists of scalar values
    (file Utf8); the document itself is its bytes. The lexer, the parser and
    the decoder of keys and scalars are the external crate toml_parser, the
    base64 engine and the address parser are external too: parameters. The
    receiver answers [false] to every nested value, so the parser's events are
    a function of the tokens. A decoder is the calls it makes on the builder it
    is given, whether it reported an error of its own, and the kind of a scalar;
    it reports one as well when the builder refuses a call.

    The second half says which documents decode to which configurations. *)

From Stdlib Require Import ZArith Lia String.
From stdpp Require Import base list option.
From S2P Require Import Prelude Registry Utf8.
Open Scope Z_scope.

(** ** Keys *)

(** [decode_key_into] of a string (file Registry has [key.rs]); [decode_slice]
    is the standard engine of the base64 crate. *)
Definition decode_key_into (decode_slice : list Z -> option (list Z)) (text : list Z) : option (list Z) :=
  Registry.decode_key decode_slice (str_bytes text).

(** ** The configuration *)

Record WifiConfig := mkWifi { ssid : list Z; password : list Z }.
Record TrackerConfig := mkTracker {
  tracker_host : list Z;
  tracker_port : Z;
  public_key : list Z;
  tracker_tunnel_address : list Z }.
Record NtpConfig := mkNtp { ntp_host : list Z; ntp_port : Z }.
Record MicrotunConfig := mkMicrotun { api_version : list Z; kind : list Z }.
Record TunnelConfig := mkTunnel {
  private_key : list Z;
  tunnel_address : list Z;
  mtu : option Z;
  listen_port : option Z;
  enable_forwarding : bool }.
Record DeviceConfig := mkConfig {
  microtun : MicrotunConfig;
  tunnel : TunnelConfig;
  wifi : option WifiConfig;
  tracker : TrackerConfig;
  ntp : option NtpConfig }.

Inductive DeviceConfigError := BadToml | InvalidConfig.

Definition CONFIG_API_VERSION_ID : list Z := str "microtun.dev/v1alpha1".
Definition CONFIG_KIND : list Z := str "DeviceConfig".

Definition is_empty (s : list Z) : bool := match s with [] => true | _ => false end.
Definition same (s t : list Z) : bool := bool_decide (s = t).

Definition validate_api_version (value : list Z) : bool := same value CONFIG_API_VERSION_ID.
Definition validate_kind (value : list Z) : bool := same value CONFIG_KIND.
Definition validate_non_empty (value : list Z) : bool := negb (is_empty value).
Definition validate_host (value : list Z) : bool :=
  negb (is_empty value) && negb (existsb is_whitespace value) &&
  negb (existsb (Z.eqb 47) value) && negb (existsb (Z.eqb 58) value).
(** [range(1..)] *)
Definition validate_port (port : Z) : bool := 1 <=? port.

Section Validate.
Context {Inet : Type} (decode_slice : list Z -> option (list Z)) (parse_inet : list Z -> option Inet).

Definition validate_tunnel_key (value : list Z) : bool :=
match decode_key_into decode_slice value with Some _ => true | None => false end.
(** [crate::ip::parse_ip_inet]: the reader of the cidr crate, whose error is
    not kept. *)
Definition parse_ip_inet (text : list Z) : unit + Inet :=
match parse_inet text with Some inet => inr inet | None => inl () end.
Definition validate_tunnel_address (value : list Z) : bool :=
match parse_ip_inet value with inr _ => true | inl _ => false end.

(** [DeviceConfig::validate]: every field's validator, sections included. *)
Definition validate (c : DeviceConfig) : bool :=
validate_api_version (api_version (microtun c)) && validate_kind (kind (microtun c)) &&
validate_tunnel_key (private_key (tunnel c)) && validate_tunnel_address (tunnel_address (tunnel c)) &&
match wifi c with Some w => validate_non_empty (ssid w) | None => true end &&
(validate_host (tracker_host (tracker c)) && validate_port (tracker_port (tracker c)) &&
 validate_tunnel_key (public_key (tracker c)) && validate_tunnel_address (tracker_tunnel_address (tracker c))) &&
match ntp c with Some n => validate_host (ntp_host n) && validate_port (ntp_port n) | None => true end.
End Validate.

(** ** The builder *)

Definition TOML_TOKEN_CAPACITY : nat := 256.
Definition TOML_KEY_CAPACITY : nat := 32.
Definition TOML_VALUE_CAPACITY : nat := 128.

Inductive SectionId := Root | Microtun | Tunnel | Wifi | Tracker | Ntp.
#[export] Instance SectionId_eq_dec : EqDecision SectionId.
Proof. solve_decision. Defined.
Inductive HeaderKind := NoHeader | Standard | Array.
#[export] Instance HeaderKind_eq_dec : EqDecision HeaderKind.
Proof. solve_decision. Defined.

Inductive IntegerRadix := Dec | Hex | Oct | Bin.
Definition radix_value (r : IntegerRadix) : Z := match r with Dec => 10 | Hex => 16 | Oct => 8 | Bin => 2 end.
Inductive ScalarKind := KString | KBoolean (b : bool) | KDateTime | KFloat | KInteger (r : IntegerRadix).

Record DeviceTomlBuilder := mkBuilder {
  section_bits : Z;
  b_api_version : option (list Z);
  b_kind : option (list Z);
  b_private_key : option (list Z);
  b_tunnel_address : option (list Z);
  b_mtu : option Z;
  b_listen_port : option Z;
  b_enable_forwarding : option bool;
  b_wifi_ssid : option (list Z);
  b_wifi_password : option (list Z);
  b_tracker_host : option (list Z);
  b_tracker_port : option Z;
  b_tracker_public_key : option (list Z);
  b_tracker_tunnel_address : option (list Z);
  b_ntp_host : option (list Z);
  b_ntp_port : option Z }.
Definition builder_default : DeviceTomlBuilder :=
  mkBuilder 0 None None None None None None None None None None None None None None None.

Definition MICROTUN : Z := 1.
Definition TUNNEL : Z := 2.
Definition WIFI : Z := 4.
Definition TRACKER : Z := 8.
Definition NTP : Z := 16.

Definition section_bit (s : SectionId) : option Z :=
  match s with
  | Microtun => Some MICROTUN | Tunnel => Some TUNNEL | Wifi => Some WIFI
  | Tracker => Some TRACKER | Ntp => Some NTP | Root => None
  end.
Definition has_section (b : DeviceTomlBuilder) (bit : Z) : bool := negb (Z.land (section_bits b) bit =? 0).

Definition with_bits (z : Z) (b : DeviceTomlBuilder) : DeviceTomlBuilder :=
  let '(mkBuilder _ a1 a2 a3 a4 a5 a6 a7 a8 a9 a10 a11 a12 a13 a14 a15) := b in
  mkBuilder z a1 a2 a3 a4 a5 a6 a7 a8 a9 a10 a11 a12 a13 a14 a15.

Definition enter_section (b : DeviceTomlBuilder) (s : SectionId) : DeviceTomlBuilder * bool :=
  match section_bit s with
  | None => (b, false)
  | Some bit => if has_section b bit then (b, false) else (with_bits (Z.lor (section_bits b) bit) b, true)
  end.

(** [finish]: [ok_or(BadToml)] is the bind of [option]. *)
Definition finish_sections (b : DeviceTomlBuilder) : option DeviceConfig :=
  if negb (has_section b MICROTUN) || negb (has_section b TUNNEL) || negb (has_section b TRACKER) then None else
  av ← b_api_version b;
  k ← b_kind b;
  pk ← b_private_key b;
  ta ← b_tunnel_address b;
  w ← (if has_section b WIFI then
         s ← b_wifi_ssid b; p ← b_wifi_password b; Some (Some (mkWifi s p))
       else Some None);
  th ← b_tracker_host b;
  tp ← b_tracker_port b;
  tk ← b_tracker_public_key b;
  tr ← b_tracker_tunnel_address b;
  n ← (if has_section b NTP then
         h ← b_ntp_host b; p ← b_ntp_port b; Some (Some (mkNtp h p))
       else Some None);
  Some (mkConfig (mkMicrotun av k)
    (mkTunnel pk ta (b_mtu b) (b_listen_port b) (default false (b_enable_forwarding b)))
    w (mkTracker th tp tk tr) n).
Definition finish (b : DeviceTomlBuilder) : DeviceConfigError + DeviceConfig :=
  match finish_sections b with Some c => inr c | None => inl BadToml end.

(** ** Slots *)

(** [set_string::<N>]: the slot and whether it was set. *)
Definition set_string (N : nat) (slot : option (list Z)) (value : list Z) (k : ScalarKind)
    : option (list Z) * bool :=
  match slot, k with
  | None, KString => if (str_len value <=? N)%nat then (Some value, true) else (slot, false)
  | _, _ => (slot, false)
  end.

(** [char::to_digit]. *)
Definition to_digit (radix c : Z) : option Z :=
  let d := if (48 <=? c) && (c <=? 57) then c - 48
           else if (97 <=? c) && (c <=? 122) then c - 87
           else if (65 <=? c) && (c <=? 90) then c - 55
           else radix in
  if d <? radix then Some d else None.

(** The digits of [u16::from_str_radix], each step checked. *)
Fixpoint digits_u16 (radix acc : Z) (s : list Z) : option Z :=
  match s with
  | [] => Some acc
  | c :: s =>
      d ← to_digit radix c;
      if u16_max <? acc * radix + d then None else digits_u16 radix (acc * radix + d) s
  end.

(** [u16::from_str_radix]: a leading plus sign is allowed, no digits are not. *)
Definition u16_from_str_radix (s : list Z) (radix : Z) : option Z :=
  let s := match s with 43 :: s' => s' | _ => s end in
  if is_empty s then None else digits_u16 radix 0 s.

Definition parse_u16 (value : list Z) (radix : IntegerRadix) : option Z :=
  let value := match value with 43 :: v => v | _ => value end in
  match value with
  | 45 :: _ => None
  | _ => u16_from_str_radix value (radix_value radix)
  end.

Definition set_u16 (slot : option Z) (value : list Z) (k : ScalarKind) : option Z * bool :=
  match slot, k with
  | None, KInteger radix =>
      match parse_u16 value radix with Some n => (Some n, true) | None => (slot, false) end
  | _, _ => (slot, false)
  end.

Definition set_bool (slot : option bool) (k : ScalarKind) : option bool * bool :=
  match slot, k with
  | None, KBoolean v => (Some v, true)
  | _, _ => (slot, false)
  end.

(** The [match (self.section, key)] of [assign_scalar]. *)
Definition assign (b : DeviceTomlBuilder) (s : SectionId) (key value : list Z) (k : ScalarKind)
    : DeviceTomlBuilder * bool :=
  let '(mkBuilder bits av kd pk ta mt lp ef ws wp th tp tk tr nh np) := b in
  let named := fun name : string => same key (str name) in
  match s with
  | Microtun =>
      if named "ApiVersion"%string then
        let '(av, ok) := set_string 32 av value k in (mkBuilder bits av kd pk ta mt lp ef ws wp th tp tk tr nh np, ok)
      else if named "Kind"%string then
        let '(kd, ok) := set_string 16 kd value k in (mkBuilder bits av kd pk ta mt lp ef ws wp th tp tk tr nh np, ok)
      else (b, false)
  | Tunnel =>
      if named "PrivateKey"%string then
        let '(pk, ok) := set_string KEY_TEXT_LEN pk value k in (mkBuilder bits av kd pk ta mt lp ef ws wp th tp tk tr nh np, ok)
      else if named "Address"%string then
        let '(ta, ok) := set_string 43 ta value k in (mkBuilder bits av kd pk ta mt lp ef ws wp th tp tk tr nh np, ok)
      else if named "MTU"%string then
        let '(mt, ok) := set_u16 mt value k in (mkBuilder bits av kd pk ta mt lp ef ws wp th tp tk tr nh np, ok)
      else if named "ListenPort"%string then
        let '(lp, ok) := set_u16 lp value k in (mkBuilder bits av kd pk ta mt lp ef ws wp th tp tk tr nh np, ok)
      else if named "EnableForwarding"%string then
        let '(ef, ok) := set_bool ef k in (mkBuilder bits av kd pk ta mt lp ef ws wp th tp tk tr nh np, ok)
      else (b, false)
  | Wifi =>
      if named "SSID"%string then
        let '(ws, ok) := set_string 32 ws value k in (mkBuilder bits av kd pk ta mt lp ef ws wp th tp tk tr nh np, ok)
      else if named "Password"%string then
        let '(wp, ok) := set_string 63 wp value k in (mkBuilder bits av kd pk ta mt lp ef ws wp th tp tk tr nh np, ok)
      else (b, false)
  | Tracker =>
      if named "Host"%string then
        let '(th, ok) := set_string 64 th value k in (mkBuilder bits av kd pk ta mt lp ef ws wp th tp tk tr nh np, ok)
      else if named "Port"%string then
        let '(tp, ok) := set_u16 tp value k in (mkBuilder bits av kd pk ta mt lp ef ws wp th tp tk tr nh np, ok)
      else if named "PublicKey"%string then
        let '(tk, ok) := set_string KEY_TEXT_LEN tk value k in (mkBuilder bits av kd pk ta mt lp ef ws wp th tp tk tr nh np, ok)
      else if named "TunnelAddress"%string then
        let '(tr, ok) := set_string 43 tr value k in (mkBuilder bits av kd pk ta mt lp ef ws wp th tp tk tr nh np, ok)
      else (b, false)
  | Ntp =>
      if named "Host"%string then
        let '(nh, ok) := set_string 64 nh value k in (mkBuilder bits av kd pk ta mt lp ef ws wp th tp tk tr nh np, ok)
      else if named "Port"%string then
        let '(np, ok) := set_u16 np value k in (mkBuilder bits av kd pk ta mt lp ef ws wp th tp tk tr nh np, ok)
      else (b, false)
  | Root => (b, false)
  end.

(** ** The receiver *)

(** A builder of bounded strings: what it holds and whether every call was
    accepted. *)
Inductive BuilderCall := Clear | PushStr (append : list Z) | PushChar (c : Z).
Definition builder_call (N : nat) (s : list Z) (call : BuilderCall) : list Z * bool :=
  match call with
  | Clear => ([], true)
  | PushStr a => if (str_len s + str_len a <=? N)%nat then (s ++ a, true) else (s, false)
  | PushChar c => if (str_len s + len_utf8 c <=? N)%nat then (s ++ [c], true) else (s, false)
  end.
Fixpoint builder_calls (N : nat) (s : list Z) (calls : list BuilderCall) : list Z * bool :=
  match calls with
  | [] => (s, true)
  | c :: calls =>
      let '(s, ok) := builder_call N s c in
      let '(s, oks) := builder_calls N s calls in (s, ok && oks)
  end.

(** A span is its start and end, an encoding a number the parser gave. *)
Record Span := mkSpan { sp_start : nat; sp_end : nat }.
Definition Encoding := nat.

(** [str::get(start..end)], on bytes: both ends on a character boundary. *)
Definition is_char_boundary (input : list Z) (i : nat) : bool :=
  Nat.eqb i (length input) || match input !! i with Some b => negb (is_continuation b) | None => false end.
Definition str_get (input : list Z) (s : Span) : option (list Z) :=
  if (sp_start s <=? sp_end s)%nat && is_char_boundary input (sp_start s) && is_char_boundary input (sp_end s)
  then Some (take (sp_end s - sp_start s) (drop (sp_start s) input)) else None.

Inductive Event :=
| StdTableOpen | StdTableClose | ArrayTableOpen | ArrayTableClose | InlineTableOpen | ArrayOpen
| SimpleKey (span : Span) (encoding : option Encoding) | KeySep
| Scalar (span : Span) (encoding : option Encoding) | ErrorEvent
(** Events whose receiver method is the trait's empty default. *)
| Ignored.

Record DeviceTomlReceiver := mkReceiver {
  section : SectionId;
  header_kind : HeaderKind;
  header_name : list Z;
  pending_key : list Z;
  builder : DeviceTomlBuilder;
  failed : bool }.

Definition receiver_new : DeviceTomlReceiver := mkReceiver Root NoHeader [] [] builder_default false.
Definition fail (r : DeviceTomlReceiver) : DeviceTomlReceiver :=
  let '(mkReceiver s hk hn pk b _) := r in mkReceiver s hk hn pk b true.

Definition section_of (name : list Z) : option SectionId :=
  if same name (str "Microtun") then Some Microtun
  else if same name (str "Tunnel") then Some Tunnel
  else if same name (str "WiFi") then Some Wifi
  else if same name (str "Tracker") then Some Tracker
  else if same name (str "NTP") then Some Ntp
  else None.

Definition set_section (r : DeviceTomlReceiver) : DeviceTomlReceiver :=
  let '(s, unknown) := match section_of (header_name r) with Some s => (s, false) | None => (Root, true) end in
  let '(b, entered) := if decide (s = Root) then (builder r, true) else enter_section (builder r) s in
  mkReceiver s NoHeader [] (pending_key r) b (failed r || unknown || negb entered).

Section Receiver.
Context (input : list Z).
Context (raw_decode_key : list Z -> option Encoding -> list BuilderCall * bool).
Context (raw_decode_scalar : list Z -> option Encoding -> list BuilderCall * bool * ScalarKind).

(** [decode_key]: the key, unless the span or the decoder fails. *)
Definition decode_key (span : Span) (encoding : option Encoding) : option (list Z) :=
raw_text ← str_get input span;
let '(calls, error) := raw_decode_key raw_text encoding in
let '(key, ok) := builder_calls TOML_KEY_CAPACITY [] calls in
if error || negb ok then None else Some key.

(** The decoded value and its kind. *)
Definition decode_value (span : Span) (encoding : option Encoding) : option (list Z * ScalarKind) :=
raw_text ← str_get input span;
let '(calls, error, k) := raw_decode_scalar raw_text encoding in
let '(value, ok) := builder_calls TOML_VALUE_CAPACITY [] calls in
if error || negb ok then None else Some (value, k).

Definition assign_scalar (r : DeviceTomlReceiver) (span : Span) (encoding : option Encoding)
  : DeviceTomlReceiver :=
if is_empty (pending_key r) || bool_decide (section r = Root) then fail r else
match decode_value span encoding with
| None => fail r
| Some (value, k) =>
    let '(b, ok) := assign (builder r) (section r) (pending_key r) value k in
    mkReceiver (section r) (header_kind r) (header_name r) [] b (failed r || negb ok)
end.

Definition simple_key (r : DeviceTomlReceiver) (span : Span) (encoding : option Encoding)
  : DeviceTomlReceiver :=
match decode_key span encoding with
| None => fail r
| Some key =>
    let '(mkReceiver s hk hn pk b f) := r in
    if negb (bool_decide (hk = NoHeader)) then
      if negb (is_empty hn) then fail r else mkReceiver s hk key pk b f
    else if negb (is_empty pk) then fail r
    else mkReceiver s hk hn key b f
end.

Definition receive (r : DeviceTomlReceiver) (e : Event) : DeviceTomlReceiver :=
let '(mkReceiver s hk hn pk b f) := r in
match e with
| StdTableOpen => mkReceiver s Standard [] pk b f
| StdTableClose =>
    if negb (bool_decide (hk = Standard)) || is_empty hn then fail r else set_section r
| ArrayTableOpen => fail (mkReceiver s Array [] pk b f)
| ArrayTableClose => mkReceiver s NoHeader [] pk b f
| InlineTableOpen | ArrayOpen | KeySep | ErrorEvent => fail r
| SimpleKey span encoding => simple_key r span encoding
| Scalar span encoding => assign_scalar r span encoding
| Ignored => r
end.
End Receiver.

(** [decode_toml]. *)
Section Decode.
Context {Token : Type} (lex : list Z -> list Token) (parse_document : list Token -> list Event * bool).
Context (raw_decode_key : list Z -> option Encoding -> list BuilderCall * bool).
Context (raw_decode_scalar : list Z -> option Encoding -> list BuilderCall * bool * ScalarKind).
Context {Inet : Type} (decode_slice : list Z -> option (list Z)) (parse_inet : list Z -> option Inet).

Definition decode_events (toml : list Z) (events : list Event) (parse_error : bool)
  : DeviceConfigError + DeviceConfig :=
let r := foldl (receive toml raw_decode_key raw_decode_scalar) receiver_new events in
if parse_error || failed r then inl BadToml else
match finish (builder r) with
| inl e => inl e
| inr config => if validate decode_slice parse_inet config then inr config else inl InvalidConfig
end.

Definition decode_toml (toml : list Z) : DeviceConfigError + DeviceConfig :=
match from_utf8 toml with
| None => inl BadToml
| Some text =>
    let tokens := lex text in
    if (TOML_TOKEN_CAPACITY <? length tokens)%nat then inl BadToml else
    let '(events, parse_error) := parse_document tokens in
    decode_events toml events parse_error
end.
End Decode.

(** ** Fields

    A field is a key of a section; a builder has a slot for each. *)

Inductive Field :=
| FApiVersion | FKind | FPrivateKey | FAddress | FMtu | FListenPort | FForwarding | FSsid | FPassword
| FTrackerHost | FTrackerPort | FPublicKey | FTunnelAddress | FNtpHost | FNtpPort.
#[export] Instance Field_eq_dec : EqDecision Field.
Proof. solve_decision. Defined.

Inductive Value := VText (s : list Z) | VNum (n : Z) | VFlag (b : bool).
Inductive FieldType := TText (cap : nat) | TNum | TFlag.

Definition field_type (f : Field) : FieldType :=
  match f with
  | FApiVersion | FSsid => TText 32
  | FKind => TText 16
  | FPrivateKey | FPublicKey => TText KEY_TEXT_LEN
  | FAddress | FTunnelAddress => TText 43
  | FPassword => TText 63
  | FTrackerHost | FNtpHost => TText 64
  | FMtu | FListenPort | FTrackerPort | FNtpPort => TNum
  | FForwarding => TFlag
  end.

Definition field_section (f : Field) : SectionId :=
  match f with
  | FApiVersion | FKind => Microtun
  | FPrivateKey | FAddress | FMtu | FListenPort | FForwarding => Tunnel
  | FSsid | FPassword => Wifi
  | FTrackerHost | FTrackerPort | FPublicKey | FTunnelAddress => Tracker
  | FNtpHost | FNtpPort => Ntp
  end.

Definition field_of (s : SectionId) (key : list Z) : option Field :=
  let named := fun name : string => same key (str name) in
  match s with
  | Microtun =>
      if named "ApiVersion"%string then Some FApiVersion else if named "Kind"%string then Some FKind else None
  | Tunnel =>
      if named "PrivateKey"%string then Some FPrivateKey else if named "Address"%string then Some FAddress
      else if named "MTU"%string then Some FMtu else if named "ListenPort"%string then Some FListenPort
      else if named "EnableForwarding"%string then Some FForwarding else None
  | Wifi =>
      if named "SSID"%string then Some FSsid else if named "Password"%string then Some FPassword else None
  | Tracker =>
      if named "Host"%string then Some FTrackerHost else if named "Port"%string then Some FTrackerPort
      else if named "PublicKey"%string then Some FPublicKey
      else if named "TunnelAddress"%string then Some FTunnelAddress else None
  | Ntp => if named "Host"%string then Some FNtpHost else if named "Port"%string then Some FNtpPort else None
  | Root => None
  end.

(** The value a scalar has as a field. *)
Definition typed (f : Field) (value : list Z) (k : ScalarKind) : option Value :=
  match field_type f, k with
  | TText cap, KString => if (str_len value <=? cap)%nat then Some (VText value) else None
  | TNum, KInteger radix => VNum <$> parse_u16 value radix
  | TFlag, KBoolean v => Some (VFlag v)
  | _, _ => None
  end.

Definition slot (f : Field) (b : DeviceTomlBuilder) : option Value :=
  match f with
  | FApiVersion => VText <$> b_api_version b
  | FKind => VText <$> b_kind b
  | FPrivateKey => VText <$> b_private_key b
  | FAddress => VText <$> b_tunnel_address b
  | FMtu => VNum <$> b_mtu b
  | FListenPort => VNum <$> b_listen_port b
  | FForwarding => VFlag <$> b_enable_forwarding b
  | FSsid => VText <$> b_wifi_ssid b
  | FPassword => VText <$> b_wifi_password b
  | FTrackerHost => VText <$> b_tracker_host b
  | FTrackerPort => VNum <$> b_tracker_port b
  | FPublicKey => VText <$> b_tracker_public_key b
  | FTunnelAddress => VText <$> b_tracker_tunnel_address b
  | FNtpHost => VText <$> b_ntp_host b
  | FNtpPort => VNum <$> b_ntp_port b
  end.

(** A field of a configuration. *)
Definition field_value (c : DeviceConfig) (f : Field) : option Value :=
  match f with
  | FApiVersion => Some (VText (api_version (microtun c)))
  | FKind => Some (VText (kind (microtun c)))
  | FPrivateKey => Some (VText (private_key (tunnel c)))
  | FAddress => Some (VText (tunnel_address (tunnel c)))
  | FMtu => VNum <$> mtu (tunnel c)
  | FListenPort => VNum <$> listen_port (tunnel c)
  | FForwarding => Some (VFlag (enable_forwarding (tunnel c)))
  | FSsid => (fun w => VText (ssid w)) <$> wifi c
  | FPassword => (fun w => VText (password w)) <$> wifi c
  | FTrackerHost => Some (VText (tracker_host (tracker c)))
  | FTrackerPort => Some (VNum (tracker_port (tracker c)))
  | FPublicKey => Some (VText (public_key (tracker c)))
  | FTunnelAddress => Some (VText (tracker_tunnel_address (tracker c)))
  | FNtpHost => (fun n => VText (ntp_host n)) <$> ntp c
  | FNtpPort => (fun n => VNum (ntp_port n)) <$> ntp c
  end.

Definition in_config (c : DeviceConfig) (s : SectionId) : bool :=
  match s with
  | Microtun | Tunnel | Tracker => true
  | Wifi => if wifi c then true else false
  | Ntp => if ntp c then true else false
  | Root => false
  end.

(** The sections and fields of a document say what the configuration is: each
    at most once, the sections and fields of the configuration and no others.
    Forwarding may be left out where it is off. *)
Definition denotes (sections : list SectionId) (fields : list (Field * Value)) (c : DeviceConfig) : Prop :=
  NoDup sections /\ NoDup (fst <$> fields) /\
  (forall s, s ∈ sections <-> in_config c s = true) /\
  (forall f v, (f, v) ∈ fields -> field_value c f = Some v) /\
  (forall f v, field_value c f = Some v -> (f, v) ∈ fields \/ f = FForwarding /\ v = VFlag false).

(** ** Lemmas on slots *)

(** [assign], by field. *)
Lemma assign_field b s key value k :
  match field_of s key with
  | None => assign b s key value k = (b, false)
  | Some f =>
      field_section f = s /\
      match typed f value k with
      | Some v =>
          if decide (slot f b = None) then
            exists b', assign b s key value k = (b', true) /\ slot f b' = Some v /\
              section_bits b' = section_bits b /\ forall g, g <> f -> slot g b' = slot g b
          else assign b s key value k = (b, false)
      | None => assign b s key value k = (b, false)
      end
  end.
Proof.
  destruct b. destruct s; cbn [field_of assign]; [done|..];
  repeat match goal with |- context [if same key (str ?n) then _ else _] => destruct (same key (str n)) end;
    try done; (split; [done|]); unfold typed; cbn [field_type slot b_api_version b_kind b_private_key
    b_tunnel_address b_mtu b_listen_port b_enable_forwarding b_wifi_ssid b_wifi_password b_tracker_host
    b_tracker_port b_tracker_public_key b_tracker_tunnel_address b_ntp_host b_ntp_port];
  unfold set_string, set_u16, set_bool; destruct k; repeat case_match; simplify_eq/=; try done;
    (eexists; split; [done|]; split; [done|]; split; [done|]; by intros []).
Qed.

Definition has (b : DeviceTomlBuilder) (s : SectionId) : bool :=
  match section_bit s with Some bit => has_section b bit | None => false end.

Lemma has_lor z b s t bit bit' :
  section_bit s = Some bit -> section_bit t = Some bit' ->
  has_section (with_bits (Z.lor z bit) b) bit' = negb (Z.land z bit' =? 0) || bool_decide (t = s).
Proof.
  intros Hs Ht. unfold has_section. destruct b. cbn [with_bits section_bits]. rewrite Z.land_lor_distr_l.
  destruct (bool_decide_reflect (t = s)) as [->|Hne].
  - rewrite Hs in Ht. injection Ht as <-. rewrite orb_true_r. apply negb_true_iff, Z.eqb_neq.
    rewrite Z.lor_eq_0_iff, Z.land_diag. destruct s; naive_solver.
  - replace (Z.land bit bit') with 0; [by rewrite Z.lor_0_r, orb_false_r|].
    destruct s, t; cbn in *; naive_solver.
Qed.

Lemma enter_section_spec b s :
  s <> Root ->
  if has b s then enter_section b s = (b, false)
  else exists b', enter_section b s = (b', true) /\
    (forall t, has b' t = has b t || bool_decide (t = s)) /\ forall f, slot f b' = slot f b.
Proof.
  intros Hr. unfold has, enter_section. destruct (section_bit s) as [bit|] eqn:E; [|by destruct s].
  destruct (has_section b bit); [done|]. eexists. split; [done|]. split.
  - intros t. destruct (section_bit t) as [bit'|] eqn:E'; [by eapply has_lor|].
    destruct t; try done. cbn. symmetry. by apply bool_decide_eq_false.
  - by destruct b; intros [].
Qed.

Lemma section_of_not_root name s : section_of name = Some s -> s <> Root.
Proof. unfold section_of. intros H. repeat case_match; by simplify_eq. Qed.
Lemma section_of_empty : section_of [] = None.
Proof. done. Qed.
Lemma field_of_empty s : field_of s [] = None.
Proof. by destruct s. Qed.
Lemma field_of_section s key f : field_of s key = Some f -> field_section f = s.
Proof. intros H. destruct s; cbn in H; repeat case_match; by simplify_eq. Qed.

(** ** Documents *)

(** A key or scalar token, a section header with its entries. *)
Definition Tok : Type := Span * option Encoding.
Definition DocSection : Type := Tok * list (Tok * Tok).

Definition entry_events (e : Tok * Tok) : list Event :=
  [SimpleKey e.1.1 e.1.2; Scalar e.2.1 e.2.2].
Definition section_events (s : DocSection) : list Event :=
  [StdTableOpen; SimpleKey s.1.1 s.1.2; StdTableClose] ++ concat (entry_events <$> s.2).
(** What a parser emits for tables of plain keys, other than ignored events. *)
Definition doc_events (doc : list DocSection) : list Event := concat (section_events <$> doc).
Definition significant (e : Event) : bool := match e with Ignored => false | _ => true end.

Section Documents.
Context (input : list Z).
Context (raw_decode_key : list Z -> option Encoding -> list BuilderCall * bool).
Context (raw_decode_scalar : list Z -> option Encoding -> list BuilderCall * bool * ScalarKind).
Notation receive := (receive input raw_decode_key raw_decode_scalar).
Notation decode_key := (decode_key input raw_decode_key).
Notation decode_value := (decode_value input raw_decode_scalar).

Definition entry_reads (s : SectionId) (e : Tok * Tok) : option (Field * Value) :=
key ← decode_key e.1.1 e.1.2;
'(value, k) ← decode_value e.2.1 e.2.2;
f ← field_of s key;
v ← typed f value k;
Some (f, v).
Definition section_reads (d : DocSection) : option (SectionId * list (Field * Value)) :=
name ← decode_key d.1.1 d.1.2;
s ← section_of name;
fs ← mapM (entry_reads s) d.2;
Some (s, fs).
(** The sections of a document and all its fields. *)
Definition doc_reads (doc : list DocSection) : option (list SectionId * list (Field * Value)) :=
ss ← mapM section_reads doc;
Some (fst <$> ss, concat (snd <$> ss)).

(** A receiver that has read these sections and fields and nothing else. *)
Record reading (r : DeviceTomlReceiver) (ss : list SectionId) (fs : list (Field * Value)) : Prop := {
rd_failed : failed r = false;
rd_header : header_kind r = NoHeader;
rd_pending : pending_key r = [];
rd_sections : NoDup ss;
rd_fields : NoDup (fst <$> fs);
rd_has : forall s, has (builder r) s = true <-> s ∈ ss;
rd_slot : forall f v, slot f (builder r) = Some v <-> (f, v) ∈ fs }.

Lemma fail_failed r : failed (fail r) = true.
Proof. by destruct r. Qed.

Lemma receive_failed r e : failed r = true -> failed (receive r e) = true.
Proof.
destruct r as [s hk hn pk b f]. cbn [failed]. intros ->.
destruct e; cbn [DeviceConfig.receive fail failed]; try done.
- case_match; [done|]. unfold set_section. repeat case_match; simplify_eq; done.
- unfold simple_key. repeat case_match; done.
- unfold assign_scalar. repeat case_match; done.
Qed.

Lemma run_failed es r : failed r = true -> failed (foldl receive r es) = true.
Proof. revert r. induction es as [|e es IH]; intros r H; cbn; auto using receive_failed. Qed.

Lemma run_significant es r : foldl receive r (retain significant es) = foldl receive r es.
Proof.
revert r. induction es as [|e es IH]; intros r; cbn; [done|].
destruct e; cbn [significant foldl]; auto. rewrite IH. by destruct r.
Qed.

(** Any event outside the grammar of flat tables rejects the document. *)
Lemma nested_rejected es r e :
e ∈ es -> In e [ArrayTableOpen; InlineTableOpen; ArrayOpen; KeySep; ErrorEvent] ->
failed (foldl receive r es) = true.
Proof.
intros [pre [post ->]]%list_elem_of_split He. rewrite foldl_app. cbn [foldl]. apply run_failed.
destruct (foldl receive r pre). cbn in He. by destruct_or! He; subst.
Qed.

Lemma not_NoDup_dup {A B} (fs gs : list (A * B)) x y :
(x.1, y) ∈ fs -> NoDup ((fs ++ x :: gs).*1) -> False.
Proof.
intros Hy H. rewrite fmap_app, NoDup_app in H. destruct H as (_ & H & _).
apply (H x.1); [by apply (list_elem_of_fmap_2 fst _ (x.1, y))|]. cbn. left.
Qed.

Lemma entry_run r ss fs e :
reading r ss fs -> section r <> Root ->
let r' := foldl receive r (entry_events e) in
match entry_reads (section r) e with
| Some x => if decide (NoDup ((fs ++ [x]).*1)) then reading r' ss (fs ++ [x]) /\ section r' = section r
            else failed r' = true
| None => failed r' = true
end.
Proof.
intros [Hf Hk Hp Hss Hfs Hh Hs] Hroot. destruct r as [s hk hn pk b f]. cbn [failed header_kind pending_key section builder] in *.
subst. cbn [entry_events foldl DeviceConfig.receive]. unfold simple_key, entry_reads.
destruct (decode_key e.1.1 e.1.2) as [key|]; cbn [mbind option_bind]; [|by apply receive_failed, fail_failed].
cbn [bool_decide decide SectionId_eq_dec HeaderKind_eq_dec is_empty negb].
rewrite (bool_decide_eq_true_2 (NoHeader = NoHeader)) by done. cbn [negb].
cbn [DeviceConfig.receive]. unfold assign_scalar.
cbn [pending_key section builder failed header_kind header_name].
rewrite (bool_decide_eq_false_2 _ Hroot), orb_false_r.
destruct key as [|c key]; cbn [is_empty].
{ destruct (decode_value e.2.1 e.2.2) as [[value k]|]; cbn [mbind option_bind]; [rewrite field_of_empty|]; done. }
destruct (decode_value e.2.1 e.2.2) as [[value k]|]; cbn [mbind option_bind]; [|done].
pose proof (assign_field b s (c :: key) value k) as Ha.
destruct (field_of s (c :: key)) as [f|]; cbn [mbind option_bind]; [|by rewrite Ha].
destruct Ha as [_ Ha]. destruct (typed f value k) as [v|]; cbn [mbind option_bind]; [|by rewrite Ha].
destruct (decide (slot f b = None)) as [Hn|Hn].
- destruct Ha as (b' & Ha & Hb & Hbits & Hother). rewrite Ha. cbn [negb orb failed section].
  assert (Hnew : f ∉ fs.*1).
  { intros ((f' & x) & -> & Hx)%list_elem_of_fmap. cbn in Hn. apply Hs in Hx. congruence. }
  rewrite decide_True by (rewrite fmap_app, NoDup_app; split_and!; [done| |apply NoDup_singleton];
    cbn; intros g Hg ->%list_elem_of_singleton; done).
  split; [|done]. split; try done.
  + rewrite fmap_app, NoDup_app. split_and!; [done| |apply NoDup_singleton].
    cbn. by intros g Hg ->%list_elem_of_singleton.
  + intros t. cbn [builder]. rewrite <- Hh. unfold has, has_section. by rewrite Hbits.
  + intros g w. cbn [builder]. rewrite elem_of_app, list_elem_of_singleton. destruct (decide (g = f)) as [->|Hg].
    * rewrite Hb. split; [intros [= ->]; by right|]. intros [Hx|Hx]; [|congruence].
      apply Hs in Hx. congruence.
    * rewrite Hother, Hs by done. naive_solver.
- rewrite Ha. cbn [negb orb failed]. destruct (slot f b) as [w|] eqn:E; [|done].
  rewrite decide_False; [done|]. intros H. apply (not_NoDup_dup fs [] (f, v) w); [by apply Hs|done].
Qed.

Lemma NoDup_fmap_app_l {A B} (fs gs : list (A * B)) : NoDup ((fs ++ gs).*1) -> NoDup (fs.*1).
Proof. rewrite fmap_app, NoDup_app. tauto. Qed.

Lemma entries_run es : forall r ss fs,
reading r ss fs -> section r <> Root ->
let r' := foldl receive r (concat (entry_events <$> es)) in
match mapM (entry_reads (section r)) es with
| Some xs => if decide (NoDup ((fs ++ xs).*1)) then reading r' ss (fs ++ xs) else failed r' = true
| None => failed r' = true
end.
Proof.
induction es as [|e es IH]; intros r ss fs Hr Hroot; cbn [fmap list_fmap concat foldl mapM].
{ cbn [mret option_ret]. rewrite app_nil_r, decide_True by apply Hr. done. }
cbv zeta. rewrite foldl_app. pose proof (entry_run r ss fs e Hr Hroot) as He. cbv zeta in He.
destruct (entry_reads (section r) e) as [x|]; cbn [mbind option_bind]; [|by apply run_failed].
case_decide as Hx.
- destruct He as [He Hsec]. rewrite <- Hsec in Hroot |- *. specialize (IH _ _ _ He Hroot). cbv zeta in IH.
  destruct (mapM _ es) as [xs|]; cbn [mbind option_bind mret option_ret]; [|done].
  rewrite <- app_assoc in IH. done.
- apply (run_failed (concat (entry_events <$> es))) in He.
  destruct (mapM _ es) as [xs|]; cbn [mbind option_bind mret option_ret]; [|done].
  rewrite decide_False; [done|]. intros H. apply Hx.
  change (x :: xs) with ([x] ++ xs) in H. rewrite app_assoc in H. by apply NoDup_fmap_app_l in H.
Qed.

Lemma header_run r ss fs h :
reading r ss fs ->
let r' := foldl receive r [StdTableOpen; SimpleKey h.1 h.2; StdTableClose] in
match (name ← decode_key h.1 h.2; section_of name) with
| Some s => if decide (NoDup (ss ++ [s])) then reading r' (ss ++ [s]) fs /\ section r' = s
            else failed r' = true
| None => failed r' = true
end.
Proof.
intros [Hf Hk Hp Hss Hfs Hh Hs]. destruct r as [s0 hk hn pk b f]. cbn [failed header_kind pending_key builder] in *.
subst. cbn [foldl DeviceConfig.receive]. unfold simple_key.
destruct (decode_key h.1 h.2) as [name|]; cbn [mbind option_bind]; [|by apply receive_failed, fail_failed].
rewrite (bool_decide_eq_false_2 (Standard = NoHeader)) by done. cbn [negb is_empty DeviceConfig.receive].
rewrite (bool_decide_eq_true_2 (Standard = Standard)) by done. cbn [negb orb].
destruct name as [|c name]; cbn [is_empty]; [by rewrite section_of_empty|].
unfold set_section. cbn [header_name pending_key builder failed].
destruct (section_of (c :: name)) as [s|] eqn:E; [|by rewrite decide_True by done].
pose proof (section_of_not_root _ _ E) as Hroot. rewrite (decide_False (P := s = Root)) by done.
pose proof (enter_section_spec b s Hroot) as He. destruct (has b s) eqn:Hb.
- rewrite He. cbn [negb orb failed]. rewrite decide_False; [done|]. apply Hh in Hb.
  rewrite NoDup_app. intros (_ & H & _). apply (H s Hb), list_elem_of_singleton. done.
- destruct He as (b' & -> & Hhas & Hslot).
  assert (Hnew : s ∉ ss) by (intros H; apply Hh in H; congruence).
  assert (Hnd : NoDup (ss ++ [s])).
  { apply NoDup_app. split_and!; [done| |apply NoDup_singleton]. by intros t Ht ->%list_elem_of_singleton. }
  rewrite decide_True by done. split; [|done]. split; try done; cbn [builder].
  + intros t. rewrite Hhas, orb_true_iff, bool_decide_eq_true, Hh, elem_of_app, list_elem_of_singleton. done.
  + intros g v. by rewrite Hslot.
Qed.

Lemma section_run r ss fs d :
reading r ss fs ->
let r' := foldl receive r (section_events d) in
match section_reads d with
| Some (s, xs) => if decide (NoDup (ss ++ [s]) /\ NoDup ((fs ++ xs).*1)) then reading r' (ss ++ [s]) (fs ++ xs)
                  else failed r' = true
| None => failed r' = true
end.
Proof.
intros Hr. unfold section_events. cbv zeta. rewrite foldl_app.
pose proof (header_run r ss fs d.1 Hr) as Hh. cbv zeta in Hh. unfold section_reads.
destruct (decode_key d.1.1 d.1.2) as [name|]; cbn [mbind option_bind] in *; [|by apply run_failed].
destruct (section_of name) as [s|] eqn:E; cbn [mbind option_bind]; [|by apply run_failed].
apply section_of_not_root in E. case_decide as Hnd.
- destruct Hh as [Hh Hsec]. rewrite <- Hsec in E. pose proof (entries_run d.2 _ _ _ Hh E) as He.
  cbv zeta in He. rewrite Hsec in He. destruct (mapM _ d.2) as [xs|]; cbn [mbind option_bind]; [|done].
  case_decide as Hx; case_decide as Hy; tauto.
- apply (run_failed (concat (entry_events <$> d.2))) in Hh.
  destruct (mapM _ d.2) as [xs|]; cbn [mbind option_bind]; [|done]. rewrite decide_False; tauto.
Qed.

Lemma doc_run doc : forall r ss fs,
reading r ss fs ->
let r' := foldl receive r (doc_events doc) in
match mapM section_reads doc with
| Some xs => if decide (NoDup (ss ++ (fst <$> xs)) /\ NoDup ((fs ++ concat (snd <$> xs)).*1))
             then reading r' (ss ++ (fst <$> xs)) (fs ++ concat (snd <$> xs)) else failed r' = true
| None => failed r' = true
end.
Proof.
induction doc as [|d doc IH]; intros r ss fs Hr; unfold doc_events; cbn [fmap list_fmap concat foldl mapM].
{ cbn [mret option_ret fmap list_fmap concat]. rewrite !app_nil_r, decide_True; [done|]. split; apply Hr. }
cbv zeta. rewrite foldl_app. pose proof (section_run r ss fs d Hr) as Hd. cbv zeta in Hd.
destruct (section_reads d) as [[s xs]|]; cbn [mbind option_bind]; [|by apply run_failed].
case_decide as Hnd.
- specialize (IH _ _ _ Hd). cbv zeta in IH. destruct (mapM section_reads doc) as [ys|]; cbn [mbind option_bind]; [|done].
  rewrite <- !app_assoc in IH. exact IH.
- apply (run_failed (doc_events doc)) in Hd.
  destruct (mapM section_reads doc) as [ys|]; cbn [mbind option_bind]; [|done].
  cbn [mret option_ret fmap list_fmap concat]. rewrite decide_False; [done|].
  intros [H1 H2]. apply Hnd. cbn [fst snd] in H1, H2.
  change (s :: (fst <$> ys)) with ([s] ++ (fst <$> ys)) in H1. rewrite app_assoc in H1, H2.
  apply NoDup_app in H1 as [H1 _]. by apply NoDup_fmap_app_l in H2.
Qed.
End Documents.

(** ** Finishing *)

(** The builder holds exactly the configuration. *)
Definition holds (b : DeviceTomlBuilder) (c : DeviceConfig) : Prop :=
  (forall s, has b s = in_config c s) /\
  (forall f, slot f b = field_value c f \/
     f = FForwarding /\ slot f b = None /\ field_value c f = Some (VFlag false)).

Lemma denotes_holds ss fs b c :
  NoDup ss -> NoDup (fs.*1) -> (forall s, has b s = true <-> s ∈ ss) ->
  (forall f v, slot f b = Some v <-> (f, v) ∈ fs) ->
  denotes ss fs c <-> holds b c.
Proof.
  intros Hss Hfs Hh Hs. split.
  - intros (_ & _ & Hsec & Hin & Hout). split.
    + intros s. apply eq_true_iff_eq. by rewrite Hh, Hsec.
    + intros f. destruct (slot f b) as [v|] eqn:E.
      * left. symmetry. by apply Hin, Hs.
      * destruct (field_value c f) as [v|] eqn:E2; [|by left].
        destruct (Hout f v E2) as [Hv|[-> ->]]; [apply Hs in Hv; congruence|]. by right.
  - intros [Hsec Hf]. split; [done|]. split; [done|]. split; [|split].
    + intros s. by rewrite <- Hh, Hsec.
    + intros f v Hv. apply Hs in Hv. destruct (Hf f) as [E|(_ & E & _)]; congruence.
    + intros f v Hv. destruct (Hf f) as [E|(-> & _ & E)].
      * left. apply Hs. congruence.
      * right. split; [done|]. congruence.
Qed.

Lemma empty_slot {A} (g : A -> Value) (o : option A) : (g <$> o <> None -> false = true) -> o = None.
Proof. destruct o; [|done]. intros H. discriminate H. done. Qed.

(** A slot that holds a text, a number or a flag. *)
Lemma fmap_Some_inj {A} (g : A -> Value) (o : option A) x :
  Inj eq eq g -> g <$> o = Some (g x) -> o = Some x.
Proof. intros Hg (y & -> & E)%fmap_Some. f_equal. symmetry. by apply (inj g). Qed.
Lemma fmap_VNum_inj (o p : option Z) : VNum <$> o = VNum <$> p -> o = p.
Proof. destruct o, p; cbn; congruence. Qed.
#[export] Instance VText_inj : Inj eq eq VText. Proof. congruence. Qed.
#[export] Instance VNum_inj : Inj eq eq VNum. Proof. congruence. Qed.
#[export] Instance VFlag_inj : Inj eq eq VFlag. Proof. congruence. Qed.

Lemma finish_holds b c :
  (forall f, slot f b <> None -> has b (field_section f) = true) ->
  finish_sections b = Some c <-> holds b c.
Proof.
  intros Hsec. split.
  - unfold finish_sections. case_match eqn:G; [done|]. apply orb_false_iff in G as [[G1%negb_false_iff G2%negb_false_iff]%orb_false_iff G3%negb_false_iff].
    intros H. apply bind_Some in H as (av & Eav & H). apply bind_Some in H as (kd & Ekd & H).
    apply bind_Some in H as (pk & Epk & H). apply bind_Some in H as (ta & Eta & H).
    apply bind_Some in H as (w & Ew & H). apply bind_Some in H as (th & Eth & H).
    apply bind_Some in H as (tp & Etp & H). apply bind_Some in H as (tk & Etk & H).
    apply bind_Some in H as (tr & Etr & H). apply bind_Some in H as (n & En & H). injection H as <-.
    assert (Hw : has b Wifi = (if w then true else false) /\
      slot FSsid b = (fun w => VText (ssid w)) <$> w /\ slot FPassword b = (fun w => VText (password w)) <$> w).
    { pose proof (Hsec FSsid) as S1. pose proof (Hsec FPassword) as S2. cbn in S1, S2 |- *.
      destruct (has_section b WIFI).
      - apply bind_Some in Ew as (s & -> & Ew). apply bind_Some in Ew as (p & -> & [= <-]). done.
      - injection Ew as <-. by rewrite (empty_slot VText _ S1), (empty_slot VText _ S2). }
    assert (Hn : has b Ntp = (if n then true else false) /\
      slot FNtpHost b = (fun n => VText (ntp_host n)) <$> n /\ slot FNtpPort b = (fun n => VNum (ntp_port n)) <$> n).
    { pose proof (Hsec FNtpHost) as S1. pose proof (Hsec FNtpPort) as S2. cbn in S1, S2 |- *.
      destruct (has_section b NTP).
      - apply bind_Some in En as (s & -> & En). apply bind_Some in En as (p & -> & [= <-]). done.
      - injection En as <-. by rewrite (empty_slot VText _ S1), (empty_slot VNum _ S2). }
    split.
    + intros []; cbn [in_config wifi ntp]; try done; try apply Hw; apply Hn.
    + intros f. destruct f; try (left; cbn; rewrite ?Eav, ?Ekd, ?Epk, ?Eta, ?Eth, ?Etp, ?Etk, ?Etr; done);
        try (left; apply Hw); try (left; apply Hn).
      cbn. destruct (b_enable_forwarding b); [by left|by right].
  - intros [Hh Hf].
    assert (Hv : forall f, f <> FForwarding -> slot f b = field_value c f) by (intros f; destruct (Hf f); tauto).
    assert (Hb : has_section b MICROTUN = true /\ has_section b TUNNEL = true /\ has_section b TRACKER = true)
      by (split_and!; [apply (Hh Microtun)|apply (Hh Tunnel)|apply (Hh Tracker)]).
    destruct Hb as (B1 & B2 & B3). unfold finish_sections. rewrite B1, B2, B3. cbn [negb orb].
    rewrite (fmap_Some_inj VText _ _ _ (Hv FApiVersion ltac:(done))). cbn [mbind option_bind].
    rewrite (fmap_Some_inj VText _ _ _ (Hv FKind ltac:(done))). cbn [mbind option_bind].
    rewrite (fmap_Some_inj VText _ _ _ (Hv FPrivateKey ltac:(done))). cbn [mbind option_bind].
    rewrite (fmap_Some_inj VText _ _ _ (Hv FAddress ltac:(done))). cbn [mbind option_bind].
    pose proof (Hh Wifi) as BW. pose proof (Hh Ntp) as BN. cbn in BW, BN. rewrite BW, BN.
    pose proof (Hv FSsid ltac:(done)) as V1. pose proof (Hv FPassword ltac:(done)) as V2.
    pose proof (Hv FNtpHost ltac:(done)) as V3. pose proof (Hv FNtpPort ltac:(done)) as V4.
    pose proof (fmap_VNum_inj _ _ (Hv FMtu ltac:(done))) as V5.
    pose proof (fmap_VNum_inj _ _ (Hv FListenPort ltac:(done))) as V6.
    assert (V7 : default false (b_enable_forwarding b) = enable_forwarding (tunnel c)).
    { destruct (Hf FForwarding) as [E|(_ & E & E2)]; cbn in *.
      - by rewrite (fmap_Some_inj VFlag _ _ _ E).
      - injection E2 as ->. by destruct (b_enable_forwarding b). }
    rewrite (fmap_Some_inj VText _ _ _ (Hv FTrackerHost ltac:(done))),
      (fmap_Some_inj VNum _ _ _ (Hv FTrackerPort ltac:(done))),
      (fmap_Some_inj VText _ _ _ (Hv FPublicKey ltac:(done))),
      (fmap_Some_inj VText _ _ _ (Hv FTunnelAddress ltac:(done))).
    rewrite V5, V6, V7. destruct c as [[] [] [[]|] [] [[]|]]; cbn in V1, V2, V3, V4 |- *;
      try rewrite (fmap_Some_inj VText _ _ _ V1), (fmap_Some_inj VText _ _ _ V2); cbn [mbind option_bind];
      try rewrite (fmap_Some_inj VText _ _ _ V3), (fmap_Some_inj VNum _ _ _ V4); done.
Qed.

(** ** What decodes to what *)

Lemma doc_reads_sections input dk ds doc ss fs f v :
  doc_reads input dk ds doc = Some (ss, fs) -> (f, v) ∈ fs -> field_section f ∈ ss.
Proof.
  unfold doc_reads. intros (xs & Hxs & [= <- <-])%bind_Some Hf.
  apply list_elem_of_In, in_concat in Hf as (l & Hl%list_elem_of_In & Hf%list_elem_of_In).
  apply list_elem_of_fmap in Hl as ((s & l') & -> & Hin). rename Hf into Hl. cbn in Hl.
  apply list_elem_of_fmap. exists (s, l'). split; [|done]. cbn.
  apply mapM_Some in Hxs. apply list_elem_of_lookup in Hin as [i Hi].
  destruct (Forall2_lookup_r _ _ _ _ _ Hxs Hi) as (d & _ & Hd). unfold section_reads in Hd.
  apply bind_Some in Hd as (name & _ & Hd). apply bind_Some in Hd as (s' & _ & Hd).
  apply bind_Some in Hd as (fs & Hfs & [= <- <-]). apply mapM_Some in Hfs.
  apply list_elem_of_lookup in Hl as [j Hj]. destruct (Forall2_lookup_r _ _ _ _ _ Hfs Hj) as (e & _ & He).
  unfold entry_reads in He. apply bind_Some in He as (key & _ & He). apply bind_Some in He as ([value k] & _ & He).
  apply bind_Some in He as (g & Hg & He). apply bind_Some in He as (w & _ & [= <- <-]).
  by eapply field_of_section.
Qed.

Lemma reading_new : reading receiver_new [] [].
Proof.
  split; try done; try apply NoDup_nil_2.
  - intros []; split; [done|intros []%elem_of_nil|done|intros []%elem_of_nil|done|intros []%elem_of_nil
      |done|intros []%elem_of_nil|done|intros []%elem_of_nil|done|intros []%elem_of_nil].
  - intros [] v; cbn; split; try done; by intros ?%elem_of_nil.
Qed.

Section Exact.
Context {Token : Type} (lex : list Z -> list Token) (parse_document : list Token -> list Event * bool).
Context (dk : list Z -> option Encoding -> list BuilderCall * bool).
Context (ds : list Z -> option Encoding -> list BuilderCall * bool * ScalarKind).
Context {Inet : Type} (decode_slice : list Z -> option (list Z)) (parse_inet : list Z -> option Inet).
Notation decode_toml := (decode_toml lex parse_document dk ds decode_slice parse_inet).
Notation decode_events := (decode_events dk ds decode_slice parse_inet).
Notation validate := (validate decode_slice parse_inet).

Lemma decode_events_exact toml events doc c :
retain significant events = doc_events doc ->
decode_events toml events false = inr c <->
(exists ss fs, doc_reads toml dk ds doc = Some (ss, fs) /\ denotes ss fs c) /\ validate c = true.
Proof.
intros Hdoc. unfold DeviceConfig.decode_events. rewrite <- run_significant, Hdoc.
pose proof (doc_run toml dk ds doc receiver_new [] [] reading_new) as Hrun. cbv zeta in Hrun. cbn [app] in Hrun.
pose proof (doc_reads_sections toml dk ds doc) as Hsec. unfold doc_reads in *.
destruct (mapM _ doc) as [xs|]; cbn [mbind option_bind] in *.
2: { rewrite Hrun. split; [done|]. by intros [(? & ? & ? & _) _]. }
case_decide as Hnd.
2: { rewrite Hrun. split; [done|]. intros [(? & ? & [= <- <-] & H1 & H2 & _) _]. tauto. }
destruct Hrun as [Hf _ _ Hss Hfs Hhas Hslot]. rewrite Hf. cbn [orb].
set (b := builder _) in *. unfold finish.
assert (Hfin : forall c', finish_sections b = Some c' <-> denotes (fst <$> xs) (concat (snd <$> xs)) c').
{ intros c'. rewrite finish_holds; [symmetry; by apply denotes_holds|].
  intros f Hn. apply Hhas. destruct (slot f b) as [v|] eqn:E; [|done]. apply (Hsec _ _ f v eq_refl). by apply Hslot. }
split.
- destruct (finish_sections b) as [c'|] eqn:E; [|done]. destruct (validate c') eqn:V; [|done].
  intros [= <-]. split; [|done]. eexists _, _. split; [done|]. by apply Hfin.
- intros [(? & ? & [= <- <-] & Hc%Hfin) V]. by rewrite Hc, V.
Qed.

(** C38: a document of flat tables and at most 256 tokens decodes to a configuration exactly when its
  sections and keys are known, none twice, its values have the fields' types
  and lengths, they are the sections and fields of that configuration
  (forwarding may be absent where it is off), and the configuration is valid. *)
Theorem decode_exact toml text events doc c
  (Htext : from_utf8 toml = Some text) (Htokens : (length (lex text) <= TOML_TOKEN_CAPACITY)%nat)
  (Hparse : parse_document (lex text) = (events, false))
  (Hdoc : retain significant events = doc_events doc) :
decode_toml toml = inr c <->
(exists ss fs, doc_reads toml dk ds doc = Some (ss, fs) /\ denotes ss fs c) /\ validate c = true.
Proof.
unfold DeviceConfig.decode_toml. rewrite Htext, Hparse.
destruct (Nat.ltb_spec TOML_TOKEN_CAPACITY (length (lex text))); [lia|]. by apply decode_events_exact.
Qed.

(** A document that decodes is text of at most 256 tokens without a parse error
  and without nested values, dotted keys or arrays of tables. *)
Lemma decoded_is_flat toml c :
decode_toml toml = inr c ->
exists text events, from_utf8 toml = Some text /\ (length (lex text) <= TOML_TOKEN_CAPACITY)%nat /\
  parse_document (lex text) = (events, false) /\
  Forall (fun e => ~ In e [ArrayTableOpen; InlineTableOpen; ArrayOpen; KeySep; ErrorEvent]) events /\
  validate c = true.
Proof.
unfold DeviceConfig.decode_toml. destruct (from_utf8 toml) as [text|] eqn:Ht; [|done].
destruct (Nat.ltb_spec TOML_TOKEN_CAPACITY (length (lex text))); [done|].
destruct (parse_document (lex text)) as [events perr] eqn:Hp. unfold DeviceConfig.decode_events.
destruct perr; [done|]. destruct (failed _) eqn:Hf; [done|]. cbn [orb]. intros H1.
exists text, events. repeat split; auto.
- apply Forall_forall. intros e He Hin. by rewrite (nested_rejected toml dk ds _ _ _ He Hin) in Hf.
- destruct (finish _) as [|c']; [done|]. destruct (validate c') eqn:V; congruence.
Qed.
End Exact.

(** ** Writing a configuration *)

Definition all_sections : list SectionId := [Microtun; Tunnel; Wifi; Tracker; Ntp].
Definition all_fields : list Field :=
  [FApiVersion; FKind; FPrivateKey; FAddress; FMtu; FListenPort; FForwarding; FSsid; FPassword;
   FTrackerHost; FTrackerPort; FPublicKey; FTunnelAddress; FNtpHost; FNtpPort].
Definition written_sections (c : DeviceConfig) : list SectionId := filter (fun s => in_config c s = true) all_sections.
Definition written_fields (c : DeviceConfig) : list (Field * Value) :=
  omap (fun f => pair f <$> field_value c f) all_fields.

Lemma NoDup_written (g : Field -> option Value) l :
  NoDup l -> NoDup (fst <$> omap (fun f => pair f <$> g f) l).
Proof.
  induction 1 as [|f l Hf _ IH]; cbn; [apply NoDup_nil_2|].
  destruct (g f) as [v|]; cbn; [|done]. apply NoDup_cons. split; [|done].
  intros ((f' & w) & E & Hin)%list_elem_of_fmap. cbn in E. subst f'.
  apply list_elem_of_omap in Hin as (h & Hh & (u & _ & [= <- <-])%fmap_Some). done.
Qed.

(** Sections and fields of a configuration in any order denote it and nothing
    else. *)
Lemma written_denotes c ss fs :
  ss ≡ₚ written_sections c -> fs ≡ₚ written_fields c -> denotes ss fs c.
Proof.
  intros Hss Hfs. unfold denotes. rewrite Hss, Hfs.
  assert (Hall : forall f, f ∈ all_fields) by (intros []; unfold all_fields; repeat (left || right)).
  assert (Hin : forall f v, (f, v) ∈ written_fields c <-> field_value c f = Some v).
  { intros f v. unfold written_fields. rewrite list_elem_of_omap. split.
    - intros (g & _ & (w & Hw & [= <- <-])%fmap_Some). done.
    - intros Hv. exists f. rewrite Hv. auto. }
  split; [|split; [|split; [|split]]].
  - apply NoDup_filter. apply (bool_decide_unpack (NoDup all_sections)). vm_compute. exact I.
  - apply NoDup_written. apply (bool_decide_unpack (NoDup all_fields)). vm_compute. exact I.
  - intros s. rewrite Hss. unfold written_sections. rewrite list_elem_of_filter. split; [tauto|].
    intros H. split; [done|]. destruct s; [done|..]; unfold all_sections; repeat (left || right).
  - intros f v. rewrite Hfs. apply Hin.
  - intros f v Hv. left. rewrite Hfs. by apply Hin.
Qed.


(** ** A concrete document

    A line reader in place of the external parser: headers in brackets, keys
    and values around an equals sign with a space on each side. *)
Module Toy.

Definition span (a b : nat) : Tok := (mkSpan a b, None).
Fixpoint lines (start : nat) (acc s : list Z) : list (nat * list Z) :=
  match s with
  | [] => [(start, reverse acc)]
  | c :: s =>
      if c =? 10 then (start, reverse acc) :: lines (start + length acc + 1) [] s
      else lines start (c :: acc) s
  end.
Definition line (l : nat * list Z) (d : list DocSection * list (Tok * Tok)) : list DocSection * list (Tok * Tok) :=
  let '(start, text) := l in
  let '(doc, entries) := d in
  match text with
  | 91 :: _ => ((span (start + 1) (start + length text - 1), entries) :: doc, [])
  | _ =>
      match position (Z.eqb 61) text with
      | Some i => (doc, (span start (start + i - 1), span (start + i + 2) (start + length text)) :: entries)
      | None => (doc, entries)
      end
  end.
Definition doc (text : list Z) : list DocSection := (foldr line ([], []) (lines 0 [] text)).1.

Definition lex (text : list Z) : list (list Z) := [text].
Definition parse_document (tokens : list (list Z)) : list Event * bool :=
  (Ignored :: doc_events (doc (concat tokens)) ++ [Ignored], false).
Definition raw_key (raw : list Z) (_ : option Encoding) : list BuilderCall * bool := ([Clear; PushStr raw], false).
Definition raw_scalar (raw : list Z) (_ : option Encoding) : list BuilderCall * bool * ScalarKind :=
  match raw with
  | 34 :: rest => ([PushStr (removelast rest)], false, KString)
  | c :: _ =>
      if (48 <=? c) && (c <=? 57) then ([PushStr raw], false, KInteger Dec)
      else ([PushStr raw], false, KBoolean (c =? 116))
  | [] => ([], true, KString)
  end.
Definition decode_slice (text : list Z) : option (list Z) := Some (take 32 text).
Definition parse_inet (text : list Z) : option (list Z) := if is_empty text then None else Some text.

(** A tilde stands for a quotation mark, a bar for the end of a line. *)
Definition text (s : string) : list Z := (fun c => if c =? 126 then 34 else if c =? 124 then 10 else c) <$> str s.
Definition key_text : list Z := str "MzMzMzMzMzMzMzMzMzMzMzMzMzMzMzMzMzMzMzMzMzM=".
Definition toml : list Z :=
  text "[Microtun]|ApiVersion = ~microtun.dev/v1alpha1~|Kind = ~DeviceConfig~|[Tunnel]|PrivateKey = ~" ++ key_text ++
  text "~|Address = ~100.64.0.3/10~|MTU = 1420|[Tracker]|Host = ~console.microtun.dev~|Port = 51820|PublicKey = ~" ++
  key_text ++ text "~|TunnelAddress = ~100.64.0.1/32~|".
Definition config : DeviceConfig :=
  mkConfig (mkMicrotun CONFIG_API_VERSION_ID CONFIG_KIND)
    (mkTunnel key_text (str "100.64.0.3/10") (Some 1420) None false) None
    (mkTracker (str "console.microtun.dev") 51820 key_text (str "100.64.0.1/32")) None.
Definition reads : list SectionId * list (Field * Value) :=
  default ([], []) (doc_reads toml raw_key raw_scalar (doc toml)).
End Toy.

Lemma toy_denotes : denotes Toy.reads.1 Toy.reads.2 Toy.config.
Proof.
  assert (H : denotes Toy.reads.1 ((FForwarding, VFlag false) :: Toy.reads.2) Toy.config).
  { apply written_denotes.
    - vm_compute. reflexivity.
    - change (written_fields Toy.config) with (take 5 (written_fields Toy.config) ++
        (FForwarding, VFlag false) :: drop 6 (written_fields Toy.config)).
      rewrite <- Permutation_middle. apply perm_skip. vm_compute. reflexivity. }
  destruct H as (H1 & H2 & H3 & H4 & H5). split; [done|].
  split; [by apply NoDup_cons in H2 as [_ H2]|]. split; [done|]. split.
  - intros f v Hv. apply H4. by right.
  - intros f v Hv. destruct (H5 f v Hv) as [[E|H]%elem_of_cons|H]; [|by left|by right].
    right. by injection E as -> ->.
Qed.

Lemma decode_exact_witness :
  decode_toml Toy.lex Toy.parse_document Toy.raw_key Toy.raw_scalar Toy.decode_slice Toy.parse_inet Toy.toml =
  inr Toy.config.
Proof.
  apply (decode_exact Toy.lex Toy.parse_document Toy.raw_key Toy.raw_scalar Toy.decode_slice Toy.parse_inet
    Toy.toml Toy.toml (Toy.parse_document (Toy.lex Toy.toml)).1 (Toy.doc Toy.toml) Toy.config).
  - vm_compute. reflexivity.
  - apply Nat.leb_le. vm_compute. reflexivity.
  - reflexivity.
  - vm_compute. reflexivity.
  - split; [|vm_compute; reflexivity].
    exists Toy.reads.1, Toy.reads.2. split; [vm_compute; reflexivity|exact toy_denotes].
Defined.
