(* ===== verification/ApiSession.v ===== *)
(** * Peers API sessions ([microtun-api/src/session.rs], [message.rs], and the
    change handler of [client.rs])

    A session sends and receives whole messages over a WebSocket connection
    (files Ws and WsSession). What the connection delivers is a list of
    messages and errors, in order; when it is used up a receiver waits. What is
    sent is recorded, and [fault] says whether a send fails. JSON is external
    (serde): [Json] gives the text of a message and the readings of it, and
    [JsonLaws] that a written message reads back where it is [carried]: its
    texts need no escapes, which a reader without a buffer does not undo, and
    its numbers have the width of their fields; a null reads back as absent.
    [V] is a JSON value.

    A handler answers a request through a [Responder], so it gives a result or
    an error. The second half shows that a call returns the answer made for it
    and that every notification that came before that answer has reached the
    handler. *)

From Stdlib Require Import ZArith Lia String.
From stdpp Require Import base list option.
From S2P Require Import Prelude Utf8 DeviceConfig.
Open Scope Z_scope.

(** ** Messages *)

Definition MAX_ERROR_TEXT_LEN : nat := 64.
Definition BAD_MESSAGE : Z := 1.
Definition UNKNOWN_METHOD : Z := 2.
Definition INVALID_PARAMS : Z := 3.
Definition INTERNAL : Z := 4.
Definition METHOD_CHANGED : list Z := str "peer.changed".
Definition METHOD_REMOVED : list Z := str "peer.removed".

(** [OutCall], [OutResult] and [OutError]. *)
Inductive OutMessage (V : Type) :=
| OutCall (id : option Z) (method : list Z) (params : option V)
| OutResult (id : Z) (result : V)
| OutError (id : option Z) (code : Z) (message : list Z).
Arguments OutCall {V}.
Arguments OutResult {V}.
Arguments OutError {V}.

Record Envelope := mkEnvelope { env_id : option Z; env_method : option (list Z) }.
Record ResponseEnvelope (V : Type) := mkResponse { resp_result : option V; resp_error : option (Z * list Z) }.
Arguments mkResponse {V}.
Arguments resp_result {V}.
Arguments resp_error {V}.

Record RemoteError := mkRemote { remote_code : Z; remote_message : list Z }.

(** The loop of [RemoteError::new]: characters while they fit. *)
Fixpoint push_chars (N : nat) (text s : list Z) : list Z :=
  match s with
  | [] => text
  | c :: s => if (str_len text + len_utf8 c <=? N)%nat then push_chars N (text ++ [c]) s else text
  end.
Definition remote_new (code : Z) (message : list Z) : RemoteError :=
  mkRemote code (push_chars MAX_ERROR_TEXT_LEN [] message).

(** What serde does; whether a value is null, and whether all its texts can be
    read from the buffer as they are. *)
Record Json (V : Type) := {
  encode : OutMessage V -> list Z;
  envelope : list Z -> option Envelope;
  params_of : list Z -> option (option V);
  response_of : list Z -> option (ResponseEnvelope V);
  is_null : V -> bool;
  readable : V -> bool }.
Arguments encode {V}.
Arguments envelope {V}.
Arguments params_of {V}.
Arguments response_of {V}.
Arguments is_null {V}.
Arguments readable {V}.

(** A text that JSON writes without escapes. *)
Definition plain_text (s : list Z) : bool :=
  forallb (fun c => (32 <=? c) && negb (c =? 34) && negb (c =? 92)) s.
Definition in_width (top n : Z) : bool := (0 <=? n) && (n <=? top).

(** A message whose members read back: [u32] identifiers, [u16] codes, texts and
    values without escapes. *)
Definition carried {V} (J : Json V) (m : OutMessage V) : bool :=
  match m with
  | OutCall id method params =>
      forallb (in_width u32_max) (option_list id) && plain_text method && forallb (readable J) (option_list params)
  | OutResult id v => in_width u32_max id && readable J v
  | OutError id code text => forallb (in_width u32_max) (option_list id) && in_width u16_max code && plain_text text
  end.

(** An [Option] reads null as absent. *)
Definition present {V} (J : Json V) (o : option V) : option V :=
  v ← o; if is_null J v then None else Some v.

Record JsonLaws {V} (J : Json V) : Prop := {
  envelope_reads : forall m, carried J m = true -> envelope J (encode J m) = Some (match m with
    | OutCall id method _ => mkEnvelope id (Some method)
    | OutResult id _ => mkEnvelope (Some id) None
    | OutError id _ _ => mkEnvelope id None
    end);
  params_call : forall id m p, carried J (OutCall id m p) = true ->
    params_of J (encode J (OutCall id m p)) = Some (present J p);
  response_result : forall id v, carried J (OutResult id v) = true ->
    response_of J (encode J (OutResult id v)) = Some (mkResponse (present J (Some v)) None);
  response_error : forall id c t, carried J (OutError id c t) = true ->
    response_of J (encode J (OutError id c t)) = Some (mkResponse None (Some (c, t))) }.

(** ** The session *)

Inductive SessionError (E : Type) :=
| Transport (e : E) | Malformed | Overflow | MissingParams | Remote (r : RemoteError).
Arguments Transport {E}.
Arguments Malformed {E}.
Arguments Overflow {E}.
Arguments MissingParams {E}.
Arguments Remote {E}.

(** What a handler says through its responder. *)
Inductive Responded (V : Type) := ROk (result : V) | RError (code : Z) (message : list Z).
Arguments ROk {V}.
Arguments RError {V}.

Section Session.
  Context {V E H : Type} (J : Json V).
  (** The size of the transmit buffer, and when a send fails. *)
  Context (TX : nat) (fault : nat -> option E).
  (** The handler; it sees the whole message. *)
  Context (handle_request : H -> list Z -> list Z -> H * Responded V).
  Context (handle_notification : H -> list Z -> list Z -> H).

Record Session := mkSession { sent : list (list Z); handler : H; next_id : Z }.
Definition api_session_new (h : H) : Session := mkSession [] h 1.

(** [serde_json_core::to_slice] into the transmit buffer. *)
Definition to_slice (m : OutMessage V) : SessionError E + list Z :=
  let text := encode J m in
  if (length text <=? TX)%nat then inr text else inl Overflow.

(** [ws.send_text] *)
Definition send_text (s : Session) (text : list Z) : Session * option (SessionError E) :=
  match fault (length (sent s)) with
  | Some e => (s, Some (Transport e))
  | None => (mkSession (sent s ++ [text]) (handler s) (next_id s), None)
  end.

(** [Params::parse], as a value. *)
Definition params_parse (message : list Z) : SessionError E + V :=
  match params_of J message with
  | None => inl Malformed
  | Some None => inl MissingParams
  | Some (Some v) => inr v
  end.

Definition write_error (id : option Z) (code : Z) (message : list Z) : SessionError E + list Z :=
  to_slice (OutError id code message).

(** The responder's methods: the response in the buffer, or that it does not
    fit. *)
Definition respond (id : Z) (r : Responded V) : SessionError E + list Z :=
  match r with
  | ROk result => to_slice (OutResult id result)
  | RError code message => write_error (Some id) code message
  end.
Definition unknown_method : Responded V := RError UNKNOWN_METHOD (str "unknown method").
Definition invalid_params : Responded V := RError INVALID_PARAMS (str "invalid params").

(** [send] *)
Definition send (s : Session) (id : option Z) (method : list Z) (params : option V)
    : Session * option (SessionError E) :=
  match to_slice (OutCall id method params) with
  | inl e => (s, Some e)
  | inr text => send_text s text
  end.
Definition notify (s : Session) (method : list Z) (params : option V) : Session * option (SessionError E) :=
  send s None method params.

(** [report], its result dropped. *)
Definition report (s : Session) (text : list Z) : Session :=
  match write_error None BAD_MESSAGE text with
  | inl _ => s
  | inr text => (send_text s text).1
  end.

Definition dispatch (s : Session) (message method : list Z) (id : option Z)
    : Session * option (SessionError E) :=
  match id with
  | None => (mkSession (sent s) (handle_notification (handler s) method message) (next_id s), None)
  | Some id =>
      let '(h, reply) := handle_request (handler s) method message in
      let s := mkSession (sent s) h (next_id s) in
      match (match respond id reply with
             | inr text => inr text
             | inl _ => write_error (Some id) INTERNAL (str "internal error")
             end) with
      | inl e => (s, Some e)
      | inr text => send_text s text
      end
  end.

(** [poll]: the result, or [None] while nothing has arrived. *)
Definition poll (s : Session) (inbox : list (E + list Z))
    : Session * list (E + list Z) * option (SessionError E + unit) :=
  match inbox with
  | [] => (s, [], None)
  | inl e :: inbox => (s, inbox, Some (inl (Transport e)))
  | inr message :: inbox =>
      match envelope J message with
      | None => (report s (str "malformed message"), inbox, Some (inl Malformed))
      | Some (mkEnvelope id (Some method)) =>
          let '(s, e) := dispatch s message method id in
          (s, inbox, Some (match e with Some e => inl e | None => inr tt end))
      | Some (mkEnvelope (Some _) None) => (s, inbox, Some (inr tt))
      | Some (mkEnvelope None None) => (report s (str "not a Peers API message"), inbox, Some (inl Malformed))
      end
  end.

Section Call.
  (** [T::deserialize] of a value. *)
  Context {T : Type} (from_value : V -> option T).

(** The typed second pass over a response. *)
Definition answer (message : list Z) : SessionError E + T :=
  match response_of J message with
  | None => inl Malformed
  | Some (mkResponse result error) =>
      match (match result with
             | None => Some None
             | Some v => Some <$> from_value v
             end) with
      | None => inl Malformed
      | Some result =>
          match error with
          | Some (code, text) => inl (Remote (remote_new code text))
          | None => match result with Some t => inr t | None => inl Malformed end
          end
      end
  end.

(** The loop of [call]: structural in what arrives. *)
Fixpoint call_loop (id : Z) (inbox : list (E + list Z)) (s : Session)
    : Session * list (E + list Z) * option (SessionError E + T) :=
  match inbox with
  | [] => (s, [], None)
  | inl e :: inbox => (s, inbox, Some (inl (Transport e)))
  | inr message :: inbox =>
      match envelope J message with
      | None => (report s (str "malformed message"), inbox, Some (inl Malformed))
      | Some (mkEnvelope inbound_id (Some method)) =>
          let '(s, e) := dispatch s message method inbound_id in
          match e with
          | Some e => (s, inbox, Some (inl e))
          | None => call_loop id inbox s
          end
      | Some (mkEnvelope (Some response_id) None) =>
          if response_id =? id then (s, inbox, Some (answer message)) else call_loop id inbox s
      | Some (mkEnvelope None None) => (report s (str "not a Peers API message"), inbox, Some (inl Malformed))
      end
  end.

Definition bump (id : Z) : Z := Z.max (wrap_add u32_max id 1) 1.

Definition call (s : Session) (method : list Z) (params : option V) (inbox : list (E + list Z))
    : Session * list (E + list Z) * option (SessionError E + T) :=
  let id := next_id s in
  let s := mkSession (sent s) (handler s) (bump id) in
  let '(s, e) := send s (Some id) method params in
  match e with
  | Some e => (s, inbox, Some (inl e))
  | None => call_loop id inbox s
  end.
End Call.
End Session.
Arguments Session H : clear implicits.
Arguments mkSession {H}.
Arguments sent {H}.
Arguments handler {H}.
Arguments next_id {H}.
Arguments api_session_new {H}.

(** ** The change handler of a client *)

Definition Key : Type := list Z.

(** With an allocator: a queue without bound. *)
Record ChangeHandler := mkChange { invalidated : list Key }.
Definition change_new : ChangeHandler := mkChange [].

Definition take_invalidated (h : ChangeHandler) : ChangeHandler * option Key :=
  match invalidated h with
  | [] => (h, None)
  | k :: ks => (mkChange ks, Some k)
  end.
Definition forget (h : ChangeHandler) (public_key : Key) : ChangeHandler :=
  mkChange (retain (fun k => negb (bool_decide (k = public_key))) (invalidated h)).
Definition push_invalidated (h : ChangeHandler) (public_key : Key) : ChangeHandler :=
  if bool_decide (public_key ∈ invalidated h) then h else mkChange (invalidated h ++ [public_key]).

(** Without one: at most [MAX_CHANGES] keys and a flag. *)
Record BoundedChanges := mkBounded { b_invalidated : list Key; b_overflowed : bool }.
(** [Vec::swap_remove] *)
Definition swap_remove (l : list Key) (i : nat) : list Key :=
  match last l with
  | Some x => take (length l - 1) (<[i := x]> l)
  | None => l
  end.
Definition b_take_invalidated (h : BoundedChanges) : BoundedChanges * option Key :=
  match b_invalidated h with
  | [] => (h, None)
  | k :: _ => (mkBounded (swap_remove (b_invalidated h) 0) (b_overflowed h), Some k)
  end.
Definition b_forget (h : BoundedChanges) (public_key : Key) : BoundedChanges :=
  match position (fun k => bool_decide (k = public_key)) (b_invalidated h) with
  | Some i => mkBounded (swap_remove (b_invalidated h) i) (b_overflowed h)
  | None => h
  end.
Definition b_take_overflowed (h : BoundedChanges) : BoundedChanges * bool :=
  (mkBounded (b_invalidated h) false, b_overflowed h).
Definition b_push_invalidated (MAX_CHANGES : nat) (h : BoundedChanges) (public_key : Key) : BoundedChanges :=
  if bool_decide (public_key ∈ b_invalidated h) then h
  else if (length (b_invalidated h) <? MAX_CHANGES)%nat
    then mkBounded (b_invalidated h ++ [public_key]) (b_overflowed h)
    else mkBounded (b_invalidated h) true.

Section Changes.
  Context {V E : Type} (J : Json V).
  (** The [public_key] member of a value, and the base64 engine. *)
  Context (key_param : V -> option (list Z)) (decode_slice : list Z -> option (list Z)).

Definition decode_invalidation_notification (method message : list Z) : option Key :=
  if negb (same method METHOD_CHANGED) && negb (same method METHOD_REMOVED) then None else
  match params_parse (E := E) J message with
  | inl _ => None
  | inr v => text ← key_param v; decode_key_into decode_slice text
  end.

(** The handler of either build: [push] is its [push_invalidated]. *)
Definition change_request {H : Type} (h : H) (method message : list Z) : H * Responded V :=
  (h, unknown_method).
Definition change_notification {H : Type} (push : H -> Key -> H) (h : H) (method message : list Z) : H :=
  match decode_invalidation_notification method message with
  | Some k => push h k
  | None => h
  end.
End Changes.

(** ** Calls return their own answer *)

Section Facts.
  Context {V E H : Type} (J : Json V) (HJ : JsonLaws J).
  Context (TX : nat) (fault : nat -> option E).
  Context (handle_request : H -> list Z -> list Z -> H * Responded V).
  Context (handle_notification : H -> list Z -> list Z -> H).
  Notation dispatch := (dispatch J TX fault handle_request handle_notification).
  Notation call_loop := (call_loop J TX fault handle_request handle_notification).
  Notation call := (call J TX fault handle_request handle_notification).
  Notation poll := (poll J TX fault handle_request handle_notification).
  Notation fits := (fun m => (length (encode J m) <=? TX)%nat).

(** The transport does not fail, and an error report fits the buffer. *)
Definition healthy : Prop :=
  (forall n, fault n = None) /\
  (forall id, fits (OutError (Some id) INTERNAL (str "internal error")) = true).

(** What a handler says, and the response it becomes. *)
Definition reply_message (id : Z) (r : Responded V) : OutMessage V :=
  match r with ROk v => OutResult id v | RError c t => OutError (Some id) c t end.
Definition response (id : Z) (r : Responded V) : OutMessage V :=
  let m := reply_message id r in
  if fits m then m else OutError (Some id) INTERNAL (str "internal error").

(** Serving one message: the handler's state, and the response if there is one. *)
Definition serve (h : H) (m : list Z) : H * list (list Z) :=
  match envelope J m with
  | Some (mkEnvelope None (Some method)) => (handle_notification h method m, [])
  | Some (mkEnvelope (Some id) (Some method)) =>
      let '(h, r) := handle_request h method m in (h, [encode J (response id r)])
  | _ => (h, [])
  end.
Fixpoint serve_all (h : H) (ms : list (list Z)) : H * list (list Z) :=
  match ms with
  | [] => (h, [])
  | m :: ms =>
      let '(h, out) := serve h m in
      let '(h, outs) := serve_all h ms in (h, out ++ outs)
  end.

(** A message a call with this identifier reads past. *)
Definition passes (id : Z) (m : list Z) : bool :=
  match envelope J m with
  | Some (mkEnvelope _ (Some _)) => true
  | Some (mkEnvelope (Some id') None) => negb (id' =? id)
  | _ => false
  end.

Lemma send_text_ok (s : Session H) text :
  healthy -> send_text fault s text = (mkSession (sent s ++ [text]) (handler s) (next_id s), None).
Proof. intros [Hf _]. unfold send_text. by rewrite Hf. Qed.

Lemma dispatch_ok (s : Session H) m method id :
  healthy -> envelope J m = Some (mkEnvelope id (Some method)) ->
  dispatch s m method id =
  (mkSession (sent s ++ (serve (handler s) m).2) (serve (handler s) m).1 (next_id s), None).
Proof.
  intros Hh He. unfold ApiSession.dispatch, serve. rewrite He. destruct id as [id|]; cbn [fst snd].
  - destruct (handle_request (handler s) method m) as [h r]. cbn [fst snd].
    assert (Hr : (match respond (E := E) J TX id r with
             | inr text => inr text
             | inl _ => write_error J TX (Some id) INTERNAL (str "internal error")
             end : SessionError E + list Z) = inr (encode J (response id r))).
    { unfold response, respond, write_error, to_slice. destruct Hh as [_ Hi]. destruct r; cbn beta iota zeta;
        (destruct (length _ <=? TX)%nat; [done|by rewrite Hi]). }
    rewrite Hr. by rewrite send_text_ok.
  - by rewrite app_nil_r.
Qed.

Lemma call_loop_passes {T} (from_value : V -> option T) id ms rest : forall s : Session H,
  healthy -> forallb (passes id) ms = true ->
  call_loop from_value id (map inr ms ++ rest) s =
  call_loop from_value id rest
    (mkSession (sent s ++ (serve_all (handler s) ms).2) (serve_all (handler s) ms).1 (next_id s)).
Proof.
  induction ms as [|m ms IH]; intros s Hh Hp; cbn [map app serve_all].
  { cbn [fst snd]. rewrite app_nil_r. by destruct s. }
  cbn [forallb] in Hp. apply andb_true_iff in Hp as [Hp Hps]. cbn [ApiSession.call_loop].
  unfold passes in Hp. destruct (envelope J m) as [[id' [method|]]|] eqn:He; [| |done].
  - rewrite (dispatch_ok s m method id' Hh He). destruct (serve (handler s) m) as [h out].
    rewrite IH by done. cbn [sent handler next_id fst snd].
    destruct (serve_all h ms) as [h' outs]. cbn [fst snd]. rewrite app_assoc. by destruct id'.
  - destruct id' as [id'|]; [|done]. apply negb_true_iff in Hp. rewrite Hp, IH by done.
    unfold serve. rewrite He. by destruct (serve_all (handler s) ms).
Qed.

(** What the caller makes of a response: a null is no result. *)
Definition outcome {T} (from_value : V -> option T) (r : OutMessage V) : SessionError E + T :=
  match r with
  | OutResult _ v =>
      if is_null J v then inl Malformed else match from_value v with Some t => inr t | None => inl Malformed end
  | OutError _ c t => inl (Remote (remote_new c t))
  | OutCall _ _ _ => inl Malformed
  end.

Lemma response_carried id r : in_width u32_max id = true -> carried J (reply_message id r) = true ->
  carried J (response id r) = true.
Proof.
  intros Hid Hr. unfold response. destruct (length _ <=? TX)%nat; [done|].
  cbn [carried]. change (forallb (in_width u32_max) (option_list (Some id))) with (in_width u32_max id && true).
  by rewrite Hid.
Qed.

Lemma answer_response {T} (from_value : V -> option T) id r : in_width u32_max id = true ->
  carried J (reply_message id r) = true ->
  answer (E := E) J from_value (encode J (response id r)) = outcome from_value (response id r).
Proof.
  intros Hid Hr. apply (response_carried id r Hid) in Hr. unfold answer. revert Hr.
  assert (Hs : match response id r with OutCall _ _ _ => False | _ => True end)
    by (unfold response; destruct (length _ <=? TX)%nat; by destruct r).
  destruct (response id r) as [?|i v|i c t]; [done| |]; intros Hr.
  - rewrite (response_result J HJ) by done. cbn [present mbind option_bind outcome].
    destruct (is_null J v); [done|]. by destruct (from_value v).
  - by rewrite (response_error J HJ).
Qed.

Lemma envelope_response id r : in_width u32_max id = true -> carried J (reply_message id r) = true ->
  envelope J (encode J (response id r)) = Some (mkEnvelope (Some id) None).
Proof.
  intros Hid Hr. rewrite (envelope_reads J HJ) by by apply response_carried.
  unfold response. destruct (length _ <=? TX)%nat; by destruct r.
Qed.
End Facts.

(** C40: a call and the session that serves it. The server's [poll] of the call
    answers it with exactly one message. Whatever the client reads before that
    message (notifications, requests, responses to other calls), its call
    returns what the server's handler said: the result, the error with its text
    cut to 64 bytes, or an internal error where the response did not fit; a null
    result comes back as a malformed response. By then the client's handler has
    seen every message that came before, and answered its requests in order.
    The call and what the handler says can be [carried]: their texts hold
    nothing that JSON escapes and their numbers have their width. *)
Theorem call_round_trip {V E H H' T : Type} (J : Json V) (TX TX' : nat) (fault fault' : nat -> option E)
    (req : H -> list Z -> list Z -> H * Responded V) (note : H -> list Z -> list Z -> H)
    (req' : H' -> list Z -> list Z -> H' * Responded V) (note' : H' -> list Z -> list Z -> H')
    (from_value : V -> option T) (client : Session H) (server : Session H') method params before rest
    (HJ : JsonLaws J) (Hclient : healthy J TX fault) (Hserver : healthy J TX' fault')
    (Hcall : carried J (OutCall (Some (next_id client)) method params) = true)
    (Hfit : (length (encode J (OutCall (Some (next_id client)) method params)) <= TX)%nat)
    (Hbefore : forallb (passes J (next_id client)) before = true) :
  let text := encode J (OutCall (Some (next_id client)) method params) in
  let '(h, said) := req' (handler server) method text in
  carried J (reply_message (next_id client) said) = true ->
  let m := response J TX' (next_id client) said in
  let '(h0, replies) := serve_all J TX req note (handler client) before in
  poll J TX' fault' req' note' server [inr text] =
    (mkSession (sent server ++ [encode J m]) h (next_id server), [], Some (inr tt)) /\
  call J TX fault req note from_value client method params (map inr before ++ inr (encode J m) :: rest) =
    (mkSession ((sent client ++ [text]) ++ replies) h0 (bump (next_id client)), rest,
     Some (outcome J from_value m)).
Proof.
  intros text. destruct (req' (handler server) method text) as [h said] eqn:Er. cbn zeta. intros Hsaid.
  assert (Hid : in_width u32_max (next_id client) = true).
  { cbn [carried] in Hcall. rewrite !andb_true_iff in Hcall. destruct Hcall as [[Hid _] _].
    change (in_width u32_max (next_id client) && true = true) in Hid. by rewrite andb_true_r in Hid. }
  destruct (serve_all J TX req note (handler client) before) as [h0 replies] eqn:Es. split.
  - assert (He : envelope J text = Some (mkEnvelope (Some (next_id client)) (Some method)))
      by by apply (envelope_reads J HJ).
    cbn [poll]. rewrite He, (dispatch_ok J TX' fault' req' note' server text method _ Hserver He).
    unfold serve. by rewrite He, Er.
  - unfold call, send, to_slice. fold text. destruct (Nat.leb_spec (length text) TX); [|unfold text in *; lia].
    rewrite (send_text_ok J TX) by done.
    rewrite (call_loop_passes J TX fault req note from_value) by done. cbn [sent handler next_id].
    rewrite Es. cbn [fst snd call_loop]. rewrite envelope_response by done.
    rewrite Z.eqb_refl, (answer_response J HJ TX' from_value) by done. done.
Qed.

(** Identifiers are positive [u32]s, and two calls in a row have different ones. *)
Lemma bump_id id : 1 <= id <= u32_max -> 1 <= bump id <= u32_max /\ bump id <> id.
Proof.
  unfold bump, wrap_add, u32_max. intros H. pose proof (Z.mod_pos_bound (id + 1) (4294967295 + 1) ltac:(lia)).
  destruct (decide (id = 4294967295)) as [->|]; [vm_compute; split; [split|]; congruence|].
  rewrite Z.mod_small by lia. lia.
Qed.

(** ** No invalidation is lost to a race *)

Lemma push_keeps h k k' : k ∈ invalidated h -> k ∈ invalidated (push_invalidated h k').
Proof. unfold push_invalidated. case_bool_decide; cbn; [done|]. rewrite elem_of_app. auto. Qed.
Lemma push_adds h k : k ∈ invalidated (push_invalidated h k).
Proof. unfold push_invalidated. case_bool_decide; cbn; [done|]. rewrite elem_of_app, list_elem_of_singleton. auto. Qed.

Lemma snoc_NoDup (l : list Key) k : k ∉ l -> NoDup l -> NoDup (l ++ [k]).
Proof.
  intros Hk H. apply NoDup_app. split_and!; [done| |apply NoDup_singleton].
  by intros x Hx ->%list_elem_of_singleton.
Qed.
Lemma push_NoDup h k : NoDup (invalidated h) -> NoDup (invalidated (push_invalidated h k)).
Proof. unfold push_invalidated. case_bool_decide as Hk; cbn; [done|]. by apply snoc_NoDup. Qed.

(** Without an allocator: in the queue, or the flag is raised. *)
Definition b_noted (k : Key) (h : BoundedChanges) : Prop := k ∈ b_invalidated h \/ b_overflowed h = true.
Definition b_sound (MAX_CHANGES : nat) (h : BoundedChanges) : Prop :=
  NoDup (b_invalidated h) /\ (length (b_invalidated h) <= MAX_CHANGES)%nat.

Lemma b_push_keeps n h k k' : b_noted k h -> b_noted k (b_push_invalidated n h k').
Proof.
  unfold b_noted, b_push_invalidated. case_bool_decide; [done|]. destruct (_ <? _)%nat; cbn; [|auto].
  rewrite elem_of_app. tauto.
Qed.
Lemma b_push_adds n h k : b_noted k (b_push_invalidated n h k).
Proof.
  unfold b_noted, b_push_invalidated. case_bool_decide; [auto|]. destruct (_ <? _)%nat; cbn; [|auto].
  rewrite elem_of_app, list_elem_of_singleton. auto.
Qed.
Lemma b_push_sound n h k : b_sound n h -> b_sound n (b_push_invalidated n h k).
Proof.
  unfold b_sound, b_push_invalidated. case_bool_decide as Hk; [done|]. intros [H1 H2].
  destruct (Nat.ltb_spec (length (b_invalidated h)) n); cbn; [|done].
  split; [by apply snoc_NoDup|]. rewrite length_app. cbn. lia.
Qed.

Section Raced.
  Context {V E H : Type} (J : Json V) (TX : nat) (fault : nat -> option E).
  Context (key_param : V -> option (list Z)) (decode_slice : list Z -> option (list Z)).
  Context (push : H -> Key -> H).
  Notation note := (change_notification (E := E) J key_param decode_slice push).
  Notation decoded := (decode_invalidation_notification (E := E) J key_param decode_slice).

(** What a push keeps is kept by serving messages. *)
Lemma serve_all_inv (I : H -> Prop) ms : (forall h k, I h -> I (push h k)) ->
  forall h, I h -> I (serve_all J TX change_request note h ms).1.
Proof.
  intros Hpush. induction ms as [|m ms IH]; intros h Hh; cbn [serve_all]; [done|].
  assert (H1 : I (serve J TX change_request note h m).1).
  { unfold serve. destruct (envelope J m) as [[[id|] [method|]]|]; try done.
    cbn [fst]. unfold change_notification. destruct (decoded method m); auto. }
  destruct (serve J TX change_request note h m) as [h1 out]. cbn [fst] in H1.
  apply IH in H1. by destruct (serve_all J TX change_request note h1 ms).
Qed.

Lemma serve_all_notes (P : H -> Prop) ms m method k :
  (forall h k', P h -> P (push h k')) -> (forall h, P (push h k)) ->
  m ∈ ms -> envelope J m = Some (mkEnvelope None (Some method)) -> decoded method m = Some k ->
  forall h, P (serve_all J TX change_request note h ms).1.
Proof.
  intros Hkeep Hadd Hm He Hd. induction ms as [|m' ms IH]; intros h; cbn [serve_all]; [by apply elem_of_nil in Hm|].
  apply elem_of_cons in Hm as [<-|Hm].
  - assert (Hk : P (serve J TX change_request note h m).1).
    { unfold serve. rewrite He. cbn [fst]. unfold change_notification. by rewrite Hd. }
    destruct (serve J TX change_request note h m) as [h1 out]. cbn [fst] in Hk.
    apply (serve_all_inv P ms) in Hk; [|done]. by destruct (serve_all J TX change_request note h1 ms).
  - destruct (serve J TX change_request note h m') as [h1 out]. specialize (IH Hm h1).
    by destruct (serve_all J TX change_request note h1 ms).
Qed.

(** A call that reads past [before] leaves the handler that served it. *)
Lemma raced_call {T} (from_value : V -> option T) (client : Session H) method params before m rest :
  healthy J TX fault -> (length (encode J (OutCall (Some (next_id client)) method params)) <= TX)%nat ->
  forallb (passes J (next_id client)) before = true ->
  envelope J m = Some (mkEnvelope (Some (next_id client)) None) ->
  exists s, call J TX fault change_request note from_value client method params (map inr before ++ inr m :: rest)
      = (s, rest, Some (answer J from_value m))
    /\ handler s = (serve_all J TX change_request note (handler client) before).1.
Proof.
  intros Hh Hfit Hbefore Hm. unfold call, send, to_slice.
  destruct (Nat.leb_spec (length (encode J (OutCall (Some (next_id client)) method params))) TX); [|lia].
  rewrite (send_text_ok J TX) by done. rewrite (call_loop_passes J TX fault) by done.
  cbn [sent handler next_id call_loop]. rewrite Hm, Z.eqb_refl. eauto.
Qed.
End Raced.

(** C39: no invalidation is lost to a race with a lookup. When a call returns
    its response, every key that a change or removal notice named between the
    call and the response has been taken down by the change handler. With an
    allocator it is in the queue, which names no key twice. Without one it is
    in the queue, which names no key twice and holds at most [MAX_CHANGES], or
    the overflow flag is raised, which says that keys may be missing. *)
Theorem raced_invalidation_queued {V E T : Type} (J : Json V) (TX : nat) (fault : nat -> option E)
    (key_param : V -> option (list Z)) (decode_slice : list Z -> option (list Z)) (from_value : V -> option T)
    (MAX_CHANGES : nat) (client : Session ChangeHandler) (bounded : Session BoundedChanges)
    method params before m rest notice method' k
    (Hh : healthy J TX fault)
    (Hfit : (length (encode J (OutCall (Some (next_id client)) method params)) <= TX)%nat)
    (Hbefore : forallb (passes J (next_id client)) before = true)
    (Hm : envelope J m = Some (mkEnvelope (Some (next_id client)) None))
    (Hin : notice ∈ before) (Hnotice : envelope J notice = Some (mkEnvelope None (Some method')))
    (Hk : decode_invalidation_notification (E := E) J key_param decode_slice method' notice = Some k)
    (Hnd : NoDup (invalidated (handler client)))
    (Hid : next_id bounded = next_id client) (Hb : b_sound MAX_CHANGES (handler bounded)) :
  let inbox := map inr before ++ inr m :: rest in
  (let '(client', rest', result) :=
     call J TX fault change_request (change_notification (E := E) J key_param decode_slice push_invalidated)
       from_value client method params inbox in
   rest' = rest /\ result = Some (answer J from_value m) /\
   k ∈ invalidated (handler client') /\ NoDup (invalidated (handler client'))) /\
  (let '(bounded', rest', result) :=
     call J TX fault change_request
       (change_notification (E := E) J key_param decode_slice (b_push_invalidated MAX_CHANGES))
       from_value bounded method params inbox in
   rest' = rest /\ result = Some (answer J from_value m) /\
   (k ∈ b_invalidated (handler bounded') \/ b_overflowed (handler bounded') = true) /\
   NoDup (b_invalidated (handler bounded')) /\ (length (b_invalidated (handler bounded')) <= MAX_CHANGES)%nat).
Proof.
  cbv zeta. split.
  - destruct (raced_call J TX fault key_param decode_slice push_invalidated from_value client method params before m rest)
      as (s & -> & Hs); try done. rewrite Hs. split_and!; try done.
    + apply (serve_all_notes J TX key_param decode_slice push_invalidated (fun h => k ∈ invalidated h) before notice method' k);
        auto using push_keeps, push_adds.
    + apply (serve_all_inv J TX key_param decode_slice push_invalidated (fun h => NoDup (invalidated h))); auto using push_NoDup.
  - destruct (raced_call J TX fault key_param decode_slice (b_push_invalidated MAX_CHANGES) from_value bounded method params
      before m rest) as (s & -> & Hs); try by rewrite ?Hid. rewrite Hs. split_and!; try done.
    + apply (serve_all_notes J TX key_param decode_slice (b_push_invalidated MAX_CHANGES) (b_noted k) before notice method' k);
        auto using b_push_keeps, b_push_adds.
    + apply (serve_all_inv J TX key_param decode_slice (b_push_invalidated MAX_CHANGES) (b_sound MAX_CHANGES));
        auto using b_push_sound.
    + apply (serve_all_inv J TX key_param decode_slice (b_push_invalidated MAX_CHANGES) (b_sound MAX_CHANGES));
        auto using b_push_sound.
Qed.

(** ** A concrete encoding *)
Module ToyJson.

Definition enc_id (id : option Z) : list Z := match id with None => [0; 0] | Some i => [1; i] end.
Definition dec_id (tag i : Z) : option Z := if tag =? 0 then None else Some i.
Definition encode (m : OutMessage (list Z)) : list Z :=
  match m with
  | OutCall id method params =>
      0 :: enc_id id ++ Z.of_nat (length method) :: method ++ match params with None => [0] | Some v => 1 :: v end
  | OutResult id v => 1 :: id :: v
  | OutError id code t => 2 :: enc_id id ++ code :: t
  end.
Definition decode (bs : list Z) : option (OutMessage (list Z)) :=
  match bs with
  | 0 :: tag :: i :: n :: r =>
      match drop (Z.to_nat n) r with
      | 0 :: _ => Some (OutCall (dec_id tag i) (take (Z.to_nat n) r) None)
      | 1 :: v => Some (OutCall (dec_id tag i) (take (Z.to_nat n) r) (Some v))
      | _ => None
      end
  | 1 :: i :: v => Some (OutResult i v)
  | 2 :: tag :: i :: c :: t => Some (OutError (dec_id tag i) c t)
  | _ => None
  end.
(** An empty text stands for null. *)
Definition null (v : list Z) : bool := bool_decide (v = []).
Definition reads_as (o : option (list Z)) : option (list Z) := v ← o; if null v then None else Some v.
Definition json : Json (list Z) := {|
  ApiSession.encode := encode;
  envelope bs := m ← decode bs;
    Some (match m with
          | OutCall id method _ => mkEnvelope id (Some method)
          | OutResult id _ => mkEnvelope (Some id) None
          | OutError id _ _ => mkEnvelope id None
          end);
  params_of bs := m ← decode bs; Some (match m with OutCall _ _ p => reads_as p | _ => None end);
  response_of bs := m ← decode bs;
    Some (match m with
          | OutResult _ v => mkResponse (reads_as (Some v)) None
          | OutError _ c t => mkResponse None (Some (c, t))
          | OutCall _ _ _ => mkResponse None None
          end);
  is_null := null;
  readable := plain_text |}.

Lemma decode_encode m : decode (encode m) = Some m.
Proof.
  destruct m as [id method params|id v|[i|] c t]; try done.
  cbn [encode]. destruct id as [i|]; cbn [enc_id app decode];
    rewrite Nat2Z.id, take_app_length, drop_app_length; by destruct params.
Qed.
Lemma json_laws : JsonLaws json.
Proof. split; intros; cbn [json ApiSession.encode envelope params_of response_of]; by rewrite decode_encode. Qed.
Lemma json_healthy {E} : healthy (E := E) json 256 (fun _ => None).
Proof. split; [done|]. intros id. vm_compute. done. Qed.
End ToyJson.

(** A client asks for a peer; before the answer a notice names the key. *)
Definition demo_key : list Z := str "MzMzMzMzMzMzMzMzMzMzMzMzMzMzMzMzMzMzMzMzMzM=".
Definition demo_notice : list Z := ToyJson.encode (OutCall None METHOD_CHANGED (Some demo_key)).
Definition demo_decode_slice (text : list Z) : option (list Z) := Some (take 32 text).
Definition demo_client : Session ChangeHandler := api_session_new change_new.

Lemma call_round_trip_witness :
  call ToyJson.json 256 (fun _ : nat => @None unit) change_request
    (change_notification (E := unit) ToyJson.json Some demo_decode_slice push_invalidated) Some demo_client
    (str "peer.by_key") (Some demo_key) [inr demo_notice; inr (ToyJson.encode (OutResult 1 (str "ok")))] =
  (mkSession [ToyJson.encode (OutCall (Some 1) (str "peer.by_key") (Some demo_key))]
    (mkChange [take 32 demo_key]) 2, [], Some (inr (str "ok"))).
Proof.
  refine (proj2 (call_round_trip (E := unit) ToyJson.json 256 256 (fun _ => None) (fun _ => None)
    change_request (change_notification (E := unit) ToyJson.json Some demo_decode_slice push_invalidated)
    (fun h _ _ => (h, ROk (str "ok"))) (fun h _ _ => h) Some demo_client (api_session_new tt)
    (str "peer.by_key") (Some demo_key) [demo_notice] [] _ _ _ _ _ _ _)).
  - exact ToyJson.json_laws.
  - exact ToyJson.json_healthy.
  - exact ToyJson.json_healthy.
  - vm_compute. reflexivity.
  - apply Nat.leb_le. vm_compute. reflexivity.
  - vm_compute. reflexivity.
  - vm_compute. reflexivity.
Defined.

(** A null result does not come back as one. *)
Example null_result_malformed :
  (call ToyJson.json 256 (fun _ : nat => @None unit) change_request
    (change_notification (E := unit) ToyJson.json Some demo_decode_slice push_invalidated) (Some (A := list Z)) demo_client
    (str "peer.by_key") None [inr (ToyJson.encode (OutResult 1 []))]).2 = Some (inl Malformed).
Proof. vm_compute. reflexivity. Qed.

Definition demo_bounded : Session BoundedChanges := api_session_new (mkBounded [] false).

Lemma raced_invalidation_queued_witness :
  take 32 demo_key ∈ invalidated (handler
    (call ToyJson.json 256 (fun _ : nat => @None unit) change_request
      (change_notification (E := unit) ToyJson.json Some demo_decode_slice push_invalidated) (Some (A := list Z)) demo_client
      (str "peer.by_key") (Some demo_key) [inr demo_notice; inr (ToyJson.encode (OutResult 1 [7; 7]))]).1.1).
Proof.
  apply (raced_invalidation_queued ToyJson.json 256 (fun _ : nat => @None unit) Some demo_decode_slice (Some (A := list Z))
    4 demo_client demo_bounded (str "peer.by_key") (Some demo_key) [demo_notice]
    (ToyJson.encode (OutResult 1 [7; 7])) [] demo_notice METHOD_CHANGED (take 32 demo_key)).
  - exact ToyJson.json_healthy.
  - apply Nat.leb_le. vm_compute. reflexivity.
  - vm_compute. reflexivity.
  - vm_compute. reflexivity.
  - left.
  - vm_compute. reflexivity.
  - vm_compute. reflexivity.
  - apply NoDup_nil_2.
  - reflexivity.
  - split; [apply NoDup_nil_2|vm_compute; lia].
Defined.
